(* ===== verification/_CoqProject ===== *)
-Q . S2P
Prelude.v
Text.v
CoreTypes.v
ScalarTypes.v
TensorIds.v
Options.v
CoreProperties.v
Geometry.v
Strides.v
TensorImpl.v
Views.v
ViewsSpec.v
ComputeStride.v
ShapeProperties.v
TensorProperties.v
DynamicDAG.v
DynamicDAGSpec.v
DagReorder.v
DagEdges.v
DagContract.v
DagProperties.v
CudaRuntime.v
CudaStream.v
CudaStreamSpec.v
CudaStreamProperties.v
CudaAllocator.v
CudaHeap.v
CudaChains.v
CudaAllocSpec.v
CudaFree.v
CudaRelease.v
CudaClient.v
CudaMalloc.v
CudaProperties.v
RefCount.v
RefCountSpec.v
RefCountSteps.v
RefCountProperties.v
JitTypes.v
JitTypesSpec.v
JitTypesValues.v
JitProfiled.v
JitTypesProperties.v
TensorIterator.v
IterLoop.v
IterDims.v
IterBuild.v
IterSplit.v
IterProperties.v
JitGraph.v
IRSpec.v
IRUses.v
IRLists.v
IROrder.v
IRNames.v
IRBuild.v
IRBlocks.v
IRDestroy.v
IROps.v
JitGraphOps.v
IRClone.v
IRProperties.v
IRNodeProperties.v
AutogradEngine.v
EngineGraph.v
EngineSpec.v
EngineTurns.v
EngineProgress.v
EngineSteps.v
EngineInvariant.v
EngineResults.v
EngineLive.v
EngineSafety.v
EngineSample.v
EngineProperties.v
LeftRight.v
LeftRightProofs.v
Dispatcher.v
DispatchProofs.v
DispatchProperties.v
