(* ===== verification/Prelude.v ===== *)
(** * A verification library for the core of PyTorch 1.1

    The repository is PyTorch 1.1.0: [c10] holds the value types, the allocators and
    the tensor metadata, [aten] the operators, [torch/csrc] autograd and the JIT,
    [caffe2] a second framework.  This library models core pieces of [c10], [aten]
    and [torch/csrc] as functions on explicit states and proves what makes them
    correct.  Definitions carry the names of the sources.

    ** The parts, and the code they model

    Values (c10/core):
    - [CoreTypes]: DeviceType.h/.cpp, Device.h/.cpp, Stream.h; [Text] has the string
      functions they use (printing and [std::stoi]).
    - [ScalarTypes]: ScalarType.h (the macro tables written out, type promotion), QScheme.h.
    - [TensorIds]: TensorTypeIdRegistration.h/.cpp, the registry as a state.
    - [Options]: Backend.h, Layout.h, TensorOptions.h.
    - [CoreProperties]: streams and devices survive packing and printing; promotion is a
      join; tensor type ids are distinct until the counter overflows; the id that
      options resolve to remembers layout and device.

    Shapes and tensors (c10/core/TensorImpl, aten/src/ATen, aten/src/TH):
    - [Geometry]: WrapDimMinimal.h, WrapDimUtils.h, WrapDimUtilsMulti.h, InferSize.h,
      ExpandUtils.h/.cpp, TensorGeometry.h/.cpp, the geometry of TensorUtils.cpp; [Strides]
      has the theory of offsets, row-major numbering and broadcasting.
    - [TensorImpl]: the metadata of TensorImpl.h/.cpp as a record and a state monad.
    - [Views]: native/TensorShape.cpp (slice, narrow, select, split, chunk, expand, permute,
      transpose, squeeze, unsqueeze, view, ...) and native/Resize.h; [ViewsSpec] has
      what each of them reads.
    - [ComputeStride]: THTensor_compute_stride of THTensor.cpp.
    - [ShapeProperties], [TensorProperties]: broadcasting gives the least upper bound,
      contiguity is row-major numbering, the strides of a view keep the order of the
      elements, each view reads the elements it should, cached sizes stay true, and
      accepted strides stay inside the storage.

    The dynamic DAG of the JIT (torch/csrc/jit/dynamic_dag.h):
    - [DynamicDAG] is the whole class on a list of vertices, with undefined behaviour for
      null dereferences; [DynamicDAGSpec] the invariant (symmetric edges, a topological
      order of the indices); [DagReorder] the order argument and the reordering;
      [DagEdges] the operations on single edges and vertices, [DagContract] contraction.
    - [DagProperties]: every operation does exactly what it says to the graph and keeps a
      topological order, and fails only on cycles.

    CUDA memory and streams (c10/cuda):
    - [CudaRuntime]: the CUDA runtime as a class of calls with the documented behaviour as
      laws; CUDAException.h, CUDAFunctions.h, CUDAGuardImpl.h, InlineDeviceGuard.h; a
      machine on which runs evaluate.
    - [CudaStream]: CUDAStream.cpp; [CudaStreamSpec] its invariant, [CudaStreamProperties]
      handles, round robin and current streams.
    - [CudaAllocator]: CUDACachingAllocator.cpp, with the blocks as a heap of linked cells;
      [CudaHeap] and [CudaChains] have the ordered pools, the disjoint blocks
      and the chains of split blocks; [CudaAllocSpec] the invariant, and [CudaFree],
      [CudaRelease], [CudaClient], [CudaMalloc] one group of operations each.
    - [CudaProperties]: the allocator refines a map from addresses to sizes that knows
      nothing of blocks, and that changes by the calls and by what the callbacks of
      [malloc] are said to free; memory is never shared, statistics are exact, cached memory
      goes back, and where these guarantees end.

    Reference counting (c10/util/intrusive_ptr.h):
    - [RefCount]: the smart pointers as the atomic operations they perform, run by threads
      in any order; [RefCountSpec] counts references as credits,
      [RefCountSteps] shows that every step keeps the balance.
    - [RefCountProperties]: safety in every interleaving but one race, which is exhibited.

    The types of the JIT (aten/src/ATen/core/jit_type.h, type.cpp):
    - [JitTypes]: types as trees, equality and subtyping with an override per type,
      unification, type variables, and the typing of values; [JitProfiled] the profiled
      shapes.
    - [JitTypesSpec] has the rules [isSubtypeOf] decides and their order, [JitTypesValues]
      the values of a type, matching and evaluation.
    - [JitTypesProperties]: subtyping is a partial order and sound for values, so is
      unification, which never throws; evaluation gives back what was matched; merging
      shapes is a least upper bound; and the constructors that do not do what they mean to.

    Iteration over strided operands (aten/src/ATen/native/TensorIterator.h/.cpp, Parallel.h):
    - [TensorIterator]: the builder's steps, the loops as the lists of calls they make, and
      the functions that cut an iterator.
    - [IterLoop]: the numbers of the elements, the counter and the loops; [IterDims] the two
      changes of the dimensions; [IterBuild] all steps of [build], and when they return;
      [IterSplit] the cuts and their termination.
    - [IterProperties]: a built iterator visits exactly the broadcast elements of its
      tensors, in as many threads as there are, and its 32-bit pieces together do the same.

    The graph of the JIT (torch/csrc/jit/ir.h, ir.cpp, attributes.h, scope.h):
    - [JitGraph]: attributes, values, nodes, blocks and graphs as cells of a store, with all
      operations on inputs, outputs, blocks, names and lists of nodes; [JitGraphOps] makes
      nodes of each kind, copies and inlines graphs, and checks them ([lint]).
    - [IRSpec]: the invariant of a store, one part for uses, outputs, blocks, rings, orders
      and names.  [IRUses], [IRLists], [IROrder], [IRNames], [IRBuild], [IRBlocks], [IRDestroy]
      show what one group of operations does and that it keeps the invariant; [IROps] puts
      them into sequences and has a graph on which the properties evaluate; [IRClone] is
      about the checks and copies.
    - [IRProperties], [IRNodeProperties]: sequences of operations never fail, lists of nodes
      change as lists do, [isBefore] is the order of the list, names are unique.

    The autograd engine (torch/csrc/autograd/engine.cpp, input_buffer.cpp):
    - [AutogradEngine]: [execute] and the worker threads with their queues, the mutex and the
      condition variable of each graph task, nested calls and exceptions.  A step of a thread
      goes from one access of shared data to the next.  A caller that waits sleeps until a
      worker calls [notify_all] for its graph task, or a spurious wake-up comes; it then needs
      the mutex to look at the counter again.  Tensors are a class, functions say what they return, raise
      or execute for the inputs they get.
    - [EngineGraph]: the edges that [compute_dependencies] counts and the
      functions that [init_to_execute] marks.
    - [EngineSpec] has the abstract machine of one graph task and its invariant, [EngineTurns]
      and [EngineProgress] show that the machine keeps it; [EngineSteps]
      that every step of the engine is a turn of at most one such machine;
      [EngineInvariant] that all graph tasks of all reachable states have the invariant.
    - [EngineResults]: what a finished pass has computed, and that it does not
      depend on the schedule; [EngineLive] the work that is left, which every step but a
      spurious wake-up makes less, and the notifications that sleepers are owed;
      [EngineSafety] that no step is undefined when functions are sound; [EngineSample] runs
      passes.
    - [EngineProperties]: no function is called twice or too early, a finished pass returns
      the sums over the edges, one in which a function failed rethrows one of its exceptions; no pass
      without nested ones gets stuck; and the two interleavings in which the threads go wrong.

    Reading without waiting, and the operator dispatcher (c10/util/LeftRight.h,
    aten/src/ATen/core/dispatch, op_registration):
    - [LeftRight]: two copies of an object, one for the readers and one for the writer.  A
      step of a thread is one access of a shared variable; a loop that waits has no step
      until its condition holds.  [LeftRightProofs]: every interleaving does what calls that
      happen at one moment do, a writer has its copy for itself, readers never wait, and no
      call waits for ever.
    - [Dispatcher]: schemas and their equality, the table of kernels of an operator, the
      list of operators with its counters and listeners, and the registrars that register
      in their constructor and deregister in their destructor.  A handle is the number of a
      node of the list; the use of an erased node is undefined.  Kernels are opaque.
    - [DispatchProofs]: what each call changes, and the invariant of registrars, the kernels
      they were given, and operators; [DispatchProperties]: a call gets the kernel of its
      first tensor argument; counters and keyed kernels are exactly those of the live
      registrars, and a fallback kernel is that of one of them, but it may be gone too early.

    ** Conventions

    A call that may throw is an [outcome], one that also changes a state an [SE]; the
    state is kept when it throws.  [Undefined] is undefined behaviour, and the theorems
    say that it does not happen.  [int64_t] arithmetic wraps around ([int64], [add64], ...),
    as does arithmetic on the other widths ([wrapU], [wrapS]).  Loops recurse on the list
    they run over, or on fuel: the searches of the DAG take the number of vertices, the
    walks of the allocator the number of blocks, the loops of an iterator the number of its
    elements, the walks over a graph of the JIT the number of its nodes ([list_fuel]) or
    blocks ([block_fuel]), and the searches of the engine the functions and edges
    ([needed_fuel]); the theorems show that they end before it runs out.  Calls of
    different threads are atomic steps, but for [RefCount], whose steps are the single
    atomic operations, and [AutogradEngine] and [LeftRight], whose steps are the single
    accesses of shared data; memory is sequentially consistent.

    ** Not modelled

    Numeric kernels on floating point buffers (aten/src/ATen/native, TH, THC, THNN and the
    operators of caffe2), code that the build generates, Python bindings, I/O, the network,
    the threads of the caffe2 nets, and third-party code.  Of the modelled files: printing,
    except where it is read back; getIpcDevPtr and the texts of the allocator; the autograd
    and Python fields of a tensor; the registry of classes and their methods; the operators
    of Python and of the profiler in a graph, and the search for the schema of a node; the
    parser of schemas and the boxing of kernels; the final callbacks, device guards, anomaly
    stacks and the Python engine of autograd.  The reductions of TensorIterator, the overlap
    of memory and the passes of the JIT are left for later. *)
From Stdlib Require Export ZArith Lia.
From stdpp Require Export base option list strings gmap fin_maps sets numbers.
Local Open Scope Z_scope.

(** ** C++ exceptions *)

(** What a call may throw.  [AT_ERROR], [AT_CHECK] and [AT_ASSERT] throw
    [c10::Error]; [AT_INDEX_ERROR] throws [c10::IndexError]; the rest are the
    standard exceptions the sources name.  [Undefined] marks an execution whose
    behaviour C++ leaves undefined (a null dereference, [operator[]] past the
    end): the models never give such an execution a made-up result.
    [Terminate] is the call of [std::terminate] by an exception that reaches the
    boundary of a [noexcept] function. *)
Inductive exn : Type :=
  | C10Error (what : string)
  | IndexError (what : string)
  | RuntimeError (what : string)
  | StdOutOfRange (what : string)
  | StdInvalidArgument (what : string)
  | StdLogicError (what : string)
  | Undefined (what : string)
  | Terminate (what : string).

#[export] Instance exn_eq_dec : EqDecision exn.
Proof. solve_decision. Defined.

(** The result of a call: a value, or the exception it throws. *)
Inductive outcome (A : Type) : Type :=
  | Ok (a : A)
  | Throw (e : exn).
Arguments Ok {A} a.
Arguments Throw {A} e.

#[export] Instance outcome_eq_dec `{EqDecision A} : EqDecision (outcome A).
Proof. solve_decision. Defined.

#[export] Instance outcome_ret : MRet outcome := @Ok.
#[export] Instance outcome_bind : MBind outcome := λ A B f m,
  match m with Ok a => f a | Throw e => Throw e end.
#[export] Instance outcome_fmap : FMap outcome := λ A B f m,
  match m with Ok a => Ok (f a) | Throw e => Throw e end.
#[export] Instance outcome_throw : MThrow exn outcome := λ A e, Throw e.

(** Whether a call returned. *)
Definition returns {A} (m : outcome A) : bool :=
  match m with Ok _ => true | Throw _ => false end.

(** A call that works on an object or a store of type [S].  The state is
    returned next to the outcome because a C++ exception does not undo the
    writes that came before it. *)
Definition SE (S A : Type) : Type := S → outcome A * S.

#[export] Instance SE_ret {S} : MRet (SE S) := λ A a s, (Ok a, s).
#[export] Instance SE_bind {S} : MBind (SE S) := λ A B f m s,
  match m s with (Ok a, s') => f a s' | (Throw e, s') => (Throw e, s') end.
#[export] Instance SE_throw {S} : MThrow exn (SE S) := λ A e s, (Throw e, s).

Definition get {S} : SE S S := λ s, (Ok s, s).
Definition gets {S A} (f : S → A) : SE S A := λ s, (Ok (f s), s).
Definition put {S} (s' : S) : SE S unit := λ s, (Ok tt, s').
Definition modify {S} (f : S → S) : SE S unit := λ s, (Ok tt, f s).
(** A call that neither reads nor writes the state. *)
Definition lift {S A} (m : outcome A) : SE S A := λ s, (m, s).

(** [AT_CHECK(cond, ...)] and [AT_ASSERT(cond)]. *)
Definition AT_CHECK {M : Type → Type} `{MRet M, MThrow exn M} (b : bool) (what : string) : M unit :=
  if b then mret tt else mthrow (C10Error what).
Definition AT_ASSERT {M : Type → Type} `{MRet M, MThrow exn M} (b : bool) : M unit :=
  AT_CHECK b "assertion failed".
Definition AT_ERROR {M : Type → Type} `{MThrow exn M} {A} (what : string) : M A :=
  mthrow (C10Error what).

(** The body of a function declared [noexcept]. *)
Definition noexcept {A} (m : outcome A) : outcome A :=
  match m with
  | Ok a => Ok a
  | Throw (Undefined what) => Throw (Undefined what)
  | Throw _ => Throw (Terminate "std::terminate")
  end.

Lemma noexcept_Ok {A} (m : outcome A) a : noexcept m = Ok a ↔ m = Ok a.
Proof. destruct m as [|[]]; done. Qed.

(** [for (auto& x : xs) body(x)]. *)
Fixpoint foreach {M : Type → Type} `{MRet M, MBind M} {A} (xs : list A) (body : A → M unit) : M unit :=
  match xs with
  | [] => mret tt
  | x :: xs => body x ≫= λ _, foreach xs body
  end.

(** The short-circuit [a && b] of two calls that may throw. *)
Definition and_then (a b : outcome bool) : outcome bool :=
  a ≫= λ x : bool, if x then b else Ok false.
Definition or_else (a b : outcome bool) : outcome bool :=
  a ≫= λ x : bool, if x then Ok true else b.

Lemma outcome_bind_Ok {A B} (m : outcome A) (f : A → outcome B) b :
  m ≫= f = Ok b ↔ ∃ a, m = Ok a ∧ f a = Ok b.
Proof. destruct m as [a|e']; cbn; split; [eauto|by intros (? & [= <-] & ?)|done|by intros (? & [=] & ?)]. Qed.

Lemma outcome_bind_Throw {A B} (m : outcome A) (f : A → outcome B) e :
  m ≫= f = Throw e ↔ m = Throw e ∨ ∃ a, m = Ok a ∧ f a = Throw e.
Proof.
  destruct m as [a|e']; cbn; split.
  - eauto.
  - intros [[=]|(? & [= <-] & ?)]; done.
  - intros [= ->]. by left.
  - intros [[= ->]|(? & [=] & ?)]; done.
Qed.

Lemma SE_bind_Ok {S A B} (m : SE S A) (f : A → SE S B) s b s' :
  (m ≫= f) s = (Ok b, s') ↔ ∃ a s1, m s = (Ok a, s1) ∧ f a s1 = (Ok b, s').
Proof. unfold mbind, SE_bind. destruct (m s) as [[a|e] s1]; split.
  - eauto.
  - by intros (? & ? & [= <- <-] & ?).
  - done.
  - by intros (? & ? & [=] & ?).
Qed.

(** One step of a call on a known state. *)
Lemma run_bind {S A B} (m : SE S A) (f : A → SE S B) s a s' : m s = (Ok a, s') → (m ≫= f) s = f a s'.
Proof. intros E. unfold mbind, SE_bind. by rewrite E. Qed.
Lemma run_bind_throw {S A B} (m : SE S A) (f : A → SE S B) s e s' :
  m s = (Throw e, s') → (m ≫= f) s = (Throw e, s').
Proof. intros E. unfold mbind, SE_bind. by rewrite E. Qed.
Lemma run_assert {S A} b (f : unit → SE S A) s : b = true → (AT_ASSERT b ≫= f) s = f tt s.
Proof. by intros ->. Qed.
Lemma run_get {S A} (f : S → SE S A) s : (get ≫= f) s = f s s.
Proof. done. Qed.
Lemma run_ret {S A B} (a : A) (f : A → SE S B) s : (mret a ≫= f) s = f a s.
Proof. done. Qed.

(** ** Weakest preconditions

    [wp m Q E s]: from [s] the call [m] returns with [Q] or throws with [E]. *)
Definition wp {S A} (m : SE S A) (Q : A → S → Prop) (E : exn → S → Prop) (s : S) : Prop :=
  match m s with (Ok a, s') => Q a s' | (Throw e, s') => E e s' end.

Section wp.
Context {S : Type}.
Implicit Types (s : S) (E : exn → S → Prop).

Lemma wp_bind {A B} (m : SE S A) (f : A → SE S B) (Q : B → S → Prop) E s :
  wp m (λ a, wp (f a) Q E) E s → wp (m ≫= f) Q E s.
Proof. unfold wp, mbind, SE_bind. by destruct (m s) as [[a|e] s']. Qed.

Lemma wp_mono {A} (m : SE S A) (Q Q' : A → S → Prop) E s :
  wp m Q E s → (∀ a s', Q a s' → Q' a s') → wp m Q' E s.
Proof. unfold wp. destruct (m s) as [[a|e] s']; auto. Qed.

Lemma wp_weaken {A} (m : SE S A) (Q : A → S → Prop) E (E' : exn → S → Prop) s :
  wp m Q E s → (∀ e s', E e s' → E' e s') → wp m Q E' s.
Proof. unfold wp. destruct (m s) as [[a|e] s']; auto. Qed.

(** A step whose outcome is known. *)
Lemma wp_run {A} (m : SE S A) (Q : A → S → Prop) E s a s' : m s = (Ok a, s') → Q a s' → wp m Q E s.
Proof. unfold wp. by intros ->. Qed.
Lemma wp_step {A B} (m : SE S A) (f : A → SE S B) (Q : B → S → Prop) E s a s' :
  m s = (Ok a, s') → wp (f a) Q E s' → wp (m ≫= f) Q E s.
Proof. intros Em Hf. apply wp_bind. by apply (wp_run _ _ _ _ a s'). Qed.

Lemma wp_ret {A} (a : A) (Q : A → S → Prop) E s : Q a s → wp (mret a) Q E s.
Proof. done. Qed.
Lemma wp_throw {A} e (Q : A → S → Prop) E s : E e s → wp (mthrow e) Q E s.
Proof. done. Qed.
Lemma wp_get (Q : S → S → Prop) E s : Q s s → wp get Q E s.
Proof. done. Qed.
Lemma wp_gets {A} (f : S → A) (Q : A → S → Prop) E s : Q (f s) s → wp (gets f) Q E s.
Proof. done. Qed.
Lemma wp_put s' (Q : unit → S → Prop) E s : Q tt s' → wp (put s') Q E s.
Proof. done. Qed.
Lemma wp_modify (f : S → S) (Q : unit → S → Prop) E s : Q tt (f s) → wp (modify f) Q E s.
Proof. done. Qed.
Lemma wp_lift {A} (m : outcome A) (Q : A → S → Prop) E s :
  match m with Ok a => Q a s | Throw e => E e s end → wp (lift m) Q E s.
Proof. unfold wp, lift. by destruct m. Qed.
Lemma wp_at_check b what (Q : unit → S → Prop) E s :
  (b = true → Q tt s) → (b = false → E (C10Error what) s) → wp (AT_CHECK b what) Q E s.
Proof. intros H1 H2. destruct b; [by apply H1|by apply H2]. Qed.

(** A loop whose body keeps an invariant; the body may use what is left to do. *)
Lemma wp_foreach {A} (I : S → Prop) (xs : list A) (body : A → SE S unit) E s :
  (∀ x s, x ∈ xs → I s → wp (body x) (λ _, I) E s) → I s → wp (foreach xs body) (λ _, I) E s.
Proof.
  revert s. induction xs as [|x xs IH]; intros s Hb Hs; [done|].
  apply wp_bind. eapply wp_mono; [apply Hb; [by left|done]|]. intros [] s' Hs'.
  apply IH; [|done]. intros y t Hy. apply Hb. by right.
Qed.
(** A loop over a range that returns, by an invariant that counts the iterations. *)
Lemma foreach_seq (P : nat → S → Prop) (body : nat → SE S unit) j k s :
  P j s → (∀ i s, (j ≤ i < j + k)%nat → P i s → ∃ s', body i s = (Ok tt, s') ∧ P (Datatypes.S i) s') →
  ∃ s', foreach (seq j k) body s = (Ok tt, s') ∧ P (j + k)%nat s'.
Proof.
  revert j s. induction k as [|k IH]; intros j s H0 Hs; cbn [seq foreach]; [exists s; by rewrite Nat.add_0_r|].
  destruct (Hs j s) as (s1 & E1 & H1); [lia|done|]. destruct (IH (Datatypes.S j) s1 H1) as (s2 & E2 & H2).
  - intros i t Hi. apply Hs. lia.
  - exists s2. rewrite (run_bind _ _ _ _ _ E1). split; [done|]. by rewrite Nat.add_succ_r.
Qed.
End wp.

Lemma AT_CHECK_Ok b what : AT_CHECK (M:=outcome) b what = Ok tt ↔ b = true.
Proof. by destruct b. Qed.

Lemma Ok_bind {A B} (a : A) (f : A → outcome B) : Ok a ≫= f = f a.
Proof. done. Qed.
Lemma Throw_bind {A B} e (f : A → outcome B) : Throw e ≫= f = Throw e.
Proof. done. Qed.

Lemma Ok_inj {A} (a b : A) : Ok a = Ok b → a = b.
Proof. by intros [= ->]. Qed.

(** A passed check, and the continuation it lets run. *)
Lemma AT_CHECK_bind_Ok {A} b what (f : unit → outcome A) a :
  AT_CHECK b what ≫= f = Ok a ↔ b = true ∧ f tt = Ok a.
Proof. destruct b; cbn; [by split; [|intros []]|by split; [|intros []]]. Qed.

Lemma AT_CHECK_bind_true {A} b what (f : unit → outcome A) :
  b = true → AT_CHECK b what ≫= f = f tt.
Proof. by intros ->. Qed.

Lemma and_then_Ok a b : and_then (Ok a) (Ok b) = Ok (a && b).
Proof. by destruct a. Qed.

Lemma or_else_Ok a b : or_else (Ok a) (Ok b) = Ok (a || b).
Proof. by destruct a. Qed.

Lemma Forall_elem {A} (P : A → Prop) l x : Forall P l → x ∈ l → P x.
Proof. intros H Hx. rewrite list_elem_of_In in Hx. rewrite Forall_forall in H. auto. Qed.

Lemma zip_with_fmap_same {A B C D} (F : B → C → D) (f : A → B) (g : A → C) l :
  zip_with F (f <$> l) (g <$> l) = (λ x, F (f x) (g x)) <$> l.
Proof. induction l as [|x l IH]; [done|]. cbn. by f_equal. Qed.

(** Pairwise related lists. *)
Lemma Forall2_carry {A B} (R : A → B → Prop) (P : A → Prop) (Q : B → Prop) l k :
  Forall2 R l k → Forall P l → (∀ x y, R x y → P x → Q y) → Forall Q k.
Proof. intros H HP HQ. induction H; inversion HP; subst; constructor; eauto. Qed.
Lemma Forall2_trans' {A B C} (R1 : A → B → Prop) (R2 : B → C → Prop) (R : A → C → Prop) l k m :
  Forall2 R1 l k → Forall2 R2 k m → (∀ x y z, R1 x y → R2 y z → R x z) → Forall2 R l m.
Proof. intros H1 H2 HR. revert m H2. induction H1; intros m H2; inversion H2; subst; constructor; eauto. Qed.
Lemma Forall2_fmap_r' {A B} (P : A → B → Prop) (f : B → B) (Q : A → B → Prop) l k :
  Forall2 P l k → (∀ x y, P x y → Q x (f y)) → Forall2 Q l (f <$> k).
Proof. intros H HQ. apply Forall2_fmap_r. induction H; constructor; unfold compose; auto. Qed.

Lemma swap_Permutation {A} (l : list A) i j x y :
  (i < j)%nat → l !! i = Some x → l !! j = Some y → <[i := y]> (<[j := x]> l) ≡ₚ l.
Proof.
  intros Hij Hx Hy. pose proof (lookup_lt_Some _ _ _ Hy).
  rewrite <- (take_drop_middle l j y Hy) at 2. rewrite (insert_take_drop l j) by lia.
  rewrite insert_app_l by (rewrite length_take; lia).
  assert (Ex : take j l !! i = Some x) by (by rewrite lookup_take_lt by lia).
  rewrite <- (take_drop_middle (take j l) i x Ex) at 2. rewrite (insert_take_drop (take j l)) by (rewrite length_take; lia).
  rewrite <- !app_assoc, <- !app_comm_cons. apply Permutation_app_head. rewrite <- !Permutation_middle. constructor.
Qed.

(** An update of a cell that is there is an insertion. *)
Lemma insert_alter `{Countable K} {A} (m : gmap K A) i (f : A → A) x : m !! i = Some x → <[i := f x]> m = alter f i m.
Proof.
  intros E. apply map_eq. intros j. destruct (decide (i = j)) as [<-|Hj].
  - by rewrite lookup_insert_eq, lookup_alter_eq, E.
  - by rewrite lookup_insert_ne, lookup_alter_ne.
Qed.

(** Calls over a list, in order. *)
Lemma mapM_Ok {A B} (f : A → outcome B) l k : mapM f l = Ok k ↔ Forall2 (λ x y, f x = Ok y) l k.
Proof.
  revert k. induction l as [|x l IH]; intros k; cbn.
  - split; [by intros [= <-]|by intros H; inversion H].
  - rewrite outcome_bind_Ok. split.
    + intros (y & Hy & Hk). apply outcome_bind_Ok in Hk as (k' & Hk & [= <-]). constructor; [done|]. by apply IH.
    + intros H. inversion H as [|? y ? k' Hy Hk]; subst. exists y. split; [done|]. apply outcome_bind_Ok.
      exists k'. split; [by apply IH|done].
Qed.
Lemma mapM_fmap_Ok {A B} (f : A → outcome B) (g : A → B) l :
  (∀ x, x ∈ l → f x = Ok (g x)) → mapM f l = Ok (g <$> l).
Proof.
  induction l as [|x l IH]; intros H; [done|]. cbn. rewrite H by (by left). cbn. rewrite IH; [done|].
  intros y Hy. apply H. by right.
Qed.
Lemma mapM_fmap {A B C} (f : B → outcome C) (g : A → B) l : mapM f (g <$> l) = mapM (λ x, f (g x)) l.
Proof. induction l as [|x l IH]; [done|]. cbn. by destruct (f (g x)); cbn; [rewrite IH|]. Qed.

Lemma mapM_exists {A B} (P : A → B → Prop) (f : A → outcome B) l :
  (∀ x, x ∈ l → ∃ y, f x = Ok y ∧ P x y) → ∃ k, mapM f l = Ok k ∧ Forall2 P l k.
Proof.
  induction l as [|x l IH]; intros H; [by exists []; split; [|constructor]|].
  destruct (H x) as (y & Hy & HP); [by left|]. destruct IH as (k & Hk & HF); [intros z Hz; apply H; by right|].
  exists (y :: k). cbn. rewrite Hy, Ok_bind, Hk. split; [done|by constructor].
Qed.

(** ** Machine integers *)

(** A [w]-bit unsigned conversion and a [w]-bit two's complement conversion. *)
Definition wrapU (w z : Z) : Z := z mod 2 ^ w.
Definition wrapS (w z : Z) : Z := (z + 2 ^ (w - 1)) mod 2 ^ w - 2 ^ (w - 1).

Definition in_U (w z : Z) : Prop := 0 ≤ z < 2 ^ w.
Definition in_S (w z : Z) : Prop := - 2 ^ (w - 1) ≤ z < 2 ^ (w - 1).

Lemma pow2_split w : 0 < w → 2 ^ w = 2 * 2 ^ (w - 1).
Proof. intros. rewrite <- Z.pow_succ_r by lia. f_equal. lia. Qed.

Lemma wrapU_range w z : 0 < w → in_U w (wrapU w z).
Proof. intros. apply Z.mod_pos_bound, Z.pow_pos_nonneg; lia. Qed.

Lemma wrapS_range w z : 0 < w → in_S w (wrapS w z).
Proof.
  intros Hw. unfold in_S, wrapS.
  pose proof (Z.mod_pos_bound (z + 2 ^ (w - 1)) (2 ^ w) (Z.pow_pos_nonneg 2 w ltac:(lia) ltac:(lia))).
  rewrite (pow2_split w Hw) in *. lia.
Qed.

Lemma wrapU_id w z : in_U w z → wrapU w z = z.
Proof. apply Z.mod_small. Qed.

Lemma wrapS_id w z : 0 < w → in_S w z → wrapS w z = z.
Proof.
  unfold in_S, wrapS. intros Hw Hz.
  rewrite Z.mod_small; [lia | rewrite (pow2_split w Hw); lia].
Qed.

(** Signed wrap-around depends only on the residue modulo [2^w]. *)
Lemma wrapS_mod w z : 0 < w → wrapS w (z mod 2 ^ w) = wrapS w z.
Proof. intros. unfold wrapS. by rewrite Zplus_mod_idemp_l. Qed.

Lemma wrapS_congr w a b : 0 < w → a mod 2 ^ w = b mod 2 ^ w → wrapS w a = wrapS w b.
Proof. intros Hw E. by rewrite <- (wrapS_mod w a), <- (wrapS_mod w b), E. Qed.

Lemma wrapS_repr w z : 0 < w → wrapS w z mod 2 ^ w = z mod 2 ^ w.
Proof.
  intros. unfold wrapS.
  rewrite Zminus_mod_idemp_l. f_equal. lia.
Qed.

Lemma wrapS_wrapS w z : 0 < w → wrapS w (wrapS w z) = wrapS w z.
Proof. intros. apply wrapS_congr; [done|]. by apply wrapS_repr. Qed.

(** [int64_t] arithmetic, with the two's complement result the hardware gives. *)
Definition int64 (z : Z) : Z := wrapS 64 z.
Definition add64 (a b : Z) : Z := int64 (a + b).
Definition sub64 (a b : Z) : Z := int64 (a - b).
Definition mul64 (a b : Z) : Z := int64 (a * b).

Lemma mul64_repr a b : mul64 a b mod 2 ^ 64 = (a * b) mod 2 ^ 64.
Proof. by apply wrapS_repr. Qed.

Lemma mul64_int64_l a b : mul64 (int64 a) b = mul64 a b.
Proof.
  apply wrapS_congr; [done|].
  rewrite Zmult_mod. unfold int64. rewrite wrapS_repr by done. by rewrite <- Zmult_mod.
Qed.

Lemma mul64_int64_r a b : mul64 a (int64 b) = mul64 a b.
Proof.
  transitivity (mul64 (int64 b) a); [|rewrite mul64_int64_l]; unfold mul64; f_equal; lia.
Qed.

Lemma int64_id z : in_S 64 z → int64 z = z.
Proof. by apply wrapS_id. Qed.

Lemma int64_idemp z : int64 (int64 z) = int64 z.
Proof. by apply wrapS_wrapS. Qed.

(** Two bit fields joined by [|]: the low field is below the shift. *)
Lemma or_shiftl_add a b n :
  0 ≤ n → in_U n b → Z.lor (Z.shiftl a n) b = Z.shiftl a n + b.
Proof.
  intros Hn Hb. symmetry. rewrite Z.add_nocarry_lxor; [apply Z.lxor_lor|].
  all: apply Z.bits_inj'; intros i Hi; rewrite Z.land_spec, Z.bits_0.
  all: destruct (Z.lt_ge_cases i n);
    [rewrite Z.shiftl_spec_low by lia; done|].
  all: rewrite (Z.testbit_eqb b) by lia.
  all: rewrite Z.div_small; [by rewrite andb_false_r|].
  all: pose proof (Z.pow_le_mono_r 2 n i ltac:(lia) ltac:(lia)); unfold in_U in Hb; lia.
Qed.

Lemma or_shiftl_pow a b n : 0 ≤ n → in_U n b → Z.lor (Z.shiftl a n) b = a * 2 ^ n + b.
Proof. intros. rewrite or_shiftl_add, Z.shiftl_mul_pow2 by done. done. Qed.

Lemma wrapU_inj_S w a b : 0 < w → in_S w a → in_S w b → wrapU w a = wrapU w b → a = b.
Proof.
  intros Hw Ha Hb E. rewrite <- (wrapS_id w a), <- (wrapS_id w b) by done.
  by apply wrapS_congr.
Qed.

Lemma wrapS_wrapU w z : 0 < w → wrapS w (wrapU w z) = wrapS w z.
Proof. apply wrapS_mod. Qed.

#[global] Arguments wrapU : simpl never.
#[global] Arguments wrapS : simpl never.
#[global] Arguments int64 : simpl never.
#[global] Arguments add64 : simpl never.
#[global] Arguments sub64 : simpl never.
#[global] Arguments mul64 : simpl never.

Lemma in_S64_iff z : in_S 64 z ↔ - 9223372036854775808 ≤ z < 9223372036854775808.
Proof. done. Qed.

Lemma int64_range z : in_S 64 (int64 z).
Proof. by apply wrapS_range. Qed.

Lemma int64_repr z : int64 z mod 2 ^ 64 = z mod 2 ^ 64.
Proof. by apply wrapS_repr. Qed.

Lemma int64_congr a b : a mod 2 ^ 64 = b mod 2 ^ 64 → int64 a = int64 b.
Proof. by apply wrapS_congr. Qed.

(** The wrap of a sum needs one wrap only. *)
Lemma int64_add_l a b : int64 (int64 a + b) = int64 (a + b).
Proof. apply int64_congr. rewrite Zplus_mod, int64_repr. by rewrite <- Zplus_mod. Qed.
Lemma int64_add_r a b : int64 (a + int64 b) = int64 (a + b).
Proof. rewrite Z.add_comm, int64_add_l. f_equal. lia. Qed.

Lemma add64_mul64 a b c : add64 a (mul64 b c) = int64 (a + b * c).
Proof. apply int64_add_r. Qed.

(** Arithmetic that does not leave the range is exact. *)
Lemma add64_exact a b : in_S 64 (a + b) → add64 a b = a + b.
Proof. apply int64_id. Qed.
Lemma sub64_exact a b : in_S 64 (a - b) → sub64 a b = a - b.
Proof. apply int64_id. Qed.
Lemma mul64_exact a b : in_S 64 (a * b) → mul64 a b = a * b.
Proof. apply int64_id. Qed.

(** ** Notations

    The [int64_t] operators of the sources, which wrap around, are the boxed ones. *)
Declare Scope cpp_scope.
Delimit Scope cpp_scope with cpp.
Infix "⊞" := add64 (at level 50, left associativity) : cpp_scope.
Infix "⊟" := sub64 (at level 50, left associativity) : cpp_scope.
Infix "⊠" := mul64 (at level 40, left associativity) : cpp_scope.

(** ** Vectors indexed by [int64_t] and counted loops *)

(** [v[i]]: undefined behaviour out of range. *)
Definition vec_get {A} (v : list A) (i : Z) : outcome A :=
  if decide (0 ≤ i) then
    match v !! Z.to_nat i with
    | Some x => Ok x
    | None => Throw (Undefined "index out of range")
    end
  else Throw (Undefined "index out of range").

Lemma vec_get_0 {A} (x : A) v : vec_get (x :: v) 0 = Ok x.
Proof. done. Qed.
Lemma vec_get_1 {A} (x y : A) v : vec_get (x :: y :: v) 1 = Ok y.
Proof. done. Qed.

(** [v[i] = x]. *)
Definition vec_set {A} (v : list A) (i : Z) (x : A) : outcome (list A) :=
  if decide (0 ≤ i < Z.of_nat (length v)) then Ok (<[Z.to_nat i := x]> v)
  else Throw (Undefined "index out of range").

Definition vec_size {A} (v : list A) : Z := Z.of_nat (length v).

Lemma vec_get_Ok {A} (v : list A) i x :
  vec_get v i = Ok x ↔ 0 ≤ i ∧ v !! Z.to_nat i = Some x.
Proof.
  unfold vec_get. case_decide; [|split; [done|tauto]].
  destruct (v !! Z.to_nat i) as [y|]; split.
  - intros E. apply Ok_inj in E. by subst.
  - intros [_ E]. by simplify_eq.
  - done.
  - by intros [_ E].
Qed.

Lemma vec_get_nat {A} (v : list A) (i : nat) x : v !! i = Some x → vec_get v (Z.of_nat i) = Ok x.
Proof. intros E. apply vec_get_Ok. rewrite Nat2Z.id. split; [lia|done]. Qed.

Lemma vec_get_lt {A} (v : list A) i : 0 ≤ i < vec_size v → ∃ x, vec_get v i = Ok x ∧ v !! Z.to_nat i = Some x.
Proof.
  intros Hi. unfold vec_size in Hi.
  destruct (lookup_lt_is_Some_2 v (Z.to_nat i)) as [x E]; [lia|].
  exists x. split; [apply vec_get_Ok; split; [lia|done]|done].
Qed.

Lemma vec_set_nat {A} (v : list A) (i : nat) x :
  (i < length v)%nat → vec_set v (Z.of_nat i) x = Ok (<[i := x]> v).
Proof. intros Hi. unfold vec_set. rewrite decide_True by lia. by rewrite Nat2Z.id. Qed.

(** [for (auto i : is) body(i)] with a loop state, which the body may throw out of. *)
Fixpoint for_in {A S} (xs : list A) (body : A → S → outcome S) (s : S) : outcome S :=
  match xs with
  | [] => Ok s
  | i :: xs => s' ← body i s; for_in xs body s'
  end.

(** [for (i = 0; i < n; i++)] and [for (i = n - 1; i >= 0; i--)]. *)
Definition for_up {S} (n : nat) : (nat → S → outcome S) → S → outcome S := for_in (seq 0 n).
Definition for_down {S} (n : nat) : (nat → S → outcome S) → S → outcome S := for_in (reverse (seq 0 n)).

Lemma for_in_app {A S} (xs ys : list A) (body : A → S → outcome S) s :
  for_in (xs ++ ys) body s = for_in xs body s ≫= for_in ys body.
Proof.
  revert s. induction xs as [|i xs IH]; intros s; [done|].
  cbn. destruct (body i s); cbn; [apply IH|done].
Qed.

Lemma for_up_S {S} n (body : nat → S → outcome S) s :
  for_up (Datatypes.S n) body s = for_up n body s ≫= body n.
Proof.
  unfold for_up. rewrite seq_S, for_in_app. destruct (for_in _ _ s); cbn; [|done].
  by destruct (body n _).
Qed.

Lemma for_down_S {S} n (body : nat → S → outcome S) s :
  for_down (Datatypes.S n) body s = body n s ≫= for_down n body.
Proof. unfold for_down. by rewrite seq_S, reverse_app. Qed.

(** A loop that does not throw, by an invariant that counts the iterations. *)
Lemma for_up_inv {S} (P : nat → S → Prop) n (body : nat → S → outcome S) s :
  P 0%nat s →
  (∀ i s, (i < n)%nat → P i s → ∃ s', body i s = Ok s' ∧ P (Datatypes.S i) s') →
  ∃ s', for_up n body s = Ok s' ∧ P n s'.
Proof.
  intros H0 Hs. induction n as [|n IH]; [by exists s|].
  destruct IH as (s1 & E1 & H1); [intros; apply Hs; [lia|done]|].
  destruct (Hs n s1) as (s2 & E2 & H2); [lia|done|].
  exists s2. by rewrite for_up_S, E1.
Qed.

Lemma for_down_inv {S} (P : nat → S → Prop) n (body : nat → S → outcome S) s :
  P n s →
  (∀ i s, (i < n)%nat → P (Datatypes.S i) s → ∃ s', body i s = Ok s' ∧ P i s') →
  ∃ s', for_down n body s = Ok s' ∧ P 0%nat s'.
Proof.
  revert s. induction n as [|n IH]; intros s Hn Hs; [by exists s|].
  destruct (Hs n s) as (s1 & E1 & H1); [lia|done|].
  destruct (IH s1) as (s2 & E2 & H2); [done|intros; apply Hs; [lia|done]|].
  exists s2. by rewrite for_down_S, E1.
Qed.

Lemma for_in_seq_inv {S'} (P : nat → S' → Prop) b n (body : nat → S' → outcome S') s :
  P b s → (∀ i s, (b ≤ i < b + n)%nat → P i s → ∃ s', body i s = Ok s' ∧ P (S i) s') →
  ∃ s', for_in (seq b n) body s = Ok s' ∧ P (b + n)%nat s'.
Proof.
  revert b s. induction n as [|n IH]; intros b s H0 Hs; cbn; [exists s; by rewrite Nat.add_0_r|].
  destruct (Hs b s) as (s1 & -> & H1); [lia|done|]. cbn. destruct (IH (S b) s1 H1) as (s2 & E & H2).
  - intros i s' Hi. apply Hs. lia.
  - exists s2. by rewrite Nat.add_succ_r.
Qed.

(** The same for a loop that may throw: [Q] holds of the exception it throws. *)
Lemma for_down_post {S} (P : nat → S → Prop) (Q : exn → Prop) n (body : nat → S → outcome S) s :
  P n s →
  (∀ i s, (i < n)%nat → P (Datatypes.S i) s →
     match body i s with Ok s' => P i s' | Throw e => Q e end) →
  match for_down n body s with Ok s' => P 0%nat s' | Throw e => Q e end.
Proof.
  revert s. induction n as [|n IH]; intros s Hn Hs; [done|].
  rewrite for_down_S. specialize (Hs n s) as Hb.
  destruct (body n s) as [s1|e]; cbn; [|apply Hb; [lia|done]].
  apply IH; [apply Hb; [lia|done]|intros; apply Hs; [lia|done]].
Qed.

Lemma for_up_post {S} (P : nat → S → Prop) (Q : exn → Prop) n (body : nat → S → outcome S) s :
  P 0%nat s →
  (∀ i s, (i < n)%nat → P i s →
     match body i s with Ok s' => P (Datatypes.S i) s' | Throw e => Q e end) →
  match for_up n body s with Ok s' => P n s' | Throw e => Q e end.
Proof.
  intros H0 Hs. induction n as [|n IH]; [done|].
  rewrite for_up_S. assert (H1 : match for_up n body s with Ok s' => P n s' | Throw e => Q e end).
  { apply IH. intros; apply Hs; [lia|done]. }
  destruct (for_up n body s) as [s1|e]; cbn; [|done].
  apply Hs; [lia|done].
Qed.

(** ** Automation

    [cpp] holds the ranges of the conversions, [run] the equations that step a
    program. *)
Create HintDb cpp discriminated.
Create Rewrite HintDb run.
#[export] Hint Resolve wrapU_range wrapS_range int64_range : cpp.
#[export] Hint Resolve wp_ret wp_throw wp_get wp_gets wp_put wp_modify : cpp.
#[export] Hint Rewrite @Ok_bind @Throw_bind @run_get @run_ret and_then_Ok or_else_Ok : run.

(** Takes [H : m ≫= f = Ok b] apart, as long as the first call is a bind itself. *)
Ltac inv_Ok H :=
  lazymatch type of H with
  | mbind _ (AT_CHECK _ _) = Ok _ => apply AT_CHECK_bind_Ok in H; destruct H as [? H]; inv_Ok H
  | mbind _ (AT_ASSERT _) = Ok _ => apply AT_CHECK_bind_Ok in H; destruct H as [? H]; inv_Ok H
  | mbind _ _ = Ok _ => apply outcome_bind_Ok in H; let a := fresh "a" in let E := fresh "E" in destruct H as (a & E & H); inv_Ok H
  | Ok _ = Ok _ => apply Ok_inj in H; subst
  | _ => idtac
  end.

(** One step of a [wp] goal through a call that the calculus knows. *)
Ltac wp_simple :=
  lazymatch goal with
  | |- wp (mbind _ _) _ _ _ => apply wp_bind; wp_simple
  | |- wp get _ _ _ => apply wp_get
  | |- wp (gets _) _ _ _ => apply wp_gets
  | |- wp (put _) _ _ _ => apply wp_put
  | |- wp (modify _) _ _ _ => apply wp_modify
  | |- wp (mret _) _ _ _ => apply wp_ret
  | |- wp (lift _) _ _ _ => apply wp_lift
  | |- wp (mthrow _) _ _ _ => apply wp_throw
  end; cbv beta.

(** ** Sums over finite maps

    Credits and weights of the parts of a state, added up; every lemma is about one
    key that changes. *)
Local Open Scope Z_scope.

Section msum.
Context {K : Type} `{Countable K} {A : Type}.
Implicit Types (m : gmap K A) (f g : K → A → Z).

Definition msum f m : Z := map_fold (λ k x acc, f k x + acc) 0 m.

Lemma msum_empty f : msum f ∅ = 0.
Proof. done. Qed.

Lemma msum_insert f m k x : m !! k = None → msum f (<[k := x]> m) = f k x + msum f m.
Proof. intros E. unfold msum. rewrite map_fold_insert_L; [done| |done]. intros; lia. Qed.

Lemma msum_delete f m k x : m !! k = Some x → msum f (delete k m) = msum f m - f k x.
Proof.
  intros E. rewrite <- (insert_delete_id m k x E) at 2. rewrite msum_insert by apply lookup_delete_eq. lia.
Qed.

Definition weight_at f m k : Z := match m !! k with Some x => f k x | None => 0 end.

Lemma msum_update f m k x : msum f (<[k := x]> m) = msum f m - weight_at f m k + f k x.
Proof.
  unfold weight_at. destruct (m !! k) as [y|] eqn:E; [|rewrite msum_insert by done; lia].
  rewrite <- insert_delete_eq, msum_insert by apply lookup_delete_eq. rewrite (msum_delete f m k y) by done. lia.
Qed.

Lemma msum_erase f m k : msum f (delete k m) = msum f m - weight_at f m k.
Proof.
  unfold weight_at. destruct (m !! k) as [y|] eqn:E; [by apply msum_delete|]. rewrite delete_id by done. lia.
Qed.

Lemma msum_nonneg f m : (∀ k x, 0 ≤ f k x) → 0 ≤ msum f m.
Proof.
  intros Hf. induction m as [|k x m E IH] using map_ind; [done|]. rewrite msum_insert by done. specialize (Hf k x). lia.
Qed.

Lemma msum_mono f g m : (∀ k x, f k x ≤ g k x) → msum f m ≤ msum g m.
Proof.
  intros Hf. induction m as [|k x m E IH] using map_ind; [done|]. rewrite !msum_insert by done. specialize (Hf k x). lia.
Qed.

Lemma msum_lookup f m k x : (∀ k x, 0 ≤ f k x) → m !! k = Some x → f k x ≤ msum f m.
Proof.
  intros Hf E. rewrite <- (insert_delete_id m k x E), msum_insert by apply lookup_delete_eq.
  pose proof (msum_nonneg f (delete k m) Hf). lia.
Qed.

Lemma msum_plus f g m : msum f m + msum g m = msum (λ k x, f k x + g k x) m.
Proof.
  induction m as [|k x m E IH] using map_ind; [done|]. rewrite !msum_insert by done. lia.
Qed.

Lemma msum_ext f g m : (∀ k x, f k x = g k x) → msum f m = msum g m.
Proof.
  intros Hf. induction m as [|k x m E IH] using map_ind; [done|]. rewrite !msum_insert, Hf by done. lia.
Qed.

Lemma msum_zero f m : (∀ k x, m !! k = Some x → f k x = 0) → msum f m = 0.
Proof.
  intros Hf. induction m as [|k x m E IH] using map_ind; [done|].
  rewrite msum_insert, IH; [by rewrite (Hf k x) by apply lookup_insert_eq| |done].
  intros j y Ej. apply Hf. rewrite lookup_insert_ne; [done|]. intros <-. congruence.
Qed.

Lemma msum_pos f m : (∀ k x, 0 ≤ f k x) → 0 < msum f m → ∃ k x, m !! k = Some x ∧ 0 < f k x.
Proof.
  intros Hf. induction m as [|k x m E IH] using map_ind; [done|]. rewrite msum_insert by done. intros Hs.
  destruct (decide (0 < f k x)); [exists k, x; by rewrite lookup_insert_eq|].
  specialize (Hf k x). destruct IH as (j & y & Ej & ?); [lia|]. exists j, y. split; [|done].
  rewrite lookup_insert_ne; [done|]. intros <-. congruence.
Qed.
End msum.

(** The sum of a list. *)
Definition lsum {A} (f : A → Z) (l : list A) : Z := foldr (λ x acc, f x + acc) 0 l.

Lemma lsum_cons {A} (f : A → Z) x l : lsum f (x :: l) = f x + lsum f l.
Proof. done. Qed.
Lemma lsum_app {A} (f : A → Z) k l : lsum f (k ++ l) = lsum f k + lsum f l.
Proof. induction k as [|x k IH]; cbn; [done|]. fold (lsum f (k ++ l)). fold (lsum f k). lia. Qed.
Lemma lsum_nonneg {A} (f : A → Z) l : (∀ x, 0 ≤ f x) → 0 ≤ lsum f l.
Proof. intros Hf. induction l as [|x l IH]; [done|]. rewrite lsum_cons. specialize (Hf x). lia. Qed.
Lemma lsum_elem {A} (f : A → Z) l x : (∀ x, 0 ≤ f x) → x ∈ l → f x ≤ lsum f l.
Proof.
  intros Hf. induction l as [|y l IH]; [by intros ?%elem_of_nil|]. rewrite lsum_cons.
  intros [->|Hx]%elem_of_cons; [pose proof (lsum_nonneg f l Hf); lia|]. specialize (Hf y). apply IH in Hx. lia.
Qed.
Lemma lsum_mono {A} (f g : A → Z) l : (∀ x, f x ≤ g x) → lsum f l ≤ lsum g l.
Proof. intros Hf. induction l as [|x l IH]; [done|]. rewrite !lsum_cons. specialize (Hf x). lia. Qed.
Lemma lsum_plus {A} (f g : A → Z) l : lsum f l + lsum g l = lsum (λ x, f x + g x) l.
Proof. induction l as [|x l IH]; [done|]. rewrite !lsum_cons. lia. Qed.
Lemma lsum_perm {A} (k : A → Z) l l' : l ≡ₚ l' → lsum k l = lsum k l'.
Proof. induction 1; rewrite ?lsum_cons in *; try done; try lia. Qed.
Lemma lsum_update {A} (k : A → Z) l i x y : l !! i = Some x → lsum k (<[i := y]> l) = lsum k l - k x + k y.
Proof.
  revert i. induction l as [|z l IH]; intros [|i] E; try done; cbn in E; [injection E as ->; cbn [insert list_insert]; rewrite !lsum_cons; lia|].
  change (<[S i := y]> (z :: l)) with (z :: <[i := y]> l). rewrite !lsum_cons, IH by done. lia.
Qed.
Lemma lsum_bound {A} (k : A → Z) l : (∀ x, k x ≤ 1) → lsum k l ≤ Z.of_nat (length l).
Proof. intros Hk. induction l as [|x l IH]; [done|]. rewrite lsum_cons. specialize (Hk x). cbn [length]. lia. Qed.
