(* ===== verification/Text.v ===== *)
(** * Strings and numbers as the sources use them

    The standard-library text operations the components need: decimal output of
    an integer ([operator<<]), [std::stoi], [std::string::find] and [substr],
    with the round trip between printing and reading an integer. *)
From S2P Require Import Prelude.
From Stdlib Require Export Ascii.
Local Open Scope Z_scope.

(** ** Characters *)

Definition code (c : ascii) : Z := Z.of_nat (nat_of_ascii c).

(** [isdigit], and [isspace] in the "C" locale. *)
Definition is_digit (c : ascii) : bool := (48 <=? code c) && (code c <=? 57).
Definition is_space (c : ascii) : bool :=
  (code c =? 32) || ((9 <=? code c) && (code c <=? 13)).

Definition digit_char (d : Z) : ascii := ascii_of_nat (Z.to_nat (48 + d)).
Definition digit_val (c : ascii) : Z := code c - 48.

Lemma code_digit_char d : 0 ≤ d < 10 → code (digit_char d) = 48 + d.
Proof.
  intros. unfold code, digit_char. rewrite nat_ascii_embedding; lia.
Qed.

Lemma is_digit_digit_char d : 0 ≤ d < 10 → is_digit (digit_char d) = true.
Proof. intros. unfold is_digit. rewrite code_digit_char by lia. lia. Qed.

Lemma digit_val_digit_char d : 0 ≤ d < 10 → digit_val (digit_char d) = d.
Proof. intros. unfold digit_val. rewrite code_digit_char by lia. lia. Qed.

(** ** Printing *)

(** The decimal digits of [n], in front of [acc]; [fuel] bounds their number. *)
Fixpoint show_digits (fuel : nat) (n : Z) (acc : string) : string :=
  match fuel with
  | O => acc
  | S fuel =>
      let acc := String (digit_char (n mod 10)) acc in
      if n / 10 =? 0 then acc else show_digits fuel (n / 10) acc
  end.

(** [stream << n] for an integer [n]. *)
Definition show_Z (n : Z) : string :=
  if n <? 0 then String "-"%char (show_digits (Z.to_nat (Z.log2 (- n) + 1)) (- n) "")
  else show_digits (Z.to_nat (Z.log2 n + 1)) n "".

(** ** Reading *)

(** Reads digits greedily into [v]; the rest of the string is ignored. *)
Fixpoint read_digits (v : Z) (s : string) : Z :=
  match s with
  | "" => v
  | String c s => if is_digit c then read_digits (v * 10 + digit_val c) s else v
  end.

Definition starts_with_digit (s : string) : bool :=
  match s with "" => false | String c _ => is_digit c end.

Fixpoint skip_space (s : string) : string :=
  match s with
  | "" => ""
  | String c s' => if is_space c then skip_space s' else s
  end.

(** [strtol] in base 10: blanks, an optional sign, then at least one digit.
    [None] when no conversion could be performed. *)
Definition strtol (s : string) : option Z :=
  match skip_space s with
  | "" => None
  | String c s' =>
      if (code c =? 45) then
        if starts_with_digit s' then Some (- read_digits 0 s') else None
      else if (code c =? 43) then
        if starts_with_digit s' then Some (read_digits 0 s') else None
      else if is_digit c then Some (read_digits 0 (String c s')) else None
  end.

(** [std::stoi]. *)
Definition stoi (s : string) : outcome Z :=
  match strtol s with
  | None => Throw (StdInvalidArgument "stoi")
  | Some v =>
      if (- 2 ^ 31 <=? v) && (v <? 2 ^ 31) then Ok v else Throw (StdOutOfRange "stoi")
  end.

(** [s.find(c)] for a one-character needle; [None] is [npos]. *)
Fixpoint str_find (c : ascii) (s : string) : option nat :=
  match s with
  | "" => None
  | String c' s =>
      if Ascii.eqb c' c then Some O
      else match str_find c s with Some i => Some (S i) | None => None end
  end.

Fixpoint str_take (n : nat) (s : string) : string :=
  match n, s with
  | S n, String c s => String c (str_take n s)
  | _, _ => ""
  end.
Fixpoint str_drop (n : nat) (s : string) : string :=
  match n, s with
  | S n, String _ s => str_drop n s
  | _, _ => s
  end.

(** No character of [s] is [c]. *)
Fixpoint str_free (c : ascii) (s : string) : bool :=
  match s with
  | "" => true
  | String c' s => negb (Ascii.eqb c' c) && str_free c s
  end.

Lemma str_app_nil s : "" +:+ s = s.
Proof. done. Qed.
Lemma str_app_cons c s t : String c s +:+ t = String c (s +:+ t).
Proof. done. Qed.

Lemma str_find_app c s t :
  str_free c s = true → str_find c (s +:+ String c t) = Some (String.length s).
Proof.
  induction s as [|c' s IH]; rewrite ?str_app_nil, ?str_app_cons;
    cbn -[Ascii.eqb]; [by rewrite Ascii.eqb_refl|].
  destruct (Ascii.eqb c' c); cbn -[Ascii.eqb]; [done|]. intros H. by rewrite IH.
Qed.

Lemma str_find_free c s : str_free c s = true → str_find c s = None.
Proof.
  induction s as [|c' s IH]; cbn -[Ascii.eqb]; [done|].
  destruct (Ascii.eqb c' c); cbn -[Ascii.eqb]; [done|]. intros H. by rewrite IH.
Qed.

Lemma str_take_app s t : str_take (String.length s) (s +:+ t) = s.
Proof.
  induction s as [|c s IH]; rewrite ?str_app_nil, ?str_app_cons; cbn; [by destruct t|].
  by rewrite IH.
Qed.

Lemma str_drop_app s c t : str_drop (S (String.length s)) (s +:+ String c t) = t.
Proof.
  induction s as [|c' s IH]; rewrite ?str_app_nil, ?str_app_cons; cbn in *; [done|]. apply IH.
Qed.

(** ** Printing then reading *)

Lemma read_show_digits fuel n acc :
  0 ≤ n → n < 2 ^ Z.of_nat fuel →
  read_digits 0 (show_digits fuel n acc) = read_digits n acc.
Proof.
  revert n acc. induction fuel as [|fuel IH]; intros n acc Hn Hlt; cbn [show_digits].
  { replace n with 0 by (cbn in Hlt; lia). done. }
  pose proof (Z.mod_pos_bound n 10 ltac:(lia)).
  pose proof (Z.div_mod n 10 ltac:(lia)).
  assert (0 ≤ n / 10) by (apply Z.div_pos; lia).
  assert (read_digits (n / 10) (String (digit_char (n mod 10)) acc) = read_digits n acc) as E.
  { cbn. rewrite is_digit_digit_char, digit_val_digit_char by lia. f_equal. lia. }
  destruct (Z.eqb_spec (n / 10) 0) as [E0|_]; [by rewrite <- E, E0|].
  rewrite IH; [done|done|].
  rewrite Nat2Z.inj_succ, Z.pow_succ_r in Hlt by lia. lia.
Qed.

Lemma show_digits_starts fuel n acc :
  0 ≤ n → fuel ≠ O ∨ starts_with_digit acc = true →
  starts_with_digit (show_digits fuel n acc) = true.
Proof.
  revert n acc. induction fuel as [|fuel IH]; intros n acc Hn Hf; cbn [show_digits].
  { by destruct Hf. }
  pose proof (Z.mod_pos_bound n 10 ltac:(lia)).
  assert (is_digit (digit_char (n mod 10)) = true) by by apply is_digit_digit_char.
  destruct (n / 10 =? 0); [done|].
  apply IH; [apply Z.div_pos; lia|by right].
Qed.

Lemma log2_fuel n : 0 ≤ n → n < 2 ^ Z.of_nat (Z.to_nat (Z.log2 n + 1)).
Proof.
  intros. rewrite Z2Nat.id by (pose proof (Z.log2_nonneg n); lia).
  destruct (decide (n = 0)) as [->|]; [done|].
  apply Z.log2_spec. lia.
Qed.

(** Reading back the decimal form of an [int] gives the integer. *)
Lemma stoi_show_Z n : 0 ≤ n < 2 ^ 31 → stoi (show_Z n) = Ok n.
Proof.
  intros Hn. unfold stoi, show_Z.
  replace (n <? 0) with false by lia.
  set (f := Z.to_nat (Z.log2 n + 1)).
  pose proof (show_digits_starts f n "" ltac:(lia)) as Hs.
  specialize (Hs ltac:(left; unfold f; pose proof (Z.log2_nonneg n); lia)).
  pose proof (read_show_digits f n "" ltac:(lia) (log2_fuel n ltac:(lia))) as Hr.
  destruct (show_digits f n "") as [|c s] eqn:E; [done|].
  change (is_digit c = true) in Hs.
  unfold strtol. cbn [skip_space].
  assert (is_space c = false) as -> by (unfold is_digit, is_space in *; lia).
  assert ((code c =? 45) = false) as -> by (unfold is_digit in *; lia).
  assert ((code c =? 43) = false) as -> by (unfold is_digit in *; lia).
  rewrite Hs, Hr. cbn [read_digits].
  by replace ((- 2 ^ 31 <=? n) && (n <? 2 ^ 31)) with true by lia.
Qed.
