(* ===== verification/CoreTypes.v ===== *)
(** * Device types, devices, scalar types (c10/core)

    Module [DeviceType] models c10/core/DeviceType.{h,cpp}, [Device] models
    c10/core/Device.{h,cpp}, [Stream] models c10/core/Stream.h and [ScalarType]
    models c10/core/ScalarType.h with the [TypeMeta] values it ranges over.
    Integer fields keep their width: a [DeviceIndex] is an [int16_t], a
    [StreamId] an [int32_t], and every [static_cast] is written out. *)
From S2P Require Import Prelude Text.
Local Open Scope Z_scope.

(** ** c10/core/DeviceType.h *)
Module DeviceType.

(** [enum class DeviceType : int16_t].  The language allows any [int16_t] to be
    cast to the enumeration, so [Unnamed] holds the values without a name. *)
Inductive DeviceType : Type :=
  | CPU | CUDA | MKLDNN | OPENGL | OPENCL | IDEEP | HIP | FPGA | MSNPU | XLA
  | COMPILE_TIME_MAX_DEVICE_TYPES
  | ONLY_FOR_TEST
  | Unnamed (v : Z).

#[global] Instance DeviceType_eq_dec : EqDecision DeviceType.
Proof. solve_decision. Defined.

(** The enumerator's value. *)
Definition to_int16 (d : DeviceType) : Z :=
  match d with
  | CPU => 0 | CUDA => 1 | MKLDNN => 2 | OPENGL => 3 | OPENCL => 4 | IDEEP => 5
  | HIP => 6 | FPGA => 7 | MSNPU => 8 | XLA => 9
  | COMPILE_TIME_MAX_DEVICE_TYPES => 10
  | ONLY_FOR_TEST => 20901
  | Unnamed v => v
  end.

(** [static_cast<DeviceType>(v)] for an [int16_t] [v]. *)
Definition of_int16 (v : Z) : DeviceType :=
  match v with
  | 0 => CPU | 1 => CUDA | 2 => MKLDNN | 3 => OPENGL | 4 => OPENCL | 5 => IDEEP
  | 6 => HIP | 7 => FPGA | 8 => MSNPU | 9 => XLA
  | 10 => COMPILE_TIME_MAX_DEVICE_TYPES
  | 20901 => ONLY_FOR_TEST
  | v => Unnamed v
  end.

Definition DeviceTypeName (d : DeviceType) (lower_case : bool) : outcome string :=
  match d with
  | CPU => Ok (if lower_case then "cpu" else "CPU")
  | CUDA => Ok (if lower_case then "cuda" else "CUDA")
  | OPENGL => Ok (if lower_case then "opengl" else "OPENGL")
  | OPENCL => Ok (if lower_case then "opencl" else "OPENCL")
  | MKLDNN => Ok (if lower_case then "mkldnn" else "MKLDNN")
  | IDEEP => Ok (if lower_case then "ideep" else "IDEEP")
  | HIP => Ok (if lower_case then "hip" else "HIP")
  | FPGA => Ok (if lower_case then "fpga" else "FPGA")
  | MSNPU => Ok (if lower_case then "msnpu" else "MSNPU")
  | XLA => Ok (if lower_case then "xla" else "XLA")
  | _ => AT_ERROR "Unknown device: "
  end.

Definition isValidDeviceType (d : DeviceType) : bool :=
  match d with
  | CPU | CUDA | OPENGL | OPENCL | MKLDNN | IDEEP | HIP | FPGA | MSNPU | XLA => true
  | _ => false
  end.

Lemma of_to_int16 d : isValidDeviceType d = true → of_int16 (to_int16 d) = d.
Proof. by destruct d. Qed.

Lemma to_int16_range d : isValidDeviceType d = true → 0 ≤ to_int16 d < 10.
Proof. destruct d; cbn; intros; try done; lia. Qed.

Lemma name_valid d b : returns (DeviceTypeName d b) = isValidDeviceType d.
Proof. by destruct d. Qed.

End DeviceType.
Abbreviation DeviceType := DeviceType.DeviceType.

(** ** c10/core/Device.h, Device.cpp *)
Module Device.

Record Device : Type := mkDevice { type_ : DeviceType; index_ : Z }.

#[global] Instance Device_eq_dec : EqDecision Device.
Proof. solve_decision. Defined.

Definition has_index (d : Device) : bool := negb (index_ d =? -1).
Definition is_cuda (d : Device) : bool := bool_decide (type_ d = DeviceType.CUDA).
Definition is_cpu (d : Device) : bool := bool_decide (type_ d = DeviceType.CPU).
Definition set_index (d : Device) (index : Z) : Device := mkDevice (type_ d) index.
(** [operator==]. *)
Definition Device_eqb (a b : Device) : bool :=
  bool_decide (type_ a = type_ b) && (index_ a =? index_ b).

Definition validate (d : Device) : outcome unit :=
  AT_CHECK ((index_ d =? -1) || (0 <=? index_ d))
    "Device index must be -1 or non-negative, got " ≫= λ _,
  AT_CHECK (negb (is_cpu d) || (index_ d <=? 0))
    "CPU device index must be -1 or zero, got ".

#[global] Arguments validate : simpl never.

(** [Device(DeviceType type, DeviceIndex index)]. *)
Definition make (type : DeviceType) (index : Z) : outcome Device :=
  let d := mkDevice type index in
  validate d ≫= λ _, Ok d.

(** The table of [parse_type]. *)
Definition parse_types : list (string * DeviceType) :=
  [("cpu", DeviceType.CPU); ("cuda", DeviceType.CUDA); ("mkldnn", DeviceType.MKLDNN);
   ("opengl", DeviceType.OPENGL); ("opencl", DeviceType.OPENCL); ("ideep", DeviceType.IDEEP);
   ("hip", DeviceType.HIP); ("msnpu", DeviceType.MSNPU); ("xla", DeviceType.XLA)].

Definition parse_type (device_string : string) : outcome DeviceType :=
  match List.find (λ p, String.eqb p.1 device_string) parse_types with
  | Some p => Ok p.2
  | None => AT_ERROR "Expected one of cpu, cuda, mkldnn, opengl, opencl, ideep, hip, msnpu device type at start of device string: "
  end.

(** [Device(const std::string& device_string)].  [stoi] yields an [int], which
    the assignment to the [int16_t] field [index_] truncates. *)
Definition of_string (device_string : string) : outcome Device :=
  AT_CHECK (negb (String.eqb device_string "")) "Device string must not be empty" ≫= λ _,
  match str_find ":"%char device_string with
  | None =>
      parse_type device_string ≫= λ type_,
      let d := mkDevice type_ (-1) in
      validate d ≫= λ _, Ok d
  | Some index =>
      let s := str_take index device_string in
      AT_CHECK (negb (String.eqb s "")) "Device string must not be empty" ≫= λ _,
      parse_type s ≫= λ type_,
      let device_index := str_drop (S index) device_string in
      match stoi device_index with
      | Throw _ => AT_ERROR "Could not parse device index '"
      | Ok v =>
          let d := mkDevice type_ (wrapS 16 v) in
          AT_CHECK (0 <=? index_ d) "Device index must be non-negative, got " ≫= λ _,
          validate d ≫= λ _, Ok d
      end
  end.

(** [stream << device]. *)
Definition show (d : Device) : outcome string :=
  DeviceType.DeviceTypeName (type_ d) true ≫= λ t,
  Ok (if has_index d then t +:+ String ":"%char (show_Z (index_ d)) else t).

(** The 32 bits that [std::hash<Device>] hashes. *)
Definition hash_bits (d : Device) : Z :=
  Z.lor (wrapU 32 (Z.shiftl (wrapU 32 (wrapU 16 (DeviceType.to_int16 (type_ d)))) 16))
        (wrapU 32 (wrapU 16 (index_ d))).

(** The values the constructors produce. *)
Definition valid (d : Device) : Prop :=
  DeviceType.isValidDeviceType (type_ d) = true ∧ in_S 16 (index_ d) ∧ validate d = Ok tt.

Lemma validate_Ok d :
  validate d = Ok tt ↔ -1 ≤ index_ d ∧ (type_ d = DeviceType.CPU → index_ d ≤ 0).
Proof.
  unfold validate. rewrite AT_CHECK_bind_Ok, AT_CHECK_Ok. unfold is_cpu. split.
  - intros [H1 H2]. split; [lia|].
    intros E. rewrite bool_decide_eq_true_2 in H2 by done. lia.
  - intros [H1 H2]. split; [lia|].
    case_bool_decide; cbn; [|done]. specialize (H2 H). lia.
Qed.

Lemma make_Ok t i d : make t i = Ok d ↔ d = mkDevice t i ∧ validate d = Ok tt.
Proof.
  unfold make. rewrite outcome_bind_Ok. split.
  - by intros ([] & H & [= <-]).
  - intros [-> H]. eauto.
Qed.

(** [parse_type] reads back every lower-case device name except [fpga]. *)
Lemma parse_type_name t n :
  DeviceType.DeviceTypeName t true = Ok n → t ≠ DeviceType.FPGA →
  parse_type n = Ok t ∧ str_free ":"%char n = true ∧ n ≠ "".
Proof. destruct t; cbn; intros [= <-] ?; done. Qed.

(** Printing a device and parsing the text gives the device
    back, for every device but an FPGA one. *)
Lemma of_string_show d s :
  valid d → type_ d ≠ DeviceType.FPGA → show d = Ok s → of_string s = Ok d.
Proof.
  intros (Hv & Hi & Hval) Hf. unfold show. rewrite outcome_bind_Ok.
  intros (n & Hn & [= <-]).
  destruct (parse_type_name _ _ Hn Hf) as (Hp & Hfree & Hne).
  destruct d as [t i]; cbn in *.
  pose proof (proj1 (validate_Ok (mkDevice t i)) Hval) as [Hi1 Hi2]; cbn in Hi1, Hi2.
  unfold of_string, has_index. cbn [index_ type_].
  destruct (Z.eqb_spec i (-1)) as [->|Hneq]; cbn [negb].
  - rewrite AT_CHECK_bind_true, str_find_free by first [done|by apply negb_true_iff, String.eqb_neq].
    by rewrite Hp, Ok_bind, Hval.
  - rewrite AT_CHECK_bind_true by (by destruct n).
    rewrite str_find_app, str_take_app, str_drop_app by done.
    rewrite AT_CHECK_bind_true by (by apply negb_true_iff, String.eqb_neq).
    rewrite Hp, Ok_bind. destruct Hi as [_ Hi]; cbn in Hi. rewrite stoi_show_Z by lia.
    rewrite wrapS_id by (try done; split; cbn; lia).
    by rewrite AT_CHECK_bind_true, Hval by (cbn; lia).
Qed.

(** The two 16-bit halves do not overlap, so the hashed bits determine the device. *)
Lemma hash_bits_eq d :
  hash_bits d = wrapU 16 (DeviceType.to_int16 (type_ d)) * 2 ^ 16 + wrapU 16 (index_ d).
Proof.
  unfold hash_bits.
  pose proof (wrapU_range 16 (DeviceType.to_int16 (type_ d)) ltac:(lia)) as H1.
  pose proof (wrapU_range 16 (index_ d) ltac:(lia)) as H2.
  unfold in_U in *.
  rewrite (wrapU_id 32 (wrapU 16 (DeviceType.to_int16 (type_ d)))) by (unfold in_U; cbn in *; lia).
  rewrite (wrapU_id 32 (wrapU 16 (index_ d))) by (unfold in_U; cbn in *; lia).
  rewrite wrapU_id by (rewrite Z.shiftl_mul_pow2 by lia; unfold in_U; cbn in *; lia).
  by apply or_shiftl_pow.
Qed.

Lemma hash_bits_inj d1 d2 : valid d1 → valid d2 → hash_bits d1 = hash_bits d2 → d1 = d2.
Proof.
  intros (Ht1 & Hi1 & _) (Ht2 & Hi2 & _). rewrite !hash_bits_eq.
  pose proof (DeviceType.to_int16_range _ Ht1). pose proof (DeviceType.to_int16_range _ Ht2).
  pose proof (wrapU_range 16 (index_ d1) ltac:(lia)) as R1.
  pose proof (wrapU_range 16 (index_ d2) ltac:(lia)) as R2. unfold in_U in *.
  rewrite !(wrapU_id 16 (DeviceType.to_int16 _)) by (unfold in_U; cbn; lia). intros E.
  assert (DeviceType.to_int16 (type_ d1) = DeviceType.to_int16 (type_ d2)) as Et by (cbn in *; lia).
  assert (index_ d1 = index_ d2) as Ei.
  { apply (wrapU_inj_S 16); [lia|done|done|]. rewrite Et in E. lia. }
  destruct d1 as [t1 i1], d2 as [t2 i2]; cbn in *.
  rewrite <- (DeviceType.of_to_int16 t1), <- (DeviceType.of_to_int16 t2) by done.
  by rewrite Et, Ei.
Qed.
End Device.
Abbreviation Device := Device.Device.

(** ** c10/core/Stream.h *)
Module Stream.

Record Stream : Type := mkStream { device_ : Device; id_ : Z }.

#[global] Instance Stream_eq_dec : EqDecision Stream.
Proof. solve_decision. Defined.

(** [Stream(Default, Device)]. *)
Definition default_stream (device : Device) : Stream := mkStream device 0.
Definition Stream_eqb (a b : Stream) : bool :=
  Device.Device_eqb (device_ a) (device_ b) && (id_ a =? id_ b).
Definition device_type (s : Stream) : DeviceType := Device.type_ (device_ s).
Definition device_index (s : Stream) : Z := Device.index_ (device_ s).

(** The 64 bits of [pack]: each field is first cast to its unsigned width so
    that no sign bit spreads into the field above it. *)
Definition pack (s : Stream) : Z :=
  Z.lor
    (Z.lor (wrapU 64 (Z.shiftl (wrapU 16 (DeviceType.to_int16 (device_type s))) 48))
           (wrapU 64 (Z.shiftl (wrapU 16 (device_index s)) 32)))
    (wrapU 32 (id_ s)).

(** [unpack]: the masks are taken in [unsigned long long], and the results are
    converted to the parameter types [DeviceIndex] and [StreamId]. *)
Definition unpack (bits : Z) : outcome Stream :=
  let stream_id := Z.land (wrapU 64 (wrapS 32 bits)) 0xFFFFFFFF in
  let bits := Z.shiftr bits 32 in
  let device_index := Z.land (wrapU 64 (wrapS 16 bits)) 0xFFFF in
  let bits := Z.shiftr bits 16 in
  let device_type := DeviceType.of_int16 (wrapS 16 bits) in
  AT_CHECK (DeviceType.isValidDeviceType device_type) "" ≫= λ _,
  Device.make device_type (wrapS 16 device_index) ≫= λ device,
  Ok (mkStream device (wrapS 32 stream_id)).

Definition valid (s : Stream) : Prop := Device.valid (device_ s) ∧ in_S 32 (id_ s).

(** [pack] lays the three fields side by side. *)
Lemma pack_eq s :
  pack s = (wrapU 16 (DeviceType.to_int16 (device_type s)) * 2 ^ 16
            + wrapU 16 (device_index s)) * 2 ^ 32 + wrapU 32 (id_ s).
Proof.
  unfold pack.
  pose proof (wrapU_range 16 (DeviceType.to_int16 (device_type s)) ltac:(lia)) as H1.
  pose proof (wrapU_range 16 (device_index s) ltac:(lia)) as H2.
  pose proof (wrapU_range 32 (id_ s) ltac:(lia)) as H3.
  set (t := wrapU 16 _) in *. set (i := wrapU 16 _) in *. set (k := wrapU 32 _) in *.
  unfold in_U in *. cbn in H1, H2, H3.
  rewrite !wrapU_id by (rewrite Z.shiftl_mul_pow2 by lia; unfold in_U; cbn; lia).
  replace (Z.shiftl t 48) with (Z.shiftl (Z.shiftl t 16) 32) by (rewrite Z.shiftl_shiftl; [done|lia]).
  rewrite <- Z.shiftl_lor, or_shiftl_pow by (try done; lia).
  rewrite or_shiftl_pow by (try done; lia). done.
Qed.

Lemma land_wrap w a : 0 < w → Z.land (wrapU 64 (wrapS w a)) (Z.ones w) = wrapU w (wrapU 64 (wrapS w a)).
Proof. intros. rewrite Z.land_ones by lia. done. Qed.

(** Reading a field back: the low [w] bits, whatever the sign extension did. *)
Lemma wrapS_mask w a : 0 < w ≤ 64 →
  wrapS w (Z.land (wrapU 64 (wrapS w a)) (Z.ones w)) = wrapS w a.
Proof.
  intros Hw. rewrite land_wrap, wrapS_wrapU by lia.
  transitivity (wrapS w (wrapS w a)); [|apply wrapS_wrapS; lia].
  apply wrapS_congr; [lia|]. unfold wrapU. apply Z.mod_mod_divide.
  exists (2 ^ (64 - w)). rewrite <- Z.pow_add_r by lia. f_equal. lia.
Qed.

(** A packed stream unpacks to itself. *)
Lemma unpack_pack s : valid s → unpack (pack s) = Ok s.
Proof.
  intros [(Ht & Hi & Hv) Hid]. unfold unpack.
  rewrite (wrapS_mask 32), (wrapS_mask 16) by lia.
  rewrite pack_eq. 
  pose proof (wrapU_range 32 (id_ s) ltac:(lia)) as H3.
  pose proof (wrapU_range 16 (device_index s) ltac:(lia)) as H2. unfold in_U in *. 
  pose proof (DeviceType.to_int16_range _ Ht).
  rewrite !Z.shiftr_div_pow2 by lia.
  rewrite Z.div_add_l, (Z.div_small (wrapU 32 _)), Z.add_0_r by (cbn in *; lia).
  rewrite Z.div_add_l, (Z.div_small (wrapU 16 _)), Z.add_0_r by (cbn in *; lia).
  rewrite (wrapU_id 16 (DeviceType.to_int16 _)) by (unfold in_U, device_type; cbn; lia).
  rewrite (wrapS_id 16 (DeviceType.to_int16 _)) by (unfold in_S, device_type; cbn; lia).
  unfold device_type. rewrite DeviceType.of_to_int16 by done.
  rewrite AT_CHECK_bind_true by done.
  rewrite (wrapS_congr 16 _ (device_index s)) by
    (try done; rewrite Z.add_comm, Z_mod_plus_full; unfold wrapU; by rewrite Zmod_mod).
  rewrite (wrapS_congr 32 _ (id_ s)) by
    (try done; rewrite Z.add_comm, Z_mod_plus_full; unfold wrapU; by rewrite Zmod_mod).
  rewrite !wrapS_id by done.
  destruct s as [[t i] id]; cbn in *.
  by rewrite (proj2 (Device.make_Ok t i (Device.mkDevice t i)) (conj eq_refl Hv)).
Qed.

(** Whatever [unpack] accepts is a valid stream. *)
Lemma unpack_valid bits s : unpack bits = Ok s → valid s.
Proof.
  unfold unpack. rewrite AT_CHECK_bind_Ok, outcome_bind_Ok.
  intros (Ht & d & Hd & Hs). apply Ok_inj in Hs as <-. apply Device.make_Ok in Hd as [-> Hv].
  split; [|by apply (wrapS_range 32)].
  split; [exact Ht|]. split; [by apply (wrapS_range 16)|exact Hv].
Qed.
End Stream.
