(* ===== verification/ScalarTypes.v ===== *)
(** * Scalar types and their promotion (c10/core/ScalarType.h, QScheme.h)

    The enumerations, their conversions to and from the run-time type
    descriptors [caffe2::TypeMeta], element sizes, and the promotion table. *)
From S2P Require Import Prelude.
Local Open Scope Z_scope.

(** The C++ types of [AT_FORALL_SCALAR_TYPES_WITH_COMPLEX], in its order. *)
Inductive ctype : Type :=
  | c_uint8_t | c_int8_t | c_int16_t | c_int | c_int64_t | c_Half | c_float | c_double
  | c_ComplexHalf | c_complex_float | c_complex_double | c_bool | c_qint8.

#[global] Instance ctype_eq_dec : EqDecision ctype.
Proof. solve_decision. Defined.

(** [caffe2::TypeMeta]: the default (uninitialized) descriptor, [Make<T>()] for
    a scalar type [T], and the descriptors of other C++ types. *)
Inductive TypeMeta : Type :=
  | meta_uninitialized
  | Make (c : ctype)
  | meta_other (id : Z).

#[global] Instance TypeMeta_eq_dec : EqDecision TypeMeta.
Proof. solve_decision. Defined.

Module ScalarType.

(** [enum class ScalarType : int8_t]. *)
Inductive ScalarType : Type :=
  | Byte | Char | Short | Int | Long | Half | Float | Double
  | ComplexHalf | ComplexFloat | ComplexDouble | Bool | QInt8
  | Undefined | NumOptions.

#[global] Instance ScalarType_eq_dec : EqDecision ScalarType.
Proof. solve_decision. Defined.

Definition to_int (t : ScalarType) : nat :=
  match t with
  | Byte => 0 | Char => 1 | Short => 2 | Int => 3 | Long => 4 | Half => 5 | Float => 6
  | Double => 7 | ComplexHalf => 8 | ComplexFloat => 9 | ComplexDouble => 10 | Bool => 11
  | QInt8 => 12 | Undefined => 13 | NumOptions => 14
  end%nat.

Definition scalarTypeToTypeMeta (t : ScalarType) : outcome TypeMeta :=
  match t with
  | Byte => Ok (Make c_uint8_t)
  | Char => Ok (Make c_int8_t)
  | Short => Ok (Make c_int16_t)
  | Int => Ok (Make c_int)
  | Long => Ok (Make c_int64_t)
  | Half => Ok (Make c_Half)
  | Float => Ok (Make c_float)
  | Double => Ok (Make c_double)
  | ComplexHalf => Ok (Make c_ComplexHalf)
  | ComplexFloat => Ok (Make c_complex_float)
  | ComplexDouble => Ok (Make c_complex_double)
  | Bool => Ok (Make c_bool)
  | QInt8 => Ok (Make c_qint8)
  | Undefined => Ok meta_uninitialized
  | NumOptions => AT_ERROR "Unrecognized Scalartype "
  end.

(** The chain of comparisons the macro expands to, in its order. *)
Definition meta_table : list (ctype * ScalarType) :=
  [(c_uint8_t, Byte); (c_int8_t, Char); (c_int16_t, Short); (c_int, Int); (c_int64_t, Long);
   (c_Half, Half); (c_float, Float); (c_double, Double); (c_ComplexHalf, ComplexHalf);
   (c_complex_float, ComplexFloat); (c_complex_double, ComplexDouble); (c_bool, Bool);
   (c_qint8, QInt8)].

Definition tryTypeMetaToScalarType (dtype : TypeMeta) : option ScalarType :=
  match List.find (λ p, bool_decide (dtype = Make p.1)) meta_table with
  | Some p => Some p.2
  | None => if bool_decide (dtype = meta_uninitialized) then Some Undefined else None
  end.

Definition typeMetaToScalarType (dtype : TypeMeta) : outcome ScalarType :=
  match tryTypeMetaToScalarType dtype with
  | Some t => Ok t
  | None => AT_ERROR "Unsupported TypeMeta in ATen: "
  end.

(** [operator==(ScalarType, TypeMeta)]. *)
Definition scalar_meta_eqb (t : ScalarType) (m : TypeMeta) : bool :=
  match tryTypeMetaToScalarType m with
  | Some mt => bool_decide (mt = t)
  | None => false
  end.

Definition ScalarType_toString (t : ScalarType) : string :=
  match t with
  | Byte => "Byte" | Char => "Char" | Short => "Short" | Int => "Int" | Long => "Long"
  | Half => "Half" | Float => "Float" | Double => "Double" | ComplexHalf => "ComplexHalf"
  | ComplexFloat => "ComplexFloat" | ComplexDouble => "ComplexDouble" | Bool => "Bool"
  | QInt8 => "QInt8"
  | _ => "UNKNOWN_SCALAR"
  end.

(** [sizeof] of each type on the supported 64-bit platforms. *)
Definition elementSize (t : ScalarType) : outcome Z :=
  match t with
  | Byte | Char | Bool | QInt8 => Ok 1
  | Short | Half => Ok 2
  | Int | Float | ComplexHalf => Ok 4
  | Long | Double | ComplexFloat => Ok 8
  | ComplexDouble => Ok 16
  | _ => AT_ERROR "Unknown ScalarType"
  end.

Definition isIntegralType (t : ScalarType) : bool :=
  bool_decide (t = Byte) || bool_decide (t = Char) || bool_decide (t = Int) ||
  bool_decide (t = Long) || bool_decide (t = Short).
Definition isFloatingType (t : ScalarType) : bool :=
  bool_decide (t = Double) || bool_decide (t = Float) || bool_decide (t = Half).
Definition isComplexType (t : ScalarType) : bool :=
  bool_decide (t = ComplexHalf) || bool_decide (t = ComplexFloat) ||
  bool_decide (t = ComplexDouble).
Definition isQIntType (t : ScalarType) : bool := bool_decide (t = QInt8).

(** The rows of [_promoteTypesLookup]; the C++ array is larger, and its other
    entries are zero-initialized. *)
Definition promoteTypesLookup : list (list ScalarType) :=
  let u1 := Byte in let i1 := Char in let i2 := Short in let i4 := Int in let i8 := Long in
  let f2 := Half in let f4 := Float in let f8 := Double in let b1 := Bool in
  let ud := Undefined in
  (*       u1  i1  i2  i4  i8  f2  f4  f8  c2  c4  c8  b1 *)
  [ (* u1 *) [u1; i2; i2; i4; i8; f2; f4; f8; ud; ud; ud; u1];
   (* i1 *) [i2; i1; i2; i4; i8; f2; f4; f8; ud; ud; ud; i1];
   (* i2 *) [i2; i2; i2; i4; i8; f2; f4; f8; ud; ud; ud; i2];
   (* i4 *) [i4; i4; i4; i4; i8; f2; f4; f8; ud; ud; ud; i4];
   (* i8 *) [i8; i8; i8; i8; i8; f2; f4; f8; ud; ud; ud; i8];
   (* f2 *) [f2; f2; f2; f2; f2; f2; f4; f8; ud; ud; ud; f2];
   (* f4 *) [f4; f4; f4; f4; f4; f4; f4; f8; ud; ud; ud; f4];
   (* f8 *) [f8; f8; f8; f8; f8; f8; f8; f8; ud; ud; ud; f8];
   (* c2 *) [ud; ud; ud; ud; ud; ud; ud; ud; ud; ud; ud; ud];
   (* c4 *) [ud; ud; ud; ud; ud; ud; ud; ud; ud; ud; ud; ud];
   (* c8 *) [ud; ud; ud; ud; ud; ud; ud; ud; ud; ud; ud; ud];
   (* b1 *) [u1; i1; i2; i4; i8; f2; f4; f8; ud; ud; ud; b1]].

Definition promoteTypes (a b : ScalarType) : outcome ScalarType :=
  if bool_decide (a = Undefined) || bool_decide (b = Undefined) then Ok Undefined
  else if isComplexType a || isComplexType b then
    AT_ERROR "promoteTypes with complex numbers is not handled yet; figure out what the correct rules should be"
  else if isQIntType a && bool_decide (a = b) then Ok a
  else if isQIntType a || isQIntType b then
    AT_ERROR "promoteTypes with quantized numbers is not handled yet; figure out what the correct rules should be"
  else
    match promoteTypesLookup !! to_int a with
    | None => Throw (Prelude.Undefined "lookup table row")
    | Some row =>
        Ok (match row !! to_int b with Some t => t | None => Byte end)
    end.

(** The types promotion is defined on. *)
Definition promotable (t : ScalarType) : bool :=
  isIntegralType t || isFloatingType t || bool_decide (t = Bool).

(** [a] promotes into [b]. *)
Definition promotes_to (a b : ScalarType) : Prop := promoteTypes a b = Ok b.

(** The descriptor of a scalar type names that scalar type. *)
Lemma typeMeta_roundtrip t m : scalarTypeToTypeMeta t = Ok m → typeMetaToScalarType m = Ok t.
Proof. destruct t; cbn; intros [= <-]; done. Qed.

(** Promotion is the least upper bound of an order on the nine dense real
    types: it always returns one of them, it is commutative, associative and
    idempotent, and [Bool] is its least element. *)
Lemma promoteTypes_semilattice a b c :
  promotable a = true → promotable b = true → promotable c = true →
  ∃ ab bc abc,
    promoteTypes a b = Ok ab ∧ promoteTypes b a = Ok ab ∧ promotable ab = true ∧
    promoteTypes b c = Ok bc ∧
    promoteTypes ab c = Ok abc ∧ promoteTypes a bc = Ok abc ∧
    promoteTypes a a = Ok a ∧ promoteTypes Bool a = Ok a ∧
    promotes_to a ab ∧ promotes_to b ab ∧
    (promotes_to a c → promotes_to b c → promotes_to ab c).
Proof.
  intros Ha Hb Hc. unfold promotes_to.
  destruct a; try discriminate Ha; destruct b; try discriminate Hb;
    destruct c; try discriminate Hc; eexists _, _, _; repeat split; done.
Qed.

(** Whether promotion of a pair is refused, as one decision. *)
Definition promotion_refused (a b : ScalarType) : bool :=
  bool_decide (a ≠ Undefined) && bool_decide (b ≠ Undefined) &&
  (isComplexType a || isComplexType b ||
   bool_decide (a ≠ b) && (bool_decide (a = QInt8) || bool_decide (b = QInt8))).

(** Promotion throws exactly when no operand is [Undefined] and a complex type
    is involved, or a quantized type meets a different type. *)
Lemma promoteTypes_throws a b :
  a ≠ NumOptions → b ≠ NumOptions →
  returns (promoteTypes a b) = negb (promotion_refused a b).
Proof. destruct a, b; intros ? ?; done. Qed.

(** The promoted type is at least as wide as both operands within its kind. *)
Lemma promoteTypes_size a b t n m k :
  promotable a = true → promotable b = true → promoteTypes a b = Ok t →
  elementSize a = Ok n → elementSize b = Ok m → elementSize t = Ok k →
  isFloatingType t = (isFloatingType a || isFloatingType b) ∧
  (isFloatingType a = isFloatingType b → n ≤ k ∧ m ≤ k).
Proof.
  intros Ha Hb. destruct a; try discriminate Ha; destruct b; try discriminate Hb;
    vm_compute; intros [= <-] [= <-] [= <-] [= <-]; (split; [done|intros; split; done]).
Qed.

End ScalarType.
Abbreviation ScalarType := ScalarType.ScalarType.

(** ** c10/core/QScheme.h *)
Module QScheme.
Inductive QScheme : Type :=
  | PER_TENSOR_AFFINE | PER_CHANNEL_AFFINE | PER_TENSOR_SYMMETRIC | PER_CHANNEL_SYMMETRIC
  | COMPILE_TIME_NUM_QSCHEMES.

Definition QScheme_toString (q : QScheme) : outcome string :=
  match q with
  | PER_TENSOR_AFFINE => Ok "PerTensorAffine"
  | PER_CHANNEL_AFFINE => Ok "PerChannelAffine"
  | PER_TENSOR_SYMMETRIC => Ok "PerTensorSymmetric"
  | PER_CHANNEL_SYMMETRIC => Ok "PerChannelSymmetric"
  | COMPILE_TIME_NUM_QSCHEMES => AT_ERROR "Unrecognized qscheme: "
  end.

Lemma QScheme_toString_inj p q s :
  QScheme_toString p = Ok s → QScheme_toString q = Ok s → p = q.
Proof. destruct p, q; cbn; intros [= <-]; done. Qed.
End QScheme.
