(* ===== verification/TensorIds.v ===== *)
(** * Tensor type ids (c10/core/TensorTypeId*.{h,cpp})

    The process-wide creator and registry of tensor type ids, the function-local
    statics behind [CPUTensorId()] and its siblings, and the interface
    ([TensorIds]) that the code switching on ids relies on: distinct names have
    distinct ids.  The interface is discharged for every order in which a program
    first calls the id functions. *)
From S2P Require Import Prelude.
Local Open Scope Z_scope.

(** The functions [C10_DEFINE_TENSOR_TYPE] defines. *)
Inductive tensor_name : Type :=
  | UndefinedTensorId | CPUTensorId | CUDATensorId | SparseCPUTensorId | SparseCUDATensorId
  | MKLDNNTensorId | OpenGLTensorId | OpenCLTensorId | IDEEPTensorId | HIPTensorId
  | SparseHIPTensorId | MSNPUTensorId | XLATensorId | MkldnnCPUTensorId | QuantizedCPUTensorId
  | ComplexCPUTensorId | ComplexCUDATensorId.

#[export] Instance tensor_name_eq_dec : EqDecision tensor_name.
Proof. solve_decision. Defined.

Definition tensor_names : list tensor_name :=
  [UndefinedTensorId; CPUTensorId; CUDATensorId; SparseCPUTensorId; SparseCUDATensorId;
   MKLDNNTensorId; OpenGLTensorId; OpenCLTensorId; IDEEPTensorId; HIPTensorId;
   SparseHIPTensorId; MSNPUTensorId; XLATensorId; MkldnnCPUTensorId; QuantizedCPUTensorId;
   ComplexCPUTensorId; ComplexCUDATensorId].

Definition tensor_name_index (n : tensor_name) : positive :=
  match n with
  | UndefinedTensorId => 1 | CPUTensorId => 2 | CUDATensorId => 3 | SparseCPUTensorId => 4
  | SparseCUDATensorId => 5 | MKLDNNTensorId => 6 | OpenGLTensorId => 7 | OpenCLTensorId => 8
  | IDEEPTensorId => 9 | HIPTensorId => 10 | SparseHIPTensorId => 11 | MSNPUTensorId => 12
  | XLATensorId => 13 | MkldnnCPUTensorId => 14 | QuantizedCPUTensorId => 15
  | ComplexCPUTensorId => 16 | ComplexCUDATensorId => 17
  end%positive.

#[export] Program Instance tensor_name_countable : Countable tensor_name := {|
  encode := tensor_name_index;
  decode p := List.find (λ n, Pos.eqb (tensor_name_index n) p) tensor_names |}.
Next Obligation. by intros []. Qed.

Lemma elem_of_tensor_names n : n ∈ tensor_names.
Proof. unfold tensor_names. destruct n; set_solver. Qed.

(** What the users of the ids rely on. *)
Class TensorIds : Type := {
  tid : tensor_name → Z;
  tid_inj : Inj (=) (=) tid
}.
#[export] Existing Instance tid_inj.

Module TensorTypeIds.

(** The singleton ([creator_.last_id_], [registry_.registeredTypeIds_]) and the
    function-local static registrars that have been constructed. *)
Record state : Type := mkState {
  last_id_ : Z;
  registeredTypeIds_ : gset Z;
  statics : gmap tensor_name Z
}.

Definition initial : state := mkState 0 ∅ ∅.

(** [TensorTypeIdCreator::create]: [++last_id_] on a [uint8_t]. *)
Definition create : SE state Z := λ s,
  let last := wrapU 8 (last_id_ s + 1) in
  let s' := mkState last (registeredTypeIds_ s) (statics s) in
  if last =? 0
  then (Throw (C10Error "Tried to define more than 254 tensor types, which is unsupported"), s')
  else (Ok last, s').

Definition registerId (id : Z) : SE state unit :=
  modify (λ s, mkState (last_id_ s) ({[id]} ∪ registeredTypeIds_ s) (statics s)).

Definition deregisterId (id : Z) : SE state unit :=
  modify (λ s, mkState (last_id_ s) (registeredTypeIds_ s ∖ {[id]}) (statics s)).

Definition createAndRegister : SE state Z :=
  id ← create; registerId id;; mret id.

Definition deregister (id : Z) : SE state unit := deregisterId id.

Definition set_static (n : tensor_name) (id : Z) : SE state unit :=
  modify (λ s, mkState (last_id_ s) (registeredTypeIds_ s) (<[n:=id]> (statics s))).

(** The body of [TensorName()]: the static registrar is constructed by the first
    call that gets past its initialisation, and not when the constructor throws. *)
Definition TensorName (n : tensor_name) : SE state Z :=
  st ← gets statics;
  match st !! n with
  | Some id => mret id
  | None => id ← createAndRegister; set_static n id;; mret id
  end.

(** The calls other code can make on the singleton. *)
Inductive op : Type :=
  | OpName (n : tensor_name)
  | OpRegistrar
  | OpDeregister (id : Z).

Definition run_op (o : op) : SE state unit :=
  match o with
  | OpName n => TensorName n;; mret tt
  | OpRegistrar => createAndRegister;; mret tt
  | OpDeregister id => deregister id
  end.

(** A run of the program, which goes on after a call that throws. *)
Fixpoint run (os : list op) (s : state) : state :=
  match os with
  | [] => s
  | o :: os => run os (run_op o s).2
  end.

(** Calls that create an id at most. *)
Definition may_create (o : op) : nat :=
  match o with OpDeregister _ => 0 | _ => 1 end.
Definition creations (os : list op) : nat := sum_list (may_create <$> os).

(** The statics hold distinct ids between 1 and [last_id_]. *)
Record inv (s : state) : Prop := {
  inv_last : in_U 8 (last_id_ s);
  inv_range n id : statics s !! n = Some id → 1 ≤ id ≤ last_id_ s;
  inv_inj n m id : statics s !! n = Some id → statics s !! m = Some id → n = m
}.

Lemma inv_initial : inv initial.
Proof. by split; cbn. Qed.

Lemma create_step s :
  inv s → last_id_ s < 255 →
  createAndRegister s =
    (Ok (last_id_ s + 1),
     mkState (last_id_ s + 1) ({[last_id_ s + 1]} ∪ registeredTypeIds_ s) (statics s)).
Proof.
  intros Hi Hl. pose proof (inv_last s Hi) as Hr.
  assert (E : wrapU 8 (last_id_ s + 1) = last_id_ s + 1) by (apply wrapU_id; unfold in_U in *; lia).
  unfold createAndRegister, mbind, SE_bind, create. rewrite E.
  rewrite (proj2 (Z.eqb_neq _ _)) by (unfold in_U in *; lia). done.
Qed.

Lemma create_overflow s :
  last_id_ s = 255 → returns (createAndRegister s).1 = false ∧ last_id_ (createAndRegister s).2 = 0.
Proof. intros E. unfold createAndRegister, mbind, SE_bind, create. rewrite E. done. Qed.

Lemma inv_create s : inv s → last_id_ s < 255 →
  inv (mkState (last_id_ s + 1) ({[last_id_ s + 1]} ∪ registeredTypeIds_ s) (statics s)).
Proof.
  intros [Hr H1 H2] Hl. split; cbn; [unfold in_U in *; lia| |eauto].
  intros n id E. specialize (H1 _ _ E). lia.
Qed.

Lemma TensorName_known s n id : statics s !! n = Some id → TensorName n s = (Ok id, s).
Proof. intros E. unfold TensorName, mbind, SE_bind, gets. by rewrite E. Qed.

Lemma TensorName_new s n : inv s → last_id_ s < 255 → statics s !! n = None →
  TensorName n s =
    (Ok (last_id_ s + 1),
     mkState (last_id_ s + 1) ({[last_id_ s + 1]} ∪ registeredTypeIds_ s)
             (<[n:=last_id_ s + 1]> (statics s))).
Proof.
  intros Hi Hl E. unfold TensorName, mbind, SE_bind, gets. rewrite E.
  by rewrite (create_step s Hi Hl).
Qed.

Lemma inv_TensorName s n : inv s → last_id_ s < 255 → inv (TensorName n s).2.
Proof.
  intros Hi Hl. destruct (statics s !! n) as [id|] eqn:E.
  - by rewrite (TensorName_known _ _ _ E).
  - rewrite (TensorName_new _ _ Hi Hl E). pose proof (inv_create s Hi Hl) as [H0 H1 H2].
    destruct Hi as [Hr K1 K2].
    split; cbn in *; [done| |].
    + intros m id. rewrite lookup_insert. case_decide; [intros [= <-]; unfold in_U in *; lia|eauto].
    + intros m m' id. rewrite !lookup_insert. repeat case_decide; simplify_eq/=; [done| | |eauto];
        intros A B; simplify_eq;
        match goal with H : statics s !! _ = Some _ |- _ => apply K1 in H; lia end.
Qed.

(** One call creates at most one id, keeps the invariant and never changes a
    static that exists. *)
Lemma run_op_step o s :
  inv s → last_id_ s + Z.of_nat (may_create o) ≤ 255 →
  inv (run_op o s).2 ∧ last_id_ (run_op o s).2 ≤ last_id_ s + Z.of_nat (may_create o) ∧
  statics s ⊆ statics (run_op o s).2.
Proof.
  intros Hi Hl. destruct o as [n| |id]; cbn in Hl.
  - assert (Hlt : last_id_ s < 255) by lia.
    pose proof (inv_TensorName s n Hi Hlt) as Hi'.
    assert (E2 : (run_op (OpName n) s).2 = (TensorName n s).2).
    { unfold run_op, mbind, SE_bind. by destruct (TensorName n s) as [[] ]. }
    rewrite E2. split; [done|].
    destruct (statics s !! n) as [id|] eqn:E.
    + rewrite (TensorName_known _ _ _ E); cbn. split; [lia|done].
    + rewrite (TensorName_new _ _ Hi Hlt E); cbn. split; [lia|by apply insert_subseteq].
  - assert (Hlt : last_id_ s < 255) by lia.
    unfold run_op, mbind, SE_bind. rewrite (create_step s Hi Hlt); cbn.
    split; [by apply inv_create|split; [lia|done]].
  - cbn. split; [by destruct Hi; split|split; [lia|done]].
Qed.

Lemma run_steps os s :
  inv s → last_id_ s + Z.of_nat (creations os) ≤ 255 →
  inv (run os s) ∧ last_id_ (run os s) ≤ last_id_ s + Z.of_nat (creations os) ∧ statics s ⊆ statics (run os s).
Proof.
  revert s. induction os as [|o os IH]; intros s Hi Hl; cbn -[Z.of_nat] in *; [split; [done|split; [lia|done]]|].
  unfold creations in *; cbn -[Z.of_nat] in *.
  destruct (run_op_step o s Hi ltac:(lia)) as (Hi' & Hl' & Hs).
  destruct (IH (run_op o s).2 Hi' ltac:(lia)) as (Hi2 & Hl2 & Hs2).
  split; [done|split; [lia|by etransitivity]].
Qed.

(** The id a run gives to a name that has been called in it. *)
Definition id_of (s : state) (n : tensor_name) : Z := default 0 (statics s !! n).

Lemma id_of_inj s : inv s → (∀ n, is_Some (statics s !! n)) → Inj (=) (=) (id_of s).
Proof.
  intros Hi Hall n m. unfold id_of.
  destruct (Hall n) as [a Ea], (Hall m) as [b Eb]. rewrite Ea, Eb; cbn. intros ->.
  by eapply inv_inj.
Qed.

Lemma run_called os s n :
  inv s → last_id_ s + Z.of_nat (creations os) ≤ 255 → OpName n ∈ os → is_Some (statics (run os s) !! n).
Proof.
  revert s. induction os as [|o os IH]; intros s Hi Hl Hin; [by apply not_elem_of_nil in Hin|].
  unfold creations in *; cbn -[Z.of_nat] in *.
  destruct (run_op_step o s Hi ltac:(lia)) as (Hi' & Hl' & Hs).
  apply elem_of_cons in Hin as [<-|Hin]; [|apply IH; [done|lia|done]].
  destruct (run_steps os (run_op (OpName n) s).2 Hi' ltac:(unfold creations; lia)) as (_ & _ & Hsub).
  assert (is_Some (statics (run_op (OpName n) s).2 !! n)) as [id Eid].
  { unfold run_op, mbind, SE_bind; cbn in Hl. destruct (statics s !! n) as [id|] eqn:E.
    - rewrite (TensorName_known _ _ _ E); cbn. by eexists.
    - rewrite (TensorName_new _ _ Hi ltac:(lia) E); cbn. rewrite lookup_insert_eq. by eexists. }
  exists id. by eapply lookup_weaken.
Qed.

(** A program that calls every id function once, in any order and between any
    other calls, implements the interface. *)
Definition ids_of_run (os : list op) (Hl : (creations os ≤ 255)%nat)
  (Hall : ∀ n, OpName n ∈ os) : TensorIds.
Proof.
  refine {| tid := id_of (run os initial) |}.
  assert (Hl' : last_id_ initial + Z.of_nat (creations os) ≤ 255) by (cbn; lia).
  apply id_of_inj.
  - apply (run_steps os initial inv_initial Hl').
  - intros n. by apply run_called; [apply inv_initial| |].
Defined.

(** The run that calls the functions in the order they are defined. *)
Definition startup : list op := OpName <$> tensor_names.

Lemma startup_all n : OpName n ∈ startup.
Proof. apply list_elem_of_fmap. exists n. split; [done|apply elem_of_tensor_names]. Qed.

Definition startup_ids : TensorIds := ids_of_run startup ltac:(vm_compute; lia) startup_all.

End TensorTypeIds.
