(* ===== verification/Options.v ===== *)
(** * Backends, layouts and tensor options (c10/core)

    Module [Backend] models c10/core/Backend.h, [Layout] c10/core/Layout.h and
    [TensorOptions] c10/core/TensorOptions.h.  The code that switches on tensor
    type ids is defined against the interface [TensorIds]. *)
From S2P Require Import Prelude CoreTypes ScalarTypes TensorIds.
Local Open Scope Z_scope.

(** ** c10/core/Backend.h *)
Module Backend.

Inductive Backend : Type :=
  | CPU | CUDA | HIP | SparseCPU | SparseCUDA | SparseHIP | MSNPU | XLA | QuantizedCPU
  | ComplexCPU | ComplexCUDA | Undefined | MkldnnCPU | NumOptions.

#[global] Instance Backend_eq_dec : EqDecision Backend.
Proof. solve_decision. Defined.

Definition unknown_backend {A} : outcome A := Throw (RuntimeError "Unknown backend").

Definition toSparse (b : Backend) : outcome Backend :=
  match b with
  | CPU => Ok SparseCPU
  | CUDA => Ok SparseCUDA
  | HIP => Ok SparseHIP
  | SparseCPU => Ok SparseCPU
  | SparseCUDA => Ok SparseCUDA
  | SparseHIP => Ok SparseHIP
  | _ => unknown_backend
  end.

Definition toDense (b : Backend) : outcome Backend :=
  match b with
  | CPU => Ok CPU
  | CUDA => Ok CUDA
  | HIP => Ok HIP
  | MSNPU => Ok MSNPU
  | XLA => Ok XLA
  | SparseCPU => Ok CPU
  | SparseCUDA => Ok CUDA
  | SparseHIP => Ok HIP
  | QuantizedCPU => Ok QuantizedCPU
  | ComplexCPU => Ok ComplexCPU
  | ComplexCUDA => Ok ComplexCUDA
  | _ => unknown_backend
  end.

Section WithIds.
Context `{TensorIds}.

Definition tensorTypeIdToBackend (t : Z) : outcome Backend :=
  if t =? tid CPUTensorId then Ok CPU
  else if t =? tid CUDATensorId then Ok CUDA
  else if t =? tid HIPTensorId then Ok HIP
  else if t =? tid MSNPUTensorId then Ok MSNPU
  else if t =? tid XLATensorId then Ok XLA
  else if t =? tid SparseCPUTensorId then Ok SparseCPU
  else if t =? tid SparseCUDATensorId then Ok SparseCUDA
  else if t =? tid SparseHIPTensorId then Ok SparseHIP
  else if t =? tid MkldnnCPUTensorId then Ok MkldnnCPU
  else if t =? tid QuantizedCPUTensorId then Ok QuantizedCPU
  else if t =? tid ComplexCPUTensorId then Ok ComplexCPU
  else if t =? tid ComplexCUDATensorId then Ok ComplexCUDA
  else if t =? tid UndefinedTensorId then Ok Undefined
  else AT_ERROR "Unrecognized tensor type ID: ".

Definition backendToTensorTypeId (b : Backend) : outcome Z :=
  match b with
  | CPU => Ok (tid CPUTensorId)
  | CUDA => Ok (tid CUDATensorId)
  | HIP => Ok (tid HIPTensorId)
  | MSNPU => Ok (tid MSNPUTensorId)
  | XLA => Ok (tid XLATensorId)
  | SparseCPU => Ok (tid SparseCPUTensorId)
  | SparseCUDA => Ok (tid SparseCUDATensorId)
  | SparseHIP => Ok (tid SparseHIPTensorId)
  | MkldnnCPU => Ok (tid MkldnnCPUTensorId)
  | QuantizedCPU => Ok (tid QuantizedCPUTensorId)
  | ComplexCPU => Ok (tid ComplexCPUTensorId)
  | ComplexCUDA => Ok (tid ComplexCUDATensorId)
  | Undefined => Ok (tid UndefinedTensorId)
  | NumOptions => unknown_backend
  end.

(** Comparing the ids of two names decides the names. *)
Lemma tid_eqb n m : (tid n =? tid m) = bool_decide (n = m).
Proof.
  destruct (bool_decide_reflect (n = m)) as [->|Hne]; [apply Z.eqb_refl|].
  apply Z.eqb_neq. intros E. by apply (inj tid) in E.
Qed.

Lemma tensorTypeIdToBackend_backend b t :
  backendToTensorTypeId b = Ok t → tensorTypeIdToBackend t = Ok b.
Proof.
  destruct b; cbn; try discriminate; intros E; apply Ok_inj in E; subst t;
    unfold tensorTypeIdToBackend; rewrite ?tid_eqb; reflexivity.
Qed.

Lemma backendToTensorTypeId_id t b :
  tensorTypeIdToBackend t = Ok b → backendToTensorTypeId b = Ok t.
Proof.
  unfold tensorTypeIdToBackend.
  repeat (case_match; [intros E; apply Ok_inj in E; subst b; cbn; f_equal;
                       symmetry; by apply Z.eqb_eq|]).
  done.
Qed.
End WithIds.

Definition backendToDeviceType (b : Backend) : outcome DeviceType :=
  match b with
  | CPU => Ok DeviceType.CPU
  | CUDA => Ok DeviceType.CUDA
  | HIP => Ok DeviceType.HIP
  | MSNPU => Ok DeviceType.MSNPU
  | XLA => Ok DeviceType.XLA
  | SparseCPU => Ok DeviceType.CPU
  | SparseCUDA => Ok DeviceType.CUDA
  | SparseHIP => Ok DeviceType.HIP
  | MkldnnCPU | QuantizedCPU | ComplexCPU => Ok DeviceType.CPU
  | ComplexCUDA => Ok DeviceType.CUDA
  | Undefined => AT_ERROR "Undefined backend is not a valid device type"
  | NumOptions => AT_ERROR "Unknown backend"
  end.

Definition backendToCPU (b : Backend) : outcome Backend :=
  match b with
  | CPU => Ok CPU
  | CUDA => Ok CPU
  | HIP => Ok CPU
  | SparseCPU => Ok SparseCPU
  | SparseCUDA => Ok SparseCPU
  | SparseHIP => Ok SparseCPU
  | MSNPU | XLA => Ok CPU
  | MkldnnCPU => Ok MkldnnCPU
  | QuantizedCPU => Ok QuantizedCPU
  | ComplexCPU | ComplexCUDA => Ok ComplexCPU
  | Undefined => Ok Undefined
  | NumOptions => AT_ERROR "Unknown backend"
  end.

Definition backendToCUDA (b : Backend) : outcome Backend :=
  match b with
  | CPU | CUDA | HIP | MSNPU | XLA => Ok CUDA
  | SparseCPU | SparseCUDA | SparseHIP => Ok SparseCUDA
  | ComplexCPU | ComplexCUDA => Ok ComplexCUDA
  | Undefined => Ok Undefined
  | _ => AT_ERROR "Unknown backend"
  end.

Definition backendToHIP (b : Backend) : outcome Backend :=
  match b with
  | CPU | CUDA | HIP | MSNPU | XLA => Ok HIP
  | SparseCPU | SparseCUDA | SparseHIP => Ok SparseHIP
  | Undefined => Ok Undefined
  | _ => AT_ERROR "Unknown backend"
  end.

Definition Backend_toString (b : Backend) : string :=
  match b with
  | CPU => "CPU" | CUDA => "CUDA" | HIP => "HIP" | MSNPU => "MSNPU" | XLA => "XLA"
  | SparseCPU => "SparseCPU" | SparseCUDA => "SparseCUDA" | SparseHIP => "SparseHIP"
  | MkldnnCPU => "MkldnnCPU" | QuantizedCPU => "QuantizedCPU"
  | ComplexCPU => "ComplexCPU" | ComplexCUDA => "ComplexCUDA"
  | _ => "UNKNOWN_BACKEND"
  end.

End Backend.
Abbreviation Backend := Backend.Backend.

(** ** c10/core/Layout.h *)
Module Layout.

Inductive Layout : Type := Strided | Sparse | Mkldnn.

#[global] Instance Layout_eq_dec : EqDecision Layout.
Proof. solve_decision. Defined.

Definition layout_from_backend (b : Backend) : Layout :=
  match b with
  | Backend.SparseCPU | Backend.SparseCUDA | Backend.SparseHIP => Sparse
  | Backend.MkldnnCPU => Mkldnn
  | _ => Strided
  end.

Definition Layout_toString (l : Layout) : string :=
  match l with
  | Strided => "Strided"
  | Sparse => "Sparse"
  | Mkldnn => "Mkldnn"
  end.

(** Moving a backend to another device keeps its layout. *)
Lemma layout_backendTo b c :
  Backend.backendToCPU b = Ok c ∨ Backend.backendToCUDA b = Ok c ∨ Backend.backendToHIP b = Ok c →
  layout_from_backend c = layout_from_backend b.
Proof. destruct b; cbn; intros [E|[E|E]]; try discriminate E; apply Ok_inj in E; by subst c. Qed.

(** Densifying undoes sparsifying, and both do what they say to the layout. *)
Lemma toSparse_toDense b s : Backend.toSparse b = Ok s →
  layout_from_backend s = Sparse ∧ Backend.toSparse s = Ok s ∧
  ∃ d, Backend.toDense b = Ok d ∧ Backend.toDense s = Ok d ∧ Backend.toSparse d = Ok s ∧
       Backend.backendToDeviceType s = Backend.backendToDeviceType b.
Proof.
  destruct b; cbn; intros E; try discriminate E; apply Ok_inj in E; subst s;
    (split; [done|split; [done|eexists; split; [done|split; [done|split; done]]]]).
Qed.
End Layout.
Abbreviation Layout := Layout.Layout.

(** ** c10/core/TensorOptions.h *)
Module TensorOptions.

Record TensorOptions : Type := mkTensorOptions {
  dtype_ : TypeMeta;
  device_ : Device;
  layout_ : Layout;
  requires_grad_ : bool;
  is_variable_ : bool;
  pinned_memory_ : bool;
  has_device_ : bool;
  has_dtype_ : bool;
  has_layout_ : bool;
  has_requires_grad_ : bool;
  has_is_variable_ : bool;
  has_pinned_memory_ : bool
}.

#[global] Instance TensorOptions_eq_dec : EqDecision TensorOptions.
Proof. solve_decision. Defined.

(** [Device(kCPU)]: index -1. *)
Definition cpu_device : Device := Device.mkDevice DeviceType.CPU (-1).

(** The default constructor with the members' initialisers. *)
Definition TensorOptions_new : TensorOptions :=
  mkTensorOptions (Make c_float) cpu_device Layout.Strided
    false false false false false false false false false.

(** *** The private setters *)
Definition set_device (o : TensorOptions) (device : option Device) : TensorOptions :=
  match device with
  | Some d => mkTensorOptions (dtype_ o) d (layout_ o) (requires_grad_ o) (is_variable_ o)
      (pinned_memory_ o) true (has_dtype_ o) (has_layout_ o) (has_requires_grad_ o)
      (has_is_variable_ o) (has_pinned_memory_ o)
  | None => mkTensorOptions (dtype_ o) (device_ o) (layout_ o) (requires_grad_ o) (is_variable_ o)
      (pinned_memory_ o) false (has_dtype_ o) (has_layout_ o) (has_requires_grad_ o)
      (has_is_variable_ o) (has_pinned_memory_ o)
  end.

Definition set_dtype (o : TensorOptions) (dtype : option TypeMeta) : TensorOptions :=
  match dtype with
  | Some d => mkTensorOptions d (device_ o) (layout_ o) (requires_grad_ o) (is_variable_ o)
      (pinned_memory_ o) (has_device_ o) true (has_layout_ o) (has_requires_grad_ o)
      (has_is_variable_ o) (has_pinned_memory_ o)
  | None => mkTensorOptions (dtype_ o) (device_ o) (layout_ o) (requires_grad_ o) (is_variable_ o)
      (pinned_memory_ o) (has_device_ o) false (has_layout_ o) (has_requires_grad_ o)
      (has_is_variable_ o) (has_pinned_memory_ o)
  end.

(** The [ScalarType] overload; [scalarTypeToTypeMeta] may throw, and the setter
    is [noexcept]. *)
Definition set_dtype_scalar (o : TensorOptions) (dtype : option ScalarType) : outcome TensorOptions :=
  match dtype with
  | Some t => noexcept (m ← ScalarType.scalarTypeToTypeMeta t; Ok (set_dtype o (Some m)))
  | None => Ok (set_dtype o None)
  end.

Definition set_layout (o : TensorOptions) (layout : option Layout) : TensorOptions :=
  match layout with
  | Some l => mkTensorOptions (dtype_ o) (device_ o) l (requires_grad_ o) (is_variable_ o)
      (pinned_memory_ o) (has_device_ o) (has_dtype_ o) true (has_requires_grad_ o)
      (has_is_variable_ o) (has_pinned_memory_ o)
  | None => mkTensorOptions (dtype_ o) (device_ o) (layout_ o) (requires_grad_ o) (is_variable_ o)
      (pinned_memory_ o) (has_device_ o) (has_dtype_ o) false (has_requires_grad_ o)
      (has_is_variable_ o) (has_pinned_memory_ o)
  end.

Definition set_requires_grad (o : TensorOptions) (requires_grad : option bool) : TensorOptions :=
  match requires_grad with
  | Some b => mkTensorOptions (dtype_ o) (device_ o) (layout_ o) b (is_variable_ o)
      (pinned_memory_ o) (has_device_ o) (has_dtype_ o) (has_layout_ o) true
      (has_is_variable_ o) (has_pinned_memory_ o)
  | None => mkTensorOptions (dtype_ o) (device_ o) (layout_ o) (requires_grad_ o) (is_variable_ o)
      (pinned_memory_ o) (has_device_ o) (has_dtype_ o) (has_layout_ o) false
      (has_is_variable_ o) (has_pinned_memory_ o)
  end.

Definition set_is_variable (o : TensorOptions) (is_variable : option bool) : TensorOptions :=
  match is_variable with
  | Some b => mkTensorOptions (dtype_ o) (device_ o) (layout_ o) (requires_grad_ o) b
      (pinned_memory_ o) (has_device_ o) (has_dtype_ o) (has_layout_ o) (has_requires_grad_ o)
      true (has_pinned_memory_ o)
  | None => mkTensorOptions (dtype_ o) (device_ o) (layout_ o) (requires_grad_ o) (is_variable_ o)
      (pinned_memory_ o) (has_device_ o) (has_dtype_ o) (has_layout_ o) (has_requires_grad_ o)
      false (has_pinned_memory_ o)
  end.

Definition set_pinned_memory (o : TensorOptions) (pinned_memory : option bool) : TensorOptions :=
  match pinned_memory with
  | Some b => mkTensorOptions (dtype_ o) (device_ o) (layout_ o) (requires_grad_ o) (is_variable_ o)
      b (has_device_ o) (has_dtype_ o) (has_layout_ o) (has_requires_grad_ o)
      (has_is_variable_ o) true
  | None => mkTensorOptions (dtype_ o) (device_ o) (layout_ o) (requires_grad_ o) (is_variable_ o)
      (pinned_memory_ o) (has_device_ o) (has_dtype_ o) (has_layout_ o) (has_requires_grad_ o)
      (has_is_variable_ o) false
  end.

(** [device_index(int16_t)]: [Device(kCUDA, index)] may throw in a [noexcept]
    function. *)
Definition device_index_set (o : TensorOptions) (device_index : Z) : outcome TensorOptions :=
  noexcept (d ← Device.make DeviceType.CUDA device_index; Ok (set_device o (Some d))).

(** *** The accessors *)
Definition device (o : TensorOptions) : Device := if has_device_ o then device_ o else cpu_device.
Definition device_opt (o : TensorOptions) : option Device :=
  if has_device_ o then Some (device_ o) else None.
Definition device_index (o : TensorOptions) : Z := Device.index_ (device o).
Definition layout (o : TensorOptions) : Layout := if has_layout_ o then layout_ o else Layout.Strided.
Definition layout_opt (o : TensorOptions) : option Layout :=
  if has_layout_ o then Some (layout_ o) else None.
Definition dtype_opt (o : TensorOptions) : option TypeMeta :=
  if has_dtype_ o then Some (dtype_ o) else None.
Definition requires_grad (o : TensorOptions) : bool :=
  if has_requires_grad_ o then requires_grad_ o else false.
Definition requires_grad_opt (o : TensorOptions) : option bool :=
  if has_requires_grad_ o then Some (requires_grad_ o) else None.
Definition is_variable (o : TensorOptions) : bool :=
  if has_is_variable_ o then is_variable_ o else false.
Definition is_variable_opt (o : TensorOptions) : option bool :=
  if has_is_variable_ o then Some (is_variable_ o) else None.
Definition pinned_memory (o : TensorOptions) : bool :=
  if has_pinned_memory_ o then pinned_memory_ o else false.
Definition pinned_memory_opt (o : TensorOptions) : option bool :=
  if has_pinned_memory_ o then Some (pinned_memory_ o) else None.

(** [operator==]. *)
Definition TensorOptions_eqb (o other : TensorOptions) : bool :=
  eqb (has_dtype_ o) (has_dtype_ other) &&
  eqb (has_layout_ o) (has_layout_ other) &&
  eqb (has_device_ o) (has_device_ other) &&
  eqb (has_requires_grad_ o) (has_requires_grad_ other) &&
  eqb (has_is_variable_ o) (has_is_variable_ other) &&
  (negb (has_dtype_ o) || bool_decide (dtype_ o = dtype_ other)) &&
  (negb (has_layout_ o) || bool_decide (layout_ o = layout_ other)) &&
  (negb (has_device_ o) || Device.Device_eqb (device_ o) (device_ other)) &&
  (negb (requires_grad_ o) || eqb (requires_grad_ o) (requires_grad_ other)) &&
  (negb (is_variable_ o) || eqb (is_variable_ o) (is_variable_ other)).

Section WithIds.
(** The ids, and the process-wide default dtype (c10/core/DefaultDtype.cpp). *)
Context `{TensorIds} (default_dtype : TypeMeta).

Definition dtype (o : TensorOptions) : TypeMeta :=
  if has_dtype_ o then dtype_ o else default_dtype.

Definition computeTensorTypeId (o : TensorOptions) : outcome Z :=
  match layout o with
  | Layout.Strided =>
      match Device.type_ (device o) with
      | DeviceType.CPU =>
          t ← ScalarType.typeMetaToScalarType (dtype o);
          if ScalarType.isComplexType t then Ok (tid ComplexCPUTensorId)
          else if ScalarType.isQIntType t then Ok (tid QuantizedCPUTensorId)
          else Ok (tid CPUTensorId)
      | DeviceType.CUDA =>
          t ← ScalarType.typeMetaToScalarType (dtype o);
          if ScalarType.isComplexType t then Ok (tid ComplexCUDATensorId)
          else Ok (tid CUDATensorId)
      | DeviceType.MKLDNN => Ok (tid MKLDNNTensorId)
      | DeviceType.OPENGL => Ok (tid OpenGLTensorId)
      | DeviceType.OPENCL => Ok (tid OpenCLTensorId)
      | DeviceType.IDEEP => Ok (tid IDEEPTensorId)
      | DeviceType.HIP => Ok (tid HIPTensorId)
      | DeviceType.MSNPU => Ok (tid MSNPUTensorId)
      | DeviceType.XLA => Ok (tid XLATensorId)
      | _ => AT_ERROR "Unsupported device type for dense layout: "
      end
  | Layout.Sparse =>
      match Device.type_ (device o) with
      | DeviceType.CPU => Ok (tid SparseCPUTensorId)
      | DeviceType.CUDA => Ok (tid SparseCUDATensorId)
      | DeviceType.HIP => Ok (tid SparseHIPTensorId)
      | _ => AT_ERROR "Unsupported device type for sparse layout: "
      end
  | Layout.Mkldnn =>
      match Device.type_ (device o) with
      | DeviceType.CPU => Ok (tid MkldnnCPUTensorId)
      | _ => AT_ERROR "Unsupported device type for mkldnn layout: "
      end
  end.

(** [backend() const noexcept]. *)
Definition backend (o : TensorOptions) : outcome Backend :=
  noexcept (t ← computeTensorTypeId o; Backend.tensorTypeIdToBackend t).

(** The second test for [HIPTensorId] is in the source as well. *)
Definition computeDeviceType (t : Z) : outcome DeviceType :=
  if t =? tid CPUTensorId then Ok DeviceType.CPU
  else if t =? tid CUDATensorId then Ok DeviceType.CUDA
  else if t =? tid HIPTensorId then Ok DeviceType.HIP
  else if t =? tid MKLDNNTensorId then Ok DeviceType.MKLDNN
  else if t =? tid OpenGLTensorId then Ok DeviceType.IDEEP
  else if t =? tid OpenCLTensorId then Ok DeviceType.OPENCL
  else if t =? tid IDEEPTensorId then Ok DeviceType.IDEEP
  else if t =? tid HIPTensorId then Ok DeviceType.HIP
  else if t =? tid MSNPUTensorId then Ok DeviceType.MSNPU
  else if t =? tid XLATensorId then Ok DeviceType.XLA
  else if t =? tid SparseCPUTensorId then Ok DeviceType.CPU
  else if t =? tid SparseCUDATensorId then Ok DeviceType.CUDA
  else if t =? tid SparseHIPTensorId then Ok DeviceType.HIP
  else if t =? tid MkldnnCPUTensorId then Ok DeviceType.CPU
  else AT_ERROR "Unknown TensorTypeId: ".

(** What [computeDeviceType] makes of the name an id was created for. *)
Definition device_of_name (n : tensor_name) : option DeviceType :=
  match n with
  | CPUTensorId | SparseCPUTensorId | MkldnnCPUTensorId => Some DeviceType.CPU
  | CUDATensorId | SparseCUDATensorId => Some DeviceType.CUDA
  | HIPTensorId | SparseHIPTensorId => Some DeviceType.HIP
  | MKLDNNTensorId => Some DeviceType.MKLDNN
  | OpenGLTensorId | IDEEPTensorId => Some DeviceType.IDEEP
  | OpenCLTensorId => Some DeviceType.OPENCL
  | MSNPUTensorId => Some DeviceType.MSNPU
  | XLATensorId => Some DeviceType.XLA
  | _ => None
  end.

Lemma computeDeviceType_tid n :
  computeDeviceType (tid n) =
    match device_of_name n with Some d => Ok d | None => AT_ERROR "Unknown TensorTypeId: " end.
Proof. unfold computeDeviceType. rewrite ?Backend.tid_eqb. by destruct n. Qed.

Lemma tensorTypeIdToBackend_tid n :
  returns (Backend.tensorTypeIdToBackend (tid n)) =
    negb (bool_decide (n ∈ [MKLDNNTensorId; OpenGLTensorId; OpenCLTensorId; IDEEPTensorId])).
Proof. unfold Backend.tensorTypeIdToBackend. rewrite ?Backend.tid_eqb. by destruct n. Qed.

(** The id a tensor gets was created for some name. *)
Lemma computeTensorTypeId_name o t : computeTensorTypeId o = Ok t → ∃ n, t = tid n.
Proof.
  unfold computeTensorTypeId.
  destruct (layout o), (Device.type_ (device o)); cbn; try discriminate;
    try (intros E; apply Ok_inj in E; by eexists);
    destruct (ScalarType.typeMetaToScalarType (dtype o)) as [s|]; cbn; try discriminate;
    destruct s; cbn; intros E; apply Ok_inj in E; by eexists.
Qed.
End WithIds.

Lemma TensorOptions_eqb_refl o : TensorOptions_eqb o o = true.
Proof.
  unfold TensorOptions_eqb, Device.Device_eqb.
  rewrite !eqb_reflx, !bool_decide_eq_true_2, Z.eqb_refl by done.
  by rewrite !orb_true_r.
Qed.

End TensorOptions.
Abbreviation TensorOptions := TensorOptions.TensorOptions.
