(* ===== verification/CoreProperties.v ===== *)
(** * The properties of the core value types

    Devices and streams as text and as bits, scalar type promotion, tensor type ids,
    and the agreement of backends, layouts, options and ids. *)
From S2P Require Import Prelude Text CoreTypes ScalarTypes TensorIds Options.
Local Open Scope Z_scope.

(** ** Devices and streams *)

(** printing a device and parsing the text gives the device back, for every device
    the constructors produce but an FPGA one; [parse_type] does not know the name that
    is printed for an FPGA device. *)
Theorem device_text_roundtrip (d : Device.Device) (s : string) :
  Device.valid d → Device.show d = Ok s →
  if bool_decide (Device.type_ d = DeviceType.FPGA)
  then returns (Device.parse_type "fpga") = false ∧ returns (Device.of_string s) = false
  else Device.of_string s = Ok d.
Proof.
  intros Hv Hs. case_bool_decide as Hf; [|by apply Device.of_string_show].
  split; [done|]. destruct d as [t i]. cbn in Hf. subst t. unfold Device.show in Hs. cbn in Hs.
  unfold Device.of_string. destruct (Device.has_index _); injection Hs as <-; done.
Qed.

Lemma device_text_roundtrip_witness :
  Device.of_string "cuda:7" = Ok (Device.mkDevice DeviceType.CUDA 7) ∧
  returns (Device.of_string "fpga:1") = false.
Proof.
  split.
  - apply (device_text_roundtrip (Device.mkDevice DeviceType.CUDA 7) "cuda:7"); [|reflexivity].
    split; [reflexivity|split; [split; vm_compute; done|reflexivity]].
  - refine (proj2 (device_text_roundtrip (Device.mkDevice DeviceType.FPGA 1) "fpga:1" _ _)); [|reflexivity].
    split; [reflexivity|split; [split; vm_compute; done|reflexivity]].
Defined.

(** a stream survives packing into 64 bits, and whatever bits [unpack] accepts it
    makes a stream of them that packs to bits [unpack] reads the same way. *)
Theorem stream_pack_roundtrip :
  (∀ s, Stream.valid s → Stream.unpack (Stream.pack s) = Ok s) ∧
  (∀ bits s, Stream.unpack bits = Ok s → Stream.valid s ∧ Stream.unpack (Stream.pack s) = Stream.unpack bits).
Proof.
  split; [apply Stream.unpack_pack|]. intros bits s E. pose proof (Stream.unpack_valid _ _ E) as Hv.
  split; [done|]. by rewrite E, Stream.unpack_pack.
Qed.

(** ** Scalar types *)

(** promotion on the nine dense real types is the join of a semilattice with least
    element [Bool]: total, commutative, associative, idempotent, an upper bound of its
    operands and the least one; it keeps floating point types floating point. *)
Theorem promoteTypes_join (a b c : ScalarType.ScalarType) :
  ScalarType.promotable a = true → ScalarType.promotable b = true → ScalarType.promotable c = true →
  ∃ ab bc abc,
    ScalarType.promoteTypes a b = Ok ab ∧ ScalarType.promoteTypes b a = Ok ab ∧
    ScalarType.promotable ab = true ∧ ScalarType.promoteTypes b c = Ok bc ∧
    ScalarType.promoteTypes ab c = Ok abc ∧ ScalarType.promoteTypes a bc = Ok abc ∧
    ScalarType.promoteTypes a a = Ok a ∧ ScalarType.promoteTypes ScalarType.Bool a = Ok a ∧
    ScalarType.promotes_to a ab ∧ ScalarType.promotes_to b ab ∧
    (ScalarType.promotes_to a c → ScalarType.promotes_to b c → ScalarType.promotes_to ab c).
Proof. apply ScalarType.promoteTypes_semilattice. Qed.

Lemma promoteTypes_join_witness : ∃ ab bc abc,
  ScalarType.promoteTypes ScalarType.Byte ScalarType.Char = Ok ab ∧
  ScalarType.promoteTypes ScalarType.Char ScalarType.Half = Ok bc ∧
  ScalarType.promoteTypes ab ScalarType.Half = Ok abc.
Proof.
  destruct (promoteTypes_join ScalarType.Byte ScalarType.Char ScalarType.Half eq_refl eq_refl eq_refl)
    as (ab & bc & abc & H1 & _ & _ & H2 & H3 & _). exists ab, bc, abc. auto.
Defined.

(** promotion throws exactly when neither operand is [Undefined] and a complex type is
    involved or a quantized type meets a different type. *)
Theorem promoteTypes_refusal (a b : ScalarType.ScalarType) :
  a ≠ ScalarType.NumOptions → b ≠ ScalarType.NumOptions →
  returns (ScalarType.promoteTypes a b) = negb (ScalarType.promotion_refused a b).
Proof. apply ScalarType.promoteTypes_throws. Qed.

Lemma promoteTypes_refusal_witness :
  returns (ScalarType.promoteTypes ScalarType.QInt8 ScalarType.Float) = false.
Proof. by rewrite (promoteTypes_refusal ScalarType.QInt8 ScalarType.Float). Defined.

(** ** Tensor type ids *)
Section Ids.
Import TensorTypeIds.

Lemma run_app os1 os2 s : run (os1 ++ os2) s = run os2 (run os1 s).
Proof. revert s. induction os1 as [|o os1 IH]; intros s; [done|]. apply IH. Qed.

Lemma creations_app os1 os2 : creations (os1 ++ os2) = (creations os1 + creations os2)%nat.
Proof. unfold creations. rewrite fmap_app. induction os1; cbn; lia. Qed.

(** in a run with at most 255 calls that may create an id, the id of every function
    called so far is between 1 and 255, differs from the ids of the others, and no later
    call changes it. *)
Theorem ids_distinct_and_stable (os1 os2 : list op) (n m : tensor_name) :
  (creations (os1 ++ os2) ≤ 255)%nat → OpName n ∈ os1 → OpName m ∈ os1 →
  1 ≤ id_of (run os1 initial) n ≤ 255 ∧
  (id_of (run os1 initial) n = id_of (run os1 initial) m → n = m) ∧
  id_of (run (os1 ++ os2) initial) n = id_of (run os1 initial) n.
Proof.
  rewrite creations_app. intros Hl Hn Hm.
  assert (H0 : last_id_ initial = 0) by done.
  destruct (run_steps os1 initial inv_initial ltac:(lia)) as (Hi & Hle & _).
  destruct (run_called os1 initial n inv_initial ltac:(lia) Hn) as [a Ea].
  destruct (run_called os1 initial m inv_initial ltac:(lia) Hm) as [b Eb].
  destruct (run_steps os2 (run os1 initial) Hi ltac:(lia)) as (_ & _ & Hsub).
  unfold id_of. rewrite run_app, Ea, Eb, (lookup_weaken _ _ _ _ Ea Hsub). cbn.
  pose proof (inv_range _ Hi _ _ Ea) as Hr. split; [lia|]. split; [|done]. intros ->. by apply (inv_inj _ Hi n m b).
Qed.

(** the call after 255 ids have been created throws, and it has advanced the counter
    before it threw: the next call hands out id 1 a second time. *)
Theorem ids_reused_after_overflow (s : state) :
  last_id_ s = 255 →
  returns (createAndRegister s).1 = false ∧
  (createAndRegister (createAndRegister s).2).1 = Ok 1.
Proof.
  intros E. destruct (create_overflow s E) as [H1 H2]. split; [done|].
  set (s' := (createAndRegister s).2) in *. unfold createAndRegister, mbind, SE_bind, create. rewrite H2. done.
Qed.

Lemma ids_distinct_and_stable_witness :
  id_of (run startup initial) CPUTensorId = id_of (run (startup ++ startup) initial) CPUTensorId.
Proof.
  symmetry. apply (ids_distinct_and_stable startup startup CPUTensorId CPUTensorId);
    [vm_compute; lia|apply startup_all|apply startup_all].
Defined.

Lemma ids_reused_after_overflow_witness :
  (createAndRegister (createAndRegister (mkState 255 ∅ ∅)).2).1 = Ok 1.
Proof. apply (ids_reused_after_overflow (mkState 255 ∅ ∅)). reflexivity. Defined.
End Ids.

(** ** Backends, layouts and options *)
Section WithIds.
Context `{ids : TensorIds}.
Import Options.

(** backends and the ids they have name each other. *)
Theorem backend_id_roundtrip (b : Backend.Backend) (t : Z) :
  Backend.backendToTensorTypeId b = Ok t ↔ Backend.tensorTypeIdToBackend t = Ok b.
Proof. split; [apply Backend.tensorTypeIdToBackend_backend|apply Backend.backendToTensorTypeId_id]. Qed.

(** moving a backend to another device keeps its layout, and sparsifying gives a sparse
    backend of the same device from which the dense one is recovered. *)
Theorem backend_conversions (b c s : Backend.Backend) :
  (Backend.backendToCPU b = Ok c ∨ Backend.backendToCUDA b = Ok c ∨ Backend.backendToHIP b = Ok c →
   Layout.layout_from_backend c = Layout.layout_from_backend b) ∧
  (Backend.toSparse b = Ok s →
   Layout.layout_from_backend s = Layout.Sparse ∧ Backend.toSparse s = Ok s ∧
   ∃ d, Backend.toDense b = Ok d ∧ Backend.toDense s = Ok d ∧ Backend.toSparse d = Ok s ∧
        Backend.backendToDeviceType s = Backend.backendToDeviceType b).
Proof. split; [apply Layout.layout_backendTo|apply Layout.toSparse_toDense]. Qed.

(** the id an option set resolves to remembers what was asked for.  When it has a
    backend, that backend has the layout and the device asked for; [computeDeviceType]
    gives the device back, but for two cases: OpenGL comes back as IDEEP, and the complex
    and quantized ids are unknown to it. *)
Theorem options_id_faithful (default_dtype : TypeMeta) (o : TensorOptions.TensorOptions) (t : Z) :
  TensorOptions.computeTensorTypeId default_dtype o = Ok t →
  (∀ b, Backend.tensorTypeIdToBackend t = Ok b →
     Layout.layout_from_backend b = TensorOptions.layout o ∧
     Backend.backendToDeviceType b = Ok (Device.type_ (TensorOptions.device o))) ∧
  match TensorOptions.computeDeviceType t with
  | Ok d => d = Device.type_ (TensorOptions.device o) ∨
            (Device.type_ (TensorOptions.device o) = DeviceType.OPENGL ∧ d = DeviceType.IDEEP)
  | Throw _ => t = tid ComplexCPUTensorId ∨ t = tid ComplexCUDATensorId ∨ t = tid QuantizedCPUTensorId
  end.
Proof.
  unfold TensorOptions.computeTensorTypeId. generalize (TensorOptions.dtype default_dtype o). intros m.
  generalize (TensorOptions.layout o), (Device.type_ (TensorOptions.device o)). intros l d E.
  assert (H : ∃ n, t = tid n ∧
    (match n with
     | CPUTensorId | QuantizedCPUTensorId | ComplexCPUTensorId => l = Layout.Strided ∧ d = DeviceType.CPU
     | CUDATensorId | ComplexCUDATensorId => l = Layout.Strided ∧ d = DeviceType.CUDA
     | MKLDNNTensorId => l = Layout.Strided ∧ d = DeviceType.MKLDNN
     | OpenGLTensorId => l = Layout.Strided ∧ d = DeviceType.OPENGL
     | OpenCLTensorId => l = Layout.Strided ∧ d = DeviceType.OPENCL
     | IDEEPTensorId => l = Layout.Strided ∧ d = DeviceType.IDEEP
     | HIPTensorId => l = Layout.Strided ∧ d = DeviceType.HIP
     | MSNPUTensorId => l = Layout.Strided ∧ d = DeviceType.MSNPU
     | XLATensorId => l = Layout.Strided ∧ d = DeviceType.XLA
     | SparseCPUTensorId => l = Layout.Sparse ∧ d = DeviceType.CPU
     | SparseCUDATensorId => l = Layout.Sparse ∧ d = DeviceType.CUDA
     | SparseHIPTensorId => l = Layout.Sparse ∧ d = DeviceType.HIP
     | MkldnnCPUTensorId => l = Layout.Mkldnn ∧ d = DeviceType.CPU
     | UndefinedTensorId => False
     end)).
  { destruct l, d; cbn in E; try discriminate; try (apply Ok_inj in E; by eexists);
      destruct (ScalarType.typeMetaToScalarType m) as [s|]; cbn in E; try discriminate;
      destruct s; cbn in E; apply Ok_inj in E; by eexists. }
  clear E m. destruct H as (n & -> & H). rewrite TensorOptions.computeDeviceType_tid.
  unfold Backend.tensorTypeIdToBackend. rewrite ?Backend.tid_eqb.
  destruct n; cbn in *; try destruct H as [-> ->]; try done; (split; [intros b Eb; vm_compute in Eb; first [discriminate|by injection Eb as <-]|auto]).
Qed.
End WithIds.

Section Witnesses.
#[local] Existing Instance TensorTypeIds.startup_ids.

Lemma options_id_faithful_witness :
  Layout.layout_from_backend Backend.CPU = TensorOptions.layout TensorOptions.TensorOptions_new.
Proof.
  refine (proj1 (proj1 (options_id_faithful (Make c_float) TensorOptions.TensorOptions_new
    (tid CPUTensorId) _) Backend.CPU _)); vm_compute; reflexivity.
Defined.

Lemma backend_conversions_witness :
  Layout.layout_from_backend Backend.SparseHIP = Layout.layout_from_backend Backend.SparseCPU.
Proof.
  refine (proj1 (backend_conversions Backend.SparseCPU Backend.SparseHIP Backend.SparseCPU) _).
  right. right. reflexivity.
Defined.
End Witnesses.
