(* ===== verification/Geometry.v ===== *)
(** * Shapes, strides and broadcasting (aten/src/ATen)

    The functions on sizes and strides that every tensor operation goes through:
    dimension wrapping (c10/core/WrapDimMinimal.h, WrapDimUtils.h,
    WrapDimUtilsMulti.h), shape inference (InferSize.h, ExpandUtils.{h,cpp}) and
    strided geometry (TensorUtils.cpp, TensorGeometry.{h,cpp}).  All arithmetic is
    [int64_t] arithmetic; a read or write out of a vector's range is [Undefined]. *)
From S2P Require Import Prelude.
Local Open Scope Z_scope.

(** ** Dimension wrapping *)
Module WrapDim.

Definition maybe_wrap_dim (dim dim_post_expr : Z) (wrap_scalar : bool) : outcome Z :=
  dim_post_expr ←
    (if dim_post_expr <=? 0
     then if negb wrap_scalar
          then Throw (IndexError "dimension specified but tensor has no dimensions")
          else Ok 1
     else Ok dim_post_expr);
  let min := - dim_post_expr in
  let max := dim_post_expr - 1 in
  if (dim <? min) || (dim >? max) then Throw (IndexError "Dimension out of range")
  else Ok (if dim <? 0 then dim + dim_post_expr else dim).

(** The overload on a list of sizes. *)
Definition maybe_wrap_dim_sizes (dim : Z) (tensor_sizes : list (list Z)) : outcome Z :=
  match tensor_sizes with
  | [] => Ok dim
  | s :: _ => maybe_wrap_dim dim (vec_size s) true
  end.

(** [for (auto& dim : dims)] with an assignment to [dim]: the elements before a
    throwing one keep their new values. *)
Fixpoint in_place (f : Z → outcome Z) (dims : list Z) : outcome unit * list Z :=
  match dims with
  | [] => (Ok tt, [])
  | d :: ds =>
      match f d with
      | Ok d' => let '(r, ds') := in_place f ds in (r, d' :: ds')
      | Throw e => (Throw e, d :: ds)
      end
  end.

Definition maybe_wrap_dims (dim_post_expr : Z) : SE (list Z) unit := λ dims,
  let dim_post_expr := if dim_post_expr <=? 0 then 1 else dim_post_expr in
  let min := - dim_post_expr in
  let max := dim_post_expr - 1 in
  in_place (λ dim,
    if (dim <? min) || (dim >? max) then Throw (IndexError "Dimension out of range")
    else Ok (if dim <? 0 then dim + dim_post_expr else dim)) dims.

(** [sizes == std::vector<int64_t>({0})]: tensors that may be skipped by [cat]. *)
Definition legacy_skipped (sizes : list Z) : bool := bool_decide (sizes = [0]).

Fixpoint legacy_cat_wrap_dim (dim : Z) (tensor_sizes : list (list Z)) : outcome Z :=
  match tensor_sizes with
  | [] => Ok dim
  | sizes :: rest =>
      if legacy_skipped sizes then legacy_cat_wrap_dim dim rest
      else maybe_wrap_dim dim (vec_size sizes) true
  end.

Definition wrap_all_dims (tensor_total_dims : Z) : SE (list Z) unit :=
  in_place (λ d, maybe_wrap_dim d tensor_total_dims true).

Definition dim_bitset_size : nat := 64.

(** The bitset is a vector of 64 booleans. *)
Definition dim_list_to_bitset (dims : list Z) (ndims : Z) : outcome (list bool) :=
  AT_CHECK (ndims <=? Z.of_nat dim_bitset_size) "only tensors with up to 64 dims are supported" ≫= λ _,
  for_up (length dims) (λ i seen,
    d ← vec_get dims (Z.of_nat i);
    dim ← maybe_wrap_dim d ndims true;
    s ← vec_get seen dim;
    AT_CHECK (negb s) "dim appears multiple times in the list of dims" ≫= λ _,
    vec_set seen dim true) (replicate dim_bitset_size false).

(** The wrapped dimension is the argument modulo the number of dimensions, a
    scalar counting as one-dimensional, and it is refused outside [-n, n). *)
Lemma maybe_wrap_dim_spec dim n :
  let n' := Z.max n 1 in
  (- n' ≤ dim < n' → maybe_wrap_dim dim n true = Ok (dim mod n')) ∧
  (¬ - n' ≤ dim < n' → ∃ w, maybe_wrap_dim dim n true = Throw (IndexError w)).
Proof.
  intros n'. unfold maybe_wrap_dim; cbn.
  assert (E : (if n <=? 0 then Ok 1 else Ok n) = Ok (A:=Z) n').
  { destruct (Z.leb_spec n 0); unfold n'; f_equal; lia. }
  rewrite E, Ok_bind. split; intros H.
  - replace ((dim <? - n') || (dim >? n' - 1)) with false
      by (symmetry; apply orb_false_iff; rewrite Z.gtb_ltb, !Z.ltb_ge; lia).
    f_equal. destruct (Z.ltb_spec dim 0).
    + apply (Z.mod_unique _ _ (-1)); lia.
    + symmetry. apply Z.mod_small. lia.
  - replace ((dim <? - n') || (dim >? n' - 1)) with true; [by eexists|].
    symmetry. apply orb_true_iff. rewrite Z.gtb_ltb, !Z.ltb_lt. lia.
Qed.

Lemma maybe_wrap_dim_range dim n d b : maybe_wrap_dim dim n b = Ok d → 0 ≤ d < Z.max n 1.
Proof.
  unfold maybe_wrap_dim. destruct (Z.leb_spec n 0).
  - destruct b; cbn; [|done]. destruct (_ || _) eqn:E; [done|].
    apply orb_false_iff in E as [E1 E2]. rewrite Z.gtb_ltb in E2.
    apply Z.ltb_ge in E1, E2. intros X. apply Ok_inj in X. destruct (Z.ltb_spec dim 0); lia.
  - rewrite Ok_bind. destruct (_ || _) eqn:E; [done|].
    apply orb_false_iff in E as [E1 E2]. rewrite Z.gtb_ltb in E2.
    apply Z.ltb_ge in E1, E2. intros X. apply Ok_inj in X. destruct (Z.ltb_spec dim 0); lia.
Qed.

(** The successful wrap, ready for rewriting. *)
Lemma maybe_wrap_dim_Ok dim n b : 0 < n → - n ≤ dim < n → maybe_wrap_dim dim n b = Ok (dim mod n).
Proof.
  intros Hn Hd. replace (maybe_wrap_dim dim n b) with (maybe_wrap_dim dim n true).
  - destruct (maybe_wrap_dim_spec dim n) as [H _]. rewrite Z.max_l in H by lia. by apply H.
  - unfold maybe_wrap_dim. by rewrite (proj2 (Z.leb_gt n 0)).
Qed.

Lemma maybe_wrap_dim_nonneg dim n b : 0 ≤ dim < n → maybe_wrap_dim dim n b = Ok dim.
Proof. intros. rewrite maybe_wrap_dim_Ok by lia. by rewrite Z.mod_small. Qed.

End WrapDim.
Export WrapDim.

(** ** Dimensions counted from the last *)
Module Right.

(** The size at the [k]-th dimension from the right; a missing dimension counts
    as 1, which is how broadcasting reads shapes. *)
Definition dimr (v : list Z) (k : nat) : Z := default 1 (reverse v !! k).

Lemma dimr_lookup v k : (k < length v)%nat → v !! (length v - 1 - k)%nat = Some (dimr v k).
Proof.
  intros Hk. unfold dimr. rewrite reverse_lookup by done.
  replace (length v - S k)%nat with (length v - 1 - k)%nat by lia.
  destruct (lookup_lt_is_Some_2 v (length v - 1 - k)) as [x ->]; [lia|done].
Qed.

Lemma dimr_ge v k : (length v ≤ k)%nat → dimr v k = 1.
Proof. intros Hk. unfold dimr. by rewrite lookup_ge_None_2 by (rewrite length_reverse; lia). Qed.

Lemma dimr_of_lookup v i x : v !! i = Some x → dimr v (length v - 1 - i) = x.
Proof.
  intros E. pose proof (lookup_lt_Some _ _ _ E).
  pose proof (dimr_lookup v (length v - 1 - i) ltac:(lia)) as E'.
  replace (length v - 1 - (length v - 1 - i))%nat with i in E' by lia. by simplify_eq.
Qed.

Lemma vec_get_r v z k : z = vec_size v - 1 - Z.of_nat k → (k < length v)%nat → vec_get v z = Ok (dimr v k).
Proof.
  intros -> Hk. unfold vec_size.
  replace (Z.of_nat (length v) - 1 - Z.of_nat k) with (Z.of_nat (length v - 1 - k)) by lia.
  apply vec_get_nat. by apply dimr_lookup.
Qed.

Lemma dimr_insert v i x k : (i < length v)%nat →
  dimr (<[i:=x]> v) k = if decide (k = length v - 1 - i)%nat then x else dimr v k.
Proof.
  intros Hi. destruct (decide (k < length v)%nat) as [Hk|Hk].
  - unfold dimr. rewrite !reverse_lookup by (rewrite ?length_insert; done). rewrite length_insert.
    case_decide as E.
    + subst k. replace (length v - S (length v - 1 - i))%nat with i by lia.
      by rewrite list_lookup_insert_eq.
    + by rewrite list_lookup_insert_ne by lia.
  - rewrite decide_False by lia. by rewrite !dimr_ge by (rewrite ?length_insert; lia).
Qed.

(** Shapes are equal when they have the same length and the same dimensions. *)
Lemma dimr_ext u v :
  length u = length v → (∀ k, (k < length u)%nat → dimr u k = dimr v k) → u = v.
Proof.
  intros Hl Hk. apply list_eq_same_length with (length u); [done..|].
  intros i x y Hi Hx Hy. pose proof (dimr_of_lookup _ _ _ Hx) as <-.
  pose proof (dimr_of_lookup _ _ _ Hy) as <-. rewrite <- Hl. apply Hk. lia.
Qed.

Lemma dimr_replicate n x k : (k < n)%nat → dimr (replicate n x) k = x.
Proof. intros. unfold dimr. by rewrite reverse_replicate, lookup_replicate_2. Qed.

End Right.
Export Right.

(** ** InferSize.h: [view]'s shape *)
Module InferSize.

(** One iteration of the loop over the requested shape; the state is
    [(newsize, infer_dim)]. *)
Definition infer_size_step (shape : list Z) (dim : nat) (st : Z * option Z) : outcome (Z * option Z) :=
  s ← vec_get shape (Z.of_nat dim);
  let '(newsize, infer_dim) := st in
  if s =? -1 then
    match infer_dim with
    | Some _ => Throw (RuntimeError "only one dimension can be inferred")
    | None => Ok (newsize, Some (Z.of_nat dim))
    end
  else if 0 <=? s then Ok (mul64 newsize s, infer_dim)
  else AT_ERROR "invalid shape dimension ".

Definition infer_size (shape : list Z) (numel : Z) : outcome (list Z) :=
  '(newsize, infer_dim) ← for_up (length shape) (infer_size_step shape) (1, None);
  if (numel =? newsize) || (bool_decide (is_Some infer_dim) && (0 <? newsize) && (Z.rem numel newsize =? 0))
  then
    match infer_dim with
    | Some d =>
        AT_CHECK (negb (newsize =? 0)) "cannot reshape tensor of 0 elements into shape" ≫= λ _,
        vec_set shape d (Z.quot numel newsize)
    | None => Ok shape
    end
  else Throw (RuntimeError "shape is invalid for input of size").

End InferSize.
Export InferSize.

(** ** ExpandUtils: broadcasting *)
Module Expand.

(** [at::infer_size(a, b)]. *)
Definition infer_size_step2 (a b : list Z) (ndim : Z) (i : nat) (expandedSizes : list Z) : outcome (list Z) :=
  let offset := ndim - 1 - Z.of_nat i in
  let dimA := vec_size a - 1 - offset in
  let dimB := vec_size b - 1 - offset in
  sizeA ← (if 0 <=? dimA then vec_get a dimA else Ok 1);
  sizeB ← (if 0 <=? dimB then vec_get b dimB else Ok 1);
  AT_CHECK ((sizeA =? sizeB) || (sizeA =? 1) || (sizeB =? 1))
    "The size of tensor a must match the size of tensor b at non-singleton dimension" ≫= λ _,
  vec_set expandedSizes (Z.of_nat i) (if sizeA =? 1 then sizeB else sizeA).

Definition infer_size2 (a b : list Z) : outcome (list Z) :=
  let dimsA := length a in
  let dimsB := length b in
  let ndim := if (dimsB <? dimsA)%nat then dimsA else dimsB in
  for_down ndim (infer_size_step2 a b (Z.of_nat ndim)) (replicate ndim 0).

Definition expand_step (tensor_sizes tensor_strides sizes : list Z) (i : nat)
  (st : list Z * list Z) : outcome (list Z * list Z) :=
  let '(expandedSizes, expandedStrides) := st in
  let ndim := vec_size sizes in
  let tensor_dim := vec_size tensor_sizes in
  let offset := ndim - 1 - Z.of_nat i in
  let dim := tensor_dim - 1 - offset in
  size ← (if 0 <=? dim then vec_get tensor_sizes dim else Ok 1);
  stride ← (if 0 <=? dim then vec_get tensor_strides dim
            else sz ← vec_get expandedSizes (Z.of_nat i + 1);
                 st ← vec_get expandedStrides (Z.of_nat i + 1);
                 Ok (mul64 sz st));
  targetSize ← vec_get sizes (Z.of_nat i);
  targetSize ← (if targetSize =? -1
                then AT_CHECK (0 <=? dim)
                       "The expanded size of the tensor isn't allowed in a leading, non-existing dimension" ≫= λ _,
                     Ok size
                else Ok targetSize);
  '(size, stride) ←
    (if negb (size =? targetSize)
     then AT_CHECK (size =? 1)
            "The expanded size of the tensor must match the existing size at non-singleton dimension" ≫= λ _,
          Ok (targetSize, 0)
     else Ok (size, stride));
  expandedSizes ← vec_set expandedSizes (Z.of_nat i) size;
  expandedStrides ← vec_set expandedStrides (Z.of_nat i) stride;
  Ok (expandedSizes, expandedStrides).

Definition inferExpandGeometry (tensor_sizes tensor_strides sizes : list Z) : outcome (list Z * list Z) :=
  let ndim := length sizes in
  if vec_size tensor_sizes =? 0 then Ok (sizes, replicate ndim 0)
  else for_down ndim (expand_step tensor_sizes tensor_strides sizes) (replicate ndim 0, replicate ndim 0).

(** The loop from index [i], with its early return. *)
Fixpoint expandable_from (shape desired : list Z) (n i : nat) : outcome bool :=
  match n with
  | O => Ok true
  | S n =>
      size ← vec_get shape (Z.of_nat (length shape - i - 1));
      target ← vec_get desired (Z.of_nat (length desired - i - 1));
      if negb (size =? target) && negb (size =? 1) then Ok false
      else expandable_from shape desired n (S i)
  end.

Definition is_expandable_to (shape desired : list Z) : outcome bool :=
  let ndim := length shape in
  let target_dim := length desired in
  if (target_dim <? ndim)%nat then Ok false else expandable_from shape desired ndim 0.

End Expand.
Export Expand.

(** ** TensorUtils.cpp and TensorGeometry.h *)
Module Strided.

(** The loop of [geometry_is_contiguous] from index [i - 1] down. *)
Fixpoint contiguous_from (sizes strides : list Z) (i : nat) (expected_stride : Z)
  (contig_if_nonempty : bool) : outcome bool :=
  match i with
  | O => Ok contig_if_nonempty
  | S i =>
      size ← vec_get sizes (Z.of_nat i);
      if size =? 0 then Ok true
      else if contig_if_nonempty then
        bad ← (if negb (size =? 1)
               then stride ← vec_get strides (Z.of_nat i); Ok (negb (stride =? expected_stride))
               else Ok false);
        contiguous_from sizes strides i (mul64 expected_stride size) (negb bad)
      else contiguous_from sizes strides i expected_stride false
  end.

Definition geometry_is_contiguous (sizes strides : list Z) : outcome bool :=
  contiguous_from sizes strides (length sizes) 1 true.

Definition default_step (sizes : list Z) (i : nat) (st : list Z * Z) : outcome (list Z * Z) :=
  let '(strides, stride) := st in
  strides ← vec_set strides (Z.of_nat i) stride;
  size ← vec_get sizes (Z.of_nat i);
  Ok (strides, mul64 stride size).

Definition defaultStrides (sizes : list Z) : outcome (list Z) :=
  '(strides, _) ← for_down (length sizes) (default_step sizes) (replicate (length sizes) 0, 1);
  Ok strides.

Fixpoint storage_size_from (sizes strides : list Z) (n i : nat) (size : Z) : outcome Z :=
  match n with
  | O => Ok size
  | S n =>
      s ← vec_get sizes (Z.of_nat i);
      if s =? 0 then Ok 0
      else st ← vec_get strides (Z.of_nat i);
           storage_size_from sizes strides n (S i) (add64 size (mul64 st (sub64 s 1)))
  end.

Definition computeStorageSize (sizes strides : list Z) : outcome Z :=
  storage_size_from sizes strides (length sizes) 0 1.

End Strided.
Export Strided.

Module TensorGeometry.

(** [at::TensorGeometry]. *)
Record TensorGeometry : Type := mkTensorGeometry {
  sizes_ : list Z;
  strides_ : list Z;
  storage_offset_ : Z;
  numel_ : Z
}.

(** [TensorGeometry(IntArrayRef)]. *)
Definition TensorGeometry_new (sizes : list Z) : outcome TensorGeometry :=
  '(strides, expected_stride) ←
    for_down (length sizes) (default_step sizes) (replicate (length sizes) 0, 1);
  Ok (mkTensorGeometry sizes strides 0 expected_stride).

Definition dim (g : TensorGeometry) : Z := vec_size (sizes_ g).

(** [v.at(i)] throws where [v[i]] is undefined. *)
Definition vec_at (v : list Z) (i : Z) : outcome Z :=
  match v !! Z.to_nat i with
  | Some x => Ok x
  | None => Throw (StdOutOfRange "vector::_M_range_check")
  end.

Definition size (g : TensorGeometry) (d : Z) : outcome Z :=
  d ← maybe_wrap_dim d (dim g) true; vec_at (sizes_ g) d.
Definition stride (g : TensorGeometry) (d : Z) : outcome Z :=
  d ← maybe_wrap_dim d (dim g) true; vec_at (strides_ g) d.

Definition is_contiguous (g : TensorGeometry) : outcome bool :=
  if numel_ g =? 0 then Ok true else geometry_is_contiguous (sizes_ g) (strides_ g).

(** [std::swap(v[i], v[j])]. *)
Definition vec_swap (v : list Z) (i j : Z) : outcome (list Z) :=
  x ← vec_get v i; y ← vec_get v j; v ← vec_set v i y; vec_set v j x.

(** Only upper bounds are tested: a negative dimension is undefined behaviour. *)
Definition transpose (r : TensorGeometry) (dim0 dim1 : Z) : outcome TensorGeometry :=
  AT_CHECK (dim0 <? dim r) "transpose: dim0 out of range" ≫= λ _,
  AT_CHECK (dim1 <? dim r) "transpose: dim1 out of range" ≫= λ _,
  sizes ← vec_swap (sizes_ r) dim0 dim1;
  strides ← vec_swap (strides_ r) dim0 dim1;
  Ok (mkTensorGeometry sizes strides (storage_offset_ r) (numel_ r)).

End TensorGeometry.

(** ** Broadcasting: the order of shapes *)
Module Broadcast.

Lemma get_dimr v z k :
  z = vec_size v - 1 - Z.of_nat k → (if 0 <=? z then vec_get v z else Ok 1) = Ok (dimr v k).
Proof.
  intros ->. unfold vec_size. destruct (Z.leb_spec 0 (Z.of_nat (length v) - 1 - Z.of_nat k)).
  - apply vec_get_r; [done|lia].
  - rewrite dimr_ge by lia. done.
Qed.

(** How two dimensions combine, and when they may. *)
Definition bcast (x y : Z) : Z := if x =? 1 then y else x.
Definition compat (x y : Z) : Prop := x = y ∨ x = 1 ∨ y = 1.

(** [shape] broadcasts to [desired]. *)
Definition expands (shape desired : list Z) : Prop :=
  (length shape ≤ length desired)%nat ∧ ∀ k, dimr shape k = dimr desired k ∨ dimr shape k = 1.

Lemma expandable_from_spec shape desired n i :
  (i + n = length shape)%nat → (length shape ≤ length desired)%nat →
  ∃ b, expandable_from shape desired n i = Ok b ∧
       (b = true ↔ ∀ k, (i ≤ k)%nat → dimr shape k = dimr desired k ∨ dimr shape k = 1).
Proof.
  revert i. induction n as [|n IH]; intros i Hn Hl; cbn.
  { exists true. split; [done|]. split; [|done]. intros _ k Hk. right. apply dimr_ge. lia. }
  rewrite (vec_get_r shape _ i), (vec_get_r desired _ i) by (unfold vec_size; lia). cbn.
  destruct (_ && _) eqn:E.
  - exists false. split; [done|]. split; [done|]. intros H.
    apply andb_true_iff in E as [E1 E2]. apply negb_true_iff, Z.eqb_neq in E1, E2.
    destruct (H i); lia.
  - destruct (IH (S i)) as (b & Eb & Hb); [lia|done|].
    exists b. split; [done|]. rewrite Hb. apply andb_false_iff in E.
    split; intros H k Hk; [|apply H; lia].
    destruct (decide (k = i)) as [->|]; [|apply H; lia].
    destruct E as [E|E]; apply negb_false_iff, Z.eqb_eq in E; auto.
Qed.

Lemma is_expandable_to_spec shape desired :
  ∃ b, is_expandable_to shape desired = Ok b ∧ (b = true ↔ expands shape desired).
Proof.
  unfold is_expandable_to, expands. destruct (Nat.ltb_spec (length desired) (length shape)) as [Hl|Hl].
  - exists false. split; [done|]. split; [done|]. intros [? _]; lia.
  - destruct (expandable_from_spec shape desired (length shape) 0) as (b & Eb & Hb); [lia|done|].
    exists b. split; [done|]. rewrite Hb. split; [intros H; split; [done|intros; apply H; lia]|].
    intros [_ H] k _. apply H.
Qed.

(** The order: reflexive, transitive and antisymmetric. *)
Lemma expands_refl a : expands a a.
Proof. split; auto. Qed.

Lemma expands_trans a b c : expands a b → expands b c → expands a c.
Proof.
  intros [H1 H2] [H3 H4]. split; [lia|]. intros k.
  destruct (H2 k) as [E|E]; [|by right]. destruct (H4 k) as [E'|E']; [left|right]; congruence.
Qed.

Lemma expands_antisym a b : expands a b → expands b a → a = b.
Proof.
  intros [H1 H2] [H3 H4]. apply dimr_ext; [lia|]. intros k _.
  destruct (H2 k), (H4 k); congruence.
Qed.

(** One iteration extends the part of the result that is known from the right. *)
Lemma infer_step_inv a b nd i s :
  nd = Nat.max (length a) (length b) → (i < nd)%nat →
  (length s = nd ∧ ∀ k, (k < nd - S i)%nat →
     dimr s k = bcast (dimr a k) (dimr b k) ∧ compat (dimr a k) (dimr b k)) →
  match infer_size_step2 a b (Z.of_nat nd) i s with
  | Ok s' => length s' = nd ∧ ∀ k, (k < nd - i)%nat →
      dimr s' k = bcast (dimr a k) (dimr b k) ∧ compat (dimr a k) (dimr b k)
  | Throw e => (∃ w, e = C10Error w) ∧ ∃ k, ¬ compat (dimr a k) (dimr b k)
  end.
Proof.
  intros Hnd Hi [Hl Hk]. unfold infer_size_step2. set (j := (nd - 1 - i)%nat).
  rewrite !(get_dimr _ _ j) by (unfold vec_size; lia). rewrite !Ok_bind.
  destruct (_ || _) eqn:E; cbn.
  - assert (Hc : compat (dimr a j) (dimr b j)).
    { apply orb_true_iff in E as [E|E]; [apply orb_true_iff in E as [E|E]|];
        apply Z.eqb_eq in E; unfold compat; auto. }
    rewrite vec_set_nat by lia. split; [by rewrite length_insert|].
    intros k Hki. rewrite dimr_insert by lia. rewrite Hl. case_decide as Ek.
    + fold j in Ek. subst k. done.
    + apply Hk. lia.
  - split; [by eexists|]. exists j. intros Hc.
    apply orb_false_iff in E as [E E3]. apply orb_false_iff in E as [E1 E2].
    apply Z.eqb_neq in E1, E2, E3. destruct Hc as [|[]]; lia.
Qed.

(** What [infer_size2] computes, and when it throws. *)
Lemma infer_size2_spec a b :
  match infer_size2 a b with
  | Ok r => length r = Nat.max (length a) (length b) ∧
            ∀ k, dimr r k = bcast (dimr a k) (dimr b k) ∧ compat (dimr a k) (dimr b k)
  | Throw e => (∃ w, e = C10Error w) ∧ ∃ k, ¬ compat (dimr a k) (dimr b k)
  end.
Proof.
  unfold infer_size2. set (nd := if (length b <? length a)%nat then length a else length b).
  assert (Hnd : nd = Nat.max (length a) (length b)).
  { unfold nd. destruct (Nat.ltb_spec (length b) (length a)); lia. }
  pose proof (for_down_post
    (λ i s, length s = nd ∧ ∀ k, (k < nd - i)%nat →
       dimr s k = bcast (dimr a k) (dimr b k) ∧ compat (dimr a k) (dimr b k))
    (λ e, (∃ w, e = C10Error w) ∧ ∃ k, ¬ compat (dimr a k) (dimr b k))
    nd (infer_size_step2 a b (Z.of_nat nd)) (replicate nd 0)) as H.
  cbv beta in H. destruct (for_down nd _ _) as [r|e].
  - destruct H as [Hl Hk].
    + split; [by rewrite length_replicate|intros; lia].
    + intros i s. by apply infer_step_inv.
    + rewrite Hl, Hnd. split; [done|]. intros k. destruct (decide (k < nd)%nat); [apply Hk; lia|].
      rewrite !dimr_ge by lia. split; [done|by left].
  - apply H; [split; [by rewrite length_replicate|intros; lia]|intros i s; by apply infer_step_inv].
Qed.
Lemma infer_size2_ub a b r : infer_size2 a b = Ok r → expands a r ∧ expands b r.
Proof.
  intros E. pose proof (infer_size2_spec a b) as H. rewrite E in H. destruct H as [Hl Hk].
  split; (split; [lia|]); intros k; destruct (Hk k) as [-> Hc]; unfold bcast;
    destruct (Z.eqb_spec (dimr a k) 1); auto. destruct Hc as [|[]]; auto; lia.
Qed.

Lemma infer_size2_least a b c :
  expands a c → expands b c → ∃ r, infer_size2 a b = Ok r ∧ expands r c.
Proof.
  intros [Ha1 Ha2] [Hb1 Hb2]. pose proof (infer_size2_spec a b) as H.
  destruct (infer_size2 a b) as [r|e].
  - exists r. split; [done|]. destruct H as [Hl Hk]. split; [lia|]. intros k.
    destruct (Hk k) as [-> _]. unfold bcast. destruct (Z.eqb_spec (dimr a k) 1); [auto|].
    destruct (Ha2 k); auto.
  - destruct H as [_ [k Hk]]. exfalso. apply Hk. unfold compat.
    destruct (Ha2 k), (Hb2 k); auto. left; congruence.
Qed.

Lemma infer_size2_comm a b r : infer_size2 a b = Ok r → infer_size2 b a = Ok r.
Proof.
  intros E. destruct (infer_size2_ub _ _ _ E) as [Ha Hb].
  destruct (infer_size2_least _ _ _ Hb Ha) as (r' & E' & H').
  rewrite E'. f_equal. apply expands_antisym; [done|].
  destruct (infer_size2_ub _ _ _ E') as [Hb' Ha'].
  destruct (infer_size2_least _ _ _ Ha' Hb') as (r2 & E2 & H2). congruence.
Qed.

(** The result is the only shape with these two properties. *)
Lemma infer_size2_lub a b r :
  infer_size2 a b = Ok r ↔
  expands a r ∧ expands b r ∧ ∀ c, expands a c → expands b c → expands r c.
Proof.
  split.
  - intros E. destruct (infer_size2_ub _ _ _ E) as [Ha Hb]. split; [done|split; [done|]].
    intros c Hac Hbc. destruct (infer_size2_least _ _ _ Hac Hbc) as (r' & E' & H'). congruence.
  - intros (Ha & Hb & Hleast). destruct (infer_size2_least _ _ _ Ha Hb) as (r' & E' & H').
    rewrite E'. f_equal. apply expands_antisym; [done|].
    destruct (infer_size2_ub _ _ _ E') as [Ha' Hb']. by apply Hleast.
Qed.
End Broadcast.
Export Broadcast.

(** ** Where the elements of a strided tensor are *)
Module Offsets.

(** The offset of an element, relative to the storage offset, and the indices of
    a shape. *)
Definition offset (strides idx : list Z) : Z := foldr Z.add 0 (zip_with Z.mul strides idx).
Definition in_range (sizes idx : list Z) : Prop := Forall2 (λ i s, 0 ≤ i < s) idx sizes.

Fixpoint sumf (f : nat → Z) (n : nat) : Z :=
  match n with O => 0 | S n => sumf f n + f n end.
Fixpoint prodf (f : nat → Z) (n : nat) : Z :=
  match n with O => 1 | S n => prodf f n * f n end.

Lemma sumf_ext f g n : (∀ k, (k < n)%nat → f k = g k) → sumf f n = sumf g n.
Proof. induction n; cbn; intros H; [done|]. rewrite IHn, H; [done|lia|intros; apply H; lia]. Qed.

Lemma prodf_ext f g n : (∀ k, (k < n)%nat → f k = g k) → prodf f n = prodf g n.
Proof. induction n; cbn; intros H; [done|]. rewrite IHn, H; [done|lia|intros; apply H; lia]. Qed.

Lemma sumf_zeros f n m : (n ≤ m)%nat → (∀ k, (n ≤ k < m)%nat → f k = 0) → sumf f m = sumf f n.
Proof.
  induction m as [|m IH]; intros Hn H; [by replace n with 0%nat by lia|].
  destruct (decide (n = S m)) as [->|]; [done|]. cbn. rewrite IH, H by (try lia; intros; apply H; lia). lia.
Qed.

Lemma dimr_cons x v k : dimr (x :: v) k = if decide (k = length v) then x else dimr v k.
Proof.
  unfold dimr. rewrite reverse_cons. case_decide as E; [|destruct (decide (k < length v)%nat)].
  - subst k. rewrite lookup_app_r by (rewrite length_reverse; lia).
    by rewrite length_reverse, Nat.sub_diag.
  - by rewrite lookup_app_l by (rewrite length_reverse; lia).
  - rewrite (lookup_ge_None_2 (reverse v)) by (rewrite length_reverse; lia).
    by rewrite lookup_ge_None_2 by (rewrite length_app, length_reverse; cbn; lia).
Qed.

Lemma offset_sumf strides idx : length strides = length idx →
  offset strides idx = sumf (λ k, dimr strides k * dimr idx k) (length strides).
Proof.
  revert idx. induction strides as [|s ss IH]; intros [|i idx] E; cbn in E; try done.
  change (offset (s :: ss) (i :: idx)) with (s * i + offset ss idx). rewrite IH by lia. cbn.
  rewrite !dimr_cons. rewrite !decide_True by lia.
  rewrite (sumf_ext (λ k, dimr (s :: ss) k * dimr (i :: idx) k) (λ k, dimr ss k * dimr idx k)); [lia|].
  intros k Hk. rewrite !dimr_cons. by rewrite !decide_False by lia.
Qed.

Lemma in_range_dimr sizes idx :
  in_range sizes idx ↔
  length idx = length sizes ∧ ∀ k, (k < length sizes)%nat → 0 ≤ dimr idx k < dimr sizes k.
Proof.
  unfold in_range. split.
  - intros H. pose proof (Forall2_length H) as Hl. split; [done|]. intros k Hk.
    pose proof (dimr_lookup idx k ltac:(lia)) as Ei. pose proof (dimr_lookup sizes k Hk) as Es.
    rewrite Hl in Ei. apply (Forall2_lookup_lr _ _ _ _ _ _ H Ei Es).
  - intros [Hl H]. apply Forall2_same_length_lookup_2; [done|]. intros i x y Hx Hy.
    pose proof (dimr_of_lookup _ _ _ Hx) as <-. pose proof (dimr_of_lookup _ _ _ Hy) as <-.
    apply lookup_lt_Some in Hx. rewrite Hl. apply H. lia.
Qed.

(** Mixed radix: the digits [f k < s k] of a number below [prodf s n]. *)
Lemma mixed_radix_range (f s : nat → Z) n :
  (∀ k, (k < n)%nat → 0 ≤ f k < s k) →
  0 ≤ sumf (λ k, prodf s k * f k) n < prodf s n.
Proof.
  induction n as [|n IH]; intros H; cbn; [lia|].
  pose proof (IH ltac:(intros; apply H; lia)) as IH'. pose proof (H n ltac:(lia)). nia.
Qed.

Lemma mixed_radix_inj (f g s : nat → Z) n :
  (∀ k, (k < n)%nat → 0 ≤ f k < s k) → (∀ k, (k < n)%nat → 0 ≤ g k < s k) →
  sumf (λ k, prodf s k * f k) n = sumf (λ k, prodf s k * g k) n →
  ∀ k, (k < n)%nat → f k = g k.
Proof.
  induction n as [|n IH]; intros Hf Hg E k Hk; [lia|]. cbn in E.
  pose proof (mixed_radix_range f s n ltac:(intros; apply Hf; lia)) as Rf.
  pose proof (mixed_radix_range g s n ltac:(intros; apply Hg; lia)) as Rg.
  assert (f n = g n) as En.
  { destruct (Z.lt_trichotomy (f n) (g n)) as [|[|]]; [nia|done|nia]. }
  destruct (decide (k = n)) as [->|]; [done|].
  apply IH; [intros; apply Hf; lia|intros; apply Hg; lia| |lia]. rewrite En in E. lia.
Qed.

Lemma prodf_pos s n : (∀ k, (k < n)%nat → 0 < s k) → 0 < prodf s n.
Proof.
  induction n as [|n IH]; intros H; cbn; [lia|].
  pose proof (IH ltac:(intros; apply H; lia)). pose proof (H n ltac:(lia)). nia.
Qed.

Lemma mixed_radix_surj (s : nat → Z) n o :
  (∀ k, (k < n)%nat → 0 < s k) → 0 ≤ o < prodf s n →
  ∃ f, (∀ k, (k < n)%nat → 0 ≤ f k < s k) ∧ sumf (λ k, prodf s k * f k) n = o.
Proof.
  revert o. induction n as [|n IH]; intros o Hs Ho; cbn in *; [exists (λ _, 0); split; [intros; lia|lia]|].
  assert (Hp : 0 < prodf s n) by (apply prodf_pos; intros; apply Hs; lia).
  destruct (IH (o mod prodf s n)) as (f & Hf & Ef); [intros; apply Hs; lia|by apply Z.mod_pos_bound|].
  exists (λ k, if decide (k = n) then o / prodf s n else f k). split.
  - intros k Hk. case_decide; [subst k|apply Hf; lia]. split; [by apply Z.div_pos; lia|].
    apply Z.div_lt_upper_bound; lia.
  - rewrite decide_True by done. rewrite (sumf_ext _ (λ k, prodf s k * f k)).
    + rewrite Ef. pose proof (Z.div_mod o (prodf s n)). lia.
    + intros k Hk. by rewrite decide_False by lia.
Qed.
End Offsets.
Export Offsets.
