(* ===== verification/Strides.v ===== *)
(** * What the strided geometry functions guarantee

    The facts about the definitions of [Geometry] that connect sizes and strides
    with the elements they address: the strides of a contiguous shape, the test
    for contiguity, the extent of a storage, and the view [expand] makes. *)
From S2P Require Import Prelude Geometry.
Local Open Scope Z_scope.

(** ** Contiguous strides *)

(** The running product the stride loops keep, over the [k] last dimensions. *)
Fixpoint prod64 (sizes : list Z) (k : nat) : Z :=
  match k with O => 1 | S k => mul64 (prod64 sizes k) (dimr sizes k) end.

Lemma prod64_int64 sizes k : prod64 sizes k = int64 (prodf (dimr sizes) k).
Proof.
  induction k as [|k IH]; [by rewrite int64_id|]. cbn. rewrite IH. apply mul64_int64_l.
Qed.

(** All sizes positive and the element count representable. *)
Definition small (sizes : list Z) : Prop :=
  (∀ k, (k < length sizes)%nat → 0 < dimr sizes k) ∧ prodf (dimr sizes) (length sizes) < 2 ^ 63.

Lemma prodf_mono s n m : (n ≤ m)%nat → (∀ k, (k < m)%nat → 0 < s k) → prodf s n ≤ prodf s m.
Proof.
  induction m as [|m IH]; intros Hn H; [by replace n with 0%nat by lia|].
  destruct (decide (n = S m)) as [->|]; [done|]. cbn.
  pose proof (IH ltac:(lia) ltac:(intros; apply H; lia)).
  pose proof (H m ltac:(lia)). pose proof (prodf_pos s m ltac:(intros; apply H; lia)). nia.
Qed.

Lemma prod64_small sizes k : small sizes → (k ≤ length sizes)%nat → prod64 sizes k = prodf (dimr sizes) k.
Proof.
  intros [H1 H2] Hk. rewrite prod64_int64. apply int64_id.
  pose proof (prodf_mono _ _ _ Hk H1).
  pose proof (prodf_pos (dimr sizes) k ltac:(intros; apply H1; lia)).
  unfold in_S. change (2 ^ (64 - 1)) with (2 ^ 63). lia.
Qed.

(** The stride loop shared by [defaultStrides] and [TensorGeometry]. *)
Lemma default_loop sizes :
  ∃ strides, for_down (length sizes) (default_step sizes) (replicate (length sizes) 0, 1)
               = Ok (strides, prod64 sizes (length sizes)) ∧
    length strides = length sizes ∧
    ∀ k, (k < length sizes)%nat → dimr strides k = prod64 sizes k.
Proof.
  set (n := length sizes).
  destruct (for_down_inv (λ i st, length st.1 = n ∧ st.2 = prod64 sizes (n - i) ∧
      ∀ k, (k < n - i)%nat → dimr st.1 k = prod64 sizes k)
    n (default_step sizes) (replicate n 0, 1)) as ([strides p] & E & Hl & Hp & Hk).
  - cbn. rewrite length_replicate, Nat.sub_diag. split; [done|split; [done|intros; lia]].
  - intros i [st p] Hi (Hl & Hp & Hk); cbn in *. unfold default_step.
    rewrite vec_set_nat by lia. rewrite Ok_bind.
    rewrite (vec_get_r sizes _ (n - 1 - i)) by (unfold vec_size, n in *; lia). rewrite Ok_bind.
    eexists. split; [done|]; cbn. rewrite length_insert. split; [done|split].
    + replace (n - i)%nat with (S (n - 1 - i)) by lia. cbn. subst p.
      by replace (n - S i)%nat with (n - 1 - i)%nat by lia.
    + intros k Hki. rewrite dimr_insert by lia. rewrite Hl. case_decide as Ek; [|apply Hk; lia].
      subst p k. f_equal. lia.
  - cbn in *. exists strides. rewrite E, Hp, Nat.sub_0_r. split; [done|]. split; [done|].
    intros k Hkn. apply Hk. lia.
Qed.

Lemma defaultStrides_spec sizes :
  ∃ strides, defaultStrides sizes = Ok strides ∧ length strides = length sizes ∧
    ∀ k, (k < length sizes)%nat → dimr strides k = prod64 sizes k.
Proof.
  destruct (default_loop sizes) as (st & E & H). exists st. unfold defaultStrides.
  by rewrite E.
Qed.

(** [geometry_is_contiguous] compares every stride of a dimension that is not 1
    with the running product, unless the shape is empty. *)
Definition strides_match (sizes strides : list Z) (j : nat) : Prop :=
  ∀ k, (j ≤ k < length sizes)%nat → dimr sizes k ≠ 1 → dimr strides k = prod64 sizes k.

Definition empty_beyond (sizes : list Z) (j : nat) : Prop :=
  ∃ k, (j ≤ k < length sizes)%nat ∧ dimr sizes k = 0.

Lemma strides_match_S sizes strides j : (j < length sizes)%nat →
  strides_match sizes strides j ↔
  (dimr sizes j = 1 ∨ dimr strides j = prod64 sizes j) ∧ strides_match sizes strides (S j).
Proof.
  intros Hj. split.
  - intros H. split; [|intros k Hk; apply H; lia].
    destruct (decide (dimr sizes j = 1)); [by left|right; apply H; [lia|done]].
  - intros [H1 H2] k Hk Hne. destruct (decide (k = j)) as [->|]; [by destruct H1|apply H2; [lia|done]].
Qed.

Lemma empty_beyond_S sizes j : (j < length sizes)%nat →
  empty_beyond sizes j ↔ dimr sizes j = 0 ∨ empty_beyond sizes (S j).
Proof.
  intros Hj. split.
  - intros (k & Hk & E). destruct (decide (k = j)) as [->|]; [by left|right; exists k; split; [lia|done]].
  - intros [E|(k & Hk & E)]; [exists j; split; [lia|done]|exists k; split; [lia|done]].
Qed.

Lemma contiguous_from_spec sizes strides i j p ok :
  length strides = length sizes → (i + j = length sizes)%nat →
  (ok = true → p = prod64 sizes j) →
  ∃ b, contiguous_from sizes strides i p ok = Ok b ∧
       (b = true ↔ empty_beyond sizes j ∨ (ok = true ∧ strides_match sizes strides j)).
Proof.
  intros Hl. revert j p ok. induction i as [|i IH]; intros j p ok Hij Hp; cbn.
  { exists ok. split; [done|]. split; [|intros [(k & Hk & _)|[? _]]; [lia|done]].
    intros ->. right. split; [done|]. intros k Hk; lia. }
  rewrite (vec_get_r sizes _ j) by (unfold vec_size; lia). rewrite Ok_bind.
  pose proof (empty_beyond_S sizes j ltac:(lia)) as HE.
  pose proof (strides_match_S sizes strides j ltac:(lia)) as HS.
  destruct (Z.eqb_spec (dimr sizes j) 0) as [E0|E0]; [by exists true; tauto|].
  destruct ok.
  - specialize (Hp eq_refl). subst p.
    destruct (Z.eqb_spec (dimr sizes j) 1) as [E1|E1]; cbn.
    + destruct (IH (S j) (mul64 (prod64 sizes j) (dimr sizes j)) true) as (b & Eb & Hb); [lia|done|].
      exists b. split; [done|]. rewrite Hb. tauto.
    + rewrite (vec_get_r strides _ j) by (unfold vec_size; lia).
      rewrite !Ok_bind, negb_involutive.
      destruct (IH (S j) (mul64 (prod64 sizes j) (dimr sizes j)) (dimr strides j =? prod64 sizes j))
        as (b & Eb & Hb); [lia|done|].
      exists b. split; [done|]. rewrite Hb, Z.eqb_eq. tauto.
  - destruct (IH (S j) p false) as (b & Eb & Hb); [lia|done|].
    exists b. split; [done|]. rewrite Hb. assert (false ≠ true) by done. tauto.
Qed.

Lemma geometry_is_contiguous_spec sizes strides :
  length strides = length sizes →
  ∃ b, geometry_is_contiguous sizes strides = Ok b ∧
       (b = true ↔ empty_beyond sizes 0 ∨ strides_match sizes strides 0).
Proof.
  intros Hl. destruct (contiguous_from_spec sizes strides (length sizes) 0 1 true) as (b & Eb & Hb);
    [done|lia|done|].
  exists b. split; [done|]. rewrite Hb. tauto.
Qed.

(** The elements of a contiguous tensor are the consecutive ones. *)
Lemma contiguous_offset sizes strides idx :
  length strides = length sizes → small sizes → strides_match sizes strides 0 → in_range sizes idx →
  offset strides idx = sumf (λ k, prodf (dimr sizes) k * dimr idx k) (length sizes).
Proof.
  intros Hl Hs Hm Hr. apply in_range_dimr in Hr as [Hli Hr].
  rewrite offset_sumf by lia. rewrite Hl. apply sumf_ext. intros k Hk.
  destruct (decide (dimr sizes k = 1)) as [E|E].
  - specialize (Hr k Hk). replace (dimr idx k) with 0 by lia. lia.
  - rewrite (Hm k) by (done || lia). rewrite prod64_small by (done || lia). done.
Qed.

(** A list with given dimensions from the right. *)
Lemma dimr_build (f : nat → Z) n : ∃ v, length v = n ∧ ∀ k, (k < n)%nat → dimr v k = f k.
Proof.
  exists (reverse (f <$> seq 0 n)). rewrite length_reverse, length_fmap, length_seq. split; [done|].
  intros k Hk. unfold dimr. rewrite reverse_involutive, list_lookup_fmap, lookup_seq_lt by done. done.
Qed.

Lemma contiguous_bijection sizes strides :
  length strides = length sizes → small sizes → strides_match sizes strides 0 →
  (∀ idx, in_range sizes idx → 0 ≤ offset strides idx < prodf (dimr sizes) (length sizes)) ∧
  (∀ i j, in_range sizes i → in_range sizes j → offset strides i = offset strides j → i = j) ∧
  (∀ o, 0 ≤ o < prodf (dimr sizes) (length sizes) → ∃ idx, in_range sizes idx ∧ offset strides idx = o).
Proof.
  intros Hl Hs Hm. split; [|split].
  - intros idx Hr. rewrite (contiguous_offset sizes) by done.
    apply in_range_dimr in Hr as [_ Hr]. by apply mixed_radix_range.
  - intros i j Hi Hj. rewrite !(contiguous_offset sizes) by done. intros E.
    apply in_range_dimr in Hi as [Hli Hi], Hj as [Hlj Hj].
    apply dimr_ext; [lia|]. intros k Hk. eapply mixed_radix_inj; [exact Hi|exact Hj|done|lia].
  - intros o Ho. destruct (mixed_radix_surj (dimr sizes) (length sizes) o) as (f & Hf & Ef);
      [apply Hs|done|].
    destruct (dimr_build f (length sizes)) as (idx & Hli & Hk).
    assert (Hr : in_range sizes idx).
    { apply in_range_dimr. split; [done|]. intros k Hkl. rewrite Hk by done. by apply Hf. }
    exists idx. split; [done|]. rewrite (contiguous_offset sizes) by done.
    rewrite <- Ef. apply sumf_ext. intros k Hkl. by rewrite Hk.
Qed.

(** ** The extent of a strided tensor *)

(** The largest offset an element can have, plus one. *)
Definition extent (sizes strides : list Z) : Z :=
  1 + sumf (λ k, dimr strides k * (dimr sizes k - 1)) (length sizes).

Lemma storage_size_from_spec sizes strides n i size :
  length strides = length sizes → (i + n = length sizes)%nat →
  (∀ k, (k < n)%nat → dimr sizes k ≠ 0) →
  storage_size_from sizes strides n i (int64 size) =
    Ok (int64 (size + sumf (λ k, dimr strides k * (dimr sizes k - 1)) n)).
Proof.
  intros Hl. revert i size. induction n as [|n IH]; intros i size Hi Hz; cbn.
  { by rewrite Z.add_0_r. }
  rewrite (vec_get_r sizes _ n), (vec_get_r strides _ n) by (unfold vec_size; lia). rewrite !Ok_bind.
  rewrite (proj2 (Z.eqb_neq _ _)) by (apply Hz; lia).
  replace (add64 (int64 size) (mul64 (dimr strides n) (sub64 (dimr sizes n) 1)))
    with (int64 (size + dimr strides n * (dimr sizes n - 1))).
  2:{ unfold sub64. by rewrite mul64_int64_r, add64_mul64, int64_add_l. }
  rewrite IH by (lia || (intros; apply Hz; lia)). do 2 f_equal. lia.
Qed.

Lemma storage_size_from_zero sizes strides n i size k :
  length strides = length sizes → (i + n = length sizes)%nat → (k < n)%nat → dimr sizes k = 0 →
  storage_size_from sizes strides n i size = Ok 0.
Proof.
  intros Hl. revert i size. induction n as [|n IH]; intros i size Hi Hk Ez; cbn; [lia|].
  rewrite (vec_get_r sizes _ n), (vec_get_r strides _ n) by (unfold vec_size; lia). rewrite !Ok_bind.
  destruct (Z.eqb_spec (dimr sizes n) 0) as [|Hne]; [done|].
  apply IH; [lia| |done]. assert (k ≠ n) by (by intros ->). lia.
Qed.

Lemma computeStorageSize_spec sizes strides :
  length strides = length sizes →
  computeStorageSize sizes strides =
    Ok (if existsb (Z.eqb 0) sizes then 0 else int64 (extent sizes strides)).
Proof.
  intros Hl. unfold computeStorageSize. destruct (existsb _ _) eqn:E.
  - apply existsb_exists in E as (x & Hx & Ex). apply Z.eqb_eq in Ex as <-.
    apply list_elem_of_In, list_elem_of_lookup in Hx as [i Hi].
    pose proof (lookup_lt_Some _ _ _ Hi). pose proof (dimr_of_lookup _ _ _ Hi).
    apply (storage_size_from_zero _ _ _ _ _ (length sizes - 1 - i)); [done|lia|lia|done].
  - unfold extent. rewrite <- (storage_size_from_spec _ _ _ 0) by
      (done || lia || (intros k Hk Ez; apply not_true_iff_false in E; apply E, existsb_exists; exists 0;
        split; [apply list_elem_of_In, (list_elem_of_lookup_2 _ (length sizes - 1 - k));
                by rewrite dimr_lookup, Ez|done])).
    by rewrite int64_id.
Qed.

(** With strides that are not negative, every element lies before the extent and
    the last one is just before it. *)
Lemma offset_extent sizes strides idx :
  length strides = length sizes → (∀ k, (k < length sizes)%nat → 0 ≤ dimr strides k) →
  in_range sizes idx → 0 ≤ offset strides idx < extent sizes strides.
Proof.
  intros Hl Hst Hr. apply in_range_dimr in Hr as [Hli Hr].
  rewrite offset_sumf by lia. rewrite Hl. unfold extent.
  clear Hl Hli. induction (length sizes) as [|n IH]; cbn; [lia|].
  pose proof (IH ltac:(intros; apply Hst; lia) ltac:(intros; apply Hr; lia)).
  pose proof (Hst n ltac:(lia)). pose proof (Hr n ltac:(lia)). nia.
Qed.

Lemma offset_last sizes strides :
  length strides = length sizes → (∀ k, (k < length sizes)%nat → 0 < dimr sizes k) →
  ∃ idx, in_range sizes idx ∧ offset strides idx = extent sizes strides - 1.
Proof.
  intros Hl Hs. destruct (dimr_build (λ k, dimr sizes k - 1) (length sizes)) as (idx & Hli & Hk).
  exists idx. split.
  - apply in_range_dimr. split; [done|]. intros k Hkl. rewrite Hk by done. pose proof (Hs k Hkl). lia.
  - rewrite offset_sumf by lia. unfold extent. rewrite Hl.
    rewrite (sumf_ext _ (λ k, dimr strides k * (dimr sizes k - 1))); [lia|].
    intros k Hkl. by rewrite Hk.
Qed.

(** ** The view [expand] makes *)

(** What the size at a dimension of the expanded view is asked to be. *)
Definition target (ts sizes : list Z) (k : nat) : Z :=
  if dimr sizes k =? -1 then dimr ts k else dimr sizes k.

(** When the expansion of the [k]-th last dimension is legal. *)
Definition expandable_dim (ts sizes : list Z) (k : nat) : Prop :=
  (dimr sizes k = -1 → (k < length ts)%nat) ∧ (dimr ts k = target ts sizes k ∨ dimr ts k = 1).

Definition expanded_dim (ts strides sizes es est : list Z) (k : nat) : Prop :=
  expandable_dim ts sizes k ∧ dimr es k = target ts sizes k ∧
  (dimr ts k ≠ dimr es k → dimr est k = 0) ∧
  (dimr ts k = dimr es k → (k < length ts)%nat → dimr est k = dimr strides k).

Lemma get_stride (strides ts es est : list Z) i k z :
  length strides = length ts → length es = length est → (i + k + 1 = length es)%nat →
  (length ts ≤ k → 0 < k)%nat →
  z = vec_size ts - 1 - Z.of_nat k →
  ∃ st, (if 0 <=? z then vec_get strides z
         else sz ← vec_get es (Z.of_nat i + 1); st ← vec_get est (Z.of_nat i + 1); Ok (mul64 sz st)) = Ok st ∧
        ((k < length ts)%nat → st = dimr strides k).
Proof.
  intros Hl He Hi Hk0 ->. unfold vec_size. destruct (Z.leb_spec 0 (Z.of_nat (length ts) - 1 - Z.of_nat k)).
  - exists (dimr strides k). split; [|done]. apply vec_get_r; [unfold vec_size; lia|lia].
  - rewrite (vec_get_r es _ (k - 1)), (vec_get_r est _ (k - 1)) by (unfold vec_size; lia).
    rewrite !Ok_bind. eexists. split; [done|]. intros; lia.
Qed.

Lemma expand_step_spec (ts strides sizes : list Z) i (es est : list Z) :
  length strides = length ts → ts ≠ [] → (i < length sizes)%nat →
  length es = length sizes → length est = length sizes →
  let k := (length sizes - 1 - i)%nat in
  match expand_step ts strides sizes i (es, est) with
  | Ok (es', est') =>
      ∃ x y, es' = <[i := x]> es ∧ est' = <[i := y]> est ∧
        expandable_dim ts sizes k ∧ x = target ts sizes k ∧
        (dimr ts k ≠ x → y = 0) ∧ (dimr ts k = x → (k < length ts)%nat → y = dimr strides k)
  | Throw e => (∃ w, e = C10Error w) ∧ ¬ expandable_dim ts sizes k
  end.
Proof.
  intros Hl Hts Hi He Hest k. unfold expand_step.
  assert (Hlen : (0 < length ts)%nat) by (destruct ts; cbn; [done|lia]).
  rewrite (get_dimr ts _ k) by (unfold vec_size; lia). rewrite Ok_bind.
  destruct (get_stride strides ts es est i k (vec_size ts - 1 - (vec_size sizes - 1 - Z.of_nat i)))
    as (st & Est & Hst); [done|lia|lia|lia|unfold vec_size; lia|].
  rewrite Est. rewrite Ok_bind.
  rewrite (vec_get_r sizes _ k) by (unfold vec_size; lia). rewrite Ok_bind.
  unfold expandable_dim, target.
  destruct (Z.eqb_spec (dimr sizes k) (-1)) as [Em|Em].
  - destruct (Z.leb_spec 0 (vec_size ts - 1 - (vec_size sizes - 1 - Z.of_nat i))) as [Hd|Hd];
      unfold vec_size in Hd; cbn.
    + rewrite Z.eqb_refl. cbn. rewrite !vec_set_nat by lia. rewrite !Ok_bind.
      eexists _, _. split; [done|split; [done|]]. split; [split; [intros; lia|by left]|].
      split; [done|split; [done|auto]].
    + split; [by eexists|]. intros [H _]. specialize (H Em). lia.
  - rewrite Ok_bind. destruct (Z.eqb_spec (dimr ts k) (dimr sizes k)) as [Eq|Eq]; cbn.
    + rewrite !vec_set_nat by lia. rewrite !Ok_bind.
      eexists _, _. split; [done|split; [done|]]. split; [split; [done|by left]|].
      split; [done|split; [done|auto]].
    + destruct (Z.eqb_spec (dimr ts k) 1) as [E1|E1]; cbn.
      * rewrite !vec_set_nat by lia. rewrite !Ok_bind.
        eexists _, _. split; [done|split; [done|]]. split; [split; [done|by right]|].
        split; [done|split; [done|done]].
      * split; [by eexists|]. intros [_ [|]]; done.
Qed.

Lemma expand_loop_inv (ts strides sizes : list Z) i (es est : list Z) :
  length strides = length ts → ts ≠ [] → (i < length sizes)%nat →
  length es = length sizes → length est = length sizes →
  (∀ k, (k < length sizes - S i)%nat → expanded_dim ts strides sizes es est k) →
  match expand_step ts strides sizes i (es, est) with
  | Ok st => length st.1 = length sizes ∧ length st.2 = length sizes ∧
      ∀ k, (k < length sizes - i)%nat → expanded_dim ts strides sizes st.1 st.2 k
  | Throw e => (∃ w, e = C10Error w) ∧ ∃ k, (k < length sizes)%nat ∧ ¬ expandable_dim ts sizes k
  end.
Proof.
  intros Hl Hts Hi He Hest Hk.
  pose proof (expand_step_spec ts strides sizes i es est Hl Hts Hi He Hest) as H. cbv zeta in H.
  destruct (expand_step _ _ _ _ _) as [[es' est']|e].
  - destruct H as (x & y & -> & -> & Hd & Hx & H0 & H1). cbn. rewrite !length_insert.
    split; [done|split; [done|]]. intros k Hki. unfold expanded_dim.
    rewrite !dimr_insert by lia. rewrite He, Hest. case_decide as Ek.
    + subst k. done.
    + apply Hk. lia.
  - destruct H as [Hw Hd]. split; [done|]. exists (length sizes - 1 - i)%nat. split; [lia|done].
Qed.

Lemma inferExpandGeometry_spec (ts strides sizes : list Z) :
  length strides = length ts → ts ≠ [] →
  match inferExpandGeometry ts strides sizes with
  | Ok (es, est) => length es = length sizes ∧ length est = length sizes ∧
      ∀ k, (k < length sizes)%nat → expanded_dim ts strides sizes es est k
  | Throw e => (∃ w, e = C10Error w) ∧ ∃ k, (k < length sizes)%nat ∧ ¬ expandable_dim ts sizes k
  end.
Proof.
  intros Hl Hts. unfold inferExpandGeometry.
  rewrite (proj2 (Z.eqb_neq _ _)) by (destruct ts; [done|unfold vec_size; cbn; lia]).
  set (n := length sizes).
  pose proof (for_down_post
    (λ i st, length st.1 = n ∧ length st.2 = n ∧
       ∀ k, (k < n - i)%nat → expanded_dim ts strides sizes st.1 st.2 k)
    (λ e, (∃ w, e = C10Error w) ∧ ∃ k, (k < n)%nat ∧ ¬ expandable_dim ts sizes k)
    n (expand_step ts strides sizes) (replicate n 0, replicate n 0)) as H.
  cbv beta in H. destruct (for_down n _ _) as [[es est]|e]; cbn in H.
  - rewrite !length_replicate, Nat.sub_0_r in H. apply H; [split; [done|split; [done|intros; lia]]|].
    intros i [es' est'] Hi (Hs1 & Hs2 & Hk).
    by apply (expand_loop_inv ts strides sizes i es' est').
  - rewrite !length_replicate in H. apply H; [split; [done|split; [done|intros; lia]]|].
    intros i [es' est'] Hi (Hs1 & Hs2 & Hk).
    by apply (expand_loop_inv ts strides sizes i es' est').
Qed.

(** The element of the source that an element of the expanded view is: broadcast
    dimensions are read at 0, and leading new dimensions are dropped. *)
Definition source_index (ts idx : list Z) : list Z :=
  zip_with (λ s i, if s =? 1 then 0 else i) ts (drop (length idx - length ts) idx).

Lemma dimr_drop v n k : (k < length v - n)%nat → dimr (drop n v) k = dimr v k.
Proof.
  intros Hk. pose proof (dimr_lookup (drop n v) k ltac:(rewrite length_drop; lia)) as E.
  rewrite lookup_drop, length_drop in E.
  pose proof (dimr_lookup v k ltac:(lia)) as E'.
  replace (n + (length v - n - 1 - k))%nat with (length v - 1 - k)%nat in E by lia. by simplify_eq.
Qed.

Lemma dimr_zip_with (f : Z → Z → Z) u v k :
  length u = length v → (k < length u)%nat → dimr (zip_with f u v) k = f (dimr u k) (dimr v k).
Proof.
  intros Hl Hk. pose proof (dimr_lookup u k Hk) as Eu. pose proof (dimr_lookup v k ltac:(lia)) as Ev.
  rewrite <- Hl in Ev.
  assert (E : zip_with f u v !! (length u - 1 - k)%nat = Some (f (dimr u k) (dimr v k))).
  { apply lookup_zip_with_Some. eauto. }
  pose proof (dimr_lookup (zip_with f u v) k) as E'. rewrite length_zip_with_l_eq in E' by done.
  rewrite E' in E by done. by simplify_eq.
Qed.

Lemma length_source_index ts idx : (length ts ≤ length idx)%nat → length (source_index ts idx) = length ts.
Proof. intros. unfold source_index. rewrite length_zip_with, length_drop. lia. Qed.

Lemma dimr_source_index ts idx k : (length ts ≤ length idx)%nat → (k < length ts)%nat →
  dimr (source_index ts idx) k = if dimr ts k =? 1 then 0 else dimr idx k.
Proof.
  intros Hl Hk. unfold source_index. rewrite dimr_zip_with by (rewrite ?length_drop; lia).
  by rewrite dimr_drop by lia.
Qed.

Lemma expand_view_lemma ts strides sizes es est idx :
  length strides = length ts → ts ≠ [] → (length ts ≤ length sizes)%nat →
  inferExpandGeometry ts strides sizes = Ok (es, est) → in_range es idx →
  in_range ts (source_index ts idx) ∧ offset est idx = offset strides (source_index ts idx).
Proof.
  intros Hl Hts Hle E Hr. pose proof (inferExpandGeometry_spec ts strides sizes Hl Hts) as H.
  rewrite E in H. destruct H as (He & Hest & Hk). apply in_range_dimr in Hr as [Hli Hr].
  assert (Hd : ∀ k, (k < length sizes)%nat →
    dimr est k * dimr idx k =
      if decide (k < length ts)%nat then dimr strides k * (if dimr ts k =? 1 then 0 else dimr idx k) else 0).
  { intros k Hks. destruct (Hk k Hks) as ([Hd1 Hd2] & Ht & H0 & H1). specialize (Hr k ltac:(lia)).
    case_decide as Hkt.
    - destruct (Z.eqb_spec (dimr ts k) 1) as [E1|E1].
      + destruct (decide (dimr ts k = dimr es k)) as [Ee|Ee]; [|rewrite H0 by done; lia].
        replace (dimr idx k) with 0 by lia. lia.
      + destruct Hd2 as [Hd2|]; [|done]. rewrite H1 by (congruence || lia). done.
    - rewrite (dimr_ge ts) in H0 by lia.
      destruct (decide (1 = dimr es k)); [|rewrite H0 by done; lia].
      replace (dimr idx k) with 0 by lia. lia. }
  split.
  - apply in_range_dimr. rewrite length_source_index by lia. split; [done|]. intros k Hkt.
    rewrite dimr_source_index by lia.
    destruct (Hk k ltac:(lia)) as ([Hd1 Hd2] & Ht & H0 & H1). specialize (Hr k ltac:(lia)).
    destruct (Z.eqb_spec (dimr ts k) 1); [lia|]. destruct Hd2 as [->|]; [by rewrite <- Ht|done].
  - rewrite !offset_sumf by (rewrite ?length_source_index; lia). rewrite Hest, Hl.
    rewrite (sumf_ext _ _ _ Hd). rewrite (sumf_zeros _ (length ts) (length sizes)) by
      (lia || (intros k Hkk; by rewrite decide_False by lia)).
    apply sumf_ext. intros k Hkt. rewrite decide_True by done. by rewrite dimr_source_index by lia.
Qed.

(** ** The shape [view] infers *)

Definition prodl (l : list Z) : Z := foldr Z.mul 1 l.

Lemma prodl_app l1 l2 : prodl (l1 ++ l2) = prodl l1 * prodl l2.
Proof. unfold prodl. induction l1; cbn; [lia|]. rewrite IHl1. lia. Qed.

(** The product of the requested dimensions, the one to infer left out. *)
Definition known (s : Z) : Z := if s =? -1 then 1 else s.

Definition infer_inv (shape : list Z) (i : nat) (st : Z * option Z) : Prop :=
  st.1 = int64 (prodl (known <$> take i shape)) ∧
  Forall (λ s, s = -1 ∨ 0 ≤ s) (take i shape) ∧
  match st.2 with
  | None => (-1) ∉ take i shape
  | Some d => ∃ l1 l2, take i shape = l1 ++ (-1) :: l2 ∧ d = Z.of_nat (length l1) ∧
                       ((-1) ∉ l1) ∧ ((-1) ∉ l2)
  end.

Lemma known_id (l : list Z) : (-1) ∉ l → known <$> l = l.
Proof.
  induction l as [|x l IH]; intros H; [done|]. cbn. apply not_elem_of_cons in H as [H1 H2].
  rewrite IH by done. f_equal. unfold known. destruct (Z.eqb_spec x (-1)); congruence.
Qed.

Lemma Forall_not_inferred (l : list Z) :
  Forall (λ s, s = -1 ∨ 0 ≤ s) l → (-1) ∉ l → Forall (λ s, 0 ≤ s) l.
Proof.
  rewrite !Forall_forall. intros H Hn x Hx. destruct (H x Hx) as [->|]; [|done].
  by apply list_elem_of_In in Hx.
Qed.

Lemma infer_step shape i st :
  (i < length shape)%nat → infer_inv shape i st →
  match infer_size_step shape i st with
  | Ok st' => infer_inv shape (S i) st'
  | Throw e => ∃ w, e = RuntimeError w ∨ e = C10Error w
  end.
Proof.
  intros Hi (Hp & Hf & Hd). destruct st as [ns inf]; cbn in *. unfold infer_size_step.
  destruct (lookup_lt_is_Some_2 shape i Hi) as [s Es].
  rewrite (vec_get_nat _ _ _ Es), Ok_bind. unfold infer_inv.
  pose proof (take_S_r _ _ _ Es) as Et.
  destruct (Z.eqb_spec s (-1)) as [->|Hne].
  - destruct inf; [eexists; by left|]. cbn. rewrite Et, fmap_app, prodl_app, Forall_app; cbn. split; [by rewrite Z.mul_1_r|].
    split; [split; [done|by constructor; [left|]]|].
    exists (take i shape), []. split; [done|]. rewrite length_take, Nat.min_l by lia.
    split; [done|split; [done|apply not_elem_of_nil]].
  - destruct (Z.leb_spec 0 s) as [Hs|Hs]; [|eexists; by right].
    cbn. rewrite Et, fmap_app, prodl_app, Forall_app; cbn. split.
    { unfold known at 2. rewrite (proj2 (Z.eqb_neq _ _)) by done. rewrite Z.mul_1_r, Hp.
      apply mul64_int64_l. }
    split; [split; [done|by constructor; [right|]]|].
    destruct inf as [d|].
    + destruct Hd as (l1 & l2 & E & Ed & H1 & H2). exists l1, (l2 ++ [s]).
      rewrite E. rewrite <- app_assoc. split; [done|split; [done|split; [done|]]].
      rewrite elem_of_app, list_elem_of_singleton. intros [|]; congruence.
    + rewrite elem_of_app, list_elem_of_singleton. intros [|]; congruence.
Qed.

Lemma infer_size_sound shape numel r :
  in_S 64 numel → 0 ≤ numel → infer_size shape numel = Ok r →
  length r = length shape ∧
  (∀ i s, shape !! i = Some s → s ≠ -1 → r !! i = Some s) ∧
  Forall (λ s, 0 ≤ s) r ∧ int64 (prodl r) = numel.
Proof.
  intros Hr Hn E. unfold infer_size in E.
  pose proof (for_up_post (infer_inv shape) (λ e, ∃ w, e = RuntimeError w ∨ e = C10Error w)
    (length shape) (infer_size_step shape) (1, None)) as H.
  destruct (for_up _ _ _) as [[ns inf]|e]; [|done]. rewrite Ok_bind in E.
  destruct H as (Hp & Hf & Hd).
  { split; [by rewrite int64_id|]. split; [by rewrite take_0; constructor|]. rewrite take_0. apply not_elem_of_nil. }
  { intros. by apply infer_step. }
  rewrite firstn_all in Hp, Hf, Hd. cbn in Hp, Hd.
  destruct (_ || _) eqn:Ec; [|done]. destruct inf as [d|].
  - destruct Hd as (l1 & l2 & -> & -> & H1 & H2).
    apply AT_CHECK_bind_Ok in E as [Ez E]. apply negb_true_iff, Z.eqb_neq in Ez.
    rewrite vec_set_nat in E by (rewrite length_app; cbn; lia). apply Ok_inj in E. subst r.
    rewrite fmap_app, prodl_app in Hp. cbn in Hp. rewrite !known_id in Hp by done.
    assert (Hq : ns * Z.quot numel ns = numel ∧ 0 ≤ Z.quot numel ns).
    { apply orb_true_iff in Ec as [Ec|Ec].
      - apply Z.eqb_eq in Ec as <-. rewrite Z.quot_same by done. lia.
      - apply andb_true_iff in Ec as [Ec E3]. apply andb_true_iff in Ec as [_ E2].
        apply Z.ltb_lt in E2. apply Z.eqb_eq in E3.
        pose proof (Z.quot_rem numel ns Ez). split; [lia|]. apply Z.quot_pos; lia. }
    destruct Hq as [Hq Hq0].
    replace (<[length l1:=Z.quot numel ns]> (l1 ++ (-1) :: l2)) with (l1 ++ Z.quot numel ns :: l2).
    2:{ rewrite insert_app_r_alt by lia. by rewrite Nat.sub_diag. }
    split; [by rewrite !length_app|]. split.
    { intros i s Ei Hs. destruct (decide (i < length l1)%nat) as [Hlt|Hge].
      - by rewrite lookup_app_l in Ei |- * by done.
      - rewrite lookup_app_r in Ei |- * by lia.
        destruct (i - length l1)%nat; cbn in Ei; [by simplify_eq|]. done. }
    apply Forall_app in Hf as [Hf1 Hf2]. apply Forall_cons_iff in Hf2 as [_ Hf2].
    split.
    { apply Forall_app. split; [|constructor; [done|]]; by apply Forall_not_inferred. }
    rewrite prodl_app. cbn.
    transitivity (int64 numel); [|by apply int64_id]. rewrite <- Hq at 2. subst ns.
    apply int64_congr. rewrite <- (Zmult_mod_idemp_l (int64 _)), int64_repr, Zmult_mod_idemp_l.
    f_equal. unfold prodl. cbn [foldr]. lia.
  - apply Ok_inj in E. subst r. split; [done|]. split; [done|]. split.
    { by apply Forall_not_inferred. }
    rewrite known_id in Hp by done. rewrite <- Hp.
    rewrite bool_decide_eq_false_2 in Ec by (intros []; done). cbn in Ec.
    rewrite orb_false_r in Ec. apply Z.eqb_eq in Ec. congruence.
Qed.
