(* ===== verification/TensorImpl.v ===== *)
(** * The metadata of a tensor (c10/core/TensorImpl.{h,cpp})

    The record of a tensor's sizes, strides, offset and cached properties, and the
    member functions that read and change them.  A member function is a
    computation on the object: what it wrote before an exception stays written.
    The data pointer, the Python object, the version counter and the autograd
    metadata's contents do not take part; whether autograd metadata is attached
    does ([is_variable]). *)
From S2P Require Import Prelude CoreTypes ScalarTypes TensorIds Options Geometry Strides.
Local Open Scope Z_scope.

(** A storage, as far as views and metadata are concerned (c10/core/StorageImpl.h). *)
Record Storage : Type := mkStorage {
  storage_dtype : TypeMeta;
  storage_device : Device;
  storage_numel : Z
}.

Module TensorImpl.

Record TensorImpl : Type := mkTensorImpl {
  storage_ : Storage;
  sizes_ : list Z;
  strides_ : list Z;
  storage_offset_ : Z;
  numel_ : Z;
  data_type_ : TypeMeta;
  device_opt_ : option Device;
  type_id_ : Z;
  is_contiguous_ : bool;
  is_wrapped_number_ : bool;
  allow_tensor_metadata_change_ : bool;
  reserved_ : bool;
  is_variable : bool
}.

(** Assignments to the fields the member functions write. *)
Definition with_sizes (v : list Z) (t : TensorImpl) : TensorImpl :=
  mkTensorImpl (storage_ t) v (strides_ t) (storage_offset_ t) (numel_ t) (data_type_ t)
    (device_opt_ t) (type_id_ t) (is_contiguous_ t) (is_wrapped_number_ t)
    (allow_tensor_metadata_change_ t) (reserved_ t) (is_variable t).
Definition with_strides (v : list Z) (t : TensorImpl) : TensorImpl :=
  mkTensorImpl (storage_ t) (sizes_ t) v (storage_offset_ t) (numel_ t) (data_type_ t)
    (device_opt_ t) (type_id_ t) (is_contiguous_ t) (is_wrapped_number_ t)
    (allow_tensor_metadata_change_ t) (reserved_ t) (is_variable t).
Definition with_offset (v : Z) (t : TensorImpl) : TensorImpl :=
  mkTensorImpl (storage_ t) (sizes_ t) (strides_ t) v (numel_ t) (data_type_ t)
    (device_opt_ t) (type_id_ t) (is_contiguous_ t) (is_wrapped_number_ t)
    (allow_tensor_metadata_change_ t) (reserved_ t) (is_variable t).
Definition with_numel (v : Z) (t : TensorImpl) : TensorImpl :=
  mkTensorImpl (storage_ t) (sizes_ t) (strides_ t) (storage_offset_ t) v (data_type_ t)
    (device_opt_ t) (type_id_ t) (is_contiguous_ t) (is_wrapped_number_ t)
    (allow_tensor_metadata_change_ t) (reserved_ t) (is_variable t).
Definition with_contiguous (v : bool) (t : TensorImpl) : TensorImpl :=
  mkTensorImpl (storage_ t) (sizes_ t) (strides_ t) (storage_offset_ t) (numel_ t) (data_type_ t)
    (device_opt_ t) (type_id_ t) v (is_wrapped_number_ t)
    (allow_tensor_metadata_change_ t) (reserved_ t) (is_variable t).

(** *** Products of dimensions *)
Definition mul_range (dims : list Z) (from n : nat) : outcome Z :=
  for_in (seq from n) (λ i r, d ← vec_get dims (Z.of_nat i); Ok (mul64 r d)) 1.

Definition size_from_dim_ (k : nat) (dims : list Z) : outcome Z :=
  mul_range dims k (length dims - k).

Definition size_to_dim_ (k : nat) (dims : list Z) : outcome Z :=
  AT_ASSERT (k <=? length dims)%nat ≫= λ _, mul_range dims 0 k.

Definition size_between_dim_ (k l : nat) (dims : list Z) : outcome Z :=
  AT_ASSERT (l <? length dims)%nat ≫= λ _,
  if (k <? l)%nat then mul_range dims (k + 1) (l - (k + 1)) else mul_range dims (l + 1) (k - (l + 1)).

Definition canonical_axis_index_ (axis_index ndims : Z) : outcome Z :=
  AT_ASSERT (- ndims <=? axis_index) ≫= λ _,
  AT_ASSERT (axis_index <? ndims) ≫= λ _,
  Ok (if axis_index <? 0 then axis_index + ndims else axis_index).

(** *** Accessors *)
Definition dim (t : TensorImpl) : Z := vec_size (sizes_ t).
Definition size (t : TensorImpl) (d : Z) : outcome Z :=
  d ← maybe_wrap_dim d (dim t) false; vec_get (sizes_ t) d.
Definition stride (t : TensorImpl) (d : Z) : outcome Z :=
  d ← maybe_wrap_dim d (dim t) false; vec_get (strides_ t) d.
Definition is_empty (t : TensorImpl) : bool := numel_ t =? 0.

Definition get_device (t : TensorImpl) : outcome Z :=
  match device_opt_ t with
  | Some d => Ok (Device.index_ d)
  | None => AT_ERROR "tensor does not have a device"
  end.
Definition device (t : TensorImpl) : outcome Device :=
  match device_opt_ t with
  | Some d => Ok d
  | None => AT_ERROR "tensor does not have a device"
  end.
Definition device_type (t : TensorImpl) : outcome DeviceType :=
  AT_ASSERT (negb (is_variable t)) ≫= λ _,
  match device_opt_ t with
  | Some d => Ok (Device.type_ d)
  | None => AT_ERROR "assertion failed"
  end.

Section WithIds.
Context `{TensorIds}.

Definition is_sparse (t : TensorImpl) : bool :=
  (type_id_ t =? tid SparseCPUTensorId) || (type_id_ t =? tid SparseCUDATensorId)
  || (type_id_ t =? tid SparseHIPTensorId).
Definition is_quantized (t : TensorImpl) : bool := type_id_ t =? tid QuantizedCPUTensorId.
Definition is_cuda (t : TensorImpl) : bool :=
  (type_id_ t =? tid CUDATensorId) || (type_id_ t =? tid SparseCUDATensorId).
Definition is_hip (t : TensorImpl) : bool :=
  (type_id_ t =? tid HIPTensorId) || (type_id_ t =? tid SparseHIPTensorId).
Definition is_mkldnn (t : TensorImpl) : bool := type_id_ t =? tid MkldnnCPUTensorId.
Definition layout (t : TensorImpl) : Layout :=
  if is_sparse t then Layout.Sparse else if is_mkldnn t then Layout.Mkldnn else Layout.Strided.

(** The private constructor: a one-dimensional tensor of size zero. *)
Definition TensorImpl_new (storage : Storage) (type_id : Z) (data_type : TypeMeta)
  (device_opt : option Device) : outcome TensorImpl :=
  AT_ASSERT ((type_id =? tid UndefinedTensorId) || bool_decide (data_type = meta_uninitialized)
             || bool_decide (is_Some device_opt)) ≫= λ _,
  Ok (mkTensorImpl storage [0] [1] 0 0 data_type device_opt type_id true false true false false).

(** [TensorImpl(Storage&&, TensorTypeId)]. *)
Definition TensorImpl_of_storage (storage : Storage) (type_id : Z) : outcome TensorImpl :=
  TensorImpl_new storage type_id (storage_dtype storage) (Some (storage_device storage)).
End WithIds.

(** *** Cached properties *)
Definition compute_numel (t : TensorImpl) : outcome Z :=
  for_in (sizes_ t) (λ s n, Ok (mul64 n s)) 1.

(** The loop of [compute_contiguous] from [d - 1] down, with its [break]. *)
Fixpoint compute_contiguous_from (t : TensorImpl) (d : nat) (z : Z) : outcome bool :=
  match d with
  | O => Ok true
  | S d =>
      s ← size t (Z.of_nat d);
      if negb (s =? 1) then
        st ← stride t (Z.of_nat d);
        if st =? z then compute_contiguous_from t d (mul64 z s) else Ok false
      else compute_contiguous_from t d z
  end.

Definition compute_contiguous (t : TensorImpl) : outcome bool :=
  if is_empty t then Ok true else compute_contiguous_from t (length (sizes_ t)) 1.

Definition refresh_numel : SE TensorImpl unit :=
  t ← get; AT_ASSERT (negb (is_variable t)) ≫= λ _,
  n ← lift (compute_numel t); modify (with_numel n).

Definition refresh_contiguous : SE TensorImpl unit :=
  t ← get; AT_ASSERT (negb (is_variable t)) ≫= λ _,
  b ← lift (compute_contiguous t); modify (with_contiguous b).

(** *** Mutators *)

(** [v.resize(n, x)]. *)
Definition vec_resize (v : list Z) (n : nat) (x : Z) : list Z :=
  take n v ++ replicate (n - length v) x.

Definition metadata_change (what : string) : SE TensorImpl unit :=
  t ← get; AT_CHECK (allow_tensor_metadata_change_ t) what.

Definition resize_dim (ndim : nat) : SE TensorImpl unit :=
  metadata_change "resize_dim is not allowed on Tensor created from .data or .detach()" ≫= λ _,
  modify (λ t, with_sizes (vec_resize (sizes_ t) ndim 0) t) ≫= λ _,
  modify (λ t, with_strides (vec_resize (strides_ t) ndim 0) t) ≫= λ _,
  refresh_numel ≫= λ _,
  refresh_contiguous.

(** [sizes_.at(dim)] is an unchecked access in [SmallVector]. *)
Definition set_size (d new_size : Z) : SE TensorImpl unit :=
  metadata_change "set_size is not allowed on Tensor created from .data or .detach()" ≫= λ _,
  t ← get; v ← lift (vec_set (sizes_ t) d new_size);
  modify (with_sizes v) ≫= λ _,
  refresh_numel ≫= λ _,
  refresh_contiguous.

Definition set_stride (d new_stride : Z) : SE TensorImpl unit :=
  metadata_change "set_stride is not allowed on Tensor created from .data or .detach()" ≫= λ _,
  t ← get; v ← lift (vec_set (strides_ t) d new_stride);
  modify (with_strides v) ≫= λ _,
  refresh_numel ≫= λ _,
  refresh_contiguous.

Definition set_storage_offset (storage_offset : Z) : SE TensorImpl unit :=
  metadata_change "set_storage_offset is not allowed on Tensor created from .data or .detach()" ≫= λ _,
  modify (with_offset storage_offset).

(** [for (size_t dim = 0; dim < new_dim; ++dim) sizes_[dim] = new_size[dim]] after
    [sizes_.resize(new_dim)]. *)
Definition copy_into (v src : list Z) : outcome (list Z) :=
  for_up (length src) (λ d v, x ← vec_get src (Z.of_nat d); vec_set v (Z.of_nat d) x)
    (vec_resize v (length src) 0).

(** The loop of [update_to_contiguous_strides], after the resize. *)
Definition contiguous_strides_of (sizes strides : list Z) : outcome (list Z) :=
  let n := length sizes in
  let strides := vec_resize strides n 0 in
  if (0 <? n)%nat then
    let last_idx := (n - 1)%nat in
    strides ← vec_set strides (Z.of_nat last_idx) 1;
    for_down last_idx (λ i strides,
      st ← vec_get strides (Z.of_nat i + 1);
      s ← vec_get sizes (Z.of_nat i + 1);
      vec_set strides (Z.of_nat i) (mul64 st (Z.max s 1))) strides
  else Ok strides.

Definition update_to_contiguous_strides : SE TensorImpl unit :=
  t ← get; strides ← lift (contiguous_strides_of (sizes_ t) (strides_ t));
  modify (with_strides strides) ≫= λ _,
  modify (with_contiguous true).

Definition set_sizes_contiguous (new_size : list Z) : SE TensorImpl unit :=
  metadata_change "set_sizes_contiguous is not allowed on Tensor created from .data or .detach()" ≫= λ _,
  t ← get; AT_ASSERT (negb (is_variable t)) ≫= λ _,
  sizes ← lift (copy_into (sizes_ t) new_size);
  modify (with_sizes sizes) ≫= λ _,
  update_to_contiguous_strides ≫= λ _,
  refresh_numel.

(** The stride loop of [set_sizes_and_strides]: a negative stride is replaced. *)
Definition stride_step (new_stride sizes : list Z) (d : nat) (strides : list Z) : outcome (list Z) :=
  s ← vec_get new_stride (Z.of_nat d);
  if 0 <=? s then vec_set strides (Z.of_nat d) s
  else if (d =? length new_stride - 1)%nat then vec_set strides (Z.of_nat d) 1
  else sz ← vec_get sizes (Z.of_nat d + 1);
       st ← vec_get strides (Z.of_nat d + 1);
       vec_set strides (Z.of_nat d) (mul64 (Z.max sz 1) st).

Definition set_sizes_and_strides (new_size new_stride : list Z) : SE TensorImpl unit :=
  metadata_change "set_sizes_and_strides is not allowed on Tensor created from .data or .detach()" ≫= λ _,
  t ← get; AT_ASSERT (negb (is_variable t)) ≫= λ _,
  AT_CHECK (length new_size =? length new_stride)%nat
    "dimensionality of sizes must match dimensionality of strides" ≫= λ _,
  sizes ← lift (copy_into (sizes_ t) new_size);
  modify (with_sizes sizes) ≫= λ _,
  strides ← lift (for_down (length new_size) (stride_step new_stride sizes)
                    (vec_resize (strides_ t) (length new_size) 0));
  modify (with_strides strides) ≫= λ _,
  refresh_numel ≫= λ _,
  refresh_contiguous.

Definition maybe_zero_dim (condition_when_zero_dim : bool) : SE TensorImpl unit :=
  t ← get;
  set_zero_dim ← lift (if condition_when_zero_dim && (length (sizes_ t) =? 1)%nat
                       then s ← size t 0; Ok (s =? 1) else Ok false);
  if set_zero_dim : bool then resize_dim 0 else mret tt.

(** [SetDimsTemplate]: the result is whether the element count changed. *)
Definition SetDims (src : list Z) : SE TensorImpl bool :=
  t ← get;
  sizes ← lift (copy_into (sizes_ t) src);
  new_numel ← lift (for_in src (λ s n, Ok (mul64 n s)) 1);
  modify (with_sizes sizes) ≫= λ _,
  update_to_contiguous_strides ≫= λ _,
  modify (with_numel new_numel) ≫= λ _,
  mret (negb (new_numel =? numel_ t)).

Definition Reshape (dims : list Z) : SE TensorImpl unit :=
  t ← get;
  AT_ASSERT (is_contiguous_ t) ≫= λ _,
  new_size ← lift (for_in dims (λ d n, AT_ASSERT (0 <=? d) ≫= λ _, Ok (mul64 n d)) 1);
  AT_ASSERT (new_size =? numel_ t) ≫= λ _,
  modify (with_sizes dims) ≫= λ _,
  update_to_contiguous_strides.

Definition set_storage (storage : Storage) : SE TensorImpl unit :=
  metadata_change "set_storage is not allowed on Tensor created from .data or .detach()" ≫= λ _,
  modify (λ t, mkTensorImpl storage (sizes_ t) (strides_ t) (storage_offset_ t) (numel_ t)
    (storage_dtype storage) (Some (storage_device storage)) (type_id_ t) (is_contiguous_ t)
    (is_wrapped_number_ t) (allow_tensor_metadata_change_ t) (reserved_ t) (is_variable t)).

(** The copy gets the fields that are copied by value, and recomputes the caches. *)
Definition shallow_copy_and_detach `{TensorIds} (t : TensorImpl) : outcome TensorImpl :=
  AT_ASSERT (negb (is_variable t)) ≫= λ _,
  impl ← TensorImpl_of_storage (storage_ t) (type_id_ t);
  fst ((set_sizes_and_strides (sizes_ t) (strides_ t) ≫= λ _,
   modify (λ i, mkTensorImpl (storage_ i) (sizes_ i) (strides_ i) (storage_offset_ t) (numel_ i)
     (data_type_ i) (device_opt_ i) (type_id_ i) (is_contiguous_ i) (is_wrapped_number_ t)
     (allow_tensor_metadata_change_ i) (reserved_ t) (is_variable i)) ≫= λ _,
   refresh_numel ≫= λ _, refresh_contiguous ≫= λ _, get) impl).

(** ** The cached properties are right *)

(** The well-formedness the whole library relies on: as many strides as sizes, and
    caches that hold what a fresh computation gives. *)
Record wf (t : TensorImpl) : Prop := {
  wf_length : length (strides_ t) = length (sizes_ t);
  wf_numel : compute_numel t = Ok (numel_ t);
  wf_contiguous : compute_contiguous t = Ok (is_contiguous_ t)
}.

Lemma fold_mul64 l n : for_in l (λ s n, Ok (mul64 n s)) (int64 n) = Ok (int64 (n * prodl l)).
Proof.
  revert n. induction l as [|x l IH]; intros n; cbn [for_in prodl foldr]; [by rewrite Z.mul_1_r|].
  rewrite Ok_bind, mul64_int64_l. unfold mul64. rewrite IH. f_equal. f_equal. unfold prodl. cbn. lia.
Qed.

Lemma numel_eq l : for_in l (λ s n, Ok (mul64 n s)) 1 = Ok (int64 (prodl l)).
Proof.
  transitivity (for_in l (λ s n, Ok (mul64 n s)) (int64 1)); [by rewrite int64_id|].
  rewrite fold_mul64. by rewrite Z.mul_1_l.
Qed.

Lemma compute_numel_eq t : compute_numel t = Ok (int64 (prodl (sizes_ t))).
Proof. apply numel_eq. Qed.

Lemma length_vec_resize v n x : length (vec_resize v n x) = n.
Proof. unfold vec_resize. rewrite length_app, length_take, length_replicate. lia. Qed.

Lemma copy_into_eq v src : copy_into v src = Ok src.
Proof.
  unfold copy_into.
  destruct (for_up_inv (λ i w, length w = length src ∧ take i w = take i src) (length src)
    (λ d v, x ← vec_get src (Z.of_nat d); vec_set v (Z.of_nat d) x)
    (vec_resize v (length src) 0)) as (w & E & Hl & Ht).
  - by rewrite length_vec_resize, !take_0.
  - intros i w Hi [Hl Ht]. destruct (lookup_lt_is_Some_2 src i Hi) as [x Ex].
    rewrite (vec_get_nat _ _ _ Ex), Ok_bind, vec_set_nat by lia. eexists. split; [done|].
    rewrite length_insert. split; [done|].
    rewrite (take_S_r _ i x), (take_S_r src i x) by (done || (apply list_lookup_insert_eq; lia)).
    by rewrite take_insert_ge, Ht by lia.
  - rewrite E. f_equal. rewrite <- (firstn_all w), <- (firstn_all src). by rewrite Hl, Ht at 1.
Qed.

Lemma contiguous_strides_spec sizes strides :
  ∃ v, contiguous_strides_of sizes strides = Ok v ∧ length v = length sizes ∧
    ((∀ k, (k < length sizes)%nat → 0 < dimr sizes k) →
     ∀ k, (k < length sizes)%nat → dimr v k = prod64 sizes k).
Proof.
  unfold contiguous_strides_of. set (n := length sizes).
  destruct (Nat.ltb_spec 0 n) as [Hn|Hn].
  2:{ exists (vec_resize strides n 0). rewrite length_vec_resize. split; [done|split; [done|intros; lia]]. }
  rewrite vec_set_nat by (rewrite length_vec_resize; lia). rewrite Ok_bind.
  match goal with |- context [for_down (n - 1) ?b ?s] =>
    destruct (for_down_inv (λ i v, length v = n ∧
      ((∀ k, (k < n)%nat → 0 < dimr sizes k) → ∀ k, (k < n - i)%nat → dimr v k = prod64 sizes k))
      (n - 1) b s) as (v & E & Hl & Hk) end.
  - rewrite length_insert, length_vec_resize. split; [done|]. intros _ k Hk.
    rewrite dimr_insert, length_vec_resize by (rewrite length_vec_resize; lia).
    rewrite decide_True by lia. by replace k with 0%nat by lia.
  - intros i v Hi [Hl Hk].
    rewrite (vec_get_r v _ (n - 2 - i)), (vec_get_r sizes _ (n - 2 - i)) by (unfold vec_size, n in *; lia).
    rewrite !Ok_bind, vec_set_nat by lia. eexists. split; [done|]. rewrite length_insert.
    split; [done|]. intros Hpos k Hki. rewrite dimr_insert by lia. rewrite Hl. case_decide as Ek.
    + subst k. rewrite Hk by (done || lia). pose proof (Hpos (n - 2 - i)%nat ltac:(lia)).
      rewrite Z.max_l by lia. by replace (n - 1 - i)%nat with (S (n - 2 - i)) by lia.
    + apply Hk; [done|lia].
  - exists v. split; [done|split; [done|]]. intros Hpos k Hkn. apply Hk; [done|lia].
Qed.

(** What [compute_contiguous] decides. *)
Lemma size_in t d : (d < length (sizes_ t))%nat →
  size t (Z.of_nat d) = Ok (dimr (sizes_ t) (length (sizes_ t) - 1 - d)).
Proof.
  intros Hd. unfold size, dim, vec_size. rewrite maybe_wrap_dim_nonneg by lia. rewrite Ok_bind.
  apply vec_get_r; [unfold vec_size; lia|lia].
Qed.

Lemma stride_in t d : length (strides_ t) = length (sizes_ t) → (d < length (sizes_ t))%nat →
  stride t (Z.of_nat d) = Ok (dimr (strides_ t) (length (sizes_ t) - 1 - d)).
Proof.
  intros Hl Hd. unfold stride, dim, vec_size. rewrite maybe_wrap_dim_nonneg by lia. rewrite Ok_bind.
  apply vec_get_r; [unfold vec_size; lia|lia].
Qed.

Lemma compute_contiguous_from_spec t i j :
  length (strides_ t) = length (sizes_ t) → (i + j = length (sizes_ t))%nat →
  ∃ b, compute_contiguous_from t i (prod64 (sizes_ t) j) = Ok b ∧
       (b = true ↔ strides_match (sizes_ t) (strides_ t) j).
Proof.
  intros Hl. revert j. induction i as [|i IH]; intros j Hij; cbn.
  { exists true. split; [done|]. split; [|done]. intros _ k Hk; lia. }
  rewrite size_in, stride_in by (done || lia). rewrite !Ok_bind.
  replace (length (sizes_ t) - 1 - i)%nat with j by lia.
  pose proof (strides_match_S (sizes_ t) (strides_ t) j ltac:(lia)) as HS.
  destruct (Z.eqb_spec (dimr (sizes_ t) j) 1) as [E1|E1]; cbn.
  - destruct (IH (S j)) as (b & Eb & Hb); [lia|]. exists b. rewrite HS, <- Hb. split; [|tauto].
    rewrite <- Eb. f_equal. cbn. rewrite E1. unfold mul64.
    rewrite Z.mul_1_r, prod64_int64. by rewrite int64_idemp.
  - destruct (Z.eqb_spec (dimr (strides_ t) j) (prod64 (sizes_ t) j)) as [E2|E2].
    + destruct (IH (S j)) as (b & Eb & Hb); [lia|]. exists b. split; [exact Eb|]. tauto.
    + exists false. split; [done|]. split; [done|]. intros H. apply HS in H as [[|] _]; done.
Qed.

Lemma compute_contiguous_spec t :
  length (strides_ t) = length (sizes_ t) →
  ∃ b, compute_contiguous t = Ok b ∧ (b = true ↔ numel_ t = 0 ∨ strides_match (sizes_ t) (strides_ t) 0).
Proof.
  intros Hl. unfold compute_contiguous, is_empty. destruct (Z.eqb_spec (numel_ t) 0).
  - exists true. tauto.
  - destruct (compute_contiguous_from_spec t (length (sizes_ t)) 0) as (b & Eb & Hb); [done|lia|].
    exists b. split; [done|]. tauto.
Qed.

(** The tensor with its caches recomputed. *)
Definition contiguousb (t : TensorImpl) : bool :=
  match compute_contiguous t with Ok b => b | Throw _ => false end.
Definition refreshed (t : TensorImpl) : TensorImpl :=
  let t := with_numel (int64 (prodl (sizes_ t))) t in with_contiguous (contiguousb t) t.

Lemma compute_contiguousb t :
  length (strides_ t) = length (sizes_ t) → compute_contiguous t = Ok (contiguousb t).
Proof.
  intros Hl. unfold contiguousb. by destruct (compute_contiguous_spec t Hl) as (b & -> & _).
Qed.

Lemma contiguous_ext t u :
  sizes_ t = sizes_ u → strides_ t = strides_ u → numel_ t = numel_ u →
  compute_contiguous t = compute_contiguous u.
Proof.
  intros E1 E2 E3. unfold compute_contiguous, is_empty. rewrite E3, E1. case_match; [done|].
  generalize 1. induction (length (sizes_ u)) as [|d IH]; intros z; [done|]. cbn.
  assert (size t (Z.of_nat d) = size u (Z.of_nat d)) as -> by (unfold size, dim; by rewrite E1).
  assert (stride t (Z.of_nat d) = stride u (Z.of_nat d)) as -> by (unfold stride, dim; by rewrite E1, E2).
  destruct (size u _) as [x|]; [|done]. rewrite !Ok_bind. case_match; [|apply IH].
  destruct (stride u _) as [y|]; [|done]. rewrite !Ok_bind. case_match; [apply IH|done].
Qed.

Lemma wf_refreshed t : length (strides_ t) = length (sizes_ t) → wf (refreshed t).
Proof.
  intros Hl. split; [done|by rewrite compute_numel_eq|].
  rewrite (contiguous_ext _ (with_numel (int64 (prodl (sizes_ t))) t)) by done.
  rewrite compute_contiguousb by done. done.
Qed.

Lemma refresh_eq t :
  length (strides_ t) = length (sizes_ t) → is_variable t = false →
  (refresh_numel ≫= λ _, refresh_contiguous) t = (Ok tt, refreshed t).
Proof.
  intros Hl Hv. unfold refresh_numel, refresh_contiguous, refreshed.
  unfold mbind, SE_bind, get, AT_ASSERT, AT_CHECK, lift, modify. cbn. rewrite Hv; cbn.
  rewrite compute_numel_eq; cbn. rewrite Hv; cbn. by rewrite compute_contiguousb.
Qed.

(** *** The operations as one relation *)
Inductive op : Type :=
  | op_resize_dim (ndim : nat)
  | op_set_size (d new_size : Z)
  | op_set_stride (d new_stride : Z)
  | op_set_storage_offset (offset : Z)
  | op_set_sizes_contiguous (new_size : list Z)
  | op_set_sizes_and_strides (new_size new_stride : list Z)
  | op_maybe_zero_dim (condition : bool)
  | op_SetDims (src : list Z)
  | op_Reshape (dims : list Z)
  | op_set_storage (storage : Storage).

Definition run_op (o : op) : SE TensorImpl unit :=
  match o with
  | op_resize_dim ndim => resize_dim ndim
  | op_set_size d s => set_size d s
  | op_set_stride d s => set_stride d s
  | op_set_storage_offset v => set_storage_offset v
  | op_set_sizes_contiguous v => set_sizes_contiguous v
  | op_set_sizes_and_strides s st => set_sizes_and_strides s st
  | op_maybe_zero_dim c => maybe_zero_dim c
  | op_SetDims v => SetDims v ≫= λ _, mret tt
  | op_Reshape v => Reshape v
  | op_set_storage st => set_storage st
  end.

(** The two functions that set contiguous strides are given sizes, which are not
    negative; [Reshape] checks it, the others do not. *)
Definition op_ok (o : op) : bool :=
  match o with
  | op_set_sizes_contiguous v | op_SetDims v => forallb (Z.leb 0) v
  | _ => true
  end.

Fixpoint run (os : list op) (t : TensorImpl) : TensorImpl :=
  match os with [] => t | o :: os => run os (run_op o t).2 end.

(** A tensor a sequence of operations keeps correct. *)
Definition good (t : TensorImpl) : Prop := wf t ∧ is_variable t = false.

Lemma good_refreshed t :
  length (strides_ t) = length (sizes_ t) → is_variable t = false → good (refreshed t).
Proof. intros Hl Hv. split; [by apply wf_refreshed|done]. Qed.

Lemma good_refresh t :
  length (strides_ t) = length (sizes_ t) → is_variable t = false →
  good ((refresh_numel ≫= λ _, refresh_contiguous) t).2.
Proof. intros Hl Hv. rewrite refresh_eq by done. by apply good_refreshed. Qed.

Lemma good_offset t v : good t → good (with_offset v t).
Proof.
  intros [[Hl Hn Hc] Hv]. split; [|done]. split; [done|exact Hn|].
  transitivity (compute_contiguous t); [by apply contiguous_ext|exact Hc].
Qed.

(** A mutator is a check followed by a body. *)
Lemma metadata_guard what (body : SE TensorImpl unit) t :
  (metadata_change what ≫= λ _, body) t =
    if allow_tensor_metadata_change_ t then body t else (Throw (C10Error what), t).
Proof.
  unfold metadata_change, mbind, SE_bind, get, AT_CHECK. by destruct (allow_tensor_metadata_change_ t).
Qed.

Lemma guard_good what (body : SE TensorImpl unit) t :
  good t → good (body t).2 → good ((metadata_change what ≫= λ _, body) t).2.
Proof. intros Hg Hb. rewrite metadata_guard. by case_match. Qed.

Lemma good_resize_dim t n : good t → good (resize_dim n t).2.
Proof.
  intros Hg. unfold resize_dim. apply guard_good; [done|].
  change (good ((refresh_numel ≫= λ _, refresh_contiguous)
    (with_strides (vec_resize (strides_ t) n 0) (with_sizes (vec_resize (sizes_ t) n 0) t))).2).
  apply good_refresh; cbn; [by rewrite !length_vec_resize|by destruct Hg].
Qed.

Lemma good_set_size t d n : good t → good (set_size d n t).2.
Proof.
  intros Hg. unfold set_size. apply guard_good; [done|].
  unfold mbind at 1 2, SE_bind at 1 2, get, lift, vec_set.
  case_decide; [|done].
  apply good_refresh; cbn; [by rewrite length_insert; destruct Hg as [[]]|by destruct Hg].
Qed.

Lemma good_set_stride t d n : good t → good (set_stride d n t).2.
Proof.
  intros Hg. unfold set_stride. apply guard_good; [done|].
  unfold mbind at 1 2, SE_bind at 1 2, get, lift, vec_set.
  case_decide; [|done].
  apply good_refresh; cbn; [by rewrite length_insert; destruct Hg as [[]]|by destruct Hg].
Qed.

(** A shape without negative sizes is either free of zeros or has no elements. *)
Lemma nonneg_cases sizes :
  forallb (Z.leb 0) sizes = true →
  (∀ k, (k < length sizes)%nat → 0 < dimr sizes k) ∨ prodl sizes = 0.
Proof.
  intros H. destruct (decide (0 ∈ sizes)) as [Hz|Hz].
  - right. apply list_elem_of_split in Hz as (l1 & l2 & ->). rewrite prodl_app.
    unfold prodl at 2. cbn. lia.
  - left. intros k Hk. pose proof (dimr_lookup sizes k Hk) as E.
    apply list_elem_of_lookup_2 in E. rewrite forallb_forall in H.
    specialize (H _ (proj1 (list_elem_of_In _ _) E)). apply Z.leb_le in H.
    destruct (decide (dimr sizes k = 0)) as [E0|]; [by rewrite E0 in E|lia].
Qed.

Lemma wf_contiguous_sizes t sizes st :
  forallb (Z.leb 0) sizes = true → contiguous_strides_of sizes (strides_ t) = Ok st →
  wf (with_numel (int64 (prodl sizes)) (with_contiguous true (with_strides st (with_sizes sizes t)))).
Proof.
  intros Hs E. destruct (contiguous_strides_spec sizes (strides_ t)) as (v & E' & Hl & Hk).
  rewrite E in E'. apply Ok_inj in E' as <-.
  split; [done|by rewrite compute_numel_eq|].
  match goal with |- compute_contiguous ?x = _ =>
    destruct (compute_contiguous_spec x) as (b & -> & Hb); [done|] end.
  f_equal. apply Hb. cbn. destruct (nonneg_cases sizes Hs) as [Hp| ->]; [right|by left].
  intros k Hk' _. apply Hk; [done|lia].
Qed.

Lemma good_set_sizes_contiguous t v :
  forallb (Z.leb 0) v = true → good t → good (set_sizes_contiguous v t).2.
Proof.
  intros Hs Hg. unfold set_sizes_contiguous. apply guard_good; [done|].
  destruct Hg as [Hw Hv]. destruct (contiguous_strides_spec v (strides_ t)) as (st & E & Hl & Hk).
  unfold mbind, SE_bind, get, lift, AT_ASSERT, AT_CHECK. rewrite Hv; cbn.
  rewrite copy_into_eq; cbn. unfold update_to_contiguous_strides, mbind, SE_bind, get, lift; cbn.
  rewrite E; cbn. unfold refresh_numel, mbind, SE_bind, get, lift, AT_ASSERT, AT_CHECK; cbn.
  rewrite Hv; cbn. rewrite numel_eq; cbn.
  split; [by apply wf_contiguous_sizes|done].
Qed.

Lemma good_SetDims t v : forallb (Z.leb 0) v = true → good t → good (SetDims v t).2.
Proof.
  intros Hs [Hw Hv]. destruct (contiguous_strides_spec v (strides_ t)) as (st & E & Hl & Hk).
  unfold SetDims, mbind, SE_bind, get, lift. rewrite copy_into_eq. rewrite numel_eq; cbn.
  unfold update_to_contiguous_strides, mbind, SE_bind, get, lift; cbn.
  rewrite E; cbn. split; [by apply wf_contiguous_sizes|done].
Qed.

Lemma Reshape_sizes dims n :
  for_in dims (λ d n, AT_ASSERT (0 <=? d) ≫= λ _, Ok (mul64 n d)) n =
    if forallb (Z.leb 0) dims then for_in dims (λ d n, Ok (mul64 n d)) n
    else AT_ERROR "assertion failed".
Proof.
  revert n. induction dims as [|d dims IH]; intros n; [done|]. cbn.
  destruct (0 <=? d); [|done]. cbn. apply IH.
Qed.

Lemma good_Reshape t v : good t → good (Reshape v t).2.
Proof.
  intros [Hw Hv]. destruct (contiguous_strides_spec v (strides_ t)) as (st & E & Hl & Hk).
  unfold Reshape, mbind, SE_bind, get, lift, AT_ASSERT at 1, AT_CHECK at 1.
  destruct (is_contiguous_ t) eqn:Ec; [|done]; cbn. rewrite Reshape_sizes.
  destruct (forallb _ v) eqn:Hs; [|done]. rewrite numel_eq.
  unfold AT_ASSERT, AT_CHECK. destruct (Z.eqb_spec (int64 (prodl v)) (numel_ t)) as [En|]; [|done]. cbn.
  unfold update_to_contiguous_strides, mbind, SE_bind, get, lift; cbn. rewrite E; cbn.
  split; [|done].
  replace (with_contiguous true (with_strides st (with_sizes v t))) with
    (with_numel (int64 (prodl v)) (with_contiguous true (with_strides st (with_sizes v t))))
    by (rewrite En; by destruct t).
  by apply wf_contiguous_sizes.
Qed.

Lemma good_set_storage t s : good t → good (set_storage s t).2.
Proof.
  intros Hg. unfold set_storage. apply guard_good; [done|]. destruct Hg as [[Hl Hn Hc] Hv].
  split; [|done]. split; [done|exact Hn|].
  transitivity (compute_contiguous t); [by apply contiguous_ext|exact Hc].
Qed.

(** The stride [set_sizes_and_strides] stores at the [k]-th last dimension. *)
Definition stored_stride (new_stride sizes v : list Z) (k : nat) : Z :=
  if 0 <=? dimr new_stride k then dimr new_stride k
  else match k with
       | O => 1
       | S k => mul64 (Z.max (dimr sizes k) 1) (dimr v k)
       end.

Lemma strides_loop_spec new_stride sizes v0 :
  length new_stride = length sizes → length v0 = length sizes →
  ∃ v, for_down (length sizes) (stride_step new_stride sizes) v0 = Ok v ∧ length v = length sizes ∧
    ∀ k, (k < length sizes)%nat → dimr v k = stored_stride new_stride sizes v k.
Proof.
  intros Hl Hl0. set (n := length sizes) in *.
  destruct (for_down_inv (λ i v, length v = n ∧
      ∀ k, (k < n - i)%nat → dimr v k = stored_stride new_stride sizes v k)
    n (stride_step new_stride sizes) v0) as (v & E & Hv & Hk).
  - split; [done|intros; lia].
  - intros i v Hi [Hv Hk]. unfold stride_step. remember (n - 1 - i)%nat as j eqn:Ej.
    rewrite (vec_get_r new_stride _ j) by (unfold vec_size; lia). rewrite Ok_bind.
    assert (∃ x, (if 0 <=? dimr new_stride j then vec_set v (Z.of_nat i) (dimr new_stride j)
        else if (i =? length new_stride - 1)%nat then vec_set v (Z.of_nat i) 1
        else sz ← vec_get sizes (Z.of_nat i + 1); st ← vec_get v (Z.of_nat i + 1);
             vec_set v (Z.of_nat i) (mul64 (Z.max sz 1) st)) = Ok (<[i := x]> v) ∧
        x = stored_stride new_stride sizes v j) as (x & -> & Hx).
    { unfold stored_stride. case_match; [rewrite vec_set_nat by lia; eauto|].
      destruct (Nat.eqb_spec i (length new_stride - 1)) as [->|Hne].
      - rewrite vec_set_nat by lia. replace j with 0%nat by lia. eauto.
      - rewrite (vec_get_r sizes _ (j - 1)), (vec_get_r v _ (j - 1)) by (unfold vec_size; lia).
        rewrite !Ok_bind, vec_set_nat by lia.
        eexists; split; [done|]. destruct j as [|j]; [lia|]. cbn. by rewrite Nat.sub_0_r. }
    eexists. split; [done|]. rewrite length_insert. split; [done|]. intros k Hki.
    rewrite dimr_insert by lia. rewrite Hv. case_decide as Ek.
    + rewrite <- Ej in Ek. subst k x. unfold stored_stride. case_match; [done|]. destruct j as [|j]; [done|].
      rewrite dimr_insert by lia. by rewrite decide_False by lia.
    + rewrite Hk by lia. unfold stored_stride. case_match; [done|]. destruct k as [|k]; [done|].
      rewrite dimr_insert by lia. by rewrite decide_False by lia.
  - exists v. split; [done|split; [done|]]. intros k Hkn. apply Hk. lia.
Qed.

(** The result, when nothing forbids the change. *)
Lemma set_sizes_and_strides_Ok t sizes strides :
  allow_tensor_metadata_change_ t = true → is_variable t = false → length sizes = length strides →
  ∃ v, set_sizes_and_strides sizes strides t =
         (Ok tt, refreshed (with_strides v (with_sizes sizes t))) ∧
       length v = length sizes ∧
       ∀ k, (k < length sizes)%nat → dimr v k = stored_stride strides sizes v k.
Proof.
  intros Ha Hv Hl. destruct (strides_loop_spec strides sizes
    (vec_resize (strides_ t) (length sizes) 0)) as (v & E & Hlv & Hk); [done|apply length_vec_resize|].
  exists v. split; [|done]. unfold set_sizes_and_strides. rewrite metadata_guard, Ha.
  unfold mbind at 1 2 3 4 5 6, SE_bind at 1 2 3 4 5 6, get, lift, AT_ASSERT at 1, AT_CHECK at 1 2.
  rewrite Hv; cbn [negb]. rewrite (proj2 (Nat.eqb_eq _ _) Hl). rewrite copy_into_eq. cbn. rewrite E. cbn.
  apply (refresh_eq (with_strides v (with_sizes sizes t))); done.
Qed.

Lemma set_sizes_and_strides_fails t sizes strides :
  is_variable t = false → length sizes ≠ length strides →
  (set_sizes_and_strides sizes strides t).2 = t.
Proof.
  intros Hv Hl. unfold set_sizes_and_strides. rewrite metadata_guard. case_match; [|done].
  unfold mbind at 1 2 3, SE_bind at 1 2 3, get, AT_ASSERT, AT_CHECK. rewrite Hv; cbn [negb].
  by rewrite (proj2 (Nat.eqb_neq _ _) Hl).
Qed.

Lemma good_set_sizes_and_strides t sizes strides : good t → good (set_sizes_and_strides sizes strides t).2.
Proof.
  intros Hg. destruct Hg as [Hw Hv]. destruct (decide (length sizes = length strides)) as [Hl|Hl].
  - destruct (allow_tensor_metadata_change_ t) eqn:Ha.
    + destruct (set_sizes_and_strides_Ok t sizes strides) as (v & -> & Hlv & _); [done..|].
      by apply good_refreshed.
    + unfold set_sizes_and_strides. rewrite metadata_guard, Ha. done.
  - by rewrite set_sizes_and_strides_fails.
Qed.

Lemma good_maybe_zero_dim t c : good t → good (maybe_zero_dim c t).2.
Proof.
  intros Hg. unfold maybe_zero_dim. unfold mbind at 1 2, SE_bind at 1 2, get, lift.
  assert (∃ b, (if c && (length (sizes_ t) =? 1)%nat then s ← size t 0; Ok (s =? 1) else Ok false) = Ok b)
    as ([] & ->).
  { case_match; [|by eexists]. apply andb_true_iff in H as [_ H]. apply Nat.eqb_eq in H.
    change 0 with (Z.of_nat 0) at 1. rewrite size_in by lia. rewrite Ok_bind. by eexists. }
  - by apply good_resize_dim.
  - done.
Qed.

Lemma good_run_op o t : op_ok o = true → good t → good (run_op o t).2.
Proof.
  intros Ho Hg. destruct o; cbn [run_op op_ok] in *.
  - by apply good_resize_dim.
  - by apply good_set_size.
  - by apply good_set_stride.
  - unfold set_storage_offset. apply guard_good; [done|]. by apply good_offset.
  - by apply good_set_sizes_contiguous.
  - by apply good_set_sizes_and_strides.
  - by apply good_maybe_zero_dim.
  - pose proof (good_SetDims t src Ho Hg) as H. unfold mbind, SE_bind.
    by destruct (SetDims src t) as [[] ].
  - by apply good_Reshape.
  - by apply good_set_storage.
Qed.

Lemma good_new `{TensorIds} storage type_id t :
  TensorImpl_of_storage storage type_id = Ok t → good t.
Proof.
  unfold TensorImpl_of_storage, TensorImpl_new, AT_ASSERT. rewrite AT_CHECK_bind_Ok.
  intros [_ E]. apply Ok_inj in E. subst t. done.
Qed.

End TensorImpl.
Abbreviation TensorImpl := TensorImpl.TensorImpl.
