(* ===== verification/Views.v ===== *)
(** * Views (aten/src/ATen/native/Resize.h, TensorShape.cpp)

    The operations that make a new tensor on the storage of an old one.  Each
    computes sizes, strides and an offset and hands them to [as_strided], which
    checks them against the storage.  A [Tensor] is the [TensorImpl] it points to;
    a view shares the storage, whose extent is all that is read here.  The operators
    are the native functions of the strided CPU and CUDA backends, to which the
    generated dispatcher sends these calls. *)
From S2P Require Import Prelude CoreTypes ScalarTypes TensorIds Options Geometry Strides TensorImpl.
Local Open Scope Z_scope.

Abbreviation Tensor := TensorImpl.
Abbreviation sizes := TensorImpl.sizes_.
Abbreviation strides := TensorImpl.strides_.
Abbreviation storage_offset := TensorImpl.storage_offset_.

(** ** native/Resize.h *)
Module Resize.

Definition checkInBoundsForStorage (size stride : list Z) (storage_offset : Z) (new_storage : Storage)
  : outcome unit :=
  storage_size ← computeStorageSize size stride;
  if storage_size =? 0 then Ok tt
  else AT_CHECK (add64 storage_offset storage_size <=? storage_numel new_storage)
         "setStorage: out of bounds for storage".

Definition setStrided (size stride : list Z) (storage_offset : Z) : SE Tensor unit :=
  self_ ← get;
  lift (checkInBoundsForStorage size stride storage_offset (TensorImpl.storage_ self_)) ≫= λ _,
  AT_CHECK (0 <=? storage_offset) "Tensor: invalid storage offset " ≫= λ _,
  TensorImpl.set_storage_offset storage_offset ≫= λ _,
  AT_ASSERT (length size =? length stride)%nat ≫= λ _,
  self_ ← get;
  if bool_decide (sizes self_ = size) && bool_decide (strides self_ = stride) then mret tt
  else TensorImpl.set_sizes_and_strides size stride.

End Resize.
Export Resize.

(** ** native/TensorShape.cpp *)
Module TensorShape.
Section WithIds.
Context `{TensorIds}.

Definition new_view (self : Tensor) (size stride : list Z) (offset : Z) : outcome Tensor :=
  result ← TensorImpl.TensorImpl_of_storage (TensorImpl.storage_ self) (TensorImpl.type_id_ self);
  match setStrided size stride offset result with
  | (Ok _, result) => Ok result
  | (Throw e, _) => Throw e
  end.

Definition as_strided_tensorimpl (self : Tensor) (size stride : list Z) (offset : option Z) : outcome Tensor :=
  let offset := default (storage_offset self) offset in
  let t := TensorImpl.type_id_ self in
  AT_CHECK ((t =? tid CPUTensorId) || (t =? tid CUDATensorId))
    "as_strided is only implemented for strided CPU, CUDA and QuantizedCPU tensors." ≫= λ _,
  new_view self size stride offset.

(** The quantizer goes along unchanged. *)
Definition as_strided_qtensorimpl (self : Tensor) (size stride : list Z) (offset : option Z) : outcome Tensor :=
  let offset := default (storage_offset self) offset in
  AT_CHECK (TensorImpl.type_id_ self =? tid QuantizedCPUTensorId)
    "as_strided is only implemented for strided CPU, CUDA and QuantizedCPU tensors." ≫= λ _,
  new_view self size stride offset.

(** The dispatch of [as_strided] in native_functions.yaml. *)
Definition as_strided (self : Tensor) (size stride : list Z) (offset : option Z) : outcome Tensor :=
  if TensorImpl.type_id_ self =? tid QuantizedCPUTensorId
  then as_strided_qtensorimpl self size stride offset
  else as_strided_tensorimpl self size stride offset.

Definition as_strided_ (size stride : list Z) (offset : option Z) : SE Tensor unit :=
  self ← get; setStrided size stride (default (storage_offset self) offset).

Abbreviation dim := TensorImpl.dim.
Abbreviation size_at := TensorImpl.size.
Abbreviation stride_at := TensorImpl.stride.

Definition expand (self : Tensor) (size : list Z) : outcome Tensor :=
  AT_CHECK (dim self <=? vec_size size)
    "expand: the number of sizes provided must be greater or equal to the number of dimensions" ≫= λ _,
  '(expandedSizes, expandedStrides) ← inferExpandGeometry (sizes self) (strides self) size;
  as_strided self expandedSizes expandedStrides None.

Definition expand_as (self other : Tensor) : outcome Tensor := expand self (sizes other).

(** [v.erase(v.begin() + i)] and [v.insert(v.begin() + i, x)]. *)
Definition vec_erase (v : list Z) (i : Z) : outcome (list Z) :=
  if decide (0 ≤ i < vec_size v) then Ok (take (Z.to_nat i) v ++ drop (S (Z.to_nat i)) v)
  else Throw (Undefined "erase out of range").
Definition vec_insert (v : list Z) (i x : Z) : outcome (list Z) :=
  if decide (0 ≤ i ≤ vec_size v) then Ok (take (Z.to_nat i) v ++ x :: drop (Z.to_nat i) v)
  else Throw (Undefined "insert out of range").

Definition diagonal (self : Tensor) (offset dim1_ dim2_ : Z) : outcome Tensor :=
  let nDims := dim self in
  dim1 ← maybe_wrap_dim dim1_ nDims true;
  dim2 ← maybe_wrap_dim dim2_ nDims true;
  AT_CHECK (negb (dim1 =? dim2)) "diagonal dimensions cannot be identical " ≫= λ _,
  s1 ← size_at self dim1;
  s2 ← size_at self dim2;
  let diag_size := if 0 <=? offset then Z.max (Z.min s1 (sub64 s2 offset)) 0
                   else Z.max (Z.min (add64 s1 offset) s2) 0 in
  st1 ← stride_at self dim1;
  st2 ← stride_at self dim2;
  let so := storage_offset self in
  let so := if diag_size =? 0 then so
            else if 0 <=? offset then add64 so (mul64 offset st2)
            else sub64 so (mul64 offset st1) in
  sz ← vec_erase (sizes self) (Z.max dim1 dim2);
  st ← vec_erase (strides self) (Z.max dim1 dim2);
  sz ← vec_erase sz (Z.min dim1 dim2);
  st ← vec_erase st (Z.min dim1 dim2);
  as_strided self (sz ++ [diag_size]) (st ++ [add64 st1 st2]) (Some so).

Definition select (self : Tensor) (d index : Z) : outcome Tensor :=
  let ndim := dim self in
  if ndim =? 0 then Throw (IndexError "select() cannot be applied to a 0-dim tensor.")
  else
  d ← maybe_wrap_dim d ndim true;
  size ← size_at self d;
  if (index <? - size) || (index >=? size) then Throw (IndexError "select(): index out of range")
  else
  let index := if index <? 0 then index + size else index in
  st ← vec_get (strides self) d;
  let so := add64 (storage_offset self) (mul64 index st) in
  sz ← vec_erase (sizes self) d;
  st ← vec_erase (strides self) d;
  as_strided self sz st (Some so).

(** The clamping of [start] and [end]. *)
Definition slice_bounds (size start end_ : Z) : Z * Z :=
  let start := if start <? 0 then add64 start size else start in
  let end_ := if end_ <? 0 then add64 end_ size else end_ in
  let start := if start <? 0 then 0 else if start >=? size then size else start in
  let end_ := if end_ <? start then start else if end_ >=? size then size else end_ in
  (start, end_).

Definition slice (self : Tensor) (d start end_ step : Z) : outcome Tensor :=
  let ndim := dim self in
  if ndim =? 0 then Throw (IndexError "slice() cannot be applied to a 0-dim tensor.")
  else
  d ← maybe_wrap_dim d ndim true;
  AT_CHECK (0 <? step) "slice step must be positive" ≫= λ _,
  size ← vec_get (sizes self) d;
  let '(start, end_) := slice_bounds size start end_ in
  st ← vec_get (strides self) d;
  let so := add64 (storage_offset self) (mul64 start st) in
  let len := sub64 end_ start in
  sz ← vec_set (sizes self) d (Z.quot (sub64 (add64 len step) 1) step);
  sts ← vec_set (strides self) d (mul64 st step);
  as_strided self sz sts (Some so).

Definition narrow (self : Tensor) (d start length : Z) : outcome Tensor :=
  AT_CHECK (0 <? dim self) "narrow() cannot be applied to a 0-dim tensor." ≫= λ _,
  cur_size ← size_at self d;
  start ← (if negb (start =? cur_size) then maybe_wrap_dim start cur_size true else Ok start);
  AT_CHECK ((0 <=? length) && (start <=? sub64 cur_size length)) "start + length exceeds dimension size" ≫= λ _,
  slice self d start (add64 start length) 1.

Definition permute_step (self : Tensor) (dims : list Z) (i : nat)
  (st : list Z * list Z * list bool) : outcome (list Z * list Z * list bool) :=
  let '(newSizes, newStrides, seen) := st in
  d ← vec_get dims (Z.of_nat i);
  d ← maybe_wrap_dim d (dim self) true;
  s ← vec_get seen d;
  AT_CHECK (negb s) "repeated dim in permute" ≫= λ _,
  seen ← vec_set seen d true;
  sz ← vec_get (sizes self) d;
  newSizes ← vec_set newSizes (Z.of_nat i) sz;
  st ← vec_get (strides self) d;
  newStrides ← vec_set newStrides (Z.of_nat i) st;
  Ok (newSizes, newStrides, seen).

Definition permute (self : Tensor) (dims : list Z) : outcome Tensor :=
  let nDims := length (sizes self) in
  AT_CHECK (length dims =? nDims)%nat "number of dims don't match in permute" ≫= λ _,
  '(newSizes, newStrides, _) ← for_up nDims (permute_step self dims)
     (replicate nDims 0, replicate nDims 0, replicate nDims false);
  as_strided self newSizes newStrides None.

(** [std::swap(v[i], v[j])]. *)
Definition swap (v : list Z) (i j : Z) : outcome (list Z) :=
  x ← vec_get v i; y ← vec_get v j; v ← vec_set v i y; vec_set v j x.

(** [transpose] of a strided tensor; the sparse branch rewrites indices and is not
    a view. *)
Definition transpose (self : Tensor) (dim0 dim1 : Z) : outcome Tensor :=
  let ndims := dim self in
  dim0 ← maybe_wrap_dim dim0 ndims true;
  dim1 ← maybe_wrap_dim dim1 ndims true;
  if dim0 =? dim1 then Ok self
  else
  st ← swap (strides self) dim0 dim1;
  sz ← swap (sizes self) dim0 dim1;
  as_strided self sz st None.

Definition transpose_ (dim0 dim1 : Z) : SE Tensor unit :=
  self ← get;
  let ndims := dim self in
  dim0 ← lift (maybe_wrap_dim dim0 ndims true);
  dim1 ← lift (maybe_wrap_dim dim1 ndims true);
  if dim0 =? dim1 then mret tt
  else
  st ← lift (swap (strides self) dim0 dim1);
  sz ← lift (swap (sizes self) dim0 dim1);
  as_strided_ sz st None.

Definition t (self : Tensor) : outcome Tensor :=
  AT_CHECK (dim self <=? 2) "t() expects a tensor with <= 2 dimensions" ≫= λ _,
  transpose self 0 (if dim self <? 2 then 0 else 1).

(** The dimensions that are kept, in order. *)
Definition squeeze_kept (self : Tensor) (keep : nat → Z → bool) : outcome (list Z * list Z) :=
  for_up (length (sizes self)) (λ d acc,
    s ← vec_get (sizes self) (Z.of_nat d);
    if keep d s then
      st ← vec_get (strides self) (Z.of_nat d);
      Ok (acc.1 ++ [s], acc.2 ++ [st])
    else Ok acc) ([], []).

Definition inferSqueezeGeometry (self : Tensor) : outcome (list Z * list Z) :=
  squeeze_kept self (λ _ s, negb (s =? 1)).

Definition inferSqueezeGeometry_dim (self : Tensor) (d : Z) : outcome (list Z * list Z) :=
  squeeze_kept self (λ i s, negb (Z.of_nat i =? d) || negb (s =? 1)).

Definition inferUnsqueezeGeometry (self : Tensor) (d : Z) : outcome (list Z * list Z) :=
  new_stride ← (if d >=? dim self then Ok 1
                else s ← vec_get (sizes self) d; st ← vec_get (strides self) d; Ok (mul64 s st));
  sz ← vec_insert (sizes self) d 1;
  st ← vec_insert (strides self) d new_stride;
  Ok (sz, st).

Definition squeeze (self : Tensor) : outcome Tensor :=
  '(sz, st) ← inferSqueezeGeometry self; as_strided self sz st None.

Definition squeeze_dim (self : Tensor) (d : Z) : outcome Tensor :=
  let dims := dim self in
  d ← maybe_wrap_dim d dims true;
  keep ← (if dims =? 0 then Ok true else s ← vec_get (sizes self) d; Ok (negb (s =? 1)));
  if keep : bool then as_strided self (sizes self) (strides self) None
  else '(sz, st) ← inferSqueezeGeometry_dim self d; as_strided self sz st None.

Definition unsqueeze (self : Tensor) (d : Z) : outcome Tensor :=
  d ← maybe_wrap_dim d (dim self + 1) true;
  '(sz, st) ← inferUnsqueezeGeometry self d;
  as_strided self sz st None.

Definition split (self : Tensor) (split_size d : Z) : outcome (list Tensor) :=
  AT_CHECK (negb (dim self =? 0)) "split expects at least a 1-dimensional tensor" ≫= λ _,
  AT_CHECK (0 <=? split_size) "split expects split_size be non-negative" ≫= λ _,
  dim_size ← size_at self d;
  AT_CHECK ((0 <? split_size) || (dim_size =? 0)) "split_size can only be 0 if dimension size is 0" ≫= λ _,
  let num_splits := if negb (split_size =? 0)
                    then Z.max (Z.quot (sub64 (add64 dim_size split_size) 1) split_size) 1 else 1 in
  let last_split_size := sub64 split_size (sub64 (mul64 split_size num_splits) dim_size) in
  for_up (Z.to_nat num_splits) (λ i splits,
    let length := if Z.of_nat i <? num_splits - 1 then split_size else last_split_size in
    p ← narrow self d (mul64 (Z.of_nat i) split_size) length;
    Ok (splits ++ [p])) [].

Definition split_with_sizes (self : Tensor) (split_sizes : list Z) (d : Z) : outcome (list Tensor) :=
  AT_CHECK (negb (dim self =? 0)) "split expects at least a 1-dimensional tensor" ≫= λ _,
  dim_size ← size_at self d;
  '(splits, start_idx) ← for_in split_sizes (λ length st,
    AT_CHECK (0 <=? length) "split_with_sizes expects split_sizes have only non-negative entries" ≫= λ _,
    p ← narrow self d st.2 length;
    Ok (st.1 ++ [p], add64 st.2 length)) ([], 0);
  AT_CHECK (start_idx =? dim_size) "split_with_sizes expects split_sizes to sum exactly" ≫= λ _,
  Ok splits.

Definition chunk (self : Tensor) (chunks d : Z) : outcome (list Tensor) :=
  AT_CHECK (0 <? dim self) "chunk expects at least a 1-dimensional tensor" ≫= λ _,
  AT_CHECK (0 <? chunks) "chunk expects `chunks` to be greater than 0" ≫= λ _,
  s ← size_at self d;
  let split_size := Z.quot (sub64 (add64 s chunks) 1) chunks in
  if (split_size =? 0) && (s =? 0) then
    split_sizes ← vec_set (replicate (Z.to_nat chunks) split_size) (chunks - 1)
                    (sub64 split_size (sub64 (mul64 split_size chunks) s));
    split_with_sizes self split_sizes d
  else split self split_size d.

Definition unbind (self : Tensor) (d : Z) : outcome (list Tensor) :=
  d ← maybe_wrap_dim d (dim self) true;
  size ← size_at self d;
  for_up (Z.to_nat size) (λ i tensors, p ← select self d (Z.of_nat i); Ok (tensors ++ [p])) [].

End WithIds.

(** [sizes_match_except]: the comparison [cat] makes. *)
Definition sizes_match_except (s1 s2 : list Z) (dim_except : Z) : outcome bool :=
  if negb (length s1 =? length s2)%nat then Ok false
  else Ok (forallb (λ p, (Z.of_nat p.1 =? dim_except) || (p.2.1 =? p.2.2)) (imap pair (zip s1 s2))).

End TensorShape.
Export TensorShape.
