(* ===== verification/ViewsSpec.v ===== *)
(** * What views guarantee

    [position t idx] is the place of an element in the storage.  A tensor is
    [placed] when its sizes are not negative and all its elements lie inside the
    storage.  Every view operation on a placed tensor returns a placed tensor, and
    each of its elements is the element of the source that the operation's index
    map names. *)
From S2P Require Import Prelude CoreTypes ScalarTypes TensorIds Options Geometry Strides TensorImpl Views.
Local Open Scope Z_scope.

Section WithIds.
Context `{ids : TensorIds}.

Definition position (t : Tensor) (idx : list Z) : Z := storage_offset t + offset (strides t) idx.

Definition nonneg (sz : list Z) : Prop := ∀ k, (k < length sz)%nat → 0 ≤ dimr sz k.
Definition nonempty (sz : list Z) : Prop := ∀ k, (k < length sz)%nat → 0 < dimr sz k.

(** A stride matters only where the size is 2 or more, and in a tensor that has
    elements. *)
Definition strides_ok (sz st : list Z) : Prop :=
  nonempty sz → ∀ k, (k < length sz)%nat → dimr sz k ≤ 1 ∨ 0 ≤ dimr st k.

Lemma in_range_nonempty sz idx : in_range sz idx → nonempty sz.
Proof. intros Hr. apply in_range_dimr in Hr as [_ Hr]. intros k Hk. specialize (Hr k Hk). lia. Qed.

Definition strided (t : Tensor) : Prop :=
  TensorImpl.type_id_ t = tid CPUTensorId ∨ TensorImpl.type_id_ t = tid CUDATensorId ∨
  TensorImpl.type_id_ t = tid QuantizedCPUTensorId.

Record placed (t : Tensor) : Prop := {
  placed_length : length (strides t) = length (sizes t);
  placed_sizes : nonneg (sizes t);
  placed_strides : strides_ok (sizes t) (strides t);
  placed_offset : 0 ≤ storage_offset t;
  placed_storage : 0 ≤ storage_numel (TensorImpl.storage_ t) < 2 ^ 63;
  placed_inside : nonempty (sizes t) →
    storage_offset t + extent (sizes t) (strides t) ≤ storage_numel (TensorImpl.storage_ t);
  placed_type : strided t
}.

(** The bound of [offset_extent] for strides that matter. *)
Lemma offset_extent_ok sz st idx :
  length st = length sz → strides_ok sz st → in_range sz idx → 0 ≤ offset st idx < extent sz st.
Proof.
  intros Hl Hst Hr. specialize (Hst (in_range_nonempty _ _ Hr)).
  apply in_range_dimr in Hr as [Hli Hr].
  rewrite offset_sumf by lia. rewrite Hl. unfold extent.
  clear Hl Hli. induction (length sz) as [|n IH]; cbn; [lia|].
  pose proof (IH ltac:(intros; apply Hst; lia) ltac:(intros; apply Hr; lia)).
  pose proof (Hr n ltac:(lia)). destruct (Hst n ltac:(lia)); [|nia].
  replace (dimr idx n) with 0 by lia. replace (dimr sz n) with 1 by lia. lia.
Qed.

(** Every element of a placed tensor is inside its storage. *)
Lemma placed_position t idx :
  placed t → in_range (sizes t) idx →
  0 ≤ position t idx < storage_numel (TensorImpl.storage_ t).
Proof.
  intros Hp Hr. pose proof (offset_extent_ok _ _ _ (placed_length _ Hp) (placed_strides _ Hp) Hr).
  pose proof (placed_inside _ Hp (in_range_nonempty _ _ Hr)). pose proof (placed_offset _ Hp). unfold position. lia.
Qed.

Lemma existsb_zero sz : existsb (Z.eqb 0) sz = true ↔ 0 ∈ sz.
Proof.
  rewrite existsb_exists. split.
  - intros (x & Hx & E). apply Z.eqb_eq in E as <-. by apply list_elem_of_In.
  - intros Hx. exists 0. split; [by apply list_elem_of_In|done].
Qed.

Lemma nonneg_zero sz : nonneg sz → existsb (Z.eqb 0) sz = false ↔ nonempty sz.
Proof.
  intros Hn. rewrite <- not_true_iff_false, existsb_zero. split.
  - intros Hz k Hk. pose proof (Hn k Hk). destruct (decide (dimr sz k = 0)) as [E|]; [|lia].
    exfalso. apply Hz. pose proof (dimr_lookup sz k Hk) as E'. rewrite E in E'.
    by eapply list_elem_of_lookup_2.
  - intros Hp Hz. apply list_elem_of_lookup in Hz as [i Hi].
    pose proof (lookup_lt_Some _ _ _ Hi). pose proof (dimr_of_lookup _ _ _ Hi) as E.
    pose proof (Hp (length sz - 1 - i)%nat ltac:(lia)). lia.
Qed.

(** [setStrided] checks exactly what makes the elements lie in the storage. *)
Lemma bounds_check sz st off s :
  length st = length sz → nonneg sz → 0 ≤ off → 0 ≤ storage_numel s < 2 ^ 63 →
  (nonempty sz → off + extent sz st ≤ storage_numel s ∧ 0 ≤ extent sz st) →
  checkInBoundsForStorage sz st off s = Ok tt.
Proof.
  intros Hl Hn Ho Hs Hin. unfold checkInBoundsForStorage.
  rewrite computeStorageSize_spec, Ok_bind by done.
  destruct (existsb _ sz) eqn:E; [done|]. apply nonneg_zero in E; [|done].
  destruct (Hin E) as [H1 H2].
  assert (Hr : in_S 64 (extent sz st)) by (unfold in_S; change (2 ^ (64 - 1)) with (2 ^ 63); lia).
  rewrite int64_id by done. case_match; [done|].
  rewrite add64_exact by (unfold in_S; change (2 ^ (64 - 1)) with (2 ^ 63); lia).
  rewrite (proj2 (Z.leb_le _ _)) by done. done.
Qed.

(** The offset does not see the strides of dimensions of size 1. *)
Lemma offset_agree sz st st' idx :
  length st = length sz → length st' = length sz →
  (∀ k, (k < length sz)%nat → dimr sz k ≤ 1 ∨ dimr st k = dimr st' k) →
  in_range sz idx → offset st idx = offset st' idx.
Proof.
  intros Hl Hl' Hk Hr. apply in_range_dimr in Hr as [Hli Hr].
  rewrite !offset_sumf by lia. rewrite Hl, Hl'. apply sumf_ext. intros k Hkl.
  specialize (Hr k Hkl). destruct (Hk k Hkl) as [|E]; [|by rewrite E].
  replace (dimr idx k) with 0 by lia. lia.
Qed.

Lemma extent_agree sz st st' :
  nonempty sz → (∀ k, (k < length sz)%nat → dimr sz k ≤ 1 ∨ dimr st k = dimr st' k) →
  extent sz st = extent sz st'.
Proof.
  intros Hp Hk. unfold extent. f_equal. apply sumf_ext. intros k Hkl. specialize (Hp k Hkl).
  destruct (Hk k Hkl) as [|E]; [|by rewrite E]. replace (dimr sz k) with 1 by lia. lia.
Qed.

(** What [as_strided] returns when the checks pass. *)
Record view_of (self : Tensor) (sz st : list Z) (off : Z) (r : Tensor) : Prop := {
  view_sizes : sizes r = sz;
  view_offset : storage_offset r = off;
  view_storage : TensorImpl.storage_ r = TensorImpl.storage_ self;
  view_type : TensorImpl.type_id_ r = TensorImpl.type_id_ self;
  view_length : length (strides r) = length sz;
  view_strides k : (k < length sz)%nat → 0 ≤ dimr st k → dimr (strides r) k = dimr st k;
  view_good : TensorImpl.good r
}.

Lemma new_view_Ok self sz st off :
  length st = length sz → 0 ≤ off →
  checkInBoundsForStorage sz st off (TensorImpl.storage_ self) = Ok tt →
  ∃ r, new_view self sz st off = Ok r ∧ view_of self sz st off r.
Proof.
  intros Hl Ho Hc. unfold new_view, TensorImpl.TensorImpl_of_storage, TensorImpl.TensorImpl_new.
  unfold AT_ASSERT at 1. rewrite AT_CHECK_bind_true by (by rewrite orb_true_r). rewrite Ok_bind.
  set (t0 := TensorImpl.mkTensorImpl _ _ _ _ _ _ _ _ _ _ _ _ _).
  assert (E : setStrided sz st off t0 =
    (if bool_decide ([0] = sz) && bool_decide ([1] = st) then mret tt
     else TensorImpl.set_sizes_and_strides sz st) (TensorImpl.with_offset off t0)).
  { unfold setStrided, mbind, SE_bind, get, lift. change (TensorImpl.storage_ t0) with (TensorImpl.storage_ self).
    rewrite Hc. unfold AT_CHECK at 1. rewrite (proj2 (Z.leb_le _ _)) by done. cbn.
    rewrite (proj2 (Nat.eqb_eq _ _)) by done. done. }
  rewrite E. assert (Hg : TensorImpl.good t0) by done.
  case_match eqn:Eb.
  - apply andb_true_iff in Eb as [E1 E2]. apply bool_decide_eq_true in E1, E2. subst sz st.
    eexists. split; [done|]. split; [done..|]. by apply TensorImpl.good_offset.
  - destruct (TensorImpl.set_sizes_and_strides_Ok (TensorImpl.with_offset off t0) sz st)
      as (v & -> & Hlv & Hk); [done..|].
    eexists. split; [done|]. split; [done..| |].
    + intros k Hkl Hst. change (dimr v k = dimr st k). rewrite Hk by done.
      unfold TensorImpl.stored_stride. by rewrite (proj2 (Z.leb_le _ _)).
    + by apply TensorImpl.good_refreshed.
Qed.

Lemma as_strided_new_view self sz st off :
  strided self → as_strided self sz st off = new_view self sz st (default (storage_offset self) off).
Proof.
  intros Ht. unfold as_strided. destruct (Z.eqb_spec (TensorImpl.type_id_ self) (tid QuantizedCPUTensorId)) as [E|E].
  - unfold as_strided_qtensorimpl. rewrite AT_CHECK_bind_true; [done|]. by apply Z.eqb_eq.
  - unfold as_strided_tensorimpl. rewrite AT_CHECK_bind_true; [done|]. apply orb_true_iff.
    rewrite !Z.eqb_eq. destruct Ht as [|[]]; tauto.
Qed.

(** The one lemma behind every view: an index map into the source is enough. *)
Lemma as_strided_view self sz st off (src : list Z → list Z) :
  placed self → length st = length sz → nonneg sz → strides_ok sz st →
  0 ≤ default (storage_offset self) off →
  (∀ idx, in_range sz idx → in_range (sizes self) (src idx) ∧
     default (storage_offset self) off + offset st idx = position self (src idx)) →
  ∃ r, as_strided self sz st off = Ok r ∧ placed r ∧ sizes r = sz ∧
       TensorImpl.storage_ r = TensorImpl.storage_ self ∧
       ∀ idx, in_range sz idx → position r idx = position self (src idx).
Proof.
  intros Hp Hl Hn Hst Ho Hmap. rewrite as_strided_new_view by apply Hp.
  set (o := default (storage_offset self) off) in *.
  assert (Hin : nonempty sz → o + extent sz st ≤ storage_numel (TensorImpl.storage_ self) ∧ 0 ≤ extent sz st).
  { intros Hne. destruct (offset_last sz st Hl Hne) as (last & Hr & E).
    destruct (Hmap last Hr) as [Hr' E']. pose proof (placed_position self _ Hp Hr').
    pose proof (offset_extent_ok sz st last Hl Hst Hr). lia. }
  destruct (new_view_Ok self sz st o Hl Ho) as (r & E & [V1 V2 V3 V4 V5 V6 V7]).
  { apply bounds_check; [done..|apply Hp|done]. }
  exists r. split; [done|].
  assert (Hag : nonempty sz → ∀ k, (k < length sz)%nat → dimr sz k ≤ 1 ∨ dimr (strides r) k = dimr st k).
  { intros Hne k Hk. destruct (Hst Hne k Hk); [by left|right]. by apply V6. }
  split; [|split; [done|split; [done|]]].
  - split; rewrite ?V1, ?V2, ?V3; [done..| |lia|apply Hp| |].
    + intros Hne k Hk. destruct (Hst Hne k Hk) as [|Hs]; [by left|right]. by rewrite V6.
    + intros Hne. rewrite (extent_agree _ _ _ Hne (Hag Hne)). by apply Hin.
    + unfold strided. rewrite V4. apply Hp.
  - intros idx Hr. destruct (Hmap idx Hr) as [_ <-]. unfold position. rewrite V2. f_equal.
    apply (offset_agree sz); [done|done|apply Hag; by eapply in_range_nonempty|done].
Qed.

(** *** [expand] *)
Lemma expand_strides_ok ts st size es est :
  length st = length ts → ts ≠ [] → strides_ok ts st → (length ts ≤ length size)%nat →
  inferExpandGeometry ts st size = Ok (es, est) → strides_ok es est.
Proof.
  intros Hl Hts Hok Hle E. pose proof (inferExpandGeometry_spec ts st size Hl Hts) as Hs.
  rewrite E in Hs. destruct Hs as (He & Hest & Hk).
  intros Hne k Hke. rewrite He in Hke. destruct (Hk k Hke) as ([Hd1 Hd2] & Ht & H0 & H1).
  destruct (decide (dimr ts k = dimr es k)) as [Eq|Eq]; [|right; by rewrite H0].
  destruct (decide (k < length ts)%nat) as [Hkt|Hkt].
  - rewrite H1 by done. rewrite <- Eq. apply Hok; [|done].
    intros j Hj. destruct (Hk j ltac:(lia)) as ([_ Hj2] & Htj & _ & _).
    specialize (Hne j ltac:(lia)). destruct Hj2 as [->|]; [by rewrite <- Htj|lia].
  - left. rewrite <- Eq. rewrite dimr_ge by lia. lia.
Qed.

Lemma expand_lemma self size :
  placed self → sizes self ≠ [] → (length (sizes self) ≤ length size)%nat →
  (∀ k, (k < length size)%nat → -1 ≤ dimr size k ∧ expandable_dim (sizes self) size k) →
  ∃ r, expand self size = Ok r ∧ placed r ∧
    length (sizes r) = length size ∧
    (∀ k, (k < length size)%nat → dimr (sizes r) k = target (sizes self) size k) ∧
    ∀ idx, in_range (sizes r) idx → position r idx = position self (source_index (sizes self) idx).
Proof.
  intros Hp Hne Hle Hk. unfold expand.
  rewrite AT_CHECK_bind_true by (apply Z.leb_le; unfold TensorImpl.dim, vec_size; lia).
  pose proof (inferExpandGeometry_spec (sizes self) (strides self) size (placed_length _ Hp) Hne) as Hs.
  destruct (inferExpandGeometry _ _ _) as [[es est]|e] eqn:E.
  2:{ destruct Hs as [_ (k & Hkl & Hbad)]. by destruct (Hk k Hkl). }
  destruct Hs as (He & Hest & Hdim). rewrite Ok_bind.
  destruct (as_strided_view self es est None (source_index (sizes self))) as (r & Er & Hr & Hsz & Hst & Hpos);
    [done|lia| | |apply Hp| |].
  - intros k Hke. destruct (Hdim k ltac:(lia)) as ([Hd1 Hd2] & Ht & _). rewrite Ht. unfold target.
    destruct (Hk k ltac:(lia)) as [Hm _]. destruct (Z.eqb_spec (dimr size k) (-1)) as [Em|]; [|lia].
    by apply (placed_sizes _ Hp), Hd1.
  - eapply expand_strides_ok; [apply Hp|done|apply Hp|done|done].
  - intros idx Hr. cbn. destruct (expand_view_lemma (sizes self) (strides self) size es est idx
      (placed_length _ Hp) Hne Hle E Hr) as [Hin Eo]. split; [done|]. unfold position. by rewrite Eo.
  - exists r. split; [done|split; [done|]]. rewrite Hsz. split; [done|split; [|done]].
    intros k Hke. by destruct (Hdim k Hke) as (_ & -> & _).
Qed.

(** *** Dimensions counted from the first *)
Lemma offset_app s1 s2 i1 i2 : length s1 = length i1 →
  offset (s1 ++ s2) (i1 ++ i2) = offset s1 i1 + offset s2 i2.
Proof.
  revert i1. induction s1 as [|s s1 IH]; intros [|i i1] Hl; try done.
  change (s * i + offset (s1 ++ s2) (i1 ++ i2) = s * i + offset s1 i1 + offset s2 i2).
  rewrite IH by (cbn in Hl; lia). lia.
Qed.

Lemma offset_cons s st i idx : offset (s :: st) (i :: idx) = s * i + offset st idx.
Proof. done. Qed.

(** A vector around its [d]-th entry. *)
Lemma split_at (v : list Z) d x : v !! d = Some x →
  v = take d v ++ x :: drop (S d) v ∧ length (take d v) = d.
Proof.
  intros E. split; [by rewrite take_drop_middle|].
  pose proof (lookup_lt_Some _ _ _ E). rewrite length_take. lia.
Qed.

Lemma insert_split (v : list Z) d x y : v !! d = Some x →
  <[d := y]> v = take d v ++ y :: drop (S d) v.
Proof. intros E. by apply insert_take_drop, (lookup_lt_Some _ _ x). Qed.

(** Changing the stride and the index of one dimension. *)
Lemma offset_update st idx d s i s' i' :
  length st = length idx → st !! d = Some s → idx !! d = Some i →
  offset (<[d := s']> st) (<[d := i']> idx) = offset st idx - s * i + s' * i'.
Proof.
  intros Hl Es Ei. rewrite (insert_split _ _ _ _ Es), (insert_split _ _ _ _ Ei).
  destruct (split_at _ _ _ Es) as [Hs Ls], (split_at _ _ _ Ei) as [Hi Li].
  rewrite Hs at 3. rewrite Hi at 3. rewrite !offset_app by congruence. rewrite !offset_cons. lia.
Qed.

Lemma in_range_lookup sz idx :
  in_range sz idx ↔ length idx = length sz ∧ ∀ d s i, sz !! d = Some s → idx !! d = Some i → 0 ≤ i < s.
Proof.
  unfold in_range. split.
  - intros H. split; [by eapply Forall2_length|]. intros d s i Es Ei.
    apply (Forall2_lookup_lr _ _ _ _ _ _ H Ei Es).
  - intros [Hl H]. apply Forall2_same_length_lookup_2; [done|]. intros d i s Ei Es. by eapply H.
Qed.

Lemma in_range_at sz idx d s : in_range sz idx → sz !! d = Some s → ∃ i, idx !! d = Some i ∧ 0 ≤ i < s.
Proof.
  intros Hr Es. apply in_range_lookup in Hr as [Hl Hr].
  destruct (lookup_lt_is_Some_2 idx d) as [i Ei]; [rewrite Hl; by eapply lookup_lt_Some|].
  exists i. split; [done|]. by eapply Hr.
Qed.

Lemma in_range_update sz idx d s s' i' :
  sz !! d = Some s → in_range (<[d := s']> sz) idx → 0 ≤ i' < s → in_range sz (<[d := i']> idx).
Proof.
  intros Es Hr Hi. apply in_range_lookup in Hr as [Hl Hr]. rewrite length_insert in Hl.
  apply in_range_lookup. rewrite length_insert. split; [done|]. intros e u j Eu Ej.
  rewrite list_lookup_insert in Ej. case_decide as Ed.
  - destruct Ed as [-> _]. by simplify_eq.
  - apply (Hr e); [|done]. rewrite list_lookup_insert_ne; [done|]. intros ->. apply Ed. split; [done|].
    rewrite Hl. by eapply lookup_lt_Some.
Qed.

Lemma nonneg_lookup sz : nonneg sz ↔ ∀ d s, sz !! d = Some s → 0 ≤ s.
Proof.
  split.
  - intros Hn d s E. pose proof (lookup_lt_Some _ _ _ E). rewrite <- (dimr_of_lookup _ _ _ E). apply Hn. lia.
  - intros Hn k Hk. eapply Hn. by apply dimr_lookup.
Qed.

Lemma nonempty_lookup sz : nonempty sz ↔ ∀ d s, sz !! d = Some s → 0 < s.
Proof.
  split.
  - intros Hn d s E. pose proof (lookup_lt_Some _ _ _ E). rewrite <- (dimr_of_lookup _ _ _ E). apply Hn. lia.
  - intros Hn k Hk. eapply Hn. by apply dimr_lookup.
Qed.

Lemma strides_ok_lookup sz st : length st = length sz →
  strides_ok sz st ↔
  (nonempty sz → ∀ d s x, sz !! d = Some s → st !! d = Some x → s ≤ 1 ∨ 0 ≤ x).
Proof.
  intros Hl. unfold strides_ok. split; intros Hok Hne.
  - intros d s x Es Ex. pose proof (lookup_lt_Some _ _ _ Es).
    pose proof (Hok Hne (length sz - 1 - d)%nat ltac:(lia)) as Hk.
    rewrite (dimr_of_lookup _ _ _ Es) in Hk. rewrite <- Hl in Hk. by rewrite (dimr_of_lookup _ _ _ Ex) in Hk.
  - intros k Hk. pose proof (dimr_lookup sz k Hk) as Es. pose proof (dimr_lookup st k ltac:(lia)) as Ex.
    rewrite Hl in Ex. by eapply Hok.
Qed.

(** The accessors at a wrapped dimension. *)
Lemma size_at_Ok t d s : sizes t !! d = Some s → TensorImpl.size t (Z.of_nat d) = Ok s.
Proof.
  intros E. pose proof (lookup_lt_Some _ _ _ E). unfold TensorImpl.size, TensorImpl.dim, vec_size.
  rewrite maybe_wrap_dim_nonneg by lia. rewrite Ok_bind. by apply vec_get_nat.
Qed.

Lemma wrapped_dim (t : Tensor) dm : 0 < TensorImpl.dim t → - TensorImpl.dim t ≤ dm < TensorImpl.dim t →
  ∃ d, maybe_wrap_dim dm (TensorImpl.dim t) true = Ok (Z.of_nat d) ∧ (d < length (sizes t))%nat ∧
       Z.of_nat d = dm mod TensorImpl.dim t.
Proof.
  intros Hn Hd. exists (Z.to_nat (dm mod TensorImpl.dim t)).
  pose proof (Z.mod_pos_bound dm (TensorImpl.dim t) Hn).
  rewrite maybe_wrap_dim_Ok by lia. rewrite Z2Nat.id by lia. unfold TensorImpl.dim, vec_size in *.
  split; [done|split; [lia|done]].
Qed.

(** *** [slice] *)

(** Python's clamping of a bound. *)
Definition clamp (size x : Z) : Z := Z.max 0 (Z.min size (if x <? 0 then x + size else x)).

Lemma slice_bounds_spec size start end_ :
  0 ≤ size < 2 ^ 63 → in_S 64 start → in_S 64 end_ →
  slice_bounds size start end_ = (clamp size start, Z.max (clamp size start) (clamp size end_)).
Proof.
  intros Hs Hst He. rewrite in_S64_iff in Hst, He. change (2 ^ 63) with 9223372036854775808 in Hs.
  unfold slice_bounds, clamp.
  assert (E : ∀ x, -9223372036854775808 ≤ x < 9223372036854775808 →
    (if x <? 0 then add64 x size else x) = if x <? 0 then x + size else x).
  { intros x Hx. destruct (Z.ltb_spec x 0); [|done]. apply add64_exact, in_S64_iff. lia. }
  rewrite !E by done. set (a := if start <? 0 then _ else _). set (b := if end_ <? 0 then _ else _).
  assert (Ea : (if a <? 0 then 0 else if a >=? size then size else a) = Z.max 0 (Z.min size a)).
  { rewrite Z.geb_leb. destruct (Z.ltb_spec a 0), (Z.leb_spec size a); lia. }
  rewrite Ea. f_equal. rewrite Z.geb_leb.
  destruct (Z.ltb_spec b (Z.max 0 (Z.min size a))), (Z.leb_spec size b); lia.
Qed.

(** The number of steps from [s] to [e]. *)
Definition slice_len (s e step : Z) : Z := (e - s + step - 1) / step.

Lemma slice_len_spec s e step i :
  s ≤ e → 0 < step → 0 ≤ i → i < slice_len s e step ↔ s + i * step < e.
Proof.
  intros He Hp Hi. unfold slice_len. pose proof (Z.div_mod (e - s + step - 1) step).
  pose proof (Z.mod_pos_bound (e - s + step - 1) step Hp). split; intros; nia.
Qed.

Lemma offset_zeros st n : offset st (replicate n 0) = 0.
Proof. revert st. induction n as [|n IH]; intros [|s st]; try done.
  change (s * 0 + offset st (replicate n 0) = 0). rewrite IH. lia.
Qed.

(** In a tensor that has elements, the steps along a dimension stay representable. *)
Lemma stride_bound self d n x j :
  placed self → nonempty (sizes self) → sizes self !! d = Some n → strides self !! d = Some x →
  2 ≤ n → 0 ≤ j < n → 0 ≤ x ∧ x * j < 2 ^ 63.
Proof.
  intros Hp Hne En Ex Hn Hj.
  assert (Hx : 0 ≤ x).
  { destruct (proj1 (strides_ok_lookup _ _ (placed_length _ Hp)) (placed_strides _ Hp) Hne d n x En Ex); lia. }
  split; [done|]. set (zs := replicate (length (sizes self)) 0).
  assert (Hz : in_range (sizes self) (<[d := j]> zs)).
  { apply (in_range_update _ _ d n n); [done| |done]. rewrite list_insert_id by done.
    apply in_range_lookup. unfold zs. rewrite length_replicate. split; [done|].
    intros e u k Eu Ek. apply lookup_replicate in Ek as [-> _].
    split; [done|]. by eapply (proj1 (nonempty_lookup _) Hne). }
  pose proof (placed_position _ _ Hp Hz) as Hpos. unfold position in Hpos.
  pose proof (placed_offset _ Hp). pose proof (placed_storage _ Hp).
  pose proof (lookup_lt_Some _ _ _ En).
  pose proof (offset_update (strides self) zs d x 0 x j) as Eo.
  rewrite (list_insert_id (strides self)) in Eo by done. unfold zs in *.
  rewrite Eo in Hpos; [|by rewrite length_replicate, (placed_length _ Hp)|done|by apply lookup_replicate_2].
  rewrite offset_zeros in Hpos. lia.
Qed.

Definition slice_index (d : nat) (s step : Z) (idx : list Z) : list Z :=
  <[d := s + default 0 (idx !! d) * step]> idx.

(** The strides a slice stores are right wherever they are used. *)
Lemma slice_stride self d n x s e step :
  placed self → sizes self !! d = Some n → strides self !! d = Some x →
  0 ≤ s ≤ e → e ≤ n → 0 < step →
  nonempty (<[d := slice_len s e step]> (sizes self)) →
  slice_len s e step ≤ 1 ∨ (0 ≤ x ∧ mul64 x step = x * step).
Proof.
  intros Hp En Ex Hs He Hst Hne. destruct (Z.le_gt_cases (slice_len s e step) 1) as [|Hlen]; [by left|right].
  pose proof (proj1 (slice_len_spec s e step 1 ltac:(lia) Hst ltac:(lia)) Hlen).
  assert (Hold : nonempty (sizes self)).
  { apply nonempty_lookup. intros k u Eu. destruct (decide (k = d)) as [->|Hk].
    - simplify_eq. lia.
    - apply (proj1 (nonempty_lookup _) Hne k). by rewrite list_lookup_insert_ne. }
  destruct (stride_bound self d n x step Hp Hold En Ex) as [Hx Hb]; [lia|lia|].
  split; [done|]. apply mul64_exact, in_S64_iff. change (2 ^ 63) with 9223372036854775808 in Hb. nia.
Qed.

Lemma slice_lemma self dm d n x start end_ step :
  let s := clamp n start in
  let e := Z.max s (clamp n end_) in
  placed self → - TensorImpl.dim self ≤ dm < TensorImpl.dim self →
  Z.of_nat d = dm mod TensorImpl.dim self →
  sizes self !! d = Some n → strides self !! d = Some x →
  in_S 64 start → in_S 64 end_ → 0 < step → n + step < 2 ^ 63 →
  0 ≤ storage_offset self + s * x < 2 ^ 63 →
  ∃ r, slice self dm start end_ step = Ok r ∧ placed r ∧
    sizes r = <[d := slice_len s e step]> (sizes self) ∧
    TensorImpl.storage_ r = TensorImpl.storage_ self ∧
    ∀ idx, in_range (sizes r) idx → position r idx = position self (slice_index d s step idx).
Proof.
  intros s e Hp Hdm Hd En Ex Hs He Hst Hns Hoff.
  pose proof (lookup_lt_Some _ _ _ En) as Hdl.
  assert (Hn : 0 ≤ n) by (eapply (proj1 (nonneg_lookup _) (placed_sizes _ Hp)); done).
  assert (Hdim : 0 < TensorImpl.dim self) by (unfold TensorImpl.dim, vec_size; lia).
  destruct (wrapped_dim self dm Hdim Hdm) as (d' & Ew & _ & Ed').
  assert (d' = d) as -> by lia. clear Ed'.
  assert (Hse : 0 ≤ s ≤ e ∧ e ≤ n) by (unfold e, s, clamp; lia). destruct Hse as [Hse Hen].
  unfold slice. rewrite (proj2 (Z.eqb_neq _ _)) by lia. rewrite Ew, Ok_bind.
  rewrite AT_CHECK_bind_true by (by apply Z.ltb_lt).
  rewrite (vec_get_nat _ _ _ En), Ok_bind. rewrite slice_bounds_spec by (done || lia).
  fold s. fold e. rewrite (vec_get_nat _ _ _ Ex), Ok_bind.
  rewrite (vec_set_nat (sizes self)), Ok_bind by done.
  rewrite (vec_set_nat (strides self)), Ok_bind by (by rewrite (placed_length _ Hp)).
  change (2 ^ 63) with 9223372036854775808 in *.
  rewrite add64_mul64, int64_id by (apply in_S64_iff; lia).
  rewrite (sub64_exact e s) by (apply in_S64_iff; lia).
  rewrite add64_exact by (apply in_S64_iff; lia).
  rewrite sub64_exact by (apply in_S64_iff; lia).
  rewrite Z.quot_div_nonneg by lia. fold (slice_len s e step).
  assert (Hlen : 0 ≤ slice_len s e step) by (apply Z.div_pos; lia).
  destruct (as_strided_view self (<[d := slice_len s e step]> (sizes self))
    (<[d := mul64 x step]> (strides self)) (Some (storage_offset self + s * x)) (slice_index d s step))
    as (r & Er & Hr & Hsz & Hsto & Hpos); [done| | | | | |].
  6:{ exists r. split; [exact Er|]. rewrite Hsz. done. }
  - by rewrite !length_insert, (placed_length _ Hp).
  - apply nonneg_lookup. intros k u. rewrite list_lookup_insert. case_decide as Ek.
    + intros [= <-]. done.
    + apply (proj1 (nonneg_lookup _) (placed_sizes _ Hp)).
  - apply strides_ok_lookup; [by rewrite !length_insert, (placed_length _ Hp)|].
    intros Hne k u y. pose proof (slice_stride self d n x s e step Hp En Ex Hse Hen Hst Hne) as Hstr.
    destruct (decide (k = d)) as [->|Hk].
    + rewrite !list_lookup_insert_eq by (rewrite ?(placed_length _ Hp); done). intros Eu Ey.
      simplify_eq. destruct Hstr as [|[Hx ->]]; [by left|right; nia].
    + rewrite !list_lookup_insert_ne by done. intros Eu Ey.
      eapply (proj1 (strides_ok_lookup _ _ (placed_length _ Hp)) (placed_strides _ Hp)); [|done..].
      apply nonempty_lookup. intros j w Ew'. destruct (decide (j = d)) as [->|Hj].
      * simplify_eq. pose proof (proj1 (nonempty_lookup _) Hne d (slice_len s e step)) as Hl.
        rewrite list_lookup_insert_eq in Hl by done. specialize (Hl eq_refl).
        pose proof (proj1 (slice_len_spec s e step 0 ltac:(lia) Hst ltac:(lia)) Hl). lia.
      * apply (proj1 (nonempty_lookup _) Hne j). by rewrite list_lookup_insert_ne.
  - cbn. lia.
  - intros idx Hidx. cbn.
    destruct (in_range_at _ idx d (slice_len s e step) Hidx) as (i & Ei & Hi);
      [by apply list_lookup_insert_eq|].
    pose proof (proj1 (slice_len_spec s e step i ltac:(lia) Hst ltac:(lia)) ltac:(lia)) as Hle.
    unfold slice_index. rewrite Ei; cbn. split.
    + apply (in_range_update _ _ d n (slice_len s e step)); [done|done|nia].
    + unfold position. pose proof (proj1 (in_range_lookup _ _) Hidx) as [Hli _]. rewrite length_insert in Hli.
      pose proof (offset_update (strides self) idx d x i x (s + i * step)) as E1.
      pose proof (offset_update (strides self) idx d x i (mul64 x step) i) as E2.
      rewrite (list_insert_id (strides self)) in E1 by done. rewrite (list_insert_id idx) in E2 by done.
      rewrite E1, E2 by (rewrite ?(placed_length _ Hp); done).
      destruct (slice_stride self d n x s e step Hp En Ex Hse Hen Hst) as [|[_ ->]];
        [by eapply in_range_nonempty| |lia].
      assert (i = 0) as -> by lia. lia.
Qed.

(** *** [select] *)

(** The index with a new entry at [d], and the one without its [d]-th entry. *)
Definition insert_index (d : nat) (i : Z) (idx : list Z) : list Z := take d idx ++ i :: drop d idx.

Lemma vec_erase_Ok (v : list Z) d x : v !! d = Some x → vec_erase v (Z.of_nat d) = Ok (delete d v).
Proof.
  intros E. pose proof (lookup_lt_Some _ _ _ E). unfold vec_erase, vec_size.
  rewrite decide_True by lia. by rewrite Nat2Z.id, delete_take_drop.
Qed.

Lemma in_range_delete sz d n idx i :
  sz !! d = Some n → 0 ≤ i < n → in_range (delete d sz) idx → in_range sz (insert_index d i idx).
Proof.
  intros En Hi Hr. rewrite delete_take_drop in Hr. unfold in_range in *.
  apply Forall2_app_inv_r in Hr as (i1 & i2 & H1 & H2 & ->).
  destruct (split_at _ _ _ En) as [Es Ls]. pose proof (Forall2_length H1) as Hl1.
  rewrite Es. unfold insert_index. rewrite take_app_length', drop_app_length' by lia.
  apply Forall2_app; [done|]. by constructor.
Qed.

Lemma offset_delete st d x idx i :
  st !! d = Some x → length idx = length (delete d st) →
  offset (delete d st) idx + x * i = offset st (insert_index d i idx).
Proof.
  intros Ex Hl. rewrite delete_take_drop in *. destruct (split_at _ _ _ Ex) as [Es Ls].
  rewrite length_app in Hl.
  set (a := take d st) in *. set (b := drop (S d) st) in *. clearbody a b. subst st.
  unfold insert_index. rewrite <- (take_drop d idx) at 1.
  rewrite !offset_app by (rewrite length_take; lia). rewrite offset_cons. lia.
Qed.

Lemma nonempty_delete sz d n : sz !! d = Some n → 0 < n → nonempty (delete d sz) → nonempty sz.
Proof.
  intros En Hn Hne. apply nonempty_lookup. intros k u Eu. pose proof (proj1 (nonempty_lookup _) Hne) as Hk.
  destruct (lt_eq_lt_dec k d) as [[Hlt| ->]|Hgt].
  - apply (Hk k). by rewrite list_lookup_delete_lt.
  - by simplify_eq.
  - apply (Hk (k - 1)%nat). rewrite list_lookup_delete_ge by lia. by replace (S (k - 1)) with k by lia.
Qed.

Lemma select_lemma self dm d n x index :
  placed self → - TensorImpl.dim self ≤ dm < TensorImpl.dim self →
  Z.of_nat d = dm mod TensorImpl.dim self →
  sizes self !! d = Some n → strides self !! d = Some x →
  - n ≤ index < n → 0 ≤ storage_offset self + (index mod n) * x < 2 ^ 63 →
  ∃ r, select self dm index = Ok r ∧ placed r ∧ sizes r = delete d (sizes self) ∧
    TensorImpl.storage_ r = TensorImpl.storage_ self ∧
    ∀ idx, in_range (sizes r) idx → position r idx = position self (insert_index d (index mod n) idx).
Proof.
  intros Hp Hdm Hd En Ex Hi Hoff.
  pose proof (lookup_lt_Some _ _ _ En) as Hdl.
  assert (Hdim : 0 < TensorImpl.dim self) by (unfold TensorImpl.dim, vec_size; lia).
  destruct (wrapped_dim self dm Hdim Hdm) as (d' & Ew & _ & Ed').
  assert (d' = d) as -> by lia. clear Ed'.
  pose proof (Z.mod_pos_bound index n ltac:(lia)) as Hm.
  unfold select. rewrite (proj2 (Z.eqb_neq _ _)) by lia. rewrite Ew, Ok_bind.
  rewrite (size_at_Ok _ _ _ En), Ok_bind.
  replace ((index <? - n) || (index >=? n)) with false
    by (symmetry; apply orb_false_iff; rewrite Z.geb_leb, Z.ltb_ge, Z.leb_gt; lia).
  rewrite (vec_get_nat _ _ _ Ex), Ok_bind.
  rewrite (vec_erase_Ok _ _ _ En), (vec_erase_Ok _ _ _ Ex), !Ok_bind.
  replace (if index <? 0 then index + n else index) with (index mod n).
  2:{ destruct (Z.ltb_spec index 0); [symmetry; apply (Z.mod_unique _ _ (-1)); lia|apply Z.mod_small; lia]. }
  change (2 ^ 63) with 9223372036854775808 in *.
  rewrite add64_mul64, int64_id by (apply in_S64_iff; lia).
  assert (Hl : length (delete d (strides self)) = length (delete d (sizes self))).
  { rewrite !length_delete by eauto. by rewrite (placed_length _ Hp). }
  destruct (as_strided_view self (delete d (sizes self)) (delete d (strides self))
    (Some (storage_offset self + index mod n * x)) (insert_index d (index mod n)))
    as (r & Er & Hr & Hsz & Hsto & Hpos); [done|done| | | | |].
  5:{ exists r. split; [exact Er|]. rewrite Hsz. done. }
  - apply nonneg_lookup. intros k u. rewrite list_lookup_delete.
    apply (proj1 (nonneg_lookup _) (placed_sizes _ Hp)).
  - apply strides_ok_lookup; [done|]. intros Hne k u y. rewrite !list_lookup_delete.
    apply (proj1 (strides_ok_lookup _ _ (placed_length _ Hp)) (placed_strides _ Hp)).
    eapply nonempty_delete; [done|lia|done].
  - cbn. lia.
  - intros idx Hidx. cbn. split; [by eapply in_range_delete|]. unfold position.
    rewrite <- (offset_delete _ _ x); [lia|done|].
    pose proof (proj1 (in_range_lookup _ _) Hidx) as [Hli _]. lia.
Qed.

(** *** [narrow] and [split] *)
Lemma clamp_id n x : 0 ≤ x ≤ n → clamp n x = x.
Proof. intros. unfold clamp. rewrite (proj2 (Z.ltb_ge _ _)) by lia. lia. Qed.

Lemma slice_len_1 s e : slice_len s e 1 = e - s.
Proof. unfold slice_len. rewrite Z.div_1_r. lia. Qed.

Lemma narrow_lemma self dm d n x start len :
  placed self → - TensorImpl.dim self ≤ dm < TensorImpl.dim self →
  Z.of_nat d = dm mod TensorImpl.dim self →
  sizes self !! d = Some n → strides self !! d = Some x → n + 1 < 2 ^ 63 →
  0 ≤ start → 0 ≤ len → start + len ≤ n →
  0 ≤ storage_offset self + start * x < 2 ^ 63 →
  ∃ r, narrow self dm start len = Ok r ∧ placed r ∧ sizes r = <[d := len]> (sizes self) ∧
    TensorImpl.storage_ r = TensorImpl.storage_ self ∧
    ∀ idx, in_range (sizes r) idx → position r idx = position self (slice_index d start 1 idx).
Proof.
  intros Hp Hdm Hd En Ex Hn Hs Hl Hsl Hoff.
  pose proof (lookup_lt_Some _ _ _ En) as Hdl.
  assert (Hdim : 0 < TensorImpl.dim self) by (unfold TensorImpl.dim, vec_size; lia).
  destruct (wrapped_dim self dm Hdim Hdm) as (d' & Ew & _ & Ed').
  assert (d' = d) as -> by lia. clear Ed'.
  unfold narrow. rewrite AT_CHECK_bind_true by (by apply Z.ltb_lt).
  assert (Esz : TensorImpl.size self dm = Ok n).
  { unfold TensorImpl.size. rewrite maybe_wrap_dim_Ok, Ok_bind by lia. rewrite <- Hd.
    by apply vec_get_nat. }
  rewrite Esz, Ok_bind.
  assert (Est : (if negb (start =? n) then maybe_wrap_dim start n true else Ok start) = Ok start).
  { destruct (Z.eqb_spec start n); [done|]. apply maybe_wrap_dim_nonneg. lia. }
  rewrite Est, Ok_bind. change (2 ^ 63) with 9223372036854775808 in *.
  rewrite sub64_exact by (apply in_S64_iff; lia).
  rewrite AT_CHECK_bind_true by (rewrite andb_true_iff, !Z.leb_le; lia).
  rewrite add64_exact by (apply in_S64_iff; lia).
  pose proof (slice_lemma self dm d n x start (start + len) 1) as Hsl'.
  cbv zeta in Hsl'. rewrite !clamp_id in Hsl' by lia. rewrite Z.max_r, slice_len_1 in Hsl' by lia.
  replace (start + len - start) with len in Hsl' by lia.
  apply Hsl'; try done; try (apply in_S64_iff; lia); lia.
Qed.

(** The [i]-th of the pieces of [split_size] along dimension [d] of size [n]. *)
Definition piece (self : Tensor) (d : nat) (n split_size : Z) (i : nat) (p : Tensor) : Prop :=
  let start := Z.of_nat i * split_size in
  placed p ∧ sizes p = <[d := Z.min split_size (n - start)]> (sizes self) ∧
  TensorImpl.storage_ p = TensorImpl.storage_ self ∧
  ∀ idx, in_range (sizes p) idx → position p idx = position self (slice_index d start 1 idx).

Definition num_splits (n split_size : Z) : Z := Z.max ((n + split_size - 1) / split_size) 1.

Lemma num_splits_spec n s i : 0 ≤ n → 0 < s → 0 ≤ i →
  i < num_splits n s ↔ i = 0 ∨ i * s < n.
Proof.
  intros Hn Hs Hi. unfold num_splits. pose proof (Z.div_mod (n + s - 1) s).
  pose proof (Z.mod_pos_bound (n + s - 1) s Hs). split; intros; nia.
Qed.

Lemma split_lemma self dm d n x split_size :
  placed self → - TensorImpl.dim self ≤ dm < TensorImpl.dim self →
  Z.of_nat d = dm mod TensorImpl.dim self →
  sizes self !! d = Some n → strides self !! d = Some x →
  0 < split_size → n + split_size < 2 ^ 63 → 0 ≤ x → storage_offset self + n * x < 2 ^ 63 →
  ∃ ps, split self split_size dm = Ok ps ∧ Z.of_nat (length ps) = num_splits n split_size ∧
    ∀ i p, ps !! i = Some p → piece self d n split_size i p.
Proof.
  intros Hp Hdm Hd En Ex Hs Hns Hx Hoff.
  pose proof (lookup_lt_Some _ _ _ En) as Hdl.
  assert (Hn : 0 ≤ n) by (eapply (proj1 (nonneg_lookup _) (placed_sizes _ Hp)); done).
  assert (Hdim : 0 < TensorImpl.dim self) by (unfold TensorImpl.dim, vec_size; lia).
  pose proof (placed_offset _ Hp) as Ho.
  unfold split. rewrite AT_CHECK_bind_true by (apply negb_true_iff, Z.eqb_neq; lia).
  rewrite AT_CHECK_bind_true by (apply Z.leb_le; lia).
  assert (Esz : TensorImpl.size self dm = Ok n).
  { unfold TensorImpl.size. rewrite maybe_wrap_dim_Ok, Ok_bind by lia. rewrite <- Hd.
    by apply vec_get_nat. }
  rewrite Esz, Ok_bind. rewrite AT_CHECK_bind_true by (apply orb_true_iff; left; by apply Z.ltb_lt).
  rewrite (proj2 (Z.eqb_neq split_size 0)) by lia. cbv zeta. cbn [negb].
  change (2 ^ 63) with 9223372036854775808 in *.
  rewrite (add64_exact n split_size) by (apply in_S64_iff; lia).
  rewrite (sub64_exact (n + split_size) 1) by (apply in_S64_iff; lia).
  rewrite Z.quot_div_nonneg by lia. fold (num_splits n split_size).
  set (k := num_splits n split_size).
  assert (Hk : 1 ≤ k ∧ (k - 1 = 0 ∨ (k - 1) * split_size < n) ∧ n ≤ k * split_size).
  { pose proof (num_splits_spec n split_size (k - 1)) as H1. pose proof (num_splits_spec n split_size k) as H2.
    assert (1 ≤ k) by (unfold k, num_splits; lia). nia. }
  destruct Hk as (Hk1 & Hk2 & Hk3).
  assert (Hks : split_size * k < 9223372036854775808) by nia.
  rewrite (mul64_exact split_size k) by (apply in_S64_iff; nia).
  rewrite (sub64_exact (split_size * k) n) by (apply in_S64_iff; nia).
  rewrite (sub64_exact split_size) by (apply in_S64_iff; nia).
  match goal with |- context [for_up (Z.to_nat k) ?b []] =>
    destruct (for_up_inv (λ i acc, length acc = i ∧ ∀ j p, acc !! j = Some p → piece self d n split_size j p)
      (Z.to_nat k) b []) as (ps & E & Hl & Hps) end.
  - split; [done|]. intros j p Hj. done.
  - intros i acc Hi [Hl Hacc].
    assert (Hst : Z.of_nat i = 0 ∨ Z.of_nat i * split_size < n) by nia.
    rewrite (mul64_exact (Z.of_nat i)) by (apply in_S64_iff; nia).
    assert (Elen : (if Z.of_nat i <? k - 1 then split_size else split_size - (split_size * k - n))
                   = Z.min split_size (n - Z.of_nat i * split_size)).
    { destruct (Z.ltb_spec (Z.of_nat i) (k - 1)); [|replace (Z.of_nat i) with (k - 1) by lia]; nia. }
    rewrite Elen.
    destruct (narrow_lemma self dm d n x (Z.of_nat i * split_size)
      (Z.min split_size (n - Z.of_nat i * split_size))) as (r & -> & Hr & Hsz & Hsto & Hpos);
      [done..|change (2 ^ 63) with 9223372036854775808; lia|nia|nia|nia|
       change (2 ^ 63) with 9223372036854775808; nia|].
    rewrite Ok_bind. eexists. split; [done|]. rewrite length_app; cbn. split; [lia|].
    intros j p Hj. apply lookup_app_Some in Hj as [Hj|[Hge Hj]]; [by apply Hacc|].
    apply list_lookup_singleton_Some in Hj as [Hj <-]. assert (j = i) as -> by lia. by split.
  - exists ps. split; [exact E|]. split; [lia|done].
Qed.

(** *** [unsqueeze] *)
Lemma vec_insert_Ok (v : list Z) d x : (d ≤ length v)%nat →
  vec_insert v (Z.of_nat d) x = Ok (take d v ++ x :: drop d v).
Proof. intros Hd. unfold vec_insert, vec_size. rewrite decide_True by lia. by rewrite Nat2Z.id. Qed.

Lemma in_range_insert sz idx d : (d ≤ length sz)%nat →
  in_range (take d sz ++ 1 :: drop d sz) idx → idx !! d = Some 0 ∧ in_range sz (delete d idx).
Proof.
  intros Hd Hr. unfold in_range in *. apply Forall2_app_inv_r in Hr as (i1 & i2 & H1 & H2 & ->).
  inversion H2 as [|i ? i2' ? Hi H2']; subst.
  pose proof (Forall2_length H1) as Hl1. rewrite length_take in Hl1.
  assert (length i1 = d) as Hl by lia. assert (i = 0) as -> by lia.
  split; [by rewrite list_lookup_middle|].
  rewrite <- Hl, delete_middle. rewrite <- (take_drop d sz). by apply Forall2_app.
Qed.

Lemma insert_delete_id (idx : list Z) d i : idx !! d = Some i → insert_index d i (delete d idx) = idx.
Proof.
  intros E. destruct (split_at _ _ _ E) as [Ei Li]. unfold insert_index. rewrite delete_take_drop.
  rewrite take_app_length', drop_app_length' by lia. by rewrite <- Ei.
Qed.

Lemma delete_inserted (v : list Z) d x : (d ≤ length v)%nat → delete d (take d v ++ x :: drop d v) = v.
Proof.
  intros Hd. pose proof (delete_middle (take d v) (drop d v) x) as E.
  rewrite length_take, Nat.min_l in E by lia. rewrite E. apply take_drop.
Qed.

Lemma unsqueeze_lemma self dm d :
  placed self → - (TensorImpl.dim self + 1) ≤ dm < TensorImpl.dim self + 1 →
  Z.of_nat d = dm mod (TensorImpl.dim self + 1) →
  ∃ r, unsqueeze self dm = Ok r ∧ placed r ∧ sizes r = take d (sizes self) ++ 1 :: drop d (sizes self) ∧
    TensorImpl.storage_ r = TensorImpl.storage_ self ∧
    ∀ idx, in_range (sizes r) idx → position r idx = position self (delete d idx).
Proof.
  intros Hp Hdm Hd. assert (Hdim : 0 ≤ TensorImpl.dim self) by (unfold TensorImpl.dim, vec_size; lia).
  pose proof (Z.mod_pos_bound dm (TensorImpl.dim self + 1) ltac:(lia)) as Hm.
  assert (Hdl : (d ≤ length (sizes self))%nat) by (unfold TensorImpl.dim, vec_size in *; lia).
  unfold unsqueeze. rewrite maybe_wrap_dim_Ok, Ok_bind by lia. rewrite <- Hd.
  assert (∃ y, inferUnsqueezeGeometry self (Z.of_nat d) =
    Ok (take d (sizes self) ++ 1 :: drop d (sizes self), take d (strides self) ++ y :: drop d (strides self)))
    as (y & ->).
  { unfold inferUnsqueezeGeometry. rewrite Z.geb_leb.
    assert (∃ y, (if TensorImpl.dim self <=? Z.of_nat d then Ok 1
      else s ← vec_get (sizes self) (Z.of_nat d); st ← vec_get (strides self) (Z.of_nat d); Ok (mul64 s st)) = Ok y)
      as (y & ->).
    { case_match eqn:E; [by eexists|]. apply Z.leb_gt in E. unfold TensorImpl.dim, vec_size in E.
      destruct (lookup_lt_is_Some_2 (sizes self) d) as [s Es]; [lia|].
      destruct (lookup_lt_is_Some_2 (strides self) d) as [st Est]; [rewrite (placed_length _ Hp); lia|].
      rewrite (vec_get_nat _ _ _ Es), (vec_get_nat _ _ _ Est). by eexists. }
    exists y. rewrite Ok_bind, !vec_insert_Ok by (rewrite ?(placed_length _ Hp); done). done. }
  rewrite Ok_bind. assert (Hls : (d ≤ length (strides self))%nat) by (rewrite (placed_length _ Hp); done).
  set (sz := take d (sizes self) ++ 1 :: drop d (sizes self)).
  set (st := take d (strides self) ++ y :: drop d (strides self)).
  assert (Esz : sz !! d = Some 1) by (apply list_lookup_middle; rewrite length_take; lia).
  assert (Est : st !! d = Some y) by (apply list_lookup_middle; rewrite length_take; lia).
  assert (Dsz : delete d sz = sizes self).
  { by apply delete_inserted. }
  assert (Dst : delete d st = strides self).
  { by apply delete_inserted. }
  assert (Hl : length st = length sz).
  { unfold st, sz. rewrite !length_app; cbn. rewrite !length_take, !length_drop, (placed_length _ Hp). done. }
  assert (Hat : ∀ k u, sz !! k = Some u → k ≠ d →
    ∃ j, sizes self !! j = Some u ∧ ∀ w, st !! k = Some w → strides self !! j = Some w).
  { intros k u Eu Hk. rewrite <- Dsz, <- Dst. destruct (decide (k < d)%nat).
    - exists k. rewrite !list_lookup_delete_lt by lia. done.
    - exists (k - 1)%nat. rewrite !list_lookup_delete_ge by lia. by replace (S (k - 1)) with k by lia. }
  destruct (as_strided_view self sz st None (delete d)) as (r & Er & Hr & Hsz & Hsto & Hpos);
    [done|done| | |apply Hp| |].
  4:{ exists r. split; [exact Er|]. rewrite Hsz. done. }
  - apply nonneg_lookup. intros k u Eu. destruct (decide (k = d)) as [->|Hk]; [by simplify_eq|].
    destruct (Hat k u Eu Hk) as (j & Ej & _). by eapply (proj1 (nonneg_lookup _) (placed_sizes _ Hp)).
  - apply strides_ok_lookup; [done|]. intros Hne k u w Eu Ew.
    destruct (decide (k = d)) as [->|Hk]; [left; by simplify_eq|].
    destruct (Hat k u Eu Hk) as (j & Ej & Hw).
    eapply (proj1 (strides_ok_lookup _ _ (placed_length _ Hp)) (placed_strides _ Hp)); [|done|by apply Hw].
    apply nonempty_lookup. intros e v Ev. rewrite <- Dsz, list_lookup_delete in Ev.
    by eapply (proj1 (nonempty_lookup _) Hne).
  - intros idx Hidx. cbn. destruct (in_range_insert _ _ _ Hdl Hidx) as [E0 Hr]. split; [done|].
    unfold position. f_equal. rewrite <- (insert_delete_id idx d 0) at 1 by done.
    rewrite <- (offset_delete _ _ y), Dst; [lia|done|].
    rewrite Dst. pose proof (proj1 (in_range_lookup _ _) Hr) as [Hli _]. by rewrite (placed_length _ Hp).
Qed.

(** *** [permute] *)

Definition sumZ (l : list Z) : Z := foldr Z.add 0 l.

Lemma sumZ_perm l1 l2 : l1 ≡ₚ l2 → sumZ l1 = sumZ l2.
Proof. unfold sumZ. induction 1; cbn; lia. Qed.

(** The wrapped dimensions [permute] accepts. *)
Definition is_perm (n : nat) (sigma : list nat) : Prop :=
  length sigma = n ∧ NoDup sigma ∧ Forall (λ d, (d < n)%nat) sigma.

Lemma is_perm_seq n sigma : is_perm n sigma → sigma ≡ₚ seq 0 n.
Proof.
  intros (Hl & Hnd & Hf). apply submseteq_length_Permutation; [|rewrite length_seq; lia].
  apply NoDup_submseteq; [done|]. intros d Hd. apply elem_of_seq.
  rewrite Forall_forall in Hf. specialize (Hf d (proj1 (list_elem_of_In _ _) Hd)). lia.
Qed.

Definition gather (v : list Z) (sigma : list nat) : list Z := (λ d, v !!! d) <$> sigma.

(** Where dimension [d] of the source went. *)
Definition perm_index (sigma : list nat) (d : nat) : nat :=
  match list_find (eq d) sigma with Some (i, _) => i | None => 0%nat end.
Definition perm_source (sigma : list nat) (idx : list Z) : list Z :=
  (λ d, idx !!! perm_index sigma d) <$> seq 0 (length sigma).

Lemma perm_index_at sigma i d : NoDup sigma → sigma !! i = Some d → perm_index sigma d = i.
Proof.
  intros Hnd E. unfold perm_index. destruct (list_find (eq d) sigma) as [[j e]|] eqn:Ef.
  - apply list_find_Some in Ef as (Ej & -> & _). by eapply NoDup_lookup.
  - apply list_find_None in Ef. rewrite Forall_forall in Ef.
    exfalso. eapply Ef; [|done]. apply list_elem_of_In. by eapply list_elem_of_lookup_2.
Qed.

Lemma perm_source_lookup n sigma idx i d :
  is_perm n sigma → sigma !! i = Some d → perm_source sigma idx !!! d = idx !!! i.
Proof.
  intros (Hl & Hnd & Hf) E. unfold perm_source.
  rewrite list_lookup_total_alt, list_lookup_fmap, lookup_seq_lt.
  - cbn. by rewrite (perm_index_at _ _ _ Hnd E).
  - rewrite Hl. rewrite Forall_forall in Hf. apply Hf, list_elem_of_In. by eapply list_elem_of_lookup_2.
Qed.

Lemma offset_total st idx : length st = length idx →
  offset st idx = sumZ ((λ d, st !!! d * idx !!! d) <$> seq 0 (length st)).
Proof.
  revert idx. induction st as [|s st IH]; intros [|i idx] Hl; try done.
  rewrite offset_cons, IH by (cbn in Hl; lia). cbn [length seq fmap list_fmap]. unfold sumZ; cbn. f_equal.
  rewrite <- fmap_S_seq, <- list_fmap_compose. done.
Qed.

Lemma offset_permute n sigma st idx :
  is_perm n sigma → length st = n → length idx = n →
  offset (gather st sigma) idx = offset st (perm_source sigma idx).
Proof.
  intros Hs Hst Hidx. pose proof Hs as (Hl & Hnd & Hf).
  assert (Hlp : length (perm_source sigma idx) = n) by (unfold perm_source; by rewrite length_fmap, length_seq).
  rewrite (offset_total st) by lia. rewrite Hst. rewrite (sumZ_perm _ ((λ d, st !!! d * perm_source sigma idx !!! d) <$> sigma))
    by (by apply fmap_Permutation, symmetry, is_perm_seq).
  rewrite offset_total by (unfold gather; rewrite length_fmap; lia). unfold gather at 2. rewrite length_fmap.
  f_equal. apply list_eq_same_length with (length sigma); [by rewrite length_fmap|by rewrite length_fmap, length_seq|].
  intros i x y Hi Hx Hy. rewrite list_lookup_fmap, lookup_seq_lt in Hx by done. cbn in Hx.
  destruct (lookup_lt_is_Some_2 sigma i Hi) as [d Ed]. rewrite list_lookup_fmap, Ed in Hy. cbn in Hy.
  rewrite (perm_source_lookup n sigma idx i d) in Hy by done. unfold gather in Hx.
  rewrite (list_lookup_total_alt (_ <$> sigma)), list_lookup_fmap, Ed in Hx. cbn in Hx. congruence.
Qed.

Definition wrapped_dims (n : Z) (dims : list Z) : list nat := (λ d, Z.to_nat (d mod n)) <$> dims.

Record permute_inv (self : Tensor) (sigma : list nat) (i : nat) (st : list Z * list Z * list bool) : Prop := {
  pi_sizes : length st.1.1 = length sigma ∧ take i st.1.1 = gather (sizes self) (take i sigma);
  pi_strides : length st.1.2 = length sigma ∧ take i st.1.2 = gather (strides self) (take i sigma);
  pi_seen : length st.2 = length sigma ∧ ∀ d b, st.2 !! d = Some b → b = true → d ∈ take i sigma
}.

Lemma gather_snoc v sigma i d : sigma !! i = Some d →
  gather v (take (S i) sigma) = gather v (take i sigma) ++ [v !!! d].
Proof. intros E. unfold gather. by rewrite (take_S_r _ _ _ E), fmap_app. Qed.

Lemma take_insert_snoc (v : list Z) i x : (i < length v)%nat → take (S i) (<[i := x]> v) = take i v ++ [x].
Proof.
  intros Hi. rewrite (take_S_r _ i x) by (by apply list_lookup_insert_eq).
  by rewrite take_insert_ge by lia.
Qed.

Lemma permute_loop self dims :
  let sigma := wrapped_dims (TensorImpl.dim self) dims in
  length (strides self) = length (sizes self) → is_perm (length (sizes self)) sigma →
  Forall (λ d, - TensorImpl.dim self ≤ d < TensorImpl.dim self) dims →
  ∃ seen, for_up (length (sizes self)) (permute_step self dims)
    (replicate (length (sizes self)) 0, replicate (length (sizes self)) 0,
     replicate (length (sizes self)) false) =
    Ok (gather (sizes self) sigma, gather (strides self) sigma, seen).
Proof.
  intros sigma Hls (Hl & Hnd & Hf) Hd. set (n := length (sizes self)) in *.
  destruct (for_up_inv (permute_inv self sigma) n (permute_step self dims)
    (replicate n 0, replicate n 0, replicate n false)) as ([[ns nst] seen] & E & [[L1 T1] [L2 T2] [L3 T3]]).
  - split; cbn; rewrite !length_replicate; (split; [done|]); [by rewrite !take_0..|].
    intros d b Hb. apply lookup_replicate in Hb as [-> _]. done.
  - intros i [[ns nst] seen] Hi [[L1 T1] [L2 T2] [L3 T3]]; cbn in *.
    destruct (lookup_lt_is_Some_2 sigma i) as [d Ed]; [lia|].
    assert (∃ z, dims !! i = Some z ∧ d = Z.to_nat (z mod TensorImpl.dim self)) as (z & Ez & Hz).
    { unfold sigma, wrapped_dims in Ed. rewrite list_lookup_fmap in Ed.
      destruct (dims !! i); [|done]. cbn in Ed. simplify_eq. by eexists. }
    assert (Hdn : (d < n)%nat).
    { rewrite Forall_forall in Hf. apply Hf, list_elem_of_In. by eapply list_elem_of_lookup_2. }
    assert (Hrz : - TensorImpl.dim self ≤ z < TensorImpl.dim self).
    { rewrite Forall_forall in Hd. apply Hd, list_elem_of_In. by eapply list_elem_of_lookup_2. }
    assert (Hn : 0 < TensorImpl.dim self) by (unfold TensorImpl.dim, vec_size; lia).
    unfold permute_step. rewrite (vec_get_nat _ _ _ Ez), Ok_bind.
    rewrite maybe_wrap_dim_Ok, Ok_bind by lia.
    pose proof (Z.mod_pos_bound z _ Hn).
    replace (z mod TensorImpl.dim self) with (Z.of_nat d) by lia.
    destruct (lookup_lt_is_Some_2 seen d) as [b Eb]; [lia|].
    rewrite (vec_get_nat _ _ _ Eb), Ok_bind.
    assert (b = false) as ->.
    { destruct b; [|done]. exfalso. pose proof (T3 _ _ Eb eq_refl) as Hin.
      apply list_elem_of_lookup in Hin as [j Ej]. apply lookup_take_Some in Ej as [Ej Hj].
      pose proof (NoDup_lookup _ _ _ _ Hnd Ed Ej). lia. }
    rewrite AT_CHECK_bind_true by done. rewrite vec_set_nat, Ok_bind by lia.
    destruct (lookup_lt_is_Some_2 (sizes self) d) as [sz Esz]; [done|].
    destruct (lookup_lt_is_Some_2 (strides self) d) as [st Est]; [lia|].
    rewrite (vec_get_nat _ _ _ Esz), Ok_bind. rewrite (vec_set_nat ns), Ok_bind by lia.
    rewrite (vec_get_nat _ _ _ Est), Ok_bind. rewrite (vec_set_nat nst), Ok_bind by lia.
    eexists. split; [done|]. split; cbn; rewrite length_insert; (split; [done|]).
    + rewrite take_insert_snoc, (gather_snoc _ _ _ _ Ed), T1 by lia.
      by rewrite (list_lookup_total_correct _ _ _ Esz).
    + rewrite take_insert_snoc, (gather_snoc _ _ _ _ Ed), T2 by lia.
      by rewrite (list_lookup_total_correct _ _ _ Est).
    + intros e b He Hb. rewrite (take_S_r _ _ _ Ed), elem_of_app, list_elem_of_singleton.
      destruct (decide (e = d)) as [->|Hne]; [by right|left].
      rewrite list_lookup_insert_ne in He by done. by eapply T3.
  - exists seen. rewrite E. cbn in *. rewrite <- Hl in T1, T2.
    rewrite <- L1, firstn_all in T1 at 1. rewrite <- L2, firstn_all in T2 at 1.
    rewrite firstn_all in T1, T2. by rewrite T1, T2.
Qed.

Lemma permute_lemma self dims :
  let sigma := wrapped_dims (TensorImpl.dim self) dims in
  placed self → is_perm (length (sizes self)) sigma →
  Forall (λ d, - TensorImpl.dim self ≤ d < TensorImpl.dim self) dims →
  ∃ r, permute self dims = Ok r ∧ placed r ∧ sizes r = gather (sizes self) sigma ∧
    TensorImpl.storage_ r = TensorImpl.storage_ self ∧
    ∀ idx, in_range (sizes r) idx → position r idx = position self (perm_source sigma idx).
Proof.
  intros sigma Hp Hs Hd. pose proof Hs as (Hl & Hnd & Hf). unfold permute.
  rewrite AT_CHECK_bind_true by (apply Nat.eqb_eq; unfold sigma, wrapped_dims in Hl; by rewrite length_fmap in Hl).
  destruct (permute_loop self dims (placed_length _ Hp) Hs Hd) as (seen & ->). rewrite Ok_bind. fold sigma.
  assert (Hg : ∀ v k x, length v = length (sizes self) → gather v sigma !! k = Some x →
    ∃ d, sigma !! k = Some d ∧ v !! d = Some x).
  { intros v k x Hv E. unfold gather in E. rewrite list_lookup_fmap in E.
    destruct (sigma !! k) as [d|] eqn:Ed; [|done]. cbn in E. exists d. split; [done|].
    assert (d < length (sizes self))%nat.
    { rewrite Forall_forall in Hf. apply Hf, list_elem_of_In. by eapply list_elem_of_lookup_2. }
    destruct (lookup_lt_is_Some_2 v d) as [y Ey]; [lia|]. rewrite (list_lookup_total_correct _ _ _ Ey) in E.
    congruence. }
  assert (Hsurj : ∀ d, (d < length (sizes self))%nat → ∃ i, sigma !! i = Some d).
  { intros d Hdl. apply list_elem_of_lookup. rewrite (is_perm_seq _ _ Hs). apply elem_of_seq. lia. }
  assert (Hgl : ∀ v, length (gather v sigma) = length (sizes self)) by (intros; unfold gather; by rewrite length_fmap).
  assert (Hgi : ∀ v i d, sigma !! i = Some d → gather v sigma !! i = Some (v !!! d)).
  { intros v i d Ed. unfold gather. by rewrite list_lookup_fmap, Ed. }
  destruct (as_strided_view self (gather (sizes self) sigma) (gather (strides self) sigma) None
    (perm_source sigma)) as (r & Er & Hr & Hsz & Hsto & Hpos); [done|by rewrite !Hgl| | |apply Hp| |].
  4:{ exists r. split; [exact Er|]. rewrite Hsz. done. }
  - apply nonneg_lookup. intros k u Eu. destruct (Hg _ _ _ eq_refl Eu) as (d & _ & Ed).
    by eapply (proj1 (nonneg_lookup _) (placed_sizes _ Hp)).
  - apply strides_ok_lookup; [by rewrite !Hgl|]. intros Hne k u y Eu Ey.
    destruct (Hg _ _ _ eq_refl Eu) as (d & Ek & Ed). destruct (Hg _ _ _ (placed_length _ Hp) Ey) as (d' & Ek' & Ed').
    simplify_eq. eapply (proj1 (strides_ok_lookup _ _ (placed_length _ Hp)) (placed_strides _ Hp)); [|done..].
    apply nonempty_lookup. intros e v Ev. destruct (Hsurj e) as [i Ei]; [by eapply lookup_lt_Some|].
    eapply (proj1 (nonempty_lookup _) Hne i). rewrite (Hgi _ _ _ Ei).
    by rewrite (list_lookup_total_correct _ _ _ Ev).
  - intros idx Hidx. cbn. pose proof (proj1 (in_range_lookup _ _) Hidx) as [Hli Hri]. rewrite Hgl in Hli.
    split.
    + apply in_range_lookup. unfold perm_source. rewrite length_fmap, length_seq. split; [done|].
      intros d s j Es Ej. fold (perm_source sigma idx) in Ej.
      destruct (Hsurj d) as [i Ei]; [by eapply lookup_lt_Some|].
      pose proof (perm_source_lookup _ _ idx i d Hs Ei) as Eps.
      rewrite (list_lookup_total_correct _ _ _ Ej) in Eps. subst j.
      destruct (lookup_lt_is_Some_2 idx i) as [y Ey]; [rewrite Hli, <- Hl; by eapply lookup_lt_Some|].
      rewrite (list_lookup_total_correct _ _ _ Ey). apply (Hri i); [|done].
      rewrite (Hgi _ _ _ Ei). by rewrite (list_lookup_total_correct _ _ _ Es).
    + unfold position. f_equal. apply (offset_permute (length (sizes self))); [done|apply Hp|done].
Qed.

End WithIds.
