(* ===== verification/ComputeStride.v ===== *)
(** * The strides of a view (aten/src/TH/THTensor.cpp)

    [THTensor_compute_stride] finds the strides with which a tensor can be seen
    under another shape without a copy, or answers [nullopt].  The outer loop walks
    the old dimensions from the last and collects them into chunks that are
    contiguous relative to the stride of their last dimension; at the end of a
    chunk the inner loop takes new dimensions until they hold as many elements. *)
From S2P Require Import Prelude Geometry Strides.
Local Open Scope Z_scope.

(** [std::accumulate(first, last, 1, std::multiplies<int64_t>())]: the initial
    value makes the accumulator an [int]. *)
Definition accumulate_int (shape : list Z) : Z :=
  fold_left (λ acc d, wrapS 32 (mul64 acc d)) shape 1.

(** The strides of an empty view. *)
Definition empty_view_strides (newshape : list Z) : outcome (list Z) :=
  let n := length newshape in
  for_down n (λ view_d newstride,
    if (view_d =? n - 1)%nat then vec_set newstride (Z.of_nat view_d) 1
    else s ← vec_get newshape (Z.of_nat view_d + 1);
         st ← vec_get newstride (Z.of_nat view_d + 1);
         vec_set newstride (Z.of_nat view_d) (mul64 (Z.max s 1) st)) (replicate n 0).

(** The variables of the loops; [view_left] is [view_d + 1]. *)
Record vars : Type := mkVars {
  view_left : nat;
  newstride : list Z;
  view_numel : Z
}.

(** The inner loop, on the dimensions that are left. *)
Fixpoint fill_chunk (newshape : list Z) (tensor_numel chunk_base_stride : Z) (left : nat)
  (newstride : list Z) (view_numel : Z) : outcome vars :=
  match left with
  | O => Ok (mkVars O newstride view_numel)
  | S view_d =>
      s ← vec_get newshape (Z.of_nat view_d);
      if (view_numel <? tensor_numel) || (s =? 1) then
        newstride ← vec_set newstride (Z.of_nat view_d) (mul64 view_numel chunk_base_stride);
        fill_chunk newshape tensor_numel chunk_base_stride view_d newstride (mul64 view_numel s)
      else Ok (mkVars left newstride view_numel)
  end.

(** Whether the chunk ends at [tensor_d]. *)
Definition chunk_ends (oldshape oldstride : list Z) (tensor_d : nat) (tensor_numel chunk_base_stride : Z)
  : outcome bool :=
  match tensor_d with
  | O => Ok true
  | S prev =>
      s ← vec_get oldshape (Z.of_nat prev);
      if negb (s =? 1) then
        st ← vec_get oldstride (Z.of_nat prev);
        Ok (negb (st =? mul64 tensor_numel chunk_base_stride))
      else Ok false
  end.

(** The outer loop from [tensor_d - 1] down; [None] is the early [nullopt]. *)
Fixpoint walk (oldshape oldstride newshape : list Z) (tensor_left : nat) (v : vars)
  (chunk_base_stride tensor_numel : Z) : outcome (option vars) :=
  match tensor_left with
  | O => Ok (Some v)
  | S tensor_d =>
      s ← vec_get oldshape (Z.of_nat tensor_d);
      let tensor_numel := mul64 tensor_numel s in
      ends ← chunk_ends oldshape oldstride tensor_d tensor_numel chunk_base_stride;
      if ends : bool then
        v ← fill_chunk newshape tensor_numel chunk_base_stride (view_left v) (newstride v) (view_numel v);
        if negb (view_numel v =? tensor_numel) then Ok None
        else match tensor_d with
             | O => walk oldshape oldstride newshape tensor_d v chunk_base_stride tensor_numel
             | S prev =>
                 base ← vec_get oldstride (Z.of_nat prev);
                 walk oldshape oldstride newshape tensor_d (mkVars (view_left v) (newstride v) 1) base 1
             end
      else walk oldshape oldstride newshape tensor_d v chunk_base_stride tensor_numel
  end.

Definition THTensor_compute_stride (oldshape oldstride newshape : list Z) : outcome (option (list Z)) :=
  match oldshape with
  | [] => Ok (Some (replicate (length newshape) 1))
  | _ =>
      let numel := accumulate_int oldshape in
      if (numel =? 0) && bool_decide (oldshape = newshape) then Ok (Some oldstride)
      else if numel =? 0 then st ← empty_view_strides newshape; Ok (Some st)
      else
        base ← vec_get oldstride (vec_size oldstride - 1);
        r ← walk oldshape oldstride newshape (length oldshape)
              (mkVars (length newshape) (replicate (length newshape) 0) 1) base 1;
        match r with
        | None => Ok None
        | Some v => if (view_left v =? 0)%nat then Ok (Some (newstride v)) else Ok None
        end
  end.

Example view_2x3_of_6 : THTensor_compute_stride [2; 3] [3; 1] [6] = Ok (Some [1]).
Proof. reflexivity. Qed.
Example view_transposed : THTensor_compute_stride [3; 2] [1; 3] [6] = Ok None.
Proof. reflexivity. Qed.

(** ** Row-major order *)

(** The place of an element in row-major order, and the [k]-th last index of the
    element at place [o]. *)
Definition row_major (shape idx : list Z) : Z :=
  sumf (λ k, prodf (dimr shape) k * dimr idx k) (length shape).
Definition digit (s : nat → Z) (k : nat) (o : Z) : Z := (o / prodf s k) mod s k.

(** The offset of the element at place [o], over the [n] last dimensions. *)
Definition addr (s t : nat → Z) (n : nat) (o : Z) : Z := sumf (λ k, t k * digit s k o) n.

Lemma digits_sum s n o : (∀ k, (k < n)%nat → 0 < s k) →
  sumf (λ k, prodf s k * digit s k o) n = o mod prodf s n.
Proof.
  induction n as [|n IH]; intros Hs; cbn; [by rewrite Z.mod_1_r|].
  rewrite IH by (intros; apply Hs; lia). unfold digit.
  pose proof (prodf_pos s n ltac:(intros; apply Hs; lia)). pose proof (Hs n ltac:(lia)).
  rewrite Z.rem_mul_r by lia. lia.
Qed.

Lemma index_digit shape idx k : in_range shape idx → (k < length shape)%nat →
  dimr idx k = digit (dimr shape) k (row_major shape idx).
Proof.
  intros Hr Hk. apply in_range_dimr in Hr as [Hl Hr].
  apply (mixed_radix_inj (dimr idx) (λ k, digit (dimr shape) k (row_major shape idx)) (dimr shape) (length shape));
    [done| |rewrite digits_sum|done].
  - intros j Hj. apply Z.mod_pos_bound. specialize (Hr j Hj). lia.
  - symmetry. apply Z.mod_small. by apply mixed_radix_range.
  - intros j Hj. specialize (Hr j Hj). lia.
Qed.

Lemma offset_addr shape st idx : length st = length shape → in_range shape idx →
  offset st idx = addr (dimr shape) (dimr st) (length shape) (row_major shape idx).
Proof.
  intros Hl Hr. pose proof (proj1 (in_range_dimr _ _) Hr) as [Hli _].
  rewrite offset_sumf by lia. rewrite Hl. apply sumf_ext. intros k Hk. by rewrite <- index_digit.
Qed.

(** One more dimension of a chunk: [P] elements lie before the chunk and [Q] in the
    part of it that is done. *)
Lemma chunk_step s t k base P Q o :
  prodf s k = P * Q → 0 < P → 0 < Q → 0 < s k → s k = 1 ∨ t k = base * Q →
  base * ((o / P) mod Q) + t k * digit s k o = base * ((o / P) mod (Q * s k)).
Proof.
  intros HP HP0 HQ Hs Hk. unfold digit. rewrite HP. rewrite Z.rem_mul_r by lia.
  rewrite Z.div_div by lia. destruct Hk as [E| ->]; [|lia].
  rewrite E, Z.mod_1_r. lia.
Qed.

Lemma addr_S s t n o : addr s t (S n) o = addr s t n o + t n * digit s n o.
Proof. done. Qed.

Lemma addr_ext s t t' n o : (∀ k, (k < n)%nat → t k = t' k) → addr s t n o = addr s t' n o.
Proof. intros Hk. apply sumf_ext. intros k Hkn. by rewrite Hk. Qed.

(** ** The loops *)
Section Loops.
Variables (oldshape oldstride newshape : list Z).
Hypothesis old_pos : ∀ k, (k < length oldshape)%nat → 0 < dimr oldshape k.
Hypothesis new_pos : ∀ k, (k < length newshape)%nat → 0 < dimr newshape k.
Hypothesis strides_length : length oldstride = length oldshape.

(** The element count of both shapes, small enough for the products to be exact. *)
Variable N : Z.
Hypothesis N_small : N < 2 ^ 31.
Hypothesis old_numel : prodf (dimr oldshape) (length oldshape) = N.
Hypothesis new_numel : prodf (dimr newshape) (length newshape) = N.
Hypothesis strides_small : ∀ k, (k < length oldshape)%nat → in_S 64 (N * dimr oldstride k).

Let s_new := dimr newshape.
Let s_old := dimr oldshape.

Lemma exact_below V z : 0 < V ≤ N → in_S 64 (N * z) → mul64 V z = V * z ∧ in_S 64 (V * z).
Proof.
  intros HV Hz. assert (in_S 64 (V * z)).
  { rewrite in_S64_iff in Hz |- *. destruct (Z.le_ge_cases 0 z) as [H0|H0].
    - pose proof (Z.mul_le_mono_nonneg_r V N z H0 ltac:(lia)). pose proof (Z.mul_nonneg_nonneg V z ltac:(lia) H0). lia.
    - pose proof (Z.mul_le_mono_nonpos_r V N z H0 ltac:(lia)). pose proof (Z.mul_nonneg_nonpos V z ltac:(lia) H0). lia. }
  split; [by apply mul64_exact|done].
Qed.

Lemma exact_numel V s : 0 < V → 0 < s → V * s ≤ N → mul64 V s = V * s.
Proof.
  intros. apply mul64_exact, in_S64_iff. change (2 ^ 31) with 2147483648 in N_small. nia.
Qed.

Lemma new_prefix c : (c ≤ length newshape)%nat → 0 < prodf s_new c ≤ N.
Proof.
  intros Hc. split; [apply prodf_pos; intros; apply new_pos; lia|].
  rewrite <- new_numel. by apply prodf_mono.
Qed.

Lemma old_prefix a : (a ≤ length oldshape)%nat → 0 < prodf s_old a ≤ N.
Proof.
  intros Ha. split; [apply prodf_pos; intros; apply old_pos; lia|].
  rewrite <- old_numel. by apply prodf_mono.
Qed.

(** How much of the view is filled, and with what. *)
Definition filled (P base : Z) (A : Z → Z) (v : vars) : Prop :=
  let c := (length newshape - view_left v)%nat in
  (view_left v ≤ length newshape)%nat ∧ length (newstride v) = length newshape ∧
  0 < view_numel v ∧ prodf s_new c = P * view_numel v ∧
  ∀ o, addr s_new (dimr (newstride v)) c o = A o + base * ((o / P) mod view_numel v).

Lemma fill_chunk_spec P base A T left nst V :
  0 < P → in_S 64 (N * base) → filled P base A (mkVars left nst V) →
  ∃ v, fill_chunk newshape T base left nst V = Ok v ∧ filled P base A v.
Proof.
  intros HP Hb. revert nst V. induction left as [|d IH]; intros nst V Hf; cbn [fill_chunk].
  { by eexists. }
  pose proof Hf as (Hle & Hlen & HV & HP' & Ho). cbn in Hle, Hlen, HV, HP', Ho.
  set (c := (length newshape - S d)%nat) in *.
  rewrite (vec_get_r newshape _ c) by (unfold vec_size, c; lia). rewrite Ok_bind.
  case_match; [|by eexists].
  rewrite vec_set_nat, Ok_bind by lia.
  assert (Hs : 0 < s_new c) by (apply new_pos; lia).
  assert (HPS : prodf s_new (S c) = P * (V * s_new c)) by (cbn; rewrite HP'; lia).
  pose proof (new_prefix (S c) ltac:(lia)) as HN. rewrite HPS in HN.
  assert (HVN : V * s_new c ≤ N) by nia.
  destruct (exact_below V base) as [EV _]; [nia|done|]. rewrite EV.
  fold (s_new c). rewrite exact_numel by done.
  apply IH. split; cbn; [lia|]. rewrite length_insert. split; [done|split; [nia|]].
  replace (length newshape - d)%nat with (S c) by lia. split; [done|]. intros o.
  assert (Hat : ∀ k, dimr (<[d := V * base]> nst) k = if decide (k = c) then V * base else dimr nst k).
  { intros k. rewrite dimr_insert by lia. replace (length nst - 1 - d)%nat with c by lia. done. }
  rewrite addr_S. rewrite (addr_ext _ _ (dimr nst)) by (intros k Hk; rewrite Hat; by rewrite decide_False by lia).
  rewrite Ho, Hat, decide_True by done.
  rewrite <- (chunk_step s_new (λ _, V * base) c base P V o) by (done || (right; lia)). lia.
Qed.

(** The invariant of the outer loop: [i] old dimensions are left, the chunk in
    progress holds [T] elements. *)
Definition walking (i : nat) (v : vars) (base T : Z) : Prop :=
  let a := (length oldshape - i)%nat in
  let c := (length newshape - view_left v)%nat in
  (i ≤ length oldshape)%nat ∧ (view_left v ≤ length newshape)%nat ∧
  length (newstride v) = length newshape ∧ view_numel v = 1 ∧ 0 < T ∧ in_S 64 (N * base) ∧
  prodf s_old a = prodf s_new c * T ∧
  (i ≠ 0%nat → s_old a = 1 ∨ dimr oldstride a = base * T) ∧
  ∀ o, addr s_old (dimr oldstride) a o =
         addr s_new (dimr (newstride v)) c o + base * ((o / prodf s_new c) mod T).

(** What a complete walk has found. *)
Definition matched (v : vars) : Prop :=
  let c := (length newshape - view_left v)%nat in
  (view_left v ≤ length newshape)%nat ∧ length (newstride v) = length newshape ∧
  prodf s_new c = N ∧
  ∀ o, addr s_old (dimr oldstride) (length oldshape) o = addr s_new (dimr (newstride v)) c o.

Lemma chunk_ends_spec d T base :
  (d < length oldshape)%nat → 0 < T ≤ N → in_S 64 (N * base) →
  ∃ b, chunk_ends oldshape oldstride d T base = Ok b ∧
       (d = 0%nat → b = true) ∧
       (b = false → s_old (length oldshape - d) = 1 ∨ dimr oldstride (length oldshape - d) = base * T).
Proof.
  intros Hd HT Hb. destruct d as [|p]; cbn [chunk_ends]; [by exists true|].
  rewrite (vec_get_r oldshape _ (length oldshape - S p)) by (unfold vec_size; lia). rewrite Ok_bind.
  destruct (Z.eqb_spec (dimr oldshape (length oldshape - S p)) 1) as [E1|E1]; cbn [negb].
  { exists false. split; [done|split; [done|]]. intros _. by left. }
  rewrite (vec_get_r oldstride _ (length oldshape - S p)) by (unfold vec_size; lia). rewrite Ok_bind.
  destruct (exact_below T base HT Hb) as [-> _].
  eexists. split; [done|]. split; [done|]. intros E2. apply negb_false_iff, Z.eqb_eq in E2. right. lia.
Qed.

Lemma walk_spec i v base T :
  walking i v base T → (i ≠ 0%nat ∨ T = 1) →
  ∃ r, walk oldshape oldstride newshape i v base T = Ok r ∧
       match r with Some v' => matched v' | None => True end.
Proof.
  revert v base T. induction i as [|d IH]; intros v base T (Hi & Hv & Hlen & Hn1 & HT & Hb & HP & Hrel & Ho) Hor;
    cbn [walk].
  { destruct Hor as [| ->]; [done|]. eexists. split; [done|]. rewrite Nat.sub_0_r in *.
    change s_old with (dimr oldshape) in HP. rewrite old_numel in HP. split; [done|split; [done|split; [lia|]]]. intros o. rewrite Ho, Z.mod_1_r. lia. }
  set (a := (length oldshape - S d)%nat) in *. set (c := (length newshape - view_left v)%nat) in *.
  rewrite (vec_get_r oldshape _ a) by (unfold vec_size, a; lia). rewrite Ok_bind. fold (s_old a).
  assert (Hs : 0 < s_old a) by (apply old_pos; lia).
  pose proof (new_prefix c ltac:(lia)) as HNc.
  assert (HPS : prodf s_old (S a) = prodf s_new c * (T * s_old a)) by (cbn; rewrite HP; lia).
  pose proof (old_prefix (S a) ltac:(lia)) as HNa. rewrite HPS in HNa.
  assert (HTN : 0 < T * s_old a ≤ N) by nia.
  rewrite exact_numel by lia. set (T' := T * s_old a) in *. cbv zeta.
  assert (Ho' : ∀ o, addr s_old (dimr oldstride) (S a) o =
            addr s_new (dimr (newstride v)) c o + base * ((o / prodf s_new c) mod T')).
  { intros o. rewrite addr_S, Ho. rewrite <- Z.add_assoc. f_equal.
    apply chunk_step; [done|lia|lia|done|]. by apply Hrel. }
  destruct (chunk_ends_spec d T' base) as (b & -> & Hb0 & Hbf); [lia|done|done|]. rewrite Ok_bind.
  destruct b.
  - destruct (fill_chunk_spec (prodf s_new c) base (addr s_new (dimr (newstride v)) c) T' (view_left v)
      (newstride v) (view_numel v)) as (v' & -> & Hv' & Hlen' & HV' & HPV & Hov); [lia|done| |].
    { split; [done|split; [done|]]. cbn. rewrite Hn1. fold c. split; [lia|split; [lia|]].
      intros o. rewrite Z.mod_1_r. lia. }
    rewrite Ok_bind. destruct (Z.eqb_spec (view_numel v') T') as [ET|]; [|by eexists]. cbn [negb].
    rewrite ET in HPV, Hov. destruct d as [|p].
    + eexists. split; [done|]. replace (S a) with (length oldshape) in * by lia.
      split; [done|split; [done|]]. split; [rewrite HPV, <- HPS; exact old_numel|]. intros o. by rewrite Ho', Hov.
    + rewrite (vec_get_r oldstride _ (S a)) by (unfold vec_size; lia). rewrite Ok_bind.
      apply IH; [|by left]. split; cbn; [lia|]. replace (length oldshape - S p)%nat with (S a) by lia.
      split; [done|split; [done|split; [done|split; [lia|]]]].
      split; [apply strides_small; lia|]. rewrite HPS, HPV. split; [lia|]. split; [right; lia|].
      intros o. rewrite Ho', Hov, Z.mod_1_r. lia.
  - assert (Hd0 : d ≠ 0%nat) by (intros E; specialize (Hb0 E); done).
    apply IH; [|by left]. split; [lia|]. replace (length oldshape - d)%nat with (S a) in * by lia.
    split; [done|split; [done|split; [done|split; [lia|split; [done|]]]]]. fold c.
    split; [lia|]. split; [by intros _; apply Hbf|done].
Qed.
End Loops.

Lemma accumulate_from shape acc :
  Forall (λ d, 0 < d) shape → 0 < acc → acc * prodl shape < 2 ^ 31 →
  fold_left (λ acc d, wrapS 32 (mul64 acc d)) shape acc = acc * prodl shape.
Proof.
  revert acc. induction shape as [|d shape IH]; intros acc Hf Ha Hp; cbn [fold_left prodl foldr].
  { unfold prodl. cbn. lia. }
  apply Forall_cons_iff in Hf as [Hd Hf].
  change (prodl (d :: shape)) with (d * prodl shape) in *.
  assert (Hpos : 0 < prodl shape).
  { clear -Hf. induction shape as [|x l IH]; cbn; [done|]. apply Forall_cons_iff in Hf as [Hx Hf].
    specialize (IH Hf). unfold prodl in *. cbn. lia. }
  change (2 ^ 31) with 2147483648 in Hp.
  assert (0 < acc * d) by nia. assert (acc * d ≤ acc * (d * prodl shape)) by nia.
  rewrite mul64_exact by (apply in_S64_iff; lia).
  rewrite wrapS_id by (done || (unfold in_S; change (2 ^ (32 - 1)) with 2147483648; lia)).
  rewrite IH; [by rewrite <- Z.mul_assoc|done|done|].
  change (2 ^ 31) with 2147483648. rewrite <- Z.mul_assoc. exact Hp.
Qed.

Lemma prodl_prodf l : prodl l = prodf (dimr l) (length l).
Proof.
  induction l as [|x l IH]; [done|]. change (prodl (x :: l)) with (x * prodl l). rewrite IH. cbn.
  rewrite dimr_cons, decide_True by done. rewrite (prodf_ext (dimr (x :: l)) (dimr l)); [lia|].
  intros k Hk. by rewrite dimr_cons, decide_False by lia.
Qed.

Lemma positive_Forall l : (∀ k, (k < length l)%nat → 0 < dimr l k) → Forall (λ d, 0 < d) l.
Proof.
  intros H. apply Forall_lookup. intros i x E. rewrite <- (dimr_of_lookup _ _ _ E). apply H.
  apply lookup_lt_Some in E. lia.
Qed.

Lemma compute_stride_lemma oldshape oldstride newshape N :
  oldshape ≠ [] → length oldstride = length oldshape →
  (∀ k, (k < length oldshape)%nat → 0 < dimr oldshape k) →
  (∀ k, (k < length newshape)%nat → 0 < dimr newshape k) →
  prodl oldshape = N → prodl newshape = N → N < 2 ^ 31 →
  (∀ k, (k < length oldshape)%nat → in_S 64 (N * dimr oldstride k)) →
  ∃ r, THTensor_compute_stride oldshape oldstride newshape = Ok r ∧
    ∀ st, r = Some st → length st = length newshape ∧
      ∀ i j, in_range oldshape i → in_range newshape j →
        row_major oldshape i = row_major newshape j → offset oldstride i = offset st j.
Proof.
  intros Hne Hl Ho Hn HN HN' Hsmall Hst. rewrite prodl_prodf in HN, HN'.
  unfold THTensor_compute_stride. destruct oldshape as [|x rest] eqn:Eold; [done|]. rewrite <- Eold in *. clear Hne.
  assert (Hlen : (0 < length oldshape)%nat) by (rewrite Eold; cbn; lia).
  unfold accumulate_int. rewrite accumulate_from by
    (done || (by apply positive_Forall) || (rewrite Z.mul_1_l, prodl_prodf, HN; done)).
  rewrite Z.mul_1_l, prodl_prodf, HN.
  assert (HNpos : 0 < N) by (rewrite <- HN; by apply prodf_pos).
  rewrite (proj2 (Z.eqb_neq N 0)) by lia. cbn [andb].
  rewrite (vec_get_r oldstride _ 0) by (unfold vec_size; lia). rewrite Ok_bind.
  destruct (walk_spec oldshape oldstride newshape Ho Hn Hl N Hsmall HN HN' Hst (length oldshape)
    (mkVars (length newshape) (replicate (length newshape) 0) 1) (dimr oldstride 0) 1) as (r & -> & Hr).
  - split; cbn; [lia|]. rewrite length_replicate, !Nat.sub_diag. cbn.
    split; [lia|split; [done|split; [done|split; [done|split; [by apply Hst|]]]]].
    split; [done|]. split; [right; lia|]. intros o. rewrite Z.mod_1_r. cbn. lia.
  - by right.
  - rewrite Ok_bind. destruct r as [v|]; [|by eexists].
    destruct (Nat.eqb_spec (view_left v) 0) as [E0|]; [|by eexists].
    eexists. split; [done|]. intros st [= <-]. destruct Hr as (_ & Hlst & _ & Haddr).
    rewrite E0, Nat.sub_0_r in Haddr. split; [done|]. intros i j Hi Hj Erm.
    rewrite (offset_addr oldshape), (offset_addr newshape) by done. by rewrite Erm, Haddr.
Qed.
