(* ===== verification/ShapeProperties.v ===== *)
(** * The properties of the shape arithmetic

    Broadcasting, inferred sizes, contiguity and the extent of a strided layout. *)
From S2P Require Import Prelude Geometry Strides ComputeStride.
Local Open Scope Z_scope.

(** ** Broadcasting *)

Lemma is_expandable_to_true shape desired : is_expandable_to shape desired = Ok true ↔ expands shape desired.
Proof.
  destruct (is_expandable_to_spec shape desired) as (b & E & Hb). rewrite E. split.
  - intros [= ->]. by apply Hb.
  - intros H. by rewrite (proj2 Hb H).
Qed.

(** the broadcast of two shapes is the least shape both can be expanded to, in the sense
    of [is_expandable_to], and exists exactly when there is any such shape. *)
Theorem infer_size_least_upper_bound (a b r : list Z) :
  (infer_size2 a b = Ok r ↔
   is_expandable_to a r = Ok true ∧ is_expandable_to b r = Ok true ∧
   ∀ c, is_expandable_to a c = Ok true → is_expandable_to b c = Ok true → is_expandable_to r c = Ok true) ∧
  (∀ c, is_expandable_to a c = Ok true → is_expandable_to b c = Ok true → returns (infer_size2 a b) = true).
Proof.
  setoid_rewrite is_expandable_to_true. split; [apply infer_size2_lub|].
  intros c Ha Hb. by destruct (infer_size2_least a b c Ha Hb) as (r' & -> & _).
Qed.

(** broadcasting is commutative and associative: three tensors broadcast together in any
    grouping, to the same shape. *)
Theorem infer_size_associative (a b c ab abc : list Z) :
  infer_size2 a b = Ok ab → infer_size2 ab c = Ok abc →
  infer_size2 b a = Ok ab ∧ ∃ bc, infer_size2 b c = Ok bc ∧ infer_size2 a bc = Ok abc.
Proof.
  intros E1 E2. split; [by apply infer_size2_comm|].
  apply infer_size2_lub in E1 as (H1 & H2 & H3), E2 as (H4 & H5 & H6).
  destruct (infer_size2_least b c abc) as (bc & Ebc & Hbc); [by eapply expands_trans|done|].
  exists bc. split; [done|]. apply infer_size2_lub in Ebc as (H7 & H8 & _). apply infer_size2_lub.
  split; [by eapply expands_trans|]. split; [done|]. intros e Ha He.
  apply H6; [apply H3; [done|by eapply expands_trans]|by eapply expands_trans].
Qed.

Lemma infer_size_associative_witness :
  infer_size2 [3; 1] [1; 4] = Ok [3; 4] ∧ ∃ bc, infer_size2 [1; 4] [2; 1; 1] = Ok bc ∧ infer_size2 [3; 1] bc = Ok [2; 3; 4].
Proof.
  split; [reflexivity|].
  exact (proj2 (infer_size_associative [3; 1] [1; 4] [2; 1; 1] [3; 4] [2; 3; 4] eq_refl eq_refl)).
Defined.

(** a shape that [infer_size] returns for [view] has the requested sizes wherever a size was
    given, a non-negative size in the place of the -1, and as many elements as the tensor
    (the product of the sizes, as the 64-bit product the code keeps). *)
Theorem infer_size_sound_for_view (shape r : list Z) (numel : Z) :
  in_S 64 numel → 0 ≤ numel → infer_size shape numel = Ok r →
  length r = length shape ∧
  (∀ i s, shape !! i = Some s → s ≠ -1 → r !! i = Some s) ∧
  Forall (λ s, 0 ≤ s) r ∧ int64 (prodl r) = numel.
Proof. apply infer_size_sound. Qed.

Lemma infer_size_sound_for_view_witness : Forall (λ s, 0 ≤ s) [2; 3] ∧ int64 (prodl [2; 3]) = 6.
Proof.
  apply (infer_size_sound_for_view [2; -1] [2; 3] 6); [split; done|lia|reflexivity].
Defined.

(** ** Contiguity *)

Lemma sumf_single f n j : (j < n)%nat → (∀ k, (k < n)%nat → k ≠ j → f k = 0) → sumf f n = f j.
Proof.
  induction n as [|n IH]; intros Hj Hz; [lia|]. cbn. destruct (decide (j = n)) as [->|Hne].
  - rewrite (sumf_zeros f 0 n); [cbn; lia|lia|]. intros k Hk. apply Hz; lia.
  - rewrite IH by (try lia; intros; apply Hz; lia). rewrite (Hz n) by lia. lia.
Qed.

Lemma row_major_strides sizes strides :
  length strides = length sizes → small sizes →
  (strides_match sizes strides 0 ↔ ∀ idx, in_range sizes idx → offset strides idx = row_major sizes idx).
Proof.
  intros Hl Hs. split; [by intros Hm idx Hr; apply contiguous_offset|]. intros Hoff k [_ Hk] Hne.
  destruct (dimr_build (λ j, if decide (j = k) then 1 else 0) (length sizes)) as (idx & Hli & Hidx).
  assert (Hr : in_range sizes idx).
  { apply in_range_dimr. split; [done|]. intros j Hj. rewrite Hidx by done. pose proof (proj1 Hs j Hj).
    case_decide; [subst; lia|lia]. }
  specialize (Hoff idx Hr). rewrite offset_sumf in Hoff by lia. unfold row_major in Hoff. rewrite Hl in Hoff.
  rewrite (sumf_single _ _ k), (sumf_single _ _ k) in Hoff; try done;
    try (intros j Hj Hjk; rewrite Hidx, decide_False by done; lia).
  rewrite Hidx, decide_True in Hoff by done. rewrite prod64_small by (done || lia). lia.
Qed.

(** for sizes that are positive and whose product fits in 64 bits, [geometry_is_contiguous]
    answers true exactly when the strides number the elements in row-major order, and that
    numbering is then a bijection between the indices and the first [numel] places. *)
Theorem contiguous_is_row_major (sizes strides : list Z) :
  length strides = length sizes → small sizes →
  (geometry_is_contiguous sizes strides = Ok true ↔
   ∀ idx, in_range sizes idx → offset strides idx = row_major sizes idx) ∧
  (geometry_is_contiguous sizes strides = Ok true →
   (∀ i j, in_range sizes i → in_range sizes j → offset strides i = offset strides j → i = j) ∧
   ∀ o, 0 ≤ o < prodl sizes ↔ ∃ idx, in_range sizes idx ∧ offset strides idx = o).
Proof.
  intros Hl Hs. destruct (geometry_is_contiguous_spec sizes strides Hl) as (b & -> & Hb).
  assert (Hm : Ok b = Ok true ↔ strides_match sizes strides 0).
  { split.
    - intros [= ->]. destruct (proj1 Hb eq_refl) as [(k & Hk & E)|]; [|done]. pose proof (proj1 Hs k ltac:(lia)). lia.
    - intros H. by rewrite (proj2 Hb (or_intror H)). }
  rewrite Hm. split; [by apply row_major_strides|]. intros Hc.
  destruct (contiguous_bijection sizes strides Hl Hs Hc) as (H1 & H2 & H3). split; [exact H2|].
  intros o. rewrite prodl_prodf. split; [apply H3|]. intros (idx & Hr & <-). by apply H1.
Qed.

Lemma contiguous_is_row_major_witness : offset [3; 1] [1; 2] = row_major [2; 3] [1; 2].
Proof.
  refine (proj1 (proj1 (contiguous_is_row_major [2; 3] [3; 1] _ _)) _ [1; 2] _);
    [reflexivity| |reflexivity|repeat constructor; vm_compute; done].
  split; [|vm_compute; done]. intros k Hk. destruct k as [|[|k]]; vm_compute; [done|done|cbn in Hk; lia].
Defined.

(** the strides [defaultStrides] computes are as many as the sizes and contiguous, for all
    sizes, overflow of the 64-bit products included. *)
Theorem defaultStrides_contiguous (sizes : list Z) :
  ∃ strides, defaultStrides sizes = Ok strides ∧ length strides = length sizes ∧
    geometry_is_contiguous sizes strides = Ok true.
Proof.
  destruct (defaultStrides_spec sizes) as (st & E & Hl & Hst). exists st. split; [done|]. split; [done|].
  destruct (geometry_is_contiguous_spec sizes st Hl) as (b & -> & Hb). rewrite (proj2 Hb); [done|].
  right. intros k Hk _. apply Hst; lia.
Qed.

(** for positive sizes and non-negative strides, [computeStorageSize] is the least size of a
    storage the elements fit in: every offset is below it, and one offset is the last place. *)
Theorem computeStorageSize_tight (sizes strides : list Z) :
  length strides = length sizes → (∀ k, (k < length sizes)%nat → 0 < dimr sizes k ∧ 0 ≤ dimr strides k) →
  extent sizes strides < 2 ^ 63 →
  ∃ n, computeStorageSize sizes strides = Ok n ∧
    (∀ idx, in_range sizes idx → 0 ≤ offset strides idx < n) ∧
    ∃ idx, in_range sizes idx ∧ offset strides idx = n - 1.
Proof.
  intros Hl Hp He. exists (extent sizes strides).
  destruct (offset_last sizes strides Hl) as (last & Hr & Hlast); [intros; by apply Hp|].
  pose proof (offset_extent sizes strides last Hl (λ k Hk, proj2 (Hp k Hk)) Hr) as Hpos. split; [|split].
  - rewrite computeStorageSize_spec by done. rewrite int64_id by (apply in_S64_iff; lia).
    destruct (existsb (Z.eqb 0) sizes) eqn:E; [|done]. apply existsb_exists in E as (x & Hx & E).
    apply Z.eqb_eq in E. subst x. apply list_elem_of_In, list_elem_of_lookup in Hx as [i Ei].
    pose proof (dimr_of_lookup _ _ _ Ei) as Hd. apply lookup_lt_Some in Ei.
    pose proof (proj1 (Hp (length sizes - 1 - i)%nat ltac:(lia))). lia.
  - intros idx Hi. apply offset_extent; [done|intros; by apply Hp|done].
  - by exists last.
Qed.

Lemma computeStorageSize_tight_witness :
  ∃ n, computeStorageSize [2; 3] [10; 2] = Ok n ∧ ∃ idx, in_range [2; 3] idx ∧ offset [10; 2] idx = n - 1.
Proof.
  destruct (computeStorageSize_tight [2; 3] [10; 2]) as (n & E & _ & H); [reflexivity| |vm_compute; done|by exists n].
  intros k Hk. destruct k as [|[|k]]; vm_compute; [done|done|cbn in Hk; lia].
Defined.

(** ** [view] *)

(** C36: when [THTensor_compute_stride] finds strides for a new shape of the same number of
    elements (below 2^31), the view it describes has the same elements in the same row-major
    order: the element at a place in the new shape is at the offset of the element at that
    place in the old one. *)
Theorem compute_stride_keeps_order (oldshape oldstride newshape : list Z) (N : Z) :
  oldshape ≠ [] → length oldstride = length oldshape →
  (∀ k, (k < length oldshape)%nat → 0 < dimr oldshape k) →
  (∀ k, (k < length newshape)%nat → 0 < dimr newshape k) →
  prodl oldshape = N → prodl newshape = N → N < 2 ^ 31 →
  (∀ k, (k < length oldshape)%nat → in_S 64 (N * dimr oldstride k)) →
  ∃ r, THTensor_compute_stride oldshape oldstride newshape = Ok r ∧
    ∀ st, r = Some st → length st = length newshape ∧
      ∀ i j, in_range oldshape i → in_range newshape j →
        row_major oldshape i = row_major newshape j → offset oldstride i = offset st j.
Proof. apply compute_stride_lemma. Qed.

Lemma compute_stride_keeps_order_witness :
  ∃ r, THTensor_compute_stride [4; 6] [12; 2] [2; 2; 3; 2] = Ok r.
Proof.
  destruct (compute_stride_keeps_order [4; 6] [12; 2] [2; 2; 3; 2] 24) as (r & E & _);
    [done|reflexivity| | |reflexivity|reflexivity|vm_compute; done| |by exists r].
  - intros k Hk. destruct k as [|[|k]]; vm_compute; [done|done|cbn in Hk; lia].
  - intros k Hk. destruct k as [|[|[|[|k]]]]; vm_compute; [done|done|done|done|cbn in Hk; lia].
  - intros k Hk. destruct k as [|[|k]]; vm_compute; [done|done|cbn in Hk; lia].
Defined.

(** the bound on the number of elements is needed.  The element count is accumulated in an
    [int], so that a transposed tensor of 65536 by 65536 elements counts as empty, and the
    function returns strides for the flat view, which reads other elements. *)
Theorem compute_stride_int_overflow :
  THTensor_compute_stride [65536; 65536] [1; 65536] [4294967296] = Ok (Some [1]) ∧
  ∃ i j, in_range [65536; 65536] i ∧ in_range [4294967296] j ∧
    row_major [65536; 65536] i = row_major [4294967296] j ∧ offset [1; 65536] i ≠ offset [1] j.
Proof.
  split; [vm_compute; reflexivity|]. exists [0; 1], [1]. repeat split; try done; repeat constructor; vm_compute; done.
Qed.
