(* ===== verification/TensorProperties.v ===== *)
(** * The properties of tensors and their views

    The cached properties of [TensorImpl], the bounds check of [setStrided], and the
    elements each view operation of native/TensorShape.cpp selects. *)
From S2P Require Import Prelude CoreTypes ScalarTypes TensorIds Options Geometry Strides TensorImpl Views ViewsSpec ComputeStride.
Local Open Scope Z_scope.
#[local] Set Warnings "-clear-no-such-hyp".

(** ** [TensorImpl] *)

Lemma run_good (os : list TensorImpl.op) (t : TensorImpl) :
  forallb TensorImpl.op_ok os = true → TensorImpl.good t → TensorImpl.good (TensorImpl.run os t).
Proof.
  revert t. induction os as [|o os IH]; intros t Ho Hg; [done|]. cbn in Ho. apply andb_true_iff in Ho as [Ho Hos].
  apply IH; [done|]. by apply TensorImpl.good_run_op.
Qed.

(** C37: whatever operations change the metadata of a new tensor, and whichever of them throw:
    it has as many strides as sizes, [numel_] is the product of the sizes and
    [is_contiguous_] is what [compute_contiguous] answers. *)
Theorem cached_properties_hold `{TensorIds} (storage : Storage) (type_id : Z) (t : TensorImpl) (os : list TensorImpl.op) :
  TensorImpl.TensorImpl_of_storage storage type_id = Ok t → forallb TensorImpl.op_ok os = true →
  let t' := TensorImpl.run os t in
  length (strides t') = length (sizes t') ∧
  TensorImpl.compute_numel t' = Ok (TensorImpl.numel_ t') ∧
  TensorImpl.compute_contiguous t' = Ok (TensorImpl.is_contiguous_ t').
Proof.
  intros E Ho. destruct (run_good os t Ho (TensorImpl.good_new _ _ _ E)) as [[H1 H2 H3] _]. done.
Qed.

(** [TensorImpl::compute_contiguous] and [geometry_is_contiguous] are two loops for one
    question: on a tensor whose [numel_] is right, they give the same answer, for sizes that
    are not negative and whose product fits in 64 bits. *)
Theorem contiguity_loops_agree (t : TensorImpl) :
  TensorImpl.wf t → (small (sizes t) ∨ (nonneg (sizes t) ∧ 0 ∈ sizes t)) →
  TensorImpl.compute_contiguous t = geometry_is_contiguous (sizes t) (strides t).
Proof.
  intros [Hl Hn _] Hs. destruct (TensorImpl.compute_contiguous_spec t Hl) as (a & -> & Ha).
  destruct (geometry_is_contiguous_spec (sizes t) (strides t) Hl) as (b & -> & Hb).
  f_equal. apply eq_bool_prop_intro. rewrite !Is_true_true, Ha, Hb.
  enough (TensorImpl.numel_ t = 0 ↔ empty_beyond (sizes t) 0) by tauto.
  rewrite TensorImpl.compute_numel_eq in Hn. apply Ok_inj in Hn. rewrite <- Hn.
  destruct Hs as [Hs|[Hnn Hz]].
  - assert (Hp : 0 < prodl (sizes t) < 2 ^ 63).
    { rewrite ComputeStride.prodl_prodf. split; [by apply prodf_pos, Hs|apply Hs]. }
    rewrite int64_id by (apply in_S64_iff; lia). split; [lia|]. intros (k & Hk & E).
    pose proof (proj1 Hs k ltac:(unfold sizes in *; lia)). lia.
  - split; intros _.
    + apply list_elem_of_lookup in Hz as [i Ei]. exists (length (sizes t) - 1 - i)%nat.
      pose proof (lookup_lt_Some _ _ _ Ei). split; [unfold sizes in *; lia|by apply dimr_of_lookup].
    + apply list_elem_of_split in Hz as (l1 & l2 & ->). rewrite prodl_app.
      change (prodl (0 :: l2)) with (0 * prodl l2). by rewrite Z.mul_0_r.
Qed.

(** ** [setStrided] *)
Section Strided.
Implicit Types (t : Tensor).

Lemma setStrided_Ok t size stride off t' :
  TensorImpl.is_variable t = false → setStrided size stride off t = (Ok tt, t') →
  checkInBoundsForStorage size stride off (TensorImpl.storage_ t) = Ok tt ∧ 0 ≤ off ∧ length size = length stride ∧
  sizes t' = size ∧ TensorImpl.storage_ t' = TensorImpl.storage_ t ∧ storage_offset t' = off ∧
  length (strides t') = length size ∧
  ∀ k, (k < length size)%nat → 0 ≤ dimr stride k → dimr (strides t') k = dimr stride k.
Proof.
  intros Hv. unfold setStrided, mbind at 1 2 3, SE_bind at 1 2 3, get, lift.
  destruct (checkInBoundsForStorage _ _ _ _) as [[]|e]; [|done]. unfold AT_CHECK at 1.
  destruct (Z.leb_spec 0 off); [|done]. cbn [mret SE_ret]. unfold mbind at 1, SE_bind at 1, TensorImpl.set_storage_offset.
  rewrite TensorImpl.metadata_guard. destruct (TensorImpl.allow_tensor_metadata_change_ t) eqn:Ha; [|done].
  unfold modify. set (t1 := TensorImpl.with_offset off t). unfold mbind at 1, SE_bind at 1, AT_ASSERT, AT_CHECK.
  destruct (Nat.eqb_spec (length size) (length stride)) as [El|]; [|done]. cbn [mret SE_ret].
  unfold mbind, SE_bind. case_match eqn:Eb.
  - apply andb_true_iff in Eb as [E1 E2]. apply bool_decide_eq_true in E1, E2.
    intros E. injection E as <-. subst. split; [done|]. split; [done|]. split; [done|]. repeat split; done.
  - destruct (TensorImpl.set_sizes_and_strides_Ok t1 size stride Ha Hv El) as (v & -> & Hlv & Hk).
    intros E. injection E as <-. split; [done|]. split; [done|]. split; [done|]. repeat split; [done..|].
    intros k Hkl Hst. change (dimr v k = dimr stride k). rewrite Hk by done.
    unfold TensorImpl.stored_stride. by rewrite (proj2 (Z.leb_le _ _)).
Qed.

(** C38: when [setStrided] accepts sizes and strides that are not negative (and the last place does
    not overflow 64 bits), the tensor has them, and every element it now has lies inside its
    storage, at the offset the strides give. *)
Theorem setStrided_in_bounds t (size stride : list Z) (off : Z) t' :
  TensorImpl.is_variable t = false →
  (∀ k, (k < length size)%nat → 0 ≤ dimr size k ∧ 0 ≤ dimr stride k) →
  in_S 64 off → extent size stride < 2 ^ 63 → off + extent size stride < 2 ^ 63 →
  setStrided size stride off t = (Ok tt, t') →
  sizes t' = size ∧ TensorImpl.storage_ t' = TensorImpl.storage_ t ∧ storage_offset t' = off ∧
  ∀ idx, in_range size idx →
    position t' idx = off + offset stride idx ∧ 0 ≤ position t' idx < storage_numel (TensorImpl.storage_ t).
Proof.
  intros Hv Hp Ho Hx Hox E.
  destruct (setStrided_Ok t size stride off t' Hv E) as (Hc & Hoff & Hl & Hsz & Hsto & Hof & Hls & Hst).
  split; [done|]. split; [done|]. split; [done|]. intros idx Hr.
  assert (Epos : position t' idx = off + offset stride idx).
  { unfold position. rewrite Hof. f_equal. apply (offset_agree size); [done|done| |done].
    intros k Hk. right. by apply Hst, Hp. }
  rewrite Epos. split; [done|].
  pose proof (offset_extent size stride idx (eq_sym Hl) (λ k Hk, proj2 (Hp k Hk)) Hr) as Hb.
  split; [lia|]. unfold checkInBoundsForStorage in Hc. rewrite computeStorageSize_spec, Ok_bind in Hc by done.
  assert (Hz : existsb (Z.eqb 0) size = false).
  { apply nonneg_zero; [intros k Hk; by apply Hp|]. by eapply in_range_nonempty. }
  rewrite Hz in Hc. rewrite int64_id in Hc by (apply in_S64_iff; lia).
  rewrite (proj2 (Z.eqb_neq _ _)) in Hc by lia. rewrite add64_exact in Hc by (apply in_S64_iff; lia).
  apply AT_CHECK_Ok, Z.leb_le in Hc. lia.
Qed.
End Strided.

(** ** Views *)
Section WithIds.
Context `{ids : TensorIds}.
Implicit Types (self : Tensor).

(** [expand] of a tensor in its storage returns a tensor in the same storage, with the
    target sizes (the old size where -1 is asked for), whose elements are those of the source
    at the index with the broadcast dimensions read at 0; it never reads elsewhere. *)
Theorem expand_reads_source self (size : list Z) :
  placed self → sizes self ≠ [] → (length (sizes self) ≤ length size)%nat →
  (∀ k, (k < length size)%nat → -1 ≤ dimr size k ∧ expandable_dim (sizes self) size k) →
  ∃ r, expand self size = Ok r ∧ placed r ∧ length (sizes r) = length size ∧
    (∀ k, (k < length size)%nat → dimr (sizes r) k = target (sizes self) size k) ∧
    ∀ idx, in_range (sizes r) idx → position r idx = position self (source_index (sizes self) idx).
Proof. apply expand_lemma. Qed.

(** [slice] returns the elements from the clamped start to the clamped end, every [step]-th,
    negative bounds counted from the end, and leaves the storage alone. *)
Theorem slice_reads_source self (dm : Z) (d : nat) (n x start end_ step : Z) :
  let s := clamp n start in
  let e := Z.max s (clamp n end_) in
  placed self → - TensorImpl.dim self ≤ dm < TensorImpl.dim self →
  Z.of_nat d = dm mod TensorImpl.dim self →
  sizes self !! d = Some n → strides self !! d = Some x →
  in_S 64 start → in_S 64 end_ → 0 < step → n + step < 2 ^ 63 →
  0 ≤ storage_offset self + s * x < 2 ^ 63 →
  ∃ r, slice self dm start end_ step = Ok r ∧ placed r ∧
    sizes r = <[d := slice_len s e step]> (sizes self) ∧
    TensorImpl.storage_ r = TensorImpl.storage_ self ∧
    ∀ idx, in_range (sizes r) idx → position r idx = position self (slice_index d s step idx).
Proof. apply slice_lemma. Qed.

(** [select] drops the dimension and reads it at the index, a negative one counted from
    the end. *)
Theorem select_reads_source self (dm : Z) (d : nat) (n x index : Z) :
  placed self → - TensorImpl.dim self ≤ dm < TensorImpl.dim self →
  Z.of_nat d = dm mod TensorImpl.dim self →
  sizes self !! d = Some n → strides self !! d = Some x →
  - n ≤ index < n → 0 ≤ storage_offset self + (index mod n) * x < 2 ^ 63 →
  ∃ r, select self dm index = Ok r ∧ placed r ∧ sizes r = delete d (sizes self) ∧
    TensorImpl.storage_ r = TensorImpl.storage_ self ∧
    ∀ idx, in_range (sizes r) idx → position r idx = position self (insert_index d (index mod n) idx).
Proof. apply select_lemma. Qed.

(** [permute] by dimensions that are a permutation once wrapped moves sizes and strides
    together: the element at an index is the element of the source at the permuted index. *)
Theorem permute_reads_source self (dims : list Z) :
  let sigma := wrapped_dims (TensorImpl.dim self) dims in
  placed self → is_perm (length (sizes self)) sigma →
  Forall (λ d, - TensorImpl.dim self ≤ d < TensorImpl.dim self) dims →
  ∃ r, permute self dims = Ok r ∧ placed r ∧ sizes r = gather (sizes self) sigma ∧
    TensorImpl.storage_ r = TensorImpl.storage_ self ∧
    ∀ idx, in_range (sizes r) idx → position r idx = position self (perm_source sigma idx).
Proof. apply permute_lemma. Qed.

(** [unsqueeze] inserts a dimension of size 1 at the wrapped place (the last one
    included), and the elements are those of the source. *)
Theorem unsqueeze_reads_source self (dm : Z) (d : nat) :
  placed self → - (TensorImpl.dim self + 1) ≤ dm < TensorImpl.dim self + 1 →
  Z.of_nat d = dm mod (TensorImpl.dim self + 1) →
  ∃ r, unsqueeze self dm = Ok r ∧ placed r ∧ sizes r = take d (sizes self) ++ 1 :: drop d (sizes self) ∧
    TensorImpl.storage_ r = TensorImpl.storage_ self ∧
    ∀ idx, in_range (sizes r) idx → position r idx = position self (delete d idx).
Proof. apply unsqueeze_lemma. Qed.

(** An element of a piece and its index in the source. *)
Definition in_piece (ps : list Tensor) (d : nat) (split_size : Z) (i : nat) (idx' idx : list Z) : Prop :=
  ∃ p, ps !! i = Some p ∧ in_range (sizes p) idx' ∧ idx = slice_index d (Z.of_nat i * split_size) 1 idx'.

Lemma in_piece_unique self d n split_size (ps : list Tensor) i1 i2 idx1 idx2 idx :
  0 < split_size → sizes self !! d = Some n →
  (∀ i p, ps !! i = Some p → piece self d n split_size i p) →
  in_piece ps d split_size i1 idx1 idx → in_piece ps d split_size i2 idx2 idx → i1 = i2 ∧ idx1 = idx2.
Proof.
  intros Hs En Hps (p1 & E1 & Hr1 & ->) (p2 & E2 & Hr2 & E).
  destruct (Hps _ _ E1) as (_ & Sz1 & _), (Hps _ _ E2) as (_ & Sz2 & _). rewrite Sz1 in Hr1. rewrite Sz2 in Hr2.
  pose proof (lookup_lt_Some _ _ _ En) as Hd.
  destruct (in_range_at _ _ d _ Hr1 ltac:(by apply list_lookup_insert_eq)) as (x1 & X1 & B1).
  destruct (in_range_at _ _ d _ Hr2 ltac:(by apply list_lookup_insert_eq)) as (x2 & X2 & B2).
  unfold slice_index in E. rewrite X1, X2 in E. cbn in E.
  pose proof (lookup_lt_Some _ _ _ X1) as L1. pose proof (lookup_lt_Some _ _ _ X2) as L2.
  pose proof (f_equal (λ l, l !! d) E) as Ed. cbn in Ed. rewrite !list_lookup_insert_eq in Ed by done. injection Ed as Ed.
  assert (i1 = i2) as <- by nia. split; [done|]. assert (x1 = x2) as <- by lia.
  apply list_eq. intros j. destruct (decide (j = d)) as [->|Hj]; [congruence|].
  pose proof (f_equal (λ l, l !! j) E) as Ej. cbn in Ej. by rewrite !list_lookup_insert_ne in Ej by done.
Qed.

(** [split] cuts the dimension into as many pieces as it says, all of the requested size
    but the last, which is smaller; every element of the tensor is in exactly one piece, at
    exactly one index, and reading it there reads the same place of the storage. *)
Theorem split_partitions self (dm : Z) (d : nat) (n x split_size : Z) :
  placed self → - TensorImpl.dim self ≤ dm < TensorImpl.dim self →
  Z.of_nat d = dm mod TensorImpl.dim self →
  sizes self !! d = Some n → strides self !! d = Some x →
  0 < split_size → n + split_size < 2 ^ 63 → 0 ≤ x → storage_offset self + n * x < 2 ^ 63 →
  ∃ ps, split self split_size dm = Ok ps ∧ Z.of_nat (length ps) = num_splits n split_size ∧
    (∀ i p, ps !! i = Some p → piece self d n split_size i p) ∧
    ∀ idx, in_range (sizes self) idx →
      ∃ i idx', in_piece ps d split_size i idx' idx ∧
        ∀ j idx'', in_piece ps d split_size j idx'' idx → i = j ∧ idx' = idx''.
Proof.
  intros Hp Hdm Hd En Ex Hs Hns Hx Hoff.
  destruct (split_lemma self dm d n x split_size Hp Hdm Hd En Ex Hs Hns Hx Hoff) as (ps & E & Hlen & Hps).
  exists ps. split; [done|]. split; [done|]. split; [done|]. intros idx Hr.
  destruct (in_range_at _ _ d n Hr En) as (v & Ev & Bv).
  pose proof (lookup_lt_Some _ _ _ Ev) as Ld. pose proof (lookup_lt_Some _ _ _ En) as Ln.
  set (i := Z.to_nat (v / split_size)). set (idx' := <[d := v mod split_size]> idx).
  assert (Hi : Z.of_nat i = v / split_size) by (apply Z2Nat.id, Z.div_pos; lia).
  pose proof (Z.div_mod v split_size ltac:(lia)) as Hdiv. pose proof (Z.mod_pos_bound v split_size Hs) as Hmod.
  assert (Hlt : (i < length ps)%nat).
  { assert (Z.of_nat i < num_splits n split_size); [|lia]. apply num_splits_spec; [lia|done|lia|]. right. rewrite Hi. nia. }
  destruct (lookup_lt_is_Some_2 ps i Hlt) as [p Ep].
  assert (Hin : in_piece ps d split_size i idx' idx).
  { exists p. split; [done|]. destruct (Hps i p Ep) as (_ & Sz & _). rewrite Sz. split.
    - apply in_range_lookup. apply in_range_lookup in Hr as [Hl Hr]. unfold idx'. rewrite !length_insert.
      split; [done|]. intros j s y Es Ey. destruct (decide (j = d)) as [->|Hj].
      + rewrite list_lookup_insert_eq in Es, Ey by done. injection Es as <-. injection Ey as <-. rewrite Hi. nia.
      + rewrite list_lookup_insert_ne in Es, Ey by done. by apply (Hr j).
    - unfold slice_index, idx'. rewrite list_lookup_insert_eq by done. cbn. rewrite list_insert_insert_eq.
      symmetry. apply list_insert_id. rewrite Ev. f_equal. rewrite Hi. lia. }
  exists i, idx'. split; [done|]. intros j idx'' Hj. by eapply in_piece_unique.
Qed.
End WithIds.

(** ** Instances *)
Section Witnesses.
#[local] Existing Instance TensorTypeIds.startup_ids.

Definition sample_storage (n : Z) : Storage := mkStorage (Make c_float) (Device.mkDevice DeviceType.CPU (-1)) n.

(** A contiguous tensor of 2 by 3 by 4 elements. *)
Definition sample : Tensor :=
  TensorImpl.mkTensorImpl (sample_storage 24) [2; 3; 4] [12; 4; 1] 0 24 (Make c_float)
    (Some (Device.mkDevice DeviceType.CPU (-1))) (tid CPUTensorId) true false true false false.

(** What the constructor makes of a storage. *)
Definition sample_new : Tensor :=
  TensorImpl.mkTensorImpl (sample_storage 24) [0] [1] 0 0 (Make c_float)
    (Some (Device.mkDevice DeviceType.CPU (-1))) (tid CPUTensorId) true false true false false.

Lemma below3 (P : nat → Prop) : P 0%nat → P 1%nat → P 2%nat → ∀ k, (k < 3)%nat → P k.
Proof. intros H0 H1 H2 [|[|[|k]]] Hk; [done..|lia]. Qed.

Lemma placed_sample : placed sample.
Proof.
  split; try done.
  - intros k Hk. revert k Hk. apply below3; vm_compute; done.
  - intros _ k Hk. right. revert k Hk. apply below3; vm_compute; done.
  - by left.
Qed.

(** the bounds check of [setStrided] is no protection against negative strides.  It accepts
    one on a storage it leaves the check inside of, and then the stride is replaced by a
    positive one: the tensor has elements outside its storage of one element. *)
Theorem setStrided_negative_stride_escapes :
  let t := TensorImpl.mkTensorImpl (sample_storage 1) [1] [1] 0 1 (Make c_float) None 1 true false true false false in
  let t' := (setStrided [5] [-1] 0 t).2 in
  (setStrided [5] [-1] 0 t).1 = Ok tt ∧ strides t' = [1] ∧
  in_range (sizes t') [4] ∧ storage_numel (TensorImpl.storage_ t') = 1 ∧ position t' [4] = 4.
Proof. vm_compute. repeat split; repeat constructor; done. Qed.

Lemma cached_properties_hold_witness :
  let os := [TensorImpl.op_set_sizes_and_strides [2; 3] [1; 2]; TensorImpl.op_set_size 0 4; TensorImpl.op_resize_dim 3] in
  ∃ t, TensorImpl.TensorImpl_of_storage (sample_storage 24) (tid CPUTensorId) = Ok t ∧
    TensorImpl.compute_contiguous (TensorImpl.run os t) = Ok (TensorImpl.is_contiguous_ (TensorImpl.run os t)).
Proof.
  intros os. exists sample_new.
  assert (E : TensorImpl.TensorImpl_of_storage (sample_storage 24) (tid CPUTensorId) = Ok sample_new).
  { unfold TensorImpl.TensorImpl_of_storage, TensorImpl.TensorImpl_new, AT_ASSERT.
    rewrite AT_CHECK_bind_true by (by rewrite orb_true_r). reflexivity. }
  split; [exact E|]. exact (proj2 (proj2 (cached_properties_hold _ _ _ os E eq_refl))).
Defined.

Lemma contiguity_loops_agree_witness :
  TensorImpl.compute_contiguous sample = geometry_is_contiguous [2; 3; 4] [12; 4; 1].
Proof.
  apply (contiguity_loops_agree sample); [split; vm_compute; reflexivity|left; split; [|vm_compute; done]].
  intros k Hk. revert k Hk. apply below3; vm_compute; done.
Defined.

Lemma setStrided_in_bounds_witness :
  let t' := (setStrided [3; 2] [4; 1] 2 sample).2 in
  sizes t' = [3; 2] ∧ storage_offset t' = 2 ∧ 0 ≤ position t' [2; 1] < 24.
Proof.
  intros t'. destruct (setStrided_in_bounds sample [3; 2] [4; 1] 2 t') as (H1 & _ & H2 & H3).
  - reflexivity.
  - intros k Hk. destruct k as [|[|k]]; [vm_compute; done|vm_compute; done|cbn in Hk; lia].
  - split; vm_compute; done.
  - vm_compute; done.
  - vm_compute; done.
  - vm_compute; reflexivity.
  - split; [exact H1|]. split; [exact H2|]. apply (H3 [2; 1]). repeat constructor; vm_compute; done.
Defined.

Lemma expand_reads_source_witness :
  ∃ r, expand sample [5; 2; 3; 4] = Ok r ∧ placed r.
Proof.
  destruct (expand_reads_source sample [5; 2; 3; 4]) as (r & E & Hr & _); [apply placed_sample|done|cbn; lia| |exists r; split; [exact E|exact Hr]].
  intros k Hk. destruct k as [|[|[|[|k]]]]; [..|cbn in Hk; lia]; (split; [vm_compute; done|split; [done|vm_compute; auto]]).
Defined.

Lemma slice_reads_source_witness :
  ∃ r, slice sample (-1) 1 (-1) 2 = Ok r ∧ sizes r = [2; 3; 1] ∧ position r [1; 2; 0] = position sample [1; 2; 1].
Proof.
  destruct (slice_reads_source sample (-1) 2 4 1 1 (-1) 2) as (r & E & _ & Hs & _ & Hr);
    [apply placed_sample|vm_compute; done|reflexivity|reflexivity|reflexivity|split; done|split; done|lia|lia|
     vm_compute; done|].
  exists r. split; [exact E|]. split; [exact Hs|]. rewrite (Hr [1; 2; 0]); [reflexivity|].
  rewrite Hs. repeat constructor; vm_compute; done.
Defined.

Lemma select_reads_source_witness :
  ∃ r, select sample 1 (-1) = Ok r ∧ sizes r = [2; 4].
Proof.
  destruct (select_reads_source sample 1 1 3 4 (-1)) as (r & E & _ & Hs & _);
    [apply placed_sample|vm_compute; done|reflexivity|reflexivity|reflexivity|lia|vm_compute; done|exists r; split; [exact E|exact Hs]].
Defined.

Lemma permute_reads_source_witness :
  ∃ r, permute sample [2; 0; -2] = Ok r ∧ sizes r = [4; 2; 3].
Proof.
  destruct (permute_reads_source sample [2; 0; -2]) as (r & E & _ & Hs & _); [apply placed_sample| | |exists r; split; [exact E|exact Hs]].
  - split; [reflexivity|]. split; [|repeat constructor; vm_compute; lia].
    vm_compute. repeat constructor; set_solver.
  - repeat constructor; vm_compute; done.
Defined.

Lemma unsqueeze_reads_source_witness :
  ∃ r, unsqueeze sample (-2) = Ok r ∧ sizes r = [2; 3; 1; 4].
Proof.
  destruct (unsqueeze_reads_source sample (-2) 2) as (r & E & _ & Hs & _);
    [apply placed_sample|vm_compute; done|reflexivity|exists r; split; [exact E|exact Hs]].
Defined.

Lemma split_partitions_witness :
  ∃ ps, split sample 3 2 = Ok ps ∧ Z.of_nat (length ps) = 2.
Proof.
  destruct (split_partitions sample 2 2 4 1 3) as (ps & E & Hl & _);
    [apply placed_sample|vm_compute; done|reflexivity|reflexivity|reflexivity|lia|lia|lia|vm_compute; done|].
  exists ps. split; [exact E|exact Hl].
Defined.
End Witnesses.
