(* ===== verification/DynamicDAG.v ===== *)
(** * The dynamic DAG (torch/csrc/jit/dynamic_dag.h)

    A graph on heap-allocated vertices whose topological order is kept up to date
    as edges come and go (Pearce and Kelly's algorithm).  Vertices are pointers
    into the store [heap]; [vertices_] is the vector of owning pointers indexed by
    topological order, with gaps; the vertices whose flag [visited_] is set are the
    set [visited_].  A dereference of a vertex that is not in the store, and an
    erase of an element that is not there, are undefined behaviour. *)
From stdpp Require Import sorting.
From S2P Require Import Prelude.

Module DynamicDAG.

Definition ptr : Type := nat.

Section Dag.
Context {T : Type}.

Record Vertex : Type := mkVertex {
  data : list T;
  ord : nat;
  in_edges : list ptr;
  out_edges : list ptr
}.

Record DAG : Type := mkDAG {
  heap : gmap ptr Vertex;
  vertices_ : list (option ptr);
  visited_ : gset ptr;
  next_ptr : ptr
}.

Definition empty_dag : DAG := mkDAG ∅ [] ∅ 0.

Definition with_heap (h : gmap ptr Vertex) (d : DAG) : DAG := mkDAG h (vertices_ d) (visited_ d) (next_ptr d).
Definition with_vertices (v : list (option ptr)) (d : DAG) : DAG := mkDAG (heap d) v (visited_ d) (next_ptr d).
Definition with_visited (s : gset ptr) (d : DAG) : DAG := mkDAG (heap d) (vertices_ d) s (next_ptr d).

Definition null_deref {M : Type → Type} `{MThrow exn M} {A} : M A := mthrow (Undefined "dangling pointer").

Definition lookup_vertex (v : ptr) (d : DAG) : outcome Vertex :=
  match heap d !! v with Some x => Ok x | None => null_deref end.

Definition deref (v : ptr) : SE DAG Vertex := λ d, (lookup_vertex v d, d).

(** A write through a pointer. *)
Definition update (v : ptr) (f : Vertex → Vertex) : SE DAG unit :=
  x ← deref v; modify (λ d, with_heap (<[v := f x]> (heap d)) d).

Definition set_ord (o : nat) (x : Vertex) : Vertex := mkVertex (data x) o (in_edges x) (out_edges x).
Definition set_data (l : list T) (x : Vertex) : Vertex := mkVertex l (ord x) (in_edges x) (out_edges x).
Definition set_in (l : list ptr) (x : Vertex) : Vertex := mkVertex (data x) (ord x) l (out_edges x).
Definition set_out (l : list ptr) (x : Vertex) : Vertex := mkVertex (data x) (ord x) (in_edges x) l.

(** *** [vertex_set] *)
Definition contains (s : list ptr) (v : ptr) : bool := bool_decide (v ∈ s).

(** [insert]: the set afterwards and whether [v] was new. *)
Definition set_insert (s : list ptr) (v : ptr) : list ptr * bool :=
  if contains s v then (s, false) else (s ++ [v], true).

(** [data_.erase(std::find(...))]: the first occurrence. *)
Fixpoint erase_first (s : list ptr) (v : ptr) : list ptr :=
  match s with
  | [] => []
  | x :: s => if bool_decide (x = v) then s else x :: erase_first s v
  end.
Definition set_erase (s : list ptr) (v : ptr) : outcome (list ptr) :=
  if contains s v then Ok (erase_first s v) else Throw (Undefined "erase of the end iterator").

Definition erase_out (v w : ptr) : SE DAG unit :=
  x ← deref v; s ← lift (set_erase (out_edges x) w); update v (set_out s).
Definition erase_in (v w : ptr) : SE DAG unit :=
  x ← deref v; s ← lift (set_erase (in_edges x) w); update v (set_in s).

(** *** Vertices *)
Definition newVertex (datum : T) : SE DAG ptr :=
  d ← get;
  let v := next_ptr d in
  put (mkDAG (<[v := mkVertex [datum] (length (vertices_ d)) [] []]> (heap d))
             (vertices_ d ++ [Some v]) (visited_ d) (S v));;
  mret v.

(** [vertices_[v->ord] = nullptr]: the owner goes, and the vertex with it. *)
Definition removeVertex (v : ptr) : SE DAG (list ptr * list ptr) :=
  x ← deref v;
  foreach (in_edges x) (λ parent, erase_out parent v);;
  foreach (out_edges x) (λ child, erase_in child v);;
  x ← deref v;
  d ← get;
  (if (ord x <? length (vertices_ d))%nat
   then put (with_heap (delete v (heap d)) (with_vertices (<[ord x := None]> (vertices_ d)) d))
   else null_deref);;
  mret (in_edges x, out_edges x).

Definition removeEdge (producer consumer : ptr) : SE DAG unit :=
  AT_ASSERT (negb (bool_decide (producer = consumer)));;
  p ← deref producer;
  AT_ASSERT (contains (out_edges p) consumer);;
  c ← deref consumer;
  AT_ASSERT (contains (in_edges c) producer);;
  erase_out producer consumer;;
  erase_in consumer producer.

(** [at(ord)]: throws out of range. *)
Definition at_ord (o : nat) : SE DAG (option ptr) :=
  d ← get;
  match vertices_ d !! o with
  | Some v => mret v
  | None => mthrow (StdOutOfRange "vector::_M_range_check")
  end.

Definition debugNumVertices (d : DAG) : nat := length (omap id (vertices_ d)).

(** One vertex of [debugCheckInvariants]. *)
Definition check_vertex (o : nat) (v : option ptr) : SE DAG unit :=
  match v with
  | None => mret tt
  | Some v =>
      x ← deref v;
      AT_ASSERT (ord x =? o)%nat;;
      foreach (in_edges x) (λ w, y ← deref w; AT_ASSERT (ord y <? o)%nat);;
      foreach (out_edges x) (λ w, y ← deref w; AT_ASSERT (o <? ord y)%nat)
  end.

Definition debugCheckInvariants : SE DAG unit :=
  d ← get; foreach (imap pair (vertices_ d)) (λ p, check_vertex p.1 p.2).

(** *** The searches *)
Inductive DFSDirection : Type := forward | backward.

Definition is_within_bound (direction : DFSDirection) (value bound : nat) : bool :=
  match direction with
  | forward => (value <? bound)%nat
  | backward => (bound <? value)%nat
  end.

Definition next_edges (direction : DFSDirection) (x : Vertex) : list ptr :=
  match direction with forward => out_edges x | backward => in_edges x end.

(** A search works on the graph and on the [visited_list] it is given. *)
Definition Search : Type → Type := SE (DAG * list ptr).

(** [visited_list::push_back]. *)
Definition visit (v : ptr) : Search unit := λ st,
  let '(d, l) := st in
  if bool_decide (v ∈ visited_ d) then (Throw (C10Error "assertion failed"), st)
  else (Ok tt, (with_visited ({[v]} ∪ visited_ d) d, l ++ [v])).

(** The loop over the edges of one vertex: whether [end] was found, and the stack. *)
Fixpoint scan (direction : DFSDirection) (end_ : ptr) (bound : nat) (nexts stack : list ptr)
  : Search (bool * list ptr) :=
  match nexts with
  | [] => mret (false, stack)
  | next :: nexts =>
      if bool_decide (next = end_) then visit next;; mret (true, next :: stack)
      else
        st ← get;
        if bool_decide (next ∈ visited_ st.1) then scan direction end_ bound nexts stack
        else
          x ← lift (lookup_vertex next st.1);
          if is_within_bound direction (ord x) bound
          then visit next;; scan direction end_ bound nexts (next :: stack)
          else scan direction end_ bound nexts stack
  end.

(** The loop that pops vertices; the head of the list is the top of the stack. *)
Fixpoint dfs_loop (fuel : nat) (direction : DFSDirection) (end_ : ptr) (bound : nat) (stack : list ptr)
  : Search bool :=
  match fuel with
  | O => mthrow (Undefined "out of fuel")
  | S fuel =>
      match stack with
      | [] => mret false
      | vertex :: stack =>
          st ← get;
          x ← lift (lookup_vertex vertex st.1);
          r ← scan direction end_ bound (next_edges direction x) stack;
          if r.1 : bool then mret true else dfs_loop fuel direction end_ bound r.2
      end
  end.

(** Every vertex is pushed at most once, so that one iteration per vertex and one
    for the empty stack are enough. *)
Definition dfs_fuel (d : DAG) : nat := S (size (heap d)).

Definition dfsSearch (direction : DFSDirection) (start end_ : ptr) (bound : nat) : Search bool :=
  visit start;;
  st ← get;
  dfs_loop (dfs_fuel st.1) direction end_ bound [start].

(** The destructor of a [visited_list]. *)
Definition unvisit (l : list ptr) (d : DAG) : DAG := with_visited (visited_ d ∖ list_to_set l) d.

(** *** Reordering *)

(** [sort]: the vertices of a list with their [ord], in increasing order. *)
Definition with_ords (l : list ptr) : SE DAG (list (nat * ptr)) := λ d,
  ((fix go (l : list ptr) : outcome (list (nat * ptr)) :=
     match l with
     | [] => Ok []
     | v :: l => x ← lookup_vertex v d; r ← go l; Ok ((ord x, v) :: r)
     end) l, d).

Definition ord_le (a b : nat * ptr) : Prop := (a.1 ≤ b.1)%nat.
#[global] Instance ord_le_dec a b : Decision (ord_le a b).
Proof. unfold ord_le. apply _. Defined.

Definition sort_by_ord (l : list ptr) : SE DAG (list (nat * ptr)) :=
  p ← with_ords l; mret (merge_sort ord_le p).

(** [std::move(vertices_.at(ord))]. *)
Definition take_vertex (o : nat) : SE DAG (option ptr) :=
  v ← at_ord o;
  modify (λ d, with_vertices (<[o := None]> (vertices_ d)) d);;
  mret v.

Fixpoint take_vertices (l : list (nat * ptr)) : SE DAG (list (option ptr)) :=
  match l with
  | [] => mret []
  | p :: l => v ← take_vertex p.1; r ← take_vertices l; mret (v :: r)
  end.

(** One assignment back into [vertices_]. *)
Definition place (v : option ptr) (o : nat) : SE DAG unit :=
  match v with
  | None => null_deref
  | Some v =>
      update v (set_ord o);;
      d ← get;
      if (o <? length (vertices_ d))%nat
      then put (with_vertices (<[o := Some v]> (vertices_ d)) d)
      else null_deref
  end.

Definition reorder (deltaF deltaB : list ptr) : SE DAG unit :=
  deltaB_ ← sort_by_ord deltaB;
  deltaF_ ← sort_by_ord deltaF;
  b ← take_vertices deltaB_;
  f ← take_vertices deltaF_;
  let desired_vertex_ordering := b ++ f in
  let gathered_ords := list_merge le (fst <$> deltaB_) (fst <$> deltaF_) in
  foreach (zip desired_vertex_ordering gathered_ords) (λ p, place p.1 p.2).

(** *** Edges *)

(** The part of [addEdge] after the edge is in: the two searches and the reordering,
    between the construction and the destruction of the two visited lists. *)
Definition restore_order (producer consumer : ptr) (p_ord c_ord : nat) : SE DAG unit := λ d,
  match dfsSearch forward consumer producer p_ord (d, []) with
  | (Throw e, (d, deltaF)) => (Throw e, unvisit deltaF d)
  | (Ok true, (d, deltaF)) => (Throw (C10Error "Cycle detected while trying to add edge."), unvisit deltaF d)
  | (Ok false, (d, deltaF)) =>
      match dfsSearch backward producer consumer c_ord (d, []) with
      | (Throw e, (d, deltaB)) => (Throw e, unvisit deltaF (unvisit deltaB d))
      | (Ok true, (d, deltaB)) => (Throw (C10Error "assertion failed"), unvisit deltaF (unvisit deltaB d))
      | (Ok false, (d, deltaB)) =>
          let '(r, d) := reorder deltaF deltaB d in (r, unvisit deltaF (unvisit deltaB d))
      end
  end.

Definition addEdge (producer consumer : ptr) : SE DAG unit :=
  AT_ASSERT (negb (bool_decide (producer = consumer)));;
  p ← deref producer;
  let '(out, is_distinct) := set_insert (out_edges p) consumer in
  update producer (set_out out);;
  if negb is_distinct then mret tt
  else
    c ← deref consumer;
    let '(inn, is_distinct) := set_insert (in_edges c) producer in
    update consumer (set_in inn);;
    AT_ASSERT is_distinct;;
    p ← deref producer;
    c ← deref consumer;
    if (ord p <=? ord c)%nat then mret tt
    else restore_order producer consumer (ord p) (ord c).

(** The loop of [contractionProducesCycle] over the children of the producer. *)
Fixpoint search_children (consumer : ptr) (upper_bound : nat) (children : list ptr) : Search bool :=
  match children with
  | [] => mret false
  | child :: children =>
      if bool_decide (child = consumer) then search_children consumer upper_bound children
      else
        st ← get;
        if bool_decide (child ∈ visited_ st.1) then search_children consumer upper_bound children
        else
          found ← dfsSearch forward child consumer upper_bound;
          if found : bool then mret true else search_children consumer upper_bound children
  end.

Definition contractionProducesCycle (producer consumer : ptr) : SE DAG bool := λ d,
  let '(r, (d, visited)) :=
    (c ← lift (lookup_vertex consumer d);
     p ← lift (lookup_vertex producer d);
     search_children consumer (ord c) (out_edges p)) (d, []) in
  (r, unvisit visited d).

Definition mergeProducerIntoConsumer (producer consumer : ptr) : SE DAG unit :=
  p ← deref producer;
  c ← deref consumer;
  update producer (set_data (data p ++ data c));;
  p ← deref producer;
  c ← deref consumer;
  update consumer (set_data (data p));;
  update producer (set_data (data c));;
  edges ← removeVertex producer;
  foreach (edges.1) (λ parent, addEdge parent consumer);;
  foreach (edges.2) (λ child, addEdge consumer child).

Definition mergeConsumerIntoProducer (producer consumer : ptr) : SE DAG unit :=
  p ← deref producer;
  c ← deref consumer;
  update producer (set_data (data p ++ data c));;
  edges ← removeVertex consumer;
  foreach (edges.2) (λ child, addEdge producer child);;
  foreach (edges.1) (λ parent, addEdge parent producer).

Definition contractEdge (producer consumer : ptr) : SE DAG bool :=
  AT_ASSERT (negb (bool_decide (producer = consumer)));;
  cycle ← contractionProducesCycle producer consumer;
  if cycle : bool then mret false
  else
    removeEdge producer consumer;;
    p ← deref producer;
    c ← deref consumer;
    (if (length (in_edges c) <? length (out_edges p))%nat
     then mergeConsumerIntoProducer producer consumer
     else mergeProducerIntoConsumer producer consumer);;
    mret true.

End Dag.
Arguments Vertex : clear implicits.
Arguments DAG : clear implicits.
End DynamicDAG.

(** The graph of the header comment's kind: an edge against the current order. *)
Definition sample_dag : outcome unit * DynamicDAG.DAG nat :=
  (a ← DynamicDAG.newVertex 0; b ← DynamicDAG.newVertex 1; c ← DynamicDAG.newVertex 2;
   DynamicDAG.addEdge b c;; DynamicDAG.addEdge c a)%nat DynamicDAG.empty_dag.

Example sample_dag_order :
  (sample_dag.1, DynamicDAG.vertices_ sample_dag.2) = (Ok tt, [Some 1; Some 2; Some 0]%nat).
Proof. vm_compute. reflexivity. Qed.

Example sample_dag_cycle :
  (DynamicDAG.addEdge 0%nat 1%nat sample_dag.2).1 = Throw (C10Error "Cycle detected while trying to add edge.").
Proof. vm_compute. reflexivity. Qed.

Example sample_dag_contract :
  (DynamicDAG.contractEdge 1%nat 2%nat sample_dag.2).1 = Ok true.
Proof. vm_compute. reflexivity. Qed.
