(* ===== verification/DynamicDAGSpec.v ===== *)
(** * What the dynamic DAG guarantees

    The invariant of [DynamicDAG], the specification of its searches, and the facts
    from which the properties of [addEdge] and [contractEdge] follow. *)
From stdpp Require Import sorting relations.
From S2P Require Import Prelude DynamicDAG.
Import DynamicDAG.
#[local] Set Warnings "-clear-no-such-hyp".

Section Spec.
Context {T : Type}.
Implicit Types (d : DAG T) (v a b : ptr) (x : Vertex T).

(** ** The graph a store represents *)
Definition edge d a b : Prop := ∃ x, heap d !! a = Some x ∧ b ∈ out_edges x.
Definition live d v : Prop := is_Some (heap d !! v).
Definition ordv d v : nat := match heap d !! v with Some x => ord x | None => 0 end.

Record wf d : Prop := {
  wf_owner v x : heap d !! v = Some x → vertices_ d !! ord x = Some (Some v);
  wf_owned o v : vertices_ d !! o = Some (Some v) → ∃ x, heap d !! v = Some x ∧ ord x = o;
  wf_out a b x : heap d !! a = Some x → b ∈ out_edges x → ∃ y, heap d !! b = Some y ∧ a ∈ in_edges y;
  wf_in a b y : heap d !! b = Some y → a ∈ in_edges y → ∃ x, heap d !! a = Some x ∧ b ∈ out_edges x;
  wf_nodup v x : heap d !! v = Some x → NoDup (out_edges x) ∧ NoDup (in_edges x);
  wf_fresh v : (next_ptr d ≤ v)%nat → heap d !! v = None;
  wf_visited : visited_ d = ∅
}.

(** Edges go up in the topological order. *)
Definition ordered d : Prop := ∀ a b, edge d a b → (ordv d a < ordv d b)%nat.

Definition inv d : Prop := wf d ∧ ordered d.

Lemma edge_live d a b : wf d → edge d a b → live d a ∧ live d b.
Proof. intros Hw (x & Ex & Hb). destruct (wf_out d Hw _ _ _ Ex Hb) as (y & Ey & _). split; eexists; done. Qed.

Lemma ordered_tc d a b : ordered d → tc (edge d) a b → (ordv d a < ordv d b)%nat.
Proof. intros Ho. induction 1 as [a b E|a c b E _ IH]; [by apply Ho|]. apply Ho in E. lia. Qed.

Lemma ordered_rtc d a b : ordered d → rtc (edge d) a b → (ordv d a ≤ ordv d b)%nat.
Proof. intros Ho. induction 1 as [a|a c b E _ IH]; [done|]. apply Ho in E. lia. Qed.

Lemma ordered_acyclic d a : ordered d → ¬ tc (edge d) a a.
Proof. intros Ho Hc. pose proof (ordered_tc _ _ _ Ho Hc). lia. Qed.

Lemma ord_inj d a b x y : wf d → heap d !! a = Some x → heap d !! b = Some y → ord x = ord y → a = b.
Proof.
  intros Hw Ea Eb Eo. pose proof (wf_owner d Hw _ _ Ea) as Ha. pose proof (wf_owner d Hw _ _ Eb) as Hb.
  rewrite Eo in Ha. congruence.
Qed.

(** ** The searches *)

(** The edges a search follows. *)
Definition step (direction : DFSDirection) d a b : Prop :=
  ∃ x, heap d !! a = Some x ∧ b ∈ next_edges direction x.

Lemma step_backward d a b : wf d → step backward d a b ↔ edge d b a.
Proof.
  intros Hw. split.
  - intros (x & Ex & Hb). by apply (wf_in d Hw _ _ _ Ex Hb).
  - intros (x & Ex & Hb). by apply (wf_out d Hw _ _ _ Ex Hb).
Qed.

Lemma step_live direction d a b : wf d → step direction d a b → live d b.
Proof.
  intros Hw Hs. destruct direction; [by apply (edge_live d a b)|].
  apply step_backward in Hs; [|done]. by apply (edge_live d b a).
Qed.

Definition within direction d (bound : nat) v : Prop := is_within_bound direction (ordv d v) bound = true.

(** What a search does to its state: only flags are set, of the vertices added to
    the list. *)
Definition searched d (X0 : gset ptr) (l0 ns : list ptr) : DAG T * list ptr :=
  (with_visited (X0 ∪ list_to_set ns) d, l0 ++ ns).

Lemma searched_nil d l0 : searched d (visited_ d) l0 [] = (d, l0).
Proof. unfold searched; cbn [list_to_set]. rewrite union_empty_r_L, app_nil_r. by destruct d. Qed.

Lemma searched_app d X l ns ms :
  searched d X l (ns ++ ms) = searched d (X ∪ list_to_set ns) (l ++ ns) ms.
Proof. unfold searched. by rewrite list_to_set_app_L, assoc_L, app_assoc by apply _. Qed.

Lemma visit_new d X l v : v ∉ X →
  visit v (with_visited X d, l) = (Ok tt, searched d X l [v]).
Proof.
  intros Hv. unfold visit, searched. cbn. rewrite bool_decide_eq_false_2 by done.
  by rewrite (comm_L _ X), union_empty_r_L.
Qed.

(** The outcome of scanning the edges [nexts] with [X] visited: the vertices [ns] it
    has visited. *)
Record scanned direction d end_ bound (nexts : list ptr) (X : gset ptr) (ns : list ptr) (found : bool) : Prop := {
  sc_nodup : NoDup ns;
  sc_new v : v ∈ ns → ¬ v ∈ X ∧ v ∈ nexts;
  sc_found : found = true → end_ ∈ nexts;
  sc_within v : found = false → v ∈ ns → v ≠ end_ ∧ within direction d bound v;
  sc_closed v : found = false → v ∈ nexts → v ≠ end_ ∧ (v ∈ X ∨ v ∈ ns ∨ ¬ within direction d bound v)
}.

Lemma scan_spec direction d end_ bound nexts stack X l :
  (∀ v, v ∈ nexts → live d v) → (end_ ∈ nexts → ¬ end_ ∈ X) →
  ∃ found stack' ns,
    scan direction end_ bound nexts stack (with_visited X d, l) = (Ok (found, stack'), searched d X l ns) ∧
    scanned direction d end_ bound nexts X ns found ∧
    (found = false → stack' = reverse ns ++ stack).
Proof.
  revert stack X l. induction nexts as [|n nexts IH]; intros stack X l Hlive Hend; cbn [scan].
  { exists false, stack, []. unfold searched; cbn [list_to_set]. rewrite union_empty_r_L, app_nil_r. split; [done|].
    split; [|done]. split; [constructor|by intros v Hv%not_elem_of_nil|done|by intros v _ Hv%not_elem_of_nil|
      by intros v _ Hv%not_elem_of_nil]. }
  case_bool_decide as En.
  { subst n. exists true, (end_ :: stack), [end_]. unfold mbind at 1, SE_bind at 1.
    specialize (Hend ltac:(by left)). rewrite visit_new by done. split; [done|]. split; [|done].
    split; [by apply list.NoDup_singleton| |by intros _; left|done|done].
    intros v ->%list_elem_of_singleton. split; [done|by left]. }
  assert (Hend' : end_ ∈ nexts → ¬ end_ ∈ X) by (intros; apply Hend; by right).
  unfold mbind at 1, SE_bind at 1, get. cbn.
  assert (Hlive' : ∀ v, v ∈ nexts → live d v) by (intros v Hv; apply Hlive; by right).
  destruct (Hlive n ltac:(by left)) as [xn Exn].
  assert (Hord : ordv d n = ord xn) by (unfold ordv; by rewrite Exn).
  case_bool_decide as Hvis.
  { destruct (IH stack X l Hlive' Hend') as (found & stack' & ns & -> & [S1 S2 S3 S4 S5] & Hst).
    exists found, stack', ns. split; [done|]. split; [|done]. split; [done| | |done|].
    - intros v Hv. destruct (S2 v Hv). split; [done|by right].
    - intros Hf. right. by apply S3.
    - intros v Hf [->|Hv]%elem_of_cons; [by split; [|left]|by apply S5]. }
  unfold mbind at 1, SE_bind at 1, lift, lookup_vertex. cbn. rewrite Exn. cbn.
  case_match eqn:Ewb.
  - unfold mbind at 1, SE_bind at 1. rewrite visit_new by done. unfold searched at 1. cbn.
    destruct (IH (n :: stack) (X ∪ (list_to_set [n])) (l ++ [n]) Hlive')
      as (found & stack' & ns & E & [S1 S2 S3 S4 S5] & Hst); [set_solver|].
    exists found, stack', (n :: ns).
    rewrite (searched_app d X l [n] ns : searched d X l (n :: ns) = _). split; [exact E|]. split; [|].
    + split.
      * constructor; [|done]. intros Hn. destruct (S2 _ Hn) as [H1 _]. set_solver.
      * intros v [->|Hv]%elem_of_cons; [by split; [|left]|]. destruct (S2 v Hv). set_solver.
      * intros Hf. right. by apply S3.
      * intros v Hf [->|Hv]%elem_of_cons; [|by apply S4]. split; [done|]. unfold within. by rewrite Hord.
      * intros v Hf [->|Hv]%elem_of_cons; [split; [done|right; left; by left]|].
        destruct (S5 v Hf Hv) as [H1 H2]. split; [done|]. set_solver.
    + intros Hf. rewrite (Hst Hf), reverse_cons, <- app_assoc. done.
  - destruct (IH stack X l Hlive' Hend') as (found & stack' & ns & -> & [S1 S2 S3 S4 S5] & Hst).
    exists found, stack', ns. split; [done|]. split; [|done]. split; [done| | |done|].
    + intros v Hv. destruct (S2 v Hv). split; [done|by right].
    + intros Hf. right. by apply S3.
    + intros v Hf [->|Hv]%elem_of_cons; [|by apply S5]. split; [done|]. right; right.
      unfold within. by rewrite Hord, Ewb.
Qed.

(** The state of a search that has not found [end_]: the vertices [ns] it has
    visited, of which those on the stack are still to be scanned. *)
Record dfs_inv direction d start end_ bound (X0 : gset ptr) (ns stack : list ptr) : Prop := {
  di_nodup : NoDup ns;
  di_new v : v ∈ ns → ¬ v ∈ X0 ∧ v ≠ end_ ∧ live d v;
  di_reach v : v ∈ ns → rtc (step direction d) start v;
  di_within v : v ∈ ns → v = start ∨ within direction d bound v;
  di_stack v : v ∈ stack → v ∈ ns;
  di_closed v n : v ∈ ns → ¬ v ∈ stack → step direction d v n →
    n ≠ end_ ∧ (n ∈ X0 ∨ n ∈ ns ∨ ¬ within direction d bound n)
}.

Lemma dfs_length direction d start end_ bound X0 ns stack :
  dfs_inv direction d start end_ bound X0 ns stack → (length ns ≤ size (heap d))%nat.
Proof.
  intros Hi. rewrite <- (size_list_to_set (C:=gset ptr) ns) by apply Hi. rewrite <- size_dom.
  apply subseteq_size. intros v Hv%elem_of_list_to_set. apply elem_of_dom. by apply Hi.
Qed.

(** Scanning the vertex on top of the stack. *)
Lemma dfs_scan direction d start end_ bound X0 ns v stack x ms :
  wf d → heap d !! v = Some x →
  dfs_inv direction d start end_ bound X0 ns (v :: stack) →
  scanned direction d end_ bound (next_edges direction x) (X0 ∪ list_to_set ns) ms false →
  dfs_inv direction d start end_ bound X0 (ns ++ ms) (reverse ms ++ stack).
Proof.
  intros Hw Ex [I1 I2 I3 I4 I5 I6] [S1 S2 S3 S4 S5].
  assert (Hv : v ∈ ns) by (apply I5; by left).
  assert (Hstep : ∀ n, n ∈ ms → step direction d v n).
  { intros n Hn. exists x. split; [done|]. by apply S2. }
  split.
  - apply list.NoDup_app. split; [done|split; [|done]]. intros n Hn Hm. destruct (S2 _ Hm) as [H1 _].
    apply H1, elem_of_union_r, elem_of_list_to_set. done.
  - intros n [Hn|Hn]%elem_of_app; [by apply I2|]. destruct (S2 _ Hn) as [H1 _].
    split; [set_solver|]. split; [by apply S4|]. by eapply step_live, Hstep.
  - intros n [Hn|Hn]%elem_of_app; [by apply I3|]. eapply rtc_r; [by apply I3|by apply Hstep].
  - intros n [Hn|Hn]%elem_of_app; [by apply I4|right; by apply S4].
  - intros n [Hn|Hn]%elem_of_app; apply elem_of_app.
    + right. by rewrite elem_of_reverse in Hn.
    + left. apply I5. by right.
  - intros u n Hu Hus Hs.
    assert (Hns : ¬ u ∈ reverse ms ∧ ¬ u ∈ stack) by (split; intros ?; apply Hus, elem_of_app; auto).
    destruct Hns as [Hnm Hnst]. rewrite elem_of_reverse in Hnm.
    apply elem_of_app in Hu as [Hu|]; [|done].
    destruct (decide (u = v)) as [->|Hne].
    + destruct Hs as (x' & Ex' & Hn). simplify_eq. destruct (S5 n eq_refl Hn) as [H1 H2].
      split; [done|]. rewrite elem_of_app. rewrite elem_of_union, elem_of_list_to_set in H2. tauto.
    + destruct (I6 u n Hu) as [H1 H2]; [by intros [|]%elem_of_cons|done|].
      split; [done|]. rewrite elem_of_app. tauto.
Qed.

(** What a finished search has established. *)
Definition dfs_result direction d start end_ bound (X0 : gset ptr) (ns : list ptr) (found : bool) : Prop :=
  NoDup ns ∧ (∀ v, v ∈ ns → ¬ v ∈ X0) ∧
  if found then tc (step direction d) start end_
  else dfs_inv direction d start end_ bound X0 ns [].

Lemma dfs_loop_spec fuel direction d start end_ bound X0 l0 ns stack :
  wf d → (end_ ∈ X0 → ¬ tc (step direction d) start end_) →
  dfs_inv direction d start end_ bound X0 ns stack →
  (length stack + (size (heap d) - length ns) < fuel)%nat →
  ∃ found ms,
    dfs_loop fuel direction end_ bound stack (searched d X0 l0 ns) = (Ok found, searched d X0 l0 (ns ++ ms)) ∧
    dfs_result direction d start end_ bound X0 (ns ++ ms) found.
Proof.
  intros Hw Hend. revert ns stack. induction fuel as [|fuel IH]; intros ns stack Hi Hf; [lia|].
  cbn [dfs_loop]. destruct stack as [|v stack].
  { exists false, []. rewrite app_nil_r. split; [done|]. split; [apply Hi|]. split; [|done].
    intros v Hv. by apply Hi. }
  assert (Hv : v ∈ ns) by (apply Hi; by left).
  destruct (di_new _ _ _ _ _ _ _ _ Hi v Hv) as (_ & _ & [x Ex]).
  unfold mbind at 1 2, SE_bind at 1 2, get, lift, lookup_vertex. cbn. rewrite Ex.
  destruct (scan_spec direction d end_ bound (next_edges direction x) stack (X0 ∪ list_to_set ns) (l0 ++ ns))
    as (found & stack' & ms & E & Hs & Hst).
  { intros n Hn. eapply (step_live direction d v); [done|]. by exists x. }
  { intros Hin [Hx|Hx]%elem_of_union.
    { apply (Hend Hx). eapply tc_rtc_l; [by apply Hi|]. apply tc_once. by exists x. }
    apply elem_of_list_to_set in Hx.
    by destruct (di_new _ _ _ _ _ _ _ _ Hi _ Hx) as (_ & ? & _). }
  unfold mbind at 1, SE_bind at 1. unfold searched at 1. rewrite E. rewrite <- searched_app. cbn.
  destruct found.
  - exists true, ms. split; [done|]. split; [|split].
    + apply list.NoDup_app. split; [apply Hi|split; [|apply Hs]]. intros n Hn Hm.
      destruct (sc_new _ _ _ _ _ _ _ _ Hs _ Hm) as [H1 _]. set_solver.
    + intros n [Hn|Hn]%elem_of_app; [by apply Hi|].
      destruct (sc_new _ _ _ _ _ _ _ _ Hs _ Hn) as [H1 _]. set_solver.
    + eapply tc_rtc_l; [by apply Hi|]. apply tc_once. exists x. split; [done|].
      by apply (sc_found _ _ _ _ _ _ _ _ Hs).
  - rewrite (Hst eq_refl). pose proof (dfs_scan _ _ _ _ _ _ _ _ _ _ _ Hw Ex Hi Hs) as Hi'.
    pose proof (dfs_length _ _ _ _ _ _ _ _ Hi') as Hlen. rewrite length_app in Hlen. cbn in Hf.
    destruct (IH (ns ++ ms) (reverse ms ++ stack) Hi') as (found & ms' & E' & Hr).
    { rewrite !length_app, length_reverse. lia. }
    exists found, (ms ++ ms'). rewrite app_assoc. by split.
Qed.

Lemma dfsSearch_spec direction d start end_ bound X0 l0 :
  wf d → live d start → start ≠ end_ → ¬ start ∈ X0 →
  (end_ ∈ X0 → ¬ tc (step direction d) start end_) →
  ∃ found ns,
    dfsSearch direction start end_ bound (with_visited X0 d, l0) = (Ok found, searched d X0 l0 ns) ∧
    start ∈ ns ∧ dfs_result direction d start end_ bound X0 ns found.
Proof.
  intros Hw Hl Hne Hs He. unfold dfsSearch, mbind at 1 2, SE_bind at 1 2, get.
  rewrite visit_new by done. cbn.
  destruct (dfs_loop_spec (dfs_fuel d) direction d start end_ bound X0 l0 [start] [start])
    as (found & ms & E & Hr); [done|done| | |].
  - split; [by apply list.NoDup_singleton|by intros v ->%list_elem_of_singleton|
      by intros v ->%list_elem_of_singleton|by intros v ->%list_elem_of_singleton; left|done|].
    intros v n ->%list_elem_of_singleton Hv. exfalso. apply Hv. by left.
  - unfold dfs_fuel. cbn. assert (0 < size (heap d))%nat; [|lia].
    destruct Hl as [x Ex]. apply Nat.neq_0_lt_0. intros E0. apply map_size_empty_inv in E0.
    by rewrite E0 in Ex.
  - exists found, ([start] ++ ms). split; [exact E|]. split; [by left|done].
Qed.

End Spec.
