(* ===== verification/DagReorder.v ===== *)
(** * Reordering the vertices

    The facts about sorted lists of indices that the reordering step of [DynamicDAG]
    rests on: when two sorted lists are laid end to end and given the merged
    indices in order, the entries of the first list do not go up and those of the
    second do not go down.

    What [reorder] does to the store, and why the order it leaves is topological
    when the two lists are what the two searches of [addEdge] collect. *)
From stdpp Require Import sorting.
From stdpp Require Import sorting relations.
From S2P Require Import Prelude DynamicDAG DynamicDAGSpec.
Import DynamicDAG.
#[local] Set Warnings "-clear-no-such-hyp".

(** Strictly increasing. *)
Definition increasing (l : list nat) : Prop := ∀ i j x y, l !! i = Some x → l !! j = Some y → (i < j → x < y)%nat.

Lemma increasing_mono l i j x y : increasing l → l !! i = Some x → l !! j = Some y → (i ≤ j → x ≤ y)%nat.
Proof.
  intros Hl Ex Ey Hij. destruct (decide (i = j)) as [->|]; [by simplify_eq|].
  pose proof (Hl _ _ _ _ Ex Ey). lia.
Qed.

Lemma increasing_NoDup l : increasing l → NoDup l.
Proof.
  intros Hl. apply list.NoDup_alt. intros i j x Ei Ej. destruct (Nat.lt_trichotomy i j) as [H|[H|H]]; [|done|].
  - pose proof (Hl _ _ _ _ Ei Ej H). lia.
  - pose proof (Hl _ _ _ _ Ej Ei H). lia.
Qed.

Lemma sorted_increasing l : StronglySorted le l → NoDup l → increasing l.
Proof.
  induction l as [|x l IH]; intros Hs Hn i j a b Ea Eb Hij; [done|].
  apply StronglySorted_cons in Hs as [Hx Hs]. apply list.NoDup_cons in Hn as [Hnx Hn].
  destruct i as [|i], j as [|j]; cbn in *; try lia.
  - simplify_eq. apply list_elem_of_lookup_2 in Eb.
    rewrite list.Forall_forall in Hx. specialize (Hx _ Eb).
    destruct (decide (a = b)) as [->|]; [done|lia].
  - eapply (IH Hs Hn i j); [done|done|lia].
Qed.

(** The number of elements of a list of distinct values that lie among others. *)
Lemma NoDup_length_le (l k : list nat) : NoDup l → (∀ x, x ∈ l → x ∈ k) → (length l ≤ length k)%nat.
Proof. intros Hn Hs. by apply submseteq_length, list.NoDup_submseteq. Qed.

Section Ranks.
Context (B F R : list nat).
Hypothesis HB : increasing B.
Hypothesis HF : increasing F.
Hypothesis HR : increasing R.
Hypothesis HP : R ≡ₚ B ++ F.

Lemma rank_low i r b : R !! i = Some r → B !! i = Some b → (r ≤ b)%nat.
Proof.
  intros Er Eb. destruct (le_lt_dec r b) as [|Hlt]; [done|exfalso].
  assert (Hle : (length (take (S i) B) ≤ length (take i R))%nat).
  { apply NoDup_length_le.
    - eapply sublist_NoDup; [apply (increasing_NoDup B HB)|apply sublist_take].
    - intros x Hx. apply list_elem_of_lookup in Hx as [k Ek]. apply lookup_take_Some in Ek as [Ek Hk].
      pose proof (increasing_mono _ _ _ _ _ HB Ek Eb ltac:(lia)).
      assert (Hin : x ∈ R) by (rewrite HP; apply elem_of_app; left; by eapply list_elem_of_lookup_2).
      apply list_elem_of_lookup in Hin as [m Em]. apply list_elem_of_lookup. exists m.
      apply lookup_take_Some. split; [done|]. destruct (le_lt_dec i m) as [Him|]; [|done].
      pose proof (increasing_mono _ _ _ _ _ HR Er Em Him). lia. }
  rewrite !length_take in Hle. apply lookup_lt_Some in Er, Eb. lia.
Qed.

Lemma rank_high j r f : R !! (length B + j)%nat = Some r → F !! j = Some f → (f ≤ r)%nat.
Proof.
  intros Er Ef. destruct (le_lt_dec f r) as [|Hlt]; [done|exfalso].
  assert (Hle : (length (drop j F) ≤ length (drop (S (length B + j)) R))%nat).
  { apply NoDup_length_le.
    - eapply sublist_NoDup; [apply (increasing_NoDup F HF)|apply sublist_drop].
    - intros x Hx. apply list_elem_of_lookup in Hx as [k Ek]. rewrite lookup_drop in Ek.
      pose proof (increasing_mono _ _ _ _ _ HF Ef Ek ltac:(lia)).
      assert (Hin : x ∈ R) by (rewrite HP; apply elem_of_app; right; by eapply list_elem_of_lookup_2).
      apply list_elem_of_lookup in Hin as [m Em]. apply list_elem_of_lookup.
      exists (m - S (length B + j))%nat. rewrite lookup_drop. rewrite <- Em. f_equal.
      destruct (le_lt_dec m (length B + j)) as [Hm|]; [|lia].
      pose proof (increasing_mono _ _ _ _ _ HR Em Er Hm). lia. }
  rewrite !length_drop in Hle. pose proof (Permutation_length HP) as Hl. rewrite length_app in Hl.
  apply lookup_lt_Some in Er, Ef. lia.
Qed.

(** Every merged index lies between the smallest and the largest one. *)
Lemma merged_in r i : R !! i = Some r → r ∈ B ∨ r ∈ F.
Proof.
  intros E. apply list_elem_of_lookup_2 in E. rewrite HP in E. by apply elem_of_app in E.
Qed.
End Ranks.

(** ** Reordering the dynamic DAG *)

Section Reorder.
Context {T : Type}.
Implicit Types (d : DAG T) (v a b : ptr) (x : Vertex T).

(** ** The store after the assignments [asg] of indices to vertices *)
Definition apply_ords (asg : list (ptr * nat)) (h : gmap ptr (Vertex T)) : gmap ptr (Vertex T) :=
  foldl (λ h p, alter (set_ord p.2) p.1 h) h asg.
Definition place_all (asg : list (ptr * nat)) (vs : list (option ptr)) : list (option ptr) :=
  foldl (λ vs p, <[p.2 := Some p.1]> vs) vs asg.

Lemma apply_ords_cons p asg h : apply_ords (p :: asg) h = apply_ords asg (alter (set_ord p.2) p.1 h).
Proof. done. Qed.
Lemma place_all_cons p asg vs : place_all (p :: asg) vs = place_all asg (<[p.2 := Some p.1]> vs).
Proof. done. Qed.

Lemma length_place_all asg vs : length (place_all asg vs) = length vs.
Proof.
  revert vs. induction asg as [|p asg IH]; intros vs; [done|].
  rewrite place_all_cons, IH. apply length_insert.
Qed.

Lemma apply_ords_other asg h v : ¬ v ∈ asg.*1 → apply_ords asg h !! v = h !! v.
Proof.
  revert h. induction asg as [|p asg IH]; intros h Hv; [done|]. cbn in Hv.
  rewrite apply_ords_cons, IH by set_solver. apply lookup_alter_ne. set_solver.
Qed.

Lemma apply_ords_at asg h v o : NoDup asg.*1 → (v, o) ∈ asg → apply_ords asg h !! v = set_ord o <$> h !! v.
Proof.
  revert h. induction asg as [|p asg IH]; intros h Hn Hv; [by apply not_elem_of_nil in Hv|].
  cbn in Hn. apply list.NoDup_cons in Hn as [Hp Hn]. rewrite apply_ords_cons.
  apply elem_of_cons in Hv as [<-|Hv].
  - rewrite apply_ords_other by done. cbn. by rewrite lookup_alter_eq.
  - rewrite IH by done. rewrite lookup_alter_ne; [done|].
    intros E. apply Hp. rewrite E. apply list_elem_of_fmap. by exists (v, o).
Qed.

Lemma place_all_other asg vs o : ¬ o ∈ asg.*2 → place_all asg vs !! o = vs !! o.
Proof.
  revert vs. induction asg as [|p asg IH]; intros vs Ho; [done|]. cbn in Ho.
  rewrite place_all_cons, IH by set_solver. apply list_lookup_insert_ne. set_solver.
Qed.

Lemma place_all_at asg vs v o : NoDup asg.*2 → (v, o) ∈ asg → (o < length vs)%nat →
  place_all asg vs !! o = Some (Some v).
Proof.
  revert vs. induction asg as [|p asg IH]; intros vs Hn Hv Ho; [by apply not_elem_of_nil in Hv|].
  cbn in Hn. apply list.NoDup_cons in Hn as [Hp Hn]. rewrite place_all_cons.
  apply elem_of_cons in Hv as [<-|Hv].
  - rewrite place_all_other by done. by apply list_lookup_insert_eq.
  - apply IH; [done|done|]. by rewrite length_insert.
Qed.

(** ** The steps of [reorder] *)
Lemma with_ords_spec d l : (∀ v, v ∈ l → live d v) →
  with_ords l d = (Ok ((λ v, (ordv d v, v)) <$> l), d).
Proof.
  intros Hl. unfold with_ords. f_equal. induction l as [|v l IH]; [done|].
  destruct (Hl v ltac:(by left)) as [x Ex].
  assert (lookup_vertex v d = Ok x) as -> by (unfold lookup_vertex; by rewrite Ex). rewrite Ok_bind.
  rewrite IH by (intros; apply Hl; by right). cbn.
  assert (ordv d v = ord x) as -> by (unfold ordv; by rewrite Ex). done.
Qed.

(** The list [sort_by_ord] returns. *)
Definition sorted_pairs d (l : list ptr) : list (nat * ptr) :=
  merge_sort ord_le ((λ v, (ordv d v, v)) <$> l).

Lemma sort_by_ord_spec d l : (∀ v, v ∈ l → live d v) → sort_by_ord l d = (Ok (sorted_pairs d l), d).
Proof. intros Hl. unfold sort_by_ord, mbind, SE_bind. by rewrite with_ords_spec. Qed.

Lemma sorted_pairs_perm d l : sorted_pairs d l ≡ₚ (λ v, (ordv d v, v)) <$> l.
Proof. apply merge_sort_Permutation. Qed.

Lemma sorted_pairs_in d l p : p ∈ sorted_pairs d l ↔ p.2 ∈ l ∧ p.1 = ordv d p.2.
Proof.
  rewrite sorted_pairs_perm, list_elem_of_fmap. split.
  - intros (v & -> & Hv). done.
  - intros [Hv E]. exists p.2. split; [by destruct p; cbn in *; subst|done].
Qed.

Lemma sorted_pairs_ptrs d l : (sorted_pairs d l).*2 ≡ₚ l.
Proof. rewrite sorted_pairs_perm, <- list_fmap_compose. cbn. by rewrite list_fmap_id. Qed.

Lemma ords_NoDup d l : wf d → NoDup l → (∀ v, v ∈ l → live d v) → NoDup (ordv d <$> l).
Proof.
  intros Hw Hn Hl. apply NoDup_fmap_2_strong; [|done]. intros a b Ha Hb E.
  destruct (Hl a Ha) as [x Ex], (Hl b Hb) as [y Ey]. unfold ordv in E. rewrite Ex, Ey in E.
  by eapply (ord_inj d a b).
Qed.

Lemma sorted_pairs_increasing d l : wf d → NoDup l → (∀ v, v ∈ l → live d v) →
  increasing (sorted_pairs d l).*1.
Proof.
  intros Hw Hn Hl. apply sorted_increasing.
  - apply (StronglySorted_fmap fst ord_le le); [done|]. apply StronglySorted_merge_sort.
    + intros [] [] []. unfold ord_le. cbn. lia.
    + intros [] []. unfold ord_le. cbn. lia.
  - rewrite sorted_pairs_perm, <- list_fmap_compose. by apply ords_NoDup.
Qed.

(** The vertices moved out of [vertices_]. *)
Definition take_all (ps : list (nat * ptr)) (vs : list (option ptr)) : list (option ptr) :=
  foldl (λ vs p, <[p.1 := None]> vs) vs ps.

Lemma take_vertices_spec d ps : NoDup ps.*1 →
  (∀ p, p ∈ ps → vertices_ d !! p.1 = Some (Some p.2)) →
  take_vertices ps d = (Ok (Some <$> ps.*2), with_vertices (take_all ps (vertices_ d)) d).
Proof.
  revert d. induction ps as [|p ps IH]; intros d Hn Hp; cbn [take_vertices]; [by destruct d|].
  cbn in Hn. apply list.NoDup_cons in Hn as [Hnp Hn].
  unfold mbind at 1, SE_bind at 1, take_vertex, at_ord, mbind at 1 2 3, SE_bind at 1 2 3, get, modify.
  rewrite (Hp p) by (by left). cbn.
  unfold mbind at 1, SE_bind at 1. rewrite IH; [done|done|].
  intros q Hq. cbn. rewrite list_lookup_insert_ne; [apply Hp; by right|].
  intros E. apply Hnp. rewrite E. apply list_elem_of_fmap. by exists q.
Qed.

Lemma take_all_cons p ps vs : take_all (p :: ps) vs = take_all ps (<[p.1 := None]> vs).
Proof. done. Qed.

Lemma length_take_all ps vs : length (take_all ps vs) = length vs.
Proof.
  revert vs. induction ps as [|p ps IH]; intros vs; [done|].
  rewrite take_all_cons, IH. apply length_insert.
Qed.

Lemma take_all_other ps vs o : ¬ o ∈ ps.*1 → take_all ps vs !! o = vs !! o.
Proof.
  revert vs. induction ps as [|p ps IH]; intros vs Ho; [done|]. cbn in Ho.
  rewrite take_all_cons, IH by set_solver. apply list_lookup_insert_ne. set_solver.
Qed.

Lemma place_spec d v o : live d v → (o < length (vertices_ d))%nat →
  place (Some v) o d =
    (Ok tt, with_vertices (<[o := Some v]> (vertices_ d)) (with_heap (alter (set_ord o) v (heap d)) d)).
Proof.
  intros [x Ex] Ho. unfold place, update, mbind, SE_bind, deref, lookup_vertex, modify, get. cbn -[Nat.ltb].
  rewrite Ex. cbn -[Nat.ltb]. destruct (Nat.ltb_spec o (length (vertices_ d))); [|lia]. unfold put. cbn.
  by rewrite (insert_alter _ _ (set_ord o) x).
Qed.

Lemma place_loop_spec d vs os :
  NoDup vs → length vs = length os → (∀ v, v ∈ vs → live d v) →
  (∀ o, o ∈ os → (o < length (vertices_ d))%nat) →
  foreach (zip (Some <$> vs) os) (λ p, place p.1 p.2) d =
    (Ok tt, with_vertices (place_all (zip vs os) (vertices_ d))
              (with_heap (apply_ords (zip vs os) (heap d)) d)).
Proof.
  revert os d. induction vs as [|v vs IH]; intros [|o os] d Hn Hl Hlive Ho; try done; [by destruct d|].
  apply list.NoDup_cons in Hn as [Hv Hn]. cbn [zip zip_with fmap list_fmap foreach].
  unfold mbind at 1, SE_bind at 1. cbn [fst snd].
  rewrite place_spec; [|apply Hlive; by left|apply Ho; by left].
  rewrite IH; [done|done|by injection Hl| |].
  - intros w Hw. unfold live. cbn. destruct (decide (w = v)) as [->|Hne]; [done|].
    rewrite lookup_alter_ne by done. apply Hlive. by right.
  - intros o' Ho'. cbn. rewrite length_insert. apply Ho. by right.
Qed.

(** ** The whole of [reorder] *)
Definition new_ords d (F B : list ptr) : list nat :=
  list_merge le (sorted_pairs d B).*1 (sorted_pairs d F).*1.
Definition assignment d (F B : list ptr) : list (ptr * nat) :=
  zip ((sorted_pairs d B).*2 ++ (sorted_pairs d F).*2) (new_ords d F B).

Lemma new_ords_perm d F B : new_ords d F B ≡ₚ (sorted_pairs d B).*1 ++ (sorted_pairs d F).*1.
Proof. apply merge_Permutation. Qed.

Lemma sorted_pairs_ords d l : (sorted_pairs d l).*1 ≡ₚ ordv d <$> l.
Proof. by rewrite sorted_pairs_perm, <- list_fmap_compose. Qed.

Lemma new_ords_ords d F B : new_ords d F B ≡ₚ ordv d <$> (B ++ F).
Proof. by rewrite new_ords_perm, !sorted_pairs_ords, fmap_app. Qed.

Lemma assignment_lengths d F B :
  length ((sorted_pairs d B).*2 ++ (sorted_pairs d F).*2) = length (new_ords d F B).
Proof. by rewrite new_ords_perm, !length_app, !length_fmap. Qed.

Lemma assignment_ptrs d F B : (assignment d F B).*1 = (sorted_pairs d B).*2 ++ (sorted_pairs d F).*2.
Proof. unfold assignment. rewrite fst_zip; [done|]. by rewrite assignment_lengths. Qed.

Lemma assignment_ords d F B : (assignment d F B).*2 = new_ords d F B.
Proof. unfold assignment. rewrite snd_zip; [done|]. by rewrite assignment_lengths. Qed.

Section Lists.
Context (d : DAG T) (F B : list ptr).
Hypothesis Hw : wf d.
Hypothesis Hn : NoDup (B ++ F).
Hypothesis Hl : ∀ v, v ∈ B ++ F → live d v.

Lemma lists_B : NoDup B ∧ ∀ v, v ∈ B → live d v.
Proof. apply list.NoDup_app in Hn as (? & _ & _). split; [done|]. intros. apply Hl, elem_of_app. by left. Qed.
Lemma lists_F : NoDup F ∧ ∀ v, v ∈ F → live d v.
Proof. apply list.NoDup_app in Hn as (_ & _ & ?). split; [done|]. intros. apply Hl, elem_of_app. by right. Qed.

Lemma new_ords_NoDup : NoDup (new_ords d F B).
Proof. rewrite new_ords_ords. by apply ords_NoDup. Qed.

Lemma new_ords_increasing : increasing (new_ords d F B).
Proof.
  apply sorted_increasing; [|apply new_ords_NoDup]. apply Sorted_StronglySorted; [intros ???; lia|].
  apply Sorted_list_merge; [intros ??; lia| |]; apply StronglySorted_Sorted;
    apply (StronglySorted_fmap fst ord_le le); try done; apply StronglySorted_merge_sort;
    try (intros [] [] []; unfold ord_le; cbn; lia); intros [] []; unfold ord_le; cbn; lia.
Qed.

Lemma assignment_NoDup : NoDup (assignment d F B).*1 ∧ NoDup (assignment d F B).*2.
Proof.
  rewrite assignment_ptrs, assignment_ords. split; [|apply new_ords_NoDup].
  by rewrite !sorted_pairs_ptrs.
Qed.

Lemma assignment_elem v : v ∈ (assignment d F B).*1 ↔ v ∈ B ∨ v ∈ F.
Proof. by rewrite assignment_ptrs, elem_of_app, !sorted_pairs_ptrs. Qed.

(** An index that is handed out belonged to one of the vertices. *)
Lemma new_ords_elem o : o ∈ new_ords d F B ↔ ∃ v, (v ∈ B ∨ v ∈ F) ∧ o = ordv d v.
Proof.
  rewrite new_ords_ords, list_elem_of_fmap. setoid_rewrite elem_of_app. firstorder.
Qed.

Lemma ordv_owned v : live d v → vertices_ d !! ordv d v = Some (Some v).
Proof. intros [x Ex]. unfold ordv. rewrite Ex. by apply (wf_owner d Hw). Qed.

Lemma live_ord_inj a b : live d a → live d b → ordv d a = ordv d b → a = b.
Proof. intros Ha%ordv_owned Hb%ordv_owned E. rewrite E in Ha. congruence. Qed.

Definition reordered : DAG T :=
  with_vertices (place_all (assignment d F B)
                   (take_all (sorted_pairs d F) (take_all (sorted_pairs d B) (vertices_ d))))
    (with_heap (apply_ords (assignment d F B) (heap d)) d).

Lemma zip_Some (vs : list ptr) (os : list nat) (X : gset ptr) :
  zip (Some <$> vs) os = (λ p, (Some p.1, p.2)) <$> zip vs os.
Proof. revert os. induction vs as [|v vs IH]; intros [|o os]; cbn; [done..|]. f_equal. apply IH. Qed.

Lemma sorted_owned l p : (∀ v, v ∈ l → live d v) → p ∈ sorted_pairs d l →
  vertices_ d !! p.1 = Some (Some p.2).
Proof. intros Hlive [Hp ->]%sorted_pairs_in. by apply ordv_owned, Hlive. Qed.

Lemma reorder_spec X : reorder F B (with_visited X d) = (Ok tt, with_visited X reordered).
Proof.
  destruct lists_B as [HnB HlB], lists_F as [HnF HlF].
  assert (HiB := sorted_pairs_increasing d B Hw HnB HlB).
  assert (HiF := sorted_pairs_increasing d F Hw HnF HlF).
  unfold reorder, mbind at 1 2, SE_bind at 1 2.
  rewrite (sort_by_ord_spec (with_visited X d) B), (sort_by_ord_spec (with_visited X d) F) by done.
  unfold mbind at 1, SE_bind at 1. rewrite take_vertices_spec;
    [|by apply increasing_NoDup|intros p Hp; by apply (sorted_owned B)].
  unfold mbind at 1, SE_bind at 1. rewrite take_vertices_spec; [|by apply increasing_NoDup|].
  - rewrite <- fmap_app. rewrite place_loop_spec; [done| | | |].
    + pose proof assignment_NoDup as [? _]. by rewrite assignment_ptrs in *.
    + apply assignment_lengths.
    + intros v Hv. rewrite elem_of_app, !sorted_pairs_ptrs in Hv. apply Hl, elem_of_app. done.
    + intros o (v & Hv & ->)%new_ords_elem. cbn. rewrite !length_take_all.
      eapply lookup_lt_Some, ordv_owned, Hl, elem_of_app. done.
  - intros p Hp. change (p ∈ sorted_pairs d F) in Hp. cbn. rewrite take_all_other; [by apply (sorted_owned F)|].
    intros Ho. change (p.1 ∈ (sorted_pairs d B).*1) in Ho. rewrite sorted_pairs_ords in Ho. apply list_elem_of_fmap in Ho as (w & Ew & HwB).
    apply sorted_pairs_in in Hp as [HpF Ep].
    assert (w = p.2) as -> by (apply live_ord_inj; [by apply HlB|by apply HlF|congruence]).
    apply list.NoDup_app in Hn as (_ & Hd & _). by apply (Hd p.2).
Qed.

(** ** The store [reorder] leaves *)
Lemma assignment_at v : v ∈ B ∨ v ∈ F → ∃ o, (v, o) ∈ assignment d F B.
Proof.
  rewrite <- assignment_elem. intros (p & -> & Hp)%list_elem_of_fmap. exists p.2. by destruct p.
Qed.

Lemma assignment_at_ord o : o ∈ new_ords d F B → ∃ v, (v, o) ∈ assignment d F B.
Proof.
  rewrite <- assignment_ords. intros (p & -> & Hp)%list_elem_of_fmap. exists p.1. by destruct p.
Qed.

Lemma assignment_in v o : (v, o) ∈ assignment d F B → (v ∈ B ∨ v ∈ F) ∧ o ∈ new_ords d F B.
Proof.
  intros Ha. rewrite <- assignment_elem, <- assignment_ords.
  split; apply list_elem_of_fmap; by exists (v, o).
Qed.

Lemma reordered_at v o : (v, o) ∈ assignment d F B → heap reordered !! v = set_ord o <$> heap d !! v.
Proof. apply apply_ords_at, assignment_NoDup. Qed.

Lemma reordered_other v : ¬ v ∈ B → ¬ v ∈ F → heap reordered !! v = heap d !! v.
Proof. intros HvB HvF. apply apply_ords_other. rewrite assignment_elem. tauto. Qed.

(** Only indices change. *)
Lemma reordered_lookup v : ∃ f, heap reordered !! v = (λ x, set_ord (f x) x) <$> heap d !! v.
Proof.
  destruct (decide (v ∈ B ∨ v ∈ F)) as [Hv|Hv].
  - destruct (assignment_at v Hv) as [o Ho]. exists (λ _, o). by apply reordered_at.
  - exists ord. rewrite reordered_other by tauto. destruct (heap d !! v) as [[]|]; done.
Qed.

Lemma reordered_vertex v y : heap reordered !! v = Some y →
  ∃ x, heap d !! v = Some x ∧ data y = data x ∧ in_edges y = in_edges x ∧ out_edges y = out_edges x.
Proof.
  destruct (reordered_lookup v) as [f ->]. intros (x & -> & ->)%fmap_Some. by exists x.
Qed.

Lemma vertex_reordered v x : heap d !! v = Some x →
  ∃ y, heap reordered !! v = Some y ∧ data y = data x ∧ in_edges y = in_edges x ∧ out_edges y = out_edges x.
Proof. destruct (reordered_lookup v) as [f ->]. intros ->. by eexists. Qed.

Lemma reordered_edge a b : edge reordered a b ↔ edge d a b.
Proof.
  split; intros (x & Ex & Hb).
  - apply reordered_vertex in Ex as (x' & Ex' & _ & _ & Eo). exists x'. by rewrite <- Eo.
  - apply vertex_reordered in Ex as (x' & Ex' & _ & _ & Eo). exists x'. by rewrite Eo.
Qed.

Lemma reordered_ord v o : (v, o) ∈ assignment d F B → ordv reordered v = o.
Proof.
  intros Ha. unfold ordv. rewrite (reordered_at v o Ha).
  destruct (Hl v) as [x ->]; [|done]. apply elem_of_app. by apply (assignment_in v o).
Qed.

Lemma reordered_ord_other v : ¬ v ∈ B → ¬ v ∈ F → ordv reordered v = ordv d v.
Proof. intros. unfold ordv. by rewrite reordered_other. Qed.

Lemma reordered_owner_at v o : (v, o) ∈ assignment d F B → vertices_ reordered !! o = Some (Some v).
Proof.
  intros Ha. apply place_all_at; [apply assignment_NoDup|done|].
  rewrite !length_take_all. apply assignment_in in Ha as [_ (w & Hw' & ->)%new_ords_elem].
  eapply lookup_lt_Some, ordv_owned, Hl, elem_of_app. done.
Qed.

Lemma reordered_owner_other o : ¬ o ∈ new_ords d F B → vertices_ reordered !! o = vertices_ d !! o.
Proof.
  intros Ho. rewrite new_ords_perm, elem_of_app in Ho. cbn.
  rewrite place_all_other by (rewrite assignment_ords, new_ords_perm, elem_of_app; tauto).
  by rewrite !take_all_other by tauto.
Qed.

Lemma reordered_wf : wf reordered.
Proof.
  split.
  - intros v y Ey. destruct (decide (v ∈ B ∨ v ∈ F)) as [Hv|Hv].
    + destruct (assignment_at v Hv) as [o Ho]. rewrite (reordered_at v o Ho) in Ey.
      apply fmap_Some in Ey as (x & _ & ->). by apply reordered_owner_at.
    + rewrite reordered_other in Ey by tauto. rewrite reordered_owner_other; [by apply (wf_owner d Hw)|].
      intros (w & Hw' & E)%new_ords_elem. apply Hv. replace v with w; [done|].
      apply live_ord_inj; [apply Hl, elem_of_app; done|by exists y|]. rewrite <- E. unfold ordv. by rewrite Ey.
  - intros o v E. destruct (decide (o ∈ new_ords d F B)) as [Ho|Ho].
    + destruct (assignment_at_ord o Ho) as [w Ha]. rewrite (reordered_owner_at w o Ha) in E. injection E as ->.
      rewrite (reordered_at v o Ha). destruct (Hl v) as [x ->]; [|by eexists].
      apply elem_of_app. by apply (assignment_in v o).
    + rewrite reordered_owner_other in E by done. destruct (wf_owned d Hw _ _ E) as (x & Ex & Eo).
      exists x. split; [|done]. destruct (decide (v ∈ B ∨ v ∈ F)); [|by rewrite reordered_other by tauto].
      exfalso. apply Ho, new_ords_elem. exists v. split; [done|]. unfold ordv. by rewrite Ex.
  - intros a b x Ex Hb. apply reordered_vertex in Ex as (x' & Ex' & _ & _ & Eo). rewrite Eo in Hb.
    destruct (wf_out d Hw _ _ _ Ex' Hb) as (y & Ey & Ha).
    apply vertex_reordered in Ey as (y' & Ey' & _ & Ei & _). exists y'. by rewrite Ei.
  - intros a b y Ey Ha. apply reordered_vertex in Ey as (y' & Ey' & _ & Ei & _). rewrite Ei in Ha.
    destruct (wf_in d Hw _ _ _ Ey' Ha) as (x & Ex & Hb).
    apply vertex_reordered in Ex as (x' & Ex' & _ & _ & Eo). exists x'. by rewrite Eo.
  - intros v y Ey. apply reordered_vertex in Ey as (x & Ex & _ & -> & ->). by apply (wf_nodup d Hw v).
  - intros v Hv. destruct (reordered_lookup v) as [f ->]. by rewrite (wf_fresh d Hw v Hv).
  - apply Hw.
Qed.

(** *** The new indices against the old ones *)
Lemma sorted_at l v : v ∈ l → ∃ i, sorted_pairs d l !! i = Some (ordv d v, v).
Proof.
  intros Hv. assert (H : (ordv d v, v) ∈ sorted_pairs d l) by (by apply sorted_pairs_in).
  by apply list_elem_of_lookup in H.
Qed.

Lemma new_ord_B v i : sorted_pairs d B !! i = Some (ordv d v, v) →
  new_ords d F B !! i = Some (ordv reordered v).
Proof.
  intros Ei. pose proof (assignment_lengths d F B) as El.
  assert (Hlt := lookup_lt_Some _ _ _ Ei).
  destruct (lookup_lt_is_Some_2 (new_ords d F B) i) as [r Er].
  { rewrite <- El, length_app, !length_fmap. lia. }
  rewrite Er, (reordered_ord v r); [done|]. apply list_elem_of_lookup. exists i.
  unfold assignment. apply lookup_zip_with_Some. exists v, r. split; [done|]. split; [|done].
  rewrite lookup_app_l by (rewrite length_fmap; lia). by rewrite list_lookup_fmap, Ei.
Qed.

Lemma new_ord_F v j : sorted_pairs d F !! j = Some (ordv d v, v) →
  new_ords d F B !! (length (sorted_pairs d B) + j)%nat = Some (ordv reordered v).
Proof.
  intros Ei. pose proof (assignment_lengths d F B) as El.
  assert (Hlt := lookup_lt_Some _ _ _ Ei).
  destruct (lookup_lt_is_Some_2 (new_ords d F B) (length (sorted_pairs d B) + j)) as [r Er].
  { rewrite <- El, length_app, !length_fmap. lia. }
  rewrite Er, (reordered_ord v r); [done|]. apply list_elem_of_lookup. eexists.
  unfold assignment. apply lookup_zip_with_Some. exists v, r. split; [done|]. split; [|exact Er].
  rewrite lookup_app_r by (rewrite length_fmap; lia). rewrite length_fmap, Nat.add_sub', list_lookup_fmap.
  by rewrite Ei.
Qed.

Lemma reordered_B_le v : v ∈ B → (ordv reordered v ≤ ordv d v)%nat.
Proof.
  intros Hv. destruct lists_B as [HnB HlB], lists_F as [HnF HlF]. destruct (sorted_at B v Hv) as [i Ei].
  eapply (rank_low (sorted_pairs d B).*1 (sorted_pairs d F).*1 (new_ords d F B)).
  - by apply sorted_pairs_increasing.
  - apply new_ords_increasing.
  - apply new_ords_perm.
  - by apply new_ord_B.
  - by rewrite list_lookup_fmap, Ei.
Qed.

Lemma reordered_F_ge v : v ∈ F → (ordv d v ≤ ordv reordered v)%nat.
Proof.
  intros Hv. destruct lists_B as [HnB HlB], lists_F as [HnF HlF]. destruct (sorted_at F v Hv) as [i Ei].
  eapply (rank_high (sorted_pairs d B).*1 (sorted_pairs d F).*1 (new_ords d F B)).
  - by apply sorted_pairs_increasing.
  - apply new_ords_increasing.
  - apply new_ords_perm.
  - rewrite length_fmap. by apply new_ord_F.
  - by rewrite list_lookup_fmap, Ei.
Qed.

Lemma sorted_index l a b i j : wf d → NoDup l → (∀ v, v ∈ l → live d v) →
  sorted_pairs d l !! i = Some (ordv d a, a) → sorted_pairs d l !! j = Some (ordv d b, b) →
  (ordv d a < ordv d b → i < j)%nat.
Proof.
  intros _ Hnl Hll Ei Ej Hlt. destruct (le_lt_dec j i) as [Hij|]; [|done].
  pose proof (increasing_mono (sorted_pairs d l).*1 j i (ordv d b) (ordv d a)
    (sorted_pairs_increasing d l Hw Hnl Hll)) as Hm.
  rewrite !list_lookup_fmap, Ei, Ej in Hm. specialize (Hm eq_refl eq_refl Hij). lia.
Qed.

Lemma reordered_B_mono a b : a ∈ B → b ∈ B → (ordv d a < ordv d b → ordv reordered a < ordv reordered b)%nat.
Proof.
  intros Ha Hb Hlt. destruct lists_B as [HnB HlB].
  destruct (sorted_at B a Ha) as [i Ei], (sorted_at B b Hb) as [j Ej].
  eapply (new_ords_increasing i j); [by apply new_ord_B|by apply new_ord_B|by eapply sorted_index].
Qed.

Lemma reordered_F_mono a b : a ∈ F → b ∈ F → (ordv d a < ordv d b → ordv reordered a < ordv reordered b)%nat.
Proof.
  intros Ha Hb Hlt. destruct lists_F as [HnF HlF].
  destruct (sorted_at F a Ha) as [i Ei], (sorted_at F b Hb) as [j Ej].
  eapply new_ords_increasing; [by apply new_ord_F|by apply new_ord_F|].
  apply Nat.add_lt_mono_l. by eapply (sorted_index F).
Qed.

Lemma reordered_BF a b : a ∈ B → b ∈ F → (ordv reordered a < ordv reordered b)%nat.
Proof.
  intros Ha Hb. destruct (sorted_at B a Ha) as [i Ei], (sorted_at F b Hb) as [j Ej].
  eapply new_ords_increasing; [by apply new_ord_B|by apply new_ord_F|].
  apply lookup_lt_Some in Ei. lia.
Qed.

Lemma reordered_among v : v ∈ B ∨ v ∈ F → ∃ w, (w ∈ B ∨ w ∈ F) ∧ ordv reordered v = ordv d w.
Proof.
  intros Hv. destruct (assignment_at v Hv) as [o Ho]. rewrite (reordered_ord v o Ho).
  apply new_ords_elem. by apply (assignment_in v o).
Qed.
End Lists.

End Reorder.
