(* ===== verification/DagEdges.v ===== *)
(** * Adding and removing edges and vertices

    [addEdge] on a graph that satisfies the invariant: the edge is added and the
    order restored, or a cycle is reported, according to the reachability relation
    of the graph.

    [newVertex], [removeEdge] and [removeVertex] on a graph that satisfies the
    invariant, and the self-check [debugCheckInvariants]. *)
From stdpp Require Import sorting relations.
From S2P Require Import Prelude DynamicDAG DynamicDAGSpec DagReorder.
Import DynamicDAG.
#[local] Set Warnings "-clear-no-such-hyp".

Section Edges.
Context {T : Type}.
Implicit Types (d : DAG T) (v a b p c : ptr) (x : Vertex T).

(** ** Stores with the same graph *)

(** A vertex without its index. *)
Definition unord x : list T * list ptr * list ptr := (data x, in_edges x, out_edges x).

(** The same vertices with the same data and edges; the indices may differ. *)
Definition same_graph d d' : Prop :=
  next_ptr d' = next_ptr d ∧ ∀ v, unord <$> heap d' !! v = unord <$> heap d !! v.

#[global] Instance same_graph_equiv : Equivalence same_graph.
Proof.
  split.
  - by intros d.
  - intros d d' [Hn Hh]. by split.
  - intros d1 d2 d3 [Hn Hh] [Hn' Hh']. split; [congruence|]. intros v. by rewrite Hh', Hh.
Qed.

Lemma same_graph_lookup d d' v x : same_graph d d' → heap d !! v = Some x →
  ∃ y, heap d' !! v = Some y ∧ data y = data x ∧ in_edges y = in_edges x ∧ out_edges y = out_edges x.
Proof.
  intros [_ Hh] Ex. specialize (Hh v). rewrite Ex in Hh. cbn in Hh.
  apply fmap_Some in Hh as (y & Ey & E). exists y. by injection E as <- <- <-.
Qed.

#[global] Instance edge_proper : Proper (same_graph ==> eq ==> eq ==> iff) edge.
Proof.
  assert (H : ∀ d d' a b, same_graph d d' → edge d a b → edge d' a b).
  { intros d d' a b Hs (x & Ex & Hb). destruct (same_graph_lookup d d' a x Hs Ex) as (y & Ey & _ & _ & Eo).
    exists y. by rewrite Eo. }
  intros d d' Hs a ? <- b ? <-. split; apply H; done.
Qed.

#[global] Instance live_proper : Proper (same_graph ==> eq ==> iff) live.
Proof.
  assert (H : ∀ d d' v, same_graph d d' → live d v → live d' v).
  { intros d d' v Hs [x Ex]. destruct (same_graph_lookup d d' v x Hs Ex) as (y & Ey & _). by exists y. }
  intros d d' Hs v ? <-. split; apply H; done.
Qed.

(** ** The store with the edge entered *)
Definition with_edge p c d : DAG T :=
  with_heap (alter (λ y, set_in (in_edges y ++ [p]) y) c
               (alter (λ x, set_out (out_edges x ++ [c]) x) p (heap d))) d.

Section WithEdge.
Context (d : DAG T) (p c : ptr).
Hypothesis Hne : p ≠ c.

Lemma with_edge_lookup v :
  heap (with_edge p c d) !! v =
    (λ x, mkVertex (data x) (ord x) (if decide (v = c) then in_edges x ++ [p] else in_edges x)
            (if decide (v = p) then out_edges x ++ [c] else out_edges x)) <$> heap d !! v.
Proof.
  unfold with_edge. cbn. destruct (decide (v = c)) as [->|Hc].
  - rewrite lookup_alter_eq, lookup_alter_ne by done.
    destruct (heap d !! c) as [[]|]; cbn; [|done]. by rewrite decide_False.
  - rewrite lookup_alter_ne by done. destruct (decide (v = p)) as [->|Hp].
    + rewrite lookup_alter_eq. by destruct (heap d !! p) as [[]|].
    + rewrite lookup_alter_ne by done. by destruct (heap d !! v) as [[]|].
Qed.

Lemma with_edge_ordv v : ordv (with_edge p c d) v = ordv d v.
Proof. unfold ordv. rewrite with_edge_lookup. by destruct (heap d !! v). Qed.

Lemma with_edge_live v : live (with_edge p c d) v ↔ live d v.
Proof. unfold live. rewrite with_edge_lookup. by rewrite fmap_is_Some. Qed.

Lemma with_edge_edge a b : live d p → edge (with_edge p c d) a b ↔ edge d a b ∨ (a = p ∧ b = c).
Proof.
  intros [xp Ep]. unfold edge. rewrite with_edge_lookup. split.
  - intros (x & (y & Ey & ->)%fmap_Some & Hb). cbn in Hb. destruct (decide (a = p)) as [->|].
    + apply elem_of_app in Hb as [Hb| ->%list_elem_of_singleton]; [left; by exists y|by right].
    + left. by exists y.
  - intros [(x & Ex & Hb)|[-> ->]].
    + rewrite Ex. eexists. split; [done|]. cbn. case_decide; [|done]. apply elem_of_app. by left.
    + rewrite Ep. eexists. split; [done|]. cbn. rewrite decide_True by done. apply elem_of_app. right. by left.
Qed.

Lemma with_edge_wf : wf d → live d p → live d c → ¬ edge d p c → wf (with_edge p c d).
Proof.
  intros Hw Hp Hc Hnew. split.
  - intros v y. rewrite with_edge_lookup. intros (x & Ex & ->)%fmap_Some. cbn. by apply (wf_owner d Hw).
  - intros o v Ho. destruct (wf_owned d Hw _ _ Ho) as (x & Ex & Eo). rewrite with_edge_lookup, Ex.
    eexists. by split.
  - intros a b x Ex Hb. assert (He : edge (with_edge p c d) a b) by (by exists x).
    apply with_edge_edge in He; [|done]. rewrite with_edge_lookup. destruct He as [(x' & Ex' & Hb')|[-> ->]].
    + destruct (wf_out d Hw _ _ _ Ex' Hb') as (y & -> & Ha). eexists. split; [done|]. cbn.
      case_decide; [|done]. apply elem_of_app. by left.
    + destruct Hc as [y ->]. eexists. split; [done|]. cbn. rewrite decide_True by done.
      apply elem_of_app. right. by left.
  - intros a b y. rewrite with_edge_lookup. intros (y' & Ey' & ->)%fmap_Some. cbn. intros Ha.
    apply (with_edge_edge a b Hp). case_decide as Eb; [|left; by apply (wf_in d Hw _ _ y')].
    apply elem_of_app in Ha as [Ha| ->%list_elem_of_singleton]; [left; by apply (wf_in d Hw _ _ y')|by right].
  - intros v y. rewrite with_edge_lookup. intros (x & Ex & ->)%fmap_Some. cbn.
    destruct (wf_nodup d Hw v x Ex) as [Ho Hi]. split; case_decide; subst; try done; apply list.NoDup_app;
      (split; [done|split; [|by apply list.NoDup_singleton]]); intros w Hin ->%list_elem_of_singleton.
    + apply Hnew. by exists x.
    + apply Hnew. by apply (wf_in d Hw _ _ x).
  - intros v Hv. by rewrite with_edge_lookup, (wf_fresh d Hw v Hv).
  - apply Hw.
Qed.
End WithEdge.

(** A path from the target of the new edge does not need it. *)
Lemma with_edge_rtc d p c v : p ≠ c → live d p →
  rtc (edge (with_edge p c d)) c v ↔ rtc (edge d) c v.
Proof.
  intros Hne Hp. split.
  - revert v. apply rtc_ind_r; [done|]. intros u v _ E IH.
    apply with_edge_edge in E as [E|[-> ->]]; [by eapply rtc_r|done..].
  - apply rtc_subrel. intros a b E. apply with_edge_edge; auto.
Qed.

Lemma unvisit_searched d X (ns : list ptr) :
  (∀ v, v ∈ ns → ¬ v ∈ X) → unvisit ns (with_visited (X ∪ list_to_set ns) d) = with_visited X d.
Proof. intros Hns. unfold unvisit, with_visited. cbn. f_equal. set_solver. Qed.

Lemma with_no_visited d : wf d → with_visited ∅ d = d.
Proof. intros Hw. pose proof (wf_visited d Hw). destruct d. unfold with_visited. cbn in *. by subst. Qed.

(** ** Restoring the order *)
Section Restore.
Context (d : DAG T) (p c : ptr).
Hypothesis Hw : wf d.
Hypothesis Hpc : edge d p c.
Hypothesis Hord : ∀ a b, edge d a b → (a = p ∧ b = c) ∨ (ordv d a < ordv d b)%nat.
Hypothesis Hlt : (ordv d c < ordv d p)%nat.

Lemma restore_ne : c ≠ p.
Proof. intros ->. lia. Qed.

(** What the two searches collect. *)
Record forward_set (F : list ptr) : Prop := {
  fw_start : c ∈ F;
  fw_nodup : NoDup F;
  fw_live v : v ∈ F → live d v;
  fw_ord v : v ∈ F → (ordv d c ≤ ordv d v < ordv d p)%nat;
  fw_reach v : v ∈ F → rtc (edge d) c v;
  fw_closed v n : v ∈ F → edge d v n → n ∈ F ∨ (ordv d p < ordv d n)%nat
}.

Record backward_set (B : list ptr) : Prop := {
  bw_start : p ∈ B;
  bw_nodup : NoDup B;
  bw_live v : v ∈ B → live d v;
  bw_ord v : v ∈ B → (ordv d c < ordv d v ≤ ordv d p)%nat;
  bw_reach v : v ∈ B → rtc (edge d) v p;
  bw_closed v n : v ∈ B → edge d n v → n ∈ B ∨ (ordv d n < ordv d c)%nat
}.

Lemma ord_differ a b : live d a → live d b → a ≠ b → ordv d a ≠ ordv d b.
Proof. intros Ha Hb Hne E. by apply Hne, (live_ord_inj d Hw). Qed.

Lemma step_backward_rtc a b : rtc (step backward d) a b → rtc (edge d) b a.
Proof.
  induction 1 as [|a x b E _ IH]; [done|]. apply step_backward in E; [|done]. by eapply rtc_r.
Qed.

Lemma within_forward n v : within forward d n v ↔ (ordv d v < n)%nat.
Proof. unfold within. cbn -[Nat.ltb]. apply Nat.ltb_lt. Qed.
Lemma within_backward n v : within backward d n v ↔ (n < ordv d v)%nat.
Proof. unfold within. cbn -[Nat.ltb]. apply Nat.ltb_lt. Qed.

Lemma forward_reach F v : c ∈ F → dfs_inv forward d c p (ordv d p) ∅ F [] → rtc (edge d) c v →
  v ≠ p ∧ (ordv d c ≤ ordv d v)%nat ∧ (v ∈ F ∨ (ordv d p < ordv d v)%nat).
Proof.
  intros Hc Hi. destruct (edge_live d p c Hw Hpc) as [Hlp _].
  revert v. apply rtc_ind_r; [split; [apply restore_ne|auto]|].
  intros u v _ E (Hup & Hcu & Hu). destruct (edge_live d u v Hw E) as [_ Hlv].
  destruct (Hord u v E) as [[-> _]|Huv]; [done|]. destruct Hu as [Hu|Hu].
  - destruct (di_closed _ _ _ _ _ _ _ _ Hi u v Hu) as [Hvp Hv]; [by intros ?%not_elem_of_nil|done|].
    split; [done|]. split; [lia|]. rewrite within_forward in Hv.
    pose proof (ord_differ v p Hlv Hlp Hvp). destruct Hv as [Hv|[Hv|Hv]]; [set_solver|by left|right; lia].
  - split; [intros ->; lia|]. split; [lia|right; lia].
Qed.

Lemma forward_result F : c ∈ F → dfs_inv forward d c p (ordv d p) ∅ F [] →
  forward_set F ∧ ¬ rtc (edge d) c p.
Proof.
  intros Hc Hi. split; [|by intros (? & _)%(forward_reach F)].
  assert (Hreach : ∀ v, v ∈ F → rtc (edge d) c v) by apply Hi.
  split; [done|apply Hi|intros v Hv; by apply Hi| |done|].
  - intros v Hv. destruct (forward_reach F v Hc Hi (Hreach v Hv)) as (_ & Hge & _). split; [done|].
    destruct (di_within _ _ _ _ _ _ _ _ Hi v Hv) as [->|Hv']; [done|]. by apply within_forward in Hv'.
  - intros v n Hv E. eapply (forward_reach F n Hc Hi). eapply rtc_r; [by apply Hreach|done].
Qed.

Lemma backward_le v : ¬ rtc (edge d) c p → rtc (edge d) v p → (ordv d v ≤ ordv d p)%nat.
Proof.
  intros Hnc. revert v. apply rtc_ind_l; [done|]. intros u v E Hr IH.
  destruct (Hord u v E) as [[-> ->]|]; [done|lia].
Qed.

Lemma backward_result F B : ¬ rtc (edge d) c p → forward_set F → p ∈ B →
  dfs_inv backward d p c (ordv d c) (list_to_set F) B [] → backward_set B ∧ NoDup (B ++ F).
Proof.
  intros Hnc HF Hp Hi. destruct (edge_live d p c Hw Hpc) as [_ Hlc].
  assert (Hreach : ∀ v, v ∈ B → rtc (edge d) v p) by (intros v Hv; by apply step_backward_rtc, Hi).
  split.
  - split; [done|apply Hi|intros v Hv; by apply Hi| |done|].
    + intros v Hv. split; [|by apply backward_le, Hreach].
      destruct (di_within _ _ _ _ _ _ _ _ Hi v Hv) as [->|Hv']; [done|]. by apply within_backward in Hv'.
    + intros v n Hv E. destruct (edge_live d n v Hw E) as [Hln _].
      destruct (di_closed _ _ _ _ _ _ _ _ Hi v n Hv) as [Hnec Hn];
        [by intros ?%not_elem_of_nil|by apply step_backward|].
      rewrite elem_of_list_to_set, within_backward in Hn. pose proof (ord_differ n c Hln Hlc Hnec).
      destruct Hn as [Hn|[Hn|Hn]]; [|by left|right; lia].
      exfalso. apply Hnc. etrans; [by apply (fw_reach F HF)|]. eapply rtc_l; [done|by apply Hreach].
  - apply list.NoDup_app. split; [apply Hi|]. split; [|apply HF]. intros v Hv HvF.
    destruct (di_new _ _ _ _ _ _ _ _ Hi v Hv) as [Hx _]. by apply Hx, elem_of_list_to_set.
Qed.

(** The order [reorder] leaves is topological. *)
Lemma reordered_ordered F B : forward_set F → backward_set B → NoDup (B ++ F) → ordered (reordered d F B).
Proof.
  intros HF HB Hn. assert (Hl : ∀ v, v ∈ B ++ F → live d v).
  { intros v [Hv|Hv]%elem_of_app; [by apply HB|by apply HF]. }
  assert (Hor : ∀ w, w ∈ B ∨ w ∈ F → (ordv d c ≤ ordv d w ≤ ordv d p)%nat).
  { intros w [Hv|Hv]; [apply (bw_ord B HB) in Hv|apply (fw_ord F HF) in Hv]; lia. }
  intros a b E. apply (reordered_edge d F B Hw Hn Hl) in E.
  destruct (Hord a b E) as [[-> ->]|Hab]; [apply (reordered_BF d F B); try done; [by apply HB|by apply HF]|].
  assert (Hother := reordered_ord_other d F B).
  assert (Hamong := reordered_among d F B Hw Hn Hl).
  assert (Hdis : ∀ w, w ∈ B → w ∈ F → False).
  { intros w Hb Hf. apply list.NoDup_app in Hn as (_ & Hd & _). by apply (Hd w). }
  destruct (decide (a ∈ F)) as [HaF|HaF].
  - destruct (fw_closed F HF a b HaF E) as [HbF|Hb]; [by apply (reordered_F_mono d F B)|].
    rewrite (Hother b) by (intros Hi; pose proof (Hor b ltac:(tauto)); lia).
    destruct (Hamong a ltac:(tauto)) as (w & Hw' & ->). apply Hor in Hw'. lia.
  - destruct (decide (b ∈ B)) as [HbB|HbB].
    + destruct (bw_closed B HB b a HbB E) as [HaB|Ha]; [by apply (reordered_B_mono d F B)|].
      rewrite (Hother a) by (intros Hi; pose proof (Hor a ltac:(tauto)); lia).
      destruct (Hamong b ltac:(tauto)) as (w & Hw' & ->). apply Hor in Hw'. lia.
    + assert (ordv (reordered d F B) a ≤ ordv d a)%nat.
      { destruct (decide (a ∈ B)); [by apply (reordered_B_le d F B)|]. by rewrite Hother. }
      assert (ordv d b ≤ ordv (reordered d F B) b)%nat.
      { destruct (decide (b ∈ F)); [by apply (reordered_F_ge d F B)|]. by rewrite Hother. }
      lia.
Qed.

Lemma reordered_same_graph F B : NoDup (B ++ F) → (∀ v, v ∈ B ++ F → live d v) → same_graph d (reordered d F B).
Proof.
  intros Hn Hl. split; [done|]. intros v. destruct (reordered_lookup d F B Hw Hn Hl v) as [f ->].
  by destruct (heap d !! v) as [[]|].
Qed.

Lemma restore_order_spec :
  (rtc (edge d) c p ∧
     restore_order p c (ordv d p) (ordv d c) d =
       (Throw (C10Error "Cycle detected while trying to add edge."), d)) ∨
  (¬ rtc (edge d) c p ∧
     ∃ d', restore_order p c (ordv d p) (ordv d c) d = (Ok tt, d') ∧ inv d' ∧ same_graph d d').
Proof.
  destruct (edge_live d p c Hw Hpc) as [Hlp Hlc]. unfold restore_order.
  destruct (dfsSearch_spec forward d c p (ordv d p) ∅ [] Hw Hlc restore_ne ltac:(set_solver) ltac:(set_solver))
    as (found & F & E & Hc & _ & _ & Hres).
  rewrite (with_no_visited d Hw) in E. rewrite E. destruct found.
  { left. split; [by apply tc_rtc|]. unfold searched.
    rewrite app_nil_l, unvisit_searched, with_no_visited; [done|done|]. intros v _. set_solver. }
  right. destruct (forward_result F Hc Hres) as [HF Hr]. split; [done|].
  unfold searched. rewrite union_empty_l_L, app_nil_l.
  assert (Htc : ¬ tc (step backward d) p c) by (by intros Hs%tc_rtc%step_backward_rtc).
  destruct (dfsSearch_spec backward d p c (ordv d c) (list_to_set F) [] Hw Hlp ltac:(by intros ->; lia))
    as (found & B & E' & Hp & _ & Hnew & Hres'); [|done|].
  { intros Hin%elem_of_list_to_set. apply (fw_ord F HF) in Hin. lia. }
  rewrite E'. destruct found; [done|].
  destruct (backward_result F B Hr HF Hp Hres') as [HB Hn].
  assert (Hl : ∀ v, v ∈ B ++ F → live d v).
  { intros v [Hv|Hv]%elem_of_app; [by apply HB|by apply HF]. }
  unfold searched. rewrite app_nil_l, (reorder_spec d F B Hw Hn Hl).
  exists (reordered d F B). split; [|split; [split|]].
  - f_equal. pose proof (wf_visited d Hw) as Hv. unfold unvisit, with_visited, reordered.
    unfold with_vertices, with_heap. cbn. rewrite Hv. f_equal. set_solver.
  - by apply reordered_wf.
  - by apply reordered_ordered.
  - by apply reordered_same_graph.
Qed.
End Restore.

(** ** [addEdge] *)
Lemma contains_true (s : list ptr) v : contains s v = true ↔ v ∈ s.
Proof. apply bool_decide_eq_true. Qed.
Lemma contains_false (s : list ptr) v : contains s v = false ↔ ¬ v ∈ s.
Proof. apply bool_decide_eq_false. Qed.

Lemma update_spec d v f x : heap d !! v = Some x →
  update v f d = (Ok tt, with_heap (alter f v (heap d)) d).
Proof.
  intros Ex. unfold update, mbind, SE_bind, deref, lookup_vertex, modify. rewrite Ex.
  by rewrite (insert_alter _ _ f x).
Qed.

Lemma deref_spec d v x : heap d !! v = Some x → deref v d = (Ok x, d).
Proof. intros Ex. unfold deref, lookup_vertex. by rewrite Ex. Qed.

Lemma addEdge_known d p c xp : p ≠ c → heap d !! p = Some xp → c ∈ out_edges xp →
  addEdge p c d = (Ok tt, d).
Proof.
  intros Hne Ep Hin. unfold addEdge. rewrite run_assert by (by rewrite bool_decide_eq_false_2).
  rewrite (run_bind _ _ _ _ _ (deref_spec _ _ _ Ep)).
  unfold set_insert. rewrite (proj2 (contains_true _ _)) by done.
  rewrite (run_bind _ _ _ _ _ (update_spec _ _ _ _ Ep)). cbn. f_equal. unfold with_heap.
  rewrite alter_id; [by destruct d|]. intros x Ex. simplify_eq. by destruct xp.
Qed.

Lemma addEdge_new d p c xp xc : wf d → p ≠ c → heap d !! p = Some xp → heap d !! c = Some xc →
  ¬ c ∈ out_edges xp →
  addEdge p c d =
    if (ordv d p <=? ordv d c)%nat then (Ok tt, with_edge p c d)
    else restore_order p c (ordv d p) (ordv d c) (with_edge p c d).
Proof.
  intros Hw Hne Ep Ec Hin. unfold addEdge. rewrite run_assert by (by rewrite bool_decide_eq_false_2).
  rewrite (run_bind _ _ _ _ _ (deref_spec _ _ _ Ep)).
  unfold set_insert at 1. rewrite (proj2 (contains_false _ _)) by done.
  rewrite (run_bind _ _ _ _ _ (update_spec _ _ _ _ Ep)). cbn [negb].
  set (d1 := with_heap _ d). assert (E1 : heap d1 !! c = Some xc) by (cbn; by rewrite lookup_alter_ne).
  rewrite (run_bind _ _ _ _ _ (deref_spec _ _ _ E1)).
  assert (Hin' : ¬ p ∈ in_edges xc).
  { intros H. destruct (wf_in d Hw _ _ _ Ec H) as (x & Ex & Hx). by simplify_eq. }
  unfold set_insert. rewrite (proj2 (contains_false _ _)) by done.
  rewrite (run_bind _ _ _ _ _ (update_spec _ _ _ _ E1)), run_assert by done.
  set (d2 := with_heap _ d1). assert (E2 : d2 = with_edge p c d).
  { unfold d2, d1, with_edge, with_heap. cbn. f_equal.
    rewrite (alter_ext (set_out _) (λ x, set_out (out_edges x ++ [c]) x)).
    - apply alter_ext. intros x Ex. rewrite lookup_alter_ne in Ex by done. by simplify_eq.
    - intros x Ex. by simplify_eq. }
  rewrite E2. unfold ordv. rewrite Ep, Ec.
  pose proof (with_edge_lookup d p c Hne p) as Lp. rewrite Ep in Lp.
  pose proof (with_edge_lookup d p c Hne c) as Lc. rewrite Ec in Lc.
  rewrite (run_bind _ _ _ _ _ (deref_spec _ _ _ Lp)), (run_bind _ _ _ _ _ (deref_spec _ _ _ Lc)).
  cbn [ord]. by destruct (_ <=? _)%nat.
Qed.

Lemma addEdge_lemma d p c : inv d → live d p → live d c → p ≠ c →
  (edge d p c ∧ addEdge p c d = (Ok tt, d)) ∨
  (¬ edge d p c ∧ rtc (edge d) c p ∧
     addEdge p c d = (Throw (C10Error "Cycle detected while trying to add edge."), with_edge p c d)) ∨
  (¬ rtc (edge d) c p ∧ ∃ d', addEdge p c d = (Ok tt, d') ∧ inv d' ∧ same_graph (with_edge p c d) d').
Proof.
  intros [Hw Ho] Hp Hc Hne. pose proof Hp as [xp Ep]. pose proof Hc as [xc Ec].
  destruct (decide (c ∈ out_edges xp)) as [Hin|Hin].
  { left. split; [by exists xp|]. by apply (addEdge_known d p c xp). }
  assert (Hnew : ¬ edge d p c) by (intros (x & Ex & Hx); simplify_eq; done).
  right. rewrite (addEdge_new d p c xp xc) by done. case_match eqn:El.
  - apply Nat.leb_le in El. assert (Hlt : (ordv d p < ordv d c)%nat).
    { pose proof (ord_differ d Hw p c Hp Hc Hne). lia. }
    right. split; [intros Hr%(ordered_rtc d c p Ho); lia|].
    eexists. split; [done|]. split; [|done]. split; [by apply with_edge_wf|].
    intros a b [E|[-> ->]]%(with_edge_edge d p c Hne a b Hp); rewrite !with_edge_ordv by done; [by apply Ho|done].
  - apply Nat.leb_gt in El. rewrite <- (with_edge_ordv d p c Hne p), <- (with_edge_ordv d p c Hne c) in El |- *.
    assert (Hw' : wf (with_edge p c d)) by (by apply with_edge_wf).
    assert (Hpc : edge (with_edge p c d) p c) by (apply with_edge_edge; auto).
    assert (Hor : ∀ a b, edge (with_edge p c d) a b →
      (a = p ∧ b = c) ∨ (ordv (with_edge p c d) a < ordv (with_edge p c d) b)%nat).
    { intros a b [E|E]%(with_edge_edge d p c Hne a b Hp); [right|by left].
      rewrite !with_edge_ordv by done. by apply Ho. }
    rewrite <- (with_edge_rtc d p c p Hne Hp).
    destruct (restore_order_spec _ p c Hw' Hpc Hor El) as [[Hr ->]|[Hr ?]]; [left|right]; done.
Qed.
End Edges.

(** ** Vertices of the dynamic DAG come and go *)

Section Remove.
Context {T : Type}.
Implicit Types (d : DAG T) (v w a b p c : ptr) (x y : Vertex T).

(** ** Erasing from a [vertex_set] *)
Lemma erase_first_notin (s : list ptr) v : ¬ v ∈ s → erase_first s v = s.
Proof.
  induction s as [|w s IH]; intros Hv; cbn; [done|]. rewrite bool_decide_eq_false_2 by set_solver.
  rewrite IH; [done|]. set_solver.
Qed.

Lemma erase_first_elem (s : list ptr) v w : NoDup s → w ∈ erase_first s v ↔ w ∈ s ∧ w ≠ v.
Proof.
  induction s as [|u s IH]; intros Hn; cbn; [set_solver|]. apply list.NoDup_cons in Hn as [Hu Hn].
  case_bool_decide; [set_solver|]. rewrite !elem_of_cons, IH by done. set_solver.
Qed.

Lemma erase_first_NoDup (s : list ptr) v : NoDup s → NoDup (erase_first s v).
Proof.
  induction s as [|u s IH]; intros Hn; cbn; [done|]. apply list.NoDup_cons in Hn as [Hu Hn].
  case_bool_decide; [done|]. apply list.NoDup_cons. split; [|by apply IH].
  intros [? _]%erase_first_elem; done.
Qed.

(** The data of a vertex. *)
Definition datav d v : option (list T) := data <$> heap d !! v.
Definition same_data d d' : Prop := next_ptr d' = next_ptr d ∧ ∀ v, datav d' v = datav d v.

Lemma same_data_live d d' v : same_data d d' → live d' v ↔ live d v.
Proof.
  intros [_ Hd]. specialize (Hd v). unfold datav in Hd. unfold live.
  destruct (heap d' !! v), (heap d !! v); split; intros [? ?]; try done; by eexists.
Qed.

Lemma same_graph_data d d' : same_graph d d' → same_data d d'.
Proof.
  intros [Hn Hh]. split; [done|]. intros v. specialize (Hh v). unfold datav, unord in *.
  destruct (heap d' !! v) as [[]|], (heap d !! v) as [[]|]; cbn in *; congruence.
Qed.

Lemma with_edge_data d p c : p ≠ c → same_data d (with_edge p c d).
Proof.
  intros Hne. split; [done|]. intros v. unfold datav. rewrite with_edge_lookup by done.
  by destruct (heap d !! v).
Qed.

#[global] Instance same_data_equiv : Equivalence same_data.
Proof.
  split.
  - by intros d.
  - intros d d' [Hn Hh]. by split.
  - intros d1 d2 d3 [Hn Hh] [Hn' Hh']. split; [congruence|]. intros v. by rewrite Hh', Hh.
Qed.

(** ** A graph with fewer edges

    [prune keep d] keeps the vertices and the edges that [keep] accepts. *)
Definition prune (keep : ptr → ptr → bool) d : DAG T :=
  with_heap (map_imap (λ v x, Some (mkVertex (data x) (ord x)
    (filter (λ a, keep a v = true) (in_edges x)) (filter (λ b, keep v b = true) (out_edges x)))) (heap d)) d.

Section Prune.
Context (keep : ptr → ptr → bool) (d : DAG T).

Lemma prune_lookup v : heap (prune keep d) !! v =
  (λ x, mkVertex (data x) (ord x)
    (filter (λ a, keep a v = true) (in_edges x)) (filter (λ b, keep v b = true) (out_edges x))) <$> heap d !! v.
Proof. unfold prune. cbn. rewrite map_lookup_imap. by destruct (heap d !! v). Qed.

Lemma prune_edge a b : edge (prune keep d) a b ↔ edge d a b ∧ keep a b = true.
Proof.
  unfold edge. rewrite prune_lookup. split.
  - intros (x & (y & -> & ->)%fmap_Some & Hb). cbn in Hb. apply list_elem_of_filter in Hb as [Hk Hb]. eauto.
  - intros [(x & -> & Hb) Hk]. eexists. split; [done|]. by apply list_elem_of_filter.
Qed.

Lemma prune_data : same_data d (prune keep d).
Proof. split; [done|]. intros v. unfold datav. rewrite prune_lookup. by destruct (heap d !! v). Qed.

Lemma prune_ordv v : ordv (prune keep d) v = ordv d v.
Proof. unfold ordv. rewrite prune_lookup. by destruct (heap d !! v). Qed.

Lemma prune_inv : inv d → inv (prune keep d).
Proof.
  intros [Hw Ho]. split; [split|].
  - intros v y. rewrite prune_lookup. intros (x & Ex & ->)%fmap_Some. cbn. by apply (wf_owner d Hw).
  - intros o v E. destruct (wf_owned d Hw _ _ E) as (x & Ex & Eo). rewrite prune_lookup, Ex. by eexists.
  - intros a b x Ex Hb. assert (He : edge (prune keep d) a b) by (by exists x).
    apply prune_edge in He as [(x' & Ex' & Hb') Hk].
    destruct (wf_out d Hw _ _ _ Ex' Hb') as (y & Ey & Ha). rewrite prune_lookup, Ey. eexists.
    split; [done|]. by apply list_elem_of_filter.
  - intros a b y. rewrite prune_lookup. intros (y' & Ey' & ->)%fmap_Some [Hk Ha]%list_elem_of_filter.
    apply (prune_edge a b). split; [|done]. by apply (wf_in d Hw _ _ _ Ey').
  - intros v y. rewrite prune_lookup. intros (x & Ex & ->)%fmap_Some. cbn.
    destruct (wf_nodup d Hw v x Ex). split; by apply list.NoDup_filter.
  - intros v Hv. by rewrite prune_lookup, (wf_fresh d Hw v Hv).
  - apply Hw.
  - intros a b [E _]%prune_edge. rewrite !prune_ordv. by apply Ho.
Qed.
End Prune.

Lemma erase_first_filter (s : list ptr) v (P : ptr → bool) :
  NoDup s → (∀ w, w ∈ s → P w = true ↔ w ≠ v) → erase_first s v = filter (λ w, P w = true) s.
Proof.
  induction s as [|u s IH]; intros Hn Hp; cbn [erase_first]; [done|]. apply list.NoDup_cons in Hn as [Hu Hn].
  assert (Hs : ∀ w, w ∈ s → P w = true ↔ w ≠ v) by (intros w Hw; apply Hp; by right).
  pose proof (Hp u ltac:(by left)) as Hpu. case_bool_decide as E.
  - subst u. rewrite filter_cons_False by tauto. symmetry. rewrite <- IH by done. by apply erase_first_notin.
  - rewrite filter_cons_True by tauto. by rewrite <- IH.
Qed.

Lemma filter_all (s : list ptr) (P : ptr → bool) :
  (∀ w, w ∈ s → P w = true) → filter (λ w, P w = true) s = s.
Proof.
  induction s as [|u s IH]; intros Hp; [done|]. rewrite filter_cons_True by (apply Hp; by left).
  rewrite IH; [done|]. intros w Hw. apply Hp. by right.
Qed.

Lemma erase_out_spec d v w x : heap d !! v = Some x → w ∈ out_edges x →
  erase_out v w d = (Ok tt, with_heap (alter (set_out (erase_first (out_edges x) w)) v (heap d)) d).
Proof.
  intros Ex Hw. unfold erase_out. rewrite (run_bind _ _ _ _ _ (deref_spec _ _ _ Ex)).
  unfold set_erase. rewrite (proj2 (contains_true _ _)) by done.
  unfold lift. rewrite (run_bind _ _ _ (erase_first (out_edges x) w) d) by done. by apply (update_spec _ _ _ x).
Qed.

Lemma erase_in_spec d v w x : heap d !! v = Some x → w ∈ in_edges x →
  erase_in v w d = (Ok tt, with_heap (alter (set_in (erase_first (in_edges x) w)) v (heap d)) d).
Proof.
  intros Ex Hw. unfold erase_in. rewrite (run_bind _ _ _ _ _ (deref_spec _ _ _ Ex)).
  unfold set_erase. rewrite (proj2 (contains_true _ _)) by done.
  unfold lift. rewrite (run_bind _ _ _ (erase_first (in_edges x) w) d) by done. by apply (update_spec _ _ _ x).
Qed.

(** ** [removeEdge] *)
Definition without_edge p c d : DAG T := prune (λ a b, negb (bool_decide (a = p ∧ b = c))) d.

Lemma without_edge_edge p c d a b : edge (without_edge p c d) a b ↔ edge d a b ∧ ¬ (a = p ∧ b = c).
Proof. unfold without_edge. rewrite prune_edge. by rewrite negb_true_iff, bool_decide_eq_false. Qed.

Lemma removeEdge_lemma d p c : inv d → edge d p c → removeEdge p c d = (Ok tt, without_edge p c d).
Proof.
  intros [Hw Ho] (xp & Ep & Hc). pose proof Hw as Hwf. destruct (wf_out d Hw _ _ _ Ep Hc) as (xc & Ec & Hp).
  assert (Hne : p ≠ c).
  { intros ->. pose proof (Ho c c ltac:(by exists xp)). lia. }
  unfold removeEdge. rewrite run_assert by (by rewrite bool_decide_eq_false_2).
  rewrite (run_bind _ _ _ _ _ (deref_spec _ _ _ Ep)), run_assert by (by apply contains_true).
  rewrite (run_bind _ _ _ _ _ (deref_spec _ _ _ Ec)), run_assert by (by apply contains_true).
  rewrite (run_bind _ _ _ _ _ (erase_out_spec _ _ _ _ Ep Hc)).
  rewrite (erase_in_spec _ c p xc); [|cbn; by rewrite lookup_alter_ne|done].
  f_equal. unfold without_edge, prune, with_heap. cbn. f_equal. apply map_eq. intros v.
  rewrite map_lookup_imap. destruct (wf_nodup d Hw _ _ Ep) as [Hnp _], (wf_nodup d Hw _ _ Ec) as [_ Hnc].
  destruct (decide (v = c)) as [->|Hvc]; [|rewrite lookup_alter_ne by done; destruct (decide (v = p)) as [->|Hvp]].
  - rewrite lookup_alter_eq, lookup_alter_ne, Ec by done. cbn. unfold set_in. f_equal.
    rewrite (erase_first_filter _ p (λ a, negb (bool_decide (a = p ∧ c = c)))), (filter_all (out_edges xc)); [by destruct xc|..|done|].
    + intros w _. rewrite negb_true_iff, bool_decide_eq_false. naive_solver.
    + intros w _. rewrite negb_true_iff, bool_decide_eq_false. naive_solver.
  - rewrite lookup_alter_eq, Ep. cbn. unfold set_out. f_equal.
    rewrite (erase_first_filter _ c (λ b, negb (bool_decide (p = p ∧ b = c)))), (filter_all (in_edges xp)); [by destruct xp|..|done|].
    + intros w _. rewrite negb_true_iff, bool_decide_eq_false. naive_solver.
    + intros w _. rewrite negb_true_iff, bool_decide_eq_false. naive_solver.
  - rewrite lookup_alter_ne by done. destruct (heap d !! v) as [[]|]; [|done]. cbn. do 2 f_equal; symmetry;
      apply filter_all; intros w _; rewrite negb_true_iff, bool_decide_eq_false; naive_solver.
Qed.

(** ** [removeVertex] *)

(** One write through each of the pointers of a list. *)
Definition alter_all (f : Vertex T → Vertex T) (l : list ptr) (h : gmap ptr (Vertex T)) : gmap ptr (Vertex T) :=
  foldl (λ h w, alter f w h) h l.

Lemma alter_all_lookup f l h w : NoDup l →
  alter_all f l h !! w = if decide (w ∈ l) then f <$> h !! w else h !! w.
Proof.
  revert h. induction l as [|u l IH]; intros h Hn; cbn; [by rewrite decide_False by apply not_elem_of_nil|].
  apply list.NoDup_cons in Hn as [Hu Hn]. change (foldl _ _ _) with (alter_all f l (alter f u h)). rewrite IH by done.
  destruct (decide (w = u)) as [->|Hw].
  - rewrite decide_False, decide_True by (done || by left). by rewrite lookup_alter_eq.
  - rewrite lookup_alter_ne by done. repeat case_decide; set_solver.
Qed.

Lemma erase_out_all d v l : NoDup l → (∀ w, w ∈ l → edge d w v) →
  foreach l (λ w, erase_out w v) d =
    (Ok tt, with_heap (alter_all (λ x, set_out (erase_first (out_edges x) v) x) l (heap d)) d).
Proof.
  revert d. induction l as [|u l IH]; intros d Hn He; cbn [foreach]; [by destruct d|].
  apply list.NoDup_cons in Hn as [Hu Hn]. destruct (He u ltac:(by left)) as (x & Ex & Hv).
  rewrite (run_bind _ _ _ _ _ (erase_out_spec _ _ _ _ Ex Hv)). rewrite IH; [|done|].
  - f_equal. unfold with_heap. cbn. f_equal. unfold alter_all. f_equal. apply alter_ext. intros y Ey. by simplify_eq.
  - intros w Hw. destruct (He w ltac:(by right)) as (y & Ey & Hy). exists y. cbn.
    by rewrite lookup_alter_ne by set_solver.
Qed.

Lemma erase_in_all d v l : NoDup l → (∀ w, w ∈ l → ∃ x, heap d !! w = Some x ∧ v ∈ in_edges x) →
  foreach l (λ w, erase_in w v) d =
    (Ok tt, with_heap (alter_all (λ x, set_in (erase_first (in_edges x) v) x) l (heap d)) d).
Proof.
  revert d. induction l as [|u l IH]; intros d Hn He; cbn [foreach]; [by destruct d|].
  apply list.NoDup_cons in Hn as [Hu Hn]. destruct (He u ltac:(by left)) as (x & Ex & Hv).
  rewrite (run_bind _ _ _ _ _ (erase_in_spec _ _ _ _ Ex Hv)). rewrite IH; [|done|].
  - f_equal. unfold with_heap. cbn. f_equal. unfold alter_all. f_equal. apply alter_ext. intros y Ey. by simplify_eq.
  - intros w Hw. destruct (He w ltac:(by right)) as (y & Ey & Hy). exists y. cbn.
    by rewrite lookup_alter_ne by set_solver.
Qed.

Definition apart v a b : bool := negb (bool_decide (a = v)) && negb (bool_decide (b = v)).
Lemma apart_true v a b : apart v a b = true ↔ a ≠ v ∧ b ≠ v.
Proof. unfold apart. by rewrite andb_true_iff, !negb_true_iff, !bool_decide_eq_false. Qed.

Definition without_vertex v d : DAG T :=
  with_heap (delete v (heap (prune (apart v) d))) (with_vertices (<[ordv d v := None]> (vertices_ d)) d).

Lemma without_vertex_lookup v d w : w ≠ v → heap (without_vertex v d) !! w = heap (prune (apart v) d) !! w.
Proof. intros Hw. unfold without_vertex. cbn [heap with_heap]. by rewrite lookup_delete_ne. Qed.

Lemma without_vertex_gone v d : heap (without_vertex v d) !! v = None.
Proof. unfold without_vertex. cbn [heap with_heap]. apply lookup_delete_eq. Qed.

Lemma without_vertex_edge v d a b : edge (without_vertex v d) a b ↔ edge d a b ∧ a ≠ v ∧ b ≠ v.
Proof.
  unfold edge at 1. destruct (decide (a = v)) as [->|Ha].
  - rewrite without_vertex_gone. split; [by intros (? & ? & _)|tauto].
  - rewrite without_vertex_lookup by done. change (∃ x, _) with (edge (prune (apart v) d) a b).
    by rewrite prune_edge, apart_true.
Qed.

Lemma without_vertex_data v d w : w ≠ v → datav (without_vertex v d) w = datav d w.
Proof. intros Hw. unfold datav. rewrite without_vertex_lookup by done. apply prune_data. Qed.

Lemma without_vertex_ordv v d w : w ≠ v → ordv (without_vertex v d) w = ordv d w.
Proof.
  intros Hw. unfold ordv. rewrite without_vertex_lookup by done. apply (prune_ordv (apart v) d w).
Qed.

Lemma without_vertex_inv v d : inv d → live d v → inv (without_vertex v d).
Proof.
  intros Hi Hv. pose proof (prune_inv (apart v) d Hi) as [Hw Ho]. destruct Hi as [Hw0 _].
  assert (Hlook : ∀ w x, heap (without_vertex v d) !! w = Some x → w ≠ v ∧ heap (prune (apart v) d) !! w = Some x).
  { intros w x. destruct (decide (w = v)) as [->|]; [by rewrite without_vertex_gone|].
    rewrite without_vertex_lookup by done. done. }
  assert (Hedge : ∀ a b, edge (without_vertex v d) a b ↔ edge (prune (apart v) d) a b).
  { intros a b. by rewrite without_vertex_edge, prune_edge, apart_true. }
  destruct Hv as [xv Ev]. assert (Eo : ordv d v = ord xv) by (unfold ordv; by rewrite Ev).
  split; [split|].
  - intros w x [Hne Ex]%Hlook. cbn [vertices_ without_vertex with_heap with_vertices].
    rewrite list_lookup_insert_ne; [by apply (wf_owner _ Hw w)|].
    intros E. apply Hne. rewrite prune_lookup in Ex. apply fmap_Some in Ex as (x0 & Ex0 & ->).
    eapply (ord_inj d w v); [done..|]. cbn in E. congruence.
  - intros o w. cbn [vertices_ without_vertex with_heap with_vertices]. intros E.
    destruct (decide (o = ordv d v)) as [->|Hne].
    { pose proof (lookup_lt_Some _ _ _ E) as Hlt. rewrite length_insert in Hlt.
      by rewrite list_lookup_insert_eq in E. }
    rewrite list_lookup_insert_ne in E by done. destruct (wf_owned _ Hw _ _ E) as (x & Ex & Eox).
    exists x. split; [|done]. rewrite without_vertex_lookup; [done|]. intros ->. apply Hne.
    rewrite prune_lookup, Ev in Ex. injection Ex as <-. by rewrite Eo.
  - intros a b x Ex Hb. assert (E : edge (without_vertex v d) a b) by (by exists x).
    apply without_vertex_edge in E as (_ & _ & Hbv). apply Hlook in Ex as [_ Ex].
    rewrite without_vertex_lookup by done. by apply (wf_out _ Hw a b x).
  - intros a b y Ey Ha. apply Hlook in Ey as [_ Ey].
    assert (E : edge (prune (apart v) d) a b) by (by apply (wf_in _ Hw a b y)). by apply Hedge.
  - intros w x [_ Ex]%Hlook. by apply (wf_nodup _ Hw w).
  - intros w Hle. destruct (decide (w = v)) as [->|]; [by rewrite without_vertex_gone|].
    rewrite without_vertex_lookup by done. by apply (wf_fresh _ Hw).
  - apply Hw0.
  - intros a b E. pose proof E as (_ & Ha & Hb)%without_vertex_edge. apply Hedge in E.
    rewrite !without_vertex_ordv by done. pose proof (Ho _ _ E) as Hlt. by rewrite !prune_ordv in Hlt.
Qed.

Lemma removeVertex_lemma d v x : inv d → heap d !! v = Some x →
  removeVertex v d = (Ok (in_edges x, out_edges x), without_vertex v d).
Proof.
  intros [Hw Ho] Ex. unfold removeVertex. rewrite (run_bind _ _ _ _ _ (deref_spec _ _ _ Ex)).
  destruct (wf_nodup d Hw v x Ex) as [Hno Hni].
  assert (Hself : ¬ v ∈ in_edges x ∧ ¬ v ∈ out_edges x).
  { split; intros Hin; (assert (E : edge d v v); [|pose proof (Ho _ _ E); lia]);
      [by apply (wf_in d Hw _ _ x)|by exists x]. }
  destruct Hself as [Hsi Hso].
  rewrite (run_bind _ _ _ _ _ (erase_out_all d v (in_edges x) Hni ltac:(intros w Hin; by apply (wf_in d Hw _ _ x)))).
  set (d1 := with_heap _ d).
  assert (L1 : ∀ w, heap d1 !! w = if decide (w ∈ in_edges x)
    then (λ x, set_out (erase_first (out_edges x) v) x) <$> heap d !! w else heap d !! w).
  { intros w. by apply alter_all_lookup. }
  assert (Hin : ∀ w, w ∈ out_edges x → ∃ y, heap d1 !! w = Some y ∧ v ∈ in_edges y).
  { intros w Hin. destruct (wf_out d Hw _ _ _ Ex Hin) as (y & Ey & Hy). rewrite L1, Ey.
    case_decide; eexists; (split; [done|]); done. }
  rewrite (run_bind _ _ _ _ _ (erase_in_all d1 v (out_edges x) Hno Hin)).
  set (d2 := with_heap _ d1).
  assert (L2 : ∀ w, heap d2 !! w = if decide (w ∈ out_edges x)
    then (λ x, set_in (erase_first (in_edges x) v) x) <$> heap d1 !! w else heap d1 !! w).
  { intros w. by apply alter_all_lookup. }
  assert (E2 : heap d2 !! v = Some x) by (rewrite L2, L1, !decide_False by done; done).
  rewrite (run_bind _ _ _ _ _ (deref_spec _ _ _ E2)), run_get.
  pose proof (lookup_lt_Some _ _ _ (wf_owner d Hw v x Ex)) as Hlt.
  rewrite (proj2 (Nat.ltb_lt (ord x) (length (vertices_ d2)))) by exact Hlt.
  unfold mbind, SE_bind, put. cbn [mret SE_ret]. f_equal. unfold without_vertex.
  assert (Eo : ordv d v = ord x) by (unfold ordv; by rewrite Ex). rewrite Eo.
  unfold with_heap at 1. cbn. unfold with_vertices, with_heap. cbn. f_equal.
  apply map_eq. intros w. destruct (decide (w = v)) as [->|Hwv]; [by rewrite !lookup_delete_eq|].
  rewrite !lookup_delete_ne by done. change (heap d2 !! w = heap (prune (apart v) d) !! w).
  rewrite prune_lookup, L2, L1. destruct (heap d !! w) as [y|] eqn:Ey; [|by repeat case_decide].
  destruct (wf_nodup d Hw w y Ey) as [Hyo Hyi]. cbn [fmap option_fmap option_map data ord in_edges out_edges].
  rewrite <- (erase_first_filter (in_edges y) v (λ a, apart v a w)) by
    (try done; intros a _; rewrite apart_true; tauto).
  rewrite <- (erase_first_filter (out_edges y) v (λ b, apart v w b)) by
    (try done; intros b _; rewrite apart_true; tauto).
  assert (H1 : w ∈ in_edges x ↔ v ∈ out_edges y).
  { split; intros H; [destruct (wf_in d Hw _ _ _ Ex H) as (? & ? & ?)|destruct (wf_out d Hw _ _ _ Ey H) as (? & ? & ?)];
      by simplify_eq. }
  assert (H2 : w ∈ out_edges x ↔ v ∈ in_edges y).
  { split; intros H; [destruct (wf_out d Hw _ _ _ Ex H) as (? & ? & ?)|destruct (wf_in d Hw _ _ _ Ey H) as (? & ? & ?)];
      by simplify_eq. }
  destruct (decide (w ∈ in_edges x)), (decide (w ∈ out_edges x)); cbn; unfold set_in, set_out; cbn;
    rewrite ?(erase_first_notin (in_edges y)), ?(erase_first_notin (out_edges y)) by tauto; by destruct y.
Qed.

(** ** [newVertex] *)
Definition fresh_vertex (datum : T) d : DAG T :=
  mkDAG (<[next_ptr d := mkVertex [datum] (length (vertices_ d)) [] []]> (heap d))
        (vertices_ d ++ [Some (next_ptr d)]) (visited_ d) (S (next_ptr d)).

Section Fresh.
Context (datum : T) (d : DAG T).
Hypothesis Hi : inv d.
#[local] Abbreviation v := (next_ptr d).

Lemma fresh_unused : heap d !! v = None.
Proof. by apply (wf_fresh d (proj1 Hi)). Qed.

Lemma fresh_other w : w ≠ v → heap (fresh_vertex datum d) !! w = heap d !! w.
Proof. intros Hw. apply lookup_insert_ne. done. Qed.

Lemma fresh_at : heap (fresh_vertex datum d) !! v = Some (mkVertex [datum] (length (vertices_ d)) [] []).
Proof. apply lookup_insert_eq. Qed.

Lemma fresh_old w x : heap (fresh_vertex datum d) !! w = Some x →
  (w = v ∧ x = mkVertex [datum] (length (vertices_ d)) [] []) ∨ (w ≠ v ∧ heap d !! w = Some x).
Proof.
  destruct (decide (w = v)) as [->|Hw]; [rewrite fresh_at|rewrite fresh_other by done].
  - intros [= <-]. by left.
  - by right.
Qed.

Lemma fresh_edge a b : edge (fresh_vertex datum d) a b ↔ edge d a b.
Proof.
  split; intros (x & Ex & Hb).
  - apply fresh_old in Ex as [[-> ->]|[_ Ex]]; [by apply not_elem_of_nil in Hb|by exists x].
  - exists x. split; [|done]. rewrite fresh_other; [done|]. intros ->. by rewrite fresh_unused in Ex.
Qed.

Lemma fresh_inv : inv (fresh_vertex datum d).
Proof.
  destruct Hi as [Hw Ho]. assert (Hlt : ∀ w x, heap d !! w = Some x → (ord x < length (vertices_ d))%nat).
  { intros w x Ex. by eapply lookup_lt_Some, (wf_owner d Hw). }
  assert (Hne : ∀ w x, heap d !! w = Some x → w ≠ v) by (intros w x Ex ->; by rewrite fresh_unused in Ex).
  split; [split|].
  - intros w x [[-> ->]|[_ Ex]]%fresh_old; cbn.
    + by rewrite lookup_app_r, Nat.sub_diag by lia.
    + rewrite lookup_app_l by (by eapply Hlt). by apply (wf_owner d Hw).
  - intros o w E. cbn in E. apply lookup_app_Some in E as [E|[Hle E]].
    + destruct (wf_owned d Hw _ _ E) as (x & Ex & Eo). exists x. by rewrite fresh_other by (by eapply Hne).
    + destruct (o - length (vertices_ d))%nat eqn:Es; [|done]. injection E as <-. rewrite fresh_at.
      eexists. split; [done|]. cbn. lia.
  - intros a b x [[-> ->]|[_ Ex]]%fresh_old Hb; [by apply not_elem_of_nil in Hb|].
    destruct (wf_out d Hw _ _ _ Ex Hb) as (y & Ey & Ha). exists y. by rewrite fresh_other by (by eapply Hne).
  - intros a b x [[-> ->]|[_ Ex]]%fresh_old Hb; [by apply not_elem_of_nil in Hb|].
    destruct (wf_in d Hw _ _ _ Ex Hb) as (y & Ey & Ha). exists y. by rewrite fresh_other by (by eapply Hne).
  - intros w x [[-> ->]|[_ Ex]]%fresh_old; [split; constructor|by apply (wf_nodup d Hw w)].
  - intros w Hle. cbn in Hle. rewrite fresh_other by lia. apply (wf_fresh d Hw). lia.
  - apply Hw.
  - intros a b E. apply fresh_edge in E. pose proof (Ho a b E) as Hab.
    destruct (edge_live d a b Hw E) as [[x Ex] [y Ey]]. unfold ordv in *.
    by rewrite !fresh_other by (by eapply Hne).
Qed.
End Fresh.

Lemma newVertex_lemma datum d : newVertex datum d = (Ok (next_ptr d), fresh_vertex datum d).
Proof. done. Qed.

(** ** [debugCheckInvariants] *)
Lemma foreach_pure {S A} (l : list A) (body : A → SE S unit) (s : S) :
  (∀ k, k ∈ l → (body k s).2 = s) →
  (foreach l body s).2 = s ∧ (foreach l body s = (Ok tt, s) ↔ ∀ k, k ∈ l → body k s = (Ok tt, s)).
Proof.
  induction l as [|k l IH]; intros Hs; cbn [foreach].
  { split; [done|]. split; [|done]. by intros _ k Hk%not_elem_of_nil. }
  assert (Hk : (body k s).2 = s) by (apply Hs; by left).
  destruct IH as [IH1 IH2]; [intros m Hm; apply Hs; by right|].
  unfold mbind, SE_bind. destruct (body k s) as [[[]|e] s'] eqn:E; cbn in Hk; subst s'.
  - split; [done|]. rewrite IH2. setoid_rewrite elem_of_cons. naive_solver.
  - split; [done|]. split; [done|]. intros H. rewrite (H k) in E by (by left). done.
Qed.

(** Two checks in a row. *)
Lemma pure_seq {S} (m1 m2 : SE S unit) (s : S) : (m1 s).2 = s → (m2 s).2 = s →
  ((m1;; m2) s).2 = s ∧ ((m1;; m2) s = (Ok tt, s) ↔ m1 s = (Ok tt, s) ∧ m2 s = (Ok tt, s)).
Proof.
  intros H1 H2. unfold mbind, SE_bind. destruct (m1 s) as [[[]|e] s'] eqn:E; cbn in H1; subst s'.
  - split; [done|]. tauto.
  - split; [done|]. split; [done|]. by intros [? _].
Qed.

Lemma check_edges d l (f : nat → bool) :
  (foreach l (λ w, y ← deref w; AT_ASSERT (f (ord y))) d).2 = d ∧
  (foreach l (λ w, y ← deref w; AT_ASSERT (f (ord y))) d = (Ok tt, d) ↔
   ∀ w, w ∈ l → ∃ y, heap d !! w = Some y ∧ f (ord y) = true).
Proof.
  assert (H : ∀ w, ((y ← deref w; AT_ASSERT (f (ord y))) d).2 = d ∧
    ((y ← deref w; AT_ASSERT (f (ord y))) d = (Ok tt, d) ↔ ∃ y, heap d !! w = Some y ∧ f (ord y) = true)).
  { intros w. unfold mbind, SE_bind, deref, lookup_vertex. destruct (heap d !! w) as [y|]; cbn.
    - destruct (f (ord y)) eqn:E; cbn; (split; [done|]); split; [by exists y|done|done|].
      intros (y' & [= <-] & E'). congruence.
    - split; [done|]. split; [done|]. by intros (? & ? & _). }
  destruct (foreach_pure l (λ w, y ← deref w; AT_ASSERT (f (ord y))) d) as [H1 H2]; [intros w _; apply H|].
  split; [done|]. rewrite H2. split; intros Hl w Hw; by apply H, Hl.
Qed.

Lemma check_vertex_spec d o v x : heap d !! v = Some x →
  (check_vertex o (Some v) d).2 = d ∧
  (check_vertex o (Some v) d = (Ok tt, d) ↔
   ord x = o ∧ (∀ w, w ∈ in_edges x → ∃ y, heap d !! w = Some y ∧ (ord y < o)%nat) ∧
   (∀ w, w ∈ out_edges x → ∃ y, heap d !! w = Some y ∧ (o < ord y)%nat)).
Proof.
  intros Ex. unfold check_vertex. rewrite (run_bind _ _ _ _ _ (deref_spec _ _ _ Ex)).
  destruct (Nat.eqb_spec (ord x) o) as [Eo|Eo]; [|split; [done|by split; [|intros [? _]]]].
  rewrite run_assert by done.
  destruct (check_edges d (in_edges x) (λ n, n <? o)%nat) as [I1 I2].
  destruct (check_edges d (out_edges x) (λ n, o <? n)%nat) as [O1 O2].
  destruct (pure_seq _ _ _ I1 O1) as [S1 S2]. split; [exact S1|]. rewrite S2, I2, O2.
  setoid_rewrite Nat.ltb_lt. tauto.
Qed.

(** On a well-formed store the self-check accepts the topological orders, and
    nothing else. *)
Lemma debugCheckInvariants_lemma d : wf d →
  (debugCheckInvariants d).2 = d ∧ (debugCheckInvariants d = (Ok tt, d) ↔ ordered d).
Proof.
  intros Hw. unfold debugCheckInvariants. rewrite run_get.
  assert (Hin : ∀ k, k ∈ imap pair (vertices_ d) ↔ vertices_ d !! k.1 = Some k.2).
  { intros [o v]. rewrite list_elem_of_lookup. setoid_rewrite list_lookup_imap_Some. naive_solver. }
  destruct (foreach_pure (imap pair (vertices_ d)) (λ k, check_vertex k.1 k.2) d) as [H1 H2].
  { intros [o [v|]] Hp%Hin; [|done]. destruct (wf_owned d Hw _ _ Hp) as (x & Ex & _).
    by apply (check_vertex_spec d o v x). }
  split; [done|]. rewrite H2. split.
  - intros Hall a b E. destruct (edge_live d a b Hw E) as [[x Ex] [y Ey]]. destruct E as (x' & Ex' & Hb).
    rewrite Ex in Ex'. injection Ex' as <-. assert (Hp : (ord x, Some a) ∈ imap pair (vertices_ d)) by (apply Hin; by apply (wf_owner d Hw)).
    apply Hall in Hp. apply (check_vertex_spec d _ a x Ex) in Hp as (_ & _ & Ho).
    destruct (Ho b Hb) as (y' & Ey' & Hlt). rewrite Ey in Ey'. injection Ey' as <-. unfold ordv. by rewrite Ex, Ey.
  - intros Ho [o [v|]] Hp%Hin; [|done]. destruct (wf_owned d Hw _ _ Hp) as (x & Ex & Eo).
    cbn [fst snd]. apply (check_vertex_spec d o v x Ex). split; [done|]. cbn in Eo. subst o. split; intros w Hin'.
    + destruct (wf_in d Hw _ _ _ Ex Hin') as (y & Ey & Hv). exists y. split; [done|].
      pose proof (Ho w v ltac:(by exists y)) as Hlt. unfold ordv in Hlt. by rewrite Ex, Ey in Hlt.
    + destruct (wf_out d Hw _ _ _ Ex Hin') as (y & Ey & Hv). exists y. split; [done|].
      pose proof (Ho v w ltac:(by exists x)) as Hlt. unfold ordv in Hlt. by rewrite Ex, Ey in Hlt.
Qed.
End Remove.
