(* ===== verification/DagContract.v ===== *)
(** * Contracting an edge of the dynamic DAG

    [contractEdge] merges the two ends of an edge when no other path joins them:
    the search that decides it, the graph that results, and why the edges it adds
    one by one never close a cycle. *)
From stdpp Require Import sorting relations.
From S2P Require Import Prelude DynamicDAG DynamicDAGSpec DagReorder DagEdges.
Import DynamicDAG.
#[local] Set Warnings "-clear-no-such-hyp".

Section Contract.
Context {T : Type}.
Implicit Types (d : DAG T) (v w a b p c k g : ptr) (x y : Vertex T).

(** ** Whether a contraction closes a cycle *)

(** A path from [p] to [c] other than the edge itself. *)
Definition other_path d p c : Prop := ∃ w, edge d p w ∧ w ≠ c ∧ rtc (edge d) w c.

(** A set of visited vertices from which [c] is out of reach. *)
Definition explored d c (ns : list ptr) : Prop :=
  ∀ v n, v ∈ ns → v ≠ c ∧ (edge d v n → n ≠ c ∧ (n ∈ ns ∨ (ordv d c < ordv d n)%nat)).

Lemma explored_unreachable d c ns v : ordered d → explored d c ns → v ∈ ns → ¬ rtc (edge d) v c.
Proof.
  intros Ho Hx Hv Hr. assert (Hinv : ∀ n, rtc (edge d) v n → n ≠ c ∧ (n ∈ ns ∨ (ordv d c < ordv d n)%nat)).
  { apply rtc_ind_r; [split; [by destruct (Hx v v Hv)|by left]|].
    intros u n _ E [Hu [Hin|Hlt]]; [by apply (proj2 (Hx u n Hin))|].
    pose proof (Ho u n E). split; [intros ->; lia|right; lia]. }
  by apply (Hinv c).
Qed.

Lemma search_children_spec d c children ns : wf d → ordered d →
  (∀ w, w ∈ children → live d w) → live d c → explored d c ns →
  ∃ found ns',
    search_children c (ordv d c) children (searched d ∅ [] ns) = (Ok found, searched d ∅ [] ns') ∧
    if found then ∃ w, w ∈ children ∧ w ≠ c ∧ rtc (edge d) w c
    else explored d c ns' ∧ (∀ w, w ∈ ns → w ∈ ns') ∧ ∀ w, w ∈ children → w ≠ c → w ∈ ns'.
Proof.
  intros Hw Ho. revert ns. induction children as [|w children IH]; intros ns Hl Hlc Hx; cbn [search_children].
  { exists false, ns. split; [done|]. split; [done|]. split; [done|]. by intros w Hin%not_elem_of_nil. }
  assert (Hl' : ∀ u, u ∈ children → live d u) by (intros u Hu; apply Hl; by right).
  case_bool_decide as Ewc.
  { destruct (IH ns Hl' Hlc Hx) as (found & ns' & E & Hf). exists found, ns'. split; [done|].
    destruct found; [destruct Hf as (u & ? & ? & ?); exists u; set_solver|].
    destruct Hf as (? & ? & Hc). split; [done|split; [done|]]. intros u [->|Hu]%elem_of_cons ?; [done|by apply Hc]. }
  unfold mbind at 1, SE_bind at 1, get. case_bool_decide as Hvis.
  { assert (Hns : w ∈ ns) by (cbn in Hvis; set_solver).
    destruct (IH ns Hl' Hlc Hx) as (found & ns' & E & Hf). exists found, ns'. split; [done|].
    destruct found; [destruct Hf as (u & ? & ? & ?); exists u; set_solver|].
    destruct Hf as (? & Hk & Hc). split; [done|split; [done|]]. intros u [->|Hu]%elem_of_cons ?; [by apply Hk|by apply Hc]. }
  assert (Hns : ¬ w ∈ ns) by (cbn in Hvis; set_solver).
  destruct (dfsSearch_spec forward d w c (ordv d c) (∅ ∪ list_to_set ns) ([] ++ ns)) as (found & ms & E & Hin & Hres);
    [done|apply Hl; by left|done|set_solver| |].
  { intros Hc%elem_of_union. destruct Hc as [|Hc%elem_of_list_to_set]; [set_solver|].
    by destruct (Hx c c Hc) as [? _]. }
  unfold mbind at 1, SE_bind at 1, searched at 1. rewrite E, <- searched_app.
  destruct Hres as (_ & _ & Hres). destruct found.
  { exists true, (ns ++ ms). split; [done|]. exists w. split; [by left|]. split; [done|].
    by apply tc_rtc. }
  assert (Hx' : explored d c (ns ++ ms)).
  { intros v n [Hv|Hv]%elem_of_app.
    - destruct (Hx v n Hv) as [Hne Hcl]. split; [done|]. intros E'. destruct (Hcl E') as [? Hn].
      split; [done|]. rewrite elem_of_app. tauto.
    - split; [by apply Hres|]. intros E'. destruct (di_closed _ _ _ _ _ _ _ _ Hres v n Hv) as [Hne Hn];
        [by intros ?%not_elem_of_nil|exact E'|]. split; [done|]. rewrite elem_of_app.
      rewrite elem_of_union, elem_of_list_to_set, (within_forward d) in Hn.
      destruct (edge_live d v n Hw E') as [_ Hln]. pose proof (ord_differ d Hw n c Hln Hlc Hne).
      destruct Hn as [[Hn|Hn]|[Hn|Hn]]; [set_solver|tauto|tauto|right; lia]. }
  destruct (IH (ns ++ ms) Hl' Hlc Hx') as (found & ns' & E' & Hf). exists found, ns'. split; [exact E'|].
  destruct found; [destruct Hf as (u & ? & ? & ?); exists u; set_solver|].
  destruct Hf as (? & Hk & Hc). split; [done|]. split; [intros u Hu; apply Hk, elem_of_app; by left|].
  intros u [->|Hu]%elem_of_cons ?; [|by apply Hc]. apply Hk, elem_of_app. by right.
Qed.

Lemma contractionProducesCycle_lemma d p c : inv d → live d p → live d c →
  ∃ found, contractionProducesCycle p c d = (Ok found, d) ∧ (found = true ↔ other_path d p c).
Proof.
  intros [Hw Ho] [xp Ep] Hlc. pose proof Hlc as [xc Ec]. unfold contractionProducesCycle, lift, lookup_vertex.
  unfold mbind at 1 2, SE_bind at 1 2. rewrite Ec, Ep. cbn.
  assert (Hl : ∀ w, w ∈ out_edges xp → live d w).
  { intros w Hin. by apply (edge_live d p w Hw ltac:(by exists xp)). }
  destruct (search_children_spec d c (out_edges xp) [] Hw Ho Hl Hlc) as (found & ns & E & Hf).
  { by intros v n Hv%not_elem_of_nil. }
  assert (Eo : ordv d c = ord xc) by (unfold ordv; by rewrite Ec). rewrite Eo in E.
  unfold searched at 1 in E. cbn in E. rewrite union_empty_l_L, (with_no_visited d Hw) in E. rewrite E.
  exists found. unfold searched. split.
  - f_equal. rewrite app_nil_l, unvisit_searched; [by apply with_no_visited|]. intros v _. set_solver.
  - destruct found; split; try done.
    + intros _. destruct Hf as (w & Hin & Hne & Hr). exists w. split; [by exists xp|done].
    + intros (w & (x & Ex & Hin) & Hne & Hr). simplify_eq. destruct Hf as (Hx & _ & Hc).
      exfalso. by apply (explored_unreachable d c ns w Ho Hx); [apply Hc|].
Qed.

(** ** Adding edges that all touch one vertex *)
Lemma add_edge_within d a b k (G : relation ptr) :
  inv d → (∀ u v, edge d u v → G u v) → live d a → live d b → a ≠ b → G a b → a = k ∨ b = k → ¬ tc G k k →
  ∃ d', addEdge a b d = (Ok tt, d') ∧ inv d' ∧ same_data d d' ∧
        ∀ u v, edge d' u v ↔ edge d u v ∨ (u = a ∧ v = b).
Proof.
  intros Hi HG Ha Hb Hne Hab Hk Hc.
  destruct (addEdge_lemma d a b Hi Ha Hb Hne) as [[He ->]|[(_ & Hr & _)|(_ & d' & -> & Hi' & Hs)]].
  - exists d. split; [done|]. split; [done|]. split; [done|]. naive_solver.
  - exfalso. apply Hc. apply (rtc_subrel _ G) in Hr; [|done].
    destruct Hk as [->| ->]; [by eapply tc_rtc_r; [apply tc_once|]|by eapply tc_rtc_l; [|apply tc_once]].
  - exists d'. split; [done|]. split; [done|]. split.
    + etrans; [by apply with_edge_data|by apply same_graph_data].
    + intros u v. rewrite <- Hs. by apply with_edge_edge.
Qed.

Lemma add_edges_within k (G : relation ptr) (es : list (ptr * ptr)) d :
  inv d → (∀ u v, edge d u v → G u v) → ¬ tc G k k →
  (∀ e, e ∈ es → live d e.1 ∧ live d e.2 ∧ e.1 ≠ e.2 ∧ G e.1 e.2 ∧ (e.1 = k ∨ e.2 = k)) →
  ∃ d', foreach es (λ e, addEdge e.1 e.2) d = (Ok tt, d') ∧ inv d' ∧ same_data d d' ∧
        ∀ u v, edge d' u v ↔ edge d u v ∨ (u, v) ∈ es.
Proof.
  intros Hi HG Hc. revert d Hi HG. induction es as [|[a b] es IH]; intros d Hi HG He; cbn [foreach].
  { exists d. split; [done|]. split; [done|]. split; [done|]. intros u v. rewrite elem_of_nil. tauto. }
  destruct (He (a, b) ltac:(by left)) as (Ha & Hb & Hne & Hab & Hk). cbn in *.
  destruct (add_edge_within d a b k G Hi HG Ha Hb Hne Hab Hk Hc) as (d1 & E1 & Hi1 & Hs1 & He1).
  rewrite (run_bind _ _ _ _ _ E1).
  destruct (IH d1 Hi1) as (d2 & E2 & Hi2 & Hs2 & He2).
  - intros u v [E|[-> ->]]%He1; [by apply HG|done].
  - intros e Hin. rewrite !(same_data_live d d1) by done. apply He. by right.
  - exists d2. split; [done|]. split; [done|]. split; [by etrans|].
    intros u v. rewrite He2, He1, elem_of_cons. naive_solver.
Qed.

Lemma foreach_fmap {S A B} (f : A → B) (l : list A) (body : B → SE S unit) s :
  foreach (f <$> l) body s = foreach l (λ m, body (f m)) s.
Proof.
  revert s. induction l as [|m l IH]; intros s; [done|]. cbn. unfold mbind, SE_bind.
  destruct (body (f m) s) as [[[]|e] s']; [apply IH|done].
Qed.

Lemma foreach_app {S A} (l1 l2 : list A) (body : A → SE S unit) s :
  foreach (l1 ++ l2) body s = (foreach l1 body;; foreach l2 body) s.
Proof.
  revert s. induction l1 as [|m l IH]; intros s; [done|]. cbn. unfold mbind, SE_bind.
  destruct (body m s) as [[[]|e] s']; [apply IH|done].
Qed.

Lemma run_bind_ext {S A B} (m m' : SE S A) (f f' : A → SE S B) s :
  m s = m' s → (∀ r s', f r s' = f' r s') → (m ≫= f) s = (m' ≫= f') s.
Proof. intros E Ef. unfold mbind, SE_bind. rewrite E. by destruct (m' s) as [[]]. Qed.

Lemma foreach_pairs {S A B} (f g : A → B) (l1 l2 : list A) (body : B → SE S unit) s :
  (foreach l1 (λ m, body (f m));; foreach l2 (λ m, body (g m))) s = foreach ((f <$> l1) ++ (g <$> l2)) body s.
Proof.
  rewrite foreach_app. apply run_bind_ext; intros; symmetry; apply foreach_fmap.
Qed.

(** ** The contracted graph *)

(** [g] is merged into [k]. *)
Definition merge k g v : ptr := if decide (v = g) then k else v.
Definition contracted d p c k g : relation ptr := λ a b,
  ∃ a' b', edge d a' b' ∧ ¬ (a' = p ∧ b' = c) ∧ a = merge k g a' ∧ b = merge k g b'.

Section Contracted.
Context (d : DAG T) (p c k g : ptr).
Hypothesis Ho : ordered d.
Hypothesis Hpc : edge d p c.
Hypothesis Hno : ¬ other_path d p c.
Hypothesis Hkg : (k = p ∧ g = c) ∨ (k = c ∧ g = p).

Lemma merge_other v : v ≠ p → v ≠ c → merge k g v = v.
Proof. intros Hp Hc. unfold merge. case_decide; [|done]. naive_solver. Qed.

Lemma merge_end v : v = p ∨ v = c → merge k g v = k.
Proof. intros Hv. unfold merge. case_decide; [done|]. naive_solver. Qed.

Lemma merge_cases v : (v = p ∨ v = c) ∧ merge k g v = k ∨ (v ≠ p ∧ v ≠ c) ∧ merge k g v = v.
Proof.
  destruct (decide (v = p)) as [->|Hp]; [left; by rewrite merge_end by tauto; auto|].
  destruct (decide (v = c)) as [->|Hc]; [left; by rewrite merge_end by tauto; auto|].
  right. by rewrite merge_other.
Qed.

Lemma ends_differ : (ordv d p < ordv d c)%nat.
Proof. by apply Ho. Qed.

Lemma first_arrival b : rtc (contracted d p c k g) b k →
  b = k ∨ (b ≠ p ∧ b ≠ c ∧ ∃ a, rtc (edge d) b a ∧ (edge d a p ∨ edge d a c)).
Proof.
  revert b. apply rtc_ind_l; [by left|]. intros x y (x' & y' & E & _ & -> & ->) _ IH.
  destruct (merge_cases x') as [[_ ->]|[[Hxp Hxc] ->]]; [by left|right].
  split; [done|]. split; [done|].
  destruct (merge_cases y') as [[Hy _]|[[Hyp Hyc] Ey]].
  - exists x'. split; [done|]. destruct Hy as [<-|<-]; [by left|by right].
  - rewrite Ey in IH. destruct IH as [->|(_ & _ & a & Hr & Ha)]; [naive_solver|].
    exists a. split; [by eapply rtc_l|done].
Qed.

Lemma contracted_acyclic : ¬ tc (contracted d p c k g) k k.
Proof.
  pose proof ends_differ as Hlt. intros Hc.
  assert (H : ∃ b, contracted d p c k g k b ∧ rtc (contracted d p c k g) b k).
  { inversion Hc as [? ? E|? y ? E Hr]; subst; [by exists k|]. exists y. split; [done|by apply tc_rtc]. }
  destruct H as (b & (k' & b' & E & Hne & Ek & Eb) & Hr).
  assert (Hk' : k' = p ∨ k' = c).
  { destruct (merge_cases k') as [[? _]|[[Hp Hq] Em]]; [done|]. rewrite Em in Ek. naive_solver. }
  destruct (merge_cases b') as [[Hb' _]|[[Hbp Hbc] Em]].
  { assert (ordv d k' < ordv d b')%nat by (by apply Ho).
    destruct Hk' as [->| ->], Hb' as [->| ->]; lia. }
  rewrite Em in Eb. subst b'. destruct (first_arrival b Hr) as [->|(_ & _ & a & Hba & Ha)]; [naive_solver|].
  pose proof (ordered_rtc d b a Ho Hba). pose proof (Ho _ _ E).
  destruct Ha as [Ha|Ha]; pose proof (Ho _ _ Ha); destruct Hk' as [->| ->]; try lia.
  apply Hno. exists b. split; [done|]. split; [done|]. by eapply rtc_r.
Qed.

Lemma contracted_self a b : contracted d p c k g a b → a ≠ g ∧ b ≠ g.
Proof.
  assert (Hne : k ≠ g) by (pose proof ends_differ; intros E; destruct Hkg as [[-> ->]|[-> ->]]; subst; lia).
  intros (a' & b' & _ & _ & -> & ->). unfold merge. split; case_decide; done.
Qed.

(** The edges of the removed end, entered again at the other end. *)
Lemma merge_edges d2 (es : list (ptr * ptr)) :
  inv d2 → live d2 k → live d2 g → (∀ a b, edge d2 a b ↔ edge d a b ∧ ¬ (a = p ∧ b = c)) →
  (∀ a b, (a, b) ∈ es ↔ (b = k ∧ edge d2 a g) ∨ (a = k ∧ edge d2 g b)) →
  ∃ d', foreach es (λ e, addEdge e.1 e.2) (without_vertex g d2) = (Ok tt, d') ∧ inv d' ∧
        same_data (without_vertex g d2) d' ∧ ∀ a b, edge d' a b ↔ contracted d p c k g a b.
Proof.
  intros Hi Hlk Hlg He2 Hes. pose proof ends_differ as Hlt.
  assert (Hkne : k ≠ g) by (intros E; destruct Hkg as [[-> ->]|[-> ->]]; subst; lia).
  assert (Hm : ∀ v, v ≠ g → merge k g v = v) by (intros v Hv; unfold merge; by rewrite decide_False).
  assert (Hmg : merge k g g = k) by (unfold merge; by rewrite decide_True).
  assert (Hself : ∀ a b, edge d2 a b → a ≠ b).
  { intros a b E ->. pose proof (proj2 Hi b b E). lia. }
  assert (Hjoin : ¬ edge d2 k g ∧ ¬ edge d2 g k).
  { split; intros [E Hn]%He2; pose proof (Ho _ _ E); destruct Hkg as [[-> ->]|[-> ->]]; try lia; by apply Hn. }
  destruct Hjoin as [Hj1 Hj2].
  assert (Hlive : ∀ v, v ≠ g → live d2 v → live (without_vertex g d2) v).
  { intros v Hv [x Ex]. unfold live. rewrite without_vertex_lookup by done. rewrite prune_lookup, Ex. by eexists. }
  destruct (add_edges_within k (contracted d p c k g) es (without_vertex g d2)) as (d' & E' & Hi' & Hs' & He').
  - by apply without_vertex_inv.
  - intros a b (E & Ha & Hb)%without_vertex_edge. apply He2 in E as [E Hn].
    exists a, b. rewrite !Hm by done. done.
  - by apply contracted_acyclic.
  - intros [a b] Hin. cbn. apply Hes in Hin as [[-> E]|[-> E]]; pose proof (edge_live d2 _ _ (proj1 Hi) E) as [Hl1 Hl2];
      pose proof (Hself _ _ E) as Hne; pose proof E as [E' Hn]%He2.
    + assert (a ≠ k) by (intros ->; done).
      split; [by apply Hlive|]. split; [by apply Hlive|]. split; [done|]. split; [|by right].
      exists a, g. rewrite Hmg, Hm by done. done.
    + assert (b ≠ k) by (intros ->; done).
      split; [by apply Hlive|]. split; [apply Hlive; [|done]; intros ->; done|]. split; [by intros ->|]. split; [|by left].
      exists g, b. rewrite Hmg, Hm by (by intros ->). done.
  - exists d'. split; [done|]. split; [done|]. split; [done|]. intros a b. rewrite He', without_vertex_edge, Hes.
    split.
    + intros [(E & Ha & Hb)|[[-> E]|[-> E]]]; pose proof (Hself _ _ E) as Hne; apply He2 in E as [E Hn].
      * exists a, b. by rewrite !Hm.
      * exists a, g. by rewrite Hmg, Hm.
      * exists g, b. rewrite Hmg, Hm by (by intros ->). done.
    + intros (a' & b' & E & Hn & -> & ->). assert (E2 : edge d2 a' b') by (by apply He2).
      pose proof (Hself _ _ E2) as Hne.
      destruct (decide (a' = g)) as [->|Ha]; [|destruct (decide (b' = g)) as [->|Hb]].
      * rewrite Hmg, (Hm b') by (by intros ->). auto.
      * rewrite Hmg, (Hm a') by done. auto.
      * rewrite !Hm by done. auto.
Qed.
End Contracted.

(** ** Merging the data *)
Definition with_data v (l : list T) d : DAG T := with_heap (alter (set_data l) v (heap d)) d.

Lemma with_data_lookup v l d w : heap (with_data v l d) !! w =
  (λ x, mkVertex (if decide (w = v) then l else data x) (ord x) (in_edges x) (out_edges x)) <$> heap d !! w.
Proof.
  unfold with_data. cbn [heap with_heap]. destruct (decide (w = v)) as [->|Hne].
  - by rewrite lookup_alter_eq.
  - rewrite lookup_alter_ne by done. by destruct (heap d !! w) as [[]|].
Qed.

Lemma with_data_datav v l d w : live d v → datav (with_data v l d) w = if decide (w = v) then Some l else datav d w.
Proof.
  intros [x Ex]. unfold datav. rewrite with_data_lookup. case_decide; [subst; by rewrite Ex|].
  by destruct (heap d !! w).
Qed.

Lemma with_data_live v l d w : live (with_data v l d) w ↔ live d w.
Proof. unfold live. by rewrite with_data_lookup, fmap_is_Some. Qed.

Lemma with_data_edge v l d a b : edge (with_data v l d) a b ↔ edge d a b.
Proof.
  unfold edge. rewrite with_data_lookup. split.
  - intros (x & (y & -> & ->)%fmap_Some & Hb). by exists y.
  - intros (x & -> & Hb). by eexists.
Qed.

Lemma with_data_inv v l d : inv d → inv (with_data v l d).
Proof.
  intros [Hw Ho]. split; [split|].
  - intros w y. rewrite with_data_lookup. intros (x & Ex & ->)%fmap_Some. cbn. by apply (wf_owner d Hw).
  - intros o w E. destruct (wf_owned d Hw _ _ E) as (x & Ex & Eo). rewrite with_data_lookup, Ex. by eexists.
  - intros a b y. rewrite with_data_lookup. intros (x & Ex & ->)%fmap_Some Hb.
    destruct (wf_out d Hw _ _ _ Ex Hb) as (z & Ez & Ha). rewrite with_data_lookup, Ez. by eexists.
  - intros a b y. rewrite with_data_lookup. intros (x & Ex & ->)%fmap_Some Hb.
    destruct (wf_in d Hw _ _ _ Ex Hb) as (z & Ez & Ha). rewrite with_data_lookup, Ez. by eexists.
  - intros w y. rewrite with_data_lookup. intros (x & Ex & ->)%fmap_Some. cbn. by apply (wf_nodup d Hw w).
  - intros w Hle. by rewrite with_data_lookup, (wf_fresh d Hw w Hle).
  - apply Hw.
  - intros a b E. apply with_data_edge in E. unfold ordv. rewrite !with_data_lookup.
    pose proof (Ho a b E) as Hlt. unfold ordv in Hlt. destruct (heap d !! a), (heap d !! b); exact Hlt.
Qed.

Lemma update_data d v l x : heap d !! v = Some x → update v (set_data l) d = (Ok tt, with_data v l d).
Proof. intros Ex. by apply (update_spec _ _ _ x). Qed.

(** ** [contractEdge] *)

(** The graph [d'] is [d] with the edge from [p] to [c] contracted into the vertex
    [k], the other end [g] removed. *)
Record contraction d p c k g d' : Prop := {
  ct_inv : inv d';
  ct_merged : ∃ lp lc, datav d p = Some lp ∧ datav d c = Some lc ∧ datav d' k = Some (lp ++ lc);
  ct_gone : heap d' !! g = None;
  ct_others v : v ≠ p → v ≠ c → datav d' v = datav d v;
  ct_edges a b : edge d' a b ↔ contracted d p c k g a b
}.

Lemma edge_ne d a b : inv d → edge d a b → a ≠ b.
Proof. intros [_ Ho] E ->. pose proof (Ho b b E). lia. Qed.

Section Merging.
Context (d : DAG T) (p c : ptr) (xp xc : Vertex T).
Hypothesis Hi : inv d.
Hypothesis Hpc : edge d p c.
Hypothesis Hno : ¬ other_path d p c.
Hypothesis Ep : heap d !! p = Some xp.
Hypothesis Ec : heap d !! c = Some xc.
Let d1 := without_edge p c d.

Lemma merging_ne : p ≠ c.
Proof. by apply (edge_ne d). Qed.

Lemma d1_inv : inv d1.
Proof. by apply prune_inv. Qed.

Lemma d1_lookup v x : heap d !! v = Some x → ∃ y, heap d1 !! v = Some y ∧ data y = data x.
Proof. intros Ex. unfold d1, without_edge. rewrite prune_lookup, Ex. by eexists. Qed.

Lemma edges_elem d2 g k x (es : list (ptr * ptr)) : wf d2 → heap d2 !! g = Some x →
  (∀ e, e ∈ es ↔ e ∈ ((λ a, (a, k)) <$> in_edges x) ∨ e ∈ ((λ b, (k, b)) <$> out_edges x)) →
  ∀ a b, (a, b) ∈ es ↔ (b = k ∧ edge d2 a g) ∨ (a = k ∧ edge d2 g b).
Proof.
  intros Hw Ex Hes a b. rewrite Hes, !list_elem_of_fmap.
  assert (H1 : edge d2 a g ↔ a ∈ in_edges x).
  { split; [intros (y & Ey & Hy); destruct (wf_out d2 Hw _ _ _ Ey Hy) as (? & ? & ?); by simplify_eq|].
    by apply (wf_in d2 Hw). }
  assert (H2 : edge d2 g b ↔ b ∈ out_edges x) by (split; [intros (y & Ey & Hy); by simplify_eq|by exists x]).
  rewrite H1, H2. naive_solver.
Qed.

(** The end of both merges: [d2] holds the merged data at the end that stays. *)
Lemma merging_end d2 k g (es : list (ptr * ptr)) xk xg :
  (k = p ∧ g = c) ∨ (k = c ∧ g = p) → inv d2 →
  heap d2 !! k = Some xk → heap d2 !! g = Some xg → data xk = data xp ++ data xc →
  (∀ v, v ≠ p → v ≠ c → datav d2 v = datav d v) → (∀ a b, edge d2 a b ↔ edge d1 a b) →
  (∀ e, e ∈ es ↔ e ∈ ((λ a, (a, k)) <$> in_edges xg) ∨ e ∈ ((λ b, (k, b)) <$> out_edges xg)) →
  ∃ d', foreach es (λ e, addEdge e.1 e.2) (without_vertex g d2) = (Ok tt, d') ∧ contraction d p c k g d'.
Proof.
  intros Hkg Hi2 Ek Eg Dk Hd He Hes. pose proof merging_ne as Hne.
  assert (Hkne : k ≠ g) by (intros E; destruct Hkg as [[-> ->]|[-> ->]]; by subst).
  destruct (merge_edges d p c k g (proj2 Hi) Hpc Hno Hkg d2 es Hi2) as (d' & E' & Hi' & [_ Hs'] & He').
  - by exists xk.
  - by exists xg.
  - intros a b. rewrite He. apply without_edge_edge.
  - intros a b. by apply (edges_elem d2 g k xg es (proj1 Hi2)).
  - exists d'. split; [done|]. split; [done| | | |done].
    + exists (data xp), (data xc). unfold datav at 1 2. rewrite Ep, Ec. split; [done|split; [done|]].
      rewrite Hs', without_vertex_data by done. unfold datav. by rewrite Ek, <- Dk.
    + specialize (Hs' g). unfold datav in Hs'. rewrite without_vertex_gone in Hs'.
      by destruct (heap d' !! g).
    + intros v Hvp Hvc. rewrite Hs', without_vertex_data; [by apply Hd|]. naive_solver.
Qed.

Lemma d1_data v : datav d1 v = datav d v.
Proof. apply prune_data. Qed.

Lemma mergeConsumerIntoProducer_lemma :
  ∃ d', mergeConsumerIntoProducer p c d1 = (Ok tt, d') ∧ contraction d p c p c d'.
Proof.
  pose proof merging_ne as Hne. destruct (d1_lookup p xp Ep) as (yp & Eyp & Dp), (d1_lookup c xc Ec) as (yc & Eyc & Dc).
  unfold mergeConsumerIntoProducer. rewrite (run_bind _ _ _ _ _ (deref_spec _ _ _ Eyp)).
  rewrite (run_bind _ _ _ _ _ (deref_spec _ _ _ Eyc)), (run_bind _ _ _ _ _ (update_data _ _ _ _ Eyp)).
  set (d2 := with_data p _ d1). assert (Hi2 : inv d2) by apply with_data_inv, d1_inv.
  assert (E2 : heap d2 !! c = Some yc).
  { unfold d2. rewrite with_data_lookup, Eyc. cbn. rewrite decide_False by done. by destruct yc. }
  rewrite (run_bind _ _ _ _ _ (removeVertex_lemma _ _ _ Hi2 E2)). cbn [fst snd].
  destruct (merging_end d2 p c (((λ b, (p, b)) <$> out_edges yc) ++ ((λ a, (a, p)) <$> in_edges yc))
    (mkVertex (data xp ++ data xc) (ord yp) (in_edges yp) (out_edges yp)) yc) as (d' & E' & Hc); try done; [by left| | | | |].
  - unfold d2. rewrite with_data_lookup, Eyp. cbn. by rewrite decide_True, Dp, Dc.
  - intros v Hvp _. unfold d2. rewrite with_data_datav, decide_False by (done || by exists yp). apply d1_data.
  - intros a b. apply with_data_edge.
  - intros e. rewrite elem_of_app. tauto.
  - exists d'. split; [|done]. rewrite <- E'.
    exact (foreach_pairs (λ b, (p, b)) (λ a, (a, p)) _ _ (λ e, addEdge e.1 e.2) _).
Qed.

Lemma mergeProducerIntoConsumer_lemma :
  ∃ d', mergeProducerIntoConsumer p c d1 = (Ok tt, d') ∧ contraction d p c c p d'.
Proof.
  pose proof merging_ne as Hne. destruct (d1_lookup p xp Ep) as (yp & Eyp & Dp), (d1_lookup c xc Ec) as (yc & Eyc & Dc).
  unfold mergeProducerIntoConsumer. rewrite (run_bind _ _ _ _ _ (deref_spec _ _ _ Eyp)).
  rewrite (run_bind _ _ _ _ _ (deref_spec _ _ _ Eyc)), (run_bind _ _ _ _ _ (update_data _ _ _ _ Eyp)).
  set (da := with_data p _ d1).
  assert (Eap : heap da !! p = Some (mkVertex (data yp ++ data yc) (ord yp) (in_edges yp) (out_edges yp))).
  { unfold da. rewrite with_data_lookup, Eyp. cbn. by rewrite decide_True. }
  assert (Eac : heap da !! c = Some yc).
  { unfold da. rewrite with_data_lookup, Eyc. cbn. rewrite decide_False by done. by destruct yc. }
  rewrite (run_bind _ _ _ _ _ (deref_spec _ _ _ Eap)), (run_bind _ _ _ _ _ (deref_spec _ _ _ Eac)).
  rewrite (run_bind _ _ _ _ _ (update_data _ _ _ _ Eac)). cbn [data]. set (db := with_data c _ da).
  assert (Ebp : heap db !! p = Some (mkVertex (data yp ++ data yc) (ord yp) (in_edges yp) (out_edges yp))).
  { unfold db. rewrite with_data_lookup, Eap. cbn. by rewrite decide_False. }
  rewrite (run_bind _ _ _ _ _ (update_data _ _ _ _ Ebp)). set (d2 := with_data p _ db).
  assert (Hi2 : inv d2) by apply with_data_inv, with_data_inv, with_data_inv, d1_inv.
  assert (E2 : heap d2 !! p = Some (mkVertex (data yc) (ord yp) (in_edges yp) (out_edges yp))).
  { unfold d2. rewrite with_data_lookup, Ebp. cbn. by rewrite decide_True. }
  rewrite (run_bind _ _ _ _ _ (removeVertex_lemma _ _ _ Hi2 E2)). cbn [fst snd in_edges out_edges].
  edestruct (merging_end d2 c p (((λ a, (a, c)) <$> in_edges yp) ++ ((λ b, (c, b)) <$> out_edges yp))
    (mkVertex (data xp ++ data xc) (ord yc) (in_edges yc) (out_edges yc))) as (d' & E' & Hc);
    [by right|done| |exact E2|done| | | |].
  - unfold d2, db. rewrite !with_data_lookup, Eac. cbn. by rewrite decide_False, decide_True, Dp, Dc.
  - intros v Hvp Hvc. unfold d2, db, da.
    rewrite !with_data_datav, !decide_False by (done || by (rewrite ?with_data_live; eexists)). apply d1_data.
  - intros a b. unfold d2, db, da. by rewrite !with_data_edge.
  - intros e. rewrite elem_of_app. done.
  - exists d'. split; [|done]. rewrite <- E'.
    exact (foreach_pairs (λ a, (a, c)) (λ b, (c, b)) _ _ (λ e, addEdge e.1 e.2) _).
Qed.
(** How many edges enter and leave, the contracted edge apart. *)
Lemma erase_first_length (s : list ptr) v : v ∈ s → S (length (erase_first s v)) = length s.
Proof.
  induction s as [|u s IH]; cbn; [by intros ?%not_elem_of_nil|]. case_bool_decide as E; [done|].
  intros [->|Hv]%elem_of_cons; [done|]. cbn. by rewrite IH.
Qed.

Lemma d1_degrees yp yc : heap d1 !! p = Some yp → heap d1 !! c = Some yc →
  S (length (out_edges yp)) = length (out_edges xp) ∧ S (length (in_edges yc)) = length (in_edges xc).
Proof.
  destruct Hi as [Hw _]. unfold d1, without_edge. rewrite !prune_lookup, Ep, Ec. intros [= <-] [= <-]. cbn.
  destruct Hpc as (x & Ex & Hin). assert (x = xp) as -> by congruence.
  destruct (wf_out d Hw _ _ _ Ep Hin) as (y & Ey & Hin'). assert (y = xc) as -> by congruence.
  destruct (wf_nodup d Hw _ _ Ep) as [Hn1 _], (wf_nodup d Hw _ _ Ec) as [_ Hn2].
  rewrite <- (erase_first_length _ c Hin), <- (erase_first_length _ p Hin').
  rewrite (erase_first_filter (out_edges xp) c (λ b, negb (bool_decide (p = p ∧ b = c)))) by
    (try done; intros w _; rewrite negb_true_iff, bool_decide_eq_false; naive_solver).
  rewrite (erase_first_filter (in_edges xc) p (λ a, negb (bool_decide (a = p ∧ c = c)))) by
    (try done; intros w _; rewrite negb_true_iff, bool_decide_eq_false; naive_solver).
  done.
Qed.
End Merging.

(** The end of a contracted edge that stays, and the one that goes. *)
Definition survivor (xp xc : Vertex T) p c : ptr * ptr :=
  if (length (in_edges xc) <? length (out_edges xp))%nat then (p, c) else (c, p).

Lemma contractEdge_lemma d p c (xp xc : Vertex T) :
  inv d → edge d p c → heap d !! p = Some xp → heap d !! c = Some xc →
  (other_path d p c ∧ contractEdge p c d = (Ok false, d)) ∨
  (¬ other_path d p c ∧ ∃ d', contractEdge p c d = (Ok true, d') ∧
     contraction d p c (survivor xp xc p c).1 (survivor xp xc p c).2 d').
Proof.
  intros Hi Hpc Ep Ec. pose proof (edge_ne d p c Hi Hpc) as Hne. destruct (edge_live d p c (proj1 Hi) Hpc) as [Hlp Hlc].
  destruct (contractionProducesCycle_lemma d p c Hi Hlp Hlc) as (found & E & Hf).
  unfold contractEdge. rewrite run_assert by (by rewrite bool_decide_eq_false_2).
  rewrite (run_bind _ _ _ _ _ E). destruct found.
  { left. split; [by apply Hf|done]. }
  right. assert (Hno : ¬ other_path d p c) by (intros Ho; by apply Hf in Ho). split; [done|].
  rewrite (run_bind _ _ _ _ _ (removeEdge_lemma d p c Hi Hpc)).
  destruct (d1_lookup d p c p xp Ep) as (yp & Eyp & _), (d1_lookup d p c c xc Ec) as (yc & Eyc & _).
  rewrite (run_bind _ _ _ _ _ (deref_spec _ _ _ Eyp)), (run_bind _ _ _ _ _ (deref_spec _ _ _ Eyc)).
  unfold survivor. destruct (d1_degrees d p c xp xc Hi Hpc Ep Ec yp yc Eyp Eyc) as [Ho Hin].
  rewrite <- Ho, <- Hin.
  change (S (length (in_edges yc)) <? S (length (out_edges yp)))%nat
    with (length (in_edges yc) <? length (out_edges yp))%nat.
  destruct (_ <? _)%nat.
  - destruct (mergeConsumerIntoProducer_lemma d p c xp xc Hi Hpc Hno Ep Ec) as (d' & E' & Hc).
    rewrite (run_bind _ _ _ _ _ E'). by exists d'.
  - destruct (mergeProducerIntoConsumer_lemma d p c xp xc Hi Hpc Hno Ep Ec) as (d' & E' & Hc).
    rewrite (run_bind _ _ _ _ _ E'). by exists d'.
Qed.
End Contract.
