(* ===== verification/DagProperties.v ===== *)
(** * The properties of the dynamic DAG

    A program that uses [DynamicDAG] makes a sequence of calls on vertices it holds;
    this file defines those sequences and states what the calls guarantee. *)
From stdpp Require Import sorting relations.
From S2P Require Import Prelude DynamicDAG DynamicDAGSpec DagEdges DagContract.
Import DynamicDAG.
#[local] Set Warnings "-clear-no-such-hyp".

Section Calls.
Context {T : Type}.
Implicit Types (d : DAG T) (v p c : ptr).

(** ** Sequences of calls *)
Inductive call : Type :=
  | NewVertex (datum : T)
  | AddEdge (producer consumer : ptr)
  | RemoveEdge (producer consumer : ptr)
  | RemoveVertex (v : ptr)
  | ContractEdge (producer consumer : ptr).

Definition run_call (o : call) : SE (DAG T) unit :=
  match o with
  | NewVertex datum => newVertex datum;; mret tt
  | AddEdge p c => addEdge p c
  | RemoveEdge p c => removeEdge p c
  | RemoveVertex v => removeVertex v;; mret tt
  | ContractEdge p c => contractEdge p c;; mret tt
  end.

(** The pointers are to vertices that exist, and edges to remove exist. *)
Definition admissible (o : call) d : Prop :=
  match o with
  | NewVertex _ => True
  | AddEdge p c => live d p ∧ live d c ∧ p ≠ c
  | RemoveEdge p c | ContractEdge p c => edge d p c
  | RemoveVertex v => live d v
  end.

(** The states a program reaches by calls that return. *)
Inductive reachable : DAG T → Prop :=
  | reachable_empty : reachable empty_dag
  | reachable_call d o d' : reachable d → admissible o d → run_call o d = (Ok tt, d') → reachable d'.

Lemma inv_empty : inv (empty_dag : DAG T).
Proof.
  split; [by split|]. by intros a b (x & Ex & _).
Qed.

(** Every admissible call keeps the invariant, and only [addEdge] can throw. *)
Lemma call_inv o d : inv d → admissible o d →
  (∃ d', run_call o d = (Ok tt, d') ∧ inv d') ∨
  (∃ p c, o = AddEdge p c ∧ rtc (edge d) c p ∧ ¬ edge d p c ∧
     run_call o d = (Throw (C10Error "Cycle detected while trying to add edge."), with_edge p c d)).
Proof.
  intros Hi Ha. destruct o as [datum|p c|p c|v|p c]; cbn [run_call admissible] in *.
  - left. exists (fresh_vertex datum d). split; [done|by apply fresh_inv].
  - destruct Ha as (Hp & Hc & Hne).
    destruct (addEdge_lemma d p c Hi Hp Hc Hne) as [[_ E]|[(He & Hr & E)|(_ & d' & E & Hi' & _)]].
    + left. by exists d.
    + right. by exists p, c.
    + left. by exists d'.
  - left. eexists. split; [by apply removeEdge_lemma|by apply prune_inv].
  - left. destruct Ha as [x Ex]. rewrite (run_bind _ _ _ _ _ (removeVertex_lemma d v x Hi Ex)).
    eexists. split; [done|]. apply without_vertex_inv; [done|by exists x].
  - left. destruct (edge_live d p c (proj1 Hi) Ha) as [[xp Ep] [xc Ec]].
    destruct (contractEdge_lemma d p c xp xc Hi Ha Ep Ec) as [[_ E]|(_ & d' & E & Hc)].
    + rewrite (run_bind _ _ _ _ _ E). by exists d.
    + rewrite (run_bind _ _ _ _ _ E). exists d'. split; [done|apply Hc].
Qed.

Lemma reachable_inv d : reachable d → inv d.
Proof.
  induction 1 as [|d o d' _ IH Ha E]; [apply inv_empty|].
  destruct (call_inv o d IH Ha) as [(d1 & E1 & Hi)|(p & c & _ & _ & _ & E1)]; rewrite E1 in E; by simplify_eq.
Qed.

(** ** The properties *)

(** C1: [addEdge] on a graph that satisfies the invariant.  When it returns, exactly the
    edge asked for has been added, no vertex or datum has changed, the indices are again
    a topological order (and the producer was out of reach of the consumer); when it
    throws, it is because the consumer reaches the producer, and then the edge has
    been left in the graph. *)
Theorem addEdge_correct d p c :
  inv d → live d p → live d c → p ≠ c →
  match addEdge p c d with
  | (Ok _, d') =>
      inv d' ∧ same_data d d' ∧ (∀ a b, edge d' a b ↔ edge d a b ∨ (a = p ∧ b = c)) ∧ ¬ rtc (edge d) c p
  | (Throw e, d') =>
      e = C10Error "Cycle detected while trying to add edge." ∧ rtc (edge d) c p ∧ d' = with_edge p c d
  end.
Proof.
  intros Hi Hp Hc Hne.
  destruct (addEdge_lemma d p c Hi Hp Hc Hne) as [[He ->]|[(_ & Hr & ->)|(Hr & d' & -> & Hi' & Hs)]].
  - split; [done|]. split; [done|]. split; [naive_solver|].
    intros Hr%(ordered_rtc d c p (proj2 Hi)). pose proof (proj2 Hi p c He). lia.
  - done.
  - split; [done|]. split; [etrans; [by apply with_edge_data|by apply same_graph_data]|].
    split; [|done]. intros a b. rewrite <- Hs. by apply with_edge_edge.
Qed.

(** a graph [addEdge] has thrown on is broken: its self-check fails, whatever the
    indices, since the edge that closes the cycle is still there. *)
Theorem addEdge_cycle_not_undone d p c :
  inv d → live d p → live d c → p ≠ c → ¬ edge d p c → rtc (edge d) c p →
  let d' := (addEdge p c d).2 in
  returns (addEdge p c d).1 = false ∧ edge d' p c ∧ tc (edge d') p p ∧ returns (debugCheckInvariants d').1 = false.
Proof.
  intros Hi Hp Hc Hne He Hr. cbn zeta.
  destruct (addEdge_lemma d p c Hi Hp Hc Hne) as [[? _]|[(_ & _ & ->)|(? & _)]]; [done| |done].
  assert (Hpc : edge (with_edge p c d) p c) by (apply with_edge_edge; auto).
  assert (Hcyc : tc (edge (with_edge p c d)) p p).
  { eapply tc_rtc_r; [by apply tc_once|]. by apply with_edge_rtc. }
  split; [done|]. split; [done|]. split; [done|].
  destruct (debugCheckInvariants_lemma (with_edge p c d)) as [H1 H2]; [by apply with_edge_wf; [|apply Hi|..]|].
  cbn [snd]. destruct (debugCheckInvariants (with_edge p c d)) as [[[]|e] s] eqn:E; [|done].
  cbn in H1. subst s. exfalso. by apply (ordered_acyclic (with_edge p c d) p); [apply H2|].
Qed.

(** C2: [contractEdge] refuses exactly when another path joins the two ends, and then
    changes nothing.  Otherwise one end is gone (the consumer when the producer has more edges
    out than the consumer has in, else the producer), the other one holds the data of
    both in order, every edge of the removed end has been entered at the other, and the
    indices are a topological order. *)
Theorem contractEdge_correct d p c (xp xc : Vertex T) :
  inv d → edge d p c → heap d !! p = Some xp → heap d !! c = Some xc →
  match contractEdge p c d with
  | (Ok true, d') => ¬ other_path d p c ∧ contraction d p c (survivor xp xc p c).1 (survivor xp xc p c).2 d'
  | (Ok false, d') => other_path d p c ∧ d' = d
  | (Throw _, _) => False
  end.
Proof.
  intros Hi He Ep Ec. by destruct (contractEdge_lemma d p c xp xc Hi He Ep Ec) as [[? ->]|(? & d' & -> & ?)].
Qed.

(** C3: whatever the calls made so far, as long as none has thrown: the indices are a
    topological order of the graph (the self-check passes, and changes nothing), the graph
    is acyclic, and the next admissible call returns unless it is an [addEdge] that
    would close a cycle. *)
Theorem reachable_sound d :
  reachable d →
  debugCheckInvariants d = (Ok tt, d) ∧ (∀ v, ¬ tc (edge d) v v) ∧
  ∀ o, admissible o d → returns (run_call o d).1 = true ∨ ∃ p c, o = AddEdge p c ∧ rtc (edge d) c p.
Proof.
  intros Hi%reachable_inv. split; [by apply debugCheckInvariants_lemma; apply Hi|]. split.
  - intros v. apply ordered_acyclic, Hi.
  - intros o Ha. destruct (call_inv o d Hi Ha) as [(d' & -> & _)|(p & c & -> & Hr & _)]; [by left|right]. by exists p, c.
Qed.

(** [removeVertex] returns the edges the vertex had, and leaves the graph without the
    vertex and those edges; the other vertices keep their data and their indices. *)
Theorem removeVertex_correct d v x :
  inv d → heap d !! v = Some x →
  ∃ d', removeVertex v d = (Ok (in_edges x, out_edges x), d') ∧ inv d' ∧ ¬ live d' v ∧
    (∀ a b, edge d' a b ↔ edge d a b ∧ a ≠ v ∧ b ≠ v) ∧
    (∀ w, w ≠ v → datav d' w = datav d w ∧ ordv d' w = ordv d w).
Proof.
  intros Hi Ex. exists (without_vertex v d). split; [by apply removeVertex_lemma|].
  split; [apply without_vertex_inv; [done|by exists x]|]. split; [|split].
  - intros [y Ey]. by rewrite without_vertex_gone in Ey.
  - apply without_vertex_edge.
  - intros w Hw. split; [by apply without_vertex_data|by apply without_vertex_ordv].
Qed.
End Calls.

(** ** Instances *)

(** Two vertices, and an edge from the first to the second. *)
Definition two_vertices : DAG nat := fresh_vertex 1%nat (fresh_vertex 0%nat empty_dag).
Definition one_edge : DAG nat := with_edge 0%nat 1%nat two_vertices.

Lemma inv_two : inv two_vertices.
Proof. apply fresh_inv, fresh_inv, inv_empty. Qed.

Lemma live_two v : (v < 2)%nat → live two_vertices v.
Proof. intros Hv. unfold live. destruct v as [|[|v]]; [by eexists|by eexists|lia]. Qed.

Lemma not_edge_two a b : ¬ edge two_vertices a b.
Proof. unfold two_vertices. rewrite !fresh_edge by (try apply fresh_inv; apply inv_empty). by intros (x & Ex & _). Qed.

Lemma inv_one_edge : inv one_edge.
Proof.
  split; [apply with_edge_wf; [done|apply inv_two|by apply live_two; lia|by apply live_two; lia|apply not_edge_two]|].
  intros a b [E|[-> ->]]%with_edge_edge; [by apply not_edge_two in E|vm_compute; lia|done|by apply live_two; lia].
Qed.

Lemma edge_one : edge one_edge 0%nat 1%nat.
Proof. apply with_edge_edge; [done|by apply live_two; lia|by right]. Qed.

Lemma addEdge_correct_witness :
  match addEdge 1%nat 0%nat two_vertices with
  | (Ok _, d') =>
      inv d' ∧ same_data two_vertices d' ∧
      (∀ a b, edge d' a b ↔ edge two_vertices a b ∨ (a = 1%nat ∧ b = 0%nat)) ∧ ¬ rtc (edge two_vertices) 0%nat 1%nat
  | (Throw e, d') =>
      e = C10Error "Cycle detected while trying to add edge." ∧ rtc (edge two_vertices) 0%nat 1%nat ∧
      d' = with_edge 1%nat 0%nat two_vertices
  end.
Proof. apply (addEdge_correct two_vertices 1%nat 0%nat); [apply inv_two|apply live_two; lia|apply live_two; lia|lia]. Defined.

Lemma addEdge_cycle_not_undone_witness :
  returns (debugCheckInvariants (addEdge 1%nat 0%nat one_edge).2).1 = false.
Proof.
  apply (addEdge_cycle_not_undone one_edge 1%nat 0%nat); [apply inv_one_edge|by apply with_edge_live, live_two; lia|
    by apply with_edge_live, live_two; lia|lia| |].
  - intros E. pose proof (proj2 inv_one_edge _ _ E) as Hlt. vm_compute in Hlt. lia.
  - apply rtc_once, edge_one.
Defined.

Lemma contractEdge_correct_witness :
  ¬ other_path one_edge 0%nat 1%nat ∧
  contraction one_edge 0%nat 1%nat 1%nat 0%nat (contractEdge 0%nat 1%nat one_edge).2.
Proof.
  exact (contractEdge_correct one_edge 0%nat 1%nat (mkVertex [0] 0 [] [1])%nat (mkVertex [1] 1 [0] [])%nat
    inv_one_edge edge_one eq_refl eq_refl).
Defined.

Lemma reachable_sound_witness : debugCheckInvariants two_vertices = (Ok tt, two_vertices).
Proof.
  apply (reachable_sound two_vertices). apply (reachable_call (fresh_vertex 0%nat empty_dag) (NewVertex 1%nat)); [|done|done].
  apply (reachable_call empty_dag (NewVertex 0%nat)); [apply reachable_empty|done|done].
Defined.

Lemma removeVertex_correct_witness :
  ∃ d', removeVertex 0%nat one_edge = (Ok ([], [1%nat]), d') ∧ inv d'.
Proof.
  destruct (removeVertex_correct one_edge 0%nat (mkVertex [0] 0 [] [1])%nat inv_one_edge eq_refl) as (d' & E & Hi & _).
  exists d'. split; [exact E|exact Hi].
Defined.
