(* ===== verification/CudaRuntime.v ===== *)
(** * The CUDA runtime as the sources use it

    The CUDA runtime is not part of the repository: it is the interface
    [CudaRuntime] of the calls c10/cuda makes, over a type [W] of states of the
    runtime.  [CudaLaws] states the documented behaviour the allocator relies on:
    cudaMalloc hands out memory that overlaps no live allocation, cudaFree ends
    one, and no other call does either.  The module [CUDAFunctions] models
    c10/cuda/CUDAException.h, c10/cuda/CUDAFunctions.h and the part of
    c10/cuda/impl/CUDAGuardImpl.h that a device guard runs.  [Toy] is an instance
    of the interface that satisfies the laws. *)
From S2P Require Import Prelude.
Local Open Scope Z_scope.

Inductive cudaError_t : Type :=
  | cudaSuccess
  | cudaErrorMemoryAllocation
  | cudaErrorNotReady
  | cudaErrorOther (code : Z).

#[export] Instance cudaError_t_eq_dec : EqDecision cudaError_t.
Proof. solve_decision. Defined.

(** A call of the runtime: the error code, and the value of the out parameter. *)
Abbreviation cuda_call W X := (W → (cudaError_t * X) * W).

Class CudaRuntime (W : Type) : Type := {
  cudaGetDeviceCount : cuda_call W Z;
  cudaGetDevice : cuda_call W Z;
  cudaSetDevice (device : Z) : cuda_call W unit;
  cudaGetLastError : cuda_call W unit;
  cudaMalloc (size : Z) : cuda_call W Z;
  cudaFree (devPtr : Z) : cuda_call W unit;
  cudaMemGetInfo : cuda_call W (Z * Z);
  cudaEventCreateWithFlags (flags : Z) : cuda_call W Z;
  cudaEventRecord (event stream : Z) : cuda_call W unit;
  cudaEventQuery (event : Z) : cuda_call W unit;
  cudaEventSynchronize (event : Z) : cuda_call W unit;
  cudaEventDestroy (event : Z) : cuda_call W unit;
  cudaStreamCreateWithPriority (flags priority : Z) : cuda_call W Z
}.

(** ** What the runtime promises *)
Section Laws.
Context {W : Type}.
Context (live : W → gmap Z Z) (faulted : W → Prop).

(** A call that leaves the allocations alone; [fine] are the codes it returns
    when nothing is wrong. *)
Definition quiet {X} (fine : cudaError_t → Prop) (f : cuda_call W X) : Prop := ∀ w err x w',
  f w = ((err, x), w') →
  live w' = live w ∧ (faulted w → faulted w') ∧ (fine err ∨ faulted w').

Definition success (err : cudaError_t) : Prop := err = cudaSuccess.
Definition ready (err : cudaError_t) : Prop := err = cudaSuccess ∨ err = cudaErrorNotReady.

(** [n] bytes at [p], inside the address space and apart from the regions of [l]. *)
Definition fresh_region (p n : Z) (l : gmap Z Z) : Prop :=
  0 < p ∧ p + n < 2 ^ 64 ∧ l !! p = None ∧ ∀ q m, l !! q = Some m → p + n ≤ q ∨ q + m ≤ p.
End Laws.

(** [live w] are the allocations that were handed out and not freed, [faulted w]
    says that a call of the run returned an unexpected error. *)
Class CudaLaws (W : Type) `{CudaRuntime W} : Type := {
  live : W → gmap Z Z;
  faulted : W → Prop;
  GetDevice_quiet : quiet live faulted success cudaGetDevice;
  SetDevice_quiet d : quiet live faulted success (cudaSetDevice d);
  GetLastError_quiet : quiet live faulted (λ _, True) cudaGetLastError;
  MemGetInfo_quiet : quiet live faulted success cudaMemGetInfo;
  EventCreate_quiet flags : quiet live faulted success (cudaEventCreateWithFlags flags);
  EventRecord_quiet e s : quiet live faulted success (cudaEventRecord e s);
  EventQuery_quiet e : quiet live faulted ready (cudaEventQuery e);
  EventSynchronize_quiet e : quiet live faulted success (cudaEventSynchronize e);
  EventDestroy_quiet e : quiet live faulted success (cudaEventDestroy e);
  Malloc_law size w err p w' :
    cudaMalloc size w = ((err, p), w') → 0 < size →
    (faulted w → faulted w') ∧
    match err with
    | cudaSuccess => fresh_region p size (live w) ∧ live w' = <[p := size]> (live w)
    | _ => live w' = live w
    end;
  Free_law p n w err u w' :
    cudaFree p w = ((err, u), w') → live w !! p = Some n →
    (faulted w → faulted w') ∧
    match err with cudaSuccess => live w' = delete p (live w) | _ => faulted w' end
}.

(** ** c10/cuda/CUDAException.h and c10/cuda/CUDAFunctions.h *)
Module CUDAFunctions.
Section Functions.
Context {W : Type} `{CudaRuntime W}.

(** A call whose error code the caller looks at. *)
Definition call {X} (f : cuda_call W X) : SE W (cudaError_t * X) := λ w, (Ok (f w).1, (f w).2).

(** [C10_CUDA_CHECK(err)] on a code, and on a call. *)
Definition check_error (err : cudaError_t) : SE W unit :=
  if decide (err = cudaSuccess) then mret tt
  else call cudaGetLastError;; AT_ERROR "CUDA error".
Definition C10_CUDA_CHECK {X} (f : cuda_call W X) : SE W X :=
  r ← call f; check_error r.1;; mret r.2.

Definition device_count : SE W Z :=
  r ← call cudaGetDeviceCount;
  if decide (r.1 = cudaSuccess) then mret (wrapS 16 r.2)
  else call cudaGetLastError;; mret 0.

Definition current_device : SE W Z :=
  cur_device ← C10_CUDA_CHECK cudaGetDevice; mret (wrapS 16 cur_device).

Definition set_device (device : Z) : SE W unit := C10_CUDA_CHECK (cudaSetDevice device).

(** [CUDAGuardImpl]: the devices it is given are CUDA devices. *)
Definition getDevice : SE W Z :=
  device ← C10_CUDA_CHECK cudaGetDevice; mret (wrapS 16 device).
Definition exchangeDevice (d : Z) : SE W Z :=
  old_device ← getDevice;
  (if old_device =? d then mret tt else C10_CUDA_CHECK (cudaSetDevice d));;
  mret old_device.
Definition uncheckedSetDevice (d : Z) : SE W unit := call (cudaSetDevice d);; mret tt.

(** A block with a destructor that runs when the block throws too. *)
Definition finally {S A} (body : SE S A) (destructor : SE S unit) : SE S A := λ s,
  let '(r, s1) := body s in
  match destructor s1 with
  | (Ok _, s2) => (r, s2)
  | (Throw e, s2) => (Throw e, s2)
  end.

(** A [CUDAGuard] over a block: the constructor and the destructor of
    [InlineDeviceGuard]. *)
Definition with_guard {S A} (on : ∀ X, SE W X → SE S X) (device_index : Z) (body : SE S A) : SE S A :=
  original_device ← on _ (if device_index =? -1 then getDevice else exchangeDevice device_index);
  finally body (on _ (uncheckedSetDevice original_device)).
End Functions.
End CUDAFunctions.

(** A call on a part of a larger state. *)
Definition zoom {S T A} (view : S → T) (set : T → S → S) (m : SE T A) : SE S A := λ s,
  ((m (view s)).1, set (m (view s)).2 s).

(** ** A runtime *)
Module Toy.

(** The memory is handed out from address [top] upwards until [capacity] bytes are
    in use; an event is complete once it is in [ready_events], and the calls that
    wait for an event of [bad_events] fail. *)
Record Machine : Type := mkMachine {
  device : Z;
  top : Z;
  capacity : Z;
  regions : gmap Z Z;
  next_event : Z;
  ready_events : list Z;
  bad_events : list Z;
  broken : bool
}.

Definition with_device d m := mkMachine d (top m) (capacity m) (regions m) (next_event m) (ready_events m) (bad_events m) (broken m).
Definition with_regions t r m := mkMachine (device m) t (capacity m) r (next_event m) (ready_events m) (bad_events m) (broken m).
Definition with_events n r m := mkMachine (device m) (top m) (capacity m) (regions m) n r (bad_events m) (broken m).
Definition break m := mkMachine (device m) (top m) (capacity m) (regions m) (next_event m) (ready_events m) (bad_events m) true.

Definition in_use (m : Machine) : Z := map_fold (λ _ n acc, n + acc) 0 (regions m).

Definition ok {X} (x : X) (m : Machine) : (cudaError_t * X) * Machine := ((cudaSuccess, x), m).
Definition fail {X} (x : X) (m : Machine) : (cudaError_t * X) * Machine := ((cudaErrorOther 1, x), break m).

Definition malloc (size : Z) : cuda_call Machine Z := λ m,
  if decide (0 < top m ∧ top m + size < 2 ^ 64 ∧ in_use m + size ≤ capacity m ∧
             map_Forall (λ p n, p + n ≤ top m ∧ 0 < n) (regions m))
  then ok (top m) (with_regions (top m + size) (<[top m := size]> (regions m)) m)
  else ((cudaErrorMemoryAllocation, 0), m).

Definition free (p : Z) : cuda_call Machine unit := λ m,
  if decide (is_Some (regions m !! p)) then ok tt (with_regions (top m) (delete p (regions m)) m)
  else fail tt m.

Definition on_event (e : Z) (f : cuda_call Machine unit) : cuda_call Machine unit := λ m,
  if decide (e ∈ bad_events m) then fail tt m else f m.
Definition new_handle : cuda_call Machine Z := λ m,
  ok (next_event m) (with_events (next_event m + 1) (ready_events m) m).

#[global] Instance runtime : CudaRuntime Machine := {
  cudaGetDeviceCount := ok 2;
  cudaGetDevice m := ok (device m) m;
  cudaSetDevice d m := ok tt (with_device d m);
  cudaGetLastError := ok tt;
  cudaMalloc := malloc;
  cudaFree := free;
  cudaMemGetInfo m := ok (capacity m - in_use m, capacity m) m;
  cudaEventCreateWithFlags _ := new_handle;
  cudaEventRecord _ _ := ok tt;
  cudaEventQuery e :=
    on_event e (λ m, ((if decide (e ∈ ready_events m) then cudaSuccess else cudaErrorNotReady, tt), m));
  cudaEventSynchronize e := on_event e (λ m, ok tt (with_events (next_event m) (e :: ready_events m) m));
  cudaEventDestroy e := on_event e (ok tt);
  cudaStreamCreateWithPriority _ _ := new_handle
}.

Ltac quiet_tac :=
  intros w err x w'; cbn;
  repeat (unfold on_event, ok, fail, success, ready || case_decide || intros [= <- <- <-]);
  cbn; auto.

#[global, program] Instance laws : CudaLaws Machine := {
  live := regions;
  faulted m := broken m = true
}.
Next Obligation. quiet_tac. Qed.
Next Obligation. intros d. quiet_tac. Qed.
Next Obligation. quiet_tac. Qed.
Next Obligation. quiet_tac. Qed.
Next Obligation. intros f. quiet_tac. Qed.
Next Obligation. intros e s. quiet_tac. Qed.
Next Obligation. intros e. quiet_tac. Qed.
Next Obligation. intros e. quiet_tac. Qed.
Next Obligation. intros e. quiet_tac. Qed.
Next Obligation.
  intros size m err p m'. cbn. unfold malloc, ok. case_decide as H; [|by intros [= <- <- <-]].
  intros [= <- <- <-] Hs. destruct H as (Ht & Hc & _ & Hr). cbn. split; [done|]. split; [|done].
  split; [done|]. split; [done|]. split.
  - destruct (regions m !! top m) as [n|] eqn:E; [|done]. apply Hr in E. cbn in E. lia.
  - intros q k E. apply Hr in E. cbn in E. lia.
Qed.
Next Obligation.
  intros p n m err u m'. cbn. unfold free, ok, fail. case_decide as H.
  - intros [= <- <- <-] _. cbn. auto.
  - intros [= <- <- <-] E. rewrite E in H. by destruct H.
Qed.

(** A machine of [cap] bytes on device 0. *)
Definition machine (cap : Z) (bad : list Z) : Machine := mkMachine 0 512 cap ∅ 1 [] bad false.
End Toy.
