(* ===== verification/CudaStream.v ===== *)
(** * CUDA streams (c10/cuda/CUDAStream.{h,cpp})

    The stream pools: 32 low and 32 high priority streams per device, created on
    the first request and handed out round-robin, and the current stream of each
    device, per thread.  A [LeakyStreamInternals*] is a cell of one of the three
    static arrays. *)
From S2P Require Import Prelude CoreTypes CudaRuntime.
Local Open Scope Z_scope.
Import Stream.

Module CudaStream.
Import CUDAFunctions.

Definition C10_COMPILE_TIME_MAX_GPUS : Z := 16.
Definition kStreamsPerPoolBits : Z := 5.
Definition kStreamsPerPool : Z := Z.shiftl 1 kStreamsPerPoolBits.
Definition kDefaultFlags : Z := 1.
Definition kHighPriority : Z := -1.
Definition kLowPriority : Z := 0.

(** ** Stream ids *)
Inductive StreamIdType : Type := DEFAULT | LOW | HIGH | UnknownIdType (raw : Z).

#[export] Instance StreamIdType_eq_dec : EqDecision StreamIdType.
Proof. solve_decision. Defined.

Definition StreamIdType_to_uint8 (st : StreamIdType) : Z :=
  match st with DEFAULT => 0 | LOW => 1 | HIGH => 2 | UnknownIdType raw => raw end.
Definition StreamIdType_of_uint8 (raw : Z) : StreamIdType :=
  match raw with 0 => DEFAULT | 1 => LOW | 2 => HIGH | raw => UnknownIdType raw end.

Definition streamIdType (s : Z) : StreamIdType :=
  StreamIdType_of_uint8 (wrapU 8 (Z.shiftr s kStreamsPerPoolBits)).
Definition streamIdIndex (s : Z) : Z :=
  wrapU 64 (Z.land s (Z.shiftl 1 kStreamsPerPoolBits - 1)).
Definition makeStreamId (st : StreamIdType) (si : Z) : Z :=
  Z.lor (Z.shiftl (StreamIdType_to_uint8 st) kStreamsPerPoolBits) (wrapS 32 si).

(** ** The global state *)

(** The cells of [default_streams], [low_priority_streams] and
    [high_priority_streams]. *)
Inductive internals_ptr : Type :=
  | DefaultStream (device_index : Z)
  | LowStream (device_index index : Z)
  | HighStream (device_index index : Z).

#[export] Instance internals_ptr_eq_dec : EqDecision internals_ptr.
Proof. solve_decision. Defined.
#[export] Instance internals_ptr_countable : Countable internals_ptr.
Proof.
  refine (inj_countable' (λ p : internals_ptr, match p with
    | DefaultStream d => inl d | LowStream d i => inr (inl (d, i)) | HighStream d i => inr (inr (d, i)) end)
    (λ c : Z + (Z * Z + Z * Z), match c with
    | inl d => DefaultStream d | inr (inl (d, i)) => LowStream d i | inr (inr (d, i)) => HighStream d i end) _).
  by intros [].
Defined.

Record LeakyStreamInternals : Type := mkInternals {
  device_index : Z;
  stream : Z
}.
Definition fresh_internals : LeakyStreamInternals := mkInternals (-1) 0.

Section Streams.
Context {W : Type} `{CudaRuntime W}.

(** The globals of the file; [current_streams] is thread local, and a thread
    without an entry has a null pointer. *)
Record Streams : Type := mkStreams {
  world : W;
  num_gpus : Z;
  init_flag : bool;
  device_flags : gset Z;
  low_priority_counters : gmap Z Z;
  high_priority_counters : gmap Z Z;
  internals : gmap internals_ptr LeakyStreamInternals;
  current_streams : gmap nat (list internals_ptr)
}.

Definition set_world w s := mkStreams w (num_gpus s) (init_flag s) (device_flags s) (low_priority_counters s) (high_priority_counters s) (internals s) (current_streams s).
Definition set_num_gpus n s := mkStreams (world s) n (init_flag s) (device_flags s) (low_priority_counters s) (high_priority_counters s) (internals s) (current_streams s).
Definition set_init_flag b s := mkStreams (world s) (num_gpus s) b (device_flags s) (low_priority_counters s) (high_priority_counters s) (internals s) (current_streams s).
Definition set_device_flags f s := mkStreams (world s) (num_gpus s) (init_flag s) f (low_priority_counters s) (high_priority_counters s) (internals s) (current_streams s).
Definition set_low_counters c s := mkStreams (world s) (num_gpus s) (init_flag s) (device_flags s) c (high_priority_counters s) (internals s) (current_streams s).
Definition set_high_counters c s := mkStreams (world s) (num_gpus s) (init_flag s) (device_flags s) (low_priority_counters s) c (internals s) (current_streams s).
Definition set_internals i s := mkStreams (world s) (num_gpus s) (init_flag s) (device_flags s) (low_priority_counters s) (high_priority_counters s) i (current_streams s).
Definition set_current c s := mkStreams (world s) (num_gpus s) (init_flag s) (device_flags s) (low_priority_counters s) (high_priority_counters s) (internals s) c.

(** The state before the first call. *)
Definition startup (w : W) : Streams := mkStreams w (-1) false ∅ ∅ ∅ ∅ ∅.

Definition on_world {X} (m : SE W X) : SE Streams X := zoom world set_world m.

Definition read (p : internals_ptr) (s : Streams) : LeakyStreamInternals :=
  default fresh_internals (internals s !! p).
Definition write (p : internals_ptr) (f : LeakyStreamInternals → LeakyStreamInternals) : SE Streams unit :=
  modify (λ s, set_internals (<[p := f (read p s)]> (internals s)) s).

(** An access of a [C10_COMPILE_TIME_MAX_GPUS]-element array. *)
Definition gpu_index {M : Type → Type} `{MRet M, MThrow exn M} (d : Z) : M unit :=
  if decide (0 ≤ d < C10_COMPILE_TIME_MAX_GPUS) then mret tt
  else mthrow (Undefined "device index out of range").

(** ** Streams and their internals *)
Definition CUDAStream_getStreamId (ptr : internals_ptr) (s : Streams) : outcome Z :=
  let d := device_index (read ptr s) in
  gpu_index d;;
  if decide (ptr = DefaultStream d) then Ok (makeStreamId DEFAULT 0)
  else match ptr with
       | LowStream d' i => if d' =? d then Ok (makeStreamId LOW i) else AT_ERROR "Could not compute stream ID"
       | HighStream d' i => if d' =? d then Ok (makeStreamId HIGH i) else AT_ERROR "Could not compute stream ID"
       | DefaultStream _ => AT_ERROR "Could not compute stream ID"
       end.

Definition CUDAStream_internals (s : Stream) : outcome internals_ptr :=
  let device_index := Stream.device_index s in
  let st := streamIdType (Stream.id_ s) in
  let si := streamIdIndex (Stream.id_ s) in
  match st with
  | DEFAULT =>
      AT_CHECK (si =? 0) "Unrecognized stream";;
      gpu_index device_index;;
      Ok (DefaultStream device_index)
  | LOW => gpu_index device_index;; Ok (LowStream device_index si)
  | HIGH => gpu_index device_index;; Ok (HighStream device_index si)
  | UnknownIdType _ => AT_ERROR "Unrecognized stream"
  end.

Definition CUDAStream_fromInternals (ptr : internals_ptr) (s : Streams) : outcome Stream :=
  id ← CUDAStream_getStreamId ptr s;
  Device.make DeviceType.CUDA (device_index (read ptr s)) ≫= λ device,
  Ok (Stream.mkStream device id).

(** [CUDAStream::stream()]. *)
Definition CUDAStream_stream (s : Stream) (g : Streams) : outcome Z :=
  ptr ← CUDAStream_internals s; Ok (stream (read ptr g)).

(** ** Initialization *)

(** [std::call_once]: the flag is set when the call returns, not when it throws. *)
Definition call_once (done_ : Streams → bool) (mark : Streams → Streams) (m : SE Streams unit) : SE Streams unit :=
  b ← gets done_; if b : bool then mret tt else m;; modify mark.

Definition zeros (n : Z) : list Z := seqZ 0 n.

Definition initGlobalStreamState : SE Streams unit :=
  n ← on_world device_count;
  modify (set_num_gpus n);;
  AT_CHECK (n <=? C10_COMPILE_TIME_MAX_GPUS) "Number of CUDA devices on the machine is larger than the compiled max";;
  foreach (zeros n) (λ i,
    write (DefaultStream i) (λ x, mkInternals i (stream x));;
    modify (λ s, set_low_counters (<[i := 0]> (low_priority_counters s)) s);;
    modify (λ s, set_high_counters (<[i := 0]> (high_priority_counters s)) s)).

Definition initDeviceStreamState (d : Z) : SE Streams unit :=
  with_guard (@on_world) d (foreach (zeros kStreamsPerPool) (λ i,
    write (LowStream d i) (λ x, mkInternals d (stream x));;
    write (HighStream d i) (λ x, mkInternals d (stream x));;
    lo ← on_world (C10_CUDA_CHECK (cudaStreamCreateWithPriority kDefaultFlags kLowPriority));
    write (LowStream d i) (λ x, mkInternals (device_index x) lo);;
    hi ← on_world (C10_CUDA_CHECK (cudaStreamCreateWithPriority kDefaultFlags kHighPriority));
    write (HighStream d i) (λ x, mkInternals (device_index x) hi))).

(** [initCUDAStreamsOnce] on thread [self]. *)
Definition initCUDAStreamsOnce (self : nat) : SE Streams unit :=
  call_once init_flag (set_init_flag true) initGlobalStreamState;;
  s ← get;
  match current_streams s !! self with
  | Some _ => mret tt
  | None => put (set_current (<[self := DefaultStream <$> zeros (num_gpus s)]> (current_streams s)) s)
  end.

Definition check_gpu (d : Z) : SE Streams unit :=
  s ← get; AT_ASSERT ((0 <=? d) && (d <? num_gpus s)).

(** [get_idx]: [counter++] on an atomic [uint32_t]. *)
Definition next_counter (raw_idx : Z) : Z := wrapU 32 (raw_idx + 1).
Definition get_idx (counter : Streams → Z) (set_counter : Z → Streams → Streams) : SE Streams Z :=
  raw_idx ← gets counter;
  modify (set_counter (next_counter raw_idx));;
  mret (raw_idx `mod` kStreamsPerPool).

Definition low_counter (d : Z) (s : Streams) : Z := default 0 (low_priority_counters s !! d).
Definition high_counter (d : Z) (s : Streams) : Z := default 0 (high_priority_counters s !! d).

(** ** The interface *)
Definition resolve_device (d : Z) : SE Streams Z :=
  if d =? -1 then on_world current_device else mret d.

Definition from_internals (ptr : internals_ptr) : SE Streams Stream := λ s, (CUDAStream_fromInternals ptr s, s).

Definition getStreamFromPool (self : nat) (isHighPriority : bool) (device_index : Z) : SE Streams Stream :=
  initCUDAStreamsOnce self;;
  d ← resolve_device device_index;
  check_gpu d;;
  call_once (λ s, bool_decide (d ∈ device_flags s)) (λ s, set_device_flags ({[d]} ∪ device_flags s) s)
    (initDeviceStreamState d);;
  if isHighPriority then
    idx ← get_idx (high_counter d) (λ c s, set_high_counters (<[d := c]> (high_priority_counters s)) s);
    from_internals (HighStream d idx)
  else
    idx ← get_idx (low_counter d) (λ c s, set_low_counters (<[d := c]> (low_priority_counters s)) s);
    from_internals (LowStream d idx).

Definition getDefaultCUDAStream (self : nat) (device_index : Z) : SE Streams Stream :=
  initCUDAStreamsOnce self;;
  d ← resolve_device device_index;
  check_gpu d;;
  from_internals (DefaultStream d).

(** The thread's array of current streams. *)
Definition current_array (self : nat) : SE Streams (list internals_ptr) :=
  s ← get;
  match current_streams s !! self with
  | Some v => mret v
  | None => mthrow (Undefined "null current_streams")
  end.

Definition getCurrentCUDAStream (self : nat) (device_index : Z) : SE Streams Stream :=
  initCUDAStreamsOnce self;;
  d ← resolve_device device_index;
  check_gpu d;;
  v ← current_array self;
  ptr ← lift (vec_get v d);
  from_internals ptr.

Definition setCurrentCUDAStream (self : nat) (s : Stream) : SE Streams unit :=
  initCUDAStreamsOnce self;;
  ptr ← lift (CUDAStream_internals s);
  d ← gets (λ g, device_index (read ptr g));
  v ← current_array self;
  v' ← lift (vec_set v d ptr);
  modify (λ g, set_current (<[self := v']> (current_streams g)) g).
End Streams.
Arguments Streams : clear implicits.
End CudaStream.
