(* ===== verification/CudaStreamSpec.v ===== *)
(** * The invariant of the stream pools

    [streams_inv] says which cells exist and what they hold; every operation keeps
    it, also when it throws.  On a thread and a device that are set up, the
    operations have the closed forms [run_pool], [run_current] and [run_set]. *)
From S2P Require Import Prelude CoreTypes CudaRuntime CudaStream.
Local Open Scope Z_scope.
Import CudaStream CUDAFunctions.

(** ** Cells and stream ids *)
Definition owner (p : internals_ptr) : Z :=
  match p with DefaultStream d | LowStream d _ | HighStream d _ => d end.
Definition ptr_ok (p : internals_ptr) : Prop :=
  0 ≤ owner p < C10_COMPILE_TIME_MAX_GPUS ∧
  match p with DefaultStream _ => True | LowStream _ i | HighStream _ i => 0 ≤ i < kStreamsPerPool end.
Definition id_of (p : internals_ptr) : Z :=
  match p with DefaultStream _ => makeStreamId DEFAULT 0 | LowStream _ i => makeStreamId LOW i | HighStream _ i => makeStreamId HIGH i end.
Definition stream_of (p : internals_ptr) : Stream.Stream := Stream.mkStream (Device.mkDevice DeviceType.CUDA (owner p)) (id_of p).

Definition decodes (t : StreamIdType) (i : Z) : bool :=
  bool_decide (streamIdType (makeStreamId t i) = t) && (streamIdIndex (makeStreamId t i) =? i).

Lemma id_decodes t i : t = LOW ∨ t = HIGH → 0 ≤ i < kStreamsPerPool →
  streamIdType (makeStreamId t i) = t ∧ streamIdIndex (makeStreamId t i) = i.
Proof.
  intros Ht Hi. cut (decodes t i = true).
  { unfold decodes. rewrite andb_true_iff, bool_decide_eq_true, Z.eqb_eq. done. }
  assert (Hall : forallb (decodes t) (seqZ 0 32) = true) by by destruct Ht as [-> | ->]; vm_compute.
  rewrite forallb_forall in Hall. apply Hall. apply list_elem_of_In, elem_of_seqZ. change kStreamsPerPool with 32 in Hi. lia.
Qed.

Lemma gpu_index_ok {A} d (f : unit → outcome A) : 0 ≤ d < C10_COMPILE_TIME_MAX_GPUS → gpu_index d ≫= f = f tt.
Proof. intros. unfold gpu_index. by rewrite decide_True. Qed.

(** The stream of a cell names the cell. *)
Lemma internals_stream_of p : ptr_ok p → CUDAStream_internals (stream_of p) = Ok p.
Proof.
  intros [Hd Hi]. unfold CUDAStream_internals, stream_of, Stream.device_index. cbn [Stream.id_ Stream.device_ Device.index_].
  destruct p as [d|d i|d i]; cbn [id_of owner] in *.
  - change (streamIdType (makeStreamId DEFAULT 0)) with DEFAULT. cbn match. by rewrite AT_CHECK_bind_true, gpu_index_ok.
  - destruct (id_decodes LOW i) as [-> ->]; [by left|done|]. by rewrite gpu_index_ok.
  - destruct (id_decodes HIGH i) as [-> ->]; [by right|done|]. by rewrite gpu_index_ok.
Qed.

Lemma stream_of_inj p q : ptr_ok p → ptr_ok q → stream_of p = stream_of q → p = q.
Proof. intros Hp Hq E. apply Ok_inj. by rewrite <- (internals_stream_of p), <- (internals_stream_of q), E. Qed.

(** ** Loops and guards *)
Lemma wp_finally {S A} (body : SE S A) d (Q : A → S → Prop) E s :
  wp body (λ a, wp d (λ _, Q a) E) (λ e, wp d (λ _, E e) E) s → wp (finally body d) Q E s.
Proof.
  unfold wp, finally. destruct (body s) as [[a|e] s1]; destruct (d s1) as [[?|?] s2]; done.
Qed.

(** A loop that does something for each element, and does not undo it. *)
Lemma wp_foreach_each {S A} (I : S → Prop) (R : A → S → Prop) (xs : list A) (body : A → SE S unit) E s :
  (∀ x s, x ∈ xs → I s → wp (body x) (λ _ s', I s' ∧ R x s' ∧ ∀ y, R y s → R y s') E s) →
  I s → wp (foreach xs body) (λ _ s', I s' ∧ (∀ y, y ∈ xs ∨ R y s → R y s')) E s.
Proof.
  revert s. induction xs as [|x xs IH]; intros s Hb Hs.
  - apply wp_ret. split; [done|]. intros y [Hy|]; [by apply elem_of_nil in Hy|done].
  - apply wp_bind. eapply wp_mono; [apply Hb; [by left|done]|]. intros [] s1 (H1 & Hx & Hk).
    eapply wp_mono; [apply IH; [|done]; intros y t Hy; apply Hb; by right|]. intros [] s2 (H2 & Hr).
    split; [done|]. intros y [[->|Hy]%elem_of_cons|Hy]; apply Hr; [by right|by left|right; by apply Hk].
Qed.

Section Spec.
Context {W : Type} `{CudaRuntime W}.
Implicit Types (s : Streams W) (p : internals_ptr).

Definition present p s : Prop := is_Some (internals s !! p).

Record streams_inv s : Prop := {
  si_cells p x : internals s !! p = Some x → ptr_ok p ∧ device_index x = owner p ∧ owner p < num_gpus s;
  si_init : init_flag s = true → num_gpus s ≤ C10_COMPILE_TIME_MAX_GPUS ∧ ∀ d, 0 ≤ d < num_gpus s → present (DefaultStream d) s;
  si_blank : init_flag s = false → internals s = ∅;
  si_pools d i : d ∈ device_flags s → 0 ≤ i < kStreamsPerPool → present (LowStream d i) s ∧ present (HighStream d i) s;
  si_threads t v : current_streams s !! t = Some v →
    init_flag s = true ∧ length v = Z.to_nat (num_gpus s) ∧ ∀ i p, v !! i = Some p → owner p = Z.of_nat i ∧ present p s
}.

Definition always : exn → Streams W → Prop := λ _, streams_inv.

Lemma streams_startup w : streams_inv (startup w).
Proof. split; cbn; try done; intros; by rewrite ?lookup_empty, ?elem_of_empty in *. Qed.

Lemma inv_set_world w s : streams_inv s → streams_inv (set_world w s).
Proof. intros []. by split. Qed.

Lemma inv_counters w lo hi s : streams_inv s → streams_inv (set_world w (set_low_counters lo (set_high_counters hi s))).
Proof. intros []. by split. Qed.

Lemma wp_on_world {X} (m : SE W X) (Q : X → Streams W → Prop) E s :
  (∀ x w, Q x (set_world w s)) → (∀ e w, E e (set_world w s)) → wp (on_world m) Q E s.
Proof. intros HQ HE. unfold wp, on_world, zoom. destruct (m (world s)) as [[x|e] w]; [apply HQ|apply HE]. Qed.

(** Reads of a cell. *)
Lemma read_present p s : streams_inv s → present p s → device_index (read p s) = owner p.
Proof. intros Hi [x E]. unfold read. rewrite E. by apply (si_cells s Hi p x). Qed.

Lemma from_internals_present p s : streams_inv s → present p s → CUDAStream_fromInternals p s = Ok (stream_of p).
Proof.
  intros Hi Hp. pose proof (read_present p s Hi Hp) as Hr. destruct Hp as [x E].
  destruct (si_cells s Hi p x E) as ((Hd & Hx) & _). unfold CUDAStream_fromInternals, CUDAStream_getStreamId. rewrite Hr.
  assert (Device.make DeviceType.CUDA (owner p) = Ok (Device.mkDevice DeviceType.CUDA (owner p))) as Em.
  { unfold Device.make, Device.validate. cbn [Device.index_ Device.is_cpu Device.type_].
    rewrite AT_CHECK_bind_true by (rewrite orb_true_iff, Z.leb_le; right; lia). done. }
  rewrite gpu_index_ok by done. destruct p as [d|d i|d i]; cbn [owner] in *.
  - rewrite decide_True by done. cbn [mbind outcome_bind]. by rewrite Em.
  - rewrite decide_False by done. rewrite Z.eqb_refl. cbn [mbind outcome_bind]. by rewrite Em.
  - rewrite decide_False by done. rewrite Z.eqb_refl. cbn [mbind outcome_bind]. by rewrite Em.
Qed.

(** Only the cells of the pools have a stream. *)
Lemma from_internals_Ok p st s : streams_inv s → CUDAStream_fromInternals p s = Ok st → present p s ∧ st = stream_of p.
Proof.
  intros Hi E. assert (Hp : present p s).
  { unfold present. destruct (internals s !! p) as [x|] eqn:Ep; [done|]. exfalso.
    unfold CUDAStream_fromInternals, CUDAStream_getStreamId, read in E. by rewrite Ep in E. }
  split; [done|]. rewrite from_internals_present in E by done. by apply Ok_inj in E.
Qed.

Lemma present_ok p s : streams_inv s → present p s → ptr_ok p.
Proof. intros Hi [x E]. by apply (si_cells s Hi p x). Qed.

(** ** Writes of a cell *)
Definition with_cell p x s := set_internals (<[p := x]> (internals s)) s.

Lemma present_with_cell p q x s : present q s → present q (with_cell p x s).
Proof. unfold present, with_cell. cbn. rewrite lookup_insert_is_Some'. auto. Qed.
Lemma present_new p x s : present p (with_cell p x s).
Proof. unfold present, with_cell. cbn. by rewrite lookup_insert_eq. Qed.

Lemma inv_with_cell p x s : streams_inv s → init_flag s = true → ptr_ok p → device_index x = owner p → owner p < num_gpus s →
  streams_inv (with_cell p x s).
Proof.
  intros Hi Hf Hp Hx Hn. split.
  - intros q y. cbn. intros [[<- <-]|[_ E]]%lookup_insert_Some; [done|]. by apply (si_cells s Hi).
  - intros _. split; [by apply (si_init s Hi)|]. intros d Hd. by apply present_with_cell, (si_init s Hi).
  - cbn. by rewrite Hf.
  - intros d i Hd Hj. destruct (si_pools s Hi d i Hd Hj). split; by apply present_with_cell.
  - intros t v Et. destruct (si_threads s Hi t v Et) as (H1 & H2 & H3). split; [done|]. split; [done|].
    intros j q Eq. destruct (H3 j q Eq). split; [done|]. by apply present_with_cell.
Qed.

Lemma wp_write p f (Q : unit → Streams W → Prop) E s : Q tt (with_cell p (f (read p s)) s) → wp (write p f) Q E s.
Proof. done. Qed.

(** ** Initialization *)

(** The loop of [initGlobalStreamState], over [n] devices. *)
Record global_loop (n : Z) s : Prop := {
  gl_cells p x : internals s !! p = Some x → ptr_ok p ∧ device_index x = owner p ∧ owner p < n;
  gl_num : num_gpus s = n;
  gl_flag : init_flag s = false;
  gl_devices d : d ∉ device_flags s;
  gl_threads t : current_streams s !! t = None
}.

Lemma initGlobal_lemma s : streams_inv s → init_flag s = false →
  wp initGlobalStreamState (λ _ s', streams_inv (set_init_flag true s')) always s.
Proof.
  intros Hi Hf. pose proof (si_blank s Hi Hf) as Hb.
  assert (Hnt : ∀ t, current_streams s !! t = None).
  { intros t. destruct (current_streams s !! t) eqn:E; [|done]. destruct (si_threads s Hi t _ E). congruence. }
  assert (Hnd : ∀ d, d ∉ device_flags s).
  { intros d Hd. destruct (si_pools s Hi d 0 Hd) as [[? Hl] _]; [done|]. by rewrite Hb in Hl. }
  apply wp_bind, wp_on_world; [|intros; by apply inv_set_world]. intros n w.
  apply wp_bind, wp_modify, wp_bind, wp_at_check.
  2: { intros _. split; cbn; rewrite ?Hb, ?Hf; try done.
    - intros d i Hd. by destruct (Hnd d).
    - intros t v Et. by rewrite Hnt in Et. }
  intros Hn%Z.leb_le.
  eapply wp_weaken, (λ e s' (F : False), False_ind _ F).
  eapply wp_mono; [apply (wp_foreach_each (global_loop n) (λ i, present (DefaultStream i)))|].
  - intros d s1 Hd Hl. apply wp_bind, wp_write, wp_bind, wp_modify, wp_modify. split; [|split].
    + split; cbn; try apply Hl. intros q y [[<- <-]|[_ Eq]]%lookup_insert_Some; [|by apply (gl_cells n s1 Hl)].
      apply elem_of_seqZ in Hd. unfold ptr_ok. cbn. repeat split; lia.
    + apply (present_new (DefaultStream d)).
    + intros y. apply (present_with_cell (DefaultStream d)).
  - split; cbn; try done. intros p x E. by rewrite Hb in E.
  - intros [] s1 (Hl & Hp). split; cbn; try done; rewrite ?(gl_num n s1 Hl).
    + by apply (gl_cells n s1 Hl).
    + intros _. split; [done|]. intros d Hd. apply Hp. left. apply elem_of_seqZ. lia.
    + intros d i Hd. by destruct (gl_devices n s1 Hl d).
    + intros t v Et. by rewrite (gl_threads n s1 Hl) in Et.
Qed.

(** [s'] has the flags and the threads of [s]. *)
Definition same_flags s s' : Prop :=
  num_gpus s' = num_gpus s ∧ init_flag s' = init_flag s ∧ device_flags s' = device_flags s ∧ current_streams s' = current_streams s.

Lemma same_flags_trans s1 s2 s3 : same_flags s1 s2 → same_flags s2 s3 → same_flags s1 s3.
Proof. unfold same_flags. intros (->&->&->&->). done. Qed.

Definition pool_ready d i s : Prop := present (LowStream d i) s ∧ present (HighStream d i) s.

(** One turn of the loop of [initDeviceStreamState]. *)
Lemma init_pool_step d i s0 s : 0 ≤ i < kStreamsPerPool → 0 ≤ d < num_gpus s0 → init_flag s0 = true →
  streams_inv s ∧ same_flags s0 s →
  wp (write (LowStream d i) (λ x, mkInternals d (stream x));;
      write (HighStream d i) (λ x, mkInternals d (stream x));;
      lo ← on_world (C10_CUDA_CHECK (cudaStreamCreateWithPriority kDefaultFlags kLowPriority));
      write (LowStream d i) (λ x, mkInternals (device_index x) lo);;
      hi ← on_world (C10_CUDA_CHECK (cudaStreamCreateWithPriority kDefaultFlags kHighPriority));
      write (HighStream d i) (λ x, mkInternals (device_index x) hi))
    (λ _ s', (streams_inv s' ∧ same_flags s0 s') ∧ pool_ready d i s' ∧ ∀ j, pool_ready d j s → pool_ready d j s')
    (λ _ s', streams_inv s' ∧ same_flags s0 s') s.
Proof.
  intros Hk Hd Hf [Hi Hs]. pose proof Hs as (Hn & Hf' & _).
  assert (Hok : ∀ q, q = LowStream d i ∨ q = HighStream d i → ptr_ok q ∧ owner q = d).
  { destruct (si_init s Hi) as [Hm _]; [congruence|]. intros q [-> | ->]; repeat split; cbn; lia. }
  assert (Hw : ∀ q x t, q = LowStream d i ∨ q = HighStream d i → device_index x = d → streams_inv t ∧ same_flags s0 t →
    streams_inv (with_cell q x t) ∧ same_flags s0 (with_cell q x t)).
  { intros q x t Hq Hx [Ht Hts]. pose proof Hts as (Hn1 & Hf1 & _). split; [|done]. destruct (Hok q Hq).
    apply inv_with_cell; try done; [congruence..|lia]. }
  assert (Hww : ∀ w t, streams_inv t ∧ same_flags s0 t → streams_inv (set_world w t) ∧ same_flags s0 (set_world w t)).
  { intros w t [? ?]. split; [by apply inv_set_world|done]. }
  apply wp_bind, wp_write, wp_bind, wp_write. set (s2 := with_cell _ _ (with_cell _ _ s)).
  assert (H2 : streams_inv s2 ∧ same_flags s0 s2) by (apply Hw; [by right|done|apply Hw; [by left|done|done]]).
  apply wp_bind, wp_on_world; [|intros e w; by apply Hww]. intros lo w.
  set (s3 := set_world w s2). assert (H3 : streams_inv s3 ∧ same_flags s0 s3) by by apply Hww.
  assert (P3 : present (LowStream d i) s3) by (apply present_with_cell, present_new).
  apply wp_bind, wp_write. set (s4 := with_cell _ _ s3).
  assert (H4 : streams_inv s4 ∧ same_flags s0 s4).
  { apply Hw; [by left| |done]. by apply (read_present (LowStream d i) s3); [apply H3|]. }
  apply wp_bind, wp_on_world; [|intros e w'; by apply Hww]. intros hi w'.
  set (s5 := set_world w' s4). assert (H5 : streams_inv s5 ∧ same_flags s0 s5) by by apply Hww.
  assert (P5 : present (HighStream d i) s5) by (apply present_with_cell, present_new).
  apply wp_write. split; [|split].
  - apply Hw; [by right| |done]. by apply (read_present (HighStream d i) s5); [apply H5|].
  - split; apply present_with_cell; [by apply present_with_cell|done].
  - intros j. assert (Hq : ∀ q x, present q s → present q (with_cell (HighStream d i) x s5)).
    { intros q x Hq. apply present_with_cell. change (present q s4). apply present_with_cell.
      change (present q s2). by apply present_with_cell, present_with_cell. }
    intros [? ?]. split; by apply Hq.
Qed.

Lemma initDevice_lemma d s : streams_inv s → init_flag s = true → 0 ≤ d < num_gpus s →
  wp (initDeviceStreamState d) (λ _ s', streams_inv s' ∧ same_flags s s' ∧ ∀ i, 0 ≤ i < kStreamsPerPool → pool_ready d i s') always s.
Proof.
  intros Hi Hf Hd. unfold initDeviceStreamState, with_guard. rewrite (proj2 (Z.eqb_neq d (-1))) by lia.
  apply wp_bind, wp_on_world; [|intros; by apply inv_set_world]. intros o w.
  apply wp_finally. eapply wp_mono; [eapply wp_weaken; [apply (wp_foreach_each (λ s', streams_inv s' ∧ same_flags s s') (pool_ready d))|]|].
  - intros i s1 Hin%elem_of_seqZ Hs1. apply init_pool_step; [unfold kStreamsPerPool in *; lia|done..].
  - split; [by apply inv_set_world|done].
  - intros e s1 [Hs1 _]. apply wp_on_world; intros; by apply inv_set_world.
  - intros [] s1 ((Hs1 & Hsame) & Hp). apply wp_on_world; [|intros; by apply inv_set_world].
    intros _ w'. split; [by apply inv_set_world|]. split; [done|]. intros i Hin. apply Hp. left. apply elem_of_seqZ. lia.
Qed.

Lemma wp_call_once done_ mark m (Q : unit → Streams W → Prop) E s :
  (done_ s = true → Q tt s) → (done_ s = false → wp m (λ _ s', Q tt (mark s')) E s) → wp (call_once done_ mark m) Q E s.
Proof.
  intros H1 H2. apply wp_bind, wp_gets. destruct (done_ s) eqn:Ed; [by apply wp_ret, H1|].
  apply wp_bind. eapply wp_mono; [by apply H2|]. intros [] s' Hs'. by apply wp_modify.
Qed.

(** The streams a new thread starts with. *)
Definition default_streams s : list internals_ptr := DefaultStream <$> zeros (num_gpus s).
Definition view t s : list internals_ptr := default (default_streams s) (current_streams s !! t).
Definition with_view t v s := set_current (<[t := v]> (current_streams s)) s.

Lemma inv_with_view t v s : streams_inv s → init_flag s = true → length v = Z.to_nat (num_gpus s) →
  (∀ i p, v !! i = Some p → owner p = Z.of_nat i ∧ present p s) → streams_inv (with_view t v s).
Proof.
  intros Hi Hf Hl Hv. split; try by destruct Hi.
  intros u x. cbn. intros [[<- <-]|[_ E]]%lookup_insert_Some; [done|]. by apply (si_threads s Hi u x).
Qed.

Lemma default_streams_ok s : streams_inv s → init_flag s = true →
  length (default_streams s) = Z.to_nat (num_gpus s) ∧ ∀ i p, default_streams s !! i = Some p → owner p = Z.of_nat i ∧ present p s.
Proof.
  intros Hi Hf. unfold default_streams, zeros. rewrite length_fmap, length_seqZ. split; [f_equal; lia|]. intros i p.
  rewrite list_lookup_fmap. intros (x & Ex & ->)%fmap_Some. apply lookup_seqZ in Ex as [-> Hx]. split; [done|].
  apply (si_init s Hi Hf). lia.
Qed.

Lemma view_ok t s : streams_inv s → init_flag s = true →
  length (view t s) = Z.to_nat (num_gpus s) ∧ ∀ i p, view t s !! i = Some p → owner p = Z.of_nat i ∧ present p s.
Proof.
  intros Hi Hf. unfold view. destruct (current_streams s !! t) as [v|] eqn:E; cbn; [|by apply default_streams_ok].
  by destruct (si_threads s Hi t v E).
Qed.

(** After the first call, [initCUDAStreamsOnce] only sets up the thread. *)
Lemma run_init t s : init_flag s = true → ∃ s', initCUDAStreamsOnce t s = (Ok tt, s') ∧
  (s' = s ∨ s' = with_view t (default_streams s) s) ∧ current_streams s' !! t = Some (view t s) ∧
  ∀ u, view u s' = view u s.
Proof.
  intros Hf. unfold initCUDAStreamsOnce, view. assert (call_once init_flag (set_init_flag true) initGlobalStreamState s = (Ok tt, s)) as Ec.
  { unfold call_once, gets, mbind, SE_bind. by rewrite Hf. }
  rewrite (run_bind _ _ _ _ _ Ec), run_get. destruct (current_streams s !! t) as [v|] eqn:E.
  - exists s. split; [done|]. split; [by left|]. done.
  - eexists. split; [done|]. split; [by right|]. cbn. rewrite lookup_insert_eq. split; [done|].
    intros u. destruct (decide (u = t)) as [->|]; [by rewrite lookup_insert_eq, E|by rewrite lookup_insert_ne].
Qed.

Lemma init_lemma t s : streams_inv s →
  wp (initCUDAStreamsOnce t) (λ _ s', streams_inv s' ∧ init_flag s' = true ∧ is_Some (current_streams s' !! t)) always s.
Proof.
  intros Hi. apply wp_bind.
  apply (wp_mono _ (λ _ s', streams_inv s' ∧ init_flag s' = true)).
  { apply wp_call_once; intros Hf; [done|]. eapply wp_mono; [by apply initGlobal_lemma|]. intros [] s'. done. }
  intros [] s1 [Hi1 Hf1]. apply wp_bind, wp_get. destruct (current_streams s1 !! t) as [v|] eqn:E.
  - apply wp_ret. by rewrite E.
  - apply wp_put. destruct (default_streams_ok s1 Hi1 Hf1). split; [by apply inv_with_view|]. cbn. by rewrite lookup_insert_eq.
Qed.

(** ** The operations keep the invariant *)
Lemma wp_resolve d (Q : Z → Streams W → Prop) s : streams_inv s →
  (∀ d' w, (d ≠ -1 → d' = d) → Q d' (set_world w s)) → wp (resolve_device d) Q always s.
Proof.
  intros Hi HQ. unfold resolve_device. destruct (Z.eqb_spec d (-1)).
  - apply wp_on_world; [|intros; by apply inv_set_world]. intros x w. by apply HQ.
  - apply wp_ret. destruct s. by apply (HQ d _).
Qed.

(** A device whose pools exist, on a thread that has called before. *)
Record served t d s : Prop := {
  served_init : init_flag s = true;
  served_thread : is_Some (current_streams s !! t);
  served_device : 0 ≤ d < num_gpus s;
  served_pools : d ∈ device_flags s
}.

Lemma wp_check_gpu d (Q : unit → Streams W → Prop) E s :
  (0 ≤ d < num_gpus s → Q tt s) → E (C10Error "assertion failed") s → wp (check_gpu d) Q E s.
Proof. intros HQ HE. apply wp_bind, wp_get, wp_at_check; [|done]. rewrite andb_true_iff, Z.leb_le, Z.ltb_lt. auto. Qed.

Definition pool_cell (high : bool) d i : internals_ptr := if high then HighStream d i else LowStream d i.
Definition counter (high : bool) d s : Z := if high then high_counter d s else low_counter d s.
Definition bump (high : bool) d s : Streams W :=
  if high then set_high_counters (<[d := next_counter (high_counter d s)]> (high_priority_counters s)) s
  else set_low_counters (<[d := next_counter (low_counter d s)]> (low_priority_counters s)) s.

Lemma pool_index c : 0 ≤ c `mod` kStreamsPerPool < kStreamsPerPool.
Proof. by apply Z.mod_pos_bound. Qed.

Lemma counter_bump high d s : counter high d (bump high d s) = next_counter (counter high d s).
Proof. destruct high; cbn; unfold high_counter, low_counter; cbn; by rewrite lookup_insert_eq. Qed.
Lemma inv_bump high d s : streams_inv s → streams_inv (bump high d s).
Proof. intros []. by destruct high. Qed.
Lemma served_bump high t d s : served t d s → served t d (bump high d s).
Proof. intros []. by destruct high. Qed.

(** The last part of [getStreamFromPool]. *)
Definition take (high : bool) d : SE (Streams W) Stream.Stream :=
  if high then
    idx ← get_idx (high_counter d) (λ c s, set_high_counters (<[d := c]> (high_priority_counters s)) s);
    from_internals (HighStream d idx)
  else
    idx ← get_idx (low_counter d) (λ c s, set_low_counters (<[d := c]> (low_priority_counters s)) s);
    from_internals (LowStream d idx).

Lemma run_take high t d s : streams_inv s → served t d s →
  take high d s = (Ok (stream_of (pool_cell high d (counter high d s `mod` kStreamsPerPool))), bump high d s).
Proof.
  intros Hi Hs. pose proof (inv_bump high d s Hi) as Hb.
  destruct (si_pools _ Hb d _ (served_pools _ _ _ (served_bump high t d s Hs)) (pool_index (counter high d s))).
  unfold take. destruct high; erewrite run_bind by done; unfold from_internals.
  - by rewrite (from_internals_present (HighStream _ _) (bump true d s)).
  - by rewrite (from_internals_present (LowStream _ _) (bump false d s)).
Qed.

Lemma pool_lemma t high d s : streams_inv s →
  wp (getStreamFromPool t high d)
    (λ st s', streams_inv s' ∧ served t (Stream.device_index st) s' ∧ (d ≠ -1 → Stream.device_index st = d)) always s.
Proof.
  intros Hi. apply wp_bind. eapply wp_mono; [by apply init_lemma|]. intros [] s1 (Hi1 & Hf1 & Ht1).
  apply wp_bind, wp_resolve; [done|]. intros d' w Hd. apply wp_bind, wp_check_gpu; [|by apply inv_set_world].
  cbn. intros Hd'. apply wp_bind, (wp_mono _ (λ _ s', streams_inv s' ∧ served t d' s')).
  - apply wp_call_once; rewrite ?bool_decide_eq_true, ?bool_decide_eq_false; intros Hin.
    + split; [by apply inv_set_world|]. by split.
    + eapply wp_mono; [by apply initDevice_lemma; [apply inv_set_world|..]|].
      intros [] s2 (Hi2 & (Hn & Hf & Hdf & Hc) & Hp). split.
      * split; try by destruct Hi2. intros e i. cbn. intros [->%elem_of_singleton|He]%elem_of_union ?; [by apply Hp|].
        by apply (si_pools s2 Hi2).
      * split; cbn; rewrite ?Hf, ?Hc, ?Hn; try done. by apply elem_of_union_l, elem_of_singleton.
  - intros [] s2 [Hi2 Hs2]. change (wp (take high d')
      (λ st s', streams_inv s' ∧ served t (Stream.device_index st) s' ∧ (d ≠ -1 → Stream.device_index st = d)) always s2).
    eapply wp_run; [by eapply run_take|]. split; [by apply inv_bump|].
    assert (∀ i, Stream.device_index (stream_of (pool_cell high d' i)) = d') as -> by by destruct high.
    split; [by apply served_bump|done].
Qed.

(** A request on a device that is set up. *)
Lemma run_pool t high d s : streams_inv s → served t d s →
  getStreamFromPool t high d s = (Ok (stream_of (pool_cell high d (counter high d s `mod` kStreamsPerPool))), bump high d s).
Proof.
  intros Hi Hs. pose proof Hs as [Hf [v Ht] Hd Hp]. unfold getStreamFromPool.
  assert (initCUDAStreamsOnce t s = (Ok tt, s)) as E0.
  { unfold initCUDAStreamsOnce. rewrite (run_bind _ _ s tt s), run_get; [by rewrite Ht|].
    unfold call_once, gets, mbind, SE_bind. by rewrite Hf. }
  rewrite (run_bind _ _ _ _ _ E0). unfold resolve_device. rewrite (proj2 (Z.eqb_neq d (-1))), run_ret by lia.
  rewrite (run_bind (check_gpu d) _ s tt s).
  2: { unfold check_gpu. rewrite run_get. unfold AT_ASSERT. rewrite (proj2 (andb_true_iff _ _)); [done|].
       rewrite Z.leb_le, Z.ltb_lt. lia. }
  rewrite (run_bind (call_once _ _ _) _ s tt s).
  2: { unfold call_once, gets, mbind, SE_bind. by rewrite bool_decide_eq_true_2. }
  by apply (run_take high t d s).
Qed.

(** ** The current streams *)
Lemma num_with_view t v s : num_gpus (with_view t v s) = num_gpus s.
Proof. done. Qed.

(** The state in which [t] is set up, as [initCUDAStreamsOnce] leaves it. *)
Lemma ready_thread t s : streams_inv s → init_flag s = true → ∃ s1,
  initCUDAStreamsOnce t s = (Ok tt, s1) ∧ streams_inv s1 ∧ init_flag s1 = true ∧ num_gpus s1 = num_gpus s ∧
  internals s1 = internals s ∧ current_streams s1 !! t = Some (view t s) ∧ ∀ u, view u s1 = view u s.
Proof.
  intros Hi Hf. destruct (run_init t s Hf) as (s1 & E & H1 & Ev & Hv). exists s1. split; [done|].
  pose proof (init_lemma t s Hi) as Hw. unfold wp in Hw. rewrite E in Hw. destruct Hw as (Hi1 & Hf1 & _).
  split; [done|]. split; [done|]. split; [by destruct H1 as [-> | ->]|]. split; [by destruct H1 as [-> | ->]|]. done.
Qed.

Definition current t d s : outcome Stream.Stream :=
  match view t s !! Z.to_nat d with Some p => Ok (stream_of p) | None => Throw (C10Error "assertion failed") end.

Lemma run_current t d s : streams_inv s → init_flag s = true → 0 ≤ d → (getCurrentCUDAStream t d s).1 = current t d s.
Proof.
  intros Hi Hf Hd. destruct (ready_thread t s Hi Hf) as (s1 & E & Hi1 & Hf1 & Hn & Hc & Ev & _).
  destruct (view_ok t s Hi Hf) as [Hl Hv]. unfold getCurrentCUDAStream. rewrite (run_bind _ _ _ _ _ E).
  unfold resolve_device. rewrite (proj2 (Z.eqb_neq d (-1))), run_ret by lia. unfold current.
  destruct (decide (d < num_gpus s)) as [Hlt|Hge].
  - destruct (lookup_lt_is_Some_2 (view t s) (Z.to_nat d)) as [p Ep]; [lia|]. destruct (Hv _ _ Ep) as [Ho Hp]. rewrite Ep.
    rewrite (run_bind (check_gpu d) _ s1 tt s1).
    2: { unfold check_gpu, AT_ASSERT. rewrite run_get, (proj2 (andb_true_iff _ _)); [done|]. rewrite Z.leb_le, Z.ltb_lt. lia. }
    rewrite (run_bind _ _ s1 (view t s) s1) by (unfold current_array; by rewrite run_get, Ev).
    rewrite (run_bind _ _ s1 p s1).
    2: { unfold lift. f_equal. apply vec_get_Ok. done. }
    unfold from_internals. rewrite from_internals_present; [done|done|]. unfold present. by rewrite Hc.
  - rewrite lookup_ge_None_2 by lia. rewrite (run_bind_throw (check_gpu d) _ s1 (C10Error "assertion failed") s1); [done|].
    unfold check_gpu, AT_ASSERT. rewrite run_get, (proj2 (andb_false_iff _ _)); [done|]. right. apply Z.ltb_ge. lia.
Qed.

Lemma run_set t p s : streams_inv s → init_flag s = true → present p s → ∃ s',
  setCurrentCUDAStream t (stream_of p) s = (Ok tt, s') ∧ init_flag s' = true ∧
  view t s' = <[Z.to_nat (owner p) := p]> (view t s) ∧ ∀ u, u ≠ t → view u s' = view u s.
Proof.
  intros Hi Hf Hp. destruct (ready_thread t s Hi Hf) as (s1 & E & Hi1 & Hf1 & Hn & Hc & Ev & Hv).
  assert (Hp1 : present p s1) by (unfold present; by rewrite Hc).
  destruct (view_ok t s Hi Hf) as [Hl _]. destruct Hp as [x Ex]. destruct (si_cells s Hi p x Ex) as (Hok & _ & Hlt).
  exists (with_view t (<[Z.to_nat (owner p) := p]> (view t s)) s1).
  unfold setCurrentCUDAStream. rewrite (run_bind _ _ _ _ _ E), (run_bind _ _ s1 p s1).
  2: { unfold lift. by rewrite internals_stream_of. }
  rewrite (run_bind _ _ s1 (owner p) s1) by (unfold gets; by rewrite read_present).
  rewrite (run_bind _ _ s1 (view t s) s1) by (unfold current_array; by rewrite run_get, Ev).
  rewrite (run_bind _ _ s1 (<[Z.to_nat (owner p) := p]> (view t s)) s1).
  2: { unfold lift, vec_set. by rewrite decide_True by (destruct Hok; lia). }
  split; [done|]. split; [done|]. unfold view, with_view. cbn. rewrite lookup_insert_eq. split; [done|].
  intros u Hu. rewrite lookup_insert_ne by done. apply Hv.
Qed.

Lemma default_lemma t d s : streams_inv s → wp (getDefaultCUDAStream t d) (λ _, streams_inv) always s.
Proof.
  intros Hi. apply wp_bind. eapply wp_mono; [by apply init_lemma|]. intros [] s1 (Hi1 & Hf1 & Ht1).
  apply wp_bind, wp_resolve; [done|]. intros d' w _. apply wp_bind, wp_check_gpu; [|by apply inv_set_world].
  intros _. unfold wp, from_internals. by case_match; apply inv_set_world.
Qed.

Lemma current_lemma t d s : streams_inv s → wp (getCurrentCUDAStream t d) (λ _, streams_inv) always s.
Proof.
  intros Hi. apply wp_bind. eapply wp_mono; [by apply init_lemma|]. intros [] s1 (Hi1 & Hf1 & [v Ht1]).
  apply wp_bind, wp_resolve; [done|]. intros d' w _. apply wp_bind, wp_check_gpu; [|by apply inv_set_world].
  intros _. apply wp_bind, wp_bind, wp_get. cbn. rewrite Ht1. apply wp_ret, wp_bind, wp_lift.
  case_match; [|by apply inv_set_world]. unfold wp, from_internals. by case_match; apply inv_set_world.
Qed.

Lemma set_lemma t st s : streams_inv s → wp (setCurrentCUDAStream t st) (λ _, streams_inv) always s.
Proof.
  intros Hi. apply wp_bind. eapply wp_mono; [by apply init_lemma|]. intros [] s1 (Hi1 & Hf1 & [v Ht1]).
  apply wp_bind, wp_lift. destruct (CUDAStream_internals st) as [p|e]; [|done].
  apply wp_bind, wp_gets, wp_bind, wp_bind, wp_get. rewrite Ht1. apply wp_ret, wp_bind, wp_lift.
  destruct (vec_set v _ p) as [v'|e] eqn:E; [|done]. apply wp_modify.
  unfold vec_set in E. case_decide as Hd; [|done]. apply Ok_inj in E as <-.
  assert (Hp : present p s1).
  { unfold present. destruct (internals s1 !! p) eqn:Ep; [done|]. exfalso. unfold read in Hd. rewrite Ep in Hd. cbn in Hd. lia. }
  rewrite (read_present p s1) in * by done. destruct (si_threads s1 Hi1 t v Ht1) as (_ & Hl & Hv).
  apply (inv_with_view t); [done..|by rewrite length_insert|].
  intros i q. intros [(<- & <- & _)|[_ Eq]]%list_lookup_insert_Some; [split; [lia|done]|by apply Hv].
Qed.

(** ** Runs *)
Inductive stream_call : Type :=
  | FromPool (high : bool) (d : Z)
  | Default (d : Z)
  | Current (d : Z)
  | SetCurrent (st : Stream.Stream).

Definition run_stream (t : nat) (o : stream_call) : SE (Streams W) (option Stream.Stream) :=
  match o with
  | FromPool high d => st ← getStreamFromPool t high d; mret (Some st)
  | Default d => st ← getDefaultCUDAStream t d; mret (Some st)
  | Current d => st ← getCurrentCUDAStream t d; mret (Some st)
  | SetCurrent st => setCurrentCUDAStream t st;; mret None
  end.

Inductive streams_reachable : Streams W → Prop :=
  | streams_start w : streams_reachable (startup w)
  | streams_step s t o r s' : streams_reachable s → run_stream t o s = (r, s') → streams_reachable s'.

Lemma streams_reachable_inv s : streams_reachable s → streams_inv s.
Proof.
  induction 1 as [w|s t o r s' _ IH E]; [apply streams_startup|].
  assert (wp (run_stream t o) (λ _, streams_inv) always s) as Hw.
  { destruct o as [high d|d|d|st]; cbn [run_stream]; apply wp_bind.
    - eapply wp_mono; [by apply pool_lemma|]. by intros st s1 (? & _).
    - eapply wp_mono; [by apply default_lemma|]. done.
    - eapply wp_mono; [by apply current_lemma|]. done.
    - eapply wp_mono; [by apply set_lemma|]. done. }
  unfold wp in Hw. rewrite E in Hw. by destruct r.
Qed.

(** What a first request that returned leaves behind. *)
Lemma pool_served t high d s st s' : streams_inv s → d ≠ -1 →
  getStreamFromPool t high d s = (Ok st, s') → streams_inv s' ∧ served t d s'.
Proof.
  intros Hi Hd E. pose proof (pool_lemma t high d s Hi) as Hw. unfold wp in Hw. rewrite E in Hw.
  destruct Hw as (Hi' & Hs & Hst). by rewrite Hst in Hs.
Qed.

(** ** Many requests *)
Fixpoint take_streams (n : nat) (t : nat) (high : bool) (d : Z) : SE (Streams W) (list Stream.Stream) :=
  match n with
  | O => mret []
  | S n => st ← getStreamFromPool t high d; l ← take_streams n t high d; mret (st :: l)
  end.

(** The pool index [n] requests after the counter was [c]; the wrap of the counter
    at 2^32 does not break the turn. *)
Lemma next_index c n : 0 ≤ n → next_counter c `mod` kStreamsPerPool = (c + 1) `mod` kStreamsPerPool ∧
  (next_counter c + n) `mod` kStreamsPerPool = (c + (n + 1)) `mod` kStreamsPerPool.
Proof.
  intros Hn. unfold next_counter, wrapU. change kStreamsPerPool with 32.
  assert (∀ k, ((c + 1) `mod` 2 ^ 32 + k) `mod` 32 = (c + 1 + k) `mod` 32) as H0.
  { intros k. generalize (c + 1). intros x. Z.div_mod_to_equations. lia. }
  split; [specialize (H0 0); by rewrite !Z.add_0_r in H0|]. rewrite H0. f_equal. lia.
Qed.

Lemma run_take_streams n t high d s : streams_inv s → served t d s → ∃ s',
  take_streams n t high d s =
    (Ok ((λ i, stream_of (pool_cell high d ((counter high d s + i) `mod` kStreamsPerPool))) <$> seqZ 0 (Z.of_nat n)), s').
Proof.
  revert s. induction n as [|n IH]; intros s Hi Hs; [by exists s|]. cbn [take_streams].
  rewrite (run_bind _ _ _ _ _ (run_pool t high d s Hi Hs)).
  destruct (IH (bump high d s)) as (s' & E); [by apply inv_bump|by apply served_bump|]. exists s'.
  rewrite (run_bind _ _ _ _ _ E). unfold mret, SE_ret. f_equal. f_equal.
  rewrite Nat2Z.inj_succ, (seqZ_cons 0 (Z.succ (Z.of_nat n))) by lia. cbn [fmap list_fmap]. rewrite Z.add_0_r. f_equal.
  rewrite Z.pred_succ, <- (fmap_add_seqZ 1 0), <- list_fmap_compose.
  apply list_fmap_ext. intros i x Ex. apply lookup_seqZ in Ex as [-> ?]. cbn.
  rewrite counter_bump. do 2 f_equal. etransitivity; [apply next_index; lia|f_equal; lia].
Qed.
End Spec.
