(* ===== verification/CudaStreamProperties.v ===== *)
(** * The properties of the stream pools

    Stated in every state that a program reaches by calls on any threads; the CUDA
    calls may fail and the calls of the pools may throw. *)
From S2P Require Import Prelude CoreTypes CudaRuntime CudaStream CudaStreamSpec.
Local Open Scope Z_scope.
Import CudaStream.

Section Properties.
Context {W : Type} `{CudaRuntime W}.
Implicit Types (s : Streams W) (p : internals_ptr).

(** The handles of the streams are faithful: the stream made of an internals
    pointer leads back to that pointer, so that different pointers have different
    streams. *)
Theorem stream_handle_roundtrip s p st : streams_reachable s →
  CUDAStream_fromInternals p s = Ok st →
  CUDAStream_internals st = Ok p ∧ Stream.device_type st = DeviceType.CUDA ∧
  Stream.device_index st = device_index (read p s) ∧
  ∀ q, CUDAStream_fromInternals q s = Ok st → q = p.
Proof.
  intros Hs E. pose proof (streams_reachable_inv s Hs) as Hi.
  destruct (from_internals_Ok p st s Hi E) as [Hp ->]. pose proof (present_ok p s Hi Hp) as Hok.
  split; [by apply internals_stream_of|]. split; [done|]. split; [by rewrite read_present|].
  intros q Eq. destruct (from_internals_Ok q _ s Hi Eq) as [Hq E2].
  symmetry. apply stream_of_inj; [done|by eapply present_ok|done].
Qed.

(** The pools are served in turn: once a request on a device has returned, every
    later one on that thread and device returns, and two of a run of requests get
    the same stream exactly when their distance is a multiple of the pool's 32
    streams, also across the overflow of the 32-bit counter. *)
Theorem pool_round_robin s t high d st s1 n : streams_reachable s → d ≠ -1 →
  getStreamFromPool t high d s = (Ok st, s1) →
  ∃ l s2, take_streams n t high d s1 = (Ok l, s2) ∧ length l = n ∧
    (∀ x, x ∈ l → Stream.device_index x = d) ∧
    ∀ i j x y, l !! i = Some x → l !! j = Some y →
      (x = y ↔ Z.of_nat i `mod` 32 = Z.of_nat j `mod` 32).
Proof.
  intros Hs Hd E. destruct (pool_served t high d s st s1 (streams_reachable_inv s Hs) Hd E) as [Hi Hsv].
  destruct (run_take_streams n t high d s1 Hi Hsv) as (s2 & El). eexists _, s2. split; [exact El|].
  split; [by rewrite length_fmap, length_seqZ, Nat2Z.id|]. split.
  { intros x (i & -> & _)%list_elem_of_fmap. by destruct high. }
  assert (Hok : ∀ c, ptr_ok (pool_cell high d (c `mod` kStreamsPerPool))).
  { intros c. pose proof (pool_index c) as Hc. destruct (si_pools s1 Hi d _ (served_pools _ _ _ Hsv) Hc).
    destruct high; by eapply present_ok. }
  intros i j x y. rewrite !list_lookup_fmap.
  intros (a & [-> _]%lookup_seqZ & ->)%fmap_Some (b & [-> _]%lookup_seqZ & ->)%fmap_Some. rewrite !Z.add_0_l.
  change kStreamsPerPool with 32 in *. set (c := counter high d s1). split.
  - intros Ex%stream_of_inj; [|apply Hok..].
    assert ((c + Z.of_nat i) `mod` 32 = (c + Z.of_nat j) `mod` 32) as Em by (destruct high; by injection Ex).
    Z.div_mod_to_equations. lia.
  - intros Em. do 2 f_equal. Z.div_mod_to_equations. lia.
Qed.

(** The current stream is kept per thread and per device: after a thread has set
    a stream, that thread reads it back on the stream's device; on its other
    devices, and on the other threads, nothing has changed.  Setting a stream the
    pools have issued always returns. *)
Theorem current_stream_set_get s t st p : streams_reachable s → init_flag s = true →
  CUDAStream_fromInternals p s = Ok st →
  ∃ s', setCurrentCUDAStream t st s = (Ok tt, s') ∧
    ∀ u d, 0 ≤ d → (getCurrentCUDAStream u d s').1 =
      if decide (u = t ∧ d = Stream.device_index st) then Ok st else (getCurrentCUDAStream u d s).1.
Proof.
  intros Hs Hf E. pose proof (streams_reachable_inv s Hs) as Hi.
  destruct (from_internals_Ok p st s Hi E) as [Hp ->]. destruct (present_ok p s Hi Hp) as [[Ho _] _].
  destruct (run_set t p s Hi Hf Hp) as (s' & Er & Hf' & Hv & Hu). exists s'. split; [done|]. intros u d Hd.
  pose proof (set_lemma t (stream_of p) s Hi) as Hi'. unfold wp in Hi'. rewrite Er in Hi'.
  rewrite !run_current by done. unfold current. change (Stream.device_index (stream_of p)) with (owner p).
  destruct (decide (u = t ∧ d = owner p)) as [[-> ->]|Hne].
  - destruct (view_ok t s Hi Hf) as [Hl _]. destruct Hp as [x Ex]. destruct (si_cells s Hi p x Ex) as (_ & _ & Hlt).
    by rewrite Hv, list_lookup_insert_eq by lia.
  - destruct (decide (u = t)) as [->|Hn]; [|by rewrite Hu].
    rewrite Hv, list_lookup_insert_ne; [done|]. intros Eq. apply Hne. split; [done|lia].
Qed.
End Properties.

(** ** Runs on a machine *)
Module StreamSamples.
Definition start : Streams Toy.Machine := startup (Toy.machine 0 []).
Definition first : outcome Stream.Stream * Streams Toy.Machine := getStreamFromPool 0 false 1 start.
Definition after : Streams Toy.Machine := first.2.
Definition issued : Stream.Stream := Stream.mkStream (Device.mkDevice DeviceType.CUDA 1) 32.

Lemma first_eq : getStreamFromPool 0 false 1 start = (Ok issued, after).
Proof.
  assert (first.1 = Ok issued) as E by (vm_compute; reflexivity). unfold after. rewrite <- E. unfold first. apply surjective_pairing.
Qed.

Lemma pool_reachable : streams_reachable after.
Proof.
  apply (streams_step start 0 (FromPool false 1) (Ok (Some issued)) after); [apply streams_start|].
  cbn [run_stream]. by rewrite (run_bind _ _ start issued after first_eq).
Qed.
End StreamSamples.

Lemma stream_handle_roundtrip_witness :
  CUDAStream_fromInternals (LowStream 1 0) StreamSamples.after = Ok StreamSamples.issued ∧
  CUDAStream_internals StreamSamples.issued = Ok (LowStream 1 0).
Proof.
  assert (CUDAStream_fromInternals (LowStream 1 0) StreamSamples.after = Ok StreamSamples.issued) as E by by vm_compute.
  split; [exact E|].
  apply (stream_handle_roundtrip StreamSamples.after (LowStream 1 0) _ StreamSamples.pool_reachable E).
Defined.

Lemma pool_round_robin_witness : ∃ l s2, take_streams 100 0 false 1 StreamSamples.after = (Ok l, s2) ∧ length l = 100%nat ∧
  (∀ x, x ∈ l → Stream.device_index x = 1) ∧
  ∀ i j x y, l !! i = Some x → l !! j = Some y → (x = y ↔ Z.of_nat i `mod` 32 = Z.of_nat j `mod` 32).
Proof.
  apply (pool_round_robin StreamSamples.start 0 false 1 StreamSamples.issued StreamSamples.after 100);
    [apply streams_start|done|apply StreamSamples.first_eq].
Defined.

Lemma current_stream_set_get_witness :
  ∃ s', setCurrentCUDAStream 3 StreamSamples.issued StreamSamples.after = (Ok tt, s') ∧
    ∀ u d, 0 ≤ d → (getCurrentCUDAStream u d s').1 =
      if decide (u = 3%nat ∧ d = 1) then Ok StreamSamples.issued else (getCurrentCUDAStream u d StreamSamples.after).1.
Proof.
  apply (current_stream_set_get StreamSamples.after 3 StreamSamples.issued (LowStream 1 0) StreamSamples.pool_reachable);
    by vm_compute.
Defined.
