(* ===== verification/CudaAllocator.v ===== *)
(** * The caching allocator (c10/cuda/CUDACachingAllocator.cpp)

    The allocator keeps the segments it got from cudaMalloc as chains of blocks.
    A [Block*] is a key of the store [heap]; a key that is not in the store is a
    deleted block, and to read through it is undefined behaviour.  A [BlockPool] is
    a [std::set] ordered by [BlockComparator], the list of its elements in order.
    All state is in [Allocator], the CUDA runtime and the streams included. *)
From S2P Require Import Prelude CoreTypes CudaRuntime CudaStream.
Local Open Scope Z_scope.

Module CudaAllocator.
Import CUDAFunctions.

(** ** Sizes *)
Definition kMinBlockSize : Z := 512.
Definition kSmallSize : Z := 1048576.
Definition kSmallBuffer : Z := 2097152.
Definition kLargeBuffer : Z := 20971520.
Definition kMinLargeAlloc : Z := 10485760.
Definition kRoundLarge : Z := 2097152.

(** [size_t] arithmetic. *)
Definition size_t (z : Z) : Z := wrapU 64 z.

Definition round_size (size : Z) : Z :=
  if size <? kMinBlockSize then kMinBlockSize
  else size_t (kMinBlockSize * (size_t (size + kMinBlockSize - 1) / kMinBlockSize)).

Definition get_allocation_size (size : Z) : Z :=
  if size <=? kSmallSize then kSmallBuffer
  else if size <? kMinLargeAlloc then kLargeBuffer
  else size_t (kRoundLarge * (size_t (size + kRoundLarge - 1) / kRoundLarge)).

Inductive BlockPool : Type := large_blocks | small_blocks.

#[export] Instance BlockPool_eq_dec : EqDecision BlockPool.
Proof. solve_decision. Defined.

Definition get_pool (size : Z) : BlockPool :=
  if size <=? kSmallSize then small_blocks else large_blocks.

(** ** Statistics *)
Record DeviceStats : Type := mkStats {
  amount_allocated : Z;
  max_amount_allocated : Z;
  amount_cached : Z;
  max_amount_cached : Z
}.
Definition empty_stats : DeviceStats := mkStats 0 0 0 0.

Definition increaseAllocated (delta : Z) (s : DeviceStats) : DeviceStats :=
  let a := size_t (amount_allocated s + delta) in
  mkStats a (Z.max (max_amount_allocated s) a) (amount_cached s) (max_amount_cached s).
Definition decreaseAllocated (delta : Z) (s : DeviceStats) : DeviceStats :=
  mkStats (size_t (amount_allocated s - delta)) (max_amount_allocated s) (amount_cached s) (max_amount_cached s).
Definition increaseCached (delta : Z) (s : DeviceStats) : DeviceStats :=
  let c := size_t (amount_cached s + delta) in
  mkStats (amount_allocated s) (max_amount_allocated s) c (Z.max (max_amount_cached s) c).
Definition decreaseCached (delta : Z) (s : DeviceStats) : DeviceStats :=
  mkStats (amount_allocated s) (max_amount_allocated s) (size_t (amount_cached s - delta)) (max_amount_cached s).

(** ** Blocks *)
Definition block_ptr : Type := positive.

(** [event_count] is an [int] in the code and an unbounded integer here: [free] sets it to the
    number of streams in [stream_uses], a set of the few streams there are, and nothing adds to it
    until it is back at 0, so that it does not come near 2^31. *)
Record Block : Type := mkBlock {
  device : Z;
  stream : Z;
  stream_uses : list Stream.Stream;
  size : Z;
  pool : option BlockPool;
  ptr : Z;
  allocated : bool;
  prev : option block_ptr;
  next : option block_ptr;
  event_count : Z
}.

(** The two constructors. *)
Definition new_Block (device stream size : Z) (pool : BlockPool) (ptr : Z) : Block :=
  mkBlock device stream [] size (Some pool) ptr false None None 0.
Definition search_key (device stream size : Z) : Block :=
  mkBlock device stream [] size None 0 false None None 0.

Definition set_stream_uses u B := mkBlock (device B) (stream B) u (size B) (pool B) (ptr B) (allocated B) (prev B) (next B) (event_count B).
Definition set_size n B := mkBlock (device B) (stream B) (stream_uses B) n (pool B) (ptr B) (allocated B) (prev B) (next B) (event_count B).
Definition set_ptr p B := mkBlock (device B) (stream B) (stream_uses B) (size B) (pool B) p (allocated B) (prev B) (next B) (event_count B).
Definition set_allocated a B := mkBlock (device B) (stream B) (stream_uses B) (size B) (pool B) (ptr B) a (prev B) (next B) (event_count B).
Definition set_prev p B := mkBlock (device B) (stream B) (stream_uses B) (size B) (pool B) (ptr B) (allocated B) p (next B) (event_count B).
Definition set_next n B := mkBlock (device B) (stream B) (stream_uses B) (size B) (pool B) (ptr B) (allocated B) (prev B) n (event_count B).
Definition set_event_count c B := mkBlock (device B) (stream B) (stream_uses B) (size B) (pool B) (ptr B) (allocated B) (prev B) (next B) c.

Definition BlockComparator (a b : Block) : bool :=
  if decide (device a ≠ device b) then device a <? device b
  else if decide (stream a ≠ stream b) then stream a <? stream b
  else if decide (size a ≠ size b) then size a <? size b
  else ptr a <? ptr b.

(** ** The state *)
Section Allocator.
Context {W : Type} `{CudaRuntime W}.

Record Allocator : Type := mkAllocator {
  device_stats : list DeviceStats;
  large_set : list block_ptr;
  small_set : list block_ptr;
  allocated_blocks : gmap Z block_ptr;
  cuda_events : list (Z * block_ptr);
  heap : gmap block_ptr Block;
  next_block : block_ptr;
  cuda : CudaStream.Streams W
}.

Definition set_device_stats x s := mkAllocator x (large_set s) (small_set s) (allocated_blocks s) (cuda_events s) (heap s) (next_block s) (cuda s).
Definition set_allocated_blocks x s := mkAllocator (device_stats s) (large_set s) (small_set s) x (cuda_events s) (heap s) (next_block s) (cuda s).
Definition set_cuda_events x s := mkAllocator (device_stats s) (large_set s) (small_set s) (allocated_blocks s) x (heap s) (next_block s) (cuda s).
Definition set_heap x s := mkAllocator (device_stats s) (large_set s) (small_set s) (allocated_blocks s) (cuda_events s) x (next_block s) (cuda s).
Definition set_next_block x s := mkAllocator (device_stats s) (large_set s) (small_set s) (allocated_blocks s) (cuda_events s) (heap s) x (cuda s).
Definition set_cuda x s := mkAllocator (device_stats s) (large_set s) (small_set s) (allocated_blocks s) (cuda_events s) (heap s) (next_block s) x.

Definition get_set (P : BlockPool) (s : Allocator) : list block_ptr :=
  match P with large_blocks => large_set s | small_blocks => small_set s end.
Definition put_set (P : BlockPool) (x : list block_ptr) (s : Allocator) : Allocator :=
  match P with
  | large_blocks => mkAllocator (device_stats s) x (small_set s) (allocated_blocks s) (cuda_events s) (heap s) (next_block s) (cuda s)
  | small_blocks => mkAllocator (device_stats s) (large_set s) x (allocated_blocks s) (cuda_events s) (heap s) (next_block s) (cuda s)
  end.

(** The allocator of a process that starts. *)
Definition startup (w : W) : Allocator := mkAllocator [] [] [] ∅ [] ∅ 1%positive (CudaStream.startup w).

Definition world (s : Allocator) : W := CudaStream.world (cuda s).
Definition on_streams {X} (m : SE (CudaStream.Streams W) X) : SE Allocator X := zoom cuda set_cuda m.
Definition on_world {X} (m : SE W X) : SE Allocator X := on_streams (CudaStream.on_world m).

(** *** Memory *)
Definition deref_in (h : gmap block_ptr Block) (b : block_ptr) : outcome Block :=
  match h !! b with Some B => Ok B | None => Throw (Undefined "dangling Block pointer") end.
Definition deref (b : block_ptr) : SE Allocator Block := λ s, (deref_in (heap s) b, s).
Definition update (b : block_ptr) (f : Block → Block) : SE Allocator unit :=
  B ← deref b; modify (λ s, set_heap (<[b := f B]> (heap s)) s).
Definition new (B : Block) : SE Allocator block_ptr := λ s,
  (Ok (next_block s), set_next_block (Pos.succ (next_block s)) (set_heap (<[next_block s := B]> (heap s)) s)).
Definition delete_block (b : block_ptr) : SE Allocator unit :=
  deref b;; modify (λ s, set_heap (delete b (heap s)) s).

(** *** [std::set] *)
Fixpoint lower_bound (h : gmap block_ptr Block) (key : Block) (xs : list block_ptr) : outcome (list block_ptr) :=
  match xs with
  | [] => Ok []
  | x :: r => X ← deref_in h x; if BlockComparator X key then lower_bound h key r else Ok xs
  end.
Fixpoint set_insert (h : gmap block_ptr Block) (x : block_ptr) (X : Block) (xs : list block_ptr) : outcome (list block_ptr) :=
  match xs with
  | [] => Ok [x]
  | y :: r =>
      Y ← deref_in h y;
      if BlockComparator Y X then r' ← set_insert h x X r; Ok (y :: r')
      else if BlockComparator X Y then Ok (x :: xs)
      else Ok xs
  end.
Fixpoint set_erase (h : gmap block_ptr Block) (X : Block) (xs : list block_ptr) : outcome (list block_ptr) :=
  match xs with
  | [] => Ok []
  | y :: r =>
      Y ← deref_in h y;
      if BlockComparator Y X then r' ← set_erase h X r; Ok (y :: r')
      else if BlockComparator X Y then Ok xs
      else Ok r
  end.

Definition pool_insert (P : BlockPool) (b : block_ptr) : SE Allocator unit :=
  s ← get;
  B ← lift (deref_in (heap s) b);
  xs ← lift (set_insert (heap s) b B (get_set P s));
  put (put_set P xs s).
Definition pool_erase (P : BlockPool) (b : block_ptr) : SE Allocator unit :=
  s ← get;
  B ← lift (deref_in (heap s) b);
  xs ← lift (set_erase (heap s) B (get_set P s));
  put (put_set P xs s).
(** [erase] of an iterator. *)
Definition pool_erase_at (P : BlockPool) (b : block_ptr) : SE Allocator unit :=
  modify (λ s, put_set P (filter (λ x, x ≠ b) (get_set P s)) s).
Definition pool_lower_bound (P : BlockPool) (key : Block) : SE Allocator (list block_ptr) :=
  s ← get; lift (lower_bound (heap s) key (get_set P s)).

(** *** Statistics of a device *)

(** A [DeviceStats&] points into the vector: it dangles once the vector grows. *)
Definition stats_ref : Type := nat * nat.

Definition get_stats_for_device (device : Z) : SE Allocator stats_ref :=
  AT_ASSERT (0 <=? device);;
  s ← get;
  let n := length (device_stats s) in
  let d := Z.to_nat device in
  if (n <=? d)%nat
  then put (set_device_stats (device_stats s ++ replicate (S d - n) empty_stats) s);; mret (d, S d)
  else mret (d, n).

Definition update_stats (r : stats_ref) (f : DeviceStats → DeviceStats) : SE Allocator unit :=
  s ← get;
  if decide (length (device_stats s) = r.2)
  then match device_stats s !! r.1 with
       | Some st => put (set_device_stats (<[r.1 := f st]> (device_stats s)) s)
       | None => mthrow (Undefined "dangling DeviceStats reference")
       end
  else mthrow (Undefined "dangling DeviceStats reference").

(** ** Freeing *)
Definition try_merge_blocks (dst : block_ptr) (src : option block_ptr) (P : BlockPool) : SE Allocator unit :=
  match src with
  | None => mret tt
  | Some src =>
      S ← deref src;
      if allocated S || (0 <? event_count S) then mret tt
      else
        D ← deref dst;
        (if decide (prev D = Some src) then
           update dst (set_ptr (ptr S));;
           update dst (set_prev (prev S));;
           match prev S with Some p => update p (set_next (Some dst)) | None => mret tt end
         else
           update dst (set_next (next S));;
           match next S with Some n => update n (set_prev (Some dst)) | None => mret tt end);;
        D ← deref dst;
        S ← deref src;
        update dst (set_size (size_t (size D + size S)));;
        pool_erase P src;;
        delete_block src
  end.

Definition pool_of (B : Block) : SE Allocator BlockPool :=
  match pool B with Some P => mret P | None => mthrow (Undefined "null BlockPool") end.

Definition free_block (block : block_ptr) : SE Allocator unit :=
  B ← deref block;
  AT_ASSERT (negb (allocated B) && (event_count B =? 0));;
  P ← pool_of B;
  try_merge_blocks block (prev B) P;;
  B ← deref block;
  try_merge_blocks block (next B) P;;
  pool_insert P block.

(** [cudaEventDestroy] and the countdown of the block's events, which
    [process_events] and [synchronize_and_free_events] share. *)
Definition finish_event (event : Z) (block : block_ptr) : SE Allocator unit :=
  on_world (C10_CUDA_CHECK (cudaEventDestroy event));;
  B ← deref block;
  update block (set_event_count (event_count B - 1));;
  B ← deref block;
  if event_count B =? 0 then free_block block else mret tt.

(** The loop of [process_events] ends: each iteration but the last pops an event. *)
Fixpoint process_events_loop (fuel : nat) : SE Allocator unit :=
  s ← get;
  match cuda_events s with
  | [] => mret tt
  | (event, block) :: _ =>
      match fuel with
      | O => mthrow (Undefined "out of fuel")
      | S fuel =>
          r ← on_world (call (cudaEventQuery event));
          if decide (r.1 = cudaErrorNotReady) then on_world (call cudaGetLastError);; mret tt
          else
            on_world (check_error r.1);;
            finish_event event block;;
            modify (λ s, set_cuda_events (tail (cuda_events s)) s);;
            process_events_loop fuel
      end
  end.
Definition process_events : SE Allocator unit :=
  s ← get; process_events_loop (length (cuda_events s)).

Fixpoint synchronize_loop (device_ : option Z) (events remaining_events : list (Z * block_ptr)) :
    SE Allocator (list (Z * block_ptr)) :=
  match events with
  | [] => mret remaining_events
  | (event, block) :: events =>
      skip ← (match device_ with
              | Some d => B ← deref block; mret (negb (device B =? d))
              | None => mret false
              end);
      if skip : bool then synchronize_loop device_ events (remaining_events ++ [(event, block)])
      else
        on_world (C10_CUDA_CHECK (cudaEventSynchronize event));;
        finish_event event block;;
        synchronize_loop device_ events remaining_events
  end.
Definition synchronize_and_free_events (device : option Z) : SE Allocator unit :=
  s ← get;
  remaining_events ← synchronize_loop device (cuda_events s) [];
  modify (set_cuda_events remaining_events).

(** [free_blocks]: [range] are the elements between the two iterators. *)
Definition free_blocks (P : BlockPool) (range : list block_ptr) : SE Allocator unit :=
  foreach range (λ block,
    B ← deref block;
    match prev B, next B with
    | None, None =>
        on_world (C10_CUDA_CHECK (cudaFree (ptr B)));;
        r ← get_stats_for_device (device B);
        update_stats r (decreaseCached (size B));;
        pool_erase_at P block;;
        delete_block block
    | _, _ => mret tt
    end).

(** The elements of [pool] between two lower bounds. *)
Definition range_between (P : BlockPool) (lo hi : Block) : SE Allocator (list block_ptr) :=
  first ← pool_lower_bound P lo;
  last ← pool_lower_bound P hi;
  mret (take (length first - length last) first).

Definition free_cached_blocks (device : Z) : SE Allocator unit :=
  synchronize_and_free_events (Some device);;
  let lo := search_key device 0 0 in
  let hi := search_key (device + 1) 0 0 in
  r ← range_between large_blocks lo hi; free_blocks large_blocks r;;
  r ← range_between small_blocks lo hi; free_blocks small_blocks r.

Definition emptyCache : SE Allocator unit :=
  synchronize_and_free_events None;;
  s ← get; free_blocks large_blocks (large_set s);;
  s ← get; free_blocks small_blocks (small_set s).

Definition insert_event (block : block_ptr) (it : Stream.Stream) : SE Allocator unit :=
  on_world (C10_CUDA_CHECK (cudaSetDevice (Stream.device_index it)));;
  event ← on_world (C10_CUDA_CHECK (cudaEventCreateWithFlags 2));
  s ← get;
  stream ← lift (CudaStream.CUDAStream_stream it (cuda s));
  on_world (C10_CUDA_CHECK (cudaEventRecord event stream));;
  B ← deref block;
  update block (set_event_count (event_count B + 1));;
  modify (λ s, set_cuda_events (cuda_events s ++ [(event, block)]) s).

Definition insert_events (block : block_ptr) : SE Allocator unit :=
  prev_device ← on_world (C10_CUDA_CHECK cudaGetDevice);
  B ← deref block;
  update block (set_stream_uses []);;
  foreach (stream_uses B) (insert_event block);;
  on_world (C10_CUDA_CHECK (cudaSetDevice prev_device)).

Definition find_allocated_block (p : Z) : SE Allocator (option block_ptr) :=
  gets (λ s, allocated_blocks s !! p).

Definition free (p : Z) : SE Allocator unit :=
  if p =? 0 then mret tt
  else
    it ← find_allocated_block p;
    match it with
    | None => AT_ERROR "invalid device pointer"
    | Some block =>
        modify (λ s, set_allocated_blocks (delete p (allocated_blocks s)) s);;
        update block (set_allocated false);;
        B ← deref block;
        r ← get_stats_for_device (device B);
        update_stats r (decreaseAllocated (size B));;
        match stream_uses B with
        | [] => free_block block
        | _ => insert_events block
        end
    end.

(** ** Allocating *)
Definition should_split (block : block_ptr) (size_ : Z) : SE Allocator bool :=
  B ← deref block;
  let remaining := size_t (size B - size_) in
  match pool B with
  | Some small_blocks => mret (kMinBlockSize <=? remaining)
  | Some large_blocks => mret (kSmallSize <? remaining)
  | None => AT_ERROR "should_split: invalid pool"
  end.

Definition find_free_block (device_ stream_ size_ : Z) (P : BlockPool) : SE Allocator (option block_ptr) :=
  it ← pool_lower_bound P (search_key device_ stream_ size_);
  match it with
  | [] => mret None
  | block :: _ =>
      B ← deref block;
      if (device B =? device_) && (stream B =? stream_)
      then pool_erase_at P block;; mret (Some block)
      else mret None
  end.

(** [cuda_malloc_retry]: the code and the pointer of the last attempt. *)
Definition cuda_malloc_retry (device size_ : Z) : SE Allocator (cudaError_t * Z) :=
  r ← on_world (call (cudaMalloc size_));
  if decide (r.1 = cudaSuccess) then mret r
  else
    on_world (call cudaGetLastError);;
    free_cached_blocks device;;
    on_world (call (cudaMalloc size_)).

(** The split of a block that is not in its pool: the front part of [size_] bytes,
    a new block; the back part goes into the pool. *)
Definition split_block (remaining : block_ptr) (size_ device_ stream_ : Z) (P : BlockPool) : SE Allocator block_ptr :=
  R ← deref remaining;
  block ← new (new_Block device_ stream_ size_ P (ptr R));
  update block (set_prev (prev R));;
  (match prev R with Some p => update p (set_next (Some block)) | None => mret tt end);;
  update block (set_next (Some remaining));;
  update remaining (set_prev (Some block));;
  R ← deref remaining;
  update remaining (set_ptr (ptr R + size_));;
  R ← deref remaining;
  update remaining (set_size (size_t (size R - size_)));;
  pool_insert P remaining;;
  mret block.

Definition out_of_memory (device_ : Z) : SE Allocator block_ptr :=
  on_world (call cudaGetLastError);;
  on_world (C10_CUDA_CHECK cudaMemGetInfo);;
  get_stats_for_device device_;;
  AT_ERROR "CUDA out of memory.".

(** The callbacks of [FreeCudaMemoryCallbacksRegistry]: libraries register them
    to release memory they hold. *)
Context (callbacks : list (SE Allocator bool)).

Fixpoint run_callbacks (cs : list (SE Allocator bool)) (freed_memory : bool) : SE Allocator bool :=
  match cs with
  | [] => mret freed_memory
  | c :: cs => b ← c; run_callbacks cs (freed_memory || b)
  end.

Definition malloc (size_ stream_ : Z) : SE Allocator Z :=
  device_ ← on_world (C10_CUDA_CHECK cudaGetDevice);
  process_events;;
  let size_ := round_size size_ in
  stats ← get_stats_for_device device_;
  let P := get_pool size_ in
  block ← find_free_block device_ stream_ size_ P;
  block ← (match block with
           | Some b => mret (Some b)
           | None =>
               freed_memory ← run_callbacks callbacks false;
               if freed_memory : bool then find_free_block device_ stream_ size_ P else mret None
           end);
  block ← (match block with
           | Some b => mret b
           | None =>
               let alloc_size := get_allocation_size size_ in
               r ← cuda_malloc_retry device_ alloc_size;
               if decide (r.1 = cudaErrorMemoryAllocation) then out_of_memory device_
               else
                 on_world (check_error r.1);;
                 update_stats stats (increaseCached alloc_size);;
                 new (new_Block device_ stream_ alloc_size P r.2)
           end);
  split ← should_split block size_;
  block ← (if split : bool then split_block block size_ device_ stream_ P else mret block);
  update block (set_allocated true);;
  B ← deref block;
  modify (λ s, set_allocated_blocks (<[ptr B := block]> (allocated_blocks s)) s);;
  update_stats stats (increaseAllocated (size B));;
  mret (ptr B).

(** ** Queries *)

(** The walks along a chain of blocks; [fuel] bounds the length of the chain. *)
Fixpoint first_of_chain (fuel : nat) (block : block_ptr) : SE Allocator block_ptr :=
  B ← deref block;
  match prev B with
  | None => mret block
  | Some p => match fuel with O => mthrow (Undefined "out of fuel") | S fuel => first_of_chain fuel p end
  end.
Fixpoint chain_size (fuel : nat) (block : option block_ptr) (size_ : Z) : SE Allocator Z :=
  match block with
  | None => mret size_
  | Some block =>
      match fuel with
      | O => mthrow (Undefined "out of fuel")
      | S fuel => B ← deref block; chain_size fuel (next B) (size_t (size_ + size B))
      end
  end.

(** The base pointer and [*outSize]. *)
Definition getBaseAllocation (p : Z) : SE Allocator (Z * Z) :=
  it ← find_allocated_block p;
  match it with
  | None => AT_ERROR "invalid device pointer: %p"
  | Some block =>
      s ← get;
      let fuel := base.size (heap s) in
      first ← first_of_chain fuel block;
      F ← deref first;
      outSize ← chain_size fuel (Some first) 0;
      mret (ptr F, outSize)
  end.

Fixpoint cacheInfoAux_loop (h : gmap block_ptr Block) (dev_id : Z) (it : list block_ptr) (total largest : Z) : outcome (Z * Z) :=
  match it with
  | [] => Ok (total, largest)
  | b :: it =>
      B ← deref_in h b;
      if device B =? dev_id
      then cacheInfoAux_loop h dev_id it (size_t (total + size B)) (if largest <? size B then size B else largest)
      else Ok (total, largest)
  end.
Definition cacheInfoAux (P : BlockPool) (dev_id : Z) (total largest : Z) : SE Allocator (Z * Z) :=
  it ← pool_lower_bound P (search_key dev_id 0 0);
  s ← get;
  lift (cacheInfoAux_loop (heap s) dev_id it total largest).
Definition cacheInfo (dev_id : Z) (total largest : Z) : SE Allocator (Z * Z) :=
  r ← cacheInfoAux large_blocks dev_id total largest;
  cacheInfoAux small_blocks dev_id r.1 r.2.

Definition recordStream (p : Z) (stream_ : Stream.Stream) : SE Allocator unit :=
  it ← find_allocated_block p;
  match it with
  | None => AT_ERROR "invalid device pointer: %p"
  | Some block =>
      s ← get;
      c ← lift (CudaStream.CUDAStream_stream stream_ (cuda s));
      B ← deref block;
      if c =? stream B then mret tt
      else update block (λ B, set_stream_uses
             (if decide (stream_ ∈ stream_uses B) then stream_uses B else stream_uses B ++ [stream_]) B)
  end.

(** ** The module's interface *)

(** [CudaCachingAllocator::allocate] on thread [self]: the data pointer, whose
    deleter is [free], and its device. *)
Definition allocate (self : nat) (size_ : Z) : SE Allocator (Z * Z) :=
  device ← on_world (C10_CUDA_CHECK cudaGetDevice);
  r ← (if size_ =? 0 then mret 0
       else
         st ← on_streams (CudaStream.getCurrentCUDAStream self (wrapS 16 device));
         s ← get;
         c ← lift (CudaStream.CUDAStream_stream st (cuda s));
         malloc size_ c);
  mret (r, device).

Definition raw_alloc (self : nat) (nbytes : Z) : SE Allocator Z :=
  if nbytes =? 0 then mret 0
  else
    device ← on_world (C10_CUDA_CHECK cudaGetDevice);
    st ← on_streams (CudaStream.getCurrentCUDAStream self (wrapS 16 device));
    s ← get;
    c ← lift (CudaStream.CUDAStream_stream st (cuda s));
    malloc nbytes c.

Definition assertValidDevice (device : Z) : SE Allocator unit :=
  device_num ← on_world device_count;
  AT_CHECK ((0 <=? device) && (device <? device_num)) "Invalid device argument.".

Definition read_stats (device : Z) : SE Allocator DeviceStats :=
  r ← get_stats_for_device device;
  s ← get;
  lift (vec_get (device_stats s) (Z.of_nat r.1)).

Definition currentMemoryAllocated (device : Z) : SE Allocator Z :=
  assertValidDevice device;; st ← read_stats device; mret (amount_allocated st).
Definition maxMemoryAllocated (device : Z) : SE Allocator Z :=
  assertValidDevice device;; st ← read_stats device; mret (max_amount_allocated st).
Definition resetMaxMemoryAllocated (device : Z) : SE Allocator unit :=
  assertValidDevice device;;
  r ← get_stats_for_device device;
  update_stats r (λ st, mkStats (amount_allocated st) (amount_allocated st) (amount_cached st) (max_amount_cached st)).
Definition currentMemoryCached (device : Z) : SE Allocator Z :=
  assertValidDevice device;; st ← read_stats device; mret (amount_cached st).
Definition maxMemoryCached (device : Z) : SE Allocator Z :=
  assertValidDevice device;; st ← read_stats device; mret (max_amount_cached st).
Definition resetMaxMemoryCached (device : Z) : SE Allocator unit :=
  assertValidDevice device;;
  r ← get_stats_for_device device;
  update_stats r (λ st, mkStats (amount_allocated st) (max_amount_allocated st) (amount_cached st) (amount_cached st)).
End Allocator.
Arguments Allocator : clear implicits.
End CudaAllocator.
