(* ===== verification/CudaHeap.v ===== *)
(** * The pools and the blocks of the caching allocator

    [BlockComparator] is a strict order whose ties are equal keys; on a pool that
    it sorts, [lower_bound], [insert] and [erase] of the [std::set] do what their
    names say.  The sizes [round_size] and [get_allocation_size] compute.

    The well-formedness of the blocks in memory: they do not overlap, each lies in
    a live cudaMalloc region, its neighbours in the chain are its neighbours in
    memory, and a block without a predecessor (successor) begins (ends) its region.
    Joining two neighbours and splitting a block keep it.  [total] adds up sizes. *)
From stdpp Require Import sorting.
From S2P Require Import Prelude CoreTypes CudaRuntime CudaStream CudaAllocator.
Local Open Scope Z_scope.
#[local] Set Warnings "-clear-no-such-hyp".
Import CudaAllocator.

(** ** Sizes *)
Lemma size_t_id z : 0 ≤ z < 2 ^ 64 → size_t z = z.
Proof. apply wrapU_id. Qed.

Lemma round_up_spec k n : 0 < k → 0 ≤ n → let r := k * ((n + k - 1) / k) in n ≤ r < n + k ∧ r mod k = 0.
Proof.
  intros Hk Hn r. subst r. split.
  - pose proof (Z.div_mod (n + k - 1) k ltac:(lia)). pose proof (Z.mod_pos_bound (n + k - 1) k ltac:(lia)). lia.
  - rewrite Z.mul_comm. apply Z_mod_mult.
Qed.

Lemma round_size_spec n : 0 ≤ n ≤ 2 ^ 64 - 512 →
  n ≤ round_size n ∧ 0 < round_size n ∧ round_size n < Z.max n 1 + 512 ∧ round_size n ≤ 2 ^ 64 - 512 ∧ round_size n mod 512 = 0.
Proof.
  intros Hn. unfold round_size, kMinBlockSize. destruct (Z.ltb_spec n 512); [repeat split; lia|].
  destruct (round_up_spec 512 n) as [Hr Hm]; [lia..|].
  assert (512 * ((n + 512 - 1) / 512) ≤ 2 ^ 64 - 512).
  { assert ((n + 512 - 1) / 512 ≤ (2 ^ 64 - 512) / 512); [|change ((2 ^ 64 - 512) / 512) with 36028797018963967 in *; lia].
    etrans; [apply Z.div_le_mono with (b := 2 ^ 64 - 512 + 511); lia|]. reflexivity. }
  rewrite (size_t_id (n + 512 - 1)) by lia. rewrite size_t_id by lia.
  repeat split; [lia..|exact Hm].
Qed.

Lemma get_allocation_size_spec n : 0 < n ≤ 2 ^ 64 - kRoundLarge → n mod 512 = 0 →
  n ≤ get_allocation_size n ∧ get_allocation_size n mod 512 = 0 ∧ 0 < get_allocation_size n < 2 ^ 64.
Proof.
  unfold get_allocation_size, kSmallSize, kSmallBuffer, kMinLargeAlloc, kLargeBuffer, kRoundLarge. intros Hn Hm.
  destruct (Z.leb_spec n 1048576); [repeat split; lia|].
  destruct (Z.ltb_spec n 10485760); [repeat split; lia|].
  destruct (round_up_spec 2097152 n) as [Hr Hm']; [lia..|].
  assert (2097152 * ((n + 2097152 - 1) / 2097152) ≤ 2 ^ 64 - 2097152).
  { assert ((n + 2097152 - 1) / 2097152 ≤ 8796093022207); [|lia].
    etrans; [apply Z.div_le_mono with (b := 2 ^ 64 - 1); lia|]. by vm_compute. }
  rewrite (size_t_id (n + 2097152 - 1)) by lia. rewrite size_t_id by lia.
  split; [lia|]. split; [|lia].
  apply Z.mod_divide; [lia|]. apply Z.divide_mul_l. by exists 4096.
Qed.

(** ** The order of blocks *)
Definition block_key (B : Block) : Z * Z * Z * Z := (device B, stream B, size B, ptr B).

Lemma comparator_irrefl B : BlockComparator B B = false.
Proof. unfold BlockComparator. rewrite !decide_False by (by intros []). apply Z.ltb_irrefl. Qed.

Ltac comparator :=
  unfold BlockComparator in *; repeat case_decide; rewrite ?Z.ltb_lt, ?Z.ltb_ge in *; try lia; try congruence.

Lemma comparator_trans A B C :
  BlockComparator A B = true → BlockComparator B C = true → BlockComparator A C = true.
Proof. intros. comparator. Qed.

Lemma comparator_total A B :
  BlockComparator A B = false → BlockComparator B A = false → block_key A = block_key B.
Proof. intros. unfold block_key. comparator. f_equal; [f_equal; [f_equal|]|]; lia. Qed.

Lemma comparator_asym A B : BlockComparator A B = true → BlockComparator B A = false.
Proof. intros. destruct (BlockComparator B A) eqn:E; [|done]. by rewrite <- (comparator_irrefl A), (comparator_trans A B A). Qed.

Lemma comparator_key A B A' B' :
  block_key A = block_key A' → block_key B = block_key B' → BlockComparator A B = BlockComparator A' B'.
Proof. unfold block_key, BlockComparator. by intros [= -> -> -> ->] [= -> -> -> ->]. Qed.

(** What is not below a search key, for a block whose address is not null. *)
Lemma comparator_search B d s n :
  0 ≤ ptr B → device B = d → stream B = s → BlockComparator B (search_key d s n) = (size B <? n).
Proof.
  intros Hp <- <-. unfold BlockComparator. cbn. rewrite !decide_False by (by intros []).
  case_decide as Hn; [done|].
  assert (Hs : size B = n) by (destruct (decide (size B = n)); tauto). rewrite Hs, Z.ltb_irrefl. apply Z.ltb_ge. lia.
Qed.

(** ** Sorted pools *)
Section Sorted.
Implicit Types (h : gmap block_ptr Block) (xs : list block_ptr).

Definition blt h (x y : block_ptr) : Prop :=
  ∃ X Y, h !! x = Some X ∧ h !! y = Some Y ∧ BlockComparator X Y = true.

Definition pool_sorted h xs : Prop := StronglySorted (blt h) xs.

Definition in_heap h xs : Prop := ∀ x, x ∈ xs → is_Some (h !! x).

Lemma in_heap_cons h x xs : in_heap h (x :: xs) → is_Some (h !! x) ∧ in_heap h xs.
Proof. intros H. split; [apply H; set_solver|]. intros y Hy. apply H. set_solver. Qed.

Lemma blt_irrefl h x : ¬ blt h x x.
Proof. intros (X & Y & EX & EY & Hlt). simplify_eq. by rewrite comparator_irrefl in Hlt. Qed.

Lemma blt_trans h x y z : blt h x y → blt h y z → blt h x z.
Proof. intros (X & Y & EX & EY & H1) (Y' & Z & EY' & EZ & H2). simplify_eq. exists X, Z. eauto using comparator_trans. Qed.

Lemma sorted_cons h x xs : pool_sorted h (x :: xs) ↔ pool_sorted h xs ∧ ∀ y, y ∈ xs → blt h x y.
Proof.
  unfold pool_sorted. rewrite StronglySorted_cons. rewrite list.Forall_forall. tauto.
Qed.

Lemma sorted_nodup h xs : pool_sorted h xs → NoDup xs.
Proof.
  induction xs as [|x xs IH]; [constructor|]. rewrite sorted_cons. intros [Hs Hx]. constructor; [|by apply IH].
  intros Hin. by apply (blt_irrefl h x), Hx.
Qed.

(** A heap that gives the elements the same keys sorts the pool the same way. *)
Lemma sorted_ext h h' xs :
  (∀ x X, x ∈ xs → h !! x = Some X → ∃ X', h' !! x = Some X' ∧ block_key X' = block_key X) →
  pool_sorted h xs → pool_sorted h' xs.
Proof.
  intros Hk. induction xs as [|x xs IH]; [constructor|]. rewrite !sorted_cons. intros [Hs Hx]. split.
  - apply IH; [|done]. intros y Y Hy. apply Hk. set_solver.
  - intros y Hy. destruct (Hx y Hy) as (X & Y & EX & EY & Hlt).
    destruct (Hk x X) as (X' & EX' & KX); [set_solver|done|].
    destruct (Hk y Y) as (Y' & EY' & KY); [set_solver|done|].
    exists X', Y'. split; [done|]. split; [done|]. by rewrite (comparator_key X' Y' X Y).
Qed.

(** [lower_bound] splits the pool at the first element that is not below the key. *)
Lemma lower_bound_spec h key xs :
  in_heap h xs → pool_sorted h xs →
  ∃ below above, xs = below ++ above ∧ lower_bound h key xs = Ok above ∧
    (∀ x X, x ∈ below → h !! x = Some X → BlockComparator X key = true) ∧
    (∀ x X, x ∈ above → h !! x = Some X → BlockComparator X key = false).
Proof.
  induction xs as [|x xs IH]; intros Hh Hs.
  - exists [], []. repeat split; set_solver.
  - apply in_heap_cons in Hh as [[X EX] Hh]. apply sorted_cons in Hs as [Hs Hx].
    cbn. unfold deref_in. rewrite EX. cbn. destruct (BlockComparator X key) eqn:E.
    + destruct (IH Hh Hs) as (lo & hi & -> & El & Hlo & Hhi).
      exists (x :: lo), hi. repeat split; [done| |done].
      intros y Y [->|Hy]%elem_of_cons; [by intros; simplify_eq|by apply Hlo].
    + exists [], (x :: xs). repeat split; [set_solver|].
      intros y Y [->|Hy]%elem_of_cons EY; [by simplify_eq|].
      destruct (Hx y Hy) as (? & ? & ? & ? & Hlt). simplify_eq.
      destruct (BlockComparator Y key) eqn:E'; [|done].
      by rewrite (comparator_trans X Y key) in E.
Qed.

(** Removing an element by its key removes that element. *)
Lemma set_erase_spec h x X xs :
  in_heap h xs → pool_sorted h xs → h !! x = Some X → x ∈ xs → set_erase h X xs = Ok (filter (λ y, y ≠ x) xs).
Proof.
  intros Hh Hs EX. revert Hh Hs. induction xs as [|y xs IH]; intros Hh Hs Hin; [by apply elem_of_nil in Hin|].
  apply in_heap_cons in Hh as [[Y EY] Hh]. apply sorted_cons in Hs as [Hs Hy].
  rewrite filter_cons. cbn [set_erase]. unfold deref_in. rewrite EY, Ok_bind. apply elem_of_cons in Hin as [->|Hin].
  - rewrite EX in EY. injection EY as <-. rewrite comparator_irrefl. rewrite decide_False by (by intros []). f_equal.
    assert (Hni : y ∉ xs) by (intros Hi; by apply (blt_irrefl h y), Hy).
    clear -Hni. induction xs as [|z xs IH]; [done|]. rewrite filter_cons, decide_True by set_solver.
    f_equal. apply IH. set_solver.
  - destruct (Hy x Hin) as (Y' & X' & EY' & EX' & Hlt). simplify_eq. rewrite Hlt.
    rewrite decide_True by (intros ->; eapply blt_irrefl, Hy, Hin).
    rewrite (IH Hh Hs Hin). done.
Qed.

(** Inserting an element whose key is new. *)
Lemma set_insert_spec h x X xs :
  in_heap h xs → pool_sorted h xs → h !! x = Some X →
  (∀ y Y, y ∈ xs → h !! y = Some Y → block_key Y ≠ block_key X) →
  ∃ xs', set_insert h x X xs = Ok xs' ∧ pool_sorted h xs' ∧ ∀ y, y ∈ xs' ↔ y = x ∨ y ∈ xs.
Proof.
  intros Hh Hs EX Hk. induction xs as [|y xs IH].
  - exists [x]. repeat split; [repeat constructor|set_solver..].
  - apply in_heap_cons in Hh as [[Y EY] Hh]. apply sorted_cons in Hs as [Hs Hy].
    cbn. unfold deref_in. rewrite EY. cbn. destruct (BlockComparator Y X) eqn:E1.
    + destruct IH as (xs' & E & Hs' & Hin); [done|done|intros z Z0 Hz; apply (Hk z); set_solver|].
      rewrite E. exists (y :: xs'). repeat split; [|set_solver..].
      apply sorted_cons. split; [done|]. intros z Hz. apply Hin in Hz as [->|Hz]; [by exists Y, X|by apply (Hy z)].
    + destruct (BlockComparator X Y) eqn:E2.
      * exists (x :: y :: xs). repeat split; [|set_solver..].
        apply sorted_cons. split; [by apply sorted_cons|]. intros z [->|Hz]%elem_of_cons; [by exists X, Y|].
        apply (blt_trans h _ y); [by exists X, Y|by apply (Hy z)].
      * exfalso. apply (Hk y Y); [set_solver|done|by apply comparator_total].
Qed.

Lemma sorted_filter h (P : block_ptr → Prop) `{∀ x, Decision (P x)} xs : pool_sorted h xs → pool_sorted h (filter P xs).
Proof.
  induction xs as [|x xs IH]; [done|]. rewrite sorted_cons. intros [Hs Hx]. rewrite filter_cons.
  case_decide; [|by apply IH]. apply sorted_cons. split; [by apply IH|].
  intros y [_ Hy]%list_elem_of_filter. by apply (Hx y).
Qed.

Lemma sorted_app_r h xs ys : pool_sorted h (xs ++ ys) → pool_sorted h ys.
Proof. induction xs as [|x xs IH]; [done|]. cbn. rewrite sorted_cons. intros [? _]. by apply IH. Qed.
End Sorted.

(** ** Chains of blocks *)

Section Heap.
Implicit Types (h : gmap block_ptr Block) (l : gmap Z Z).

(** ** Sums of sizes *)
Definition weight (f : Block → bool) (B : Block) : Z := if f B then size B else 0.
Definition total (f : Block → bool) h : Z := map_fold (λ _ B acc, weight f B + acc) 0 h.

Lemma total_insert f h b B : h !! b = None → total f (<[b := B]> h) = weight f B + total f h.
Proof. intros E. unfold total. rewrite map_fold_insert_L; [done| |done]. intros; lia. Qed.

Lemma total_delete f h b B : h !! b = Some B → total f h = weight f B + total f (delete b h).
Proof. intros E. rewrite <- (total_insert f (delete b h) b B) by apply lookup_delete_eq. by rewrite insert_delete_id. Qed.

Lemma total_update f h b B B' : h !! b = Some B → total f (<[b := B']> h) = total f h - weight f B + weight f B'.
Proof.
  intros E. rewrite (total_delete f (<[b := B']> h) b B') by apply lookup_insert_eq.
  rewrite (total_delete f h b B) by done. rewrite delete_insert_eq. lia.
Qed.

Lemma total_ext f h h' :
  (∀ b, weight f <$> h !! b = weight f <$> h' !! b) → total f h = total f h'.
Proof.
  revert h'. induction h as [|b B h Hb IH] using map_ind; intros h' E.
  - destruct (decide (h' = ∅)) as [->|Hne]; [done|]. exfalso.
    destruct (map_choose h' Hne) as (b & B & EB). specialize (E b). by rewrite EB, lookup_empty in E.
  - pose proof (E b) as Eb. rewrite lookup_insert_eq in Eb. destruct (h' !! b) as [B'|] eqn:EB; [|done].
    rewrite total_insert, (total_delete f h' b B') by done. injection Eb as ->. f_equal. apply IH.
    intros c. specialize (E c). destruct (decide (c = b)) as [->|]; [by rewrite Hb, lookup_delete_eq|].
    by rewrite lookup_insert_ne in E by done; rewrite lookup_delete_ne by done.
Qed.

(** No block of the memory is counted. *)
Lemma total_zero f h : (∀ b B, h !! b = Some B → f B = false) → total f h = 0.
Proof.
  induction h as [|b B h Hb IH] using map_ind; intros Hf; [done|].
  rewrite total_insert, IH by (done || (intros c C Hc; apply (Hf c); by rewrite lookup_insert_ne by congruence)).
  unfold weight. by rewrite (Hf b B (lookup_insert_eq _ _ _)).
Qed.

Lemma total_nonneg f h : (∀ b B, h !! b = Some B → 0 < size B) → 0 ≤ total f h.
Proof.
  induction h as [|b B h Hb IH] using map_ind; intros Hs; [done|].
  rewrite total_insert by done. assert (0 ≤ total f h).
  { apply IH. intros c C Hc. apply (Hs c). by rewrite lookup_insert_ne by congruence. }
  assert (0 < size B) by (apply (Hs b), lookup_insert_eq). unfold weight. destruct (f B); lia.
Qed.

Lemma total_mono f g h :
  (∀ b B, h !! b = Some B → 0 < size B) → (∀ B, f B = true → g B = true) → total f h ≤ total g h.
Proof.
  intros Hs Hfg. induction h as [|b B h Hb IH] using map_ind; [done|].
  rewrite !total_insert by done. assert (total f h ≤ total g h).
  { apply IH. intros c C Hc. apply (Hs c). by rewrite lookup_insert_ne by congruence. }
  assert (0 < size B) by (apply (Hs b), lookup_insert_eq). unfold weight.
  destruct (f B) eqn:E; [by rewrite (Hfg B E); lia|destruct (g B); lia].
Qed.

(** ** Disjoint blocks *)
Definition apart (B C : Block) : Prop := ptr B + size B ≤ ptr C ∨ ptr C + size C ≤ ptr B.

Definition disjoint_blocks h : Prop :=
  ∀ b c B C, h !! b = Some B → h !! c = Some C → b ≠ c → apart B C.

(** Disjoint blocks in [1, n) have fewer than [n] bytes. *)
Lemma highest_block h : h ≠ ∅ → ∃ b B, h !! b = Some B ∧ ∀ c C, h !! c = Some C → ptr C ≤ ptr B.
Proof.
  induction h as [|b B h Hb IH] using map_ind; intros Hne; [done|].
  destruct (decide (h = ∅)) as [->|Hh].
  - exists b, B. rewrite lookup_insert_eq. split; [done|]. intros c C.
    destruct (decide (c = b)) as [->|]; [rewrite lookup_insert_eq|rewrite lookup_insert_ne by done].
    + by intros [= <-].
    + by rewrite lookup_empty.
  - destruct (IH Hh) as (m & M & EM & HM).
    assert (Hmb : m ≠ b) by congruence.
    destruct (Z.le_gt_cases (ptr M) (ptr B)).
    + exists b, B. rewrite lookup_insert_eq. split; [done|]. intros c C.
      destruct (decide (c = b)) as [->|]; [rewrite lookup_insert_eq|rewrite lookup_insert_ne by done].
      * by intros [= <-].
      * intros Ec%HM. lia.
    + exists m, M. rewrite lookup_insert_ne by done. split; [done|]. intros c C.
      destruct (decide (c = b)) as [->|]; [rewrite lookup_insert_eq|rewrite lookup_insert_ne by done].
      * intros [= <-]. lia.
      * by intros Ec%HM.
Qed.

Lemma total_bound f n h : disjoint_blocks h →
  1 ≤ n → (∀ b B, h !! b = Some B → 0 < ptr B ∧ 0 < size B ∧ ptr B + size B ≤ n) → total f h < n.
Proof.
  remember (base.size h) as k eqn:Ek. revert n h Ek. induction k as [|k IH]; intros n h Ek Hd Hn Hb.
  - symmetry in Ek. apply map_size_empty_inv in Ek as ->. unfold total. rewrite map_fold_empty. lia.
  - destruct (highest_block h) as (b & B & EB & HM); [intros ->; by rewrite map_size_empty in Ek|].
    destruct (Hb b B EB) as (Hp & Hsz & Hlt).
    rewrite (total_delete f h b B) by done.
    assert (total f (delete b h) < ptr B); [|unfold weight; destruct (f B); lia].
    apply IH.
    + rewrite map_size_delete_Some by eauto. lia.
    + intros c d C D [? ?]%lookup_delete_Some [? ?]%lookup_delete_Some. by eapply Hd.
    + lia.
    + intros c C [Hne Ec]%lookup_delete_Some. destruct (Hb c C Ec) as (? & ? & ?). split; [done|]. split; [done|].
      specialize (HM c C Ec). destruct (Hd b c B C EB Ec ltac:(done)); lia.
Qed.

(** ** Regions *)

(** The live regions are in the address space and pairwise disjoint. *)
Definition regions_ok l : Prop :=
  (∀ p n, l !! p = Some n → 0 < p ∧ 0 < n ∧ p + n < 2 ^ 64) ∧
  (∀ p q n m, l !! p = Some n → l !! q = Some m → p ≠ q → p + n ≤ q ∨ q + m ≤ p).

Lemma regions_ok_insert l p n : 0 < n → fresh_region p n l → regions_ok l → regions_ok (<[p := n]> l).
Proof.
  intros Hn (Hp & Hb & _ & Hf) [H1 H2]. split.
  - intros q m [[<- <-]|[_ E]]%lookup_insert_Some; [lia|by apply H1].
  - intros q r m k [[<- <-]|[? Eq]]%lookup_insert_Some [[<- <-]|[? Er]]%lookup_insert_Some Hne; [done| | |by eapply H2].
    + by apply Hf.
    + destruct (Hf q m Eq); [by right|by left].
Qed.

Lemma regions_ok_delete l p : regions_ok l → regions_ok (delete p l).
Proof.
  intros [H1 H2]. split.
  - intros q m [_ E]%lookup_delete_Some. by apply H1.
  - intros q r m k [_ Eq]%lookup_delete_Some [_ Er]%lookup_delete_Some. by apply H2.
Qed.

(** ** Well-formed chains *)

(** The region of [l] a block lies in. *)
Definition placed l (B : Block) : Prop := ∃ p n,
  l !! p = Some n ∧ p ≤ ptr B ∧ ptr B + size B ≤ p + n ∧
  (prev B = None ↔ ptr B = p) ∧ (next B = None ↔ ptr B + size B = p + n).

Record block_ok l (nd : nat) (B : Block) : Prop := {
  ok_size : 0 < size B;
  ok_round : size B mod kMinBlockSize = 0;
  ok_device : 0 ≤ device B < Z.of_nat nd;
  ok_placed : placed l B
}.

(** What two neighbours share. *)
Definition adjacent (A B : Block) : Prop :=
  ptr B = ptr A + size A ∧ device B = device A ∧ stream B = stream A ∧ pool B = pool A.

Record heap_ok l (nd : nat) h : Prop := {
  heap_block b B : h !! b = Some B → block_ok l nd B;
  heap_pool b B : h !! b = Some B → is_Some (pool B);
  heap_disjoint : disjoint_blocks h;
  heap_next a A b : h !! a = Some A → next A = Some b →
    ∃ B, h !! b = Some B ∧ prev B = Some a ∧ adjacent A B;
  heap_prev b B a : h !! b = Some B → prev B = Some a →
    ∃ A, h !! a = Some A ∧ next A = Some b ∧ adjacent A B
}.

Lemma region_bounds l p n : regions_ok l → l !! p = Some n → 0 < p ∧ 0 < n ∧ p + n < 2 ^ 64.
Proof. intros [H _]. apply H. Qed.

(** An address is in one region. *)
Lemma region_unique l p q n m x : regions_ok l → l !! p = Some n → l !! q = Some m →
  p ≤ x < p + n → q ≤ x < q + m → p = q ∧ n = m.
Proof.
  intros [_ Hd] Hp Hq Hx Hy. destruct (decide (p = q)) as [->|Hne]; [by simplify_eq|].
  destruct (Hd p q n m Hp Hq Hne); lia.
Qed.

Lemma block_bounds l nd h b B : regions_ok l → heap_ok l nd h → h !! b = Some B →
  0 < ptr B ∧ 0 < size B ∧ ptr B + size B < 2 ^ 64.
Proof.
  intros Hl Hh EB. destruct (heap_block _ _ _ Hh b B EB) as [Hs _ _ (p & n & Hp & H1 & H2 & _)].
  pose proof (region_bounds l p n Hl Hp). lia.
Qed.

Lemma ptr_inj l nd h b c B C : heap_ok l nd h → h !! b = Some B → h !! c = Some C → ptr B = ptr C → b = c.
Proof.
  intros Hh EB EC Ep. destruct (decide (b = c)) as [|Hne]; [done|].
  pose proof (ok_size _ _ _ (heap_block _ _ _ Hh b B EB)). pose proof (ok_size _ _ _ (heap_block _ _ _ Hh c C EC)).
  destruct (heap_disjoint _ _ _ Hh b c B C EB EC Hne); lia.
Qed.

Lemma key_neq l nd h b c B C : heap_ok l nd h → h !! b = Some B → h !! c = Some C → b ≠ c → block_key B ≠ block_key C.
Proof. intros Hh EB EC Hne [= _ _ _ E]. by apply Hne, (ptr_inj l nd h b c B C). Qed.

Lemma total_lt l nd h f : regions_ok l → heap_ok l nd h → total f h < 2 ^ 64.
Proof.
  intros Hl Hh. apply total_bound; [by apply (heap_disjoint _ _ _ Hh)|lia|].
  intros b B EB. pose proof (block_bounds l nd h b B Hl Hh EB). lia.
Qed.

(** *** Changes that keep the shape *)
Definition same_shape (B B' : Block) : Prop :=
  device B' = device B ∧ stream B' = stream B ∧ size B' = size B ∧ pool B' = pool B ∧
  ptr B' = ptr B ∧ prev B' = prev B ∧ next B' = next B.

Lemma placed_shape l B B' : same_shape B B' → placed l B → placed l B'.
Proof. intros (Ed & Es & Ez & Ep & Er & Ev & En) (p & n & H). exists p, n. by rewrite Er, Ez, Ev, En. Qed.

Lemma adjacent_shape A A' B B' : same_shape A A' → same_shape B B' → adjacent A B → adjacent A' B'.
Proof. unfold same_shape, adjacent. intros. destruct_and!. repeat split; congruence. Qed.

Lemma same_shape_refl B : same_shape B B.
Proof. by repeat split. Qed.

Lemma heap_ok_shape l nd h h' :
  (∀ b B', h' !! b = Some B' → ∃ B, h !! b = Some B ∧ same_shape B B') →
  (∀ b B, h !! b = Some B → ∃ B', h' !! b = Some B' ∧ same_shape B B') →
  heap_ok l nd h → heap_ok l nd h'.
Proof.
  intros Hb Hf [H1 H2 H3 H4 H5]. split.
  - intros b B' E. destruct (Hb b B' E) as (B & EB & Hs). destruct (H1 b B EB) as [? ? ? Hp].
    destruct (Hs) as (Ed & _ & Ez & _). split; rewrite ?Ed, ?Ez; [done..|]. by eapply placed_shape.
  - intros b B' E. destruct (Hb b B' E) as (B & EB & (_ & _ & _ & -> & _)). by eapply H2.
  - intros b c B' C' E1 E2 Hne. destruct (Hb b B' E1) as (B & EB & Hs1). destruct (Hb c C' E2) as (C & EC & Hs2).
    specialize (H3 b c B C EB EC Hne). unfold apart, same_shape in *. destruct_and!. destruct H3; [left|right]; lia.
  - intros a A' b E En. destruct (Hb a A' E) as (A & EA & Hs).
    destruct (H4 a A b EA) as (B & EB & Hp & Ha); [unfold same_shape in Hs; destruct_and!; congruence|].
    destruct (Hf b B EB) as (B' & EB' & Hs'). exists B'. split; [done|].
    split; [unfold same_shape in Hs'; destruct_and!; congruence|by eapply adjacent_shape].
  - intros b B' a E En. destruct (Hb b B' E) as (B & EB & Hs).
    destruct (H5 b B a EB) as (A & EA & Hp & Ha); [unfold same_shape in Hs; destruct_and!; congruence|].
    destruct (Hf a A EA) as (A' & EA' & Hs'). exists A'. split; [done|].
    split; [unfold same_shape in Hs'; destruct_and!; congruence|by eapply adjacent_shape].
Qed.

Lemma heap_ok_update l nd h b B B' :
  h !! b = Some B → same_shape B B' → heap_ok l nd h → heap_ok l nd (<[b := B']> h).
Proof.
  intros EB Hs. apply heap_ok_shape; intros c C E; destruct (decide (c = b)) as [->|Hne].
  - rewrite lookup_insert_eq in E. injection E as <-. by exists B.
  - rewrite lookup_insert_ne in E by done. exists C. split; [done|apply same_shape_refl].
  - simplify_eq. exists B'. by rewrite lookup_insert_eq.
  - exists C. rewrite lookup_insert_ne by done. split; [done|apply same_shape_refl].
Qed.

Lemma heap_ok_devices l nd nd' h : (nd ≤ nd')%nat → heap_ok l nd h → heap_ok l nd' h.
Proof.
  intros Hn [H1 H2 H3 H4 H5]. split; [|done..]. intros b B E. destruct (H1 b B E) as [? ? ? ?]. split; [done..|lia|done].
Qed.
End Heap.
