(* ===== verification/CudaChains.v ===== *)
(** * Joining, splitting, creating and removing blocks

    The four changes of the chains of blocks, each by what the new memory holds,
    and that they keep [heap_ok]. *)
From S2P Require Import Prelude CoreTypes CudaRuntime CudaStream CudaAllocator CudaHeap.
Local Open Scope Z_scope.
#[local] Set Warnings "-clear-no-such-hyp".
Import CudaAllocator.

Section Chains.
Implicit Types (h : gmap block_ptr Block) (l : gmap Z Z).

(** ** Joining two neighbours *)
Section Join.
Context l (nd : nat) h (lo hi : block_ptr) (LO HI : Block).
Context (Hl : regions_ok l) (Hh : heap_ok l nd h) (Elo : h !! lo = Some LO) (Ehi : h !! hi = Some HI)
  (Enext : next LO = Some hi).

Local Lemma join_adjacent : adjacent LO HI ∧ prev HI = Some lo ∧ 0 < size LO ∧ 0 < size HI.
Proof.
  destruct (heap_next _ _ _ Hh lo LO hi Elo Enext) as (HI' & E & Hp & Ha). simplify_eq.
  split; [done|]. split; [done|].
  split; eapply ok_size, (heap_block _ _ _ Hh); [apply Elo|apply Ehi].
Qed.

Lemma before_lo a : prev LO = Some a → ∃ A, h !! a = Some A ∧ next A = Some lo ∧ adjacent A LO ∧ 0 < size A ∧ a ≠ lo ∧ a ≠ hi.
Proof.
  intros E. destruct (heap_prev _ _ _ Hh lo LO a Elo E) as (A & EA & En & Ha).
  pose proof (ok_size _ _ _ (heap_block _ _ _ Hh a A EA)). destruct join_adjacent as (Hj & _ & ? & ?).
  exists A. repeat (split; [done|]). unfold adjacent in *. destruct_and!.
  split; intros ->; simplify_eq; lia.
Qed.

Lemma after_hi c : next HI = Some c → ∃ C, h !! c = Some C ∧ prev C = Some hi ∧ adjacent HI C ∧ 0 < size C ∧ c ≠ lo ∧ c ≠ hi ∧ prev LO ≠ Some c.
Proof.
  intros E. destruct (heap_next _ _ _ Hh hi HI c Ehi E) as (C & EC & En & Ha).
  pose proof (ok_size _ _ _ (heap_block _ _ _ Hh c C EC)). destruct join_adjacent as (Hj & _ & ? & ?).
  exists C. repeat (split; [done|]). unfold adjacent in *. destruct_and!.
  split; [intros ->; simplify_eq; lia|]. split; [intros ->; simplify_eq; lia|].
  intros Hp. destruct (before_lo c Hp) as (C' & EC' & _ & Hc & _). unfold adjacent in Hc. simplify_eq. lia.
Qed.

(** [k], the block that remains, is one of the two. *)
Context (k : block_ptr) (K : Block) (h' : gmap block_ptr Block) (Ek : k = lo ∨ k = hi).

Definition relink (x : block_ptr) (X : Block) : Block :=
  if decide (prev LO = Some x) then set_next (Some k) X
  else if decide (next HI = Some x) then set_prev (Some k) X
  else X.

Context (HK : h' !! k = Some K) (Hgone : ∀ x, x = lo ∨ x = hi → x ≠ k → h' !! x = None)
  (Hrest : ∀ x, x ≠ lo → x ≠ hi → h' !! x = relink x <$> h !! x)
  (Kd : device K = device LO) (Ks : stream K = stream LO) (Kl : pool K = pool LO)
  (Kp : ptr K = ptr LO) (Kz : size K = size LO + size HI) (Kv : prev K = prev LO) (Kn : next K = next HI).

Local Lemma relink_shape x X : h !! x = Some X →
  device (relink x X) = device X ∧ stream (relink x X) = stream X ∧ size (relink x X) = size X ∧
  pool (relink x X) = pool X ∧ ptr (relink x X) = ptr X ∧
  prev (relink x X) = (if decide (next HI = Some x) then Some k else prev X) ∧
  next (relink x X) = (if decide (prev LO = Some x) then Some k else next X).
Proof.
  intros EX. unfold relink. destruct (decide (prev LO = Some x)) as [Hp|Hp].
  - destruct (decide (next HI = Some x)) as [Hn|Hn]; [|by repeat split].
    by destruct (after_hi x Hn) as (_ & _ & _ & _ & _ & _ & _ & []).
  - destruct (decide (next HI = Some x)); by repeat split.
Qed.

Local Lemma relink_none x X : h !! x = Some X → x ≠ lo → x ≠ hi →
  (prev (relink x X) = None ↔ prev X = None) ∧ (next (relink x X) = None ↔ next X = None).
Proof.
  intros EX H1 H2. destruct (relink_shape x X EX) as (_ & _ & _ & _ & _ & -> & ->). split; case_decide as Hd; [|done| |done].
  - destruct (after_hi x Hd) as (X' & EX' & Hp & _). simplify_eq. by rewrite Hp.
  - destruct (before_lo x Hd) as (X' & EX' & Hp & _). simplify_eq. by rewrite Hp.
Qed.

(** The blocks of the new memory. *)
Local Lemma join_inv x X' : h' !! x = Some X' →
  (x = k ∧ X' = K) ∨ (x ≠ lo ∧ x ≠ hi ∧ x ≠ k ∧ ∃ X, h !! x = Some X ∧ X' = relink x X).
Proof.
  intros E. destruct (decide (x = k)) as [->|Hk]; [left; by simplify_eq|right].
  destruct (decide (x = lo)) as [->|Hlo]; [by rewrite Hgone in E by auto|].
  destruct (decide (x = hi)) as [->|Hhi]; [by rewrite Hgone in E by auto|].
  rewrite Hrest in E by done. destruct (h !! x) as [X|]; [|done]. injection E as <-. eauto 10.
Qed.

Local Lemma join_find x X : h !! x = Some X → x ≠ lo → x ≠ hi → h' !! x = Some (relink x X).
Proof. intros E H1 H2. by rewrite Hrest, E. Qed.

Local Lemma join_placed : placed l K.
Proof.
  destruct join_adjacent as ((Hp & _) & _ & Hs1 & Hs2).
  destruct (ok_placed _ _ _ (heap_block _ _ _ Hh lo LO Elo)) as (p & n & Hr & Ha & Hb & Hv & Hn).
  destruct (ok_placed _ _ _ (heap_block _ _ _ Hh hi HI Ehi)) as (q & m & Hr' & Ha' & Hb' & Hv' & Hn').
  assert (Hlt : ptr LO + size LO ≠ p + n) by (intros E; apply Hn in E; congruence).
  destruct (region_unique l p q n m (ptr HI) Hl Hr Hr') as [-> ->]; [lia..|].
  exists q, m. rewrite Kp, Kz, Kv, Kn. split; [done|]. split; [lia|]. split; [lia|]. split; [done|].
  rewrite Hn'. lia.
Qed.

Local Lemma join_block x X' : h' !! x = Some X' → block_ok l nd X' ∧ is_Some (pool X').
Proof.
  destruct join_adjacent as (_ & _ & Hs1 & Hs2).
  intros [[-> ->]|(H1 & H2 & _ & X & EX & ->)]%join_inv.
  - destruct (heap_block _ _ _ Hh lo LO Elo) as [_ Hr1 Hd _]. destruct (heap_block _ _ _ Hh hi HI Ehi) as [_ Hr2 _ _].
    split; [|rewrite Kl; by eapply (heap_pool _ _ _ Hh)].
    split; [lia| |by rewrite Kd|by apply join_placed].
    rewrite Kz, Z.add_mod, Hr1, Hr2 by (unfold kMinBlockSize; lia). done.
  - destruct (heap_block _ _ _ Hh x X EX) as [Hs Hr Hd (p & n & Hp & Ha & Hb & Hv & Hn)].
    destruct (relink_shape x X EX) as (Ed & Es & Ez & Epl & Ep & _). destruct (relink_none x X EX H1 H2) as [Ev En].
    split; [|rewrite Epl; by eapply (heap_pool _ _ _ Hh)].
    split; [lia|by rewrite Ez|by rewrite Ed|]. exists p, n. rewrite Ep, Ez, Ev, En. done.
Qed.

Local Lemma join_disjoint : disjoint_blocks h'.
Proof.
  destruct join_adjacent as ((Hp & _) & _ & Hs1 & Hs2).
  assert (HKX : ∀ x X, h !! x = Some X → x ≠ lo → x ≠ hi → apart K X).
  { intros x X EX H1 H2. pose proof (ok_size _ _ _ (heap_block _ _ _ Hh x X EX)).
    pose proof (heap_disjoint _ _ _ Hh lo x LO X Elo EX ltac:(done)).
    pose proof (heap_disjoint _ _ _ Hh hi x HI X Ehi EX ltac:(done)). unfold apart in *. lia. }
  intros x y X' Y' [[-> ->]|(H1 & H2 & _ & X & EX & ->)]%join_inv [[-> ->]|(H3 & H4 & _ & Y & EY & ->)]%join_inv Hne; [done| | |].
  - destruct (relink_shape y Y EY) as (_ & _ & Ez & _ & Ep & _). specialize (HKX y Y EY H3 H4). unfold apart in *. lia.
  - destruct (relink_shape x X EX) as (_ & _ & Ez & _ & Ep & _). specialize (HKX x X EX H1 H2). unfold apart in *. lia.
  - destruct (relink_shape x X EX) as (_ & _ & Ez & _ & Ep & _). destruct (relink_shape y Y EY) as (_ & _ & Fz & _ & Fp & _).
    pose proof (heap_disjoint _ _ _ Hh x y X Y EX EY Hne). unfold apart in *. lia.
Qed.

Local Lemma adjacent_relink a A b B : h !! a = Some A → h !! b = Some B → adjacent A B → adjacent (relink a A) (relink b B).
Proof.
  intros EA EB. destruct (relink_shape a A EA) as (? & ? & ? & ? & ? & _). destruct (relink_shape b B EB) as (? & ? & ? & ? & ? & _).
  unfold adjacent. intros. destruct_and!. repeat split; congruence.
Qed.

Local Lemma adjacent_K_after c C : h !! c = Some C → adjacent HI C → adjacent K (relink c C).
Proof.
  destruct join_adjacent as (Hj & _). intros EC Ha. destruct (relink_shape c C EC) as (? & ? & ? & ? & ? & _).
  unfold adjacent in *. destruct_and!. repeat split; [lia|congruence..].
Qed.

Local Lemma adjacent_before_K a A : h !! a = Some A → adjacent A LO → adjacent (relink a A) K.
Proof.
  intros EA Ha. destruct (relink_shape a A EA) as (? & ? & ? & ? & ? & _).
  unfold adjacent in *. destruct_and!. repeat split; [lia|congruence..].
Qed.

Local Lemma join_next a A' b : h' !! a = Some A' → next A' = Some b → ∃ B, h' !! b = Some B ∧ prev B = Some a ∧ adjacent A' B.
Proof.
  intros [[-> ->]|(H1 & H2 & Hk & A & EA & ->)]%join_inv En.
  - rewrite Kn in En. destruct (after_hi b En) as (B & EB & Hp & Ha & _ & H1 & H2 & _).
    exists (relink b B). split; [by apply join_find|]. destruct (relink_shape b B EB) as (_ & _ & _ & _ & _ & -> & _).
    rewrite decide_True by done. split; [done|by apply adjacent_K_after].
  - destruct (relink_shape a A EA) as (_ & _ & _ & _ & _ & _ & Ea). rewrite Ea in En. case_decide as Hd.
    + injection En as <-. destruct (before_lo a Hd) as (A2 & EA2 & _ & Ha & _). simplify_eq.
      exists K. split; [done|]. rewrite Kv. split; [done|by apply adjacent_before_K].
    + destruct (heap_next _ _ _ Hh a A b EA En) as (B & EB & Hp & Ha). destruct join_adjacent as (_ & Hhi & _).
      assert (b ≠ hi) by (intros ->; congruence). assert (b ≠ lo) by (intros ->; congruence).
      exists (relink b B). split; [by apply join_find|]. destruct (relink_shape b B EB) as (_ & _ & _ & _ & _ & -> & _).
      split; [|by apply adjacent_relink]. case_decide as Hd2; [|done].
      destruct (after_hi b Hd2) as (B2 & EB2 & Hp2 & _). congruence.
Qed.

Local Lemma join_prev b B' a : h' !! b = Some B' → prev B' = Some a → ∃ A, h' !! a = Some A ∧ next A = Some b ∧ adjacent A B'.
Proof.
  intros [[-> ->]|(H1 & H2 & Hk & B & EB & ->)]%join_inv En.
  - rewrite Kv in En. destruct (before_lo a En) as (A & EA & Hp & Ha & _ & H1 & H2).
    exists (relink a A). split; [by apply join_find|]. destruct (relink_shape a A EA) as (_ & _ & _ & _ & _ & _ & ->).
    rewrite decide_True by done. split; [done|by apply adjacent_before_K].
  - destruct (relink_shape b B EB) as (_ & _ & _ & _ & _ & Ea & _). rewrite Ea in En. case_decide as Hd.
    + injection En as <-. destruct (after_hi b Hd) as (B2 & EB2 & _ & Ha & _). simplify_eq.
      exists K. split; [done|]. rewrite Kn. split; [done|by apply adjacent_K_after].
    + destruct (heap_prev _ _ _ Hh b B a EB En) as (A & EA & Hp & Ha). destruct join_adjacent as (_ & Hhi & _).
      assert (a ≠ lo) by (intros ->; congruence). assert (a ≠ hi) by (intros ->; simplify_eq; congruence).
      exists (relink a A). split; [by apply join_find|]. destruct (relink_shape a A EA) as (_ & _ & _ & _ & _ & _ & ->).
      split; [|by apply adjacent_relink]. case_decide as Hd2; [|done].
      destruct (before_lo a Hd2) as (A2 & EA2 & Hp2 & _). congruence.
Qed.

Lemma join_heap_ok : heap_ok l nd h'.
Proof.
  split; [intros b B Eb; by apply (join_block b)|intros b B Eb; by apply (join_block b)|apply join_disjoint|apply join_next|apply join_prev].
Qed.
End Join.

(** Neighbours stay neighbours under changes that move neither boundary. *)
Lemma adjacent_eq A B A' B' : adjacent A B →
  ptr A' + size A' = ptr A + size A → device A' = device A → stream A' = stream A → pool A' = pool A →
  ptr B' = ptr B → device B' = device B → stream B' = stream B → pool B' = pool B → adjacent A' B'.
Proof. unfold adjacent. intros (H1 & H2 & H3 & H4) -> -> -> -> -> -> -> ->. done. Qed.

(** ** Splitting a block *)
Section Split.
Context l (nd : nat) h (b r : block_ptr) (R N R' : Block) (h' : gmap block_ptr Block) (n : Z).
Context (Hl : regions_ok l) (Hh : heap_ok l nd h) (Er : h !! r = Some R) (Eb : h !! b = None)
  (Hn : 0 < n < size R) (Hm : n mod kMinBlockSize = 0).
Context (HN : h' !! b = Some N) (HR : h' !! r = Some R')
  (Hrest : ∀ x, x ≠ b → x ≠ r → h' !! x = (if decide (prev R = Some x) then set_next (Some b) else id) <$> h !! x).
Context (Nd : device N = device R) (Ns : stream N = stream R) (Nl : pool N = pool R) (Np : ptr N = ptr R)
  (Nz : size N = n) (Nv : prev N = prev R) (Nn : next N = Some r).
Context (Rd : device R' = device R) (Rs : stream R' = stream R) (Rl : pool R' = pool R) (Rp : ptr R' = ptr R + n)
  (Rz : size R' = size R - n) (Rv : prev R' = Some b) (Rn : next R' = next R).

Local Abbreviation patch x := (if decide (prev R = Some x) then set_next (Some b) else id).

Local Lemma patch_shape x X :
  device (patch x X) = device X ∧ stream (patch x X) = stream X ∧ size (patch x X) = size X ∧
  pool (patch x X) = pool X ∧ ptr (patch x X) = ptr X ∧ prev (patch x X) = prev X ∧
  next (patch x X) = (if decide (prev R = Some x) then Some b else next X).
Proof. case_decide; by repeat split. Qed.

Local Lemma split_before a : prev R = Some a → ∃ A, h !! a = Some A ∧ next A = Some r ∧ adjacent A R ∧ a ≠ r ∧ a ≠ b.
Proof.
  intros E. destruct (heap_prev _ _ _ Hh r R a Er E) as (A & EA & En & Ha).
  pose proof (ok_size _ _ _ (heap_block _ _ _ Hh a A EA)). exists A. repeat (split; [done|]).
  unfold adjacent in Ha. split; [|congruence]. intros ->. simplify_eq. lia.
Qed.

Local Lemma split_inv x X' : h' !! x = Some X' →
  (x = b ∧ X' = N) ∨ (x = r ∧ X' = R') ∨ (x ≠ b ∧ x ≠ r ∧ ∃ X, h !! x = Some X ∧ X' = patch x X).
Proof.
  intros E. destruct (decide (x = b)) as [->|Hb]; [left; by simplify_eq|right].
  destruct (decide (x = r)) as [->|Hr]; [left; by simplify_eq|right].
  rewrite Hrest in E by done. destruct (h !! x) as [X|]; [|done]. injection E as <-. eauto 10.
Qed.

Local Lemma split_find x X : h !! x = Some X → x ≠ r → h' !! x = Some (patch x X).
Proof. intros E Hr. rewrite Hrest, E; [done|congruence|done]. Qed.

Local Lemma split_block_ok x X' : h' !! x = Some X' → block_ok l nd X' ∧ is_Some (pool X').
Proof.
  destruct (heap_block _ _ _ Hh r R Er) as [Hs Hr Hd (p & m & Hp & Ha & Hb & Hv & Hx)].
  pose proof (heap_pool _ _ _ Hh r R Er) as Hpl.
  intros [[-> ->]|[[-> ->]|(H1 & H2 & X & EX & ->)]]%split_inv.
  - split; [|by rewrite Nl]. split; [lia|by rewrite Nz|by rewrite Nd|].
    exists p, m. rewrite Np, Nz, Nv, Nn. do 4 (split; [done || lia|]). split; [done|]. intros; exfalso; lia.
  - split; [|by rewrite Rl]. split; [lia| |by rewrite Rd|].
    + rewrite Rz, Zminus_mod, Hr, Hm. done.
    + exists p, m. rewrite Rp, Rz, Rv, Rn. do 3 (split; [done || lia|]). split; [split; [done|intros; exfalso; lia]|].
      rewrite Hx. lia.
  - destruct (heap_block _ _ _ Hh x X EX) as [Hs' Hr' Hd' (q & k & Hq & Hqa & Hqb & Hqv & Hqx)].
    destruct (patch_shape x X) as (Ed & Es & Ez & Epl & Ep & Ev & En).
    split; [|rewrite Epl; by eapply (heap_pool _ _ _ Hh)].
    split; [by rewrite Ez|by rewrite Ez|by rewrite Ed|]. exists q, k. rewrite Ep, Ez, Ev, En.
    repeat (split; [done|]). rewrite <- Hqx. case_decide as Hd2; [|done].
    destruct (split_before x Hd2) as (X2 & EX2 & En2 & _). simplify_eq. by rewrite En2.
Qed.

Local Lemma split_disjoint : disjoint_blocks h'.
Proof.
  assert (HX : ∀ x X, h !! x = Some X → x ≠ r → apart N X ∧ apart R' X).
  { intros x X EX Hx. pose proof (heap_disjoint _ _ _ Hh r x R X Er EX ltac:(done)). unfold apart in *. lia. }
  intros x y X' Y' [[-> ->]|[[-> ->]|(H1 & H2 & X & EX & ->)]]%split_inv
    [[-> ->]|[[-> ->]|(H3 & H4 & Y & EY & ->)]]%split_inv Hne; try done.
  - unfold apart. lia.
  - destruct (patch_shape y Y) as (_ & _ & Ez & _ & Ep & _). destruct (HX y Y EY H4). unfold apart in *. lia.
  - unfold apart. lia.
  - destruct (patch_shape y Y) as (_ & _ & Ez & _ & Ep & _). destruct (HX y Y EY H4). unfold apart in *. lia.
  - destruct (patch_shape x X) as (_ & _ & Ez & _ & Ep & _). destruct (HX x X EX H2). unfold apart in *. lia.
  - destruct (patch_shape x X) as (_ & _ & Ez & _ & Ep & _). destruct (HX x X EX H2). unfold apart in *. lia.
  - destruct (patch_shape x X) as (_ & _ & Ez & _ & Ep & _). destruct (patch_shape y Y) as (_ & _ & Fz & _ & Fp & _).
    pose proof (heap_disjoint _ _ _ Hh x y X Y EX EY Hne). unfold apart in *. lia.
Qed.

Local Lemma adjacent_patch a A c C : adjacent A C → adjacent (patch a A) (patch c C).
Proof.
  intros Ha. destruct (patch_shape a A) as (?&?&Ez&?&Ep&_), (patch_shape c C) as (?&?&?&?&?&_).
  eapply adjacent_eq; [exact Ha|by rewrite Ez, Ep|assumption..].
Qed.

Local Lemma adjacent_N_R : adjacent N R'.
Proof. unfold adjacent. repeat split; [lia|congruence..]. Qed.

Local Lemma split_next a A' c : h' !! a = Some A' → next A' = Some c → ∃ C, h' !! c = Some C ∧ prev C = Some a ∧ adjacent A' C.
Proof.
  intros [[-> ->]|[[-> ->]|(H1 & H2 & A & EA & ->)]]%split_inv En.
  - rewrite Nn in En. injection En as <-. exists R'. split; [done|]. split; [done|apply adjacent_N_R].
  - rewrite Rn in En. destruct (heap_next _ _ _ Hh r R c Er En) as (C & EC & Hp & Ha).
    assert (c ≠ r) by (intros ->; unfold adjacent in Ha; simplify_eq; lia).
    exists (patch c C). split; [by apply split_find|]. destruct (patch_shape c C) as (?&?&?&?&?&Ev&_). rewrite Ev.
    split; [done|]. eapply adjacent_eq; [exact Ha|lia|assumption..].
  - destruct (patch_shape a A) as (?&?&?&?&?&_&Ea). rewrite Ea in En. case_decide as Hd.
    + injection En as <-. destruct (split_before a Hd) as (A2 & EA2 & _ & Ha & _). simplify_eq.
      exists N. split; [done|]. rewrite Nv. split; [done|].
      eapply adjacent_eq; [exact Ha|try (case_decide; done); done|try (case_decide; done); done|try (case_decide; done); done|try (case_decide; done); done|assumption|assumption|assumption|assumption].
    + destruct (heap_next _ _ _ Hh a A c EA En) as (C & EC & Hp & Ha).
      assert (c ≠ r) by (intros ->; congruence).
      exists (patch c C). split; [by apply split_find|]. destruct (patch_shape c C) as (?&?&?&?&?&Ev&_). rewrite Ev.
      split; [done|]. eapply adjacent_eq; [exact Ha|done|done|done|done|assumption..].
Qed.

Local Lemma split_prev c C' a : h' !! c = Some C' → prev C' = Some a → ∃ A, h' !! a = Some A ∧ next A = Some c ∧ adjacent A C'.
Proof.
  intros [[-> ->]|[[-> ->]|(H1 & H2 & C & EC & ->)]]%split_inv En.
  - rewrite Nv in En. destruct (split_before a En) as (A & EA & Hp & Ha & H1 & H2).
    exists (patch a A). split; [by apply split_find|]. destruct (patch_shape a A) as (?&?&?&?&?&_&Ea). rewrite Ea.
    rewrite decide_True by done. split; [done|].
    eapply adjacent_eq; [exact Ha|try (case_decide; done); done|try (case_decide; done); done|try (case_decide; done); done|try (case_decide; done); done|assumption|assumption|assumption|assumption].
  - rewrite Rv in En. injection En as <-. exists N. split; [done|]. split; [done|apply adjacent_N_R].
  - destruct (patch_shape c C) as (?&?&?&?&?&Ev&_). rewrite Ev in En.
    destruct (heap_prev _ _ _ Hh c C a EC En) as (A & EA & Hp & Ha).
    destruct (decide (a = r)) as [->|Har].
    + simplify_eq. exists R'. split; [done|]. rewrite Rn. split; [done|].
      eapply adjacent_eq; [exact Ha|lia|assumption|assumption|assumption|case_decide; done..].
    + exists (patch a A). split; [by apply split_find|]. destruct (patch_shape a A) as (?&?&?&?&?&_&Ea). rewrite Ea.
      split.
      * case_decide as Hd; [|done]. destruct (split_before a Hd) as (A2 & EA2 & En2 & _). by simplify_eq.
      * eapply adjacent_eq; [exact Ha|..]; first [assumption|by rewrite H3, H5|case_decide; done].
Qed.

Lemma split_heap_ok : heap_ok l nd h'.
Proof.
  split; [intros x X Ex; by apply (split_block_ok x)|intros x X Ex; by apply (split_block_ok x)|apply split_disjoint|apply split_next|apply split_prev].
Qed.
End Split.

(** ** A segment *)

(** A block over the whole of a new region. *)
Lemma segment_heap_ok l nd h b B p : heap_ok l nd h → h !! b = None →
  fresh_region p (size B) l → 0 < size B → size B mod kMinBlockSize = 0 → 0 ≤ device B < Z.of_nat nd →
  is_Some (pool B) → ptr B = p → prev B = None → next B = None → heap_ok (<[p := size B]> l) nd (<[b := B]> h).
Proof.
  intros Hh Eb (Hp & Hbd & El & Hf) Hs Hm Hd Hpl Ep Ev En.
  assert (Hold : ∀ x X, h !! x = Some X → apart B X ∧ placed (<[p := size B]> l) X).
  { intros x X EX. destruct (ok_placed _ _ _ (heap_block _ _ _ Hh x X EX)) as (q & m & Hq & Ha & Hb & Hv & Hx).
    split; [destruct (Hf q m Hq); unfold apart; lia|].
    exists q, m. rewrite lookup_insert_ne by congruence. done. }
  split.
  - intros x X [[<- <-]|[Hne EX]]%lookup_insert_Some.
    + split; [done..|]. exists p, (size B). rewrite lookup_insert_eq, Ep, Ev, En. repeat split; lia || done.
    + destruct (heap_block _ _ _ Hh x X EX). split; [done..|]. by apply (Hold x).
  - intros x X [[<- <-]|[Hne EX]]%lookup_insert_Some; [done|]. by eapply (heap_pool _ _ _ Hh).
  - intros x y X Y [[<- <-]|[? EX]]%lookup_insert_Some [[<- <-]|[? EY]]%lookup_insert_Some Hne; [done| | |].
    + by apply (Hold y).
    + destruct (Hold x X EX) as [[|] _]; [by right|by left].
    + by apply (heap_disjoint _ _ _ Hh x y).
  - intros x X y [[<- <-]|[? EX]]%lookup_insert_Some Enx; [congruence|].
    destruct (heap_next _ _ _ Hh x X y EX Enx) as (Y & EY & ? & ?). exists Y. rewrite lookup_insert_ne by congruence. done.
  - intros x X y [[<- <-]|[? EX]]%lookup_insert_Some Enx; [congruence|].
    destruct (heap_prev _ _ _ Hh x X y EX Enx) as (Y & EY & ? & ?). exists Y. rewrite lookup_insert_ne by congruence. done.
Qed.

(** A block without neighbours is its region. *)
Lemma lone_block l nd h b B : heap_ok l nd h → h !! b = Some B → prev B = None → next B = None → l !! ptr B = Some (size B).
Proof.
  intros Hh EB Ev En. destruct (ok_placed _ _ _ (heap_block _ _ _ Hh b B EB)) as (p & n & Hp & _ & _ & Hv & Hx).
  apply Hv in Ev as <-. apply Hx in En. by replace (size B) with n by lia.
Qed.

Lemma release_heap_ok l nd h b B : regions_ok l → heap_ok l nd h → h !! b = Some B → prev B = None → next B = None →
  heap_ok (delete (ptr B) l) nd (delete b h).
Proof.
  intros Hl Hh EB Ev En. pose proof (lone_block l nd h b B Hh EB Ev En) as Hreg.
  split.
  - intros x X [Hne EX]%lookup_delete_Some. destruct (heap_block _ _ _ Hh x X EX) as [Hs ? ? (q & m & Hq & Ha & Hb & Hv & Hx)].
    split; [done..|]. exists q, m. rewrite lookup_delete_ne; [done|]. intros <-.
    destruct (heap_disjoint _ _ _ Hh b x B X EB EX ltac:(done)); simplify_eq; lia.
  - intros x X [Hne EX]%lookup_delete_Some. by eapply (heap_pool _ _ _ Hh).
  - intros x y X Y [? EX]%lookup_delete_Some [? EY]%lookup_delete_Some. by apply (heap_disjoint _ _ _ Hh x y).
  - intros x X y [? EX]%lookup_delete_Some Enx. destruct (heap_next _ _ _ Hh x X y EX Enx) as (Y & EY & ? & ?).
    exists Y. rewrite lookup_delete_ne by congruence. done.
  - intros x X y [? EX]%lookup_delete_Some Enx. destruct (heap_prev _ _ _ Hh x X y EX Enx) as (Y & EY & ? & ?).
    exists Y. rewrite lookup_delete_ne by congruence. done.
Qed.
End Chains.
