(* ===== verification/CudaAllocSpec.v ===== *)
(** * The invariant of the caching allocator

    [inv L evs m s]: the chains of [s] are well formed; the pools hold the blocks
    that are neither in use nor waiting for an event, but for the block [L] that
    the running call holds; [evs] are the blocks of the outstanding events; [m] is
    what the clients hold, device, stream and size by address; the statistics are
    the sums they stand for; free blocks that are neighbours have been joined. *)
From S2P Require Import Prelude CoreTypes CudaRuntime CudaStream CudaAllocator CudaHeap CudaChains.
Local Open Scope Z_scope.
#[local] Set Warnings "-clear-no-such-hyp".
Import CudaAllocator CUDAFunctions.

(** What a client knows of an allocation: device, stream and size. *)
Abbreviation desc := (Z * Z * Z)%type.
Definition desc_of (B : Block) : desc := (device B, stream B, size B).

Definition idle (B : Block) : Prop := allocated B = false ∧ event_count B = 0.

(** Streams whose internals exist. *)
Definition stream_ok (st : Stream.Stream) : Prop := returns (CudaStream.CUDAStream_internals st) = true.

(** How often a block occurs in a list. *)
Definition occ (b : block_ptr) (evs : list block_ptr) : Z := Z.of_nat (length (filter (λ x, x = b) evs)).

Definition on_device (d : Z) (B : Block) : bool := device B =? d.
Definition in_use_on (d : Z) (B : Block) : bool := (device B =? d) && allocated B.

Lemma occ_nil b : occ b [] = 0.
Proof. done. Qed.
Lemma occ_cons b x evs : occ b (x :: evs) = (if decide (x = b) then 1 else 0) + occ b evs.
Proof. unfold occ. rewrite filter_cons. case_decide; [|done]. rewrite length_cons. lia. Qed.
Lemma occ_app b xs ys : occ b (xs ++ ys) = occ b xs + occ b ys.
Proof. induction xs as [|x xs IH]; [done|]. rewrite <- app_comm_cons, !occ_cons, IH. lia. Qed.
Lemma occ_nonneg b evs : 0 ≤ occ b evs.
Proof. unfold occ. lia. Qed.
Lemma occ_pos b evs : b ∈ evs ↔ 0 < occ b evs.
Proof.
  induction evs as [|x evs IH]; [rewrite occ_nil, elem_of_nil; lia|].
  rewrite elem_of_cons, occ_cons, IH. pose proof (occ_nonneg b evs). case_decide as Hd; [|naive_solver lia].
  subst. split; [lia|]. by left.
Qed.

Section Spec.
Context {W : Type} `{CudaLaws W}.
Implicit Types (s : Allocator W) (L : option block_ptr) (evs : list block_ptr) (m : gmap Z desc).

Record stats_ok (h : gmap block_ptr Block) (d : Z) (st : DeviceStats) : Prop := {
  stats_allocated : amount_allocated st = total (in_use_on d) h;
  stats_cached : amount_cached st = total (on_device d) h;
  stats_max_allocated : amount_allocated st ≤ max_amount_allocated st;
  stats_max_cached : amount_cached st ≤ max_amount_cached st
}.

Record inv L evs m s : Prop := {
  inv_regions : regions_ok (live (world s));
  inv_heap : heap_ok (live (world s)) (length (device_stats s)) (heap s);
  inv_pool P b : b ∈ get_set P s ↔ ∃ B, heap s !! b = Some B ∧ idle B ∧ pool B = Some P ∧ L ≠ Some b;
  inv_sorted P : pool_sorted (heap s) (get_set P s);
  inv_allocated b B : heap s !! b = Some B → allocated B = true → allocated_blocks s !! ptr B = Some b;
  inv_client p b : allocated_blocks s !! p = Some b →
    ∃ B, heap s !! b = Some B ∧ allocated B = true ∧ ptr B = p ∧ m !! p = Some (desc_of B);
  inv_ghost p : is_Some (m !! p) → is_Some (allocated_blocks s !! p);
  inv_events b B : heap s !! b = Some B → event_count B = occ b evs;
  inv_waiting b : b ∈ evs → ∃ B, heap s !! b = Some B ∧ allocated B = false;
  inv_streams b B st : heap s !! b = Some B → st ∈ stream_uses B → stream_ok st;
  inv_fresh b : is_Some (heap s !! b) → (b < next_block s)%positive;
  inv_stats d st : device_stats s !! d = Some st → stats_ok (heap s) (Z.of_nat d) st;
  inv_maximal a A b B : heap s !! a = Some A → next A = Some b → heap s !! b = Some B → idle A → idle B →
    L = Some a ∨ L = Some b
}.

(** The invariant between two calls. *)
Definition Inv m s : Prop := inv None (cuda_events s).*2 m s.

(** What the clients hold. *)
Definition allocations s : gmap Z desc :=
  omap (λ b, desc_of <$> heap s !! b) (allocated_blocks s).

Lemma inv_allocations L evs m s : inv L evs m s → allocations s = m.
Proof.
  intros Hi. apply map_eq. intros p. unfold allocations. rewrite lookup_omap.
  destruct (allocated_blocks s !! p) as [b|] eqn:E; cbn.
  - destruct (inv_client _ _ _ _ Hi p b E) as (B & -> & _ & _ & ->). done.
  - destruct (m !! p) eqn:Em; [|done]. destruct (inv_ghost _ _ _ _ Hi p) as [? E']; [by rewrite Em|congruence].
Qed.

(** ** Failures of the runtime *)

(** The exceptions of a CUDA call that failed. *)
Definition fault (e : exn) s : Prop := (∃ what, e = C10Error what) ∧ faulted (world s).

(** ** Calls of the runtime *)
Definition with_world (w : W) s : Allocator W := set_cuda (CudaStream.set_world w (cuda s)) s.

Lemma inv_world L evs m s w : live w = live (world s) → inv L evs m s → inv L evs m (with_world w s).
Proof. intros E []. split; try done; cbn; by rewrite E. Qed.

Lemma wp_call {X} fine (f : cuda_call W X) (Q : cudaError_t * X → Allocator W → Prop) E s :
  quiet live faulted fine f →
  (∀ r w, live w = live (world s) → fine r.1 ∨ faulted w → Q r (with_world w s)) →
  wp (on_world (call f)) Q E s.
Proof.
  intros Hf HQ. unfold wp, on_world, on_streams, CudaStream.on_world, zoom, call. cbn.
  destruct (f _) as [[err x] w] eqn:Ef. destruct (Hf _ _ _ _ Ef) as (Hl & _ & Hq). by apply HQ.
Qed.

(** [C10_CUDA_CHECK] of a code that is a failure. *)
Lemma wp_check_error err (Q : unit → Allocator W → Prop) (E : exn → Allocator W → Prop) s :
  (err = cudaSuccess → Q tt s) →
  (err ≠ cudaSuccess → ∀ w, live w = live (world s) → (faulted (world s) → faulted w) →
     E (C10Error "CUDA error") (with_world w s)) →
  wp (on_world (check_error err)) Q E s.
Proof.
  intros HQ HE. unfold check_error. destruct (decide (err = cudaSuccess)) as [Hs|Hs].
  - unfold wp, on_world, on_streams, CudaStream.on_world, zoom. cbn. destruct s as [? ? ? ? ? ? ? []]. by apply HQ.
  - unfold wp, on_world, on_streams, CudaStream.on_world, zoom, mbind, SE_bind, call. cbn.
    destruct (cudaGetLastError _) as [[? ?] w] eqn:Ew. apply GetLastError_quiet in Ew as (Hl & Hf & _). cbn.
    by apply HE.
Qed.

Lemma on_world_bind {X Y} (a : SE W X) (f : X → SE W Y) s :
  on_world (a ≫= f) s = (on_world a ≫= λ x, on_world (f x)) s.
Proof.
  unfold on_world, on_streams, CudaStream.on_world, zoom, mbind, SE_bind. cbn.
  by destruct (a (CudaStream.world (cuda s))) as [[x|e] w].
Qed.

(** A checked call, by what the call does. *)
Lemma wp_checked {X} (f : cuda_call W X) (Q : X → Allocator W → Prop) s :
  (∀ err x w, f (world s) = ((err, x), w) →
     (err = cudaSuccess → Q x (with_world w s)) ∧ (err ≠ cudaSuccess → faulted w)) →
  wp (on_world (C10_CUDA_CHECK f)) Q fault s.
Proof.
  intros HQ. unfold C10_CUDA_CHECK, wp. rewrite on_world_bind. fold (wp (on_world (call f) ≫= λ r, on_world (check_error r.1;; mret r.2)) Q fault s).
  destruct (f (world s)) as [[err x] w] eqn:Ef. destruct (HQ _ _ _ eq_refl) as [Hok Hbad].
  eapply (wp_step _ _ _ _ _ (err, x) (with_world w s)).
  { unfold on_world, on_streams, CudaStream.on_world, zoom, call. cbn. unfold world in Ef. by rewrite Ef. }
  unfold wp. rewrite on_world_bind. fold (wp (on_world (check_error err) ≫= λ _, on_world (mret x)) Q fault (with_world w s)).
  apply wp_bind. apply wp_check_error.
  - intros Herr. unfold wp, on_world, on_streams, CudaStream.on_world, zoom. cbn. by apply Hok.
  - intros Hne w' _ Hw. split; [by eexists|]. by apply Hw, Hbad.
Qed.

Lemma wp_check {X} (f : cuda_call W X) (Q : X → Allocator W → Prop) s :
  quiet live faulted success f → (∀ x w, live w = live (world s) → Q x (with_world w s)) →
  wp (on_world (C10_CUDA_CHECK f)) Q fault s.
Proof.
  intros Hf HQ. apply wp_checked. intros err x w Ef. destruct (Hf _ _ _ _ Ef) as (Hl & _ & Hr).
  split; [intros _; by apply HQ|]. by destruct Hr.
Qed.

Lemma wp_free p n (Q : unit → Allocator W → Prop) s : live (world s) !! p = Some n →
  (∀ w, live w = delete p (live (world s)) → Q tt (with_world w s)) →
  wp (on_world (C10_CUDA_CHECK (cudaFree p))) Q fault s.
Proof.
  intros Hp HQ. apply wp_checked. intros err [] w Ef. destruct (Free_law _ _ _ _ _ _ Ef Hp) as [_ Hl].
  destruct err; split; [by intros _; apply HQ|done|done|done|done|done|done|done].
Qed.

(** ** Steps on the memory *)
Lemma run_deref b B s : heap s !! b = Some B → deref b s = (Ok B, s).
Proof. intros E. unfold deref, deref_in. by rewrite E. Qed.

Lemma run_update b f B s : heap s !! b = Some B → update b f s = (Ok tt, set_heap (<[b := f B]> (heap s)) s).
Proof. intros E. unfold update. by rewrite (run_bind _ _ _ _ _ (run_deref b B s E)). Qed.

Lemma run_delete b B s : heap s !! b = Some B → delete_block b s = (Ok tt, set_heap (delete b (heap s)) s).
Proof. intros E. unfold delete_block. by rewrite (run_bind _ _ _ _ _ (run_deref b B s E)). Qed.

Lemma get_put_set P P' xs s : get_set P (put_set P' xs s) = if decide (P = P') then xs else get_set P s.
Proof. by destruct P, P'. Qed.
Lemma heap_put_set P xs s : heap (put_set P xs s) = heap s.
Proof. by destruct P. Qed.
Lemma allocated_put_set P xs s : allocated_blocks (put_set P xs s) = allocated_blocks s.
Proof. by destruct P. Qed.
Lemma stats_put_set P xs s : device_stats (put_set P xs s) = device_stats s.
Proof. by destruct P. Qed.
Lemma next_put_set P xs s : next_block (put_set P xs s) = next_block s.
Proof. by destruct P. Qed.
Lemma world_put_set P xs s : world (put_set P xs s) = world s.
Proof. by destruct P. Qed.
Lemma events_put_set P xs s : cuda_events (put_set P xs s) = cuda_events s.
Proof. by destruct P. Qed.
Lemma get_set_heap P h s : get_set P (set_heap h s) = get_set P s.
Proof. by destruct P. Qed.

(** The members of a pool are in memory. *)
Lemma inv_in_heap L evs m s P : inv L evs m s → in_heap (heap s) (get_set P s).
Proof. intros Hi b Hb. apply (inv_pool _ _ _ _ Hi) in Hb as (B & E & _). by eexists. Qed.

Lemma inv_release L evs m s b : inv L evs m s → (∀ B, heap s !! b = Some B → ¬ idle B) → L = Some b → inv None evs m s.
Proof.
  intros [] Hb ->. split; try done.
  2:{ intros a A c C EA En EC HA HC. destruct (inv_maximal0 a A c C EA En EC HA HC) as [[= ->]|[= ->]]; exfalso; by eapply Hb. }
  intros P c. rewrite inv_pool0. split; intros (C & EC & Hc & Hp & Hn); exists C.
  - done.
  - split; [done|]. split; [done|]. split; [done|]. intros [= ->]. by apply (Hb C).
Qed.
End Spec.
