(* ===== verification/CudaFree.v ===== *)
(** * Freeing blocks

    [try_merge_blocks] and [free_block] keep the invariant of the allocator. *)
From S2P Require Import Prelude CoreTypes CudaRuntime CudaStream CudaAllocator CudaHeap CudaChains CudaAllocSpec.
Local Open Scope Z_scope.
#[local] Set Warnings "-clear-no-such-hyp".
Import CudaAllocator CUDAFunctions.

(** Blocks that differ in their links only. *)
Definition same_but_links (X X' : Block) : Prop :=
  block_key X' = block_key X ∧ allocated X' = allocated X ∧ event_count X' = event_count X ∧
  stream_uses X' = stream_uses X ∧ pool X' = pool X.

Lemma same_but_links_refl X : same_but_links X X.
Proof. by repeat split. Qed.

Lemma same_but_links_idle X X' : same_but_links X X' → (idle X' ↔ idle X) ∧ desc_of X' = desc_of X ∧ ptr X' = ptr X.
Proof.
  intros (Hk & Ha & He & _). unfold idle, desc_of. rewrite Ha, He. unfold block_key in Hk. injection Hk as Hd Hs Hz Hp.
  by rewrite Hd, Hs, Hz, Hp.
Qed.

Lemma same_but_links_weight d X X' : same_but_links X X' →
  weight (on_device d) X' = weight (on_device d) X ∧ weight (in_use_on d) X' = weight (in_use_on d) X.
Proof.
  intros (Hk & Ha & _). unfold weight, on_device, in_use_on. unfold block_key in Hk. injection Hk as Hd _ Hz _.
  by rewrite Ha, Hd, Hz.
Qed.

Section Free.
Context {W : Type} `{CudaLaws W}.
Implicit Types (s : Allocator W) (L : option block_ptr) (evs : list block_ptr) (m : gmap Z desc) (h : gmap block_ptr Block).

(** ** Joining [src] into [dst] *)
Record joined h (dst src : block_ptr) (D S D' : Block) h' : Prop := {
  j_dst : h !! dst = Some D;
  j_src : h !! src = Some S;
  j_new : h' !! dst = Some D';
  j_gone : h' !! src = None;
  j_rest x : x ≠ dst → x ≠ src →
    (h !! x = None ∧ h' !! x = None) ∨
    ∃ X X', h !! x = Some X ∧ h' !! x = Some X' ∧ same_but_links X X';
  j_device : device D' = device D;
  j_same : device S = device D;
  j_size : size D' = size D + size S;
  j_pool : pool D' = pool D;
  j_uses : stream_uses D' = stream_uses D;
  j_free : allocated D = false ∧ allocated S = false ∧ allocated D' = false;
  j_events : event_count D = 0 ∧ event_count S = 0 ∧ event_count D' = 0;
  j_links x X X' : x ≠ dst → h !! x = Some X → h' !! x = Some X' → next X' = next X ∨ next X' = Some dst
}.

Lemma joined_ne h dst src D S D' h' : joined h dst src D S D' h' → dst ≠ src.
Proof. intros [] ->. congruence. Qed.

Lemma joined_back h dst src D S D' h' x X' : joined h dst src D S D' h' → h' !! x = Some X' → x ≠ dst →
  x ≠ src ∧ ∃ X, h !! x = Some X ∧ same_but_links X X'.
Proof.
  intros Hj E Hx. assert (x ≠ src) by (intros ->; rewrite (j_gone _ _ _ _ _ _ _ Hj) in E; done).
  split; [done|]. destruct (j_rest _ _ _ _ _ _ _ Hj x) as [[_ E']|(X & Y & ? & ? & ?)]; [done..|congruence|].
  exists X. by simplify_eq.
Qed.

Lemma joined_forth h dst src D S D' h' x X : joined h dst src D S D' h' → h !! x = Some X → x ≠ dst → x ≠ src →
  ∃ X', h' !! x = Some X' ∧ same_but_links X X'.
Proof.
  intros Hj E Hx Hy. destruct (j_rest _ _ _ _ _ _ _ Hj x) as [[E' _]|(Y & X' & ? & ? & ?)]; [done..|congruence|].
  exists X'. by simplify_eq.
Qed.

Lemma joined_total f h dst src D S D' h' :
  joined h dst src D S D' h' → weight f D' = weight f D + weight f S →
  (∀ X X', same_but_links X X' → weight f X' = weight f X) → total f h' = total f h.
Proof.
  intros Hj Hw Hf. pose proof (joined_ne _ _ _ _ _ _ _ Hj) as Hne.
  rewrite (total_delete f h' dst D') by apply Hj.
  rewrite (total_delete f h dst D) by apply Hj.
  rewrite (total_delete f (delete dst h) src S) by (rewrite lookup_delete_ne by done; apply Hj).
  rewrite Hw. rewrite (total_ext f (delete dst h') (delete src (delete dst h))); [lia|].
  intros x. destruct (decide (x = src)) as [->|Hs].
  { rewrite lookup_delete_eq, lookup_delete_ne by done. by rewrite (j_gone _ _ _ _ _ _ _ Hj). }
  rewrite (lookup_delete_ne _ src) by done.
  destruct (decide (x = dst)) as [->|Hd]; [by rewrite !lookup_delete_eq|].
  rewrite !lookup_delete_ne by done.
  destruct (j_rest _ _ _ _ _ _ _ Hj x) as [[-> ->]|(X & X' & -> & -> & Hs')]; [done..|].
  cbn. by rewrite (Hf X X').
Qed.

Lemma inv_joined dst src D S D' h' evs m s P :
  inv (Some dst) evs m s → joined (heap s) dst src D S D' h' → heap_ok (live (world s)) (length (device_stats s)) h' →
  pool S = Some P →
  inv (Some dst) evs m (put_set P (filter (λ x, x ≠ src) (get_set P s)) (set_heap h' s)).
Proof.
  intros Hi Hj Hok HP. pose proof (joined_ne _ _ _ _ _ _ _ Hj) as Hne.
  destruct (j_free _ _ _ _ _ _ _ Hj) as (FD & FS & FD'). destruct (j_events _ _ _ _ _ _ _ Hj) as (ED & ES & ED').
  assert (Hsrc : ∀ b, allocated_blocks s !! b ≠ Some src).
  { intros b E. destruct (inv_client _ _ _ _ Hi b src E) as (B & EB & HB & _). rewrite (j_src _ _ _ _ _ _ _ Hj) in EB. congruence. }
  assert (Hdst : ∀ b, allocated_blocks s !! b ≠ Some dst).
  { intros b E. destruct (inv_client _ _ _ _ Hi b dst E) as (B & EB & HB & _). rewrite (j_dst _ _ _ _ _ _ _ Hj) in EB. congruence. }
  assert (Hmem : ∀ Q b, b ∈ filter (λ x, x ≠ src) (get_set Q s) ↔ ∃ B, h' !! b = Some B ∧ idle B ∧ pool B = Some Q ∧ Some dst ≠ Some b).
  { intros Q b. rewrite list_elem_of_filter, (inv_pool _ _ _ _ Hi). split.
    - intros (Hb & B & EB & Hc & Hp & Hl). destruct (joined_forth _ _ _ _ _ _ _ b B Hj EB) as (B' & EB' & Hs); [congruence|done|].
      exists B'. destruct (same_but_links_idle B B' Hs) as [-> _]. destruct Hs as (_ & _ & _ & _ & ->). done.
    - intros (B' & EB' & Hc & Hp & Hl). destruct (joined_back _ _ _ _ _ _ _ b B' Hj EB') as (Hb & B & EB & Hs); [congruence|].
      split; [done|]. exists B. destruct (same_but_links_idle B B' Hs) as [<- _]. destruct Hs as (_ & _ & _ & _ & <-). done. }
  split.
  - by destruct P, Hi.
  - by destruct P.
  - intros Q b. rewrite get_put_set, heap_put_set. cbn [heap set_heap]. rewrite <- Hmem.
    case_decide as HQ; [by subst|]. rewrite get_set_heap, list_elem_of_filter. split; [|by intros []].
    intros Hb. split; [|done]. intros ->. apply (inv_pool _ _ _ _ Hi) in Hb as (B & EB & _ & HQ' & _).
    rewrite (j_src _ _ _ _ _ _ _ Hj) in EB. congruence.
  - intros Q. rewrite get_put_set, heap_put_set, get_set_heap. cbn [heap set_heap].
    apply (sorted_ext (heap s)); [|case_decide; [apply sorted_filter|]; apply (inv_sorted _ _ _ _ Hi)].
    intros x X Hx EX. assert (x ∈ filter (λ x, x ≠ src) (get_set Q s)) as Hf.
    { case_decide; [by subst|]. apply list_elem_of_filter. split; [|done]. intros ->.
      apply (inv_pool _ _ _ _ Hi) in Hx as (B & EB & _ & HQ' & _). rewrite (j_src _ _ _ _ _ _ _ Hj) in EB. congruence. }
    apply Hmem in Hf as (X' & EX' & _ & _ & Hl). exists X'. split; [done|].
    destruct (joined_back _ _ _ _ _ _ _ x X' Hj EX') as (_ & X2 & EX2 & Hs); [congruence|]. simplify_eq. apply Hs.
  - intros b B' EB' Ha. rewrite heap_put_set in EB'. cbn in EB'.
    assert (b ≠ dst) by (intros ->; rewrite (j_new _ _ _ _ _ _ _ Hj) in EB'; congruence).
    destruct (joined_back _ _ _ _ _ _ _ b B' Hj EB') as (_ & B & EB & Hs); [done|].
    destruct (same_but_links_idle B B' Hs) as (_ & _ & ->). destruct Hs as (_ & Hal & _).
    replace (allocated_blocks _) with (allocated_blocks s) by (by destruct P).
    apply (inv_allocated _ _ _ _ Hi b B EB); congruence.
  - intros p b. replace (allocated_blocks _) with (allocated_blocks s) by (by destruct P). intros E.
    destruct (inv_client _ _ _ _ Hi p b E) as (B & EB & HB & Hp & Hm).
    destruct (joined_forth _ _ _ _ _ _ _ b B Hj EB) as (B' & EB' & Hs).
    { intros ->. by apply (Hdst p). } { intros ->. by apply (Hsrc p). }
    exists B'. rewrite heap_put_set. destruct (same_but_links_idle B B' Hs) as (_ & -> & ->). destruct Hs as (_ & -> & _). done.
  - intros p. replace (allocated_blocks _) with (allocated_blocks s) by (by destruct P). apply (inv_ghost _ _ _ _ Hi).
  - intros b B' EB'. rewrite heap_put_set in EB'. cbn in EB'. destruct (decide (b = dst)) as [->|Hb].
    + rewrite (j_new _ _ _ _ _ _ _ Hj) in EB'. injection EB' as <-. rewrite ED'.
      rewrite <- ED. apply (inv_events _ _ _ _ Hi), Hj.
    + destruct (joined_back _ _ _ _ _ _ _ b B' Hj EB') as (_ & B & EB & _ & _ & -> & _); [done|].
      by apply (inv_events _ _ _ _ Hi).
  - intros b Hb. rewrite heap_put_set. destruct (inv_waiting _ _ _ _ Hi b Hb) as (B & EB & Ha).
    assert (Hoc : event_count B ≠ 0) by (rewrite (inv_events _ _ _ _ Hi b B EB); apply occ_pos in Hb; lia).
    destruct (joined_forth _ _ _ _ _ _ _ b B Hj EB) as (B' & EB' & _ & Ha' & _).
    { intros ->. rewrite (j_dst _ _ _ _ _ _ _ Hj) in EB. congruence. }
    { intros ->. rewrite (j_src _ _ _ _ _ _ _ Hj) in EB. congruence. }
    exists B'. split; [done|congruence].
  - intros b B' st EB'. rewrite heap_put_set in EB'. cbn in EB'. destruct (decide (b = dst)) as [->|Hb].
    + rewrite (j_new _ _ _ _ _ _ _ Hj) in EB'. injection EB' as <-. rewrite (j_uses _ _ _ _ _ _ _ Hj).
      apply (inv_streams _ _ _ _ Hi dst), Hj.
    + destruct (joined_back _ _ _ _ _ _ _ b B' Hj EB') as (_ & B & EB & _ & _ & _ & -> & _); [done|].
      by apply (inv_streams _ _ _ _ Hi b).
  - intros b [B' EB']. rewrite heap_put_set in EB'. cbn in EB'. replace (next_block _) with (next_block s) by (by destruct P).
    apply (inv_fresh _ _ _ _ Hi). destruct (decide (b = dst)) as [->|Hb].
    + eexists. apply Hj.
    + destruct (joined_back _ _ _ _ _ _ _ b B' Hj EB') as (_ & B & EB & _); [done|by eexists].
  - intros d st Hst. rewrite heap_put_set. cbn [heap set_heap].
    replace (device_stats _) with (device_stats s) in Hst by (by destruct P).
    destruct (inv_stats _ _ _ _ Hi d st Hst) as [H1 H2 H3 H4]. split; [| |done..].
    + rewrite H1. symmetry. apply (joined_total _ _ _ _ _ _ _ _ Hj); [|intros; by apply same_but_links_weight].
      unfold weight, in_use_on. by rewrite FD, FS, FD', !andb_false_r.
    + rewrite H2. symmetry. apply (joined_total _ _ _ _ _ _ _ _ Hj); [|intros; by apply same_but_links_weight].
      unfold weight, on_device. rewrite (j_device _ _ _ _ _ _ _ Hj), (j_same _ _ _ _ _ _ _ Hj), (j_size _ _ _ _ _ _ _ Hj).
      by destruct (_ =? _).
  - intros a A' b B'. rewrite heap_put_set. cbn [heap set_heap]. intros EA' En EB' HA' HB'.
    destruct (decide (a = dst)) as [->|Ha]; [by left|]. destruct (decide (b = dst)) as [->|Hb]; [by right|].
    destruct (joined_back _ _ _ _ _ _ _ a A' Hj EA') as (_ & A & EA & HsA); [done|].
    destruct (joined_back _ _ _ _ _ _ _ b B' Hj EB') as (_ & B & EB & HsB); [done|].
    destruct (j_links _ _ _ _ _ _ _ Hj a A A') as [Hn|Hn]; [done..| |congruence].
    apply (inv_maximal _ _ _ _ Hi a A b B); [done|congruence|done|by apply (same_but_links_idle A A')|by apply (same_but_links_idle B B')].
Qed.

(** *** The program *)

(** The state after a change of the memory and a removal from a pool. *)
Definition merged P (src : block_ptr) h' s : Allocator W :=
  put_set P (filter (λ x, x ≠ src) (get_set P s)) (set_heap h' s).

(** The part of [try_merge_blocks] after the links are set. *)
Definition absorb (dst src : block_ptr) P : SE (Allocator W) unit :=
  D ← deref dst;
  S ← deref src;
  update dst (set_size (size_t (size D + size S)));;
  pool_erase P src;;
  delete_block src.

Lemma absorb_run dst src P s D S :
  heap s !! dst = Some D → heap s !! src = Some S → dst ≠ src →
  in_heap (heap s) (get_set P s) → pool_sorted (heap s) (get_set P s) → dst ∉ get_set P s → src ∈ get_set P s →
  absorb dst src P s = (Ok tt, merged P src (delete src (<[dst := set_size (size_t (size D + size S)) D]> (heap s))) s).
Proof.
  intros ED ES Hne Hin Hs Hd Hm. unfold absorb.
  rewrite (run_bind _ _ _ _ _ (run_deref _ _ _ ED)), (run_bind _ _ _ _ _ (run_deref _ _ _ ES)).
  rewrite (run_bind _ _ _ _ _ (run_update _ _ _ _ ED)). set (h1 := <[dst := _]> (heap s)).
  assert (Hk : ∀ x X, x ∈ get_set P s → heap s !! x = Some X → ∃ X', h1 !! x = Some X' ∧ block_key X' = block_key X).
  { intros x X Hx EX. exists X. split; [|done]. unfold h1. rewrite lookup_insert_ne by (by intros ->). done. }
  assert (ES1 : h1 !! src = Some S) by (unfold h1; by rewrite lookup_insert_ne).
  assert (Ee : pool_erase P src (set_heap h1 s) = (Ok tt, merged P src h1 s)).
  { unfold pool_erase. rewrite run_get. cbn [heap set_heap]. unfold deref_in. rewrite ES1.
    cbn [lift]. unfold mbind at 1, SE_bind at 1, lift at 1. rewrite get_set_heap.
    rewrite (set_erase_spec h1 src S); [done| |by apply (sorted_ext (heap s))|done..].
    intros x Hx. destruct (Hin x Hx) as [X EX]. destruct (Hk x X Hx EX) as (X' & -> & _). by eexists. }
  rewrite (run_bind _ _ _ _ _ Ee).
  rewrite (run_delete src S) by (unfold merged; by rewrite heap_put_set).
  unfold merged. rewrite heap_put_set. by destruct P.
Qed.

Lemma merge_unfold dst src P s S D :
  heap s !! src = Some S → heap s !! dst = Some D → idle S →
  try_merge_blocks dst (Some src) P s =
  ((if decide (prev D = Some src) then
      update dst (set_ptr (ptr S));;
      update dst (set_prev (prev S));;
      match prev S with Some p => update p (set_next (Some dst)) | None => mret tt end
    else
      update dst (set_next (next S));;
      match next S with Some n => update n (set_prev (Some dst)) | None => mret tt end);;
   absorb dst src P) s.
Proof.
  intros ES ED [Ha He]. unfold try_merge_blocks.
  rewrite (run_bind _ _ _ _ _ (run_deref _ _ _ ES)). rewrite Ha, He. cbn [orb Z.ltb Z.compare].
  by rewrite (run_bind _ _ _ _ _ (run_deref _ _ _ ED)).
Qed.

(** A change of the link of at most one other block. *)
Definition relinked h (dst : block_ptr) (D1 : Block) (link : option block_ptr) (f : Block → Block) : gmap block_ptr Block :=
  match link with Some p => alter f p (<[dst := D1]> h) | None => <[dst := D1]> h end.

Lemma relink_run dst D link f s (g : Block → Block) :
  heap s !! dst = Some D → (∀ p, link = Some p → is_Some (heap s !! p) ∧ p ≠ dst) →
  (update dst g;; match link with Some p => update p f | None => mret tt end) s =
  (Ok tt, set_heap (relinked (heap s) dst (g D) link f) s).
Proof.
  intros ED Hl. rewrite (run_bind _ _ _ _ _ (run_update _ _ _ _ ED)). destruct link as [p|]; [|done].
  destruct (Hl p eq_refl) as [[X EX] Hp]. rewrite (run_update p f X) by (cbn; by rewrite lookup_insert_ne).
  cbn [heap set_heap relinked]. unfold set_heap; cbn. do 2 f_equal.
  apply map_eq. intros x. destruct (decide (x = p)) as [->|].
  - rewrite lookup_insert_eq, lookup_alter_eq, lookup_insert_ne by done. by rewrite EX.
  - by rewrite lookup_insert_ne, lookup_alter_ne.
Qed.

Lemma relink_run2 dst D link f s (g1 g2 : Block → Block) :
  heap s !! dst = Some D → (∀ p, link = Some p → is_Some (heap s !! p) ∧ p ≠ dst) →
  (update dst g1;; update dst g2;; match link with Some p => update p f | None => mret tt end) s =
  (Ok tt, set_heap (relinked (heap s) dst (g2 (g1 D)) link f) s).
Proof.
  intros ED Hl. rewrite (run_bind _ _ _ _ _ (run_update _ _ _ _ ED)).
  rewrite (relink_run dst (g1 D)); cbn [heap set_heap].
  - unfold relinked. rewrite insert_insert_eq. by destruct link.
  - apply lookup_insert_eq.
  - intros p Ep. destruct (Hl p Ep) as [? ?]. by rewrite lookup_insert_ne.
Qed.

Lemma relinked_dst h dst D link f : (∀ p, link = Some p → p ≠ dst) → relinked h dst D link f !! dst = Some D.
Proof.
  intros Hl. destruct link as [p|]; cbn; [|apply lookup_insert_eq].
  rewrite lookup_alter_ne by (by apply Hl). apply lookup_insert_eq.
Qed.

Lemma relinked_rest h dst D link f x : x ≠ dst →
  relinked h dst D link f !! x = (if decide (link = Some x) then f else id) <$> h !! x.
Proof.
  intros Hx. destruct link as [p|]; cbn.
  - case_decide as Hp.
    + injection Hp as ->. by rewrite lookup_alter_eq, lookup_insert_ne.
    + rewrite lookup_alter_ne, lookup_insert_ne by congruence. by destruct (h !! x).
  - rewrite decide_False by done. rewrite lookup_insert_ne by done. by destruct (h !! x).
Qed.

(** The blocks of the linked heap have the keys they had. *)
Lemma relinked_keys h dst D link f x X : (∀ Y, same_but_links Y (f Y)) →
  h !! x = Some X → x ≠ dst → ∃ X', relinked h dst D link f !! x = Some X' ∧ same_but_links X X'.
Proof.
  intros Hf EX Hx. rewrite relinked_rest by done. rewrite EX. cbn. eexists. split; [done|].
  case_decide; [apply Hf|apply same_but_links_refl].
Qed.

Lemma pool_without_L L evs m s P b : inv L evs m s → L = Some b → b ∉ get_set P s.
Proof. intros Hi -> Hb. apply (inv_pool _ _ _ _ Hi) in Hb as (_ & _ & _ & _ & Hn). done. Qed.

(** What the two directions of the merge have in common. *)
Section Merge.
Context (dst src : block_ptr) (D S D1 : Block) (link : option block_ptr) (f : Block → Block) (P : BlockPool) evs m s.
Context (Hi : inv (Some dst) evs m s) (ED : heap s !! dst = Some D) (ES : heap s !! src = Some S)
  (HD : idle D) (HS : idle S) (HP : pool S = Some P) (Hne : dst ≠ src)
  (Hlink : ∀ p, link = Some p → is_Some (heap s !! p) ∧ p ≠ dst ∧ p ≠ src) (Hf : ∀ Y, same_but_links Y (f Y))
  (Hfn : ∀ Y, next (f Y) = next Y ∨ next (f Y) = Some dst)
  (D1_eq : device D1 = device D ∧ stream D1 = stream D ∧ pool D1 = pool D ∧ size D1 = size D ∧
     stream_uses D1 = stream_uses D ∧ idle D1) (Hdev : device S = device D).

Definition merged_heap : gmap block_ptr Block :=
  delete src (<[dst := set_size (size_t (size D1 + size S)) D1]> (relinked (heap s) dst D1 link f)).

Lemma merged_dst : merged_heap !! dst = Some (set_size (size_t (size D1 + size S)) D1).
Proof. unfold merged_heap. rewrite lookup_delete_ne by done. apply lookup_insert_eq. Qed.
Lemma merged_src : merged_heap !! src = None.
Proof. apply lookup_delete_eq. Qed.
Lemma merged_rest x : x ≠ dst → x ≠ src → merged_heap !! x = (if decide (link = Some x) then f else id) <$> heap s !! x.
Proof. intros. unfold merged_heap. rewrite lookup_delete_ne, lookup_insert_ne by done. by apply relinked_rest. Qed.

Lemma merged_size : 0 < size D ∧ 0 < size S ∧ size D + size S < 2 ^ 64.
Proof.
  pose proof (inv_regions _ _ _ _ Hi) as Hr. pose proof (inv_heap _ _ _ _ Hi) as Hh.
  pose proof (block_bounds _ _ _ _ _ Hr Hh ED). pose proof (block_bounds _ _ _ _ _ Hr Hh ES).
  split; [lia|]. split; [lia|].
  destruct (heap_disjoint _ _ _ Hh dst src D S ED ES Hne) as [|]; lia.
Qed.

Lemma merge_joined : joined (heap s) dst src D S (set_size (size_t (size D1 + size S)) D1) merged_heap.
Proof.
  pose proof merged_size. destruct D1_eq as (? & ? & ? & Hz & ? & []), HD, HS. split.
  - done.
  - done.
  - apply merged_dst.
  - apply merged_src.
  - intros x Hx1 Hx2. rewrite merged_rest by done. destruct (heap s !! x) as [X|]; [right|by left].
    exists X. eexists. split; [done|]. split; [done|]. case_decide; [apply Hf|apply same_but_links_refl].
  - done.
  - done.
  - cbn. rewrite Hz. apply size_t_id. lia.
  - done.
  - done.
  - done.
  - done.
  - intros x X X' Hx EX EX'. assert (x ≠ src) by (intros ->; by rewrite merged_src in EX').
    rewrite merged_rest, EX in EX' by done. injection EX' as <-. case_decide; [apply Hfn|by left].
Qed.

Lemma absorb_merged : absorb dst src P (set_heap (relinked (heap s) dst D1 link f) s) = (Ok tt, merged P src merged_heap s).
Proof.
  assert (Hd : dst ∉ get_set P s) by (by eapply pool_without_L).
  assert (Hm : src ∈ get_set P s).
  { apply (inv_pool _ _ _ _ Hi). exists S. split; [done|]. split; [done|]. split; [done|congruence]. }
  destruct (relinked_keys (heap s) dst D1 link f src S Hf ES ltac:(done)) as (S' & ES' & Hs).
  assert (S' = S) as ->.
  { rewrite relinked_rest, ES in ES' by done. rewrite decide_False in ES' by (intros E; by apply Hlink in E as (_ & _ & ?)). by injection ES'. }
  rewrite (absorb_run dst src P _ D1 S).
  - by destruct P.
  - apply relinked_dst. intros p Ep. by apply Hlink.
  - done.
  - done.
  - rewrite get_set_heap. intros x Hx. destruct (inv_in_heap _ _ _ _ P Hi x Hx) as [X EX].
    destruct (relinked_keys (heap s) dst D1 link f x X Hf EX) as (X' & EX' & _); [by intros ->|]. by eexists.
  - rewrite get_set_heap. apply (sorted_ext (heap s)); [|by eapply inv_sorted].
    intros x X Hx EX. destruct (relinked_keys (heap s) dst D1 link f x X Hf EX) as (X' & EX' & Hk & _); [by intros ->|].
    by exists X'.
  - by rewrite get_set_heap.
  - by rewrite get_set_heap.
Qed.
End Merge.

(** The rest of the state. *)
Definition frame s s' : Prop :=
  cuda_events s' = cuda_events s ∧ cuda s' = cuda s ∧ device_stats s' = device_stats s.

Lemma merged_frame P src h' s : frame s (merged P src h' s).
Proof. unfold frame, merged. by destruct P. Qed.

Lemma set_next_same dst Y : same_but_links Y (set_next dst Y).
Proof. by repeat split. Qed.
Lemma set_prev_same dst Y : same_but_links Y (set_prev dst Y).
Proof. by repeat split. Qed.
Lemma set_prev_id X : set_prev (prev X) X = X.
Proof. by destruct X. Qed.
Lemma set_next_id X : set_next (next X) X = X.
Proof. by destruct X. Qed.

Lemma merge_left dst src D S P evs m s :
  inv (Some dst) evs m s → heap s !! dst = Some D → heap s !! src = Some S → idle D → idle S → pool S = Some P →
  prev D = Some src → next S = Some dst → adjacent S D →
  ∃ h' D', joined (heap s) dst src D S D' h' ∧ try_merge_blocks dst (Some src) P s = (Ok tt, merged P src h' s) ∧
    heap_ok (live (world s)) (length (device_stats s)) h' ∧ prev D' = prev S ∧ next D' = next D.
Proof.
  intros Hi ED ES HD HS HP Ev En Ha. pose proof (inv_regions _ _ _ _ Hi) as Hr. pose proof (inv_heap _ _ _ _ Hi) as Hh.
  assert (Hne : dst ≠ src). { intros ->. rewrite ES in ED. injection ED as ->. pose proof (block_bounds _ _ _ _ _ Hr Hh ES). destruct Ha. lia. }
  set (D1 := set_prev (prev S) (set_ptr (ptr S) D)).
  assert (Hlink : ∀ p, prev S = Some p → is_Some (heap s !! p) ∧ p ≠ dst ∧ p ≠ src).
  { intros p Ep. destruct (before_lo _ _ _ _ _ _ _ Hh ES ED En p Ep) as (A & EA & _ & _ & _ & ? & ?). eauto. }
  assert (HD1 : device D1 = device D ∧ stream D1 = stream D ∧ pool D1 = pool D ∧ size D1 = size D ∧
     stream_uses D1 = stream_uses D ∧ idle D1) by (by repeat split; apply HD).
  destruct Ha as (Hap & Had & Has & Hal).
  assert (Hadj : adjacent S D) by (unfold adjacent; auto).
  pose proof (merged_size dst src D S evs m s Hi ED ES Hne) as (Hs1 & Hs2 & Hs3).
  exists (merged_heap dst src S D1 (prev S) (set_next (Some dst)) s). eexists. split; [|split; [|split]].
  - eapply (merge_joined dst src D S D1 (prev S) (set_next (Some dst))); first [done|intros; apply set_next_same|intros; by right].
  - rewrite (merge_unfold _ _ _ _ _ _ ES ED HS). rewrite decide_True by done.
    rewrite (run_bind _ _ _ _ _ (relink_run2 dst D (prev S) (set_next (Some dst)) s (set_ptr (ptr S)) (set_prev (prev S)) ED
      (λ p Ep, conj (proj1 (Hlink p Ep)) (proj1 (proj2 (Hlink p Ep)))))).
    eapply absorb_merged; first [done|intros; apply set_next_same].
  - eapply (join_heap_ok _ _ (heap s) src dst S D Hr Hh ES ED En dst _ _ (or_intror eq_refl)).
    + by apply merged_dst.
    + intros x [->| ->] Hx; [by apply merged_src|done].
    + intros x H1 H2. rewrite (merged_rest dst src S D1) by done. destruct (heap s !! x) as [X|] eqn:EX; [|done]. cbn. f_equal.
      unfold relink. case_decide; [done|]. case_decide as Hx; [|done].
      destruct (heap_next _ _ _ Hh dst D x ED Hx) as (X2 & EX2 & Hp & _). simplify_eq. rewrite <- Hp. symmetry. apply set_prev_id.
    + cbn. done.
    + cbn. done.
    + cbn. done.
    + done.
    + cbn. rewrite size_t_id by lia. lia.
    + done.
    + done.
  - done.
Qed.

Lemma merge_right dst src D S P evs m s :
  inv (Some dst) evs m s → heap s !! dst = Some D → heap s !! src = Some S → idle D → idle S → pool S = Some P →
  next D = Some src → prev S = Some dst → adjacent D S →
  ∃ h' D', joined (heap s) dst src D S D' h' ∧ try_merge_blocks dst (Some src) P s = (Ok tt, merged P src h' s) ∧
    heap_ok (live (world s)) (length (device_stats s)) h' ∧ prev D' = prev D ∧ next D' = next S.
Proof.
  intros Hi ED ES HD HS HP Ev En Ha. pose proof (inv_regions _ _ _ _ Hi) as Hr. pose proof (inv_heap _ _ _ _ Hi) as Hh.
  pose proof (block_bounds _ _ _ _ _ Hr Hh ES) as BS. pose proof (block_bounds _ _ _ _ _ Hr Hh ED) as BD.
  assert (Hne : dst ≠ src). { intros ->. rewrite ES in ED. injection ED as ->. destruct Ha. lia. }
  set (D1 := set_next (next S) D).
  assert (Hlink : ∀ p, next S = Some p → is_Some (heap s !! p) ∧ p ≠ dst ∧ p ≠ src).
  { intros p Ep. destruct (after_hi _ _ _ _ _ _ _ Hh ED ES Ev p Ep) as (A & EA & _ & _ & _ & ? & ? & _). eauto. }
  assert (HD1 : device D1 = device D ∧ stream D1 = stream D ∧ pool D1 = pool D ∧ size D1 = size D ∧
     stream_uses D1 = stream_uses D ∧ idle D1) by (by repeat split; apply HD).
  destruct Ha as (Hap & Had & Has & Hal).
  assert (Hadj : adjacent D S) by (unfold adjacent; auto).
  pose proof (merged_size dst src D S evs m s Hi ED ES Hne) as (Hs1 & Hs2 & Hs3).
  exists (merged_heap dst src S D1 (next S) (set_prev (Some dst)) s). eexists. split; [|split; [|split]].
  - eapply (merge_joined dst src D S D1 (next S) (set_prev (Some dst))); first [done|intros; apply set_prev_same|intros; by left].
  - rewrite (merge_unfold _ _ _ _ _ _ ES ED HS). rewrite decide_False.
    2:{ intros Ep. destruct (heap_prev _ _ _ Hh dst D src ED Ep) as (S2 & ES2 & _ & Hq & _). simplify_eq. lia. }
    rewrite (run_bind _ _ _ _ _ (relink_run dst D (next S) (set_prev (Some dst)) s (set_next (next S)) ED
      (λ p Ep, conj (proj1 (Hlink p Ep)) (proj1 (proj2 (Hlink p Ep)))))).
    eapply absorb_merged; first [done|intros; apply set_prev_same].
  - eapply (join_heap_ok _ _ (heap s) dst src D S Hr Hh ED ES Ev dst _ _ (or_introl eq_refl)).
    + by apply merged_dst.
    + intros x [->| ->] Hx; [done|by apply merged_src].
    + intros x H1 H2. rewrite (merged_rest dst src S D1) by done. destruct (heap s !! x) as [X|] eqn:EX; [|done]. cbn. f_equal.
      unfold relink. destruct (decide (prev D = Some x)) as [Hp|Hp].
      * rewrite decide_False.
        -- destruct (heap_prev _ _ _ Hh dst D x ED Hp) as (X2 & EX2 & Hq & _). simplify_eq. rewrite <- Hq. symmetry. apply set_next_id.
        -- intros Hn. by destruct (after_hi _ _ _ _ _ _ _ Hh ED ES Ev x Hn) as (_ & _ & _ & _ & _ & _ & _ & []).
      * by destruct (decide (next S = Some x)).
    + cbn. done.
    + cbn. done.
    + cbn. done.
    + done.
    + cbn. rewrite size_t_id by lia. lia.
    + done.
    + done.
  - done.
Qed.

(** The neighbours of [dst] cannot be joined to it. *)
Definition settled (side : Block → option block_ptr) dst s : Prop := ∀ D a A,
  heap s !! dst = Some D → side D = Some a → heap s !! a = Some A → ¬ idle A.

Lemma merged_idle h dst src D S D' h' x X' : joined h dst src D S D' h' → h' !! x = Some X' → x ≠ dst →
  ∃ X, h !! x = Some X ∧ (idle X' ↔ idle X).
Proof.
  intros Hj E Hx. destruct (joined_back _ _ _ _ _ _ _ x X' Hj E Hx) as (_ & X & EX & Hs).
  exists X. split; [done|]. by apply same_but_links_idle.
Qed.

(** Not merging. *)
Lemma try_merge_skip dst src S P evs m L s : inv L evs m s → heap s !! src = Some S → ¬ idle S →
  try_merge_blocks dst (Some src) P s = (Ok tt, s).
Proof.
  intros Hi ES HS. unfold try_merge_blocks. rewrite (run_bind _ _ _ _ _ (run_deref _ _ _ ES)).
  pose proof (inv_events _ _ _ _ Hi src S ES) as He. pose proof (occ_nonneg src evs).
  destruct (allocated S) eqn:Ea; [done|]. cbn [orb]. destruct (Z.ltb_spec 0 (event_count S)); [done|].
  destruct HS. split; [done|lia].
Qed.

Lemma try_merge_prev dst D P evs m s :
  inv (Some dst) evs m s → heap s !! dst = Some D → idle D → pool D = Some P →
  ∃ s' D', try_merge_blocks dst (prev D) P s = (Ok tt, s') ∧ inv (Some dst) evs m s' ∧ frame s s' ∧
    heap s' !! dst = Some D' ∧ idle D' ∧ pool D' = Some P ∧ settled prev dst s'.
Proof.
  intros Hi ED HD HP. pose proof (inv_heap _ _ _ _ Hi) as Hh.
  destruct (prev D) as [src|] eqn:Ep.
  2:{ exists s, D. repeat (split; [done|]). intros D2 a A ED2 Ea. congruence. }
  destruct (heap_prev _ _ _ Hh dst D src ED Ep) as (S & ES & En & Ha).
  destruct (decide (idle S)) as [HS|HS].
  - assert (HPS : pool S = Some P) by (destruct Ha as (_ & _ & _ & Hp); congruence).
    destruct (merge_left dst src D S P evs m s) as (h' & D' & Hj & Er & Hok & Ev' & _); [done..|].
    assert (EH : heap (merged P src h' s) = h') by (unfold merged; by rewrite heap_put_set).
    exists (merged P src h' s), D'. split; [done|]. split; [by eapply inv_joined|]. split; [apply merged_frame|].
    split; [rewrite EH; apply Hj|].
    split; [split; [by apply (j_free _ _ _ _ _ _ _ Hj)|by apply (j_events _ _ _ _ _ _ _ Hj)]|].
    split; [by rewrite (j_pool _ _ _ _ _ _ _ Hj)|].
    intros D2 a A' ED2 Ea EA' HA. rewrite EH in ED2, EA'. rewrite (j_new _ _ _ _ _ _ _ Hj) in ED2. injection ED2 as <-.
    rewrite Ev' in Ea. destruct (before_lo _ _ _ _ _ _ _ Hh ES ED En a Ea) as (A & EA & EnA & _ & _ & Has & Had).
    destruct (merged_idle _ _ _ _ _ _ _ a A' Hj EA' Had) as (A2 & EA2 & Hid). simplify_eq. apply Hid in HA.
    destruct (inv_maximal _ _ _ _ Hi a A src S EA EnA ES HA HS) as [[= ?]|[= ?]]; [congruence|].
    by apply (joined_ne _ _ _ _ _ _ _ Hj).
  - exists s, D. split; [by eapply try_merge_skip|]. repeat (split; [done|]). intros D2 a A ED2 Ea EA. by simplify_eq.
Qed.

Lemma try_merge_next dst D P evs m s :
  inv (Some dst) evs m s → heap s !! dst = Some D → idle D → pool D = Some P → settled prev dst s →
  ∃ s' D', try_merge_blocks dst (next D) P s = (Ok tt, s') ∧ inv (Some dst) evs m s' ∧ frame s s' ∧
    heap s' !! dst = Some D' ∧ idle D' ∧ pool D' = Some P ∧ settled prev dst s' ∧ settled next dst s'.
Proof.
  intros Hi ED HD HP Hset. pose proof (inv_heap _ _ _ _ Hi) as Hh.
  destruct (next D) as [src|] eqn:Ep.
  2:{ exists s, D. repeat (split; [done|]). intros D2 a A ED2 Ea. congruence. }
  destruct (heap_next _ _ _ Hh dst D src ED Ep) as (S & ES & En & Ha).
  destruct (decide (idle S)) as [HS|HS].
  - assert (HPS : pool S = Some P) by (destruct Ha as (_ & _ & _ & Hp); congruence).
    destruct (merge_right dst src D S P evs m s) as (h' & D' & Hj & Er & Hok & Ev' & En'); [done..|].
    assert (EH : heap (merged P src h' s) = h') by (unfold merged; by rewrite heap_put_set).
    exists (merged P src h' s), D'. split; [done|]. split; [by eapply inv_joined|]. split; [apply merged_frame|].
    split; [rewrite EH; apply Hj|].
    split; [split; [by apply (j_free _ _ _ _ _ _ _ Hj)|by apply (j_events _ _ _ _ _ _ _ Hj)]|].
    split; [by rewrite (j_pool _ _ _ _ _ _ _ Hj)|].
    split; intros D2 a A' ED2 Ea EA' HA; rewrite EH in ED2, EA'; rewrite (j_new _ _ _ _ _ _ _ Hj) in ED2; injection ED2 as <-.
    + rewrite Ev' in Ea. destruct (before_lo _ _ _ _ _ _ _ Hh ED ES Ep a Ea) as (A & EA & EnA & _ & _ & Had & Has).
      destruct (merged_idle _ _ _ _ _ _ _ a A' Hj EA' Had) as (A2 & EA2 & Hid). simplify_eq. apply Hid in HA.
      by apply (Hset D a A).
    + rewrite En' in Ea. destruct (after_hi _ _ _ _ _ _ _ Hh ED ES Ep a Ea) as (A & EA & EnA & _ & _ & Had & Has & _).
      destruct (merged_idle _ _ _ _ _ _ _ a A' Hj EA' Had) as (A2 & EA2 & Hid). simplify_eq. apply Hid in HA.
      destruct (inv_maximal _ _ _ _ Hi src S a A ES Ea EA HS HA) as [[= ?]|[= ?]]; [|congruence].
      by apply (joined_ne _ _ _ _ _ _ _ Hj).
  - exists s, D. split; [by eapply try_merge_skip|]. repeat (split; [done|]). intros D2 a A ED2 Ea EA. by simplify_eq.
Qed.

(** ** [free_block] *)

(** Putting the block that the call holds into its pool. *)
Lemma inv_pool_insert b B P xs evs m s :
  inv (Some b) evs m s → heap s !! b = Some B → idle B → pool B = Some P →
  pool_sorted (heap s) xs → (∀ x, x ∈ xs ↔ x = b ∨ x ∈ get_set P s) → settled prev b s → settled next b s →
  inv None evs m (put_set P xs s).
Proof.
  intros Hi EB HB HP Hs Hm Hsp Hsn.
  assert (Hh : heap (put_set P xs s) = heap s) by apply heap_put_set.
  assert (Ha : allocated_blocks (put_set P xs s) = allocated_blocks s) by (by destruct P).
  split; rewrite ?Hh, ?Ha.
  - by destruct P, Hi.
  - by destruct P, Hi.
  - intros Q c. rewrite get_put_set. case_decide as HQ.
    + subst Q. rewrite Hm, (inv_pool _ _ _ _ Hi). split.
      * intros [->|(C & EC & Hc & Hp & _)]; [by exists B|by exists C].
      * intros (C & EC & Hc & Hp & _). destruct (decide (c = b)) as [->|Hne]; [by left|right].
        exists C. repeat (split; [done|]). congruence.
    + rewrite (inv_pool _ _ _ _ Hi). split; intros (C & EC & Hc & Hp & _); exists C; [done|].
      repeat (split; [done|]). intros [= ->]. congruence.
  - intros Q. rewrite get_put_set. case_decide; [done|apply (inv_sorted _ _ _ _ Hi)].
  - apply (inv_allocated _ _ _ _ Hi).
  - apply (inv_client _ _ _ _ Hi).
  - apply (inv_ghost _ _ _ _ Hi).
  - apply (inv_events _ _ _ _ Hi).
  - apply (inv_waiting _ _ _ _ Hi).
  - apply (inv_streams _ _ _ _ Hi).
  - replace (next_block _) with (next_block s) by (by destruct P). apply (inv_fresh _ _ _ _ Hi).
  - replace (device_stats _) with (device_stats s) by (by destruct P). apply (inv_stats _ _ _ _ Hi).
  - intros a A c C EA En EC HA HC. exfalso.
    destruct (inv_maximal _ _ _ _ Hi a A c C EA En EC HA HC) as [[= ->]|[= ->]]; [by apply (Hsn A c C)|].
    destruct (heap_next _ _ _ (inv_heap _ _ _ _ Hi) a A c EA En) as (C2 & EC2 & Hp & _). by apply (Hsp C2 a A); congruence.
Qed.

Lemma pool_insert_lemma b B P evs m s :
  inv (Some b) evs m s → heap s !! b = Some B → idle B → pool B = Some P → settled prev b s → settled next b s →
  ∃ xs, pool_insert P b s = (Ok tt, put_set P xs s) ∧ inv None evs m (put_set P xs s).
Proof.
  intros Hi EB HB HP Hsp Hsn. destruct (set_insert_spec (heap s) b B (get_set P s)) as (xs & Ex & Hs & Hm).
  - by eapply inv_in_heap.
  - by eapply inv_sorted.
  - done.
  - intros y Y Hy EY. pose proof (inv_heap _ _ _ _ Hi) as Hh. apply (key_neq _ _ _ _ _ _ _ Hh EY EB).
    intros ->. by eapply pool_without_L.
  - exists xs. split; [|by eapply inv_pool_insert].
    unfold pool_insert. rewrite run_get. unfold deref_in. rewrite EB.
    unfold mbind at 1, SE_bind at 1, lift at 1. unfold mbind at 1, SE_bind at 1, lift at 1. by rewrite Ex.
Qed.

Lemma put_set_frame P xs s : frame s (put_set P xs s).
Proof. by destruct P. Qed.

Lemma frame_trans s1 s2 s3 : frame s1 s2 → frame s2 s3 → frame s1 s3.
Proof. intros (? & ? & ?) (? & ? & ?). repeat split; congruence. Qed.

Lemma free_block_lemma b B evs m s :
  inv (Some b) evs m s → heap s !! b = Some B → idle B →
  ∃ s', free_block b s = (Ok tt, s') ∧ inv None evs m s' ∧ frame s s'.
Proof.
  intros Hi EB HB. destruct (heap_pool _ _ _ (inv_heap _ _ _ _ Hi) b B EB) as [P HP].
  unfold free_block. rewrite (run_bind _ _ _ _ _ (run_deref _ _ _ EB)).
  rewrite run_assert by (destruct HB as [-> ->]; done).
  rewrite (run_bind (pool_of B) _ s P s) by (unfold pool_of; by rewrite HP).
  destruct (try_merge_prev b B P evs m s) as (s1 & B1 & E1 & Hi1 & F1 & EB1 & HB1 & HP1 & Hs1); [done..|].
  rewrite (run_bind _ _ _ _ _ E1), (run_bind _ _ _ _ _ (run_deref _ _ _ EB1)).
  destruct (try_merge_next b B1 P evs m s1) as (s2 & B2 & E2 & Hi2 & F2 & EB2 & HB2 & HP2 & Hp2 & Hn2); [done..|].
  rewrite (run_bind _ _ _ _ _ E2).
  destruct (pool_insert_lemma b B2 P evs m s2) as (xs & E3 & Hi3); [done..|].
  exists (put_set P xs s2). split; [done|]. split; [done|].
  eapply frame_trans; [exact F1|]. eapply frame_trans; [exact F2|apply put_set_frame].
Qed.
End Free.
