(* ===== verification/CudaRelease.v ===== *)
(** * Events, and the release of cached memory

    The queue of outstanding events ([process_events],
    [synchronize_and_free_events], [insert_events]) and the calls that give segments
    back to the runtime ([free_blocks], [free_cached_blocks], [emptyCache]) keep the
    invariant of the allocator, or a CUDA call failed.

    [free_blocks], [free_cached_blocks] and [emptyCache] return whole segments to
    the runtime; [free] takes an allocation back from its client and
    [insert_events] defers its reuse.  Each keeps the invariant, or a CUDA call
    failed. *)
From S2P Require Import Prelude CoreTypes CudaRuntime CudaStream CudaAllocator CudaHeap CudaChains CudaAllocSpec CudaFree.
Local Open Scope Z_scope.
#[local] Set Warnings "-clear-no-such-hyp".
Import CudaAllocator CUDAFunctions.

Section Events.
Context {W : Type} `{CudaLaws W}.
Implicit Types (s : Allocator W) (L : option block_ptr) (evs : list block_ptr) (m : gmap Z desc) (h : gmap block_ptr Block).

(** ** Changes of one block *)

Lemma total_update_same f h b B B' : h !! b = Some B → weight f B' = weight f B → total f (<[b := B']> h) = total f h.
Proof. intros E Ew. rewrite (total_update f h b B B' E). lia. Qed.

(** A block changes its event count or its streams: which pool it belongs to and
    who holds it stay consistent. *)
Lemma inv_update L L' evs evs' m s b B B' :
  inv L evs m s → heap s !! b = Some B → same_shape B B' → allocated B' = allocated B →
  (idle B' ∧ L' ≠ Some b ↔ idle B ∧ L ≠ Some b) → (∀ c, c ≠ b → (L' ≠ Some c ↔ L ≠ Some c)) →
  event_count B' = occ b evs' → (∀ c, c ≠ b → occ c evs' = occ c evs) → (0 < occ b evs' → allocated B' = false) →
  (∀ st, st ∈ stream_uses B' → stream_ok st) →
  inv L' evs' m (set_heap (<[b := B']> (heap s)) s).
Proof.
  intros Hi EB Hs Ha HL HLc He Hec Hwait Hst.
  assert (Hf : device B' = device B ∧ desc_of B' = desc_of B ∧ ptr B' = ptr B ∧ pool B' = pool B ∧ block_key B' = block_key B).
  { destruct Hs as (E1 & E2 & E3 & E4 & E5 & _). unfold desc_of, block_key. by rewrite E1, E2, E3, E4, E5. }
  destruct Hf as (Hd & Hdesc & Hp & Hpool & Hkey).
  split; cbn [heap set_heap world device_stats allocated_blocks next_block cuda].
  - apply (inv_regions _ _ _ _ Hi).
  - by apply (heap_ok_update _ _ _ _ B); [..|apply (inv_heap _ _ _ _ Hi)].
  - intros P c. rewrite get_set_heap, (inv_pool _ _ _ _ Hi). destruct (decide (c = b)) as [->|Hne].
    + rewrite lookup_insert_eq. split.
      * intros (C & EC & Hc & HP & Hl). simplify_eq. exists B'. rewrite Hpool.
        destruct (proj2 HL (conj Hc Hl)) as [? ?]. done.
      * intros (C & EC & Hc & HP & Hl). simplify_eq. exists B. rewrite <- Hpool.
        destruct (proj1 HL (conj Hc Hl)) as [? ?]. done.
    + rewrite lookup_insert_ne by done. specialize (HLc c Hne).
      split; intros (C & EC & Hc & HP & Hl); exists C; (split; [done|]; split; [done|]; split; [done|]; by apply HLc).
  - intros P. rewrite get_set_heap. apply (sorted_ext (heap s)); [|apply (inv_sorted _ _ _ _ Hi)].
    intros x X _ EX. destruct (decide (x = b)) as [->|Hne].
    + rewrite EB in EX; injection EX as <-. exists B'. by rewrite lookup_insert_eq.
    + exists X. by rewrite lookup_insert_ne.
  - intros c C [[<- <-]|[Hne EC]]%lookup_insert_Some HC.
    + rewrite Hp. apply (inv_allocated _ _ _ _ Hi b B EB). congruence.
    + by apply (inv_allocated _ _ _ _ Hi).
  - intros p c Ec. destruct (inv_client _ _ _ _ Hi p c Ec) as (C & EC & HC & Hpc & Hm).
    destruct (decide (c = b)) as [->|Hne].
    + rewrite EB in EC. injection EC as <-. exists B'. rewrite lookup_insert_eq, Hdesc, Ha, Hp. done.
    + exists C. by rewrite lookup_insert_ne.
  - apply (inv_ghost _ _ _ _ Hi).
  - intros c C [[<- <-]|[Hne EC]]%lookup_insert_Some; [done|]. rewrite Hec by done. by apply (inv_events _ _ _ _ Hi).
  - intros c Hc. destruct (decide (c = b)) as [->|Hne].
    + exists B'. rewrite lookup_insert_eq. split; [done|]. apply Hwait. by apply occ_pos.
    + rewrite lookup_insert_ne by done. apply (inv_waiting _ _ _ _ Hi). apply occ_pos. rewrite <- Hec by done. by apply occ_pos.
  - intros c C st [[<- <-]|[Hne EC]]%lookup_insert_Some; [apply Hst|]. by apply (inv_streams _ _ _ _ Hi c).
  - intros c Hc. apply (inv_fresh _ _ _ _ Hi). destruct (decide (c = b)) as [->|Hne]; [by eexists|]. by rewrite lookup_insert_ne in Hc.
  - intros d st Hd'. destruct (inv_stats _ _ _ _ Hi d st Hd') as [H1 H2 H3 H4]. destruct Hs as (_ & _ & Hz & _).
    split; [rewrite H1|rewrite H2|done|done]; symmetry; apply (total_update_same _ _ _ B); [done| |done|].
    + unfold weight, in_use_on. by rewrite Hd, Ha, Hz.
    + unfold weight, on_device. by rewrite Hd, Hz.
  - intros a A c C EA En EC HA HC. destruct (decide (L' = Some a)) as [|H1]; [by left|]. destruct (decide (L' = Some c)) as [|H2]; [by right|].
    exfalso. assert (∀ x X, <[b:=B']> (heap s) !! x = Some X → idle X → L' ≠ Some x →
      ∃ X2, heap s !! x = Some X2 ∧ next X2 = next X ∧ idle X2 ∧ L ≠ Some x) as Hold.
    { intros x X [[<- <-]|[Hne EX]]%lookup_insert_Some HX Hx.
      - exists B. destruct (proj1 HL (conj HX Hx)). destruct Hs as (_ & _ & _ & _ & _ & _ & ->). done.
      - exists X. repeat (split; [done|]). apply HLc; [congruence|done]. }
    destruct (Hold a A EA HA H1) as (A2 & EA2 & En2 & HA2 & HLa). destruct (Hold c C EC HC H2) as (C2 & EC2 & _ & HC2 & HLc2).
    destruct (inv_maximal _ _ _ _ Hi a A2 c C2) as [|]; congruence || done.
Qed.

Lemma inv_set_events L evs m s x : inv L evs m s → inv L evs m (set_cuda_events x s).
Proof. intros []. by split. Qed.

(** The order of the events does not matter. *)
Lemma inv_events_ext L evs evs' m s : (∀ b, occ b evs' = occ b evs) → inv L evs m s → inv L evs' m s.
Proof.
  intros He Hi. split; try apply Hi.
  - intros b B EB. rewrite He. by apply (inv_events _ _ _ _ Hi).
  - intros b Hb. apply (inv_waiting _ _ _ _ Hi). apply occ_pos. rewrite <- He. by apply occ_pos.
Qed.

(** ** One finished event *)

Definition queue_frame s s' : Prop := cuda_events s' = cuda_events s ∧ device_stats s' = device_stats s.

Lemma finish_event_lemma e b evs m s : inv None (b :: evs) m s →
  wp (finish_event e b) (λ _ s', inv None evs m s' ∧ queue_frame s s') fault s.
Proof.
  intros Hi. unfold finish_event. apply wp_bind, wp_check; [apply EventDestroy_quiet|]. intros [] w Hl.
  apply (inv_world _ _ _ _ _ Hl) in Hi. set (s1 := with_world w s) in *.
  destruct (inv_waiting _ _ _ _ Hi b ltac:(set_solver)) as (B & EB & Ha).
  pose proof (inv_events _ _ _ _ Hi b B EB) as Hc. rewrite occ_cons, decide_True in Hc by done.
  pose proof (occ_nonneg b evs) as Hn.
  eapply wp_step; [by apply run_deref|]. eapply wp_step; [by apply run_update|].
  set (B' := set_event_count (event_count B - 1) B). set (s2 := set_heap (<[b := B']> (heap s1)) s1).
  assert (EB' : heap s2 !! b = Some B') by apply lookup_insert_eq.
  eapply wp_step; [by apply run_deref|]. change (event_count B') with (event_count B - 1).
  assert (Hne : ¬ idle B) by (intros [_ ?]; lia).
  assert (Hupd : ∀ L, (L = Some b ∨ (L = None ∧ event_count B - 1 ≠ 0)) → inv L evs m s2).
  { intros L HL. apply (inv_update None L (b :: evs) evs m s1 b B B' Hi EB).
    - by repeat split.
    - done.
    - split; [|tauto]. intros [[_ Hc'] HLb]. cbn in Hc'. destruct HL as [->|[-> ?]]; [done|lia].
    - intros c Hcb. destruct HL as [->|[-> _]]; split; congruence.
    - cbn. lia.
    - intros c Hcb. rewrite occ_cons, decide_False by congruence. lia.
    - done.
    - intros st. apply (inv_streams _ _ _ _ Hi b B st EB). }
  destruct (Z.eqb_spec (event_count B - 1) 0) as [Hz|Hz].
  - destruct (free_block_lemma b B' evs m s2) as (s3 & E3 & Hi3 & F3 & _ & F3').
    + apply Hupd. by left.
    + done.
    + split; [done|]. cbn. lia.
    + apply (wp_run _ _ _ _ _ _ E3). split; [done|]. by split.
  - apply wp_ret. split; [by apply Hupd; right|]. by split.
Qed.

Lemma process_events_loop_lemma fuel m s : Inv m s → (length (cuda_events s) ≤ fuel)%nat →
  wp (process_events_loop fuel) (λ _ s', Inv m s' ∧ device_stats s' = device_stats s) fault s.
Proof.
  unfold Inv. revert s. induction fuel as [|fuel IH]; intros s Hi Hf.
  - cbn [process_events_loop]. eapply wp_step; [done|]. destruct (cuda_events s) as [|[e b] q] eqn:Eq; [|cbn in Hf; lia].
    apply wp_ret. by rewrite Eq.
  - cbn [process_events_loop]. eapply wp_step; [done|]. destruct (cuda_events s) as [|[e b] q] eqn:Eq.
    + apply wp_ret. by rewrite Eq.
    + apply wp_bind. apply (wp_call _ _ _ _ _ (EventQuery_quiet e)). intros r w Hl Hr.
      assert (Hw : ∀ w', live w' = live (world s) → inv None ((e, b) :: q).*2 m (with_world w' s)) by (intros; by apply inv_world).
      case_decide as Hnr.
      * apply wp_bind. apply (wp_call _ _ _ _ _ GetLastError_quiet). intros r' w' Hl' _.
        apply wp_ret. split; [|done]. cbn [cuda_events with_world set_cuda]. rewrite Eq. apply (Hw w'). by rewrite Hl'.
      * apply wp_bind, wp_check_error.
        -- intros _. apply wp_bind. eapply wp_mono; [apply (finish_event_lemma e b q.*2 m); by apply Hw|].
           intros [] s' (Hi' & Hq & Hd). cbn in Hq. eapply wp_step; [done|].
           eapply wp_mono; [apply IH|].
           ++ cbn [cuda_events set_cuda_events]. rewrite Hq, Eq. by apply inv_set_events.
           ++ cbn [cuda_events set_cuda_events]. rewrite Hq, Eq. cbn in *. lia.
           ++ cbn. intros _ s2 [? ->]. done.
        -- intros Hne w' Hl' Hw'. split; [by eexists|]. apply Hw'. destruct Hr as [[?|?]|?]; done.
Qed.

Lemma process_events_lemma m s : Inv m s →
  wp process_events (λ _ s', Inv m s' ∧ device_stats s' = device_stats s) fault s.
Proof. intros Hi. unfold process_events. eapply wp_step; [done|]. by apply process_events_loop_lemma. Qed.

Lemma synchronize_loop_lemma d events remaining m s :
  inv None (remaining ++ events).*2 m s →
  wp (synchronize_loop d events remaining)
     (λ rest s', inv None rest.*2 m s' ∧ device_stats s' = device_stats s ∧ (d = None → rest = remaining)) fault s.
Proof.
  revert remaining s. induction events as [|[e b] events IH]; intros remaining s Hi.
  { cbn. rewrite app_nil_r in Hi. done. }
  cbn [synchronize_loop].
  assert (Hb : b ∈ (remaining ++ (e, b) :: events).*2) by (rewrite fmap_app; set_solver).
  destruct (inv_waiting _ _ _ _ Hi b Hb) as (B & EB & Ha).
  assert (∃ skip : bool, (match d with
              | Some d => B ← deref b; mret (negb (device B =? d))
              | None => mret false
              end) s = (Ok skip, s) ∧ (d = None → skip = false)) as (skip & Eskip & Hskip).
  { destruct d as [d|]; [|by exists false]. eexists. by rewrite (run_bind _ _ _ _ _ (run_deref _ _ _ EB)). }
  eapply wp_step; [exact Eskip|]. destruct skip.
  - eapply wp_mono; [apply IH; by rewrite <- app_assoc|]. cbn. intros rest s2 (? & ? & Hr).
    repeat (split; [done|]). intros Hd. by specialize (Hskip Hd).
  - apply wp_bind, wp_check; [apply EventSynchronize_quiet|]. intros [] w Hl. apply (inv_world _ _ _ _ _ Hl) in Hi.
    apply wp_bind. eapply wp_mono; [apply (finish_event_lemma e b (remaining ++ events).*2 m)|].
    + eapply inv_events_ext; [|exact Hi]. intros c. rewrite !fmap_app, fmap_cons, occ_cons, !occ_app, occ_cons. cbn. lia.
    + intros [] s' (Hi' & Hq & Hd). eapply wp_mono; [by apply IH|]. cbn. intros r s2 (? & -> & ?). done.
Qed.

Lemma synchronize_lemma d m s : Inv m s →
  wp (synchronize_and_free_events d)
    (λ _ s', Inv m s' ∧ device_stats s' = device_stats s ∧ (d = None → cuda_events s' = [])) fault s.
Proof.
  intros Hi. unfold synchronize_and_free_events. eapply wp_step; [done|].
  apply wp_bind. eapply wp_mono; [by apply (synchronize_loop_lemma d (cuda_events s) [] m)|].
  intros rest s' (Hi' & Hd & Hr). eapply wp_run; [done|]. split; [|done]. unfold Inv. by apply inv_set_events.
Qed.
End Events.

(** ** Giving memory back *)

Section Release.
Context {W : Type} `{CudaLaws W}.
Implicit Types (s : Allocator W) (L : option block_ptr) (evs : list block_ptr) (m : gmap Z desc) (h : gmap block_ptr Block).

(** ** Statistics *)

(** A reference to the statistics of a device the vector covers. *)
Lemma run_get_stats d s : 0 ≤ d < Z.of_nat (length (device_stats s)) →
  get_stats_for_device d s = (Ok (Z.to_nat d, length (device_stats s)), s).
Proof.
  intros Hd. unfold get_stats_for_device. rewrite run_assert by (apply Z.leb_le; lia). rewrite run_get.
  destruct (Nat.leb_spec (length (device_stats s)) (Z.to_nat d)); [lia|done].
Qed.

Lemma run_update_stats n k f st s : length (device_stats s) = k → device_stats s !! n = Some st →
  update_stats (n, k) f s = (Ok tt, set_device_stats (<[n := f st]> (device_stats s)) s).
Proof. intros Hl Hst. unfold update_stats. rewrite run_get. cbn. by rewrite decide_True, Hst. Qed.

Lemma stats_lookup L evs m s b B : inv L evs m s → heap s !! b = Some B →
  ∃ st, device_stats s !! Z.to_nat (device B) = Some st ∧ stats_ok (heap s) (device B) st ∧
    0 ≤ device B < Z.of_nat (length (device_stats s)).
Proof.
  intros Hi EB. pose proof (ok_device _ _ _ (heap_block _ _ _ (inv_heap _ _ _ _ Hi) b B EB)) as Hd.
  destruct (lookup_lt_is_Some_2 (device_stats s) (Z.to_nat (device B))) as [st Est]; [lia|].
  exists st. split; [done|]. split; [|done].
  pose proof (inv_stats _ _ _ _ Hi _ _ Est) as Hs. by rewrite Z2Nat.id in Hs by lia.
Qed.

(** The amounts are exact: they never wrap. *)
Lemma total_range L evs m s f : inv L evs m s → 0 ≤ total f (heap s) < 2 ^ 64.
Proof.
  intros Hi. pose proof (inv_regions _ _ _ _ Hi) as Hr. pose proof (inv_heap _ _ _ _ Hi) as Hh. split.
  - apply total_nonneg. intros b B EB. pose proof (block_bounds _ _ _ _ _ Hr Hh EB). lia.
  - by eapply total_lt.
Qed.

Lemma weight_on_other d B : device B ≠ d → weight (on_device d) B = 0 ∧ weight (in_use_on d) B = 0.
Proof. intros Hd. unfold weight, on_device, in_use_on. by rewrite (proj2 (Z.eqb_neq _ _) Hd). Qed.

Lemma weight_on_own B : weight (on_device (device B)) B = size B ∧
  weight (in_use_on (device B)) B = if allocated B then size B else 0.
Proof. unfold weight, on_device, in_use_on. by rewrite Z.eqb_refl. Qed.

(** ** Returning a segment *)

Definition released P (b : block_ptr) (B : Block) (w : W) st s : Allocator W :=
  set_heap (delete b (heap s)) (put_set P (filter (λ x, x ≠ b) (get_set P s))
    (set_device_stats (<[Z.to_nat (device B) := decreaseCached (size B) st]> (device_stats s)) (with_world w s))).

Lemma inv_released L evs m s P b B w st :
  inv L evs m s → heap s !! b = Some B → idle B → pool B = Some P → prev B = None → next B = None →
  live w = delete (ptr B) (live (world s)) → device_stats s !! Z.to_nat (device B) = Some st →
  inv L evs m (released P b B w st s).
Proof.
  intros Hi EB HB HP Hv Hn Hl Hst. pose proof (inv_regions _ _ _ _ Hi) as Hr. pose proof (inv_heap _ _ _ _ Hi) as Hh.
  destruct (stats_lookup _ _ _ _ _ _ Hi EB) as (st' & Est' & Hok & Hdev). rewrite Hst in Est'. injection Est' as <-.
  assert (Hw : world (released P b B w st s) = w) by (by destruct P).
  assert (Hhp : heap (released P b B w st s) = delete b (heap s)) by done.
  assert (Hds : device_stats (released P b B w st s) = <[Z.to_nat (device B) := decreaseCached (size B) st]> (device_stats s)) by (by destruct P).
  assert (Hal : allocated_blocks (released P b B w st s) = allocated_blocks s) by (by destruct P).
  assert (Hgs : ∀ Q, get_set Q (released P b B w st s) = if decide (P = Q) then filter (λ x, x ≠ b) (get_set P s) else get_set Q s).
  { intros Q. unfold released. by destruct P, Q. }
  assert (Hnb : ∀ p, allocated_blocks s !! p ≠ Some b).
  { intros p Ep. destruct (inv_client _ _ _ _ Hi p b Ep) as (B2 & EB2 & Ha & _). destruct HB. congruence. }
  split; rewrite ?Hw, ?Hhp, ?Hal.
  - rewrite Hl. by apply regions_ok_delete.
  - rewrite Hl, Hds, length_insert. by apply release_heap_ok.
  - intros Q c. rewrite Hgs. case_decide as HQ.
    + subst Q. rewrite list_elem_of_filter, (inv_pool _ _ _ _ Hi). split.
      * intros (Hne & C & EC & ?). exists C. rewrite lookup_delete_ne by done. done.
      * intros (C & [Hne EC]%lookup_delete_Some & ?). split; [done|]. by exists C.
    + rewrite (inv_pool _ _ _ _ Hi). split.
      * intros (C & EC & HC & HPC & ?). exists C. rewrite lookup_delete_ne; [done|]. intros ->. congruence.
      * intros (C & [Hne EC]%lookup_delete_Some & ?). by exists C.
  - intros Q. rewrite Hgs. apply (sorted_ext (heap s)).
    + intros x X Hx EX. exists X. rewrite lookup_delete_ne; [done|]. intros <-. case_decide as HQ.
      * apply list_elem_of_filter in Hx as [? _]. done.
      * apply (inv_pool _ _ _ _ Hi) in Hx as (C & EC & _ & HPC & _). congruence.
    + case_decide; [apply sorted_filter|]; apply (inv_sorted _ _ _ _ Hi).
  - intros c C [Hne EC]%lookup_delete_Some. by apply (inv_allocated _ _ _ _ Hi).
  - intros p c Ec. destruct (inv_client _ _ _ _ Hi p c Ec) as (C & EC & ?). exists C.
    rewrite lookup_delete_ne; [done|]. intros ->. by apply (Hnb p).
  - apply (inv_ghost _ _ _ _ Hi).
  - intros c C [Hne EC]%lookup_delete_Some. by apply (inv_events _ _ _ _ Hi).
  - intros c Hc. destruct (inv_waiting _ _ _ _ Hi c Hc) as (C & EC & ?). exists C.
    rewrite lookup_delete_ne; [done|]. intros ->. apply occ_pos in Hc. rewrite <- (inv_events _ _ _ _ Hi _ _ EB) in Hc.
    destruct HB. lia.
  - intros c C st2 [Hne EC]%lookup_delete_Some. by apply (inv_streams _ _ _ _ Hi c).
  - intros c [C [Hne EC]%lookup_delete_Some]. replace (next_block _) with (next_block s) by (by destruct P).
    apply (inv_fresh _ _ _ _ Hi). by eexists.
  - intros d st2. rewrite Hds. pose proof (total_range _ _ _ _ (on_device (device B)) Hi) as Htot.
    intros [(<- & <- & _)|[Hne Est]]%list_lookup_insert_Some.
    + rewrite Z2Nat.id by lia. destruct Hok as [H1 H2 H3 H4]. destruct (weight_on_own B) as [W1 W2].
      rewrite (total_delete (in_use_on _) _ _ _ EB) in H1. rewrite (total_delete (on_device _) _ _ _ EB) in H2, Htot. rewrite W1 in H2, Htot. destruct HB as [Ha _]. rewrite Ha in W2. rewrite W2 in H1.
      pose proof (block_bounds _ _ _ _ _ Hr Hh EB).
      assert (0 ≤ total (on_device (device B)) (delete b (heap s))).
      { apply total_nonneg. intros c C [_ EC]%lookup_delete_Some. pose proof (block_bounds _ _ _ _ _ Hr Hh EC). lia. }
      split; cbn [amount_allocated amount_cached max_amount_allocated max_amount_cached decreaseCached].
      * lia.
      * rewrite H2. rewrite size_t_id by lia. lia.
      * done.
      * rewrite size_t_id by lia. lia.
    + destruct (inv_stats _ _ _ _ Hi d st2 Est) as [H1 H2 H3 H4].
      destruct (weight_on_other (Z.of_nat d) B) as [W1 W2]; [lia|].
      rewrite (total_delete (in_use_on _) _ _ _ EB) in H1. rewrite (total_delete (on_device _) _ _ _ EB) in H2. by split; [lia|lia|..].
  - intros a A c C [_ EA]%lookup_delete_Some En [_ EC]%lookup_delete_Some. by apply (inv_maximal _ _ _ _ Hi a A c C).
Qed.

(** What is left of the memory. *)
Definition remains s s' : Prop := ∀ b B, heap s' !! b = Some B → heap s !! b = Some B.

Definition lone (B : Block) : Prop := prev B = None ∧ next B = None.

(** [free_blocks] visits the elements of a pool, each once, and leaves none that
    is a whole segment. *)
Lemma free_blocks_lemma P range m s : Inv m s → NoDup range → (∀ b, b ∈ range → b ∈ get_set P s) →
  wp (free_blocks P range)
    (λ _ s', Inv m s' ∧ length (device_stats s') = length (device_stats s) ∧ cuda_events s' = cuda_events s ∧ remains s s' ∧
       ∀ b B, b ∈ range → heap s' !! b = Some B → ¬ lone B) fault s.
Proof.
  unfold Inv. revert s. induction range as [|b range IH]; intros s Hi Hnd Hsub.
  { apply wp_ret. do 3 (split; [done|]); split; [by intros b B|]. intros b B Hb. by apply elem_of_nil in Hb. }
  apply list.NoDup_cons in Hnd as [Hb Hnd].
  destruct (proj1 (inv_pool _ _ _ _ Hi P b) (Hsub b ltac:(set_solver))) as (B & EB & HB & HP & _).
  unfold free_blocks. cbn [foreach]. apply wp_bind.
  eapply wp_step; [by apply run_deref|].
  assert (Hskip : ¬ lone B → wp (free_blocks P range) (λ _ s', inv None (cuda_events s').*2 m s' ∧
      length (device_stats s') = length (device_stats s) ∧ cuda_events s' = cuda_events s ∧ remains s s' ∧
      ∀ c C, c ∈ b :: range → heap s' !! c = Some C → ¬ lone C) fault s).
  { intros HnB. eapply wp_mono; [apply IH; [done..|]; intros c Hc; apply Hsub; set_solver|]. cbn.
    intros _ s' (Hi' & Hl & Hc & Hr & Hlone). repeat (split; [done|]). intros c C [->|Hin]%elem_of_cons EC; [|by apply (Hlone c)].
    apply Hr in EC. by simplify_eq. }
  destruct (prev B) eqn:Ev; [apply Hskip; intros [? ?]; congruence|].
  destruct (next B) eqn:En; [apply Hskip; intros [? ?]; congruence|]. clear Hskip.
  pose proof (lone_block _ _ _ _ _ (inv_heap _ _ _ _ Hi) EB Ev En) as Hreg.
  destruct (stats_lookup _ _ _ _ _ _ Hi EB) as (st & Est & _ & Hdev).
  apply wp_bind, (wp_free _ _ _ _ Hreg). intros w Hl.
  eapply wp_step; [by apply (run_get_stats (device B) (with_world w s))|].
  eapply wp_step; [by apply (run_update_stats _ _ _ st)|].
  eapply wp_step; [done|].
  eapply wp_run; [apply (run_delete b B); by destruct P|].
  eapply wp_mono; [apply IH|].
  - destruct P; exact (inv_released _ _ _ _ _ _ _ _ _ Hi EB HB HP Ev En Hl Est).
  - done.
  - intros c Hc. assert (c ∈ filter (λ x, x ≠ b) (get_set P s)).
    { apply list_elem_of_filter. split; [congruence|]. apply Hsub. set_solver. }
    by destruct P.
  - intros [] s2 (? & Hlen & Hc & Hr & Hlone).
    assert (Hr' : ∀ c C, heap s2 !! c = Some C → c ≠ b ∧ heap s !! c = Some C).
    { intros c C EC%Hr. cbn in EC. rewrite heap_put_set in EC. apply lookup_delete_Some in EC as [? ?]. done. }
    split; [done|]. split; [rewrite Hlen; destruct P; cbn; by rewrite length_insert|].
    split; [rewrite Hc; by destruct P|]. split; [intros c C EC; by apply Hr'|].
    intros c C [->|Hin]%elem_of_cons EC; [|by apply (Hlone c)]. by apply Hr' in EC as [[] _].
Qed.

Lemma set_nodup L evs m s P : inv L evs m s → NoDup (get_set P s).
Proof. intros Hi. eapply sorted_nodup, (inv_sorted _ _ _ _ Hi). Qed.

(** The part of a pool between two keys. *)
Lemma range_between_lemma P lo hi L evs m s : inv L evs m s →
  ∃ range, range_between P lo hi s = (Ok range, s) ∧ NoDup range ∧ ∀ b, b ∈ range → b ∈ get_set P s.
Proof.
  intros Hi. pose proof (inv_in_heap _ _ _ _ P Hi) as Hin. pose proof (inv_sorted _ _ _ _ Hi P) as Hs.
  destruct (lower_bound_spec (heap s) lo _ Hin Hs) as (b1 & a1 & E1 & L1 & _).
  destruct (lower_bound_spec (heap s) hi _ Hin Hs) as (b2 & a2 & E2 & L2 & _).
  exists (take (length a1 - length a2) a1). split; [|split].
  - unfold range_between, pool_lower_bound.
    rewrite (run_bind _ _ s a1 s) by (rewrite run_get; unfold lift; by rewrite L1).
    rewrite (run_bind _ _ s a2 s) by (rewrite run_get; unfold lift; by rewrite L2). done.
  - pose proof (set_nodup _ _ _ _ P Hi) as Hnd. rewrite E1 in Hnd. apply list.NoDup_app in Hnd as (_ & _ & Hnd).
    rewrite <- (take_drop (length a1 - length a2) a1) in Hnd. by apply list.NoDup_app in Hnd as (Hnd & _).
  - intros b Hb. rewrite E1. apply elem_of_app. right. by apply (subseteq_take (length a1 - length a2)).
Qed.

Lemma free_cached_blocks_lemma d m s : Inv m s →
  wp (free_cached_blocks d) (λ _ s', Inv m s' ∧ length (device_stats s') = length (device_stats s)) fault s.
Proof.
  intros Hi. unfold free_cached_blocks. apply wp_bind. eapply wp_mono; [by apply (synchronize_lemma (Some d) m)|].
  intros [] s1 (Hi1 & Hd1 & _). rewrite <- Hd1.
  destruct (range_between_lemma large_blocks (search_key d 0 0) (search_key (d + 1) 0 0) _ _ _ _ Hi1) as (r1 & E1 & N1 & S1).
  eapply wp_step; [exact E1|]. apply wp_bind. eapply wp_mono; [by apply (free_blocks_lemma large_blocks r1 m)|].
  intros [] s2 (Hi2 & Hd2 & _). rewrite <- Hd2.
  destruct (range_between_lemma small_blocks (search_key d 0 0) (search_key (d + 1) 0 0) _ _ _ _ Hi2) as (r2 & E2 & N2 & S2).
  eapply wp_step; [exact E2|]. eapply wp_mono; [by apply (free_blocks_lemma small_blocks r2 m)|].
  intros [] s3 (Hi3 & Hd3 & _). done.
Qed.

Lemma emptyCache_lemma m s : Inv m s →
  wp emptyCache (λ _ s', Inv m s' ∧ cuda_events s' = [] ∧ ∀ b B, heap s' !! b = Some B → idle B → ¬ lone B) fault s.
Proof.
  intros Hi. unfold emptyCache. apply wp_bind. eapply wp_mono; [by apply (synchronize_lemma None m)|].
  intros [] s1 (Hi1 & _ & Hc1). specialize (Hc1 eq_refl).
  eapply wp_step; [done|]. apply wp_bind.
  eapply wp_mono; [apply (free_blocks_lemma large_blocks (large_set s1) m s1 Hi1); [by apply (set_nodup _ _ _ _ large_blocks Hi1)|done]|].
  intros [] s2 (Hi2 & _ & Hc2 & Hr2 & Hl2). eapply wp_step; [done|].
  eapply wp_mono; [apply (free_blocks_lemma small_blocks (small_set s2) m s2 Hi2); [by apply (set_nodup _ _ _ _ small_blocks Hi2)|done]|].
  intros [] s3 (Hi3 & _ & Hc3 & Hr3 & Hl3). split; [done|]. split; [congruence|].
  intros b B EB HB. pose proof (Hr3 b B EB) as EB2. pose proof (Hr2 b B EB2) as EB1.
  destruct (heap_pool _ _ _ (inv_heap _ _ _ _ Hi1) b B EB1) as [P HP]. destruct P.
  - apply (Hl2 b); [|done]. apply (inv_pool _ _ _ _ Hi1 large_blocks). by exists B.
  - apply (Hl3 b); [|done]. apply (inv_pool _ _ _ _ Hi2 small_blocks). by exists B.
Qed.
End Release.
