(* ===== verification/CudaClient.v ===== *)
(** * The calls of clients, and queries of the caching allocator

    [free] takes an allocation back: its block goes into its pool at once, or, when
    other streams used it, once the events recorded on them are complete.

    [getBaseAllocation] walks the chain of a block to both ends: the walks end, and
    give the address and the size of the cudaMalloc region. *)
From S2P Require Import Prelude CoreTypes CudaRuntime CudaStream CudaAllocator CudaHeap CudaChains CudaAllocSpec CudaFree CudaRelease.
Local Open Scope Z_scope.
#[local] Set Warnings "-clear-no-such-hyp".
Import CudaAllocator CUDAFunctions.

Section Client.
Context {W : Type} `{CudaLaws W}.
Implicit Types (s : Allocator W) (L : option block_ptr) (evs : list block_ptr) (m : gmap Z desc) (h : gmap block_ptr Block).

(** What the invariant says of an allocation. *)
Lemma allocated_block L evs m s p b : inv L evs m s → allocated_blocks s !! p = Some b →
  ∃ B, heap s !! b = Some B ∧ allocated B = true ∧ ptr B = p ∧ m !! p = Some (desc_of B) ∧ event_count B = 0 ∧ occ b evs = 0.
Proof.
  intros Hi Ep. destruct (inv_client _ _ _ _ Hi p b Ep) as (B & EB & Ha & Hp & Hm). exists B.
  assert (occ b evs = 0).
  { pose proof (occ_nonneg b evs). destruct (decide (0 < occ b evs)) as [Hlt|]; [|lia].
    apply occ_pos, (inv_waiting _ _ _ _ Hi) in Hlt as (B2 & EB2 & Ha2). congruence. }
  repeat (split; [done|]). rewrite (inv_events _ _ _ _ Hi b B EB). done.
Qed.

Lemma allocated_pos L evs m s p : inv L evs m s → is_Some (m !! p) → 0 < p.
Proof.
  intros Hi Hm. destruct (inv_ghost _ _ _ _ Hi p Hm) as [b Eb].
  destruct (allocated_block _ _ _ _ _ _ Hi Eb) as (B & EB & _ & <- & _).
  pose proof (block_bounds _ _ _ _ _ (inv_regions _ _ _ _ Hi) (inv_heap _ _ _ _ Hi) EB). lia.
Qed.

(** ** A change of hands

    A block goes from the client to the call that frees it, or from the call that
    allocates it to the client. *)
Lemma inv_hand L L' evs m m' al s b B B' st st' :
  inv L evs m s → heap s !! b = Some B → same_shape B B' → event_count B' = event_count B →
  (∀ c, L' ≠ Some c ∨ c = b) → (∀ c, L ≠ Some c ∨ c = b) →
  (idle B → L = Some b) → (idle B' → L' = Some b) →
  (∀ p c, al !! p = Some c ↔ (c ≠ b ∧ allocated_blocks s !! p = Some c) ∨ (c = b ∧ p = ptr B ∧ allocated B' = true)) →
  (∀ p, p ≠ ptr B → m' !! p = m !! p) → m' !! ptr B = (if allocated B' then Some (desc_of B) else None) →
  (0 < event_count B → allocated B' = false) → (∀ x, x ∈ stream_uses B' → stream_ok x) →
  device_stats s !! Z.to_nat (device B) = Some st →
  stats_ok (<[b := B']> (heap s)) (device B) st' →
  inv L' evs m' (set_device_stats (<[Z.to_nat (device B) := st']> (device_stats s))
    (set_allocated_blocks al (set_heap (<[b := B']> (heap s)) s))).
Proof.
  intros Hi EB Hs He HL' HL HidB HidB' Hal Hm Hmb Hev Hst Est Hok.
  assert (Hf : device B' = device B ∧ desc_of B' = desc_of B ∧ ptr B' = ptr B ∧ pool B' = pool B ∧ block_key B' = block_key B ∧
    (∀ d, weight (on_device d) B' = weight (on_device d) B)).
  { destruct Hs as (E1 & E2 & E3 & E4 & E5 & _). unfold desc_of, block_key, weight, on_device. by rewrite E1, E2, E3, E4, E5. }
  destruct Hf as (Hd & Hdesc & Hp & Hpool & Hkey & Hwd).
  assert (Halone : ∀ c, c ≠ b → L' ≠ Some c ∧ L ≠ Some c).
  { intros c Hc. destruct (HL' c), (HL c); done. }
  split; cbn [heap set_heap world device_stats allocated_blocks next_block cuda set_device_stats set_allocated_blocks].
  - apply (inv_regions _ _ _ _ Hi).
  - rewrite length_insert. by apply (heap_ok_update _ _ _ _ B); [..|apply (inv_heap _ _ _ _ Hi)].
  - intros P c. transitivity (c ∈ get_set P s); [by destruct P|]. rewrite (inv_pool _ _ _ _ Hi).
    destruct (decide (c = b)) as [->|Hne].
    + rewrite lookup_insert_eq, EB. split; intros (C & [= <-] & HC & _ & Hn); exfalso; apply Hn; auto.
    + rewrite lookup_insert_ne by done. destruct (Halone c Hne).
      split; intros (C & EC & HC & HPC & _); exists C; (split; [done|]; split; [done|]; split; done).
  - intros P. apply (sorted_ext (heap s)); [|destruct P; [apply (inv_sorted _ _ _ _ Hi large_blocks)|apply (inv_sorted _ _ _ _ Hi small_blocks)]].
    intros x X _ EX. destruct (decide (x = b)) as [->|Hne].
    + rewrite EB in EX. injection EX as <-. exists B'. by rewrite lookup_insert_eq.
    + exists X. by rewrite lookup_insert_ne.
  - intros c C [[<- <-]|[Hne EC]]%lookup_insert_Some HC; apply Hal; [right|left].
    + by rewrite Hp.
    + split; [done|]. by apply (inv_allocated _ _ _ _ Hi).
  - intros p c [[Hne Ec]|(-> & -> & Ha)]%Hal.
    + destruct (inv_client _ _ _ _ Hi p c Ec) as (C & EC & HC & Hpc & Hmc). exists C. rewrite lookup_insert_ne by done.
      repeat (split; [done|]). rewrite Hm; [done|]. intros Epb. apply Hne.
      apply (ptr_inj _ _ _ c b C B (inv_heap _ _ _ _ Hi)); [done..|congruence].
    + exists B'. rewrite lookup_insert_eq, Hmb, Ha, Hdesc. done.
  - intros p Hmp. destruct (decide (p = ptr B)) as [->|Hne].
    + rewrite Hmb in Hmp. destruct (allocated B') eqn:Ea; [|by destruct Hmp]. exists b. apply Hal. by right.
    + rewrite Hm in Hmp by done. destruct (inv_ghost _ _ _ _ Hi p Hmp) as [c Ec]. exists c. apply Hal. left. split; [|done].
      intros ->. destruct (inv_client _ _ _ _ Hi p b Ec) as (C & EC & _ & Hpc & _). congruence.
  - intros c C [[<- <-]|[Hne EC]]%lookup_insert_Some; [rewrite He|]; by apply (inv_events _ _ _ _ Hi).
  - intros c Hc. destruct (decide (c = b)) as [->|Hne].
    + exists B'. rewrite lookup_insert_eq. split; [done|]. apply Hev. rewrite (inv_events _ _ _ _ Hi b B EB). by apply occ_pos.
    + rewrite lookup_insert_ne by done. by apply (inv_waiting _ _ _ _ Hi).
  - intros c C x [[<- <-]|[Hne EC]]%lookup_insert_Some; [apply Hst|]. by apply (inv_streams _ _ _ _ Hi c).
  - intros c Hc. apply (inv_fresh _ _ _ _ Hi). destruct (decide (c = b)) as [->|Hne]; [by eexists|]. by rewrite lookup_insert_ne in Hc.
  - pose proof (ok_device _ _ _ (heap_block _ _ _ (inv_heap _ _ _ _ Hi) b B EB)) as Hdev.
    intros d st2 [(<- & <- & _)|[Hne Est2]]%list_lookup_insert_Some; [by rewrite Z2Nat.id by lia|].
    destruct (inv_stats _ _ _ _ Hi d st2 Est2) as [H1 H2 H3 H4].
    assert (device B ≠ Z.of_nat d) by lia. destruct (weight_on_other (Z.of_nat d) B) as [_ W2]; [done|].
    destruct (weight_on_other (Z.of_nat d) B') as [_ W2']; [congruence|].
    split; [rewrite H1|rewrite H2|done|done]; symmetry; apply (total_update_same _ _ _ B); [done|congruence|done|apply Hwd].
  - intros a A c C. intros EA En EC HA HC.
    destruct (decide (L' = Some a)) as [|H1]; [by left|]. destruct (decide (L' = Some c)) as [|H2]; [by right|].
    exfalso. assert (a ≠ b). { intros ->. rewrite lookup_insert_eq in EA. injection EA as <-. auto. }
    assert (c ≠ b). { intros ->. rewrite lookup_insert_eq in EC. injection EC as <-. auto. }
    rewrite lookup_insert_ne in EA, EC by done.
    destruct (inv_maximal _ _ _ _ Hi a A c C EA En EC HA HC) as [E|E]; [by destruct (Halone a)|by destruct (Halone c)].
Qed.

(** ** [insert_events] *)
Lemma insert_event_lemma b B it m s : inv (Some b) (cuda_events s).*2 m s → heap s !! b = Some B → allocated B = false → stream_ok it →
  wp (insert_event b it) (λ _ s', inv (Some b) (cuda_events s').*2 m s' ∧
    ∃ B', heap s' !! b = Some B' ∧ allocated B' = false ∧ event_count B' = event_count B + 1) fault s.
Proof.
  intros Hi EB Ha Hit. unfold insert_event.
  apply wp_bind, wp_check; [apply SetDevice_quiet|]. intros [] w Hl. apply (inv_world _ _ _ _ _ Hl) in Hi. clear Hl.
  apply wp_bind, wp_check; [apply EventCreate_quiet|]. intros e w' Hl. apply (inv_world _ _ _ _ _ Hl) in Hi. clear Hl.
  eapply wp_step; [done|].
  assert (∃ c, CudaStream.CUDAStream_stream it (cuda (with_world w' (with_world w s))) = Ok c) as [c Ec].
  { unfold CudaStream.CUDAStream_stream. unfold stream_ok in Hit. destruct (CudaStream.CUDAStream_internals it); [|done]. by eexists. }
  eapply wp_step; [unfold lift; by rewrite Ec|].
  apply wp_bind, wp_check; [apply EventRecord_quiet|]. intros [] w'' Hl. apply (inv_world _ _ _ _ _ Hl) in Hi. clear Hl.
  set (s3 := with_world w'' _) in *. assert (EB3 : heap s3 !! b = Some B) by done.
  eapply wp_step; [by apply run_deref|]. eapply wp_step; [by apply run_update|]. eapply wp_run; [done|].
  cbn [cuda_events set_cuda_events set_heap]. rewrite fmap_app. change ([(e, b)].*2) with [b]. split.
  - apply inv_set_events. pose proof (inv_events _ _ _ _ Hi b B EB3) as Hc.
    apply (inv_update _ _ _ _ _ _ _ _ _ Hi EB3).
    + by repeat split.
    + done.
    + by split; intros [? []].
    + done.
    + cbn [event_count set_event_count]. rewrite occ_app, occ_cons, decide_True, occ_nil by done.
      change (cuda_events s3) with (cuda_events s) in *. rewrite Hc. cbn. lia.
    + intros x Hx. rewrite occ_app, occ_cons, decide_False, occ_nil by congruence.
      change (cuda_events s3) with (cuda_events s). lia.
    + done.
    + intros st. by apply (inv_streams _ _ _ _ Hi b B).
  - exists (set_event_count (event_count B + 1) B). cbn. by rewrite lookup_insert_eq.
Qed.

Lemma insert_all_lemma b its m B s : inv (Some b) (cuda_events s).*2 m s → heap s !! b = Some B → allocated B = false →
  (∀ it, it ∈ its → stream_ok it) →
  wp (foreach its (insert_event b)) (λ _ s', inv (Some b) (cuda_events s').*2 m s' ∧
    ∃ B', heap s' !! b = Some B' ∧ event_count B' = event_count B + Z.of_nat (length its)) fault s.
Proof.
  revert B s. induction its as [|it its IH]; intros B s Hi EB Ha Hits.
  - apply wp_ret. split; [done|]. exists B. split; [done|]. cbn. lia.
  - cbn [foreach]. apply wp_bind. eapply wp_mono; [apply (insert_event_lemma b B it m s); [done..|apply Hits; set_solver]|].
    intros [] s1 (Hi1 & B1 & EB1 & Ha1 & Hc1). eapply wp_mono; [apply (IH B1); [done..|intros; apply Hits; set_solver]|].
    cbn. intros _ s2 (Hi2 & B2 & EB2 & Hc2). split; [done|]. exists B2. split; [done|]. cbn [length]. lia.
Qed.

Lemma insert_events_lemma b B m s : inv (Some b) (cuda_events s).*2 m s → heap s !! b = Some B → allocated B = false →
  stream_uses B ≠ [] → 0 ≤ event_count B →
  wp (insert_events b) (λ _ s', Inv m s') fault s.
Proof.
  intros Hi EB Ha Hne Hc. unfold insert_events.
  apply wp_bind, wp_check; [apply GetDevice_quiet|]. intros d w Hl. apply (inv_world _ _ _ _ _ Hl) in Hi. clear Hl.
  eapply wp_step; [by apply run_deref|]. eapply wp_step; [by apply run_update|].
  apply wp_bind. eapply wp_mono.
  - eapply (insert_all_lemma b (stream_uses B) m (set_stream_uses [] B)).
    + apply (inv_update (Some b) (Some b) _ (cuda_events s).*2 _ _ b B _ Hi EB); try done.
      * exact (inv_events _ _ _ _ Hi b B EB).
      * intros st Hst. by apply elem_of_nil in Hst.
    + apply lookup_insert_eq.
    + done.
    + intros it. by apply (inv_streams _ _ _ _ Hi b B).
  - intros [] s1 (Hi1 & B1 & EB1 & Hc1). apply wp_check; [apply SetDevice_quiet|]. intros [] w' Hl.
    unfold Inv. apply (inv_world _ _ _ _ _ Hl). apply (inv_release _ _ _ _ b Hi1); [|done].
    intros B2 EB2 [_ Hz]. assert (B2 = B1) as -> by congruence. cbn in Hc1. destruct (stream_uses B); [done|cbn in Hc1; lia].
Qed.

(** ** [free] *)
Lemma free_lemma p m s : Inv m s →
  wp (free p) (λ _ s', Inv (delete p m) s' ∧ (p = 0 ∨ is_Some (m !! p)))
    (λ e s', fault e s' ∨ (e = C10Error "invalid device pointer" ∧ s' = s ∧ p ≠ 0 ∧ m !! p = None)) s.
Proof.
  intros Hi. unfold free. destruct (Z.eqb_spec p 0) as [->|Hp0].
  { apply wp_ret. split; [|by left]. rewrite delete_id; [done|]. destruct (m !! 0) eqn:E; [|done].
    assert (0 < 0); [|lia]. eapply allocated_pos; [exact Hi|]. by rewrite E. }
  eapply wp_step; [done|]. destruct (allocated_blocks s !! p) as [b|] eqn:Eb.
  2:{ right. repeat (split; [done|]). destruct (m !! p) eqn:E; [|done].
      destruct (inv_ghost _ _ _ _ Hi p) as [? ?]; [by rewrite E|]. congruence. }
  destruct (allocated_block _ _ _ _ _ _ Hi Eb) as (B & EB & Ha & Hptr & Hm & Hc & Hocc).
  apply (wp_weaken _ _ fault); [|intros e s'; by left].
  apply (wp_mono _ (λ _ s', Inv (delete p m) s')); [|intros [] s' Hs'; split; [exact Hs'|right; by rewrite Hm]].
  destruct (stats_lookup _ _ _ _ _ _ Hi EB) as (st & Est & Hok & Hdev).
  eapply wp_step; [done|]. eapply wp_step; [by apply run_update|]. eapply wp_step; [apply run_deref, lookup_insert_eq|].
  eapply wp_step; [by apply run_get_stats|]. eapply wp_step; [by apply (run_update_stats _ _ _ st)|].
  cbn [device_stats set_heap set_allocated_blocks heap device set_allocated size stream_uses].
  set (B' := set_allocated false B). set (s1 := set_device_stats _ _).
  assert (Hi1 : inv (Some b) (cuda_events s).*2 (delete p m) s1).
  { assert (s1 = set_device_stats (<[Z.to_nat (device B) := decreaseAllocated (size B) st]> (device_stats s))
      (set_allocated_blocks (delete p (allocated_blocks s)) (set_heap (<[b := B']> (heap s)) s))) as -> by done.
    apply (inv_hand None (Some b) (cuda_events s).*2 m _ _ s b B B' st _ Hi EB).
    - by repeat split.
    - done.
    - intros c. destruct (decide (c = b)); [by right|left; congruence].
    - intros c. by left.
    - intros [? _]. congruence.
    - done.
    - intros q c. rewrite lookup_delete_Some, Hptr. split.
      + intros [Hne Ec]. left. split; [|done]. intros ->.
        destruct (allocated_block _ _ _ _ _ _ Hi Ec) as (B2 & EB2 & _ & Hq & _). congruence.
      + intros [[Hne Ec]|(_ & _ & ?)]; [|done]. split; [|done]. intros <-. congruence.
    - intros q Hq. rewrite lookup_delete_ne; [done|congruence].
    - rewrite Hptr. apply lookup_delete_eq.
    - done.
    - intros x. by apply (inv_streams _ _ _ _ Hi b B).
    - done.
    - destruct Hok as [H1 H2 H3 H4]. destruct (weight_on_own B) as [W1 W2]. rewrite Ha in W2.
      destruct (weight_on_own B') as [W1' W2']. cbn in W1', W2'.
      pose proof (total_range _ _ _ _ (in_use_on (device B)) Hi) as Ht.
      assert (total (in_use_on (device B)) (<[b := B']> (heap s)) = amount_allocated st - size B).
      { rewrite (total_update _ _ _ _ _ EB). change (device B') with (device B) in W2'. lia. }
      assert (0 ≤ amount_allocated st - size B).
      { rewrite <- H5. apply total_nonneg. intros c C [[<- <-]|[_ EC]]%lookup_insert_Some.
        - pose proof (block_bounds _ _ _ _ _ (inv_regions _ _ _ _ Hi) (inv_heap _ _ _ _ Hi) EB). cbn. lia.
        - pose proof (block_bounds _ _ _ _ _ (inv_regions _ _ _ _ Hi) (inv_heap _ _ _ _ Hi) EC). lia. }
      pose proof (block_bounds _ _ _ _ _ (inv_regions _ _ _ _ Hi) (inv_heap _ _ _ _ Hi) EB).
      split; cbn [amount_allocated amount_cached max_amount_allocated max_amount_cached decreaseAllocated].
      + rewrite size_t_id; lia.
      + rewrite H2. symmetry. apply (total_update_same _ _ _ B); [done|]. change (device B') with (device B) in W1'. cbn in W1'. lia.
      + rewrite size_t_id; lia.
      + done. }
  assert (EB' : heap s1 !! b = Some B') by apply lookup_insert_eq.
  destruct (stream_uses B) eqn:Eu.
  - destruct (free_block_lemma b B' _ _ _ Hi1 EB') as (s2 & E2 & Hi2 & Hq & _); [done|].
    apply (wp_run _ _ _ _ _ _ E2). unfold Inv. by rewrite Hq.
  - apply (insert_events_lemma b B'); [done..|cbn; congruence|cbn; lia].
Qed.

(** ** [recordStream] *)
Lemma recordStream_lemma p st m s : Inv m s →
  wp (recordStream p st) (λ _ s', Inv m s' ∧ is_Some (m !! p))
    (λ e s', s' = s ∧ ((e = C10Error "invalid device pointer: %p" ∧ m !! p = None) ∨ (∃ e', CudaStream.CUDAStream_internals st = Throw e' ∧ e = e'))) s.
Proof.
  intros Hi. unfold recordStream. eapply wp_step; [done|]. destruct (allocated_blocks s !! p) as [b|] eqn:Eb.
  2:{ split; [done|]. left. split; [done|]. destruct (m !! p) eqn:E; [|done].
      destruct (inv_ghost _ _ _ _ Hi p) as [? ?]; [by rewrite E|]. congruence. }
  destruct (allocated_block _ _ _ _ _ _ Hi Eb) as (B & EB & Ha & Hptr & Hm & Hc & Hocc).
  eapply wp_step; [done|]. unfold CudaStream.CUDAStream_stream. destruct (CudaStream.CUDAStream_internals st) as [q|e] eqn:Eq.
  2:{ split; [done|]. right. by exists e. }
  eapply wp_step; [done|]. eapply wp_step; [by apply run_deref|].
  apply (wp_mono _ (λ _ s', Inv m s')); [|intros [] s' Hs'; split; [exact Hs'|by rewrite Hm]].
  case_match; [by apply wp_ret|].
  eapply wp_run; [by apply run_update|]. unfold Inv. cbn [cuda_events set_heap].
  apply (inv_update _ _ _ _ _ _ _ _ _ Hi EB); try done.
  - exact (inv_events _ _ _ _ Hi b B EB).
  - lia.
  - intros x. cbn. case_decide as Hx; [by apply (inv_streams _ _ _ _ Hi b B)|].
    intros [Hin| ->%list_elem_of_singleton]%elem_of_app; [by apply (inv_streams _ _ _ _ Hi b B)|].
    unfold stream_ok. by rewrite Eq.
Qed.
End Client.

(** ** Queries of the caching allocator *)

Section Queries.
Context {W : Type} `{CudaLaws W}.
Implicit Types (s : Allocator W) (L : option block_ptr) (evs : list block_ptr) (m : gmap Z desc) (h : gmap block_ptr Block) (l : gmap Z Z).

(** ** Walks along a chain *)

(** How many blocks are below, and how many are not below an address. *)
Definition below h (x : Z) : nat := base.size (filter (λ kv : block_ptr * Block, ptr kv.2 < x) h).
Definition above h (x : Z) : nat := base.size (filter (λ kv : block_ptr * Block, x ≤ ptr kv.2) h).

Lemma filter_size_lt h (P Q : block_ptr * Block → Prop) `{∀ x, Decision (P x)} `{∀ x, Decision (Q x)} b B :
  h !! b = Some B → (∀ x, P x → Q x) → Q (b, B) → ¬ P (b, B) → (base.size (filter P h) < base.size (filter Q h))%nat.
Proof.
  intros EB HPQ HQ HP. apply map_subset_size. split.
  - apply map_subseteq_spec. intros c C [EC HC]%map_lookup_filter_Some. apply map_lookup_filter_Some. auto.
  - intros Hsub. apply HP. apply (proj1 (map_lookup_filter_Some P h b B)).
    eapply lookup_weaken; [|exact Hsub]. by apply map_lookup_filter_Some.
Qed.

Lemma below_lt h a A x : h !! a = Some A → ptr A < x → (below h (ptr A) < below h x)%nat.
Proof. intros EA Hlt. apply (filter_size_lt h _ _ a A); cbn; [done|intros; lia|done|lia]. Qed.
Lemma above_lt h a A x : h !! a = Some A → ptr A < x → (above h x < above h (ptr A))%nat.
Proof. intros EA Hlt. apply (filter_size_lt h _ _ a A); cbn; [done|intros; lia|lia|lia]. Qed.

Lemma filter_size_le h (P : block_ptr * Block → Prop) `{∀ x, Decision (P x)} : (base.size (filter P h) ≤ base.size h)%nat.
Proof. apply map_subseteq_size, map_filter_subseteq. Qed.

(** The region a block lies in, by name. *)
Definition placed_at l (p n : Z) (B : Block) : Prop :=
  l !! p = Some n ∧ p ≤ ptr B ∧ ptr B + size B ≤ p + n ∧
  (prev B = None ↔ ptr B = p) ∧ (next B = None ↔ ptr B + size B = p + n).

(** Neighbours lie in one region. *)
Lemma neighbours_region l nd h a A b B p n : regions_ok l → heap_ok l nd h →
  h !! a = Some A → h !! b = Some B → next A = Some b → adjacent A B → placed_at l p n A ↔ placed_at l p n B.
Proof.
  intros Hl Hh EA EB En (Hadj & _).
  destruct (ok_placed _ _ _ (heap_block _ _ _ Hh a A EA)) as (p1 & n1 & PA).
  destruct (ok_placed _ _ _ (heap_block _ _ _ Hh b B EB)) as (p2 & n2 & PB).
  pose proof (ok_size _ _ _ (heap_block _ _ _ Hh a A EA)) as SA. pose proof (ok_size _ _ _ (heap_block _ _ _ Hh b B EB)) as SB.
  assert (Huniq : ∀ C q k q' k', 0 < size C → placed_at l q k C → placed_at l q' k' C → q = q' ∧ k = k').
  { intros C q k q' k' SC (H1 & H2 & H3 & _) (H1' & H2' & H3' & _). apply (region_unique l q q' k k' (ptr C)); done || lia. }
  assert (p1 = p2 ∧ n1 = n2) as [<- <-].
  { destruct PA as (L1 & A1 & A2 & _ & A3), PB as (L2 & B1 & B2 & _). apply (region_unique l p1 p2 n1 n2 (ptr B)); try done; [|lia].
    assert (ptr A + size A ≠ p1 + n1) by (intros E; apply A3 in E; congruence). lia. }
  split; intros HP; [destruct (Huniq A p n p1 n1) as [-> ->]|destruct (Huniq B p n p1 n1) as [-> ->]]; done.
Qed.

Lemma first_of_chain_lemma fuel b B p n m L evs s : inv L evs m s → heap s !! b = Some B →
  (below (heap s) (ptr B) ≤ fuel)%nat → placed_at (live (world s)) p n B →
  ∃ f F, first_of_chain fuel b s = (Ok f, s) ∧ heap s !! f = Some F ∧ prev F = None ∧ placed_at (live (world s)) p n F.
Proof.
  intros Hi. pose proof (inv_heap _ _ _ _ Hi) as Hh. pose proof (inv_regions _ _ _ _ Hi) as Hr.
  revert b B. induction fuel as [|fuel IH]; intros b B EB Hf HB.
  - cbn [first_of_chain]. rewrite (run_bind _ _ _ _ _ (run_deref _ _ _ EB)). destruct (prev B) as [a|] eqn:Ep; [|by exists b, B].
    destruct (heap_prev _ _ _ Hh b B a EB Ep) as (A & EA & _ & Hadj & _).
    pose proof (ok_size _ _ _ (heap_block _ _ _ Hh a A EA)). pose proof (below_lt (heap s) a A (ptr B) EA). lia.
  - cbn [first_of_chain]. rewrite (run_bind _ _ _ _ _ (run_deref _ _ _ EB)). destruct (prev B) as [a|] eqn:Ep; [|by exists b, B].
    destruct (heap_prev _ _ _ Hh b B a EB Ep) as (A & EA & En & Hadj). pose proof (proj1 Hadj).
    pose proof (ok_size _ _ _ (heap_block _ _ _ Hh a A EA)). pose proof (below_lt (heap s) a A (ptr B) EA).
    apply (IH a A); [done|lia|]. by apply (proj2 (neighbours_region _ _ _ a A b B p n Hr Hh EA EB En Hadj)).
Qed.

Lemma chain_size_lemma fuel b B p n acc m L evs s : inv L evs m s → heap s !! b = Some B →
  (above (heap s) (ptr B) ≤ fuel)%nat → placed_at (live (world s)) p n B → acc = ptr B - p →
  chain_size fuel (Some b) acc s = (Ok n, s).
Proof.
  intros Hi. pose proof (inv_heap _ _ _ _ Hi) as Hh. pose proof (inv_regions _ _ _ _ Hi) as Hr.
  revert b B acc. induction fuel as [|fuel IH]; intros b B acc EB Hf HB Hacc.
  { exfalso. pose proof (above_lt (heap s) b B (ptr B + 1) EB). lia. }
  cbn [chain_size]. rewrite (run_bind _ _ _ _ _ (run_deref _ _ _ EB)).
  pose proof (ok_size _ _ _ (heap_block _ _ _ Hh b B EB)). destruct (HB) as (Hl & H2 & H3 & _ & H5).
  pose proof (region_bounds _ _ _ Hr Hl). rewrite size_t_id by lia.
  destruct (next B) as [c|] eqn:En.
  - destruct (heap_next _ _ _ Hh b B c EB En) as (C & EC & _ & Hadj). pose proof (proj1 Hadj).
    apply (IH c C); [done| | |lia].
    + pose proof (above_lt (heap s) b B (ptr C) EB). lia.
    + by apply (proj1 (neighbours_region _ _ _ b B c C p n Hr Hh EB EC En Hadj)).
  - assert (ptr B + size B = p + n) by (by apply H5). replace (acc + size B) with n by lia. by destruct fuel.
Qed.

Lemma getBaseAllocation_lemma q m s : Inv m s → is_Some (m !! q) →
  ∃ p n, getBaseAllocation q s = (Ok (p, n), s) ∧ live (world s) !! p = Some n ∧ p ≤ q < p + n.
Proof.
  intros Hi Hq. destruct (inv_ghost _ _ _ _ Hi q Hq) as [b Eb]. destruct (allocated_block _ _ _ _ _ _ Hi Eb) as (B & EB & _ & Hp & _).
  pose proof (inv_heap _ _ _ _ Hi) as Hh.
  destruct (ok_placed _ _ _ (heap_block _ _ _ Hh b B EB)) as (p & n & HB).
  pose proof (ok_size _ _ _ (heap_block _ _ _ Hh b B EB)).
  destruct (first_of_chain_lemma (base.size (heap s)) b B p n _ _ _ _ Hi EB) as (f & F & E1 & EF & EvF & HF);
    [apply filter_size_le|done|].
  assert (EpF : ptr F = p) by (by apply HF).
  pose proof (chain_size_lemma (base.size (heap s)) f F p n 0 _ _ _ _ Hi EF (filter_size_le _ _) HF ltac:(lia)) as E2.
  exists p, n. destruct HB as (Hl & ? & ? & _). split; [|split; [done|lia]].
  unfold getBaseAllocation, find_allocated_block. rewrite (run_bind (gets _) _ s (Some b) s) by (unfold gets; by rewrite Eb).
  rewrite run_get, (run_bind _ _ _ _ _ E1), (run_bind _ _ _ _ _ (run_deref _ _ _ EF)), (run_bind _ _ _ _ _ E2).
  by rewrite EpF.
Qed.
End Queries.
