(* ===== verification/CudaMalloc.v ===== *)
(** * Finding, splitting and creating blocks, and allocation

    [find_free_block] is best fit; [split_block] cuts a block that the call holds;
    a new segment is one block.

    [malloc] returns a block of the requested device and stream that is at least as
    large as the request, from the pool or from a new segment, and keeps the
    invariant; when it throws, either a CUDA call failed or the
    clients hold what they held, but for what its callbacks freed. *)
From S2P Require Import Prelude CoreTypes CudaRuntime CudaStream CudaAllocator CudaHeap CudaChains CudaAllocSpec CudaFree CudaRelease CudaClient.
Local Open Scope Z_scope.
#[local] Set Warnings "-clear-no-such-hyp".
Import CudaAllocator CUDAFunctions.

Section Split.
Context {W : Type} `{CudaLaws W}.
Implicit Types (s : Allocator W) (L : option block_ptr) (evs : list block_ptr) (m : gmap Z desc) (h : gmap block_ptr Block).

(** ** [find_free_block] *)

(** The blocks a request can use. *)
Definition fits (d st n : Z) P (B : Block) : Prop :=
  idle B ∧ pool B = Some P ∧ device B = d ∧ stream B = st ∧ n ≤ size B.

Lemma comparator_between B C d st n : 0 ≤ ptr C →
  BlockComparator B (search_key d st n) = false → BlockComparator B C = true → device C = d → stream C = st →
  device B = d ∧ stream B = st.
Proof. intros Hp H1 H2 <- <-. unfold search_key in H1. comparator; cbn in *; try lia. Qed.

Lemma comparator_size B C : BlockComparator B C = true → device B = device C → stream B = stream C → size B ≤ size C.
Proof. intros. comparator. Qed.

Definition taken P (b : block_ptr) s : Allocator W := put_set P (filter (λ x, x ≠ b) (get_set P s)) s.

Lemma inv_taken b B P evs m s : inv None evs m s → heap s !! b = Some B → pool B = Some P →
  inv (Some b) evs m (taken P b s).
Proof.
  intros Hi EB HP.
  assert (Hh : heap (taken P b s) = heap s) by apply heap_put_set.
  assert (Ha : allocated_blocks (taken P b s) = allocated_blocks s) by (by destruct P).
  assert (Hg : ∀ Q, get_set Q (taken P b s) = if decide (P = Q) then filter (λ x, x ≠ b) (get_set P s) else get_set Q s).
  { intros Q. by destruct P, Q. }
  split; rewrite ?Hh, ?Ha.
  - by destruct P, Hi.
  - by destruct P, Hi.
  - intros Q c. rewrite Hg. case_decide as HQ.
    + subst Q. rewrite list_elem_of_filter, (inv_pool _ _ _ _ Hi). split.
      * intros (Hne & C & EC & Hc & Hp & _). exists C. repeat (split; [done|]). congruence.
      * intros (C & EC & Hc & Hp & Hne). split; [congruence|]. by exists C.
    + rewrite (inv_pool _ _ _ _ Hi). split; intros (C & EC & Hc & Hp & _); exists C; (split; [done|]; split; [done|]; split; [done|]); [|done].
      intros [= ->]. congruence.
  - intros Q. rewrite Hg. case_decide; [apply sorted_filter|]; apply (inv_sorted _ _ _ _ Hi).
  - apply (inv_allocated _ _ _ _ Hi).
  - apply (inv_client _ _ _ _ Hi).
  - apply (inv_ghost _ _ _ _ Hi).
  - apply (inv_events _ _ _ _ Hi).
  - apply (inv_waiting _ _ _ _ Hi).
  - apply (inv_streams _ _ _ _ Hi).
  - replace (next_block _) with (next_block s) by (by destruct P). apply (inv_fresh _ _ _ _ Hi).
  - replace (device_stats _) with (device_stats s) by (by destruct P). apply (inv_stats _ _ _ _ Hi).
  - intros a A c C EA En EC HA HC. by destruct (inv_maximal _ _ _ _ Hi a A c C EA En EC HA HC).
Qed.

Lemma settled_free evs m s b B : inv None evs m s → heap s !! b = Some B → idle B → settled prev b s ∧ settled next b s.
Proof.
  intros Hi EB HB. split; intros D a A ED Ea EA HA; simplify_eq.
  - destruct (heap_prev _ _ _ (inv_heap _ _ _ _ Hi) b B a EB Ea) as (A2 & EA2 & En & _). simplify_eq.
    by destruct (inv_maximal _ _ _ _ Hi a A b B EA En EB HA HB).
  - by destruct (inv_maximal _ _ _ _ Hi b B a A EB Ea EA HB HA).
Qed.

Lemma find_free_block_lemma d st n P evs m s : inv None evs m s →
  (find_free_block d st n P s = (Ok None, s) ∧ ∀ c C, heap s !! c = Some C → ¬ fits d st n P C) ∨
  (∃ b B, find_free_block d st n P s = (Ok (Some b), taken P b s) ∧ heap s !! b = Some B ∧ fits d st n P B ∧
     ∀ c C, heap s !! c = Some C → fits d st n P C → size B ≤ size C).
Proof.
  intros Hi. set (key := search_key d st n).
  pose proof (inv_in_heap _ _ _ _ P Hi) as Hin. pose proof (inv_sorted _ _ _ _ Hi P) as Hs.
  destruct (lower_bound_spec (heap s) key _ Hin Hs) as (lo & hi & Exs & El & Hlo & Hhi).
  assert (Hpos : ∀ c C, heap s !! c = Some C → 0 ≤ ptr C).
  { intros c C EC. pose proof (block_bounds _ _ _ _ _ (inv_regions _ _ _ _ Hi) (inv_heap _ _ _ _ Hi) EC). lia. }
  assert (Hfit : ∀ c C, heap s !! c = Some C → fits d st n P C → c ∈ hi).
  { intros c C EC (Hid & HP & Hd & Hst & Hn). assert (Hc : c ∈ lo ++ hi).
    { rewrite <- Exs. apply (inv_pool _ _ _ _ Hi). by exists C. }
    apply elem_of_app in Hc as [Hc|]; [|done]. pose proof (Hlo c C Hc EC) as Hlt.
    unfold key in Hlt. rewrite comparator_search in Hlt by eauto. apply Z.ltb_lt in Hlt. lia. }
  rewrite Exs in Hs. apply sorted_app_r in Hs.
  assert (Hrun : pool_lower_bound P key s = (Ok hi, s)).
  { unfold pool_lower_bound. rewrite run_get. unfold lift. by rewrite El. }
  unfold find_free_block. fold key. rewrite (run_bind _ _ _ _ _ Hrun).
  destruct hi as [|b hi].
  { left. split; [done|]. intros c C EC HC. specialize (Hfit c C EC HC). by apply elem_of_nil in Hfit. }
  assert (Hbin : b ∈ get_set P s) by (rewrite Exs; set_solver).
  destruct (proj1 (inv_pool _ _ _ _ Hi P b) Hbin) as (B & EB & HB & HP & _).
  rewrite (run_bind _ _ _ _ _ (run_deref _ _ _ EB)).
  pose proof (Hhi b B ltac:(set_solver) EB) as Hb.
  apply sorted_cons in Hs as [_ Hsb].
  destruct (decide (device B = d ∧ stream B = st)) as [[Hd Hst]|Hno].
  - rewrite (proj2 (Z.eqb_eq _ _) Hd), (proj2 (Z.eqb_eq _ _) Hst). cbn [andb]. right. exists b, B.
    split; [done|]. split; [done|]. split.
    + repeat (split; [done|]). unfold key in Hb. rewrite comparator_search in Hb by eauto. apply Z.ltb_ge in Hb. lia.
    + intros c C EC HC. pose proof (Hfit c C EC HC) as Hc. apply elem_of_cons in Hc as [->|Hc]; [by simplify_eq|].
      destruct (Hsb c Hc) as (B2 & C2 & EB2 & EC2 & Hlt). simplify_eq. destruct HC as (_ & _ & ? & ? & _).
      apply comparator_size; congruence.
  - left. split.
    + destruct (Z.eqb_spec (device B) d) as [Hd|]; [|done]. destruct (Z.eqb_spec (stream B) st) as [Hst|]; [|done]. by destruct Hno.
    + intros c C EC HC. pose proof (Hfit c C EC HC) as Hc. destruct HC as (_ & _ & Hd & Hst & _).
      apply elem_of_cons in Hc as [->|Hc]; [simplify_eq; by apply Hno|].
      destruct (Hsb c Hc) as (B2 & C2 & EB2 & EC2 & Hlt). simplify_eq. apply Hno.
      eapply comparator_between; eauto.
Qed.

(** ** A new segment *)

Lemma fresh_block L evs m s : inv L evs m s → heap s !! next_block s = None.
Proof.
  intros Hi. destruct (heap s !! next_block s) eqn:E; [|done].
  assert (next_block s < next_block s)%positive; [|lia]. apply (inv_fresh _ _ _ _ Hi). by eexists.
Qed.

Definition with_segment (B : Block) (w : W) st' s : Allocator W :=
  set_next_block (Pos.succ (next_block s)) (set_heap (<[next_block s := B]> (heap s))
    (set_device_stats (<[Z.to_nat (device B) := st']> (device_stats s)) (with_world w s))).

Lemma inv_segment evs m s d st n P p w ds :
  inv None evs m s → fresh_region p n (live (world s)) → live w = <[p := n]> (live (world s)) →
  0 < n → n mod kMinBlockSize = 0 → 0 ≤ d < Z.of_nat (length (device_stats s)) → device_stats s !! Z.to_nat d = Some ds →
  inv (Some (next_block s)) evs m (with_segment (new_Block d st n P p) w (increaseCached n ds) s).
Proof.
  intros Hi Hfr Hl Hn Hm Hd Hds. pose proof (fresh_block _ _ _ _ Hi) as Hnew. set (B := new_Block d st n P p). set (b := next_block s) in *.
  assert (Hok : heap_ok (<[p := n]> (live (world s))) (length (device_stats s)) (<[b := B]> (heap s))).
  { apply (segment_heap_ok _ _ _ b B p); try done. apply (inv_heap _ _ _ _ Hi). }
  assert (Hreg : regions_ok (<[p := n]> (live (world s)))) by (apply regions_ok_insert; [done..|apply (inv_regions _ _ _ _ Hi)]).
  assert (Hnb : ∀ q, allocated_blocks s !! q ≠ Some b).
  { intros q Eq. destruct (inv_client _ _ _ _ Hi q b Eq) as (C & EC & _). congruence. }
  assert (Hev : b ∉ evs) by (intros Hin; destruct (inv_waiting _ _ _ _ Hi b Hin) as (C & EC & _); congruence).
  unfold with_segment. fold b. fold B.
  split; cbn [heap world device_stats allocated_blocks next_block cuda set_next_block set_heap set_device_stats with_world set_cuda CudaStream.world CudaStream.set_world].
  - by rewrite Hl.
  - rewrite Hl, length_insert. done.
  - intros Q c. transitivity (c ∈ get_set Q s); [by destruct Q|]. rewrite (inv_pool _ _ _ _ Hi).
    split; intros (C & EC & HC & HP & Hc); exists C.
    + rewrite lookup_insert_ne by congruence. repeat (split; [done|]). congruence.
    + rewrite lookup_insert_ne in EC by congruence. done.
  - intros Q. apply (sorted_ext (heap s)); [|destruct Q; [apply (inv_sorted _ _ _ _ Hi large_blocks)|apply (inv_sorted _ _ _ _ Hi small_blocks)]].
    intros x X _ EX. exists X. rewrite lookup_insert_ne by congruence. done.
  - intros c C [[<- <-]|[_ EC]]%lookup_insert_Some Ha; [done|]. by apply (inv_allocated _ _ _ _ Hi).
  - intros q c Ec. destruct (inv_client _ _ _ _ Hi q c Ec) as (C & EC & ?). exists C. rewrite lookup_insert_ne by congruence. done.
  - apply (inv_ghost _ _ _ _ Hi).
  - intros c C [[<- <-]|[_ EC]]%lookup_insert_Some; [|by apply (inv_events _ _ _ _ Hi)].
    cbn. pose proof (occ_nonneg b evs). destruct (decide (0 < occ b evs)) as [Hlt|]; [by apply occ_pos in Hlt|lia].
  - intros c Hc. destruct (inv_waiting _ _ _ _ Hi c Hc) as (C & EC & ?). exists C. rewrite lookup_insert_ne by congruence. done.
  - intros c C x [[<- <-]|[_ EC]]%lookup_insert_Some; [intros Hx; by apply elem_of_nil in Hx|]. by apply (inv_streams _ _ _ _ Hi c).
  - intros c Hc. destruct (decide (c = b)) as [->|Hne]; [subst b; lia|]. rewrite lookup_insert_ne in Hc by done.
    apply (inv_fresh _ _ _ _ Hi) in Hc. subst b. lia.
  - intros e x [(<- & <- & _)|[Hne Ex]]%list_lookup_insert_Some.
    + pose proof (total_lt _ _ _ (on_device d) Hreg Hok) as Ht. destruct (inv_stats _ _ _ _ Hi _ _ Hds) as [H1 H2 H3 H4].
      change (device B) with d. rewrite !Z2Nat.id in * by lia. rewrite (total_insert _ _ _ _ Hnew) in Ht. cbn [device new_Block] in Ht.
      destruct (weight_on_own B) as [W1 W2]. change (device B) with d in *. cbn [allocated new_Block B] in W2.
      pose proof (total_range _ _ _ _ (on_device d) Hi) as Htr. rewrite W1 in Ht. cbn [size new_Block B] in *.
      split; cbn [amount_allocated amount_cached max_amount_allocated max_amount_cached increaseCached].
      * rewrite (total_insert _ _ _ _ Hnew). lia.
      * rewrite (total_insert _ _ _ _ Hnew). rewrite size_t_id; lia.
      * done.
      * lia.
    + destruct (inv_stats _ _ _ _ Hi e x Ex) as [H1 H2 H3 H4]. destruct (weight_on_other (Z.of_nat e) B) as [W1 W2]; [change (device B) with d in *; lia|].
      split; rewrite ?(total_insert _ _ _ _ Hnew); [lia|lia|done|done].
  - intros a A c C [[<- <-]|[_ EA]]%lookup_insert_Some En [[<- <-]|[_ EC]]%lookup_insert_Some HA HC; [by left|by left|by right|].
    by destruct (inv_maximal _ _ _ _ Hi a A c C EA En EC HA HC).
Qed.
(** ** Cutting a block in two *)
Section Cut.
Context (evs : list block_ptr) (m : gmap Z desc) (s : Allocator W) (r : block_ptr) (R : Block) (P : BlockPool) (n : Z).
Context (Hi : inv (Some r) evs m s) (Er : heap s !! r = Some R) (HR : idle R) (HP : pool R = Some P)
  (Hn : 0 < n < size R) (Hm : n mod kMinBlockSize = 0) (Hsp : settled prev r s) (Hsn : settled next r s).

Let b : block_ptr := next_block s.
Definition front : Block := set_next (Some r) (set_prev (prev R) (new_Block (device R) (stream R) n P (ptr R))).
Definition back : Block := set_size (size_t (size R - n)) (set_ptr (ptr R + n) (set_prev (Some b) R)).

Context (h' : gmap block_ptr Block) (Hf : h' !! b = Some front) (Hb : h' !! r = Some back)
  (Hrest : ∀ x, x ≠ b → x ≠ r → h' !! x = (if decide (prev R = Some x) then set_next (Some b) else id) <$> heap s !! x).

Local Lemma cut_fresh : heap s !! b = None.
Proof. by eapply fresh_block. Qed.

Local Lemma cut_ne : b ≠ r.
Proof. intros E. pose proof cut_fresh. congruence. Qed.

Local Lemma cut_size : size_t (size R - n) = size R - n.
Proof.
  pose proof (block_bounds _ _ _ _ _ (inv_regions _ _ _ _ Hi) (inv_heap _ _ _ _ Hi) Er). apply size_t_id. lia.
Qed.

Lemma cut_heap_ok : heap_ok (live (world s)) (length (device_stats s)) h'.
Proof.
  eapply (split_heap_ok _ _ (heap s) b r R front back h' n); try done.
  - by apply (inv_heap _ _ _ _ Hi).
  - apply cut_fresh.
  - cbn. apply cut_size.
Qed.

(** The old blocks in the new memory. *)
Local Lemma cut_forth x X : heap s !! x = Some X → x ≠ r → ∃ X', h' !! x = Some X' ∧ same_but_links X X' ∧ (next X' = next X ∨ next X' = Some b).
Proof.
  intros EX Hx. pose proof cut_fresh. rewrite Hrest by congruence. rewrite EX. eexists. split; [done|].
  case_decide; (split; [by repeat split|]); auto.
Qed.

Local Lemma cut_back x X' : h' !! x = Some X' → x ≠ b → x ≠ r → ∃ X, heap s !! x = Some X ∧ same_but_links X X' ∧ (next X' = next X ∨ next X' = Some b).
Proof.
  intros EX Hx Hr. rewrite Hrest in EX by done. destruct (heap s !! x) as [X|]; [|done]. injection EX as <-. exists X. split; [done|].
  case_decide; (split; [by repeat split|]); auto.
Qed.

Local Lemma cut_total f : weight f front + weight f back = weight f R → (∀ X X', same_but_links X X' → weight f X' = weight f X) →
  total f h' = total f (heap s).
Proof.
  intros Hw Hl. rewrite (total_delete f h' b front Hf).
  rewrite (total_delete f (delete b h') r back) by (rewrite lookup_delete_ne by apply cut_ne; done).
  rewrite (total_delete f (heap s) r R Er).
  rewrite (total_ext f (delete r (delete b h')) (delete r (heap s))); [lia|].
  intros x. destruct (decide (x = r)) as [->|Hr]; [by rewrite !lookup_delete_eq|]. rewrite !(lookup_delete_ne _ r) by done.
  destruct (decide (x = b)) as [->|Hb']; [by rewrite lookup_delete_eq, cut_fresh|]. rewrite lookup_delete_ne by done.
  destruct (heap s !! x) as [X|] eqn:EX.
  - destruct (cut_forth x X EX Hr) as (X' & -> & Hs & _). cbn. by rewrite (Hl X X').
  - rewrite Hrest, EX by done. done.
Qed.

Context (xs : list block_ptr) (Hxs : pool_sorted h' xs) (Hmem : ∀ x, x ∈ xs ↔ x = r ∨ x ∈ get_set P s).

Definition cut_state : Allocator W := put_set P xs (set_next_block (Pos.succ b) (set_heap h' s)).

Lemma inv_cut : inv (Some b) evs m cut_state.
Proof.
  pose proof cut_fresh as Hfr. pose proof cut_ne as Hbr. pose proof cut_size as Hsz.
  assert (Hh : heap cut_state = h') by (unfold cut_state; by rewrite heap_put_set).
  assert (Ha : allocated_blocks cut_state = allocated_blocks s) by (unfold cut_state; by rewrite allocated_put_set).
  assert (Hd : device_stats cut_state = device_stats s) by (unfold cut_state; by rewrite stats_put_set).
  assert (Hw : world cut_state = world s) by (unfold cut_state; by rewrite world_put_set).
  assert (Hg : ∀ Q, get_set Q cut_state = if decide (P = Q) then xs else get_set Q s).
  { intros Q. unfold cut_state. rewrite get_put_set. destruct (decide (P = Q)); [by rewrite decide_True|].
    rewrite decide_False by congruence. by destruct Q. }
  assert (Hold : ∀ c, allocated_blocks s !! c ≠ Some r ∧ allocated_blocks s !! c ≠ Some b).
  { intros c. split; intros Ec; destruct (inv_client _ _ _ _ Hi c _ Ec) as (C & EC & HC & _); [destruct HR|]; congruence. }
  assert (Hev : ∀ x, x ∈ evs → x ≠ r ∧ x ≠ b).
  { intros x Hx. destruct (inv_waiting _ _ _ _ Hi x Hx) as (X & EX & _). split; [|congruence]. intros ->.
    apply occ_pos in Hx. rewrite <- (inv_events _ _ _ _ Hi r R Er) in Hx. destruct HR. lia. }
  split; rewrite ?Hh, ?Ha, ?Hd, ?Hw.
  - apply (inv_regions _ _ _ _ Hi).
  - apply cut_heap_ok.
  - intros Q x. rewrite Hg. destruct (decide (x = r)) as [->|Hxr].
    { rewrite Hb. case_decide as HQ.
      - rewrite Hmem. split; [|by left]. intros _. exists back. subst Q. repeat (split; [done|]). congruence.
      - split; [|intros (C & [= <-] & _ & HPC & _); cbn in HPC; congruence].
        intros Hx. apply (inv_pool _ _ _ _ Hi) in Hx as (C & EC & _ & _ & Hc). done. }
    transitivity (x ∈ get_set Q s). { case_decide as HQ; [|done]. subst Q. rewrite Hmem. split; [by intros [?|?]|by right]. }
    rewrite (inv_pool _ _ _ _ Hi). split.
    + intros (X & EX & HX & HQ & _). destruct (cut_forth x X EX Hxr) as (X' & EX' & Hs & _). exists X'.
      destruct (same_but_links_idle X X' Hs) as [-> _]. destruct Hs as (_ & _ & _ & _ & ->).
      repeat (split; [done|]). congruence.
    + intros (X' & EX' & HX & HQ & Hxb). destruct (cut_back x X' EX') as (X & EX & Hs & _); [congruence|done|].
      exists X. destruct (same_but_links_idle X X' Hs) as [<- _]. destruct Hs as (_ & _ & _ & _ & <-).
      repeat (split; [done|]). congruence.
  - intros Q. rewrite Hg. case_decide; [done|]. apply (sorted_ext (heap s)); [|apply (inv_sorted _ _ _ _ Hi)].
    intros x X Hx EX. destruct (cut_forth x X EX) as (X' & EX' & Hs & _); [|exists X'; by destruct Hs].
    intros ->. apply (inv_pool _ _ _ _ Hi) in Hx as (_ & _ & _ & _ & []). done.
  - intros x X' EX' HX. destruct (decide (x = b)) as [->|Hxb]; [rewrite Hf in EX'; by injection EX' as <-|].
    destruct (decide (x = r)) as [->|Hxr]; [rewrite Hb in EX'; injection EX' as <-; destruct HR; cbn in HX; congruence|].
    destruct (cut_back x X' EX' Hxb Hxr) as (X & EX & Hs & _). destruct (same_but_links_idle X X' Hs) as (_ & _ & ->).
    apply (inv_allocated _ _ _ _ Hi x X EX). destruct Hs as (_ & <- & _). done.
  - intros q x Ex. destruct (inv_client _ _ _ _ Hi q x Ex) as (X & EX & HX & Hq & Hmq). destruct (Hold q) as [H1 _].
    destruct (cut_forth x X EX) as (X' & EX' & Hs & _); [congruence|]. exists X'.
    destruct (same_but_links_idle X X' Hs) as (_ & -> & ->). destruct Hs as (_ & -> & _). done.
  - apply (inv_ghost _ _ _ _ Hi).
  - intros x X' EX'. destruct (decide (x = b)) as [->|Hxb].
    { rewrite Hf in EX'. injection EX' as <-. cbn. pose proof (occ_nonneg b evs).
      destruct (decide (0 < occ b evs)) as [Hlt|]; [|lia]. apply occ_pos, Hev in Hlt as []. done. }
    destruct (decide (x = r)) as [->|Hxr]; [rewrite Hb in EX'; injection EX' as <-; by apply (inv_events _ _ _ _ Hi r R)|].
    destruct (cut_back x X' EX' Hxb Hxr) as (X & EX & (_ & _ & -> & _) & _). by apply (inv_events _ _ _ _ Hi).
  - intros x Hx. destruct (Hev x Hx). destruct (inv_waiting _ _ _ _ Hi x Hx) as (X & EX & HX).
    destruct (cut_forth x X EX) as (X' & EX' & (_ & HX' & _) & _); [done|]. exists X'. split; [done|congruence].
  - intros x X' st EX'. destruct (decide (x = b)) as [->|Hxb].
    { rewrite Hf in EX'. injection EX' as <-. intros Hst. by apply elem_of_nil in Hst. }
    destruct (decide (x = r)) as [->|Hxr]; [rewrite Hb in EX'; injection EX' as <-; by apply (inv_streams _ _ _ _ Hi r R)|].
    destruct (cut_back x X' EX' Hxb Hxr) as (X & EX & (_ & _ & _ & -> & _) & _). by apply (inv_streams _ _ _ _ Hi x).
  - intros x [X' EX']. replace (next_block cut_state) with (Pos.succ b) by (unfold cut_state; by rewrite next_put_set).
    destruct (decide (x = b)) as [->|Hxb]; [lia|].
    assert (x < b)%positive; [|lia]. apply (inv_fresh _ _ _ _ Hi). destruct (decide (x = r)) as [->|Hxr]; [by eexists|].
    destruct (cut_back x X' EX' Hxb Hxr) as (X & EX & _). by eexists.
  - intros d st Est. destruct (inv_stats _ _ _ _ Hi d st Est) as [H1 H2 H3 H4]. destruct HR as [HaR _].
    split; [rewrite H1|rewrite H2|done|done]; symmetry; apply cut_total; try (intros; by apply same_but_links_weight).
    + unfold weight, in_use_on. cbn. by rewrite HaR, !andb_false_r.
    + unfold weight, on_device. cbn. rewrite Hsz. case_match; lia.
  - intros x X' y Y' EX' En EY' HX HY. destruct (decide (x = b)) as [->|Hxb]; [by left|].
    destruct (decide (y = b)) as [->|Hyb]; [by right|]. exfalso.
    destruct (decide (x = r)) as [->|Hxr].
    { rewrite Hb in EX'. injection EX' as <-. cbn in En.
      destruct (heap_next _ _ _ (inv_heap _ _ _ _ Hi) r R y Er En) as (Y & EY & Hp & Hadj).
      destruct (cut_forth y Y EY) as (Y2 & EY2 & Hs & _); [intros ->; unfold adjacent in Hadj; simplify_eq; lia|].
      simplify_eq. apply (Hsn R y Y Er En EY). by apply (same_but_links_idle Y Y'). }
    destruct (cut_back x X' EX' Hxb Hxr) as (X & EX & HsX & [Hn'|Hn']); [|congruence].
    destruct (decide (y = r)) as [->|Hyr].
    { destruct (heap_next _ _ _ (inv_heap _ _ _ _ Hi) x X r EX) as (R2 & ER2 & Hp & _); [congruence|].
      simplify_eq. apply (Hsp R x X Er Hp EX). by apply (same_but_links_idle X X'). }
    destruct (cut_back y Y' EY' Hyb Hyr) as (Y & EY & HsY & _).
    destruct (inv_maximal _ _ _ _ Hi x X y Y EX) as [[= ?]|[= ?]]; [congruence|done| | |congruence|congruence].
    + by apply (same_but_links_idle X X').
    + by apply (same_but_links_idle Y Y').
Qed.
End Cut.
End Split.

(** ** Allocation *)

Section Malloc.
Context {W : Type} `{CudaLaws W}.
Implicit Types (s : Allocator W) (L : option block_ptr) (evs : list block_ptr) (m : gmap Z desc) (h : gmap block_ptr Block).

(** ** [split_block] *)

Lemma SE_assoc {A B C} (p : SE (Allocator W) A) (f : A → SE (Allocator W) B) (g : B → SE (Allocator W) C) s :
  (p ≫= λ x, f x ≫= g) s = ((p ≫= f) ≫= g) s.
Proof. unfold mbind, SE_bind. by destruct (p s) as [[a|e] s']. Qed.

Lemma run_update_in b f B h s : h !! b = Some B → update b f (set_heap h s) = (Ok tt, set_heap (<[b := f B]> h) s).
Proof. intros E. by rewrite (run_update b f B). Qed.
Lemma run_deref_in b B h s : h !! b = Some B → deref b (set_heap h s) = (Ok B, set_heap h s).
Proof. intros E. by apply run_deref. Qed.

Lemma split_block_lemma r R P n evs m s :
  inv (Some r) evs m s → heap s !! r = Some R → idle R → pool R = Some P → 0 < n < size R → n mod kMinBlockSize = 0 →
  settled prev r s → settled next r s →
  ∃ s', split_block r n (device R) (stream R) P s = (Ok (next_block s), s') ∧ inv (Some (next_block s)) evs m s' ∧
    heap s' !! next_block s = Some (front r R P n) ∧ device_stats s' = device_stats s ∧ cuda_events s' = cuda_events s.
Proof.
  intros Hi Er HR HP Hn Hm Hsp Hsn. set (b := next_block s). pose proof (fresh_block _ _ _ _ Hi) as Hfr. fold b in Hfr.
  assert (Hbr : b ≠ r) by congruence.
  assert (Hlink : ∀ p, prev R = Some p → is_Some (heap s !! p) ∧ p ≠ b ∧ p ≠ r).
  { intros p Ep. destruct (heap_prev _ _ _ (inv_heap _ _ _ _ Hi) r R p Er Ep) as (A & EA & En & Hadj).
    split; [by eexists|]. split; [congruence|]. intros ->. unfold adjacent in Hadj. simplify_eq. lia. }
  set (N0 := new_Block (device R) (stream R) n P (ptr R)).
  set (s1 := set_next_block (Pos.succ b) (set_heap (<[b := N0]> (heap s)) s)).
  set (link := set_next (Some b)).
  set (h2 := relinked (heap s1) b (set_prev (prev R) N0) (prev R) link).
  assert (E2b : h2 !! b = Some (set_prev (prev R) N0)) by (apply relinked_dst; intros p Ep; by apply Hlink).
  assert (E2r : h2 !! r = Some R).
  { unfold h2. rewrite relinked_rest by done. cbn. rewrite lookup_insert_ne, Er by done. cbn.
    rewrite decide_False; [done|]. intros Ep. by destruct (Hlink r Ep) as (_ & _ & []). }
  set (h3 := <[b := set_next (Some r) (set_prev (prev R) N0)]> h2).
  set (R1 := set_prev (Some b) R). set (R2 := set_ptr (ptr R + n) R1). set (R3 := set_size (size_t (size R - n)) R2).
  set (h' := <[r := R3]> (<[r := R2]> (<[r := R1]> h3))).
  assert (Hf : h' !! b = Some (front r R P n)) by (unfold h'; rewrite !lookup_insert_ne by done; apply lookup_insert_eq).
  assert (Hb : h' !! r = Some (back s R n)) by apply lookup_insert_eq.
  assert (Hrest : ∀ x, x ≠ b → x ≠ r → h' !! x = (if decide (prev R = Some x) then set_next (Some b) else id) <$> heap s !! x).
  { intros x Hxb Hxr. unfold h', h3. rewrite !lookup_insert_ne by done. unfold h2. rewrite relinked_rest by done.
    cbn [s1 heap set_next_block set_heap]. by rewrite lookup_insert_ne. }
  pose proof (cut_heap_ok evs m s r R P n Hi Er HP Hn Hm h' Hf Hb Hrest) as Hok.
  assert (Hsrt : pool_sorted h' (get_set P s)).
  { apply (sorted_ext (heap s)); [|apply (inv_sorted _ _ _ _ Hi)]. intros x X Hx EX.
    assert (x ≠ r) by (intros ->; by eapply pool_without_L). assert (x ≠ b) by congruence.
    rewrite Hrest, EX by done. eexists. split; [done|]. by case_decide. }
  destruct (set_insert_spec h' r (back s R n) (get_set P s)) as (xs & Exs & Hxs & Hmem).
  - intros x Hx. destruct (inv_in_heap _ _ _ _ P Hi x Hx) as [X EX].
    assert (x ≠ r) by (intros ->; by eapply pool_without_L). assert (x ≠ b) by congruence.
    rewrite Hrest, EX by done. by eexists.
  - done.
  - done.
  - intros y Y Hy EY. apply (key_neq _ _ _ _ _ _ _ Hok EY Hb). intros ->. by eapply pool_without_L.
  - exists (cut_state s P h' xs). split; [|split; [|split; [|split]]].
    + unfold split_block. rewrite (run_bind _ _ _ _ _ (run_deref _ _ _ Er)).
      rewrite (run_bind (new N0) _ s b s1) by done.
      rewrite SE_assoc. rewrite (run_bind _ _ _ _ _ (relink_run b N0 (prev R) link s1 (set_prev (prev R)) (lookup_insert_eq _ _ _)
        ltac:(intros p Ep; destruct (Hlink p Ep) as (? & ? & ?); split; [cbn; by rewrite lookup_insert_ne|done]))).
      fold h2. rewrite (run_bind _ _ _ _ _ (run_update_in b _ _ h2 s1 E2b)). fold h3.
      assert (E3r : h3 !! r = Some R) by (unfold h3; by rewrite lookup_insert_ne).
      rewrite (run_bind _ _ _ _ _ (run_update_in r _ R h3 s1 E3r)). fold R1.
      set (h4 := <[r := R1]> h3). assert (E4 : h4 !! r = Some R1) by apply lookup_insert_eq.
      rewrite (run_bind _ _ _ _ _ (run_deref_in r R1 h4 s1 E4)), (run_bind _ _ _ _ _ (run_update_in r _ R1 h4 s1 E4)).
      change (set_ptr (ptr R1 + n) R1) with R2.
      set (h5 := <[r := R2]> h4). assert (E5 : h5 !! r = Some R2) by apply lookup_insert_eq.
      rewrite (run_bind _ _ _ _ _ (run_deref_in r R2 h5 s1 E5)), (run_bind _ _ _ _ _ (run_update_in r _ R2 h5 s1 E5)).
      change (<[r := set_size (size_t (size R2 - n)) R2]> h5) with h'.
      assert (Ei : ∀ s0, heap s0 = h' → get_set P s0 = get_set P s → pool_insert P r s0 = (Ok tt, put_set P xs s0)).
      { intros s0 E1 E2. unfold pool_insert. rewrite run_get. rewrite E1, E2. unfold deref_in. rewrite Hb.
        unfold mbind at 1, SE_bind at 1, lift at 1. unfold mbind at 1, SE_bind at 1, lift at 1. by rewrite Exs. }
      rewrite (run_bind _ _ _ _ _ (Ei (set_heap h' s1) eq_refl ltac:(by destruct P))). done.
    + by eapply inv_cut.
    + unfold cut_state. by rewrite heap_put_set.
    + unfold cut_state. by rewrite stats_put_set.
    + unfold cut_state. by rewrite events_put_set.
Qed.
(** ** Parts of [malloc] *)

(** What callbacks may do to the allocations that clients hold: [frees m m'] when one of
    them may leave [m'] of [m].  With callbacks that free nothing it is equality. *)
Context (frees : gmap Z desc → gmap Z desc → Prop).
(** What is left of [m] after callbacks, any number of them. *)
Definition left m m' : Prop := rtc frees m m'.
Lemma left_refl m : left m m.
Proof. apply rtc_refl. Qed.
Lemma left_trans m m1 m2 : left m m1 → left m1 m2 → left m m2.
Proof. unfold left. intros H1 H2. by etrans. Qed.
#[local] Hint Resolve left_refl : core.

(** A call that throws: a CUDA call failed, or the state is intact and the clients
    hold what the callbacks have left. *)
Definition fail_safe m (e : exn) s : Prop :=
  (∃ what, e = C10Error what) ∧ (faulted (world s) ∨ ∃ m', left m m' ∧ Inv m' s).

Lemma fault_safe m e s : fault e s → fail_safe m e s.
Proof. intros [? ?]. split; [done|by left]. Qed.

Lemma fail_safe_mono m m' e s : left m m' → fail_safe m' e s → fail_safe m e s.
Proof. intros Hm [? [?|(m2 & ? & ?)]]; (split; [done|]); [by left|right]. exists m2. split; [by eapply left_trans|done]. Qed.

(** [cudaMalloc]. *)
Lemma wp_cudaMalloc n (Q : cudaError_t * Z → Allocator W → Prop) E s : 0 < n →
  (∀ p w, fresh_region p n (live (world s)) → live w = <[p := n]> (live (world s)) → Q (cudaSuccess, p) (with_world w s)) →
  (∀ err p w, err ≠ cudaSuccess → live w = live (world s) → Q (err, p) (with_world w s)) →
  wp (on_world (call (cudaMalloc n))) Q E s.
Proof.
  intros Hn Hok Hbad. unfold wp, on_world, on_streams, CudaStream.on_world, zoom, call. cbn.
  destruct (cudaMalloc n _) as [[err p] w] eqn:Ef. destruct (Malloc_law _ _ _ _ _ Ef Hn) as [_ Hl]. cbn.
  destruct err; [by apply Hok; destruct Hl|by apply Hbad..].
Qed.

(** What a successful allocation of a segment leaves. *)
Definition segment_of n (p : Z) (k : nat) m s : Prop := ∃ s0 w, s = with_world w s0 ∧ Inv m s0 ∧
  fresh_region p n (live (world s0)) ∧ live w = <[p := n]> (live (world s0)) ∧ length (device_stats s0) = k.

Lemma cuda_malloc_retry_lemma d n m s : Inv m s → 0 < n →
  wp (cuda_malloc_retry d n) (λ r s', if decide (r.1 = cudaSuccess) then segment_of n r.2 (length (device_stats s)) m s'
     else Inv m s' ∧ length (device_stats s') = length (device_stats s)) fault s.
Proof.
  intros Hi Hn. unfold cuda_malloc_retry. apply wp_bind, wp_cudaMalloc; [done| |].
  - intros p w Hf Hl. cbn. apply wp_ret. cbn. by exists s, w.
  - intros err p w Herr Hl. cbn [fst]. rewrite decide_False by done.
    apply wp_bind. apply (wp_call _ _ _ _ _ GetLastError_quiet). intros r w' Hl' _.
    apply wp_bind. eapply wp_mono; [apply (free_cached_blocks_lemma d m)|].
    + unfold Inv. apply (inv_world _ _ _ (with_world w s)); [done|]. by apply inv_world.
    + intros [] s1 [Hi1 Hd1]. cbn beta. apply wp_cudaMalloc; [done| |].
      * intros p' w2 Hf Hl2. cbn. by exists s1, w2.
      * intros err' p' w2 Herr' Hl2. cbn [fst]. rewrite decide_False by done. split; [|done]. by apply inv_world.
Qed.

(** [get_stats_for_device] extends the vector with empty statistics. *)
Lemma get_stats_lemma d m s : Inv m s → 0 ≤ d →
  ∃ s', get_stats_for_device d s = (Ok (Z.to_nat d, length (device_stats s')), s') ∧ Inv m s' ∧
    d < Z.of_nat (length (device_stats s')) ∧ world s' = world s ∧ heap s' = heap s.
Proof.
  intros Hi Hd. destruct (decide (d < Z.of_nat (length (device_stats s)))) as [Hlt|Hge].
  { exists s. split; [by apply run_get_stats|done]. }
  unfold get_stats_for_device. rewrite run_assert by (apply Z.leb_le; lia). rewrite run_get.
  rewrite (proj2 (Nat.leb_le _ _)) by lia.
  set (ds := device_stats s ++ replicate (S (Z.to_nat d) - length (device_stats s)) empty_stats).
  assert (Hlen : length ds = S (Z.to_nat d)) by (unfold ds; rewrite length_app, length_replicate; lia).
  exists (set_device_stats ds s). split; [cbn [device_stats set_device_stats]; by rewrite Hlen|].
  split; [|cbn [device_stats set_device_stats]; rewrite Hlen; split; [lia|done]].
  unfold Inv in *. split; try apply Hi; cbn [device_stats set_device_stats].
  - eapply heap_ok_devices; [|exact (inv_heap _ _ _ _ Hi)]. lia.
  - intros e st [Hst|[Hge' Hst]]%lookup_app_Some; [by apply (inv_stats _ _ _ _ Hi)|].
    apply lookup_replicate in Hst as [-> _].
    assert (Hz : ∀ b B, heap s !! b = Some B → on_device (Z.of_nat e) B = false).
    { intros b B EB. apply Z.eqb_neq. pose proof (ok_device _ _ _ (heap_block _ _ _ (inv_heap _ _ _ _ Hi) b B EB)). lia. }
    split; cbn; [symmetry; apply total_zero|symmetry; by apply total_zero|lia|lia].
    intros b B EB. unfold in_use_on. by rewrite (Hz b B EB : (_ =? _) = false).
Qed.
(** ** From a block to an allocation *)

(** The call holds a free block [b] that fits the request, and the reference to the
    statistics that it took is still valid. *)
Definition holds (d st n : Z) P (b : block_ptr) (k : nat) m s : Prop :=
  inv (Some b) (cuda_events s).*2 m s ∧ (∃ B, heap s !! b = Some B ∧ fits d st n P B) ∧
  settled prev b s ∧ settled next b s ∧ length (device_stats s) = k.

(** The slack of a block that is not split. *)
Definition slack P : Z := match P with small_blocks => kMinBlockSize - 1 | large_blocks => kSmallSize end.

(** The end of [malloc]. *)
Definition finish (block : block_ptr) (n d st : Z) P (stats : stats_ref) : SE (Allocator W) Z :=
  split ← should_split block n;
  block ← (if split : bool then split_block block n d st P else mret block);
  update block (set_allocated true);;
  B ← deref block;
  modify (λ s, set_allocated_blocks (<[ptr B := block]> (allocated_blocks s)) s);;
  update_stats stats (increaseAllocated (size B));;
  mret (ptr B).

(** The block goes to the client. *)
Lemma hand_over b B m s :
  inv (Some b) (cuda_events s).*2 m s → heap s !! b = Some B → idle B →
  m !! ptr B = None ∧
  wp (update b (set_allocated true);;
      A ← deref b;
      modify (λ s, set_allocated_blocks (<[ptr A := b]> (allocated_blocks s)) s);;
      update_stats (Z.to_nat (device B), length (device_stats s)) (increaseAllocated (size A));;
      mret (ptr A))
    (λ p s', p = ptr B ∧ Inv (<[ptr B := desc_of B]> m) s') fault s.
Proof.
  intros Hi EB HB. pose proof (inv_heap _ _ _ _ Hi) as Hh.
  assert (Hother : ∀ c, allocated_blocks s !! ptr B ≠ Some c).
  { intros c Ec. destruct (inv_client _ _ _ _ Hi _ c Ec) as (C & EC & HC & Hp & _).
    assert (c = b) as -> by (by apply (ptr_inj _ _ _ c b C B Hh)). destruct HB. congruence. }
  split.
  { destruct (m !! ptr B) eqn:E; [|done]. destruct (inv_ghost _ _ _ _ Hi (ptr B)) as [c Ec]; [by rewrite E|]. by destruct (Hother c). }
  destruct (stats_lookup _ _ _ _ _ _ Hi EB) as (st & Est & Hok & Hdev). destruct HB as [Ha He].
  eapply wp_step; [by apply run_update|]. eapply wp_step; [apply run_deref, lookup_insert_eq|]. eapply wp_step; [done|].
  eapply wp_step; [by apply (run_update_stats _ _ _ st)|]. apply wp_ret. split; [done|].
  cbn [device_stats set_heap set_allocated_blocks heap]. set (B' := set_allocated true B). unfold Inv.
  eapply (inv_hand (Some b) None (cuda_events s).*2 m _ _ s b B B' st _ Hi EB); try done.
  - intros c. by left.
  - intros c. destruct (decide (c = b)); [by right|left; congruence].
  - intros [? _]. done.
  - intros p c. rewrite lookup_insert_Some. split.
    + intros [[<- <-]|[Hne Ec]]; [by right|left]. split; [|done]. intros ->.
      destruct (inv_client _ _ _ _ Hi p b Ec) as (C & EC & HC & _). congruence.
    + intros [[Hne Ec]|(-> & -> & _)]; [right|by left]. split; [|done]. intros <-. by apply (Hother c).
  - intros p Hp. by rewrite lookup_insert_ne.
  - cbn. apply lookup_insert_eq.
  - lia.
  - intros x. by apply (inv_streams _ _ _ _ Hi b B).
  - destruct Hok as [H1 H2 H3 H4]. destruct (weight_on_own B) as [_ W2]. rewrite Ha in W2.
    destruct (weight_on_own B') as [_ W2']. cbn in W2'.
    pose proof (total_update (in_use_on (device B)) _ _ _ B' EB) as Ht.
    assert (total (in_use_on (device B)) (<[b := B']> (heap s)) < 2 ^ 64) as Hlt.
    { eapply total_lt; [apply (inv_regions _ _ _ _ Hi)|]. apply (heap_ok_update _ _ _ _ B); [done|by repeat split|exact Hh]. }
    pose proof (block_bounds _ _ _ _ _ (inv_regions _ _ _ _ Hi) Hh EB) as (_ & Hsz & _).
    pose proof (total_range _ _ _ _ (in_use_on (device B)) Hi). change (device B') with (device B) in W2'.
    assert (Hsum : size_t (amount_allocated st + size B) = total (in_use_on (device B)) (<[b := B']> (heap s))) by (rewrite size_t_id; lia).
    split; cbn [amount_allocated amount_cached max_amount_allocated max_amount_cached increaseAllocated].
    + exact Hsum.
    + rewrite H2. symmetry. by apply (total_update_same _ _ _ B).
    + change (size B') with (size B). lia.
    + done.
Qed.
(** What [malloc] promises of the address [p] it returns. *)
Definition granted (d st n : Z) P m (p : Z) s : Prop := ∃ m' sz,
  left m m' ∧ m' !! p = None ∧ Inv (<[p := (d, st, sz)]> m') s ∧ n ≤ sz ≤ n + slack P.

Lemma run_should_split b B n P s : heap s !! b = Some B → pool B = Some P → n ≤ size B → 0 ≤ n → size B < 2 ^ 64 →
  should_split b n s = (Ok (slack P <? size B - n), s).
Proof.
  intros EB HP Hn Hpos Hs. unfold should_split. rewrite (run_bind _ _ _ _ _ (run_deref _ _ _ EB)), HP.
  rewrite size_t_id by lia. destruct P; [done|]. cbn [slack]. unfold mret, SE_ret. do 3 f_equal. unfold kMinBlockSize.
  destruct (Z.leb_spec 512 (size B - n)), (Z.ltb_spec (512 - 1) (size B - n)); done || lia.
Qed.

Lemma finish_lemma b n d st P m m0 s :
  left m0 m → holds d st n P b (length (device_stats s)) m s → 0 < n → n mod kMinBlockSize = 0 →
  wp (finish b n d st P (Z.to_nat d, length (device_stats s))) (granted d st n P m0) fault s.
Proof.
  intros Hm (Hi & (B & EB & HB & HP & Hd & Hst & Hn) & Hsp & Hsn & _) Hpos Hmod.
  pose proof (block_bounds _ _ _ _ _ (inv_regions _ _ _ _ Hi) (inv_heap _ _ _ _ Hi) EB) as Hb.
  unfold finish. eapply wp_step; [apply (run_should_split b B n P); done || lia|].
  destruct (Z.ltb_spec (slack P) (size B - n)) as [Hs|Hs].
  - destruct (split_block_lemma b B P n _ m s Hi EB HB HP) as (s' & Es & Hi' & Ef & Hds & Hce); [|done..|].
    { split; [done|]. destruct P; cbn in Hs; unfold kMinBlockSize, kSmallSize in Hs; lia. }
    rewrite Hd, Hst in Es. eapply wp_step; [exact Es|]. rewrite <- Hce in Hi'.
    destruct (hand_over _ _ _ _ Hi' Ef) as [Hnone Hw]; [done|]. rewrite Hds in Hw.
    cbn [device front set_next set_prev new_Block] in Hw. rewrite Hd in Hw.
    eapply wp_mono; [exact Hw|]. intros p s2 [-> Hinv]. exists m, n. split; [done|]. split; [done|].
    unfold desc_of in Hinv. cbn in Hinv. rewrite Hd, Hst in Hinv. split; [done|].
    destruct P; cbn; unfold kMinBlockSize, kSmallSize; lia.
  - eapply wp_step; [done|]. destruct (hand_over _ _ _ _ Hi EB HB) as [Hnone Hw]. rewrite Hd in Hw.
    eapply wp_mono; [exact Hw|]. intros p s2 [-> Hinv]. exists m, (size B). split; [done|]. split; [done|].
    unfold desc_of in Hinv. rewrite Hd, Hst in Hinv. split; [done|]. lia.
Qed.

(** ** Getting hold of a block *)

(** A block from the pool. *)
Lemma holds_taken d st n P b B m s : Inv m s → heap s !! b = Some B → fits d st n P B →
  holds d st n P b (length (device_stats s)) m (taken P b s).
Proof.
  intros Hi EB HB. destruct (settled_free _ _ _ _ _ Hi EB (proj1 HB)) as [Hsp Hsn].
  assert (Hh : heap (taken P b s) = heap s) by apply heap_put_set.
  split; [|split; [|split; [|split]]].
  - unfold taken at 1. rewrite events_put_set. eapply inv_taken; [exact Hi|exact EB|apply HB].
  - exists B. by rewrite Hh.
  - intros D a A. rewrite Hh. apply Hsp.
  - intros D a A. rewrite Hh. apply Hsn.
  - unfold taken. by rewrite stats_put_set.
Qed.

(** A new segment. *)
Lemma new_segment_lemma d st n size_ P p k m s :
  segment_of size_ p k m s → 0 < n ≤ size_ → size_ mod kMinBlockSize = 0 → 0 ≤ d < Z.of_nat k →
  wp (update_stats (Z.to_nat d, k) (increaseCached size_);; new (new_Block d st size_ P p))
    (λ b s', holds d st n P b k m s') fault s.
Proof.
  intros (s0 & w & -> & Hi & Hf & Hl & Hk) Hn Hmod Hd.
  destruct (lookup_lt_is_Some_2 (device_stats s0) (Z.to_nat d)) as [ds Eds]; [lia|].
  eapply wp_step; [by apply (run_update_stats _ _ _ ds)|]. eapply wp_run; [done|].
  set (B := new_Block d st size_ P p).
  assert (Hi' : inv (Some (next_block s0)) (cuda_events s0).*2 m (with_segment B w (increaseCached size_ ds) s0)).
  { eapply inv_segment; try done; lia. }
  split; [exact Hi'|]. split.
  { exists B. split; [apply lookup_insert_eq|]. repeat split; cbn; lia || done. }
  split; [|split].
  - intros D a A ED Ea. assert (D = B) as -> by (pose proof (lookup_insert_eq (heap s0) (next_block s0) B); cbn in *; congruence). done.
  - intros D a A ED Ea. assert (D = B) as -> by (pose proof (lookup_insert_eq (heap s0) (next_block s0) B); cbn in *; congruence). done.
  - cbn. by rewrite length_insert.
Qed.
(** ** [malloc] *)

(** What a callback of [FreeCudaMemoryCallbacksRegistry] may do: free what [frees] says. *)
Definition callback_ok (c : SE (Allocator W) bool) : Prop := ∀ m s, Inv m s →
  wp c (λ _ s', ∃ m', left m m' ∧ Inv m' s' ∧ length (device_stats s') = length (device_stats s)) (fail_safe m) s.

(** The search for a block so far. *)
Definition got d st n P (k : nat) m (block : option block_ptr) s : Prop := ∃ m', left m m' ∧
  match block with
  | Some b => holds d st n P b k m' s
  | None => Inv m' s ∧ length (device_stats s) = k
  end.

Lemma find_got d st n P m s : Inv m s →
  wp (find_free_block d st n P) (got d st n P (length (device_stats s)) m) (fail_safe m) s.
Proof.
  intros Hi. destruct (find_free_block_lemma d st n P _ m s Hi) as [[E _]|(b & B & E & EB & HB & _)].
  - apply (wp_run _ _ _ _ _ _ E). by exists m.
  - apply (wp_run _ _ _ _ _ _ E). exists m. split; [done|]. by eapply holds_taken.
Qed.

Lemma run_callbacks_lemma cs freed m s : (∀ c, c ∈ cs → callback_ok c) → Inv m s →
  wp (run_callbacks cs freed) (λ _ s', ∃ m', left m m' ∧ Inv m' s' ∧ length (device_stats s') = length (device_stats s)) (fail_safe m) s.
Proof.
  revert freed m s. induction cs as [|c cs IH]; intros freed m s Hcs Hi; [by apply wp_ret; exists m|].
  cbn [run_callbacks]. apply wp_bind. eapply wp_mono; [apply (Hcs c); [set_solver|done]|].
  intros b s1 (m1 & Hm1 & Hi1 & Hk1). cbn beta.
  apply (wp_weaken _ _ (fail_safe m1)); [|intros; by eapply fail_safe_mono].
  eapply wp_mono; [apply IH; [intros; apply Hcs; set_solver|done]|]. cbn beta.
  intros _ s2 (m2 & Hm2 & Hi2 & Hk2). exists m2. split; [by eapply left_trans|]. split; [done|congruence].
Qed.

Lemma callbacks_got cs d st n P k m block s : (∀ c, c ∈ cs → callback_ok c) → got d st n P k m block s →
  wp (match block with
      | Some b => mret (Some b)
      | None =>
          freed_memory ← run_callbacks cs false;
          if freed_memory : bool then find_free_block d st n P else mret None
      end) (got d st n P k m) (fail_safe m) s.
Proof.
  intros Hcs (m1 & Hm1 & Hg). destruct block as [b|]; [by apply wp_ret; exists m1|]. destruct Hg as [Hi Hk].
  apply (wp_weaken _ _ (fail_safe m1)); [|intros; by eapply fail_safe_mono].
  apply wp_bind. eapply wp_mono; [by apply (run_callbacks_lemma cs false m1)|]. cbn beta.
  intros b s2 (m2 & Hm2 & Hi2 & Hk2). destruct b.
  - apply (wp_weaken _ _ (fail_safe m2)); [|intros; by eapply fail_safe_mono].
    eapply wp_mono; [by apply (find_got d st n P m2)|]. intros ob s3 (m3 & Hm3 & Hg). exists m3.
    split; [eapply left_trans; [done|by eapply left_trans]|]. by rewrite Hk2, Hk in Hg.
  - apply wp_ret. exists m2. split; [by eapply left_trans|]. split; [done|congruence].
Qed.

Lemma out_of_memory_lemma d m s : Inv m s → 0 ≤ d < Z.of_nat (length (device_stats s)) →
  wp (out_of_memory d) (λ _ _, False) (fail_safe m) s.
Proof.
  intros Hi Hd. unfold out_of_memory. apply wp_bind, (wp_call _ _ _ _ _ GetLastError_quiet). intros r w Hl _.
  apply wp_bind, (wp_weaken _ _ fault); [|intros; by apply fault_safe].
  apply wp_check; [apply MemGetInfo_quiet|]. intros x w' Hl'.
  set (s2 := with_world w' (with_world w s)). assert (Hi2 : Inv m s2).
  { unfold Inv. apply (inv_world _ _ _ (with_world w s)); [done|]. by apply inv_world. }
  eapply wp_step; [by apply run_get_stats|]. split; [by eexists|]. right. by exists m.
Qed.

Lemma segment_got d st n P k m block s : got d st n P k m block s →
  0 ≤ d < Z.of_nat k → 0 < n → n ≤ get_allocation_size n → get_allocation_size n mod kMinBlockSize = 0 →
  wp (match block with
      | Some b => mret b
      | None =>
          let alloc_size := get_allocation_size n in
          r ← cuda_malloc_retry d alloc_size;
          if decide (r.1 = cudaErrorMemoryAllocation) then out_of_memory d
          else
            on_world (check_error r.1);;
            update_stats (Z.to_nat d, k) (increaseCached alloc_size);;
            new (new_Block d st alloc_size P r.2)
      end) (λ b s', ∃ m', left m m' ∧ holds d st n P b k m' s') (fail_safe m) s.
Proof.
  intros (m1 & Hm1 & Hg) Hd Hn Hsz Hmod. destruct block as [b|]; [by apply wp_ret; exists m1|]. destruct Hg as [Hi Hk].
  apply (wp_weaken _ _ (fail_safe m1)); [|intros; by eapply fail_safe_mono]. cbv zeta.
  apply wp_bind, (wp_weaken _ _ fault); [|intros; by apply fault_safe].
  eapply wp_mono; [apply (cuda_malloc_retry_lemma d _ m1 s Hi); lia|]. cbn beta.
  intros [err p] s2 Hr. cbn [fst snd] in *. destruct (decide (err = cudaErrorMemoryAllocation)) as [->|Hoom].
  - destruct Hr as [Hi2 Hk2]. eapply wp_mono; [apply (out_of_memory_lemma d m1); [done|lia]|]. done.
  - destruct (decide (err = cudaSuccess)) as [->|Herr].
    + apply wp_bind, wp_check_error; [|done]. intros _.
      apply (wp_weaken _ _ fault); [|intros; by apply fault_safe].
      eapply wp_mono; [apply (new_segment_lemma d st n _ P p k m1 s2); [by rewrite <- Hk|done|done|done]|].
      intros b s3 Hb. by exists m1.
    + destruct Hr as [Hi2 Hk2]. apply wp_bind, wp_check_error; [done|]. intros _ w Hl _.
      split; [by eexists|]. right. exists m1. split; [done|]. by apply inv_world.
Qed.

Lemma malloc_lemma cs size_ st m s : (∀ c, c ∈ cs → callback_ok c) → Inv m s →
  0 ≤ size_ ≤ 2 ^ 64 - kRoundLarge →
  wp (malloc cs size_ st) (λ p s', ∃ d, granted d st (round_size size_) (get_pool (round_size size_)) m p s') (fail_safe m) s.
Proof.
  intros Hcs Hi Hsize. unfold malloc.
  destruct (round_size_spec size_) as (Hr1 & Hr2 & Hr3 & Hr4 & Hr5); [unfold kRoundLarge in *; lia|].
  set (n := round_size size_) in *.
  assert (Hn : n ≤ 2 ^ 64 - kRoundLarge).
  { unfold kRoundLarge in *. pose proof (Z.div_mod n 512 ltac:(lia)). rewrite Hr5 in *. lia. }
  destruct (get_allocation_size_spec n) as (Ha1 & Ha2 & Ha3); [lia|done|].
  apply wp_bind, (wp_weaken _ _ fault); [|intros; by apply fault_safe].
  apply wp_check; [apply GetDevice_quiet|]. intros d w Hl.
  apply wp_bind, (wp_weaken _ _ fault); [|intros; by apply fault_safe].
  eapply wp_mono; [apply (process_events_lemma m); by apply inv_world|]. cbn beta.
  intros [] s1 [Hi1 _]. cbv zeta. fold n.
  destruct (decide (0 ≤ d)) as [Hd0|Hd0].
  2:{ apply wp_bind. unfold wp, get_stats_for_device. rewrite (proj2 (Z.leb_gt _ _)) by lia. split; [by eexists|]. right. by exists m. }
  destruct (get_stats_lemma d m s1 Hi1 Hd0) as (s2 & E2 & Hi2 & Hd & _). eapply wp_step; [exact E2|].
  apply wp_bind. eapply wp_mono; [by apply (find_got d st n (get_pool n) m)|]. intros b1 s3 Hg3. cbn beta.
  apply wp_bind. eapply wp_mono; [by apply (callbacks_got cs)|]. intros b2 s4 Hg4. cbn beta.
  apply wp_bind. eapply wp_mono; [apply segment_got; done || lia|]. intros b s5 (m5 & Hm5 & Hh). cbn beta.
  apply (wp_weaken _ _ fault); [|intros; by apply fault_safe].
  assert (Hk : length (device_stats s2) = length (device_stats s5)) by (symmetry; apply Hh). rewrite Hk in *.
  eapply wp_mono; [by apply (finish_lemma b n d st (get_pool n) m5 m)|]. intros p s6 Hp. by exists d.
Qed.
End Malloc.
