(* ===== verification/CudaProperties.v ===== *)
(** * The properties of the caching allocator

    [client_step] is the abstract allocator: a map from the addresses clients hold
    to device, stream and size.  The concrete allocator refines it, from the state
    of a process that starts on. *)
From S2P Require Import Prelude CoreTypes CudaRuntime CudaStream CudaAllocator CudaHeap CudaChains CudaAllocSpec CudaFree CudaRelease CudaClient CudaMalloc.
Local Open Scope Z_scope.
Import CudaAllocator CUDAFunctions.

(** ** The abstract allocator *)

Inductive call : Type :=
  | Malloc (size_ stream_ : Z)
  | Free (p : Z)
  | RecordStream (p : Z) (st : Stream.Stream)
  | EmptyCache.

(** [p] and [n] bytes on are apart from every allocation of [m]. *)
Definition apart_from (m : gmap Z desc) (p n : Z) : Prop :=
  ∀ q d st k, m !! q = Some (d, st, k) → p + n ≤ q ∨ q + k ≤ p.

Section abstract.
(** What callbacks may free: [frees m m'] when one of them may leave [m'] of [m]. *)
Context (frees : gmap Z desc → gmap Z desc → Prop).

(** A call that returns [p].  [malloc] adds one allocation, apart from all others, and takes
    none away: what goes is what callbacks free, and nothing when they free nothing. *)
Inductive client_step (m : gmap Z desc) : call → Z → gmap Z desc → Prop :=
  | step_malloc size_ st d p n m' :
      left frees m m' → m' !! p = None → 0 < p → size_ ≤ n →
      n ≤ round_size size_ + slack (get_pool (round_size size_)) → apart_from m' p n →
      client_step m (Malloc size_ st) p (<[p := (d, st, n)]> m')
  | step_free p : p = 0 ∨ is_Some (m !! p) → client_step m (Free p) 0 (delete p m)
  | step_record p st : is_Some (m !! p) → client_step m (RecordStream p st) 0 m
  | step_empty : client_step m EmptyCache 0 m.
(** A call that throws: clients keep what they hold, but for what callbacks of [malloc] free. *)
Definition kept (o : call) m m' : Prop := match o with Malloc _ _ => left frees m m' | _ => m' = m end.

(** With callbacks that free nothing, a call of [malloc] is one insertion. *)
Lemma malloc_inserts m size_ st p m2 : (∀ m m', frees m m' → m' = m) → client_step m (Malloc size_ st) p m2 →
  ∃ d n, m2 = <[p := (d, st, n)]> m ∧ m !! p = None ∧ size_ ≤ n ∧ apart_from m p n.
Proof.
  intros Hf Hs. inversion Hs as [? ? d ? n m' Hl Hp _ Hn _ Ha| | |]; subst. assert (m' = m) as ->; [|by exists d, n].
  clear -Hf Hl. unfold left in Hl. induction Hl as [|m m1 m2 H _ IH]; [done|]. by rewrite IH, (Hf _ _ H).
Qed.
End abstract.

Section Properties.
Context {W : Type} `{CudaLaws W}.
Implicit Types (s : Allocator W) (m : gmap Z desc).
Context (frees : gmap Z desc → gmap Z desc → Prop).
Context (callbacks : list (SE (Allocator W) bool)) (callbacks_ok : ∀ c, c ∈ callbacks → callback_ok frees c).

Definition run_call (o : call) : SE (Allocator W) Z :=
  match o with
  | Malloc size_ st => malloc callbacks size_ st
  | Free p => free p;; mret 0
  | RecordStream p st => recordStream p st;; mret 0
  | EmptyCache => emptyCache;; mret 0
  end.

(** Requests that round to a size in range, and streams of the stream pools. *)
Definition admissible (o : call) : Prop :=
  match o with
  | Malloc size_ _ => 0 ≤ size_ ≤ 2 ^ 64 - kRoundLarge
  | RecordStream _ st => stream_ok st
  | _ => True
  end.

(** The states a program reaches; calls may throw, as long as no CUDA call fails. *)
Inductive reachable : Allocator W → Prop :=
  | reachable_startup w : regions_ok (live w) → reachable (startup w)
  | reachable_call s o r s' : reachable s → admissible o → run_call o s = (r, s') → ¬ faulted (world s') → reachable s'.

Lemma Inv_startup w : regions_ok (live w) → Inv ∅ (startup w : Allocator W).
Proof.
  intros Hw. split; cbn; try done.
  - intros P b. split; [destruct P; intros Hb; by apply elem_of_nil in Hb|by intros (B & ? & _)].
  - intros []; constructor.
  - by intros p [? ?].
  - intros b Hb. by apply elem_of_nil in Hb.
  - by intros b [? ?].
Qed.

Lemma allocations_apart m s p q d st n d' st' k : Inv m s →
  m !! p = Some (d, st, n) → m !! q = Some (d', st', k) → p ≠ q → p + n ≤ q ∨ q + k ≤ p.
Proof.
  intros Hi Hp Hq Hne.
  destruct (inv_ghost _ _ _ _ Hi p) as [b Eb]; [by rewrite Hp|]. destruct (inv_ghost _ _ _ _ Hi q) as [c Ec]; [by rewrite Hq|].
  destruct (inv_client _ _ _ _ Hi p b Eb) as (B & EB & _ & Pb & Mb). destruct (inv_client _ _ _ _ Hi q c Ec) as (C & EC & _ & Pc & Mc).
  unfold desc_of in *. assert (b ≠ c) by congruence.
  pose proof (heap_disjoint _ _ _ (inv_heap _ _ _ _ Hi) b c B C EB EC ltac:(done)) as Ha. unfold apart in Ha. simplify_eq. lia.
Qed.

(** What a call does to the clients' allocations. *)
Lemma call_lemma o m s : Inv m s → admissible o →
  match run_call o s with
  | (Ok p, s') => ∃ m', client_step frees m o p m' ∧ Inv m' s'
  | (Throw e, s') => (∃ what, e = C10Error what) ∧ (faulted (world s') ∨ ∃ m', kept frees o m m' ∧ Inv m' s')
  end.
Proof.
  intros Hi Ha. destruct o as [n st|p|p st|]; cbn [run_call admissible] in *.
  - pose proof (malloc_lemma frees callbacks n st m s callbacks_ok Hi Ha) as Hw. unfold wp in Hw.
    destruct (malloc callbacks n st s) as [[p|e] s']; [|by destruct Hw].
    destruct Hw as (d & m' & sz & Hm & Hp & Hi' & Hsz). exists (<[p := (d, st, sz)]> m'). split; [|done].
    destruct (round_size_spec n) as (Hr & _); [unfold kRoundLarge in Ha; lia|].
    constructor; [done|done| |lia|lia|].
    + apply (allocated_pos _ _ _ _ _ Hi'). by rewrite lookup_insert_eq.
    + intros q d' st' k Hq. apply (allocations_apart (<[p := (d, st, sz)]> m') s' p q d st sz d' st' k Hi'); [apply lookup_insert_eq| |congruence].
      rewrite lookup_insert_ne by congruence. done.
  - assert (wp (free p;; mret 0) (λ r s', r = 0 ∧ Inv (delete p m) s' ∧ (p = 0 ∨ is_Some (m !! p)))
      (λ e s', fault e s' ∨ (e = C10Error "invalid device pointer" ∧ s' = s ∧ p ≠ 0 ∧ m !! p = None)) s) as Hw.
    { apply wp_bind. eapply wp_mono; [by apply free_lemma|]. intros [] s' ?. by apply wp_ret. }
    unfold wp in Hw. destruct ((free p;; mret 0) s) as [[r|e] s'].
    + destruct Hw as (-> & Hi' & Hp). exists (delete p m). split; [by constructor|done].
    + destruct Hw as [[? ?]|(-> & -> & _)]; [by auto|]. split; [by eexists|]. right. by exists m.
  - assert (wp (recordStream p st;; mret 0) (λ r s', r = 0 ∧ Inv m s' ∧ is_Some (m !! p))
      (λ e s', s' = s ∧ e = C10Error "invalid device pointer: %p") s) as Hw.
    { apply wp_bind. eapply (wp_weaken _ _ (λ e s', s' = s ∧ _)).
      - eapply wp_mono; [by apply recordStream_lemma|]. intros [] s' ?. by apply wp_ret.
      - intros e s' [? [[? _]|(e' & Ee & _)]]; [done|]. unfold stream_ok in Ha. by rewrite Ee in Ha. }
    unfold wp in Hw. destruct ((recordStream p st;; mret 0) s) as [[r|e] s'].
    + destruct Hw as (-> & Hi' & Hp). exists m. split; [by constructor|done].
    + destruct Hw as [-> ->]. split; [by eexists|]. right. by exists m.
  - assert (wp (emptyCache;; mret 0) (λ r s', r = 0 ∧ Inv m s') fault s) as Hw.
    { apply wp_bind. eapply wp_mono; [by apply (emptyCache_lemma m)|]. intros [] s' (? & _). by apply wp_ret. }
    unfold wp in Hw. destruct ((emptyCache;; mret 0) s) as [[r|e] s'].
    + destruct Hw as (-> & Hi'). exists m. split; [by constructor|done].
    + destruct Hw as [? ?]. auto.
Qed.

Lemma reachable_Inv s : reachable s → Inv (allocations s) s.
Proof.
  assert (Hall : ∀ m s', Inv m s' → Inv (allocations s') s') by (intros m s' Hi; by rewrite (inv_allocations _ _ _ _ Hi)).
  induction 1 as [w Hw|s o r s' Hs IH Ha Er Hf]; [by eapply Hall, Inv_startup|].
  pose proof (call_lemma o _ s IH Ha) as Hc. rewrite Er in Hc. destruct r as [p|e].
  - destruct Hc as (m' & _ & Hi). by eapply Hall.
  - destruct Hc as [_ [?|(m' & _ & Hi)]]; [done|]. by eapply Hall.
Qed.

(** The sizes the clients hold on a device. *)
Definition held_on (d : Z) (m : gmap Z desc) : Z :=
  map_fold (λ _ x acc, (if x.1.1 =? d then x.2 else 0) + acc) 0 m.

Lemma held_insert d m p x : m !! p = None → held_on d (<[p := x]> m) = (if x.1.1 =? d then x.2 else 0) + held_on d m.
Proof. intros E. unfold held_on. rewrite map_fold_insert_L; [done| |done]. intros; lia. Qed.

Lemma total_held d (al : gmap Z block_ptr) (h : gmap block_ptr Block) :
  (∀ p b, al !! p = Some b → ∃ B, h !! b = Some B ∧ allocated B = true ∧ ptr B = p) →
  (∀ b B, h !! b = Some B → allocated B = true → al !! ptr B = Some b) →
  total (in_use_on d) h = held_on d (omap (λ b, desc_of <$> h !! b) al).
Proof.
  revert h. induction al as [|p b al Hp IH] using map_ind; intros h H1 H2.
  - rewrite omap_empty. apply total_zero. intros b B EB. unfold in_use_on.
    destruct (allocated B) eqn:Ea; [|by rewrite andb_false_r]. by specialize (H2 b B EB Ea).
  - destruct (H1 p b (lookup_insert_eq _ _ _)) as (B & EB & Ha & Hpb).
    assert (Hinj : ∀ q, al !! q ≠ Some b).
    { intros q Eq. assert (Hq : q ≠ p) by congruence. destruct (H1 q b) as (B2 & EB2 & _ & Hq2); [by rewrite lookup_insert_ne|]. congruence. }
    rewrite (total_delete _ h b B EB), (IH (delete b h)).
    + rewrite (omap_insert_Some _ _ _ _ (desc_of B)) by (by rewrite EB).
      rewrite held_insert by (by rewrite lookup_omap, Hp).
      unfold weight, in_use_on, desc_of at 2. cbn. rewrite Ha, andb_true_r. f_equal. f_equal.
      apply map_eq. intros q. rewrite !lookup_omap. destruct (al !! q) as [c|] eqn:Ec; [|done]. cbn.
      rewrite lookup_delete_ne; [done|]. intros <-. by apply (Hinj q).
    + intros q c Ec. assert (q ≠ p) by congruence. destruct (H1 q c) as (C & EC & ?); [by rewrite lookup_insert_ne|].
      exists C. rewrite lookup_delete_ne; [done|]. intros <-. by apply (Hinj q).
    + intros c C [Hne EC]%lookup_delete_Some HC. specialize (H2 c C EC HC). apply lookup_insert_Some in H2 as [[? ?]|[_ ?]]; congruence.
Qed.

(** ** The claims *)

(** C17: The caching allocator refines the abstract one.  In every reachable state a
    [malloc] that returns adds one allocation to those the clients hold, apart from all of
    them, with at least the requested bytes and a bounded surplus, and takes none away but
    what callbacks free; with callbacks that free nothing, the allocations after it are
    exactly those before it and the new one.  [free] takes exactly its argument back;
    [recordStream] and [emptyCache] change nothing the clients see.  Unless a CUDA call
    failed, a call that throws leaves the clients' allocations as they were, again but for
    what callbacks of [malloc] free; and no call runs into undefined behaviour. *)
Theorem allocator_refines s o : reachable s → admissible o →
  match run_call o s with
  | (Ok p, s') => client_step frees (allocations s) o p (allocations s')
  | (Throw e, s') => (∃ what, e = C10Error what) ∧ (faulted (world s') ∨ kept frees o (allocations s) (allocations s'))
  end.
Proof.
  intros Hs Ha. pose proof (call_lemma o _ s (reachable_Inv s Hs) Ha) as Hc.
  destruct (run_call o s) as [[p|e] s'].
  - destruct Hc as (m' & Hstep & Hi). by rewrite (inv_allocations _ _ _ _ Hi).
  - destruct Hc as [? [?|(m' & Hm & Hi)]]; (split; [done|]); [by left|right]. by rewrite (inv_allocations _ _ _ _ Hi).
Qed.

(** C18: In every reachable state each allocation a client holds lies inside one live
    cudaMalloc region, and two allocations never overlap. *)
Theorem allocations_exclusive s p d st n : reachable s → allocations s !! p = Some (d, st, n) →
  (∃ base k, live (world s) !! base = Some k ∧ base ≤ p ∧ p + n ≤ base + k) ∧
  ∀ q d' st' k, allocations s !! q = Some (d', st', k) → p ≠ q → p + n ≤ q ∨ q + k ≤ p.
Proof.
  intros Hs Hp. pose proof (reachable_Inv s Hs) as Hi. split.
  - destruct (inv_ghost _ _ _ _ Hi p) as [b Eb]; [by rewrite Hp|].
    destruct (inv_client _ _ _ _ Hi p b Eb) as (B & EB & _ & Pb & Mb). rewrite Hp in Mb. injection Mb as -> -> ->.
    destruct (ok_placed _ _ _ (heap_block _ _ _ (inv_heap _ _ _ _ Hi) b B EB)) as (base & k & ? & ? & ? & _).
    exists base, k. rewrite <- Pb. done.
  - intros q d' st' k Hq Hne. by eapply allocations_apart.
Qed.

(** The statistics are exact and never wrap: in every reachable state the
    allocated amount of a device is the sum of the sizes its clients hold, the
    cached amount the sum of all its blocks, and neither is above its maximum. *)
Theorem statistics_exact s d st : reachable s → device_stats s !! d = Some st →
  amount_allocated st = held_on (Z.of_nat d) (allocations s) ∧
  amount_cached st = total (on_device (Z.of_nat d)) (heap s) ∧
  0 ≤ amount_allocated st ≤ amount_cached st ∧ amount_cached st < 2 ^ 64 ∧
  amount_allocated st ≤ max_amount_allocated st ∧ amount_cached st ≤ max_amount_cached st.
Proof.
  intros Hs Hst. pose proof (reachable_Inv s Hs) as Hi. destruct (inv_stats _ _ _ _ Hi d st Hst) as [H1 H2 H3 H4].
  assert (Hsz : ∀ b B, heap s !! b = Some B → 0 < size B).
  { intros b B EB. by eapply ok_size, (heap_block _ _ _ (inv_heap _ _ _ _ Hi)). }
  split.
  { rewrite H1. unfold allocations. apply total_held.
    - intros p b Eb. destruct (inv_client _ _ _ _ Hi p b Eb) as (B & ? & ? & ? & _). by exists B.
    - apply (inv_allocated _ _ _ _ Hi). }
  split; [done|]. rewrite H1, H2. split.
  { split; [by apply total_nonneg|]. apply total_mono; [done|]. intros B. unfold in_use_on, on_device. by rewrite andb_true_iff; intros [? _]. }
  split; [by eapply total_range|]. lia.
Qed.

(** When the clients hold nothing, [emptyCache] returns every segment to the
    runtime: no block is left and the cached amount of every device is 0. *)
Theorem emptyCache_returns_everything s : reachable s → allocations s = ∅ →
  match emptyCache s with
  | (Ok _, s') => heap s' = ∅ ∧ ∀ d st, device_stats s' !! d = Some st → amount_cached st = 0
  | (Throw e, s') => faulted (world s')
  end.
Proof.
  intros Hs Hm. pose proof (reachable_Inv s Hs) as Hi. rewrite Hm in Hi.
  pose proof (emptyCache_lemma _ _ Hi) as Hw. unfold wp in Hw. destruct (emptyCache s) as [[[]|e] s']; [|apply Hw].
  destruct Hw as (Hi' & Hev & Hlone).
  assert (Hidle : ∀ b B, heap s' !! b = Some B → idle B).
  { intros b B EB. split.
    - destruct (allocated B) eqn:Ea; [|done]. pose proof (inv_allocated _ _ _ _ Hi' b B EB Ea) as Eb.
      by destruct (inv_client _ _ _ _ Hi' _ _ Eb) as (? & ? & ? & ? & ?).
    - rewrite (inv_events _ _ _ _ Hi' b B EB), Hev. done. }
  assert (Hempty : heap s' = ∅).
  { apply map_empty. intros b. destruct (heap s' !! b) as [B|] eqn:EB; [|done]. exfalso.
    apply (Hlone b B EB (Hidle b B EB)). pose proof (inv_heap _ _ _ _ Hi') as Hh. split.
    - destruct (prev B) as [a|] eqn:Ep; [|done]. destruct (heap_prev _ _ _ Hh b B a EB Ep) as (A & EA & En & _).
      by destruct (inv_maximal _ _ _ _ Hi' a A b B EA En EB (Hidle a A EA) (Hidle b B EB)).
    - destruct (next B) as [c|] eqn:En; [|done]. destruct (heap_next _ _ _ Hh b B c EB En) as (C & EC & ?).
      by destruct (inv_maximal _ _ _ _ Hi' b B c C EB En EC (Hidle b B EB) (Hidle c C EC)). }
  split; [done|]. intros d st Hst. rewrite (stats_cached _ _ _ (inv_stats _ _ _ _ Hi' d st Hst)), Hempty. done.
Qed.

(** For an address a client holds, [getBaseAllocation] ends and returns the base
    and the size of the cudaMalloc region the address lies in. *)
Theorem getBaseAllocation_correct s q : reachable s → is_Some (allocations s !! q) →
  ∃ p n, getBaseAllocation q s = (Ok (p, n), s) ∧ live (world s) !! p = Some n ∧ p ≤ q < p + n.
Proof. intros Hs Hq. by eapply getBaseAllocation_lemma, Hq; apply reachable_Inv. Qed.

(** [find_free_block] is best fit: it takes the smallest free block of the pool
    on the given device and stream that is large enough, and only when there is
    none does it return null, with the state unchanged. *)
Theorem find_free_block_best_fit s d st n P : reachable s →
  (find_free_block d st n P s = (Ok None, s) ∧ (∀ c C, heap s !! c = Some C → ¬ (fits d st n P C))) ∨
  (∃ b B s', find_free_block d st n P s = (Ok (Some b), s') ∧ heap s !! b = Some B ∧ fits d st n P B ∧
     ¬ (b ∈ get_set P s') ∧ (∀ c C, heap s !! c = Some C → fits d st n P C → size B ≤ size C)).
Proof.
  intros Hs. destruct (find_free_block_lemma d st n P _ _ s (reachable_Inv s Hs)) as [?|(b & B & E & EB & HB & Hmin)]; [by left|right].
  exists b, B, (taken P b s). split; [done|]. split; [done|]. split; [done|]. split; [|done].
  unfold taken. rewrite get_put_set, decide_True by done. rewrite list_elem_of_filter. by intros [[] _].
Qed.
End Properties.

(** ** Sizes *)

(** [round_size] gives the least multiple of 512 that is at least the request and
    not 0, and the size of the segment that is allocated for it is at least that;
    but a request within 511 bytes of 2^64 is rounded to 0. *)
Theorem round_size_correct n : 0 ≤ n < 2 ^ 64 →
  (n ≤ 2 ^ 64 - kMinBlockSize →
     round_size n mod kMinBlockSize = 0 ∧ 0 < round_size n ∧ n ≤ round_size n ∧
     ∀ k, 0 < k → n ≤ k → k mod kMinBlockSize = 0 → round_size n ≤ k) ∧
  (round_size n ≤ 2 ^ 64 - kRoundLarge → 2 ^ 64 - kMinBlockSize < n ∨ round_size n ≤ get_allocation_size (round_size n)) ∧
  (2 ^ 64 - kMinBlockSize < n → round_size n = 0).
Proof.
  intros Hn. unfold kMinBlockSize. split; [|split].
  - intros Hle. destruct (round_size_spec n) as (H1 & H2 & H3 & H4 & H5); [lia|].
    repeat (split; [done|]). intros k Hk Hnk Hm.
    pose proof (Z.div_mod (round_size n) 512 ltac:(lia)). pose proof (Z.div_mod k 512 ltac:(lia)). lia.
  - intros Hr. destruct (Z.le_gt_cases n (2 ^ 64 - 512)); [right|left; lia].
    destruct (round_size_spec n) as (H1 & H2 & H3 & H4 & H5); [lia|].
    apply get_allocation_size_spec; [unfold kRoundLarge in *; lia|done].
  - intros Hlt. unfold round_size, kMinBlockSize. rewrite (proj2 (Z.ltb_ge _ _)) by lia.
    assert (size_t (n + 512 - 1) < 512) as Hs.
    { unfold size_t, wrapU. rewrite (Z.mod_eq _ (2 ^ 64)) by lia. 
      assert ((n + 512 - 1) / 2 ^ 64 = 1) as ->; [|lia]. symmetry. apply (Z.div_unique _ _ _ (n + 512 - 1 - 2 ^ 64)); lia. }
    assert (0 ≤ size_t (n + 512 - 1)) by (apply wrapU_range; lia).
    by rewrite Z.div_small by lia.
Qed.

(** ** Runs on a machine *)
Module Samples.
Definition machine0 : Allocator Toy.Machine := startup (Toy.machine (100 * 2 ^ 20) []).
Definition quiet_callback : SE (Allocator Toy.Machine) bool := mret false.
Definition run (o : call) (s : Allocator Toy.Machine) : Allocator Toy.Machine := (run_call [quiet_callback] o s).2.

(** A client that holds two addresses, 512 and 1024. *)
Definition machine2 : Allocator Toy.Machine := run (Malloc 1000 0) (run (Malloc 100 0) machine0).
(** The same after both came back. *)
Definition machine4 : Allocator Toy.Machine := run (Free 512) (run (Free 1024) machine2).

(** Callbacks that free nothing. *)
Definition nothing (m m' : gmap Z desc) : Prop := False.
Lemma quiet_ok c : c ∈ [quiet_callback] → callback_ok nothing c.
Proof. intros ->%list_elem_of_singleton m s Hi. apply wp_ret. exists m. split; [apply left_refl|done]. Qed.

Lemma machine0_reachable : reachable [quiet_callback] machine0.
Proof. apply reachable_startup. split; by intros. Qed.

Lemma run_reachable s o : reachable [quiet_callback] s → admissible o →
  Toy.broken (world (run o s)) = false → reachable [quiet_callback] (run o s).
Proof.
  intros Hs Ha Hb. eapply (reachable_call _ s o); [done|done|apply surjective_pairing|].
  change (Toy.broken (world (run o s)) ≠ true). by rewrite Hb.
Qed.

Lemma machine2_reachable : reachable [quiet_callback] machine2.
Proof.
  apply run_reachable; [apply run_reachable; [apply machine0_reachable|done|by vm_compute]|done|by vm_compute].
Qed.

Lemma machine4_reachable : reachable [quiet_callback] machine4.
Proof.
  apply run_reachable; [apply run_reachable; [apply machine2_reachable|done|by vm_compute]|done|by vm_compute].
Qed.

(** A client whose block is in use on two streams when it comes back. *)
Definition shared_block : SE (Allocator Toy.Machine) (Stream.Stream * Stream.Stream) :=
  p ← malloc [quiet_callback] 100 0;
  a ← on_streams (CudaStream.getStreamFromPool 0 false 0);
  b ← on_streams (CudaStream.getStreamFromPool 0 false 0);
  recordStream p a;; recordStream p b;; free p;; mret (a, b).
End Samples.

(** ** Where the guarantees end *)

(** Outside the range of [allocator_refines] memory is shared: a request of
    2^64 - 1 bytes, that no device has, returns an address, of a block of 0 bytes,
    and the next request returns the same address. *)
Theorem malloc_overflow_shares_memory :
  ((p ← malloc [Samples.quiet_callback] (2 ^ 64 - 1) 0;
    q ← malloc [Samples.quiet_callback] 1 0;
    mret (p, q)) Samples.machine0).1 = Ok (512, 512).
Proof. vm_compute. reflexivity. Qed.

(** When [cudaEventSynchronize] fails in the middle of the queue, the events before
    it stay in the queue although they are done and destroyed: the second attempt
    counts the first event of the block twice, and puts the block back into its
    pool while its second event has not completed. *)
Theorem interrupted_synchronize_frees_early :
  let s1 := (Samples.shared_block (startup (Toy.machine (100 * 2 ^ 20) [66]))).2 in
  let s2 := (emptyCache s1).2 in
  let s3 := (emptyCache s2).2 in
  cuda_events s1 = [(65, 2%positive); (66, 2%positive)] ∧
  (emptyCache s1).1 = Throw (C10Error "CUDA error") ∧ cuda_events s2 = cuda_events s1 ∧
  (event_count <$> heap s1 !! 2%positive) = Some 2 ∧ (event_count <$> heap s2 !! 2%positive) = Some 1 ∧
  small_set s3 = [2%positive] ∧ 66 ∉ Toy.ready_events (world s3).
Proof.
  cbv zeta. do 6 (split; [vm_compute; reflexivity|]). apply (bool_decide_unpack _). vm_compute. exact I.
Qed.

(** ** The claims on these machines *)

Lemma allocator_refines_witness :
  match run_call [Samples.quiet_callback] (Malloc 3000 0) Samples.machine2 with
  | (Ok p, s') => ∃ d n, allocations s' = <[p := (d, 0, n)]> (allocations Samples.machine2) ∧ apart_from (allocations Samples.machine2) p n
  | (Throw e, s') => faulted (world s') ∨ kept Samples.nothing (Malloc 3000 0) (allocations Samples.machine2) (allocations s')
  end.
Proof.
  assert (Ha : admissible (Malloc 3000 0)) by (vm_compute; done).
  pose proof (allocator_refines Samples.nothing [Samples.quiet_callback] Samples.quiet_ok Samples.machine2 (Malloc 3000 0) Samples.machine2_reachable Ha) as H.
  destruct (run_call _ _ _) as [[p|e] s']; [|apply H]. apply malloc_inserts in H as (d & n & E & _ & _ & H); [|done]. by exists d, n.
Defined.

Lemma allocations_exclusive_witness :
  (∃ base k, live (world Samples.machine2) !! base = Some k ∧ base ≤ 512 ∧ 512 + 512 ≤ base + k) ∧
  ∀ q d' st' k, allocations Samples.machine2 !! q = Some (d', st', k) → 512 ≠ q → 512 + 512 ≤ q ∨ q + k ≤ 512.
Proof.
  apply (allocations_exclusive Samples.nothing [Samples.quiet_callback] Samples.quiet_ok Samples.machine2 512 0 0 512 Samples.machine2_reachable).
  by vm_compute.
Defined.

Lemma statistics_exact_witness : ∃ st, device_stats Samples.machine2 !! 0%nat = Some st ∧
  amount_allocated st = held_on 0 (allocations Samples.machine2) ∧
  amount_cached st = total (on_device 0) (heap Samples.machine2) ∧
  0 ≤ amount_allocated st ≤ amount_cached st ∧ amount_cached st < 2 ^ 64 ∧
  amount_allocated st ≤ max_amount_allocated st ∧ amount_cached st ≤ max_amount_cached st.
Proof.
  destruct (device_stats Samples.machine2 !! 0%nat) as [st|] eqn:E; [|by vm_compute in E].
  exists st. split; [done|].
  apply (statistics_exact Samples.nothing [Samples.quiet_callback] Samples.quiet_ok Samples.machine2 0%nat st Samples.machine2_reachable E).
Defined.

Lemma emptyCache_returns_everything_witness :
  match emptyCache Samples.machine4 with
  | (Ok _, s') => heap s' = ∅ ∧ ∀ d st, device_stats s' !! d = Some st → amount_cached st = 0
  | (Throw e, s') => faulted (world s')
  end.
Proof.
  apply (emptyCache_returns_everything Samples.nothing [Samples.quiet_callback] Samples.quiet_ok Samples.machine4 Samples.machine4_reachable).
  by vm_compute.
Defined.

Lemma getBaseAllocation_correct_witness : ∃ p n,
  getBaseAllocation 1024 Samples.machine2 = (Ok (p, n), Samples.machine2) ∧
  live (world Samples.machine2) !! p = Some n ∧ p ≤ 1024 < p + n.
Proof.
  apply (getBaseAllocation_correct Samples.nothing [Samples.quiet_callback] Samples.quiet_ok Samples.machine2 1024 Samples.machine2_reachable).
  vm_compute. by eexists.
Defined.

Lemma find_free_block_best_fit_witness :
  let s := Samples.machine4 in
  (find_free_block 0 0 512 small_blocks s = (Ok None, s) ∧ (∀ c C, heap s !! c = Some C → ¬ (fits 0 0 512 small_blocks C))) ∨
  (∃ b B s', find_free_block 0 0 512 small_blocks s = (Ok (Some b), s') ∧ heap s !! b = Some B ∧ fits 0 0 512 small_blocks B ∧
     ¬ (b ∈ get_set small_blocks s') ∧ (∀ c C, heap s !! c = Some C → fits 0 0 512 small_blocks C → size B ≤ size C)).
Proof.
  apply (find_free_block_best_fit Samples.nothing [Samples.quiet_callback] Samples.quiet_ok Samples.machine4 0 0 512 small_blocks Samples.machine4_reachable).
Defined.

Lemma round_size_correct_witness : 0 ≤ 2 ^ 64 - 1 < 2 ^ 64 ∧ round_size (2 ^ 64 - 1) = 0.
Proof. split; [lia|]. apply (round_size_correct (2 ^ 64 - 1)); [lia|unfold kMinBlockSize; lia]. Defined.
