(* ===== verification/RefCount.v ===== *)
(** * Reference counting (c10/util/intrusive_ptr.h)

    The operations of [intrusive_ptr] and [weak_intrusive_ptr] as the sequences of
    atomic operations they perform, run by threads that interleave after every one
    of them.  A pointer that is null is absent from [vars].  The counters are
    [std::atomic<size_t>]. *)
From S2P Require Import Prelude.
Local Open Scope Z_scope.

Module RefCount.

Definition size_t (z : Z) : Z := wrapU 64 z.

(** [intrusive_ptr_target]. *)
Record Target : Type := mkTarget {
  refcount_ : Z;
  weakcount_ : Z
}.

Abbreviation loc := positive.

(** The [target_] of a pointer, and the raw pointers that [release] returns, of a thread. *)
Inductive var : Type :=
  | Ptr (t i : nat)
  | WeakPtr (t i : nat)
  | Owning (t i : nat)
  | OwningWeak (t i : nat).

#[export] Instance var_eq_dec : EqDecision var.
Proof. solve_decision. Defined.
#[export] Instance var_countable : Countable var.
Proof.
  refine (inj_countable' (λ x, match x with
    | Ptr t i => (0%nat, t, i) | WeakPtr t i => (1%nat, t, i) | Owning t i => (2%nat, t, i) | OwningWeak t i => (3%nat, t, i) end)
    (λ c, match c with
    | (O, t, i) => Ptr t i | (1%nat, t, i) => WeakPtr t i | (2%nat, t, i) => Owning t i | (_, t, i) => OwningWeak t i end) _).
  by intros [].
Defined.

(** One atomic operation of a thread, with the source statement it stands for. *)
Inductive instr : Type :=
  | RetainStrong (x src : var) (l : loc) (* x is copied from src: ++target_->refcount_, and the assertion *)
  | RetainWeak (x src : var) (l : loc)   (* ++target_->weakcount_, and the assertion *)
  | New (x : var)                        (* new TTarget(...); ++refcount_; ++weakcount_ *)
  | Assign (x : var) (p : option loc)    (* swap with a temporary that holds p, and its destructor *)
  | ResetStrong (l : loc)                (* --target_->refcount_ == 0 *)
  | DropWeak (l : loc)                   (* weak_count = --target_->weakcount_ *)
  | ReleaseResources (l : loc) (weak_count : Z)
  | Delete (l : loc)                     (* delete target_ *)
  | ResetWeak (l : loc)                  (* --target_->weakcount_ == 0 *)
  | LockLoad (w : var) (l : loc) (x : var)
  | LockCAS (w : var) (l : loc) (refcount : Z) (x : var)
  | CheckOwned (l : loc)                 (* refcount_.load() > 0 *)
  | CheckWeak (l : loc)                  (* weakcount_.load() > 1 || ... *)
  | CheckExpired (l : loc)               (* refcount_.load() == 0 && ... *)
  | CheckWeakLeft (l : loc).             (* weakcount_.load() > 0 *)

#[export] Instance instr_eq_dec : EqDecision instr.
Proof. solve_decision. Defined.

(** What became of the objects. *)
Inductive event : Type := Released (l : loc) | Deleted (l : loc).
#[export] Instance event_eq_dec : EqDecision event.
Proof. solve_decision. Defined.

Record State : Type := mkState {
  heap : gmap loc Target;
  fresh : loc;
  vars : gmap var loc;
  code : gmap nat (list instr);
  log : list event
}.

Definition set_heap h s := mkState h (fresh s) (vars s) (code s) (log s).
Definition set_vars v s := mkState (heap s) (fresh s) v (code s) (log s).
Definition set_code c s := mkState (heap s) (fresh s) (vars s) c (log s).
Definition set_log e s := mkState (heap s) (fresh s) (vars s) (code s) e.
Definition initial : State := mkState ∅ 1%positive ∅ ∅ [].

Definition code_of (t : nat) (s : State) : list instr := default [] (code s !! t).
Definition put_code (t : nat) (c : list instr) (s : State) : State := set_code (<[t := c]> (code s)) s.
Definition put_target (l : loc) (o : Target) (s : State) : State := set_heap (<[l := o]> (heap s)) s.
Definition put_var (x : var) (p : option loc) (s : State) : State :=
  set_vars (partial_alter (λ _, p) x (vars s)) s.

Definition deref (l : loc) (s : State) : outcome Target :=
  match heap s !! l with Some o => Ok o | None => Throw (Undefined "use after free") end.

(** ** The members *)
Definition set_refcount n (o : Target) := mkTarget n (weakcount_ o).
Definition set_weakcount n (o : Target) := mkTarget (refcount_ o) n.

(** [reset_]. *)
Definition reset_ (x : var) (p : option loc) : list instr :=
  match p, x with
  | None, _ => []
  | Some l, Ptr _ _ => [ResetStrong l]
  | Some l, WeakPtr _ _ => [ResetWeak l]
  | Some l, _ => []
  end.

(** [retain_] of a temporary that was copied from [src], and is then assigned to [x]. *)
Definition retain_ (x src : var) (l : loc) : instr :=
  match x with Ptr _ _ => RetainStrong x src l | _ => RetainWeak x src l end.

(** [weak_intrusive_ptr::lock]: the loop around [compare_exchange_weak], which
    reloads [refcount] when it fails. *)
Definition lock_loop (w : var) (l : loc) (refcount : Z) (x : var) : list instr :=
  if refcount =? 0 then [Assign x None] else [LockCAS w l refcount x].

(** One atomic operation of thread [t], whose code goes on with [k]. *)
Section steps.
Context (t : nat) (k : list instr) (s : State).

Definition retain_step (x : var) (l : loc) : outcome State :=
  o ← deref l s;
  let new_refcount := size_t (refcount_ o + 1) in
  AT_ASSERT (negb (new_refcount =? 1));;
  Ok (put_code t (Assign x (Some l) :: k) (put_target l (set_refcount new_refcount o) s)).
Definition weak_retain_step (x : var) (l : loc) : outcome State :=
  o ← deref l s;
  let new_weakcount := size_t (weakcount_ o + 1) in
  AT_ASSERT (negb (new_weakcount =? 1));;
  Ok (put_code t (Assign x (Some l) :: k) (put_target l (set_weakcount new_weakcount o) s)).

(** The new object is not shared before [make] returns, so that its three steps are one. *)
Definition make_step (x : var) : outcome State :=
  let l := fresh s in
  Ok (mkState (<[l := mkTarget 1 1]> (heap s)) (Pos.succ l) (vars s) (<[t := Assign x (Some l) :: k]> (code s)) (log s)).

Definition assign_step (x : var) (p : option loc) : outcome State :=
  Ok (put_code t (reset_ x (vars s !! x) ++ k) (put_var x p s)).

(** The four steps of [reset_]. *)
Definition reset_step (l : loc) : outcome State :=
  o ← deref l s;
  let refcount := size_t (refcount_ o - 1) in
  Ok (put_code t ((if refcount =? 0 then [DropWeak l] else []) ++ k) (put_target l (set_refcount refcount o) s)).
Definition drop_weak_step (l : loc) : outcome State :=
  o ← deref l s;
  let weak_count := size_t (weakcount_ o - 1) in
  Ok (put_code t (ReleaseResources l weak_count :: k) (put_target l (set_weakcount weak_count o) s)).
Definition release_resources_step (l : loc) (weak_count : Z) : outcome State :=
  deref l s;;
  Ok (set_log (Released l :: log s) (put_code t ((if weak_count =? 0 then [Delete l] else []) ++ k) s)).
Definition delete_step (l : loc) : outcome State :=
  o ← deref l s;
  noexcept (AT_ASSERT (refcount_ o =? 0);; AT_ASSERT (weakcount_ o =? 0));;
  Ok (set_log (Deleted l :: log s) (put_code t k (set_heap (delete l (heap s)) s))).

Definition weak_reset_step (l : loc) : outcome State :=
  o ← deref l s;
  let weakcount := size_t (weakcount_ o - 1) in
  Ok (put_code t ((if weakcount =? 0 then [Delete l] else []) ++ k) (put_target l (set_weakcount weakcount o) s)).

Definition lock_load_step (w : var) (l : loc) (x : var) : outcome State :=
  o ← deref l s; Ok (put_code t (lock_loop w l (refcount_ o) x ++ k) s).
Definition lock_cas_step (w : var) (l : loc) (refcount : Z) (x : var) : outcome State :=
  o ← deref l s;
  if refcount_ o =? refcount
  then Ok (put_code t (Assign x (Some l) :: k) (put_target l (set_refcount (size_t (refcount + 1)) o) s))
  else Ok (put_code t (lock_loop w l (refcount_ o) x ++ k) s).

(** The assertion of [intrusive_ptr::reclaim], and the three loads of the one of
    [weak_intrusive_ptr::reclaim]. *)
Definition check_owned_step (l : loc) : outcome State :=
  o ← deref l s; AT_ASSERT (0 <? refcount_ o);; Ok (put_code t k s).
Definition check_weak_step (l : loc) : outcome State :=
  o ← deref l s; Ok (put_code t (if 1 <? weakcount_ o then k else CheckExpired l :: k) s).
Definition check_expired_step (l : loc) : outcome State :=
  o ← deref l s; AT_ASSERT (refcount_ o =? 0);; Ok (put_code t (CheckWeakLeft l :: k) s).
Definition check_weak_left_step (l : loc) : outcome State :=
  o ← deref l s; AT_ASSERT (0 <? weakcount_ o);; Ok (put_code t k s).

Definition exec (i : instr) : outcome State :=
  match i with
  | RetainStrong x _ l => retain_step x l
  | RetainWeak x _ l => weak_retain_step x l
  | New x => make_step x
  | Assign x p => assign_step x p
  | ResetStrong l => reset_step l
  | DropWeak l => drop_weak_step l
  | ReleaseResources l weak_count => release_resources_step l weak_count
  | Delete l => delete_step l
  | ResetWeak l => weak_reset_step l
  | LockLoad w l x => lock_load_step w l x
  | LockCAS w l refcount x => lock_cas_step w l refcount x
  | CheckOwned l => check_owned_step l
  | CheckWeak l => check_weak_step l
  | CheckExpired l => check_expired_step l
  | CheckWeakLeft l => check_weak_left_step l
  end.
End steps.

(** ** The calls of a thread *)
Inductive call : Type :=
  | Make (i : nat)              (* p_i = make_intrusive<T>(...) *)
  | Copy (i j : nat)            (* p_i = p_j *)
  | Move (i j : nat)            (* p_i = std::move(p_j) *)
  | Reset (i : nat)             (* p_i.reset(), and the end of its life *)
  | Release (k i : nat)         (* r_k = p_i.release() *)
  | Reclaim (i k : nat)         (* p_i = intrusive_ptr::reclaim(r_k) *)
  | Downgrade (i j : nat)       (* w_i = weak_intrusive_ptr(p_j) *)
  | WeakCopy (i j : nat)
  | WeakMove (i j : nat)
  | WeakReset (i : nat)
  | WeakRelease (k i : nat)
  | WeakReclaim (i k : nat)
  | Lock (i j : nat)            (* p_i = w_j.lock() *)
  | Give (x y : var).           (* y of another thread = std::move(x) *)

(** [x = std::move(y)]: [intrusive_ptr tmp = std::move(rhs); swap(tmp)]. *)
Definition move_assign (t : nat) (x y : var) (s : State) : State :=
  put_code t [Assign x (vars s !! y)] (put_var y None s).

(** [x = y]: [intrusive_ptr tmp = rhs; swap(tmp)]. *)
Definition copy_assign (t : nat) (x y : var) (s : State) : State :=
  put_code t (match vars s !! y with
              | Some l => [retain_ x y l]
              | None => [Assign x None]
              end) s.

Definition reset (t : nat) (x : var) (s : State) : State :=
  put_code t (reset_ x (vars s !! x)) (put_var x None s).

Definition release (r x : var) (s : State) : State :=
  put_var r (vars s !! x) (put_var x None s).

(** [reclaim(owning_ptr)], and the assignment of its result. *)
Definition reclaim (t : nat) (x r : var) (s : State) : State :=
  put_code t (match vars s !! r with
              | Some l => [match x with Ptr _ _ => CheckOwned l | _ => CheckWeak l end; Assign x (Some l)]
              | None => [Assign x None]
              end) (put_var r None s).

Definition start (t : nat) (o : call) (s : State) : outcome State :=
  match o with
  | Make i => Ok (put_code t [New (Ptr t i)] s)
  | Copy i j => Ok (copy_assign t (Ptr t i) (Ptr t j) s)
  | Move i j => Ok (move_assign t (Ptr t i) (Ptr t j) s)
  | Reset i => Ok (reset t (Ptr t i) s)
  | Release k i => Ok (release (Owning t k) (Ptr t i) s)
  | Reclaim i k => Ok (reclaim t (Ptr t i) (Owning t k) s)
  | Downgrade i j => Ok (copy_assign t (WeakPtr t i) (Ptr t j) s)
  | WeakCopy i j => Ok (copy_assign t (WeakPtr t i) (WeakPtr t j) s)
  | WeakMove i j => Ok (move_assign t (WeakPtr t i) (WeakPtr t j) s)
  | WeakReset i => Ok (reset t (WeakPtr t i) s)
  | WeakRelease k i => Ok (release (OwningWeak t k) (WeakPtr t i) s)
  | WeakReclaim i k => Ok (reclaim t (WeakPtr t i) (OwningWeak t k) s)
  | Lock i j =>
      match vars s !! WeakPtr t j with
      | Some l => Ok (put_code t [LockLoad (WeakPtr t j) l (Ptr t i)] s)
      | None => Throw (Undefined "null dereference")
      end
  | Give x y => Ok (release y x s)
  end.

(** ** Schedules: who does what next *)
Inductive label : Type :=
  | Call (t : nat) (o : call)
  | Run (t : nat)
  | Spurious (t : nat).         (* compare_exchange_weak fails although the values agree *)

Definition perform (a : label) (s : State) : outcome State :=
  match a with
  | Call t o => match code_of t s with [] => start t o s | _ => Ok s end
  | Run t => match code_of t s with i :: k => exec t k s i | [] => Ok s end
  | Spurious t =>
      match code_of t s with
      | LockCAS w l _ x :: k => o ← deref l s; Ok (put_code t (lock_loop w l (refcount_ o) x ++ k) s)
      | _ => Ok s
      end
  end.

Fixpoint run (schedule : list label) (s : State) : outcome State :=
  match schedule with
  | [] => Ok s
  | a :: schedule => perform a s ≫= run schedule
  end.

(** [use_count], [weak_use_count], [unique], [expired]. *)
Definition use_count (x : var) (s : State) : outcome Z :=
  match vars s !! x with None => Ok 0 | Some l => refcount_ <$> deref l s end.
Definition weak_use_count (x : var) (s : State) : outcome Z :=
  match vars s !! x with None => Ok 0 | Some l => weakcount_ <$> deref l s end.
Definition unique (x : var) (s : State) : outcome bool := (λ n, n =? 1) <$> use_count x s.
Definition expired (w : var) (s : State) : outcome bool := (λ n, n =? 0) <$> use_count w s.
Definition defined (x : var) (s : State) : bool := bool_decide (is_Some (vars s !! x)).
End RefCount.
