(* ===== verification/RefCountSpec.v ===== *)
(** * The invariant of the reference counts

    Every pointer, and every atomic operation that is still to come, holds credits
    on its target; the counters are the sums of the credits of all threads.  A
    strong pointer holds [S], a weak one [W], the decrement of [weakcount_] that a
    dead object still owes [X], a pending deletion [D], and a pending
    [release_resources] [R]. *)
From S2P Require Import Prelude RefCount.
Local Open Scope Z_scope.
Import RefCount.

(** ** Credits *)
Definition owner (x : var) : nat := match x with Ptr t _ | WeakPtr t _ | Owning t _ | OwningWeak t _ => t end.
Definition is_strong (x : var) : bool := match x with Ptr _ _ | Owning _ _ => true | _ => false end.

Definition here (l m : loc) : Z := if decide (l = m) then 1 else 0.
Definition strong_at (l : loc) (x : var) (m : loc) : Z := if is_strong x then here l m else 0.
Definition weak_at (l : loc) (x : var) (m : loc) : Z := if is_strong x then 0 else here l m.

Definition iS (l : loc) (i : instr) : Z :=
  match i with Assign x (Some m) => strong_at l x m | ResetStrong m => here l m | _ => 0 end.
Definition iW (l : loc) (i : instr) : Z :=
  match i with Assign x (Some m) => weak_at l x m | ResetWeak m => here l m | _ => 0 end.
Definition iX (l : loc) (i : instr) : Z := match i with DropWeak m => here l m | _ => 0 end.
Definition iR (l : loc) (i : instr) : Z := match i with ReleaseResources m _ => here l m | _ => 0 end.
Definition iD (l : loc) (i : instr) : Z :=
  match i with Delete m => here l m | ReleaseResources m w => if w =? 0 then here l m else 0 | _ => 0 end.

Definition csum (g : instr → Z) (s : State) : Z := msum (λ _ c, lsum g c) (code s).
Definition vsum (f : var → loc → Z) (s : State) : Z := msum f (vars s).

Definition S_ (l : loc) (s : State) : Z := vsum (strong_at l) s + csum (iS l) s.
Definition W_ (l : loc) (s : State) : Z := vsum (weak_at l) s + csum (iW l) s.
Definition X_ (l : loc) (s : State) : Z := csum (iX l) s.
Definition R_ (l : loc) (s : State) : Z := csum (iR l) s.
Definition D_ (l : loc) (s : State) : Z := csum (iD l) s.

Definition ev (e : event) (s : State) : Z := lsum (λ x, if decide (x = e) then 1 else 0) (log s).

(** A pointer of [t] that it can assign to. *)
Definition dest (t : nat) (x : var) : Prop :=
  match x with Ptr u _ | WeakPtr u _ => u = t | _ => False end.

(** The code of a thread: only its first operation looks at a pointer of the thread,
    or at a credit of the code behind it. *)
Definition plain (t : nat) (i : instr) : Prop :=
  match i with
  | Assign x _ => dest t x
  | ResetStrong _ | DropWeak _ | ReleaseResources _ _ | Delete _ | ResetWeak _ => True
  | _ => False
  end.
Definition head_ok (s : State) (t : nat) (i : instr) (k : list instr) : Prop :=
  match i with
  | RetainStrong x src l => owner src = t ∧ is_strong src = true ∧ vars s !! src = Some l ∧ dest t x ∧ is_strong x = true
  | RetainWeak x src l => owner src = t ∧ vars s !! src = Some l ∧ dest t x ∧ is_strong x = false
  | New x => dest t x ∧ is_strong x = true
  | LockLoad w l x => owner w = t ∧ vars s !! w = Some l ∧ dest t x ∧ is_strong x = true
  | LockCAS w l r x => owner w = t ∧ vars s !! w = Some l ∧ dest t x ∧ is_strong x = true ∧ r ≠ 0
  | CheckOwned l => 1 ≤ lsum (iS l) k
  | CheckWeak l | CheckWeakLeft l => 1 ≤ lsum (iW l) k
  | CheckExpired l => 1 ≤ lsum (iW l) k ∧ S_ l s = 0
  | i => plain t i
  end.
Definition code_ok (s : State) (t : nat) (c : list instr) : Prop :=
  match c with [] => True | i :: k => head_ok s t i k ∧ Forall (plain t) k end.

Record Inv (s : State) : Prop := {
  inv_object l o : heap s !! l = Some o →
    refcount_ o = S_ l s ∧ weakcount_ o = W_ l s + X_ l s + (if S_ l s =? 0 then 0 else 1) ∧
    D_ l s = (if weakcount_ o =? 0 then 1 else 0);
  inv_gone l : heap s !! l = None → S_ l s = 0 ∧ W_ l s = 0 ∧ X_ l s = 0 ∧ D_ l s = 0;
  inv_fresh l : (fresh s ≤ l)%positive → heap s !! l = None ∧ R_ l s = 0;
  inv_released l : (l < fresh s)%positive →
    ev (Released l) s + R_ l s + X_ l s = (if S_ l s =? 0 then 1 else 0);
  inv_deleted l : (l < fresh s)%positive → ev (Deleted l) s = match heap s !! l with Some _ => 0 | None => 1 end;
  inv_quiet l : (fresh s ≤ l)%positive → ev (Released l) s = 0 ∧ ev (Deleted l) s = 0;
  inv_order l newer older : log s = newer ++ Deleted l :: older → Released l ∈ older ∨ 0 < R_ l s;
  inv_code t : code_ok s t (code_of t s)
}.

(** Fewer references than the counters can count. *)
Definition roomy (s : State) : Prop := ∀ l, S_ l s < 2 ^ 64 - 1 ∧ W_ l s + X_ l s < 2 ^ 64 - 2.

(** ** Arithmetic of credits *)
Lemma here_nonneg l m : 0 ≤ here l m.
Proof. unfold here. case_decide; lia. Qed.
Lemma strong_at_nonneg l x m : 0 ≤ strong_at l x m.
Proof. unfold strong_at. destruct (is_strong x); [apply here_nonneg|lia]. Qed.
Lemma weak_at_nonneg l x m : 0 ≤ weak_at l x m.
Proof. unfold weak_at. destruct (is_strong x); [lia|apply here_nonneg]. Qed.
#[export] Hint Resolve here_nonneg strong_at_nonneg weak_at_nonneg : cpp.

Lemma iS_nonneg l i : 0 ≤ iS l i.
Proof. destruct i as [| | |x []| | | | | | | | | | |]; cbn; auto with cpp; lia. Qed.
Lemma iW_nonneg l i : 0 ≤ iW l i.
Proof. destruct i as [| | |x []| | | | | | | | | | |]; cbn; auto with cpp; lia. Qed.
Lemma iX_nonneg l i : 0 ≤ iX l i.
Proof. destruct i; cbn; auto with cpp; lia. Qed.
Lemma iR_nonneg l i : 0 ≤ iR l i.
Proof. destruct i; cbn; auto with cpp; lia. Qed.
Lemma iD_nonneg l i : 0 ≤ iD l i.
Proof. destruct i; cbn; repeat case_match; auto with cpp; lia. Qed.
#[export] Hint Resolve iS_nonneg iW_nonneg iX_nonneg iR_nonneg iD_nonneg : cpp.

Lemma csum_nonneg g s : (∀ i, 0 ≤ g i) → 0 ≤ csum g s.
Proof. intros Hg. apply msum_nonneg. intros _ c. by apply lsum_nonneg. Qed.
Lemma vsum_nonneg f s : (∀ x l, 0 ≤ f x l) → 0 ≤ vsum f s.
Proof. apply msum_nonneg. Qed.

(** The credits of one thread's code, and of one variable, are part of the sum. *)
Lemma csum_code g t s : (∀ i, 0 ≤ g i) → lsum g (code_of t s) ≤ csum g s.
Proof.
  intros Hg. unfold code_of. destruct (code s !! t) as [c|] eqn:E; cbn; [|by apply csum_nonneg].
  apply (msum_lookup (λ _ c, lsum g c) (code s) t c); [|done]. intros _ d. by apply lsum_nonneg.
Qed.
Lemma vsum_var f x l s : (∀ x l, 0 ≤ f x l) → vars s !! x = Some l → f x l ≤ vsum f s.
Proof. intros Hf E. by apply msum_lookup. Qed.

Lemma csum_put g t c s : csum g (put_code t c s) = csum g s - lsum g (code_of t s) + lsum g c.
Proof.
  unfold csum, put_code, code_of. cbn. rewrite msum_update. unfold weight_at. by destruct (code s !! t).
Qed.
Lemma vsum_put f x p s : vsum f (put_var x p s) =
  vsum f s - weight_at f (vars s) x + match p with Some l => f x l | None => 0 end.
Proof.
  unfold vsum, put_var. cbn. destruct p as [l|].
  - change (partial_alter _ x (vars s)) with (<[x := l]> (vars s)). apply msum_update.
  - change (partial_alter _ x (vars s)) with (delete x (vars s)). rewrite msum_erase. lia.
Qed.

Lemma code_of_put t u c s : code_of u (put_code t c s) = if decide (u = t) then c else code_of u s.
Proof. unfold code_of. cbn. case_decide as E; [by rewrite E, lookup_insert_eq|by rewrite lookup_insert_ne]. Qed.

Lemma here_self l : here l l = 1.
Proof. unfold here. by rewrite decide_True. Qed.
Lemma here_ne l m : l ≠ m → here l m = 0.
Proof. intros. unfold here. by rewrite decide_False. Qed.

(** The sums are not negative, and contain the credits of the thread [t]. *)
Lemma sums_nonneg l s : 0 ≤ S_ l s ∧ 0 ≤ W_ l s ∧ 0 ≤ X_ l s ∧ 0 ≤ R_ l s ∧ 0 ≤ D_ l s.
Proof.
  unfold S_, W_, X_, R_, D_.
  pose proof (vsum_nonneg (strong_at l) s (strong_at_nonneg l)). pose proof (vsum_nonneg (weak_at l) s (weak_at_nonneg l)).
  pose proof (csum_nonneg (iS l) s (iS_nonneg l)). pose proof (csum_nonneg (iW l) s (iW_nonneg l)).
  pose proof (csum_nonneg (iX l) s (iX_nonneg l)). pose proof (csum_nonneg (iR l) s (iR_nonneg l)).
  pose proof (csum_nonneg (iD l) s (iD_nonneg l)). lia.
Qed.
Lemma sums_code l t s : lsum (iS l) (code_of t s) ≤ S_ l s ∧ lsum (iW l) (code_of t s) ≤ W_ l s ∧
  lsum (iX l) (code_of t s) ≤ X_ l s ∧ lsum (iR l) (code_of t s) ≤ R_ l s ∧ lsum (iD l) (code_of t s) ≤ D_ l s.
Proof.
  unfold S_, W_, X_, R_, D_.
  pose proof (vsum_nonneg (strong_at l) s (strong_at_nonneg l)). pose proof (vsum_nonneg (weak_at l) s (weak_at_nonneg l)).
  pose proof (csum_code (iS l) t s (iS_nonneg l)). pose proof (csum_code (iW l) t s (iW_nonneg l)).
  pose proof (csum_code (iX l) t s (iX_nonneg l)). pose proof (csum_code (iR l) t s (iR_nonneg l)).
  pose proof (csum_code (iD l) t s (iD_nonneg l)). lia.
Qed.
Lemma sums_var l x s : vars s !! x = Some l → if is_strong x then 1 ≤ S_ l s else 1 ≤ W_ l s.
Proof.
  intros E. unfold S_, W_.
  pose proof (vsum_var (strong_at l) x l s (strong_at_nonneg l) E) as H1. pose proof (vsum_var (weak_at l) x l s (weak_at_nonneg l) E) as H2.
  pose proof (csum_nonneg (iS l) s (iS_nonneg l)). pose proof (csum_nonneg (iW l) s (iW_nonneg l)).
  unfold strong_at in H1 at 1. unfold weak_at in H2 at 1. rewrite here_self in *. destruct (is_strong x); lia.
Qed.

(** ** Steps that keep the invariant *)

(** The codes of the other threads stay in order when a thread changes only its own
    pointers, and no object comes back to life. *)
Lemma codes_ok t s s' : Inv s →
  (∀ u, u ≠ t → code_of u s' = code_of u s) →
  (∀ x l, owner x ≠ t → vars s !! x = Some l → vars s' !! x = Some l) →
  (∀ l, S_ l s = 0 → 1 ≤ W_ l s → S_ l s' = 0) →
  code_ok s' t (code_of t s') → ∀ u, code_ok s' u (code_of u s').
Proof.
  intros Hi Hc Hv Hs Ht u. destruct (decide (u = t)) as [->|Hu]; [done|]. rewrite Hc by done.
  pose proof (inv_code s Hi u) as Hok. pose proof (λ l, sums_code l u s) as Hcr.
  destruct (code_of u s) as [|i k] eqn:Ec; [done|]. destruct Hok as [Hh Hk]. split; [|done].
  destruct i; cbn in Hh |- *; try done.
  - destruct Hh as (<- & ? & ? & ? & ?). split_and!; [done..|by apply Hv|done|done].
  - destruct Hh as (<- & ? & ? & ?). split_and!; [done..|by apply Hv|done|done].
  - destruct Hh as (<- & ? & ? & ?). split_and!; [done|by apply Hv|done..].
  - destruct Hh as (<- & ? & ? & ? & ?). split_and!; [done|by apply Hv|done..].
  - destruct Hh as (H1 & H2). split; [done|]. apply Hs; [done|].
    destruct (Hcr l) as (_ & Hw & _). rewrite lsum_cons in Hw. cbn in Hw. lia.
Qed.

Definition same_sums (s s' : State) : Prop :=
  ∀ l, S_ l s' = S_ l s ∧ W_ l s' = W_ l s ∧ X_ l s' = X_ l s ∧ R_ l s' = R_ l s ∧ D_ l s' = D_ l s.

(** A step that moves credits around. *)
Lemma neutral_step t s s' : Inv s →
  heap s' = heap s → fresh s' = fresh s → log s' = log s → same_sums s s' →
  (∀ u, u ≠ t → code_of u s' = code_of u s) →
  (∀ x l, owner x ≠ t → vars s !! x = Some l → vars s' !! x = Some l) →
  code_ok s' t (code_of t s') → Inv s'.
Proof.
  intros Hi Hh Hf Hl Hs Hc Hv Ht. assert (Hev : ∀ e, ev e s' = ev e s) by (intros; unfold ev; by rewrite Hl).
  split; intros *; rewrite ?Hh, ?Hf, ?Hl, ?Hev; try (destruct (Hs l) as (ES & EW & EX & ER & ED); rewrite ?ES, ?EW, ?EX, ?ER, ?ED).
  - apply (inv_object s Hi).
  - apply (inv_gone s Hi).
  - apply (inv_fresh s Hi).
  - apply (inv_released s Hi).
  - apply (inv_deleted s Hi).
  - apply (inv_quiet s Hi).
  - apply (inv_order s Hi).
  - apply (codes_ok t s s'); [done..| |done]. intros l. destruct (Hs l) as (ES & _). by rewrite ES.
Qed.

(** The code [c] has the same credits as [c'] on all objects but [l]. *)
Definition same_credits_off (l : loc) (c c' : list instr) : Prop :=
  ∀ m, m ≠ l → lsum (iS m) c' = lsum (iS m) c ∧ lsum (iW m) c' = lsum (iW m) c ∧
    lsum (iX m) c' = lsum (iX m) c ∧ lsum (iR m) c' = lsum (iR m) c ∧ lsum (iD m) c' = lsum (iD m) c.

Lemma sums_put_code l t c s :
  S_ l (put_code t c s) = S_ l s - lsum (iS l) (code_of t s) + lsum (iS l) c ∧
  W_ l (put_code t c s) = W_ l s - lsum (iW l) (code_of t s) + lsum (iW l) c ∧
  X_ l (put_code t c s) = X_ l s - lsum (iX l) (code_of t s) + lsum (iX l) c ∧
  R_ l (put_code t c s) = R_ l s - lsum (iR l) (code_of t s) + lsum (iR l) c ∧
  D_ l (put_code t c s) = D_ l s - lsum (iD l) (code_of t s) + lsum (iD l) c.
Proof.
  unfold S_, W_, X_, R_, D_. rewrite !csum_put.
  change (vsum ?f (put_code t c s)) with (vsum f s). lia.
Qed.

Lemma ev_elem e s : e ∈ log s ↔ 0 < ev e s.
Proof.
  unfold ev. induction (log s) as [|x k IH]; [split; [by intros ?%elem_of_nil|done]|]. rewrite lsum_cons, elem_of_cons, IH.
  assert (0 ≤ lsum (λ y, if decide (y = e) then 1 else 0) k) by (apply lsum_nonneg; intros; case_decide; lia).
  case_decide as E; split; try lia; intros; [by left|]. destruct H0 as [<-|]; [done|lia].
Qed.

(** What the invariant says of one object. *)
Definition object_ok (l : loc) (s : State) : Prop :=
  (l < fresh s)%positive ∧
  match heap s !! l with
  | Some o => refcount_ o = S_ l s ∧ weakcount_ o = W_ l s + X_ l s + (if S_ l s =? 0 then 0 else 1) ∧
              D_ l s = (if weakcount_ o =? 0 then 1 else 0) ∧ ev (Deleted l) s = 0
  | None => S_ l s = 0 ∧ W_ l s = 0 ∧ X_ l s = 0 ∧ D_ l s = 0 ∧ ev (Deleted l) s = 1
  end ∧
  ev (Released l) s + R_ l s + X_ l s = (if S_ l s =? 0 then 1 else 0) ∧
  ∀ newer older, log s = newer ++ Deleted l :: older → Released l ∈ older ∨ 0 < R_ l s.

Lemma ev_app e es s s' : log s' = es ++ log s → e ∉ es → ev e s' = ev e s.
Proof.
  intros El Hn. unfold ev. rewrite El, lsum_app. cut (lsum (λ x, if decide (x = e) then 1 else 0) es = 0); [lia|]. clear El.
  induction es as [|x es IH]; [done|]. apply not_elem_of_cons in Hn as [? ?]. rewrite lsum_cons, decide_False, IH by done. done.
Qed.

(** The sums after a step that replaces the code of [t]. *)
Lemma sums_step l t c s s' : vars s' = vars s → code s' = <[t := c]> (code s) →
  S_ l s' = S_ l s - lsum (iS l) (code_of t s) + lsum (iS l) c ∧
  W_ l s' = W_ l s - lsum (iW l) (code_of t s) + lsum (iW l) c ∧
  X_ l s' = X_ l s - lsum (iX l) (code_of t s) + lsum (iX l) c ∧
  R_ l s' = R_ l s - lsum (iR l) (code_of t s) + lsum (iR l) c ∧
  D_ l s' = D_ l s - lsum (iD l) (code_of t s) + lsum (iD l) c.
Proof.
  intros Hv Hc. pose proof (sums_put_code l t c s) as H.
  unfold S_, W_, X_, R_, D_, csum, vsum in *. rewrite Hv, Hc. exact H.
Qed.

(** A step of thread [t] on one object. *)
Lemma object_step t l c es s s' : Inv s →
  (∀ m, m ≠ l → heap s' !! m = heap s !! m) →
  fresh s' = fresh s ∨ (fresh s = l ∧ fresh s' = Pos.succ l) →
  vars s' = vars s → code s' = <[t := c]> (code s) → log s' = es ++ log s →
  (∀ e, e ∈ es → e = Released l ∨ e = Deleted l) →
  same_credits_off l (code_of t s) c →
  (S_ l s = 0 → 1 ≤ W_ l s → S_ l s' = 0) → object_ok l s' → code_ok s' t c → Inv s'.
Proof.
  intros Hi Hh Hf Hv Hc El Hes Hoff Hdead Hobj Hok.
  assert (Hcode : ∀ u, code_of u s' = if decide (u = t) then c else code_of u s).
  { intros u. rewrite <- (code_of_put t u c s). unfold code_of. by rewrite Hc. }
  assert (Hs : ∀ m, m ≠ l → S_ m s' = S_ m s ∧ W_ m s' = W_ m s ∧ X_ m s' = X_ m s ∧ R_ m s' = R_ m s ∧ D_ m s' = D_ m s).
  { intros m Hm. destruct (sums_step m t c s s' Hv Hc) as (E1 & E2 & E3 & E4 & E5).
    destruct (Hoff m Hm) as (F1 & F2 & F3 & F4 & F5). lia. }
  assert (Hev : ∀ m, m ≠ l → ev (Released m) s' = ev (Released m) s ∧ ev (Deleted m) s' = ev (Deleted m) s).
  { intros m Hm. split; apply (ev_app _ es); try done; intros [? | ?]%Hes; congruence. }
  destruct Hobj as (Hfl & Hat & Hrel & Hord).
  assert (Hlt : ∀ m, m ≠ l → (m < fresh s')%positive ↔ (m < fresh s)%positive) by (intros m Hm; destruct Hf as [-> | [? ->]]; lia).
  split.
  - intros m p Em. destruct (decide (m = l)) as [->|Hm]; [rewrite Em in Hat; tauto|].
    destruct (Hs m Hm) as (-> & -> & -> & _ & ->). rewrite Hh in Em by done. by apply (inv_object s Hi).
  - intros m Em. destruct (decide (m = l)) as [->|Hm]; [rewrite Em in Hat; tauto|].
    destruct (Hs m Hm) as (-> & -> & -> & _ & ->). rewrite Hh in Em by done. by apply (inv_gone s Hi).
  - intros m Hm. assert (m ≠ l) by lia. rewrite Hh by done. destruct (Hs m ltac:(done)) as (_ & _ & _ & -> & _).
    apply (inv_fresh s Hi). pose proof (Hlt m). lia.
  - intros m Hm. destruct (decide (m = l)) as [->|Hne]; [done|].
    destruct (Hs m Hne) as (-> & _ & -> & -> & _). destruct (Hev m Hne) as [-> _]. apply (inv_released s Hi). by apply Hlt.
  - intros m Hm. destruct (decide (m = l)) as [->|Hne]; [destruct (heap s' !! l); tauto|].
    rewrite Hh by done. destruct (Hev m Hne) as [_ ->]. apply (inv_deleted s Hi). by apply Hlt.
  - intros m Hm. assert (Hne : m ≠ l) by lia. destruct (Hev m Hne) as [-> ->]. apply (inv_quiet s Hi). pose proof (Hlt m). lia.
  - intros m newer older Elog. destruct (decide (m = l)) as [->|Hm]; [by apply (Hord newer)|].
    destruct (Hs m Hm) as (_ & _ & _ & -> & _). rewrite El in Elog. clear - Elog Hes Hm Hi.
    revert newer Elog. induction es as [|e es IH]; intros newer; [apply (inv_order s Hi)|].
    destruct newer as [|e' newer]; [|intros [= _ E]; apply (IH ltac:(intros; apply Hes; by right) newer E)].
    intros [= -> _]. destruct (Hes (Deleted m)) as [?|[= ?]]; [by left|done..].
  - apply (codes_ok t s s'); [done|intros u Hu; by rewrite Hcode, decide_False|by rewrite Hv| |by rewrite Hcode, decide_True].
    intros m H0 H1. destruct (decide (m = l)) as [->|Hm]; [auto|]. by destruct (Hs m Hm) as (-> & _).
Qed.
