(* ===== verification/RefCountSteps.v ===== *)
(** * Every step keeps the invariant of the reference counts

    [exec_lemma] is about the atomic operations, [start_lemma] about the calls; the
    only operation that can fail is [release_resources] on an object that another
    thread has deleted. *)
From S2P Require Import Prelude RefCount RefCountSpec.
Local Open Scope Z_scope.
Import RefCount.
#[local] Set Warnings "-clear-no-such-hyp".

Ltac unfold_steps := unfold retain_step, weak_retain_step, make_step, assign_step, reset_step, drop_weak_step, release_resources_step, delete_step, weak_reset_step, lock_load_step, lock_cas_step, check_owned_step, check_weak_step, check_expired_step, check_weak_left_step.
Tactic Notation "unfold_steps_in" ident(E) := unfold retain_step, weak_retain_step, make_step, assign_step, reset_step, drop_weak_step, release_resources_step, delete_step, weak_reset_step, lock_load_step, lock_cas_step, check_owned_step, check_weak_step, check_expired_step, check_weak_left_step in E.

Lemma alive l s : Inv s → 1 ≤ S_ l s ∨ 1 ≤ W_ l s ∨ 1 ≤ X_ l s ∨ 1 ≤ D_ l s → ∃ o, heap s !! l = Some o.
Proof. intros Hi Hc. destruct (heap s !! l) as [o|] eqn:E; [by exists o|]. destruct (inv_gone s Hi l E) as (?&?&?&?). lia. Qed.

Lemma object_facts l o s : Inv s → heap s !! l = Some o → object_ok l s ∧ Deleted l ∉ log s.
Proof.
  intros Hi E. assert (Hl : (l < fresh s)%positive).
  { destruct (decide (l < fresh s)%positive); [done|]. destruct (inv_fresh s Hi l ltac:(lia)); congruence. }
  pose proof (inv_deleted s Hi l Hl) as Hd. rewrite E in Hd. assert (Hn : Deleted l ∉ log s) by (rewrite ev_elem; lia).
  split; [|done]. split; [done|]. rewrite E. split; [|split].
  - destruct (inv_object s Hi l o E) as (? & ? & ?). done.
  - by apply (inv_released s Hi).
  - intros newer older El. destruct Hn. rewrite El. apply elem_of_app. right. by left.
Qed.

Definition same_credit (m : loc) (i : instr) (c : list instr) : Prop :=
  lsum (iS m) c = iS m i ∧ lsum (iW m) c = iW m i ∧ lsum (iX m) c = iX m i ∧ lsum (iR m) c = iR m i ∧ lsum (iD m) c = iD m i.

Lemma same_credits_cons l i k c : (∀ m, m ≠ l → same_credit m i c) → same_credits_off l (i :: k) (c ++ k).
Proof. intros Hc m Hm. rewrite !lsum_app, !lsum_cons. destruct (Hc m Hm) as (-> & -> & -> & -> & ->). done. Qed.

(** The operation [i] becomes [c], changes the object at [l] into [o'], and logs [es]. *)
Lemma counter_step t i k c es l o o' s s' : Inv s → code_of t s = i :: k → heap s !! l = Some o →
  s' = mkState (<[l := o']> (heap s)) (fresh s) (vars s) (<[t := c ++ k]> (code s)) (es ++ log s) →
  es = [] ∨ es = [Released l] →
  (∀ m, m ≠ l → same_credit m i c) →
  (let S' := S_ l s - iS l i + lsum (iS l) c in let W' := W_ l s - iW l i + lsum (iW l) c in
   let X' := X_ l s - iX l i + lsum (iX l) c in
   refcount_ o' = S' ∧ weakcount_ o' = W' + X' + (if S' =? 0 then 0 else 1) ∧
   D_ l s - iD l i + lsum (iD l) c = (if weakcount_ o' =? 0 then 1 else 0) ∧
   ev (Released l) s + Z.of_nat (length es) + (R_ l s - iR l i + lsum (iR l) c) + X' = (if S' =? 0 then 1 else 0) ∧
   (S_ l s = 0 → S' = 0)) →
  code_ok s' t (c ++ k) → Inv s'.
Proof.
  intros Hi Ec El -> Hes Hoff (H1 & H2 & H3 & H4 & H5) Hok. set (s' := mkState _ _ _ _ _) in *.
  destruct (object_facts l o s Hi El) as (Hobj & Hnd). destruct Hobj as (Hfr & Hat & _ & _). rewrite El in Hat. destruct Hat as (_ & _ & _ & Hdel).
  destruct (sums_step l t (c ++ k) s s') as (E1 & E2 & E3 & E4 & E5); [done..|].
  rewrite Ec, lsum_cons, lsum_app in E1, E2, E3, E4, E5.
  assert (Hn : ∀ e, e ∈ es → e = Released l) by (intros e He; destruct Hes as [-> | ->]; [by apply elem_of_nil in He|by apply list_elem_of_singleton in He]).
  assert (Hev : ev (Deleted l) s' = ev (Deleted l) s) by (apply (ev_app _ es); [done|]; by intros ?%Hn).
  assert (Hrel : ev (Released l) s' = ev (Released l) s + Z.of_nat (length es)).
  { unfold ev, s'. cbn [log]. rewrite lsum_app. destruct Hes as [-> | ->]; cbn; rewrite ?decide_True by done; lia. }
  apply (object_step t l (c ++ k) es s s'); try done.
  - intros m Hm. by apply lookup_insert_ne.
  - by left.
  - intros e He. left. by apply Hn.
  - rewrite Ec. by apply same_credits_cons.
  - intros H0 _. lia.
  - split; [done|]. cbn [s' heap]. rewrite lookup_insert_eq, Hev, Hrel. fold s'.
    replace (S_ l s') with (S_ l s - iS l i + lsum (iS l) c) by lia. split; [|split].
    + split; [done|]. split; [lia|]. split; [lia|done].
    + lia.
    + intros newer older Elog. destruct Hnd. assert (Hin : Deleted l ∈ es ++ log s) by (cbn [s' log] in Elog; rewrite Elog; apply elem_of_app; right; by left).
      by apply elem_of_app in Hin as [?%Hn|].
Qed.

(** ** The atomic operations *)

(** Facts about the counters of an object on which the first operation of [t], or a
    pointer, holds a credit. *)
Ltac sums_facts l t s :=
  let Hn := fresh "Hn" in let Hc := fresh "Hc" in
  pose proof (sums_nonneg l s) as Hn; pose proof (sums_code l t s) as Hc;
  match goal with Ec : code_of t s = _ |- _ => rewrite Ec, ?lsum_cons in Hc end;
  cbn [iS iW iX iR iD] in Hc; rewrite ?here_self in Hc;
  match goal with
  | Ec : code_of t s = _ :: ?k |- _ =>
      pose proof (lsum_nonneg (iS l) k (iS_nonneg l)); pose proof (lsum_nonneg (iW l) k (iW_nonneg l));
      pose proof (lsum_nonneg (iX l) k (iX_nonneg l)); pose proof (lsum_nonneg (iD l) k (iD_nonneg l))
  end.

(** A credit of the object [l] elsewhere. *)
Ltac other_credits :=
  let m := fresh "m" in let Hm := fresh "Hm" in
  intros m Hm; unfold same_credit; repeat match goal with |- context [if ?b then _ else _] => destruct b end; cbn; unfold strong_at, weak_at; rewrite ?here_ne by done; repeat case_match; done.

Lemma plain_ok s t c : Forall (plain t) c → code_ok s t c.
Proof. destruct c as [|i c]; [done|]. inversion_clear 1 as [|? ? Hp Hc]. split; [|done]. by destruct i. Qed.

Ltac case_if := match goal with |- context [if ?b then _ else _] => destruct b end; repeat constructor.

(** The object at [l], its counters as sums, and the credits the code holds on it. *)
Ltac on_object t s Hi Hr l o El :=
  destruct (alive l s Hi) as [o El]; [sums_facts l t s; lia|];
  let Eref := fresh "Eref" in let Ew := fresh "Ew" in let Ed := fresh "Ed" in destruct (inv_object s Hi l o El) as (Eref & Ew & Ed);
  let Hfr := fresh "Hfr" in let Hrel := fresh "Hrel" in destruct (object_facts l o s Hi El) as [(Hfr & _ & Hrel & _) _];
  sums_facts l t s; let Hb1 := fresh "Hb1" in let Hb2 := fresh "Hb2" in pose proof (Hr l) as [Hb1 Hb2]; cbn [exec]; unfold_steps; unfold deref; rewrite El, Ok_bind.

(** The arithmetic of a step: the counters after it are the sums after it. *)
Ltac balance := cbn; unfold strong_at, weak_at; rewrite ?here_self;
  repeat match goal with
  | H : is_strong _ = _ |- _ => rewrite H
  end;
  repeat match goal with |- context [Z.eqb ?a ?b] => destruct (Z.eqb_spec a b) | H : context [Z.eqb ?a ?b] |- _ => destruct (Z.eqb_spec a b) end;
  cbn in *; rewrite ?here_self in *; lia.

Section exec.
Context (t : nat) (k : list instr) (s : State) (Hi : Inv s) (Hr : roomy s).

Lemma code_at i : code_of t s = i :: k → head_ok s t i k ∧ Forall (plain t) k.
Proof using Hi. intros Ec. pose proof (inv_code s Hi t) as H. by rewrite Ec in H. Qed.

Lemma size_t_in z : 0 ≤ z < 2 ^ 64 → size_t z = z.
Proof. apply wrapU_id. Qed.

Lemma exec_RetainStrong x src l : code_of t s = RetainStrong x src l :: k →
  ∃ s', exec t k s (RetainStrong x src l) = Ok s' ∧ Inv s'.
Proof using Hi Hr.
  intros Ec. destruct (code_at _ Ec) as ((Ho & Hss & Hv & Hox & Hsx) & Hk).
  pose proof (sums_var l src s Hv) as H1. rewrite Hss in H1. on_object t s Hi Hr l o El. rewrite size_t_in by lia. unfold AT_ASSERT.
  rewrite AT_CHECK_bind_true by (rewrite negb_true_iff, Z.eqb_neq; lia). eexists. split; [done|].
  eapply (counter_step t _ k [Assign x (Some l)] [] l o _ s); [done|exact Ec|done|done|by left|other_credits|balance|by split].
Qed.

Lemma exec_RetainWeak x src l : code_of t s = RetainWeak x src l :: k →
  ∃ s', exec t k s (RetainWeak x src l) = Ok s' ∧ Inv s'.
Proof using Hi Hr.
  intros Ec. destruct (code_at _ Ec) as ((Ho & Hv & Hox & Hsx) & Hk).
  assert (1 ≤ S_ l s ∨ 1 ≤ W_ l s) as H1 by (pose proof (sums_var l src s Hv) as H1; destruct (is_strong src); lia).
  on_object t s Hi Hr l o El. assert (1 ≤ weakcount_ o) by (destruct (Z.eqb_spec (S_ l s) 0); lia).
  rewrite size_t_in by (destruct (S_ l s =? 0); lia). unfold AT_ASSERT.
  rewrite AT_CHECK_bind_true by (rewrite negb_true_iff, Z.eqb_neq; lia). eexists. split; [done|].
  eapply (counter_step t _ k [Assign x (Some l)] [] l o _ s); [done|exact Ec|done|done|by left|other_credits|balance|by split].
Qed.

Lemma exec_ResetStrong l : code_of t s = ResetStrong l :: k → ∃ s', exec t k s (ResetStrong l) = Ok s' ∧ Inv s'.
Proof using Hi Hr.
  intros Ec. destruct (code_at _ Ec) as (_ & Hk). on_object t s Hi Hr l o El. rewrite size_t_in by lia. eexists. split; [done|].
  eapply (counter_step t _ k _ [] l o _ s); [done|exact Ec|done|done|by left| |balance|].
  - other_credits.
  - apply plain_ok, Forall_app. split; [by case_if|done].
Qed.

Lemma exec_DropWeak l : code_of t s = DropWeak l :: k → ∃ s', exec t k s (DropWeak l) = Ok s' ∧ Inv s'.
Proof using Hi Hr.
  intros Ec. destruct (code_at _ Ec) as (_ & Hk). on_object t s Hi Hr l o El.
  assert (0 ≤ ev (Released l) s) by (apply lsum_nonneg; intros; case_decide; lia).
  assert (S_ l s = 0) as HS by (destruct (Z.eqb_spec (S_ l s) 0); lia). rewrite HS in *. cbn in *.
  rewrite size_t_in by lia. eexists. split; [done|].
  eapply (counter_step t _ k [_] [] l o _ s); [done|exact Ec|done|done|by left|other_credits|rewrite HS; balance|by split].
Qed.

Lemma exec_ResetWeak l : code_of t s = ResetWeak l :: k → ∃ s', exec t k s (ResetWeak l) = Ok s' ∧ Inv s'.
Proof using Hi Hr.
  intros Ec. destruct (code_at _ Ec) as (_ & Hk). on_object t s Hi Hr l o El.
  assert (1 ≤ weakcount_ o < 2 ^ 64) by (destruct (Z.eqb_spec (S_ l s) 0); lia). rewrite size_t_in by lia. eexists. split; [done|].
  eapply (counter_step t _ k _ [] l o _ s); [done|exact Ec|done|done|by left| |balance|].
  - other_credits.
  - apply plain_ok, Forall_app. split; [by case_if|done].
Qed.

Lemma exec_ReleaseResources l w : code_of t s = ReleaseResources l w :: k → is_Some (heap s !! l) →
  ∃ s', exec t k s (ReleaseResources l w) = Ok s' ∧ Inv s'.
Proof using Hi.
  intros Ec [o El]. destruct (code_at _ Ec) as (_ & Hk). destruct (inv_object s Hi l o El) as (Eref & Ew & Ed).
  cbn [exec]; unfold_steps. unfold deref. rewrite El, Ok_bind. eexists. split; [done|].
  eapply (counter_step t _ k (if w =? 0 then [Delete l] else []) [Released l] l o o s); [done|exact Ec|done| |by right| | |].
  - unfold set_log, put_code, set_code. cbn. by rewrite (insert_id (heap s) l o).
  - other_credits.
  - destruct (object_facts l o s Hi El) as [(_ & _ & Hrel & _) _]. balance.
  - apply plain_ok, Forall_app. split; [by case_if|done].
Qed.

Lemma exec_Delete l : code_of t s = Delete l :: k → ∃ s', exec t k s (Delete l) = Ok s' ∧ Inv s'.
Proof using Hi Hr.
  intros Ec. destruct (code_at _ Ec) as (_ & Hk). on_object t s Hi Hr l o El.
  assert (weakcount_ o = 0 ∧ S_ l s = 0) as [Hw HS].
  { destruct (Z.eqb_spec (weakcount_ o) 0); [|lia]. split; [done|]. destruct (Z.eqb_spec (S_ l s) 0); lia. }
  rewrite HS, Hw in *. cbn in Ew, Ed, Hrel. rewrite Eref. cbn. eexists. split; [done|].
  set (s' := set_log _ _). destruct (sums_step l t k s s') as (E1 & E2 & E3 & E4 & E5); [done..|].
  rewrite Ec, !lsum_cons in E1, E2, E3, E4, E5. cbn [iS iW iX iR iD] in *. rewrite here_self in *.
  assert (Hrel' : ev (Released l) s' = ev (Released l) s) by (apply (ev_app _ [Deleted l]); [done|]; by intros ?%list_elem_of_singleton).
  assert (Hdel' : ev (Deleted l) s' = ev (Deleted l) s + 1) by (unfold ev; change (log s') with (Deleted l :: log s); rewrite lsum_cons, decide_True by done; lia).
  destruct (object_facts l o s Hi El) as [(_ & Hat & _ & _) _]. rewrite El in Hat. destruct Hat as (_ & _ & _ & Hdel).
  apply (object_step t l k [Deleted l] s s'); try done.
  - intros m Hm. by apply lookup_delete_ne.
  - by left.
  - intros e ->%list_elem_of_singleton. by right.
  - rewrite Ec. apply (same_credits_cons l _ k []). other_credits.
  - intros _ _. lia.
  - split; [done|]. cbn [s' heap set_log put_code set_code set_heap]. rewrite lookup_delete_eq. fold s'. split; [lia|].
    replace (S_ l s') with 0 by lia. split; [rewrite Hrel'; change (0 =? 0) with true; cbv iota; lia|]. intros newer older Elog. cbn [s' log set_log] in Elog.
    destruct newer as [|e newer].
    + injection Elog as <-. rewrite ev_elem. lia.
    + injection Elog as _ Elog. destruct (object_facts l o s Hi El) as [_ Hnd]. destruct Hnd.
      change (log s = newer ++ Deleted l :: older) in Elog. rewrite Elog. apply elem_of_app. right. by left.
  - by apply plain_ok.
Qed.

Lemma exec_New x : code_of t s = New x :: k → ∃ s', exec t k s (New x) = Ok s' ∧ Inv s'.
Proof using Hi.
  intros Ec. destruct (code_at _ Ec) as ((Hx & Hsx) & Hk). eexists. split; [done|]. set (l := fresh s). set (s' := mkState _ _ _ _ _).
  destruct (inv_fresh s Hi l) as [El ER]; [lia|]. destruct (inv_gone s Hi l El) as (ES & EW & EX & ED). destruct (inv_quiet s Hi l) as [Qr Qd]; [lia|].
  destruct (sums_step l t (Assign x (Some l) :: k) s s') as (E1 & E2 & E3 & E4 & E5); [done..|].
  rewrite Ec, !lsum_cons in E1, E2, E3, E4, E5. cbn [iS iW iX iR iD] in *. unfold strong_at, weak_at in *. rewrite Hsx, here_self in *.
  apply (object_step t l (Assign x (Some l) :: k) [] s s'); try done.
  - intros m Hm. by apply lookup_insert_ne.
  - by right.
  - by intros e ?%elem_of_nil.
  - rewrite Ec. apply (same_credits_cons l _ k [Assign x (Some l)]). other_credits.
  - lia.
  - split; [cbn; lia|]. cbn [s' heap]. rewrite lookup_insert_eq. fold s'.
    change (ev ?e s') with (ev e s). cbn [refcount_ weakcount_].
    replace (S_ l s') with 1 by lia. split; [cbn; lia|]. split; [cbn; lia|].
    intros newer older Elog. change (log s = newer ++ Deleted l :: older) in Elog.
    assert (Deleted l ∈ log s) as Hin by (rewrite Elog; apply elem_of_app; right; by left). rewrite ev_elem in Hin. lia.
Qed.
End exec.

(** A step that changes only the code of [t]. *)
Lemma code_step t c s : Inv s →
  (∀ m, lsum (iS m) c = lsum (iS m) (code_of t s) ∧ lsum (iW m) c = lsum (iW m) (code_of t s) ∧
    lsum (iX m) c = lsum (iX m) (code_of t s) ∧ lsum (iR m) c = lsum (iR m) (code_of t s) ∧
    lsum (iD m) c = lsum (iD m) (code_of t s)) →
  code_ok s t c → Inv (put_code t c s).
Proof.
  intros Hi Hm Hok.
  assert (Hs : same_sums s (put_code t c s)).
  { intros m. destruct (sums_put_code m t c s) as (E1 & E2 & E3 & E4 & E5). destruct (Hm m) as (F1 & F2 & F3 & F4 & F5). lia. }
  eapply (neutral_step t s); try done.
  - intros u Hu. by rewrite code_of_put, decide_False.
  - rewrite code_of_put, decide_True by done. destruct c as [|i c]; [done|]. destruct Hok as [Hh Hk]. split; [|done].
    destruct i; try done. destruct Hh as [? H0]. split; [done|]. destruct (Hs l) as (-> & _). done.
Qed.

Section loads.
Context (t : nat) (k : list instr) (s : State) (Hi : Inv s).

Lemma lock_step w l x n : (code_of t s = LockLoad w l x :: k ∨ ∃ r, code_of t s = LockCAS w l r x :: k) →
  Inv (put_code t (lock_loop w l n x ++ k) s).
Proof using Hi.
  intros Hc. pose proof (inv_code s Hi t) as Hok.
  assert (∃ i, code_of t s = i :: k ∧ (∀ m, iS m i = 0 ∧ iW m i = 0 ∧ iX m i = 0 ∧ iR m i = 0 ∧ iD m i = 0) ∧
    owner w = t ∧ vars s !! w = Some l ∧ dest t x ∧ is_strong x = true ∧ Forall (plain t) k) as (i & Ec & H0 & H1 & H2 & H3 & H4 & Hk).
  { destruct Hc as [Ec|[r Ec]]; rewrite Ec in Hok; cbn in Hok; eexists; (split; [exact Ec|]); split_and!; naive_solver. }
  apply code_step; [done| |].
  - intros m. rewrite Ec, lsum_app, !lsum_cons. destruct (H0 m) as (-> & -> & -> & -> & ->). rewrite !lsum_app.
    unfold lock_loop. by destruct (n =? 0).
  - unfold lock_loop. destruct (Z.eqb_spec n 0); by split.
Qed.

Lemma exec_LockLoad w l x : code_of t s = LockLoad w l x :: k → ∃ s', exec t k s (LockLoad w l x) = Ok s' ∧ Inv s'.
Proof using Hi.
  intros Ec. pose proof (inv_code s Hi t) as Hok. rewrite Ec in Hok. destruct Hok as ((H1 & H2 & H3 & H4) & Hk).
  destruct (alive l s Hi) as [o El]; [pose proof (sums_var l w s H2); destruct (is_strong w); auto|].
  cbn [exec]; unfold_steps. unfold deref. rewrite El, Ok_bind. eexists. split; [done|]. apply lock_step. by left.
Qed.

Lemma exec_CheckOwned l : code_of t s = CheckOwned l :: k → ∃ s', exec t k s (CheckOwned l) = Ok s' ∧ Inv s'.
Proof using Hi.
  intros Ec. pose proof (inv_code s Hi t) as Hok. rewrite Ec in Hok. destruct Hok as (Hc & Hk). cbn in Hc.
  destruct (sums_code l t s) as (HS & _). rewrite Ec, lsum_cons in HS. cbn [iS] in HS.
  destruct (alive l s Hi) as [o El]; [lia|]. destruct (inv_object s Hi l o El) as (Eref & _).
  cbn [exec]; unfold_steps. unfold deref, AT_ASSERT. rewrite El, Ok_bind, AT_CHECK_bind_true by (apply Z.ltb_lt; lia). eexists. split; [done|].
  apply code_step; [done|by rewrite Ec|by apply plain_ok].
Qed.

Lemma exec_CheckWeak i l : i = CheckWeak l ∨ i = CheckExpired l ∨ i = CheckWeakLeft l → code_of t s = i :: k →
  ∃ s', exec t k s i = Ok s' ∧ Inv s'.
Proof using Hi.
  intros Hcase Ec. pose proof (inv_code s Hi t) as Hok. rewrite Ec in Hok. destruct Hok as (Hc & Hk).
  assert (1 ≤ lsum (iW l) k) as Hw by (destruct Hcase as [-> | [-> | ->]]; cbn in Hc; tauto).
  destruct (sums_code l t s) as (_ & HW & _). rewrite Ec, lsum_cons in HW. pose proof (iW_nonneg l i).
  destruct (alive l s Hi) as [o El]; [lia|]. destruct (inv_object s Hi l o El) as (Eref & Ew & _).
  destruct (sums_nonneg l s) as (?&?&?&?&?).
  destruct Hcase as [-> | [-> | ->]]; cbn [exec]; unfold_steps; unfold deref, AT_ASSERT; rewrite El, Ok_bind.
  - eexists. split; [done|]. apply code_step; [done| |].
    + intros m. rewrite Ec. by destruct (1 <? weakcount_ o).
    + destruct (Z.ltb_spec 1 (weakcount_ o)); [by apply plain_ok|]. split; [|done]. split; [done|].
      destruct (Z.eqb_spec (S_ l s) 0); [done|lia].
  - destruct Hc as [_ HS]. rewrite AT_CHECK_bind_true by (apply Z.eqb_eq; lia). eexists. split; [done|].
    apply code_step; [done|by rewrite Ec|]. by split.
  - rewrite AT_CHECK_bind_true by (apply Z.ltb_lt; destruct (S_ l s =? 0); lia). eexists. split; [done|].
    apply code_step; [done|by rewrite Ec|by apply plain_ok].
Qed.

(** [swap] with the temporary, and the temporary's destructor. *)
Lemma exec_Assign x p : code_of t s = Assign x p :: k → ∃ s', exec t k s (Assign x p) = Ok s' ∧ Inv s'.
Proof using Hi.
  intros Ec. pose proof (inv_code s Hi t) as Hok. rewrite Ec in Hok. destruct Hok as (Hx & Hk). cbn in Hx.
  eexists. split; [done|]. set (c := reset_ x (vars s !! x) ++ k).
  assert (Hoth : ∀ u, u ≠ t → code_of u (put_code t c (put_var x p s)) = code_of u s).
  { intros u Hu. by rewrite code_of_put, decide_False. }
  eapply (neutral_step t s); try done.
  - intros m. destruct (sums_put_code m t c (put_var x p s)) as (E1 & E2 & E3 & E4 & E5).
    assert (code_of t (put_var x p s) = Assign x p :: k) as Ec' by done. rewrite Ec', !lsum_cons in *. unfold c in *. rewrite !lsum_app in *.
    unfold S_, W_ in *. rewrite vsum_put in E1, E2. unfold weight_at in *.
    change (csum ?g (put_var x p s)) with (csum g s) in *.
    destruct x; try done; destruct p as [l'|], (vars s !! _) as [l|]; cbn in *; unfold X_, R_, D_ in *;
      change (csum ?g (put_var _ _ s)) with (csum g s) in *; lia.
  - intros y l Hy Ey. cbn. rewrite lookup_partial_alter_ne; [done|]. intros ->. by destruct y.
  - rewrite code_of_put, decide_True by done. apply plain_ok, Forall_app. split; [|done].
    destruct x, (vars s !! _); try done; by repeat constructor.
Qed.
End loads.

Section steps.
Context (t : nat) (s : State) (Hi : Inv s) (Hr : roomy s).

Lemma exec_LockCAS w l r x k : code_of t s = LockCAS w l r x :: k →
  ∃ s', exec t k s (LockCAS w l r x) = Ok s' ∧ Inv s'.
Proof using Hi Hr.
  intros Ec. pose proof (inv_code s Hi t) as Hok. rewrite Ec in Hok. destruct Hok as ((H1 & H2 & H3 & H4 & H5) & Hk).
  assert (1 ≤ S_ l s ∨ 1 ≤ W_ l s) by (pose proof (sums_var l w s H2); destruct (is_strong w); auto).
  on_object t s Hi Hr l o El. destruct (Z.eqb_spec (refcount_ o) r) as [<-|Hne].
  - rewrite size_t_in by lia. eexists. split; [done|].
    eapply (counter_step t _ k [Assign x (Some l)] [] l o _ s); [done|exact Ec|done|done|by left|other_credits|balance|by split].
  - eexists. split; [done|]. eapply lock_step; [done|eauto].
Qed.

(** Every operation runs, but for a release of resources that comes too late. *)
Lemma exec_lemma i k : code_of t s = i :: k →
  match exec t k s i with
  | Ok s' => Inv s'
  | Throw e => ∃ l w, i = ReleaseResources l w ∧ heap s !! l = None
  end.
Proof using Hi Hr.
  intros Ec. assert (Hok : (∃ s', exec t k s i = Ok s' ∧ Inv s') →
    match exec t k s i with Ok s' => Inv s' | Throw e => ∃ l w, i = ReleaseResources l w ∧ heap s !! l = None end) by by intros (s' & -> & ?).
  destruct i as [x src l|x src l|x|x p|l|l|l w|l|l|w l x|w l r x|l|l|l|l].
  - by eapply Hok, exec_RetainStrong.
  - by eapply Hok, exec_RetainWeak.
  - by eapply Hok, exec_New.
  - by eapply Hok, exec_Assign.
  - by eapply Hok, exec_ResetStrong.
  - by eapply Hok, exec_DropWeak.
  - destruct (heap s !! l) as [o|] eqn:El.
    + eapply Hok, exec_ReleaseResources; [done|exact Ec|by rewrite El].
    + cbn [exec]; unfold_steps. unfold deref. rewrite El. by exists l, w.
  - by eapply Hok, exec_Delete.
  - by eapply Hok, exec_ResetWeak.
  - by eapply Hok, exec_LockLoad.
  - by eapply Hok, exec_LockCAS.
  - by eapply Hok, exec_CheckOwned.
  - eapply Hok, (exec_CheckWeak t k s Hi _ l); auto.
  - eapply Hok, (exec_CheckWeak t k s Hi _ l); auto.
  - eapply Hok, (exec_CheckWeak t k s Hi _ l); auto.
Qed.
End steps.

(** ** Calls *)
Definition held (f : var → loc → Z) (x : var) (p : option loc) : Z := match p with Some l => f x l | None => 0 end.

Lemma sums_put_var m x p s :
  S_ m (put_var x p s) = S_ m s - held (strong_at m) x (vars s !! x) + held (strong_at m) x p ∧
  W_ m (put_var x p s) = W_ m s - held (weak_at m) x (vars s !! x) + held (weak_at m) x p ∧
  X_ m (put_var x p s) = X_ m s ∧ R_ m (put_var x p s) = R_ m s ∧ D_ m (put_var x p s) = D_ m s.
Proof.
  unfold S_, W_. rewrite !vsum_put. unfold weight_at, held.
  change (csum ?g (put_var x p s)) with (csum g s). split; [lia|]. split; [lia|]. done.
Qed.

Lemma held_kind m x y p : is_strong x = is_strong y →
  held (strong_at m) x p = held (strong_at m) y p ∧ held (weak_at m) x p = held (weak_at m) y p.
Proof. intros E. destruct p; [|done]. cbn. unfold strong_at, weak_at. by rewrite E. Qed.

Section calls.
Context (t : nat) (s : State) (Hi : Inv s) (Ec : code_of t s = []).

(** A call that takes the target out of [y] and goes on with the code [c]. *)
Lemma take_step y c : owner y = t →
  (∀ m, lsum (iS m) c = held (strong_at m) y (vars s !! y) ∧ lsum (iW m) c = held (weak_at m) y (vars s !! y) ∧
    lsum (iX m) c = 0 ∧ lsum (iR m) c = 0 ∧ lsum (iD m) c = 0) →
  code_ok (put_code t c (put_var y None s)) t c → Inv (put_code t c (put_var y None s)).
Proof using Hi Ec.
  intros Hy Hc Hok. eapply (neutral_step t s); try done.
  - intros m. destruct (sums_put_code m t c (put_var y None s)) as (-> & -> & -> & -> & ->).
    destruct (sums_put_var m y None s) as (-> & -> & -> & -> & ->). destruct (Hc m) as (-> & -> & -> & -> & ->).
    change (code_of t (put_var y None s)) with (code_of t s). rewrite Ec. cbn. lia.
  - intros u Hu. by rewrite code_of_put, decide_False.
  - intros x l Hx Ex. cbn. rewrite lookup_partial_alter_ne; [done|]. intros ->. congruence.
  - by rewrite code_of_put, decide_True.
Qed.

Lemma reset_call y : dest t y → Inv (reset t y s).
Proof using Hi Ec.
  intros Hy. apply take_step; [by destruct y| |].
  - intros m. destruct y, (vars s !! _); try done; cbn; unfold strong_at, weak_at; cbn; split_and!; done || lia.
  - apply plain_ok. destruct y, (vars s !! _); try done; by repeat constructor.
Qed.

Lemma move_step x y : dest t x → dest t y → is_strong x = is_strong y → Inv (move_assign t x y s).
Proof using Hi Ec.
  intros Hx Hy Hk. apply take_step; [by destruct y| |apply plain_ok; by repeat constructor].
  intros m. destruct (held_kind m x y (vars s !! y) Hk) as [<- <-].
  destruct (vars s !! y); cbn; rewrite ?Z.add_0_r; done.
Qed.

Lemma reclaim_step x r : dest t x → owner r = t → is_strong x = is_strong r → Inv (reclaim t x r s).
Proof using Hi Ec.
  intros Hx Hr Hk. apply take_step; [done| |].
  - intros m. destruct (held_kind m x r (vars s !! r) Hk) as [<- <-].
    destruct (vars s !! r), x; try done; cbn; rewrite ?Z.add_0_r; done.
  - destruct (vars s !! r) as [l|]; [|by apply plain_ok; repeat constructor].
    destruct x; try done; (split; [|by repeat constructor]); cbn; unfold strong_at, weak_at; cbn; rewrite here_self; lia.
Qed.

Lemma release_step r x : owner x = t → vars s !! r = None → r ≠ x → is_strong r = is_strong x → Inv (release r x s).
Proof using Hi Ec.
  intros Hx Hr Hne Hk. eapply (neutral_step t s); try done.
  - intros m. unfold release. destruct (sums_put_var m r (vars s !! x) (put_var x None s)) as (-> & -> & -> & -> & ->).
    destruct (sums_put_var m x None s) as (-> & -> & -> & -> & ->).
    assert (vars (put_var x None s) !! r = None) as -> by (cbn; by rewrite lookup_partial_alter_ne).
    destruct (held_kind m r x (vars s !! x) Hk) as [-> ->]. cbn. lia.
  - intros y l Hy Ey. cbn. rewrite !lookup_partial_alter_ne; [done|congruence..].
  - change (code_of t (release r x s)) with (code_of t s). by rewrite Ec.
Qed.

Lemma copy_step x y : dest t x → owner y = t → (is_strong x = true → is_strong y = true) → Inv (copy_assign t x y s).
Proof using Hi Ec.
  intros Hx Hy Hk. apply code_step; [done| |].
  - intros m. rewrite Ec. destruct (vars s !! y); [destruct x|]; done.
  - destruct (vars s !! y) as [l|] eqn:E; [|by apply plain_ok; repeat constructor].
    destruct x; try done; (split; [|constructor]); cbn; split_and!; auto.
Qed.
End calls.

(** What a client must not do: overwrite an owning raw pointer, or lock a null weak
    pointer; a pointer is handed to another thread into a null one of its kind. *)
Definition admissible (a : label) (s : State) : Prop :=
  match a with
  | Call t (Release k _) => vars s !! Owning t k = None
  | Call t (WeakRelease k _) => vars s !! OwningWeak t k = None
  | Call t (Lock _ j) => is_Some (vars s !! WeakPtr t j)
  | Call t (Give x y) => owner x = t ∧ vars s !! y = None ∧ y ≠ x ∧ is_strong y = is_strong x
  | _ => True
  end.

Lemma start_lemma t o s : Inv s → code_of t s = [] → admissible (Call t o) s → ∃ s', start t o s = Ok s' ∧ Inv s'.
Proof.
  intros Hi Ec Ha. destruct o as [i|i j|i j|i|k i|i k|i j|i j|i j|i|k i|i k|i j|x y]; cbn in *.
  - eexists. split; [done|]. apply code_step; [done| |by repeat split]. intros m. by rewrite Ec.
  - eexists. split; [done|]. by apply copy_step.
  - eexists. split; [done|]. by apply move_step.
  - eexists. split; [done|]. by apply reset_call.
  - eexists. split; [done|]. by apply (release_step t).
  - eexists. split; [done|]. by apply reclaim_step.
  - eexists. split; [done|]. by apply copy_step.
  - eexists. split; [done|]. by apply copy_step.
  - eexists. split; [done|]. by apply move_step.
  - eexists. split; [done|]. by apply reset_call.
  - eexists. split; [done|]. by apply (release_step t).
  - eexists. split; [done|]. by apply reclaim_step.
  - destruct Ha as [l El]. rewrite El. eexists. split; [done|]. apply code_step; [done| |].
    + intros m. by rewrite Ec.
    + split; [|constructor]. by cbn.
  - eexists. split; [done|]. destruct Ha as (? & ? & ? & ?). by apply (release_step t).
Qed.

(** ** Any step of any thread *)
Definition late_release (a : label) (s : State) : Prop :=
  ∃ t l w k, a = Run t ∧ code_of t s = ReleaseResources l w :: k ∧ heap s !! l = None.

Lemma perform_lemma a s : Inv s → roomy s → admissible a s →
  match perform a s with Ok s' => Inv s' | Throw e => late_release a s end.
Proof.
  intros Hi Hr Ha. destruct a as [t o|t|t]; cbn [perform].
  - destruct (code_of t s) as [|i k] eqn:Ec; [|done]. destruct (start_lemma t o s Hi Ec Ha) as (s' & -> & ?). done.
  - destruct (code_of t s) as [|i k] eqn:Ec; [done|]. pose proof (exec_lemma t s Hi Hr i k Ec) as Hx.
    destruct (exec t k s i) as [s'|e]; [done|]. destruct Hx as (l & w & -> & ?). by exists t, l, w, k.
  - destruct (code_of t s) as [|i k] eqn:Ec; [done|]. destruct i; try done.
    pose proof (inv_code s Hi t) as Hok. rewrite Ec in Hok. destruct Hok as ((_ & H2 & _) & _).
    destruct (alive l s Hi) as [o El]; [pose proof (sums_var l w s H2); destruct (is_strong w); auto|].
    unfold deref. rewrite El, Ok_bind. apply lock_step; [done|eauto].
Qed.

Lemma Inv_initial : Inv initial.
Proof.
  split; try done; intros l; try done; [by cbn; lia..|]. intros newer older E. by destruct newer.
Qed.

(** ** Dead objects stay dead *)
Lemma exec_dead t i k s s' l : Inv s → code_of t s = i :: k → exec t k s i = Ok s' → (l < fresh s)%positive →
  S_ l s = 0 → S_ l s' = 0.
Proof.
  intros Hi Ec E Hl H0. pose proof (inv_code s Hi t) as Hok. rewrite Ec in Hok. destruct Hok as [Hh Hk].
  assert (Hstep : ∀ c, vars s' = vars s → code s' = <[t := c ++ k]> (code s) → lsum (iS l) c = 0 → S_ l s' = 0).
  { intros c Hv Hc Hz. destruct (sums_step l t (c ++ k) s s' Hv Hc) as (E1 & _). rewrite Ec, lsum_cons, lsum_app in E1.
    pose proof (sums_nonneg l s'). pose proof (iS_nonneg l i). lia. }
  assert (Hdead : ∀ x m, is_strong x = true → 1 ≤ S_ m s → lsum (iS l) [Assign x (Some m)] = 0).
  { intros x m Hx Hm. cbn. unfold strong_at. rewrite Hx, here_ne; [done|]. intros <-. lia. }
  destruct i; cbn [exec] in E; unfold_steps_in E; unfold deref in E.
  - destruct (heap s !! l0); [|done]. rewrite Ok_bind in E. apply AT_CHECK_bind_Ok in E as [_ <-%Ok_inj].
    destruct Hh as (_ & Hs & Hv & _ & Hx). pose proof (sums_var _ _ s Hv) as H1. rewrite Hs in H1. by eapply (Hstep [_]); [..|apply Hdead].
  - destruct (heap s !! l0); [|done]. rewrite Ok_bind in E. apply AT_CHECK_bind_Ok in E as [_ <-%Ok_inj].
    destruct Hh as (_ & _ & _ & Hx). eapply (Hstep [_]); [done..|]. cbn. unfold strong_at. by rewrite Hx.
  - injection E as <-. destruct Hh as (_ & Hx). eapply (Hstep [_]); [done..|]. cbn. unfold strong_at. rewrite Hx, here_ne by lia. done.
  - injection E as <-. cbn in Hh.
    destruct (sums_put_code l t (reset_ x (vars s !! x) ++ k) (put_var x p s)) as (-> & _).
    destruct (sums_put_var l x p s) as (-> & _). change (code_of t (put_var x p s)) with (code_of t s).
    rewrite Ec, lsum_app, lsum_cons. destruct x; try done; destruct p, (vars s !! _); cbn; lia.
  - destruct (heap s !! l0); [|done]. injection E as <-. apply (Hstep _ ltac:(done) ltac:(done)). by case_if.
  - destruct (heap s !! l0); [|done]. injection E as <-. by eapply (Hstep [_]).
  - destruct (heap s !! l0); [|done]. injection E as <-. apply (Hstep _ ltac:(done) ltac:(done)). by case_if.
  - destruct (heap s !! l0); [|done]. rewrite Ok_bind in E. apply outcome_bind_Ok in E as (? & _ & <-%Ok_inj). by apply (Hstep []).
  - destruct (heap s !! l0); [|done]. injection E as <-. apply (Hstep _ ltac:(done) ltac:(done)). by case_if.
  - destruct (heap s !! l0); [|done]. injection E as <-. apply (Hstep _ ltac:(done) ltac:(done)). unfold lock_loop. by case_if.
  - destruct (heap s !! l0) as [o|] eqn:El; [|done]. rewrite Ok_bind in E. destruct (Z.eqb_spec (refcount_ o) refcount) as [Er|].
    + injection E as <-. destruct Hh as (_ & _ & _ & Hx & Hne). destruct (inv_object s Hi _ o El) as (Eref & _).
      pose proof (sums_nonneg l0 s). eapply (Hstep [_]); [done..|]. apply Hdead; [done|lia].
    + injection E as <-. apply (Hstep _ ltac:(done) ltac:(done)). unfold lock_loop. by case_if.
  - destruct (heap s !! l0); [|done]. rewrite Ok_bind in E. apply AT_CHECK_bind_Ok in E as [_ <-%Ok_inj]. by apply (Hstep []).
  - destruct (heap s !! l0) as [o|]; [|done]. injection E as <-. destruct (1 <? weakcount_ o); [by apply (Hstep [])|by eapply (Hstep [_])].
  - destruct (heap s !! l0); [|done]. rewrite Ok_bind in E. apply AT_CHECK_bind_Ok in E as [_ <-%Ok_inj]. by eapply (Hstep [_]).
  - destruct (heap s !! l0); [|done]. rewrite Ok_bind in E. apply AT_CHECK_bind_Ok in E as [_ <-%Ok_inj]. by apply (Hstep []).
Qed.
