(* ===== verification/RefCountProperties.v ===== *)
(** * The properties of the reference counts

    In every interleaving of any number of threads: the counts are exact, a dead
    object stays dead, nothing leaks, and the only thing that can go wrong is
    [release_resources] on an object that a weak pointer's owner deleted in the
    meantime, which [release_race] shows to happen. *)
From S2P Require Import Prelude RefCount RefCountSpec RefCountSteps.
Local Open Scope Z_scope.
Import RefCount.

(** The states that the steps of kind [P] lead to. *)
Inductive reachable (P : label → Prop) : State → Prop :=
  | reachable_initial : reachable P initial
  | reachable_step a s s' : reachable P s → P a → roomy s → admissible a s → perform a s = Ok s' → reachable P s'.

Definition any (a : label) : Prop := True.
(** Programs that make no weak pointers. *)
Definition strong_only (a : label) : Prop := match a with Call _ (Downgrade _ _) => False | _ => True end.

Lemma refs_Inv P s : reachable P s → Inv s.
Proof.
  induction 1 as [|a s s' _ IH _ Hr Ha E]; [apply Inv_initial|].
  pose proof (perform_lemma a s IH Hr Ha) as Hp. by rewrite E in Hp.
Qed.

Lemma reachable_any P s : reachable P s → reachable any s.
Proof. induction 1; [constructor|]. by eapply reachable_step. Qed.

(** ** Without weak pointers *)
Definition strong_instr (i : instr) : Prop :=
  match i with
  | RetainStrong x _ _ | New x => is_strong x = true
  | Assign x p => p = None ∨ is_strong x = true
  | ResetStrong _ | DropWeak _ | Delete _ | CheckOwned _ => True
  | ReleaseResources _ w => w = 0
  | _ => False
  end.
Record strong_state (s : State) : Prop := {
  strong_vars x l : vars s !! x = Some l → is_strong x = true;
  strong_code t : Forall strong_instr (code_of t s)
}.

Lemma strong_no_weak s l : strong_state s → W_ l s = 0.
Proof.
  intros [Hv Hc]. unfold W_. assert (vsum (weak_at l) s = 0) as ->.
  { apply msum_zero. intros x m E. unfold weak_at. by rewrite (Hv x m E). }
  apply msum_zero. intros t c E. specialize (Hc t). unfold code_of in Hc. rewrite E in Hc. cbn in Hc.
  clear E. induction Hc as [|i c Hi Hc IH]; [done|]. rewrite lsum_cons, IH.
  destruct i as [| | |x [m|]| | | | | | | | | | |]; try done. cbn in *. unfold weak_at. destruct Hi as [|Hx]; [done|by rewrite Hx].
Qed.

Lemma strong_one i : strong_instr i → Forall strong_instr [i].
Proof. intros Hx. by constructor. Qed.

Lemma strong_put t c s : strong_state s → Forall strong_instr c → strong_state (put_code t c s).
Proof.
  intros [Hv Hc] Hf. split; [done|]. intros u. rewrite code_of_put. by case_decide.
Qed.
Lemma strong_heap h s : strong_state s → strong_state (set_heap h s).
Proof. by intros []. Qed.
Lemma strong_put_var x p s : strong_state s → p = None ∨ is_strong x = true → strong_state (put_var x p s).
Proof.
  intros [Hv Hc] Hx. split; [|done]. intros y l. cbn. destruct (decide (x = y)) as [<-|].
  - rewrite lookup_partial_alter_eq. intros ->. by destruct Hx.
  - rewrite lookup_partial_alter_ne by done. apply Hv.
Qed.
Lemma strong_reset x s : strong_state s → Forall strong_instr (reset_ x (vars s !! x)).
Proof.
  intros [Hv _]. destruct (vars s !! x) as [l|] eqn:E; [|by destruct x].
  specialize (Hv x l E). destruct x; try done; by repeat constructor.
Qed.

Lemma strong_start t o s s' : strong_state s → strong_only (Call t o) → admissible (Call t o) s →
  start t o s = Ok s' → strong_state s'.
Proof.
  intros Hs Ho Ha E. pose proof (strong_vars s Hs) as Hv.
  assert (Hw : ∀ x, is_strong x = false → vars s !! x = None).
  { intros x Hx. destruct (vars s !! x) eqn:Ex; [|done]. apply Hv in Ex. congruence. }
  assert (Hcopy : ∀ x y, dest t x → is_strong x = is_strong y → strong_state (copy_assign t x y s)).
  { intros x y Hd Hxy. apply strong_put; [done|]. destruct (vars s !! y) as [l|] eqn:Ey; [|by apply strong_one; left].
    apply Hv in Ey. destruct x; try done; try (cbn in Hxy; congruence). by apply strong_one. }
  assert (Hmove : ∀ x y, is_strong x = is_strong y → strong_state (move_assign t x y s)).
  { intros x y Hxy. apply strong_put; [by apply strong_put_var; [|left]|]. apply strong_one. cbn.
    destruct (is_strong x) eqn:Ex; [by right|left]. by apply Hw. }
  assert (Hreset : ∀ x, strong_state (reset t x s)).
  { intros x. apply strong_put; [by apply strong_put_var; [|left]|by apply strong_reset]. }
  assert (Hrelease : ∀ r x, is_strong r = is_strong x → strong_state (release r x s)).
  { intros r x Hrx. apply strong_put_var; [by apply strong_put_var; [|left]|].
    destruct (is_strong r) eqn:Er; [by right|left]. by apply Hw. }
  assert (Hreclaim : ∀ x r, dest t x → is_strong x = is_strong r → strong_state (reclaim t x r s)).
  { intros x r Hd Hxr. apply strong_put; [by apply strong_put_var; [|left]|].
    destruct (vars s !! r) as [l|] eqn:Er; [|by apply strong_one; left].
    apply Hv in Er. destruct x; try done; try (cbn in Hxr; congruence). constructor; [done|]. apply strong_one. by right. }
  destruct o; cbn in E; try (injection E as <-); auto; try done.
  - apply strong_put; [done|]. by apply strong_one.
  - by apply Hcopy.
  - by apply Hreclaim.
  - by apply Hcopy.
  - by apply Hreclaim.
  - cbn in Ha. rewrite Hw in Ha by done. by destruct Ha.
  - destruct Ha as (_ & _ & _ & ?). by apply Hrelease.
Qed.

Lemma strong_exec t k s i s' : Inv s → roomy s → strong_state s → code_of t s = i :: k → exec t k s i = Ok s' → strong_state s'.
Proof.
  intros Hi Hr Hs Ec E. pose proof (strong_code s Hs t) as Hf. rewrite Ec in Hf. inversion_clear Hf as [|? ? Hx Hk].
  assert (Hput : ∀ c h, Forall strong_instr c → strong_state (put_code t (c ++ k) (set_heap h s))).
  { intros c h Hc. apply strong_put; [by apply strong_heap|]. by apply Forall_app. }
  destruct i; cbn [exec] in E; unfold_steps_in E; try done; unfold deref in E.
  - destruct (heap s !! l); [|done]. rewrite Ok_bind in E. apply AT_CHECK_bind_Ok in E as [_ <-%Ok_inj].
    apply (Hput [_]), strong_one. by right.
  - injection E as <-. destruct Hs as [Hv Hc]. split; [done|]. intros u. change (Forall strong_instr (code_of u (put_code t (Assign x (Some (fresh s)) :: k) s))).
    rewrite code_of_put. case_decide; [|done]. constructor; [by right|done].
  - injection E as <-. apply strong_put; [by apply strong_put_var|]. apply Forall_app. split; [by apply strong_reset|done].
  - destruct (heap s !! l); [|done]. injection E as <-. apply Hput. by case_if.
  - destruct (heap s !! l) as [o|] eqn:El; [|done]. injection E as <-. apply (Hput [_]), strong_one. cbn.
    destruct (object_facts l o s Hi El) as [(Hfr & _ & Hrel & _) _]. destruct (inv_object s Hi l o El) as (_ & Ew & _).
    destruct (sums_code l t s) as (_ & _ & HX & _). rewrite Ec, lsum_cons in HX. cbn in HX. rewrite here_self in HX.
    pose proof (lsum_nonneg (iX l) k (iX_nonneg l)). pose proof (sums_nonneg l s).
    assert (0 ≤ ev (Released l) s) by (apply lsum_nonneg; intros; case_decide; lia).
    rewrite (strong_no_weak s l Hs) in Ew. destruct (Z.eqb_spec (S_ l s) 0); [|lia].
    rewrite size_t_in by lia. lia.
  - destruct (heap s !! l); [|done]. injection E as <-. assert (strong_state (put_code t ((if weak_count =? 0 then [Delete l] else []) ++ k) s)) as [? ?]; [|done].
    apply strong_put; [done|]. apply Forall_app. split; [by case_if|done].
  - destruct (heap s !! l); [|done]. rewrite Ok_bind in E. apply outcome_bind_Ok in E as (? & _ & <-%Ok_inj).
    by destruct (Hput [] (delete l (heap s))).
  - destruct (heap s !! l); [|done]. rewrite Ok_bind in E. apply AT_CHECK_bind_Ok in E as [_ <-%Ok_inj]. by apply strong_put.
Qed.

Lemma reachable_strong s : reachable strong_only s → strong_state s.
Proof.
  induction 1 as [|a s s' Hs IH Hp Hr Ha E]; [split; [done|constructor]|].
  destruct a as [t o|t|t]; cbn [perform] in E.
  - destruct (code_of t s); [|by injection E as <-]. by eapply strong_start.
  - destruct (code_of t s) eqn:Ec; [by injection E as <-|]. eapply strong_exec; [by eapply refs_Inv|done..].
  - pose proof (strong_code s IH t) as Hf. destruct (code_of t s) as [|i k]; [by injection E as <-|].
    inversion_clear Hf as [|? ? Hi Hk]. destruct i; try done; by injection E as <-.
Qed.

(** ** The claims *)

(** The references to [l] that the pointers of all threads are. *)
Definition strong_refs (l : loc) (s : State) : Z := vsum (strong_at l) s.
Definition weak_refs (l : loc) (s : State) : Z := vsum (weak_at l) s.
Definition quiet (s : State) : Prop := ∀ t, code_of t s = [].

Lemma quiet_sum g s : quiet s → csum g s = 0.
Proof.
  intros Hq. apply msum_zero. intros t c E. specialize (Hq t). unfold code_of in Hq. rewrite E in Hq. cbn in Hq. by rewrite Hq.
Qed.

(** C29: In every interleaving no operation of the smart pointers fails: no assertion,
    no access to an object that was deleted, no exception out of a destructor.  The
    one exception is [release_resources] on an object that was deleted while the
    thread that dropped the last strong pointer had not called it yet. *)
Theorem refcount_safe s a : reachable any s → roomy s → admissible a s →
  match perform a s with
  | Ok s' => reachable any s'
  | Throw e => ∃ t l w k, a = Run t ∧ code_of t s = ReleaseResources l w :: k ∧ heap s !! l = None
  end.
Proof.
  intros Hs Hr Ha. pose proof (perform_lemma a s (refs_Inv any s Hs) Hr Ha) as Hp.
  destruct (perform a s) as [s'|e] eqn:E; [by eapply reachable_step|exact Hp].
Qed.

(** A program that makes no weak pointers is safe without exception: every step of
    every interleaving returns. *)
Theorem refcount_safe_without_weak s a : reachable strong_only s → strong_only a → roomy s → admissible a s →
  ∃ s', perform a s = Ok s' ∧ reachable strong_only s'.
Proof.
  intros Hs Hp Hr Ha. pose proof (refs_Inv _ s Hs) as Hi. pose proof (perform_lemma a s Hi Hr Ha) as Hx.
  destruct (perform a s) as [s'|e] eqn:E; [exists s'; split; [done|by eapply reachable_step]|].
  destruct Hx as (t & l & w & k & -> & Ec & El). exfalso.
  pose proof (strong_code s (reachable_strong s Hs) t) as Hf. rewrite Ec in Hf. inversion_clear Hf as [|? ? Hw Hk]. cbn in Hw. subst w.
  destruct (inv_gone s Hi l El) as (_ & _ & _ & HD). destruct (sums_code l t s) as (_ & _ & _ & _ & Hc).
  rewrite Ec, lsum_cons in Hc. cbn in Hc. rewrite here_self in Hc. pose proof (lsum_nonneg (iD l) k (iD_nonneg l)). lia.
Qed.

(** C31: The counters are exact: when no operation is under way, every pointer reads as
    [use_count] the number of strong pointers to its object, over all threads, and
    as [weak_use_count] the number of weak ones, plus one while a strong one is left. *)
Theorem use_count_exact s x l : reachable any s → quiet s → vars s !! x = Some l →
  use_count x s = Ok (strong_refs l s) ∧
  weak_use_count x s = Ok (weak_refs l s + (if strong_refs l s =? 0 then 0 else 1)) ∧
  (is_strong x = true → 1 ≤ strong_refs l s).
Proof.
  intros Hs Hq Hx. pose proof (refs_Inv any s Hs) as Hi. pose proof (sums_var l x s Hx) as H1.
  assert (ES : S_ l s = strong_refs l s) by (unfold S_; rewrite (quiet_sum (iS l)) by done; unfold strong_refs; lia).
  assert (EW : W_ l s = weak_refs l s) by (unfold W_; rewrite (quiet_sum (iW l)) by done; unfold weak_refs; lia).
  destruct (alive l s Hi) as [o El]; [destruct (is_strong x); auto|]. destruct (inv_object s Hi l o El) as (Er & Ew & _).
  unfold X_ in Ew. rewrite (quiet_sum (iX l)), ES, EW in Ew by done. rewrite ES in Er.
  unfold use_count, weak_use_count, deref. rewrite Hx, El. cbn. rewrite Er, Ew, Z.add_0_r, <- ES. split; [done|]. split; [done|].
  intros Hk. by rewrite Hk in H1.
Qed.

(** C30: Nothing leaks: when all pointers are gone and no operation is under way, every
    object that was made has been deleted, exactly once, and its resources were
    released exactly once, before that. *)
Theorem no_leak s : reachable any s → quiet s → vars s = ∅ →
  heap s = ∅ ∧ ∀ l, (l < fresh s)%positive →
    ev (Released l) s = 1 ∧ ev (Deleted l) s = 1 ∧
    ∀ newer older, log s = newer ++ Deleted l :: older → Released l ∈ older.
Proof.
  intros Hs Hq Hv. pose proof (refs_Inv any s Hs) as Hi.
  assert (Hz : ∀ l, S_ l s = 0 ∧ W_ l s = 0 ∧ X_ l s = 0 ∧ R_ l s = 0 ∧ D_ l s = 0).
  { intros l. unfold S_, W_, X_, R_, D_. rewrite !quiet_sum by done. unfold vsum. rewrite Hv. done. }
  assert (He : heap s = ∅).
  { apply map_empty. intros l. destruct (heap s !! l) as [o|] eqn:El; [|done]. exfalso.
    destruct (inv_object s Hi l o El) as (_ & Ew & Ed). destruct (Hz l) as (HS & HW & HX & _ & HD). rewrite HS, HW, HX in Ew. cbn in Ew.
    rewrite HD, Ew in Ed. done. }
  split; [done|]. intros l Hl. destruct (Hz l) as (HS & _ & HX & HR & _). pose proof (inv_released s Hi l Hl) as Hrel.
  pose proof (inv_deleted s Hi l Hl) as Hdel. rewrite He, lookup_empty in Hdel. rewrite HS, HX, HR in Hrel. cbn in Hrel.
  split; [lia|]. split; [done|]. intros newer older El. destruct (inv_order s Hi l newer older El); [done|lia].
Qed.

(** Once the last strong pointer is gone the object stays dead: no step of any
    thread, a [lock] in progress included, makes its reference count positive again. *)
Theorem dead_stays_dead s a s' l o o' : reachable any s → roomy s → admissible a s → perform a s = Ok s' →
  heap s !! l = Some o → refcount_ o = 0 → heap s' !! l = Some o' → refcount_ o' = 0.
Proof.
  intros Hs Hr Ha E El H0 El'. pose proof (refs_Inv any s Hs) as Hi.
  assert (Hi' : Inv s') by (pose proof (perform_lemma a s Hi Hr Ha) as Hp; by rewrite E in Hp).
  assert (Hsame : heap s' = heap s → refcount_ o' = 0) by (intros Eh; rewrite Eh in El'; congruence).
  destruct a as [t c|t|t]; cbn [perform] in E.
  - apply Hsame. destruct (code_of t s); [|by injection E as <-].
    destruct c; cbn in E; try (by injection E as <-). destruct (vars s !! _); [by injection E as <-|done].
  - destruct (code_of t s) as [|i k] eqn:Ec; [by injection E as <-; auto|].
    destruct (object_facts l o s Hi El) as [(Hfr & _) _]. destruct (inv_object s Hi l o El) as (Er & _). destruct (inv_object s' Hi' l o' El') as (Er' & _).
    rewrite Er'. apply (exec_dead t i k s s' l); try done. lia.
  - apply Hsame. destruct (code_of t s) as [|i k]; [by injection E as <-|]. destruct i; try (by injection E as <-).
    unfold deref in E. destruct (heap s !! l0); [by injection E as <-|done].
Qed.

(** ** The race *)

(** Thread 0 drops the last strong pointer while thread 1 drops the last weak one. *)
Definition race : list label :=
  [Call 0 (Make 0); Run 0; Run 0;                          (* p = make_intrusive *)
   Call 0 (Downgrade 0 0); Run 0; Run 0;                   (* w = weak_intrusive_ptr(p) *)
   Call 0 (Give (WeakPtr 0 0) (WeakPtr 1 0));              (* w goes to thread 1 *)
   Call 0 (Reset 0); Run 0; Run 0;                         (* p.reset(): the counts are 0 and 1 *)
   Call 1 (WeakReset 0); Run 1; Run 1].                    (* w.reset(): the object is deleted *)

(** The exception of [refcount_safe] happens: [reset_] decrements the weak count
    before it calls [release_resources], so that a weak pointer that another thread
    drops in between deletes the object, and [release_resources] is called on it
    afterwards. *)
Theorem release_race :
  ∃ s, run race initial = Ok s ∧ heap s = ∅ ∧ log s = [Deleted 1%positive] ∧
    code_of 0 s = [ReleaseResources 1 1] ∧ perform (Run 0) s = Throw (Undefined "use after free").
Proof. eexists. split; [vm_compute; reflexivity|]. split_and!; vm_compute; reflexivity. Qed.

(** ** Runs *)
Module Samples.
(** A pointer of thread 0, a copy of it that thread 1 was given, and a weak pointer. *)
Definition setup : list label :=
  [Call 0 (Make 0); Run 0; Run 0; Call 0 (Copy 1 0); Run 0; Run 0; Call 0 (Give (Ptr 0 1) (Ptr 1 0));
   Call 1 (Downgrade 0 0); Run 1; Run 1].
Definition ends : list label :=
  [Call 0 (Reset 0); Call 1 (Reset 0); Run 1; Run 0; Run 0; Run 0; Call 1 (WeakReset 0); Run 1; Run 1].

Definition after (schedule : list label) : State := default initial (match run schedule initial with Ok s => Some s | _ => None end).

(** The references that the pointers and the codes mention, at most one each. *)
Definition mentions (s : State) : Z := vsum (λ _ _, 1) s + csum (λ _, 1) s.

Lemma here_le l m : here l m ≤ 1.
Proof. unfold here. case_decide; lia. Qed.

Lemma roomy_small s : mentions s < 2 ^ 64 - 2 → roomy s.
Proof.
  intros Hm l. unfold S_, W_, X_, mentions in *.
  assert (vsum (strong_at l) s ≤ vsum (λ _ _, 1) s) by (apply msum_mono; intros x m; unfold strong_at; pose proof (here_le l m); destruct (is_strong x); lia).
  assert (vsum (weak_at l) s ≤ vsum (λ _ _, 1) s) by (apply msum_mono; intros x m; unfold weak_at; pose proof (here_le l m); destruct (is_strong x); lia).
  assert (csum (iS l) s ≤ csum (λ _, 1) s).
  { apply msum_mono. intros t c. apply lsum_mono. intros i. destruct i as [| | |x [m|]|m| | | | | | | | | |]; cbn; unfold strong_at; try pose proof (here_le l m); try lia.
    destruct (is_strong x); lia. }
  assert (csum (iW l) s + csum (iX l) s ≤ csum (λ _, 1) s); [|lia].
  unfold csum. rewrite msum_plus. apply msum_mono. intros t c. rewrite lsum_plus. apply lsum_mono.
  intros i. destruct i as [| | |x [m|]|m|m|m|m|m| | | | | |]; cbn; unfold weak_at; try pose proof (here_le l m); try lia.
  destruct (is_strong x); lia.
Qed.

#[global] Instance admissible_dec a s : Decision (admissible a s).
Proof. destruct a as [t []|t|t]; cbn; apply _. Defined.

(** A schedule whose every step may be taken. *)
Fixpoint checked (schedule : list label) (s : State) : bool :=
  match schedule with
  | [] => true
  | a :: schedule =>
      bool_decide (admissible a s) && (mentions s <? 2 ^ 64 - 2) &&
      match perform a s with Ok s' => checked schedule s' | Throw _ => false end
  end.

Lemma checked_reachable P schedule s : reachable P s → Forall P schedule → checked schedule s = true →
  ∃ s', run schedule s = Ok s' ∧ reachable P s'.
Proof.
  revert s. induction schedule as [|a schedule IH]; intros s Hs Hf; [by exists s|].
  inversion_clear Hf as [|? ? Ha Hf']. cbn. rewrite !andb_true_iff, bool_decide_eq_true, Z.ltb_lt. intros [[Had Hm] Hc].
  destruct (perform a s) as [s'|e] eqn:E; [|done]. apply IH; [|done..]. eapply reachable_step; [done..|by apply roomy_small|done|exact E].
Qed.

Lemma after_reachable (P : label → Prop) schedule : Forall P schedule → checked schedule initial = true → reachable P (after schedule).
Proof.
  intros Hf Hc. destruct (checked_reachable P schedule initial (reachable_initial P) Hf Hc) as (s' & E & Hs'). unfold after. by rewrite E.
Qed.

Lemma any_all schedule : Forall any schedule.
Proof. induction schedule; by constructor. Qed.

Definition start_ : State := after setup.
Definition end_ : State := after (setup ++ ends).
Lemma start_reachable : reachable any start_.
Proof. apply after_reachable; [apply any_all|by vm_compute]. Qed.
Lemma end_reachable : reachable any end_.
Proof. apply after_reachable; [apply any_all|by vm_compute]. Qed.
Definition strong_setup : list label := [Call 0 (Make 0); Run 0; Run 0; Call 0 (Reset 0); Run 0; Run 0; Run 0].
Lemma strong_reachable : reachable strong_only (after strong_setup).
Proof. apply after_reachable; [by repeat constructor|by vm_compute]. Qed.
Lemma quiet_check s : forallb (λ c, bool_decide (c.2 = [])) (map_to_list (code s)) = true → quiet s.
Proof.
  intros Hf t. unfold code_of. destruct (code s !! t) as [c|] eqn:E; [|done]. rewrite forallb_forall in Hf.
  specialize (Hf (t, c)). rewrite bool_decide_eq_true in Hf. apply Hf. by apply list_elem_of_In, elem_of_map_to_list.
Qed.
(** Thread 0 has dropped the last strong pointer, thread 1 is about to lock. *)
Definition dying : State := after (setup ++ [Call 0 (Reset 0); Run 0; Call 1 (Reset 0); Run 1; Run 1; Run 1; Call 1 (Lock 1 0)]).
Lemma dying_reachable : reachable any dying.
Proof. apply after_reachable; [apply any_all|by vm_compute]. Qed.
End Samples.

Lemma refcount_safe_witness :
  match perform (Call 0 (Reset 0)) Samples.start_ with
  | Ok s' => reachable any s'
  | Throw e => ∃ t l w k, Call 0 (Reset 0) = Run t ∧ code_of t Samples.start_ = ReleaseResources l w :: k ∧ heap Samples.start_ !! l = None
  end.
Proof.
  apply (refcount_safe Samples.start_ (Call 0 (Reset 0)) Samples.start_reachable); [|exact I].
  apply Samples.roomy_small. by vm_compute.
Defined.

Lemma refcount_safe_without_weak_witness : ∃ s', perform (Run 0) (Samples.after Samples.strong_setup) = Ok s' ∧ reachable strong_only s'.
Proof.
  apply (refcount_safe_without_weak (Samples.after Samples.strong_setup) (Run 0) Samples.strong_reachable); [exact I| |exact I].
  apply Samples.roomy_small. by vm_compute.
Defined.

Lemma use_count_exact_witness : use_count (Ptr 1 0) Samples.start_ = Ok (strong_refs 1 Samples.start_) ∧ strong_refs 1 Samples.start_ = 2.
Proof.
  split; [|by vm_compute].
  apply (use_count_exact Samples.start_ (Ptr 1 0) 1%positive Samples.start_reachable); [apply Samples.quiet_check|]; by vm_compute.
Defined.

Lemma no_leak_witness : heap Samples.end_ = ∅ ∧ fresh Samples.end_ = 2%positive ∧ ev (Released 1) Samples.end_ = 1.
Proof.
  assert (quiet Samples.end_) as Hq by (apply Samples.quiet_check; by vm_compute).
  assert (vars Samples.end_ = ∅) as Hv by (vm_compute; reflexivity).
  destruct (no_leak Samples.end_ Samples.end_reachable Hq Hv) as [He Hl]. split; [exact He|]. split; [by vm_compute|].
  by apply (Hl 1%positive).
Defined.

Lemma dead_stays_dead_witness :
  match perform (Run 1) Samples.dying with
  | Ok s' => (refcount_ <$> heap s' !! 1%positive) = Some 0
  | Throw _ => False
  end.
Proof.
  assert (∃ s' o', perform (Run 1) Samples.dying = Ok s' ∧ heap s' !! 1%positive = Some o') as (s' & o' & E & El').
  { eexists _, _. split; vm_compute; reflexivity. }
  rewrite E, El'. cbn. f_equal.
  apply (dead_stays_dead Samples.dying (Run 1) s' 1%positive (mkTarget 0 1) o' Samples.dying_reachable); [|exact I|exact E|by vm_compute|done|exact El'].
  apply Samples.roomy_small. by vm_compute.
Defined.
