(* ===== verification/JitTypes.v ===== *)
(** * The types of the JIT (aten/src/ATen/core/jit_type.h, type.cpp)

    Types are shared and never changed once they are made, so that a [TypePtr] is
    the tree it points to; where the sources compare pointers the model compares
    trees.  [isSubtypeOf] and [operator==] are virtual, and each override is a
    branch.  ProfiledTensorType is not part of the tree. *)
From S2P Require Import Prelude Text CoreTypes ScalarTypes.
Local Open Scope Z_scope.
#[local] Set Warnings "-register-all".
Local Open Scope string_scope.
Import ScalarType.

Module JitTypes.

(** What a [DimensionedTensorType] knows of a tensor. *)
Record Dimensioned : Type := mkDimensioned {
  scalar_type_ : ScalarType;
  requires_grad_ : bool;
  device_ : Device;
  dim_ : Z
}.
#[export] Instance Dimensioned_eq_dec : EqDecision Dimensioned.
Proof. solve_decision. Defined.

Inductive Ty : Type :=
  | TensorType
  | AutogradZeroTensorType
  | DimensionedTensorType (d : Dimensioned)
  | CompleteTensorType (d : Dimensioned) (sizes_ strides_ : list Z)
  | TupleType (elements_ : list Ty) (names_ : option (list string))
  | ListType (elem : Ty)
  | DictType (key value : Ty)
  | NumberType
  | FloatType
  | FutureType (elem : Ty)
  | IntType
  | NoneType
  | StringType
  | GeneratorType
  | BoolType
  | OptionalType (elem : Ty)
  | VarType (name_ : string)
  | DeviceObjType
  | ClassType (qualifiedName_ : string) (attributeNames_ : list string) (attributeTypes_ : list Ty).

(** Induction that reaches the types inside tuples and classes. *)
Section Ty_induction.
Context (P : Ty → Prop).
Context (HTensor : P TensorType) (HZero : P AutogradZeroTensorType)
  (HDim : ∀ d, P (DimensionedTensorType d)) (HComplete : ∀ d si st, P (CompleteTensorType d si st))
  (HTuple : ∀ es ns, Forall P es → P (TupleType es ns)) (HList : ∀ t, P t → P (ListType t))
  (HDict : ∀ k v, P k → P v → P (DictType k v)) (HNumber : P NumberType) (HFloat : P FloatType)
  (HFuture : ∀ t, P t → P (FutureType t)) (HInt : P IntType) (HNone : P NoneType) (HString : P StringType)
  (HGenerator : P GeneratorType) (HBool : P BoolType) (HOptional : ∀ t, P t → P (OptionalType t))
  (HVar : ∀ x, P (VarType x)) (HDevice : P DeviceObjType) (HClass : ∀ q ns ts, Forall P ts → P (ClassType q ns ts)).

Fixpoint Ty_ind' (t : Ty) : P t :=
  let all := fix all (l : list Ty) : Forall P l :=
    match l with [] => Forall_nil P | t :: l => Forall_cons P t l (Ty_ind' t) (all l) end in
  match t with
  | TensorType => HTensor | AutogradZeroTensorType => HZero
  | DimensionedTensorType d => HDim d | CompleteTensorType d si st => HComplete d si st
  | TupleType es ns => HTuple es ns (all es) | ListType t => HList t (Ty_ind' t)
  | DictType k v => HDict k v (Ty_ind' k) (Ty_ind' v) | NumberType => HNumber | FloatType => HFloat
  | FutureType t => HFuture t (Ty_ind' t) | IntType => HInt | NoneType => HNone | StringType => HString
  | GeneratorType => HGenerator | BoolType => HBool | OptionalType t => HOptional t (Ty_ind' t)
  | VarType x => HVar x | DeviceObjType => HDevice | ClassType q ns ts => HClass q ns ts (all ts)
  end.
End Ty_induction.

#[export] Instance Ty_eq_dec : EqDecision Ty.
Proof.
  unfold EqDecision. fix go 1. intros a b.
  refine (match a, b with
  | TensorType, TensorType | AutogradZeroTensorType, AutogradZeroTensorType | NumberType, NumberType
  | FloatType, FloatType | IntType, IntType | NoneType, NoneType | StringType, StringType
  | GeneratorType, GeneratorType | BoolType, BoolType | DeviceObjType, DeviceObjType => left _
  | DimensionedTensorType d, DimensionedTensorType d' => cast_if (decide (d = d'))
  | CompleteTensorType d si st, CompleteTensorType d' si' st' =>
      cast_if_and3 (decide (d = d')) (decide (si = si')) (decide (st = st'))
  | TupleType es ns, TupleType es' ns' => cast_if_and (@list_eq_dec _ go es es') (decide (ns = ns'))
  | ListType t, ListType t' => cast_if (go t t')
  | DictType k v, DictType k' v' => cast_if_and (go k k') (go v v')
  | FutureType t, FutureType t' => cast_if (go t t')
  | OptionalType t, OptionalType t' => cast_if (go t t')
  | VarType x, VarType x' => cast_if (decide (x = x'))
  | ClassType q ns ts, ClassType q' ns' ts' =>
      cast_if_and3 (decide (q = q')) (decide (ns = ns')) (@list_eq_dec _ go ts ts')
  | _, _ => right _
  end); clear go; abstract congruence.
Defined.

(** ** Kinds and names *)
Inductive TypeKind : Type :=
  | KTensorType | KDimensionedTensorType | KCompleteTensorType | KAutogradZeroTensorType | KTupleType | KListType
  | KDictType | KNumberType | KFloatType | KFutureType | KIntType | KNoneType | KStringType | KGeneratorType
  | KBoolType | KOptionalType | KVarType | KDeviceObjType | KClassType.
#[export] Instance TypeKind_eq_dec : EqDecision TypeKind.
Proof. solve_decision. Defined.

Definition kind (t : Ty) : TypeKind :=
  match t with
  | TensorType => KTensorType | AutogradZeroTensorType => KAutogradZeroTensorType
  | DimensionedTensorType _ => KDimensionedTensorType | CompleteTensorType _ _ _ => KCompleteTensorType
  | TupleType _ _ => KTupleType | ListType _ => KListType | DictType _ _ => KDictType
  | NumberType => KNumberType | FloatType => KFloatType | FutureType _ => KFutureType | IntType => KIntType
  | NoneType => KNoneType | StringType => KStringType | GeneratorType => KGeneratorType | BoolType => KBoolType
  | OptionalType _ => KOptionalType | VarType _ => KVarType | DeviceObjType => KDeviceObjType
  | ClassType _ _ _ => KClassType
  end.

(** [isSubclass(kind)]. *)
Definition isSubclass (t : Ty) (k : TypeKind) : bool :=
  match t with
  | DimensionedTensorType _ => bool_decide (k = KTensorType) || bool_decide (k = KDimensionedTensorType)
  | CompleteTensorType _ _ _ =>
      bool_decide (k = KTensorType) || bool_decide (k = KDimensionedTensorType) || bool_decide (k = KCompleteTensorType)
  | _ => bool_decide (k = kind t)
  end.

(** [cast<DimensionedTensorType>()], which slices a complete type. *)
Definition cast_Dimensioned (t : Ty) : option Dimensioned :=
  match t with DimensionedTensorType d | CompleteTensorType d _ _ => Some d | _ => None end.

(** The part of a qualified name behind its last dot. *)
Fixpoint rfind (c : ascii) (s : string) : option nat :=
  match s with
  | "" => None
  | String c' s' => match rfind c s' with Some n => Some (S n) | None => if Ascii.eqb c' c then Some O else None end
  end.
Definition basename (qualifiedName : string) : string :=
  match rfind "."%char qualifiedName with None => qualifiedName | Some pos => str_drop (S pos) qualifiedName end.
Definition qualifier (qualifiedName : string) : string :=
  match rfind "."%char qualifiedName with None => "" | Some pos => str_take pos qualifiedName end.

(** The constructor of [ClassType]; the attributes are added later. *)
Definition ClassType_make (qualifiedName : string) : outcome Ty :=
  (match rfind "."%char qualifiedName with
   | None => Ok tt
   | Some pos => AT_ASSERT (bool_decide (pos < String.length qualifiedName - 1)%nat)
   end);;
  AT_ASSERT (String.eqb (qualifier qualifiedName +:+ "." +:+ basename qualifiedName) qualifiedName);;
  Ok (ClassType qualifiedName [] []).

Fixpoint join (sep : string) (l : list string) : string :=
  match l with [] => "" | [x] => x | x :: l => x +:+ sep +:+ join sep l end.

Fixpoint python_str (t : Ty) : string :=
  match t with
  | TensorType | DimensionedTensorType _ | CompleteTensorType _ _ _ => "Tensor"
  | AutogradZeroTensorType => "AutogradZeroTensor"
  | TupleType es _ => "Tuple[" +:+ join ", " (python_str <$> es) +:+ "]"
  | ListType e => "List[" +:+ python_str e +:+ "]"
  | DictType k v => "Dict[" +:+ python_str k +:+ ", " +:+ python_str v +:+ "]"
  | NumberType => "number" | FloatType => "float" | IntType => "int" | NoneType => "None" | StringType => "str"
  | FutureType e => "Future[" +:+ python_str e +:+ "]"
  | GeneratorType => "Generator" | BoolType => "bool"
  | OptionalType e => "Optional[" +:+ python_str e +:+ "]"
  | VarType x => x | DeviceObjType => "Device" | ClassType q _ _ => q
  end.
Fixpoint str (t : Ty) : string :=
  match t with
  | TensorType | DimensionedTensorType _ | CompleteTensorType _ _ _ => "Tensor"
  | AutogradZeroTensorType => "AutogradZeroTensor"
  | TupleType es _ => "(" +:+ join ", " (str <$> es) +:+ ")"
  | ListType e => str e +:+ "[]"
  | DictType _ _ => python_str t
  | NumberType => "Scalar" | FloatType => "float" | IntType => "int" | NoneType => "None" | StringType => "string"
  | FutureType e => "Future(" +:+ str e +:+ ")"
  | GeneratorType => "Generator" | BoolType => "bool"
  | OptionalType e => str e +:+ "?"
  | VarType x => x | DeviceObjType => "Device" | ClassType q _ _ => "ClassType<" +:+ basename q +:+ ">"
  end.

(** ** Construction *)
Definition OptionalType_create (element : Ty) : Ty :=
  match element with OptionalType _ => element | _ => OptionalType element end.

Definition DictType_create (key value : Ty) : outcome Ty :=
  match key with
  | IntType | FloatType | StringType => Ok (DictType key value)
  | _ => AT_ERROR "Cannot create dict for key type"
  end.

(** [DimensionedTensorType(scalar_type, device, dim, requires_grad)]. *)
Definition Dimensioned_make (scalar_type : ScalarType) (device : Device) (dim : Z) (requires_grad : bool) : Dimensioned :=
  mkDimensioned scalar_type (isFloatingType scalar_type && requires_grad) device dim.

Definition toScalarType (t : Dimensioned) (type : ScalarType) : Dimensioned :=
  mkDimensioned type (requires_grad_ t) (device_ t) (dim_ t).
(** [size_t new_dim] is stored as [int64_t]. *)
Definition withDim (t : Dimensioned) (new_dim : Z) : Dimensioned :=
  mkDimensioned (scalar_type_ t) (requires_grad_ t) (device_ t) (int64 new_dim).
Definition withRequiresGrad (t : Dimensioned) (req : bool) : Dimensioned :=
  mkDimensioned (scalar_type_ t) req (device_ t) (dim_ t).

(** [contiguousStridesOf]: from the last dimension to the first. *)
Fixpoint contiguousStridesOf (sizes : list Z) : list Z :=
  match sizes with
  | [] => []
  | [_] => [1]
  | _ :: (s :: _) as rest =>
      match contiguousStridesOf rest with st :: sts => mul64 st s :: st :: sts | [] => [] end
  end.

Definition CompleteTensorType_make (scalar_type : ScalarType) (device : Device) (sizes : list Z) : Ty :=
  CompleteTensorType (Dimensioned_make scalar_type device (vec_size sizes) true) sizes (contiguousStridesOf sizes).

Definition withSizesStrides (d : Dimensioned) (sizes strides : list Z) : Ty :=
  CompleteTensorType (Dimensioned_make (scalar_type_ d) (device_ d) (vec_size sizes) true) sizes strides.
Definition withSizes (d : Dimensioned) (sizes : list Z) : Ty := withSizesStrides d sizes (contiguousStridesOf sizes).
Definition contiguous (d : Dimensioned) (sizes_ : list Z) : Ty := CompleteTensorType d sizes_ (contiguousStridesOf sizes_).

(** [size_t prod = 1; for (auto s : sizes()) prod *= s]. *)
Definition numel (sizes : list Z) : Z := fold_left (λ prod s, wrapU 64 (prod * s)) sizes 1.

Fixpoint requires_grad (t : Ty) : bool :=
  match t with
  | TensorType => true
  | DimensionedTensorType d | CompleteTensorType d _ _ => requires_grad_ d
  | TupleType es _ => existsb requires_grad es
  | ListType e | FutureType e | OptionalType e => requires_grad e
  | DictType k v => requires_grad v || requires_grad k
  | _ => false
  end.

(** [std::any_of] in the constructor of [TupleType] runs over the parameter
    [elements_], which has been moved into the member of the same name. *)
Definition moved_from {A} (v : list A) : list A := [].
Fixpoint hasFreeVariables (t : Ty) : bool :=
  match t with
  | VarType _ => true
  | TupleType es _ => existsb hasFreeVariables (moved_from es)
  | ListType e | FutureType e | OptionalType e => hasFreeVariables e
  | DictType k v => hasFreeVariables k || hasFreeVariables v
  | _ => false
  end.

Definition containedTypes (t : Ty) : list Ty :=
  match t with
  | TupleType es _ => es
  | ListType e | FutureType e | OptionalType e => [e]
  | DictType k v => [k; v]
  | ClassType _ _ ts => ts
  | _ => []
  end.

(** [v.at(i)]. *)
Definition at_ (v : list Ty) (i : nat) : outcome Ty :=
  match v !! i with Some t => Ok t | None => Throw (StdOutOfRange "vector::at") end.

Definition createWithContained (t : Ty) (contained_types : list Ty) : outcome Ty :=
  match t with
  | OptionalType _ =>
      AT_ASSERT (bool_decide (length contained_types = 1%nat));; e ← at_ contained_types 0; Ok (OptionalType_create e)
  | ListType _ => e ← at_ contained_types 0; Ok (ListType e)
  | FutureType _ => e ← at_ contained_types 0; Ok (FutureType e)
  | DictType _ _ =>
      if bool_decide (length contained_types = 2%nat)
      then k ← at_ contained_types 0; v ← at_ contained_types 1; DictType_create k v
      else Throw (RuntimeError "Expected 2 contained types")
  | TupleType _ _ => Ok (TupleType contained_types None)
  | _ => AT_ERROR "type with contained types did not overload createWithContained: "
  end.

Definition withContained (t : Ty) (contained_types : list Ty) : outcome Ty :=
  AT_ASSERT (bool_decide (length (containedTypes t) = length contained_types));;
  if decide (containedTypes t = contained_types) then Ok t else createWithContained t contained_types.

(** [unshapedType]. *)
Fixpoint unshapedType (t : Ty) : outcome Ty :=
  match t with
  | DimensionedTensorType _ | CompleteTensorType _ _ _ => Ok TensorType
  | TupleType es _ => cs ← mapM unshapedType es; withContained t cs
  | ListType e | FutureType e | OptionalType e => c ← unshapedType e; withContained t [c]
  | DictType k v => k' ← unshapedType k; v' ← unshapedType v; withContained t [k'; v']
  | ClassType _ _ ts => cs ← mapM unshapedType ts; withContained t cs
  | _ => withContained t []
  end.

(** ** Equality and subtyping *)

(** [TupleType::compare]: the sizes agree, and [fn] holds element by element. *)
Definition compare (fn : Ty → Ty → bool) : list Ty → list Ty → bool :=
  fix go l r := match l, r with [], [] => true | x :: l, y :: r => fn x y && go l r | _, _ => false end.

Definition Dimensioned_eqb (a b : Dimensioned) : bool :=
  bool_decide (scalar_type_ a = scalar_type_ b) && Device.Device_eqb (device_ a) (device_ b) && (dim_ a =? dim_ b)%Z.

Definition CompleteTensorType_eqb (d : Dimensioned) (sizes strides : list Z) (rhs : Ty) : bool :=
  match rhs with
  | CompleteTensorType d' sizes' strides' =>
      bool_decide (scalar_type_ d = scalar_type_ d') && bool_decide (sizes = sizes') && bool_decide (strides = strides') &&
      Device.Device_eqb (device_ d) (device_ d')
  | _ => false
  end.

(** [operator==]: the override of each type, the short ones in place. *)
Fixpoint eqb (a b : Ty) : bool :=
  match a with
  | DimensionedTensorType d => match b with DimensionedTensorType d' => Dimensioned_eqb d d' | _ => false end
  | CompleteTensorType d si st => CompleteTensorType_eqb d si st b
  | TupleType es ns => match b with TupleType es' ns' => compare eqb es es' && bool_decide (ns = ns') | _ => false end
  | ListType e => match b with ListType e' => eqb e e' | _ => false end
  | FutureType e => match b with FutureType e' => eqb e e' | _ => false end
  | OptionalType e => match b with OptionalType e' => eqb e e' | _ => false end
  | DictType k v => match b with DictType k' v' => eqb k k' && eqb v v' | _ => false end
  | ClassType q _ _ => match b with ClassType q' _ _ => String.eqb q q' | _ => false end
  | _ => bool_decide (kind b = kind a)
  end.

(** The overrides of [isSubtypeOf].  [self] is the override of the type itself, which
    [Type::isSubtypeOf] calls again on the element of an optional, and [sub] the call on
    the types inside. *)
Definition Type_isSubtypeOf (self : Ty → bool) (a rhs : Ty) : bool :=
  match rhs with OptionalType elem => self elem | _ => eqb a rhs end.
Definition OptionalType_isSubtypeOf (elem_sub : Ty → bool) (rhs : Ty) : bool :=
  match rhs with OptionalType elem' => elem_sub elem' | _ => false end.
Definition AutogradZeroTensorType_isSubtypeOf (base : bool) (rhs : Ty) : bool :=
  bool_decide (kind rhs = KTensorType) || bool_decide (kind rhs = KAutogradZeroTensorType) || base.
Definition DimensionedTensorType_isSubtypeOf (base : bool) (rhs : Ty) : bool :=
  bool_decide (kind rhs = KTensorType) || (bool_decide (kind rhs = KDimensionedTensorType) && base) || base.
Definition CompleteTensorType_isSubtypeOf (d : Dimensioned) (base : bool) (rhs : Ty) : bool :=
  match rhs with
  | DimensionedTensorType d' => Dimensioned_eqb d d'
  | _ => bool_decide (kind rhs = KTensorType) || base
  end.
Definition DictType_isSubtypeOf (key_sub value_sub : Ty → bool) (rhs : Ty) : bool :=
  match rhs with DictType k' v' => key_sub k' && value_sub v' | _ => false end.
Definition TupleType_isSubtypeOf (sub : Ty → Ty → bool) (es : list Ty) (ns : option (list string)) (base : bool) (rhs : Ty) : bool :=
  base ||
  match rhs with
  | TupleType es' ns' =>
      match ns, ns' with
      | None, Some _ => false
      | _, None => compare sub es es'
      | Some n, Some n' => bool_decide (n = n') && compare sub es es'
      end
  | _ => false
  end.
(** Of [FloatType] and [IntType]. *)
Definition Number_isSubtypeOf (base : bool) (rhs : Ty) : bool := bool_decide (kind rhs = KNumberType) || base.
Definition NoneType_isSubtypeOf (rhs : Ty) : bool := bool_decide (kind rhs = KNoneType).

Fixpoint isSubtypeOf (a : Ty) : Ty → bool :=
  fix sub_a (rhs : Ty) : bool :=
    let base := Type_isSubtypeOf sub_a a rhs in
    match a with
    | OptionalType elem => OptionalType_isSubtypeOf (isSubtypeOf elem) rhs
    | AutogradZeroTensorType => AutogradZeroTensorType_isSubtypeOf base rhs
    | DimensionedTensorType _ => DimensionedTensorType_isSubtypeOf base rhs
    | CompleteTensorType d _ _ => CompleteTensorType_isSubtypeOf d base rhs
    | DictType k v => DictType_isSubtypeOf (isSubtypeOf k) (isSubtypeOf v) rhs
    | TupleType es ns => TupleType_isSubtypeOf isSubtypeOf es ns base rhs
    | FloatType | IntType => Number_isSubtypeOf base rhs
    | NoneType => NoneType_isSubtypeOf rhs
    | ClassType _ _ _ => eqb a rhs
    | _ => base
    end.

Definition fromNumberType (typ : Ty) : outcome Ty :=
  if isSubtypeOf typ IntType then Ok (CompleteTensorType_make Long (Device.mkDevice DeviceType.CPU (-1)) [])
  else if isSubtypeOf typ FloatType then Ok (CompleteTensorType_make Float (Device.mkDevice DeviceType.CPU (-1)) [])
  else if isSubtypeOf typ BoolType then Ok (CompleteTensorType_make Long (Device.mkDevice DeviceType.CPU (-1)) [])
  else AT_ERROR "unknown number type".

(** ** Classes *)
Section ClassType_attributes.
Context (qualifiedName_ : string) (attributeNames_ : list string) (attributeTypes_ : list Ty).

Definition numAttributes : outcome nat :=
  AT_ASSERT (bool_decide (length attributeNames_ = length attributeTypes_));; Ok (length attributeNames_).

(** The loops over the names count positions. *)
Fixpoint position (name : string) (names : list string) : nat :=
  match names with [] => O | attr :: names => if String.eqb name attr then O else S (position name names) end.

(** A null pointer when there is no such attribute. *)
Definition getAttribute (name : string) : outcome (option Ty) :=
  AT_ASSERT (bool_decide (length attributeNames_ = length attributeTypes_));;
  Ok (if bool_decide (length attributeNames_ ≤ position name attributeNames_)%nat then None
      else attributeTypes_ !! position name attributeNames_).

Definition getAttributeSlot (name : string) : outcome nat :=
  AT_ASSERT (bool_decide (length attributeNames_ = length attributeTypes_));;
  if bool_decide (position name attributeNames_ < length attributeNames_)%nat
  then Ok (position name attributeNames_)
  else Throw (RuntimeError ("Couldn't find attribute: " +:+ name)).

Definition hasAttribute (name : string) : bool := existsb (String.eqb name) attributeNames_.

Definition addAttribute (name : string) (type : Ty) : Ty :=
  ClassType qualifiedName_ (attributeNames_ ++ [name])%list (attributeTypes_ ++ [type])%list.

(** [refine]: the slots of the new class, one by one. *)
Definition refine (refined_slots : list Ty) : outcome Ty :=
  ClassType_make qualifiedName_;;
  n ← numAttributes;
  AT_ASSERT (bool_decide (n = length refined_slots));;
  foreach (zip refined_slots attributeTypes_) (λ slot, AT_ASSERT (isSubtypeOf slot.1 slot.2));;
  Ok (ClassType qualifiedName_ attributeNames_ refined_slots).
End ClassType_attributes.

(** ** Unification *)
Definition tryEitherIsTheSuperType (t1 t2 : Ty) : option Ty :=
  if isSubtypeOf t1 t2 then Some t2 else if isSubtypeOf t2 t1 then Some t1 else None.

(** The loop over the elements of two tuples. *)
Definition unify_elements (unify : Ty → Ty → outcome (option Ty)) : list Ty → list Ty → outcome (option (list Ty)) :=
  fix go l r :=
    match l, r with
    | x :: l, y :: r =>
        elem ← unify x y;
        match elem with
        | Some e => rest ← go l r; Ok (option_map (cons e) rest)
        | None => Ok None
        end
    | _, _ => Ok (Some [])
    end.

Fixpoint unifyTypes (t1 t2 : Ty) : outcome (option Ty) :=
  match tryEitherIsTheSuperType t1 t2 with
  | Some supertype => Ok (Some supertype)
  | None =>
      if isSubtypeOf t1 TensorType && isSubtypeOf t2 TensorType then Ok (Some TensorType)
      else if isSubtypeOf t1 NoneType && negb (isSubtypeOf t2 NoneType) then Ok (Some (OptionalType_create t2))
      else if isSubtypeOf t2 NoneType && negb (isSubtypeOf t1 NoneType) then Ok (Some (OptionalType_create t1))
      else
        match t1, t2 with
        | ListType _, ListType _ =>
            unshaped_t1 ← unshapedType t1; unshaped_t2 ← unshapedType t2;
            Ok (tryEitherIsTheSuperType unshaped_t1 unshaped_t2)
        | TupleType es1 _, TupleType es2 _ =>
            if bool_decide (length es1 = length es2) then
              elements ← unify_elements unifyTypes es1 es2;
              Ok (option_map (λ es, TupleType es None) elements)
            else Ok None
        | DictType k1 v1, DictType k2 v2 =>
            unified_key ← unifyTypes k1 k2;
            unshaped_value1 ← unshapedType v1; unshaped_value2 ← unshapedType v2;
            match unified_key, tryEitherIsTheSuperType unshaped_value1 unshaped_value2 with
            | Some key, Some value => t ← DictType_create key value; Ok (Some t)
            | _, _ => Ok None
            end
        | _, _ => Ok None
        end
  end.

(** ** Type variables *)
Definition TypeEnv : Type := gmap string Ty.
Record MatchTypeReturn : Type := mkMatch { type : option Ty; errMsg : string }.
Definition match_ok (t : Ty) : MatchTypeReturn := mkMatch (Some t) "".
Definition match_error (msg : string) : MatchTypeReturn := mkMatch None msg.

(** Goes on with the type, or passes the error on. *)
Definition on_type (r : MatchTypeReturn) (f : Ty → SE TypeEnv MatchTypeReturn) : SE TypeEnv MatchTypeReturn :=
  match type r with Some t => f t | None => mret r end.

Fixpoint matchTypeVariables (formal actual : Ty) : SE TypeEnv MatchTypeReturn :=
  if negb (hasFreeVariables formal) then mret (match_ok formal)
  else
    match formal with
    | VarType name =>
        type_env ← get;
        match type_env !! name with
        | None => put (<[name := actual]> type_env);; mret (match_ok actual)
        | Some bound =>
            unified ← lift (unifyTypes bound actual);
            match unified with
            | Some t => put (<[name := t]> type_env);; mret (match_ok t)
            | None => mret (match_error ("type variable '" +:+ name +:+ "' previously matched to type " +:+ str bound +:+ " is matched to type " +:+ str actual))
            end
        end
    | ListType formal_elem =>
        match actual with
        | ListType actual_elem =>
            r ← matchTypeVariables formal_elem actual_elem; on_type r (λ t, mret (match_ok (ListType t)))
        | _ => mret (match_error ("cannot match a list to " +:+ str actual))
        end
    | TupleType formals _ =>
        match actual with
        | TupleType actuals _ =>
            if bool_decide (length formals = length actuals) then
              (fix match_elements (fs as_ elements : list Ty) : SE TypeEnv MatchTypeReturn :=
                match fs, as_ with
                | f :: fs, a :: as_ => r ← matchTypeVariables f a; on_type r (λ t, match_elements fs as_ (elements ++ [t])%list)
                | _, _ => mret (match_ok (TupleType elements None))
                end) formals actuals []
            else mret (match_error "cannot match tuples of mismatched size")
        | _ => mret (match_error ("cannot match a tuple to " +:+ str actual))
        end
    | FutureType formal_elem =>
        match actual with
        | FutureType actual_elem =>
            r ← matchTypeVariables formal_elem actual_elem; on_type r (λ t, mret (match_ok (FutureType t)))
        | _ => mret (match_error ("cannot match a future to " +:+ str actual))
        end
    | OptionalType formal_elem =>
        match actual with
        | OptionalType actual_elem =>
            r ← matchTypeVariables formal_elem actual_elem; on_type r (λ t, mret (match_ok (OptionalType_create t)))
        | _ =>
            if isSubtypeOf actual NoneType
            then mret (match_error "cannot match an Optional[T] to None, because there is no way to determine T from None.")
            else matchTypeVariables formal_elem actual
        end
    | DictType formal_key formal_value =>
        match actual with
        | DictType actual_key actual_value =>
            k ← matchTypeVariables formal_key actual_key;
            on_type k (λ key,
              v ← matchTypeVariables formal_value actual_value;
              on_type v (λ value, t ← lift (DictType_create key value); mret (match_ok t)))
        | _ => mret (match_error ("cannot match a dict to " +:+ str actual))
        end
    | _ => AT_ERROR "unhandled free variable container: "
    end.

Fixpoint evalTypeVariables (type_env : TypeEnv) (type : Ty) : outcome Ty :=
  if negb (hasFreeVariables type) then Ok type
  else
    match type with
    | VarType name =>
        match type_env !! name with
        | Some t => Ok t
        | None => AT_ERROR "schema has unbound type variable in its return type"
        end
    | ListType e | FutureType e | OptionalType e => c ← evalTypeVariables type_env e; withContained type [c]
    | DictType k v => k' ← evalTypeVariables type_env k; v' ← evalTypeVariables type_env v; withContained type [k'; v']
    | TupleType es _ => cs ← mapM (evalTypeVariables type_env) es; withContained type cs
    | _ => withContained type []
    end.

(** ** Values

    What typing sees of an [IValue]; a tensor has [requires_grad] when it is a variable
    that requires a gradient. *)
Inductive IValue : Type :=
  | VNone
  | VTensor (scalar_type : ScalarType) (device : Device) (requires_grad : bool) (sizes strides : list Z)
  | VDouble | VInt | VBool | VString | VIntList | VTensorList | VBoolList | VDoubleList
  | VTuple (elements : list IValue)
  | VDevice
  | VGenericList (elements : list IValue)
  | VGenericDict (items : list (IValue * IValue))
  | VOther.                        (* futures, objects, blobs *)

Fixpoint incompleteInferTypeFrom (value : IValue) : outcome Ty :=
  match value with
  | VTensor scalar_type device requires_grad sizes strides =>
      Ok (CompleteTensorType (Dimensioned_make scalar_type device (vec_size sizes) requires_grad) sizes strides)
  | VDouble => Ok FloatType
  | VInt => Ok IntType
  | VBool => Ok BoolType
  | VString => Ok StringType
  | VIntList => Ok (ListType IntType)
  | VTensorList => Ok (ListType TensorType)
  | VBoolList => Ok (ListType BoolType)
  | VDoubleList => Ok (ListType FloatType)
  | VTuple elements => ts ← mapM incompleteInferTypeFrom elements; Ok (TupleType ts None)
  | VDevice => Ok DeviceObjType
  | _ => AT_ERROR "Type cannot be accurately recovered from this IValue."
  end.

Fixpoint attemptToRecoverType (ivalue : IValue) : outcome Ty :=
  match ivalue with
  | VGenericList [] => Ok (ListType (VarType "t"))
  | VGenericList (v :: _) => t ← attemptToRecoverType v; Ok (ListType t)
  | VGenericDict [] => DictType_create (VarType "t") (VarType "t")
  | VGenericDict ((k, v) :: _) => kt ← attemptToRecoverType k; vt ← attemptToRecoverType v; DictType_create kt vt
  | _ => incompleteInferTypeFrom ivalue
  end.

(** [std::all_of]: stops at the first element that fails. *)
Definition all_of {A} (f : A → outcome bool) : list A → outcome bool :=
  fix go l := match l with [] => Ok true | x :: l => and_then (f x) (go l) end.

(** The loop over two vectors of one length, with [is_subvalue] in its condition. *)
Definition all_pairs {A B} (f : A → B → outcome bool) : list A → list B → outcome bool :=
  fix go l r := match l, r with x :: l, y :: r => and_then (f x y) (go l r) | _, _ => Ok true end.

Fixpoint isSubvalueOf (ivalue : IValue) : Ty → outcome bool :=
  fix subvalue (type : Ty) : outcome bool :=
    match type with
    | OptionalType elem => match ivalue with VNone => Ok true | _ => subvalue elem end
    | _ =>
        match ivalue with
        | VTuple elements =>
            match type with
            | TupleType types _ =>
                if bool_decide (length types = length elements) then all_pairs isSubvalueOf elements types else Ok false
            | _ => Ok false
            end
        | VGenericList elements =>
            match type with
            | ListType elem => all_of (λ v, isSubvalueOf v elem) elements
            | _ => Ok false
            end
        | VGenericDict items =>
            match type with
            | DictType key value => all_of (λ item, and_then (isSubvalueOf item.1 key) (isSubvalueOf item.2 value)) items
            | _ => AT_ASSERT false;; Ok false
            end
        | _ => t ← incompleteInferTypeFrom ivalue; Ok (isSubtypeOf t type)
        end
    end.
End JitTypes.
