(* ===== verification/JitTypesSpec.v ===== *)
(** * Subtyping of the JIT, as rules

    The well-formed types, equality of types as equality of what [operator==]
    looks at, and the rules that [isSubtypeOf] decides.  The order is derived from
    the rules. *)
From S2P Require Import Prelude Text CoreTypes ScalarTypes JitTypes.
Local Open Scope Z_scope.
Local Open Scope string_scope.
#[local] Set Warnings "-register-all,-clear-no-such-hyp".
Import ScalarType JitTypes.

(** ** Well-formed types

    What the constructors establish: the rank of a complete type is the number of its
    sizes, no optional of an optional, keys of dictionaries are atoms, the names of the
    attributes of a class match their types. *)
Definition is_optional (t : Ty) : bool := match t with OptionalType _ => true | _ => false end.
Definition is_key (t : Ty) : bool := match t with IntType | FloatType | StringType => true | _ => false end.

Fixpoint wf (t : Ty) : bool :=
  match t with
  | CompleteTensorType d si _ => bool_decide (dim_ d = vec_size si)
  | TupleType es _ => forallb wf es
  | ListType e | FutureType e => wf e
  | OptionalType e => negb (is_optional e) && wf e
  | DictType k v => is_key k && wf v
  | ClassType _ ns ts => bool_decide (length ns = length ts) && forallb wf ts
  | _ => true
  end.

(** ** Equality *)

(** What [operator==] compares. *)
Definition norm_Dimensioned (d : Dimensioned) : Dimensioned := mkDimensioned (scalar_type_ d) false (device_ d) (dim_ d).
Fixpoint norm (t : Ty) : Ty :=
  match t with
  | DimensionedTensorType d => DimensionedTensorType (norm_Dimensioned d)
  | CompleteTensorType d si st => CompleteTensorType (mkDimensioned (scalar_type_ d) false (device_ d) 0) si st
  | TupleType es ns => TupleType (norm <$> es) ns
  | ListType e => ListType (norm e)
  | FutureType e => FutureType (norm e)
  | OptionalType e => OptionalType (norm e)
  | DictType k v => DictType (norm k) (norm v)
  | VarType _ => VarType ""
  | ClassType q _ _ => ClassType q [] []
  | _ => t
  end.

Lemma compare_Forall2 f l r : compare f l r = true ↔ Forall2 (λ x y, f x y = true) l r.
Proof.
  revert r. induction l as [|x l IH]; intros [|y r]; cbn; split; intros H; try done; try by inversion H.
  - apply andb_true_iff in H as [H1 H2]. constructor; [done|]. by apply IH.
  - inversion H; subst. apply andb_true_iff. split; [done|]. by apply IH.
Qed.

Lemma Device_eqb_true a b : Device.Device_eqb a b = true ↔ a = b.
Proof.
  destruct a, b. unfold Device.Device_eqb. cbn. rewrite andb_true_iff, bool_decide_eq_true, Z.eqb_eq.
  split; [by intros [-> ->]|by intros [= -> ->]].
Qed.

Lemma Dimensioned_eqb_norm a b : Dimensioned_eqb a b = true ↔ norm_Dimensioned a = norm_Dimensioned b.
Proof.
  destruct a, b. unfold Dimensioned_eqb, norm_Dimensioned. cbn.
  rewrite !andb_true_iff, bool_decide_eq_true, Device_eqb_true, Z.eqb_eq.
  split; [by intros [[-> ->] ->]|by intros [= -> -> ->]].
Qed.

Lemma norm_compare es es' :
  Forall (λ a, ∀ b, eqb a b = true ↔ norm a = norm b) es → compare eqb es es' = true ↔ norm <$> es = norm <$> es'.
Proof.
  intros H. revert es'. induction H as [|x es Hx _ IH]; intros [|y es']; cbn; try done.
  rewrite andb_true_iff, Hx, IH. split; [by intros [-> ->]|by intros [= -> ->]].
Qed.

Lemma eqb_norm a : ∀ b, eqb a b = true ↔ norm a = norm b.
Proof.
  induction a using Ty_ind'; intros b; destruct b; cbn; try by (rewrite ?bool_decide_eq_true; split).
  - rewrite Dimensioned_eqb_norm. split; [by intros ->|by intros [= H]; unfold norm_Dimensioned; congruence].
  - rewrite !andb_true_iff, !bool_decide_eq_true, Device_eqb_true.
    split; [intros [[[-> ->] ->] ->]; done|by intros [= -> -> -> ->]].
  - rewrite andb_true_iff, bool_decide_eq_true, norm_compare by done. split; [by intros [-> ->]|by intros [= -> ->]].
  - rewrite IHa. split; [by intros ->|by intros [= ->]].
  - rewrite andb_true_iff, IHa1, IHa2. split; [by intros [-> ->]|by intros [= -> ->]].
  - rewrite IHa. split; [by intros ->|by intros [= ->]].
  - rewrite IHa. split; [by intros ->|by intros [= ->]].
  - rewrite String.eqb_eq. split; [by intros ->|by intros [= ->]].
Qed.

Lemma eqb_refl a : eqb a a = true.
Proof. by apply eqb_norm. Qed.
Lemma eqb_sym a b : eqb a b = true → eqb b a = true.
Proof. by rewrite !eqb_norm. Qed.
Lemma eqb_trans a b c : eqb a b = true → eqb b c = true → eqb a c = true.
Proof. rewrite !eqb_norm. congruence. Qed.

(** ** The rules of subtyping *)

(** Types that [operator==] compares with nothing but themselves. *)
Definition invariant (t : Ty) : bool :=
  match t with OptionalType _ | DictType _ _ | TupleType _ _ => false | _ => true end.
(** Types that are subtypes of the optionals of their supertypes. *)
Definition optional_member (t : Ty) : bool :=
  match t with OptionalType _ | DictType _ _ | NoneType | ClassType _ _ _ => false | _ => true end.
Definition tensor_refinement (t : Ty) : bool :=
  match t with AutogradZeroTensorType | DimensionedTensorType _ | CompleteTensorType _ _ _ => true | _ => false end.
Definition names_fit (ns ns' : option (list string)) : Prop := ns' = None ∨ ns = ns'.

Inductive sub : Ty → Ty → Prop :=
  | sub_same a b : invariant a = true → eqb a b = true → sub a b
  | sub_tensor a : tensor_refinement a = true → sub a TensorType
  | sub_dimensioned d si st d' : Dimensioned_eqb d d' = true → sub (CompleteTensorType d si st) (DimensionedTensorType d')
  | sub_int : sub IntType NumberType
  | sub_float : sub FloatType NumberType
  | sub_into_optional a b : optional_member a = true → sub a b → sub a (OptionalType b)
  | sub_optional a b : sub a b → sub (OptionalType a) (OptionalType b)
  | sub_dict k v k' v' : sub k k' → sub v v' → sub (DictType k v) (DictType k' v')
  | sub_tuple es ns es' ns' : names_fit ns ns' → Forall2 sub es es' → sub (TupleType es ns) (TupleType es' ns').
#[export] Hint Constructors sub : core.

(** The overrides on known types. *)
Ltac unfold_overrides :=
  unfold Type_isSubtypeOf, OptionalType_isSubtypeOf, AutogradZeroTensorType_isSubtypeOf,
    DimensionedTensorType_isSubtypeOf, CompleteTensorType_isSubtypeOf, DictType_isSubtypeOf, TupleType_isSubtypeOf,
    Number_isSubtypeOf, NoneType_isSubtypeOf; cbn.

(** One unfolding of [isSubtypeOf] on an optional. *)
Lemma isSubtypeOf_optional a b :
  isSubtypeOf a (OptionalType b) =
  match a with OptionalType a' => isSubtypeOf a' b | _ => optional_member a && isSubtypeOf a b end.
Proof. destruct a; cbn; rewrite ?orb_false_r; try done. exact (orb_false_r _). Qed.

Lemma eqb_Forall2_sub es es' :
  Forall (λ a, ∀ b, eqb a b = true → sub a b) es → compare eqb es es' = true → Forall2 sub es es'.
Proof.
  intros H. rewrite compare_Forall2. revert es'. induction H as [|x es Hx _ IH]; intros es' H2; inversion H2; subst; auto.
Qed.

Lemma eqb_sub a : ∀ b, eqb a b = true → sub a b.
Proof.
  induction a using Ty_ind'; intros b E; try by apply sub_same.
  - destruct b; try done. cbn in E. apply andb_true_iff in E as [E1 E2%bool_decide_eq_true].
    apply sub_tuple; [by right|]. by apply eqb_Forall2_sub.
  - destruct b; try done. cbn in E. apply andb_true_iff in E as [E1 E2]. auto.
  - destruct b; try done. cbn in E. auto.
Qed.

Lemma compare_sub es es' :
  Forall (λ a, ∀ b, isSubtypeOf a b = true ↔ sub a b) es → compare isSubtypeOf es es' = true ↔ Forall2 sub es es'.
Proof.
  intros H. rewrite compare_Forall2. revert es'.
  induction H as [|x es Hx _ IH]; intros es'; split; intros H2; inversion H2; subst; constructor; try apply Hx; try apply IH; done.
Qed.

Lemma isSubtypeOf_tuple es ns es' ns' :
  isSubtypeOf (TupleType es ns) (TupleType es' ns') = true ↔
  eqb (TupleType es ns) (TupleType es' ns') = true ∨ names_fit ns ns' ∧ compare isSubtypeOf es es' = true.
Proof.
  cbn. unfold TupleType_isSubtypeOf. rewrite orb_true_iff. apply or_iff_compat_l. unfold names_fit.
  destruct ns as [n|], ns' as [n'|]; rewrite ?andb_true_iff, ?bool_decide_eq_true.
  - split; [by intros [-> ?]; auto|by intros [[|[= ->]] ?]].
  - split; [auto|by intros []].
  - split; [done|by intros [[|] ?]].
  - split; [auto|by intros []].
Qed.

Lemma sub_optional_inv a b :
  sub a (OptionalType b) ↔ match a with OptionalType a' => sub a' b | _ => optional_member a = true ∧ sub a b end.
Proof.
  split.
  - intros E. inversion E; subst; [|by destruct a|done]. by destruct a.
  - destruct a; try (intros [??]; by apply sub_into_optional). auto.
Qed.

(** [isSubtypeOf] on a pair without an optional on the right, and not both tuples or both
    dictionaries. *)
Lemma isSubtypeOf_plain a b :
  is_optional b = false → (∀ es ns es' ns', a = TupleType es ns → b ≠ TupleType es' ns') →
  (∀ k v k' v', a = DictType k v → b ≠ DictType k' v') → isSubtypeOf a b = true ↔ sub a b.
Proof.
  intros Hopt Htuple Hdict. split.
  - destruct a, b; try done; cbn; unfold_overrides; rewrite ?andb_false_r, ?orb_false_r, ?orb_diag; intros E; try done; auto;
      by (destruct (Htuple _ _ _ _ eq_refl eq_refl) || destruct (Hdict _ _ _ _ eq_refl eq_refl) || apply sub_same).
  - intros E. inversion E as [a' b' Hi He| | | | | | | |]; subst; try done.
    + destruct a, b; try done; cbn in *; unfold_overrides; by rewrite ?He, ?orb_true_r.
    + by destruct a.
    + by destruct (Hdict _ _ _ _ eq_refl eq_refl).
    + by destruct (Htuple _ _ _ _ eq_refl eq_refl).
Qed.

Lemma isSubtypeOf_rules a : ∀ b, isSubtypeOf a b = true ↔ sub a b.
Proof.
  induction a using Ty_ind'; intros b; induction b as [| | | |es' ns'| | | | | | | | | | |b IHb| | |].
  all: match goal with
       | |- _ _ (OptionalType _) = true ↔ _ =>
           rewrite isSubtypeOf_optional, sub_optional_inv; rewrite ?andb_true_iff, ?IHb; auto
       | |- _ (TupleType _ _) (TupleType _ _) = true ↔ _ => idtac
       | |- _ (DictType _ _) (DictType _ _) = true ↔ _ => cbn; rewrite andb_true_iff, IHa1, IHa2
       | |- _ => by apply isSubtypeOf_plain
       end.
  - rewrite isSubtypeOf_tuple, compare_sub by done. split.
    + intros [E|[??]]; [by apply eqb_sub|by apply sub_tuple].
    + intros E. inversion E; subst; [done|]. by right.
  - split; [by intros []; apply sub_dict|]. intros E. by inversion E; subst.
Qed.

(** ** The order *)
Lemma sub_refl a : sub a a.
Proof. apply eqb_sub, eqb_refl. Qed.

Lemma forallb_Forall_true {A} (f : A → bool) l : forallb f l = true ↔ Forall (λ x, f x = true) l.
Proof. induction l; cbn; [done|]. by rewrite andb_true_iff, Forall_cons_iff, IHl. Qed.

Lemma sub_same_r a b c : sub a b → invariant b = true → eqb b c = true → sub a c.
Proof.
  intros Hab Hb Hc. inversion Hab; subst; try done; [apply sub_same; [done|by eapply eqb_trans]|..]; destruct c; try done; auto.
  cbn in Hc. apply sub_dimensioned. apply Dimensioned_eqb_norm. rewrite Dimensioned_eqb_norm in *. congruence.
Qed.

Lemma sub_member a b : sub a b → optional_member b = true → optional_member a = true.
Proof. intros Hab Hb. inversion Hab as [? ? Hi He| | | | | | | |]; subst; try done; [|by destruct a]. by destruct a, b. Qed.

(** Transitivity at [c], given transitivity at the types [c] contains. *)
Definition trans_at (c : Ty) : Prop := ∀ a b, wf a = true → wf b = true → sub a b → sub b c → sub a c.

Lemma Forall2_trans_at es1 es2 es3 :
  Forall trans_at es3 → forallb wf es1 = true → forallb wf es2 = true →
  Forall2 sub es1 es2 → Forall2 sub es2 es3 → Forall2 sub es1 es3.
Proof.
  rewrite !forallb_Forall_true. intros H3. revert es1 es2. induction H3 as [|c es3 Hc _ IH]; intros es1 es2 H1 H2 E1 E2.
  - inversion E2; subst. by inversion E1.
  - inversion E2; subst. inversion E1; subst. inversion H1; inversion H2; subst. constructor; [by eapply Hc|by eapply IH].
Qed.

Lemma trans_at_step c : Forall trans_at (containedTypes c) → trans_at c.
Proof.
  intros IH a b Ha Hb Hab Hbc.
  inversion Hbc as [? ? Hi He|? Hr|d si st d' Hd| | |? c' Hm Hs|b' c' Hs|k v k' v' Hk Hv|es ns es' ns' Hn Hes]; subst.
  - by eapply sub_same_r.
  - inversion Hab; subst; auto; try done. destruct a, b; by auto.
  - inversion Hab as [? ? Hi He| | | | | | | |]; subst. destruct a; try done. apply sub_dimensioned.
    cbn in Ha, Hb, He. rewrite !andb_true_iff, !bool_decide_eq_true, Device_eqb_true in *.
    rewrite Dimensioned_eqb_norm in *. rewrite <- Hd. unfold norm_Dimensioned. destruct He as [[[-> ->] ->] ->]. congruence.
  - inversion Hab as [? ? Hi He| | | | | | | |]; subst. by destruct a; try done.
  - inversion Hab as [? ? Hi He| | | | | | | |]; subst. by destruct a; try done.
  - apply Forall_inv in IH. apply sub_into_optional; [by eapply sub_member|]. by eapply IH.
  - apply Forall_inv in IH. cbn in Hb. apply andb_true_iff in Hb as [_ Hb].
    apply sub_optional_inv in Hab. apply sub_optional_inv. destruct a; try (destruct Hab as [Hm Hab]; split; [done|by eapply IH]).
    cbn in Ha. apply andb_true_iff in Ha as [_ Ha]. by eapply IH.
  - inversion Hab as [? ? Hi He| | | | | | | |]; subst; [by destruct a|]. cbn in *.
    apply andb_true_iff in Ha as [Ha1 Ha2]. apply andb_true_iff in Hb as [Hb1 Hb2].
    pose proof (Forall_inv IH) as IH1. pose proof (Forall_inv (Forall_inv_tail IH)) as IH2.
    apply sub_dict; [eapply IH1; [| |done..]|by eapply IH2]; [by destruct k0|by destruct k].
  - inversion Hab as [? ? Hi He| | | | | | | |]; subst; [by destruct a|]. cbn in *. apply sub_tuple; [|by eapply Forall2_trans_at].
    unfold names_fit in *. naive_solver.
Qed.

Lemma sub_trans c : trans_at c.
Proof. induction c using Ty_ind'; apply trans_at_step; cbn; auto. Qed.

(** Types that are subtypes of each other are equal. *)
Definition antisym_at (a : Ty) : Prop := ∀ b, sub a b → sub b a → eqb a b = true.

Lemma antisym_at_step a : Forall antisym_at (containedTypes a) → antisym_at a.
Proof.
  intros IH b Hab Hba. inversion Hab; subst; try done.
  1: inversion Hba; subst; try done; by destruct a.
  1-4: by inversion Hba; subst.
  - apply Forall_inv in IH. apply sub_optional_inv in Hba. by apply IH.
  - pose proof (Forall_inv IH) as IH1. pose proof (Forall_inv (Forall_inv_tail IH)) as IH2. inversion Hba; subst; [done|].
    cbn. apply andb_true_iff. auto.
  - inversion Hba as [| | | | | | | |? ? ? ? Hn Hes]; subst; [done|]. cbn [containedTypes] in IH. cbn.
    apply andb_true_iff. split; [|apply bool_decide_eq_true; unfold names_fit in *; naive_solver].
    apply compare_Forall2. clear Hab Hba. revert es' Hes H0. induction IH as [|x es Hx _ IH]; intros es' H1 H2;
      inversion H1; inversion H2; subst; simplify_eq; constructor; auto.
Qed.

Lemma sub_antisym a : antisym_at a.
Proof. induction a using Ty_ind'; apply antisym_at_step; cbn; auto. Qed.
