(* ===== verification/JitTypesValues.v ===== *)
(** * The values of a type, and type variables

    [isSubvalueOf] gives types a meaning, and the meaning grows along [isSubtypeOf].
    Forgetting shapes and unifying types only add values.

    Matching a formal type against an actual one binds the variables of the formal
    type; evaluating the formal type under the bindings gives what was matched. *)
From S2P Require Import Prelude Text CoreTypes ScalarTypes JitTypes JitTypesSpec.
Local Open Scope Z_scope.
Local Open Scope string_scope.
#[local] Set Warnings "-register-all,-clear-no-such-hyp".
Import ScalarType JitTypes.
#[local] Set Warnings "-clear-no-such-hyp".

(** Induction that reaches the values inside containers. *)
Section IValue_induction.
Context (P : IValue → Prop) (HNone : P VNone) (HTensor : ∀ s d r si st, P (VTensor s d r si st)).
Context (HDouble : P VDouble) (HInt : P VInt) (HBool : P VBool) (HString : P VString) (HIntList : P VIntList).
Context (HTensorList : P VTensorList) (HBoolList : P VBoolList) (HDoubleList : P VDoubleList) (HDevice : P VDevice).
Context (HTuple : ∀ vs, Forall P vs → P (VTuple vs)) (HList : ∀ vs, Forall P vs → P (VGenericList vs)).
Context (HDict : ∀ items, Forall (λ item, P item.1 ∧ P item.2) items → P (VGenericDict items)) (HOther : P VOther).

Fixpoint IValue_ind' (v : IValue) : P v :=
  let all := fix all (l : list IValue) : Forall P l :=
    match l with [] => Forall_nil P | v :: l => Forall_cons P v l (IValue_ind' v) (all l) end in
  match v with
  | VNone => HNone | VTensor s d r si st => HTensor s d r si st | VDouble => HDouble | VInt => HInt | VBool => HBool
  | VString => HString | VIntList => HIntList | VTensorList => HTensorList | VBoolList => HBoolList
  | VDoubleList => HDoubleList | VTuple vs => HTuple vs (all vs) | VDevice => HDevice | VGenericList vs => HList vs (all vs)
  | VGenericDict items =>
      HDict items ((fix all_items (l : list (IValue * IValue)) : Forall (λ item, P item.1 ∧ P item.2) l :=
        match l with
        | [] => Forall_nil _
        | item :: l => Forall_cons (λ item, P item.1 ∧ P item.2) item l (conj (IValue_ind' item.1) (IValue_ind' item.2)) (all_items l)
        end) items)
  | VOther => HOther
  end.
End IValue_induction.

#[export] Instance is_None_dec v : Decision (v = VNone).
Proof. destruct v; (by left) || by right. Defined.

(** ** The cases of [isSubvalueOf] *)
Definition fits (v : IValue) (t : Ty) : Prop := isSubvalueOf v t = Ok true.
Definition is_container (v : IValue) : bool :=
  match v with VTuple _ | VGenericList _ | VGenericDict _ => true | _ => false end.

Lemma and_then_true a b : and_then a b = Ok true ↔ a = Ok true ∧ b = Ok true.
Proof. destruct a as [[]|]; cbn; [by split; [|intros []]|by split; [|intros []]..]. Qed.

Lemma all_of_true {A} (f : A → outcome bool) l : all_of f l = Ok true ↔ Forall (λ x, f x = Ok true) l.
Proof. induction l as [|x l IH]; cbn; [by split; [constructor|]|]. by rewrite and_then_true, Forall_cons_iff, <- IH. Qed.

Lemma all_pairs_true {A B} (f : A → B → outcome bool) l r :
  length l = length r → all_pairs f l r = Ok true ↔ Forall2 (λ x y, f x y = Ok true) l r.
Proof.
  revert r. induction l as [|x l IH]; intros [|y r]; cbn; intros H; try done.
  rewrite and_then_true, IH by lia. split; [by intros []; constructor|by intros E; inversion E].
Qed.

Lemma fits_optional v e : fits v (OptionalType e) ↔ v = VNone ∨ fits v e.
Proof.
  destruct (decide (v = VNone)) as [->|Hv]; [by split; [left|]|].
  unfold fits. replace (isSubvalueOf v (OptionalType e)) with (isSubvalueOf v e) by by destruct v.
  split; [by right|by intros [?|?]].
Qed.

Lemma fits_tuple vs ts ns : fits (VTuple vs) (TupleType ts ns) ↔ Forall2 fits vs ts.
Proof.
  unfold fits. cbn. case_bool_decide as Hl; [by rewrite all_pairs_true|].
  split; [done|]. intros H. by apply Forall2_length in H.
Qed.
Lemma fits_tuple_inv vs t : is_optional t = false → fits (VTuple vs) t → ∃ ts ns, t = TupleType ts ns.
Proof. destruct t; try done. eauto. Qed.

Lemma fits_list vs e : fits (VGenericList vs) (ListType e) ↔ Forall (λ v, fits v e) vs.
Proof. apply all_of_true. Qed.
Lemma fits_list_inv vs t : is_optional t = false → fits (VGenericList vs) t → ∃ e, t = ListType e.
Proof. destruct t; try done. eauto. Qed.

Lemma fits_dict items k w :
  fits (VGenericDict items) (DictType k w) ↔ Forall (λ item, fits item.1 k ∧ fits item.2 w) items.
Proof.
  unfold fits at 1. cbn. rewrite all_of_true. apply Forall_iff. intros item. apply and_then_true.
Qed.
Lemma fits_dict_inv items t : is_optional t = false → fits (VGenericDict items) t → ∃ k w, t = DictType k w.
Proof. destruct t; try done. eauto. Qed.

Lemma fits_simple v t :
  is_container v = false → is_optional t = false →
  fits v t ↔ ∃ t0, incompleteInferTypeFrom v = Ok t0 ∧ isSubtypeOf t0 t = true.
Proof.
  intros Hv Ht. unfold fits.
  assert (E : isSubvalueOf v t = (t0 ← incompleteInferTypeFrom v; Ok (isSubtypeOf t0 t))) by by destruct v, t.
  rewrite E, outcome_bind_Ok. split; intros (t0 & Hi & H); exists t0; (split; [done|]); [by apply Ok_inj in H|by f_equal].
Qed.

Lemma infer_wf v t0 : is_container v = false → incompleteInferTypeFrom v = Ok t0 → wf t0 = true.
Proof. destruct v; cbn; try done; intros _ [= <-]; try done. by apply bool_decide_eq_true. Qed.

(** ** Subsumption *)
Definition subsumes (v : IValue) : Prop := ∀ t t', wf t = true → sub t t' → fits v t → fits v t'.

Lemma sub_not_optional t t' : sub t t' → is_optional t' = false → is_optional t = false.
Proof. intros H Ht'. inversion H; subst; try done; by destruct t. Qed.

(** It is enough to look at types that are not optional. *)
Lemma subsumes_plain v :
  (∀ t t', is_optional t = false → is_optional t' = false → wf t = true → sub t t' → fits v t → fits v t') → subsumes v.
Proof.
  intros H t t'. revert t. induction t' as [| | | | | | | | | | | | | | |e IH| | |]; intros t Hw Hs Hf.
  all: try (apply H with t; [by eapply sub_not_optional|done..]).
  apply fits_optional. apply sub_optional_inv in Hs. destruct t as [| | | | | | | | | | | | | | |a| | |].
  all: try (right; eapply IH; [exact Hw|by destruct Hs|done]).
  apply fits_optional in Hf as [->|Hf]; [by left|]. right. apply (IH a); [|done..].
  cbn in Hw. by apply andb_true_iff in Hw as [_ Hw].
Qed.

Lemma subsumes_simple v : is_container v = false → subsumes v.
Proof.
  intros Hv. apply subsumes_plain. intros t t' Ht Ht' Hw Hs.
  rewrite !fits_simple by done. intros (t0 & Hi & H0). exists t0. split; [done|].
  rewrite isSubtypeOf_rules in *. eapply sub_trans; [by eapply infer_wf|exact Hw|done..].
Qed.

(** Supertypes of tuples, lists and dictionaries. *)
Lemma sub_tuple_inv es ns es' ns' : sub (TupleType es ns) (TupleType es' ns') → Forall2 sub es es'.
Proof. intros H. by inversion H. Qed.
Lemma sub_dict_inv k v k' v' : sub (DictType k v) (DictType k' v') → sub k k' ∧ sub v v'.
Proof. intros H. by inversion H. Qed.
Lemma sub_list_inv e e' : sub (ListType e) (ListType e') → sub e e'.
Proof. intros H. inversion H; subst. by apply eqb_sub. Qed.
Lemma sub_tuple_right es ns t : is_optional t = false → sub (TupleType es ns) t → ∃ es' ns', t = TupleType es' ns'.
Proof. intros Ht H. inversion H; subst; try done; eauto. Qed.
Lemma sub_dict_right k v t : sub (DictType k v) t → ∃ k' v', t = DictType k' v'.
Proof. intros H. inversion H; subst; try done; eauto. Qed.
Lemma sub_list_right e t : is_optional t = false → sub (ListType e) t → ∃ e', t = ListType e'.
Proof. intros Ht H. inversion H; subst; try done. destruct t; try done. eauto. Qed.

Lemma wf_key k : is_key k = true → wf k = true.
Proof. by destruct k. Qed.

Lemma subsumption v : subsumes v.
Proof.
  induction v using IValue_ind'; try by apply subsumes_simple.
  all: apply subsumes_plain; intros t t' Ht Ht' Hw Hs Hf.
  - destruct (fits_tuple_inv _ _ Ht Hf) as (ts & ns & ->). destruct (sub_tuple_right _ _ _ Ht' Hs) as (ts' & ns' & ->).
    apply fits_tuple in Hf. apply sub_tuple_inv in Hs. apply fits_tuple. cbn in Hw. apply forallb_Forall_true in Hw.
    clear Ht Ht'. revert ts ts' Hw Hs Hf. induction H as [|v vs Hv _ IH]; intros ts ts' Hw Hs Hf; inversion Hf; subst;
      inversion Hs; subst; inversion Hw; subst; constructor; eauto.
  - destruct (fits_list_inv _ _ Ht Hf) as (e & ->). destruct (sub_list_right _ _ Ht' Hs) as (e' & ->).
    apply sub_list_inv in Hs. rewrite fits_list in *. cbn in Hw. rewrite Forall_forall in *. intros v Hv. apply (H v Hv e); auto.
  - destruct (fits_dict_inv _ _ Ht Hf) as (k & w & ->). destruct (sub_dict_right _ _ _ Hs) as (k' & w' & ->).
    apply sub_dict_inv in Hs as [Hk Hv]. cbn in Hw. apply andb_true_iff in Hw as [Hwk Hw].
    rewrite fits_dict in *. rewrite Forall_forall in *. intros item Hin.
    destruct (H item Hin) as [H1 H2]. destruct (Hf item Hin) as [Hf1 Hf2].
    split; [by apply (H1 k); [apply wf_key|..]|by apply (H2 w)].
Qed.
Lemma fits_subtype v t t' : isSubtypeOf t t' = true → fits v t → wf t = true → fits v t'.
Proof. rewrite isSubtypeOf_rules. intros Hs Hf Hw. by apply (subsumption v t). Qed.

(** ** Forgetting shapes *)
Lemma withContained_eq t cs :
  length (containedTypes t) = length cs →
  withContained t cs = if decide (containedTypes t = cs) then Ok t else createWithContained t cs.
Proof. intros H. unfold withContained. by rewrite bool_decide_eq_true_2. Qed.
Ltac contained := intros; rewrite withContained_eq by done; cbn; case_decide; simplify_eq; try done.

Lemma withContained_list e c : withContained (ListType e) [c] = Ok (ListType c).
Proof. contained. Qed.
Lemma withContained_future e c : withContained (FutureType e) [c] = Ok (FutureType c).
Proof. contained. Qed.
Lemma withContained_optional e c :
  is_optional e = false → withContained (OptionalType e) [c] = Ok (OptionalType_create c).
Proof. contained. by destruct c. Qed.
Lemma withContained_dict k v k' v' :
  is_key k' = true → withContained (DictType k v) [k'; v'] = Ok (DictType k' v').
Proof. contained. by destruct k'. Qed.
Lemma withContained_tuple es ns cs :
  length es = length cs → ∃ ns', withContained (TupleType es ns) cs = Ok (TupleType cs ns').
Proof. contained; eauto. Qed.
Lemma unshapedType_key k : is_key k = true → unshapedType k = Ok k.
Proof. by destruct k. Qed.

(** The element type of a specialized list has no shape. *)
Lemma fits_specialized_list v e : is_container v = false → fits v (ListType e) → unshapedType e = Ok e.
Proof.
  intros Hv Hf. apply fits_simple in Hf as (t0 & Hi & Hs); [|done..]. apply isSubtypeOf_rules in Hs.
  destruct v; try done; injection Hi as <-; inversion Hs; subst; try done; by destruct e.
Qed.

(** What [unshapedType] promises at [t]. *)
Definition unshapes (t : Ty) : Prop :=
  ∀ t', wf t = true → unshapedType t = Ok t' → wf t' = true ∧ ∀ v, fits v t → fits v t'.

Lemma unshapes_list e : unshapes e → unshapes (ListType e).
Proof.
  intros He t' Hw Hu. cbn in Hu. apply outcome_bind_Ok in Hu as (c & Hc & Hu).
  rewrite withContained_list in Hu. injection Hu as <-. destruct (He c Hw Hc) as [Hwc Hf]. split; [done|].
  intros v Hv. destruct (is_container v) eqn:Ev.
  - destruct v; try done. rewrite fits_list in *. by eapply Forall_impl; [exact Hf|].
  - rewrite (fits_specialized_list v e) in Hc by done. by injection Hc as <-.
Qed.
Lemma unshapes_optional e : unshapes e → unshapes (OptionalType e).
Proof.
  intros He t' Hw Hu. cbn in Hu, Hw. apply andb_true_iff in Hw as [Ho Hw]. apply negb_true_iff in Ho.
  apply outcome_bind_Ok in Hu as (c & Hc & Hu).
  rewrite withContained_optional in Hu by done. injection Hu as <-. destruct (He c Hw Hc) as [Hwc Hf].
  assert (Hcreate : wf (OptionalType_create c) = true ∧ ∀ v, fits v (OptionalType_create c) ↔ v = VNone ∨ fits v c).
  { split; [by destruct c|]. intros v. destruct c; try apply fits_optional. cbn. rewrite !fits_optional. tauto. }
  destruct Hcreate as [Hw' Hf']. split; [done|]. intros v. rewrite fits_optional, Hf'. intros [?|?]; auto.
Qed.
Lemma unshapes_future e : unshapes e → unshapes (FutureType e).
Proof.
  intros He t' Hw Hu. cbn in Hu. apply outcome_bind_Ok in Hu as (c & Hc & Hu).
  rewrite withContained_future in Hu. injection Hu as <-. destruct (He c Hw Hc) as [Hwc _]. split; [done|].
  intros v Hv. destruct (is_container v) eqn:Ev; [by destruct v|].
  apply fits_simple in Hv as (t0 & Hi & Hs); [|done..]. destruct v; try done; by injection Hi as <-.
Qed.
Lemma unshapes_dict k w : unshapes w → unshapes (DictType k w).
Proof.
  intros He t' Hw Hu. cbn in Hu, Hw. apply andb_true_iff in Hw as [Hk Hw].
  rewrite (unshapedType_key k) in Hu by done. cbn in Hu. apply outcome_bind_Ok in Hu as (c & Hc & Hu).
  rewrite withContained_dict in Hu by done. injection Hu as <-. destruct (He c Hw Hc) as [Hwc Hf].
  split; [cbn; by rewrite Hk, Hwc|]. intros v Hv. destruct (is_container v) eqn:Ev.
  - destruct v; try done. rewrite fits_dict in *. eapply Forall_impl; [|exact Hv]. intros item []. auto.
  - apply fits_simple in Hv as (t0 & Hi & Hs); [|done..]. destruct v; try done; by injection Hi as <-.
Qed.

Lemma unshapes_all es cs :
  Forall unshapes es → forallb wf es = true → mapM unshapedType es = Ok cs →
  length es = length cs ∧ forallb wf cs = true ∧ ∀ vs, Forall2 fits vs es → Forall2 fits vs cs.
Proof.
  intros Hes Hw Hm. apply mapM_Ok in Hm. revert Hw. induction Hm as [|e c es cs Hc _ IH]; intros Hw; [done|].
  cbn in *. apply andb_true_iff in Hw as [Hw1 Hw2].
  destruct (Forall_inv Hes c Hw1 Hc) as [Hwc Hf]. destruct IH as (Hl & Hwcs & Hfs); [by eapply Forall_inv_tail|done|].
  split; [by f_equal|]. split; [by rewrite Hwc|]. intros vs Hvs. inversion Hvs; subst. constructor; auto.
Qed.
Lemma unshapes_tuple es ns : Forall unshapes es → unshapes (TupleType es ns).
Proof.
  intros He t' Hw Hu. cbn in Hu. apply outcome_bind_Ok in Hu as (cs & Hc & Hu).
  destruct (unshapes_all es cs He Hw Hc) as (Hl & Hwc & Hf).
  destruct (withContained_tuple es ns cs Hl) as [ns' E]. rewrite E in Hu. injection Hu as <-. split; [done|].
  intros v Hv. destruct (is_container v) eqn:Ev.
  - destruct v; try done. rewrite fits_tuple in *. auto.
  - apply fits_simple in Hv as (t0 & Hi & Hs); [|done..]. destruct v; try done; by injection Hi as <-.
Qed.

Lemma unshapedType_sound t : unshapes t.
Proof.
  induction t using Ty_ind'; auto using unshapes_tuple, unshapes_list, unshapes_dict, unshapes_future, unshapes_optional.
  all: intros t' Hw Hu; try (by injection Hu as <-).
  - injection Hu as <-. split; [done|]. intros v. apply subsumption; [done|]. by apply sub_tensor.
  - injection Hu as <-. split; [done|]. intros v. apply subsumption; [done|]. by apply sub_tensor.
  - cbn in Hu. apply outcome_bind_Ok in Hu as (cs & Hc & Hu). apply mapM_Ok, Forall2_length in Hc.
    rewrite withContained_eq in Hu by done. case_decide; [|done]. by injection Hu as <-.
Qed.

(** ** Unification *)
Lemma tryEither_sound t1 t2 t v :
  wf t1 = true → wf t2 = true → tryEitherIsTheSuperType t1 t2 = Some t → fits v t1 ∨ fits v t2 → fits v t.
Proof.
  unfold tryEitherIsTheSuperType. intros H1 H2.
  destruct (isSubtypeOf t1 t2) eqn:E1; [|destruct (isSubtypeOf t2 t1) eqn:E2; [|done]]; intros [= <-] [Hv|Hv]; try done;
    by eapply fits_subtype.
Qed.
Lemma tryEither_wf t1 t2 t :
  wf t1 = true → wf t2 = true → tryEitherIsTheSuperType t1 t2 = Some t → wf t = true.
Proof.
  unfold tryEitherIsTheSuperType. intros H1 H2. destruct (isSubtypeOf t1 t2), (isSubtypeOf t2 t1); by intros [= <-].
Qed.

Lemma fits_optional_create v t : fits v t → fits v (OptionalType_create t).
Proof. intros Hv. destruct t; try done; apply fits_optional; auto. Qed.
Lemma wf_optional_create t : wf t = true → wf (OptionalType_create t) = true.
Proof. by destruct t. Qed.

(** No value fits [None]: a type is only inferred for other values. *)
Lemma fits_none v t : isSubtypeOf t NoneType = true → ¬ fits v t.
Proof.
  intros Ht Hv. assert (t = NoneType) as ->.
  { rewrite isSubtypeOf_rules in Ht. inversion Ht; subst. by destruct t. }
  destruct v; done.
Qed.

(** The result [t] of unifying [t1] and [t2]: well-formed, with the values of both. *)
Definition unifies (t1 t2 t : Ty) : Prop := wf t = true ∧ ∀ v, fits v t1 ∨ fits v t2 → fits v t.
Definition unifies_at (t1 : Ty) : Prop :=
  ∀ t2 t, wf t1 = true → wf t2 = true → unifyTypes t1 t2 = Ok (Some t) → unifies t1 t2 t.

(** The part of [unifyTypes] that does not look inside the types. *)
Definition unify_shallow (t1 t2 : Ty) : option Ty :=
  match tryEitherIsTheSuperType t1 t2 with
  | Some t => Some t
  | None =>
      if isSubtypeOf t1 TensorType && isSubtypeOf t2 TensorType then Some TensorType
      else if isSubtypeOf t1 NoneType && negb (isSubtypeOf t2 NoneType) then Some (OptionalType_create t2)
      else if isSubtypeOf t2 NoneType && negb (isSubtypeOf t1 NoneType) then Some (OptionalType_create t1)
      else None
  end.
Lemma unify_shallow_sound t1 t2 t : wf t1 = true → wf t2 = true → unify_shallow t1 t2 = Some t → unifies t1 t2 t.
Proof.
  unfold unify_shallow, unifies. intros H1 H2.
  destruct (tryEitherIsTheSuperType t1 t2) eqn:E.
  { intros [= <-]. split; [by apply (tryEither_wf t1 t2)|]. intros v. by apply (tryEither_sound t1 t2). }
  destruct (isSubtypeOf t1 TensorType && isSubtypeOf t2 TensorType) eqn:Et.
  { intros [= <-]. apply andb_true_iff in Et as [].
    split; [done|]. intros v [Hv|Hv]; [by apply (fits_subtype v t1)|by apply (fits_subtype v t2)]. }
  destruct (isSubtypeOf t1 NoneType) eqn:N1, (isSubtypeOf t2 NoneType) eqn:N2; cbn; intros [= <-].
  - split; [by apply wf_optional_create|]. intros v [Hv|Hv]; [by destruct (fits_none v t1)|by apply fits_optional_create].
  - split; [by apply wf_optional_create|]. intros v [Hv|Hv]; [by apply fits_optional_create|by destruct (fits_none v t2)].
Qed.

(** The rest, for two lists, two tuples and two dictionaries. *)
Definition unify_deep (t1 t2 : Ty) : outcome (option Ty) :=
  match t1, t2 with
  | ListType _, ListType _ =>
      u1 ← unshapedType t1; u2 ← unshapedType t2; Ok (tryEitherIsTheSuperType u1 u2)
  | TupleType es1 _, TupleType es2 _ =>
      if bool_decide (length es1 = length es2)
      then es ← unify_elements unifyTypes es1 es2; Ok (option_map (λ es, TupleType es None) es)
      else Ok None
  | DictType k1 v1, DictType k2 v2 =>
      key ← unifyTypes k1 k2; u1 ← unshapedType v1; u2 ← unshapedType v2;
      match key, tryEitherIsTheSuperType u1 u2 with
      | Some key, Some value => t ← DictType_create key value; Ok (Some t)
      | _, _ => Ok None
      end
  | _, _ => Ok None
  end.
Lemma unifyTypes_eq t1 t2 :
  unifyTypes t1 t2 = match unify_shallow t1 t2 with Some t => Ok (Some t) | None => unify_deep t1 t2 end.
Proof.
  unfold unify_shallow. destruct t1; cbn [unifyTypes]; destruct (tryEitherIsTheSuperType _ _); try done;
    repeat (match goal with |- context [if ?b then _ else _] => destruct b end; try done).
Qed.

Lemma unify_deep_list e1 t2 t :
  wf e1 = true → wf t2 = true → unify_deep (ListType e1) t2 = Ok (Some t) → unifies (ListType e1) t2 t.
Proof.
  intros H1 H2 Hu. destruct t2 as [| | | | |e2| | | | | | | | | | | | |]; try done. unfold unify_deep in Hu.
  apply outcome_bind_Ok in Hu as (u1 & Hu1 & Hu). apply outcome_bind_Ok in Hu as (u2 & Hu2 & Hu).
  apply Ok_inj in Hu. apply unshapedType_sound in Hu1 as [Hw1 Hf1]; [|done]. apply unshapedType_sound in Hu2 as [Hw2 Hf2]; [|done].
  split; [by apply (tryEither_wf u1 u2)|]. intros v Hv. apply (tryEither_sound u1 u2); [done..|]. destruct Hv; auto.
Qed.

Lemma unify_elements_sound es1 es2 es :
  Forall unifies_at es1 → forallb wf es1 = true → forallb wf es2 = true → length es1 = length es2 →
  unify_elements unifyTypes es1 es2 = Ok (Some es) →
  forallb wf es = true ∧ ∀ vs, Forall2 fits vs es1 ∨ Forall2 fits vs es2 → Forall2 fits vs es.
Proof.
  intros IH. revert es2 es. induction IH as [|e1 es1 He _ IH]; intros [|e2 es2] es H1 H2 Hl Hu; try done.
  - injection Hu as <-. split; [done|]. tauto.
  - cbn in H1, H2, Hu. apply andb_true_iff in H1 as [H1 H1']. apply andb_true_iff in H2 as [H2 H2'].
    apply outcome_bind_Ok in Hu as ([e|] & He' & Hu); [|done]. apply outcome_bind_Ok in Hu as ([rest|] & Hr & [= <-]).
    destruct (He e2 e H1 H2 He') as [Hwe Hfe]. injection Hl as Hl. destruct (IH es2 rest H1' H2' Hl Hr) as [Hwr Hfr].
    split; [cbn; by rewrite Hwe|]. intros vs [Hv|Hv]; inversion Hv; subst; constructor; auto.
Qed.

Lemma unify_deep_tuple es1 ns1 t2 t :
  Forall unifies_at es1 → wf (TupleType es1 ns1) = true → wf t2 = true →
  unify_deep (TupleType es1 ns1) t2 = Ok (Some t) → unifies (TupleType es1 ns1) t2 t.
Proof.
  intros IH H1 H2 Hu. destruct t2 as [| | | |es2 ns2| | | | | | | | | | | | | |]; try done. unfold unify_deep in Hu.
  case_bool_decide as Hl; [|done]. apply outcome_bind_Ok in Hu as ([es|] & Hes & [= <-]).
  destruct (unify_elements_sound es1 es2 es IH H1 H2 Hl Hes) as [Hw Hf]. split; [done|]. intros v Hv.
  destruct v; try (by destruct Hv). apply fits_tuple. apply Hf. by rewrite !fits_tuple in Hv.
Qed.

Lemma unify_deep_dict k1 v1 t2 t :
  unifies_at k1 → wf (DictType k1 v1) = true → wf t2 = true →
  unify_deep (DictType k1 v1) t2 = Ok (Some t) → unifies (DictType k1 v1) t2 t.
Proof.
  intros IH H1 H2 Hu. destruct t2 as [| | | | | |k2 v2| | | | | | | | | | | |]; try done. unfold unify_deep in Hu. cbn in H1, H2.
  apply andb_true_iff in H1 as [Hk1 Hv1]. apply andb_true_iff in H2 as [Hk2 Hv2].
  apply outcome_bind_Ok in Hu as (key & Hkey & Hu). apply outcome_bind_Ok in Hu as (u1 & Hu1 & Hu).
  apply outcome_bind_Ok in Hu as (u2 & Hu2 & Hu). destruct key as [key|]; [|done].
  destruct (tryEitherIsTheSuperType u1 u2) as [value|] eqn:Hvalue; [|done].
  apply outcome_bind_Ok in Hu as (d & Hd & [= <-]). apply unshapedType_sound in Hu1 as [Hw1 Hf1]; [|done].
  apply unshapedType_sound in Hu2 as [Hw2 Hf2]; [|done]. destruct (IH k2 key) as [_ Hfk]; [by apply wf_key..|done|].
  assert (d = DictType key value ∧ is_key key = true) as [-> Hkey'] by (destruct key; try done; by injection Hd as <-).
  split; [cbn; rewrite Hkey'; by apply (tryEither_wf u1 u2)|]. intros v Hv. destruct v; try (by destruct Hv).
  apply fits_dict. rewrite !fits_dict in Hv.
  destruct Hv as [Hv|Hv]; (eapply Forall_impl; [|exact Hv]); intros item [Hk Hw]; (split; [by auto|]);
    apply (tryEither_sound u1 u2); auto.
Qed.

Lemma unifyTypes_unifies t1 : unifies_at t1.
Proof.
  induction t1 using Ty_ind'; intros t2 t H1 H2 Hu; rewrite unifyTypes_eq in Hu;
    (destruct (unify_shallow _ t2) eqn:E; [injection Hu as <-; by apply unify_shallow_sound|]); try done.
  - by apply unify_deep_tuple.
  - by apply unify_deep_list.
  - by apply unify_deep_dict.
Qed.

(** It returns, when the classes inside have no shapes to forget. *)
Lemma unify_keys k1 k2 : is_key k1 = true → is_key k2 = true → unifyTypes k1 k2 = Ok (if eqb k1 k2 then Some k2 else None).
Proof. by destruct k1, k2. Qed.

Lemma unifyTypes_returns t1 : ∀ t2 u1 u2, wf t1 = true → wf t2 = true →
  unshapedType t1 = Ok u1 → unshapedType t2 = Ok u2 → returns (unifyTypes t1 t2) = true.
Proof.
  induction t1 using Ty_ind'; intros t2 u1 u2 H1 H2 Hu1 Hu2; rewrite unifyTypes_eq;
    (destruct (unify_shallow _ t2); [done|]); try done; destruct t2; try done; unfold unify_deep.
  - case_bool_decide as Hl; [|done]. cbn in Hu1, Hu2, H1, H2.
    apply outcome_bind_Ok in Hu1 as (cs1 & Hc1 & _). apply outcome_bind_Ok in Hu2 as (cs2 & Hc2 & _).
    apply mapM_Ok in Hc1, Hc2.
    cut (∃ r, unify_elements unifyTypes es elements_ = Ok r); [by intros [r ->]|].
    revert elements_ cs1 cs2 Hl H2 Hc1 Hc2. induction H as [|e1 es1 He _ IH]; intros [|e2 es2] cs1 cs2 Hl H2 Hc1 Hc2; try done.
    + by exists (Some []).
    + cbn in H1, H2. apply andb_true_iff in H1 as [H1 H1']. apply andb_true_iff in H2 as [H2 H2'].
      inversion Hc1; inversion Hc2; subst. injection Hl as Hl. cbn.
      assert (Hret : returns (unifyTypes e1 e2) = true) by by eapply He. revert Hret.
      destruct (unifyTypes e1 e2) as [[e|]|]; intros Hret; [|by exists None|done].
      cbn. edestruct IH as [r ->]; [done..|]. by eexists.
  - rewrite Hu1, Hu2. done.
  - cbn in H1, H2. apply andb_true_iff in H1 as [Hk1 Hv1]. apply andb_true_iff in H2 as [Hk2 Hv2].
    cbn in Hu1, Hu2. rewrite (unshapedType_key t1_1) in Hu1 by done. rewrite (unshapedType_key t2_1) in Hu2 by done. cbn in Hu1, Hu2.
    apply outcome_bind_Ok in Hu1 as (c1 & -> & _). apply outcome_bind_Ok in Hu2 as (c2 & -> & _).
    rewrite unify_keys by done. cbn. destruct (eqb _ _), (tryEitherIsTheSuperType c1 c2); try done. by destruct t2_1.
Qed.

(** ** Type variables of the JIT *)

(** No variable below an optional. *)
Fixpoint plain (t : Ty) : bool :=
  match t with
  | OptionalType e => negb (hasFreeVariables e)
  | ListType e | FutureType e => plain e
  | DictType k v => plain v
  | _ => true
  end.
(** A type variable of a formal argument may be optional itself. *)
Definition plain_argument (t : Ty) : bool := match t with OptionalType e => plain e | _ => plain t end.

Lemma key_closed k : is_key k = true → hasFreeVariables k = false.
Proof. by destruct k. Qed.

Lemma match_closed formal actual env :
  hasFreeVariables formal = false → matchTypeVariables formal actual env = (Ok (match_ok formal), env).
Proof. intros H. destruct formal; cbn in *; try rewrite H; done. Qed.
Lemma eval_closed env t : hasFreeVariables t = false → evalTypeVariables env t = Ok t.
Proof. intros H. destruct t; cbn in *; try rewrite H; done. Qed.

(** What a successful match leaves behind. *)
Definition matched (formal actual : Ty) (env : TypeEnv) (t : Ty) (env' : TypeEnv) : Prop :=
  ∃ r, matchTypeVariables formal actual env = (Ok r, env') ∧ type r = Some t.

(** The continuation of a match ran on the type that was matched. *)
Lemma on_type_matched f (m : SE TypeEnv MatchTypeReturn) env r env' t :
  (m ≫= λ r, on_type r f) env = (Ok r, env') → type r = Some t →
  ∃ r1 t1 env1, m env = (Ok r1, env1) ∧ type r1 = Some t1 ∧ f t1 env1 = (Ok r, env').
Proof.
  intros H Ht. apply SE_bind_Ok in H as (r1 & env1 & Hm & H). unfold on_type in H.
  destruct (type r1) as [t1|] eqn:E1; [by exists r1, t1, env1|]. injection H as <- <-. congruence.
Qed.

Lemma ret_matched t env r env' t' :
  (mret (match_ok t) : SE TypeEnv MatchTypeReturn) env = (Ok r, env') → type r = Some t' → t' = t ∧ env' = env.
Proof. intros [= <- <-] [= <-]. done. Qed.

(** A match of one element, and what is built around it. *)
Ltac matched_element Hm Ht :=
  destruct (on_type_matched _ _ _ _ _ _ Hm Ht) as (r1 & t1 & env1 & H1 & E1 & Hret);
  destruct (ret_matched _ _ _ _ _ Hret Ht) as [-> ->].

(** One unfolding for each type with variables inside. *)
Lemma matched_list e actual env t env' :
  hasFreeVariables e = true → matched (ListType e) actual env t env' →
  ∃ ae c, actual = ListType ae ∧ matched e ae env c env' ∧ t = ListType c.
Proof.
  intros Hv (r & Hm & Ht). cbn in Hm. rewrite Hv in Hm. cbn in Hm. destruct actual; try (injection Hm as <- <-; done).
  matched_element Hm Ht. eexists _, t1. split; [done|]. split; [by exists r1|done].
Qed.
Lemma matched_future e actual env t env' :
  hasFreeVariables e = true → matched (FutureType e) actual env t env' →
  ∃ ae c, actual = FutureType ae ∧ matched e ae env c env' ∧ t = FutureType c.
Proof.
  intros Hv (r & Hm & Ht). cbn in Hm. rewrite Hv in Hm. cbn in Hm. destruct actual; try (injection Hm as <- <-; done).
  matched_element Hm Ht. eexists _, t1. split; [done|]. split; [by exists r1|done].
Qed.
Lemma matched_optional e actual env t env' :
  hasFreeVariables e = true → matched (OptionalType e) actual env t env' →
  ∃ ae c, matched e ae env c env' ∧ (actual = OptionalType ae ∧ t = OptionalType_create c ∨ actual = ae ∧ t = c).
Proof.
  intros Hv (r & Hm & Ht). cbn [matchTypeVariables] in Hm.
  replace (hasFreeVariables (OptionalType e)) with true in Hm by done. cbn [negb] in Hm.
  assert (Hother : matchTypeVariables e actual env = (Ok r, env') →
    ∃ ae c, matched e ae env c env' ∧ (actual = OptionalType ae ∧ t = OptionalType_create c ∨ actual = ae ∧ t = c)).
  { intros H. exists actual, t. split; [by exists r|auto]. }
  destruct actual as [| | | | | | | | | | | | | | |ae| | |];
    try (destruct (isSubtypeOf _ NoneType); [injection Hm as <- <-; done|by apply Hother]).
  matched_element Hm Ht. exists ae, t1. split; [by exists r1|auto].
Qed.
Lemma matched_dict k v actual env t env' :
  is_key k = true → hasFreeVariables v = true → matched (DictType k v) actual env t env' →
  ∃ av c, matched v av env c env' ∧ t = DictType k c.
Proof.
  intros Hk Hv (r & Hm & Ht). cbn [matchTypeVariables] in Hm.
  replace (hasFreeVariables (DictType k v)) with true in Hm by (cbn; by rewrite Hv, orb_true_r). cbn [negb] in Hm.
  destruct actual as [| | | | | |ak av| | | | | | | | | | | |]; try (injection Hm as <- <-; done).
  destruct (on_type_matched _ _ _ _ _ _ Hm Ht) as (r1 & k1 & env1 & H1 & E1 & Hm2).
  rewrite match_closed in H1 by by apply key_closed. injection H1 as <- <-. injection E1 as <-.
  destruct (on_type_matched _ _ _ _ _ _ Hm2 Ht) as (r2 & c & env2 & H2 & E2 & Hm3).
  apply SE_bind_Ok in Hm3 as (d & env3 & Hd & Hret). destruct (ret_matched _ _ _ _ _ Hret Ht) as [-> ->].
  injection Hd as Hd <-. exists av, c. split; [by exists r2|]. destruct k; try done; by injection Hd as <-.
Qed.
Lemma matched_var x actual env t env' : matched (VarType x) actual env t env' → env' !! x = Some t.
Proof.
  intros (r & Hm & Ht). cbn in Hm. apply SE_bind_Ok in Hm as (e & env1 & [= <- <-] & Hm).
  destruct (env !! x) as [bound|].
  - apply SE_bind_Ok in Hm as (u & env2 & [= Hu <-] & Hm). destruct u as [u|]; [|injection Hm as <- <-; done].
    apply SE_bind_Ok in Hm as ([] & env3 & [= <-] & Hret).
    destruct (ret_matched _ _ _ _ _ Hret Ht) as [-> ->]. apply lookup_insert_eq.
  - apply SE_bind_Ok in Hm as ([] & env3 & [= <-] & Hret).
    destruct (ret_matched _ _ _ _ _ Hret Ht) as [-> ->]. apply lookup_insert_eq.
Qed.

(** The variables of a formal type that matching can bind: those outside of tuples. *)
Fixpoint free_names (t : Ty) : list string :=
  match t with
  | VarType x => [x]
  | ListType e | FutureType e | OptionalType e => free_names e
  | DictType k v => free_names k ++ free_names v
  | _ => []
  end.
Lemma closed_names t : hasFreeVariables t = false → free_names t = [].
Proof.
  induction t using Ty_ind'; cbn; try done. intros [H1 H2]%orb_false_iff. by rewrite IHt1, IHt2.
Qed.

(** A match binds them all, and then the formal type has a value. *)
Lemma matched_closes formal : ∀ actual env t env', wf formal = true → matched formal actual env t env' →
  (∀ x, x ∈ free_names formal → is_Some (env' !! x)) ∧ ∃ u, evalTypeVariables env' formal = Ok u.
Proof.
  induction formal using Ty_ind'; intros actual env t' env' Hw Hm.
  all: match goal with |- _ ∧ (∃ u, evalTypeVariables _ ?f = Ok u) => destruct (hasFreeVariables f) eqn:Hv end;
    [|rewrite closed_names, eval_closed by done; split; [by intros ? ?%not_elem_of_nil|by eexists]]; try done.
  - cbn in Hv. destruct (matched_list _ _ _ _ _ Hv Hm) as (ae & c & -> & Hc & ->).
    destruct (IHformal _ _ _ _ Hw Hc) as [Hb [u Hu]]. split; [done|]. cbn. rewrite Hv, Hu. cbn. rewrite withContained_list by done. by eexists.
  - cbn in Hv, Hw. apply andb_true_iff in Hw as [Hk Hw]. rewrite (key_closed _ Hk) in Hv. cbn in Hv.
    destruct (matched_dict _ _ _ _ _ _ Hk Hv Hm) as (av & c & Hc & ->).
    destruct (IHformal2 _ _ _ _ Hw Hc) as [Hb [u Hu]]. cbn. rewrite (closed_names formal1) by by apply key_closed. split; [done|].
    rewrite Hv, orb_true_r. cbn. rewrite (eval_closed _ formal1) by by apply key_closed. cbn. rewrite Hu.
    cbn. rewrite withContained_dict by done. by eexists.
  - cbn in Hv. destruct (matched_future _ _ _ _ _ Hv Hm) as (ae & c & -> & Hc & ->).
    destruct (IHformal _ _ _ _ Hw Hc) as [Hb [u Hu]]. split; [done|]. cbn. rewrite Hv, Hu. cbn. rewrite withContained_future by done. by eexists.
  - cbn in Hv, Hw. apply andb_true_iff in Hw as [Ho%negb_true_iff Hw]. destruct (matched_optional _ _ _ _ _ Hv Hm) as (ae & c & Hc & _).
    destruct (IHformal _ _ _ _ Hw Hc) as [Hb [u Hu]]. split; [done|]. cbn. rewrite Hv, Hu. cbn. rewrite withContained_optional by done. by eexists.
  - pose proof (matched_var _ _ _ _ _ Hm) as Hx. split.
    + intros y ->%list_elem_of_singleton. by eexists.
    + cbn. rewrite Hx. by eexists.
Qed.

(** ** Matching, then evaluating *)
Lemma matched_eval formal : ∀ actual env t env', wf formal = true → plain formal = true →
  matched formal actual env t env' → evalTypeVariables env' formal = Ok t.
Proof.
  induction formal using Ty_ind'; intros actual env t' env' Hw Hp Hm.
  all: match goal with |- evalTypeVariables _ ?f = _ => destruct (hasFreeVariables f) eqn:Hv end;
    [|destruct Hm as (r & Hm & Ht); rewrite match_closed in Hm by done; injection Hm as <- <-; injection Ht as <-;
      by apply eval_closed]; try done.
  - cbn in Hv. destruct (matched_list _ _ _ _ _ Hv Hm) as (ae & c & -> & Hc & ->). cbn. rewrite Hv. cbn.
    rewrite (IHformal _ _ _ _ Hw Hp Hc). apply withContained_list.
  - cbn in Hv, Hw. apply andb_true_iff in Hw as [Hk Hw]. rewrite (key_closed _ Hk) in Hv. cbn in Hv.
    destruct (matched_dict _ _ _ _ _ _ Hk Hv Hm) as (av & c & Hc & ->). cbn. rewrite Hv, orb_true_r. cbn.
    rewrite (eval_closed _ formal1) by by apply key_closed. cbn. rewrite (IHformal2 _ _ _ _ Hw Hp Hc).
    by apply withContained_dict.
  - cbn in Hv. destruct (matched_future _ _ _ _ _ Hv Hm) as (ae & c & -> & Hc & ->). cbn. rewrite Hv. cbn.
    rewrite (IHformal _ _ _ _ Hw Hp Hc). apply withContained_future.
  - cbn in Hp, Hv. by rewrite Hv in Hp.
  - cbn. by rewrite (matched_var _ _ _ _ _ Hm).
Qed.

Lemma matched_eval_argument formal actual env t env' : wf formal = true → plain_argument formal = true →
  matched formal actual env t env' →
  ∃ t', evalTypeVariables env' formal = Ok t' ∧ (t' = t ∨ t' = OptionalType_create t).
Proof.
  intros Hw Hp Hm. destruct formal as [| | | | | | | | | | | | | | |e| | |]; try (eexists; split; [by eapply matched_eval|auto]).
  cbn in Hp, Hw. apply andb_true_iff in Hw as [Ho Hw]. apply negb_true_iff in Ho.
  destruct (hasFreeVariables e) eqn:Hv.
  - destruct (matched_optional _ _ _ _ _ Hv Hm) as (ae & c & Hc & Hcases).
    exists (OptionalType_create c). split.
    + cbn. rewrite Hv. cbn. rewrite (matched_eval _ _ _ _ _ Hw Hp Hc). by apply withContained_optional.
    + destruct Hcases as [[_ ->]|[_ ->]]; auto.
  - destruct Hm as (r & Hm & Ht). rewrite match_closed in Hm by done. injection Hm as <- <-. injection Ht as <-.
    eexists. split; [by apply eval_closed|auto].
Qed.
