(* ===== verification/JitProfiled.v ===== *)
(** * Profiled shapes (aten/src/ATen/core/jit_type.h, type.cpp)

    [VaryingShape] and [ProfiledTensorType]: what several runs of a program agree on.
    [dims_] is read with [operator[]], which is undefined past the end. *)
From S2P Require Import Prelude Text CoreTypes ScalarTypes JitTypes.
Local Open Scope Z_scope.
Import ScalarType.

Module JitProfiled.

Definition merge_primitive {T} `{EqDecision T} (a b : option T) : option T :=
  match a, b with Some x, Some y => if decide (x = y) then a else None | _, _ => None end.

Record VaryingShape : Type := mkVaryingShape { size_ : option nat; dims_ : list (option Z) }.
#[export] Instance VaryingShape_eq_dec : EqDecision VaryingShape.
Proof. solve_decision. Defined.

(** The constructors from sizes and from a rank. *)
Definition VaryingShape_of (vec : list Z) : VaryingShape := mkVaryingShape (Some (length vec)) (Some <$> vec).
Definition VaryingShape_ranked (size : option nat) : VaryingShape :=
  mkVaryingShape size (replicate (default 0%nat size) None).

(** [operator==]: [size_ != other.size_ && dims_ == dims_]. *)
Definition VaryingShape_eqb (self other : VaryingShape) : bool :=
  bool_decide (size_ self ≠ size_ other) && bool_decide (dims_ self = dims_ self).

Definition VaryingShape_get (self : VaryingShape) (i : nat) : outcome (option Z) :=
  match size_ self with
  | None => Throw (RuntimeError "Rank isn't fixed")
  | Some _ => match dims_ self !! i with Some d => Ok d | None => Throw (Prelude.Undefined "operator[]") end
  end.

(** [size()]: an optional without a value equals no number. *)
Definition VaryingShape_size (self : VaryingShape) : outcome (option nat) :=
  AT_ASSERT (bool_decide (size_ self = Some (length (dims_ self))));; Ok (size_ self).

Definition VaryingShape_merge (self other : VaryingShape) : outcome VaryingShape :=
  if bool_decide (size_ self ≠ size_ other) then Ok (VaryingShape_ranked None)
  else
    dims ← mapM (λ i,
      match dims_ self !! i, dims_ other !! i with
      | Some a, Some b => Ok (merge_primitive a b)
      | _, _ => Throw (Prelude.Undefined "operator[]")
      end) (seq 0 (length (dims_ self)));
    Ok (mkVaryingShape (Some (length (dims_ self))) dims).

Definition concrete_sizes (self : VaryingShape) : option (list Z) :=
  match size_ self with None => None | Some _ => mapM id (dims_ self) end.

Record ProfiledTensorType : Type := mkProfiled {
  kind_ : JitTypes.TypeKind;
  scalar_type_ : option ScalarType;
  device_ : option Device;
  sizes_ : VaryingShape;
  strides_ : VaryingShape;
  requires_grad_ : option bool
}.

(** Both constructors run [TensorType()], which sets the kind. *)
Definition Profiled_make (scalar_type : option ScalarType) (device : option Device) (sizes strides : VaryingShape)
    (requires_grad : option bool) : ProfiledTensorType :=
  mkProfiled JitTypes.KTensorType scalar_type device sizes strides requires_grad.
Definition Profiled_of_tensor (scalar_type : ScalarType) (device : Device) (sizes strides : list Z) (requires_grad : bool)
    : ProfiledTensorType :=
  Profiled_make (Some scalar_type) (Some device) (VaryingShape_of sizes) (VaryingShape_of strides) (Some requires_grad).

Definition Profiled_merge (self other : ProfiledTensorType) : outcome ProfiledTensorType :=
  let scalar_type := merge_primitive (scalar_type_ self) (scalar_type_ other) in
  let dev := merge_primitive (device_ self) (device_ other) in
  sz ← VaryingShape_merge (sizes_ self) (sizes_ other);
  srs ← VaryingShape_merge (strides_ self) (strides_ other);
  let gr := merge_primitive (requires_grad_ self) (requires_grad_ other) in
  Ok (Profiled_make scalar_type dev sz srs gr).

(** [numel]: the loop asks [size()] before every dimension; [fuel] bounds the dimensions
    and [prod] is a [size_t]. *)
Fixpoint numel_loop (shape : VaryingShape) (fuel i : nat) (prod : Z) : outcome (option Z) :=
  size ← VaryingShape_size shape;
  match fuel, size with
  | S fuel, Some n =>
      if bool_decide (i < n)%nat then
        d ← VaryingShape_get shape i;
        match d with None => Ok None | Some d => numel_loop shape fuel (S i) (wrapU 64 (prod * d)) end
      else Ok (Some prod)
  | _, _ => Ok (Some prod)
  end.
Definition Profiled_numel (self : ProfiledTensorType) : outcome (option Z) :=
  numel_loop (sizes_ self) (S (length (dims_ (sizes_ self)))) 0 1.
End JitProfiled.

(** ** Shapes as sets of concrete sizes *)
Import JitProfiled.

(** The shapes the constructors build. *)
Definition shape_wf (vs : VaryingShape) : Prop := dims_ vs = [] ∧ size_ vs = None ∨ size_ vs = Some (length (dims_ vs)).
(** The sizes a shape stands for. *)
Definition dim_admits (d : option Z) (s : Z) : Prop := d = None ∨ d = Some s.
Definition admits (vs : VaryingShape) (sizes : list Z) : Prop :=
  match size_ vs with None => True | Some _ => Forall2 dim_admits (dims_ vs) sizes end.
(** The merge, dimension by dimension. *)
Definition merge_dims (a b : list (option Z)) : list (option Z) := zip_with merge_primitive a b.

Lemma merge_primitive_admits a b s : dim_admits a s ∨ dim_admits b s → dim_admits (merge_primitive a b) s.
Proof.
  unfold dim_admits, merge_primitive. destruct a as [x|], b as [y|]; auto.
  case_decide; [subst|auto]. intros [[?|[= ->]]|[?|[= ->]]]; auto.
Qed.
Lemma merge_primitive_least a b d : 
  (∀ s, dim_admits a s ∨ dim_admits b s → dim_admits d s) → ∀ s, dim_admits (merge_primitive a b) s → dim_admits d s.
Proof.
  unfold dim_admits, merge_primitive. intros H s. destruct a as [x|], b as [y|]; [|by auto..].
  case_decide as E; [subst; intros [|[= ->]]; [done|]; auto|]. intros _.
  destruct (H x) as [|Hx]; [auto|auto|]. destruct (H y) as [|Hy]; [auto|auto|]. congruence.
Qed.

Lemma merge_ranked a b n :
  size_ a = Some n → size_ b = Some n → length (dims_ a) = n → length (dims_ b) = n →
  VaryingShape_merge a b = Ok (mkVaryingShape (Some n) (merge_dims (dims_ a) (dims_ b))).
Proof.
  intros Sa Sb La Lb. unfold VaryingShape_merge. rewrite bool_decide_eq_false_2 by (rewrite Sa, Sb; tauto).
  rewrite (mapM_fmap_Ok _ (λ i, merge_primitive (default None (dims_ a !! i)) (default None (dims_ b !! i)))).
  - cbn. rewrite La. do 2 f_equal. apply list_eq. intros i. rewrite list_lookup_fmap. unfold merge_dims.
    rewrite lookup_zip_with. destruct (decide (i < n)%nat) as [Hi|Hi].
    + rewrite lookup_seq_lt by done. destruct (lookup_lt_is_Some_2 (dims_ a) i) as [x Hx]; [lia|].
      destruct (lookup_lt_is_Some_2 (dims_ b) i) as [y Hy]; [lia|]. cbn. by rewrite Hx, Hy.
    + rewrite lookup_seq_ge by lia. rewrite (lookup_ge_None_2 (dims_ a)) by lia. done.
  - intros i Hi%elem_of_seq. destruct (lookup_lt_is_Some_2 (dims_ a) i) as [x Hx]; [lia|].
    destruct (lookup_lt_is_Some_2 (dims_ b) i) as [y Hy]; [lia|]. by rewrite Hx, Hy.
Qed.

(** Some sizes of a ranked shape, and the shape they come from with one of them changed. *)
Definition some_sizes (dims : list (option Z)) : list Z := default 0 <$> dims.
Lemma some_sizes_admitted dims : Forall2 dim_admits dims (some_sizes dims).
Proof. unfold some_sizes. induction dims as [|[d|] dims IH]; constructor; try done; [by right|by left]. Qed.
Lemma some_sizes_insert dims i d s :
  dims !! i = Some d → dim_admits d s → Forall2 dim_admits dims (<[i:=s]> (some_sizes dims)).
Proof.
  intros Hi Hd. apply Forall2_same_length_lookup_2.
  { unfold some_sizes. by rewrite length_insert, length_fmap. }
  intros j x y Hx Hy. destruct (decide (i = j)) as [<-|Hij].
  - rewrite list_lookup_insert_eq in Hy by (unfold some_sizes; rewrite length_fmap; by eapply lookup_lt_Some).
    simplify_eq. done.
  - rewrite list_lookup_insert_ne in Hy by done. eapply Forall2_lookup_lr; [apply some_sizes_admitted|done..].
Qed.

Lemma admits_ranked vs n s : size_ vs = Some n → admits vs s ↔ Forall2 dim_admits (dims_ vs) s.
Proof. unfold admits. by intros ->. Qed.
Lemma shape_wf_ranked vs n : shape_wf vs → size_ vs = Some n → length (dims_ vs) = n.
Proof. intros [[_ H]|H] E; rewrite H in E; [done|by injection E]. Qed.
Lemma merge_differs a b : size_ a ≠ size_ b → VaryingShape_merge a b = Ok (VaryingShape_ranked None).
Proof. intros H. unfold VaryingShape_merge. by rewrite bool_decide_eq_true_2. Qed.

(** Upper bounds of two shapes of one rank. *)
Lemma merge_dims_admits da db s :
  length da = length db → Forall2 dim_admits da s ∨ Forall2 dim_admits db s → Forall2 dim_admits (merge_dims da db) s.
Proof.
  intros Hl Hs. assert (Hls : length s = length da) by (destruct Hs as [Hs|Hs]; apply Forall2_length in Hs; lia).
  apply Forall2_same_length_lookup_2; [unfold merge_dims; rewrite length_zip_with; lia|]. intros i m x Hm Hx.
  apply lookup_zip_with_Some in Hm as (p & q & -> & Hp & Hq). apply merge_primitive_admits.
  destruct Hs as [Hs|Hs]; [left|right]; by eapply Forall2_lookup_lr.
Qed.
Lemma merge_dims_least da db dc :
  length da = length db → (∀ s, Forall2 dim_admits da s ∨ Forall2 dim_admits db s → Forall2 dim_admits dc s) →
  ∀ s, Forall2 dim_admits (merge_dims da db) s → Forall2 dim_admits dc s.
Proof.
  intros Hl H s Hs. assert (Hlc : length dc = length da).
  { pose proof (Forall2_length (H _ (or_introl (some_sizes_admitted da)))) as E. unfold some_sizes in E.
    by rewrite length_fmap in E. }
  pose proof (Forall2_length Hs) as Hls. unfold merge_dims in Hls. rewrite length_zip_with in Hls.
  apply Forall2_same_length_lookup_2; [lia|]. intros i d x Hd Hx.
  assert (Hi : (i < length dc)%nat) by by eapply lookup_lt_Some.
  destruct (lookup_lt_is_Some_2 da i) as [p Hp]; [lia|]. destruct (lookup_lt_is_Some_2 db i) as [q Hq]; [lia|].
  apply (merge_primitive_least p q).
  - intros y [Hy|Hy].
    + eapply (Forall2_lookup_lr _ dc (<[i:=y]> (some_sizes da)) i); [apply H; left; by eapply some_sizes_insert|done|].
      apply list_lookup_insert_eq. unfold some_sizes. rewrite length_fmap. lia.
    + eapply (Forall2_lookup_lr _ dc (<[i:=y]> (some_sizes db)) i); [apply H; right; by eapply some_sizes_insert|done|].
      apply list_lookup_insert_eq. unfold some_sizes. rewrite length_fmap. lia.
  - eapply Forall2_lookup_lr; [exact Hs| |exact Hx]. apply lookup_zip_with_Some. eauto.
Qed.

(** A shape above lists of two lengths has no rank. *)
Lemma unranked_of_lengths c s1 s2 :
  admits c s1 → admits c s2 → length s1 ≠ length s2 → size_ c = None.
Proof.
  unfold admits. destruct (size_ c); [|done]. intros H1%Forall2_length H2%Forall2_length H. lia.
Qed.
Lemma admits_of_length vs : shape_wf vs → ∃ s, admits vs s ∧ length s = length (dims_ vs).
Proof.
  intros Hw. exists (some_sizes (dims_ vs)). unfold some_sizes at 2. rewrite length_fmap. split; [|done].
  unfold admits. destruct (size_ vs); [apply some_sizes_admitted|done].
Qed.
Lemma unranked_above a b c :
  shape_wf a → shape_wf b → size_ a ≠ size_ b → (∀ s, admits a s ∨ admits b s → admits c s) → size_ c = None.
Proof.
  intros Ha Hb Hne H.
  assert (Hnone : ∀ x, size_ x = None → (∀ s, admits x s → admits c s) → size_ c = None).
  { intros x Hx Hs. apply (unranked_of_lengths c [] [0]); [..|done]; apply Hs; unfold admits; by rewrite Hx. }
  destruct (size_ a) as [n|] eqn:Ea; [|by apply (Hnone a); auto].
  destruct (size_ b) as [m|] eqn:Eb; [|by apply (Hnone b); auto].
  destruct (admits_of_length a Ha) as (s1 & H1 & L1). destruct (admits_of_length b Hb) as (s2 & H2 & L2).
  apply (unranked_of_lengths c s1 s2); [auto..|].
  rewrite L1, L2, (shape_wf_ranked a n), (shape_wf_ranked b m) by done. congruence.
Qed.
