(* ===== verification/JitTypesProperties.v ===== *)
(** * Properties of the JIT's types *)
From S2P Require Import Prelude Text CoreTypes ScalarTypes JitTypes JitTypesSpec JitTypesValues JitProfiled.
Local Open Scope Z_scope.
Local Open Scope string_scope.
Import ScalarType JitTypes JitProfiled.

(** ** Sample types *)
Module Sample.
Definition cpu : Device := Device.mkDevice DeviceType.CPU (-1).
Definition matrix : Ty := CompleteTensorType_make Float cpu [2; 3].
Definition vector : Ty := DimensionedTensorType (Dimensioned_make Float cpu 1 true).
Definition two_dims : Ty := DimensionedTensorType (Dimensioned_make Float cpu 2 true).
Definition point : Ty := TupleType [IntType; IntType] (Some ["x"; "y"]).
End Sample.

(** ** Subtyping *)

(** C32: [isSubtypeOf] is a partial order up to [operator==] on well-formed types: equal
    types are subtypes of each other, the relation is transitive, and subtypes of each
    other are equal. *)
Theorem subtyping_order :
  (∀ a b, eqb a b = true → isSubtypeOf a b = true) ∧
  (∀ a b c, wf a = true → wf b = true → isSubtypeOf a b = true → isSubtypeOf b c = true → isSubtypeOf a c = true) ∧
  (∀ a b, isSubtypeOf a b = true → isSubtypeOf b a = true → eqb a b = true).
Proof.
  split; [|split].
  - intros a b. rewrite isSubtypeOf_rules. apply eqb_sub.
  - intros a b c Ha Hb. rewrite !isSubtypeOf_rules. by apply sub_trans.
  - intros a b. rewrite !isSubtypeOf_rules. apply sub_antisym.
Qed.
Lemma subtyping_order_witness :
  isSubtypeOf Sample.matrix Sample.two_dims = true ∧ isSubtypeOf Sample.matrix (OptionalType TensorType) = true.
Proof.
  destruct subtyping_order as (_ & Htrans & _). split; [by vm_compute|].
  apply (Htrans Sample.matrix Sample.two_dims (OptionalType TensorType)); by vm_compute.
Defined.

(** [isSubtypeOf] decides the rules of subtyping: equality, the tensor types below
    Tensor, int and float below Scalar, covariance of optionals, tuples and dictionaries,
    a named tuple below the unnamed one, and the subtypes of T below T? unless they are
    dictionaries, classes or None. *)
Theorem isSubtypeOf_decides_rules a b : isSubtypeOf a b = true ↔ sub a b.
Proof. apply isSubtypeOf_rules. Qed.

(** The comment above OptionalType has every subtype of T below T?. *)
Theorem optional_excludes k v q ns ts :
  isSubtypeOf (DictType k v) (OptionalType (DictType k v)) = false ∧
  isSubtypeOf (ClassType q ns ts) (OptionalType (ClassType q ns ts)) = false.
Proof. done. Qed.

(** C33: Subsumption: a value of a well-formed type is a value of its supertypes. *)
Theorem subtyping_sound v t t' :
  wf t = true → isSubtypeOf t t' = true → isSubvalueOf v t = Ok true → isSubvalueOf v t' = Ok true.
Proof. intros Hw Hs Hv. by apply (fits_subtype v t). Qed.
Lemma subtyping_sound_witness :
  isSubvalueOf (VTuple [VInt; VNone]) (TupleType [NumberType; OptionalType BoolType] None) = Ok true.
Proof.
  apply (subtyping_sound _ (TupleType [IntType; OptionalType BoolType] (Some ["a"; "b"]))); by vm_compute.
Defined.

(** ** Unification *)

(** C34: When [unifyTypes] returns a type for two well-formed types it is well-formed and
    has every value of both. *)
Theorem unifyTypes_sound t1 t2 t :
  wf t1 = true → wf t2 = true → unifyTypes t1 t2 = Ok (Some t) →
  wf t = true ∧ ∀ v, isSubvalueOf v t1 = Ok true ∨ isSubvalueOf v t2 = Ok true → isSubvalueOf v t = Ok true.
Proof. intros H1 H2 Hu. exact (unifyTypes_unifies t1 t2 t H1 H2 Hu). Qed.
Lemma unifyTypes_sound_witness :
  ∃ t, unifyTypes (TupleType [ListType Sample.vector; NoneType] None) (TupleType [ListType Sample.matrix; IntType] None) = Ok (Some t) ∧
    isSubvalueOf (VTuple [VGenericList [VTensor Float Sample.cpu true [2; 3] [3; 1]]; VInt]) t = Ok true.
Proof.
  exists (TupleType [ListType TensorType; OptionalType IntType] None). split; [by vm_compute|].
  apply (unifyTypes_sound (TupleType [ListType Sample.vector; NoneType] None) (TupleType [ListType Sample.matrix; IntType] None));
    [by vm_compute..|]. right. by vm_compute.
Defined.

(** [unifyTypes] never throws on well-formed types whose shapes can be forgotten. *)
Theorem unifyTypes_total t1 t2 :
  wf t1 = true → wf t2 = true → returns (unshapedType t1) = true → returns (unshapedType t2) = true →
  ∃ result, unifyTypes t1 t2 = Ok result.
Proof.
  intros H1 H2 Hu1 Hu2. destruct (unshapedType t1) as [u1|] eqn:E1, (unshapedType t2) as [u2|] eqn:E2; try done.
  pose proof (unifyTypes_returns t1 t2 u1 u2 H1 H2 E1 E2) as Hr. destruct (unifyTypes t1 t2); [eauto|done].
Qed.
Lemma unifyTypes_total_witness :
  ∃ result, unifyTypes (DictType StringType Sample.matrix) (DictType IntType Sample.vector) = Ok result.
Proof. apply unifyTypes_total; by vm_compute. Defined.

(** ** Type variables *)

(** C35: When a well-formed formal type matches an actual one, its variables outside of
    tuples are bound afterwards, and evaluating it under the bindings returns a type: the
    matched one when no variable is below an optional, and one with all values of the
    matched type when the only optional above a variable is the outermost constructor.
    The theorems below show why tuples and nested optionals are left out. *)
Theorem match_then_eval formal actual env r env' t :
  wf formal = true → matchTypeVariables formal actual env = (Ok r, env') → type r = Some t →
  (∀ x, x ∈ free_names formal → is_Some (env' !! x)) ∧
  ∃ t', evalTypeVariables env' formal = Ok t' ∧ (plain formal = true → t' = t) ∧
    (plain_argument formal = true → ∀ v, isSubvalueOf v t = Ok true → isSubvalueOf v t' = Ok true).
Proof.
  intros Hw Hm Ht. assert (Hmatched : matched formal actual env t env') by by exists r.
  destruct (matched_closes formal actual env t env' Hw Hmatched) as [Hb [t' He]]. split; [done|]. exists t'. split; [done|]. split.
  - intros Hp. assert (evalTypeVariables env' formal = Ok t) as Ht' by by eapply matched_eval. congruence.
  - intros Hp v Hv. destruct (matched_eval_argument formal actual env t env' Hw Hp Hmatched) as (u & Hu & Hcases).
    assert (t' = u) as -> by congruence. destruct Hcases as [->| ->]; [done|by apply fits_optional_create].
Qed.
Lemma match_then_eval_witness :
  is_Some (({["t" := IntType]} : TypeEnv) !! "t") ∧
  ∃ t', evalTypeVariables {["t" := IntType]} (OptionalType (ListType (VarType "t"))) = Ok t' ∧
    isSubvalueOf VIntList t' = Ok true.
Proof.
  destruct (match_then_eval (OptionalType (ListType (VarType "t"))) (ListType IntType) ∅ (match_ok (ListType IntType))
    {["t" := IntType]} (ListType IntType)) as (Hb & t' & He & _ & Hv); [by vm_compute..|done|].
  split; [apply Hb; by apply list_elem_of_here|]. exists t'. split; [done|]. by apply Hv.
Defined.

(** A tuple never has free variables: the constructor looks for them in the vector it
    has moved from.  A formal tuple matches everything, and binds nothing. *)
Theorem tuple_variables_unbound es ns actual env :
  hasFreeVariables (TupleType es ns) = false ∧
  matchTypeVariables (TupleType es ns) actual env = (Ok (match_ok (TupleType es ns)), env).
Proof. split; [done|by apply match_closed]. Qed.

(** Below a list an optional formal type is matched by lists without the optional. *)
Theorem optional_in_list_matched :
  matchTypeVariables (ListType (OptionalType (VarType "t"))) (ListType IntType) ∅ =
    (Ok (match_ok (ListType IntType)), {["t" := IntType]}) ∧
  evalTypeVariables {["t" := IntType]} (ListType (OptionalType (VarType "t"))) = Ok (ListType (OptionalType IntType)) ∧
  isSubvalueOf VIntList (ListType IntType) = Ok true ∧
  isSubvalueOf VIntList (ListType (OptionalType IntType)) = Ok false.
Proof. by vm_compute. Qed.

(** ** Names of classes *)
Lemma rfind_split c s pos : rfind c s = Some pos → str_take pos s +:+ String c (str_drop (S pos) s) = s.
Proof.
  revert pos. induction s as [|c' s IH]; intros pos H; [done|]. cbn in H. destruct (rfind c s) as [n|] eqn:E.
  - injection H as <-. exact (f_equal (String c') (IH n eq_refl)).
  - destruct (Ascii.eqb_spec c' c) as [->|]; [|done]. injection H as <-. done.
Qed.

(** The constructor of ClassType takes exactly the names that have a dot, and not as
    their last character: an unqualified name, which the constructor provides for, fails
    its last assertion. *)
Theorem ClassType_needs_qualifier q :
  ClassType_make q =
  match rfind "."%char q with
  | Some pos => if bool_decide (pos < String.length q - 1)%nat then Ok (ClassType q [] []) else Throw (C10Error "assertion failed")
  | None => Throw (C10Error "assertion failed")
  end.
Proof.
  unfold ClassType_make, qualifier, basename. destruct (rfind "."%char q) as [pos|] eqn:E.
  - replace (str_take pos q +:+ "." +:+ str_drop (S pos) q) with q by (symmetry; exact (rfind_split _ _ _ E)).
    rewrite String.eqb_refl. by case_bool_decide.
  - replace (("" +:+ "." +:+ q) =? q) with false; [done|]. symmetry. apply String.eqb_neq. intros Hq.
    apply (f_equal String.length) in Hq.
    change (S (String.length q) = String.length q) in Hq. lia.
Qed.

(** An attribute that is added under a new name gets the next slot. *)
Lemma position_fresh name names : existsb (String.eqb name) names = false → position name (names ++ [name])%list = length names.
Proof.
  induction names as [|n names IH]; cbn; [by rewrite String.eqb_refl|].
  intros [H1 H2]%orb_false_iff. rewrite H1. by rewrite IH.
Qed.
Theorem addAttribute_slot q ns ts name t ns' ts' :
  length ns = length ts → hasAttribute ns name = false → addAttribute q ns ts name t = ClassType q ns' ts' →
  getAttributeSlot ns' ts' name = Ok (length ns) ∧ getAttribute ns' ts' name = Ok (Some t).
Proof.
  intros Hl Hf [= <- <-]. unfold getAttributeSlot, getAttribute. rewrite position_fresh by done.
  rewrite !bool_decide_eq_true_2 by (rewrite !length_app; cbn; lia). rewrite bool_decide_eq_false_2 by (rewrite length_app; cbn; lia).
  split; [done|]. cbn. by rewrite Hl, list_lookup_middle.
Qed.

(** ** Profiles *)

(** Merging two profiled shapes, not both of them without a rank, gives the least shape
    above both: it admits the sizes both admit, and every shape that admits these admits
    what the merge does. *)
Theorem VaryingShape_merge_least a b :
  shape_wf a → shape_wf b → size_ a ≠ None ∨ size_ b ≠ None →
  ∃ m, VaryingShape_merge a b = Ok m ∧ shape_wf m ∧ (∀ s, admits a s ∨ admits b s → admits m s) ∧
    ∀ c, (∀ s, admits a s ∨ admits b s → admits c s) → ∀ s, admits m s → admits c s.
Proof.
  intros Ha Hb Hr. destruct (decide (size_ a = size_ b)) as [E|E].
  - destruct (size_ a) as [n|] eqn:Ea; [|by rewrite <- E in Hr; destruct Hr]. symmetry in E.
    pose proof (shape_wf_ranked a n Ha Ea) as La. pose proof (shape_wf_ranked b n Hb E) as Lb.
    eexists. split; [by apply merge_ranked|]. split.
    { right. cbn. f_equal. unfold merge_dims. rewrite length_zip_with. lia. }
    split.
    + intros s. rewrite (admits_ranked a n), (admits_ranked b n) by done. apply merge_dims_admits. lia.
    + intros c Hc s Hs. unfold admits in Hs |- *. cbn in Hs. destruct (size_ c) as [k|] eqn:Ec; [|done].
      eapply merge_dims_least; [|exact (λ s H, proj1 (admits_ranked c k s Ec) (Hc s ltac:(
        rewrite (admits_ranked a n), (admits_ranked b n) by done; exact H)))|exact Hs]. lia.
  - exists (VaryingShape_ranked None). split; [by apply merge_differs|]. split; [by left|]. split; [done|].
    intros c Hc s _. unfold admits. by rewrite (unranked_above a b c Ha Hb E Hc).
Qed.
Lemma VaryingShape_merge_least_witness :
  ∃ m, VaryingShape_merge (VaryingShape_of [2; 3]) (VaryingShape_of [2; 4]) = Ok m ∧ admits m [2; 3].
Proof.
  destruct (VaryingShape_merge_least (VaryingShape_of [2; 3]) (VaryingShape_of [2; 4])) as (m & Hm & _ & Ha & _);
    [by right|by right|by left|].
  exists m. split; [done|]. apply Ha. left. repeat constructor; by right.
Defined.

(** Two shapes without a rank merge into the shape of a scalar, which admits no sizes
    but the empty ones. *)
Theorem VaryingShape_merge_unranked :
  VaryingShape_merge (VaryingShape_ranked None) (VaryingShape_ranked None) = Ok (VaryingShape_of []) ∧
  ∀ s, admits (VaryingShape_of []) s ↔ s = [].
Proof. split; [done|]. intros s. split; [intros H; by inversion H|intros ->; constructor]. Qed.

(** [operator==] of shapes holds exactly when their ranks differ, so that a shape never
    equals itself; and a profiled type has the kind of a plain tensor type. *)
Theorem VaryingShape_eqb_inverted a b : VaryingShape_eqb a b = true ↔ size_ a ≠ size_ b.
Proof.
  unfold VaryingShape_eqb. rewrite andb_true_iff, !bool_decide_eq_true. tauto.
Qed.

(** [size()] of a shape without a rank fails its assertion. *)
Theorem VaryingShape_size_unranked : VaryingShape_size (VaryingShape_ranked None) = Throw (C10Error "assertion failed").
Proof. done. Qed.

Theorem Profiled_kind scalar_type device sizes strides requires_grad :
  kind_ (Profiled_make scalar_type device sizes strides requires_grad) = KTensorType.
Proof. done. Qed.
