(* ===== verification/TensorIterator.v ===== *)
(** * TensorIterator (aten/src/ATen/native/TensorIterator.h, TensorIterator.cpp)

    The iterator as a record, built from its operands step by step, and its loops as the
    lists of calls they make of the function they are given.  A [char*] is an integer.
    The functions that allocate, resize and convert tensors are reached through the
    generated dispatch code: they are the class [TensorOps]. *)
From S2P Require Import Prelude CoreTypes ScalarTypes TensorIds Options Geometry.
Local Open Scope Z_scope.
Local Open Scope cpp_scope.
Import ScalarType.

Module TensorIterator.

(** What the iterator reads of a tensor; [tensor_id] is what [is_same] compares. *)
Record Tensor : Type := mkTensor {
  tensor_id : positive;
  sizes : list Z;
  strides : list Z;
  tensor_data : Z;
  scalar_type : ScalarType;
  tensor_backend : Backend.Backend;
  is_wrapped_number : bool
}.
Definition dim (t : Tensor) : Z := vec_size (sizes t).

Class TensorOps : Type := {
  empty_strided : list Z → list Z → TensorOptions.TensorOptions → outcome Tensor;
  resize_ : Tensor → list Z → outcome Tensor;
  to : Tensor → TensorOptions.TensorOptions → outcome Tensor
}.

Record OperandInfo : Type := mkOperand {
  stride_bytes : list Z;
  tensor : option Tensor;
  backend : Backend.Backend;
  dtype : ScalarType;
  data : Z;
  is_output : bool;
  is_read_write : bool
}.
Definition set_stride_bytes (st : list Z) (op : OperandInfo) : OperandInfo :=
  mkOperand st (tensor op) (backend op) (dtype op) (data op) (is_output op) (is_read_write op).
Definition set_tensor (t : Tensor) (op : OperandInfo) : OperandInfo :=
  mkOperand (stride_bytes op) (Some t) (backend op) (dtype op) (data op) (is_output op) (is_read_write op).
Definition set_data (p : Z) (op : OperandInfo) : OperandInfo :=
  mkOperand (stride_bytes op) (tensor op) (backend op) (dtype op) p (is_output op) (is_read_write op).
Definition set_flags (output read_write : bool) (op : OperandInfo) : OperandInfo :=
  mkOperand (stride_bytes op) (tensor op) (backend op) (dtype op) (data op) output read_write.

(** The constructor: a tensor gives the type that is not requested. *)
Definition OperandInfo_make (t : option Tensor) (backend : Backend.Backend) (dtype : ScalarType) : OperandInfo :=
  let undefined := bool_decide (backend = Backend.Undefined) || bool_decide (dtype = Undefined) in
  match t with
  | Some t' => if undefined then mkOperand [] t (tensor_backend t') (scalar_type t') 0 false false
               else mkOperand [] t backend dtype 0 false false
  | None => mkOperand [] t backend dtype 0 false false
  end.
Definition is_type_defined (op : OperandInfo) : bool :=
  negb (bool_decide (dtype op = Undefined)) && negb (bool_decide (backend op = Backend.Undefined)).
Definition is_type_equal (b : Backend.Backend) (s : ScalarType) (op : OperandInfo) : bool :=
  bool_decide (dtype op = s) && bool_decide (backend op = b).
Definition set_type (b : Backend.Backend) (s : ScalarType) (op : OperandInfo) : OperandInfo :=
  mkOperand (stride_bytes op) (tensor op) b s (data op) (is_output op) (is_read_write op).
Definition options (op : OperandInfo) : outcome TensorOptions.TensorOptions :=
  d ← Backend.backendToDeviceType (backend op);
  TensorOptions.set_dtype_scalar
    (TensorOptions.set_device TensorOptions.TensorOptions_new (Some (Device.mkDevice d (-1)))) (Some (dtype op)).

Record Iterator : Type := mkIterator {
  shape_ : list Z;
  perm_ : list nat;
  operands_ : list OperandInfo;
  num_outputs_ : nat;
  has_coalesced_dimensions_ : bool;
  accumulate_ : bool;
  resize_outputs_ : bool;
  is_reduction_ : bool;
  compute_common_dtype_ : bool;
  allow_cpu_scalars_ : bool;
  promote_gpu_output_dtypes_ : bool;
  final_output_ : bool
}.
(** The members' initialisers. *)
Definition Iterator_new : Iterator := mkIterator [] [] [] 0 false false true false true false false true.
Definition set_shape (sh : list Z) (it : Iterator) : Iterator :=
  mkIterator sh (perm_ it) (operands_ it) (num_outputs_ it) (has_coalesced_dimensions_ it) (accumulate_ it)
    (resize_outputs_ it) (is_reduction_ it) (compute_common_dtype_ it) (allow_cpu_scalars_ it)
    (promote_gpu_output_dtypes_ it) (final_output_ it).
Definition set_perm (p : list nat) (it : Iterator) : Iterator :=
  mkIterator (shape_ it) p (operands_ it) (num_outputs_ it) (has_coalesced_dimensions_ it) (accumulate_ it)
    (resize_outputs_ it) (is_reduction_ it) (compute_common_dtype_ it) (allow_cpu_scalars_ it)
    (promote_gpu_output_dtypes_ it) (final_output_ it).
Definition set_operands (ops : list OperandInfo) (it : Iterator) : Iterator :=
  mkIterator (shape_ it) (perm_ it) ops (num_outputs_ it) (has_coalesced_dimensions_ it) (accumulate_ it)
    (resize_outputs_ it) (is_reduction_ it) (compute_common_dtype_ it) (allow_cpu_scalars_ it)
    (promote_gpu_output_dtypes_ it) (final_output_ it).
Definition set_coalesced (b : bool) (it : Iterator) : Iterator :=
  mkIterator (shape_ it) (perm_ it) (operands_ it) (num_outputs_ it) b (accumulate_ it)
    (resize_outputs_ it) (is_reduction_ it) (compute_common_dtype_ it) (allow_cpu_scalars_ it)
    (promote_gpu_output_dtypes_ it) (final_output_ it).
Definition set_reduce_flags (accumulate final_output : bool) (it : Iterator) : Iterator :=
  mkIterator (shape_ it) (perm_ it) (operands_ it) (num_outputs_ it) (has_coalesced_dimensions_ it) accumulate
    (resize_outputs_ it) (is_reduction_ it) (compute_common_dtype_ it) (allow_cpu_scalars_ it)
    (promote_gpu_output_dtypes_ it) final_output.

Definition ndim (it : Iterator) : nat := length (shape_ it).
Definition ntensors (it : Iterator) : nat := length (operands_ it).
Definition numel (it : Iterator) : Z := fold_left mul64 (shape_ it) 1.

(** A member function that changes the operands, one after the other. *)
Definition map_operands (f : OperandInfo → outcome OperandInfo) (it : Iterator) : outcome Iterator :=
  ops ← mapM f (operands_ it); Ok (set_operands ops it).

(** ** Building *)

(** [mark_outputs]. *)
Definition is_same (t t' : Tensor) : bool := bool_decide (tensor_id t = tensor_id t').
Definition mark_output (inputs : list OperandInfo) (op : OperandInfo) : OperandInfo :=
  match tensor op with
  | None => set_flags true (is_read_write op) op
  | Some output =>
      set_flags true
        (is_read_write op ||
         existsb (λ input, match tensor input with Some t => is_same output t | None => false end) inputs) op
  end.
Definition mark_outputs (it : Iterator) : Iterator :=
  set_operands ((mark_output (drop (num_outputs_ it) (operands_ it)) <$> take (num_outputs_ it) (operands_ it)) ++
                drop (num_outputs_ it) (operands_ it)) it.

(** [compute_shape]: the shape of the inputs broadcast, then the outputs checked. *)
Definition broadcast_operand (resize_outputs : bool) (op : OperandInfo) (shape : list Z) : outcome (list Z) :=
  match tensor op with
  | None => Ok shape
  | Some t =>
      if resize_outputs && is_output op && negb (is_read_write op) then Ok shape
      else if bool_decide (shape = []) then Ok (sizes t)
      else if bool_decide (sizes t = shape) then Ok shape
      else infer_size2 shape (sizes t)
  end.
Definition check_output `{TensorOps} (resize_outputs is_reduction : bool) (shape : list Z) (op : OperandInfo) : outcome OperandInfo :=
  match tensor op with
  | Some t =>
      if negb (bool_decide (sizes t = shape)) then
        if resize_outputs && negb (is_read_write op) then t' ← resize_ t shape; Ok (set_tensor t' op)
        else if negb is_reduction then AT_ERROR "output with shape doesn't match the broadcast shape"
        else Ok op
      else Ok op
  | None => Ok op
  end.
Definition compute_shape `{TensorOps} (it : Iterator) : outcome Iterator :=
  shape ← for_in (operands_ it) (broadcast_operand (resize_outputs_ it)) (shape_ it);
  outputs ← mapM (check_output (resize_outputs_ it) (is_reduction_ it) shape) (take (num_outputs_ it) (operands_ it));
  Ok (set_shape shape (set_operands (outputs ++ drop (num_outputs_ it) (operands_ it)) it)).

(** The static [compute_stride], and [compute_strides]. *)
Definition compute_stride_step (original_shape original_stride : list Z) (element_size offset : Z) (i : nat)
    (stride : list Z) : outcome (list Z) :=
  size ← vec_get original_shape (Z.of_nat i);
  if size =? 1 then vec_set stride (offset + Z.of_nat i) 0
  else s ← vec_get original_stride (Z.of_nat i); vec_set stride (offset + Z.of_nat i) (s ⊠ element_size).
Definition compute_stride (t : Tensor) (shape : list Z) : outcome (list Z) :=
  element_size ← elementSize (scalar_type t);
  for_up (length (sizes t))
    (compute_stride_step (sizes t) (strides t) element_size (vec_size shape - vec_size (sizes t)))
    (replicate (length shape) 0).
Definition compute_strides (it : Iterator) : outcome Iterator :=
  map_operands (λ op,
    match tensor op with
    | Some t => st ← compute_stride t (shape_ it); Ok (set_stride_bytes st op)
    | None => Ok op
    end) it.

(** [permute_dimensions] and its [reorder]. *)
Definition reorder (perm : list nat) (v : list Z) : outcome (list Z) :=
  for_up (length perm) (λ i res, d ← match perm !! i with Some d => vec_get v (Z.of_nat d) | None => Throw (Prelude.Undefined "perm[i]") end;
    vec_set res (Z.of_nat i) d) (replicate (length v) 0).
Definition permute_dimensions (perm : list nat) (it : Iterator) : outcome Iterator :=
  AT_ASSERT (bool_decide (length perm = ndim it));;
  shape ← reorder perm (shape_ it);
  map_operands (λ op,
    if bool_decide (0 < length (stride_bytes op))%nat
    then st ← reorder perm (stride_bytes op); Ok (set_stride_bytes st op)
    else Ok op) (set_shape shape it).

(** [should_swap] of [reorder_dimensions]: the loop over the operands, [ret] so far. *)
Fixpoint should_swap (ops : list OperandInfo) (dim0 dim1 : nat) (ret : Z) : outcome Z :=
  match ops with
  | [] => Ok ret
  | op :: ops =>
      if bool_decide (stride_bytes op = []) then should_swap ops dim0 dim1 ret
      else
        stride0 ← vec_get (stride_bytes op) (Z.of_nat dim0);
        stride1 ← vec_get (stride_bytes op) (Z.of_nat dim1);
        if is_output op && negb (bool_decide ((stride0 = 0) ↔ (stride1 = 0)))
        then Ok (if stride1 =? 0 then 1 else -1)
        else if (stride0 =? 0) || (stride1 =? 0) then should_swap ops dim0 dim1 ret
        else if stride0 <=? stride1 then Ok (-1)
        else should_swap ops dim0 dim1 1
  end.
(** The inner loop of the insertion sort: [dim0] counts down from [k - 1]. *)
Fixpoint sift (ops : list OperandInfo) (k dim1 : nat) (perm : list nat) : outcome (list nat) :=
  match k with
  | O => Ok perm
  | S dim0 =>
      match perm !! dim0, perm !! dim1 with
      | Some p0, Some p1 =>
          comparison ← should_swap ops p0 p1 0;
          if 0 <? comparison then sift ops dim0 dim0 (<[dim0 := p1]> (<[dim1 := p0]> perm))
          else if comparison <? 0 then Ok perm
          else sift ops dim0 dim1 perm
      | _, _ => Throw (Prelude.Undefined "perm_[i]")
      end
  end.
Definition sort_dimensions (ops : list OperandInfo) (n : nat) : outcome (list nat) :=
  for_in (seq 1 (n - 1)) (λ i, sift ops i i) (reverse (seq 0 n)).
Definition reorder_dimensions (it : Iterator) : outcome Iterator :=
  perm ← sort_dimensions (operands_ it) (ndim it);
  permute_dimensions perm (set_perm perm it).

(** [compute_result_type], [compute_common_type] and [compute_types]. *)
Definition result_type_step (predicate : Tensor → bool) (op : OperandInfo) (st : ScalarType * Backend.Backend)
    : outcome (ScalarType * Backend.Backend) :=
  match tensor op with
  | Some t =>
      if predicate t then
        let '(result_type, backend) := st in
        result_type' ← (if bool_decide (result_type = Undefined) then Ok (scalar_type t) else promoteTypes result_type (scalar_type t));
        Ok (result_type', if bool_decide (backend = Backend.Undefined) then tensor_backend t else backend)
      else Ok st
  | None => Ok st
  end.
Definition compute_result_type (ops : list OperandInfo) (predicate : Tensor → bool) : outcome (ScalarType * Backend.Backend) :=
  for_in ops (result_type_step predicate) (Undefined, Backend.Undefined).
Definition compute_common_type (it : Iterator) : outcome (Backend.Backend * ScalarType) :=
  r1 ← compute_result_type (operands_ it) (λ t, 0 <? dim t);
  r2 ← (if bool_decide (r1.1 = Undefined) then compute_result_type (operands_ it) (λ t, negb (is_wrapped_number t)) else Ok r1);
  r3 ← (if bool_decide (r2.1 = Undefined) then compute_result_type (operands_ it) (λ _, true) else Ok r2);
  AT_ASSERT (negb (bool_decide (r3.1 = Undefined)));;
  AT_ASSERT (negb (bool_decide (r3.2 = Backend.Undefined)));;
  Ok (r3.2, r3.1).

(** The type an operand gets from the common one. *)
Definition set_common_type (it : Iterator) (common_backend : Backend.Backend) (common_dtype : ScalarType)
    (op : OperandInfo) : OperandInfo :=
  if negb (is_type_defined op) then set_type common_backend common_dtype op
  else if compute_common_dtype_ it && negb (is_type_equal common_backend common_dtype op) then
    match tensor op with
    | Some t =>
        if allow_cpu_scalars_ it && (dim t =? 0) && bool_decide (common_backend = Backend.CUDA) &&
           bool_decide (tensor_backend t = Backend.CPU)
        then set_type (tensor_backend t) (scalar_type t) op
        else if promote_gpu_output_dtypes_ it && negb (is_output op) && bool_decide (scalar_type t = Half) &&
                bool_decide (common_dtype = Float) && bool_decide (common_backend = Backend.CUDA) &&
                bool_decide (tensor_backend t = Backend.CUDA)
        then set_type (tensor_backend t) (scalar_type t) op
        else set_type common_backend common_dtype op
    | None => set_type common_backend common_dtype op
    end
  else op.
(** The check of an operand against its type; a zero-dimensional input is converted. *)
Definition convert_operand `{TensorOps} (op : OperandInfo) : outcome OperandInfo :=
  match tensor op with
  | Some t =>
      if negb (is_type_equal (tensor_backend t) (scalar_type t) op) then
        if is_output op then AT_ERROR "output doesn't match the desired backend and dtype"
        else if dim t =? 0 then o ← options op; t' ← to t o; Ok (set_tensor t' op)
        else AT_ERROR "expected backend and dtype"
      else Ok op
  | None => Ok op
  end.
Definition missing_dtype (op : OperandInfo) : bool :=
  match tensor op with None => negb (is_type_defined op) | Some _ => false end.
Definition compute_types `{TensorOps} (it : Iterator) : outcome Iterator :=
  it' ← (if existsb missing_dtype (operands_ it) || compute_common_dtype_ it then
          '(common_backend, common_dtype) ← compute_common_type it;
          Ok (set_operands (set_common_type it common_backend common_dtype <$> operands_ it) it)
        else Ok it);
  map_operands convert_operand it'.

Definition compatible_stride (shape : list Z) (element_size : Z) : list Z :=
  (fold_left (λ st size, (st.1 ++ [st.2], st.2 ⊠ size)) shape ([], element_size)).1.

(** [invert_perm], which the reordering makes valid until dimensions are coalesced. *)
Definition invert_perm (it : Iterator) (input : list Z) : outcome (list Z) :=
  AT_ASSERT (negb (has_coalesced_dimensions_ it));;
  for_up (ndim it) (λ dim res,
    x ← vec_get input (Z.of_nat dim);
    match perm_ it !! dim with
    | Some p => vec_set res (Z.of_nat p) x
    | None => Throw (Prelude.Undefined "perm_[dim]")
    end) (replicate (length input) 0).

Definition allocate_output `{TensorOps} (it : Iterator) (op : OperandInfo) : outcome OperandInfo :=
  match tensor op with
  | Some _ => Ok op
  | None =>
      AT_ASSERT (is_type_defined op);;
      element_size ← elementSize (dtype op);
      let stride := compatible_stride (shape_ it) element_size in
      tensor_shape ← invert_perm it (shape_ it);
      tensor_stride ← invert_perm it stride;
      o ← options op;
      t ← empty_strided tensor_shape ((λ s, Z.quot s element_size) <$> tensor_stride) o;
      Ok (set_tensor t (set_stride_bytes stride op))
  end.
Definition allocate_outputs `{TensorOps} (it : Iterator) : outcome Iterator :=
  outputs ← mapM (allocate_output it) (take (num_outputs_ it) (operands_ it));
  Ok (set_operands (outputs ++ drop (num_outputs_ it) (operands_ it)) it).

(** [coalesce_dimensions]: [shape] and the strides are changed in place, [prev_dim] is the
    last dimension of the result so far. *)
Fixpoint strides_coalesce (shape0 : Z) (dim0 dim1 : nat) (ops : list OperandInfo) : outcome bool :=
  match ops with
  | [] => Ok true
  | op :: ops =>
      stride0 ← vec_get (stride_bytes op) (Z.of_nat dim0);
      stride1 ← vec_get (stride_bytes op) (Z.of_nat dim1);
      if shape0 ⊠ stride0 =? stride1 then strides_coalesce shape0 dim0 dim1 ops else Ok false
  end.
Definition can_coalesce (shape : list Z) (ops : list OperandInfo) (dim0 dim1 : nat) : outcome bool :=
  shape0 ← vec_get shape (Z.of_nat dim0);
  shape1 ← vec_get shape (Z.of_nat dim1);
  if (shape0 =? 1) || (shape1 =? 1) then Ok true else strides_coalesce shape0 dim0 dim1 ops.
Definition replace_stride (dim0 dim1 : nat) (ops : list OperandInfo) : outcome (list OperandInfo) :=
  mapM (λ op, s ← vec_get (stride_bytes op) (Z.of_nat dim1);
              st ← vec_set (stride_bytes op) (Z.of_nat dim0) s; Ok (set_stride_bytes st op)) ops.
Definition coalesce_step (dim : nat) (st : nat * list Z * list OperandInfo) : outcome (nat * list Z * list OperandInfo) :=
  let '(prev_dim, shape, ops) := st in
  c ← can_coalesce shape ops prev_dim dim;
  prev_size ← vec_get shape (Z.of_nat prev_dim);
  size ← vec_get shape (Z.of_nat dim);
  if (c : bool) then
    ops ← (if prev_size =? 1 then replace_stride prev_dim dim ops else Ok ops);
    shape ← vec_set shape (Z.of_nat prev_dim) (prev_size ⊠ size);
    Ok (prev_dim, shape, ops)
  else
    let prev_dim := S prev_dim in
    if bool_decide (prev_dim = dim) then Ok (prev_dim, shape, ops)
    else
      ops ← replace_stride prev_dim dim ops;
      shape ← vec_set shape (Z.of_nat prev_dim) size;
      Ok (prev_dim, shape, ops).
Definition coalesce_dimensions (it : Iterator) : outcome Iterator :=
  if bool_decide (ndim it = 0%nat) then Ok it
  else
    '(prev_dim, shape, ops) ← for_in (seq 1 (ndim it - 1)) coalesce_step (0%nat, shape_ it, operands_ it);
    Ok (set_coalesced true (set_shape (resize (S prev_dim) 0 shape)
         (set_operands ((λ op, set_stride_bytes (resize (S prev_dim) 0 (stride_bytes op)) op) <$> ops) it))).

(** The data pointers, and [Builder::build]. *)
Definition set_data_pointers (it : Iterator) : outcome Iterator :=
  map_operands (λ op,
    match tensor op with
    | Some t => Ok (set_data (tensor_data t) op)
    | None => AT_ASSERT (M:=outcome) false;; Ok op
    end) it.
Definition build `{TensorOps} (it : Iterator) : outcome Iterator :=
  it ← compute_shape (mark_outputs it);
  it ← compute_strides it;
  it ← reorder_dimensions it;
  it ← compute_types it;
  it ← allocate_outputs it;
  it ← coalesce_dimensions it;
  set_data_pointers it.

Definition add_output (output : option Tensor) (it : Iterator) : Iterator :=
  mkIterator (shape_ it) (perm_ it) (operands_ it ++ [OperandInfo_make output Backend.Undefined Undefined])
    (S (num_outputs_ it)) (has_coalesced_dimensions_ it) (accumulate_ it) (resize_outputs_ it) (is_reduction_ it)
    (compute_common_dtype_ it) (allow_cpu_scalars_ it) (promote_gpu_output_dtypes_ it) (final_output_ it).
Definition add_input (input : Tensor) (it : Iterator) : Iterator :=
  set_operands (operands_ it ++ [OperandInfo_make (Some input) Backend.Undefined Undefined]) it.
(** The flags a builder sets. *)
Definition set_builder_flags (resize is_reduction allow_cpu_scalars promote : bool) (it : Iterator) : Iterator :=
  mkIterator (shape_ it) (perm_ it) (operands_ it) (num_outputs_ it) (has_coalesced_dimensions_ it) (accumulate_ it)
    resize is_reduction (compute_common_dtype_ it) allow_cpu_scalars promote (final_output_ it).

(** [device().is_cuda()]. *)
Definition is_cuda (t : Tensor) : bool :=
  bool_decide (Backend.backendToDeviceType (tensor_backend t) = Ok DeviceType.CUDA).
(** [binary_op]; [same_device] compares the devices of the inputs. *)
Definition binary_op `{TensorOps} (same_device : bool) (out : option Tensor) (a b : Tensor) : outcome Iterator :=
  (if is_cuda a && is_cuda b then AT_CHECK same_device "expected both inputs to be on same device" else Ok tt);;
  build (set_builder_flags true false true false (add_input b (add_input a (add_output out Iterator_new)))).
Definition unary_op `{TensorOps} (out : option Tensor) (a : Tensor) : outcome Iterator :=
  build (add_input a (add_output out Iterator_new)).
Definition reduce_op `{TensorOps} (out : option Tensor) (a : Tensor) : outcome Iterator :=
  AT_ASSERT (bool_decide (is_Some out));;
  build (set_builder_flags false true false true (add_input a (add_output out Iterator_new))).

(** ** Iterating *)
Record Range : Type := mkRange { begin : Z; end_ : Z }.
Definition range_size (r : Range) : Z := end_ r ⊟ begin r.

(** [DimCounter]: the index of the element at [offset], fastest dimension first. *)
Record DimCounter : Type := mkCounter { counter_shape : list Z; range : Range; values : list Z; offset : Z }.
(** The constructor's loop over the sizes, with what is left of the linear offset. *)
Fixpoint counter_values (shape : list Z) (linear_offset : Z) : list Z * Z :=
  match shape with
  | [] => ([], linear_offset)
  | size :: shape =>
      if 0 <? size then
        let '(vs, rest) := counter_values shape (Z.quot linear_offset size) in (Z.rem linear_offset size :: vs, rest)
      else let '(vs, rest) := counter_values shape linear_offset in (0 :: vs, rest)
  end.
Definition DimCounter_make (shape : list Z) (range : Range) : outcome DimCounter :=
  let '(values, linear_offset) := counter_values shape (begin range) in
  AT_ASSERT (linear_offset =? 0);; Ok (mkCounter shape range values (begin range)).
Definition is_done (c : DimCounter) : bool := end_ (range c) <=? offset c.

(** The loop of [increment] over the dimensions that are left, with the carry. *)
Fixpoint carry (shape values : list Z) (overflow : Z) {struct values} : outcome (list Z * Z) :=
  match values with
  | [] => Ok ([], overflow)
  | prev :: values' =>
      if 0 <? overflow then
        match shape with
        | [] => Throw (Prelude.Undefined "shape[i]")
        | size :: shape =>
            let value := prev ⊞ overflow in
            if size <=? value then
              AT_ASSERT (value ⊟ size <? size);;
              '(vs, overflow) ← carry shape values' 1; Ok (value ⊟ size :: vs, overflow)
            else '(vs, overflow) ← carry shape values' 0; Ok (value :: vs, overflow)
        end
      else Ok (values, overflow)
  end.
Definition increment (step0 step1 : Z) (c : DimCounter) : outcome DimCounter :=
  let offset := offset c ⊞ (step0 ⊠ step1) in
  '(values, overflow) ←
    (if negb (step1 =? 1) then
       size0 ← vec_get (counter_shape c) 0; value0 ← vec_get (values c) 0;
       AT_ASSERT ((step0 =? size0) && (value0 =? 0));;
       '(vs, overflow) ← carry (drop 1 (counter_shape c)) (drop 1 (values c)) step1; Ok (value0 :: vs, overflow)
     else carry (counter_shape c) (values c) step0);
  AT_ASSERT ((overflow =? 0) || (overflow =? 1));;
  Ok (mkCounter (counter_shape c) (range c) values offset).

Definition max_2d_step (c : DimCounter) : outcome (Z * Z) :=
  size0 ← vec_get (counter_shape c) 0;
  value0 ← vec_get (values c) 0;
  let step0 := Z.min (size0 ⊟ value0) (end_ (range c) ⊟ offset c) in
  if (step0 =? size0) && bool_decide (1 ≤ length (counter_shape c))%nat then
    size1 ← vec_get (counter_shape c) 1;
    value1 ← vec_get (values c) 1;
    Ok (step0, Z.min (size1 ⊟ value1) (Z.quot (end_ (range c) ⊟ offset c) size0))
  else Ok (step0, 1).

(** The strides of all operands, dimension by dimension. *)
Definition get_dim_strides (it : Iterator) (dim : nat) : outcome (list Z) :=
  mapM (λ op, if bool_decide (ndim it = 0%nat) then Ok 0 else vec_get (stride_bytes op) (Z.of_nat dim)) (operands_ it).
Definition get_strides (it : Iterator) : outcome (list Z) :=
  for_up (ndim it) (λ dim strides, st ← mapM (λ op, vec_get (stride_bytes op) (Z.of_nat dim)) (operands_ it); Ok (strides ++ st)) [].
Definition get_base_ptrs (it : Iterator) : list Z := data <$> operands_ it.

(** The pointer of one operand at an index. *)
Definition data_ptr_at (it : Iterator) (counter : list Z) (op : OperandInfo) (base : Z) : outcome Z :=
  for_up (ndim it) (λ dim ptr,
    value ← vec_get counter (Z.of_nat dim);
    stride ← vec_get (stride_bytes op) (Z.of_nat dim);
    Ok (ptr + (value ⊠ stride))) base.
Definition get_data_ptrs (it : Iterator) (base counter : list Z) : outcome (list Z) :=
  mapM (λ '(op, b), data_ptr_at it counter op b) (zip (operands_ it) base).

(** A call of the two-dimensional loop. *)
Record Call : Type := mkCall { ptrs : list Z; call_strides : list Z; size0 : Z; size1 : Z }.

(** The calls [serial_for_each] makes, when the loop returns; every call advances the
    counter, so that the elements of the range are enough fuel. *)
Fixpoint serial_loop (fuel : nat) (it : Iterator) (strides base : list Z) (counter : DimCounter) : outcome (list Call) :=
  if is_done counter then Ok []
  else
    match fuel with
    | O => Ok []
    | S fuel =>
        p ← get_data_ptrs it base (values counter);
        '(step0, step1) ← max_2d_step counter;
        counter' ← increment step0 step1 counter;
        calls ← serial_loop fuel it strides base counter';
        Ok (mkCall p strides step0 step1 :: calls)
    end.
(** [while (strides.size() < 2 * ntensors()) strides.push_back(0)]. *)
Definition pad_strides (n : nat) (strides : list Z) : list Z := strides ++ replicate (n - length strides) 0.
Definition serial_for_each (it : Iterator) (range : Range) : outcome (list Call) :=
  if range_size range =? 0 then Ok []
  else
    st ← get_strides it;
    let strides := pad_strides (2 * ntensors it) st in
    let base := get_base_ptrs it in
    if bool_decide (ndim it ≤ 1)%nat then
      p ← get_data_ptrs it base [begin range];
      Ok [mkCall p strides (range_size range) 1]
    else
      counter ← DimCounter_make (shape_ it) range;
      serial_loop (Z.to_nat (range_size range)) it strides base counter.

(** [loop_wrapper]: a call of the two-dimensional loop as calls of the one-dimensional one. *)
Record Call1 : Type := mkCall1 { ptrs1 : list Z; call1_strides : list Z; size : Z }.
Fixpoint loop_wrapper_rows (n : nat) (data strides outer_strides : list Z) (size0 : Z) : list Call1 :=
  match n with
  | O => []
  | S n => mkCall1 data strides size0 :: loop_wrapper_rows n (zip_with Z.add data outer_strides) strides outer_strides size0
  end.
Definition loop_wrapper (ntensor : nat) (c : Call) : list Call1 :=
  loop_wrapper_rows (Z.to_nat (size1 c)) (take ntensor (ptrs c)) (call_strides c) (drop ntensor (call_strides c)) (size0 c).

(** [at::parallel_for] with [num_threads] threads: the ranges of the threads that get one. *)
Definition GRAIN_SIZE : Z := 32768.
Definition divup (x y : Z) : Z := Z.quot (x ⊞ y ⊟ 1) y.
Definition parallel_for (begin end_ grain_size num_threads : Z) (in_parallel : bool) : list Range :=
  let num_threads := if negb in_parallel && (grain_size <=? end_ ⊟ begin) then num_threads else 1 in
  let chunk_size := divup (end_ ⊟ begin) num_threads in
  omap (λ tid,
    let begin_tid := begin ⊞ (tid ⊠ chunk_size) in
    if begin_tid <? end_ then Some (mkRange begin_tid (Z.min end_ (chunk_size ⊞ begin_tid))) else None)
    (seqZ 0 num_threads).
(** [for_each]: the calls of each thread. *)
Definition for_each (it : Iterator) (num_threads : Z) (in_parallel : bool) : outcome (list (list Call)) :=
  let n := numel it in
  if n =? 0 then Ok []
  else if (n <? GRAIN_SIZE) || (num_threads =? 1) then calls ← serial_for_each it (mkRange 0 n); Ok [calls]
  else mapM (serial_for_each it) (parallel_for 0 n GRAIN_SIZE num_threads in_parallel).

(** ** Queries *)
Definition is_dim_reduced (it : Iterator) (dim : nat) : outcome bool :=
  size ← vec_get (shape_ it) (Z.of_nat dim);
  (fix go (ops : list OperandInfo) : outcome bool :=
    match ops with
    | [] => Ok false
    | op :: ops =>
        if is_output op then
          s ← vec_get (stride_bytes op) (Z.of_nat dim);
          if (s =? 0) && (1 <? size) then Ok true else go ops
        else go ops
    end) (operands_ it).
Definition num_output_elements (it : Iterator) : outcome Z :=
  st ← match operands_ it with op :: _ => Ok (stride_bytes op) | [] => Throw (Prelude.Undefined "operands_[0]") end;
  for_up (ndim it) (λ dim elem,
    s ← vec_get st (Z.of_nat dim); n ← vec_get (shape_ it) (Z.of_nat dim);
    Ok (if negb (s =? 0) || (n =? 0) then elem ⊠ n else elem)) 1.
Definition num_reduce_dims (it : Iterator) : outcome Z :=
  st ← match operands_ it with op :: _ => Ok (stride_bytes op) | [] => Throw (Prelude.Undefined "operands_[0]") end;
  for_up (ndim it) (λ dim count, s ← vec_get st (Z.of_nat dim); Ok (if s =? 0 then count + 1 else count)) 0.
Definition is_trivial_1d (it : Iterator) : bool := bool_decide (ndim it = 1%nat).
Definition is_scalar (it : Iterator) (arg : nat) : outcome bool :=
  op ← match operands_ it !! arg with Some op => Ok op | None => Throw (Prelude.Undefined "operands_[arg]") end;
  (fix go (dims : list nat) : outcome bool :=
    match dims with
    | [] => Ok true
    | i :: dims =>
        s ← vec_get (stride_bytes op) (Z.of_nat i); n ← vec_get (shape_ it) (Z.of_nat i);
        if negb (s =? 0) && negb (n =? 1) then Ok false else go dims
    end) (seq 0 (ndim it)).

(** ** Cutting an iterator *)
Definition remove_operand (arg : nat) (it : Iterator) : Iterator := set_operands (delete arg (operands_ it)) it.
Definition replace_operand (arg : nat) (p : Z) (st : list Z) (it : Iterator) : Iterator :=
  set_operands (alter (λ op, set_data p (set_stride_bytes st op)) arg (operands_ it)) it.
Definition remove_dimension (dim : nat) (it : Iterator) : outcome Iterator :=
  AT_ASSERT (bool_decide (dim < ndim it)%nat);;
  Ok (set_operands ((λ op, set_stride_bytes (delete dim (stride_bytes op)) op) <$> operands_ it)
       (set_shape (delete dim (shape_ it)) it)).
(** Moves an operand along a dimension. *)
Definition advance_data (dim : nat) (start : Z) (op : OperandInfo) : outcome OperandInfo :=
  s ← vec_get (stride_bytes op) (Z.of_nat dim); Ok (set_data (data op + (s ⊠ start)) op).
Definition narrow (dim : nat) (start size : Z) (it : Iterator) : outcome Iterator :=
  AT_ASSERT (bool_decide (dim < ndim it)%nat && (1 <=? size));;
  it' ← map_operands (advance_data dim start) (set_shape (<[dim := size]> (shape_ it)) it);
  if size =? 1 then coalesce_dimensions it' else Ok it'.
Definition select_all_keeping_dim (start_dim : nat) (indices : list Z) (it : Iterator) : outcome Iterator :=
  AT_ASSERT (bool_decide (start_dim ≤ ndim it)%nat);;
  for_in (seq start_dim (ndim it - start_dim)) (λ i it,
    index ← vec_get indices (Z.of_nat i - Z.of_nat start_dim);
    map_operands (advance_data i index) (set_shape (<[i := 1]> (shape_ it)) it)) it.

Definition max_offset (shape strides : list Z) : outcome Z :=
  for_up (length shape) (λ dim acc,
    n ← vec_get shape (Z.of_nat dim); s ← vec_get strides (Z.of_nat dim); Ok (acc ⊞ ((n ⊟ 1) ⊠ s))) 1.
Fixpoint offsets_fit (shape : list Z) (ops : list OperandInfo) (max_value : Z) : outcome bool :=
  match ops with
  | [] => Ok true
  | op :: ops => m ← max_offset shape (stride_bytes op); if max_value <? m then Ok false else offsets_fit shape ops max_value
  end.
Definition can_use_32bit_indexing (it : Iterator) : outcome bool :=
  let max_value := 2 ^ 31 - 1 in
  if max_value <? numel it then Ok false else offsets_fit (shape_ it) (operands_ it) max_value.

(** The loops of [get_dim_to_split] over the dimensions, from the last, and the operands. *)
Definition widest (size : Z) (dim : nat) (op : OperandInfo) (st : Z * Z) : outcome (Z * Z) :=
  s ← vec_get (stride_bytes op) (Z.of_nat dim);
  let extent := (size ⊟ 1) ⊠ s in
  Ok (if st.1 <? extent then (extent, Z.of_nat dim) else st).
Definition get_dim_to_split (it : Iterator) : outcome Z :=
  AT_ASSERT (bool_decide (1 ≤ ndim it)%nat);;
  last ← vec_get (shape_ it) (Z.of_nat (ndim it) - 1);
  AT_ASSERT (2 <=? last);;
  st ← for_down (ndim it) (λ dim st,
    size ← vec_get (shape_ it) (Z.of_nat dim); for_in (operands_ it) (widest size dim) st) (-1, -1);
  AT_ASSERT (0 <=? st.1);; Ok st.2.

(** [split]: the copy, and what is left of the iterator itself. *)
Definition split (dim : nat) (it : Iterator) : outcome (Iterator * Iterator) :=
  size ← match shape_ it !! dim with Some n => Ok n | None => AT_ERROR "assertion failed" end;
  AT_ASSERT (2 <=? size);;
  overlaps ← is_dim_reduced it dim;
  let copy_size := Z.quot size 2 in
  let this_size := size ⊟ copy_size in
  copy ← narrow dim 0 copy_size it;
  this ← narrow dim copy_size this_size it;
  Ok (set_reduce_flags (accumulate_ copy) (final_output_ copy && negb overlaps) copy,
      set_reduce_flags (accumulate_ this || overlaps) (final_output_ this) this).

(** [SplitUntil32Bit::iterator]: a stack, the back of the vector first.  [advance] is the
    loop of [operator++] behind the [pop_back]. *)
Fixpoint advance (fuel : nat) (vec : list Iterator) : outcome (list Iterator) :=
  match vec with
  | [] => Ok []
  | it :: rest =>
      fits ← can_use_32bit_indexing it;
      if (fits : bool) then Ok vec
      else
        match fuel with
        | O => Ok []
        | S fuel =>
            split_dim ← get_dim_to_split it;
            '(copy, this) ← split (Z.to_nat split_dim) it;
            advance fuel (copy :: this :: rest)
        end
  end.
Fixpoint with_32bit_indexing_loop (fuel : nat) (vec : list Iterator) : outcome (list Iterator) :=
  vec' ← advance fuel vec;
  match vec', fuel with
  | [], _ => Ok []
  | it :: rest, S fuel => its ← with_32bit_indexing_loop fuel rest; Ok (it :: its)
  | it :: rest, O => Ok [it]
  end.
(** The iterators a loop over [with_32bit_indexing()] sees. *)
Definition with_32bit_indexing (fuel : nat) (it : Iterator) : outcome (list Iterator) := with_32bit_indexing_loop fuel [it].
End TensorIterator.
