(* ===== verification/IterLoop.v ===== *)
(** * The elements of an iterator, and the loops that visit them

    An element is numbered with the first dimension fastest.  [addresses] are the
    pointers of all operands at an element, which the loops must visit.

    [DimCounter] holds the index of its offset, each step covers a block of consecutive
    elements, and the calls of [serial_for_each] together cover its range. *)
From S2P Require Import Prelude CoreTypes ScalarTypes Options Geometry Strides TensorIterator.
Local Open Scope Z_scope.
Import TensorIterator.

Abbreviation offset_at := Geometry.Offsets.offset.

(** ** Numbers and indices *)
Fixpoint decode (shape : list Z) (l : Z) : list Z :=
  match shape with [] => [] | s :: shape => l mod s :: decode shape (l / s) end.

Definition positive_dims (shape : list Z) : Prop := Forall (λ s, 0 < s) shape.
Definition valid_shape (shape : list Z) : Prop := positive_dims shape ∧ prodl shape < 2 ^ 63.
Definition valid_strides (shape strides : list Z) : Prop := Forall2 (λ s t, 0 ≤ t ∧ s * t < 2 ^ 63) shape strides.
Record valid (it : Iterator) : Prop := {
  valid_sh : valid_shape (shape_ it);
  valid_st : Forall (λ op, valid_strides (shape_ it) (stride_bytes op)) (operands_ it)
}.

(** The stride of an operand in a dimension; 0 past the last one, as in the padding. *)
Definition stride_at (d : nat) (op : OperandInfo) : Z := default 0 (stride_bytes op !! d).
Definition address (shape : list Z) (l : Z) (op : OperandInfo) : Z := data op + offset_at (stride_bytes op) (decode shape l).
Definition addresses (it : Iterator) (l : Z) : list Z := address (shape_ it) l <$> operands_ it.
(** The addresses of the elements numbered from [b] below [e], in order. *)
Definition elements (it : Iterator) (b e : Z) : list (list Z) := addresses it <$> seqZ b (e - b).

Lemma prodl_cons s shape : prodl (s :: shape) = s * prodl shape.
Proof. done. Qed.
Lemma prodl_nil : prodl [] = 1.
Proof. done. Qed.
Lemma prodl_one s : prodl [s] = s.
Proof. rewrite prodl_cons, prodl_nil. lia. Qed.
Lemma prodl_pos shape : positive_dims shape → 0 < prodl shape.
Proof. induction 1; [done|]. rewrite prodl_cons. nia. Qed.
Lemma positive_dims_cons s shape : positive_dims (s :: shape) ↔ 0 < s ∧ positive_dims shape.
Proof. apply Forall_cons_iff. Qed.

(** A size is at most the product. *)
Lemma size_le_prodl shape i s : positive_dims shape → shape !! i = Some s → s ≤ prodl shape.
Proof.
  intros H. revert i. induction H as [|s' shape Hs H IH]; intros i E; [done|].
  pose proof (prodl_pos shape H). rewrite prodl_cons. destruct i as [|i]; cbn in E; [simplify_eq; nia|].
  specialize (IH i E). nia.
Qed.
Lemma size_small shape i s : valid_shape shape → shape !! i = Some s → 0 < s < 2 ^ 63.
Proof.
  intros [Hp Hs] E. pose proof (size_le_prodl _ _ _ Hp E). split; [|lia].
  by eapply Forall_lookup_1 in E; [|exact Hp].
Qed.
Lemma valid_shape_cons s shape : valid_shape (s :: shape) → 0 < s < 2 ^ 63 ∧ valid_shape shape.
Proof.
  intros [[Hs Hp]%positive_dims_cons Hl]. rewrite prodl_cons in Hl. pose proof (prodl_pos shape Hp).
  split; [nia|]. split; [done|nia].
Qed.

Lemma numel_prodl shape : valid_shape shape → fold_left mul64 shape 1 = prodl shape.
Proof.
  intros [Hp Hl]. cut (∀ acc, 0 < acc → acc * prodl shape < 2 ^ 63 → fold_left mul64 shape acc = acc * prodl shape).
  { intros H. rewrite H; lia. }
  clear Hl. induction Hp as [|s shape Hs Hp IH]; intros acc Ha Hl; [cbn; lia|].
  pose proof (prodl_pos shape Hp). rewrite prodl_cons in *. cbn. rewrite mul64_exact by (apply in_S64_iff; nia). rewrite IH; nia.
Qed.

Lemma length_decode shape l : length (decode shape l) = length shape.
Proof. revert l. induction shape; intros l; cbn; [done|]. by rewrite IHshape. Qed.

Lemma decode_cons s shape l : decode (s :: shape) l = l mod s :: decode shape (l / s).
Proof. done. Qed.

Lemma decode_in_range shape l : positive_dims shape → in_range shape (decode shape l).
Proof. intros H. revert l. induction H as [|s shape Hs H IH]; intros l; constructor; [by apply Z.mod_pos_bound|apply IH]. Qed.

(** Moving along the first dimension, and along the second from the start of a row. *)
Lemma decode_add s shape l i :
  0 < s → 0 ≤ i → l mod s + i < s → decode (s :: shape) (l + i) = (l mod s + i) :: decode shape (l / s).
Proof.
  intros Hs Hi Hl. pose proof (Z.mod_pos_bound l s Hs). pose proof (Z.div_mod l s ltac:(lia)).
  rewrite decode_cons. f_equal; [|f_equal].
  - symmetry. apply (Z.mod_unique (l + i) s (l / s)); lia.
  - symmetry. apply (Z.div_unique (l + i) s (l / s) (l mod s + i)); lia.
Qed.
Lemma decode_add_rows s shape l j :
  0 < s → decode (s :: shape) (l + s * j) = l mod s :: decode shape (l / s + j).
Proof.
  intros Hs. rewrite decode_cons. f_equal; [|f_equal].
  - rewrite Z.mul_comm. apply Z_mod_plus_full.
  - rewrite Z.mul_comm. apply Z_div_plus_full. lia.
Qed.

Lemma offset_nil_l idx : offset_at [] idx = 0.
Proof. done. Qed.
Lemma offset_nil_r st : offset_at st [] = 0.
Proof. by destruct st. Qed.
Lemma offset_cons' t st i idx : offset_at (t :: st) (i :: idx) = t * i + offset_at st idx.
Proof. done. Qed.

(** Elements in consecutive pieces. *)
Lemma seqZ_split b m n : 0 ≤ m → 0 ≤ n → seqZ b (m + n) = seqZ b m ++ seqZ (b + m) n.
Proof. apply seqZ_app. Qed.
Lemma elements_split it b m e : b ≤ m ≤ e → elements it b e = elements it b m ++ elements it m e.
Proof.
  intros H. unfold elements. replace (e - b) with ((m - b) + (e - m)) by lia.
  rewrite seqZ_app by lia. rewrite fmap_app. by replace (b + (m - b)) with m by lia.
Qed.
Lemma elements_nil it b : elements it b b = [].
Proof. unfold elements. by rewrite Z.sub_diag. Qed.

(** ** What a call of the loop visits

    Operand [arg] of the element [i] of row [j] is at
    [data[arg] + i * strides[arg] + j * strides[ntensors + arg]]. *)
Definition visit_at (n : nat) (c : Call) (i j : Z) : list Z :=
  zip_with Z.add (ptrs c)
    (zip_with (λ s t, i * s + j * t) (take n (call_strides c)) (take n (drop n (call_strides c)))).
Definition visited (n : nat) (c : Call) : list (list Z) :=
  mjoin ((λ j, (λ i, visit_at n c i j) <$> seqZ 0 (size0 c)) <$> seqZ 0 (size1 c)).
Definition visited_all (n : nat) (calls : list Call) : list (list Z) := mjoin (visited n <$> calls).
Lemma visited_all_cons n c calls : visited_all n (c :: calls) = visited n c ++ visited_all n calls.
Proof. done. Qed.
Lemma visited_all_app n calls calls' : visited_all n (calls ++ calls') = visited_all n calls ++ visited_all n calls'.
Proof. unfold visited_all. by rewrite fmap_app, join_app. Qed.

(** ** The loops of TensorIterator visit every element once, in order *)

(** ** The counter *)
Lemma counter_values_decode shape l :
  positive_dims shape → 0 ≤ l → counter_values shape l = (decode shape l, l / prodl shape).
Proof.
  intros Hp. revert l. induction Hp as [|s shape Hs Hp IH]; intros l Hl; cbn [counter_values decode].
  - by rewrite Z.div_1_r.
  - rewrite (proj2 (Z.ltb_lt 0 s)) by done. rewrite Z.quot_div_nonneg, Z.rem_mod_nonneg by lia.
    rewrite IH by (apply Z.div_pos; lia). rewrite prodl_cons, Z.div_div; [done|lia|].
    by apply prodl_pos.
Qed.

Lemma DimCounter_make_Ok shape r :
  positive_dims shape → 0 ≤ begin r < prodl shape →
  DimCounter_make shape r = Ok (mkCounter shape r (decode shape (begin r)) (begin r)).
Proof.
  intros Hp Hr. unfold DimCounter_make. rewrite counter_values_decode by (done || lia).
  by rewrite Z.div_small by lia.
Qed.

Lemma carry_zero shape vs : carry shape vs 0 = Ok (vs, 0).
Proof. by destruct vs. Qed.

(** The steps a carry may take in the first dimension. *)
Definition fits_row (shape : list Z) (l k : Z) : Prop := match shape with [] => k = 1 | s :: _ => l mod s + k ≤ s end.
Lemma fits_row_1 shape l : positive_dims shape → fits_row shape l 1.
Proof. intros H. destruct H as [|s shape Hs _]; [done|]. cbn. pose proof (Z.mod_pos_bound l s Hs). lia. Qed.

Lemma carry_decode shape : ∀ l k, valid_shape shape → 0 < k → fits_row shape l k →
  ∃ o, carry shape (decode shape l) k = Ok (decode shape (l + k), o) ∧ (o = 0 ∨ o = 1).
Proof.
  induction shape as [|s shape IH]; intros l k Hv Hk Hf.
  { cbn in Hf. subst k. exists 1. auto. }
  apply valid_shape_cons in Hv as [Hs Hv]. cbn in Hf. pose proof (Z.mod_pos_bound l s ltac:(lia)).
  cbn [carry decode]. rewrite (proj2 (Z.ltb_lt 0 k)) by done. rewrite add64_exact by (apply in_S64_iff; lia).
  destruct (Z.leb_spec s (l mod s + k)).
  - rewrite sub64_exact by (apply in_S64_iff; lia). rewrite (proj2 (Z.ltb_lt _ _)) by lia. cbn.
    destruct (IH (l / s) 1 Hv ltac:(lia)) as (o & Ho & Hor); [by apply fits_row_1, Hv|].
    rewrite Ho. cbn. exists o. split; [|done]. pose proof (Z.div_mod l s ltac:(lia)).
    replace (l + k) with (0 + s * (l / s + 1)) by lia. f_equal. f_equal. f_equal.
    + rewrite Z.mul_comm, Z_mod_plus_full. rewrite Z.mod_0_l by lia. lia.
    + f_equal. rewrite Z.mul_comm, Z_div_plus_full by lia. rewrite Z.div_0_l by lia. lia.
  - rewrite carry_zero. cbn. exists 0. split; [|auto]. rewrite <- decode_cons, decode_add by lia. done.
Qed.

(** The counter of a range below [e], at an offset. *)
Definition counter_at (shape : list Z) (r : Range) (off : Z) : DimCounter := mkCounter shape r (decode shape off) off.

(** A step of [k0] by [k1] elements: within a row, or whole rows. *)
Definition block (s0 s1 off k0 k1 : Z) : Prop :=
  0 < k0 ∧ 0 < k1 ∧ (k1 = 1 ∧ off mod s0 + k0 ≤ s0 ∨ k0 = s0 ∧ off mod s0 = 0 ∧ (off / s0) mod s1 + k1 ≤ s1).

Lemma max_2d_step_block s0 s1 shape r off :
  valid_shape (s0 :: s1 :: shape) → 0 ≤ off < end_ r → end_ r < 2 ^ 63 →
  ∃ k0 k1, max_2d_step (counter_at (s0 :: s1 :: shape) r off) = Ok (k0, k1) ∧ block s0 s1 off k0 k1 ∧ off + k0 * k1 ≤ end_ r.
Proof.
  intros Hv Ho He. apply valid_shape_cons in Hv as [Hs0 Hv]. apply valid_shape_cons in Hv as [Hs1 Hv].
  pose proof (Z.mod_pos_bound off s0 ltac:(lia)). pose proof (Z.mod_pos_bound (off / s0) s1 ltac:(lia)).
  unfold max_2d_step, counter_at. cbn [counter_shape values offset range decode].
  rewrite !vec_get_0, !vec_get_1, !Ok_bind, !sub64_exact by (apply in_S64_iff; lia). unfold block.
  rewrite (bool_decide_eq_true_2 (1 ≤ _)%nat), andb_true_r by (cbn; lia).
  destruct (Z.eqb_spec (Z.min (s0 - off mod s0) (end_ r - off)) s0) as [E|E].
  - eexists _, _. split; [done|]. rewrite Z.quot_div_nonneg by lia.
    pose proof (Z.div_mod (end_ r - off) s0 ltac:(lia)). pose proof (Z.mod_pos_bound (end_ r - off) s0 ltac:(lia)).
    assert (1 ≤ (end_ r - off) / s0) by (apply Z.div_le_lower_bound; lia). repeat split; [lia|lia|right; lia|].
    rewrite E. nia.
  - eexists _, _. split; [done|]. repeat split; [lia|left; lia|lia].
Qed.

Lemma increment_block s0 s1 shape r off k0 k1 :
  valid_shape (s0 :: s1 :: shape) → 0 ≤ off → off + k0 * k1 < 2 ^ 63 → block s0 s1 off k0 k1 →
  increment k0 k1 (counter_at (s0 :: s1 :: shape) r off) = Ok (counter_at (s0 :: s1 :: shape) r (off + k0 * k1)).
Proof.
  intros Hv Ho Hl (Hk0 & Hk1 & Hb). unfold increment, counter_at. cbn [counter_shape values offset range].
  rewrite mul64_exact by (apply in_S64_iff; nia). rewrite add64_exact by (apply in_S64_iff; nia).
  destruct (Z.eqb_spec k1 1) as [->|Hne]; cbn [negb].
  - assert (Hf : off mod s0 + k0 ≤ s0) by (destruct Hb as [[_ ?]|(-> & -> & _)]; lia).
    destruct (carry_decode (s0 :: s1 :: shape) off k0 Hv Hk0 Hf) as (o & Ho' & Hor). rewrite Ho'. cbn.
    rewrite Z.mul_1_r. by destruct Hor as [-> | ->].
  - destruct Hb as [[? _]|(-> & Hz & Hf)]; [done|].
    pose proof Hv as [Hs0 Hv']%valid_shape_cons.
    destruct (carry_decode (s1 :: shape) (off / s0) k1 Hv' Hk1 Hf) as (o & Ho' & Hor).
    rewrite (decode_add_rows s0 (s1 :: shape) off k1) by lia. rewrite (decode_cons s0 (s1 :: shape) off), Hz.
    rewrite !vec_get_0, !Ok_bind, !Z.eqb_refl. cbn [andb drop].
    change (AT_ASSERT (M:=outcome) true) with (Ok tt). rewrite Ok_bind, !drop_0, Ho'. by destruct Hor as [-> | ->].
Qed.

(** ** Pointers and strides *)

Lemma offset_take_S st idx i t x :
  st !! i = Some t → idx !! i = Some x → offset_at (take (S i) st) (take (S i) idx) = offset_at (take i st) (take i idx) + t * x.
Proof.
  revert st idx. induction i as [|i IH]; intros [|t' st] [|x' idx] Ht Hx; try done; cbn in Ht, Hx; simplify_eq.
  - cbn [take]. rewrite offset_cons', !offset_nil_l. lia.
  - cbn [take] in *. rewrite !offset_cons', (IH st idx); [lia|done..].
Qed.

Lemma data_ptr_at_Ok it counter op base :
  length counter = length (shape_ it) → valid_strides (shape_ it) (stride_bytes op) → in_range (shape_ it) counter →
  data_ptr_at it counter op base = Ok (base + offset_at (stride_bytes op) counter).
Proof.
  intros Hl Hst Hr. pose proof (Forall2_length Hst) as Hls. unfold data_ptr_at, ndim.
  destruct (for_up_inv (λ i p, p = base + offset_at (take i (stride_bytes op)) (take i counter)) (length (shape_ it))
    (λ dim ptr, value ← vec_get counter (Z.of_nat dim); stride ← vec_get (stride_bytes op) (Z.of_nat dim);
      Ok (ptr + mul64 value stride)) base) as (p & -> & ->).
  - rewrite !take_0, offset_nil_l. lia.
  - intros i p Hi ->. destruct (lookup_lt_is_Some_2 counter i) as [x Hx]; [lia|].
    destruct (lookup_lt_is_Some_2 (stride_bytes op) i) as [t Ht]; [lia|].
    destruct (lookup_lt_is_Some_2 (shape_ it) i) as [s Hs]; [lia|].
    rewrite (vec_get_nat counter i x), (vec_get_nat (stride_bytes op) i t) by done. rewrite !Ok_bind.
    eexists. split; [done|]. rewrite (offset_take_S _ _ i t x) by done.
    pose proof (Forall2_lookup_lr _ _ _ _ _ _ Hst Hs Ht) as [Ht0 Htb]. cbn in Ht0, Htb.
    pose proof (Forall2_lookup_lr _ _ _ _ _ _ Hr Hx Hs) as Hxs. cbn in Hxs.
    rewrite mul64_exact by (apply in_S64_iff; nia). lia.
  - by rewrite !take_ge by lia.
Qed.

Lemma get_data_ptrs_Ok it l counter :
  valid it → counter = decode (shape_ it) l → get_data_ptrs it (get_base_ptrs it) counter = Ok (addresses it l).
Proof.
  intros [[Hp _] Hst] ->. unfold get_data_ptrs, get_base_ptrs, addresses.
  rewrite zip_with_fmap_r, zip_with_diag, mapM_fmap.
  apply mapM_fmap_Ok. intros op Hop.
  apply data_ptr_at_Ok; [apply length_decode|exact (Forall_elem _ _ _ Hst Hop)|by apply decode_in_range].
Qed.

(** Rows of one length, one behind the other. *)
Lemma length_rows {A} (f : nat → list A) n k : (∀ d, length (f d) = n) → length (mjoin (f <$> seq 0 k)) = (k * n)%nat.
Proof.
  intros H. induction k as [|k IH]; [done|]. rewrite seq_S, fmap_app, join_app, length_app, IH. cbn.
  rewrite length_app, H. cbn. lia.
Qed.
Lemma take_row {A} (f : nat → list A) n k d rest :
  (∀ d, length (f d) = n) → (d < k)%nat → take n (drop (d * n) (mjoin (f <$> seq 0 k) ++ rest)) = f d.
Proof.
  intros H Hd. replace k with (d + S (k - S d))%nat by lia. rewrite seq_app, fmap_app, join_app, <- !app_assoc.
  rewrite drop_app_length' by (by rewrite (length_rows _ n)). cbn. rewrite <- app_assoc. by apply take_app_length'.
Qed.

Lemma get_strides_Ok it :
  valid it → ∃ st, get_strides it = Ok st ∧
    ∀ d, (d < 2)%nat → take (ntensors it) (drop (d * ntensors it) (pad_strides (2 * ntensors it) st)) = stride_at d <$> operands_ it.
Proof.
  intros [_ Hst]. unfold get_strides, ndim.
  destruct (for_up_inv (λ i st, st = mjoin ((λ d, stride_at d <$> operands_ it) <$> seq 0 i)) (length (shape_ it))
    (λ dim strides, st ← mapM (λ op, vec_get (stride_bytes op) (Z.of_nat dim)) (operands_ it); Ok (strides ++ st)) [])
    as (st & -> & ->).
  - done.
  - intros i st Hi ->. rewrite (mapM_fmap_Ok _ (stride_at i)).
    + rewrite Ok_bind. eexists. split; [done|]. rewrite seq_S, fmap_app, join_app. cbn. by rewrite app_nil_r.
    + intros op Hop. pose proof (Forall2_length (Forall_elem _ _ _ Hst Hop)) as Hl.
      destruct (lookup_lt_is_Some_2 (stride_bytes op) i) as [t Ht]; [lia|]. rewrite (vec_get_nat _ i t) by done.
      unfold stride_at. by rewrite Ht.
  - eexists. split; [done|]. intros d Hd. unfold pad_strides, ntensors. rewrite (length_rows _ (length (operands_ it))).
    2:{ intros. apply length_fmap. }
    destruct (decide (d < length (shape_ it))%nat) as [Hlt|Hge].
    + apply (take_row (λ d, stride_at d <$> operands_ it)); [intros; apply length_fmap|done].
    + pose proof (Nat.mul_le_mono_r (length (shape_ it)) d (length (operands_ it)) ltac:(lia)).
      pose proof (Nat.mul_le_mono_r d 1 (length (operands_ it)) ltac:(lia)).
      rewrite drop_app_ge by (rewrite (length_rows _ (length (operands_ it))); [lia|intros; apply length_fmap]).
      rewrite drop_replicate, take_replicate. rewrite Nat.min_l by (rewrite (length_rows _ (length (operands_ it))); [lia|intros; apply length_fmap]).
      clear -Hst Hge. induction Hst as [|op ops Hop _ IH]; [done|]. cbn. f_equal; [|exact IH].
      unfold stride_at. rewrite lookup_ge_None_2; [done|]. pose proof (Forall2_length Hop). lia.
Qed.

(** ** What the calls visit *)
Lemma seqZ_shift b n : seqZ b n = Z.add b <$> seqZ 0 n.
Proof. by rewrite fmap_add_seqZ, Z.add_0_r. Qed.

(** Rows of [k0] elements are the elements in order. *)
Lemma elements_rows it off k0 k1 :
  0 ≤ k0 → 0 ≤ k1 →
  mjoin ((λ j, (λ i, addresses it (off + k0 * j + i)) <$> seqZ 0 k0) <$> seqZ 0 k1) = elements it off (off + k0 * k1).
Proof.
  intros H0 H1. revert k1 H1. apply natlike_ind.
  - cbn. by rewrite Z.mul_0_r, Z.add_0_r, elements_nil.
  - intros k1 H1 IH. replace (Z.succ k1) with (k1 + 1) by lia. rewrite seqZ_app, fmap_app, join_app, IH by lia.
    rewrite (elements_split it off (off + k0 * k1) (off + k0 * (k1 + 1))) by nia. f_equal.
    replace (seqZ (0 + k1) 1) with [k1] by (unfold seqZ; cbn; f_equal; lia). cbn [fmap list_fmap mjoin list_join]. rewrite app_nil_r.
    unfold elements. replace (off + k0 * (k1 + 1) - (off + k0 * k1)) with k0 by lia.
    rewrite (seqZ_shift (off + k0 * k1)), <- list_fmap_compose. by apply list_fmap_ext.
Qed.

(** The index of an element of a block. *)
Lemma block_decode s0 s1 shape off k0 k1 i j :
  0 < s0 → 0 < s1 → block s0 s1 off k0 k1 → 0 ≤ i < k0 → 0 ≤ j < k1 →
  decode (s0 :: s1 :: shape) (off + k0 * j + i) =
    off mod s0 + i :: (off / s0) mod s1 + j :: decode shape (off / s0 / s1).
Proof.
  intros Hs0 Hs1 (_ & _ & Hb) Hi Hj. destruct Hb as [[-> Hf]|(-> & Hz & Hf)].
  - replace j with 0 by lia. rewrite Z.mul_0_r, !Z.add_0_r. by rewrite decode_add by lia.
  - rewrite (decode_add s0 _ (off + s0 * j)); rewrite ?(Z.add_comm off (s0 * j)), ?(Z.mul_comm s0 j), ?Z_mod_plus_full;
      rewrite ?(Z.add_comm (j * s0) off), ?Z_mod_plus_full, ?Z_div_plus_full by lia; [|lia..].
    by rewrite Hz, decode_add by lia.
Qed.

(** The strides of a call as the loops see them. *)
Definition strides_of (it : Iterator) (st : list Z) : Prop :=
  ∀ d, (d < 2)%nat → take (ntensors it) (drop (d * ntensors it) st) = stride_at d <$> operands_ it.

Lemma visit_at_ops it st p k0 k1 i j f :
  strides_of it st → p = f <$> operands_ it →
  visit_at (ntensors it) (mkCall p st k0 k1) i j = (λ op, f op + (i * stride_at 0 op + j * stride_at 1 op)) <$> operands_ it.
Proof.
  intros Hst ->. unfold visit_at. cbn [ptrs call_strides].
  pose proof (Hst 0%nat ltac:(lia)) as H0. pose proof (Hst 1%nat ltac:(lia)) as H1.
  rewrite Nat.mul_0_l, drop_0 in H0. rewrite Nat.mul_1_l in H1. rewrite H0, H1.
  by rewrite !zip_with_fmap_same.
Qed.

Lemma visited_rows it st p k0 k1 off :
  0 ≤ k0 → 0 ≤ k1 →
  (∀ i j, 0 ≤ i < k0 → 0 ≤ j < k1 → visit_at (ntensors it) (mkCall p st k0 k1) i j = addresses it (off + k0 * j + i)) →
  visited (ntensors it) (mkCall p st k0 k1) = elements it off (off + k0 * k1).
Proof.
  intros H0 H1 H. unfold visited. cbn [size0 size1]. rewrite <- elements_rows by done. f_equal.
  apply list_fmap_ext. intros x j Hj. apply lookup_seqZ in Hj as [-> Hj].
  apply list_fmap_ext. intros y i Hi. apply lookup_seqZ in Hi as [-> Hi]. apply H; lia.
Qed.

Lemma valid_strides_2 s0 s1 shape st : valid_strides (s0 :: s1 :: shape) st → ∃ t0 t1 ts, st = t0 :: t1 :: ts.
Proof. intros H. inversion H as [|? t0 ? st' _ H']; subst. inversion H' as [|? t1 ? ts _ _]; subst. eauto. Qed.

(** Two dimensions or more: a block. *)
Lemma visited_block it s0 s1 shape st off k0 k1 :
  shape_ it = s0 :: s1 :: shape → valid it → strides_of it st → block s0 s1 off k0 k1 →
  visited (ntensors it) (mkCall (addresses it off) st k0 k1) = elements it off (off + k0 * k1).
Proof.
  intros Hsh [[Hp _] Hv] Hst Hb. rewrite Hsh in Hp, Hv. apply positive_dims_cons in Hp as [Hs0 [Hs1 _]%positive_dims_cons].
  apply visited_rows; [destruct Hb; lia|destruct Hb as (_ & ? & _); lia|]. intros i j Hi Hj.
  erewrite visit_at_ops by done. unfold addresses. apply list_fmap_ext. intros x op Hop.
  apply (Forall_lookup_1 _ _ _ _ Hv) in Hop. destruct (valid_strides_2 _ _ _ _ Hop) as (t0 & t1 & ts & E).
  unfold address, stride_at. rewrite Hsh. rewrite (block_decode s0 s1 shape off k0 k1) by done.
  rewrite !decode_cons, E, !offset_cons'. cbn. lia.
Qed.

(** ** [serial_for_each] *)
Lemma serial_loop_Ok it s0 s1 shape st r : 
  shape_ it = s0 :: s1 :: shape → valid it → strides_of it st → 0 ≤ end_ r ≤ prodl (shape_ it) →
  ∀ fuel off, 0 ≤ off → end_ r - off ≤ Z.of_nat fuel →
  ∃ calls, serial_loop fuel it st (get_base_ptrs it) (counter_at (shape_ it) r off) = Ok calls ∧
    visited_all (ntensors it) calls = elements it off (Z.max off (end_ r)).
Proof.
  intros Hsh Hv Hst He. pose proof (valid_sh it Hv) as Hvs. pose proof (proj2 Hvs) as Hsmall.
  induction fuel as [|fuel IH]; intros off Hoff Hf; cbn [serial_loop]; unfold is_done; cbn [counter_at range offset].
  - rewrite (proj2 (Z.leb_le _ _)) by lia. exists []. split; [done|]. by rewrite Z.max_l, elements_nil by lia.
  - destruct (Z.leb_spec (end_ r) off) as [Hd|Hd].
    { exists []. split; [done|]. by rewrite Z.max_l, elements_nil by lia. }
    rewrite (get_data_ptrs_Ok it off) by done. rewrite Ok_bind.
    destruct (max_2d_step_block s0 s1 shape r off) as (k0 & k1 & Hstep & Hb & Hend); [by rewrite <- Hsh|lia|lia|].
    rewrite Hsh in *. rewrite Hstep, Ok_bind. rewrite increment_block by (done || lia). rewrite Ok_bind.
    pose proof Hb as (Hk0 & Hk1 & _). destruct (IH (off + k0 * k1)) as (calls & Hc & Hvis); [nia|nia|].
    rewrite Hc, Ok_bind. eexists. split; [done|]. rewrite visited_all_cons, Hvis. rewrite (visited_block it s0 s1 shape st off k0 k1) by done.
    rewrite !Z.max_r by lia. symmetry. apply elements_split. nia.
Qed.

(** One dimension or none: a single call. *)
Lemma flat_index it l op : (ndim it ≤ 1)%nat → valid it → op ∈ operands_ it → 0 ≤ l < prodl (shape_ it) →
  offset_at (stride_bytes op) (decode (shape_ it) l) = l * stride_at 0 op.
Proof.
  intros Hn [_ Hst] Hop Hl. pose proof (Forall_elem _ _ _ Hst Hop) as H. unfold ndim, stride_at in *. cbn beta in H.
  destruct (shape_ it) as [|s [|]]; [| |cbn in Hn; lia].
  - inversion H; subst. rewrite prodl_nil in Hl. by replace l with 0 by lia.
  - inversion H as [|? t ? ts _ H']; subst. inversion H'; subst. rewrite prodl_one in Hl.
    rewrite decode_cons, offset_cons', offset_nil_l, Z.mod_small by lia. cbn. lia.
Qed.

Lemma flat_ptrs it b : (ndim it ≤ 1)%nat → valid it → 0 ≤ b < prodl (shape_ it) →
  get_data_ptrs it (get_base_ptrs it) [b] = Ok (addresses it b).
Proof.
  intros Hn Hv Hb. unfold ndim in Hn. destruct (shape_ it) as [|s [|]] eqn:Hsh; [| |cbn in Hn; lia].
  - unfold get_data_ptrs, get_base_ptrs, addresses. rewrite zip_with_fmap_r, zip_with_diag, mapM_fmap.
    apply mapM_fmap_Ok. intros op _. unfold data_ptr_at, ndim, address. rewrite Hsh, offset_nil_r. cbn. by rewrite Z.add_0_r.
  - apply get_data_ptrs_Ok; [done|]. rewrite Hsh, decode_cons. rewrite prodl_one in Hb.
    by rewrite Z.mod_small by lia.
Qed.

Lemma flat_call it st b e :
  (ndim it ≤ 1)%nat → valid it → strides_of it st → e - b ≠ 0 → 0 ≤ b → b ≤ e ≤ prodl (shape_ it) →
  ∃ calls, (p ← get_data_ptrs it (get_base_ptrs it) [b]; Ok [mkCall p st (e - b) 1]) = Ok calls ∧
    visited_all (ntensors it) calls = elements it b e.
Proof.
  intros Hn Hv Hst Hne Hb He. rewrite flat_ptrs by (done || lia). eexists. split; [done|].
  unfold visited_all. cbn [fmap list_fmap mjoin list_join]. rewrite app_nil_r.
  rewrite (visited_rows it st (addresses it b) (e - b) 1 b); [f_equal; lia|lia|lia|].
  intros i j Hi Hj. erewrite visit_at_ops by done. unfold addresses. apply list_fmap_ext. intros x op Hop.
  apply list_elem_of_lookup_2 in Hop. replace j with 0 by lia. rewrite Z.mul_0_r, Z.add_0_r.
  unfold address. rewrite !flat_index by (done || lia). lia.
Qed.

Lemma serial_for_each_Ok it b e :
  valid it → 0 ≤ b → b ≤ e ≤ prodl (shape_ it) →
  ∃ calls, serial_for_each it (mkRange b e) = Ok calls ∧ visited_all (ntensors it) calls = elements it b e.
Proof.
  intros Hv Hb He. pose proof (valid_sh it Hv) as Hvs. pose proof (proj2 Hvs) as Hsmall.
  unfold serial_for_each, range_size. cbn [begin end_]. rewrite sub64_exact by (apply in_S64_iff; lia).
  destruct (Z.eqb_spec (e - b) 0) as [E|E].
  { exists []. split; [done|]. replace e with b by lia. by rewrite elements_nil. }
  destruct (get_strides_Ok it Hv) as (st & -> & Hst). rewrite Ok_bind. unfold ndim.
  destruct (shape_ it) as [|s0 [|s1 shape]] eqn:Hsh; cbn [length].
  - rewrite bool_decide_eq_true_2 by lia. apply flat_call; [unfold ndim; rewrite Hsh; cbn; lia|done..|rewrite Hsh; lia].
  - rewrite bool_decide_eq_true_2 by lia. apply flat_call; [unfold ndim; rewrite Hsh; cbn; lia|done..|rewrite Hsh; lia].
  - rewrite bool_decide_eq_false_2 by lia. rewrite DimCounter_make_Ok; [|apply Hvs|cbn [begin]; lia]. rewrite Ok_bind. cbn [begin].
    destruct (serial_loop_Ok it s0 s1 shape _ (mkRange b e) Hsh Hv Hst) with (fuel := Z.to_nat (e - b)) (off := b)
      as (calls & Hc & Hvis); [rewrite Hsh; cbn [end_]; lia|lia|cbn [end_]; lia|].
    rewrite Hsh in Hc. exists calls. split; [exact Hc|]. rewrite Hvis. cbn [end_]. by rewrite Z.max_r by lia.
Qed.

(** ** The one-dimensional loop *)
Definition visited1 (n : nat) (c : Call1) : list (list Z) :=
  (λ i, zip_with (λ p s, p + i * s) (ptrs1 c) (take n (call1_strides c))) <$> seqZ 0 (size c).

Lemma zip_with_shift (i : Z) ps ss ts :
  length ps = length ss → length ss = length ts → ∀ j,
  zip_with (λ p s, p + i * s) (zip_with Z.add ps ((λ t, j * t) <$> ts)) ss =
  zip_with Z.add ps (zip_with (λ s t, i * s + j * t) ss ts).
Proof.
  revert ss ts. induction ps as [|p ps IH]; intros [|s ss] [|t ts] H1 H2 j; try done. cbn.
  f_equal; [lia|]. cbn in H1, H2. apply IH; lia.
Qed.
Lemma zip_with_next ps ts j :
  length ps = length ts →
  zip_with Z.add (zip_with Z.add ps ((λ t, j * t) <$> ts)) ts = zip_with Z.add ps ((λ t, (j + 1) * t) <$> ts).
Proof. revert ts. induction ps as [|p ps IH]; intros [|t ts] H; try done. cbn. f_equal; [lia|apply IH; cbn in H; lia]. Qed.

Lemma loop_wrapper_rows_visit n ps ss ts k0 k1 j :
  length ps = n → length ss = n → length ts = n →
  mjoin (visited1 n <$> loop_wrapper_rows k1 (zip_with Z.add ps ((λ t, j * t) <$> ts)) (ss ++ ts) ts k0) =
  mjoin ((λ j, (λ i, visit_at n (mkCall ps (ss ++ ts) k0 (Z.of_nat k1)) i j) <$> seqZ 0 k0) <$> seqZ j (Z.of_nat k1)).
Proof.
  intros H1 H2 H3. revert j. induction k1 as [|k1 IH]; intros j; [done|].
  rewrite (seqZ_cons j) by lia. cbn [loop_wrapper_rows fmap list_fmap mjoin list_join]. f_equal.
  - unfold visited1, visit_at. cbn [ptrs1 call1_strides size ptrs call_strides]. rewrite !take_app_length', drop_app_length', take_ge by lia.
    apply list_fmap_ext. intros _ i _. apply zip_with_shift; lia.
  - rewrite zip_with_next by lia. replace (Z.succ j) with (j + 1) by lia.
    replace (Z.pred (Z.of_nat (S k1))) with (Z.of_nat k1) by lia. apply IH.
Qed.

Lemma loop_wrapper_visit n c :
  length (ptrs c) = n → length (call_strides c) = (2 * n)%nat → 0 ≤ size1 c →
  mjoin (visited1 n <$> loop_wrapper n c) = visited n c.
Proof.
  intros H1 H2 H3. destruct c as [ps st k0 k1]. cbn in *. unfold loop_wrapper, visited. cbn [ptrs call_strides size0 size1].
  rewrite take_ge by lia. pose proof (loop_wrapper_rows_visit n ps (take n st) (drop n st) k0 (Z.to_nat k1) 0) as H.
  rewrite take_drop, Z2Nat.id in H by done. rewrite <- H; [|done|rewrite length_take; lia|rewrite length_drop; lia].
  do 3 f_equal. clear -H1 H2. symmetry. assert (Hl : length ps = length (drop n st)) by (rewrite length_drop; lia).
  revert Hl. generalize (drop n st). clear. induction ps as [|p ps IH]; intros [|t ts] H; try done. cbn. f_equal; [lia|apply IH; cbn in H; lia].
Qed.

(** ** Threads *)
Lemma parallel_for_elements it b e grain n ip :
  0 ≤ b ≤ e → e + n < 2 ^ 62 → 1 ≤ n →
  mjoin ((λ r, elements it (begin r) (end_ r)) <$> parallel_for b e grain n ip) = elements it b e ∧
  Forall (λ r, b ≤ begin r ∧ begin r ≤ end_ r ≤ e) (parallel_for b e grain n ip).
Proof.
  intros Hb Hs Hn. unfold parallel_for. match goal with |- context [if ?c then n else 1] => set (t := if c then n else 1) end. assert (Ht : 1 ≤ t ≤ n) by (unfold t; destruct (_ && _); lia).
  clearbody t. unfold divup. rewrite (sub64_exact e b) by (apply in_S64_iff; lia).
  rewrite (add64_exact (e - b) t) by (apply in_S64_iff; lia). rewrite sub64_exact by (apply in_S64_iff; lia).
  rewrite Z.quot_div_nonneg by lia. set (chunk := (e - b + t - 1) / t).
  assert (Hc : e - b ≤ t * chunk < e - b + t).
  { pose proof (Z.div_mod (e - b + t - 1) t ltac:(lia)). pose proof (Z.mod_pos_bound (e - b + t - 1) t ltac:(lia)). unfold chunk. lia. }
  clearbody chunk. assert (0 ≤ chunk) by nia.
  match goal with |- context [omap ?g (seqZ 0 t)] => set (f := g) end. enough (Hall : ∀ k, 0 ≤ k → k ≤ t →
    mjoin ((λ r, elements it (begin r) (end_ r)) <$> omap f (seqZ 0 k)) = elements it b (Z.min e (b + k * chunk)) ∧
    Forall (λ r, b ≤ begin r ∧ begin r ≤ end_ r ≤ e) (omap f (seqZ 0 k))).
  { destruct (Hall t ltac:(lia) ltac:(lia)) as [E HF]. rewrite E. split; [f_equal; lia|done]. }
  apply (natlike_ind (λ k, k ≤ t → _)).
  - intros _. cbn. rewrite Z.add_0_r, Z.min_r, elements_nil by lia. done.
  - intros k Hk IH Hkt. destruct IH as [E HF]; [lia|]. replace (Z.succ k) with (k + 1) by lia.
    rewrite seqZ_app, omap_app, fmap_app, join_app, E by lia. replace (seqZ (0 + k) 1) with [k] by (unfold seqZ; cbn; f_equal; lia).
    assert (0 ≤ k * chunk) by nia. assert ((k + 1) * chunk ≤ t * chunk) by nia. cbn [omap list_omap]. unfold f at 1 3. cbv beta zeta.
    rewrite mul64_exact by (apply in_S64_iff; nia). rewrite add64_exact by (apply in_S64_iff; nia).
    destruct (Z.ltb_spec (b + k * chunk) e) as [Hlt|Hge].
    + rewrite add64_exact by (apply in_S64_iff; nia). cbn [fmap list_fmap mjoin list_join begin end_]. rewrite app_nil_r. split.
      * rewrite Z.min_r by lia. replace (b + (k + 1) * chunk) with (chunk + (b + k * chunk)) by lia.
        symmetry. apply elements_split. lia.
      * apply Forall_app. split; [done|]. constructor; [cbn; lia|constructor].
    + cbn [fmap list_fmap mjoin list_join]. rewrite !app_nil_r. split; [|done]. f_equal. lia.
Qed.

Lemma for_each_Ok it n ip :
  valid it → 1 ≤ n → prodl (shape_ it) + n < 2 ^ 62 →
  ∃ threads, for_each it n ip = Ok threads ∧
    mjoin (visited_all (ntensors it) <$> threads) = elements it 0 (prodl (shape_ it)).
Proof.
  intros Hv Hn Hs. pose proof (prodl_pos _ (proj1 (valid_sh it Hv))) as Hp. unfold for_each, numel.
  rewrite numel_prodl by apply Hv. destruct (Z.eqb_spec (prodl (shape_ it)) 0); [lia|].
  destruct ((_ <? _) || _).
  - destruct (serial_for_each_Ok it 0 (prodl (shape_ it)) Hv) as (calls & -> & Hvis); [lia|lia|].
    exists [calls]. split; [done|]. cbn. by rewrite app_nil_r.
  - destruct (parallel_for_elements it 0 (prodl (shape_ it)) GRAIN_SIZE n ip) as [E HF]; [lia|lia|done|].
    destruct (mapM_exists (λ r calls, visited_all (ntensors it) calls = elements it (begin r) (end_ r)) (serial_for_each it)
      (parallel_for 0 (prodl (shape_ it)) GRAIN_SIZE n ip)) as (threads & -> & HF2).
    + intros r Hr. pose proof (Forall_elem _ _ _ HF Hr) as [H1 H2]. destruct r as [b e]. cbn in H1, H2.
      destruct (serial_for_each_Ok it b e Hv) as (calls & Hc & Hvis); [lia|lia|]. by exists calls.
    + exists threads. split; [done|]. rewrite <- E. f_equal. clear -HF2. induction HF2; cbn; [done|]. by f_equal.
Qed.
