(* ===== verification/IterDims.v ===== *)
(** * Changing the dimensions of an iterator

    [coalesce_dimensions] keeps the address of every element for every operand, and
    leaves no dimension of size 1 but a single one.

    [reorder_dimensions] always finds a permutation of the dimensions, and permuting shape
    and strides together keeps the set of the addresses of an iterator: each element is
    visited once, at another time. *)
From S2P Require Import Prelude CoreTypes ScalarTypes Options Geometry Strides ViewsSpec TensorIterator IterLoop.
Local Open Scope Z_scope.
Import TensorIterator.

(** ** Two adjacent dimensions as one *)
Lemma decode_app A B l : positive_dims A → decode (A ++ B) l = decode A l ++ decode B (l / prodl A).
Proof.
  intros H. revert l. induction H as [|s A Hs H IH]; intros l; cbn [app decode].
  - by rewrite prodl_nil, Z.div_1_r.
  - rewrite IH, prodl_cons, Z.div_div; [done|lia|by apply prodl_pos].
Qed.

(** The stride [t] that dimensions [p] and [s] with strides [t0] and [t1] get when merged. *)
Definition merges (p s t0 t1 t : Z) : Prop := p = 1 ∧ t = t1 ∨ s = 1 ∧ t = t0 ∨ t1 = p * t0 ∧ t = t0.

Lemma merges_digits p s t0 t1 t m : 0 < p → 0 < s → merges p s t0 t1 t →
  t0 * (m mod p) + t1 * ((m / p) mod s) = t * (m mod (p * s)).
Proof.
  intros Hp Hs [[-> ->]|[[-> ->]|[-> ->]]].
  - rewrite Z.mod_1_r, Z.div_1_r, Z.mul_1_l. lia.
  - rewrite Z.mod_1_r, Z.mul_1_r. lia.
  - rewrite Z.rem_mul_r by lia. lia.
Qed.

Lemma merge_offset A X p s C t0 t1 Y t l :
  length X = length A → positive_dims A → 0 < p → 0 < s → merges p s t0 t1 t →
  offset_at (X ++ t0 :: t1 :: Y) (decode (A ++ p :: s :: C) l) = offset_at (X ++ t :: Y) (decode (A ++ p * s :: C) l).
Proof.
  intros Hl HA Hp Hs Hm. rewrite !decode_app by done. rewrite !offset_app by by rewrite length_decode.
  f_equal. rewrite !decode_cons, !offset_cons'. rewrite (Z.div_div _ p s) by lia.
  by rewrite Z.add_assoc, (merges_digits p s t0 t1 t) by done.
Qed.

Lemma merge_valid_strides A X p s C t0 t1 Y t :
  length X = length A → 0 < p → 0 < s → merges p s t0 t1 t →
  valid_strides (A ++ p :: s :: C) (X ++ t0 :: t1 :: Y) → valid_strides (A ++ p * s :: C) (X ++ t :: Y).
Proof.
  intros Hl Hp Hs Hm H. apply Forall2_app_inv in H as [HX H]; [|done].
  inversion H as [|? ? ? ? [Ha Hb] H']; subst. inversion H' as [|? ? ? ? [Hc Hd] HY]; subst.
  apply Forall2_app; [done|]. constructor; [|done]. destruct Hm as [[-> ->]|[[-> ->]|[-> ->]]]; split; lia.
Qed.

Lemma merge_valid_shape A p s C : valid_shape (A ++ p :: s :: C) → valid_shape (A ++ p * s :: C) ∧
  prodl (A ++ p * s :: C) = prodl (A ++ p :: s :: C).
Proof.
  intros [Hp Hl]. apply Forall_app in Hp as [HA [H1 [H2 HC]%positive_dims_cons]%positive_dims_cons].
  assert (E : prodl (A ++ p * s :: C) = prodl (A ++ p :: s :: C)) by (rewrite !prodl_app, !prodl_cons; lia).
  split; [|done]. split; [|by rewrite E]. apply Forall_app. split; [done|]. constructor; [nia|done].
Qed.

(** ** The vectors of the loop

    After the dimensions below [dim] the result is in the first [prev + 1] places; the
    dimensions from [dim] on are still to come. *)
Definition effective (prev dim : nat) (v : list Z) : list Z := take (S prev) v ++ drop dim v.

Lemma effective_split prev dim v x y :
  v !! prev = Some x → v !! dim = Some y → effective prev dim v = take prev v ++ x :: y :: drop (S dim) v.
Proof.
  intros Hx Hy. unfold effective. rewrite (take_S_r v prev x) by done. rewrite <- app_assoc. cbn.
  by rewrite (drop_S v y dim).
Qed.
Lemma effective_set prev dim v x :
  (prev < dim)%nat → (dim < length v)%nat → effective prev (S dim) (<[prev := x]> v) = take prev v ++ x :: drop (S dim) v.
Proof.
  intros Hp Hd. unfold effective. rewrite drop_insert_lt by lia.
  rewrite (take_S_r (<[prev := x]> v) prev x) by (apply list_lookup_insert_eq; lia).
  rewrite take_insert_ge by lia. by rewrite <- app_assoc.
Qed.
Lemma effective_push prev dim v y :
  (prev < dim)%nat → v !! dim = Some y → effective (S prev) (S dim) (<[S prev := y]> v) = effective prev dim v.
Proof.
  intros Hp Hy. pose proof (lookup_lt_Some _ _ _ Hy). unfold effective.
  rewrite (take_S_r (<[S prev := y]> v) (S prev) y) by (apply list_lookup_insert_eq; lia).
  rewrite take_insert_ge, drop_insert_lt by lia. rewrite <- app_assoc. cbn. by rewrite (drop_S v y dim).
Qed.

(** ** One step *)

(** What the loop keeps of an operand. *)
Definition coal_op (n prev dim : nat) (sh0 sh : list Z) (op0 op : OperandInfo) : Prop :=
  ∃ st, op = set_stride_bytes st op0 ∧ length st = n ∧ valid_strides (effective prev dim sh) (effective prev dim st) ∧
    ∀ l, offset_at (effective prev dim st) (decode (effective prev dim sh) l) = offset_at (stride_bytes op0) (decode sh0 l).
(** Neither dimension has size 1, and for some operand a step over the first does not lead
    to a step over the second. *)
Definition apart (i : nat) (sh : list Z) (ops : list OperandInfo) : Prop :=
  ∃ s0 s1 op, sh !! i = Some s0 ∧ sh !! S i = Some s1 ∧ s0 ≠ 1 ∧ s1 ≠ 1 ∧ op ∈ ops ∧ s0 * stride_at i op ≠ stride_at (S i) op.

Lemma stride_at_lookup d op : (d < length (stride_bytes op))%nat → stride_bytes op !! d = Some (stride_at d op).
Proof. intros H. unfold stride_at. by destruct (lookup_lt_is_Some_2 _ _ H) as [x ->]. Qed.
Lemma stride_at_same j x op : (j < length (stride_bytes op))%nat → stride_at j (set_stride_bytes (<[j := x]> (stride_bytes op)) op) = x.
Proof. intros H. unfold stride_at. cbn. by rewrite list_lookup_insert_eq. Qed.
Lemma stride_at_other i j x op : i ≠ j → stride_at i (set_stride_bytes (<[j := x]> (stride_bytes op)) op) = stride_at i op.
Proof. intros H. unfold stride_at. cbn. by rewrite list_lookup_insert_ne. Qed.

Section Step.
Context (n prev dim : nat) (sh : list Z) (p s : Z).
Context (Hpd : (prev < dim)%nat) (Hdn : (dim < n)%nat) (Hn : length sh = n).
Context (Hp : sh !! prev = Some p) (Hs : sh !! dim = Some s) (Hv : valid_shape (effective prev dim sh)).

Lemma shape_split : effective prev dim sh = take prev sh ++ p :: s :: drop (S dim) sh.
Proof using Hp Hs. by apply effective_split. Qed.
Lemma shape_bounds : positive_dims (take prev sh) ∧ 0 < p ∧ 0 < s.
Proof using Hp Hs Hv.
  destruct Hv as [H _]. rewrite shape_split in H. apply Forall_app in H as [H1 [H2 [H3 _]%positive_dims_cons]%positive_dims_cons].
  done.
Qed.
Lemma merged_shape : effective prev (S dim) (<[prev := p * s]> sh) = take prev sh ++ p * s :: drop (S dim) sh.
Proof using Hpd Hdn Hn. apply effective_set; lia. Qed.

Lemma coal_op_merge sh0 op0 op t :
  coal_op n prev dim sh0 sh op0 op → merges p s (stride_at prev op) (stride_at dim op) t →
  coal_op n prev (S dim) sh0 (<[prev := p * s]> sh) op0 (set_stride_bytes (<[prev := t]> (stride_bytes op)) op).
Proof using Hpd Hdn Hn Hp Hs Hv.
  intros (st & -> & Hl & Hst & Ho) Hm. cbn [stride_bytes set_stride_bytes]. destruct shape_bounds as (HA & Hp0 & Hs0).
  pose proof (stride_at_lookup prev (set_stride_bytes st op0)) as E0. pose proof (stride_at_lookup dim (set_stride_bytes st op0)) as E1.
  cbn [stride_bytes set_stride_bytes] in E0, E1. specialize (E0 ltac:(lia)). specialize (E1 ltac:(lia)).
  rewrite shape_split, (effective_split prev dim st _ _ E0 E1) in *.
  assert (Hlen : length (take prev st) = length (take prev sh)) by (rewrite !length_take; lia).
  exists (<[prev := t]> st). split; [done|]. split; [by rewrite length_insert|].
  rewrite merged_shape, effective_set by lia. split; [by eapply merge_valid_strides|].
  intros l. rewrite <- Ho. symmetry. by apply merge_offset.
Qed.

Lemma coal_op_push sh0 op0 op :
  coal_op n prev dim sh0 sh op0 op →
  coal_op n (S prev) (S dim) sh0 (<[S prev := s]> sh) op0 (set_stride_bytes (<[S prev := stride_at dim op]> (stride_bytes op)) op).
Proof using Hpd Hdn Hn Hs.
  intros (st & -> & Hl & Hst & Ho). cbn [stride_bytes set_stride_bytes].
  pose proof (stride_at_lookup dim (set_stride_bytes st op0)) as E1. cbn [stride_bytes set_stride_bytes] in E1. specialize (E1 ltac:(lia)).
  exists (<[S prev := stride_at dim (set_stride_bytes st op0)]> st). split; [done|]. split; [by rewrite length_insert|].
  by rewrite (effective_push prev dim sh), (effective_push prev dim st).
Qed.

(** The product that the comparison of the strides computes does not wrap. *)
Lemma coal_op_exact sh0 op0 op :
  coal_op n prev dim sh0 sh op0 op → length (stride_bytes op) = n ∧ 0 ≤ p * stride_at prev op < 2 ^ 63.
Proof using Hpd Hdn Hn Hp Hs Hv.
  intros (st & -> & Hl & Hst & _). cbn [stride_bytes set_stride_bytes]. split; [done|]. destruct shape_bounds as (_ & Hp0 & _).
  pose proof (stride_at_lookup prev (set_stride_bytes st op0)) as E0. pose proof (stride_at_lookup dim (set_stride_bytes st op0)) as E1.
  cbn [stride_bytes set_stride_bytes] in E0, E1. specialize (E0 ltac:(lia)). specialize (E1 ltac:(lia)).
  rewrite shape_split, (effective_split prev dim st _ _ E0 E1) in Hst.
  apply Forall2_app_inv in Hst as [_ Hst]; [|rewrite !length_take; lia]. apply Forall2_cons_iff in Hst as [[? ?] _]. nia.
Qed.
End Step.

(** ** The comparison and the replacement of the strides *)
Lemma strides_coalesce_Ok p dim0 dim1 ops :
  (∀ op, op ∈ ops → (dim0 < length (stride_bytes op))%nat ∧ (dim1 < length (stride_bytes op))%nat ∧ in_S 64 (p * stride_at dim0 op)) →
  strides_coalesce p dim0 dim1 ops = Ok (bool_decide (Forall (λ op, p * stride_at dim0 op = stride_at dim1 op) ops)).
Proof.
  induction ops as [|op ops IH]; intros H; [done|]. destruct (H op) as (H0 & H1 & He); [by left|]. cbn [strides_coalesce].
  rewrite (vec_get_nat _ dim0 _ (stride_at_lookup _ _ H0)), (vec_get_nat _ dim1 _ (stride_at_lookup _ _ H1)), !Ok_bind.
  rewrite mul64_exact by done. destruct (Z.eqb_spec (p * stride_at dim0 op) (stride_at dim1 op)) as [E|E].
  - rewrite IH by (intros; apply H; by right). f_equal. apply bool_decide_ext. rewrite Forall_cons_iff. tauto.
  - rewrite bool_decide_eq_false_2; [done|]. by intros [? _]%Forall_cons_iff.
Qed.

Lemma replace_stride_Ok dim0 dim1 ops :
  (∀ op, op ∈ ops → (dim0 < length (stride_bytes op))%nat ∧ (dim1 < length (stride_bytes op))%nat) →
  replace_stride dim0 dim1 ops = Ok ((λ op, set_stride_bytes (<[dim0 := stride_at dim1 op]> (stride_bytes op)) op) <$> ops).
Proof.
  intros H. apply mapM_fmap_Ok. intros op [H0 H1]%H. rewrite (vec_get_nat _ dim1 _ (stride_at_lookup _ _ H1)), Ok_bind.
  by rewrite vec_set_nat.
Qed.

Lemma apart_update i sh sh' ops (f : OperandInfo → OperandInfo) :
  sh' !! i = sh !! i → sh' !! S i = sh !! S i → (∀ op, stride_at i (f op) = stride_at i op) →
  (∀ op, stride_at (S i) (f op) = stride_at (S i) op) → apart i sh ops → apart i sh' (f <$> ops).
Proof.
  intros E0 E1 F0 F1 (s0 & s1 & op & H0 & H1 & N0 & N1 & Hop & Hne). exists s0, s1, (f op).
  rewrite E0, E1, F0, F1. repeat split; try done. by apply list_elem_of_fmap_2.
Qed.

(** ** The loop *)
Definition coal (it : Iterator) (dim : nat) (st : nat * list Z * list OperandInfo) : Prop :=
  let '(prev, sh, ops) := st in
  (prev < dim)%nat ∧ length sh = ndim it ∧ valid_shape (effective prev dim sh) ∧
  prodl (effective prev dim sh) = prodl (shape_ it) ∧
  Forall2 (coal_op (ndim it) prev dim (shape_ it) sh) (operands_ it) ops ∧
  (∀ i, (i < prev)%nat → apart i sh ops).

Lemma coal_start it : valid it → ndim it ≠ 0%nat → coal it 1 (0%nat, shape_ it, operands_ it).
Proof.
  intros [Hs Ho] Hn. unfold coal, ndim in *. assert (E : ∀ v : list Z, (0 < length v)%nat → effective 0 1 v = v).
  { intros [|x v] H; [cbn in H; lia|]. unfold effective. cbn. by rewrite take_0, drop_0. }
  repeat split; try lia; rewrite ?E by lia; [apply Hs|apply Hs|done|].
  apply Forall2_same_length_lookup. split; [done|]. intros i op op' H1 H2. simplify_eq.
  eapply Forall_lookup_1 in Ho; [|exact H1]. pose proof (Forall2_length Ho) as Hl. exists (stride_bytes op).
  rewrite !E by lia. destruct op. split; [done|]. split; [lia|]. done.
Qed.

Lemma set_same_stride op : set_stride_bytes (stride_bytes op) op = op.
Proof. by destruct op. Qed.

Lemma coal_merge it dim prev sh ops p s :
  coal it dim (prev, sh, ops) → (dim < ndim it)%nat → sh !! prev = Some p → sh !! dim = Some s →
  (p = 1 → coal it (S dim) (prev, <[prev := p * s]> sh,
     (λ op, set_stride_bytes (<[prev := stride_at dim op]> (stride_bytes op)) op) <$> ops)) ∧
  (p ≠ 1 → s = 1 ∨ Forall (λ op, p * stride_at prev op = stride_at dim op) ops →
     coal it (S dim) (prev, <[prev := p * s]> sh, ops)).
Proof.
  intros (Hpd & Hn & Hv & Hpr & HF & Hap) Hd Hp Hs.
  destruct (shape_bounds prev dim sh p s Hp Hs Hv) as (HA & Hp0 & Hs0).
  pose proof Hv as Hv'. rewrite (shape_split prev dim sh p s Hp Hs) in Hv', Hpr. apply merge_valid_shape in Hv' as [Hv' E].
  split.
  - intros ->. assert (prev = 0)%nat as ->.
    { destruct prev as [|prev]; [done|]. destruct (Hap prev) as (s0 & s1 & op & _ & H1 & _ & N1 & _); [lia|]. congruence. }
    unfold coal. rewrite merged_shape with (n := ndim it) by done. repeat split; try lia; try apply Hv'.
    + by rewrite length_insert.
    + eapply Forall2_fmap_r'; [exact HF|]. intros op0 op H. eapply coal_op_merge; try done. by left.
  - intros Hne Hc. unfold coal. rewrite merged_shape with (n := ndim it) by done. repeat split; try lia; try apply Hv'.
    + by rewrite length_insert.
    + apply Forall2_same_length_lookup. split; [exact (Forall2_length HF)|]. intros i op0 op H1 H2.
      pose proof (Forall2_lookup_lr _ _ _ _ _ _ HF H1 H2) as H.
      pose proof (coal_op_exact _ _ _ _ _ _ Hpd Hd Hn Hp Hs Hv _ _ _ H) as [Hl _].
      replace op with (set_stride_bytes (<[prev := stride_at prev op]> (stride_bytes op)) op).
      2:{ rewrite list_insert_id by (apply stride_at_lookup; lia). apply set_same_stride. }
      eapply coal_op_merge; try done. right. destruct Hc as [->|Hc]; [by left|right].
      split; [|done]. symmetry. exact (Forall_lookup_1 _ _ _ _ Hc H2).
    + intros i Hi. destruct (Hap i Hi) as (s0 & s1 & op & H0 & H1 & N0 & N1 & Hop & Hneq).
      destruct (decide (S i = prev)) as [<-|Hi'].
      * exists s0, (p * s), op. rewrite list_lookup_insert_ne, list_lookup_insert_eq by lia. repeat split; try done. nia.
      * exists s0, s1, op. by rewrite !list_lookup_insert_ne by lia.
Qed.

Lemma coal_push it dim prev sh ops p s :
  coal it dim (prev, sh, ops) → (dim < ndim it)%nat → sh !! prev = Some p → sh !! dim = Some s → p ≠ 1 → s ≠ 1 →
  ¬ Forall (λ op, p * stride_at prev op = stride_at dim op) ops →
  coal it (S dim) (S prev, <[S prev := s]> sh, (λ op, set_stride_bytes (<[S prev := stride_at dim op]> (stride_bytes op)) op) <$> ops).
Proof.
  intros (Hpd & Hn & Hv & Hpr & HF & Hap) Hd Hp Hs Np Ns Hc. unfold coal.
  rewrite effective_push by (done || lia). repeat split; try lia; try apply Hv; try done.
  - by rewrite length_insert.
  - eapply Forall2_fmap_r'; [exact HF|]. intros op0 op H. by eapply coal_op_push.
  - intros i Hi. destruct (decide (i = prev)) as [->|Hne].
    + apply (not_Forall_Exists _), list.Exists_exists in Hc as (op & Hop & Hneq).
      pose proof Hop as [j Hj]%list_elem_of_lookup_1.
      destruct (Forall2_lookup_r _ _ _ _ _ HF Hj) as (op0 & _ & H).
      pose proof (coal_op_exact _ _ _ _ _ _ Hpd Hd Hn Hp Hs Hv _ _ _ H) as [Hl _].
      exists p, s, (set_stride_bytes (<[S prev := stride_at dim op]> (stride_bytes op)) op).
      rewrite list_lookup_insert_ne, list_lookup_insert_eq by lia. rewrite stride_at_same, stride_at_other by lia.
      repeat split; try done. by apply (list_elem_of_fmap_2 (λ op, set_stride_bytes (<[S prev := stride_at dim op]> (stride_bytes op)) op)).
    + apply apart_update with (sh := sh); [by rewrite list_lookup_insert_ne by lia..| | |apply Hap; lia];
        intros op; apply stride_at_other; lia.
Qed.

Lemma coal_step it dim st : coal it dim st → (dim < ndim it)%nat → ∃ st', coalesce_step dim st = Ok st' ∧ coal it (S dim) st'.
Proof.
  destruct st as [[prev sh] ops]. intros H Hd. pose proof H as (Hpd & Hn & Hv & _ & HF & _).
  destruct (lookup_lt_is_Some_2 sh prev) as [p Hp]; [lia|]. destruct (lookup_lt_is_Some_2 sh dim) as [s Hs]; [lia|].
  destruct (coal_merge _ _ _ _ _ p s H Hd Hp Hs) as [Hm1 Hm2]. pose proof (coal_push _ _ _ _ _ p s H Hd Hp Hs) as Hpush.
  pose proof (size_small _ prev p Hv) as Hsp. pose proof (merge_valid_shape (take prev sh) p s (drop (S dim) sh)) as Hps.
  rewrite <- (shape_split prev dim sh p s Hp Hs) in Hps. destruct (Hps Hv) as [Hps' _].
  assert (Hmul : mul64 p s = p * s).
  { destruct (shape_bounds prev dim sh p s Hp Hs Hv) as (_ & ? & ?).
    pose proof (size_small _ prev (p * s) Hps') as Hb. rewrite lookup_app_r in Hb by (rewrite length_take; lia).
    rewrite length_take, Nat.min_l, Nat.sub_diag in Hb by lia. specialize (Hb eq_refl). apply mul64_exact, in_S64_iff. lia. }
  assert (Hops : ∀ op, op ∈ ops → length (stride_bytes op) = ndim it ∧ in_S 64 (p * stride_at prev op)).
  { intros op [i Hi]%list_elem_of_lookup_1. destruct (Forall2_lookup_r _ _ _ _ _ HF Hi) as (op0 & _ & Ho).
    pose proof (coal_op_exact _ _ _ _ _ _ Hpd Hd Hn Hp Hs Hv _ _ _ Ho) as [? ?]. split; [done|]. apply in_S64_iff. lia. }
  unfold coalesce_step, can_coalesce. rewrite !(vec_get_nat sh _ _ Hp), !(vec_get_nat sh _ _ Hs), !Ok_bind.
  assert (Hset : ∀ x, vec_set sh (Z.of_nat prev) x = Ok (<[prev := x]> sh)) by (intros; apply vec_set_nat; lia).
  rewrite strides_coalesce_Ok by (intros op [? ?]%Hops; split_and!; [lia|lia|done]).
  assert (Hrep := replace_stride_Ok prev dim ops ltac:(intros op [? ?]%Hops; lia)).
  destruct (Z.eqb_spec p 1) as [->|Np]; [|destruct (Z.eqb_spec s 1) as [->|Ns]]; cbn [orb]; rewrite ?Ok_bind.
  - rewrite Z.eqb_refl, Hrep, Ok_bind, Hmul, Hset. eexists. split; [done|auto].
  - rewrite (proj2 (Z.eqb_neq p 1)), Hmul, Ok_bind, Hset by done. eexists. split; [done|auto].
  - case_bool_decide as Hc; rewrite ?Ok_bind.
    { rewrite (proj2 (Z.eqb_neq p 1)), Hmul, Ok_bind, Hset by done. eexists. split; [done|auto]. }
    specialize (Hpush Np Ns Hc). case_bool_decide as Hpd'.
    + eexists. split; [done|]. subst dim. rewrite (list_insert_id sh) in Hpush by done.
      replace ((λ op, set_stride_bytes (<[S prev := stride_at (S prev) op]> (stride_bytes op)) op) <$> ops) with ops in Hpush; [done|].
      rewrite <- (list_fmap_id ops) at 1. apply list_fmap_ext. intros i op Hi%list_elem_of_lookup_2. destruct (Hops op Hi) as [? _].
      cbn. rewrite list_insert_id by (apply stride_at_lookup; lia). by rewrite set_same_stride.
    + rewrite replace_stride_Ok by (intros op [? ?]%Hops; lia). rewrite Ok_bind.
      rewrite vec_set_nat by lia. rewrite Ok_bind. by eexists.
Qed.

(** What [coalesce_dimensions] guarantees. *)
Record coalesced (it it' : Iterator) : Prop := {
  co_valid : valid it';
  co_prodl : prodl (shape_ it') = prodl (shape_ it);
  co_frame : it' = set_coalesced (has_coalesced_dimensions_ it') (set_shape (shape_ it') (set_operands (operands_ it') it));
  co_ops : Forall2 (λ op op', op' = set_stride_bytes (stride_bytes op') op ∧
    ∀ l, offset_at (stride_bytes op') (decode (shape_ it') l) = offset_at (stride_bytes op) (decode (shape_ it) l)) (operands_ it) (operands_ it');
  co_addresses : ∀ l, addresses it' l = addresses it l;
  co_apart : ∀ i, (S i < ndim it')%nat → apart i (shape_ it') (operands_ it')
}.

Lemma coalesce_Ok it : valid it → ∃ it', coalesce_dimensions it = Ok it' ∧ coalesced it it'.
Proof.
  intros Hv. unfold coalesce_dimensions. case_bool_decide as Hn.
  { exists it. split; [done|]. split; [done|done|by destruct it| |done|intros i Hi; lia]. induction (operands_ it) as [|op ops IH]; constructor; [by rewrite set_same_stride|done]. }
  destruct (for_in_seq_inv (coal it) 1 (ndim it - 1) coalesce_step (0%nat, shape_ it, operands_ it)) as ([[prev sh] ops] & E & H).
  - by apply coal_start.
  - intros i st Hi H. apply coal_step; [done|lia].
  - rewrite E, Ok_bind. eexists. split; [done|]. replace (1 + (ndim it - 1))%nat with (ndim it) in H by lia.
    destruct H as (Hpd & Hl & Hsv & Hpr & HF & Hap).
    assert (Heff : ∀ v : list Z, length v = ndim it → effective prev (ndim it) v = resize (S prev) 0 v).
    { intros v Hv'. unfold effective. rewrite drop_ge, app_nil_r, resize_le by lia. done. }
    rewrite (Heff sh Hl) in *. assert (HF' : Forall2 (λ op0 op, let st := resize (S prev) 0 (stride_bytes op) in
      op = set_stride_bytes (stride_bytes op) op0 ∧ valid_strides (resize (S prev) 0 sh) st ∧
      ∀ l, offset_at st (decode (resize (S prev) 0 sh) l) = offset_at (stride_bytes op0) (decode (shape_ it) l)) (operands_ it) ops).
    { eapply Forall2_impl; [|exact HF]. intros op0 op (st & -> & Hst & Hs1 & Hs2). cbn. by rewrite !Heff in * by done. }
    split; cbn [shape_ operands_ set_coalesced set_shape set_operands].
    + split; [done|]. cbn. apply Forall_fmap, Forall_lookup_2. intros i op Hi.
      destruct (Forall2_lookup_r _ _ _ _ _ HF' Hi) as (op0 & _ & _ & Hs1 & _). done.
    + done.
    + done.
    + eapply Forall2_fmap_r'; [exact HF'|]. cbn. intros op0 op (Hop & _ & Ho). split; [by rewrite Hop|exact Ho].
    + intros l. unfold addresses. cbn. rewrite <- list_fmap_compose. clear -HF'. induction HF' as [|op0 op ops0 ops (Hop & _ & Ho) _ IH]; [done|].
      cbn. f_equal; [|done]. unfold address. cbn. rewrite <- Ho. by rewrite Hop.
    + intros i Hi. cbn in Hi. unfold ndim in Hi. cbn in Hi. rewrite length_resize in Hi. rewrite (resize_le sh) by lia.
      destruct (Hap i) as (s0 & s1 & op & H0 & H1 & N0 & N1 & Hop & Hne); [lia|].
      exists s0, s1, (set_stride_bytes (resize (S prev) 0 (stride_bytes op)) op).
      rewrite !lookup_take_lt by lia. repeat split; try done.
      * by apply (list_elem_of_fmap_2 (λ op, set_stride_bytes (resize (S prev) 0 (stride_bytes op)) op)).
      * pose proof Hop as [j Hj]%list_elem_of_lookup_1. destruct (Forall2_lookup_r _ _ _ _ _ HF Hj) as (op0 & _ & st & -> & Hst & _).
        unfold stride_at in *. cbn in *. rewrite resize_le by lia. by rewrite !lookup_take_lt by lia.
Qed.

(** ** Reordering the dimensions *)

(** ** All indices of a shape *)
Definition indices (shape : list Z) : list (list Z) := decode shape <$> seqZ 0 (prodl shape).
Definition at_index (ops : list OperandInfo) (idx : list Z) : list Z := (λ op, data op + offset_at (stride_bytes op) idx) <$> ops.

Lemma elements_indices it : elements it 0 (prodl (shape_ it)) = at_index (operands_ it) <$> indices (shape_ it).
Proof. unfold elements, indices. rewrite Z.sub_0_r, <- list_fmap_compose. done. Qed.

Fixpoint encode (shape idx : list Z) : Z :=
  match shape, idx with s :: shape, i :: idx => i + s * encode shape idx | _, _ => 0 end.

Lemma encode_range shape idx : in_range shape idx → 0 ≤ encode shape idx < prodl shape ∧ decode shape (encode shape idx) = idx.
Proof.
  induction 1 as [|i s idx shape Hi H [IH1 IH2]]; cbn [encode decode]; [by rewrite prodl_nil|].
  rewrite prodl_cons. split; [nia|]. rewrite (Z.mul_comm s), Z_mod_plus_full, Z_div_plus_full by lia.
  by rewrite Z.mod_small, Z.div_small, Z.add_0_l, IH2 by lia.
Qed.
Lemma encode_decode shape l : positive_dims shape → 0 ≤ l < prodl shape → encode shape (decode shape l) = l.
Proof.
  intros H. revert l. induction H as [|s shape Hs H IH]; intros l Hl; cbn [encode decode]; [rewrite prodl_nil in Hl; lia|].
  rewrite prodl_cons in Hl. rewrite IH; [pose proof (Z.div_mod l s); lia|].
  split; [apply Z.div_pos; lia|apply Z.div_lt_upper_bound; lia].
Qed.

Lemma elem_of_indices shape idx : positive_dims shape → idx ∈ indices shape ↔ in_range shape idx.
Proof.
  intros Hp. unfold indices. rewrite list_elem_of_fmap. split.
  - intros (l & -> & _). by apply decode_in_range.
  - intros H. destruct (encode_range shape idx H) as [Hr E]. exists (encode shape idx). split; [done|]. apply elem_of_seqZ. lia.
Qed.
Lemma NoDup_indices shape : positive_dims shape → NoDup (indices shape).
Proof.
  intros Hp. apply NoDup_fmap_2_strong; [|apply NoDup_seqZ]. intros x y Hx%elem_of_seqZ Hy%elem_of_seqZ E.
  rewrite <- (encode_decode shape x), <- (encode_decode shape y), E by (done || lia). done.
Qed.
(** A bijection between the indices of two shapes. *)
Lemma indices_bijection shape shape' (f g : list Z → list Z) :
  positive_dims shape → positive_dims shape' →
  (∀ idx, in_range shape' idx → in_range shape (f idx) ∧ g (f idx) = idx) →
  (∀ idx, in_range shape idx → in_range shape' (g idx) ∧ f (g idx) = idx) →
  f <$> indices shape' ≡ₚ indices shape.
Proof.
  intros Hp Hp' Hf Hg. apply NoDup_Permutation; [|by apply NoDup_indices|].
  - apply NoDup_fmap_2_strong; [|by apply NoDup_indices].
    intros x y Hx%elem_of_indices Hy%elem_of_indices E; [|done..].
    rewrite <- (proj2 (Hf x Hx)), <- (proj2 (Hf y Hy)), E. done.
  - intros idx. rewrite list_elem_of_fmap, elem_of_indices by done. split.
    + intros (i & -> & Hi%elem_of_indices); [|done]. by apply Hf.
    + intros H. exists (g idx). rewrite elem_of_indices by done. destruct (Hg idx H). done.
Qed.

#[export] Instance prodl_Permutation : Proper ((≡ₚ) ==> (=)) prodl.
Proof. induction 1; rewrite ?prodl_cons; lia. Qed.

(** ** Permuted indices *)
Lemma in_range_total sz idx :
  in_range sz idx ↔ length idx = length sz ∧ ∀ d, (d < length sz)%nat → 0 ≤ idx !!! d < sz !!! d.
Proof.
  unfold in_range. rewrite Forall2_same_length_lookup. split; intros [Hl H]; (split; [done|]).
  - intros d Hd. destruct (lookup_lt_is_Some_2 sz d Hd) as [s Es]. destruct (lookup_lt_is_Some_2 idx d) as [i Ei]; [lia|].
    rewrite (list_lookup_total_correct _ _ _ Es), (list_lookup_total_correct _ _ _ Ei). by eapply H.
  - intros d i s Ei Es. specialize (H d (lookup_lt_Some _ _ _ Es)).
    by rewrite (list_lookup_total_correct _ _ _ Es), (list_lookup_total_correct _ _ _ Ei) in H.
Qed.

Section Permuted.
Context (n : nat) (sigma : list nat) (Hs : is_perm n sigma).

Lemma perm_lt i d : sigma !! i = Some d → (d < n)%nat.
Proof using Hs. intros E. destruct Hs as (_ & _ & Hf). by eapply Forall_lookup_1 in Hf. Qed.
Lemma perm_at d : (d < n)%nat → ∃ i, sigma !! i = Some d.
Proof using Hs. intros H. apply list_elem_of_lookup. rewrite (is_perm_seq _ _ Hs). apply elem_of_seq. lia. Qed.

Lemma length_gather v : length (gather v sigma) = n.
Proof using Hs. unfold gather. rewrite length_fmap. apply Hs. Qed.
Lemma length_perm_source idx : length (perm_source sigma idx) = n.
Proof using Hs. unfold perm_source. rewrite length_fmap, length_seq. apply Hs. Qed.
Lemma gather_total v i d : sigma !! i = Some d → gather v sigma !!! i = v !!! d.
Proof using Hs. intros E. unfold gather. by rewrite (list_lookup_total_alt (_ <$> sigma)), list_lookup_fmap, E. Qed.

Lemma list_eq_total (u v : list Z) : length u = n → length v = n → (∀ d, (d < n)%nat → u !!! d = v !!! d) → u = v.
Proof using.
  intros Hu Hv H. apply list_eq_same_length with n; [done..|]. intros i x y Hi Hx Hy.
  rewrite <- (list_lookup_total_correct _ _ _ Hx), <- (list_lookup_total_correct _ _ _ Hy). auto.
Qed.

Lemma gather_perm_source idx : length idx = n → gather (perm_source sigma idx) sigma = idx.
Proof using Hs.
  intros Hl. apply list_eq_total; [apply length_gather|done|]. intros i Hi.
  destruct (lookup_lt_is_Some_2 sigma i) as [d Ed]; [by rewrite (proj1 Hs)|].
  by rewrite (gather_total _ i d), (perm_source_lookup n _ _ i).
Qed.
Lemma perm_source_gather idx : length idx = n → perm_source sigma (gather idx sigma) = idx.
Proof using Hs.
  intros Hl. apply list_eq_total; [apply length_perm_source|done|]. intros d Hd.
  destruct (perm_at d Hd) as [i Ei]. by rewrite (perm_source_lookup n _ _ i), (gather_total _ i d).
Qed.

Lemma in_range_gather sz idx : length sz = n → in_range (gather sz sigma) idx ↔ length idx = n ∧ in_range sz (perm_source sigma idx).
Proof using Hs.
  intros Hl. rewrite !in_range_total, length_gather, length_perm_source, Hl. split.
  - intros [Hi H]. split_and!; [done..|]. intros d Hd. destruct (perm_at d Hd) as [i Ei].
    rewrite (perm_source_lookup n _ _ i) by done. rewrite <- (gather_total sz i d) by done. apply H.
    apply lookup_lt_Some in Ei. by rewrite (proj1 Hs) in Ei.
  - intros (Hi & _ & H). split; [done|]. intros i Hil. destruct (lookup_lt_is_Some_2 sigma i) as [d Ed]; [by rewrite (proj1 Hs)|].
    rewrite (gather_total sz i d) by done. rewrite <- (perm_source_lookup n _ idx i d) by done. apply H. by eapply perm_lt.
Qed.
Lemma positive_gather sz : length sz = n → positive_dims sz → positive_dims (gather sz sigma).
Proof using Hs.
  intros Hl Hp. apply Forall_fmap, Forall_lookup_2. intros i d Ed. cbn. pose proof (perm_lt i d Ed) as Hd.
  destruct (lookup_lt_is_Some_2 sz d) as [s Es]; [lia|]. rewrite (list_lookup_total_correct _ _ _ Es). by eapply Forall_lookup_1 in Hp.
Qed.

Lemma indices_permute sz : length sz = n → positive_dims sz → perm_source sigma <$> indices (gather sz sigma) ≡ₚ indices sz.
Proof using Hs.
  intros Hl Hp. apply (indices_bijection _ _ _ (λ idx, gather idx sigma)); [done|by apply positive_gather|..].
  - intros idx [Hi H]%in_range_gather; [|done]. split; [done|by apply gather_perm_source].
  - intros idx H. pose proof (Forall2_length H). rewrite in_range_gather, perm_source_gather, length_gather by lia. done.
Qed.

Lemma prodl_gather sz : length sz = n → prodl (gather sz sigma) = prodl sz.
Proof using Hs.
  intros Hl. unfold gather. rewrite (fmap_Permutation _ _ _ (is_perm_seq _ _ Hs)) at 1.
  replace ((λ d, sz !!! d) <$> seq 0 n) with sz; [done|]. apply list_eq_total; [done|by rewrite length_fmap, length_seq|].
  intros d Hd. by rewrite (list_lookup_total_alt (_ <$> _)), list_lookup_fmap, lookup_seq_lt.
Qed.
End Permuted.

(** ** The sort *)
Definition stride_width (n : nat) (op : OperandInfo) : Prop := stride_bytes op = [] ∨ length (stride_bytes op) = n.

Lemma should_swap_Ok n ops d0 d1 ret :
  Forall (stride_width n) ops → (d0 < n)%nat → (d1 < n)%nat → ∃ r, should_swap ops d0 d1 ret = Ok r.
Proof.
  intros H H0 H1. revert ret. induction H as [|op ops Hw _ IH]; intros ret; cbn [should_swap]; [eauto|].
  case_bool_decide as He; [done|]. destruct Hw as [?|Hl]; [done|].
  destruct (lookup_lt_is_Some_2 (stride_bytes op) d0) as [s0 E0]; [lia|].
  destruct (lookup_lt_is_Some_2 (stride_bytes op) d1) as [s1 E1]; [lia|].
  rewrite (vec_get_nat _ _ _ E0), (vec_get_nat _ _ _ E1), !Ok_bind. destruct (_ && _); [eauto|].
  destruct (_ || _); [done|]. destruct (_ <=? _); eauto.
Qed.

Lemma sift_Permutation n ops : Forall (stride_width n) ops →
  ∀ k dim1 perm, (k ≤ dim1 < length perm)%nat → Forall (λ d, (d < n)%nat) perm →
  ∃ perm', sift ops k dim1 perm = Ok perm' ∧ perm' ≡ₚ perm.
Proof.
  intros Hops. induction k as [|dim0 IH]; intros dim1 perm Hk Hp; cbn [sift]; [eauto|].
  destruct (lookup_lt_is_Some_2 perm dim0) as [p0 E0]; [lia|]. destruct (lookup_lt_is_Some_2 perm dim1) as [p1 E1]; [lia|].
  rewrite E0, E1. destruct (should_swap_Ok n ops p0 p1 0 Hops) as [r ->]; [by eapply Forall_lookup_1 in Hp..|]. rewrite Ok_bind.
  pose proof (swap_Permutation perm dim0 dim1 p0 p1 ltac:(lia) E0 E1) as Hsw.
  destruct (0 <? r); [|destruct (r <? 0); [eauto|apply IH; [lia|done]]].
  destruct (IH dim0 (<[dim0 := p1]> (<[dim1 := p0]> perm))) as (perm' & E & HP).
  - rewrite !length_insert. lia.
  - by rewrite Hsw.
  - exists perm'. split; [done|]. by rewrite HP.
Qed.

Lemma sort_dimensions_perm n ops : Forall (stride_width n) ops → ∃ sigma, sort_dimensions ops n = Ok sigma ∧ is_perm n sigma.
Proof.
  intros Hops. unfold sort_dimensions.
  destruct (for_in_seq_inv (λ _ perm, perm ≡ₚ seq 0 n) 1 (n - 1) (λ i, sift ops i i) (reverse (seq 0 n))) as (sigma & -> & HP).
  - apply reverse_Permutation.
  - intros i perm Hi HP. destruct (sift_Permutation n ops Hops i i perm) as (perm' & -> & HP').
    + rewrite (Permutation_length HP), length_seq. lia.
    + rewrite HP. apply Forall_lookup_2. intros j d [-> ?]%lookup_seq. lia.
    + exists perm'. split; [done|]. by rewrite HP'.
  - exists sigma. split; [done|]. split_and!.
    + by rewrite (Permutation_length HP), length_seq.
    + rewrite HP. apply NoDup_seq.
    + rewrite HP. apply Forall_lookup_2. intros j d [-> ?]%lookup_seq. lia.
Qed.

(** ** The permutation *)
Lemma reorder_Ok n sigma v : is_perm n sigma → length v = n → reorder sigma v = Ok (gather v sigma).
Proof.
  intros Hs Hl. unfold reorder.
  destruct (for_up_inv (λ i res, length res = n ∧ take i res = gather v (take i sigma)) (length sigma)
    (λ i res, d ← match sigma !! i with Some d => vec_get v (Z.of_nat d) | None => Throw (Prelude.Undefined "perm[i]") end;
      vec_set res (Z.of_nat i) d) (replicate (length v) 0)) as (r & E & Hr & HE).
  - rewrite length_replicate, !take_0. done.
  - intros i res Hi [Hr HE]. destruct (lookup_lt_is_Some_2 sigma i Hi) as [d Ed]. rewrite Ed.
    pose proof (perm_lt n sigma Hs i d Ed). destruct (lookup_lt_is_Some_2 v d) as [x Ex]; [lia|].
    destruct Hs as (Hsl & _ & _). rewrite (vec_get_nat _ _ _ Ex), Ok_bind, vec_set_nat by lia. eexists. split; [done|].
    rewrite length_insert. split; [done|].
    by rewrite take_insert_snoc, (gather_snoc v sigma i d Ed), HE, (list_lookup_total_correct _ _ _ Ex) by lia.
  - rewrite E. f_equal. destruct Hs as (Hsl & _ & _). by rewrite !take_ge in HE by lia.
Qed.

Definition permuted_op (sigma : list nat) (op op' : OperandInfo) : Prop :=
  op' = if bool_decide (stride_bytes op = []) then op else set_stride_bytes (gather (stride_bytes op) sigma) op.

Lemma permute_dimensions_Ok sigma it :
  is_perm (ndim it) sigma → Forall (stride_width (ndim it)) (operands_ it) →
  ∃ it', permute_dimensions sigma it = Ok it' ∧
    it' = set_operands (operands_ it') (set_shape (gather (shape_ it) sigma) it) ∧
    Forall2 (permuted_op sigma) (operands_ it) (operands_ it').
Proof.
  intros Hs Hops. unfold permute_dimensions. rewrite bool_decide_eq_true_2 by apply Hs.
  change (AT_ASSERT (M:=outcome) true) with (Ok tt). rewrite Ok_bind, (reorder_Ok (ndim it)), Ok_bind by done.
  unfold map_operands. cbn [operands_ set_shape].
  match goal with |- context [mapM ?g (operands_ it)] => destruct (mapM_exists (permuted_op sigma) g (operands_ it)) as (ops & -> & HF) end.
  - intros op Hop. pose proof (Forall_elem _ _ _ Hops Hop) as Hw. unfold permuted_op. case_bool_decide as Hne.
    + assert (Hs0 : stride_bytes op ≠ []) by (intros E; rewrite E in Hne; cbn in Hne; lia).
      rewrite bool_decide_eq_false_2 by done. destruct Hw as [Hw|Hw]; [done|].
      rewrite (reorder_Ok (ndim it)) by done. eauto.
    + rewrite bool_decide_eq_true_2 by (apply nil_length_inv; lia). eauto.
  - eexists. split; [done|]. split; [done|]. done.
Qed.

(** Permuted, the operands are at the same addresses at every index. *)
Lemma at_index_permuted n sigma ops ops' idx :
  is_perm n sigma → Forall2 (permuted_op sigma) ops ops' → Forall (stride_width n) ops → length idx = n →
  at_index ops' idx = at_index ops (perm_source sigma idx).
Proof.
  intros Hs HF Hw Hl. unfold at_index. induction HF as [|op op' ops ops' -> _ IH]; [done|].
  apply Forall_cons_iff in Hw as [Hw Hws]. rewrite !fmap_cons, (IH Hws). f_equal. case_bool_decide as He.
  - by rewrite He, !offset_nil_l.
  - destruct Hw as [?|Hw]; [done|]. cbn. by rewrite <- (offset_permute n) by done.
Qed.

Lemma elements_permuted sigma it it' :
  is_perm (ndim it) sigma → positive_dims (shape_ it) → Forall (stride_width (ndim it)) (operands_ it) →
  shape_ it' = gather (shape_ it) sigma → Forall2 (permuted_op sigma) (operands_ it) (operands_ it') →
  elements it' 0 (prodl (shape_ it')) ≡ₚ elements it 0 (prodl (shape_ it)).
Proof.
  intros Hs Hp Hw Hsh HF. rewrite !elements_indices, Hsh.
  rewrite <- (indices_permute (ndim it) sigma Hs (shape_ it)), <- list_fmap_compose by done. apply Permutation_refl'.
  apply list_fmap_ext. intros i idx Hi%list_elem_of_lookup_2. apply elem_of_indices in Hi; [|by apply (positive_gather (ndim it) sigma)].
  apply (in_range_gather (ndim it) sigma Hs) in Hi as [Hl _]; [|done]. by eapply at_index_permuted.
Qed.
