(* ===== verification/IterBuild.v ===== *)
(** * Building an iterator

    Each step of [build] keeps, for every operand, that the pointer of the element at an
    index of the broadcast shape is the address of the tensor's element there.

    For inputs of one type that broadcast together, and outputs that are left to be
    allocated, no step throws or fails an assertion. *)
From S2P Require Import Prelude CoreTypes ScalarTypes Options Geometry Strides ViewsSpec TensorIterator IterLoop IterDims.
Local Open Scope Z_scope.
Import TensorIterator.
#[local] Set Warnings "-clear-no-such-hyp".

(** ** Tensors and what their functions promise *)
Definition esize (t : Tensor) : Z := match ScalarType.elementSize (scalar_type t) with Ok e => e | Throw _ => 0 end.
Record tensor_ok (t : Tensor) : Prop := {
  tk_es : ScalarType.elementSize (scalar_type t) = Ok (esize t);
  tk_st : Forall2 (λ s st, 0 ≤ st ∧ s * (st * esize t) < 2 ^ 63) (sizes t) (strides t)
}.
(** The address of the element that index [idx] of a larger shape reads. *)
Definition element_address (t : Tensor) (idx : list Z) : Z :=
  tensor_data t + esize t * offset_at (strides t) (source_index (sizes t) idx).

Class TensorOpsLaws `{TensorOps} : Prop := {
  resize_sizes t sh t' : resize_ t sh = Ok t' → tensor_ok t → sizes t' = sh ∧ tensor_ok t';
  empty_strided_made sz st o t : empty_strided sz st o = Ok t →
    sizes t = sz ∧ strides t = st ∧ ScalarType.typeMetaToScalarType (TensorOptions.dtype_ o) = Ok (scalar_type t);
  to_scalar t o t' : to t o = Ok t' → sizes t = [] → tensor_ok t → sizes t' = [] ∧ tensor_ok t'
}.

Lemma elementSize_range s e : ScalarType.elementSize s = Ok e → 1 ≤ e ≤ 16.
Proof. destruct s; cbn; intros [= <-]; lia. Qed.
Lemma esize_range t : tensor_ok t → 1 ≤ esize t ≤ 16.
Proof. intros [H _]. by eapply elementSize_range. Qed.

(** A shape that a tensor can be made of. *)
Definition fits (shape : list Z) : Prop := positive_dims shape ∧ prodl shape * 16 < 2 ^ 63.
Lemma fits_valid shape : fits shape → valid_shape shape.
Proof. intros [H1 H2]. split; [done|]. pose proof (prodl_pos shape H1). lia. Qed.

Lemma positive_dimr shape : positive_dims shape ↔ ∀ k, 0 < dimr shape k.
Proof.
  split.
  - intros H k. destruct (decide (k < length shape)%nat); [|rewrite dimr_ge by lia; lia].
    pose proof (dimr_lookup shape k ltac:(done)) as E. by eapply Forall_lookup_1 in E.
  - intros H. apply Forall_lookup_2. intros i s E. pose proof (dimr_of_lookup _ _ _ E) as <-. apply H.
Qed.
Lemma expands_positive ts shape : expands ts shape → positive_dims shape → positive_dims ts.
Proof. rewrite !positive_dimr. intros [_ H] Hp k. destruct (H k) as [-> | ->]; [done|lia]. Qed.

(** ** [compute_stride] *)
Definition stride_of (t : Tensor) (k : nat) : Z :=
  if decide (k < length (sizes t))%nat then if dimr (sizes t) k =? 1 then 0 else dimr (strides t) k * esize t else 0.

Lemma tensor_dim t k : tensor_ok t → (k < length (sizes t))%nat →
  0 ≤ dimr (strides t) k ∧ dimr (sizes t) k * (dimr (strides t) k * esize t) < 2 ^ 63.
Proof.
  intros [_ H] Hk. pose proof (Forall2_length H) as Hl. pose proof (dimr_lookup (sizes t) k Hk) as E1.
  pose proof (dimr_lookup (strides t) k ltac:(lia)) as E2. rewrite <- Hl in E2.
  exact (Forall2_lookup_lr _ _ _ _ _ _ H E1 E2).
Qed.

Lemma compute_stride_dims t shape :
  tensor_ok t → positive_dims (sizes t) → (length (sizes t) ≤ length shape)%nat →
  ∃ st, compute_stride t shape = Ok st ∧ length st = length shape ∧ ∀ k, (k < length shape)%nat → dimr st k = stride_of t k.
Proof.
  intros Hok Hp Hle. pose proof (Forall2_length (tk_st t Hok)) as Hl. unfold compute_stride. rewrite (tk_es t Hok), Ok_bind.
  set (n := length shape) in *. set (m := length (sizes t)) in *.
  destruct (for_up_inv (λ i st, length st = n ∧ ∀ k, (k < n)%nat → dimr st k = if decide (m - i ≤ k)%nat then stride_of t k else 0)
    m (compute_stride_step (sizes t) (strides t) (esize t) (vec_size shape - vec_size (sizes t))) (replicate n 0)) as (st & E & Hst & Hk).
  - split; [apply length_replicate|]. intros k Hk. rewrite dimr_replicate by done. case_decide; [|done].
    unfold stride_of. by rewrite decide_False by (fold m; lia).
  - intros i st Hi [Hst Hk]. unfold compute_stride_step, vec_size. fold n m.
    replace (Z.of_nat n - Z.of_nat m + Z.of_nat i) with (Z.of_nat (n - m + i)) by lia.
    pose proof (dimr_lookup (sizes t) (m - 1 - i) ltac:(lia)) as E1. pose proof (dimr_lookup (strides t) (m - 1 - i) ltac:(lia)) as E2.
    rewrite <- Hl in E2. fold m in E1, E2. replace (m - 1 - (m - 1 - i))%nat with i in E1, E2 by lia.
    rewrite (vec_get_nat _ _ _ E1), (vec_get_nat _ _ _ E2), !Ok_bind.
    pose proof (proj1 (positive_dimr _) Hp (m - 1 - i)%nat) as Hs. destruct (tensor_dim t (m - 1 - i) Hok) as [H0 H1]; [lia|].
    pose proof (esize_range t Hok).
    assert (Hv : ∃ x, (if dimr (sizes t) (m - 1 - i) =? 1 then vec_set st (Z.of_nat (n - m + i)) 0
        else vec_set st (Z.of_nat (n - m + i)) (mul64 (dimr (strides t) (m - 1 - i)) (esize t))) = Ok (<[(n - m + i)%nat := x]> st) ∧
        x = stride_of t (m - 1 - i)).
    { unfold stride_of. rewrite decide_True by (fold m; lia). rewrite !vec_set_nat by lia.
      destruct (_ =? 1); [eauto|]. rewrite mul64_exact by (apply in_S64_iff; nia). eauto. }
    destruct Hv as (x & -> & ->). eexists. split; [done|]. rewrite length_insert. split; [done|]. intros k Hkn.
    rewrite dimr_insert by lia. rewrite Hst. destruct (decide (k = n - 1 - (n - m + i))%nat) as [->|Hne].
    + rewrite decide_True by lia. f_equal. lia.
    + rewrite Hk by done. destruct (decide (m - i ≤ k)%nat), (decide (m - S i ≤ k)%nat); try done; lia.
  - exists st. split; [done|]. split; [done|]. intros k Hkn. rewrite Hk by done. by rewrite decide_True by lia.
Qed.

(** The strides of an operand, for the shape [S] permuted by [sigma]. *)
Record op_at (S : list Z) (sigma : list nat) (t : Tensor) (st : list Z) : Prop := {
  oa_ok : tensor_ok t;
  oa_expands : expands (sizes t) S;
  oa_valid : valid_strides (gather S sigma) st;
  oa_offset : ∀ idx, in_range (gather S sigma) idx →
    offset_at st idx = esize t * offset_at (strides t) (source_index (sizes t) (perm_source sigma idx))
}.

Lemma sumf_scale c f n : sumf (λ k, c * f k) n = c * sumf f n.
Proof. induction n; cbn; lia. Qed.

Lemma compute_stride_Ok t S :
  tensor_ok t → expands (sizes t) S → positive_dims S →
  ∃ st, compute_stride t S = Ok st ∧ length st = length S ∧ valid_strides S st ∧
    ∀ idx, length idx = length S → offset_at st idx = esize t * offset_at (strides t) (source_index (sizes t) idx).
Proof.
  intros Hok He Hp. pose proof (expands_positive _ _ He Hp) as Hpt. pose proof (Forall2_length (tk_st t Hok)) as Hl.
  pose proof (esize_range t Hok) as Hes.
  destruct (compute_stride_dims t S Hok Hpt) as (st & E & Hst & Hk); [apply He|]. exists st. split; [done|]. split; [done|]. split.
  - apply Forall2_same_length_lookup_2; [done|]. intros i s x Hs Hx. pose proof (dimr_of_lookup _ _ _ Hs) as Es.
    pose proof (dimr_of_lookup _ _ _ Hx) as Ex. pose proof (lookup_lt_Some _ _ _ Hs). rewrite Hst in Ex. rewrite Hk in Ex by lia.
    subst s x. unfold stride_of. case_decide; [|lia]. destruct (Z.eqb_spec (dimr (sizes t) (length S - 1 - i)) 1) as [E1|E1]; [lia|].
    destruct (tensor_dim t (length S - 1 - i) Hok ltac:(done)) as [Hd0 Hd1]. destruct He as [_ He].
    destruct (He (length S - 1 - i)%nat) as [<-|]; [|done]. split; [nia|lia].
  - intros idx Hidx. rewrite !offset_sumf by (rewrite ?length_source_index; destruct He; lia).
    rewrite <- Hl, <- sumf_scale, Hst. rewrite (sumf_zeros _ (length (sizes t)) (length S)).
    + apply sumf_ext. intros k Hkt. pose proof (proj1 He). rewrite Hk, dimr_source_index by lia. unfold stride_of. rewrite decide_True by done.
      destruct (_ =? 1); lia.
    + apply He.
    + intros k Hkt. rewrite Hk by lia. unfold stride_of. by rewrite decide_False by lia.
Qed.

(** ** What a builder hands to [build] *)
Record fresh (it : Iterator) : Prop := {
  fr_shape : shape_ it = [];
  fr_ops : Forall (λ op, stride_bytes op = [] ∧ is_output op = false ∧ ∀ t, tensor op = Some t → tensor_ok t) (operands_ it);
  fr_outputs : (num_outputs_ it ≤ length (operands_ it))%nat;
  fr_inputs : Forall (λ op, is_Some (tensor op)) (drop (num_outputs_ it) (operands_ it));
  fr_coalesced : has_coalesced_dimensions_ it = false
}.
(** An operand takes part in broadcasting but for the outputs that are to be resized. *)
Definition participates (resize_outputs : bool) (op : OperandInfo) : bool :=
  negb (resize_outputs && is_output op && negb (is_read_write op)).
(** The shape [build] iterates over is the least that all participating tensors expand to. *)
Definition broadcast_shape (resize_outputs : bool) (ops : list OperandInfo) (S : list Z) : Prop :=
  (∀ op t, op ∈ ops → participates resize_outputs op = true → tensor op = Some t → expands (sizes t) S) ∧
  (∀ c, (∀ op t, op ∈ ops → participates resize_outputs op = true → tensor op = Some t → expands (sizes t) c) → expands S c).

Lemma expands_nil c : expands [] c.
Proof. split; [cbn; lia|]. intros k. right. by apply dimr_ge, Nat.le_0_l. Qed.

Lemma broadcast_operand_Ok r op sh sh' :
  broadcast_operand r op sh = Ok sh' →
  expands sh sh' ∧ (∀ t, participates r op = true → tensor op = Some t → expands (sizes t) sh') ∧
  (∀ c, expands sh c → (∀ t, participates r op = true → tensor op = Some t → expands (sizes t) c) → expands sh' c).
Proof.
  unfold broadcast_operand, participates. destruct (tensor op) as [t|]; [|intros [= <-]; split; [apply expands_refl|naive_solver]].
  destruct (_ && _ && _) eqn:Hp; [intros [= <-]; split; [apply expands_refl|naive_solver]|].
  case_bool_decide as He; [intros [= <-]; subst sh; split; [apply expands_nil|split; [intros ? _ [= <-]; apply expands_refl|naive_solver]]|].
  case_bool_decide as Hs; [intros [= <-]; split; [apply expands_refl|split; [intros ? _ [= <-]; rewrite Hs; apply expands_refl|done]]|].
  intros E. apply infer_size2_lub in E as (H1 & H2 & H3). split; [done|]. split; [by intros ? _ [= <-]|].
  intros c Hc Ht. apply H3; [done|by apply Ht].
Qed.

Lemma broadcast_loop r ops : ∀ sh S, for_in ops (broadcast_operand r) sh = Ok S →
  expands sh S ∧ (∀ op t, op ∈ ops → participates r op = true → tensor op = Some t → expands (sizes t) S) ∧
  (∀ c, expands sh c → (∀ op t, op ∈ ops → participates r op = true → tensor op = Some t → expands (sizes t) c) → expands S c).
Proof.
  induction ops as [|op ops IH]; intros sh S; cbn.
  - intros [= <-]. split; [apply expands_refl|]. split; [intros op t Hop; by apply elem_of_nil in Hop|done].
  - intros E. apply outcome_bind_Ok in E as (sh1 & E1 & E2). apply broadcast_operand_Ok in E1 as (H1 & H2 & H3).
    apply IH in E2 as (I1 & I2 & I3). split; [by eapply expands_trans|]. split.
    + intros op' t [-> | Hop]%elem_of_cons Hp Ht; [eapply expands_trans; [by apply (H2 t)|done]|by eapply I2].
    + intros c Hc Hall. apply I3; [apply H3; [done|intros; eapply Hall; [by left|done..]]|].
      intros op' t' Hop'. apply Hall. by right.
Qed.

(** The operands once the shape is known. *)
Definition shaped (S : list Z) (op : OperandInfo) : Prop :=
  stride_bytes op = [] ∧ ∀ t, tensor op = Some t → tensor_ok t ∧ expands (sizes t) S.
Definition inputs_defined (it : Iterator) : Prop := Forall (λ op, is_Some (tensor op)) (drop (num_outputs_ it) (operands_ it)).

(** ** What a step may do to the operands *)
Lemma map_operands_Ok f it it' :
  map_operands f it = Ok it' ↔ ∃ ops, Forall2 (λ x y, f x = Ok y) (operands_ it) ops ∧ it' = set_operands ops it.
Proof.
  unfold map_operands. rewrite outcome_bind_Ok. split.
  - intros (ops & E & [= <-]). exists ops. split; [by apply mapM_Ok|done].
  - intros (ops & E & ->). exists ops. split; [by apply mapM_Ok|done].
Qed.
(** [R] relates each operand to what the step makes of it. *)
Record kept (R : OperandInfo → OperandInfo → Prop) (it it' : Iterator) : Prop := {
  kp_outputs : num_outputs_ it' = num_outputs_ it;
  kp_coalesced : has_coalesced_dimensions_ it' = has_coalesced_dimensions_ it;
  kp_common : compute_common_dtype_ it' = compute_common_dtype_ it;
  kp_ops : Forall2 R (operands_ it) (operands_ it')
}.
Definition same_tensor (op op' : OperandInfo) : Prop := is_output op' = is_output op ∧ tensor op' = tensor op.
Definition resized `{TensorOps} (S : list Z) (op op' : OperandInfo) : Prop :=
  is_output op' = is_output op ∧
  (tensor op' = tensor op ∨ is_output op = true ∧ ∃ t t', tensor op = Some t ∧ resize_ t S = Ok t' ∧ tensor op' = Some t').
Definition converted `{TensorOps} (op op' : OperandInfo) : Prop :=
  is_output op' = is_output op ∧
  (tensor op' = tensor op ∨
   is_output op = false ∧ ∃ t o t', tensor op = Some t ∧ sizes t = [] ∧ to t o = Ok t' ∧ tensor op' = Some t').
Definition allocated (op op' : OperandInfo) : Prop :=
  is_output op' = is_output op ∧ (tensor op' = tensor op ∨ tensor op = None ∧ is_Some (tensor op')).

Lemma kept_inputs R it it' :
  kept R it it' → (∀ op op', R op op' → is_Some (tensor op) → is_Some (tensor op')) → inputs_defined it → inputs_defined it'.
Proof.
  unfold inputs_defined. intros [-> _ _ HF] HR Hi. eapply Forall2_carry; [by apply Forall2_drop|exact Hi|]. auto.
Qed.
(** All but strides and data. *)
Definition same_operand (op op' : OperandInfo) : Prop := same_tensor op op' ∧ dtype op' = dtype op ∧ backend op' = backend op.
Lemma same_defined op op' : same_operand op op' → is_Some (tensor op) → is_Some (tensor op').
Proof. by intros [[_ ->] _]. Qed.
Lemma converted_defined `{TensorOps} op op' : converted op op' → is_Some (tensor op) → is_Some (tensor op').
Proof. intros [_ [-> | (_ & t & o & t' & _ & _ & _ & ->)]]; done. Qed.
Section Shape.
Context `{TensorOpsLaws}.

Lemma check_output_Ok r red S op op' :
  check_output r red S op = Ok op' → stride_bytes op = [] → (∀ t, tensor op = Some t → tensor_ok t) →
  (∀ t, participates r op = true → tensor op = Some t → expands (sizes t) S) → is_output op = true → shaped S op' ∧ resized S op op'.
Proof.
  unfold check_output, participates, shaped, resized. intros E Hst Hok Hex Hout. destruct (tensor op) as [t|] eqn:Et; [|injection E as <-; rewrite Et; split; [by split|auto]].
  specialize (Hok t eq_refl). destruct (bool_decide_reflect (sizes t = S)) as [Hs|Hs]; cbn [negb] in E.
  { injection E as <-. rewrite Et. split; [|auto]. split; [done|]. intros ? [= <-]. rewrite Hs. split; [done|apply expands_refl]. }
  destruct (r && negb (is_read_write op)) eqn:Er.
  - apply outcome_bind_Ok in E as (t' & E & [= <-]). destruct (resize_sizes _ _ _ E) as [<- Hok']; [done|]. split; [|naive_solver]. split; [done|]. cbn.
    intros ? [= <-]. split; [done|apply expands_refl].
  - destruct (negb red); [done|]. injection E as <-. rewrite Et. split; [|auto]. split; [done|]. intros ? [= <-]. split; [done|]. apply Hex; [|done].
    by destruct r, (is_output op), (is_read_write op).
Qed.

Lemma mark_outputs_ops it :
  operands_ (mark_outputs it) = (mark_output (drop (num_outputs_ it) (operands_ it)) <$> take (num_outputs_ it) (operands_ it)) ++
    drop (num_outputs_ it) (operands_ it).
Proof. done. Qed.
Lemma mark_output_same inputs op :
  tensor (mark_output inputs op) = tensor op ∧ stride_bytes (mark_output inputs op) = stride_bytes op ∧
  is_output (mark_output inputs op) = true.
Proof. unfold mark_output. by destruct (tensor op) eqn:E; cbn; rewrite E. Qed.

Lemma take_marked it :
  (num_outputs_ it ≤ length (operands_ it))%nat →
  take (num_outputs_ it) (operands_ (mark_outputs it)) = mark_output (drop (num_outputs_ it) (operands_ it)) <$> take (num_outputs_ it) (operands_ it) ∧
  drop (num_outputs_ it) (operands_ (mark_outputs it)) = drop (num_outputs_ it) (operands_ it).
Proof.
  intros Hn. rewrite mark_outputs_ops. rewrite take_app_length', drop_app_length' by (rewrite length_fmap, length_take; lia). done.
Qed.

Lemma marked_bound it : fresh it → (num_outputs_ (mark_outputs it) ≤ length (operands_ (mark_outputs it)))%nat.
Proof. intros Hf. rewrite mark_outputs_ops, length_app, length_fmap, length_take, length_drop. cbn. pose proof (fr_outputs it Hf). lia. Qed.

Lemma compute_shape_built it it1 :
  fresh it → compute_shape (mark_outputs it) = Ok it1 →
  broadcast_shape (resize_outputs_ it) (operands_ (mark_outputs it)) (shape_ it1) ∧
  Forall (shaped (shape_ it1)) (operands_ it1) ∧ inputs_defined it1 ∧ kept (resized (shape_ it1)) (mark_outputs it) it1.
Proof.
  intros [Hsh Hops Hn Hin _] E. destruct (take_marked it Hn) as [Htk Hdr]. unfold compute_shape in E.
  apply outcome_bind_Ok in E as (S & ES & E). apply outcome_bind_Ok in E as (outs & EO & [= <-]).
  change (num_outputs_ (mark_outputs it)) with (num_outputs_ it) in *. change (shape_ (mark_outputs it)) with (shape_ it) in ES. rewrite Hsh in ES.
  cbn [shape_ operands_ set_shape set_operands num_outputs_ resize_outputs_ has_coalesced_dimensions_].
  pose proof Hdr as Hdr'. unfold mark_outputs in Hdr'. cbn [operands_ set_operands] in Hdr'. rewrite !Hdr'.
  apply mapM_Ok in EO. pose proof (Forall2_length EO) as HlO. rewrite Htk, length_fmap, length_take, Nat.min_l in HlO by lia.
  pose proof (broadcast_loop _ _ _ _ ES) as (_ & B1 & B2).
  assert (HO : Forall2 (λ op op', resized S op op' ∧ shaped S op') (take (num_outputs_ it) (operands_ (mark_outputs it))) outs).
  { apply Forall2_same_length_lookup. split; [exact (Forall2_length EO)|]. intros i op op' Hi Ho.
    pose proof (Forall2_lookup_lr _ _ _ _ _ _ EO Hi Ho) as Hc.
    assert (Hop : op ∈ operands_ (mark_outputs it)) by (apply list_elem_of_lookup_2 in Hi; by eapply elem_of_submseteq, submseteq_take).
    rewrite Htk, list_lookup_fmap in Hi. destruct (take _ _ !! i) as [op0|] eqn:E0; [|done]. cbn in Hi. injection Hi as Hi.
    apply lookup_take_Some in E0 as [E0 _]. eapply Forall_lookup_1 in Hops as (Hst & _ & Hok); [|exact E0].
    destruct (mark_output_same (drop (num_outputs_ it) (operands_ it)) op0) as (M1 & M2 & M3). rewrite Hi in M1, M2, M3.
    apply and_comm. eapply check_output_Ok; [exact Hc|congruence|rewrite M1; done| |done]. intros t Hp Ht. by eapply B1. }
  split_and!.
  - split; [exact B1|]. intros c Hc. apply B2; [apply expands_nil|exact Hc].
  - apply Forall_app. split; [clear -HO; induction HO as [|? ? ? ? [_ ?]]; by constructor|].
    apply Forall_lookup_2. intros i op Ho. assert (Ho' : op ∈ operands_ (mark_outputs it)).
    { rewrite mark_outputs_ops. apply elem_of_app. right. by eapply list_elem_of_lookup_2. }
    rewrite lookup_drop in Ho. eapply Forall_lookup_1 in Hops as (Hst & Hout & Hok); [|exact Ho]. split; [done|].
    intros t Ht. split; [by apply Hok|]. eapply B1; [done| |done]. unfold participates. by rewrite Hout, andb_false_r.
  - unfold inputs_defined. cbn. rewrite drop_app_length' by done. done.
  - split; [done..|]. cbn [operands_ set_shape set_operands].
    rewrite <- (take_drop (num_outputs_ it) (operands_ (mark_outputs it))), Hdr. apply Forall2_app.
    + clear -HO. induction HO as [|? ? ? ? [? _]]; by constructor.
    + apply Forall_Forall2_diag, Forall_lookup_2. intros i op _. split; auto.
Qed.
End Shape.

(** ** The later steps, operand by operand *)
Definition strided (S : list Z) (op : OperandInfo) : Prop :=
  match tensor op with
  | Some t => tensor_ok t ∧ expands (sizes t) S ∧ length (stride_bytes op) = length S ∧ valid_strides S (stride_bytes op) ∧
      ∀ idx, length idx = length S → offset_at (stride_bytes op) idx = esize t * offset_at (strides t) (source_index (sizes t) idx)
  | None => stride_bytes op = []
  end.
Definition permuted (S : list Z) (sigma : list nat) (op : OperandInfo) : Prop :=
  match tensor op with Some t => op_at S sigma t (stride_bytes op) | None => stride_bytes op = [] end.

Lemma compute_strides_built it :
  positive_dims (shape_ it) → Forall (shaped (shape_ it)) (operands_ it) →
  ∃ it', compute_strides it = Ok it' ∧ shape_ it' = shape_ it ∧ Forall (strided (shape_ it)) (operands_ it') ∧ kept same_operand it it'.
Proof.
  intros Hp Hs. unfold compute_strides, map_operands.
  match goal with |- context [mapM ?g (operands_ it)] =>
    destruct (mapM_exists (λ op op', strided (shape_ it) op' ∧ same_operand op op') g (operands_ it)) as (ops & -> & HF) end.
  - intros op Hop. destruct (Forall_elem _ _ _ Hs Hop) as [Hst Ht]. unfold strided. destruct (tensor op) as [t|] eqn:Et.
    + destruct (Ht t eq_refl) as [Hok Hex]. destruct (compute_stride_Ok t (shape_ it) Hok Hex Hp) as (st & -> & Hl & Hv & Ho).
      eexists. split; [done|]. cbn. by rewrite Et.
    + exists op. by rewrite Et.
  - eexists. split; [done|]. split; [done|]. split; [|split; [done..|]]; cbn.
    + clear -HF. induction HF as [|? ? ? ? [? _]]; by constructor.
    + eapply Forall2_impl; [|exact HF]. by intros op op' [_ ?].
Qed.

Lemma strided_width S op : strided S op → stride_width (length S) op.
Proof. unfold strided, stride_width. destruct (tensor op); [right; tauto|by left]. Qed.

Lemma valid_strides_gather S sigma st :
  is_perm (length S) sigma → valid_strides S st → valid_strides (gather S sigma) (gather st sigma).
Proof.
  intros Hs H. pose proof (Forall2_length H) as Hl. apply Forall2_fmap, Forall_Forall2_diag, Forall_lookup_2.
  intros i d Ed. pose proof (perm_lt _ _ Hs _ _ Ed) as Hd. destruct (lookup_lt_is_Some_2 S d Hd) as [s Es].
  destruct (lookup_lt_is_Some_2 st d) as [t Et]; [lia|]. rewrite (list_lookup_total_correct _ _ _ Es), (list_lookup_total_correct _ _ _ Et).
  exact (Forall2_lookup_lr _ _ _ _ _ _ H Es Et).
Qed.

Lemma strided_permuted S sigma op op' :
  is_perm (length S) sigma → strided S op → permuted_op sigma op op' → permuted S sigma op' ∧ same_operand op op'.
Proof.
  intros Hs H ->. unfold strided, permuted in *. destruct (tensor op) as [t|] eqn:Et.
  - destruct H as (Hok & Hex & Hl & Hv & Ho).
    assert (E : stride_bytes (if bool_decide (stride_bytes op = []) then op else set_stride_bytes (gather (stride_bytes op) sigma) op) =
      gather (stride_bytes op) sigma).
    { case_bool_decide as He; [|done]. rewrite He in *. cbn in Hl. rewrite <- Hl in Hs. destruct Hs as (Hz & _). by destruct sigma. }
    rewrite E. assert (Et' : tensor (if bool_decide (stride_bytes op = []) then op else set_stride_bytes (gather (stride_bytes op) sigma) op) = Some t)
      by (by case_bool_decide). rewrite Et'. split; [|unfold same_operand, same_tensor; case_bool_decide; cbn; auto]. split; [done..|by apply valid_strides_gather|].
    intros idx [Hli Hr]%(in_range_gather _ _ Hs); [|done]. rewrite (offset_permute (length S)) by done. rewrite Ho; [done|].
    by rewrite (length_perm_source (length S)).
  - rewrite H. cbn. rewrite Et. unfold same_operand, same_tensor. auto.
Qed.

Lemma reorder_built it :
  Forall (strided (shape_ it)) (operands_ it) →
  ∃ sigma it', reorder_dimensions it = Ok it' ∧ is_perm (ndim it) sigma ∧ perm_ it' = sigma ∧ shape_ it' = gather (shape_ it) sigma ∧
    Forall (permuted (shape_ it) sigma) (operands_ it') ∧ kept same_operand it it'.
Proof.
  intros Hs. assert (Hw : Forall (stride_width (ndim it)) (operands_ it)) by (eapply Forall_impl; [intros op; apply strided_width|exact Hs]).
  destruct (sort_dimensions_perm (ndim it) (operands_ it) Hw) as (sigma & E & Hp). unfold reorder_dimensions. rewrite E, Ok_bind.
  destruct (permute_dimensions_Ok sigma (set_perm sigma it)) as (it' & -> & Hf & HF); [done..|].
  cbn [operands_ set_perm] in HF. exists sigma, it'. split; [done|]. split; [done|]. rewrite Hf. cbn [perm_ shape_ set_operands set_shape set_perm operands_].
  split; [done|]. split; [done|]. split.
  - eapply Forall2_carry; [exact HF|exact Hs|]. intros op op' Ho Hst. by eapply strided_permuted.
  - split; [done..|]. cbn. clear -HF Hp Hs. induction HF as [|op op' ops ops' Ho _ IH]; constructor; apply Forall_cons_iff in Hs as [Hst Hs].
    + exact (proj2 (strided_permuted _ _ _ _ Hp Hst Ho)).
    + by apply IH.
Qed.

(** ** The types *)
Lemma set_common_type_same it b s op :
  same_tensor op (set_common_type it b s op) ∧ stride_bytes (set_common_type it b s op) = stride_bytes op.
Proof.
  unfold set_common_type, same_tensor. destruct (negb (is_type_defined op)); [done|]. destruct (_ && _); [|done].
  destruct (tensor op) eqn:E; [|by cbn]. destruct (_ && _); [by cbn|]. by destruct (_ && _).
Qed.

Lemma source_index_nil idx : source_index [] idx = [].
Proof. done. Qed.
Lemma source_index_self S idx : in_range S idx → source_index S idx = idx.
Proof.
  intros H. pose proof (Forall2_length H) as Hl. unfold source_index. rewrite Hl, Nat.sub_diag, drop_0. clear Hl.
  induction H as [|i s idx S Hi _ IH]; [done|]. cbn. rewrite IH. f_equal. destruct (Z.eqb_spec s 1); lia.
Qed.

Section Types.
Context `{TensorOpsLaws}.

Lemma convert_operand_permuted S sigma op op' :
  convert_operand op = Ok op' → permuted S sigma op → permuted S sigma op' ∧ converted op op'.
Proof.
  unfold convert_operand, permuted, converted. destruct (tensor op) as [t|] eqn:Et; [|intros [= <-]; rewrite Et; auto].
  destruct (negb _); [|intros [= <-]; rewrite Et; auto]. destruct (is_output op) eqn:Eo; [done|].
  destruct (dim t =? 0) eqn:Ed; [|done]. intros E Ho. apply outcome_bind_Ok in E as (o & _ & E). apply outcome_bind_Ok in E as (t' & Eto & [= <-]).
  unfold dim, vec_size in Ed. assert (Hsz : sizes t = []) by (apply nil_length_inv; lia). cbn. split; [|naive_solver].
  destruct Ho as [Hok Hex Hv Hof]. destruct (to_scalar _ _ _ Eto Hsz Hok) as [Hsz' Hok'].
  split; [done|rewrite Hsz'; apply expands_nil|done|]. intros idx Hi. rewrite (Hof idx Hi), Hsz, Hsz', !source_index_nil, !offset_nil_r. lia.
Qed.

(** The loop that gives the operands the common type changes neither tensors nor strides. *)
Lemma typed_operands it it1 :
  (if existsb missing_dtype (operands_ it) || compute_common_dtype_ it
   then '(b, s) ← compute_common_type it; Ok (set_operands (set_common_type it b s <$> operands_ it) it) else Ok it) = Ok it1 →
  shape_ it1 = shape_ it ∧ perm_ it1 = perm_ it ∧ num_outputs_ it1 = num_outputs_ it ∧
  has_coalesced_dimensions_ it1 = has_coalesced_dimensions_ it ∧ compute_common_dtype_ it1 = compute_common_dtype_ it ∧
  Forall2 (λ op op', same_tensor op op' ∧ stride_bytes op' = stride_bytes op) (operands_ it) (operands_ it1).
Proof.
  intros E1. destruct (_ || _).
  - apply outcome_bind_Ok in E1 as ([b s] & _ & [= <-]). do 5 (split; [done|]). cbn. apply Forall2_fmap_r, Forall_Forall2_diag.
    apply Forall_lookup_2. intros i op _. apply set_common_type_same.
  - injection E1 as <-. do 5 (split; [done|]). apply Forall_Forall2_diag, Forall_lookup_2. done.
Qed.

Lemma compute_types_built S sigma it it' :
  compute_types it = Ok it' → Forall (permuted S sigma) (operands_ it) →
  shape_ it' = shape_ it ∧ perm_ it' = perm_ it ∧ Forall (permuted S sigma) (operands_ it') ∧ kept converted it it'.
Proof.
  intros E Hp. unfold compute_types in E. apply outcome_bind_Ok in E as (it1 & E1 & E).
  apply typed_operands in E1 as (<- & <- & Hn & Hc & Hcc & HF). apply map_operands_Ok in E as (ops & HE & ->). cbn.
  assert (Hp1 : Forall (permuted S sigma) (operands_ it1)).
  { eapply Forall2_carry; [exact HF|exact Hp|]. intros op op' [[_ E1'] E2']. unfold permuted. by rewrite E1', E2'. }
  assert (HC : Forall2 (λ op op', permuted S sigma op' ∧ converted op op') (operands_ it1) ops).
  { apply Forall2_same_length_lookup. split; [exact (Forall2_length HE)|]. intros i op op' Hi Hi'.
    eapply convert_operand_permuted; [exact (Forall2_lookup_lr _ _ _ _ _ _ HE Hi Hi')|]. by eapply Forall_lookup_1 in Hp1. }
  split; [done|]. split; [done|]. split; [clear -HC; induction HC as [|? ? ? ? [? _]]; by constructor|].
  split; [done..|]. cbn. eapply Forall2_trans'; [exact HF|exact HC|]. intros op op1 op' [[Ho Ht] _] [_ Hcv].
  unfold converted in *. by rewrite Ho, Ht in Hcv.
Qed.
End Types.

(** ** The allocation *)
Fixpoint dense_strides (shape : list Z) (p : Z) : list Z :=
  match shape with [] => [] | s :: shape => p :: dense_strides shape (p * s) end.

Lemma length_dense shape p : length (dense_strides shape p) = length shape.
Proof. revert p. induction shape; intros p; cbn; [done|]. by f_equal. Qed.
Lemma dense_scale shape c p : dense_strides shape (c * p) = Z.mul c <$> dense_strides shape p.
Proof. revert p. induction shape as [|s shape IH]; intros p; cbn; [done|]. f_equal. by rewrite <- Z.mul_assoc, IH. Qed.
Lemma dense_valid shape p : positive_dims shape → 0 < p → p * prodl shape < 2 ^ 63 → valid_strides shape (dense_strides shape p).
Proof.
  intros H. revert p. induction H as [|s shape Hs H IH]; intros p Hp Hb; cbn; constructor; rewrite ?prodl_cons in Hb;
    pose proof (prodl_pos shape H); [nia|]. apply IH; nia.
Qed.

Lemma compatible_stride_dense shape e :
  positive_dims shape → 0 < e → e * prodl shape < 2 ^ 63 → compatible_stride shape e = dense_strides shape e.
Proof.
  intros H. unfold compatible_stride.
  cut (∀ acc p, 0 < p → p * prodl shape < 2 ^ 63 →
    (fold_left (λ st size, (st.1 ++ [st.2], mul64 st.2 size)) shape (acc, p)).1 = acc ++ dense_strides shape p).
  { intros Hc Hp Hb. by rewrite Hc. }
  induction H as [|s shape Hs H IH]; intros acc p Hp Hb; cbn; [by rewrite app_nil_r|]. rewrite prodl_cons in Hb.
  pose proof (prodl_pos shape H). rewrite mul64_exact by (apply in_S64_iff; nia). rewrite IH by nia. by rewrite <- app_assoc.
Qed.

Lemma invert_perm_Ok it v :
  is_perm (ndim it) (perm_ it) → has_coalesced_dimensions_ it = false → length v = ndim it →
  invert_perm it v = Ok (perm_source (perm_ it) v).
Proof.
  intros Hs Hc Hl. unfold invert_perm. rewrite Hc. change (AT_ASSERT (M:=outcome) (negb false)) with (Ok tt). rewrite Ok_bind, Hl.
  match goal with |- for_up _ ?g _ = _ => destruct (for_up_inv (λ i res, length res = ndim it ∧
    ∀ j p, (j < i)%nat → perm_ it !! j = Some p → res !!! p = v !!! j) (ndim it) g (replicate (ndim it) 0)) as (res & E & Hr & Hj) end.
  - split; [apply length_replicate|]. intros; lia.
  - intros i res Hi [Hr Hj]. destruct (lookup_lt_is_Some_2 v i) as [x Ex]; [lia|]. rewrite (vec_get_nat _ _ _ Ex), Ok_bind.
    destruct (lookup_lt_is_Some_2 (perm_ it) i) as [p Ep]; [by rewrite (proj1 Hs)|]. rewrite Ep.
    pose proof (perm_lt _ _ Hs _ _ Ep). rewrite vec_set_nat by lia. eexists. split; [done|]. rewrite length_insert. split; [done|].
    intros j q Hji Eq. destruct (decide (j = i)) as [->|Hne].
    + rewrite Eq in Ep. injection Ep as ->. rewrite list_lookup_total_insert_eq by lia. by rewrite (list_lookup_total_correct _ _ _ Ex).
    + rewrite list_lookup_total_insert_ne; [apply Hj; [lia|done]|]. intros <-. apply Hne. destruct Hs as (_ & Hnd & _). by eapply NoDup_lookup.
  - rewrite E. f_equal. apply (list_eq_total (ndim it)); [done|by apply length_perm_source|]. intros d Hd.
    destruct (perm_at _ _ Hs d Hd) as [i Ei]. rewrite (perm_source_lookup _ _ _ i d Hs Ei). apply Hj; [|done].
    apply lookup_lt_Some in Ei. by rewrite (proj1 Hs) in Ei.
Qed.

Lemma offset_scale c st idx : offset_at (Z.mul c <$> st) idx = c * offset_at st idx.
Proof.
  revert idx. induction st as [|t st IH]; intros [|i idx]; try (rewrite ?offset_nil_r, ?offset_nil_l; cbn; lia).
  cbn [fmap list_fmap]. rewrite !offset_cons', IH. lia.
Qed.
Lemma gather_fmap n f v sigma : is_perm n sigma → length v = n → gather (f <$> v) sigma = f <$> gather v sigma.
Proof.
  intros Hs Hl. unfold gather. rewrite <- list_fmap_compose. apply list_fmap_ext. intros i d Ed. cbn.
  pose proof (perm_lt _ _ Hs _ _ Ed). destruct (lookup_lt_is_Some_2 v d) as [x Ex]; [lia|].
  by rewrite !list_lookup_total_alt, list_lookup_fmap, Ex.
Qed.
Lemma options_dtype op o : options op = Ok o → ScalarType.typeMetaToScalarType (TensorOptions.dtype_ o) = Ok (dtype op).
Proof.
  unfold options. intros E. apply outcome_bind_Ok in E as (d & _ & E). unfold TensorOptions.set_dtype_scalar in E.
  destruct (ScalarType.scalarTypeToTypeMeta (dtype op)) as [m|e] eqn:Em; [|by cbn in E; unfold noexcept in E; destruct e]. cbn in E; injection E as <-. cbn.
  by apply ScalarType.typeMeta_roundtrip.
Qed.

Section Allocate.
Context `{TensorOpsLaws}.

(** A dense tensor with its dimensions ordered by [sigma]. *)
Lemma dense_op_at S sigma t :
  fits S → is_perm (length S) sigma → sizes t = S → ScalarType.elementSize (scalar_type t) = Ok (esize t) →
  strides t = (λ s, Z.quot s (esize t)) <$> perm_source sigma (dense_strides (gather S sigma) (esize t)) →
  op_at S sigma t (dense_strides (gather S sigma) (esize t)).
Proof.
  intros [HS Hb] Hs Hsz Hes Hst. set (v := dense_strides (gather S sigma) (esize t)) in *.
  pose proof (elementSize_range _ _ Hes) as He. pose proof (prodl_pos S HS).
  assert (HG : positive_dims (gather S sigma)) by by apply (positive_gather (length S)).
  assert (HP : prodl (gather S sigma) = prodl S) by by apply (prodl_gather (length S)).
  set (w := dense_strides (gather S sigma) 1).
  assert (Hv : v = Z.mul (esize t) <$> w) by (unfold v, w; by rewrite <- dense_scale, Z.mul_1_r).
  assert (Hlv : length v = length S) by (unfold v; by rewrite length_dense, (length_gather (length S))).
  assert (Hlw : length w = length S) by (by rewrite Hv, length_fmap in Hlv).
  assert (Hvv : valid_strides (gather S sigma) v) by (apply dense_valid; [done|lia|rewrite HP; nia]).
  assert (Hg : gather (strides t) sigma = w).
  { rewrite Hst, (gather_fmap (length S)), (gather_perm_source (length S)) by (done || by apply length_perm_source). rewrite Hv, <- list_fmap_compose.
    rewrite <- (list_fmap_id w) at 2. apply list_fmap_ext. intros i x _. cbn. rewrite Z.mul_comm. apply Z.quot_mul. lia. }
  assert (Hls : length (strides t) = length S) by (by rewrite Hst, length_fmap, (length_perm_source (length S))).
  assert (Hok : tensor_ok t).
  { split; [done|]. rewrite Hsz. apply Forall2_same_length_lookup_2; [done|]. intros d s x Es Ex.
    destruct (perm_at _ _ Hs d (lookup_lt_Some _ _ _ Es)) as [i Ei].
    assert (Eg : gather S sigma !! i = Some s) by (unfold gather; by rewrite list_lookup_fmap, Ei; cbn; rewrite (list_lookup_total_correct _ _ _ Es)).
    assert (Ew : w !! i = Some x) by (rewrite <- Hg; unfold gather; by rewrite list_lookup_fmap, Ei; cbn; rewrite (list_lookup_total_correct _ _ _ Ex)).
    assert (Ev : v !! i = Some (esize t * x)) by (by rewrite Hv, list_lookup_fmap, Ew).
    destruct (Forall2_lookup_lr _ _ _ _ _ _ Hvv Eg Ev) as [Hw0 Hw1]. split; [nia|]. by rewrite (Z.mul_comm x). }
  split; [done|rewrite Hsz; apply expands_refl|done|]. intros idx Hi. rewrite Hv, offset_scale. f_equal.
  rewrite <- Hg. apply (in_range_gather _ _ Hs) in Hi as [Hli Hr]; [|done]. rewrite (offset_permute (length S)) by done.
  by rewrite Hsz, source_index_self.
Qed.

Lemma allocate_output_permuted S it op op' :
  fits S → shape_ it = gather S (perm_ it) → is_perm (length S) (perm_ it) → has_coalesced_dimensions_ it = false →
  allocate_output it op = Ok op' → permuted S (perm_ it) op → permuted S (perm_ it) op' ∧ is_Some (tensor op') ∧ allocated op op'.
Proof.
  intros HS Hsh Hs Hc. unfold allocate_output, allocated. destruct (tensor op) as [t|] eqn:Et; [intros [= <-]; rewrite Et; auto|].
  assert (Hn : ndim it = length S) by (unfold ndim; by rewrite Hsh, (length_gather (length S))).
  destruct (is_type_defined op); [|done]. intros E _. apply outcome_bind_Ok in E as ([] & _ & E). apply outcome_bind_Ok in E as (es & Ees & E).
  pose proof (elementSize_range _ _ Ees) as Hes. pose proof HS as [HSp HSb]. pose proof (prodl_pos S HSp).
  rewrite compatible_stride_dense in E; rewrite ?Hsh; [|by apply (positive_gather (length S))|lia|rewrite (prodl_gather (length S)) by done; nia].
  rewrite Hsh, !invert_perm_Ok, !Ok_bind in E; rewrite ?Hn; rewrite ?length_dense, ?(length_gather (length S)); try done.
  rewrite (perm_source_gather (length S)) in E by done. apply outcome_bind_Ok in E as (o & Eo & E). apply outcome_bind_Ok in E as (t & Em & [= <-]).
  destruct (empty_strided_made _ _ _ _ Em) as (Hsz & Hst & Hty). rewrite (options_dtype _ _ Eo) in Hty. injection Hty as Hty.
  assert (Hees : esize t = es) by (unfold esize; by rewrite <- Hty, Ees). split; [|cbn; eauto]. unfold permuted. cbn. rewrite <- Hees. 
  apply dense_op_at; try done; [rewrite <- Hty, Hees; done|by rewrite Hees].
Qed.

Lemma allocate_built S it it' :
  fits S → shape_ it = gather S (perm_ it) → is_perm (length S) (perm_ it) → has_coalesced_dimensions_ it = false →
  (num_outputs_ it ≤ length (operands_ it))%nat → allocate_outputs it = Ok it' → Forall (permuted S (perm_ it)) (operands_ it) → inputs_defined it →
  shape_ it' = shape_ it ∧ perm_ it' = perm_ it ∧ Forall (permuted S (perm_ it)) (operands_ it') ∧ Forall (λ op, is_Some (tensor op)) (operands_ it') ∧
  kept allocated it it'.
Proof.
  intros HS Hsh Hs Hc Hn E Hp Hi. unfold allocate_outputs in E. apply outcome_bind_Ok in E as (outs & E & [= <-]). cbn. apply mapM_Ok in E.
  split; [done|]. split; [done|]. rewrite <- (take_drop (num_outputs_ it) (operands_ it)) in Hp. apply Forall_app in Hp as [Hp1 Hp2].
  assert (HO : Forall2 (λ op op', (permuted S (perm_ it) op' ∧ is_Some (tensor op')) ∧ allocated op op') (take (num_outputs_ it) (operands_ it)) outs).
  { apply Forall2_same_length_lookup. split; [exact (Forall2_length E)|]. intros i op op' Hi1 Hi2.
    pose proof (Forall2_lookup_lr _ _ _ _ _ _ E Hi1 Hi2) as Ha. eapply Forall_lookup_1 in Hp1; [|exact Hi1].
    by destruct (allocate_output_permuted S it op op' HS Hsh Hs Hc Ha Hp1) as (A1 & A2 & A3). }
  split; [|split].
  - apply Forall_app. split; [|done]. clear -HO. induction HO as [|? ? ? ? [[? _] _]]; by constructor.
  - apply Forall_app. split; [|done]. clear -HO. induction HO as [|? ? ? ? [[_ ?] _]]; by constructor.
  - split; [done..|]. cbn. rewrite <- (take_drop (num_outputs_ it) (operands_ it)) at 1. apply Forall2_app.
    + clear -HO. induction HO as [|? ? ? ? [_ ?]]; by constructor.
    + apply Forall_Forall2_diag, Forall_lookup_2. intros i op _. split; auto.
Qed.

(** ** All steps *)
Definition broadcast_at (it : Iterator) (idx : list Z) : list Z :=
  (λ op, match tensor op with Some t => element_address t idx | None => 0 end) <$> operands_ it.

Lemma set_data_pointers_built it it' :
  set_data_pointers it = Ok it' →
  it' = set_operands (operands_ it') it ∧
  Forall2 (λ op op', ∃ t, tensor op = Some t ∧ op' = set_data (tensor_data t) op) (operands_ it) (operands_ it').
Proof.
  intros E. apply map_operands_Ok in E as (ops & HF & ->). split; [done|]. cbn. eapply Forall2_impl; [|exact HF]. intros op op' Ho. cbn in Ho.
  destruct (tensor op) as [t|]; [|done]. injection Ho as <-. eauto.
Qed.

(** What becomes of an operand: its tensor is the one it had, but for an output that is
    resized to the broadcast shape, a missing output, and an input without dimensions. *)
Definition derived (S : list Z) (op op' : OperandInfo) : Prop :=
  is_output op' = is_output op ∧ ∃ t', tensor op' = Some t' ∧ tensor_ok t' ∧ expands (sizes t') S ∧
  match tensor op with
  | None => True
  | Some t => t' = t ∨ (is_output op = true ∧ resize_ t S = Ok t') ∨ (is_output op = false ∧ sizes t = [] ∧ ∃ o, to t o = Ok t')
  end.

(** The strides of the permuted shape, element by element. *)
Record placed_at (S : list Z) (sigma : list nat) (it : Iterator) : Prop := {
  pa_shape : shape_ it = gather S sigma;
  pa_perm : is_perm (length S) sigma;
  pa_ops : Forall (permuted S sigma) (operands_ it);
  pa_defined : Forall (λ op, is_Some (tensor op)) (operands_ it)
}.

Lemma placed_valid S sigma it : fits S → placed_at S sigma it → valid it.
Proof.
  intros HS [Hsh Hs Hp Hd]. pose proof (fits_valid S HS) as [HSp HSl]. split.
  - rewrite Hsh. split; [by apply (positive_gather (length S))|by rewrite (prodl_gather (length S))].
  - rewrite Hsh. apply Forall_lookup_2. intros i op Hi. eapply Forall_lookup_1 in Hp; [|exact Hi]. eapply Forall_lookup_1 in Hd as [t Et]; [|exact Hi].
    unfold permuted in Hp. rewrite Et in Hp. apply Hp.
Qed.

(** Coalesced and with its data pointers, the iterator is at the addresses of its tensors. *)
Lemma pointed_addresses S sigma it it1 it' l :
  fits S → placed_at S sigma it → coalesced it it1 → set_data_pointers it1 = Ok it' →
  shape_ it' = shape_ it1 ∧ valid it' ∧ Forall2 same_tensor (operands_ it) (operands_ it') ∧
  addresses it' l = broadcast_at it' (perm_source sigma (decode (gather S sigma) l)).
Proof.
  intros HS [Hsh Hs Hp Hd] Hc E. apply set_data_pointers_built in E as [Hfr HF]. destruct Hc as [[Hv1 Hv2] _ _ Hco _ _].
  assert (Hsh' : shape_ it' = shape_ it1) by (by rewrite Hfr). split; [done|].
  assert (HFF : Forall2 (λ op op', same_tensor op op' ∧
     address (shape_ it') l op' = match tensor op' with Some t => element_address t (perm_source sigma (decode (gather S sigma) l)) | None => 0 end)
     (operands_ it) (operands_ it')).
  { eapply Forall2_trans'; [|exact HF|].
    - apply Forall2_same_length_lookup_2 with (P := λ op op1, permuted S sigma op ∧ op1 = set_stride_bytes (stride_bytes op1) op ∧
        ∀ l, offset_at (stride_bytes op1) (decode (shape_ it1) l) = offset_at (stride_bytes op) (decode (shape_ it) l)); [exact (Forall2_length Hco)|].
      intros i op op1 H1 H2. pose proof (Forall2_lookup_lr _ _ _ _ _ _ Hco H1 H2) as Hx. split; [by eapply Forall_lookup_1 in Hp|exact Hx].
    - intros op op1 op' (Hpo & Hop1 & Hof) (t & Et & ->). assert (Ht : tensor op1 = tensor op) by (by rewrite Hop1).
      assert (Ho : is_output op1 = is_output op) by (by rewrite Hop1). split; [done|]. unfold address. cbn [data stride_bytes set_data tensor]. rewrite Et, Hsh', Hof, Hsh.
      unfold permuted in Hpo. rewrite <- Ht, Et in Hpo. unfold element_address. f_equal. apply Hpo. apply decode_in_range.
      apply (positive_gather (length S)); [done..|]. apply HS. }
  split.
  - split; [by rewrite Hsh'|]. rewrite Hsh'. eapply Forall2_carry; [exact HF|exact Hv2|]. intros op op' (t & _ & ->). done.
  - split; [eapply Forall2_impl; [|exact HFF]; naive_solver|]. unfold addresses, broadcast_at. clear -HFF.
    induction HFF as [|? ? ? ? [_ E] _ IH]; [done|]. cbn. by rewrite E, IH.
Qed.

Lemma kept_bound R it it' : kept R it it' → (num_outputs_ it ≤ length (operands_ it))%nat → (num_outputs_ it' ≤ length (operands_ it'))%nat.
Proof. intros [-> _ _ HF]. by rewrite (Forall2_length HF). Qed.
Lemma same_converted op op1 op2 : same_operand op op1 → converted op1 op2 → converted op op2.
Proof. intros [[Ho Ht] _] Hc. unfold converted in *. by rewrite Ho, Ht in Hc. Qed.

(** From the shape to the allocated outputs. *)
Lemma prepare_Ok it it' :
  fits (shape_ it) → Forall (shaped (shape_ it)) (operands_ it) → inputs_defined it →
  (num_outputs_ it ≤ length (operands_ it))%nat → has_coalesced_dimensions_ it = false →
  (it1 ← compute_strides it; it2 ← reorder_dimensions it1; it3 ← compute_types it2; allocate_outputs it3) = Ok it' →
  ∃ sigma, placed_at (shape_ it) sigma it' ∧
    Forall2 (λ op op', ∃ op3, converted op op3 ∧ allocated op3 op') (operands_ it) (operands_ it').
Proof.
  intros HS Hs Hi Hn Hc E.
  destruct (compute_strides_built it (proj1 HS) Hs) as (it1 & E1 & Sh1 & Hs1 & K1). rewrite E1, Ok_bind in E. rewrite <- Sh1 in Hs1.
  destruct (reorder_built it1 Hs1) as (sigma & it2 & E2 & Hp & Pe2 & Sh2 & Hs2 & K2). rewrite E2, Ok_bind in E.
  unfold ndim in Hp. rewrite Sh1 in *. apply outcome_bind_Ok in E as (it3 & E3 & E4).
  destruct (compute_types_built _ sigma it2 it3 E3 Hs2) as (Sh3 & Pe3 & Hs3 & K3).
  assert (Hi3 : inputs_defined it3).
  { eapply kept_inputs; [exact K3|apply converted_defined|]. eapply kept_inputs; [exact K2|apply same_defined|].
    eapply kept_inputs; [exact K1|apply same_defined|done]. }
  assert (Hn3 := kept_bound _ _ _ K3 (kept_bound _ _ _ K2 (kept_bound _ _ _ K1 Hn))).
  assert (Hc3 : has_coalesced_dimensions_ it3 = false) by (by rewrite (kp_coalesced _ _ _ K3), (kp_coalesced _ _ _ K2), (kp_coalesced _ _ _ K1)).
  rewrite <- Pe2, <- Pe3 in Hs3, Hp, Sh2.
  destruct (allocate_built _ it3 it' HS) as (Sh4 & _ & Hs4 & Hd4 & K4); try done; [by rewrite Sh3|].
  exists (perm_ it3). split; [split; [by rewrite Sh4, Sh3|done..]|].
  set (prepared := λ op op', ∃ op3, converted op op3 ∧ allocated op3 op').
  assert (Hsame : ∀ op op1 op', same_operand op op1 → prepared op1 op' → prepared op op')
    by (intros op op1 op' R1 (op3 & R3 & R4); exists op3; split; [by eapply same_converted|exact R4]).
  eapply Forall2_trans' with (R2 := prepared); [exact (kp_ops _ _ _ K1)| |exact Hsame].
  eapply Forall2_trans' with (R2 := prepared); [exact (kp_ops _ _ _ K2)| |exact Hsame].
  eapply Forall2_trans'; [exact (kp_ops _ _ _ K3)|exact (kp_ops _ _ _ K4)|]. unfold prepared. eauto.
Qed.

Lemma compose_derived S sigma op op1 op2 op3 op' :
  resized S op op1 → converted op1 op2 → allocated op2 op3 → same_tensor op3 op' →
  permuted S sigma op3 → is_Some (tensor op3) → derived S op op'.
Proof.
  intros [O1 R] [O2 Cv] [O3 Al] [O4 E4] Hp [t' E']. split; [congruence|]. unfold permuted in Hp. rewrite E' in Hp.
  exists t'. split; [congruence|]. split; [apply Hp|]. split; [apply Hp|].
  destruct (tensor op) as [t|] eqn:Et; [|done]. destruct Al as [Al|[Al _]].
  - destruct Cv as [Cv|(Ho & u & o & u' & Eu & Hz & Eto & Eu')].
    + destruct R as [R|(Ho & u & u' & Eu & Er & Eu')]; [left; congruence|right; left]. split; [done|]. simplify_eq. congruence.
    + destruct R as [R|(Ho' & _)]; [|congruence]. right. right. split; [congruence|]. assert (u = t) as -> by congruence. split; [done|].
      exists o. congruence.
  - destruct Cv as [Cv|(_ & u & o & u' & _ & _ & _ & Eu')]; [|congruence]. destruct R as [R|(Ho & u & u' & _ & _ & Eu')]; congruence.
Qed.

Lemma build_Ok it it' :
  fresh it → build it = Ok it' →
  ∃ S, broadcast_shape (resize_outputs_ it) (operands_ (mark_outputs it)) S ∧
    (fits S → valid it' ∧ prodl (shape_ it') = prodl S ∧ Forall2 (derived S) (operands_ (mark_outputs it)) (operands_ it') ∧
     elements it' 0 (prodl S) ≡ₚ broadcast_at it' <$> indices S).
Proof.
  intros Hf E. unfold build in E. apply outcome_bind_Ok in E as (it1 & E1 & E).
  destruct (compute_shape_built it it1 Hf E1) as (HB & Hs1 & Hi1 & K1). exists (shape_ it1). split; [done|]. intros HS.
  assert (Hn1 : (num_outputs_ it1 ≤ length (operands_ it1))%nat).
  { eapply kept_bound; [exact K1|exact (marked_bound it Hf)]. }
  assert (Hc1 : has_coalesced_dimensions_ it1 = false) by (rewrite (kp_coalesced _ _ _ K1); exact (fr_coalesced it Hf)).
  assert (∃ it5, (it1 ← compute_strides it1; it2 ← reorder_dimensions it1; it3 ← compute_types it2; allocate_outputs it3) = Ok it5 ∧
    (it6 ← coalesce_dimensions it5; set_data_pointers it6) = Ok it') as (it5 & E5 & E').
  { apply outcome_bind_Ok in E as (it2 & -> & E). apply outcome_bind_Ok in E as (it3 & E3 & E). apply outcome_bind_Ok in E as (it4 & E4 & E).
    apply outcome_bind_Ok in E as (it5 & E5 & E). exists it5. rewrite Ok_bind, E3, Ok_bind, E4, Ok_bind. done. }
  destruct (prepare_Ok it1 it5 HS Hs1 Hi1 Hn1 Hc1 E5) as (sigma & HP & HF). pose proof HP as [Sh5 Hs5 Hp5 Hd5].
  destruct (coalesce_Ok it5 (placed_valid _ _ _ HS HP)) as (it6 & E6 & Hco). rewrite E6, Ok_bind in E'.
  destruct (pointed_addresses _ sigma it5 it6 it' 0 HS HP Hco E') as (Sh7 & Hv7 & HF7 & _). split; [done|]. split; [|split].
  - by rewrite Sh7, (co_prodl _ _ Hco), Sh5, (prodl_gather (length (shape_ it1))).
  - eapply Forall2_trans'; [exact (kp_ops _ _ _ K1)| |].
    + eapply Forall2_trans' with (R := λ op1 op', ∃ op2 op3, converted op1 op2 ∧ allocated op2 op3 ∧ same_tensor op3 op' ∧
        permuted (shape_ it1) sigma op3 ∧ is_Some (tensor op3)); [exact HF| |].
      * apply Forall2_same_length_lookup_2 with (P := λ op3 op', same_tensor op3 op' ∧ permuted (shape_ it1) sigma op3 ∧ is_Some (tensor op3));
          [exact (Forall2_length HF7)|]. intros i op3 op' H3 H'.
        split; [exact (Forall2_lookup_lr _ _ _ _ _ _ HF7 H3 H')|]. split; [by eapply Forall_lookup_1 in Hp5|by eapply Forall_lookup_1 in Hd5].
      * intros op1 op3 op' (op2 & R2 & R3) (R4 & R5 & R6). eauto 8.
    + intros op op1 op' R1 (op2 & op3 & R2 & R3 & R4 & R5 & R6). by eapply compose_derived.
  - rewrite <- (indices_permute _ sigma Hs5 (shape_ it1)), <- list_fmap_compose by (done || apply HS). unfold elements, indices.
    rewrite (prodl_gather (length (shape_ it1))), Z.sub_0_r, <- list_fmap_compose by done. apply Permutation_refl'. apply list_fmap_ext. intros i l _.
    by destruct (pointed_addresses _ sigma it5 it6 it' l HS HP Hco E') as (_ & _ & _ & ->).
Qed.
End Allocate.

(** ** When [build] returns *)

Definition is_Ok {A} (m : outcome A) : Prop := ∃ a, m = Ok a.

(** ** The shape *)
Lemma broadcast_operand_returns r c op sh :
  (∀ t, participates r op = true → tensor op = Some t → expands (sizes t) c) → expands sh c →
  ∃ sh', broadcast_operand r op sh = Ok sh' ∧ expands sh' c.
Proof.
  unfold broadcast_operand, participates. intros Ht Hsh. destruct (tensor op) as [t|]; [|eauto].
  destruct (_ && _ && _); [eauto|]. specialize (Ht t eq_refl eq_refl). case_bool_decide; [eauto|]. case_bool_decide; [eauto|]. by apply infer_size2_least.
Qed.
Lemma broadcast_loop_returns r c ops : ∀ sh,
  (∀ op t, op ∈ ops → participates r op = true → tensor op = Some t → expands (sizes t) c) → expands sh c →
  ∃ sh', for_in ops (broadcast_operand r) sh = Ok sh' ∧ expands sh' c.
Proof.
  induction ops as [|op ops IH]; intros sh Ht Hsh; cbn; [eauto|].
  destruct (broadcast_operand_returns r c op sh) as (sh1 & -> & H1); [intros t; apply Ht; by left|done|]. cbn.
  apply IH; [|done]. intros op' t Hop. apply Ht. by right.
Qed.

(** The outputs are missing; [c] bounds the inputs. *)
Record elementwise (c : list Z) (b : Backend.Backend) (s : ScalarType) (it : Iterator) : Prop := {
  el_fresh : fresh it;
  el_outputs : Forall (λ op, tensor op = None ∧ is_type_defined op = false) (take (num_outputs_ it) (operands_ it));
  el_inputs : Forall (λ op, ∃ t, tensor op = Some t ∧ expands (sizes t) c ∧
    scalar_type t = s ∧ tensor_backend t = b ∧ dtype op = s ∧ backend op = b) (drop (num_outputs_ it) (operands_ it));
  el_some : drop (num_outputs_ it) (operands_ it) ≠ []
}.
(** The type of an operand before the common type is found. *)
Definition typed (b : Backend.Backend) (s : ScalarType) (op : OperandInfo) : Prop :=
  match tensor op with
  | Some t => scalar_type t = s ∧ tensor_backend t = b ∧ dtype op = s ∧ backend op = b
  | None => is_type_defined op = false
  end.

Section Returns.
Context `{TensorOpsLaws}.
Context (c : list Z) (b : Backend.Backend) (s : ScalarType).

Lemma compute_shape_returns it :
  elementwise c b s it →
  ∃ it1, compute_shape (mark_outputs it) = Ok it1 ∧ Forall (typed b s) (operands_ it1) ∧ Exists (λ op, is_Some (tensor op)) (operands_ it1).
Proof using.
  intros [Hf Ho Hi Hne]. destruct (take_marked it (fr_outputs it Hf)) as [Htk Hdr]. unfold compute_shape.
  assert (Hm : ∀ op, op ∈ operands_ (mark_outputs it) → match tensor op with Some t => expands (sizes t) c | None => True end).
  { intros op Hop. rewrite mark_outputs_ops in Hop. apply elem_of_app in Hop as [Hop|Hop].
    - apply list_elem_of_fmap in Hop as (op0 & -> & Hop). destruct (Forall_elem _ _ _ Ho Hop) as [Hn _].
      destruct (mark_output_same (drop (num_outputs_ it) (operands_ it)) op0) as (-> & _). by rewrite Hn.
    - destruct (Forall_elem _ _ _ Hi Hop) as (t & -> & Hx & _). done. }
  destruct (broadcast_loop_returns (resize_outputs_ (mark_outputs it)) c (operands_ (mark_outputs it)) (shape_ (mark_outputs it))) as (S & -> & HS).
  { intros op t Hop _ Et. specialize (Hm op Hop). by rewrite Et in Hm. }
  { change (shape_ (mark_outputs it)) with (shape_ it). rewrite (fr_shape it Hf). apply expands_nil. }
  rewrite Ok_bind. change (num_outputs_ (mark_outputs it)) with (num_outputs_ it). rewrite Htk, Hdr.
  set (outs := mark_output _ <$> _). rewrite (mapM_fmap_Ok _ id).
  - rewrite Ok_bind, list_fmap_id. eexists. split; [done|]. cbn [operands_ set_shape set_operands]. split.
    + apply Forall_app. split.
      * unfold outs. apply Forall_fmap. eapply Forall_impl; [|exact Ho]. intros op [Hn Hd]. unfold typed. cbn.
        unfold mark_output. rewrite Hn. cbn. rewrite Hn. exact Hd.
      * eapply Forall_impl; [|exact Hi]. intros op (t & Et & _ & Hx). unfold typed. by rewrite Et.
    + apply Exists_app. right. destruct (drop _ _) as [|op ops]; [done|]. apply Exists_cons_hd. apply Forall_cons_iff in Hi as [(t & -> & _) _]. done.
  - unfold outs. intros op (op0 & -> & Hop)%list_elem_of_fmap. destruct (Forall_elem _ _ _ Ho Hop) as [Hn _]. unfold check_output.
    destruct (mark_output_same (drop (num_outputs_ it) (operands_ it)) op0) as (-> & _). by rewrite Hn.
Qed.

(** ** The types *)
Context (Hs : s ≠ ScalarType.Undefined) (Hb : b ≠ Backend.Undefined) (Hpr : ScalarType.promoteTypes s s = Ok s).

Lemma result_type_step_returns (p : Tensor → bool) op st :
  typed b s op → st = (ScalarType.Undefined, Backend.Undefined) ∨ st = (s, b) →
  result_type_step p op st = Ok (if match tensor op with Some t => p t | None => false end then (s, b) else st).
Proof using Hs Hb Hpr.
  unfold typed, result_type_step. destruct (tensor op) as [t|]; [|done]. intros (-> & -> & _) Hst. destruct (p t); [|done].
  destruct Hst as [-> | ->]; [done|]. rewrite !bool_decide_eq_false_2 by done. by rewrite Hpr.
Qed.

Lemma result_type_returns (p : Tensor → bool) ops st :
  Forall (typed b s) ops → st = (ScalarType.Undefined, Backend.Undefined) ∨ st = (s, b) →
  ∃ st', for_in ops (result_type_step p) st = Ok st' ∧
    (st' = (s, b) ∨ st' = st ∧ Forall (λ op, ∀ t, tensor op = Some t → p t = false) ops).
Proof using Hs Hb Hpr.
  intros Ht. revert st. induction Ht as [|op ops Ho _ IH]; intros st Hst; cbn [for_in]; [exists st; split; [done|right; by split; [|constructor]]|].
  rewrite result_type_step_returns, Ok_bind by done. destruct (match tensor op with Some t => p t | None => false end) eqn:Ep.
  - destruct (IH (s, b)) as (st' & E & [-> | [-> _]]); [by right|..]; eauto.
  - destruct (IH st Hst) as (st' & E & [-> | [-> HF]]); eauto. exists st. split; [done|]. right. split; [done|].
    constructor; [|done]. intros t Et. by rewrite Et in Ep.
Qed.

Lemma compute_common_type_returns it :
  Forall (typed b s) (operands_ it) → Exists (λ op, is_Some (tensor op)) (operands_ it) → compute_common_type it = Ok (b, s).
Proof using Hs Hb Hpr.
  intros Ht Hex. unfold compute_common_type, compute_result_type.
  assert (Hu : (ScalarType.Undefined, Backend.Undefined) = (ScalarType.Undefined, Backend.Undefined) ∨ (ScalarType.Undefined, Backend.Undefined) = (s, b)) by by left.
  assert (Hend : (AT_ASSERT (negb (bool_decide (s = ScalarType.Undefined)));; AT_ASSERT (negb (bool_decide (b = Backend.Undefined)));; Ok (b, s)) = Ok (b, s))
    by (rewrite !bool_decide_eq_false_2 by done; done).
  destruct (result_type_returns (λ t, 0 <? dim t) _ _ Ht Hu) as (r1 & -> & [-> | [-> _]]); rewrite Ok_bind.
  { cbn [fst snd]. rewrite (bool_decide_eq_false_2 (s = _)), Ok_bind by done. cbn [fst snd]. rewrite (bool_decide_eq_false_2 (s = _)), Ok_bind by done. by cbn [fst snd]; rewrite !bool_decide_eq_false_2 by done. }
  cbn [fst]. rewrite (bool_decide_eq_true_2 (ScalarType.Undefined = _)) by done.
  destruct (result_type_returns (λ t, negb (is_wrapped_number t)) _ _ Ht Hu) as (r2 & -> & [-> | [-> _]]); rewrite Ok_bind.
  { cbn [fst snd]. rewrite (bool_decide_eq_false_2 (s = _)), Ok_bind by done. by cbn [fst snd]; rewrite !bool_decide_eq_false_2 by done. }
  cbn [fst]. rewrite (bool_decide_eq_true_2 (ScalarType.Undefined = _)) by done.
  destruct (result_type_returns (λ _, true) _ _ Ht Hu) as (r3 & -> & [-> | [-> HF]]); rewrite Ok_bind; [exact Hend|].
  exfalso. apply list.Exists_exists in Hex as (op & Hop & [t Et]). by specialize (Forall_elem _ _ _ HF Hop t Et).
Qed.

Lemma compute_types_returns it :
  Forall (typed b s) (operands_ it) → Exists (λ op, is_Some (tensor op)) (operands_ it) → compute_common_dtype_ it = true →
  compute_types it = Ok (set_operands (set_type b s <$> operands_ it) it).
Proof using Hs Hb Hpr.
  intros Ht Hex Hc. unfold compute_types. rewrite Hc, orb_true_r, compute_common_type_returns, !Ok_bind by done.
  assert (E : set_common_type it b s <$> operands_ it = set_type b s <$> operands_ it).
  { apply list_fmap_ext. intros i op Hi. eapply Forall_lookup_1 in Ht; [|exact Hi]. unfold typed in Ht. unfold set_common_type.
    destruct (tensor op) as [t|] eqn:Et; [|by rewrite Ht]. destruct Ht as (_ & _ & E1 & E2). unfold is_type_defined, is_type_equal.
    rewrite E1, E2, !bool_decide_eq_false_2, !(bool_decide_eq_true_2 (_ = _)) by done. cbn. rewrite andb_false_r. destruct op; cbn in E1, E2 |- *. unfold set_type; cbn. by rewrite E1, E2. }
  rewrite E. unfold map_operands. cbn [operands_ set_operands]. rewrite (mapM_fmap_Ok _ id), list_fmap_id; [done|].
  intros op (op0 & -> & Hop)%list_elem_of_fmap. pose proof (Forall_elem _ _ _ Ht Hop) as Hty. unfold typed in Hty. unfold convert_operand. cbn.
  destruct (tensor op0) as [t|]; [|done]. destruct Hty as (-> & -> & _). unfold is_type_equal. cbn. by rewrite !bool_decide_eq_true_2.
Qed.
End Returns.

(** ** The outputs, and [build] *)
Section Build.
Context `{TensorOpsLaws}.
Context (c : list Z) (b : Backend.Backend) (s : ScalarType).
Context (Hs : s ≠ ScalarType.Undefined) (Hb : b ≠ Backend.Undefined) (Hpr : ScalarType.promoteTypes s s = Ok s).
Context (Hdev : is_Ok (Backend.backendToDeviceType b)) (Hmeta : is_Ok (ScalarType.scalarTypeToTypeMeta s)).
Context (Hsize : is_Ok (ScalarType.elementSize s)) 
  (Hempty : ∀ sz st o, ScalarType.typeMetaToScalarType (TensorOptions.dtype_ o) = Ok s → is_Ok (empty_strided sz st o)).

Lemma options_returns op : dtype op = s → backend op = b → is_Ok (options op).
Proof using Hdev Hmeta.
  intros E1 E2. unfold options. rewrite E1, E2. destruct Hdev as [d ->]. rewrite Ok_bind. unfold TensorOptions.set_dtype_scalar.
  destruct Hmeta as [m ->]. cbn. by eexists.
Qed.

Lemma allocate_output_returns it op :
  is_perm (ndim it) (perm_ it) → has_coalesced_dimensions_ it = false → fits (shape_ it) →
  (tensor op = None → dtype op = s ∧ backend op = b) → is_Ok (allocate_output it op).
Proof using Hs Hb Hdev Hmeta Hsize Hempty.
  intros Hp Hc [HS HSb] Ht. unfold allocate_output. destruct (tensor op); [by eexists|]. destruct (Ht eq_refl) as [E1 E2].
  unfold is_type_defined. rewrite E1, E2, !bool_decide_eq_false_2 by done. change (AT_ASSERT (M:=outcome) (negb false && negb false)) with (Ok tt). rewrite Ok_bind.
  destruct Hsize as [es Ees]. rewrite Ees, Ok_bind. pose proof (elementSize_range _ _ Ees) as Hes. pose proof (prodl_pos _ HS).
  rewrite compatible_stride_dense by (done || nia). rewrite !invert_perm_Ok, !Ok_bind by (done || by rewrite length_dense).
  destruct (options_returns op E1 E2) as [o Eo]. rewrite Eo, Ok_bind. apply options_dtype in Eo. rewrite E1 in Eo.
  match goal with |- context [empty_strided ?x ?y ?z] => destruct (Hempty x y z Eo) as [t ->] end. by eexists.
Qed.

Lemma fits_gather S sigma : is_perm (length S) sigma → fits S → fits (gather S sigma).
Proof using. intros Hp [H1 H2]. split; [by apply (positive_gather (length S))|by rewrite (prodl_gather (length S))]. Qed.

Lemma typed_same op op' : same_operand op op' → typed b s op → typed b s op'.
Proof using. intros [[Ho Ht] [Hd Hbk]]. unfold typed, is_type_defined. by rewrite Ht, Hd, Hbk. Qed.

(** The typed operands of the shaped iterator make it through the later steps. *)
Lemma prepare_returns it :
  fits (shape_ it) → Forall (shaped (shape_ it)) (operands_ it) → has_coalesced_dimensions_ it = false → compute_common_dtype_ it = true →
  Forall (typed b s) (operands_ it) → Exists (λ op, is_Some (tensor op)) (operands_ it) →
  is_Ok (it1 ← compute_strides it; it2 ← reorder_dimensions it1; it3 ← compute_types it2; allocate_outputs it3).
Proof using Hs Hb Hpr Hdev Hmeta Hsize Hempty.
  intros HS Hsh Hc Hcc Ht Hex.
  destruct (compute_strides_built it (proj1 HS) Hsh) as (it1 & E1 & Sh1 & Hs1 & K1). rewrite E1, Ok_bind. rewrite <- Sh1 in Hs1.
  destruct (reorder_built it1 Hs1) as (sigma & it2 & E2 & Hp & Pe2 & Sh2 & Hs2 & K2). rewrite E2, Ok_bind.
  assert (Ht2 : Forall (typed b s) (operands_ it2)).
  { eapply Forall2_carry; [exact (kp_ops _ _ _ K2)| |apply typed_same]. eapply Forall2_carry; [exact (kp_ops _ _ _ K1)|exact Ht|apply typed_same]. }
  assert (Hex2 : Exists (λ op, is_Some (tensor op)) (operands_ it2)).
  { apply list.Exists_exists in Hex as (op & [i Hi]%list_elem_of_lookup_1 & Hop).
    destruct (Forall2_lookup_l _ _ _ _ _ (kp_ops _ _ _ K1) Hi) as (op1 & H1 & Hs'). destruct (Forall2_lookup_l _ _ _ _ _ (kp_ops _ _ _ K2) H1) as (op2 & H2 & Hs'').
    apply list.Exists_exists. exists op2. split; [by eapply list_elem_of_lookup_2|]. by apply (same_defined _ _ Hs''), (same_defined _ _ Hs'). }
  assert (Hcc2 : compute_common_dtype_ it2 = true) by (by rewrite (kp_common _ _ _ K2), (kp_common _ _ _ K1)).
  rewrite (compute_types_returns b s Hs Hb Hpr it2 Ht2 Hex2 Hcc2), Ok_bind. unfold allocate_outputs. cbn [operands_ set_operands num_outputs_].
  match goal with |- is_Ok (mapM ?g ?l ≫= _) => destruct (mapM_exists (λ _ _, True) g l) as (outs & -> & _) end; [|by eexists].
  intros op Hop. rewrite <- fmap_take in Hop. apply list_elem_of_fmap in Hop as (op0 & -> & _). destruct (allocate_output_returns (set_operands (set_type b s <$> operands_ it2) it2) (set_type b s op0)) as [op' ->];
    [| | | |by eauto].
  - unfold ndim in *. cbn. rewrite Sh2, Pe2. by rewrite (length_gather (length (shape_ it1))).
  - cbn. by rewrite (kp_coalesced _ _ _ K2), (kp_coalesced _ _ _ K1).
  - cbn. rewrite Sh2. apply fits_gather; [exact Hp|]. by rewrite Sh1.
  - done.
Qed.

Lemma set_data_pointers_returns it : Forall (λ op, is_Some (tensor op)) (operands_ it) → is_Ok (set_data_pointers it).
Proof using.
  intros Hd. unfold set_data_pointers, map_operands.
  match goal with |- is_Ok (mapM ?g ?l ≫= _) => destruct (mapM_exists (λ _ _, True) g l) as (ops & -> & _) end; [|by eexists].
  intros op Hop. destruct (Forall_elem _ _ _ Hd Hop) as [t ->]. eauto.
Qed.

Lemma build_returns it :
  elementwise c b s it → compute_common_dtype_ it = true →
  (∀ S, broadcast_shape (resize_outputs_ it) (operands_ (mark_outputs it)) S → fits S) → is_Ok (build it).
Proof using Hs Hb Hpr Hdev Hmeta Hsize Hempty H0.
  intros Hel Hcc Hfits. pose proof (el_fresh _ _ _ _ Hel) as Hf.
  destruct (compute_shape_returns c b s it Hel) as (it1 & E1 & Ht & Hex).
  destruct (compute_shape_built it it1 Hf E1) as (HB & Hs1 & Hi1 & K1). specialize (Hfits _ HB).
  assert (Hn1 : (num_outputs_ it1 ≤ length (operands_ it1))%nat) by (eapply kept_bound; [exact K1|exact (marked_bound it Hf)]).
  assert (Hc1 : has_coalesced_dimensions_ it1 = false) by (rewrite (kp_coalesced _ _ _ K1); exact (fr_coalesced it Hf)).
  assert (Hcc1 : compute_common_dtype_ it1 = true) by (rewrite (kp_common _ _ _ K1); exact Hcc).
  destruct (prepare_returns it1 Hfits Hs1 Hc1 Hcc1 Ht Hex) as [it5 E5].
  destruct (prepare_Ok it1 it5 Hfits Hs1 Hi1 Hn1 Hc1 E5) as (sigma & HP & _).
  destruct (coalesce_Ok it5 (placed_valid _ _ _ Hfits HP)) as (it6 & E6 & Hco).
  destruct (set_data_pointers_returns it6) as [it' E'].
  { eapply Forall2_carry; [exact (co_ops _ _ Hco)|exact (pa_defined _ _ _ HP)|]. by intros op op' [-> _]. }
  exists it'. unfold build. rewrite E1, Ok_bind. apply outcome_bind_Ok in E5 as (it2 & -> & E5). rewrite Ok_bind.
  apply outcome_bind_Ok in E5 as (it3 & -> & E5). rewrite Ok_bind. apply outcome_bind_Ok in E5 as (it4 & -> & E5).
  by rewrite Ok_bind, E5, Ok_bind, E6, Ok_bind.
Qed.
End Build.
