(* ===== verification/IterSplit.v ===== *)
(** * Cutting an iterator into pieces

    [narrow] restricts an iterator to a range of a dimension, [split] cuts it into two that
    together visit its elements, and [with_32bit_indexing] cuts until all offsets of a piece
    fit in 32 bits, which it always achieves for the iterators that [build] makes. *)
From S2P Require Import Prelude CoreTypes ScalarTypes Options Geometry Strides ViewsSpec TensorIterator IterLoop IterDims.
Local Open Scope Z_scope.
Import TensorIterator.
#[local] Set Warnings "-clear-no-such-hyp".

(** ** A range of a dimension *)
Definition shift_index (d : nat) (k : Z) (idx : list Z) : list Z := alter (Z.add k) d idx.

Lemma offset_shift st idx d t k :
  st !! d = Some t → (d < length idx)%nat → offset_at st (shift_index d k idx) = offset_at st idx + t * k.
Proof.
  unfold shift_index. revert st idx. induction d as [|d IH]; intros [|t' st] [|i idx] Ht Hl; cbn in Ht, Hl; try done; try lia.
  - simplify_eq. cbn [alter list_alter]. rewrite !offset_cons'. lia.
  - change (alter (Z.add k) (S d) (i :: idx)) with (i :: alter (Z.add k) d idx). rewrite !offset_cons', IH by (done || lia). lia.
Qed.

Lemma in_range_narrow shape d s m idx :
  shape !! d = Some s → in_range (<[d := m]> shape) idx → ∃ i, idx !! d = Some i ∧ 0 ≤ i < m ∧
    (m ≤ s → in_range shape idx) ∧ (∀ k, 0 ≤ k → k + m ≤ s → in_range shape (shift_index d k idx)).
Proof.
  intros Hs H. assert (Hl := Forall2_length H). rewrite length_insert in Hl. pose proof (lookup_lt_Some _ _ _ Hs).
  destruct (lookup_lt_is_Some_2 idx d) as [i Hi]; [lia|]. exists i. split; [done|].
  assert (Hm := Forall2_lookup_lr _ _ _ _ _ _ H Hi (list_lookup_insert_eq shape d m ltac:(done))). cbn in Hm. split; [done|].
  assert (Ho : ∀ j x y, j ≠ d → idx !! j = Some x → shape !! j = Some y → 0 ≤ x < y).
  { intros j x y Hj Hx Hy. apply (Forall2_lookup_lr _ _ _ _ _ _ H Hx). by rewrite list_lookup_insert_ne. }
  split; intros; apply Forall2_same_length_lookup_2; unfold shift_index; rewrite ?length_alter; try done; intros j x y Hx Hy.
  - destruct (decide (j = d)) as [->|Hj]; [simplify_eq; lia|by eapply Ho].
  - destruct (decide (j = d)) as [->|Hj].
    + rewrite list_lookup_alter_eq, Hi in Hx. cbn in Hx. simplify_eq. lia.
    + rewrite list_lookup_alter_ne in Hx by done. by eapply Ho.
Qed.

(** The indices of a shape are those of its two parts along a dimension. *)
Lemma indices_cut shape d s m :
  positive_dims shape → shape !! d = Some s → 0 < m < s →
  indices shape ≡ₚ indices (<[d := m]> shape) ++ (shift_index d m <$> indices (<[d := s - m]> shape)).
Proof.
  intros Hp Hs Hm. pose proof (lookup_lt_Some _ _ _ Hs) as Hd.
  assert (Hpi : ∀ x, 0 < x → positive_dims (<[d := x]> shape)) by (intros; by apply Forall_insert).
  assert (Hinj : Inj (=) (=) (shift_index d m)).
  { intros x y E. apply list_eq. intros j. assert (Ej := f_equal (.!! j) E). unfold shift_index in Ej. cbn in Ej.
    destruct (decide (j = d)) as [->|Hj]; [|by rewrite !list_lookup_alter_ne in Ej].
    rewrite !list_lookup_alter_eq in Ej. destruct (x !! d), (y !! d); cbn in Ej; [|done..]. f_equal. injection Ej. lia. }
  apply NoDup_Permutation; [by apply NoDup_indices| |].
  - apply list.NoDup_app. split; [apply NoDup_indices, Hpi; lia|]. split; [|apply NoDup_fmap_2; [done|]; apply NoDup_indices, Hpi; lia].
    intros idx H1%elem_of_indices H2; [|apply Hpi; lia]. apply list_elem_of_fmap in H2 as (idx' & -> & H2%elem_of_indices); [|apply Hpi; lia].
    destruct (in_range_narrow _ _ _ _ _ Hs H1) as (i & Ei & Hi & _). destruct (in_range_narrow _ _ _ _ _ Hs H2) as (i' & Ei' & Hi' & _).
    unfold shift_index in Ei. rewrite list_lookup_alter_eq, Ei' in Ei. cbn in Ei. simplify_eq. lia.
  - intros idx. rewrite elem_of_app, list_elem_of_fmap, !elem_of_indices by (done || apply Hpi; lia). split.
    + intros H. pose proof (Forall2_length H) as Hl. destruct (lookup_lt_is_Some_2 idx d) as [i Hi]; [lia|].
      pose proof (Forall2_lookup_lr _ _ _ _ _ _ H Hi Hs) as Hb. cbn in Hb. destruct (decide (i < m)) as [Hlt|Hge].
      * left. apply Forall2_same_length_lookup_2; [by rewrite length_insert|]. intros j x y Hx Hy.
        destruct (decide (j = d)) as [->|Hj]; [rewrite list_lookup_insert_eq in Hy by lia; simplify_eq; lia|].
        rewrite list_lookup_insert_ne in Hy by done. exact (Forall2_lookup_lr _ _ _ _ _ _ H Hx Hy).
      * right. exists (shift_index d (- m) idx). unfold shift_index. split.
        { apply list_eq. intros j. destruct (decide (j = d)) as [->|Hj]; [|by rewrite !list_lookup_alter_ne].
          rewrite !list_lookup_alter_eq, Hi. cbn. f_equal. lia. }
        apply elem_of_indices; [apply Hpi; lia|]. apply Forall2_same_length_lookup_2; [by rewrite length_insert, length_alter|]. intros j x y Hx Hy.
        destruct (decide (j = d)) as [->|Hj].
        { rewrite list_lookup_insert_eq in Hy by lia. rewrite list_lookup_alter_eq, Hi in Hx. cbn in Hx. simplify_eq. lia. }
        rewrite list_lookup_insert_ne in Hy by done. rewrite list_lookup_alter_ne in Hx by done. exact (Forall2_lookup_lr _ _ _ _ _ _ H Hx Hy).
    + intros [H|(idx' & -> & H%elem_of_indices)]; [..|apply Hpi; lia].
      * destruct (in_range_narrow _ _ _ _ _ Hs H) as (_ & _ & _ & Hr & _). apply Hr. lia.
      * destruct (in_range_narrow _ _ _ _ _ Hs H) as (_ & _ & _ & _ & Hr). apply Hr; lia.
Qed.

(** ** The furthest element of an operand *)
Definition last_index (shape : list Z) : list Z := Z.pred <$> shape.
Definition reach (shape st : list Z) : Z := offset_at st (last_index shape).

Lemma last_in_range shape : positive_dims shape → in_range shape (last_index shape).
Proof. intros H. apply Forall2_fmap_l, Forall_Forall2_diag. eapply Forall_impl; [|exact H]. cbn. lia. Qed.
Lemma encode_last shape : positive_dims shape → encode shape (last_index shape) = prodl shape - 1.
Proof.
  intros H. induction H as [|s shape Hs H IH]; [by rewrite prodl_nil|]. cbn [last_index fmap list_fmap encode].
  unfold last_index in IH. rewrite IH, prodl_cons. lia.
Qed.
Lemma decode_last shape : positive_dims shape → decode shape (prodl shape - 1) = last_index shape.
Proof. intros H. rewrite <- encode_last by done. by apply encode_range, last_in_range. Qed.

Lemma reach_nonneg shape st : positive_dims shape → valid_strides shape st → 0 ≤ reach shape st.
Proof.
  intros Hp H. unfold reach, last_index. revert Hp. induction H as [|s t shape st [Ht _] _ IH]; intros Hp; [done|].
  apply positive_dims_cons in Hp as [Hs Hp]. cbn [fmap list_fmap]. rewrite offset_cons'. specialize (IH Hp). nia.
Qed.
(** The part of a dimension, and a smaller dimension, reach less far. *)
Lemma reach_insert shape st d s m t :
  shape !! d = Some s → st !! d = Some t → length st = length shape → reach (<[d := m]> shape) st = reach shape st - (s - m) * t.
Proof.
  intros Hs Ht Hl. unfold reach, last_index. rewrite list_fmap_insert.
  assert (E : Z.pred <$> shape = <[d := Z.pred m + (s - m)]> (Z.pred <$> shape)).
  { rewrite list_insert_id; [done|]. rewrite list_lookup_fmap, Hs. cbn. f_equal. lia. }
  rewrite E at 2. pose proof (lookup_lt_Some _ _ _ Hs).
  assert (E2 : <[d := Z.pred m + (s - m)]> (Z.pred <$> shape) = shift_index d (s - m) (<[d := Z.pred m]> (Z.pred <$> shape))).
  { unfold shift_index. apply list_eq. intros j. destruct (decide (j = d)) as [->|Hj].
    - rewrite list_lookup_alter_eq, !list_lookup_insert_eq by (rewrite length_fmap; lia). cbn. f_equal. lia.
    - by rewrite list_lookup_alter_ne, !list_lookup_insert_ne. }
  rewrite E2, (offset_shift _ _ d t) by (rewrite ?length_insert, ?length_fmap; lia || done). lia.
Qed.
Lemma dim_le_reach shape st d s t :
  positive_dims shape → valid_strides shape st → shape !! d = Some s → st !! d = Some t → 0 ≤ (s - 1) * t ≤ reach shape st.
Proof.
  intros Hp H. revert d Hp. unfold reach, last_index. induction H as [|s' t' shape st [Ht' _] H IH]; intros d Hp Hs Ht; [done|].
  apply positive_dims_cons in Hp as [Hs' Hp]. cbn [fmap list_fmap]. rewrite offset_cons'.
  pose proof (reach_nonneg shape st Hp H) as Hn. unfold reach, last_index in Hn.
  destruct d as [|d]; cbn in Hs, Ht; simplify_eq; [nia|]. specialize (IH d Hp Hs Ht). nia.
Qed.

(** ** Iterators that can be cut *)
Record cuttable (it : Iterator) : Prop := {
  cu_valid : valid it;
  cu_compact : (2 ≤ ndim it)%nat → Forall (λ s, s ≠ 1) (shape_ it);
  cu_reach : Forall (λ op, reach (shape_ it) (stride_bytes op) < 2 ^ 62) (operands_ it);
  cu_operands : operands_ it ≠ []
}.
Definition total (it : Iterator) : Z := prodl (shape_ it).
Definition all_elements (it : Iterator) : list (list Z) := elements it 0 (total it).

Lemma total_pos it : valid it → 0 < total it.
Proof. intros H. apply prodl_pos, H. Qed.

Lemma coalesced_cuttable it it' :
  coalesced it it' → valid it → Forall (λ op, reach (shape_ it) (stride_bytes op) < 2 ^ 62) (operands_ it) → operands_ it ≠ [] → cuttable it'.
Proof.
  intros [Hv Hpr _ Hco _ Hap] Hv0 Hr Hne. split; [done| | |].
  - intros Hn. apply Forall_lookup_2. intros i s Hs. pose proof (lookup_lt_Some _ _ _ Hs) as Hi. unfold ndim in *.
    destruct (decide (S i < length (shape_ it'))%nat) as [Hlt|Hge].
    + destruct (Hap i Hlt) as (s0 & s1 & op & H0 & _ & N0 & _). congruence.
    + destruct i as [|i]; [lia|]. destruct (Hap i) as (s0 & s1 & op & _ & H1 & _ & N1 & _); [done|]. congruence.
  - eapply Forall2_carry; [exact Hco|exact Hr|]. intros op op' [_ Ho]. cbn. unfold reach. intros H.
    rewrite <- decode_last by apply Hv. rewrite Hpr, Ho, decode_last; [done|apply Hv0].
  - intros E. rewrite E in Hco. by inversion Hco.
Qed.

(** ** [narrow] *)
Lemma narrow_op it d s op :
  valid it → shape_ it !! d = Some s → op ∈ operands_ it → stride_bytes op !! d = Some (stride_at d op) ∧ 0 ≤ stride_at d op ∧ s * stride_at d op < 2 ^ 63.
Proof.
  intros [_ Hst] Hs Hop. pose proof (Forall_elem _ _ _ Hst Hop) as H. cbn in H. pose proof (Forall2_length H) as Hl.
  pose proof (lookup_lt_Some _ _ _ Hs). pose proof (stride_at_lookup d op ltac:(lia)) as Et. split; [done|].
  exact (Forall2_lookup_lr _ _ _ _ _ _ H Hs Et).
Qed.

Definition moved (d : nat) (k : Z) (op : OperandInfo) : OperandInfo := set_data (data op + stride_at d op * k) op.
(** The range of a dimension, before coalescing. *)
Definition range_of (d : nat) (k m : Z) (it : Iterator) : Iterator :=
  set_operands (moved d k <$> operands_ it) (set_shape (<[d := m]> (shape_ it)) it).

Lemma range_elements it d s k m :
  valid it → shape_ it !! d = Some s → 0 < m → 0 ≤ k → k + m ≤ s →
  all_elements (range_of d k m it) = (λ idx, at_index (operands_ it) (shift_index d k idx)) <$> indices (<[d := m]> (shape_ it)).
Proof.
  intros Hv Hs Hm Hk Hkm. unfold all_elements. rewrite elements_indices. cbn. apply list_fmap_ext. intros i idx Hi%list_elem_of_lookup_2.
  apply elem_of_indices in Hi; [|apply Forall_insert; [apply Hv|done]].
  unfold at_index. rewrite <- list_fmap_compose. apply list_fmap_ext. intros j op Hop%list_elem_of_lookup_2. cbn.
  destruct (narrow_op it d s op Hv Hs Hop) as (Et & _). change (foldr Z.add 0 (zip_with Z.mul (stride_bytes op) idx)) with (offset_at (stride_bytes op) idx).
  pose proof (lookup_lt_Some _ _ _ Hs). pose proof (Forall2_length Hi) as Hl. rewrite length_insert in Hl.
  rewrite (offset_shift _ _ d (stride_at d op)) by (done || lia). lia.
Qed.

Lemma range_valid it d s k m :
  valid it → shape_ it !! d = Some s → 0 < m ≤ s → valid (range_of d k m it).
Proof.
  intros [[Hp Hl] Hst] Hs Hm. assert (Hpi : positive_dims (<[d := m]> (shape_ it))) by (apply Forall_insert; [done|lia]).
  pose proof (take_drop_middle _ _ _ Hs) as Esh. split; cbn.
  - split; [done|]. pose proof (lookup_lt_Some _ _ _ Hs). rewrite insert_take_drop by lia. rewrite <- Esh in Hl.
    rewrite prodl_app, prodl_cons in *. apply Forall_insert with (i := d) (x := s) in Hp; [|lia].
    rewrite <- Esh in Hp. rewrite list_insert_id in Hp by (by rewrite Esh). apply Forall_app in Hp as [H1 [_ H2]%positive_dims_cons].
    pose proof (prodl_pos _ H1). pose proof (prodl_pos _ H2). nia.
  - apply Forall_fmap. eapply Forall_impl; [|exact Hst]. intros op Ho. cbn in *.
    apply Forall2_same_length_lookup_2; [rewrite length_insert; exact (Forall2_length Ho)|]. intros j x t Hx Ht.
    destruct (decide (j = d)) as [->|Hj].
    + rewrite list_lookup_insert_eq in Hx by (by eapply lookup_lt_Some). simplify_eq.
      destruct (Forall2_lookup_lr _ _ _ _ _ _ Ho Hs Ht). split; [done|]. nia.
    + rewrite list_lookup_insert_ne in Hx by done. exact (Forall2_lookup_lr _ _ _ _ _ _ Ho Hx Ht).
Qed.

Lemma range_total it d s k m : shape_ it !! d = Some s → s * total (range_of d k m it) = m * total it.
Proof.
  intros Hs. unfold total. cbn. pose proof (lookup_lt_Some _ _ _ Hs). rewrite insert_take_drop by lia.
  rewrite <- (take_drop_middle _ _ _ Hs) at 3. rewrite !prodl_app, !prodl_cons. lia.
Qed.

Lemma narrow_Ok it d s k m :
  cuttable it → shape_ it !! d = Some s → 0 < m ≤ s → 0 ≤ k → k + m ≤ s →
  ∃ it', narrow d k m it = Ok it' ∧ cuttable it' ∧ total it' = total (range_of d k m it) ∧ all_elements it' = all_elements (range_of d k m it).
Proof.
  intros [Hv Hc Hr Hne] Hs Hm Hk Hkm. unfold narrow. pose proof (lookup_lt_Some _ _ _ Hs) as Hd.
  rewrite bool_decide_eq_true_2, (proj2 (Z.leb_le 1 m)) by (done || lia). change (AT_ASSERT (M:=outcome) (true && true)) with (Ok tt). rewrite Ok_bind.
  assert (E : map_operands (advance_data d k) (set_shape (<[d := m]> (shape_ it)) it) = Ok (range_of d k m it)).
  { unfold map_operands. cbn [operands_ set_shape]. rewrite (mapM_fmap_Ok _ (moved d k)); [done|]. intros op Hop.
    destruct (narrow_op it d s op Hv Hs Hop) as (Et & H0 & H1). unfold advance_data. rewrite (vec_get_nat _ _ _ Et), Ok_bind.
    rewrite mul64_exact by (apply in_S64_iff; pose proof (size_small _ _ _ (valid_sh it Hv) Hs); nia). done. }
  rewrite E, Ok_bind. pose proof (range_valid it d s k m Hv Hs ltac:(lia)) as Hrv.
  assert (Hrr : Forall (λ op, reach (shape_ (range_of d k m it)) (stride_bytes op) < 2 ^ 62) (operands_ (range_of d k m it))).
  { apply Forall_fmap, Forall_lookup_2. intros i op Hi. pose proof (list_elem_of_lookup_2 _ _ _ Hi) as Hop.
    change (reach (<[d := m]> (shape_ it)) (stride_bytes op) < 2 ^ 62).
    destruct (narrow_op it d s op Hv Hs Hop) as (Et & H0 & H1). eapply Forall_lookup_1 in Hr; [|exact Hi]. cbn in Hr.
    pose proof (Forall_elem _ _ _ (valid_st it Hv) Hop) as Hvs. cbn in Hvs. rewrite (reach_insert _ _ d s m _ Hs Et) by (by rewrite (Forall2_length Hvs)). nia. }
  assert (Hrn : operands_ (range_of d k m it) ≠ []) by (cbn; by destruct (operands_ it)).
  destruct (Z.eqb_spec m 1) as [->|Hm1].
  - destruct (coalesce_Ok _ Hrv) as (it' & E' & Hco). exists it'. split; [done|]. split; [by eapply coalesced_cuttable|].
    split; [apply (co_prodl _ _ Hco)|]. unfold all_elements, total. rewrite (co_prodl _ _ Hco). unfold elements.
    apply list_fmap_ext. intros i l _. apply (co_addresses _ _ Hco).
  - exists (range_of d k m it). split; [done|]. split; [|done]. split; try done. intros Hn. cbn. unfold ndim in Hn. cbn in Hn. rewrite length_insert in Hn.
    apply Forall_insert; [by apply Hc|done].
Qed.

(** ** Offsets in 32 bits *)
Definition max_int32 : Z := 2 ^ 31 - 1.
Definition fits32 (it : Iterator) : Prop :=
  total it ≤ max_int32 ∧ Forall (λ op, reach (shape_ it) (stride_bytes op) + 1 ≤ max_int32) (operands_ it).

Lemma reach_take shape st i : positive_dims shape → valid_strides shape st →
  0 ≤ offset_at (take i st) (take i (last_index shape)) ≤ reach shape st.
Proof.
  intros Hp H. unfold reach, last_index. revert i Hp. induction H as [|s t shape st [Ht _] H IH]; intros i Hp; [by destruct i|].
  apply positive_dims_cons in Hp as [Hs Hp]. pose proof (reach_nonneg shape st Hp H) as Hn. unfold reach, last_index in Hn.
  destruct i as [|i]; cbn [take fmap list_fmap]; rewrite ?offset_cons', ?offset_nil_l; [nia|]. specialize (IH i Hp). unfold last_index in IH. cbn [fmap list_fmap] in IH. nia.
Qed.

Lemma max_offset_Ok shape st :
  valid_shape shape → valid_strides shape st → reach shape st < 2 ^ 62 → max_offset shape st = Ok (reach shape st + 1).
Proof.
  intros Hv Hst Hr. pose proof (Forall2_length Hst) as Hl. unfold max_offset. pose proof (proj1 Hv) as Hp.
  match goal with |- for_up _ ?g _ = _ => destruct (for_up_inv (λ i acc, acc = offset_at (take i st) (take i (last_index shape)) + 1) (length shape) g 1)
    as (acc & E & Ha) end.
  - by rewrite !take_0.
  - intros i acc Hi ->. destruct (lookup_lt_is_Some_2 shape i Hi) as [s Es]. destruct (lookup_lt_is_Some_2 st i) as [t Et]; [lia|].
    rewrite (vec_get_nat _ _ _ Es), (vec_get_nat _ _ _ Et), !Ok_bind. eexists. split; [done|].
    assert (El : last_index shape !! i = Some (s - 1)) by (unfold last_index; by rewrite list_lookup_fmap, Es).
    rewrite (offset_take_S _ _ _ _ _ Et El). pose proof (reach_take shape st i Hp Hst). pose proof (reach_take shape st (S i) Hp Hst) as Hb.
    rewrite (offset_take_S _ _ _ _ _ Et El) in Hb. pose proof (size_small _ _ _ Hv Es). pose proof (dim_le_reach _ _ _ _ _ Hp Hst Es Et).
    rewrite sub64_exact by (apply in_S64_iff; lia). rewrite mul64_exact by (apply in_S64_iff; lia). rewrite add64_exact by (apply in_S64_iff; lia). lia.
  - rewrite E, Ha. unfold reach. rewrite (take_ge st), (take_ge (last_index _)) by (unfold last_index; rewrite ?length_fmap; lia). done.
Qed.

Lemma can_use_32bit_Ok it : cuttable it → ∃ b, can_use_32bit_indexing it = Ok b ∧ (b = true ↔ fits32 it).
Proof.
  intros [Hv _ Hr _]. unfold can_use_32bit_indexing, fits32, numel, total. rewrite numel_prodl by apply Hv. fold max_int32.
  destruct (Z.ltb_spec max_int32 (prodl (shape_ it))); [exists false; split; [done|]; split; [done|lia]|].
  pose proof (valid_st it Hv) as Hst. induction (operands_ it) as [|op ops IH]; cbn [offsets_fit].
  - exists true. split; [done|]. split; [|done]. intros _. split; [done|constructor].
  - apply Forall_cons_iff in Hr as [Hr Hrs]. apply Forall_cons_iff in Hst as [Hst Hsts].
    rewrite max_offset_Ok, Ok_bind by (apply Hv || done). destruct (Z.ltb_spec max_int32 (reach (shape_ it) (stride_bytes op) + 1)).
    + exists false. split; [done|]. split; [done|]. intros [_ Hf]. apply Forall_cons_iff in Hf. lia.
    + destruct (IH Hrs Hsts) as (b & -> & Hb). exists b. split; [done|]. rewrite Hb, Forall_cons_iff. naive_solver.
Qed.

(** ** Where to split *)
Lemma for_in_inv {A S'} (P : S' → Prop) (xs : list A) (body : A → S' → outcome S') s :
  P s → (∀ x s, x ∈ xs → P s → ∃ s', body x s = Ok s' ∧ P s') → ∃ s', for_in xs body s = Ok s' ∧ P s'.
Proof.
  revert s. induction xs as [|x xs IH]; intros s H0 Hs; cbn; [eauto|]. destruct (Hs x s) as (s1 & -> & H1); [by left|done|]. cbn.
  apply IH; [done|]. intros y s' Hy. apply Hs. by right.
Qed.

(** The dimension that has the widest operand so far. *)
Definition chosen (n : nat) (st : Z * Z) : Prop := 0 ≤ st.1 ∧ ∃ d, (d < n)%nat ∧ st.2 = Z.of_nat d.

Lemma widest_Ok it d s op st :
  valid it → shape_ it !! d = Some s → op ∈ operands_ it → st = (-1, -1) ∨ chosen (ndim it) st →
  ∃ st', widest s d op st = Ok st' ∧ chosen (ndim it) st'.
Proof.
  intros Hv Hs Hop Hst. destruct (narrow_op it d s op Hv Hs Hop) as (Et & H0 & H1). pose proof (size_small _ _ _ (valid_sh it Hv) Hs).
  unfold widest. rewrite (vec_get_nat _ _ _ Et), Ok_bind. rewrite sub64_exact by (apply in_S64_iff; lia).
  rewrite mul64_exact by (apply in_S64_iff; nia). eexists. split; [done|].
  assert (0 ≤ (s - 1) * stride_at d op) by nia. destruct (Z.ltb_spec st.1 ((s - 1) * stride_at d op)).
  - split; [done|]. exists d. split; [by eapply lookup_lt_Some|done].
  - destruct Hst as [->|Hst]; [cbn in *; lia|done].
Qed.

Lemma get_dim_to_split_Ok it :
  cuttable it → ¬ fits32 it → ∃ d s, get_dim_to_split it = Ok (Z.of_nat d) ∧ shape_ it !! d = Some s ∧ 2 ≤ s.
Proof.
  intros [Hv Hc Hr Hne] Hf. pose proof (valid_sh it Hv) as [Hp _].
  assert (Hn : shape_ it ≠ [] ∧ Forall (λ s, s ≠ 1) (shape_ it)).
  { destruct (decide (2 ≤ ndim it)%nat) as [H2|H2]; [split; [intros E; unfold ndim in H2; rewrite E in H2; cbn in H2; lia|by apply Hc]|].
    unfold ndim in H2. unfold fits32, total in Hf. pose proof (valid_st it Hv) as Hst.
    destruct (shape_ it) as [|s [|]] eqn:Esh; [| |cbn in H2; lia].
    - exfalso. apply Hf. split; [rewrite prodl_nil; done|]. eapply Forall_impl; [|exact Hst]. intros op Ho. cbn in Ho. inversion Ho. done.
    - split; [done|]. constructor; [|done]. intros ->. apply Hf. split; [rewrite prodl_one; done|]. eapply Forall_impl; [|exact Hst]. intros op Ho. cbn in Ho.
      inversion Ho as [|? t ? st _ Ho']; subst. inversion Ho'; subst. unfold reach, last_index. cbn [fmap list_fmap]. rewrite offset_cons', offset_nil_l. unfold max_int32. lia. }
  destruct Hn as [Hn0 Hn1]. assert (Hnd : (0 < ndim it)%nat) by (unfold ndim; destruct (shape_ it); [done|cbn; lia]).
  assert (Hdim : ∀ d, (d < ndim it)%nat → ∃ s, shape_ it !! d = Some s ∧ 2 ≤ s).
  { intros d Hd. destruct (lookup_lt_is_Some_2 (shape_ it) d Hd) as [s Es]. exists s. split; [done|].
    eapply Forall_lookup_1 in Hp; [|exact Es]. eapply Forall_lookup_1 in Hn1; [|exact Es]. cbn in *. lia. }
  unfold get_dim_to_split. rewrite bool_decide_eq_true_2 by lia. change (AT_ASSERT (M:=outcome) true) with (Ok tt). rewrite Ok_bind.
  destruct (Hdim (ndim it - 1)%nat) as (s & Es & Hs2); [lia|]. replace (Z.of_nat (ndim it) - 1) with (Z.of_nat (ndim it - 1)) by lia.
  rewrite (vec_get_nat _ _ _ Es), Ok_bind, (proj2 (Z.leb_le 2 s)) by done. change (AT_ASSERT (M:=outcome) true) with (Ok tt). rewrite Ok_bind.
  match goal with |- context [for_down _ ?g _] => destruct (for_down_inv (λ i st, (i = ndim it ∧ st = (-1, -1)) ∨ chosen (ndim it) st) (ndim it) g (-1, -1))
    as (st & -> & [[? _]|[H0 (d & Hd & E)]]) end; [by left| |lia|].
  - intros i st Hi Hst. destruct (Hdim i Hi) as (si & Esi & _). rewrite (vec_get_nat _ _ _ Esi), Ok_bind.
    assert (Hst' : st = (-1, -1) ∨ chosen (ndim it) st) by naive_solver.
    assert (Hops : ∀ op, op ∈ operands_ it → ∀ st, st = (-1, -1) ∨ chosen (ndim it) st → ∃ st', widest si i op st = Ok st' ∧ chosen (ndim it) st')
      by (intros; by eapply widest_Ok).
    destruct (operands_ it) as [|op ops]; [done|]. cbn [for_in]. destruct (Hops op ltac:(by left) st Hst') as (st1 & -> & H1). rewrite Ok_bind.
    destruct (for_in_inv (chosen (ndim it)) ops (widest si i) st1 H1) as (st2 & -> & H2); [|eauto].
    intros op' st' Hop' Hc'. apply Hops; [by right|by right].
  - rewrite Ok_bind, (proj2 (Z.leb_le 0 _)) by done. change (AT_ASSERT (M:=outcome) true) with (Ok tt). rewrite Ok_bind.
    destruct (Hdim d Hd) as (sd & Ed & Hd2). exists d, sd. by rewrite E.
Qed.

(** ** [split] *)
Lemma is_dim_reduced_Ok it d s : valid it → shape_ it !! d = Some s → ∃ b, is_dim_reduced it d = Ok b.
Proof.
  intros Hv Hs. unfold is_dim_reduced. rewrite (vec_get_nat _ _ _ Hs), Ok_bind.
  assert (Hops : ∀ op, op ∈ operands_ it → stride_bytes op !! d = Some (stride_at d op)) by (intros op Hop; by destruct (narrow_op it d s op Hv Hs Hop)).
  induction (operands_ it) as [|op ops IH]; [eauto|]. destruct (is_output op).
  - rewrite (vec_get_nat _ _ _ (Hops op ltac:(by left))), Ok_bind. destruct (_ && _); [eauto|]. apply IH. intros op' Hop'. apply Hops. by right.
  - apply IH. intros op' Hop'. apply Hops. by right.
Qed.

Definition same_work (it it' : Iterator) : Prop := shape_ it' = shape_ it ∧ operands_ it' = operands_ it.
Lemma flags_same a f it : same_work it (set_reduce_flags a f it).
Proof. done. Qed.
Lemma same_work_cuttable it it' : same_work it it' → cuttable it → cuttable it'.
Proof.
  intros [Hs Ho] [[Hv1 Hv2] Hc Hr Hne]. unfold ndim in *. by split; [split|..]; unfold ndim; rewrite ?Hs, ?Ho.
Qed.
Lemma same_work_elements it it' : same_work it it' → total it' = total it ∧ all_elements it' = all_elements it.
Proof.
  intros [Hs Ho]. unfold total, all_elements, total. rewrite Hs. split; [done|]. unfold elements, addresses. by rewrite Hs, Ho.
Qed.

Lemma split_Ok it d s :
  cuttable it → shape_ it !! d = Some s → 2 ≤ s →
  ∃ copy this, split d it = Ok (copy, this) ∧ cuttable copy ∧ cuttable this ∧ 0 < total copy ∧ 0 < total this ∧
    total copy + total this = total it ∧ all_elements copy ++ all_elements this ≡ₚ all_elements it.
Proof.
  intros Hcu Hs Hs2. pose proof (cu_valid it Hcu) as Hv. pose proof (size_small _ _ _ (valid_sh it Hv) Hs) as Hsm. unfold split. rewrite Hs, Ok_bind.
  rewrite (proj2 (Z.leb_le 2 s)) by done. change (AT_ASSERT (M:=outcome) true) with (Ok tt). rewrite Ok_bind.
  destruct (is_dim_reduced_Ok it d s Hv Hs) as (b & ->). rewrite Ok_bind, Z.quot_div_nonneg by lia. set (c := s / 2).
  assert (Hc : 0 < c < s) by (unfold c; split; [apply Z.div_str_pos; lia|apply Z.div_lt; lia]). rewrite sub64_exact by (apply in_S64_iff; lia).
  destruct (narrow_Ok it d s 0 c Hcu Hs) as (copy & -> & Hcu1 & Ht1 & He1); [lia..|]. rewrite Ok_bind.
  destruct (narrow_Ok it d s c (s - c) Hcu Hs) as (this & -> & Hcu2 & Ht2 & He2); [lia..|]. rewrite Ok_bind.
  eexists _, _. split; [done|].
  match goal with |- cuttable ?x ∧ cuttable ?y ∧ _ => pose proof (same_work_elements copy x (flags_same _ _ _)) as [E1 E1']; pose proof (same_work_elements this y (flags_same _ _ _)) as [E2 E2'] end.
  rewrite E1, E2, E1', E2', Ht1, Ht2. split; [by eapply same_work_cuttable; [apply flags_same|]|]. split; [by eapply same_work_cuttable; [apply flags_same|]|].
  rewrite <- Ht1 at 1. rewrite <- Ht2 at 1. split; [by apply total_pos, cu_valid|]. split; [by apply total_pos, cu_valid|].
  pose proof (range_total it d s 0 c Hs). pose proof (range_total it d s c (s - c) Hs). split; [nia|].
  rewrite He1, He2, !(range_elements it d s) by (done || lia). unfold all_elements. rewrite elements_indices.
  rewrite (indices_cut (shape_ it) d s c) by (apply Hv || done || lia). rewrite fmap_app, <- !list_fmap_compose. apply Permutation_app; [|done].
  apply Permutation_refl', list_fmap_ext. intros i idx _. cbn. f_equal. unfold shift_index. apply list_alter_id. intros x. lia.
Qed.

(** ** Splitting until all offsets fit *)
Definition total_all (its : list Iterator) : Z := foldr Z.add 0 (total <$> its).
Definition visit_all (its : list Iterator) : list (list Z) := mjoin (all_elements <$> its).

Lemma total_all_nonneg its : Forall cuttable its → 0 ≤ total_all its.
Proof.
  induction 1 as [|it its H _ IH]; [done|]. pose proof (total_pos it (cu_valid it H)). unfold total_all in *. cbn. lia.
Qed.

(** [operator++]: the top of the stack fits when it returns; the fuel bounds its elements. *)
Lemma advance_Ok fuel vec :
  Forall cuttable vec → (match vec with [] => 0 | it :: _ => total it end) ≤ Z.of_nat fuel →
  ∃ vec', advance fuel vec = Ok vec' ∧ Forall cuttable vec' ∧ visit_all vec' ≡ₚ visit_all vec ∧ total_all vec' = total_all vec ∧
    match vec' with [] => vec = [] | it :: _ => fits32 it end.
Proof.
  revert vec. induction fuel as [|fuel IH]; intros [|it rest] Hcu Hf; try (by exists []); apply Forall_cons_iff in Hcu as [Hcu Hrest];
    pose proof (total_pos it (cu_valid it Hcu)) as Hpos; [lia|]. cbn [advance].
  destruct (can_use_32bit_Ok it Hcu) as (b & -> & Hb). rewrite Ok_bind. destruct b.
  - exists (it :: rest). split; [done|]. split; [by constructor|]. split; [done|]. split; [done|]. by apply Hb.
  - assert (Hn : ¬ fits32 it) by (intros Hx%Hb; done). destruct (get_dim_to_split_Ok it Hcu Hn) as (d & s & -> & Hs & Hs2). rewrite Ok_bind, Nat2Z.id.
    destruct (split_Ok it d s Hcu Hs Hs2) as (copy & this & -> & H1 & H2 & H3 & H4 & H5 & H6). rewrite Ok_bind.
    destruct (IH (copy :: this :: rest)) as (vec' & E & Hc' & Hv' & Ht' & Hm); [by do 2 (constructor; [done|])|lia|].
    exists vec'. split; [done|]. split; [done|]. split; [|split].
    + rewrite Hv'. unfold visit_all. cbn. rewrite app_assoc. by rewrite H6.
    + rewrite Ht'. unfold total_all. cbn. lia.
    + by destruct vec'.
Qed.

Lemma with_32bit_loop_Ok fuel vec :
  Forall cuttable vec → total_all vec ≤ Z.of_nat fuel →
  ∃ its, with_32bit_indexing_loop fuel vec = Ok its ∧ Forall cuttable its ∧ Forall fits32 its ∧ visit_all its ≡ₚ visit_all vec.
Proof.
  revert vec. induction fuel as [|fuel IH]; intros vec Hcu Hf; cbn [with_32bit_indexing_loop].
  - destruct vec as [|it vec]; [by exists []|]. apply Forall_cons_iff in Hcu as [Hc Hcu].
    pose proof (total_pos it (cu_valid it Hc)). pose proof (total_all_nonneg vec Hcu). unfold total_all in *. cbn in Hf. lia.
  - destruct (advance_Ok (S fuel) vec Hcu) as (vec' & -> & Hc' & Hv' & Ht' & Hm).
    { destruct vec as [|it vec]; [lia|]. apply Forall_cons_iff in Hcu as [Hc Hcu]. pose proof (total_all_nonneg vec Hcu).
      unfold total_all in *. cbn [fmap list_fmap foldr] in Hf. lia. }
    rewrite Ok_bind. destruct vec' as [|it rest]; [exists []; subst; done|]. apply Forall_cons_iff in Hc' as [Hc Hrest].
    pose proof (total_pos it (cu_valid it Hc)) as Hpos. destruct (IH rest Hrest) as (its & -> & H1 & H2 & H3).
    { unfold total_all in Ht', Hf. cbn in Ht'. unfold total_all. lia. }
    rewrite Ok_bind. exists (it :: its). split; [done|]. split; [by constructor|]. split; [by constructor|]. rewrite <- Hv'. unfold visit_all. cbn. f_equiv. exact H3.
Qed.

Lemma with_32bit_Ok it fuel :
  cuttable it → (Z.to_nat (total it) ≤ fuel)%nat →
  ∃ its, with_32bit_indexing fuel it = Ok its ∧ Forall cuttable its ∧ Forall fits32 its ∧ visit_all its ≡ₚ all_elements it.
Proof.
  intros Hcu Hf. destruct (with_32bit_loop_Ok fuel [it]) as (its & E & H1 & H2 & H3).
  - by constructor.
  - unfold total_all. cbn. lia.
  - exists its. split; [done|]. split; [done|]. split; [done|]. rewrite H3. unfold visit_all. cbn. by rewrite app_nil_r.
Qed.
