(* ===== verification/IterProperties.v ===== *)
(** * Properties of TensorIterator *)
From S2P Require Import Prelude CoreTypes ScalarTypes Options Geometry Strides ViewsSpec TensorIterator IterLoop IterDims IterBuild IterSplit.
Local Open Scope Z_scope.
Import TensorIterator.

(** ** A machine to run on *)
Module Sample.
Definition row_major (sh : list Z) : list Z := reverse (dense_strides (reverse sh) 1).
Definition make (id : positive) (sz st : list Z) (p : Z) (s : ScalarType) : Tensor := mkTensor id sz st p s Backend.CPU false.

Definition resize (t : Tensor) (sh : list Z) : outcome Tensor :=
  if bool_decide (Forall2 (λ s st, 0 ≤ st ∧ s * (st * esize t) < 2 ^ 63) sh (row_major sh))
  then Ok (mkTensor (tensor_id t) sh (row_major sh) (tensor_data t) (scalar_type t) (tensor_backend t) (is_wrapped_number t))
  else Throw (RuntimeError "out of memory").
Definition convert (t : Tensor) (o : TensorOptions.TensorOptions) : outcome Tensor :=
  s ← ScalarType.typeMetaToScalarType (TensorOptions.dtype_ o); _ ← ScalarType.elementSize s;
  Ok (make (tensor_id t + 1) (sizes t) (strides t) (tensor_data t) s).
#[export] Instance ops : TensorOps := {
  empty_strided sz st o := s ← ScalarType.typeMetaToScalarType (TensorOptions.dtype_ o); Ok (make 100 sz st 4096 s);
  resize_ := resize;
  to := convert
}.
#[export] Instance laws : TensorOpsLaws.
Proof.
  split; cbn.
  - intros t sh t' E [He Hst]. unfold resize in E. case_bool_decide as H; [|done]. injection E as <-. split; [done|]. split; cbn; [exact He|exact H].
  - intros sz st o t E. apply outcome_bind_Ok in E as (s & -> & [= <-]). done.
  - intros t o t' E Hsz [He Hst]. unfold convert in E. apply outcome_bind_Ok in E as (s & _ & E). apply outcome_bind_Ok in E as (e & Ee & [= <-]).
    split; [exact Hsz|]. split; cbn; [unfold esize; cbn; by rewrite Ee|]. rewrite Hsz in *. inversion Hst. constructor.
Qed.

(** [a + b] for a matrix, a row, and an output that is yet to be made. *)
Definition matrix : Tensor := make 1 [2; 3] [3; 1] 1000 ScalarType.Float.
Definition row : Tensor := make 2 [3] [1] 2000 ScalarType.Float.
Definition sum : Iterator := add_input row (add_input matrix (add_output None Iterator_new)).

Lemma matrix_ok : tensor_ok matrix.
Proof. split; [done|]. repeat constructor; by vm_compute. Qed.
Lemma row_ok : tensor_ok row.
Proof. split; [done|]. repeat constructor; by vm_compute. Qed.
Lemma sum_fresh : fresh sum.
Proof.
  split; try done; [|by cbn; lia|by repeat constructor].
  assert (H : ∀ o, (∀ t, o = Some t → tensor_ok t) → let op := OperandInfo_make o Backend.Undefined ScalarType.Undefined in
    stride_bytes op = [] ∧ is_output op = false ∧ ∀ t, tensor op = Some t → tensor_ok t) by (intros [t|]; cbn; auto).
  repeat (apply Forall_cons_iff; split; [apply H; intros t [= <-]; (apply matrix_ok || apply row_ok)|]). constructor.
Qed.
Lemma sum_shape S : broadcast_shape (resize_outputs_ sum) (operands_ (mark_outputs sum)) S ↔ S = [2; 3].
Proof.
  assert (H : broadcast_shape (resize_outputs_ sum) (operands_ (mark_outputs sum)) [2; 3]).
  { destruct (broadcast_loop (resize_outputs_ sum) (operands_ (mark_outputs sum)) [] [2; 3]) as (_ & H1 & H2); [by vm_compute|].
    split; [exact H1|]. intros c Hc. apply H2; [apply expands_nil|exact Hc]. }
  split; [|by intros ->]. intros [H1 H2]. destruct H as [H3 H4]. apply expands_antisym; [apply H2, H3|apply H4, H1].
Qed.
Lemma expands_compute a c : is_expandable_to a c = Ok true → expands a c.
Proof. destruct (is_expandable_to_spec a c) as (b & -> & H). intros [= ->]. by apply H. Qed.
Lemma sum_fits : fits [2; 3].
Proof. split; [by repeat constructor|by vm_compute]. Qed.

(** A copy whose two outer dimensions are contiguous. *)
Definition operand (st : list Z) (p : Z) : OperandInfo := mkOperand st None Backend.CPU ScalarType.Float p false false.
Definition iterator (sh : list Z) (ops : list OperandInfo) : Iterator := set_shape sh (set_operands ops Iterator_new).
Lemma valid_compute it :
  bool_decide (Forall (λ s, 0 < s) (shape_ it)) && (prodl (shape_ it) <? 2 ^ 63) &&
  bool_decide (Forall (λ op, Forall2 (λ s t, 0 ≤ t ∧ s * t < 2 ^ 63) (shape_ it) (stride_bytes op)) (operands_ it)) = true → valid it.
Proof.
  intros [[H1%bool_decide_eq_true_1 H2%Z.ltb_lt]%andb_true_iff H3%bool_decide_eq_true_1]%andb_true_iff. by split.
Qed.
Definition block : Iterator := iterator [2; 3; 2] [operand [4; 8; 24] 4096; operand [8; 16; 4] 0].
Lemma block_valid : valid block.
Proof. apply valid_compute. by vm_compute. Qed.
(** 2^32 elements of 4 bytes. *)
Definition huge : Iterator := iterator [65536; 65536] [operand [4; 262144] 0].
Lemma huge_cuttable : cuttable huge.
Proof.
  split; [apply valid_compute; by vm_compute|intros _; by repeat constructor| |done].
  constructor; [by vm_compute|constructor].
Qed.
End Sample.

(** ** Building *)

(** C19: For operands as a builder hands them over, when [build] returns, its iterator is
    at every element of the broadcast shape, the least one all participating operands
    expand to: the threads of [for_each] together call the loop once for each index, with
    the addresses of the tensors' elements that the index reads, broadcast dimensions at 0.
    The tensors are the given ones, but for outputs resized to that shape, missing outputs,
    and converted inputs without dimensions. *)
Theorem for_each_visits_broadcast `{TensorOpsLaws} it it' n in_parallel :
  fresh it → build it = Ok it' → 1 ≤ n < 2 ^ 61 →
  ∃ S, broadcast_shape (resize_outputs_ it) (operands_ (mark_outputs it)) S ∧
    (fits S → Forall2 (derived S) (operands_ (mark_outputs it)) (operands_ it') ∧
     ∃ threads, for_each it' n in_parallel = Ok threads ∧
       mjoin (visited_all (ntensors it') <$> threads) ≡ₚ broadcast_at it' <$> indices S).
Proof.
  intros Hf E Hn. destruct (build_Ok it it' Hf E) as (S & HB & H1). exists S. split; [done|]. intros HS.
  destruct (H1 HS) as (Hv & Hp & Hd & He). split; [done|]. destruct HS as [_ HS].
  destruct (for_each_Ok it' n in_parallel Hv) as (threads & Ht & Hvis); [lia|lia|]. exists threads. split; [done|]. by rewrite Hvis, Hp.
Qed.
Lemma for_each_visits_broadcast_witness :
  ∃ it' threads, build (H:=Sample.ops) Sample.sum = Ok it' ∧ for_each it' 4 false = Ok threads ∧
    mjoin (visited_all (ntensors it') <$> threads) ≡ₚ broadcast_at it' <$> indices [2; 3].
Proof.
  destruct (build (H:=Sample.ops) Sample.sum) as [it'|] eqn:E; [|by vm_compute in E].
  destruct (for_each_visits_broadcast (H0:=Sample.laws) Sample.sum it' 4 false Sample.sum_fresh E ltac:(lia)) as (S & ->%Sample.sum_shape & H).
  destruct (H Sample.sum_fits) as (_ & threads & Ht & Hv). by exists it', threads.
Defined.

(** C20: [build] returns for inputs of one element type and one backend that expand to a
    common shape, with outputs left to be allocated and the common type to be found: none
    of its checks fails, and no operation is undefined.  The element type is one that
    promotes to itself, which the complex types do not; strides are not negative, and
    every dimension of an input spans less than 2^63 bytes; no dimension of the common
    shape is empty, and its elements, at sixteen bytes each, take less than 2^63; and
    allocating a tensor of the element type succeeds. *)
Theorem build_elementwise_returns `{TensorOpsLaws} c b s it :
  elementwise c b s it → compute_common_dtype_ it = true →
  s ≠ ScalarType.Undefined → b ≠ Backend.Undefined → ScalarType.promoteTypes s s = Ok s →
  is_Ok (Backend.backendToDeviceType b) → is_Ok (ScalarType.scalarTypeToTypeMeta s) → is_Ok (ScalarType.elementSize s) →
  (∀ sz st o, ScalarType.typeMetaToScalarType (TensorOptions.dtype_ o) = Ok s → is_Ok (empty_strided sz st o)) →
  (∀ S, broadcast_shape (resize_outputs_ it) (operands_ (mark_outputs it)) S → fits S) → is_Ok (build it).
Proof. intros. by eapply (build_returns c b s). Qed.

Lemma build_elementwise_returns_witness : is_Ok (build (H:=Sample.ops) Sample.sum).
Proof.
  apply (build_elementwise_returns (H0:=Sample.laws) [2; 3] Backend.CPU ScalarType.Float); try done; try (by eexists).
  - split; [apply Sample.sum_fresh|by repeat constructor| |done].
    repeat (constructor; [eexists; split; [done|split; [apply Sample.expands_compute; by vm_compute|done]]|]). constructor.
  - intros sz st o E. cbn. rewrite E. by eexists.
  - intros S ->%Sample.sum_shape. apply Sample.sum_fits.
Defined.

(** ** Coalescing *)

(** C21: [coalesce_dimensions] never fails on a valid iterator, keeps the addresses of all
    operands at every element number, and leaves no two neighbouring dimensions that could
    still be merged. *)
Theorem coalesce_keeps_addresses it :
  valid it → ∃ it', coalesce_dimensions it = Ok it' ∧ valid it' ∧ prodl (shape_ it') = prodl (shape_ it) ∧
    (∀ l, addresses it' l = addresses it l) ∧ ∀ i, (S i < ndim it')%nat → apart i (shape_ it') (operands_ it').
Proof. intros Hv. destruct (coalesce_Ok it Hv) as (it' & E & H). exists it'. split; [done|]. by destruct H. Qed.
Lemma coalesce_keeps_addresses_witness :
  ∃ it', coalesce_dimensions Sample.block = Ok it' ∧ valid it' ∧ shape_ it' = [6; 2] ∧ ∀ l, addresses it' l = addresses Sample.block l.
Proof.
  destruct (coalesce_keeps_addresses Sample.block Sample.block_valid) as (it' & E & Hv & _ & Ha & _). exists it'. split; [done|]. split; [done|].
  split; [|done]. vm_compute in E. injection E as <-. done.
Defined.

(** ** Iterating *)

(** C22: The calls [serial_for_each] makes for a range visit exactly the elements of the
    range, each once and in order, and no call of the counter fails an assertion. *)
Theorem serial_for_each_in_order it b e :
  valid it → 0 ≤ b → b ≤ e ≤ prodl (shape_ it) →
  ∃ calls, serial_for_each it (mkRange b e) = Ok calls ∧ visited_all (ntensors it) calls = elements it b e.
Proof. apply serial_for_each_Ok. Qed.
Lemma serial_for_each_in_order_witness :
  ∃ calls, serial_for_each Sample.block (mkRange 2 11) = Ok calls ∧ visited_all 2 calls = elements Sample.block 2 11 ∧ length calls = 3%nat.
Proof.
  destruct (serial_for_each_in_order Sample.block 2 11 Sample.block_valid) as (calls & E & H); [lia|vm_compute; by split|].
  exists calls. split; [done|]. split; [done|]. vm_compute in E. injection E as <-. done.
Defined.

(** C23: [with_32bit_indexing] ends: it cuts the iterator into pieces that together visit its
    elements, each once, and in every piece the number of elements and the furthest offset
    of every operand fit in 32 bits.  The fuel is the number of elements. *)
Theorem with_32bit_indexing_covers it fuel :
  cuttable it → (Z.to_nat (total it) ≤ fuel)%nat →
  ∃ its, with_32bit_indexing fuel it = Ok its ∧
    Forall (λ p, valid p ∧ can_use_32bit_indexing p = Ok true ∧ fits32 p) its ∧ visit_all its ≡ₚ all_elements it.
Proof.
  intros Hcu Hf. destruct (with_32bit_Ok it fuel Hcu Hf) as (its & E & H1 & H2 & H3). exists its. split; [done|]. split; [|done].
  apply Forall_lookup_2. intros i p Hi. eapply Forall_lookup_1 in H1; [|exact Hi]. eapply Forall_lookup_1 in H2; [|exact Hi].
  destruct (can_use_32bit_Ok p H1) as (b & -> & Hb). split; [apply cu_valid, H1|]. split; [|done]. f_equal. by apply Hb.
Qed.
Lemma with_32bit_indexing_covers_witness :
  ∃ its, with_32bit_indexing (Z.to_nat (total Sample.huge)) Sample.huge = Ok its ∧ visit_all its ≡ₚ all_elements Sample.huge ∧
    can_use_32bit_indexing Sample.huge = Ok false.
Proof.
  destruct (with_32bit_indexing_covers Sample.huge (Z.to_nat (total Sample.huge)) Sample.huge_cuttable) as (its & E & _ & H); [done|].
  exists its. split; [exact E|]. split; [exact H|]. by vm_compute.
Defined.
