(* ===== verification/JitGraph.v ===== *)
(** * The graph of the JIT (torch/csrc/jit/ir.h, ir.cpp)

    Nodes, values, blocks and graphs point at each other, so they are cells of a
    [Store] and their operations work on it: Module [Attributes] models
    attributes.h, Module [IR] the classes Value, Node, Block and Graph.
    A dereference of a null pointer or of an object that is gone is [Undefined].
    Addresses are never reused.  A [use] is a node and an offset, a vector of
    inputs holds null pointers while an input is dropped, and the nodes of a block
    are linked into a ring through its return node.  Offsets and [unique_] count
    objects in memory and are natural numbers; [topo_position_] is an [int64_t]. *)
From S2P Require Import Prelude Text JitTypes.
Local Open Scope string_scope.
Local Open Scope nat_scope.
#[local] Set Warnings "-register-all".

(** An address. *)
Definition ptr : Type := nat.

(** ** Symbols, scopes and attributes *)
Module Attributes.

(** An interned string is equal to another when namespace and name are. *)
Record Symbol : Type := mkSymbol { ns : string; toUnqualString : string }.
#[export] Instance Symbol_eq_dec : EqDecision Symbol.
Proof. solve_decision. Defined.

Definition prim (s : string) : Symbol := mkSymbol "prim" s.
Definition aten (s : string) : Symbol := mkSymbol "aten" s.
Definition attr (s : string) : Symbol := mkSymbol "attr" s.
Definition scope (s : string) : Symbol := mkSymbol "scope" s.
Definition is_attr (s : Symbol) : bool := String.eqb (ns s) "attr".
Definition is_aten (s : Symbol) : bool := String.eqb (ns s) "aten".
Definition is_prim (s : Symbol) : bool := String.eqb (ns s) "prim".
Definition is_onnx (s : Symbol) : bool := String.eqb (ns s) "onnx".

(** scope.h: a scope knows its parent and never changes. *)
Inductive Scope : Type := mkScope (parent_ : option Scope) (name_ : Symbol).

Definition Scope_blank : Scope := mkScope None (scope "").
Definition Scope_push (this : Scope) (name : Symbol) : Scope := mkScope (Some this) name.
Definition Scope_parent (this : Scope) : outcome Scope :=
  match this with
  | mkScope (Some parent_) _ => Ok parent_
  | mkScope None _ => Throw (RuntimeError "Cannot get parent from Scope with no parent")
  end.
Definition Scope_isRoot (this : Scope) : bool := match this with mkScope None _ => true | _ => false end.
Definition Scope_name (this : Scope) : Symbol := match this with mkScope _ name_ => name_ end.
Definition Scope_isBlank (this : Scope) : bool :=
  Scope_isRoot this && bool_decide (Scope_name this = scope "").
Fixpoint Scope_getRoot (this : Scope) : Scope :=
  match this with mkScope (Some parent_) _ => Scope_getRoot parent_ | mkScope None _ => this end.
Fixpoint Scope_getDepth (this : Scope) : nat :=
  match this with mkScope (Some parent_) _ => S (Scope_getDepth parent_) | mkScope None _ => 1 end.
(** The loop over the parents, up to the root, whose name is left out. *)
Fixpoint Scope_prefix (separator out : string) (parent : Scope) : string :=
  match parent with
  | mkScope (Some up) name_ => Scope_prefix separator (toUnqualString name_ +:+ separator +:+ out) up
  | mkScope None _ => out
  end.
Definition Scope_namesFromRoot (separator : string) (this : Scope) : string :=
  match this with
  | mkScope None name_ => toUnqualString name_
  | mkScope (Some parent) name_ => Scope_prefix separator (toUnqualString name_) parent
  end.

Inductive AttributeKind : Type := kf | kfs | ki | kis | ks | kss | kt | kts | kg | kgs.
#[export] Instance AttributeKind_eq_dec : EqDecision AttributeKind.
Proof. solve_decision. Defined.

(** Doubles are their bits, tensors and graphs are handles. *)
Inductive AttributeValue : Type :=
  | FloatAttr (value_ : Z) | FloatsAttr (value_ : list Z)
  | IntAttr (value_ : Z) | IntsAttr (value_ : list Z)
  | StringAttr (value_ : string) | StringsAttr (value_ : list string)
  | TensorAttr (value_ : ptr) | TensorsAttr (value_ : list ptr)
  | GraphAttr (value_ : ptr) | GraphsAttr (value_ : list ptr).

Definition attr_kind (v : AttributeValue) : AttributeKind :=
  match v with
  | FloatAttr _ => kf | FloatsAttr _ => kfs | IntAttr _ => ki | IntsAttr _ => kis | StringAttr _ => ks
  | StringsAttr _ => kss | TensorAttr _ => kt | TensorsAttr _ => kts | GraphAttr _ => kg | GraphsAttr _ => kgs
  end.

(** The vector [values_] of a node: the attributes with their names. *)
Definition Attrs : Type := list (Symbol * AttributeValue).

(** [std::find_if]: the position of the attribute, the length when there is none. *)
Fixpoint find_attr (name : Symbol) (values_ : Attrs) : nat :=
  match values_ with
  | [] => 0
  | (n, _) :: values_ => if decide (n = name) then 0 else S (find_attr name values_)
  end.
(** An exception of a class of its own; its text tells it apart. *)
Definition AttributeError (name : Symbol) (defined : bool) : exn :=
  RuntimeError ("required keyword attribute '" +:+ toUnqualString name +:+
    (if defined then "' has the wrong type" else "' is undefined.")).
Definition findAttr (name : Symbol) (required : bool) (values_ : Attrs) : outcome nat :=
  AT_ASSERT (is_attr name);;
  let it := find_attr name values_ in
  if required && (it =? length values_) then Throw (AttributeError name false)
  else AT_ASSERT (negb required || negb (it =? length values_));; Ok it.

Definition hasAttribute (name : Symbol) (values_ : Attrs) : outcome bool :=
  AT_ASSERT (is_attr name);;
  it ← findAttr name false values_; Ok (negb (it =? length values_)).
(** [*it] for an iterator that is not the end. *)
Definition at_attr (it : nat) (values_ : Attrs) : outcome (Symbol * AttributeValue) :=
  match values_ !! it with Some a => Ok a | None => Throw (Undefined "dereference of the end iterator") end.
Definition kindOf (name : Symbol) (values_ : Attrs) : outcome AttributeKind :=
  AT_ASSERT (is_attr name);;
  it ← findAttr name true values_; a ← at_attr it values_; Ok (attr_kind a.2).
Definition removeAttribute (name : Symbol) (values_ : Attrs) : outcome Attrs :=
  AT_ASSERT (is_attr name);;
  it ← findAttr name true values_; Ok (delete it values_).
Definition hasAttributes (values_ : Attrs) : bool := (0 <? length values_).
Definition attributeNames (values_ : Attrs) : list Symbol := values_.*1.
Definition setAttr (name : Symbol) (v : AttributeValue) (values_ : Attrs) : outcome Attrs :=
  AT_ASSERT (is_attr name);;
  it ← findAttr name false values_;
  Ok (if (it =? length values_) then (values_ ++ [(name, v)])%list else <[it := (name, v)]> values_).
(** [getAttr<T>] for the class [T] of the given kind. *)
Definition getAttr (T : AttributeKind) (name : Symbol) (values_ : Attrs) : outcome AttributeValue :=
  AT_ASSERT (is_attr name);;
  it ← findAttr name true values_; a ← at_attr it values_;
  if decide (attr_kind a.2 = T) then Ok a.2 else Throw (AttributeError name true).
End Attributes.
Import Attributes.

(** ** Values, nodes, blocks and graphs *)
Module IR.

(** [struct Use]. *)
Record Use : Type := mkUse { user : ptr; offset : nat }.
#[export] Instance Use_eq_dec : EqDecision Use.
Proof. solve_decision. Defined.

Record Value : Type := mkValue {
  node_ : ptr;
  offset_ : nat;
  unique_ : nat;
  uses_ : list Use;
  unique_name_ : string;
  type_ : JitTypes.Ty
}.

(** [next_in_graph] is the pair of [next_] and [prev_]; [schema_] is a cached
    pointer into the operator registry, [source_location_] a shared constant. *)
Record Node : Type := mkNode {
  kind_ : Symbol;
  inputs_ : list (option ptr);
  outputs_ : list ptr;
  blocks_ : list ptr;
  graph_ : ptr;
  owning_block_ : option ptr;
  source_location_ : option ptr;
  scope_ : option Scope;
  schema_ : option ptr;
  topo_position_ : Z;
  next_ : option ptr;
  prev_ : option ptr;
  values_ : Attrs
}.

Record Block : Type := mkBlock {
  block_graph_ : ptr;
  output_ : ptr;
  input_ : ptr;
  owning_node_ : option ptr
}.

Record Graph : Type := mkGraph {
  all_nodes : gset ptr;
  all_values : gset ptr;
  all_blocks : gset ptr;
  next_unique_ : nat;
  unique_names_ : gmap string ptr;
  current_scope_ : option Scope;
  block_ : ptr;
  insert_before_ : ptr
}.

Record Store : Type := mkStore {
  node_heap : gmap ptr Node;
  value_heap : gmap ptr Value;
  block_heap : gmap ptr Block;
  graph_heap : gmap ptr Graph;
  next_ptr : ptr
}.

Abbreviation M := (SE Store).

(** *** Assignments to fields *)
Definition set_offset (o : nat) (V : Value) : Value := mkValue (node_ V) o (unique_ V) (uses_ V) (unique_name_ V) (type_ V).
Definition set_uses (u : list Use) (V : Value) : Value := mkValue (node_ V) (offset_ V) (unique_ V) u (unique_name_ V) (type_ V).
Definition set_name (x : string) (V : Value) : Value := mkValue (node_ V) (offset_ V) (unique_ V) (uses_ V) x (type_ V).
Definition set_type (t : JitTypes.Ty) (V : Value) : Value := mkValue (node_ V) (offset_ V) (unique_ V) (uses_ V) (unique_name_ V) t.

Definition set_inputs (l : list (option ptr)) (N : Node) : Node :=
  mkNode (kind_ N) l (outputs_ N) (blocks_ N) (graph_ N) (owning_block_ N) (source_location_ N) (scope_ N) (schema_ N) (topo_position_ N) (next_ N) (prev_ N) (values_ N).
Definition set_outputs (l : list ptr) (N : Node) : Node :=
  mkNode (kind_ N) (inputs_ N) l (blocks_ N) (graph_ N) (owning_block_ N) (source_location_ N) (scope_ N) (schema_ N) (topo_position_ N) (next_ N) (prev_ N) (values_ N).
Definition set_blocks (l : list ptr) (N : Node) : Node :=
  mkNode (kind_ N) (inputs_ N) (outputs_ N) l (graph_ N) (owning_block_ N) (source_location_ N) (scope_ N) (schema_ N) (topo_position_ N) (next_ N) (prev_ N) (values_ N).
Definition set_owning_block (b : option ptr) (N : Node) : Node :=
  mkNode (kind_ N) (inputs_ N) (outputs_ N) (blocks_ N) (graph_ N) b (source_location_ N) (scope_ N) (schema_ N) (topo_position_ N) (next_ N) (prev_ N) (values_ N).
Definition set_source_location (l : option ptr) (N : Node) : Node :=
  mkNode (kind_ N) (inputs_ N) (outputs_ N) (blocks_ N) (graph_ N) (owning_block_ N) l (scope_ N) (schema_ N) (topo_position_ N) (next_ N) (prev_ N) (values_ N).
Definition set_scope (x : option Scope) (N : Node) : Node :=
  mkNode (kind_ N) (inputs_ N) (outputs_ N) (blocks_ N) (graph_ N) (owning_block_ N) (source_location_ N) x (schema_ N) (topo_position_ N) (next_ N) (prev_ N) (values_ N).
Definition set_schema (x : option ptr) (N : Node) : Node :=
  mkNode (kind_ N) (inputs_ N) (outputs_ N) (blocks_ N) (graph_ N) (owning_block_ N) (source_location_ N) (scope_ N) x (topo_position_ N) (next_ N) (prev_ N) (values_ N).
Definition set_topo_position (z : Z) (N : Node) : Node :=
  mkNode (kind_ N) (inputs_ N) (outputs_ N) (blocks_ N) (graph_ N) (owning_block_ N) (source_location_ N) (scope_ N) (schema_ N) z (next_ N) (prev_ N) (values_ N).
Definition set_next (p : option ptr) (N : Node) : Node :=
  mkNode (kind_ N) (inputs_ N) (outputs_ N) (blocks_ N) (graph_ N) (owning_block_ N) (source_location_ N) (scope_ N) (schema_ N) (topo_position_ N) p (prev_ N) (values_ N).
Definition set_prev (p : option ptr) (N : Node) : Node :=
  mkNode (kind_ N) (inputs_ N) (outputs_ N) (blocks_ N) (graph_ N) (owning_block_ N) (source_location_ N) (scope_ N) (schema_ N) (topo_position_ N) (next_ N) p (values_ N).
Definition set_values (a : Attrs) (N : Node) : Node :=
  mkNode (kind_ N) (inputs_ N) (outputs_ N) (blocks_ N) (graph_ N) (owning_block_ N) (source_location_ N) (scope_ N) (schema_ N) (topo_position_ N) (next_ N) (prev_ N) a.

Definition set_all_nodes (x : gset ptr) (G : Graph) : Graph :=
  mkGraph x (all_values G) (all_blocks G) (next_unique_ G) (unique_names_ G) (current_scope_ G) (block_ G) (insert_before_ G).
Definition set_all_values (x : gset ptr) (G : Graph) : Graph :=
  mkGraph (all_nodes G) x (all_blocks G) (next_unique_ G) (unique_names_ G) (current_scope_ G) (block_ G) (insert_before_ G).
Definition set_all_blocks (x : gset ptr) (G : Graph) : Graph :=
  mkGraph (all_nodes G) (all_values G) x (next_unique_ G) (unique_names_ G) (current_scope_ G) (block_ G) (insert_before_ G).
Definition set_next_unique (x : nat) (G : Graph) : Graph :=
  mkGraph (all_nodes G) (all_values G) (all_blocks G) x (unique_names_ G) (current_scope_ G) (block_ G) (insert_before_ G).
Definition set_unique_names (x : gmap string ptr) (G : Graph) : Graph :=
  mkGraph (all_nodes G) (all_values G) (all_blocks G) (next_unique_ G) x (current_scope_ G) (block_ G) (insert_before_ G).
Definition set_current_scope (x : option Scope) (G : Graph) : Graph :=
  mkGraph (all_nodes G) (all_values G) (all_blocks G) (next_unique_ G) (unique_names_ G) x (block_ G) (insert_before_ G).
Definition set_block (x : ptr) (G : Graph) : Graph :=
  mkGraph (all_nodes G) (all_values G) (all_blocks G) (next_unique_ G) (unique_names_ G) (current_scope_ G) x (insert_before_ G).
Definition set_insert_before (x : ptr) (G : Graph) : Graph :=
  mkGraph (all_nodes G) (all_values G) (all_blocks G) (next_unique_ G) (unique_names_ G) (current_scope_ G) (block_ G) x.

Definition with_nodes (h : gmap ptr Node) (s : Store) : Store := mkStore h (value_heap s) (block_heap s) (graph_heap s) (next_ptr s).
Definition with_values (h : gmap ptr Value) (s : Store) : Store := mkStore (node_heap s) h (block_heap s) (graph_heap s) (next_ptr s).
Definition with_blocks (h : gmap ptr Block) (s : Store) : Store := mkStore (node_heap s) (value_heap s) h (graph_heap s) (next_ptr s).
Definition with_graphs (h : gmap ptr Graph) (s : Store) : Store := mkStore (node_heap s) (value_heap s) (block_heap s) h (next_ptr s).
Definition with_next_ptr (p : ptr) (s : Store) : Store := mkStore (node_heap s) (value_heap s) (block_heap s) (graph_heap s) p.

Definition empty_store : Store := mkStore ∅ ∅ ∅ ∅ 0.

(** *** Dereferences *)
Definition found {A} (x : option A) : outcome A :=
  match x with Some a => Ok a | None => Throw (Undefined "dangling pointer") end.
Definition non_null (p : option ptr) : M ptr := lift (found p).
Definition deref_node (n : ptr) : M Node := λ s, (found (node_heap s !! n), s).
Definition deref_value (v : ptr) : M Value := λ s, (found (value_heap s !! v), s).
Definition deref_block (b : ptr) : M Block := λ s, (found (block_heap s !! b), s).
Definition deref_graph (g : ptr) : M Graph := λ s, (found (graph_heap s !! g), s).
Definition update_node (n : ptr) (f : Node → Node) : M unit :=
  N ← deref_node n; modify (λ s, with_nodes (<[n := f N]> (node_heap s)) s).
Definition update_value (v : ptr) (f : Value → Value) : M unit :=
  V ← deref_value v; modify (λ s, with_values (<[v := f V]> (value_heap s)) s).
Definition update_graph (g : ptr) (f : Graph → Graph) : M unit :=
  G ← deref_graph g; modify (λ s, with_graphs (<[g := f G]> (graph_heap s)) s).

(** [v[i]] and [v.at(i)]. *)
Definition index {A} (l : list A) (i : nat) : outcome A :=
  match l !! i with Some x => Ok x | None => Throw (Undefined "index out of range") end.
Definition at_ {A} (l : list A) (i : nat) : outcome A :=
  match l !! i with Some x => Ok x | None => Throw (StdOutOfRange "vector::at") end.

(** A loop of which [fuel] bounds the iterations. *)
Definition out_of_fuel {A} : M A := mthrow (Undefined "out of fuel").
Fixpoint while_ (fuel : nat) (cond : M bool) (body : M unit) : M unit :=
  match fuel with
  | O => out_of_fuel
  | S fuel => b ← cond; if b : bool then body;; while_ fuel cond body else mret tt
  end.

(** *** Names of values *)
Definition hasUniqueName (V : Value) : bool := negb (String.eqb (unique_name_ V) "").
Definition uniqueName (V : Value) : string :=
  if hasUniqueName V then unique_name_ V else show_Z (Z.of_nat (unique_ V)).
Fixpoint all_digits (s : string) : bool :=
  match s with "" => true | String c s => is_digit c && all_digits s end.
(** The position of the last dot, when digits and nothing else follow it. *)
Definition numeric_suffix (name : string) : option nat :=
  match JitTypes.rfind "." name with
  | Some last_dot_pos =>
      if negb (S last_dot_pos =? String.length name) && all_digits (str_drop (S last_dot_pos) name)
      then Some last_dot_pos else None
  | None => None
  end.
Definition uniqueNameBase (V : Value) : string :=
  let name := uniqueName V in
  match numeric_suffix name with Some last_dot_pos => str_take last_dot_pos name | None => name end.
Definition isValidName (name : string) : bool := String.eqb name "" || negb (all_digits name).

(** [std::stoll]. *)
Definition stoll (s : string) : outcome Z :=
  match strtol s with
  | None => Throw (StdInvalidArgument "stoll")
  | Some v => if ((- 2 ^ 63 <=? v) && (v <? 2 ^ 63))%Z then Ok v else Throw (StdOutOfRange "stoll")
  end.
(** The base and the first suffix of the replacements for [name]. *)
Definition split_name (name : string) : outcome (string * Z) :=
  match numeric_suffix name with
  | Some last_dot_pos => suffix ← stoll (str_drop (S last_dot_pos) name); Ok (str_take last_dot_pos name, suffix)
  | None => Ok (name, 1%Z)
  end.
(** The loop that looks for a free name; [suffix] is a [size_t]. *)
Fixpoint fresh_name (fuel : nat) (names : gmap string ptr) (name_base : string) (suffix : Z) : outcome string :=
  match fuel with
  | O => Throw (Undefined "out of fuel")
  | S fuel =>
      let replacement_name := name_base +:+ "." +:+ show_Z suffix in
      if decide (names !! replacement_name = None) then Ok replacement_name
      else fresh_name fuel names name_base (wrapU 64 (suffix + 1)%Z)
  end.
Definition replacement_for (name : string) (names : gmap string ptr) : outcome string :=
  p ← split_name name; fresh_name (S (size names)) names p.1 p.2.

(** [setUniqueName] calls itself for the former owner of the name, whose new name
    is free, so that it does not call itself again. *)
Fixpoint setUniqueName_rec (fuel : nat) (this : ptr) (name : string) : M ptr :=
  match fuel with
  | O => out_of_fuel
  | S fuel =>
      if negb (isValidName name) then mthrow (RuntimeError ("Invalid name: '" +:+ name +:+ "'"))
      else
        V ← deref_value this;
        N ← deref_node (node_ V);
        let g := graph_ N in
        (if hasUniqueName V
         then update_graph g (λ G, set_unique_names (delete (unique_name_ V) (unique_names_ G)) G);;
              update_value this (set_name "")
         else mret tt);;
        if String.eqb name "" then mret this
        else
          G ← deref_graph g;
          (match unique_names_ G !! name with
           | Some old_owner =>
               replacement_name ← lift (replacement_for name (unique_names_ G));
               setUniqueName_rec fuel old_owner replacement_name;;
               mret tt
           | None => mret tt
           end);;
          update_graph g (λ G, set_unique_names (<[name := this]> (unique_names_ G)) G);;
          update_value this (set_name name);;
          mret this
  end.
Definition setUniqueName : ptr → string → M ptr := setUniqueName_rec 2.

(** *** Values *)

(** [Value::setType], for a type that is not null. *)
Definition setType (this : ptr) (type : JitTypes.Ty) : M ptr :=
  update_value this (set_type type);;
  V ← deref_value this;
  foreach (uses_ V) (λ use, update_node (user use) (set_schema None));;
  mret this.

Definition copyMetadata (this from : ptr) : M ptr :=
  F ← deref_value from;
  setType this (type_ F);;
  F ← deref_value from;
  (if hasUniqueName F then setUniqueName this (uniqueName F);; mret tt else mret tt);;
  mret this.

Definition owningGraph (v : ptr) : M ptr :=
  V ← deref_value v; N ← deref_node (node_ V); mret (graph_ N).

Definition replaceFirstUseWith (this newValue : ptr) : M unit :=
  g ← owningGraph this;
  h ← owningGraph newValue;
  AT_ASSERT (g =? h);;
  V ← deref_value this;
  u ← lift (index (uses_ V) 0);
  U ← deref_node (user u);
  lift (index (inputs_ U) (offset u));;
  update_node (user u) (set_inputs (<[offset u := Some newValue]> (inputs_ U)));;
  update_value newValue (λ W, set_uses (uses_ W ++ [u])%list W);;
  update_value this (λ V, set_uses (tail (uses_ V)) V).

(** [while (!uses().empty())]: one use goes in each iteration, unless [newValue] is
    the value itself. *)
Definition Value_replaceAllUsesWith_fuel (fuel : nat) (this newValue : ptr) : M unit :=
  while_ fuel (V ← deref_value this; mret (0 <? length (uses_ V))) (replaceFirstUseWith this newValue).
Definition Value_replaceAllUsesWith (this newValue : ptr) : M unit :=
  V ← deref_value this;
  Value_replaceAllUsesWith_fuel (S (length (uses_ V))) this newValue.

(** *** Construction *)

(** [new Node(graph, kind)]. *)
Definition new_Node (graph : ptr) (kind : Symbol) : M ptr :=
  G ← deref_graph graph;
  s ← get;
  let n := next_ptr s in
  put (with_next_ptr (S n) (with_nodes (<[n := mkNode kind [] [] [] graph None None (current_scope_ G) None 0 None None []]> (node_heap s)) s));;
  update_graph graph (λ G, set_all_nodes ({[n]} ∪ all_nodes G) G);;
  mret n.

(** [new Value(node, offset)]. *)
Definition new_Value (node : ptr) (offset : nat) : M ptr :=
  N ← deref_node node;
  G ← deref_graph (graph_ N);
  s ← get;
  let v := next_ptr s in
  put (with_next_ptr (S v) (with_values (<[v := mkValue node offset (next_unique_ G) [] "" JitTypes.TensorType]> (value_heap s)) s));;
  update_graph (graph_ N) (λ G, set_next_unique (S (next_unique_ G)) G);;
  update_graph (graph_ N) (λ G, set_all_values ({[v]} ∪ all_values G) G);;
  mret v.

Definition addOutput (this : ptr) : M ptr :=
  N ← deref_node this;
  v ← new_Value this (length (outputs_ N));
  update_node this (λ N, set_outputs (outputs_ N ++ [v])%list N);;
  update_node this (set_schema None);;
  mret v.

(** [Graph::create(kind, num_outputs)]. *)
Definition create (graph : ptr) (kind : Symbol) (num_outputs : nat) : M ptr :=
  n ← new_Node graph kind;
  foreach (seq 0 num_outputs) (λ _, addOutput n;; mret tt);;
  mret n.

Definition kLowerBound : Z := - 2 ^ 63.
Definition kUpperBound : Z := 2 ^ 63 - 1.
Definition kMidPoint : Z := 0.
Definition kAppendInterval : Z := 1099511627776.

(** [new Block(graph, node)]. *)
Definition initOutput (p : ptr) : M ptr :=
  update_node p (set_next (Some p));; update_node p (set_prev (Some p));; mret p.
Definition new_Block (graph : ptr) (node : option ptr) : M ptr :=
  o ← create graph (prim "Return") 0;
  output ← initOutput o;
  input ← create graph (prim "Param") 0;
  s ← get;
  let b := next_ptr s in
  put (with_next_ptr (S b) (with_blocks (<[b := mkBlock graph output input node]> (block_heap s)) s));;
  update_graph graph (λ G, set_all_blocks ({[b]} ∪ all_blocks G) G);;
  update_node output (set_owning_block (Some b));;
  update_node output (set_topo_position kUpperBound);;
  update_node input (set_owning_block (Some b));;
  update_node input (set_topo_position kLowerBound);;
  mret b.

(** [std::make_shared<Graph>(scope_root)]: [block_] is made while the graph has no
    block yet, then the insertion point is set. *)
Definition new_Graph (scope_root : option Scope) : M ptr :=
  s ← get;
  let g := next_ptr s in
  put (with_next_ptr (S g) (with_graphs (<[g := mkGraph ∅ ∅ ∅ 0 ∅ scope_root g g]> (graph_heap s)) s));;
  b ← new_Block g None;
  update_graph g (set_block b);;
  B ← deref_block b;
  update_graph g (set_insert_before (output_ B));;
  mret g.

(** *** The list of nodes of a block *)
Definition inBlockList (N : Node) : outcome bool :=
  match next_ N with
  | None => AT_ASSERT (bool_decide (prev_ N = None));; Ok false
  | Some _ => Ok true
  end.

(** The loop over [nodes()] in [reIndexTopology]. *)
Fixpoint reindex_loop (fuel : nat) (output cur : ptr) (curPos : Z) : M unit :=
  match fuel with
  | O => out_of_fuel
  | S fuel =>
      if cur =? output then mret tt
      else
        AT_ASSERT (curPos <=? sub64 kUpperBound kAppendInterval)%Z;;
        let curPos := add64 curPos kAppendInterval in
        update_node cur (set_topo_position curPos);;
        N ← deref_node cur;
        next ← non_null (next_ N);
        reindex_loop fuel output next curPos
  end.
Definition list_fuel (s : Store) : nat := S (size (node_heap s)).
Definition reIndexTopology (b : ptr) : M unit :=
  B ← deref_block b;
  O ← deref_node (output_ B);
  begin ← non_null (next_ O);
  s ← get;
  reindex_loop (list_fuel s) (output_ B) begin kLowerBound.

Definition assignTopoPosition (this : ptr) : M unit :=
  N ← deref_node this;
  b ← non_null (owning_block_ N);
  B ← deref_block b;
  prev ← non_null (prev_ N);
  next ← non_null (next_ N);
  P ← deref_node prev;
  X ← deref_node next;
  let returnNode := output_ B in
  let prevPos := topo_position_ P in
  let nextPos := topo_position_ X in
  if next =? returnNode then
    if next =? prev then update_node this (set_topo_position kMidPoint)
    else if (sub64 kUpperBound kAppendInterval <=? prevPos)%Z then reIndexTopology b
    else update_node this (set_topo_position (add64 prevPos kAppendInterval))
  else if prev =? returnNode then
    if (nextPos <=? add64 kLowerBound kAppendInterval)%Z then reIndexTopology b
    else update_node this (set_topo_position (sub64 nextPos kAppendInterval))
  else
    let posBetween := add64 prevPos (Z.quot (sub64 nextPos prevPos) 2) in
    if (posBetween =? prevPos)%Z then reIndexTopology b
    else update_node this (set_topo_position posBetween).

Definition insertAfter (this n : ptr) : M ptr :=
  T ← deref_node this;
  N ← deref_node n;
  t ← lift (inBlockList T);
  i ← (if t : bool then mret false else lift (inBlockList N));
  AT_ASSERT i;;
  AT_ASSERT (bool_decide (owning_block_ N ≠ None));;
  update_node this (set_owning_block (owning_block_ N));;
  next ← non_null (next_ N);
  update_node n (set_next (Some this));;
  update_node this (set_prev (Some n));;
  update_node this (set_next (Some next));;
  update_node next (set_prev (Some this));;
  assignTopoPosition this;;
  mret this.

Definition insertBefore (this n : ptr) : M ptr :=
  N ← deref_node n;
  i ← lift (inBlockList N);
  AT_ASSERT i;;
  prev ← non_null (prev_ N);
  insertAfter this prev;;
  mret this.

Definition removeFromList (this : ptr) : M unit :=
  N ← deref_node this;
  i ← lift (inBlockList N);
  AT_ASSERT i;;
  update_node this (set_owning_block None);;
  next ← non_null (next_ N);
  prev ← non_null (prev_ N);
  update_node prev (set_next (Some next));;
  update_node next (set_prev (Some prev));;
  update_node this (set_next None);;
  update_node this (set_prev None).

Definition moveAfter (this n : ptr) : M unit := removeFromList this;; insertAfter this n;; mret tt.
Definition moveBefore (this n : ptr) : M unit := removeFromList this;; insertBefore this n;; mret tt.

(** *** Order *)
Inductive MoveSide : Type := BEFORE | AFTER.

Definition compare_positions (moveSide : MoveSide) (this n : Node) : bool :=
  match moveSide with
  | BEFORE => (topo_position_ this <? topo_position_ n)%Z
  | AFTER => (topo_position_ n <? topo_position_ this)%Z
  end.

(** The inner loop: the first node from [rhs] up whose block is [b]. *)
Fixpoint find_rhs (fuel : nat) (b : ptr) (rhs : option ptr) : M (option ptr) :=
  match fuel with
  | O => out_of_fuel
  | S fuel =>
      match rhs with
      | None => mret None
      | Some r =>
          R ← deref_node r;
          match owning_block_ R with
          | None => mret None
          | Some rb =>
              if b =? rb then mret (Some r)
              else RB ← deref_block rb; find_rhs fuel b (owning_node_ RB)
          end
      end
  end.

(** The outer loop: the first node from [lhs] up that has a partner. *)
Fixpoint find_lhs (fuel : nat) (lhs : option ptr) (n : ptr) : M (ptr * ptr) :=
  match fuel with
  | O => out_of_fuel
  | S fuel =>
      match lhs with
      | None => AT_ERROR "assertion failed"
      | Some l =>
          L ← deref_node l;
          AT_ASSERT (bool_decide (owning_block_ L ≠ None));;
          b ← non_null (owning_block_ L);
          s ← get;
          rhs ← find_rhs (S (S (size (block_heap s)))) b (Some n);
          match rhs with
          | Some r => mret (l, r)
          | None => LB ← deref_block b; find_lhs fuel (owning_node_ LB) n
          end
      end
  end.

Definition isBeforeOrAfter (this n : ptr) (moveSide : MoveSide) : M bool :=
  T ← deref_node this;
  N ← deref_node n;
  if decide (owning_block_ T = owning_block_ N) then mret (compare_positions moveSide T N)
  else
    s ← get;
    p ← find_lhs (S (S (size (block_heap s)))) (Some this) n;
    L ← deref_node p.1;
    R ← deref_node p.2;
    mret (compare_positions moveSide L R).
Definition isBefore (this n : ptr) : M bool := isBeforeOrAfter this n BEFORE.
Definition isAfter (this n : ptr) : M bool := isBeforeOrAfter this n AFTER.

(** *** Inputs and outputs *)

(** The position of the first use equal to [u], the length when there is none. *)
Fixpoint find_use (u : Use) (l : list Use) : nat :=
  match l with
  | [] => 0
  | x :: l => if decide (x = u) then 0 else S (find_use u l)
  end.
(** The iterator is the value and the position in its uses. *)
Definition findUseForInput (this : ptr) (i : nat) : M (ptr * nat) :=
  N ← deref_node this;
  input ← lift (index (inputs_ N) i);
  v ← non_null input;
  V ← deref_value v;
  let use_it := find_use (mkUse this i) (uses_ V) in
  AT_ASSERT (negb (use_it =? length (uses_ V)));;
  mret (v, use_it).
(** [use->offset = f(use->offset)]. *)
Definition update_use (use : ptr * nat) (f : nat → nat) : M unit :=
  update_value (use.1) (λ V, set_uses (alter (λ u, mkUse (user u) (f (offset u))) use.2 (uses_ V)) V).

Definition dropInput (this : ptr) (i : nat) : M ptr :=
  N ← deref_node this;
  AT_ASSERT (i <? length (inputs_ N));;
  input ← lift (index (inputs_ N) i);
  use_it ← findUseForInput this i;
  input_node ← non_null input;
  update_value input_node (λ V, set_uses (delete use_it.2 (uses_ V)) V);;
  update_node this (λ N, set_inputs (<[i := None]> (inputs_ N)) N);;
  mret input_node.

(** [AT_ASSERT(graph_ == value->owningGraph())]. *)
Definition assert_same_graph (this value : ptr) : M unit :=
  N ← deref_node this;
  g ← owningGraph value;
  AT_ASSERT (graph_ N =? g).

Definition insertInput (this : ptr) (i : nat) (value : ptr) : M ptr :=
  assert_same_graph this value;;
  update_node this (set_schema None);;
  N ← deref_node this;
  foreach (seq i (length (inputs_ N) - i)) (λ use_itr,
    use ← findUseForInput this use_itr;
    update_use use S);;
  (if i <=? length (inputs_ N) then mret tt else mthrow (Undefined "insertion past the end"));;
  update_node this (λ N, set_inputs (take i (inputs_ N) ++ Some value :: drop i (inputs_ N))%list N);;
  update_value value (λ V, set_uses (uses_ V ++ [mkUse this i])%list V);;
  mret value.

Definition addInput (this value : ptr) : M ptr :=
  assert_same_graph this value;;
  update_node this (set_schema None);;
  N ← deref_node this;
  update_value value (λ V, set_uses (uses_ V ++ [mkUse this (length (inputs_ N))])%list V);;
  update_node this (λ N, set_inputs (inputs_ N ++ [Some value])%list N);;
  mret value.

Definition replaceInput (this : ptr) (i : nat) (newValue : ptr) : M ptr :=
  assert_same_graph this newValue;;
  update_node this (set_schema None);;
  old ← dropInput this i;
  update_node this (λ N, set_inputs (<[i := Some newValue]> (inputs_ N)) N);;
  update_value newValue (λ V, set_uses (uses_ V ++ [mkUse this i])%list V);;
  mret old.

(** The loop runs over the vector it changes, whose length stays. *)
Definition replaceInputWith (this from to : ptr) : M unit :=
  assert_same_graph this from;;
  assert_same_graph this to;;
  update_node this (set_schema None);;
  N ← deref_node this;
  foreach (seq 0 (length (inputs_ N))) (λ i,
    N ← deref_node this;
    input ← lift (index (inputs_ N) i);
    if decide (input = Some from) then replaceInput this i to;; mret tt else mret tt).

Definition removeInput (this : ptr) (i : nat) : M unit :=
  update_node this (set_schema None);;
  dropInput this i;;
  N ← deref_node this;
  foreach (seq (S i) (length (inputs_ N) - S i)) (λ j,
    it ← findUseForInput this j;
    update_use it pred);;
  update_node this (λ N, set_inputs (delete i (inputs_ N)) N).

Definition removeAllInputs (this : ptr) : M unit :=
  update_node this (set_schema None);;
  N ← deref_node this;
  foreach (seq 0 (length (inputs_ N))) (λ i, dropInput this i;; mret tt);;
  update_node this (set_inputs []).

Definition Node_replaceAllUsesWith (this n : ptr) : M unit :=
  T ← deref_node this;
  N ← deref_node n;
  AT_ASSERT (length (outputs_ T) =? length (outputs_ N));;
  foreach (seq 0 (length (outputs_ T))) (λ i,
    T ← deref_node this;
    N ← deref_node n;
    o ← lift (index (outputs_ T) i);
    w ← lift (index (outputs_ N) i);
    Value_replaceAllUsesWith o w).

Definition insertOutput (this : ptr) (i : nat) : M ptr :=
  update_node this (set_schema None);;
  v ← new_Value this i;
  N ← deref_node this;
  (if i <=? length (outputs_ N) then mret tt else mthrow (Undefined "insertion past the end"));;
  update_node this (λ N, set_outputs (take i (outputs_ N) ++ v :: drop i (outputs_ N))%list N);;
  foreach (drop i (outputs_ N)) (λ w, update_value w (λ W, set_offset (S (offset_ W)) W));;
  N ← deref_node this;
  lift (at_ (outputs_ N) i).

Definition freeValue (graph v : ptr) : M unit :=
  setUniqueName v "";;
  G ← deref_graph graph;
  AT_ASSERT (bool_decide (v ∈ all_values G));;
  modify (λ s, with_values (delete v (value_heap s)) s);;
  update_graph graph (λ G, set_all_values (all_values G ∖ {[v]}) G).

Definition eraseOutput (this : ptr) (i : nat) : M unit :=
  N ← deref_node this;
  AT_ASSERT (i <? length (outputs_ N));;
  n ← lift (index (outputs_ N) i);
  V ← deref_value n;
  AT_ASSERT (bool_decide (uses_ V = []));;
  update_node this (set_schema None);;
  update_node this (λ N, set_outputs (delete i (outputs_ N)) N);;
  freeValue (graph_ N) n;;
  N ← deref_node this;
  foreach (drop i (outputs_ N)) (λ w, update_value w (λ W, set_offset (pred (offset_ W)) W)).

(** *** Blocks and destruction *)
Definition addBlock (this : ptr) : M ptr :=
  update_node this (set_schema None);;
  N ← deref_node this;
  b ← new_Block (graph_ N) (Some this);
  update_node this (λ N, set_blocks (blocks_ N ++ [b])%list N);;
  mret b.

Definition freeNode (graph n : ptr) : M unit :=
  G ← deref_graph graph;
  AT_ASSERT (bool_decide (n ∈ all_nodes G));;
  modify (λ s, with_nodes (delete n (node_heap s)) s);;
  update_graph graph (λ G, set_all_nodes (all_nodes G ∖ {[n]}) G).
Definition freeBlock (graph b : ptr) : M unit :=
  G ← deref_graph graph;
  AT_ASSERT (bool_decide (b ∈ all_blocks G));;
  modify (λ s, with_blocks (delete b (block_heap s)) s);;
  update_graph graph (λ G, set_all_blocks (all_blocks G ∖ {[b]}) G).

(** [eraseBlock(i)] for a way to destroy a block. *)
Definition eraseBlock_with (Block_destroy : ptr → M unit) (this : ptr) (i : nat) : M unit :=
  N ← deref_node this;
  AT_ASSERT (i <? length (blocks_ N));;
  update_node this (set_schema None);;
  n ← lift (index (blocks_ N) i);
  update_node this (λ N, set_blocks (delete i (blocks_ N)) N);;
  Block_destroy n.

(** [Node::destroy]: outputs and blocks go from the last to the first. *)
Definition Node_destroy_with (Block_destroy : ptr → M unit) (this : ptr) : M unit :=
  N ← deref_node this;
  while_ (S (length (outputs_ N)))
    (N ← deref_node this; mret (0 <? length (outputs_ N)))
    (N ← deref_node this; eraseOutput this (length (outputs_ N) - 1));;
  while_ (S (length (blocks_ N)))
    (N ← deref_node this; mret (0 <? length (blocks_ N)))
    (N ← deref_node this; eraseBlock_with Block_destroy this (length (blocks_ N) - 1));;
  removeAllInputs this;;
  N ← deref_node this;
  i ← lift (inBlockList N);
  (if i : bool then removeFromList this else mret tt);;
  freeNode (graph_ N) this.

(** The loop of [Block::destroy], from the last node to the return node:
    [destroyCurrent] steps forward before it destroys the node, the loop steps back. *)
Fixpoint destroy_loop (Node_destroy : ptr → M unit) (fuel : nat) (output cur : ptr) : M unit :=
  match fuel with
  | O => out_of_fuel
  | S fuel =>
      if cur =? output then mret tt
      else
        N ← deref_node cur;
        next ← non_null (next_ N);
        Node_destroy cur;;
        X ← deref_node next;
        prev ← non_null (prev_ X);
        destroy_loop Node_destroy fuel output prev
  end.

(** Both classes destroy each other; [fuel] bounds the depth of the blocks. *)
Fixpoint Block_destroy_rec (fuel : nat) (this : ptr) : M unit :=
  match fuel with
  | O => out_of_fuel
  | S fuel =>
      let Node_destroy := Node_destroy_with (Block_destroy_rec fuel) in
      B ← deref_block this;
      removeAllInputs (output_ B);;
      O ← deref_node (output_ B);
      last ← non_null (prev_ O);
      s ← get;
      destroy_loop Node_destroy (list_fuel s) (output_ B) last;;
      Node_destroy (output_ B);;
      Node_destroy (input_ B);;
      freeBlock (block_graph_ B) this
  end.
Definition block_fuel (s : Store) : nat := S (size (block_heap s)).
Definition Block_destroy (this : ptr) : M unit := s ← get; Block_destroy_rec (block_fuel s) this.
Definition Node_destroy (this : ptr) : M unit :=
  s ← get; Node_destroy_with (Block_destroy_rec (block_fuel s)) this.
Definition eraseBlock (this : ptr) (i : nat) : M unit :=
  s ← get; eraseBlock_with (Block_destroy_rec (block_fuel s)) this i.

(** *** Methods of [Block] and [Graph] *)
Definition inputs (b : ptr) : M (list ptr) := B ← deref_block b; P ← deref_node (input_ B); mret (outputs_ P).
Definition outputs (b : ptr) : M (list (option ptr)) := B ← deref_block b; O ← deref_node (output_ B); mret (inputs_ O).

(** The nodes of a block, from [begin()] to [end()]. *)
Fixpoint nodes_loop (fuel : nat) (head cur : ptr) : M (list ptr) :=
  match fuel with
  | O => out_of_fuel
  | S fuel =>
      if cur =? head then mret []
      else N ← deref_node cur; next ← non_null (next_ N); l ← nodes_loop fuel head next; mret (cur :: l)
  end.
Definition nodes (b : ptr) : M (list ptr) :=
  B ← deref_block b;
  O ← deref_node (output_ B);
  begin ← non_null (next_ O);
  s ← get;
  nodes_loop (list_fuel s) (output_ B) begin.

Definition Block_addInput (this : ptr) (name : string) : M ptr :=
  B ← deref_block this; v ← addOutput (input_ B); setUniqueName v name;; mret v.
Definition Block_insertInput (this : ptr) (i : nat) (name : string) : M ptr :=
  B ← deref_block this; v ← insertOutput (input_ B) i; setUniqueName v name;; mret v.
Definition Block_eraseInput (this : ptr) (i : nat) : M unit :=
  B ← deref_block this; eraseOutput (input_ B) i.
Definition registerOutput (this v : ptr) : M nat :=
  B ← deref_block this; addInput (output_ B) v;; O ← deref_node (output_ B); mret (length (inputs_ O) - 1).
Definition Block_insertOutput (this : ptr) (i : nat) (n : ptr) : M nat :=
  B ← deref_block this; insertInput (output_ B) i n;; mret i.
Definition Block_eraseOutput (this : ptr) (i : nat) : M unit :=
  B ← deref_block this; removeInput (output_ B) i.

(** [AT_ASSERT(n->graph_ == graph_ && !n->inBlockList())]. *)
Definition assert_detached (g n : ptr) : M unit :=
  N ← deref_node n;
  i ← (if graph_ N =? g then lift (inBlockList N) else mret true);
  AT_ASSERT (negb i).
Definition appendNode (this n : ptr) : M ptr :=
  B ← deref_block this; assert_detached (block_graph_ B) n;; insertBefore n (output_ B);; mret n.
Definition prependNode (this n : ptr) : M ptr :=
  B ← deref_block this; assert_detached (block_graph_ B) n;; insertAfter n (output_ B);; mret n.

Definition Graph_addInput (g : ptr) (name : string) : M ptr := G ← deref_graph g; Block_addInput (block_ G) name.
Definition Graph_insertInput (g : ptr) (i : nat) (name : string) : M ptr :=
  G ← deref_graph g; Block_insertInput (block_ G) i name.
Definition Graph_eraseInput (g : ptr) (i : nat) : M unit := G ← deref_graph g; Block_eraseInput (block_ G) i.
Definition Graph_registerOutput (g n : ptr) : M nat := G ← deref_graph g; registerOutput (block_ G) n.
Definition Graph_eraseOutput (g : ptr) (i : nat) : M unit := G ← deref_graph g; Block_eraseOutput (block_ G) i.
Definition Graph_appendNode (g n : ptr) : M ptr := G ← deref_graph g; appendNode (block_ G) n.
Definition Graph_prependNode (g n : ptr) : M ptr := G ← deref_graph g; prependNode (block_ G) n.

Definition insertNode (g n : ptr) : M ptr :=
  G ← deref_graph g;
  X ← deref_node (insert_before_ G);
  i ← lift (inBlockList X);
  AT_ASSERT i;;
  insertBefore n (insert_before_ G).
Definition setInsertPoint_block (g b : ptr) : M unit :=
  B ← deref_block b;
  AT_ASSERT (block_graph_ B =? g);;
  update_graph g (set_insert_before (output_ B)).
Definition setInsertPoint_node (g n : ptr) : M unit :=
  N ← deref_node n;
  i ← (if graph_ N =? g then lift (inBlockList N) else mret false);
  AT_ASSERT i;;
  update_graph g (set_insert_before n).
Definition insertPoint (g : ptr) : M ptr := G ← deref_graph g; mret (insert_before_ G).

(** A body followed by a destructor, which may not throw. *)
Definition finally {A} (body : M A) (destructor : M unit) : M A := λ s,
  let '(r, s') := body s in
  match destructor s' with
  | (Ok _, s'') => (r, s'')
  | (Throw e, s'') => (noexcept (Throw e), s'')
  end.
(** A body between the constructor and the destructor of [WithInsertPoint]. *)
Definition WithInsertPoint {A} (n : ptr) (body : M A) : M A :=
  N ← deref_node n;
  prev_ ← insertPoint (graph_ N);
  setInsertPoint_node (graph_ N) n;;
  finally body (P ← deref_node prev_; setInsertPoint_node (graph_ P) prev_).

Definition push_scope (g : ptr) (scope_name : string) : M unit :=
  G ← deref_graph g;
  cur ← lift (found (current_scope_ G));
  update_graph g (set_current_scope (Some (Scope_push cur (scope scope_name)))).
Definition pop_scope (g : ptr) : M unit :=
  G ← deref_graph g;
  cur ← lift (found (current_scope_ G));
  p ← lift (Scope_parent cur);
  update_graph g (set_current_scope (Some p)).

Definition hasUses (n : ptr) : M bool := λ s,
  match node_heap s !! n with
  | None => (Throw (Undefined "dangling pointer"), s)
  | Some N =>
      ((fix any (l : list ptr) : outcome bool :=
         match l with
         | [] => Ok false
         | o :: l => V ← found (value_heap s !! o); if decide (uses_ V = []) then any l else Ok true
         end) (outputs_ N), s)
  end.

Definition input_at (n : ptr) (i : nat) : M (option ptr) := N ← deref_node n; lift (at_ (inputs_ N) i).
Definition output_at (n : ptr) (i : nat) : M ptr := N ← deref_node n; lift (at_ (outputs_ N) i).
Definition input (n : ptr) : M (option ptr) :=
  N ← deref_node n; AT_ASSERT (length (inputs_ N) =? 1);; lift (at_ (inputs_ N) 0).
Definition output (n : ptr) : M ptr :=
  N ← deref_node n; AT_ASSERT (length (outputs_ N) =? 1);; lift (at_ (outputs_ N) 0).

End IR.
