(* ===== verification/IRSpec.v ===== *)
(** * The invariant of the graphs of the JIT

    The fields of all objects are seen as maps, one per field, and the invariant is
    a conjunction of parts of which each reads a few of these maps: uses and inputs
    mirror each other, so do outputs and values, blocks and their owners; the nodes
    of a block form a ring, in the order of their positions; names lead to values
    and back.  An operation changes a few of the maps: a part that reads
    none of these stays as it is. *)
From stdpp Require Import sorting.
From S2P Require Import Prelude JitTypes JitGraph.
Local Open Scope string_scope.
Local Open Scope nat_scope.
Import IR.

(** ** The fields as maps *)
Definition f_kind (s : Store) : gmap ptr Attributes.Symbol := kind_ <$> node_heap s.
Definition f_inputs (s : Store) : gmap ptr (list (option ptr)) := inputs_ <$> node_heap s.
Definition f_outputs (s : Store) : gmap ptr (list ptr) := outputs_ <$> node_heap s.
Definition f_blocks (s : Store) : gmap ptr (list ptr) := blocks_ <$> node_heap s.
Definition f_graph (s : Store) : gmap ptr ptr := graph_ <$> node_heap s.
Definition f_owner (s : Store) : gmap ptr (option ptr) := owning_block_ <$> node_heap s.
Definition f_next (s : Store) : gmap ptr (option ptr) := next_ <$> node_heap s.
Definition f_prev (s : Store) : gmap ptr (option ptr) := prev_ <$> node_heap s.
Definition f_pos (s : Store) : gmap ptr Z := topo_position_ <$> node_heap s.
Definition f_attrs (s : Store) : gmap ptr Attributes.Attrs := values_ <$> node_heap s.
Definition f_def (s : Store) : gmap ptr (ptr * nat) := (λ V, (node_ V, offset_ V)) <$> value_heap s.
Definition f_unique (s : Store) : gmap ptr nat := unique_ <$> value_heap s.
Definition f_uses (s : Store) : gmap ptr (list Use) := uses_ <$> value_heap s.
Definition f_name (s : Store) : gmap ptr string := unique_name_ <$> value_heap s.
Definition f_type (s : Store) : gmap ptr JitTypes.Ty := type_ <$> value_heap s.
Definition f_all_nodes (s : Store) : gmap ptr (gset ptr) := all_nodes <$> graph_heap s.
Definition f_all_values (s : Store) : gmap ptr (gset ptr) := all_values <$> graph_heap s.
Definition f_all_blocks (s : Store) : gmap ptr (gset ptr) := all_blocks <$> graph_heap s.
Definition f_next_unique (s : Store) : gmap ptr nat := next_unique_ <$> graph_heap s.
Definition f_names (s : Store) : gmap ptr (gmap string ptr) := unique_names_ <$> graph_heap s.
Definition f_root (s : Store) : gmap ptr ptr := block_ <$> graph_heap s.
Definition f_insert (s : Store) : gmap ptr ptr := insert_before_ <$> graph_heap s.

(** The fields, to say which ones a call may change. *)
Inductive field : Type :=
  | Kind | Inputs | Outputs | Blocks | OfGraph | Owner | Next | Prev | Pos | NodeAttrs
  | Def | Unique | Uses | Name | Types
  | AllNodes | AllValues | AllBlocks | NextUnique | Names | Root | Insert
  | BlockHeap | Fresh.
#[export] Instance field_eq_dec : EqDecision field.
Proof. solve_decision. Defined.

Definition field_type (f : field) : Type :=
  match f with
  | Kind => gmap ptr Attributes.Symbol | Inputs => gmap ptr (list (option ptr)) | Outputs | Blocks => gmap ptr (list ptr)
  | OfGraph => gmap ptr ptr | Owner | Next | Prev => gmap ptr (option ptr) | Pos => gmap ptr Z | NodeAttrs => gmap ptr Attributes.Attrs
  | Def => gmap ptr (ptr * nat) | Unique => gmap ptr nat | Uses => gmap ptr (list Use) | Name => gmap ptr string | Types => gmap ptr JitTypes.Ty
  | AllNodes | AllValues | AllBlocks => gmap ptr (gset ptr) | NextUnique => gmap ptr nat
  | Names => gmap ptr (gmap string ptr) | Root | Insert => gmap ptr ptr
  | BlockHeap => gmap ptr Block | Fresh => ptr
  end.
Definition get_field (f : field) : Store → field_type f :=
  match f with
  | Kind => f_kind | Inputs => f_inputs | Outputs => f_outputs | Blocks => f_blocks | OfGraph => f_graph
  | Owner => f_owner | Next => f_next | Prev => f_prev | Pos => f_pos | NodeAttrs => f_attrs
  | Def => f_def | Unique => f_unique | Uses => f_uses | Name => f_name | Types => f_type
  | AllNodes => f_all_nodes | AllValues => f_all_values | AllBlocks => f_all_blocks
  | NextUnique => f_next_unique | Names => f_names | Root => f_root | Insert => f_insert
  | BlockHeap => block_heap | Fresh => next_ptr
  end.

(** The fields outside [P] are the same in both stores. *)
Definition changes (P : list field) (s s' : Store) : Prop :=
  ∀ f, f ∉ P → get_field f s' = get_field f s.

(** A field is not in a concrete list. *)
Ltac outside := apply (bool_decide_unpack _); vm_compute; exact I.

(** The same for the inclusion of concrete lists. *)
Ltac subfields :=
  let f := fresh "f" in let Hf := fresh "Hf" in
  intros f Hf; repeat (apply elem_of_cons in Hf as [->|Hf]; [repeat constructor|]); by apply not_elem_of_nil in Hf.

Lemma changes_refl P s : changes P s s.
Proof. done. Qed.
Lemma changes_trans P Q s s' s'' : changes P s s' → changes Q s' s'' → changes (P ++ Q) s s''.
Proof. intros H1 H2 f Hf. apply not_elem_of_app in Hf as [? ?]. rewrite H2, H1; done. Qed.
Lemma changes_weaken P Q s s' : changes P s s' → P ⊆ Q → changes Q s s'.
Proof. intros H HPQ f Hf. apply H. set_solver. Qed.
Lemma changes_step P s s' s'' : changes P s s' → changes P s' s'' → changes P s s''.
Proof. intros H1 H2 f Hf. by rewrite H2, H1. Qed.

(** ** Updates of the store as functions *)
Definition upd_node (n : ptr) (f : Node → Node) (s : Store) : Store := with_nodes (alter f n (node_heap s)) s.
Definition upd_value (v : ptr) (f : Value → Value) (s : Store) : Store := with_values (alter f v (value_heap s)) s.
Definition upd_graph (g : ptr) (f : Graph → Graph) (s : Store) : Store := with_graphs (alter f g (graph_heap s)) s.

Lemma run_node {A} n N (k : Node → M A) s : node_heap s !! n = Some N → (deref_node n ≫= k) s = k N s.
Proof. intros E. unfold deref_node, mbind, SE_bind. by rewrite E. Qed.
Lemma run_value {A} v V (k : Value → M A) s : value_heap s !! v = Some V → (deref_value v ≫= k) s = k V s.
Proof. intros E. unfold deref_value, mbind, SE_bind. by rewrite E. Qed.
Lemma run_block {A} b B (k : Block → M A) s : block_heap s !! b = Some B → (deref_block b ≫= k) s = k B s.
Proof. intros E. unfold deref_block, mbind, SE_bind. by rewrite E. Qed.
Lemma run_graph {A} g G (k : Graph → M A) s : graph_heap s !! g = Some G → (deref_graph g ≫= k) s = k G s.
Proof. intros E. unfold deref_graph, mbind, SE_bind. by rewrite E. Qed.

Lemma update_node_Ok n f s : is_Some (node_heap s !! n) → update_node n f s = (Ok tt, upd_node n f s).
Proof. intros [N E]. unfold update_node. rewrite (run_node _ N) by done. unfold modify, upd_node. by rewrite insert_alter. Qed.
Lemma update_value_Ok v f s : is_Some (value_heap s !! v) → update_value v f s = (Ok tt, upd_value v f s).
Proof. intros [V E]. unfold update_value. rewrite (run_value _ V) by done. unfold modify, upd_value. by rewrite insert_alter. Qed.
Lemma update_graph_Ok g f s : is_Some (graph_heap s !! g) → update_graph g f s = (Ok tt, upd_graph g f s).
Proof. intros [G E]. unfold update_graph. rewrite (run_graph _ G) by done. unfold modify, upd_graph. by rewrite insert_alter. Qed.

Lemma run_update_node {A} n f (k : unit → M A) s :
  is_Some (node_heap s !! n) → (update_node n f ≫= k) s = k tt (upd_node n f s).
Proof. intros E. by rewrite (run_bind _ _ _ _ _ (update_node_Ok n f s E)). Qed.
Lemma run_update_value {A} v f (k : unit → M A) s :
  is_Some (value_heap s !! v) → (update_value v f ≫= k) s = k tt (upd_value v f s).
Proof. intros E. by rewrite (run_bind _ _ _ _ _ (update_value_Ok v f s E)). Qed.
Lemma run_update_graph {A} g f (k : unit → M A) s :
  is_Some (graph_heap s !! g) → (update_graph g f ≫= k) s = k tt (upd_graph g f s).
Proof. intros E. by rewrite (run_bind _ _ _ _ _ (update_graph_Ok g f s E)). Qed.

Lemma run_index {A B} (l : list A) i x (k : A → M B) s : l !! i = Some x → (lift (index l i) ≫= k) s = k x s.
Proof. intros E. unfold index. by rewrite E. Qed.

(** What a cell holds after an assignment. *)
Lemma node_upd n f s m : node_heap (upd_node n f s) !! m = if decide (n = m) then f <$> node_heap s !! m else node_heap s !! m.
Proof. unfold upd_node. cbn. case_decide; [subst; apply lookup_alter_eq|by apply lookup_alter_ne]. Qed.
Lemma value_upd v f s w : value_heap (upd_value v f s) !! w = if decide (v = w) then f <$> value_heap s !! w else value_heap s !! w.
Proof. unfold upd_value. cbn. case_decide; [subst; apply lookup_alter_eq|by apply lookup_alter_ne]. Qed.
Lemma graph_upd g f s h : graph_heap (upd_graph g f s) !! h = if decide (g = h) then f <$> graph_heap s !! h else graph_heap s !! h.
Proof. unfold upd_graph. cbn. case_decide; [subst; apply lookup_alter_eq|by apply lookup_alter_ne]. Qed.
Lemma node_upd_eq n f s N : node_heap s !! n = Some N → node_heap (upd_node n f s) !! n = Some (f N).
Proof. intros E. by rewrite node_upd, decide_True, E by done. Qed.
Lemma value_upd_eq v f s V : value_heap s !! v = Some V → value_heap (upd_value v f s) !! v = Some (f V).
Proof. intros E. by rewrite value_upd, decide_True, E by done. Qed.
Lemma graph_upd_eq g f s G : graph_heap s !! g = Some G → graph_heap (upd_graph g f s) !! g = Some (f G).
Proof. intros E. by rewrite graph_upd, decide_True, E by done. Qed.

Lemma node_live n f s m : is_Some (node_heap s !! m) → is_Some (node_heap (upd_node n f s) !! m).
Proof. rewrite node_upd. case_decide; [|done]. by intros [N ->]. Qed.
Lemma value_live v f s w : is_Some (value_heap s !! w) → is_Some (value_heap (upd_value v f s) !! w).
Proof. rewrite value_upd. case_decide; [|done]. by intros [N ->]. Qed.
Lemma graph_live' g f s h : is_Some (graph_heap s !! h) → is_Some (graph_heap (upd_graph g f s) !! h).
Proof. rewrite graph_upd. case_decide; [|done]. by intros [N ->]. Qed.

(** A cell is there, behind any number of assignments. *)
Ltac live :=
  repeat first
    [ eassumption | solve [eauto]
    | lazymatch goal with
      | |- is_Some (node_heap (upd_node _ _ _) !! _) => apply node_live
      | |- is_Some (node_heap (upd_value _ _ ?s) !! ?m) => change (is_Some (node_heap s !! m))
      | |- is_Some (node_heap (upd_graph _ _ ?s) !! ?m) => change (is_Some (node_heap s !! m))
      | |- is_Some (value_heap (upd_value _ _ _) !! _) => apply value_live
      | |- is_Some (value_heap (upd_node _ _ ?s) !! ?m) => change (is_Some (value_heap s !! m))
      | |- is_Some (value_heap (upd_graph _ _ ?s) !! ?m) => change (is_Some (value_heap s !! m))
      | |- is_Some (graph_heap (upd_graph _ _ _) !! _) => apply graph_live'
      | |- is_Some (graph_heap (upd_node _ _ ?s) !! ?m) => change (is_Some (graph_heap s !! m))
      | |- is_Some (graph_heap (upd_value _ _ ?s) !! ?m) => change (is_Some (graph_heap s !! m))
      end ].
(** What a known cell holds behind assignments. *)
Ltac cell :=
  lazymatch goal with
  | |- node_heap (upd_node ?n _ _) !! ?n = Some _ => apply node_upd_eq; cell
  | |- node_heap (upd_value _ _ ?s) !! ?m = ?r => change (node_heap s !! m = r); cell
  | |- node_heap (upd_graph _ _ ?s) !! ?m = ?r => change (node_heap s !! m = r); cell
  | |- value_heap (upd_value ?v _ _) !! ?v = Some _ => apply value_upd_eq; cell
  | |- value_heap (upd_node _ _ ?s) !! ?m = ?r => change (value_heap s !! m = r); cell
  | |- value_heap (upd_graph _ _ ?s) !! ?m = ?r => change (value_heap s !! m = r); cell
  | |- graph_heap (upd_graph ?v _ _) !! ?v = Some _ => apply graph_upd_eq; cell
  | |- graph_heap (upd_node _ _ ?s) !! ?m = ?r => change (graph_heap s !! m = r); cell
  | |- graph_heap (upd_value _ _ ?s) !! ?m = ?r => change (graph_heap s !! m = r); cell
  | |- block_heap _ !! _ = _ => eassumption
  | |- _ => eassumption
  end.
(** One step of a program on a known store. *)
Ltac step :=
  lazymatch goal with
  | |- (mbind _ (deref_node _)) _ = _ => erewrite run_node by cell
  | |- (mbind _ (deref_value _)) _ = _ => erewrite run_value by cell
  | |- (mbind _ (deref_block _)) _ = _ => erewrite run_block by cell
  | |- (mbind _ (deref_graph _)) _ = _ => erewrite run_graph by cell
  | |- (mbind _ (update_node _ _)) _ = _ => rewrite run_update_node by live
  | |- (mbind _ (update_value _ _)) _ = _ => rewrite run_update_value by live
  | |- (mbind _ (update_graph _ _)) _ = _ => rewrite run_update_graph by live
  | |- update_node _ _ _ = _ => rewrite update_node_Ok by live
  | |- update_value _ _ _ = _ => rewrite update_value_Ok by live
  | |- update_graph _ _ _ = _ => rewrite update_graph_Ok by live
  | |- (mbind ?f (mret ?a)) ?s = ?r => change (f a s = r)
  | |- (mbind ?f (lift (Ok ?a))) ?s = ?r => change (f a s = r)
  | |- (mbind ?f (non_null (Some ?a))) ?s = ?r => change (f a s = r)
  | |- (mbind ?f get) ?s = ?r => change (f s s = r)
  | |- (mbind ?f (put ?t)) _ = ?r => change (f tt t = r)
  end; cbv beta.

(** *** What the assignments change *)
Lemma alter_frame {A B} (g : A → B) f i (m : gmap ptr A) : (∀ x, g (f x) = g x) → g <$> alter f i m = g <$> m.
Proof.
  intros H. apply map_eq. intros j. rewrite !lookup_fmap. destruct (decide (i = j)) as [<-|Hj].
  - rewrite lookup_alter_eq. destruct (m !! i); cbn; [by rewrite H|done].
  - by rewrite lookup_alter_ne.
Qed.
Lemma alter_hit {A B} (g : A → B) f h i (m : gmap ptr A) :
  (∀ x, g (f x) = h (g x)) → g <$> alter f i m = alter h i (g <$> m).
Proof.
  intros H. apply map_eq. intros j. rewrite lookup_fmap. destruct (decide (i = j)) as [<-|Hj].
  - rewrite !lookup_alter_eq, lookup_fmap. destruct (m !! i); cbn; [by rewrite H|done].
  - by rewrite !lookup_alter_ne, lookup_fmap.
Qed.

(** Settles [changes P s (upd ...)] for one assignment. *)
Ltac solve_changes :=
  let f := fresh "f" in let Hf := fresh "Hf" in
  intros f Hf; destruct f;
  try (exfalso; apply Hf; repeat constructor; fail);
  first [reflexivity | apply alter_frame; intros; reflexivity].

(** Settles [changes P s s'] for a chain of assignments. *)
Ltac chain_changes :=
  lazymatch goal with
  | |- changes _ ?s ?s => apply changes_refl
  | |- changes _ _ (upd_node _ _ ?t) => apply (changes_step _ _ t); [chain_changes|solve_changes]
  | |- changes _ _ (upd_value _ _ ?t) => apply (changes_step _ _ t); [chain_changes|solve_changes]
  | |- changes _ _ (upd_graph _ _ ?t) => apply (changes_step _ _ t); [chain_changes|solve_changes]
  | |- _ => idtac
  end.

(** ** The parts of the invariant *)

(** The graph a value belongs to. *)
Definition value_graph (s : Store) (v g : ptr) : Prop :=
  ∃ n i, f_def s !! v = Some (n, i) ∧ f_graph s !! n = Some g.

(** Input [i] of node [n] is the value [v]. *)
Definition edge (I : gmap ptr (list (option ptr))) (n : ptr) (i : nat) (v : ptr) : Prop :=
  ∃ l, I !! n = Some l ∧ l !! i = Some (Some v).
(** The lists of uses are the edges, each listed once. *)
Record mirror (E : ptr → nat → ptr → Prop) (U : gmap ptr (list Use)) : Prop := {
  mirror_iff v us n i : U !! v = Some us → (mkUse n i ∈ us ↔ E n i v);
  mirror_NoDup v us : U !! v = Some us → NoDup us;
  mirror_live n i v : E n i v → is_Some (U !! v)
}.
Record wf_uses (s : Store) : Prop := {
  uses_mirror : mirror (edge (f_inputs s)) (f_uses s);
  no_null n l : f_inputs s !! n = Some l → None ∉ l
}.

(** The outputs of a node are the values that name it, at their offsets. *)
Record wf_defs (s : Store) : Prop := {
  output_def n l i v : f_outputs s !! n = Some l → l !! i = Some v → f_def s !! v = Some (n, i);
  def_output v n i : f_def s !! v = Some (n, i) → ∃ l, f_outputs s !! n = Some l ∧ l !! i = Some v
}.

(** The blocks of a node are the blocks that name it, and its return and parameter
    nodes belong to no other block. *)
Record wf_blocks (s : Store) : Prop := {
  block_owned n l b : f_blocks s !! n = Some l → b ∈ l →
    ∃ B, block_heap s !! b = Some B ∧ owning_node_ B = Some n;
  owner_block b B n : block_heap s !! b = Some B → owning_node_ B = Some n →
    ∃ l, f_blocks s !! n = Some l ∧ b ∈ l;
  blocks_NoDup n l : f_blocks s !! n = Some l → NoDup l
}.

(** A path along a relation. *)
Fixpoint chain (R : ptr → ptr → Prop) (x : ptr) (l : list ptr) (y : ptr) : Prop :=
  match l with [] => R x y | z :: l => R x z ∧ chain R z l y end.
(** [y] follows [x]. *)
Definition linked (s : Store) (x y : ptr) : Prop :=
  f_next s !! x = Some (Some y) ∧ f_prev s !! y = Some (Some x).

(** The nodes between the two ends of a block, and all of them. *)
Definition block_nodes (B : Block) (l : list ptr) : list ptr := output_ B :: input_ B :: l.

(** [L] has the nodes of every block: they form a ring through the return node, know
    their block, and the nodes outside of rings have no links. *)
Record wf_lists (L : gmap ptr (list ptr)) (s : Store) : Prop := {
  lists_dom b : is_Some (L !! b) ↔ is_Some (block_heap s !! b);
  ring b B l : block_heap s !! b = Some B → L !! b = Some l → chain (linked s) (output_ B) l (output_ B);
  members b B l n : block_heap s !! b = Some B → L !! b = Some l →
    (n ∈ block_nodes B l ↔ f_owner s !! n = Some (Some b));
  members_NoDup b B l : block_heap s !! b = Some B → L !! b = Some l → NoDup (block_nodes B l);
  owner_live n b : f_owner s !! n = Some (Some b) → is_Some (block_heap s !! b);
  loose n : f_owner s !! n = Some None → f_next s !! n = Some None ∧ f_prev s !! n = Some None;
  loose_param b B : block_heap s !! b = Some B → f_next s !! input_ B = Some None ∧ f_prev s !! input_ B = Some None
}.

(** The positions grow along the list, from the parameter node to the return node. *)
Definition positions (s : Store) (l : list ptr) : list Z := (λ n, default 0%Z (f_pos s !! n)) <$> l.
Record wf_positions (L : gmap ptr (list ptr)) (s : Store) : Prop := {
  pos_ends b B : block_heap s !! b = Some B →
    f_pos s !! input_ B = Some kLowerBound ∧ f_pos s !! output_ B = Some kUpperBound;
  pos_sorted b B l : block_heap s !! b = Some B → L !! b = Some l →
    StronglySorted Z.lt (positions s (input_ B :: l ++ [output_ B]))
}.

(** Everything a graph lists belongs to it, and objects refer to objects of their
    own graph. *)
Record wf_graphs (s : Store) : Prop := {
  graph_live n g : f_graph s !! n = Some g → is_Some (f_root s !! g);
  in_all_nodes g A n : f_all_nodes s !! g = Some A → (n ∈ A ↔ f_graph s !! n = Some g);
  in_all_values g A v : f_all_values s !! g = Some A → (v ∈ A ↔ value_graph s v g);
  in_all_blocks g A b : f_all_blocks s !! g = Some A →
    (b ∈ A ↔ ∃ B, block_heap s !! b = Some B ∧ block_graph_ B = g);
  input_graph n l v g : f_inputs s !! n = Some l → Some v ∈ l → f_graph s !! n = Some g → value_graph s v g;
  block_graph b B : block_heap s !! b = Some B →
    f_graph s !! output_ B = Some (block_graph_ B) ∧ f_graph s !! input_ B = Some (block_graph_ B);
  owner_graph b B n : block_heap s !! b = Some B → owning_node_ B = Some n → f_graph s !! n = Some (block_graph_ B);
  member_graph n b B : f_owner s !! n = Some (Some b) → block_heap s !! b = Some B →
    f_graph s !! n = Some (block_graph_ B)
}.

(** The block of a graph is the one without a node. *)
Record wf_roots (s : Store) : Prop := {
  root_block g b : f_root s !! g = Some b →
    ∃ B, block_heap s !! b = Some B ∧ owning_node_ B = None ∧ block_graph_ B = g;
  block_root b B : block_heap s !! b = Some B → owning_node_ B = None → f_root s !! block_graph_ B = Some b
}.

(** The names of a graph and the names of its values are each other's inverse. *)
Record wf_names (s : Store) : Prop := {
  name_owner g ns x v : f_names s !! g = Some ns → ns !! x = Some v →
    x ≠ "" ∧ f_name s !! v = Some x ∧ value_graph s v g;
  owner_name g ns x v : f_names s !! g = Some ns → f_name s !! v = Some x → x ≠ "" → value_graph s v g →
    ns !! x = Some v;
  name_valid v x : f_name s !! v = Some x → isValidName x = true
}.

(** The numbers of the values of a graph differ and are below the next one. *)
Record wf_uniques (s : Store) : Prop := {
  unique_below v g k m : f_unique s !! v = Some k → value_graph s v g → f_next_unique s !! g = Some m → k < m;
  unique_inj v v' g k : f_unique s !! v = Some k → f_unique s !! v' = Some k →
    value_graph s v g → value_graph s v' g → v = v'
}.

(** Addresses in use are below the next one. *)
Record wf_fresh (s : Store) : Prop := {
  node_below n : is_Some (f_kind s !! n) → n < next_ptr s;
  value_below v : is_Some (f_def s !! v) → v < next_ptr s;
  block_below b : is_Some (block_heap s !! b) → b < next_ptr s;
  graph_below g : is_Some (f_root s !! g) → g < next_ptr s
}.

(** Going up from a block ends: at the block of a graph or at a node in no block. *)
Inductive rooted (s : Store) : ptr → Prop :=
  | rooted_top b B : block_heap s !! b = Some B → owning_node_ B = None → rooted s b
  | rooted_loose b B n : block_heap s !! b = Some B → owning_node_ B = Some n → f_owner s !! n = Some None → rooted s b
  | rooted_in b B n c : block_heap s !! b = Some B → owning_node_ B = Some n → f_owner s !! n = Some (Some c) →
      rooted s c → rooted s b.
Definition wf_nesting (s : Store) : Prop := ∀ b, is_Some (block_heap s !! b) → rooted s b.

Record wf (L : gmap ptr (list ptr)) (s : Store) : Prop := {
  w_uses : wf_uses s;
  w_defs : wf_defs s;
  w_blocks : wf_blocks s;
  w_lists : wf_lists L s;
  w_positions : wf_positions L s;
  w_graphs : wf_graphs s;
  w_roots : wf_roots s;
  w_names : wf_names s;
  w_uniques : wf_uniques s;
  w_fresh : wf_fresh s;
  w_nesting : wf_nesting s
}.

(** Block [b] lies in node [n], directly or in a node of a block of [n]. *)
Inductive inside (s : Store) (n : ptr) : ptr → Prop :=
  | inside_direct b B : block_heap s !! b = Some B → owning_node_ B = Some n → inside s n b
  | inside_deep b B m c : block_heap s !! b = Some B → owning_node_ B = Some m → f_owner s !! m = Some (Some c) →
      inside s n c → inside s n b.

(** ** Frames: a part of the invariant stays when its maps stay *)
Definition none_of (P Q : list field) : bool := bool_decide (Forall (λ f, f ∉ Q) P).

Section frames.
Context (Q : list field) (s s' : Store) (HC : changes Q s s').

Lemma kept P f : none_of P Q = true → f ∈ P → get_field f s' = get_field f s.
Proof.
  intros HP Hf. apply HC. apply bool_decide_eq_true in HP.
  eapply (Forall_elem (λ f, f ∉ Q)) in HP; [|exact Hf]. exact HP.
Qed.

(** The equations of the fields that do not change. *)
Ltac keeps HP :=
  lazymatch type of HP with none_of ?P _ = true =>
    repeat match P with context [?f] =>
      lazymatch type of f with field =>
        lazymatch goal with
        | _ : get_field f s' = get_field f s |- _ => fail
        | _ => pose proof (kept P f HP ltac:(by repeat constructor))
        end
      end
    end
  end;
  cbn [get_field] in *.
Ltac rew := repeat match goal with E : _ = _ |- _ => rewrite !E; clear E end.
Ltac frame HP H := keeps HP; destruct H; constructor; unfold value_graph, linked, positions in *; rew; assumption.

Lemma frame_value_graph v g : none_of [Def; OfGraph] Q = true → value_graph s' v g ↔ value_graph s v g.
Proof. intros HP. keeps HP. unfold value_graph. by rew. Qed.
Lemma frame_uses : none_of [Inputs; Uses] Q = true → wf_uses s → wf_uses s'.
Proof. intros HP H. frame HP H. Qed.
Lemma frame_defs : none_of [Outputs; Def] Q = true → wf_defs s → wf_defs s'.
Proof. intros HP H. frame HP H. Qed.
Lemma frame_blocks : none_of [Blocks; BlockHeap] Q = true → wf_blocks s → wf_blocks s'.
Proof. intros HP H. frame HP H. Qed.
Lemma frame_chain x l y : none_of [Next; Prev] Q = true → chain (linked s) x l y → chain (linked s') x l y.
Proof.
  intros HP. keeps HP. assert (∀ a b, linked s a b → linked s' a b) as HL by (unfold linked; rew; done).
  revert x. induction l as [|z l IH]; intros x; cbn; [apply HL|]. intros [? ?]. auto.
Qed.
Lemma frame_lists L : none_of [Owner; Next; Prev; BlockHeap] Q = true → wf_lists L s → wf_lists L s'.
Proof.
  intros HP [H1 H2 H3 H4 H5 H6 H7]. keeps HP. constructor; rew; try assumption.
  intros b B l Hb Hl. apply frame_chain; [|by eapply H2].
  apply bool_decide_eq_true in HP. apply bool_decide_eq_true. inversion HP as [|? ? _ HP']. inversion HP' as [|? ? Hn HP'']. inversion HP''. by repeat constructor.
Qed.
Lemma frame_positions L : none_of [Pos; BlockHeap] Q = true → wf_positions L s → wf_positions L s'.
Proof. intros HP H. frame HP H. Qed.
Lemma frame_graphs :
  none_of [Inputs; OfGraph; Owner; Def; AllNodes; AllValues; AllBlocks; Root; BlockHeap] Q = true → wf_graphs s → wf_graphs s'.
Proof. intros HP H. frame HP H. Qed.
Lemma frame_roots : none_of [Root; BlockHeap] Q = true → wf_roots s → wf_roots s'.
Proof. intros HP H. frame HP H. Qed.
Lemma frame_names : none_of [OfGraph; Def; Name; Names] Q = true → wf_names s → wf_names s'.
Proof. intros HP H. frame HP H. Qed.
Lemma frame_uniques : none_of [OfGraph; Def; Unique; NextUnique] Q = true → wf_uniques s → wf_uniques s'.
Proof. intros HP H. frame HP H. Qed.
Lemma frame_fresh : none_of [Kind; Def; Root; BlockHeap; Fresh] Q = true → wf_fresh s → wf_fresh s'.
Proof. intros HP H. frame HP H. Qed.
Lemma frame_rooted b : none_of [Owner; BlockHeap] Q = true → rooted s b → rooted s' b.
Proof.
  intros HP Hb. keeps HP. induction Hb; [eapply rooted_top|eapply rooted_loose|eapply rooted_in]; rew; eauto.
Qed.
Lemma frame_nesting : none_of [Owner; BlockHeap] Q = true → wf_nesting s → wf_nesting s'.
Proof.
  intros HP H b Hb. apply frame_rooted; [done|]. apply H. keeps HP. by match goal with E : block_heap s' = _ |- _ => rewrite <- E end.
Qed.
End frames.

(** Splits [wf L s'] and keeps the parts whose maps did not change. *)
Ltac frame_wf HC W :=
  constructor;
  first
    [ eapply (frame_uses _ _ _ HC); [vm_compute; reflexivity|exact (w_uses _ _ W)]
    | eapply (frame_defs _ _ _ HC); [vm_compute; reflexivity|exact (w_defs _ _ W)]
    | eapply (frame_blocks _ _ _ HC); [vm_compute; reflexivity|exact (w_blocks _ _ W)]
    | eapply (frame_lists _ _ _ HC); [vm_compute; reflexivity|exact (w_lists _ _ W)]
    | eapply (frame_positions _ _ _ HC); [vm_compute; reflexivity|exact (w_positions _ _ W)]
    | eapply (frame_graphs _ _ _ HC); [vm_compute; reflexivity|exact (w_graphs _ _ W)]
    | eapply (frame_roots _ _ _ HC); [vm_compute; reflexivity|exact (w_roots _ _ W)]
    | eapply (frame_names _ _ _ HC); [vm_compute; reflexivity|exact (w_names _ _ W)]
    | eapply (frame_uniques _ _ _ HC); [vm_compute; reflexivity|exact (w_uniques _ _ W)]
    | eapply (frame_fresh _ _ _ HC); [vm_compute; reflexivity|exact (w_fresh _ _ W)]
    | eapply (frame_nesting _ _ _ HC); [vm_compute; reflexivity|exact (w_nesting _ _ W)]
    | idtac ].
