(* ===== verification/IRUses.v ===== *)
(** * Uses and inputs

    The operations on the inputs of a node, each as a change of the vector of inputs,
    with the lists of uses kept its mirror. *)
From S2P Require Import Prelude JitGraph IRSpec.
Local Open Scope nat_scope.
#[local] Set Warnings "-clear-no-such-hyp".
Import IR.

(** ** Mirrors *)
Lemma mirror_ext E E' U : (∀ n i v, E n i v ↔ E' n i v) → mirror E U → mirror E' U.
Proof. intros HE [H1 H2 H3]. constructor; [|done|]; intros *; rewrite <- HE; eauto. Qed.

Lemma mirror_add E U n i v us :
  mirror E U → (∀ w, ¬ E n i w) → U !! v = Some us →
  mirror (λ m k w, E m k w ∨ (m = n ∧ k = i ∧ w = v)) (<[v := us ++ [mkUse n i]]> U).
Proof.
  intros [H1 H2 H3] Hno Hv. assert (mkUse n i ∉ us) as Hn by (rewrite (H1 v us n i Hv); apply Hno). constructor.
  - intros w ws m k. destruct (decide (v = w)) as [<-|Hw].
    + rewrite lookup_insert_eq. intros [= <-]. rewrite elem_of_app, list_elem_of_singleton, (H1 v us m k Hv).
      split; intros [?|?]; [by left|right; by simplify_eq|by left|right; destruct H as (-> & -> & _); done].
    + rewrite lookup_insert_ne by done. intros Hws. rewrite (H1 _ _ _ _ Hws). naive_solver.
  - intros w ws. destruct (decide (v = w)) as [<-|Hw].
    + rewrite lookup_insert_eq. intros [= <-]. apply list.NoDup_app. split; [eauto|].
      split; [|apply NoDup_singleton]. intros u Hu ->%list_elem_of_singleton. done.
    + rewrite lookup_insert_ne by done. eauto.
  - intros m k w [Hw|(-> & -> & ->)]; apply lookup_insert_is_Some'; [right; eauto|by left].
Qed.

Lemma delete_perm {A} (l : list A) k x : l !! k = Some x → l ≡ₚ x :: delete k l.
Proof. apply delete_Permutation. Qed.

Lemma mirror_del E U n i v us k :
  mirror E U → (∀ w, E n i w → w = v) → U !! v = Some us → us !! k = Some (mkUse n i) →
  mirror (λ m j w, E m j w ∧ ¬ (m = n ∧ j = i)) (<[v := delete k us]> U).
Proof.
  intros [H1 H2 H3] Hfun Hv Hk.
  assert (Hp : NoDup (mkUse n i :: delete k us)) by (rewrite <- (delete_perm _ _ _ Hk); eauto).
  inversion Hp as [|? ? Hnot Hnd]; subst.
  assert (Hin : ∀ u, u ∈ us ↔ u = mkUse n i ∨ u ∈ delete k us).
  { intros u. rewrite (delete_perm _ _ _ Hk) at 1. apply elem_of_cons. }
  constructor.
  - intros w ws m j. destruct (decide (v = w)) as [<-|Hw].
    + rewrite lookup_insert_eq. intros [= <-]. rewrite <- (H1 v us m j Hv), Hin.
      split; [|intros [[[= -> ->]|?] Hne]; [exfalso; auto|done]].
      intros Hm. split; [by right|]. by intros [-> ->].
    + rewrite lookup_insert_ne by done. intros Hws. rewrite (H1 _ _ _ _ Hws). split; [|tauto].
      intros HE. split; [done|]. intros [-> ->]. apply Hfun in HE. done.
  - intros w ws. destruct (decide (v = w)) as [<-|Hw]; [rewrite lookup_insert_eq; by intros [= <-]|].
    rewrite lookup_insert_ne by done. eauto.
  - intros m j w [Hw _]. apply lookup_insert_is_Some'. right. eauto.
Qed.

(** Lists of uses that are the images of others, in any order. *)
Definition images (φ : Use → Use) (U U' : gmap ptr (list Use)) : Prop :=
  ∀ v, option_Forall2 (λ us us', us' ≡ₚ φ <$> us) (U !! v) (U' !! v).

Lemma images_id U : images id U U.
Proof. intros v. destruct (U !! v); constructor. by rewrite list_fmap_id. Qed.
Lemma images_is_Some φ U U' v : images φ U U' → is_Some (U' !! v) ↔ is_Some (U !! v).
Proof. intros H. destruct (H v); [|done]. split; eauto. Qed.

Lemma mirror_images E U U' φ :
  mirror E U → images φ U U' →
  (∀ u u' v v', E (user u) (offset u) v → E (user u') (offset u') v' → φ u = φ u' → u = u') →
  mirror (λ n i v, ∃ u, E (user u) (offset u) v ∧ φ u = mkUse n i) U'.
Proof.
  intros [H1 H2 H3] HI Hinj. constructor.
  - intros v us' n i Hv. specialize (HI v). rewrite Hv in HI. destruct (U !! v) as [us|] eqn:Hu; inversion HI as [? ? HP|]; subst.
    rewrite HP, list_elem_of_fmap. split.
    + intros ([m j] & E' & Hin). exists (mkUse m j). split; [by eapply H1|done].
    + intros ([m j] & HE & HF). exists (mkUse m j). split; [done|]. by eapply H1.
  - intros v us' Hv. specialize (HI v). rewrite Hv in HI. destruct (U !! v) as [us|] eqn:Hu; inversion HI as [? ? HP|]; subst.
    rewrite HP. apply NoDup_fmap_2_strong; [|eauto]. intros [m j] [m' j'] Hu1 Hu2. eapply Hinj; by eapply H1.
  - intros n i v (u & HE & _). apply (images_is_Some φ U U' v HI). eauto.
Qed.

(** One step of a loop that changes the uses one by one. *)
Lemma retarget_perm (φ φ' : Use → Use) u0 us us' k :
  NoDup us → u0 ∈ us → φ u0 = u0 → (∀ u, u ≠ u0 → φ' u = φ u) → us' ≡ₚ φ <$> us → us' !! k = Some u0 →
  <[k := φ' u0]> us' ≡ₚ φ' <$> us.
Proof.
  intros Hnd Hin H0 Hφ HP Hk.
  assert (<[k := φ' u0]> us' ≡ₚ φ' u0 :: delete k us') as ->.
  { rewrite (delete_perm (<[k := φ' u0]> us') k (φ' u0)) by (apply list_lookup_insert_eq; by eapply lookup_lt_Some).
    constructor. rewrite !delete_take_drop. rewrite take_insert_ge, drop_insert_lt by lia. done. }
  apply elem_of_Permutation in Hin as [rest Hr].
  assert (Hnd' : NoDup (u0 :: rest)) by (by rewrite <- Hr). inversion Hnd' as [|? ? Hnot _]; subst.
  rewrite (delete_perm _ _ _ Hk), Hr in HP. cbn in HP. rewrite H0 in HP. apply Permutation_cons_inv in HP.
  rewrite HP, Hr. cbn. constructor. apply Permutation_refl'. apply list_fmap_ext. intros j u Hu. symmetry. apply Hφ.
  intros ->. apply Hnot. by eapply list_elem_of_lookup_2.
Qed.

Lemma fmap_agree (φ φ' : Use → Use) u0 (us : list Use) : u0 ∉ us → (∀ u, u ≠ u0 → φ' u = φ u) → φ' <$> us = φ <$> us.
Proof.
  intros Hn Hφ. apply list_fmap_ext. intros j u Hu. apply Hφ. intros ->. apply Hn. by eapply list_elem_of_lookup_2.
Qed.

(** ** Finding and dropping *)
Lemma find_use_Some u l : u ∈ l → find_use u l < length l ∧ l !! find_use u l = Some u.
Proof.
  induction l as [|x l IH]; [by intros ?%not_elem_of_nil|].
  cbn. case_decide as Hx; [subst; cbn; intros _; split; [lia|done]|].
  intros [->|Hu]%elem_of_cons; [done|]. destruct (IH Hu). split; [cbn; lia|done].
Qed.

Lemma f_inputs_Some s n l : f_inputs s !! n = Some l ↔ ∃ N, node_heap s !! n = Some N ∧ inputs_ N = l.
Proof. unfold f_inputs. rewrite lookup_fmap_Some. naive_solver. Qed.
Lemma f_uses_Some s v us : f_uses s !! v = Some us ↔ ∃ V, value_heap s !! v = Some V ∧ uses_ V = us.
Proof. unfold f_uses. rewrite lookup_fmap_Some. naive_solver. Qed.
Lemma f_graph_Some s n g : f_graph s !! n = Some g ↔ ∃ N, node_heap s !! n = Some N ∧ graph_ N = g.
Proof. unfold f_graph. rewrite lookup_fmap_Some. naive_solver. Qed.
Lemma f_def_Some s v n i : f_def s !! v = Some (n, i) ↔ ∃ V, value_heap s !! v = Some V ∧ node_ V = n ∧ offset_ V = i.
Proof. unfold f_def. rewrite lookup_fmap_Some. naive_solver. Qed.

(** The maps after an assignment to one cell. *)
Lemma f_inputs_upd s n f g l :
  f_inputs s !! n = Some l → (∀ N, inputs_ (f N) = g (inputs_ N)) → f_inputs (upd_node n f s) = <[n := g l]> (f_inputs s).
Proof. intros Hl H. unfold f_inputs, upd_node. cbn. rewrite (alter_hit inputs_ _ g) by done. symmetry. by apply insert_alter. Qed.
Lemma f_uses_upd s v f g us :
  f_uses s !! v = Some us → (∀ V, uses_ (f V) = g (uses_ V)) → f_uses (upd_value v f s) = <[v := g us]> (f_uses s).
Proof. intros Hl H. unfold f_uses, upd_value. cbn. rewrite (alter_hit uses_ _ g) by done. symmetry. by apply insert_alter. Qed.

Lemma run_find_use {A} n i v us (k : ptr * nat → M A) s :
  edge (f_inputs s) n i v → f_uses s !! v = Some us → mkUse n i ∈ us →
  (findUseForInput n i ≫= k) s = k (v, find_use (mkUse n i) us) s.
Proof.
  intros (l & Hl & Hi) Hu Hin. apply f_inputs_Some in Hl as (N & HN & <-). apply f_uses_Some in Hu as (V & HV & <-).
  apply find_use_Some in Hin as [Hlt _].
  apply run_bind. unfold findUseForInput. rewrite (run_node _ N) by done. cbn beta. unfold index. rewrite Hi.
  change (lift (Ok (Some v)) ≫= ?f) with (f (Some v)). cbn beta.
  change (non_null (Some v) ≫= ?f) with (f v). cbn beta. rewrite (run_value _ V) by done. cbn zeta.
  rewrite run_assert by (apply negb_true_iff, Nat.eqb_neq; lia). done.
Qed.

Lemma run_same_graph {A} n v g (k : unit → M A) s :
  f_graph s !! n = Some g → value_graph s v g → (assert_same_graph n v ≫= k) s = k tt s.
Proof.
  intros Hn (m & i & Hd & Hm). apply f_graph_Some in Hn as (N & HN & Hg). apply f_graph_Some in Hm as (M & HM & Hg').
  apply f_def_Some in Hd as (V & HV & <- & _). apply run_bind. unfold assert_same_graph, owningGraph. step.
  rewrite (run_bind _ _ _ g s); [|step; step; by rewrite Hg']. by rewrite Hg, Nat.eqb_refl.
Qed.

(** *** Dropping an input leaves a hole *)
Lemma dropInput_Ok n i v s :
  mirror (edge (f_inputs s)) (f_uses s) → edge (f_inputs s) n i v →
  ∃ s', dropInput n i s = (Ok v, s') ∧ changes [Inputs; Uses] s s' ∧
    f_inputs s' = alter <[i := None]> n (f_inputs s) ∧
    mirror (λ m j w, edge (f_inputs s) m j w ∧ ¬ (m = n ∧ j = i)) (f_uses s').
Proof.
  intros HM HE. destruct (mirror_live _ _ HM _ _ _ HE) as [us Hus].
  pose proof (proj2 (mirror_iff _ _ HM _ _ n i Hus) HE) as Hin. pose proof HE as (l & Hl & Hi).
  pose proof (find_use_Some _ _ Hin) as [_ Hk].
  apply f_inputs_Some in Hl as (N & HN & <-). pose proof Hus as (V & HV & HVus)%f_uses_Some.
  eexists. split; [|split; [|split]].
  - unfold dropInput. step. rewrite run_assert by (apply Nat.ltb_lt; by eapply lookup_lt_Some).
    unfold index. rewrite Hi. step. rewrite (run_find_use n i v us) by done. cbv beta. step. step. step. done.
  - chain_changes.
  - unfold f_inputs, upd_node, upd_value. cbn. by rewrite (alter_hit inputs_ _ <[i := None]>).
  - unfold f_uses, upd_node, upd_value. cbn. rewrite (alter_hit uses_ _ (delete (find_use (mkUse n i) us))) by done.
    change (uses_ <$> value_heap s) with (f_uses s). rewrite <- (insert_alter _ _ _ us) by done.
    eapply mirror_del; [done| |done|done]. intros w (l' & Hl' & Hi').
    apply f_inputs_Some in Hl' as (N' & HN' & <-). by simplify_eq.
Qed.

(** ** The loops that move uses to their new offsets *)
Section shifting.
Context (n : ptr) (F : nat → nat) (φ : nat → Use → Use).
Context (φ_other : ∀ j u, u ≠ mkUse n j → φ (S j) u = φ j u)
        (φ_before : ∀ j, φ j (mkUse n j) = mkUse n j)
        (a : nat) (φ_after : ∀ j, a ≤ j → φ (S j) (mkUse n j) = mkUse n (F j)).

Lemma shift_one U0 s j v us0 :
  a ≤ j →
  (∀ w us, U0 !! w = Some us → NoDup us) → (∀ w us, U0 !! w = Some us → mkUse n j ∈ us → w = v) →
  images (φ j) U0 (f_uses s) → edge (f_inputs s) n j v → U0 !! v = Some us0 → mkUse n j ∈ us0 →
  ∃ s', (use ← findUseForInput n j; update_use use F) s = (Ok tt, s') ∧ changes [Uses] s s' ∧
    images (φ (S j)) U0 (f_uses s').
Proof.
  intros Hj Hnd Honly HI HE H0 Hin. pose proof (HI v) as Hv. rewrite H0 in Hv. inversion Hv as [? us HP Ea Eus|]; subst.
  symmetry in Eus.
  assert (Hin' : mkUse n j ∈ us) by (rewrite HP, <- (φ_before j); by apply list_elem_of_fmap_2).
  destruct (find_use_Some _ _ Hin') as [Hlt Hk].
  pose proof Eus as (V & HV & HVus)%f_uses_Some.
  eexists. split; [|split].
  - rewrite (run_find_use n j v us) by done. unfold update_use. cbn [fst snd]. step. done.
  - chain_changes.
  - unfold f_uses, upd_value. cbn. rewrite (alter_hit uses_ _ (alter (λ u, mkUse (user u) (F (offset u))) (find_use (mkUse n j) us))) by done.
    change (uses_ <$> value_heap s) with (f_uses s). intros w. destruct (decide (v = w)) as [<-|Hw].
    + rewrite lookup_alter_eq, H0, Eus. constructor.
      replace (alter _ _ us) with (<[find_use (mkUse n j) us := φ (S j) (mkUse n j)]> us).
      { eapply retarget_perm; eauto. }
      rewrite φ_after by done. apply list_eq. intros i. rewrite list_lookup_alter. case_decide as Hi; [subst i|].
      * rewrite Hk, list_lookup_insert_eq by done. done.
      * by rewrite list_lookup_insert_ne.
    + rewrite lookup_alter_ne by done. specialize (HI w). inversion HI as [uw uw' HPw Ew Ew'|]; constructor.
      rewrite HPw. rewrite (fmap_agree (φ j) (φ (S j)) (mkUse n j)); [done| |intros; by apply φ_other].
      intros Hin2. apply Hw. symmetry. by eapply Honly.
Qed.

Lemma shift_all U0 I k j s :
  a ≤ j →
  (∀ w us, U0 !! w = Some us → NoDup us) →
  (∀ i v w us, edge I n i v → U0 !! w = Some us → mkUse n i ∈ us → w = v) →
  (∀ i, j ≤ i < j + k → ∃ v us, edge I n i v ∧ U0 !! v = Some us ∧ mkUse n i ∈ us) →
  images (φ j) U0 (f_uses s) → f_inputs s = I →
  ∃ s', foreach (seq j k) (λ i, use ← findUseForInput n i; update_use use F) s = (Ok tt, s') ∧
    changes [Uses] s s' ∧ images (φ (j + k)) U0 (f_uses s').
Proof.
  intros Haj Hnd Honly. revert j s Haj. induction k as [|k IH]; intros j s Haj Hall HI HS; cbn [seq foreach].
  { exists s. rewrite Nat.add_0_r. split_and!; [done|apply changes_refl|done]. }
  destruct (Hall j) as (v & us & HE & HU & Hin); [lia|].
  destruct (shift_one U0 s j v us) as (s1 & E1 & C1 & I1); [done|done|by eauto|done|by rewrite HS|done|done|].
  destruct (IH (S j) s1) as (s2 & E2 & C2 & I2).
  - lia.
  - intros i Hi. apply Hall. lia.
  - done.
  - rewrite <- HS. apply (C1 Inputs). by intros ?%list_elem_of_singleton.
  - exists s2. rewrite (run_bind _ _ _ _ _ E1). split; [done|]. split; [by eapply changes_step|]. by rewrite Nat.add_succ_r.
Qed.
End shifting.

(** Inputs from [i] on move up when one is inserted, inputs behind [i] move down when
    one is removed; [j] is how far the loop has come. *)
Definition shift_up (n : ptr) (i j : nat) (u : Use) : Use :=
  if decide (user u = n ∧ i ≤ offset u < j) then mkUse n (S (offset u)) else u.
Definition shift_down (n : ptr) (i j : nat) (u : Use) : Use :=
  if decide (user u = n ∧ i < offset u < j) then mkUse n (pred (offset u)) else u.

Lemma shift_up_other n i j u : u ≠ mkUse n j → shift_up n i (S j) u = shift_up n i j u.
Proof.
  destruct u as [m k]. unfold shift_up. cbn. intros Hne.
  destruct (decide (m = n)) as [->|Hm]; [|by rewrite !decide_False by tauto]. assert (k ≠ j) by congruence.
  repeat case_decide; try done; exfalso; lia.
Qed.
Lemma shift_up_before n i j : shift_up n i j (mkUse n j) = mkUse n j.
Proof. unfold shift_up. cbn. rewrite decide_False; [done|lia]. Qed.
Lemma shift_up_after n i j : i ≤ j → shift_up n i (S j) (mkUse n j) = mkUse n (S j).
Proof. intros. unfold shift_up. cbn. rewrite decide_True; [done|split; [done|lia]]. Qed.
Lemma shift_down_other n i j u : u ≠ mkUse n j → shift_down n i (S j) u = shift_down n i j u.
Proof.
  destruct u as [m k]. unfold shift_down. cbn. intros Hne.
  destruct (decide (m = n)) as [->|Hm]; [|by rewrite !decide_False by tauto]. assert (k ≠ j) by congruence.
  repeat case_decide; try done; exfalso; lia.
Qed.
Lemma shift_down_before n i j : shift_down n i j (mkUse n j) = mkUse n j.
Proof. unfold shift_down. cbn. rewrite decide_False; [done|lia]. Qed.
Lemma shift_down_after n i j : i < j → shift_down n i (S j) (mkUse n j) = mkUse n (pred j).
Proof. intros. unfold shift_down. cbn. rewrite decide_True; [done|split; [done|lia]]. Qed.

Lemma lookup_insert_at {A} (l : list A) i x k :
  i ≤ length l → (take i l ++ x :: drop i l) !! k = if decide (k < i) then l !! k else if decide (k = i) then Some x else l !! pred k.
Proof.
  intros Hi. destruct (decide (k < i)) as [?|?].
  - rewrite lookup_app_l by (rewrite length_take; lia). by apply lookup_take_lt.
  - rewrite lookup_app_r by (rewrite length_take; lia). rewrite length_take, Nat.min_l by lia. case_decide as Hk.
    + by rewrite Hk, Nat.sub_diag.
    + rewrite lookup_cons_ne_0, lookup_drop by lia. f_equal. lia.
Qed.

Lemma edge_insert I n l' m k w :
  edge (<[n := l']> I) m k w ↔ (m = n ∧ l' !! k = Some (Some w)) ∨ (m ≠ n ∧ edge I m k w).
Proof.
  unfold edge. destruct (decide (n = m)) as [<-|Hm].
  - rewrite lookup_insert_eq. naive_solver.
  - rewrite lookup_insert_ne by done. naive_solver.
Qed.
Lemma edge_eq I n l k w : I !! n = Some l → edge I n k w ↔ l !! k = Some (Some w).
Proof. unfold edge. naive_solver. Qed.
Lemma edge_fun I n k v w : edge I n k v → edge I n k w → v = w.
Proof. unfold edge. naive_solver. Qed.
Lemma edge_use I U n k v us w : mirror (edge I) U → edge I n k v → U !! w = Some us → mkUse n k ∈ us → w = v.
Proof. intros HM HE Hw Hin. apply (mirror_iff _ _ HM _ _ _ _ Hw) in Hin. by eapply edge_fun. Qed.

(** ** The operations on inputs *)
Lemma addInput_Ok n l v g s :
  mirror (edge (f_inputs s)) (f_uses s) → f_inputs s !! n = Some l → f_graph s !! n = Some g → value_graph s v g →
  ∃ s', addInput n v s = (Ok v, s') ∧ changes [Inputs; Uses] s s' ∧ f_inputs s' = <[n := l ++ [Some v]]> (f_inputs s) ∧
    mirror (edge (f_inputs s')) (f_uses s').
Proof.
  intros HM Hl Hg Hv. pose proof Hv as (m & j & Hd & _). apply f_def_Some in Hd as (V & HV & _).
  pose proof Hl as (N & HN & HNl)%f_inputs_Some.
  set (s1 := upd_node n (set_schema None) s).
  assert (HI1 : f_inputs s1 = f_inputs s) by (by apply alter_frame).
  set (s2 := upd_value v (λ V, set_uses (uses_ V ++ [mkUse n (length l)]) V) s1).
  assert (HI : f_inputs (upd_node n (λ N, set_inputs (inputs_ N ++ [Some v]) N) s2) = <[n := l ++ [Some v]]> (f_inputs s)).
  { rewrite (f_inputs_upd _ _ _ (λ l, l ++ [Some v]) l); try change (f_inputs s2) with (f_inputs s1); by rewrite ?HI1. }
  eexists. split; [|split; [|split; [exact HI|]]].
  - unfold addInput. rewrite (run_same_graph n v g) by done. step. step. cbn [set_schema inputs_]. rewrite HNl. step. step. done.
  - unfold s2, s1. chain_changes.
  - rewrite HI. change (f_uses _) with (f_uses s2). unfold s2.
    rewrite (f_uses_upd _ _ _ (λ us, us ++ [mkUse n (length l)]) (uses_ V)) by (done || (apply f_uses_Some; eauto)).
    eapply mirror_ext; [|eapply (mirror_add _ _ n (length l) v)]; [|exact HM| |apply f_uses_Some; eauto]; cbn.
    + intros m' k w. rewrite edge_insert. destruct (decide (m' = n)) as [->|Hm'].
      * rewrite (edge_eq _ _ _ _ _ Hl), lookup_app_Some, list_lookup_singleton_Some. split.
        -- intros [?|(_ & -> & ->)]; [by left; split; [|left]|]. left. split; [done|]. right. split; [lia|]. split; [lia|done].
        -- intros [[_ [?|(? & ? & ?)]]|[? _]]; [by left|right; simplify_eq; split_and!; [done|lia|done]|done].
      * naive_solver.
    + intros w. rewrite (edge_eq _ _ _ _ _ Hl). intros ?%lookup_lt_Some. lia.
Qed.

Lemma shift_up_edge I n l i m k w :
  I !! n = Some l →
  (∃ u, edge I (user u) (offset u) w ∧ shift_up n i (length l) u = mkUse m k) ↔
  (m ≠ n ∧ edge I m k w) ∨ (m = n ∧ ((k < i ∧ l !! k = Some (Some w)) ∨ (i < k ∧ l !! pred k = Some (Some w)))).
Proof.
  intros Hl. split.
  - intros ([m' k'] & HE & Hs). unfold shift_up in Hs. cbn in *. case_decide as Hd.
    + destruct Hd as [-> Hk]. injection Hs as <- <-. right. split; [done|]. right. split; [lia|]. by apply (edge_eq _ _ _ _ _ Hl).
    + injection Hs as <- <-. destruct (decide (m' = n)) as [->|]; [|by left]. right. split; [done|]. left.
      pose proof HE as Hw%(edge_eq _ _ _ _ _ Hl). pose proof (lookup_lt_Some _ _ _ Hw).
      split; [|done]. destruct (decide (k' < i)); [done|]. exfalso. apply Hd. split; [done|lia].
  - intros [[Hm HE]|[-> [[Hk Hw]|[Hk Hw]]]].
    + exists (mkUse m k). split; [done|]. unfold shift_up. cbn. by rewrite decide_False by tauto.
    + exists (mkUse n k). split; [by exists l|]. unfold shift_up. cbn. by rewrite decide_False by lia.
    + exists (mkUse n (pred k)). split; [by exists l|]. unfold shift_up. cbn. pose proof (lookup_lt_Some _ _ _ Hw).
      rewrite decide_True by (split; [done|lia]). f_equal. lia.
Qed.

Lemma shift_up_inj I n l i u u' w w' :
  I !! n = Some l → edge I (user u) (offset u) w → edge I (user u') (offset u') w' →
  shift_up n i (length l) u = shift_up n i (length l) u' → u = u'.
Proof.
  destruct u as [m1 k1], u' as [m2 k2]. cbn. intros Hl (l1 & Hl1 & Hk1%lookup_lt_Some) (l2 & Hl2 & Hk2%lookup_lt_Some).
  unfold shift_up. cbn. intros Heq. repeat case_decide; destruct_and?; simplify_eq; try done; try (f_equal; lia); lia.
Qed.

Lemma shift_down_edge I n l i m k w :
  I !! n = Some l → l !! i = Some None →
  (∃ u, edge I (user u) (offset u) w ∧ shift_down n i (length l) u = mkUse m k) ↔ edge (<[n := delete i l]> I) m k w.
Proof.
  intros Hl Hi. rewrite edge_insert, list_lookup_delete. split.
  - intros ([m' k'] & HE & Hs). unfold shift_down in Hs. cbn in *. case_decide as Hd.
    + destruct Hd as [-> Hk]. injection Hs as <- <-. left. split; [done|]. rewrite decide_False by lia.
      replace (S (pred k')) with k' by lia. by apply (edge_eq _ _ _ _ _ Hl).
    + injection Hs as <- <-. destruct (decide (m' = n)) as [->|]; [|by right]. left. split; [done|].
      pose proof HE as Hw%(edge_eq _ _ _ _ _ Hl). pose proof (lookup_lt_Some _ _ _ Hw).
      case_decide; [done|]. exfalso. apply Hd. split; [done|]. split; [|done]. destruct (decide (k' = i)); [|lia]. by simplify_eq.
  - intros [[-> Hw]|[Hm HE]].
    + case_decide as Hk.
      * exists (mkUse n k). split; [by exists l|]. unfold shift_down. cbn. by rewrite decide_False by lia.
      * exists (mkUse n (S k)). split; [by exists l|]. unfold shift_down. cbn. pose proof (lookup_lt_Some _ _ _ Hw).
        by rewrite decide_True by (split; [done|lia]).
    + exists (mkUse m k). split; [done|]. unfold shift_down. cbn. by rewrite decide_False by tauto.
Qed.

Lemma shift_down_inj I n l i u u' w w' :
  I !! n = Some l → l !! i = Some None → edge I (user u) (offset u) w → edge I (user u') (offset u') w' →
  shift_down n i (length l) u = shift_down n i (length l) u' → u = u'.
Proof.
  destruct u as [m1 k1], u' as [m2 k2]. cbn. intros Hl Hi (l1 & Hl1 & Hk1) (l2 & Hl2 & Hk2).
  pose proof (lookup_lt_Some _ _ _ Hk1). pose proof (lookup_lt_Some _ _ _ Hk2).
  assert (m1 = n → k1 ≠ i) as H1 by (intros -> ->; by simplify_eq).
  assert (m2 = n → k2 ≠ i) as H2 by (intros -> ->; by simplify_eq).
  unfold shift_down. cbn. intros Heq.
  repeat case_decide; destruct_and?; subst; simplify_eq; try done; try specialize (H1 eq_refl); try specialize (H2 eq_refl);
    try (f_equal; lia); exfalso; try lia.
  all: match goal with H : ¬ (_ ∧ _) |- _ => apply H; split; [done|lia] end.
Qed.

Lemma images_start φ U : (∀ u, φ u = u) → images φ U U.
Proof.
  intros H w. destruct (U !! w); constructor. rewrite (list_fmap_ext _ id); [by rewrite list_fmap_id|]. intros; apply H.
Qed.

(** The inputs of a well-formed node, one by one. *)
Lemma full_edge s n l k :
  f_inputs s !! n = Some l → None ∉ l → k < length l → ∃ w, edge (f_inputs s) n k w.
Proof.
  intros Hl Hn Hk. destruct (lookup_lt_is_Some_2 _ _ Hk) as [[w|] Hw]; [exists w; by exists l|].
  exfalso. apply Hn. by eapply list_elem_of_lookup_2.
Qed.
Lemma edge_listed I U n k w : mirror (edge I) U → edge I n k w → ∃ us, U !! w = Some us ∧ mkUse n k ∈ us.
Proof.
  intros HM HE. destruct (mirror_live _ _ HM _ _ _ HE) as [us Hus]. exists us. split; [done|].
  by apply (mirror_iff _ _ HM _ _ _ _ Hus).
Qed.

Lemma value_graph_uses s v g : value_graph s v g → is_Some (f_uses s !! v).
Proof. intros (n & i & (V & HV & _)%f_def_Some & _). exists (uses_ V). apply f_uses_Some. eauto. Qed.

Lemma insertInput_Ok n i l v g s :
  mirror (edge (f_inputs s)) (f_uses s) → f_inputs s !! n = Some l → None ∉ l → i ≤ length l →
  f_graph s !! n = Some g → value_graph s v g →
  ∃ s', insertInput n i v s = (Ok v, s') ∧ changes [Inputs; Uses] s s' ∧
    f_inputs s' = <[n := take i l ++ Some v :: drop i l]> (f_inputs s) ∧ mirror (edge (f_inputs s')) (f_uses s').
Proof.
  intros HM Hl Hnn Hi Hg Hv. pose proof Hl as (N & HN & HNl)%f_inputs_Some.
  set (s1 := upd_node n (set_schema None) s).
  assert (HI1 : f_inputs s1 = f_inputs s) by (by apply alter_frame).
  destruct (shift_all n S (shift_up n i) (shift_up_other n i) (shift_up_before n i) i (shift_up_after n i)
    (f_uses s) (f_inputs s) (length l - i) i s1) as (s2 & E2 & C2 & I2); [done| | | | |done|].
  - intros w us. apply (mirror_NoDup _ _ HM).
  - intros k v' w us HE HU Hin. by eapply edge_use.
  - intros k Hk. destruct (full_edge s n l k) as [w Hw]; [done|done|lia|].
    destruct (edge_listed _ _ _ _ _ HM Hw) as (us & ? & ?). eauto.
  - apply images_start. intros [m k]. unfold shift_up. cbn. by rewrite decide_False by lia.
  - replace (i + (length l - i)) with (length l) in I2 by lia.
    assert (HI2 : f_inputs s2 = f_inputs s) by (rewrite <- HI1; apply (C2 Inputs); by intros ?%list_elem_of_singleton).
    pose proof (mirror_images _ _ _ _ HM I2 (λ u u' w w', shift_up_inj _ _ _ i u u' w w' Hl)) as HM2.
    destruct (proj2 (images_is_Some _ _ _ v I2) (value_graph_uses _ _ _ Hv)) as [us2 Hus2].
    pose proof Hus2 as (V2 & HV2 & HVu)%f_uses_Some.
    rewrite <- HI2 in Hl. pose proof Hl as (N2 & HN2 & HNl2)%f_inputs_Some. rewrite HI2 in Hl.
    set (s3 := upd_node n (λ N, set_inputs (take i (inputs_ N) ++ Some v :: drop i (inputs_ N)) N) s2).
    assert (HI3 : f_inputs s3 = <[n := take i l ++ Some v :: drop i l]> (f_inputs s)).
    { unfold s3. rewrite (f_inputs_upd _ _ _ (λ l, take i l ++ Some v :: drop i l) l); by rewrite ?HI2. }
    exists (upd_value v (λ V, set_uses (uses_ V ++ [mkUse n i]) V) s3). split; [|split; [|split; [exact HI3|]]].
    + unfold insertInput. rewrite (run_same_graph n v g) by done. step. step. fold s1. cbn [set_schema inputs_]. rewrite HNl.
      rewrite (run_bind _ _ _ _ _ E2). destruct (Nat.leb_spec i (length l)); [|lia]. step. step. step. done.
    + unfold s3. chain_changes. eapply changes_step; [|eapply changes_weaken; [exact C2|set_solver]]. unfold s1. chain_changes.
    + change (f_inputs (upd_value _ _ s3)) with (f_inputs s3). rewrite HI3.
      rewrite (f_uses_upd _ _ _ (λ us, us ++ [mkUse n i]) us2) by done. change (f_uses s3) with (f_uses s2).
      eapply mirror_ext; [|eapply (mirror_add _ _ n i v us2 HM2); [|done]]; cbn.
      * intros m k w. rewrite (shift_up_edge _ _ _ _ _ _ _ Hl), edge_insert, lookup_insert_at by done.
        destruct (decide (m = n)) as [->|]; [|naive_solver].
        destruct (decide (k < i)); [|destruct (decide (k = i)) as [->|]].
        -- naive_solver lia.
        -- split; [intros [[[]|(_ & [[]|[]])]|(_ & _ & ->)]; try done; try lia; by left|].
           intros [[_ [= ->]]|[]]; [by right|done].
        -- assert (i < k) by lia. naive_solver lia.
      * intros w. rewrite (shift_up_edge _ _ _ _ _ _ _ Hl). naive_solver lia.
Qed.

Lemma edge_hole I n l i m k w :
  I !! n = Some l → edge (<[n := <[i := None]> l]> I) m k w ↔ edge I m k w ∧ ¬ (m = n ∧ k = i).
Proof.
  intros Hl. rewrite edge_insert. destruct (decide (m = n)) as [->|]; [|naive_solver].
  rewrite (edge_eq _ _ _ _ _ Hl). split.
  - intros [[_ H]|[[] _]]; [|done]. destruct (decide (k = i)) as [->|]; [|rewrite list_lookup_insert_ne in H by done; naive_solver].
    destruct (decide (i < length l)); [by rewrite list_lookup_insert_eq in H|]. by rewrite list_insert_ge in H by lia; apply lookup_lt_Some in H.
  - intros [H Hne]. left. split; [done|]. rewrite list_lookup_insert_ne; naive_solver.
Qed.

(** The form in which the other operations use it: the mirror of the inputs with the hole. *)
Lemma drop_hole n i v l s :
  mirror (edge (f_inputs s)) (f_uses s) → f_inputs s !! n = Some l → l !! i = Some (Some v) →
  ∃ s', dropInput n i s = (Ok v, s') ∧ changes [Inputs; Uses] s s' ∧
    f_inputs s' = <[n := <[i := None]> l]> (f_inputs s) ∧ mirror (edge (f_inputs s')) (f_uses s').
Proof.
  intros HM Hl Hi. destruct (dropInput_Ok n i v s HM) as (s' & E & C & HI & HM'); [by exists l|].
  assert (HI' : f_inputs s' = <[n := <[i := None]> l]> (f_inputs s)) by (rewrite HI; symmetry; by apply (insert_alter _ _ <[i := None]>)).
  exists s'. split_and!; [done..|]. rewrite HI'. eapply mirror_ext; [|exact HM']. intros m k w. by rewrite (edge_hole _ _ _ _ _ _ _ Hl).
Qed.

Lemma removeInput_Ok n i l s :
  mirror (edge (f_inputs s)) (f_uses s) → f_inputs s !! n = Some l → None ∉ l → i < length l →
  ∃ s', removeInput n i s = (Ok tt, s') ∧ changes [Inputs; Uses] s s' ∧
    f_inputs s' = <[n := delete i l]> (f_inputs s) ∧ mirror (edge (f_inputs s')) (f_uses s').
Proof.
  intros HM Hl Hnn Hi. destruct (full_edge s n l i) as [v (l' & Hl' & Hv)]; [done..|]. simplify_eq.
  pose proof Hl as (N & HN & HNl)%f_inputs_Some. set (s1 := upd_node n (set_schema None) s).
  assert (HI1 : f_inputs s1 = f_inputs s) by (by apply alter_frame).
  destruct (drop_hole n i v l s1) as (s2 & E2 & C2 & HI2 & HM2); [by rewrite HI1|by rewrite HI1|done|].
  assert (Hl2 : f_inputs s2 !! n = Some (<[i := None]> l)) by (by rewrite HI2, lookup_insert_eq).
  assert (Hlen : length (<[i := None]> l) = length l) by (by rewrite length_insert).
  assert (Hhole : <[i := None]> l !! i = Some None) by (by apply list_lookup_insert_eq).
  destruct (shift_all n pred (shift_down n i) (shift_down_other n i) (shift_down_before n i) (S i) (shift_down_after n i)
    (f_uses s2) (f_inputs s2) (length l - S i) (S i) s2) as (s3 & E3 & C3 & I3); [done| | | | |done|].
  - intros w us. apply (mirror_NoDup _ _ HM2).
  - intros k v' w us HE HU Hin. by eapply edge_use.
  - intros k Hk. destruct (lookup_lt_is_Some_2 l k) as [[w|] Hw]; [lia| |exfalso; apply Hnn; by eapply list_elem_of_lookup_2].
    assert (HE : edge (f_inputs s2) n k w) by (exists (<[i := None]> l); split; [done|rewrite list_lookup_insert_ne by lia; done]).
    destruct (edge_listed _ _ _ _ _ HM2 HE) as (us & ? & ?). eauto.
  - apply images_start. intros [m k]. unfold shift_down. cbn. by rewrite decide_False by lia.
  - replace (S i + (length l - S i)) with (length (<[i := None]> l)) in I3 by lia.
    assert (HI3 : f_inputs s3 = f_inputs s2) by (apply (C3 Inputs); by intros ?%list_elem_of_singleton).
    pose proof (mirror_images _ _ _ _ HM2 I3 (λ u u' w w', shift_down_inj _ _ _ i u u' w w' Hl2 Hhole)) as HM3.
    rewrite <- HI3 in Hl2. pose proof Hl2 as (N3 & HN3 & HNl3)%f_inputs_Some.
    assert (HI4 : f_inputs (upd_node n (λ N, set_inputs (delete i (inputs_ N)) N) s3) = <[n := delete i l]> (f_inputs s)).
    { rewrite (f_inputs_upd _ _ _ (delete i) _ Hl2) by done. rewrite HI3, HI2, HI1, insert_insert_eq. f_equal.
      apply list_eq. intros k. rewrite !list_lookup_delete. case_decide; rewrite list_lookup_insert_ne by lia; done. }
    eexists. split; [|split; [|split; [exact HI4|]]].
    + unfold removeInput. step. fold s1. rewrite (run_bind _ _ _ _ _ E2).
      pose proof Hl2 as H2. rewrite HI3 in H2. apply f_inputs_Some in H2 as (N2 & HN2 & HNl2). step. rewrite HNl2, Hlen.
      rewrite (run_bind _ _ _ _ _ E3). step. done.
    + chain_changes. eapply changes_step; [|eapply changes_weaken; [exact C3|set_solver]].
      eapply changes_step; [|exact C2]. unfold s1. chain_changes.
    + rewrite (f_inputs_upd _ _ _ (delete i) _ Hl2) by done. change (f_uses (upd_node _ _ s3)) with (f_uses s3).
      eapply mirror_ext; [|exact HM3]. intros m k w. rewrite HI3 in Hl2 |- *. by apply shift_down_edge.
Qed.

Lemma kept_graph s s' P v g : changes P s s' → none_of [Def; OfGraph] P = true → value_graph s v g → value_graph s' v g.
Proof. intros HC HP. by rewrite (frame_value_graph P s s' HC). Qed.

Lemma None_insert {A} (l : list (option A)) i x : None ∉ l → None ∉ <[i := Some x]> l.
Proof. intros Hn Hin. apply list_elem_of_lookup in Hin as [k Hk]. apply Hn. apply list_elem_of_lookup.
  apply list_lookup_insert_Some in Hk as [(_ & [=] & _)|[_ Hk]]. eauto. Qed.

Lemma fill_hole I n l i v m k w :
  I !! n = Some (<[i := None]> l) → i < length l →
  edge (<[n := <[i := Some v]> l]> I) m k w ↔ edge I m k w ∨ (m = n ∧ k = i ∧ w = v).
Proof.
  intros Hl Hi. rewrite edge_insert. destruct (decide (m = n)) as [->|]; [|naive_solver].
  rewrite (edge_eq _ _ _ _ _ Hl). destruct (decide (k = i)) as [->|Hk].
  - rewrite !list_lookup_insert_eq by done. naive_solver.
  - rewrite !list_lookup_insert_ne by done. naive_solver.
Qed.

Lemma replaceInput_Ok n i l old v g s :
  mirror (edge (f_inputs s)) (f_uses s) → f_inputs s !! n = Some l → l !! i = Some (Some old) →
  f_graph s !! n = Some g → value_graph s v g →
  ∃ s', replaceInput n i v s = (Ok old, s') ∧ changes [Inputs; Uses] s s' ∧
    f_inputs s' = <[n := <[i := Some v]> l]> (f_inputs s) ∧ mirror (edge (f_inputs s')) (f_uses s').
Proof.
  intros HM Hl Hi Hg Hv. pose proof Hl as (N & HN & HNl)%f_inputs_Some. pose proof (lookup_lt_Some _ _ _ Hi) as Hlt.
  set (s1 := upd_node n (set_schema None) s).
  assert (HI1 : f_inputs s1 = f_inputs s) by (by apply alter_frame).
  destruct (drop_hole n i old l s1) as (s2 & E2 & C2 & HI2 & HM2); [by rewrite HI1|by rewrite HI1|done|].
  assert (C12 : changes [Inputs; Uses] s s2) by (eapply changes_step; [|exact C2]; unfold s1; chain_changes).
  assert (Hl2 : f_inputs s2 !! n = Some (<[i := None]> l)) by (by rewrite HI2, lookup_insert_eq).
  pose proof Hl2 as (N2 & HN2 & HNl2)%f_inputs_Some.
  destruct (value_graph_uses s2 v g) as [us2 Hus2]; [by eapply kept_graph|].
  pose proof Hus2 as (V2 & HV2 & HVu)%f_uses_Some.
  set (s3 := upd_node n (λ N, set_inputs (<[i := Some v]> (inputs_ N)) N) s2).
  assert (HI3 : f_inputs s3 = <[n := <[i := Some v]> l]> (f_inputs s)).
  { unfold s3. rewrite (f_inputs_upd _ _ _ <[i := Some v]> _ Hl2) by done.
    by rewrite HI2, HI1, insert_insert_eq, list_insert_insert_eq. }
  exists (upd_value v (λ V, set_uses (uses_ V ++ [mkUse n i]) V) s3). split; [|split; [|split; [exact HI3|]]].
  - unfold replaceInput. rewrite (run_same_graph n v g) by done. step. fold s1. rewrite (run_bind _ _ _ _ _ E2). step. step. done.
  - unfold s3. chain_changes. done.
  - change (f_inputs (upd_value _ _ s3)) with (f_inputs s3). rewrite HI3.
    rewrite (f_uses_upd _ _ _ (λ us, us ++ [mkUse n i]) us2) by done. change (f_uses s3) with (f_uses s2).
    eapply mirror_ext; [|eapply (mirror_add _ _ n i v us2 HM2); [|done]]; cbn.
    + intros m k w. rewrite <- (fill_hole (f_inputs s2) n l i v) by done. by rewrite HI2, HI1, insert_insert_eq.
    + intros w. rewrite (edge_eq _ _ _ _ _ Hl2), list_lookup_insert_eq by done. done.
Qed.

(** One value in the place of another. *)
Definition subst_value (from to : ptr) (x : option ptr) : option ptr := if decide (x = Some from) then Some to else x.

Lemma replaceInputWith_Ok n l from to g s :
  mirror (edge (f_inputs s)) (f_uses s) → f_inputs s !! n = Some l →
  f_graph s !! n = Some g → value_graph s from g → value_graph s to g →
  ∃ s', replaceInputWith n from to s = (Ok tt, s') ∧ changes [Inputs; Uses] s s' ∧
    f_inputs s' = <[n := subst_value from to <$> l]> (f_inputs s) ∧
    mirror (edge (f_inputs s')) (f_uses s').
Proof.
  intros HM Hl Hg Hf Ht. pose proof Hl as (N & HN & HNl)%f_inputs_Some. set (F := subst_value from to).
  set (s1 := upd_node n (set_schema None) s).
  assert (HI1 : f_inputs s1 = f_inputs s) by (by apply alter_frame).
  destruct (foreach_seq (λ j s2, changes [Inputs; Uses] s s2 ∧ f_inputs s2 = <[n := (F <$> take j l) ++ drop j l]> (f_inputs s) ∧
      mirror (edge (f_inputs s2)) (f_uses s2))
    (λ i, N ← deref_node n; input ← lift (index (inputs_ N) i);
      if decide (input = Some from) then replaceInput n i to;; mret tt else mret tt) 0 (length l) s1) as (s3 & E3 & C3 & HI3 & HM3).
  - split_and!; [unfold s1; chain_changes|rewrite HI1; cbn; by rewrite insert_id|by rewrite HI1].
  - intros j s2 [_ Hj] (C2 & HI2 & HM2). cbn in Hj. destruct (lookup_lt_is_Some_2 l j Hj) as [x Hx].
    assert (Hl2 : f_inputs s2 !! n = Some ((F <$> take j l) ++ drop j l)) by (by rewrite HI2, lookup_insert_eq).
    pose proof Hl2 as (N2 & HN2 & HNl2)%f_inputs_Some.
    assert (Hlen : length (F <$> take j l) = j) by (rewrite length_fmap, length_take; lia).
    assert (Hx2 : ((F <$> take j l) ++ drop j l) !! j = Some x).
    { rewrite lookup_app_r, Hlen, Nat.sub_diag, lookup_drop, Nat.add_0_r by lia. done. }
    assert (Hmid : (F <$> take (S j) l) ++ drop (S j) l = <[j := F x]> ((F <$> take j l) ++ drop j l)).
    { rewrite (take_S_r _ _ _ Hx), fmap_app, (drop_S _ _ _ Hx). rewrite insert_app_r_alt, Hlen, Nat.sub_diag by lia.
      cbn. by rewrite <- app_assoc. }
    assert (run_input : ∀ k, ((N ← deref_node n; input ← lift (index (inputs_ N) j); k input) : M unit) s2 = k x s2).
    { intros k. step. unfold index. by rewrite HNl2, Hx2. }
    rewrite run_input. destruct (decide (x = Some from)) as [->|Hne].
    + destruct (replaceInput_Ok n j _ from to g s2 HM2 Hl2 Hx2) as (s4 & E4 & C4 & HI4 & HM4).
      * assert (f_graph s2 = f_graph s) as -> by (apply (C2 OfGraph); set_solver). done.
      * by eapply kept_graph.
      * exists s4. rewrite (run_bind _ _ _ _ _ E4). split_and!; [done|by eapply changes_step| |done].
        rewrite HI4, HI2, insert_insert_eq, Hmid. assert (F (Some from) = Some to) as -> by (unfold F, subst_value; by rewrite decide_True). done.
    + assert (F x = x) as HF by (unfold F, subst_value; by rewrite decide_False).
      exists s2. split_and!; [done|done| |done]. rewrite HI2, Hmid, HF, list_insert_id; done.
  - exists s3. split_and!; [|done| |done].
    + unfold replaceInputWith. rewrite (run_same_graph n from g), (run_same_graph n to g) by done. step. step. fold s1.
      cbn [set_schema inputs_]. rewrite HNl. done.
    + rewrite HI3. cbn. rewrite take_ge, drop_ge, app_nil_r by lia. done.
Qed.

Lemma removeAllInputs_Ok n l s :
  mirror (edge (f_inputs s)) (f_uses s) → f_inputs s !! n = Some l → None ∉ l →
  ∃ s', removeAllInputs n s = (Ok tt, s') ∧ changes [Inputs; Uses] s s' ∧
    f_inputs s' = <[n := []]> (f_inputs s) ∧ mirror (edge (f_inputs s')) (f_uses s').
Proof.
  intros HM Hl Hnn. pose proof Hl as (N & HN & HNl)%f_inputs_Some. set (s1 := upd_node n (set_schema None) s).
  assert (HI1 : f_inputs s1 = f_inputs s) by (by apply alter_frame).
  destruct (foreach_seq (λ j s2, changes [Inputs; Uses] s s2 ∧ f_inputs s2 = <[n := replicate j None ++ drop j l]> (f_inputs s) ∧
      mirror (edge (f_inputs s2)) (f_uses s2)) (λ i, dropInput n i;; mret tt) 0 (length l) s1) as (s3 & E3 & C3 & HI3 & HM3).
  - split_and!; [unfold s1; chain_changes|rewrite HI1; cbn; by rewrite insert_id|by rewrite HI1].
  - intros j s2 [_ Hj] (C2 & HI2 & HM2). cbn in Hj.
    destruct (lookup_lt_is_Some_2 l j Hj) as [[v|] Hx]; [|exfalso; apply Hnn; by eapply list_elem_of_lookup_2].
    assert (Hl2 : f_inputs s2 !! n = Some (replicate j None ++ drop j l)) by (by rewrite HI2, lookup_insert_eq).
    destruct (drop_hole n j v _ s2 HM2 Hl2) as (s4 & E4 & C4 & HI4 & HM4).
    { rewrite lookup_app_r, length_replicate, Nat.sub_diag, lookup_drop, Nat.add_0_r by (rewrite length_replicate; lia). done. }
    exists s4. rewrite (run_bind _ _ _ _ _ E4). split_and!; [done|by eapply changes_step| |done].
    rewrite HI4, HI2, insert_insert_eq. f_equal. rewrite insert_app_r_alt, length_replicate, Nat.sub_diag by (rewrite length_replicate; lia).
    rewrite (drop_S _ _ _ Hx). cbn [list_insert insert]. rewrite replicate_S_end, <- app_assoc. done.
  - assert (Hl3 : f_inputs s3 !! n = Some (replicate (length l) None)).
    { rewrite HI3. cbn. by rewrite drop_ge, app_nil_r, lookup_insert_eq by lia. }
    pose proof Hl3 as (N3 & HN3 & HNl3)%f_inputs_Some.
    assert (HI4 : f_inputs (upd_node n (set_inputs []) s3) = <[n := []]> (f_inputs s)).
    { rewrite (f_inputs_upd _ _ _ (λ _, []) _ Hl3) by done. by rewrite HI3, insert_insert_eq. }
    eexists. split; [|split; [|split; [exact HI4|]]].
    + unfold removeAllInputs. step. step. fold s1. cbn [set_schema inputs_]. rewrite HNl.
      rewrite (run_bind _ _ _ _ _ E3). step. done.
    + chain_changes. done.
    + rewrite HI4. change (f_uses (upd_node _ _ s3)) with (f_uses s3). eapply mirror_ext; [|exact HM3].
      intros m k w. rewrite HI3. cbn. rewrite drop_ge, app_nil_r, !edge_insert by lia. split; [|naive_solver].
      intros [[_ H]|?]; [|by right]. by apply lookup_replicate in H as [[=] _].
Qed.

(** ** Replacing all uses *)
Lemma run_owningGraph {A} v g (k : ptr → M A) s : value_graph s v g → (owningGraph v ≫= k) s = k g s.
Proof.
  intros (m & i & Hd & Hm). apply f_graph_Some in Hm as (N & HN & Hg). apply f_def_Some in Hd as (V & HV & <- & _).
  apply run_bind. unfold owningGraph. step. step. by rewrite Hg.
Qed.

Lemma replaceFirstUseWith_Ok v w u rest g s :
  f_uses s !! v = Some (u :: rest) → edge (f_inputs s) (user u) (offset u) v → value_graph s v g → value_graph s w g →
  ∃ s', replaceFirstUseWith v w s = (Ok tt, s') ∧ changes [Inputs; Uses] s s' ∧
    f_inputs s' = alter <[offset u := Some w]> (user u) (f_inputs s) ∧
    f_uses s' = alter tail v (alter (λ us, us ++ [u]) w (f_uses s)).
Proof.
  intros Hv (l & Hl & Hi) Hgv Hgw. pose proof Hv as (V & HV & HVu)%f_uses_Some. pose proof Hl as (N & HN & HNl)%f_inputs_Some.
  destruct (value_graph_uses _ _ _ Hgw) as [us Hw]. pose proof Hw as (W & HW & HWu)%f_uses_Some.
  eexists. split; [|split; [|split]].
  - unfold replaceFirstUseWith. rewrite (run_owningGraph v g), (run_owningGraph w g) by done. rewrite Nat.eqb_refl.
    rewrite run_assert by done. step. rewrite HVu. rewrite (run_index _ _ u) by done. step. rewrite HNl.
    rewrite (run_index _ _ _ _ _ Hi). step. step. step. done.
  - chain_changes.
  - unfold f_inputs, upd_node, upd_value. cbn. apply map_eq. intros n. rewrite lookup_fmap. destruct (decide (n = user u)) as [->|Hn].
    + rewrite !lookup_alter_eq, lookup_fmap, HN. cbn. by rewrite HNl.
    + by rewrite !lookup_alter_ne, lookup_fmap by done.
  - unfold f_uses, upd_node, upd_value. cbn. by rewrite (alter_hit uses_ _ tail), (alter_hit uses_ _ (λ us, us ++ [u])) by done.
Qed.

(** The inputs after the uses in [ds] have been moved to [w]. *)
Definition moved (ds : list Use) (w n : ptr) : list (option ptr) → list (option ptr) :=
  imap (λ i x, if decide (mkUse n i ∈ ds) then Some w else x).

Lemma replaceAll_loop v w g ws ds rest s s0 :
  v ≠ w → f_uses s !! v = Some rest → f_uses s !! w = Some (ws ++ ds) → value_graph s v g → value_graph s w g →
  (∀ n, f_inputs s !! n = moved ds w n <$> f_inputs s0 !! n) → NoDup (ds ++ rest) →
  (∀ u, u ∈ rest → edge (f_inputs s0) (user u) (offset u) v) →
  ∃ s', Value_replaceAllUsesWith_fuel (S (length rest)) v w s = (Ok tt, s') ∧ changes [Inputs; Uses] s s' ∧
    f_uses s' = <[v := []]> (<[w := ws ++ ds ++ rest]> (f_uses s)) ∧
    (∀ n, f_inputs s' !! n = moved (ds ++ rest) w n <$> f_inputs s0 !! n).
Proof.
  intros Hvw. revert ds s. induction rest as [|u rest IH]; intros ds s Hv Hw Hgv Hgw HI Hnd He; cbn [length];
    unfold Value_replaceAllUsesWith_fuel; cbn [while_]; pose proof Hv as (V & HV & HVu)%f_uses_Some.
  - exists s. rewrite (run_bind _ _ _ false s) by (step; by rewrite HVu). rewrite app_nil_r. split_and!; [done|apply changes_refl| |done].
    by rewrite (insert_id _ w), insert_id.
  - pose proof (He u ltac:(by left)) as (l & Hl & Hi).
    destruct (replaceFirstUseWith_Ok v w u rest g s) as (s1 & E1 & C1 & HI1 & HU1); [done| |done|done|].
    { exists (moved ds w (user u) l). split; [by rewrite HI, Hl|]. unfold moved. rewrite list_lookup_imap, Hi. cbn.
      rewrite decide_False; [done|]. apply list.NoDup_app in Hnd as (_ & Hd & _). intros Hin. apply (Hd u); [by destruct u|by left]. }
    rewrite (run_bind _ _ _ true s) by (step; by rewrite HVu). rewrite (run_bind _ _ _ _ _ E1).
    destruct (IH (ds ++ [u]) s1) as (s2 & E2 & C2 & HU2 & HI2).
    + by rewrite HU1, lookup_alter_eq, lookup_alter_ne, Hv.
    + by rewrite HU1, lookup_alter_ne, lookup_alter_eq, Hw, app_assoc.
    + by eapply kept_graph.
    + by eapply kept_graph.
    + intros n. rewrite HI1. destruct (decide (user u = n)) as [<-|Hn].
      * rewrite lookup_alter_eq, HI. destruct (f_inputs s0 !! user u) as [l'|] eqn:El; [|done]. simplify_eq. cbn. f_equal.
        unfold moved. apply list_eq. intros i. destruct (decide (i = offset u)) as [->|Hne].
        -- rewrite list_lookup_insert_eq by (rewrite length_imap; by eapply lookup_lt_Some). rewrite list_lookup_imap, Hi. cbn.
           rewrite decide_True; [done|]. apply elem_of_app. right. destruct u. by apply list_elem_of_singleton.
        -- rewrite list_lookup_insert_ne, !list_lookup_imap by done. destruct (l !! i); [|done]. cbn. f_equal.
           apply decide_ext. rewrite elem_of_app, list_elem_of_singleton. split; [by left|]. intros [?|Hu]; [done|].
           destruct u. by injection Hu as ->.
      * rewrite lookup_alter_ne, HI by done. destruct (f_inputs s0 !! n); [|done]. cbn. f_equal. unfold moved. apply imap_ext.
        intros i x _. apply decide_ext. rewrite elem_of_app, list_elem_of_singleton. split; [by left|]. intros [?|Hu]; [done|].
        destruct u. by injection Hu as ->.
    + by rewrite <- app_assoc.
    + intros u' Hu'. apply He. by right.
    + exists s2. split; [exact E2|]. split; [by eapply changes_step|]. rewrite <- app_assoc in HU2, HI2. cbn in HU2, HI2. split; [|done].
      rewrite HU2, HU1. apply map_eq. intros x. destruct (decide (v = x)) as [<-|Hx]; [by rewrite !lookup_insert_eq|].
      rewrite !(lookup_insert_ne _ v) by done. destruct (decide (w = x)) as [<-|Hx']; [by rewrite !lookup_insert_eq|].
      by rewrite !lookup_insert_ne, !lookup_alter_ne by done.
Qed.

Lemma replaceAllUsesWith_Ok v w g vs ws s :
  mirror (edge (f_inputs s)) (f_uses s) → v ≠ w → f_uses s !! v = Some vs → f_uses s !! w = Some ws →
  value_graph s v g → value_graph s w g →
  ∃ s', Value_replaceAllUsesWith v w s = (Ok tt, s') ∧ changes [Inputs; Uses] s s' ∧
    f_inputs s' = fmap (M:=list) (subst_value v w) <$> f_inputs s ∧ f_uses s' = <[v := []]> (<[w := ws ++ vs]> (f_uses s)) ∧
    mirror (edge (f_inputs s')) (f_uses s').
Proof.
  intros HM Hvw Hv Hw Hgv Hgw.
  destruct (replaceAll_loop v w g ws [] vs s s) as (s' & E & C & HU & HI); [done|done|by rewrite app_nil_r|done|done| |by eapply mirror_NoDup| |].
  - intros n. destruct (f_inputs s !! n); [|done]. cbn. f_equal. unfold moved. rewrite (imap_ext _ (λ _ x, x)); [|done].
    clear. induction l; [done|]. cbn. by f_equal.
  - intros [n i] Hu. by apply (mirror_iff _ _ HM v vs).
  - cbn in HU, HI. pose proof Hv as (V & HV & HVu)%f_uses_Some.
    assert (HI' : f_inputs s' = fmap (M:=list) (subst_value v w) <$> f_inputs s).
    { apply map_eq. intros n. rewrite HI, lookup_fmap. destruct (f_inputs s !! n) as [l|] eqn:Hl; [|done]. cbn. f_equal. unfold moved.
      apply list_eq. intros i. rewrite list_lookup_imap, list_lookup_fmap. destruct (l !! i) as [x|] eqn:Hx; [|done]. cbn. f_equal.
      unfold subst_value. apply decide_ext. rewrite (mirror_iff _ _ HM v vs n i Hv), (edge_eq _ _ _ _ _ Hl). naive_solver. }
    assert (Hedge : ∀ n i x, edge (f_inputs s') n i x ↔ (x ≠ v ∧ edge (f_inputs s) n i x) ∨ (x = w ∧ edge (f_inputs s) n i v)).
    { intros n i x. unfold edge. rewrite HI', lookup_fmap. destruct (f_inputs s !! n) as [l|]; [|naive_solver]. cbn. split.
      - intros (l' & [= <-] & Hl'). rewrite list_lookup_fmap in Hl'. destruct (l !! i) as [y|] eqn:Hy; [|done]. cbn in Hl'.
        unfold subst_value in Hl'. case_decide; naive_solver.
      - intros [[Hx (l' & [= <-] & Hl')]|[-> (l' & [= <-] & Hl')]]; exists (subst_value v w <$> l); (split; [done|]);
          rewrite list_lookup_fmap, Hl'; unfold subst_value; cbn; case_decide; naive_solver. }
    exists s'. split; [by unfold Value_replaceAllUsesWith; step; rewrite HVu|]. split_and!; [done..|]. rewrite HU. constructor.
    + intros x us n i Hx. rewrite Hedge. destruct (decide (v = x)) as [<-|Hvx].
      * rewrite lookup_insert_eq in Hx. injection Hx as <-. split; [by intros ?%not_elem_of_nil|]. naive_solver.
      * rewrite lookup_insert_ne in Hx by done. destruct (decide (w = x)) as [<-|Hwx].
        -- rewrite lookup_insert_eq in Hx. injection Hx as <-. rewrite elem_of_app, (mirror_iff _ _ HM w ws), (mirror_iff _ _ HM v vs) by done.
           naive_solver.
        -- rewrite lookup_insert_ne in Hx by done. rewrite (mirror_iff _ _ HM x us) by done. naive_solver.
    + intros x us Hx. destruct (decide (v = x)) as [<-|Hvx].
      * rewrite lookup_insert_eq in Hx. injection Hx as <-. apply NoDup_nil_2.
      * rewrite lookup_insert_ne in Hx by done. destruct (decide (w = x)) as [<-|Hwx].
        -- rewrite lookup_insert_eq in Hx. injection Hx as <-. apply list.NoDup_app. split_and!; [by eapply mirror_NoDup| |by eapply mirror_NoDup].
           intros [n i] H1 H2. apply (mirror_iff _ _ HM w ws) in H1; [|done]. apply (mirror_iff _ _ HM v vs) in H2; [|done].
           apply Hvw. by eapply edge_fun.
        -- rewrite lookup_insert_ne in Hx by done. by eapply mirror_NoDup.
    + intros n i x Hx. apply Hedge in Hx as [[Hx HE]|[-> HE]].
      * rewrite lookup_insert_ne by done. apply lookup_insert_is_Some'. right. by eapply mirror_live.
      * rewrite lookup_insert_ne by done. rewrite lookup_insert_eq. eauto.
Qed.

(** Replacing a value by itself moves its first use to the end, forever. *)
Lemma replaceAll_self fuel v g us s :
  mirror (edge (f_inputs s)) (f_uses s) → f_uses s !! v = Some us → us ≠ [] → value_graph s v g →
  ∃ s', Value_replaceAllUsesWith_fuel fuel v v s = (Throw (Undefined "out of fuel"), s').
Proof.
  revert us s. induction fuel as [|fuel IH]; intros us s HM Hv Hne Hg; [by eexists|].
  pose proof Hv as (V & HV & HVu)%f_uses_Some. destruct us as [|u rest]; [done|].
  assert (HE : edge (f_inputs s) (user u) (offset u) v) by (apply (mirror_iff _ _ HM v (u :: rest)); [done|destruct u; by left]).
  destruct (replaceFirstUseWith_Ok v v u rest g s) as (s1 & E1 & C1 & HI1 & HU1); [done..|].
  assert (HI1' : f_inputs s1 = f_inputs s).
  { rewrite HI1. destruct HE as (l & Hl & Hi). apply map_eq. intros n. destruct (decide (user u = n)) as [<-|Hn].
    - rewrite lookup_alter_eq, Hl. cbn. by rewrite list_insert_id.
    - by rewrite lookup_alter_ne. }
  assert (HU1' : f_uses s1 = <[v := rest ++ [u]]> (f_uses s)).
  { rewrite HU1. apply map_eq. intros x. destruct (decide (v = x)) as [<-|Hx].
    - by rewrite lookup_insert_eq, !lookup_alter_eq, Hv.
    - by rewrite lookup_insert_ne, !lookup_alter_ne. }
  destruct (IH (rest ++ [u]) s1) as (s2 & E2).
  - rewrite HI1', HU1'. constructor.
    + intros x us n i Hx. destruct (decide (v = x)) as [<-|Hvx].
      * rewrite lookup_insert_eq in Hx. injection Hx as <-. rewrite <- (mirror_iff _ _ HM v (u :: rest) n i Hv).
        by rewrite <- Permutation_cons_append.
      * rewrite lookup_insert_ne in Hx by done. by apply (mirror_iff _ _ HM).
    + intros x us Hx. destruct (decide (v = x)) as [<-|Hvx].
      * rewrite lookup_insert_eq in Hx. injection Hx as <-. rewrite <- Permutation_cons_append. by eapply mirror_NoDup.
      * rewrite lookup_insert_ne in Hx by done. by eapply mirror_NoDup.
    + intros n i x Hx. apply lookup_insert_is_Some'. right. by eapply mirror_live.
  - by rewrite HU1', lookup_insert_eq.
  - by destruct rest.
  - by eapply kept_graph.
  - exists s2. unfold Value_replaceAllUsesWith_fuel. cbn [while_]. rewrite (run_bind _ _ _ true s) by (step; by rewrite HVu).
    by rewrite (run_bind _ _ _ _ _ E1).
Qed.

(** The values of one node in the place of those of another, in order. *)
Definition subst_values (p : list (ptr * ptr)) (I : gmap ptr (list (option ptr))) : gmap ptr (list (option ptr)) :=
  foldl (λ I vw, fmap (M:=list) (subst_value vw.1 vw.2) <$> I) I p.

Lemma Node_replaceAllUsesWith_Ok n m os ws g s :
  mirror (edge (f_inputs s)) (f_uses s) → f_outputs s !! n = Some os → f_outputs s !! m = Some ws →
  length os = length ws → (∀ v, v ∈ os → v ∉ ws) → (∀ v, v ∈ os ++ ws → value_graph s v g) →
  ∃ s', Node_replaceAllUsesWith n m s = (Ok tt, s') ∧ changes [Inputs; Uses] s s' ∧
    f_inputs s' = subst_values (zip os ws) (f_inputs s) ∧ mirror (edge (f_inputs s')) (f_uses s').
Proof.
  intros HM Ho Hw Hlen Hdis Hg. apply lookup_fmap_Some in Ho as (N & HNo & HN). apply lookup_fmap_Some in Hw as (N' & HNw & HN').
  destruct (foreach_seq (λ j s2, changes [Inputs; Uses] s s2 ∧ f_inputs s2 = subst_values (zip (take j os) (take j ws)) (f_inputs s) ∧
      mirror (edge (f_inputs s2)) (f_uses s2))
    (λ i, T ← deref_node n; N ← deref_node m; o ← lift (index (outputs_ T) i); w ← lift (index (outputs_ N) i);
      Value_replaceAllUsesWith o w) 0 (length os) s) as (s3 & E3 & C3 & HI3 & HM3).
  - split_and!; [apply changes_refl|done|done].
  - intros j s2 [_ Hj] (C2 & HI2 & HM2). cbn in Hj. destruct (lookup_lt_is_Some_2 os j Hj) as [o Hoj].
    destruct (lookup_lt_is_Some_2 ws j) as [w Hwj]; [congruence|].
    assert (HO : f_outputs s2 = f_outputs s) by (apply (C2 Outputs); set_solver).
    assert (f_outputs s2 !! n = Some os) as (T & HTo & HT)%lookup_fmap_Some by (rewrite HO; unfold f_outputs; by rewrite lookup_fmap, HN, <- HNo).
    assert (f_outputs s2 !! m = Some ws) as (T' & HTw & HT')%lookup_fmap_Some by (rewrite HO; unfold f_outputs; by rewrite lookup_fmap, HN', <- HNw).
    assert (Hgo : value_graph s2 o g) by (eapply kept_graph; [done..|]; apply Hg, elem_of_app; left; by eapply list_elem_of_lookup_2).
    assert (Hgw : value_graph s2 w g) by (eapply kept_graph; [done..|]; apply Hg, elem_of_app; right; by eapply list_elem_of_lookup_2).
    destruct (value_graph_uses _ _ _ Hgo) as [uo Huo]. destruct (value_graph_uses _ _ _ Hgw) as [uw Huw].
    destruct (replaceAllUsesWith_Ok o w g uo uw s2) as (s4 & E4 & C4 & HI4 & _ & HM4); [done| |done..|].
    { intros ->. apply (Hdis w); by eapply list_elem_of_lookup_2. }
    exists s4. split_and!; [|by eapply changes_step| |done].
    + step. step. rewrite HTo, HTw. by rewrite (run_index _ _ _ _ _ Hoj), (run_index _ _ _ _ _ Hwj).
    + rewrite HI4, HI2. rewrite (take_S_r _ _ _ Hoj), (take_S_r _ _ _ Hwj). unfold subst_values.
      rewrite zip_with_app by (rewrite !length_take; lia). rewrite foldl_app. done.
  - exists s3. split_and!; [|done| |done].
    + unfold Node_replaceAllUsesWith. step. step. rewrite HNo, HNw, Hlen, Nat.eqb_refl, <- Hlen. rewrite run_assert by done. exact E3.
    + rewrite HI3. cbn. rewrite take_ge by lia. rewrite (take_ge ws) by lia. done.
Qed.
