(* ===== verification/IRLists.v ===== *)
(** * The lists of nodes

    Inserting a node into the ring of a block and taking it out, walking along the
    ring, and the numbering of the nodes that makes [isBefore] fast. *)
From stdpp Require Import sorting.
From S2P Require Import Prelude JitGraph IRSpec.
Local Open Scope nat_scope.
#[local] Set Warnings "-clear-no-such-hyp".
Import IR.

(** ** Chains *)
Lemma chain_app R x l1 z l2 y : chain R x (l1 ++ z :: l2) y ↔ chain R x l1 z ∧ chain R z l2 y.
Proof. revert x. induction l1 as [|w l1 IH]; intros x; cbn; [done|]. rewrite IH. tauto. Qed.

Lemma chain_mono (R R' : ptr → ptr → Prop) x l y :
  (∀ a b, a ∈ x :: l → R a b → R' a b) → chain R x l y → chain R' x l y.
Proof.
  revert x. induction l as [|z l IH]; intros x H; cbn; [apply H; by left|].
  intros [H1 H2]. split; [apply H; [by left|done]|]. apply IH; [|done]. intros a b Ha. apply H. by right.
Qed.

(** The node after [x], in front of [y]. *)
Definition next_in (q : list ptr) (o : ptr) : ptr := match q with [] => o | z :: _ => z end.
Lemma chain_next R x q o : chain R x q o → R x (next_in q o).
Proof. destruct q; cbn; tauto. Qed.
(** The last node of [p], behind [o]. *)
Definition prev_in (o : ptr) (p : list ptr) : ptr := default o (list.last p).
Lemma chain_prev R x p y : chain R x p y → R (prev_in x p) y.
Proof.
  revert x. induction p as [|z p IH]; intros x; cbn [chain]; [done|]. intros [_ H]. apply IH in H.
  unfold prev_in in *. rewrite last_cons. by destruct (list.last p).
Qed.

(** ** Reading a field of a node *)
Lemma f_next_Some s n x : f_next s !! n = Some x ↔ ∃ N, node_heap s !! n = Some N ∧ next_ N = x.
Proof. unfold f_next. rewrite lookup_fmap_Some. naive_solver. Qed.
Lemma f_prev_Some s n x : f_prev s !! n = Some x ↔ ∃ N, node_heap s !! n = Some N ∧ prev_ N = x.
Proof. unfold f_prev. rewrite lookup_fmap_Some. naive_solver. Qed.
Lemma f_owner_Some s n x : f_owner s !! n = Some x ↔ ∃ N, node_heap s !! n = Some N ∧ owning_block_ N = x.
Proof. unfold f_owner. rewrite lookup_fmap_Some. naive_solver. Qed.
Lemma f_pos_Some s n x : f_pos s !! n = Some x ↔ ∃ N, node_heap s !! n = Some N ∧ topo_position_ N = x.
Proof. unfold f_pos. rewrite lookup_fmap_Some. naive_solver. Qed.

Lemma linked_next s x y : linked s x y → ∃ N, node_heap s !! x = Some N ∧ next_ N = Some y.
Proof. intros [H _]. by apply f_next_Some in H. Qed.
Lemma linked_prev s x y : linked s x y → ∃ N, node_heap s !! y = Some N ∧ prev_ N = Some x.
Proof. intros [_ H]. by apply f_prev_Some in H. Qed.
Lemma linked_inj s x x' y : linked s x y → linked s x' y → x = x'.
Proof. intros [_ H] [_ H']. congruence. Qed.

Lemma chain_live s x l y : chain (linked s) x l y → ∀ z, z ∈ x :: l → is_Some (node_heap s !! z).
Proof.
  revert x. induction l as [|w l IH]; intros x; cbn [chain].
  - intros H z ->%list_elem_of_singleton. apply linked_next in H as (N & -> & _). eauto.
  - intros [H Hc] z [->|Hz]%elem_of_cons; [apply linked_next in H as (N & -> & _); eauto|]. by apply (IH w).
Qed.

Lemma NoDup_length_size {A} (m : gmap ptr A) (l : list ptr) : NoDup l → (∀ x, x ∈ l → is_Some (m !! x)) → length l ≤ size m.
Proof.
  intros Hnd Hl. rewrite <- size_dom, <- (size_list_to_set (C:=gset ptr) l Hnd). apply subseteq_size.
  intros x Hx. apply elem_of_list_to_set in Hx. apply elem_of_dom. auto.
Qed.

(** ** Walking along the ring *)
Lemma nodes_loop_Ok s head fuel cur l :
  chain (linked s) cur l head → head ∉ cur :: l → length l < fuel → nodes_loop (S fuel) head cur s = (Ok (cur :: l), s).
Proof.
  revert fuel cur. induction l as [|z l IH]; intros fuel cur Hc Hn Hf; cbn [nodes_loop chain] in *;
    destruct (Nat.eqb_spec cur head) as [->|Hne]; [exfalso; apply Hn; by left| |exfalso; apply Hn; by left|].
  - apply linked_next in Hc as (N & HN & Hnx). step. rewrite Hnx. step. destruct fuel; [lia|]. cbn. by rewrite Nat.eqb_refl.
  - destruct Hc as [Hz Hc]. apply linked_next in Hz as (N & HN & Hnx). step. rewrite Hnx. step.
    destruct fuel as [|fuel]; [cbn in Hf; lia|].
    rewrite (run_bind _ _ _ _ _ (IH fuel z Hc ltac:(intros H; apply Hn; by right) ltac:(cbn in Hf; lia))). done.
Qed.

Lemma list_length_bound L s b B l : wf_lists L s → block_heap s !! b = Some B → L !! b = Some l → length l ≤ size (node_heap s).
Proof.
  intros W HB Hl. pose proof (ring _ _ W b B l HB Hl) as Hr. pose proof (members_NoDup _ _ W b B l HB Hl) as Hnd.
  apply NoDup_length_size; [by apply list.NoDup_cons in Hnd as [_ [_ ?]%list.NoDup_cons]|]. intros x Hx. eapply chain_live; [exact Hr|by right].
Qed.

Lemma nodes_Ok L s b B l : wf_lists L s → block_heap s !! b = Some B → L !! b = Some l → nodes b s = (Ok l, s).
Proof.
  intros W HB Hl. pose proof (ring _ _ W b B l HB Hl) as Hr. pose proof (members_NoDup _ _ W b B l HB Hl) as Hnd.
  assert (Hno : output_ B ∉ l) by (apply list.NoDup_cons in Hnd as [Hn _]; intros H; apply Hn; by right).
  pose proof (list_length_bound L s b B l W HB Hl) as Hlen. pose proof (chain_next _ _ _ _ Hr) as (O & HO & Hnx)%linked_next.
  unfold nodes. step. step. rewrite Hnx. step. step. unfold list_fuel. destruct l as [|z l]; cbn [next_in].
  - cbn. by rewrite Nat.eqb_refl.
  - cbn in Hr. destruct Hr as [_ Hr]. apply nodes_loop_Ok; [done|done|cbn in Hlen; lia].
Qed.

(** ** Numbering *)
Lemma kAppendInterval_pow : kAppendInterval = (2 ^ 40)%Z.
Proof. done. Qed.

(** The position [reIndexTopology] gives to the node of index [i]. *)
Definition slot (i : nat) : Z := (kLowerBound + (Z.of_nat i + 1) * kAppendInterval)%Z.

(** As many nodes as there are slots. *)
Definition max_nodes : nat := Z.to_nat (2 ^ 24 - 1).
Lemma max_nodes_Z : Z.of_nat max_nodes = (2 ^ 24 - 1)%Z.
Proof. unfold max_nodes. by rewrite Z2Nat.id. Qed.
#[global] Opaque max_nodes.

Lemma f_pos_upd s n z N : node_heap s !! n = Some N → f_pos (upd_node n (set_topo_position z) s) = <[n := z]> (f_pos s).
Proof.
  intros HN. unfold f_pos, upd_node. cbn. rewrite (alter_hit topo_position_ _ (λ _, z)) by done. symmetry.
  eapply (insert_alter _ _ (λ _, z)). by rewrite lookup_fmap, HN.
Qed.

Lemma reindex_loop_Ok out l fuel cur j s :
  chain (linked s) cur l out → out ∉ cur :: l → NoDup (cur :: l) → length l < fuel → j + S (length l) ≤ max_nodes →
  ∃ s', reindex_loop (S fuel) out cur (kLowerBound + Z.of_nat j * kAppendInterval) s = (Ok tt, s') ∧ changes [Pos] s s' ∧
    (∀ i x, (cur :: l) !! i = Some x → f_pos s' !! x = Some (slot (j + i))) ∧
    (∀ x, x ∉ cur :: l → f_pos s' !! x = f_pos s !! x).
Proof.
  revert fuel cur j s. induction l as [|z l IH]; intros fuel cur j s Hc Hn Hnd Hf Hj; cbn [reindex_loop];
    destruct (Nat.eqb_spec cur out) as [->|Hne]; [exfalso; apply Hn; by left| |exfalso; apply Hn; by left|];
    pose proof max_nodes_Z as Hmax; cbn [length] in *;
    assert (Hchk : (kLowerBound + Z.of_nat j * kAppendInterval <=? sub64 kUpperBound kAppendInterval)%Z = true)
      by (change (sub64 kUpperBound kAppendInterval) with 9223370937343148031%Z; apply Z.leb_le; unfold kLowerBound, kAppendInterval; lia);
    assert (Hadd : add64 (kLowerBound + Z.of_nat j * kAppendInterval) kAppendInterval = slot (j + 0))
      by (rewrite Nat.add_0_r, add64_exact by (apply in_S64_iff; unfold kLowerBound, kAppendInterval; lia); unfold slot; lia);
    rewrite run_assert by done; cbn zeta; rewrite Hadd.
  - cbn in Hc. apply linked_next in Hc as (N & HN & Hnx). eexists. split; [|split; [|split]].
    + step. step. cbn [set_topo_position next_]. rewrite Hnx. step. destruct fuel; [lia|]. cbn. by rewrite Nat.eqb_refl.
    + chain_changes.
    + intros i x. rewrite (f_pos_upd _ _ _ N) by done. intros [-> <-]%list_lookup_singleton_Some. by rewrite lookup_insert_eq.
    + intros x [Hx _]%not_elem_of_cons. rewrite (f_pos_upd _ _ _ N), lookup_insert_ne by done. done.
  - destruct Hc as [Hz Hc]. apply linked_next in Hz as (N & HN & Hnx).
    set (s1 := upd_node cur (set_topo_position (slot (j + 0))) s).
    assert (C1 : changes [Pos] s s1) by (unfold s1; chain_changes).
    apply list.NoDup_cons in Hnd as [Hcur Hnd].
    destruct fuel as [|fuel]; [lia|].
    destruct (IH fuel z (S j) s1) as (s2 & E2 & C2 & H2 & H2'); [eapply frame_chain; [exact C1|vm_compute; reflexivity|exact Hc]|exact (proj2 (proj1 (not_elem_of_cons _ _ _) Hn))|exact Hnd|lia|lia|].
    assert (Hpos1 : f_pos s1 = <[cur := slot (j + 0)]> (f_pos s)) by (by eapply f_pos_upd).
    exists s2. split; [|split; [|split]].
    + step. unfold s1 in *. step. cbn [set_topo_position next_]. rewrite Hnx. step. rewrite <- E2. f_equal. unfold slot. lia.
    + by eapply changes_step.
    + intros [|i] x Hi; cbn in Hi.
      * injection Hi as <-. rewrite H2', Hpos1, lookup_insert_eq by done. done.
      * rewrite (H2 i x Hi). f_equal. f_equal. lia.
    + intros x [Hx1 Hx2]%not_elem_of_cons. rewrite H2', Hpos1, lookup_insert_ne by done. done.
Qed.

Lemma reIndexTopology_Ok s b B l :
  block_heap s !! b = Some B → chain (linked s) (output_ B) l (output_ B) → NoDup (output_ B :: l) → length l ≤ max_nodes →
  ∃ s', reIndexTopology b s = (Ok tt, s') ∧ changes [Pos] s s' ∧
    (∀ i x, l !! i = Some x → f_pos s' !! x = Some (slot i)) ∧ (∀ x, x ∉ l → f_pos s' !! x = f_pos s !! x).
Proof.
  intros HB Hc Hnd Hlen. apply list.NoDup_cons in Hnd as [Hn Hnd].
  pose proof (chain_next _ _ _ _ Hc) as (O & HO & Hnx)%linked_next. unfold reIndexTopology.
  assert (Hsz : length l ≤ size (node_heap s)).
  { apply NoDup_length_size; [done|]. intros x Hx. eapply chain_live; [exact Hc|by right]. }
  destruct l as [|z l]; cbn [next_in] in *.
  - exists s. split_and!; [|apply changes_refl|done|done]. step. step. rewrite Hnx. step. step. unfold list_fuel. cbn. by rewrite Nat.eqb_refl.
  - destruct Hc as [_ Hc]. cbn [length] in *.
    destruct (reindex_loop_Ok (output_ B) l (size (node_heap s)) z 0 s) as (s' & E & C & H1 & H2); [done|done|done|lia|lia|].
    exists s'. split_and!; [|done|done|done]. step. step. rewrite Hnx. step. step. exact E.
Qed.

Lemma slot_mono i j : i < j → (slot i < slot j)%Z.
Proof. intros. unfold slot, kAppendInterval. lia. Qed.
Lemma slot_range i : i < max_nodes → (kLowerBound < slot i < kUpperBound)%Z.
Proof. intros Hi. pose proof max_nodes_Z. unfold slot, kLowerBound, kUpperBound, kAppendInterval. lia. Qed.

Lemma sorted_slots (f : ptr → Z) (l : list ptr) j :
  (∀ i x, l !! i = Some x → f x = slot (j + i)) → StronglySorted Z.lt (f <$> l).
Proof.
  revert j. induction l as [|x l IH]; intros j H; cbn; constructor.
  - apply (IH (S j)). intros i y Hi. rewrite (H (S i) y Hi). f_equal. lia.
  - apply List.Forall_forall. intros z Hz. apply list_elem_of_In, list_elem_of_fmap in Hz as (y & -> & Hy).
    apply list_elem_of_lookup in Hy as [i Hi]. rewrite (H 0 x eq_refl), (H (S i) y Hi). apply slot_mono. lia.
Qed.

Lemma reindexed_sorted s s' B l :
  (∀ i x, l !! i = Some x → f_pos s' !! x = Some (slot i)) → (∀ x, x ∉ l → f_pos s' !! x = f_pos s !! x) →
  NoDup (block_nodes B l) → f_pos s !! input_ B = Some kLowerBound → f_pos s !! output_ B = Some kUpperBound → length l ≤ max_nodes →
  StronglySorted Z.lt (positions s' (input_ B :: l ++ [output_ B])).
Proof.
  intros H1 H2 Hnd Hi Ho Hlen. unfold block_nodes in Hnd. apply list.NoDup_cons in Hnd as [Hno Hnd]. apply list.NoDup_cons in Hnd as [Hni Hnd].
  unfold positions. cbn. rewrite fmap_app. cbn. rewrite H2, Hi by done. apply not_elem_of_cons in Hno as [_ Hno]. rewrite (H2 (output_ B)), Ho by done. cbn.
  assert (Hrange : ∀ z, z ∈ (λ n, default 0%Z (f_pos s' !! n)) <$> l → (kLowerBound < z < kUpperBound)%Z).
  { intros z (x & -> & [i Hx]%list_elem_of_lookup)%list_elem_of_fmap. rewrite (H1 i x Hx). cbn. apply slot_range.
    apply lookup_lt_Some in Hx. lia. }
  constructor.
  - apply StronglySorted_app. split_and!.
    + intros z u Hz ->%list_elem_of_singleton. by apply Hrange.
    + apply (sorted_slots _ _ 0). intros i x Hx. by rewrite (H1 i x Hx).
    + repeat constructor.
  - apply List.Forall_app. split; [|constructor; [done|constructor]]. apply List.Forall_forall. intros z Hz%list_elem_of_In. by apply Hrange.
Qed.

Lemma NoDup_block_nodes B l : NoDup (block_nodes B l) → NoDup l.
Proof. unfold block_nodes. rewrite !list.NoDup_cons. tauto. Qed.

(** *** The position of a new node *)
Lemma positions_app s l k : positions s (l ++ k) = positions s l ++ positions s k.
Proof. apply fmap_app. Qed.
Lemma positions_ext s s' l : (∀ x, x ∈ l → f_pos s' !! x = f_pos s !! x) → positions s' l = positions s l.
Proof. intros H. unfold positions. apply list_fmap_ext. intros i x Hx. rewrite H; [done|]. by eapply list_elem_of_lookup_2. Qed.

Lemma sorted_insert (a c : list Z) z :
  StronglySorted Z.lt (a ++ c) → (∀ w, w ∈ a → (w < z)%Z) → (∀ w, w ∈ c → (z < w)%Z) → StronglySorted Z.lt (a ++ (z :: c)).
Proof.
  rewrite !StronglySorted_app. intros (Hac & Ha & Hc) Haz Hzc. split_and!; [|done|].
  - intros w u Hw [->|Hu]%elem_of_cons; [by apply Haz|by apply Hac].
  - constructor; [done|]. apply List.Forall_forall. intros w Hw%list_elem_of_In. by apply Hzc.
Qed.
Lemma sorted_last (a : list Z) x w : StronglySorted Z.lt (a ++ [x]) → w ∈ a ++ [x] → (w ≤ x)%Z.
Proof.
  rewrite StronglySorted_app. intros (H & _ & _) [Hw|Hw]%elem_of_app; [|apply list_elem_of_singleton in Hw; lia].
  specialize (H w x Hw ltac:(by left)). lia.
Qed.
Lemma sorted_head (c : list Z) x w : StronglySorted Z.lt (x :: c) → w ∈ x :: c → (x ≤ w)%Z.
Proof.
  intros H [->|Hw]%elem_of_cons; [lia|]. apply StronglySorted_inv in H as [_ H]. rewrite List.Forall_forall in H.
  specialize (H w ltac:(by apply list_elem_of_In)). lia.
Qed.

(** A position strictly between the neighbours keeps the order. *)
Lemma place_between s B this z p q N :
  node_heap s !! this = Some N → NoDup (block_nodes B (p ++ this :: q)) →
  StronglySorted Z.lt (positions s (input_ B :: (p ++ q) ++ [output_ B])) →
  (∀ w, w ∈ positions s (input_ B :: p) → (w < z)%Z) → (∀ w, w ∈ positions s (q ++ [output_ B]) → (z < w)%Z) →
  let s' := upd_node this (set_topo_position z) s in
  changes [Pos] s s' ∧ (∀ x, x ∉ p ++ this :: q → f_pos s' !! x = f_pos s !! x) ∧
  StronglySorted Z.lt (positions s' (input_ B :: (p ++ this :: q) ++ [output_ B])).
Proof.
  intros HN Hnd Hs Hp Hq s'.
  assert (HP : f_pos s' = <[this := z]> (f_pos s)) by (by eapply f_pos_upd).
  assert (Hkeep : ∀ x, x ≠ this → f_pos s' !! x = f_pos s !! x) by (intros x Hx; by rewrite HP, lookup_insert_ne).
  assert (Hnot : (this ∉ input_ B :: p) ∧ (this ∉ q ++ [output_ B])).

  { unfold block_nodes in Hnd. rewrite !list.NoDup_cons, list.NoDup_app, list.NoDup_cons in Hnd.
    destruct Hnd as (Ho & Hi & _ & Hpq & Hq' & _). split.
    - intros [->|H]%elem_of_cons; [apply Hi, elem_of_app; right; by left|]. apply (Hpq this H). by left.
    - intros [H| ->%list_elem_of_singleton]%elem_of_app; [done|]. apply Ho. right. apply elem_of_app. right. by left. }
  destruct Hnot as [Hnp Hnq]. split; [unfold s'; chain_changes|]. split.
  - intros x Hx. apply Hkeep. intros ->. apply Hx, elem_of_app. right. by left.
  - replace (input_ B :: (p ++ this :: q) ++ [output_ B]) with ((input_ B :: p) ++ this :: (q ++ [output_ B]))
      by (cbn; by rewrite <- app_assoc).
    rewrite positions_app. change (positions s' (this :: ?r)) with (default 0%Z (f_pos s' !! this) :: positions s' r).
    assert (f_pos s' !! this = Some z) as -> by (by rewrite HP, lookup_insert_eq). cbn [default].
    rewrite !(positions_ext s s') by (intros x Hx; apply Hkeep; by intros ->). apply sorted_insert; [|done|done].
    replace (positions s (input_ B :: p) ++ positions s (q ++ [output_ B])) with (positions s (input_ B :: (p ++ q) ++ [output_ B])); [done|].
    rewrite <- positions_app. f_equal. cbn. by rewrite <- app_assoc.
Qed.

(** The room between two neighbours is computed in 64 bits. *)
Definition gap_fits (s : Store) (p q : list ptr) : Prop :=
  ∀ x y px py, list.last p = Some x → head q = Some y → f_pos s !! x = Some px → f_pos s !! y = Some py →
    (py - px < 2 ^ 63)%Z.

Lemma half_between a b : (a < b)%Z → (b - a < 2 ^ 63)%Z → in_S 64 a → in_S 64 b →
  let m := add64 a (Z.quot (sub64 b a) 2) in (m =? a)%Z = false → (a < m < b)%Z.
Proof.
  intros Hab Hgap Ha Hb. unfold in_S in *. rewrite (sub64_exact b a) by (unfold in_S; lia).
  assert (Hq : (0 ≤ Z.quot (b - a) 2 < b - a)%Z).
  { rewrite Z.quot_div_nonneg by lia. split; [apply Z.div_pos; lia|]. apply Z.div_lt_upper_bound; lia. }
  rewrite add64_exact by (unfold in_S; lia). cbn zeta. intros Hne%Z.eqb_neq. lia.
Qed.

(** The cases of [assignTopoPosition]: the nodes are numbered again, or the new one gets
    a position between its neighbours. *)
Lemma assign_cases (Q : outcome unit * Store → Prop) s b B this p q :
  block_heap s !! b = Some B → f_owner s !! this = Some (Some b) →
  chain (linked s) (output_ B) (p ++ this :: q) (output_ B) → output_ B ∉ p ++ this :: q →
  StronglySorted Z.lt ((kLowerBound :: positions s p) ++ (positions s q ++ [kUpperBound])) → gap_fits s p q →
  Q (reIndexTopology b s) →
  (∀ z, (∀ w, w ∈ kLowerBound :: positions s p → (w < z)%Z) → (∀ w, w ∈ positions s q ++ [kUpperBound] → (z < w)%Z) →
    Q (update_node this (set_topo_position z) s)) →
  Q (assignTopoPosition this s).
Proof.
  intros HB Ho Hc Hno Hsplit Hgap Hre Hput. apply f_owner_Some in Ho as (N & HN & HNo).
  apply chain_app in Hc as [Hc1 Hc2].
  pose proof (chain_prev _ _ _ _ Hc1) as (N' & HN' & Hpv)%linked_prev. assert (N' = N) as -> by congruence.
  pose proof (chain_next _ _ _ _ Hc2) as (N' & HN'2 & Hnx)%linked_next. assert (N' = N) as -> by congruence. clear HN' HN'2.
  pose proof (chain_prev _ _ _ _ Hc1) as (P & HP & _)%linked_next.
  pose proof (chain_next _ _ _ _ Hc2) as (X & HX & _)%linked_prev. clear Hc1 Hc2.
  eassert (assignTopoPosition this s = _) as ->.
  { unfold assignTopoPosition. step. rewrite HNo. step. step. rewrite Hpv. step. rewrite Hnx. step. step. step. cbn zeta. reflexivity. }
  pose proof (proj1 (StronglySorted_app _ _ _) Hsplit) as (Hpq & Hsp & Hsq).
  assert (HPpos : f_pos s !! prev_in (output_ B) p = Some (topo_position_ P)) by (apply f_pos_Some; eauto).
  assert (HXpos : f_pos s !! next_in q (output_ B) = Some (topo_position_ X)) by (apply f_pos_Some; eauto).
  assert (Hprev : p ≠ [] → ∃ p' x, p = p' ++ [x] ∧ prev_in (output_ B) p = x ∧ x ≠ output_ B ∧
    positions s p = positions s p' ++ [topo_position_ P]).
  { intros Hp. apply exists_last in Hp as (p' & x & ->). exists p', x. unfold prev_in in *. rewrite last_snoc in *. cbn [default id] in *.
    split_and!; [done|done| |rewrite positions_app; unfold positions at 2; cbn; by rewrite HPpos].
    intros ->. apply Hno. apply elem_of_app. left. apply elem_of_app. right. by left. }
  destruct q as [|y q]; cbn [next_in] in *.
  - rewrite Nat.eqb_refl. destruct (decide (p = [])) as [->|Hp].
    + unfold prev_in. cbn. rewrite Nat.eqb_refl. apply Hput; intros w ->%list_elem_of_singleton; done.
    + destruct (Hprev Hp) as (p' & x & Ep & -> & Hx & Epos). rewrite (proj2 (Nat.eqb_neq _ _)) by done. rewrite Epos in *.
      change (sub64 kUpperBound kAppendInterval) with 9223370937343148031%Z.
      destruct (Z.leb_spec 9223370937343148031 (topo_position_ P)) as [?|Hlt]; [done|].
      assert (HL : (kLowerBound ≤ topo_position_ P)%Z) by (eapply (sorted_last (kLowerBound :: positions s p')); [done|by left]).
      rewrite add64_exact by (apply in_S64_iff; unfold kLowerBound, kAppendInterval in *; lia). apply Hput.
      * intros w Hw. pose proof (sorted_last (kLowerBound :: positions s p') _ w Hsp Hw). unfold kAppendInterval. lia.
      * intros w ->%list_elem_of_singleton. unfold kUpperBound, kAppendInterval. lia.
  - rewrite (proj2 (Nat.eqb_neq _ _)) by (intros ->; apply Hno, elem_of_app; right; right; by left).
    assert (Ey : positions s (y :: q) = topo_position_ X :: positions s q) by (unfold positions; cbn; by rewrite HXpos). rewrite Ey in *.
    assert (HU : (topo_position_ X < kUpperBound)%Z).
    { cbn in Hsq. apply StronglySorted_inv in Hsq as [_ Hsq]. rewrite List.Forall_forall in Hsq. apply Hsq.
      apply list_elem_of_In, elem_of_app. right. by left. }
    destruct (decide (p = [])) as [->|Hp].
    + unfold prev_in. cbn [list.last default id]. rewrite Nat.eqb_refl.
      change (add64 kLowerBound kAppendInterval) with (-9223370937343148032)%Z.
      destruct (Z.leb_spec (topo_position_ X) (-9223370937343148032)) as [?|Hlt]; [done|].
      rewrite sub64_exact by (apply in_S64_iff; unfold kUpperBound, kAppendInterval in *; lia). apply Hput.
      * intros w ->%list_elem_of_singleton. unfold kLowerBound, kAppendInterval. lia.
      * intros w Hw. pose proof (sorted_head _ _ w Hsq Hw). unfold kAppendInterval. lia.
    + destruct (Hprev Hp) as (p' & x & Ep & Hpx & Hx & Epos). rewrite Hpx in *. rewrite (proj2 (Nat.eqb_neq _ _)) by done. rewrite Epos in *.
      assert (HL : (kLowerBound ≤ topo_position_ P)%Z) by (eapply (sorted_last (kLowerBound :: positions s p')); [done|by left]).
      assert (Hab : (topo_position_ P < topo_position_ X)%Z) by (apply Hpq; [right; apply elem_of_app; right; by left|by left]).
      destruct (_ =? _)%Z eqn:Hmid; [done|].
      apply half_between in Hmid; [|done|..].
      * apply Hput.
        -- intros w Hw. pose proof (sorted_last (kLowerBound :: positions s p') _ w Hsp Hw). lia.
        -- intros w Hw. pose proof (sorted_head _ _ w Hsq Hw). lia.
      * eapply (Hgap x y); [by rewrite Ep, last_snoc|done|done|done].
      * apply in_S64_iff. unfold kLowerBound, kUpperBound in *. lia.
      * apply in_S64_iff. unfold kLowerBound, kUpperBound in *. lia.
Qed.

Lemma assignTopoPosition_Ok s b B this p q :
  block_heap s !! b = Some B → f_owner s !! this = Some (Some b) →
  chain (linked s) (output_ B) (p ++ this :: q) (output_ B) → NoDup (block_nodes B (p ++ this :: q)) →
  f_pos s !! input_ B = Some kLowerBound → f_pos s !! output_ B = Some kUpperBound →
  StronglySorted Z.lt (positions s (input_ B :: (p ++ q) ++ [output_ B])) →
  length (p ++ this :: q) ≤ max_nodes → gap_fits s p q →
  ∃ s', assignTopoPosition this s = (Ok tt, s') ∧ changes [Pos] s s' ∧
    (∀ x, x ∉ p ++ this :: q → f_pos s' !! x = f_pos s !! x) ∧
    StronglySorted Z.lt (positions s' (input_ B :: (p ++ this :: q) ++ [output_ B])).
Proof.
  intros HB Ho Hc Hnd Hi Hou Hs Hlen Hgap.
  assert (Hno : output_ B ∉ p ++ this :: q).
  { unfold block_nodes in Hnd. apply list.NoDup_cons in Hnd as [H _]. intros H'. apply H. by right. }
  assert (Ea : positions s (input_ B :: p) = kLowerBound :: positions s p) by (unfold positions; cbn; by rewrite Hi).
  assert (Ec : positions s (q ++ [output_ B]) = positions s q ++ [kUpperBound])
    by (rewrite positions_app; unfold positions at 2; cbn; by rewrite Hou).
  apply (assign_cases (λ r, ∃ s', r = (Ok tt, s') ∧ changes [Pos] s s' ∧
    (∀ x, x ∉ p ++ this :: q → f_pos s' !! x = f_pos s !! x) ∧
    StronglySorted Z.lt (positions s' (input_ B :: (p ++ this :: q) ++ [output_ B]))) s b B this p q); try done.
  - rewrite <- Ea, <- Ec, <- positions_app. cbn. by rewrite app_assoc.
  - destruct (reIndexTopology_Ok s b B (p ++ this :: q)) as (s' & E & C & H1 & H2); [done|done| |done|].
    + apply list.NoDup_cons. split; [done|]. by eapply NoDup_block_nodes.
    + exists s'. split_and!; [done..|]. by eapply reindexed_sorted.
  - intros z Hz1 Hz2. apply f_owner_Some in Ho as (N & HN & _). eexists. split; [apply update_node_Ok; eauto|].
    eapply place_between; [done..| |]; [by rewrite Ea|by rewrite Ec].
Qed.

(** ** Inserting a node *)

(** Consecutive elements are related. *)
Fixpoint inner (R : ptr → ptr → Prop) (l : list ptr) : Prop :=
  match l with a :: t => match t with b :: _ => R a b ∧ inner R t | [] => True end | [] => True end.

Lemma chain_inner R x l y : chain R x l y ↔ inner R (x :: l ++ [y]).
Proof. revert x. induction l as [|z l IH]; intros x; [cbn; tauto|]. cbn [chain]. rewrite IH. done. Qed.
Lemma inner_app R a b l k : inner R ((l ++ [a]) ++ (b :: k)) ↔ inner R (l ++ [a]) ∧ R a b ∧ inner R (b :: k).
Proof. induction l as [|x l IH]; [cbn; tauto|]. destruct l as [|y l]; cbn in *; tauto. Qed.
Lemma inner_mono (R R' : ptr → ptr → Prop) l :
  NoDup l → (∀ a b, a ∈ l → list.last l ≠ Some a → R a b → R' a b) → inner R l → inner R' l.
Proof.
  induction l as [|a l IH]; [done|]. intros Hnd H. destruct l as [|b l]; [done|]. intros [H1 H2].
  apply list.NoDup_cons in Hnd as [Ha Hnd]. split.
  - apply H; [by left| |done]. rewrite last_cons_cons. intros Hl. apply Ha. by apply last_Some_elem_of.
  - apply IH; [done| |done]. intros x y Hx Hl. apply H; [by right|]. by rewrite last_cons_cons.
Qed.

(** A ring cut behind [p]. *)
Lemma chain_cut R x p q y :
  chain R x (p ++ q) y ↔ inner R (x :: p) ∧ R (prev_in x p) (next_in q y) ∧ inner R (q ++ [y]).
Proof.
  rewrite chain_inner. assert (∃ l a, x :: p = l ++ [a] ∧ prev_in x p = a) as (l & a & Ep & ->).
  { destruct (decide (p = [])) as [->|Hp]; [by exists [], x|]. apply exists_last in Hp as (p' & z & ->).
    exists (x :: p'), z. split; [done|]. unfold prev_in. by rewrite last_snoc. }
  assert (∃ k, q ++ [y] = next_in q y :: k) as [k Eq] by (destruct q; [by exists []|by eexists]).
  rewrite <- app_assoc, app_comm_cons, Ep, Eq. apply inner_app.
Qed.

Lemma f_owner_upd s n c N : node_heap s !! n = Some N → f_owner (upd_node n (set_owning_block c) s) = <[n := c]> (f_owner s).
Proof.
  intros HN. unfold f_owner, upd_node. cbn. rewrite (alter_hit owning_block_ _ (λ _, c)) by done. symmetry.
  eapply (insert_alter _ _ (λ _, c)). by rewrite lookup_fmap, HN.
Qed.
Lemma f_next_upd s n c : is_Some (node_heap s !! n) → f_next (upd_node n (set_next c) s) = <[n := c]> (f_next s).
Proof.
  intros [N HN]. unfold f_next, upd_node. cbn. rewrite (alter_hit next_ _ (λ _, c)) by done. symmetry.
  eapply (insert_alter _ _ (λ _, c)). by rewrite lookup_fmap, HN.
Qed.
Lemma f_prev_upd s n c : is_Some (node_heap s !! n) → f_prev (upd_node n (set_prev c) s) = <[n := c]> (f_prev s).
Proof.
  intros [N HN]. unfold f_prev, upd_node. cbn. rewrite (alter_hit prev_ _ (λ _, c)) by done. symmetry.
  eapply (insert_alter _ _ (λ _, c)). by rewrite lookup_fmap, HN.
Qed.
(** The same for an assignment to another field of a node. *)
Lemma f_next_frame s n f : (∀ N, next_ (f N) = next_ N) → f_next (upd_node n f s) = f_next s.
Proof. apply alter_frame. Qed.
Lemma f_prev_frame s n f : (∀ N, prev_ (f N) = prev_ N) → f_prev (upd_node n f s) = f_prev s.
Proof. apply alter_frame. Qed.

Lemma block_nodes_insert B p this q : block_nodes B (p ++ this :: q) ≡ₚ this :: block_nodes B (p ++ q).
Proof. symmetry. apply (Permutation_middle (output_ B :: input_ B :: p)). Qed.

(** The facts about a node that is in no list. *)
Lemma loose_fresh L s this b B l :
  wf_lists L s → f_owner s !! this = Some None → block_heap s !! b = Some B → L !! b = Some l → this ∉ block_nodes B l.
Proof. intros W Ho HB Hl Hin. apply (members _ _ W b B l this HB Hl) in Hin. congruence. Qed.

Lemma linked_insert L s this n nx s' :
  wf_lists L s → f_owner s !! this = Some None → linked s n nx →
  f_next s' = <[this := Some nx]> (<[n := Some this]> (f_next s)) →
  f_prev s' = <[nx := Some this]> (<[this := Some n]> (f_prev s)) →
  ∀ a b, linked s a b → a ≠ n → linked s' a b.
Proof.
  intros W Ho Hn HN HP a b [H1 H2] Hne. destruct (loose _ _ W _ Ho) as [Hl1 Hl2].
  assert (b ≠ nx) by (intros ->; apply Hne; by eapply linked_inj). assert (a ≠ this) by congruence. assert (b ≠ this) by congruence.
  split; [by rewrite HN, !lookup_insert_ne|by rewrite HP, !lookup_insert_ne].
Qed.

Lemma ring_insert L s this b B p q s' :
  wf_lists L s → f_owner s !! this = Some None → block_heap s !! b = Some B → L !! b = Some (p ++ q) →
  f_next s' = <[this := Some (next_in q (output_ B))]> (<[prev_in (output_ B) p := Some this]> (f_next s)) →
  f_prev s' = <[next_in q (output_ B) := Some this]> (<[this := Some (prev_in (output_ B) p)]> (f_prev s)) →
  chain (linked s') (output_ B) (p ++ this :: q) (output_ B).
Proof.
  intros W Ho HB Hl HN HP. pose proof (ring _ _ W b B _ HB Hl) as Hr. pose proof (members_NoDup _ _ W b B _ HB Hl) as Hnd.
  pose proof (loose_fresh _ _ _ _ _ _ W Ho HB Hl) as Hfresh. apply chain_cut in Hr as (H1 & H2 & H3).
  pose proof (linked_insert _ _ _ _ _ _ W Ho H2 HN HP) as Hkeep.
  destruct (loose _ _ W _ Ho) as [Hl1 Hl2].
  assert (Hnd' : NoDup (output_ B :: p ++ q)).
  { unfold block_nodes in Hnd. rewrite !list.NoDup_cons in Hnd. rewrite list.NoDup_cons. destruct Hnd as (Hn & _ & ?).
    split; [|done]. intros Hq. apply Hn. by right. }
  assert (Hthis : this ≠ prev_in (output_ B) p) by (intros E; destruct H2 as [H2 _]; rewrite <- E in H2; congruence).
  rewrite app_comm_cons in Hnd'. apply list.NoDup_app in Hnd' as (Hnd1 & Hdis & Hnd2).
  apply chain_cut. cbn [next_in]. split_and!.
  - eapply inner_mono; [done| |exact H1]. intros a c Ha Hlast Hac. apply Hkeep; [done|]. intros ->. apply Hlast.
    unfold prev_in. rewrite last_cons. by destruct (list.last p).
  - split; [by rewrite HN, lookup_insert_ne, lookup_insert_eq|]. rewrite HP.
    destruct (decide (next_in q (output_ B) = this)) as [E|E]; [by destruct H2 as [_ H2]; rewrite E in H2; congruence|].
    by rewrite lookup_insert_ne, lookup_insert_eq.
  - cbn [inner app]. destruct (q ++ [output_ B]) as [|z k] eqn:Eq; [by destruct q|].
    assert (z = next_in q (output_ B)) as -> by (destruct q; cbn in Eq; by simplify_eq).
    split; [split; [by rewrite HN, lookup_insert_eq|by rewrite HP, lookup_insert_eq]|]. rewrite <- Eq in *.
    eapply inner_mono; [| |exact H3].
    + apply list.NoDup_app. split_and!; [done| |apply NoDup_singleton]. intros x Hx ->%list_elem_of_singleton. by apply (Hdis (output_ B)); [left|].
    + intros a c Ha Hlast Hac. apply Hkeep; [done|]. intros ->. rewrite last_snoc in Hlast.
      apply elem_of_app in Ha as [Ha|Ha%list_elem_of_singleton]; [|congruence]. apply (Hdis (prev_in (output_ B) p)); [|done].
      unfold prev_in. destruct (list.last p) as [w|] eqn:Hw; [right; by apply last_Some_elem_of|by left].
Qed.

Lemma next_in_elem q o : next_in q o ∈ o :: q.
Proof. destruct q; [by left|right; by left]. Qed.
Lemma prev_in_elem o p : prev_in o p ∈ o :: p.
Proof. unfold prev_in. destruct (list.last p) eqn:E; [right; by apply last_Some_elem_of|by left]. Qed.

(** The list of one block changes, its members with it. *)
Lemma lists_insert L s this b B p q s' :
  wf_lists L s → f_owner s !! this = Some None → block_heap s !! b = Some B → L !! b = Some (p ++ q) →
  block_heap s' = block_heap s → f_owner s' = <[this := Some b]> (f_owner s) →
  f_next s' = <[this := Some (next_in q (output_ B))]> (<[prev_in (output_ B) p := Some this]> (f_next s)) →
  f_prev s' = <[next_in q (output_ B) := Some this]> (<[this := Some (prev_in (output_ B) p)]> (f_prev s)) →
  wf_lists (<[b := p ++ this :: q]> L) s'.
Proof.
  intros W Ho HB Hl Hheap Hown HN HP.
  pose proof (ring _ _ W b B _ HB Hl) as Hr. apply chain_cut in Hr as (_ & Hcut & _).
  pose proof (loose_fresh _ _ _ _ _ _ W Ho HB Hl) as Hfresh. pose proof (members_NoDup _ _ W b B _ HB Hl) as Hnd.
  assert (Hends : ∀ x, x = prev_in (output_ B) p ∨ x = next_in q (output_ B) → f_owner s !! x = Some (Some b) ∧ x ≠ input_ B).
  { intros x Hx. assert (x ∈ output_ B :: p ++ q) as Hin.
    { destruct Hx as [->| ->]; [pose proof (prev_in_elem (output_ B) p) as H|pose proof (next_in_elem q (output_ B)) as H];
        apply elem_of_cons in H as [->|H]; try (by left); right; apply elem_of_app; tauto. }
    split.
    - apply (members _ _ W b B _ x HB Hl). unfold block_nodes. apply elem_of_cons in Hin as [->|Hin]; [by left|right; by right].
    - intros ->. unfold block_nodes in Hnd. rewrite !list.NoDup_cons in Hnd. destruct Hnd as (H1 & H2 & _).
      apply elem_of_cons in Hin as [E|Hin]; [apply H1; rewrite E; by left|done]. }
  constructor; rewrite ?Hheap.
  - intros c. destruct (decide (b = c)) as [<-|Hc]; [rewrite lookup_insert_eq, HB; split; eauto|].
    rewrite lookup_insert_ne by done. apply (lists_dom _ _ W).
  - intros c C k HC. destruct (decide (b = c)) as [<-|Hc].
    + rewrite lookup_insert_eq. intros [= <-]. assert (C = B) as -> by congruence. by eapply ring_insert.
    + rewrite lookup_insert_ne by done. intros Hk. eapply chain_mono; [|by eapply (ring _ _ W)]. intros x y Hx Hxy.
      apply (linked_insert L s this _ _ s' W Ho Hcut HN HP); [exact Hxy|]. intros ->. destruct (Hends (prev_in (output_ B) p) ltac:(by left)) as [Hob _].
      assert (f_owner s !! prev_in (output_ B) p = Some (Some c)); [|congruence].
      apply (members _ _ W c C k _ HC Hk). unfold block_nodes. apply elem_of_cons in Hx as [->|Hx]; [by left|right; by right].
  - intros c C k x HC. destruct (decide (b = c)) as [<-|Hc].
    + rewrite lookup_insert_eq. intros [= <-]. assert (C = B) as -> by congruence. rewrite block_nodes_insert, elem_of_cons, Hown.
      destruct (decide (x = this)) as [->|Hx]; [rewrite lookup_insert_eq; tauto|]. rewrite lookup_insert_ne by done.
      rewrite (members _ _ W b B _ x HB Hl). tauto.
    + rewrite lookup_insert_ne by done. intros Hk. rewrite Hown. rewrite (members _ _ W c C k x HC Hk).
      destruct (decide (x = this)) as [->|Hx]; [|by rewrite lookup_insert_ne]. rewrite lookup_insert_eq. split; congruence.
  - intros c C k HC. destruct (decide (b = c)) as [<-|Hc].
    + rewrite lookup_insert_eq. intros [= <-]. assert (C = B) as -> by congruence. rewrite block_nodes_insert.
      apply list.NoDup_cons. done.
    + rewrite lookup_insert_ne by done. by apply (members_NoDup _ _ W).
  - intros x c. rewrite Hown. destruct (decide (x = this)) as [->|Hx]; [rewrite lookup_insert_eq; intros [= <-]; rewrite HB; eauto|].
    rewrite lookup_insert_ne by done. apply (owner_live _ _ W).
  - intros x. rewrite Hown. destruct (decide (x = this)) as [->|Hx]; [by rewrite lookup_insert_eq|]. rewrite lookup_insert_ne by done.
    intros Hx2. assert (∀ y, y = prev_in (output_ B) p ∨ y = next_in q (output_ B) → y ≠ x) as He.
    { intros y Hy ->. destruct (Hends x Hy) as [? _]. congruence. }
    rewrite HN, HP, !lookup_insert_ne by (congruence || apply He; tauto). by apply (loose _ _ W).
  - intros c C HC. assert (input_ C ≠ this) as Hne.
    { intros <-. destruct (lists_dom _ _ W c) as [_ Hd]. destruct (Hd ltac:(rewrite HC; eauto)) as [k Hk].
      assert (f_owner s !! input_ C = Some (Some c)); [|congruence]. apply (members _ _ W c C k _ HC Hk). right. by left. }
    assert (∀ x, x = prev_in (output_ B) p ∨ x = next_in q (output_ B) → x ≠ input_ C) as He.
    { intros x Hx ->. destruct (Hends _ Hx) as [Hob Hnb]. destruct (lists_dom _ _ W c) as [_ Hd].
      destruct (Hd ltac:(rewrite HC; eauto)) as [k Hk]. assert (f_owner s !! input_ C = Some (Some c)) as Hoc.
      { apply (members _ _ W c C k _ HC Hk). right. by left. }
      assert (c = b) as -> by congruence. assert (C = B) as -> by congruence. done. }
    rewrite HN, HP, !lookup_insert_ne by (congruence || apply He; tauto). by eapply (loose_param _ _ W).
Qed.

Lemma chain_frame_pos s s' x l y : changes [Pos] s s' → chain (linked s) x l y → chain (linked s') x l y.
Proof. intros C. apply (frame_chain _ _ _ C). by vm_compute. Qed.

(** Positions of the lists that did not change. *)
Lemma positions_lists L s s' b B p q this :
  wf_lists L s → wf_positions L s → block_heap s !! b = Some B → L !! b = Some (p ++ q) → f_owner s !! this = Some None →
  block_heap s' = block_heap s → (∀ x, x ∉ p ++ this :: q → f_pos s' !! x = f_pos s !! x) →
  StronglySorted Z.lt (positions s' (input_ B :: (p ++ this :: q) ++ [output_ B])) →
  wf_positions (<[b := p ++ this :: q]> L) s'.
Proof.
  intros W WP HB Hl Ho Hheap Hpos Hsort. pose proof (members_NoDup _ _ W b B _ HB Hl) as Hnd.
  assert (Hother : ∀ c C k x, block_heap s !! c = Some C → L !! c = Some k → x ∈ block_nodes C k → c ≠ b → x ∉ p ++ this :: q).
  { intros c C k x HC Hk Hx Hne Hin. assert (Hox : f_owner s !! x = Some (Some c)) by (by apply (members _ _ W c C k x HC Hk)).
    rewrite <- Permutation_middle in Hin. apply elem_of_cons in Hin as [->|Hin]; [congruence|].
    assert (f_owner s !! x = Some (Some b)); [|congruence]. apply (members _ _ W b B _ x HB Hl). by do 2 right. }
  assert (Hends : (input_ B ∉ p ++ this :: q) ∧ (output_ B ∉ p ++ this :: q)).
  { pose proof (loose_fresh _ _ _ _ _ _ W Ho HB Hl) as Hf. unfold block_nodes in *. rewrite !list.NoDup_cons in Hnd.
    destruct Hnd as (H1 & H2 & _). rewrite <- Permutation_middle, !not_elem_of_cons.
    apply not_elem_of_cons in H1 as [_ H1]. apply not_elem_of_cons in Hf as [? Hf]. apply not_elem_of_cons in Hf as [? _]. done. }
  constructor; rewrite Hheap.
  - intros c C HC. destruct (decide (c = b)) as [->|Hc].
    + assert (C = B) as -> by congruence. rewrite !Hpos by tauto. by eapply (pos_ends _ _ WP).
    + destruct (lists_dom _ _ W c) as [_ Hd]. destruct (Hd ltac:(rewrite HC; eauto)) as [k Hk].
      rewrite (Hpos (input_ C)), (Hpos (output_ C)) by (eapply (Hother c C k); [done|done|unfold block_nodes; rewrite !elem_of_cons; tauto|done]).
      by eapply (pos_ends _ _ WP).
  - intros c C k HC. destruct (decide (b = c)) as [<-|Hc].
    + rewrite lookup_insert_eq. intros [= <-]. by assert (C = B) as -> by congruence.
    + rewrite lookup_insert_ne by done. intros Hk. rewrite (positions_ext s s'); [by eapply (pos_sorted _ _ WP)|].
      intros x Hx. apply Hpos. eapply Hother; [done|done| |done]. unfold block_nodes. rewrite elem_of_cons, elem_of_app, list_elem_of_singleton in Hx.
      rewrite !elem_of_cons. tauto.
Qed.

Lemma inBlockList_loose N : next_ N = None → prev_ N = None → inBlockList N = Ok false.
Proof. unfold inBlockList. by intros -> ->. Qed.
Lemma inBlockList_in N x : next_ N = Some x → inBlockList N = Ok true.
Proof. unfold inBlockList. by intros ->. Qed.

Lemma insertAfter_Ok L s this b B p q :
  wf_lists L s → wf_positions L s → block_heap s !! b = Some B → L !! b = Some (p ++ q) → f_owner s !! this = Some None →
  S (length (p ++ q)) ≤ max_nodes → gap_fits s p q →
  ∃ s', insertAfter this (prev_in (output_ B) p) s = (Ok this, s') ∧ changes [Owner; Next; Prev; Pos] s s' ∧
    f_owner s' = <[this := Some b]> (f_owner s) ∧
    wf_lists (<[b := p ++ this :: q]> L) s' ∧ wf_positions (<[b := p ++ this :: q]> L) s'.
Proof.
  intros W WP HB Hl Ho Hlen Hgap. set (n := prev_in (output_ B) p). set (nx := next_in q (output_ B)).
  pose proof (ring _ _ W b B _ HB Hl) as Hr. apply chain_cut in Hr as (_ & Hcut & _). fold n nx in Hcut.
  destruct (loose _ _ W _ Ho) as [Hl1 Hl2]. pose proof Ho as (T & HT & HTo)%f_owner_Some.
  apply f_next_Some in Hl1 as (T' & HT' & Hnx). assert (T' = T) as -> by congruence. clear HT'.
  apply f_prev_Some in Hl2 as (T' & HT' & Hpv). assert (T' = T) as -> by congruence. clear HT'.
  assert (Hon : f_owner s !! n = Some (Some b)).
  { apply (members _ _ W b B _ n HB Hl). pose proof (prev_in_elem (output_ B) p) as H. fold n in H. unfold block_nodes.
    apply elem_of_cons in H as [->|H]; [by left|]. do 2 right. apply elem_of_app. by left. }
  pose proof Hcut as (N & HN & HNn)%linked_next. apply f_owner_Some in Hon as (N' & HN' & HNo).
  assert (N' = N) as -> by congruence. clear HN'.
  pose proof Hcut as (X & HX & _)%linked_prev.
  assert (Hne : this ≠ n) by (intros ->; congruence).
  set (s1 := upd_node nx (set_prev (Some this)) (upd_node this (set_next (Some nx)) (upd_node this (set_prev (Some n))
    (upd_node n (set_next (Some this)) (upd_node this (set_owning_block (Some b)) s))))).
  assert (C1 : changes [Owner; Next; Prev; Pos] s s1) by (unfold s1; chain_changes).
  assert (Hown1 : f_owner s1 = <[this := Some b]> (f_owner s)).
  { rewrite <- (f_owner_upd s this (Some b) T) by done. unfold s1, f_owner, upd_node. cbn. by rewrite !(alter_frame owning_block_ _ _ (alter _ _ _)) by done. }
  assert (Hnext1 : f_next s1 = <[this := Some nx]> (<[n := Some this]> (f_next s))).
  { unfold s1. rewrite f_next_frame, f_next_upd, f_next_frame, f_next_upd, f_next_frame by (done || live). done. }
  assert (Hprev1 : f_prev s1 = <[nx := Some this]> (<[this := Some n]> (f_prev s))).
  { unfold s1. rewrite f_prev_upd, f_prev_frame, f_prev_upd, f_prev_frame, f_prev_frame by (done || live). done. }
  assert (Hpos1 : f_pos s1 = f_pos s) by (unfold s1, f_pos, upd_node; cbn; by rewrite !alter_frame by done).
  assert (W1 : wf_lists (<[b := p ++ this :: q]> L) s1) by (by eapply lists_insert).
  assert (Hl' : <[b := p ++ this :: q]> L !! b = Some (p ++ this :: q)) by apply lookup_insert_eq.
  destruct (assignTopoPosition_Ok s1 b B this p q) as (s2 & E2 & C2 & Hp2 & Hs2).
  - done.
  - by rewrite Hown1, lookup_insert_eq.
  - by apply (ring _ _ W1 b).
  - by apply (members_NoDup _ _ W1 b).
  - rewrite Hpos1. by eapply (pos_ends _ _ WP).
  - rewrite Hpos1. by eapply (pos_ends _ _ WP).
  - rewrite (positions_ext s s1) by (intros; by rewrite Hpos1). by eapply (pos_sorted _ _ WP).
  - rewrite length_app in *. cbn. lia.
  - intros x y px py. rewrite Hpos1. apply Hgap.
  - exists s2. split; [|split; [|split; [|split]]].
    + unfold insertAfter. step. step. rewrite (inBlockList_loose T), (inBlockList_in N nx) by done.
      step. cbv iota. step. rewrite run_assert by done. rewrite run_assert by (rewrite HNo; by apply bool_decide_eq_true). step. rewrite HNn.
      step. step. step. step. step. rewrite HNo. fold s1. by rewrite (run_bind _ _ _ _ _ E2).
    + eapply changes_step; [exact C1|]. eapply changes_weaken; [exact C2|]. subfields.
    + assert (f_owner s2 = f_owner s1) as -> by (apply (C2 Owner); outside). done.
    + eapply (frame_lists _ _ _ C2); [by vm_compute|done].
    + eapply (positions_lists L s s2 b B); try done.
      * assert (block_heap s2 = block_heap s1) as -> by (apply (C2 BlockHeap); outside). done.
      * intros x Hx. by rewrite Hp2, Hpos1.
Qed.

Lemma insertBefore_Ok L s this b B p q :
  wf_lists L s → wf_positions L s → block_heap s !! b = Some B → L !! b = Some (p ++ q) → f_owner s !! this = Some None →
  S (length (p ++ q)) ≤ max_nodes → gap_fits s p q →
  ∃ s', insertBefore this (next_in q (output_ B)) s = (Ok this, s') ∧ changes [Owner; Next; Prev; Pos] s s' ∧
    f_owner s' = <[this := Some b]> (f_owner s) ∧
    wf_lists (<[b := p ++ this :: q]> L) s' ∧ wf_positions (<[b := p ++ this :: q]> L) s'.
Proof.
  intros W WP HB Hl Ho Hlen Hgap. destruct (insertAfter_Ok L s this b B p q) as (s' & E & ?); [done..|].
  exists s'. split; [|done]. pose proof (ring _ _ W b B _ HB Hl) as Hr.
  assert (is_Some (f_next s !! next_in q (output_ B))) as [nx Hnx].
  { pose proof (chain_live _ _ _ _ Hr (next_in q (output_ B))) as [N HN].
    - pose proof (next_in_elem q (output_ B)) as H'. rewrite elem_of_cons in *. rewrite elem_of_app. tauto.
    - exists (next_ N). apply f_next_Some. eauto. }
  apply chain_cut in Hr as (_ & Hcut & Hin). apply linked_prev in Hcut as (X & HX & Hpv).
  assert (∃ y, next_ X = Some y) as [y Hy].
  { pose proof (ring _ _ W b B _ HB Hl) as Hr. apply f_next_Some in Hnx as (X' & HX' & Hnx). assert (X' = X) as -> by congruence.
    destruct q as [|z q]; cbn [next_in] in *.
    - pose proof (chain_next _ _ _ _ Hr) as (O & HO & HOn)%linked_next. assert (O = X) as -> by congruence. eauto.
    - apply chain_app in Hr as [_ Hr]. apply chain_next in Hr as (Z & HZ & HZn)%linked_next. assert (Z = X) as -> by congruence. eauto. }
  unfold insertBefore. step. rewrite (inBlockList_in X y) by done. step. rewrite run_assert by done. rewrite Hpv. step.
  by rewrite (run_bind _ _ _ _ _ E).
Qed.

(** ** Taking a node out *)
Lemma linked_remove s n pv nx s' :
  linked s pv n → linked s n nx →
  f_next s' = <[n := None]> (<[pv := Some nx]> (f_next s)) → f_prev s' = <[n := None]> (<[nx := Some pv]> (f_prev s)) →
  ∀ a b, linked s a b → a ≠ n → a ≠ pv → b ≠ n → linked s' a b.
Proof.
  intros Hp Hn HN HP a b Hab Ha1 Ha2 Hb. assert (b ≠ nx) by (intros ->; apply Ha1; by eapply linked_inj). destruct Hab as [H1 H2].
  split; [by rewrite HN, !lookup_insert_ne|by rewrite HP, !lookup_insert_ne].
Qed.

Lemma inner_tail R a l : inner R (a :: l) → inner R l.
Proof. destruct l; [done|]. by intros [_ H]. Qed.
Lemma inner_init R l a : inner R (l ++ [a]) → inner R l.
Proof. destruct l as [|x l _] using rev_ind; [done|]. intros H. by apply inner_app in H as [H _]. Qed.

Lemma ring_remove s n o p q s' :
  chain (linked s) o (p ++ n :: q) o → NoDup (o :: p ++ n :: q) →
  f_next s' = <[n := None]> (<[prev_in o p := Some (next_in q o)]> (f_next s)) →
  f_prev s' = <[n := None]> (<[next_in q o := Some (prev_in o p)]> (f_prev s)) →
  chain (linked s') o (p ++ q) o.
Proof.
  intros Hr Hnd HN HP. apply chain_cut in Hr as (H1 & H2 & H3). cbn [next_in app] in *.
  assert (H4 : linked s n (next_in q o) ∧ inner (linked s) (q ++ [o])).
  { destruct q as [|z q]; cbn in *; tauto. }
  destruct H4 as [H4 H5]. pose proof (linked_remove s n _ _ s' H2 H4 HN HP) as Hkeep.
  rewrite app_comm_cons in Hnd. apply list.NoDup_app in Hnd as (Hnd1 & Hdis & Hnd2). apply list.NoDup_cons in Hnd2 as [Hnq Hnd2].
  assert (Hpn : prev_in o p ≠ n) by (intros E; apply (Hdis n); [rewrite <- E; apply prev_in_elem|by left]).
  assert (Hxn : next_in q o ≠ n).
  { intros E. destruct q as [|z q]; cbn in E; subst; [by apply (Hdis n); [left|left]|]. apply Hnq. by left. }
  apply chain_cut. split_and!.
  - eapply inner_mono; [done| |exact H1]. intros a c Ha Hlast Hac. apply Hkeep; [done| | |].
    + intros ->. apply (Hdis n); [done|by left].
    + intros ->. apply Hlast. unfold prev_in. rewrite last_cons. by destruct (list.last p).
    + intros ->. apply Hlast. rewrite (linked_inj _ _ _ _ Hac H2). unfold prev_in. rewrite last_cons. by destruct (list.last p).
  - split; [by rewrite HN, lookup_insert_ne, lookup_insert_eq|by rewrite HP, lookup_insert_ne, lookup_insert_eq].
  - eapply inner_mono; [| |exact H5].
    + apply list.NoDup_app. split_and!; [done| |apply NoDup_singleton]. intros x Hx ->%list_elem_of_singleton.
      apply (Hdis o); [by left|by right].
    + intros a c Ha Hlast Hac. rewrite last_snoc in Hlast. apply elem_of_app in Ha as [Ha|Ha%list_elem_of_singleton]; [|congruence].
      apply Hkeep; [done| | |].
      * by intros ->.
      * intros ->. apply (Hdis (prev_in o p)); [apply prev_in_elem|by right].
      * intros ->. assert (a = prev_in o p) as -> by (by eapply linked_inj). apply (Hdis (prev_in o p)); [apply prev_in_elem|by right].
Qed.

Lemma lists_remove L s n b B p q s' :
  wf_lists L s → block_heap s !! b = Some B → L !! b = Some (p ++ n :: q) →
  block_heap s' = block_heap s → f_owner s' = <[n := None]> (f_owner s) →
  f_next s' = <[n := None]> (<[prev_in (output_ B) p := Some (next_in q (output_ B))]> (f_next s)) →
  f_prev s' = <[n := None]> (<[next_in q (output_ B) := Some (prev_in (output_ B) p)]> (f_prev s)) →
  wf_lists (<[b := p ++ q]> L) s'.
Proof.
  intros W HB Hl Hheap Hown HN HP.
  pose proof (ring _ _ W b B _ HB Hl) as Hr. pose proof (members_NoDup _ _ W b B _ HB Hl) as Hnd.
  assert (Hnd' : NoDup (output_ B :: p ++ n :: q)).
  { unfold block_nodes in Hnd. rewrite !list.NoDup_cons in Hnd. rewrite list.NoDup_cons. destruct Hnd as (H1 & _ & ?).
    split; [|done]. intros H2. apply H1. by right. }
  pose proof Hr as Hr'. apply chain_app in Hr' as [Hr1%chain_prev Hr2%chain_next].
  assert (Hon : f_owner s !! n = Some (Some b)).
  { apply (members _ _ W b B _ n HB Hl). do 2 right. apply elem_of_app. right. by left. }
  assert (Hends : ∀ x, x = prev_in (output_ B) p ∨ x = next_in q (output_ B) → f_owner s !! x = Some (Some b) ∧ x ≠ input_ B).
  { intros x Hx. assert (x ∈ output_ B :: p ++ q) as Hin.
    { destruct Hx as [->| ->]; [pose proof (prev_in_elem (output_ B) p) as H|pose proof (next_in_elem q (output_ B)) as H];
        apply elem_of_cons in H as [->|H]; try (by left); right; apply elem_of_app; tauto. }
    assert (x ∈ output_ B :: p ++ n :: q) as Hin' by (rewrite elem_of_cons, elem_of_app, ?elem_of_cons in *; tauto). split.
    - apply (members _ _ W b B _ x HB Hl). unfold block_nodes. apply elem_of_cons in Hin' as [->|Hin']; [by left|right; by right].
    - intros ->. unfold block_nodes in Hnd. rewrite !list.NoDup_cons in Hnd. destruct Hnd as (H1 & H2 & _).
      apply elem_of_cons in Hin' as [E|Hin']; [apply H1; rewrite E; by left|done]. }
  assert (Hni : n ≠ input_ B).
  { intros ->. unfold block_nodes in Hnd. rewrite !list.NoDup_cons in Hnd. destruct Hnd as (_ & H2 & _). apply H2, elem_of_app. right. by left. }
  assert (Hperm : block_nodes B (p ++ n :: q) ≡ₚ n :: block_nodes B (p ++ q)) by apply block_nodes_insert.
  rewrite Hperm in Hnd. apply list.NoDup_cons in Hnd as [Hnn Hnd].
  constructor; rewrite ?Hheap.
  - intros c. destruct (decide (b = c)) as [<-|Hc]; [rewrite lookup_insert_eq, HB; split; eauto|].
    rewrite lookup_insert_ne by done. apply (lists_dom _ _ W).
  - intros c C k HC. destruct (decide (b = c)) as [<-|Hc].
    + rewrite lookup_insert_eq. intros [= <-]. assert (C = B) as -> by congruence. by eapply ring_remove.
    + rewrite lookup_insert_ne by done. intros Hk. pose proof (ring _ _ W c C k HC Hk) as Hrc.
      eapply chain_mono; [|exact Hrc]. intros x y Hx Hxy.
      assert (f_owner s !! x = Some (Some c)) as Hxc.
      { apply (members _ _ W c C k x HC Hk). unfold block_nodes. rewrite !elem_of_cons in *. tauto. }
      destruct (Hends (prev_in (output_ B) p) ltac:(by left)) as [Hpb _].
      assert (x ≠ prev_in (output_ B) p) by congruence.
      apply (linked_remove s n _ _ s' Hr1 Hr2 HN HP); [done|congruence|done|]. intros ->. assert (x = prev_in (output_ B) p); [|done].
      by eapply linked_inj.
  - intros c C k x HC. destruct (decide (b = c)) as [<-|Hc].
    + rewrite lookup_insert_eq. intros [= <-]. assert (C = B) as -> by congruence. rewrite Hown.
      destruct (decide (x = n)) as [->|Hx]; [rewrite lookup_insert_eq; split; [done|by intros [=]]|]. rewrite lookup_insert_ne by done.
      rewrite <- (members _ _ W b B _ x HB Hl), Hperm, elem_of_cons. tauto.
    + rewrite lookup_insert_ne by done. intros Hk. rewrite Hown, (members _ _ W c C k x HC Hk).
      destruct (decide (x = n)) as [->|Hx]; [|by rewrite lookup_insert_ne]. rewrite lookup_insert_eq, Hon. split; congruence.
  - intros c C k HC. destruct (decide (b = c)) as [<-|Hc].
    + rewrite lookup_insert_eq. intros [= <-]. by assert (C = B) as -> by congruence.
    + rewrite lookup_insert_ne by done. by apply (members_NoDup _ _ W).
  - intros x c. rewrite Hown. destruct (decide (x = n)) as [->|Hx]; [by rewrite lookup_insert_eq|].
    rewrite lookup_insert_ne by done. apply (owner_live _ _ W).
  - intros x. rewrite Hown, HN, HP. destruct (decide (x = n)) as [->|Hx]; [by rewrite !lookup_insert_eq|]. rewrite !(lookup_insert_ne _ n) by done.
    intros Hx2. assert (∀ y, y = prev_in (output_ B) p ∨ y = next_in q (output_ B) → y ≠ x) as He.
    { intros y Hy ->. destruct (Hends x Hy) as [? _]. congruence. }
    rewrite !lookup_insert_ne by (apply He; tauto). by apply (loose _ _ W).
  - intros c C HC. destruct (lists_dom _ _ W c) as [_ Hd]. destruct (Hd ltac:(rewrite HC; eauto)) as [k Hk].
    assert (f_owner s !! input_ C = Some (Some c)) as Hoc by (apply (members _ _ W c C k _ HC Hk); right; by left).
    assert (n ≠ input_ C) as Hne.
    { intros E. assert (c = b) as -> by congruence. assert (C = B) as -> by congruence. done. }
    assert (∀ x, x = prev_in (output_ B) p ∨ x = next_in q (output_ B) → x ≠ input_ C) as He.
    { intros x Hx ->. destruct (Hends _ Hx) as [Hob Hnb]. assert (c = b) as -> by congruence. assert (C = B) as -> by congruence. done. }
    rewrite HN, HP, !lookup_insert_ne by (done || apply He; tauto). by eapply (loose_param _ _ W).
Qed.

Lemma removeFromList_Ok L s n b B p q :
  wf_lists L s → wf_positions L s → block_heap s !! b = Some B → L !! b = Some (p ++ n :: q) →
  ∃ s', removeFromList n s = (Ok tt, s') ∧ changes [Owner; Next; Prev] s s' ∧ f_owner s' = <[n := None]> (f_owner s) ∧
    wf_lists (<[b := p ++ q]> L) s' ∧ wf_positions (<[b := p ++ q]> L) s'.
Proof.
  intros W WP HB Hl. pose proof (ring _ _ W b B _ HB Hl) as Hr. apply chain_app in Hr as [Hr1%chain_prev Hr2%chain_next].
  set (pv := prev_in (output_ B) p) in *. set (nx := next_in q (output_ B)) in *.
  pose proof Hr1 as (N & HN & Hpv)%linked_prev. pose proof Hr2 as (N' & HN' & Hnx)%linked_next. assert (N' = N) as -> by congruence. clear HN'.
  pose proof Hr1 as (P & HP & _)%linked_next. pose proof Hr2 as (X & HX & _)%linked_prev.
  set (s1 := upd_node n (set_prev None) (upd_node n (set_next None) (upd_node nx (set_prev (Some pv)) (upd_node pv (set_next (Some nx))
    (upd_node n (set_owning_block None) s))))).
  assert (C1 : changes [Owner; Next; Prev] s s1) by (unfold s1; chain_changes).
  assert (Hown1 : f_owner s1 = <[n := None]> (f_owner s)).
  { rewrite <- (f_owner_upd s n None N) by done. unfold s1, f_owner, upd_node. cbn. by rewrite !(alter_frame owning_block_ _ _ (alter _ _ _)) by done. }
  assert (Hnext1 : f_next s1 = <[n := None]> (<[pv := Some nx]> (f_next s))).
  { unfold s1. rewrite f_next_frame, f_next_upd, f_next_frame, f_next_upd, f_next_frame by (done || live). done. }
  assert (Hprev1 : f_prev s1 = <[n := None]> (<[nx := Some pv]> (f_prev s))).
  { unfold s1. rewrite f_prev_upd, f_prev_frame, f_prev_upd, f_prev_frame, f_prev_frame by (done || live). done. }
  exists s1. split; [|split; [exact C1|split; [done|split]]].
  - unfold removeFromList. step. rewrite (inBlockList_in N nx) by done. step. rewrite run_assert by done. step. rewrite Hnx. step.
    rewrite Hpv. step. step. step. step. step. done.
  - by eapply lists_remove.
  - assert (Hpos1 : f_pos s1 = f_pos s) by (apply (C1 Pos); outside).
    constructor.
    + intros c C HC. rewrite Hpos1. by eapply (pos_ends _ _ WP).
    + intros c C k HC. change (block_heap s1) with (block_heap s) in HC. rewrite (positions_ext s s1) by (intros; by rewrite Hpos1).
      destruct (decide (b = c)) as [<-|Hc].
      * rewrite lookup_insert_eq. intros [= <-]. assert (C = B) as -> by congruence. pose proof (pos_sorted _ _ WP b B _ HB Hl) as Hs.
        replace (input_ B :: (p ++ n :: q) ++ [output_ B]) with ((input_ B :: p) ++ (n :: q) ++ [output_ B]) in Hs by (cbn; by rewrite <- app_assoc).
        replace (input_ B :: (p ++ q) ++ [output_ B]) with ((input_ B :: p) ++ q ++ [output_ B]) by (cbn; by rewrite <- app_assoc).
        rewrite positions_app in Hs. rewrite positions_app.
        apply StronglySorted_app in Hs as (H1 & H2 & H3). apply StronglySorted_app.
        change (positions s ((n :: q) ++ [output_ B])) with (default 0%Z (f_pos s !! n) :: positions s (q ++ [output_ B])) in *.
        apply StronglySorted_inv in H3 as [H3 _]. split_and!; [|done|done]. intros x y Hx Hy. apply H1; [done|by right].
      * rewrite lookup_insert_ne by done. by apply (pos_sorted _ _ WP).
Qed.
