(* ===== verification/IROrder.v ===== *)
(** * The order of the nodes

    [isBefore] compares the positions of two nodes of one block, and for nodes of
    different blocks those of the nodes that hold them in the innermost block both
    lie in.  The comparison agrees with the order of the list of that block. *)
From stdpp Require Import sorting.
From S2P Require Import Prelude JitGraph IRSpec IRLists.
Local Open Scope nat_scope.
#[local] Set Warnings "-clear-no-such-hyp".
Import IR.

(** All nodes of a block in order: the parameters, the list, the return node. *)
Definition ordered (B : Block) (l : list ptr) : list ptr := input_ B :: l ++ [output_ B].

(** Going up from node [n], node [m] is the one in block [b]. *)
Inductive within (s : Store) (b : ptr) : ptr → ptr → Prop :=
  | within_here n : f_owner s !! n = Some (Some b) → within s b n n
  | within_up n c C k m : f_owner s !! n = Some (Some c) → c ≠ b → block_heap s !! c = Some C →
      owning_node_ C = Some k → within s b k m → within s b n m.

Lemma within_owner s b n m : within s b n m → f_owner s !! m = Some (Some b).
Proof. by induction 1. Qed.
Lemma within_fun s b n m m' : within s b n m → within s b n m' → m = m'.
Proof.
  intros H. revert m'. induction H as [n Ho|n c C k m Ho Hc HC Hk H IH]; intros m' H'; inversion H'; simplify_eq; [done|]. auto.
Qed.
Lemma within_in s b n m : f_owner s !! n = Some (Some b) → within s b n m → n = m.
Proof. intros Ho H. inversion H; by simplify_eq. Qed.

(** ** The way up *)

(** The blocks from [b] to the outermost one. *)
Inductive path (s : Store) : ptr → list ptr → Prop :=
  | path_top b B : block_heap s !! b = Some B → owning_node_ B = None → path s b [b]
  | path_loose b B n : block_heap s !! b = Some B → owning_node_ B = Some n → f_owner s !! n = Some None → path s b [b]
  | path_in b B n c l : block_heap s !! b = Some B → owning_node_ B = Some n → f_owner s !! n = Some (Some c) →
      path s c l → path s b (b :: l).

Lemma rooted_path s b : rooted s b → ∃ l, path s b l.
Proof.
  induction 1 as [b B HB Hn|b B n HB Hn Ho|b B n c HB Hn Ho _ [l IH]]; eexists;
    [eapply path_top|eapply path_loose|eapply path_in]; eauto.
Qed.
Lemma path_fun s b l l' : path s b l → path s b l' → l = l'.
Proof.
  intros H. revert l'. induction H as [b B HB Hn|b B n HB Hn Ho|b B n c l HB Hn Ho H IH]; intros l' H';
    inversion H'; simplify_eq; try done. f_equal. auto.
Qed.
Lemma path_suffix s b l c : path s b l → c ∈ l → ∃ k, path s c k ∧ length k ≤ length l ∧ (c ≠ b → length k < length l).
Proof.
  intros H. revert c. induction H as [b B HB Hn|b B n HB Hn Ho|b B n e l HB Hn Ho H IH]; intros c Hc.
  - apply list_elem_of_singleton in Hc as ->. exists [b]. split_and!; [by eapply path_top|done|done].
  - apply list_elem_of_singleton in Hc as ->. exists [b]. split_and!; [by eapply path_loose|done|done].
  - apply elem_of_cons in Hc as [->|Hc]; [exists (b :: l); split_and!; [by eapply path_in|done|done]|].
    destruct (IH c Hc) as (k & Hk & Hl & _). exists k. cbn. split_and!; [done|lia|lia].
Qed.
Lemma path_NoDup s b l : path s b l → NoDup l.
Proof.
  intros H. induction H as [b B HB Hn|b B n HB Hn Ho|b B n c l HB Hn Ho H IH]; try apply NoDup_singleton.
  apply list.NoDup_cons. split; [|done]. intros Hb. destruct (path_suffix _ _ _ _ H Hb) as (k & Hk & Hl & _).
  assert (b :: l = k) as <- by (eapply path_fun; [eapply path_in|]; eauto). cbn in Hl. lia.
Qed.
Lemma path_live s b l : path s b l → ∀ c, c ∈ l → is_Some (block_heap s !! c).
Proof.
  induction 1 as [b B HB Hn|b B n HB Hn Ho|b B n e l HB Hn Ho H IH]; intros c Hc; apply elem_of_cons in Hc as [->|Hc]; eauto;
    by apply not_elem_of_nil in Hc.
Qed.
Lemma path_size s b l : path s b l → length l ≤ size (block_heap s).
Proof. intros H. apply NoDup_length_size; [by eapply path_NoDup|by eapply path_live]. Qed.

(** The block a node lies in, seen from below, is on the way up. *)
Lemma within_path s b n m c l k :
  within s b n m → f_owner s !! n = Some (Some c) → path s c l → path s b k → length k ≤ length l.
Proof.
  intros H. revert c l. induction H as [n Ho|n d D e m Ho Hd HD He H IH]; intros c l Hc Hl Hk.
  - assert (c = b) as -> by congruence. by rewrite (path_fun _ _ _ _ Hl Hk).
  - assert (c = d) as -> by congruence. inversion Hl as [? ? ? ?|? ? n' ? ? Ho'|? ? n' ? l' ? ? Ho' Hl']; simplify_eq.
    + inversion H; simplify_eq.
    + specialize (IH _ _ Ho' Hl' Hk). cbn. lia.
Qed.

Section nesting.
Context (s : Store) (Hnest : wf_nesting s).

Lemma block_path b : is_Some (block_heap s !! b) → ∃ l, path s b l.
Proof. intros Hb. by apply rooted_path, Hnest. Qed.

(** A node held by [k] through block [d] is held where [k] is. *)
Lemma within_trans d D k b n z x :
  block_heap s !! d = Some D → owning_node_ D = Some k → is_Some (block_heap s !! b) → within s b k x →
  within s d n z → within s b n x.
Proof.
  intros HD Hk Hb Hx H. destruct (block_path d) as [ld Hld]; [eauto|]. destruct (block_path b Hb) as [lb Hlb].
  assert (Hlt : length lb < length ld).
  { inversion Hld as [? ? ? ?|? ? n' ? ? Ho'|? ? n' e l' ? ? Ho' Hl']; simplify_eq; [inversion Hx; simplify_eq|].
    pose proof (within_path _ _ _ _ _ _ _ Hx Ho' Hl' Hlb). cbn. lia. }
  induction H as [n Ho|n c C m z Ho Hc HC Hm H IH].
  - eapply within_up; [done| |done|done|done]. intros ->. rewrite (path_fun _ _ _ _ Hlb Hld) in Hlt. lia.
  - eapply within_up; [done| |done|done|exact IH]. intros ->. destruct (within_path s d n z b lb ld) as []; try done; try lia.
    eapply within_up; eauto.
Qed.

Lemma find_rhs_Ok b r c l fuel :
  f_owner s !! r = Some (Some c) → path s c l → length l < fuel →
  ∃ o, find_rhs fuel b (Some r) s = (Ok o, s) ∧
    match o with Some m => within s b r m | None => ∀ m, within s b r m → False end.
Proof.
  intros Ho Hl. revert r fuel Ho. induction Hl as [c C HC Hn|c C n HC Hn Hon|c C n e l HC Hn Hon H IH]; intros r fuel Ho Hf;
    pose proof Ho as (R & HR & HRo)%f_owner_Some; destruct fuel as [|fuel]; try (cbn in Hf; lia); cbn [find_rhs];
    rewrite (run_node _ R) by done; rewrite HRo; (destruct (Nat.eqb_spec b c) as [->|Hbc]; [exists (Some r); split; [done|by constructor]|]);
    rewrite (run_block _ C) by done; rewrite Hn.
  - exists None. destruct fuel; [cbn in Hf; lia|]. split; [done|]. intros m Hm. inversion Hm; by simplify_eq.
  - exists None. destruct fuel; [cbn in Hf; lia|]. cbn [find_rhs]. apply f_owner_Some in Hon as (N & HN & HNo).
    rewrite (run_node _ N) by done. rewrite HNo. split; [done|]. intros m Hm. inversion Hm as [|? ? ? ? ? ? ? ? ? Hm']; simplify_eq.
    assert (f_owner s !! n = Some None) by (apply f_owner_Some; eauto). inversion Hm'; simplify_eq.
  - destruct (IH n fuel Hon ltac:(cbn in Hf; lia)) as (o & E & Hm). exists o. split; [done|]. destruct o as [m|].
    + by eapply within_up.
    + intros m Hm'. inversion Hm'; simplify_eq. eauto.
Qed.

Lemma find_lhs_Ok b l0 x n y c l fuel :
  is_Some (block_heap s !! b) →
  within s b l0 x → within s b n y → x ≠ y ∨ x = l0 ∨ y = n →
  f_owner s !! l0 = Some (Some c) → path s c l → length l < fuel → find_lhs fuel (Some l0) n s = (Ok (x, y), s).
Proof.
  intros Hb Hx Hy Hxy. assert (Hin : ∀ d D k m, block_heap s !! d = Some D → owning_node_ D = Some k → within s b k x →
    within s d n m → x ≠ y ∨ y = n → False).
  { intros d D k m HD Hk Hkx Hm Hor. pose proof (within_trans d D k b n m x HD Hk Hb Hkx Hm) as Hnx.
    destruct Hor as [Hne| ->]; [by rewrite (within_fun _ _ _ _ _ Hy Hnx) in Hne|].
    pose proof (within_owner _ _ _ _ Hy) as Ho. destruct (block_path d) as [ld Hld]; [eauto|]. destruct (block_path b Hb) as [lb Hlb].
    pose proof (within_path _ _ _ _ _ _ _ Hm Ho Hlb Hld).
    inversion Hld as [? ? ? ?|? ? n' ? ? Ho'|? ? n' e l' ? ? Ho' Hl']; simplify_eq; [inversion Hkx; simplify_eq|].
    pose proof (within_path _ _ _ _ _ _ _ Hkx Ho' Hl' Hlb). cbn in *. lia. }
  assert (Hor : x = l0 ∨ x ≠ y ∨ y = n) by tauto. clear Hxy.
  assert (HNo : ∃ c l, f_owner s !! n = Some (Some c) ∧ path s c l).
  { inversion Hy as [? Ho|? d D ? ? Ho ? HD]; simplify_eq.
    - destruct (block_path b) as [ln Hln]; eauto.
    - destruct (block_path d) as [ln Hln]; eauto. }
  destruct HNo as (cn & ln & Hon & Hln). pose proof (path_size _ _ _ Hln) as Hsz.
  revert c l fuel. induction Hx as [l0 Ho|l0 d D k m Ho Hd HD Hk H IH]; intros c l fuel Hc Hl Hf;
    pose proof Ho as (R & HR & HRo)%f_owner_Some; (destruct fuel as [|fuel]; [lia|]); cbn [find_lhs];
    rewrite (run_node _ R) by done; rewrite run_assert by (apply bool_decide_eq_true; congruence); rewrite HRo; step; step.
  - destruct (find_rhs_Ok b n cn ln (S (S (size (block_heap s)))) Hon Hln ltac:(lia)) as (o & E & Hm).
    rewrite (run_bind _ _ _ _ _ E). destruct o as [z|]; [|by exfalso; eapply Hm]. by rewrite (within_fun _ _ _ _ _ Hy Hm).
  - assert (Hor' : m ≠ y ∨ y = n).
    { destruct Hor as [->|]; [|done]. apply within_owner in H. congruence. }
    destruct (find_rhs_Ok d n cn ln (S (S (size (block_heap s)))) Hon Hln ltac:(lia)) as (o & E & Hm).
    rewrite (run_bind _ _ _ _ _ E). destruct o as [z|]; [exfalso; by eapply (Hin d D k z)|]. rewrite (run_block _ D) by done. rewrite Hk.
    assert (c = d) as -> by congruence.
    inversion Hl as [? ? ? ?|? ? n' ? ? Ho'|? ? n' e l' ? ? Ho' Hl']; simplify_eq; [inversion H; simplify_eq|].
    eapply IH; [done| |exact Ho'|exact Hl'|cbn in Hf; lia]. by right.
Qed.
End nesting.

(** ** The comparison *)
Lemma sorted_lookup (l : list Z) i j a b : StronglySorted Z.lt l → l !! i = Some a → l !! j = Some b → (a <? b)%Z = (i <? j).
Proof.
  assert (H : ∀ l, StronglySorted Z.lt l → ∀ i j a b, i < j → l !! i = Some a → l !! j = Some b → (a < b)%Z).
  { clear. induction 1 as [|x l Hs IH Hall]; intros i j a b Hij Ha Hb; [done|]. destruct j as [|j]; [lia|]. cbn in Hb.
    destruct i as [|i]; cbn in Ha; [|eapply (IH i j); [lia|done|done]]. injection Ha as ->. rewrite List.Forall_forall in Hall.
    apply Hall, list_elem_of_In. by eapply list_elem_of_lookup_2. }
  intros Hs Ha Hb. destruct (Nat.ltb_spec i j) as [Hij|Hij]; [by apply Z.ltb_lt, (H l Hs i j)|]. apply Z.ltb_ge.
  destruct (decide (i = j)) as [->|Hne]; [simplify_eq; lia|]. apply Z.lt_le_incl, (H l Hs j i); [lia|done|done].
Qed.

Lemma compare_Ok L s b B l x y X Y i j side :
  wf_positions L s → block_heap s !! b = Some B → L !! b = Some l → node_heap s !! x = Some X → node_heap s !! y = Some Y →
  ordered B l !! i = Some x → ordered B l !! j = Some y →
  compare_positions side X Y = match side with BEFORE => i <? j | AFTER => j <? i end.
Proof.
  intros WP HB Hl HX HY Hi Hj. pose proof (pos_sorted _ _ WP b B l HB Hl) as Hs. fold (ordered B l) in Hs.
  assert (HPX : positions s (ordered B l) !! i = Some (topo_position_ X)).
  { unfold positions. rewrite list_lookup_fmap, Hi. cbn. f_equal. by rewrite (proj2 (f_pos_Some s x _) (ex_intro _ X (conj HX eq_refl))). }
  assert (HPY : positions s (ordered B l) !! j = Some (topo_position_ Y)).
  { unfold positions. rewrite list_lookup_fmap, Hj. cbn. f_equal. by rewrite (proj2 (f_pos_Some s y _) (ex_intro _ Y (conj HY eq_refl))). }
  destruct side; cbn; by eapply sorted_lookup.
Qed.

Lemma isBeforeOrAfter_Ok L s b B l this n x y i j side :
  wf L s → block_heap s !! b = Some B → L !! b = Some l →
  within s b this x → within s b n y → x ≠ y ∨ x = this ∨ y = n →
  ordered B l !! i = Some x → ordered B l !! j = Some y →
  isBeforeOrAfter this n side s = (Ok (match side with BEFORE => i <? j | AFTER => j <? i end), s).
Proof.
  intros W HB Hl Hx Hy Hxy Hi Hj.
  assert (∃ c T, node_heap s !! this = Some T ∧ owning_block_ T = Some c ∧ is_Some (block_heap s !! c)) as (c & T & HT & HTo & Hc).
  { inversion Hx as [? Ho|? d D ? ? Ho ? HD]; simplify_eq; apply f_owner_Some in Ho as (T & ? & ?); eauto 10. }
  assert (∃ N, node_heap s !! n = Some N) as (N & HN).
  { inversion Hy as [? Ho|? d D ? ? Ho ? HD]; simplify_eq; apply f_owner_Some in Ho as (N & ? & ?); eauto. }
  assert (HTf : f_owner s !! this = Some (Some c)) by (apply f_owner_Some; eauto).
  unfold isBeforeOrAfter. step. step. destruct (decide (owning_block_ T = owning_block_ N)) as [E|Hne].
  - assert (HNf : f_owner s !! n = Some (Some c)) by (apply f_owner_Some; exists N; split; congruence).
    assert (c = b) as ->.
    { destruct (decide (c = b)) as [|Hcb]; [done|exfalso]. pose proof (within_owner _ _ _ _ Hx). pose proof (within_owner _ _ _ _ Hy).
      inversion Hx as [|? ? ? ? ? ? ? ? ? Hkx]; simplify_eq. inversion Hy as [|? ? ? ? ? ? ? ? ? Hky]; simplify_eq.
      assert (x = y) as -> by (eapply within_fun; eauto). destruct Hxy as [?|[?|?]]; simplify_eq. }
    apply within_in in Hx as <-; [|done]. apply within_in in Hy as <-; [|done].
    apply pair_equal_spec. split; [|done]. f_equal. apply (compare_Ok L s b B l this n); try done; apply W.
  - step. destruct (block_path s (w_nesting _ _ W) c Hc) as [lc Hlc]. pose proof (path_size _ _ _ Hlc).
    rewrite (run_bind _ _ _ _ _ (find_lhs_Ok s (w_nesting _ _ W) b this x n y c lc (S (S (size (block_heap s)))) ltac:(eauto) Hx Hy Hxy HTf Hlc ltac:(lia))).
    cbn [fst snd]. pose proof (within_owner _ _ _ _ Hx) as (X & HX & _)%f_owner_Some. pose proof (within_owner _ _ _ _ Hy) as (Y & HY & _)%f_owner_Some.
    step. step. apply pair_equal_spec. split; [|done]. f_equal. apply (compare_Ok L s b B l x y); try done; apply W.
Qed.
