(* ===== verification/IRNames.v ===== *)
(** * The names of the values

    [setUniqueName] keeps the map from names to values and the names of the values
    each other's inverse: the former owner of a name gets the first free name with
    the same base and a number behind a dot, and the search for it ends. *)
From S2P Require Import Prelude Text JitTypes JitGraph IRSpec.
Local Open Scope string_scope.
Local Open Scope nat_scope.
#[local] Set Warnings "-clear-no-such-hyp".
Import IR.

(** ** Strings *)
Lemma show_Z_inj n m : (0 ≤ n)%Z → (0 ≤ m)%Z → show_Z n = show_Z m → n = m.
Proof.
  assert (R : ∀ k, (0 ≤ k)%Z → read_digits 0 (show_Z k) = k).
  { intros k Hk. unfold show_Z. replace (k <? 0)%Z with false by lia.
    rewrite read_show_digits by (done || by apply log2_fuel). done. }
  intros Hn Hm E. rewrite <- (R n Hn), <- (R m Hm). by rewrite E.
Qed.

Lemma all_digits_app s t : all_digits (s +:+ t) = all_digits s && all_digits t.
Proof. induction s as [|c s IH]; [done|]. rewrite str_app_cons. cbn. by rewrite IH, andb_assoc. Qed.

Lemma read_digits_nonneg s v : (0 ≤ v)%Z → (0 ≤ read_digits v s)%Z.
Proof.
  revert v. induction s as [|c s IH]; intros v Hv; cbn; [done|]. destruct (is_digit c) eqn:E; [|done]. apply IH.
  unfold is_digit, digit_val in *. lia.
Qed.
Lemma strtol_digits s : s ≠ "" → all_digits s = true → strtol s = Some (read_digits 0 s).
Proof.
  destruct s as [|c s]; [done|]. intros _ H. cbn in H. apply andb_prop in H as [Hc _]. unfold strtol. cbn [skip_space].
  assert (is_space c = false) as -> by (unfold is_digit, is_space in *; lia).
  assert ((code c =? 45)%Z = false) as -> by (unfold is_digit in *; lia).
  assert ((code c =? 43)%Z = false) as -> by (unfold is_digit in *; lia). by rewrite Hc.
Qed.

Lemma rfind_lt c s n : JitTypes.rfind c s = Some n → n < String.length s.
Proof.
  revert n. induction s as [|c' s IH]; intros n; cbn; [done|]. destruct (JitTypes.rfind c s) as [m|].
  - intros [= <-]. specialize (IH m eq_refl). lia.
  - destruct (Ascii.eqb c' c); [intros [= <-]; lia|done].
Qed.
Lemma str_drop_nonempty n s : n < String.length s → str_drop n s ≠ "".
Proof. revert s. induction n as [|n IH]; intros [|c s] H; cbn in *; try lia; [done|]. apply IH. lia. Qed.

(** What follows the last dot of a name, read as a number. *)
Lemma split_name_cases name :
  (numeric_suffix name = None ∧ split_name name = Ok (name, 1%Z)) ∨
  ∃ d, numeric_suffix name = Some d ∧ (0 ≤ read_digits 0 (str_drop (S d) name))%Z ∧
    split_name name = if (read_digits 0 (str_drop (S d) name) <? 2 ^ 63)%Z
                      then Ok (str_take d name, read_digits 0 (str_drop (S d) name)) else Throw (StdOutOfRange "stoll").
Proof.
  unfold split_name, numeric_suffix. destruct (JitTypes.rfind "." name) as [d|] eqn:Hd; [|by left].
  destruct (negb _ && _) eqn:E; [|by left]. right. exists d. apply andb_prop in E as [E1 E2].
  pose proof (rfind_lt _ _ _ Hd). apply negb_true_iff, Nat.eqb_neq in E1.
  assert (Hne : str_drop (S d) name ≠ "") by (apply str_drop_nonempty; lia).
  pose proof (read_digits_nonneg (str_drop (S d) name) 0 ltac:(lia)) as Hnn. split_and!; [done|done|].
  unfold stoll. rewrite strtol_digits by done. destruct (Z.ltb_spec (read_digits 0 (str_drop (S d) name)) (2 ^ 63)) as [Hlt|Hge].
  - by rewrite andb_true_r, (proj2 (Z.leb_le _ _)) by lia.
  - by rewrite andb_false_r.
Qed.

(** ** Free names *)
Definition candidate (base : string) (suffix : Z) (k : nat) : string :=
  base +:+ "." +:+ show_Z (wrapU 64 (suffix + Z.of_nat k)).

Lemma candidate_inj base suffix j k :
  (Z.of_nat j < 2 ^ 64)%Z → (Z.of_nat k < 2 ^ 64)%Z → candidate base suffix j = candidate base suffix k → j = k.
Proof.
  intros Hj Hk E. unfold candidate in E. apply (inj (String.append base)) in E. apply (inj (String.append ".")) in E.
  unfold wrapU in E. apply show_Z_inj in E; try (apply Z.mod_pos_bound; lia).
  assert ((Z.of_nat j - Z.of_nat k) mod 2 ^ 64 = 0)%Z as H.
  { replace (Z.of_nat j - Z.of_nat k)%Z with ((suffix + Z.of_nat j) - (suffix + Z.of_nat k))%Z by lia.
    rewrite Zminus_mod, E, Z.sub_diag. done. }
  apply Z.mod_divide in H as [q Hq]; [|lia]. nia.
Qed.
Lemma candidate_valid base suffix k : isValidName (candidate base suffix k) = true ∧ candidate base suffix k ≠ "".
Proof.
  unfold candidate, isValidName. rewrite !all_digits_app. cbn [all_digits]. rewrite andb_false_r. split; [apply orb_true_r|]. by destruct base.
Qed.

Lemma fresh_name_cases names base fuel suffix :
  (0 ≤ suffix < 2 ^ 64)%Z →
  (∃ k, k < fuel ∧ fresh_name fuel names base suffix = Ok (candidate base suffix k) ∧ names !! candidate base suffix k = None ∧
    ∀ j, j < k → is_Some (names !! candidate base suffix j)) ∨
  (∀ j, j < fuel → is_Some (names !! candidate base suffix j)).
Proof.
  revert suffix. induction fuel as [|fuel IH]; intros suffix Hs; [right; lia|]. cbn [fresh_name].
  assert (E0 : base +:+ "." +:+ show_Z suffix = candidate base suffix 0).
  { unfold candidate, wrapU. by rewrite Z.add_0_r, Z.mod_small. }
  rewrite E0. destruct (decide (names !! candidate base suffix 0 = None)) as [H0|H0]; [left; exists 0; split_and!; [lia|done|done|lia]|].
  assert (Hsh : ∀ k, candidate base (wrapU 64 (suffix + 1)) k = candidate base suffix (S k)).
  { intros k. unfold candidate, wrapU. rewrite (Zplus_mod_idemp_l (suffix + 1)%Z (Z.of_nat k) (2 ^ 64)%Z).
    by replace (suffix + 1 + Z.of_nat k)%Z with (suffix + Z.of_nat (S k))%Z by lia. }
  assert (H0' : is_Some (names !! candidate base suffix 0)) by (destruct (names !! candidate base suffix 0); [eauto|done]).
  destruct (IH (wrapU 64 (suffix + 1))) as [(k & Hk & E & Hf & Hb)|Hall]; [unfold wrapU; apply Z.mod_pos_bound; lia| |].
  - left. exists (S k). rewrite <- Hsh. split_and!; [lia|done|done|]. intros [|j] Hj; [done|]. rewrite <- Hsh. apply Hb. lia.
  - right. intros [|j] Hj; [done|]. rewrite <- Hsh. apply Hall. lia.
Qed.

Lemma fresh_name_Ok names base suffix :
  (0 ≤ suffix < 2 ^ 64)%Z → (Z.of_nat (size names) < 2 ^ 64)%Z →
  ∃ k, fresh_name (S (size names)) names base suffix = Ok (candidate base suffix k) ∧ names !! candidate base suffix k = None ∧
    ∀ j, j < k → is_Some (names !! candidate base suffix j).
Proof.
  intros Hs Hsz. destruct (fresh_name_cases names base (S (size names)) suffix Hs) as [(k & _ & H)|Hall]; [eauto|exfalso].
  set (l := candidate base suffix <$> seq 0 (S (size names))).
  assert (Hnd : NoDup l).
  { apply NoDup_fmap_2_strong; [|apply NoDup_seq]. intros j k Hj%elem_of_seq Hk%elem_of_seq. apply candidate_inj; lia. }
  assert (Hsub : list_to_set l ⊆ dom names).
  { intros x Hx. apply elem_of_list_to_set, list_elem_of_fmap in Hx as (j & -> & Hj%elem_of_seq). apply elem_of_dom, Hall. lia. }
  apply (subseteq_size (C:=gset string)) in Hsub. rewrite size_list_to_set, size_dom in Hsub by done.
  unfold l in Hsub. rewrite length_fmap, length_seq in Hsub. lia.
Qed.

(** ** The two assignments *)
Lemma f_name_Some s v x : f_name s !! v = Some x ↔ ∃ V, value_heap s !! v = Some V ∧ unique_name_ V = x.
Proof. unfold f_name. rewrite lookup_fmap_Some. naive_solver. Qed.
Lemma f_names_Some s g x : f_names s !! g = Some x ↔ ∃ G, graph_heap s !! g = Some G ∧ unique_names_ G = x.
Proof. unfold f_names. rewrite lookup_fmap_Some. naive_solver. Qed.

(** The name of [v] becomes [x], the names of [g] become [ns]. *)
Definition renamed (v g : ptr) (x : string) (h : gmap string ptr → gmap string ptr) (s : Store) : Store :=
  upd_value v (set_name x) (upd_graph g (λ G, set_unique_names (h (unique_names_ G)) G) s).

Lemma renamed_name v g x h s : is_Some (f_name s !! v) → f_name (renamed v g x h s) = <[v := x]> (f_name s).
Proof.
  intros Hv. unfold f_name, renamed, upd_value, upd_graph. cbn. rewrite (alter_hit unique_name_ _ (λ _, x)) by done. symmetry.
  destruct Hv as [y Hy]. by eapply (insert_alter _ _ (λ _, x)).
Qed.
Lemma renamed_names v g x h s ns : f_names s !! g = Some ns → f_names (renamed v g x h s) = <[g := h ns]> (f_names s).
Proof.
  intros Hg. unfold f_names, renamed, upd_value, upd_graph. cbn. rewrite (alter_hit unique_names_ _ h) by done. symmetry.
  by eapply insert_alter.
Qed.
Lemma renamed_changes v g x h s : changes [Name; Names] s (renamed v g x h s).
Proof. unfold renamed. chain_changes. Qed.

Lemma value_graph_fun s v g g' : value_graph s v g → value_graph s v g' → g = g'.
Proof. intros (n & i & H1 & H2) (n' & i' & H1' & H2'). congruence. Qed.

Section names.
Context (s : Store) (v g : ptr) (ns : gmap string ptr) (old : string).
Context (W : wf_names s) (Hg : value_graph s v g) (Hns : f_names s !! g = Some ns) (Hold : f_name s !! v = Some old).

(** The names of [g] without that of [v]. *)
Lemma without_name x : delete old ns !! x = Some v → False.
Proof.
  intros [Hne Hx]%lookup_delete_Some. destruct (name_owner _ W _ _ _ _ Hns Hx) as (_ & Hx' & _). congruence.
Qed.

Lemma wf_renamed x h :
  isValidName x = true → (x = "" ∧ h = delete old) ∨ (x ≠ "" ∧ old = "" ∧ h = <[x := v]> ∧ ns !! x = None) →
  wf_names (renamed v g x h s).
Proof.
  intros Hvalid Hh. pose proof (renamed_changes v g x h s) as C.
  pose proof (renamed_name v g x h s ltac:(eauto)) as HN. pose proof (renamed_names v g x h s ns Hns) as HNs.
  assert (HG : ∀ w k, value_graph (renamed v g x h s) w k ↔ value_graph s w k) by (intros; by apply (frame_value_graph _ _ _ C)).
  constructor.
  - intros k ms y w. rewrite HNs, HN, HG. destruct (decide (g = k)) as [<-|Hk].
    + rewrite lookup_insert_eq. intros [= <-]. destruct Hh as [[-> ->]|(Hx & Eo & -> & Hf)].
      * intros [Hne Hy]%lookup_delete_Some. destruct (name_owner _ W _ _ _ _ Hns Hy) as (? & Hw & ?).
        rewrite lookup_insert_ne by congruence. done.
      * intros [[<- <-]|[Hxy Hy]]%lookup_insert_Some; [by rewrite lookup_insert_eq|].
        destruct (name_owner _ W _ _ _ _ Hns Hy) as (? & Hw & ?). rewrite lookup_insert_ne by congruence. done.
    + rewrite lookup_insert_ne by done. intros Hm Hy. destruct (name_owner _ W _ _ _ _ Hm Hy) as (? & Hw & Hwk).
      rewrite lookup_insert_ne; [done|]. intros <-. apply Hk. by eapply value_graph_fun.
  - intros k ms y w. rewrite HNs, HN, HG. intros Hm Hy Hne Hwk. destruct (decide (v = w)) as [<-|Hvw].
    + rewrite lookup_insert_eq in Hy. injection Hy as <-. destruct Hh as [[-> _]|(Hx & Eo & -> & Hf)]; [done|].
      rewrite <- (value_graph_fun _ _ _ _ Hg Hwk), lookup_insert_eq in Hm. injection Hm as <-. by rewrite lookup_insert_eq.
    + rewrite lookup_insert_ne in Hy by done. destruct (decide (g = k)) as [<-|Hk].
      * rewrite lookup_insert_eq in Hm. injection Hm as <-. pose proof (owner_name _ W _ _ _ _ Hns Hy Hne Hwk) as Hy'.
        destruct Hh as [[-> ->]|(Hx & Eo & -> & Hf)].
        -- rewrite lookup_delete_ne; [done|]. intros <-. pose proof (owner_name _ W _ _ _ _ Hns Hold Hne Hg). congruence.
        -- rewrite lookup_insert_ne; congruence.
      * rewrite lookup_insert_ne in Hm by done. by eapply (owner_name _ W).
  - intros w y. rewrite HN. intros [[<- <-]|[Hvw Hy]]%lookup_insert_Some; [done|]. by eapply (name_valid _ W).
Qed.

(** The first step of [setUniqueName]: the old name goes. *)
Lemma drop_old {A} (V : Value) (k : unit → M A) :
  value_heap s !! v = Some V →
  ((if hasUniqueName V
    then update_graph g (λ G, set_unique_names (delete (unique_name_ V) (unique_names_ G)) G);; update_value v (set_name "")
    else mret tt) ≫= k) s =
  k tt (if hasUniqueName V then renamed v g "" (delete old) s else s).
Proof.
  intros HV. pose proof Hold as (V' & HV' & Ho)%f_name_Some. assert (V' = V) as -> by congruence.
  pose proof Hns as (G & HG & _)%f_names_Some. destruct (hasUniqueName V); [|done]. apply run_bind. rewrite Ho. step. step. done.
Qed.
Lemma drop_old_wf V (s1 := if hasUniqueName V then renamed v g "" (delete old) s else s) :
  value_heap s !! v = Some V →
  changes [Name; Names] s s1 ∧ wf_names s1 ∧ f_name s1 = <[v := ""]> (f_name s) ∧ f_names s1 = <[g := delete old ns]> (f_names s).
Proof.
  intros HV. pose proof Hold as (V' & HV' & Ho)%f_name_Some. assert (V' = V) as -> by congruence. unfold s1.
  unfold hasUniqueName. rewrite Ho. destruct (String.eqb_spec old "") as [->|Hne]; cbn [negb].
  - assert (ns !! "" = None).
    { destruct (ns !! "") as [w|] eqn:E; [|done]. by destruct (name_owner _ W _ _ _ _ Hns E) as (? & _). }
    rewrite delete_id by done. split_and!; [apply changes_refl|done| |]; symmetry; by apply insert_id.
  - split_and!; [apply renamed_changes|apply wf_renamed; [done|by left]|apply renamed_name; eauto|by apply renamed_names].
Qed.
End names.

Lemma value_node s v g V : value_graph s v g → value_heap s !! v = Some V → ∃ N, node_heap s !! node_ V = Some N ∧ graph_ N = g.
Proof.
  intros (n & i & Hd & Hn) HV. unfold f_def in Hd. rewrite lookup_fmap, HV in Hd. cbn in Hd. injection Hd as <- <-.
  unfold f_graph in Hn. apply lookup_fmap_Some in Hn as (N & ? & ?). eauto.
Qed.

(** The last step: the new name comes. *)
Lemma put_new s v g ns x :
  wf_names s → value_graph s v g → f_names s !! g = Some ns → f_name s !! v = Some "" → isValidName x = true → x ≠ "" →
  ns !! x = None →
  ∃ s', (update_graph g (λ G, set_unique_names (<[x := v]> (unique_names_ G)) G);; update_value v (set_name x);; mret v) s = (Ok v, s') ∧
    changes [Name; Names] s s' ∧ wf_names s' ∧ f_name s' = <[v := x]> (f_name s) ∧ f_names s' = <[g := <[x := v]> ns]> (f_names s).
Proof.
  intros W Hg Hns Hv Hx Hne Hf. exists (renamed v g x <[x := v]> s). split; [|split_and!].
  - apply f_name_Some in Hv as (V & HV & _). pose proof Hns as (G & HG & _)%f_names_Some. step. step. done.
  - apply renamed_changes.
  - eapply wf_renamed; [done..|]. right. done.
  - apply renamed_name. eauto.
  - by apply renamed_names.
Qed.

(** ** [setUniqueName] *)

(** Everything up to the choice of a name for the former owner. *)
Lemma setUniqueName_start fuel s v g ns old x :
  wf_names s → value_graph s v g → f_names s !! g = Some ns → f_name s !! v = Some old → isValidName x = true →
  ∃ s1, changes [Name; Names] s s1 ∧ wf_names s1 ∧ f_name s1 = <[v := ""]> (f_name s) ∧ f_names s1 = <[g := delete old ns]> (f_names s) ∧
    setUniqueName_rec (S fuel) v x s =
      (if String.eqb x "" then mret v
       else
         (match delete old ns !! x with
          | Some w => r ← lift (replacement_for x (delete old ns)); setUniqueName_rec fuel w r;; mret tt
          | None => mret tt
          end);;
         update_graph g (λ G, set_unique_names (<[x := v]> (unique_names_ G)) G);; update_value v (set_name x);; mret v) s1.
Proof.
  intros W Hg Hns Hold Hx. pose proof Hold as (V & HV & _)%f_name_Some. destruct (value_node _ _ _ _ Hg HV) as (N & HN & HNg).
  destruct (drop_old_wf s v g ns old W Hg Hns Hold V HV) as (C1 & W1 & HN1 & HNs1).
  set (s1 := if hasUniqueName V then renamed v g "" (delete old) s else s) in *. exists s1. split_and!; [done..|].
  cbn [setUniqueName_rec]. rewrite Hx. cbn [negb]. step. step. cbn zeta. rewrite HNg.
  rewrite (drop_old s v g ns old Hns Hold) by done. fold s1. cbv beta. destruct (String.eqb x ""); [done|].
  assert (Hns1 : f_names s1 !! g = Some (delete old ns)) by (by rewrite HNs1, lookup_insert_eq).
  pose proof Hns1 as (G & HG & HGn)%f_names_Some. step. by rewrite HGn.
Qed.

(** The name is free, or taken away. *)
Lemma setUniqueName_free fuel s v g ns old x :
  wf_names s → value_graph s v g → f_names s !! g = Some ns → f_name s !! v = Some old → isValidName x = true →
  delete old ns !! x = None →
  ∃ s', setUniqueName_rec (S fuel) v x s = (Ok v, s') ∧ changes [Name; Names] s s' ∧ wf_names s' ∧ f_name s' = <[v := x]> (f_name s) ∧
    f_names s' = <[g := if String.eqb x "" then delete old ns else <[x := v]> (delete old ns)]> (f_names s).
Proof.
  intros W Hg Hns Hold Hx Hf. destruct (setUniqueName_start fuel s v g ns old x) as (s1 & C1 & W1 & HN1 & HNs1 & ->); [done..|].
  destruct (String.eqb_spec x "") as [->|Hne]; [eexists; split_and!; done|]. rewrite Hf.
  assert (Hns1 : f_names s1 !! g = Some (delete old ns)) by (by rewrite HNs1, lookup_insert_eq).
  destruct (put_new s1 v g (delete old ns) x) as (s2 & E2 & C2 & W2 & HN2 & HNs2); try done.
  - by eapply (frame_value_graph _ _ _ C1).
  - by rewrite HN1, lookup_insert_eq.
  - exists s2. split_and!; [exact E2|by eapply changes_step|done| |].
    + by rewrite HN2, HN1, insert_insert_eq.
    + by rewrite HNs2, HNs1, insert_insert_eq.
Qed.

Lemma split_name_suffix x base suffix : split_name x = Ok (base, suffix) → (0 ≤ suffix < 2 ^ 64)%Z.
Proof.
  destruct (split_name_cases x) as [(_ & ->)|(d & _ & Hd & ->)]; [intros [= _ <-]; lia|].
  set (r := read_digits 0 (str_drop (S d) x)) in *. clearbody r. destruct (Z.ltb_spec r (2 ^ 63)); [|done]. intros [= _ <-]. lia.
Qed.

(** The name is taken: its owner [w] gets the first free candidate. *)
Lemma setUniqueName_taken s v g ns old x w base suffix :
  wf_names s → value_graph s v g → f_names s !! g = Some ns → f_name s !! v = Some old → isValidName x = true →
  delete old ns !! x = Some w → split_name x = Ok (base, suffix) → (Z.of_nat (size ns) < 2 ^ 64)%Z →
  ∃ k s', setUniqueName v x s = (Ok v, s') ∧ changes [Name; Names] s s' ∧ wf_names s' ∧
    delete old ns !! candidate base suffix k = None ∧ (∀ j, j < k → is_Some (delete old ns !! candidate base suffix j)) ∧
    f_name s' = <[v := x]> (<[w := candidate base suffix k]> (f_name s)).
Proof.
  intros W Hg Hns Hold Hx Hw Hsplit Hsz.
  destruct (setUniqueName_start 1 s v g ns old x) as (s1 & C1 & W1 & HN1 & HNs1 & Erun); [done..|]. fold setUniqueName in Erun.
  assert (Hns1 : f_names s1 !! g = Some (delete old ns)) by (by rewrite HNs1, lookup_insert_eq).
  destruct (fresh_name_Ok (delete old ns) base suffix (split_name_suffix _ _ _ Hsplit)) as (k & Ek & Hk & Hj).
  { pose proof (subseteq_size (dom (delete old ns)) (dom ns)) as Hd. rewrite !size_dom in Hd.
    specialize (Hd ltac:(rewrite dom_delete; set_solver)). lia. }
  destruct (candidate_valid base suffix k) as [Hcv Hcn].
  destruct (name_owner _ W1 _ _ _ _ Hns1 Hw) as (Hxne & HNw & Hgw).
  assert (Hwv : v ≠ w) by (intros <-; eapply (without_name s v g ns old); eauto).
  destruct (setUniqueName_free 0 s1 w g (delete old ns) x (candidate base suffix k)) as (s2 & E2 & C2 & W2 & HN2 & HNs2); try done.
  { rewrite lookup_delete_None. by right. }
  rewrite (proj2 (String.eqb_neq _ _)) in HNs2 by done. set (r := candidate base suffix k) in *.
  assert (Hrx : r ≠ x) by congruence.
  assert (Hns2 : f_names s2 !! g = Some (<[r := w]> (delete x (delete old ns)))) by (by rewrite HNs2, lookup_insert_eq).
  destruct (put_new s2 v g (<[r := w]> (delete x (delete old ns))) x) as (s3 & E3 & C3 & W3 & HN3 & HNs3); try done.
  - eapply (frame_value_graph _ _ _ C2); [done|]. by eapply (frame_value_graph _ _ _ C1).
  - by rewrite HN2, HN1, lookup_insert_ne, lookup_insert_eq.
  - by rewrite lookup_insert_ne, lookup_delete_eq.
  - exists k, s3. split_and!; [|by do 2 (eapply changes_step; [|eassumption])|done|done|done|].
    + rewrite Erun, (proj2 (String.eqb_neq _ _)), Hw by done. unfold replacement_for. rewrite Hsplit, Ok_bind. cbn [fst snd]. rewrite Ek.
      erewrite run_bind; [|change (lift (Ok ?a)) with (mret (M:=M) a); unfold mbind at 1; cbn; rewrite (run_bind _ _ _ _ _ E2); reflexivity].
      exact E3.
    + rewrite HN3, HN2, HN1. rewrite (insert_insert_ne (f_name s)) by done. by rewrite insert_insert_eq.
Qed.

(** The number behind the dot of a taken name does not fit: the value has lost its old
    name when the call fails. *)
Lemma setUniqueName_overflow s v g ns old x w d :
  wf_names s → value_graph s v g → f_names s !! g = Some ns → f_name s !! v = Some old → isValidName x = true →
  delete old ns !! x = Some w → numeric_suffix x = Some d → (2 ^ 63 ≤ read_digits 0 (str_drop (S d) x))%Z →
  ∃ s', setUniqueName v x s = (Throw (StdOutOfRange "stoll"), s') ∧ changes [Name; Names] s s' ∧ wf_names s' ∧
    f_name s' = <[v := ""]> (f_name s).
Proof.
  intros W Hg Hns Hold Hx Hw Hd Hbig.
  destruct (setUniqueName_start 1 s v g ns old x) as (s1 & C1 & W1 & HN1 & HNs1 & Erun); [done..|]. fold setUniqueName in Erun.
  assert (Hns1 : f_names s1 !! g = Some (delete old ns)) by (by rewrite HNs1, lookup_insert_eq).
  destruct (name_owner _ W1 _ _ _ _ Hns1 Hw) as (Hxne & _). exists s1. split_and!; [|done..].
  rewrite Erun, (proj2 (String.eqb_neq _ _)), Hw by done. unfold replacement_for.
  destruct (split_name_cases x) as [(E & _)|(d' & E & _ & ->)]; [congruence|]. assert (d' = d) as -> by congruence.
  rewrite (proj2 (Z.ltb_ge _ _)) by done. done.
Qed.
