(* ===== verification/IRBuild.v ===== *)
(** * New nodes and their outputs

    A new node is in no list, has no inputs and outputs, and keeps every part of the
    invariant; so does a value that becomes an output.

    Adding, inserting and erasing an output: the offsets of the outputs behind it
    move, the graph lists the value or no longer, and the invariant stays.

    An output without uses goes: its name is free again, the graph forgets it and the
    offsets of the outputs behind it go down. *)
From stdpp Require Import sorting.
From S2P Require Import Prelude JitTypes JitGraph IRSpec IRUses IRLists IRNames.
Local Open Scope string_scope.
Local Open Scope nat_scope.
#[local] Set Warnings "-clear-no-such-hyp".
Import IR.
Local Open Scope list_scope.

Lemma lookup_fresh {A B} (f : A → B) (m : gmap ptr A) i : m !! i = None → (f <$> m) !! i = None.
Proof. intros H. by rewrite lookup_fmap, H. Qed.

(** ** [new Node] *)
Definition blank_node (g : ptr) (k : Attributes.Symbol) (sc : option Attributes.Scope) : Node :=
  mkNode k [] [] [] g None None sc None 0 None None [].
Definition node_store (g : ptr) (k : Attributes.Symbol) (sc : option Attributes.Scope) (s : Store) : Store :=
  let n := next_ptr s in
  upd_graph g (λ G, set_all_nodes ({[n]} ∪ all_nodes G) G)
    (with_next_ptr (S n) (with_nodes (<[n := blank_node g k sc]> (node_heap s)) s)).

Lemma new_Node_run g k G s :
  graph_heap s !! g = Some G → new_Node g k s = (Ok (next_ptr s), node_store g k (current_scope_ G) s).
Proof. intros HG. unfold new_Node. step. step. cbv zeta. step. step. done. Qed.

Lemma node_store_heap g k sc s : node_heap (node_store g k sc s) = <[next_ptr s := blank_node g k sc]> (node_heap s).
Proof. done. Qed.

Section new_node.
Context (g : ptr) (k : Attributes.Symbol) (sc : option Attributes.Scope) (s : Store).
Context (Hfree : node_heap s !! next_ptr s = None).
Let n := next_ptr s.
Let s' := node_store g k sc s.

(** The fields of nodes: those of the new node are added. *)
Lemma new_node_field {A} (f : Node → A) : f <$> node_heap s' = <[n := f (blank_node g k sc)]> (f <$> node_heap s).
Proof. unfold s'. rewrite node_store_heap. apply fmap_insert. Qed.
Lemma new_node_old {A} (f : Node → A) m x :
  (f <$> node_heap s') !! m = Some x ↔ (m = n ∧ x = f (blank_node g k sc)) ∨ (m ≠ n ∧ (f <$> node_heap s) !! m = Some x).
Proof. rewrite new_node_field, lookup_insert_Some. naive_solver. Qed.
Lemma new_node_live {A} (f : Node → A) m x : (f <$> node_heap s) !! m = Some x → m ≠ n.
Proof. intros H ->. unfold n in H. rewrite lookup_fmap, Hfree in H. done. Qed.
Lemma new_node_keep {A} (f : Node → A) m x : (f <$> node_heap s) !! m = Some x → (f <$> node_heap s') !! m = Some x.
Proof. intros H. apply new_node_old. right. split; [by eapply new_node_live|done]. Qed.
Lemma new_node_all h A : f_all_nodes s' !! h = Some A →
  ∃ A0, f_all_nodes s !! h = Some A0 ∧ A = if decide (h = g) then {[n]} ∪ A0 else A0.
Proof.
  unfold f_all_nodes, s', node_store, upd_graph. cbn. rewrite (alter_hit all_nodes _ (λ A, {[n]} ∪ A)) by done.
  case_decide as Hh; [subst h; rewrite lookup_alter_eq|rewrite lookup_alter_ne by done].
  - intros (A0 & HA & ->)%fmap_Some. eauto.
  - intros H. eauto.
Qed.
Lemma new_node_changes : changes [Kind; Inputs; Outputs; Blocks; OfGraph; Owner; Next; Prev; Pos; NodeAttrs; AllNodes; Fresh] s s'.
Proof.
  intros f Hf. destruct f; try (exfalso; apply Hf; repeat constructor; fail); try reflexivity; apply alter_frame; reflexivity.
Qed.
Lemma new_node_value_graph v h : wf_defs s → value_graph s' v h ↔ value_graph s v h.
Proof.
  intros W. unfold value_graph. change (f_def s') with (f_def s). split; intros (m & i & Hd & Hm); exists m, i; (split; [done|]).
  - apply (new_node_old graph_) in Hm as [[-> _]|[_ Hm]]; [|done]. destruct (def_output _ W _ _ _ Hd) as (l & Hl & _).
    exfalso. by eapply (new_node_live outputs_).
  - by apply (new_node_keep graph_).
Qed.

Lemma node_uses : wf_uses s → wf_uses s'.
Proof.
  intros [HM Hnn]. constructor.
  - change (f_uses s') with (f_uses s). eapply mirror_ext; [|exact HM]. intros m i v. unfold edge. split.
    + intros (l & Hl & Hi). exists l. split; [by apply (new_node_keep inputs_)|done].
    + intros (l & Hl & Hi). apply (new_node_old inputs_) in Hl as [[-> ->]|[_ Hl]]; [done|]. eauto.
  - intros m l [[-> ->]|[_ Hl]]%(new_node_old inputs_); [by apply not_elem_of_nil|by eapply Hnn].
Qed.
Lemma node_defs : wf_defs s → wf_defs s'.
Proof.
  intros [H1 H2]. constructor; change (f_def s') with (f_def s).
  - intros m l i v [[-> ->]|[_ Hl]]%(new_node_old outputs_); [done|by eapply H1].
  - intros v m i Hd. destruct (H2 _ _ _ Hd) as (l & Hl & Hi). exists l. split; [by apply (new_node_keep outputs_)|done].
Qed.
Lemma node_blocks : wf_blocks s → wf_blocks s'.
Proof.
  intros [H1 H2 H3]. constructor; change (block_heap s') with (block_heap s).
  - intros m l b [[-> ->]|[_ Hl]]%(new_node_old blocks_); [by intros ?%not_elem_of_nil|by eapply H1].
  - intros b B m HB Hm. destruct (H2 _ _ _ HB Hm) as (l & Hl & Hi). exists l. split; [by apply (new_node_keep blocks_)|done].
  - intros m l [[-> ->]|[_ Hl]]%(new_node_old blocks_); [constructor|by eapply H3].
Qed.
Lemma node_linked x y : linked s x y → linked s' x y.
Proof. intros [H1 H2]. split; [by apply (new_node_keep next_)|by apply (new_node_keep prev_)]. Qed.
Lemma node_lists L : wf_lists L s → wf_lists L s'.
Proof.
  intros W. constructor; change (block_heap s') with (block_heap s).
  - apply (lists_dom _ _ W).
  - intros b B l HB Hl. eapply chain_mono; [|by eapply (ring _ _ W)]. intros x y _. apply node_linked.
  - intros b B l m HB Hl. rewrite (members _ _ W b B l m HB Hl). split.
    + apply (new_node_keep owning_block_).
    + by intros [[_ [=]]|[_ H]]%(new_node_old owning_block_).
  - apply (members_NoDup _ _ W).
  - intros m b [[_ [=]]|[_ H]]%(new_node_old owning_block_). by eapply (owner_live _ _ W).
  - intros m [[-> _]|[_ H]]%(new_node_old owning_block_).
    + split; [apply (new_node_old next_)|apply (new_node_old prev_)]; by left.
    + destruct (loose _ _ W _ H). split; [by apply (new_node_keep next_)|by apply (new_node_keep prev_)].
  - intros b B HB. destruct (loose_param _ _ W _ _ HB). split; [by apply (new_node_keep next_)|by apply (new_node_keep prev_)].
Qed.
Lemma node_positions L : wf_lists L s → wf_positions L s → wf_positions L s'.
Proof.
  intros W [H1 H2]. constructor; change (block_heap s') with (block_heap s).
  - intros b B HB. destruct (H1 b B HB). split; by apply (new_node_keep topo_position_).
  - intros b B l HB Hl. rewrite (positions_ext s); [by eapply H2|]. intros x Hx. unfold f_pos.
    rewrite (new_node_field topo_position_). apply lookup_insert_ne. intros <-.
    assert (x_own : f_owner s !! n = Some (Some b)).
    { apply (members _ _ W b B l n HB Hl). unfold block_nodes. rewrite elem_of_cons, elem_of_app, list_elem_of_singleton in Hx.
      rewrite !elem_of_cons. tauto. }
    by eapply (new_node_live owning_block_).
Qed.
Lemma node_graphs : is_Some (f_root s !! g) → wf_defs s → wf_graphs s → wf_graphs s'.
Proof.
  intros Hg WD W.
  assert (HR : f_root s' = f_root s) by (apply (new_node_changes Root); outside).
  assert (HAV : f_all_values s' = f_all_values s) by (apply (new_node_changes AllValues); outside).
  assert (HAB : f_all_blocks s' = f_all_blocks s) by (apply (new_node_changes AllBlocks); outside).
  constructor; change (block_heap s') with (block_heap s); rewrite ?HR, ?HAV, ?HAB.
  - intros m h [[-> ->]|[_ H]]%(new_node_old graph_); [done|by eapply (graph_live _ W)].
  - intros h A m (A0 & HA & ->)%new_node_all. unfold f_graph. rewrite new_node_old. cbn [blank_node graph_].
    pose proof (in_all_nodes _ W h A0 m HA) as Hin. assert (m ∈ A0 → m ≠ n) by (intros Hm; by eapply (new_node_live graph_), Hin).
    fold (f_graph s). case_decide; [rewrite elem_of_union, elem_of_singleton|]; destruct (decide (m = n)); naive_solver.
  - intros h A v HA. rewrite new_node_value_graph by done. by apply (in_all_values _ W).
  - apply (in_all_blocks _ W).
  - intros m l v h [[-> ->]|[_ Hl]]%(new_node_old inputs_); [by intros ?%not_elem_of_nil|]. intros Hv.
    rewrite new_node_value_graph by done. intros [[-> _]|[_ H]]%(new_node_old graph_); [exfalso; by eapply (new_node_live inputs_)|].
    by eapply (input_graph _ W).
  - intros b B HB. destruct (block_graph _ W _ _ HB). split; by apply (new_node_keep graph_).
  - intros b B m HB Hm. apply (new_node_keep graph_). by eapply (owner_graph _ W).
  - intros m b B [[_ [=]]|[_ H]]%(new_node_old owning_block_) HB. apply (new_node_keep graph_). by eapply (member_graph _ W).
Qed.
Lemma node_names : wf_defs s → wf_names s → wf_names s'.
Proof.
  intros WD W.
  assert (HN : f_names s' = f_names s) by (apply (new_node_changes Names); outside).
  constructor; change (f_name s') with (f_name s); rewrite ?HN.
  - intros h ns x v Hh Hx. destruct (name_owner _ W h ns x v Hh Hx) as (? & ? & ?). split_and!; [done..|]. by apply new_node_value_graph.
  - intros h ns x v Hh Hx Hne Hv%new_node_value_graph; [|done]. by apply (owner_name _ W h ns x v).
  - apply (name_valid _ W).
Qed.
Lemma node_uniques : wf_defs s → wf_uniques s → wf_uniques s'.
Proof.
  intros WD W.
  assert (HN : f_next_unique s' = f_next_unique s) by (apply (new_node_changes NextUnique); outside).
  constructor; change (f_unique s') with (f_unique s); rewrite ?HN.
  - intros v h i m Hi Hv%new_node_value_graph; [|done]. by apply (unique_below _ W v h).
  - intros v w h i Hi Hj Hv%new_node_value_graph Hw%new_node_value_graph; [|done..]. by apply (unique_inj _ W v w h i).
Qed.
Lemma node_fresh : wf_fresh s → wf_fresh s'.
Proof.
  intros [H1 H2 H3 H4].
  assert (HR : f_root s' = f_root s) by (apply (new_node_changes Root); outside).
  constructor; change (next_ptr s') with (S n); rewrite ?HR.
  - intros m [x [[-> _]|[_ H]]%(new_node_old kind_)]; [lia|]. specialize (H1 m (mk_is_Some _ _ H)). unfold n. lia.
  - intros v Hv. specialize (H2 v Hv). unfold n. lia.
  - intros v Hv. specialize (H3 v Hv). unfold n. lia.
  - intros v Hv. specialize (H4 v Hv). unfold n. lia.
Qed.
Lemma node_nesting : wf_nesting s → wf_nesting s'.
Proof.
  intros W b Hb. change (block_heap s') with (block_heap s) in Hb. specialize (W b Hb). clear Hb.
  induction W as [b B HB Hn|b B m HB Hn Ho|b B m c HB Hn Ho _ IH].
  - by eapply rooted_top.
  - eapply rooted_loose; [done..|]. by apply (new_node_keep owning_block_).
  - eapply rooted_in; [done..| |done]. by apply (new_node_keep owning_block_).
Qed.
End new_node.

Lemma free_node L s : wf L s → node_heap s !! next_ptr s = None.
Proof.
  intros W. destruct (node_heap s !! next_ptr s) as [N|] eqn:E; [|done]. 
  pose proof (node_below _ (w_fresh _ _ W) (next_ptr s)) as H. assert (next_ptr s < next_ptr s); [|lia]. apply H.
  exists (kind_ N). unfold f_kind. apply lookup_fmap_Some. eauto.
Qed.
Lemma graph_root s g : is_Some (f_root s !! g) ↔ is_Some (graph_heap s !! g).
Proof. unfold f_root. by rewrite lookup_fmap, fmap_is_Some. Qed.

(** The invariant while a graph has no block yet. *)
Record wf_open (L : gmap ptr (list ptr)) (s : Store) : Prop := {
  o_uses : wf_uses s; o_defs : wf_defs s; o_blocks : wf_blocks s; o_lists : wf_lists L s; o_positions : wf_positions L s;
  o_graphs : wf_graphs s; o_names : wf_names s; o_uniques : wf_uniques s; o_fresh : wf_fresh s; o_nesting : wf_nesting s
}.
Lemma wf_opened L s : wf L s → wf_open L s.
Proof. intros []. by constructor. Qed.
Lemma wf_closed L s : wf_open L s → wf_roots s → wf L s.
Proof. intros [] ?. by constructor. Qed.

Lemma node_store_open L s g k sc :
  node_heap s !! next_ptr s = None → wf_open L s → is_Some (graph_heap s !! g) → wf_open L (node_store g k sc s).
Proof.
  intros Hf W Hg. destruct W.
  constructor; [apply node_uses|apply node_defs|apply node_blocks|apply node_lists|apply node_positions|apply node_graphs|
    apply node_names|apply node_uniques|apply node_fresh|apply node_nesting]; try done. by apply graph_root.
Qed.
Lemma node_store_wf L s g k sc : wf L s → is_Some (graph_heap s !! g) → wf L (node_store g k sc s).
Proof.
  intros W Hg. apply wf_closed; [apply node_store_open; [by eapply free_node|by apply wf_opened|done]|].
  eapply (frame_roots _ _ _ (new_node_changes g k sc s)); [by vm_compute|apply W].
Qed.
Lemma new_Node_Ok L s g k :
  wf L s → is_Some (graph_heap s !! g) →
  ∃ sc, new_Node g k s = (Ok (next_ptr s), node_store g k sc s) ∧ wf L (node_store g k sc s).
Proof.
  intros W Hg. pose proof Hg as [G HG]. exists (current_scope_ G). split; [by apply new_Node_run|by apply node_store_wf].
Qed.

(** ** Adding and erasing outputs of nodes *)

Lemma f_outputs_Some s n l : f_outputs s !! n = Some l ↔ ∃ N, node_heap s !! n = Some N ∧ outputs_ N = l.
Proof. unfold f_outputs. rewrite lookup_fmap_Some. naive_solver. Qed.
Lemma f_next_unique_Some s g u : f_next_unique s !! g = Some u ↔ ∃ G, graph_heap s !! g = Some G ∧ next_unique_ G = u.
Proof. unfold f_next_unique. rewrite lookup_fmap_Some. naive_solver. Qed.

(** The outputs of a node differ. *)
Lemma outputs_NoDup s n l : wf_defs s → f_outputs s !! n = Some l → NoDup l.
Proof.
  intros W Hl. apply NoDup_alt. intros i j v Hi Hj. pose proof (output_def _ W _ _ _ _ Hl Hi). pose proof (output_def _ W _ _ _ _ Hl Hj).
  congruence.
Qed.

(** ** The offsets of the outputs behind a place *)
Definition move_def (n : ptr) (i : nat) (f : nat → nat) (d : ptr * nat) : ptr * nat :=
  if decide (d.1 = n ∧ i ≤ d.2) then (d.1, f d.2) else d.

Lemma shift_offsets (f : nat → nat) ws s :
  NoDup ws → (∀ w, w ∈ ws → is_Some (value_heap s !! w)) →
  ∃ s', foreach ws (λ w, update_value w (λ W, set_offset (f (offset_ W)) W)) s = (Ok tt, s') ∧ changes [Def] s s' ∧
    ∀ w, f_def s' !! w = (if decide (w ∈ ws) then prod_map id f else id) <$> f_def s !! w.
Proof.
  revert s. induction ws as [|x ws IH]; intros s Hnd Hlive.
  - exists s. split_and!; [done|apply changes_refl|]. intros w. rewrite decide_False by apply not_elem_of_nil. by rewrite option_fmap_id.
  - apply list.NoDup_cons in Hnd as [Hx Hnd]. set (s1 := upd_value x (λ W, set_offset (f (offset_ W)) W) s).
    assert (C1 : changes [Def] s s1) by (unfold s1; chain_changes).
    destruct (IH s1 Hnd) as (s2 & E2 & C2 & H2); [intros w Hw; apply value_live, Hlive; by right|].
    exists s2. split_and!; [|by eapply changes_step|].
    + cbn [foreach]. destruct (Hlive x ltac:(by left)) as [V HV]. step. exact E2.
    + intros w. rewrite H2. unfold f_def. unfold s1, upd_value. cbn. rewrite !lookup_fmap.
      destruct (decide (w = x)) as [->|Hw].
      * rewrite lookup_alter_eq. rewrite decide_False by done. rewrite decide_True by (by left). by destruct (value_heap s !! x).
      * rewrite lookup_alter_ne by done. destruct (decide (w ∈ ws)) as [Hin|Hin].
        -- rewrite decide_True by (by right). done.
        -- rewrite decide_False by (by apply not_elem_of_cons). done.
Qed.

(** Shifting the values behind place [i] of the outputs of [n] moves the definitions. *)
Lemma shift_defs s n l i f w :
  wf_defs s → f_outputs s !! n = Some l →
  (if decide (w ∈ drop i l) then prod_map id f else id) <$> f_def s !! w = move_def n i f <$> f_def s !! w.
Proof.
  intros W Hl. destruct (f_def s !! w) as [[m j]|] eqn:Hw; [|done]. cbn. f_equal. unfold move_def. cbn.
  destruct (decide (w ∈ drop i l)) as [Hin|Hin].
  - apply list_elem_of_lookup in Hin as [k Hk]. rewrite lookup_drop in Hk. pose proof (output_def _ W _ _ _ _ Hl Hk) as Hd.
    rewrite Hw in Hd. injection Hd as -> ->. rewrite decide_True by (split; [done|lia]). done.
  - rewrite decide_False; [done|]. intros [-> Hj]. apply Hin. destruct (def_output _ W _ _ _ Hw) as (l' & Hl' & Hlk).
    assert (l' = l) as -> by congruence. apply list_elem_of_lookup. exists (j - i). rewrite lookup_drop. by replace (i + (j - i)) with j by lia.
Qed.

(** ** A new output *)
Record output_added (n : ptr) (i : nat) (l : list ptr) (g : ptr) (u : nat) (s s' : Store) : Prop := {
  added_changes : changes [Outputs; Def; Unique; Uses; Name; Types; NextUnique; AllValues; Fresh] s s';
  added_outputs : f_outputs s' = <[n := take i l ++ next_ptr s :: drop i l]> (f_outputs s);
  added_def w : f_def s' !! w = if decide (w = next_ptr s) then Some (n, i) else move_def n i S <$> f_def s !! w;
  added_unique : f_unique s' = <[next_ptr s := u]> (f_unique s);
  added_uses : f_uses s' = <[next_ptr s := []]> (f_uses s);
  added_types w : is_Some (f_type s !! w) → f_type s' !! w = f_type s !! w;
  added_name : f_name s' = <[next_ptr s := ""]> (f_name s);
  added_next : f_next_unique s' = <[g := S u]> (f_next_unique s);
  added_values : f_all_values s' = alter (λ A, {[next_ptr s]} ∪ A) g (f_all_values s);
  added_fresh : next_ptr s' = S (next_ptr s)
}.

Definition value_store (n : ptr) (i : nat) (g : ptr) (u : nat) (s : Store) : Store :=
  upd_graph g (λ G, set_all_values ({[next_ptr s]} ∪ all_values G) G) (upd_graph g (λ G, set_next_unique (S (next_unique_ G)) G)
    (with_next_ptr (S (next_ptr s)) (with_values (<[next_ptr s := mkValue n i u [] "" JitTypes.TensorType]> (value_heap s)) s))).

Lemma run_new_Value {A} n i g u s (k : ptr → M A) :
  f_graph s !! n = Some g → f_next_unique s !! g = Some u → (new_Value n i ≫= k) s = k (next_ptr s) (value_store n i g u s).
Proof.
  intros (N & HN & HNg)%f_graph_Some (G & HG & HGu)%f_next_unique_Some. apply run_bind. unfold new_Value. step. rewrite HNg. step. rewrite HGu.
  step. cbv zeta. step. step. step. done.
Qed.

Section added.
Context (n : ptr) (i : nat) (g : ptr) (u : nat) (l : list ptr) (s : Store).
Context (W : wf_defs s) (Hfree : value_heap s !! next_ptr s = None).
Context (Hl : f_outputs s !! n = Some l) (Hu : f_next_unique s !! g = Some u).
Let v := next_ptr s.
Let s1 := upd_node n (λ N, set_outputs (take i l ++ v :: drop i l) N) (value_store n i g u s).

Lemma value_store_added :
  ∃ s', foreach (drop i l) (λ w, update_value w (λ W, set_offset (S (offset_ W)) W)) s1 = (Ok tt, s') ∧ output_added n i l g u s s'.
Proof.
  assert (Hne : ∀ w, w ∈ l → w ≠ v ∧ is_Some (value_heap s !! w)).
  { intros w [j Hj]%list_elem_of_lookup. pose proof (output_def _ W _ _ _ _ Hl Hj) as (V & HV & _)%f_def_Some. split; [|eauto].
    intros ->. unfold v in HV. congruence. }
  assert (Hdrop : ∀ w, w ∈ drop i l → w ∈ l) by (intros w [j Hj]%list_elem_of_lookup; rewrite lookup_drop in Hj; by eapply list_elem_of_lookup_2).
  destruct (shift_offsets S (drop i l) s1) as (s' & E & C & HD).
  - eapply sublist_NoDup; [by eapply outputs_NoDup|apply sublist_drop].
  - intros w Hw. destruct (Hne w (Hdrop w Hw)) as [Hwv Hwl].
    change (is_Some (<[v := mkValue n i u [] "" JitTypes.TensorType]> (value_heap s) !! w)). by rewrite lookup_insert_ne.
  - exists s'. split; [exact E|].
    assert (HV1 : value_heap s1 = <[v := mkValue n i u [] "" JitTypes.TensorType]> (value_heap s)) by done.
    assert (Hk : ∀ {A} (f : Value → A), f <$> value_heap s1 = <[v := f (mkValue n i u [] "" JitTypes.TensorType)]> (f <$> value_heap s)).
    { intros A f. rewrite HV1. apply fmap_insert. }
    assert (C1 : changes [Outputs; Def; Unique; Uses; Name; Types; NextUnique; AllValues; Fresh] s s1).
    { intros f Hf. destruct f; try (exfalso; apply Hf; repeat constructor; fail); try reflexivity;
        unfold get_field, f_all_nodes, f_all_blocks, f_names, f_root, f_insert, s1, value_store, upd_graph, upd_node; cbn; by rewrite !alter_frame by done. }
    constructor.
    + eapply changes_step; [exact C1|]. eapply changes_weaken; [exact C|]. subfields.
    + transitivity (f_outputs s1); [apply (C Outputs); outside|]. unfold f_outputs, s1, upd_node. cbn.
      rewrite (alter_hit outputs_ _ (λ _, take i l ++ v :: drop i l)) by done. symmetry.
      eapply (insert_alter _ _ (λ _, take i l ++ v :: drop i l)). exact Hl.
    + intros w. rewrite HD. fold v. unfold f_def at 1. rewrite Hk. destruct (decide (w = v)) as [->|Hw].
      * rewrite lookup_insert_eq, decide_False; [done|]. intros Hin. by destruct (Hne v (Hdrop v Hin)).
      * rewrite lookup_insert_ne by done. fold (f_def s). by apply shift_defs.
    + transitivity (f_unique s1); [apply (C Unique); outside|apply Hk].
    + transitivity (f_uses s1); [apply (C Uses); outside|apply Hk].
    + intros w Hw. transitivity (f_type s1 !! w); [f_equal; apply (C Types); outside|]. unfold f_type. rewrite Hk. apply lookup_insert_ne.
      intros <-. unfold v, f_type in Hw. rewrite lookup_fmap, Hfree in Hw. by destruct Hw.
    + transitivity (f_name s1); [apply (C Name); outside|apply Hk].
    + transitivity (f_next_unique s1); [apply (C NextUnique); outside|]. unfold f_next_unique, s1, value_store, upd_node, upd_graph. cbn.
      rewrite (alter_frame next_unique_) by done. rewrite (alter_hit next_unique_ _ S) by done. symmetry. by eapply insert_alter.
    + transitivity (f_all_values s1); [apply (C AllValues); outside|]. unfold f_all_values, s1, value_store, upd_node, upd_graph. cbn.
      rewrite (alter_hit all_values _ (λ A, {[v]} ∪ A)) by done. by rewrite (alter_frame all_values).
    + transitivity (next_ptr s1); [apply (C Fresh); outside|done].
Qed.
End added.

Lemma free_value L s : wf L s → value_heap s !! next_ptr s = None.
Proof.
  intros W. destruct (value_heap s !! next_ptr s) as [V|] eqn:E; [|done].
  pose proof (value_below _ (w_fresh _ _ W) (next_ptr s)) as H. assert (next_ptr s < next_ptr s); [|lia]. apply H.
  exists (node_ V, offset_ V). unfold f_def. apply lookup_fmap_Some. eauto.
Qed.

Lemma insertOutput_run n i l g s :
  wf_defs s → value_heap s !! next_ptr s = None → f_outputs s !! n = Some l → f_graph s !! n = Some g →
  is_Some (graph_heap s !! g) → i ≤ length l →
  ∃ s' u, insertOutput n i s = (Ok (next_ptr s), s') ∧ f_next_unique s !! g = Some u ∧ output_added n i l g u s s'.
Proof.
  intros W Hfree Hl Hg [G HG] Hi. pose proof Hl as (N & HN & HNl)%f_outputs_Some.
  assert (Hu : f_next_unique s !! g = Some (next_unique_ G)) by (apply f_next_unique_Some; eauto).
  set (s0 := upd_node n (set_schema None) s).
  assert (C0 : changes [] s s0) by (unfold s0; chain_changes).
  assert (Hl0 : f_outputs s0 !! n = Some l) by (assert (f_outputs s0 = f_outputs s) as -> by (apply (C0 Outputs); outside); done).
  assert (Hg0 : f_graph s0 !! n = Some g) by (assert (f_graph s0 = f_graph s) as -> by (apply (C0 OfGraph); outside); done).
  assert (W0 : wf_defs s0) by (eapply (frame_defs _ _ _ C0); [by vm_compute|done]).
  destruct (value_store_added n i g (next_unique_ G) l s0) as (s' & E & HA); try done.
  exists s', (next_unique_ G). split_and!; [|done|].
  - unfold insertOutput. step. fold s0. rewrite (run_new_Value n i g (next_unique_ G) s0) by done.
    assert (HN0 : node_heap (value_store n i g (next_unique_ G) s0) !! n = Some (set_schema None N)) by (change (node_heap s0 !! n = Some (set_schema None N)); unfold s0; cell).
    step. cbn [set_schema outputs_]. rewrite HNl, (proj2 (Nat.leb_le _ _)) by done. step.
    rewrite run_update_node by eauto.
    assert (upd_node n (λ N, set_outputs (take i (outputs_ N) ++ next_ptr s0 :: drop i (outputs_ N)) N) (value_store n i g (next_unique_ G) s0) =
      upd_node n (λ N, set_outputs (take i l ++ next_ptr s0 :: drop i l) N) (value_store n i g (next_unique_ G) s0)) as ->.
    { unfold upd_node. f_equal. rewrite <- !(insert_alter _ _ _ _ HN0). cbn [set_schema outputs_]. by rewrite HNl. }
    rewrite (run_bind _ _ _ _ _ E).
    assert (Hs' : f_outputs s' !! n = Some (take i l ++ next_ptr s0 :: drop i l)) by (rewrite (added_outputs _ _ _ _ _ _ _ HA); apply lookup_insert_eq).
    apply f_outputs_Some in Hs' as (N' & HN' & HNl'). step. unfold lift, at_. rewrite HNl', list_lookup_middle; [done|].
    rewrite length_take. lia.
  - destruct HA as [H1 H2 H3 H4 H5 H6 H7 H8 H9 H10].
    assert (f_outputs s0 = f_outputs s) as E1 by (apply (C0 Outputs); outside). rewrite E1 in *. constructor; try done.
    eapply changes_step; [|exact H1]. eapply changes_weaken; [exact C0|]. subfields.
Qed.

Lemma addOutput_run n l g s :
  wf_defs s → value_heap s !! next_ptr s = None → f_outputs s !! n = Some l → f_graph s !! n = Some g →
  is_Some (graph_heap s !! g) →
  ∃ s' u, addOutput n s = (Ok (next_ptr s), s') ∧ f_next_unique s !! g = Some u ∧ output_added n (length l) l g u s s'.
Proof.
  intros W Hfree Hl Hg [G HG]. pose proof Hl as (N & HN & HNl)%f_outputs_Some.
  assert (Hu : f_next_unique s !! g = Some (next_unique_ G)) by (apply f_next_unique_Some; eauto).
  destruct (value_store_added n (length l) g (next_unique_ G) l s) as (s1 & E & HA); try done.
  rewrite drop_all in E. injection E as E. rewrite take_ge in E by done.
  exists (upd_node n (set_schema None) s1), (next_unique_ G). split_and!; [|done|].
  - unfold addOutput. step. rewrite HNl. rewrite (run_new_Value n (length l) g (next_unique_ G) s) by done.
    assert (HN1 : node_heap (value_store n (length l) g (next_unique_ G) s) !! n = Some N) by done.
    rewrite run_update_node by eauto.
    assert (upd_node n (λ N, set_outputs (outputs_ N ++ [next_ptr s]) N) (value_store n (length l) g (next_unique_ G) s) = s1) as ->.
    { rewrite <- E. unfold upd_node. f_equal. rewrite <- !(insert_alter _ _ _ _ HN1). by rewrite HNl. }
    assert (is_Some (node_heap s1 !! n)).
    { rewrite <- E. apply node_live. eauto. }
    step. done.
  - assert (C1 : changes [] s1 (upd_node n (set_schema None) s1)) by chain_changes.
    destruct HA as [H1 H2 H3 H4 H5 H6 H7 H8 H9 H10].
    assert (f_outputs (upd_node n (set_schema None) s1) = f_outputs s1) as E1 by (apply (C1 Outputs); outside).
    constructor; rewrite ?E1; try done. eapply changes_step; [exact H1|]. eapply changes_weaken; [exact C1|]. subfields.
Qed.

(** ** The invariant with a new output *)
Section added_wf.
Context (L : gmap ptr (list ptr)) (n : ptr) (i : nat) (l : list ptr) (g : ptr) (u : nat) (s s' : Store).
Context (W : wf L s) (Hl : f_outputs s !! n = Some l) (Hg : f_graph s !! n = Some g) (Hu : f_next_unique s !! g = Some u).
Context (Hi : i ≤ length l) (HA : output_added n i l g u s s').
Let v := next_ptr s.

Lemma value_old {A} (f : Value → A) w x : (f <$> value_heap s) !! w = Some x → w ≠ v.
Proof. intros H ->. unfold v in H. by rewrite lookup_fmap, (free_value L s W) in H. Qed.
Lemma old_def w d : f_def s !! w = Some d → w ≠ v.
Proof. apply value_old. Qed.
Lemma added_field f : f ∉ [Outputs; Def; Unique; Uses; Name; Types; NextUnique; AllValues; Fresh] → get_field f s' = get_field f s.
Proof. apply (added_changes _ _ _ _ _ _ _ HA). Qed.

Lemma added_value_graph w h : value_graph s' w h ↔ (w = v ∧ h = g) ∨ (w ≠ v ∧ value_graph s w h).
Proof.
  assert (HG : f_graph s' = f_graph s) by (apply (added_field OfGraph); outside). unfold value_graph. rewrite HG. split.
  - intros (m & j & Hd & Hm). rewrite (added_def _ _ _ _ _ _ _ HA) in Hd. fold v in Hd. destruct (decide (w = v)) as [->|Hw].
    + injection Hd as <- <-. left. split; [done|congruence].
    + right. split; [done|]. destruct (f_def s !! w) as [[m' j']|]; [|done]. cbn in Hd. unfold move_def in Hd. cbn in Hd.
      exists m', j'. split; [done|]. case_decide; congruence.
  - intros [[-> ->]|[Hw (m & j & Hd & Hm)]].
    + exists n, i. split; [|done]. rewrite (added_def _ _ _ _ _ _ _ HA). by rewrite decide_True.
    + rewrite (added_def _ _ _ _ _ _ _ HA). rewrite decide_False, Hd by done. cbn. unfold move_def. cbn. case_decide as Hc; [|eauto].
      destruct Hc as [-> _]. eauto.
Qed.
Lemma added_value_kept w h : value_graph s w h → value_graph s' w h.
Proof.
  intros Hw. apply added_value_graph. right. split; [|done]. destruct Hw as (m & j & Hd & _). by eapply old_def.
Qed.

Lemma added_defs : wf_defs s'.
Proof.
  pose proof (w_defs _ _ W) as WD. constructor.
  - intros m k j w. rewrite (added_outputs _ _ _ _ _ _ _ HA), (added_def _ _ _ _ _ _ _ HA). fold v. intros [[<- <-]|[Hm Hk]]%lookup_insert_Some Hj.
    + rewrite lookup_insert_at in Hj by done. repeat case_decide; try lia; simplify_eq; try done.
      * by destruct (old_def v _ (output_def _ WD _ _ _ _ Hl Hj)).
      * rewrite (output_def _ WD _ _ _ _ Hl Hj). cbn. unfold move_def. cbn. rewrite decide_False by lia. done.
      * by destruct (old_def v _ (output_def _ WD _ _ _ _ Hl Hj)).
      * rewrite (output_def _ WD _ _ _ _ Hl Hj). cbn. unfold move_def. cbn. rewrite decide_True by lia. do 2 f_equal. lia.
    + pose proof (output_def _ WD _ _ _ _ Hk Hj) as Hd. rewrite decide_False.
      * rewrite Hd. cbn. unfold move_def. cbn. rewrite decide_False by naive_solver. done.
      * by eapply old_def.
  - intros w m j. rewrite (added_outputs _ _ _ _ _ _ _ HA), (added_def _ _ _ _ _ _ _ HA). fold v. destruct (decide (w = v)) as [->|Hw].
    + intros [= <- <-]. eexists. rewrite lookup_insert_eq. split; [done|]. rewrite lookup_insert_at by done. rewrite decide_False, decide_True by lia. done.
    + intros ([m' j'] & Hd & E)%fmap_Some. destruct (def_output _ WD _ _ _ Hd) as (k & Hk & Hj).
      destruct (decide (m' = n)) as [->|Hm].
      * assert (k = l) as -> by congruence. unfold move_def in E. cbn in E. case_decide as Hc; simplify_eq; eexists; rewrite lookup_insert_eq; (split; [done|]);
          rewrite lookup_insert_at by done; repeat case_decide; try lia; try done.
      * unfold move_def in E. cbn in E. rewrite decide_False in E by naive_solver. injection E as -> ->. exists k. by rewrite lookup_insert_ne.
Qed.

Lemma added_wf_uses : wf_uses s'.
Proof.
  pose proof (w_uses _ _ W) as [HM Hnn].
  assert (HI : f_inputs s' = f_inputs s) by (apply (added_field Inputs); outside). constructor; rewrite HI; [|done].
  rewrite (added_uses _ _ _ _ _ _ _ HA). fold v. constructor.
  - intros w us m j [[<- <-]|[Hw Hus]]%lookup_insert_Some.
    + split; [by intros ?%not_elem_of_nil|]. intros HE. destruct (mirror_live _ _ HM _ _ _ HE) as [us Hus].
      by destruct (value_old uses_ v us Hus).
    + by apply (mirror_iff _ _ HM).
  - intros w us [[<- <-]|[Hw Hus]]%lookup_insert_Some; [constructor|by eapply (mirror_NoDup _ _ HM)].
  - intros m j w HE. destruct (decide (v = w)) as [<-|Hw]; [rewrite lookup_insert_eq; eauto|].
    rewrite lookup_insert_ne by done. by eapply (mirror_live _ _ HM).
Qed.

Lemma added_wf_graphs : wf_graphs s'.
Proof.
  pose proof (w_graphs _ _ W) as WG.
  assert (HG : f_graph s' = f_graph s) by (apply (added_field OfGraph); outside).
  assert (HR : f_root s' = f_root s) by (apply (added_field Root); outside).
  assert (HI : f_inputs s' = f_inputs s) by (apply (added_field Inputs); outside).
  assert (HN : f_all_nodes s' = f_all_nodes s) by (apply (added_field AllNodes); outside).
  assert (HB : f_all_blocks s' = f_all_blocks s) by (apply (added_field AllBlocks); outside).
  assert (HH : block_heap s' = block_heap s) by (apply (added_field BlockHeap); outside).
  assert (HO : f_owner s' = f_owner s) by (apply (added_field Owner); outside).
  constructor; rewrite ?HG, ?HR, ?HI, ?HN, ?HB, ?HH, ?HO; try by apply WG.
  - intros h A w. rewrite (added_values _ _ _ _ _ _ _ HA), added_value_graph. fold v. destruct (decide (g = h)) as [<-|Hh].
    + rewrite lookup_alter_eq. intros (A0 & HA0 & ->)%fmap_Some. rewrite elem_of_union, elem_of_singleton, (in_all_values _ WG g A0 w HA0).
      split; [|naive_solver]. intros [->|Hw]; [by left|]. destruct (decide (w = v)); [by left|by right].
    + rewrite lookup_alter_ne by done. intros HA0. rewrite (in_all_values _ WG h A w HA0). split.
      * intros Hw. right. split; [|done]. destruct Hw as (m & j & Hd & _). by eapply old_def.
      * intros [[_ ->]|[_ ?]]; done.
  - intros m k w h Hk Hw Hm. by apply added_value_kept, (input_graph _ WG m k w h).
Qed.

Lemma added_wf_names : wf_names s'.
Proof.
  pose proof (w_names _ _ W) as WN.
  assert (HN : f_names s' = f_names s) by (apply (added_field Names); outside).
  constructor; rewrite ?HN, (added_name _ _ _ _ _ _ _ HA); fold v.
  - intros h ns x w Hns Hx. destruct (name_owner _ WN _ _ _ _ Hns Hx) as (Hne & Hw & Hgw). split_and!; [done| |by apply added_value_kept].
    rewrite lookup_insert_ne; [done|]. intros <-. by destruct (value_old unique_name_ v x Hw).
  - intros h ns x w Hns [[<- <-]|[Hw Hx]]%lookup_insert_Some Hne; [done|]. intros [[-> _]|[_ Hgw]]%added_value_graph; [done|].
    by apply (owner_name _ WN h ns x w).
  - intros w x [[<- <-]|[_ Hx]]%lookup_insert_Some; [done|by eapply (name_valid _ WN)].
Qed.

Lemma added_wf_uniques : wf_uniques s'.
Proof.
  pose proof (w_uniques _ _ W) as WU.
  constructor; rewrite ?(added_unique _ _ _ _ _ _ _ HA), ?(added_next _ _ _ _ _ _ _ HA); fold v.
  - intros w h k m Hk Hw Hm. apply added_value_graph in Hw. apply lookup_insert_Some in Hk as [[<- <-]|[Hwv Hk]].
    + destruct Hw as [[_ ->]|[? _]]; [|done]. rewrite lookup_insert_eq in Hm. injection Hm as <-. lia.
    + destruct Hw as [[-> _]|[_ Hw]]; [done|]. apply lookup_insert_Some in Hm as [[<- <-]|[_ Hm]].
      * pose proof (unique_below _ WU _ _ _ _ Hk Hw Hu). lia.
      * by eapply (unique_below _ WU).
  - intros w w' h k Hk Hk' Hw Hw'. apply added_value_graph in Hw, Hw'.
    apply lookup_insert_Some in Hk as [[<- <-]|[Hwv Hk]], Hk' as [[<- E]|[Hwv' Hk']]; [done| | |].
    + destruct Hw as [[_ ->]|[? _]], Hw' as [[? _]|[_ Hw']]; try done. pose proof (unique_below _ WU _ _ _ _ Hk' Hw' Hu). lia.
    + subst k. destruct Hw' as [[_ ->]|[? _]], Hw as [[? _]|[_ Hw]]; try done. pose proof (unique_below _ WU _ _ _ _ Hk Hw Hu). lia.
    + destruct Hw as [[? _]|[_ Hw]], Hw' as [[? _]|[_ Hw']]; try done. by eapply (unique_inj _ WU).
Qed.

Lemma added_wf_fresh : wf_fresh s'.
Proof.
  pose proof (w_fresh _ _ W) as WF.
  assert (HK : f_kind s' = f_kind s) by (apply (added_field Kind); outside).
  assert (HR : f_root s' = f_root s) by (apply (added_field Root); outside).
  assert (HH : block_heap s' = block_heap s) by (apply (added_field BlockHeap); outside).
  constructor; rewrite ?HK, ?HR, ?HH, (added_fresh _ _ _ _ _ _ _ HA).
  - intros m Hm. pose proof (node_below _ WF _ Hm). lia.
  - intros w [d Hd]. rewrite (added_def _ _ _ _ _ _ _ HA) in Hd. case_decide as Hw; [lia|].
    apply fmap_Some in Hd as (d' & Hd & _). pose proof (value_below _ WF w ltac:(eauto)). lia.
  - intros m Hm. pose proof (block_below _ WF _ Hm). lia.
  - intros m Hm. pose proof (graph_below _ WF _ Hm). lia.
Qed.

Lemma added_wf : wf L s'.
Proof.
  pose proof (added_changes _ _ _ _ _ _ _ HA) as HC. frame_wf HC W.
  - apply added_wf_uses.
  - apply added_defs.
  - apply added_wf_graphs.
  - apply added_wf_names.
  - apply added_wf_uniques.
  - apply added_wf_fresh.
Qed.
End added_wf.

(** ** Erasing outputs *)

(** ** What is left *)
Record output_erased (n : ptr) (i : nat) (l : list ptr) (v g : ptr) (ns : gmap string ptr) (s s' : Store) : Prop := {
  erased_changes : changes [Outputs; Def; Unique; Uses; Name; Types; Names; AllValues] s s';
  erased_outputs : f_outputs s' = <[n := delete i l]> (f_outputs s);
  erased_def w : f_def s' !! w = if decide (w = v) then None else move_def n i pred <$> f_def s !! w;
  erased_unique : f_unique s' = delete v (f_unique s);
  erased_uses : f_uses s' = delete v (f_uses s);
  erased_name : f_name s' = delete v (f_name s);
  erased_names : f_names s' = <[g := delete (default "" (f_name s !! v)) ns]> (f_names s);
  erased_values : f_all_values s' = alter (λ A, A ∖ {[v]}) g (f_all_values s)
}.

Definition forget_value (v g : ptr) (s : Store) : Store :=
  upd_graph g (λ G, set_all_values (all_values G ∖ {[v]}) G) (with_values (delete v (value_heap s)) s).

Lemma freeValue_run s v g ns A :
  wf_names s → value_graph s v g → f_names s !! g = Some ns → is_Some (f_name s !! v) → f_all_values s !! g = Some A → v ∈ A →
  ∃ s1, changes [Name; Names] s s1 ∧ f_name s1 = <[v := ""]> (f_name s) ∧
    f_names s1 = <[g := delete (default "" (f_name s !! v)) ns]> (f_names s) ∧ freeValue g v s = (Ok tt, forget_value v g s1).
Proof.
  intros W Hg Hns [old Hold] HA Hv. rewrite Hold. cbn [default id].
  assert (Hf : delete old ns !! "" = None).
  { apply lookup_delete_None. destruct (ns !! "") as [w|] eqn:E; [|by right]. by destruct (name_owner _ W _ _ _ _ Hns E) as (? & _). }
  destruct (setUniqueName_free 1 s v g ns old "") as (s1 & E & C & _ & HN & HNs); try done.
  exists s1. split_and!; [done..|]. unfold freeValue. fold setUniqueName in E. rewrite (run_bind _ _ _ _ _ E).
  assert (HA1 : f_all_values s1 !! g = Some A) by (assert (f_all_values s1 = f_all_values s) as -> by (apply (C AllValues); outside); done).
  apply lookup_fmap_Some in HA1 as (G & HGA & HG). step. rewrite run_assert by (apply bool_decide_eq_true; congruence).
  erewrite run_bind by reflexivity. step. done.
Qed.

Lemma forget_changes v g s : changes [Def; Unique; Uses; Name; Types; AllValues] s (forget_value v g s).
Proof.
  intros f Hf. destruct f; try (exfalso; apply Hf; repeat constructor; fail); try reflexivity; apply alter_frame; reflexivity.
Qed.
Lemma forget_field {A} v g s (f : Value → A) : f <$> value_heap (forget_value v g s) = delete v (f <$> value_heap s).
Proof. apply fmap_delete. Qed.

Lemma eraseOutput_run s n i l v g :
  wf_defs s → wf_names s → wf_graphs s → f_outputs s !! n = Some l → l !! i = Some v → f_graph s !! n = Some g → f_uses s !! v = Some [] →
  is_Some (graph_heap s !! g) →
  ∃ s' ns, eraseOutput n i s = (Ok tt, s') ∧ f_names s !! g = Some ns ∧ output_erased n i l v g ns s s'.
Proof.
  intros W WN WG Hl Hi Hg Hu [G HG]. pose proof Hl as (N & HN & HNl)%f_outputs_Some. pose proof Hu as (V & HV & HVu)%f_uses_Some.
  assert (HNg : graph_ N = g) by (apply f_graph_Some in Hg as (N' & HN' & ?); congruence).
  pose proof (output_def _ W _ _ _ _ Hl Hi) as Hd. pose proof (lookup_lt_Some _ _ _ Hi) as Hlt.
  set (s0 := upd_node n (λ N, set_outputs (delete i (outputs_ N)) N) (upd_node n (set_schema None) s)).
  assert (C0 : changes [Outputs] s s0) by (unfold s0; chain_changes).
  assert (Hns : f_names s !! g = Some (unique_names_ G)) by (apply f_names_Some; eauto).
  assert (HA : f_all_values s !! g = Some (all_values G)) by (unfold f_all_values; by rewrite lookup_fmap, HG).
  assert (Hvg : value_graph s v g) by (exists n, i; done).
  destruct (freeValue_run s0 v g (unique_names_ G) (all_values G)) as (s1 & C1 & HN1 & HNs1 & E1); try done.
  { eapply (frame_names _ _ _ C0); [by vm_compute|done]. }
  { by eapply (frame_value_graph _ _ _ C0). }
  { exists (unique_name_ V). apply f_name_Some. eauto. }
  { by apply (in_all_values _ WG g). }
  assert (Hnd : NoDup l) by (by eapply outputs_NoDup).
  set (s2 := forget_value v g s1) in *. assert (C2 : changes [Def; Unique; Uses; Name; Types; AllValues] s1 s2) by apply forget_changes.
  assert (HO0 : f_outputs s0 = <[n := delete i l]> (f_outputs s)).
  { unfold f_outputs, s0, upd_node. cbn. rewrite (alter_hit outputs_ _ (delete i)), (alter_frame outputs_) by done. symmetry. by eapply insert_alter. }
  assert (HO2 : f_outputs s2 = <[n := delete i l]> (f_outputs s)).
  { transitivity (f_outputs s1); [apply (C2 Outputs); outside|]. transitivity (f_outputs s0); [apply (C1 Outputs); outside|done]. }
  assert (Hfld : ∀ {A} (f : Value → A), f <$> value_heap s1 = f <$> value_heap s → f <$> value_heap s2 = delete v (f <$> value_heap s)).
  { intros A0 f Hf. unfold s2. by rewrite forget_field, Hf. }
  assert (HD1 : f_def s1 = f_def s) by (transitivity (f_def s0); [apply (C1 Def); outside|done]).
  assert (Hin : ∀ w, w ∈ drop i (delete i l) → w ∈ drop (S i) l ∧ w ≠ v).
  { intros w Hw. rewrite delete_take_drop, drop_app_ge, length_take in Hw by (rewrite length_take; lia).
    replace (i - min i (length l)) with 0 in Hw by lia. rewrite drop_0 in Hw. split; [done|]. intros ->.
    apply list_elem_of_lookup in Hw as [k Hk]. rewrite lookup_drop in Hk. pose proof (NoDup_lookup _ _ _ _ Hnd Hi Hk). lia. }
  destruct (shift_offsets pred (drop i (delete i l)) s2) as (s3 & E3 & C3 & HD3).
  { eapply sublist_NoDup; [exact Hnd|]. etransitivity; [apply sublist_drop|apply sublist_delete]. }
  { intros w Hw. destruct (Hin w Hw) as [Hw1 Hw2]. apply list_elem_of_lookup in Hw1 as [k Hk]. rewrite lookup_drop in Hk.
    pose proof (output_def _ W _ _ _ _ Hl Hk) as Hwd. assert (is_Some (f_def s2 !! w)) as Hs2.
    { unfold f_def. rewrite (Hfld _ _ HD1). rewrite lookup_delete_ne by done. unfold f_def in Hwd. eauto. }
    unfold f_def in Hs2. rewrite lookup_fmap in Hs2. by apply fmap_is_Some in Hs2. }
  exists s3, (unique_names_ G). split_and!; [|done|].
  - unfold eraseOutput. step. rewrite HNl. rewrite run_assert by (by apply Nat.ltb_lt). rewrite (run_index _ _ v) by done. step.
    rewrite run_assert by (by apply bool_decide_eq_true). step. step. fold s0. rewrite HNg. rewrite (run_bind _ _ _ _ _ E1). fold s2.
    assert (Hn2 : f_outputs s2 !! n = Some (delete i l)) by (by rewrite HO2, lookup_insert_eq).
    apply f_outputs_Some in Hn2 as (N2 & HN2 & HNl2). step. rewrite HNl2. exact E3.
  - constructor.
    + intros f Hf. rewrite (C3 f), (C2 f), (C1 f), (C0 f); [done|..]; intros Hf'; apply Hf; by repeat (apply elem_of_cons in Hf' as [->|Hf']; [repeat constructor|]); apply not_elem_of_nil in Hf'.
    + transitivity (f_outputs s2); [apply (C3 Outputs); outside|done].
    + intros w. rewrite HD3. unfold f_def at 1. rewrite (Hfld _ _ HD1). destruct (decide (w = v)) as [->|Hw].
      * rewrite lookup_delete_eq. by case_decide.
      * rewrite lookup_delete_ne by done. fold (f_def s). destruct (f_def s !! w) as [[m j]|] eqn:Hwd; [|by case_decide].
        cbn. f_equal. unfold move_def. cbn. destruct (decide (w ∈ drop i (delete i l))) as [Hwi|Hwi].
        -- destruct (Hin w Hwi) as [Hw1 _]. apply list_elem_of_lookup in Hw1 as [k Hk]. rewrite lookup_drop in Hk.
           pose proof (output_def _ W _ _ _ _ Hl Hk) as Hwd'. rewrite Hwd in Hwd'. injection Hwd' as -> ->. rewrite decide_True by (split; [done|lia]). done.
        -- rewrite decide_False; [done|]. intros [-> Hj]. apply Hwi. destruct (def_output _ W _ _ _ Hwd) as (l' & Hl' & Hlk).
           assert (l' = l) as -> by congruence. assert (j ≠ i) by (intros ->; congruence). apply list_elem_of_lookup. exists (j - S i).
           rewrite lookup_drop, list_lookup_delete_ge by lia. by replace (S (i + (j - S i))) with j by lia.
    + transitivity (f_unique s2); [apply (C3 Unique); outside|]. apply Hfld. transitivity (f_unique s0); [apply (C1 Unique); outside|done].
    + transitivity (f_uses s2); [apply (C3 Uses); outside|]. apply Hfld. transitivity (f_uses s0); [apply (C1 Uses); outside|done].
    + transitivity (f_name s2); [apply (C3 Name); outside|]. unfold f_name, s2. rewrite forget_field. fold (f_name s1). rewrite HN1.
      by rewrite delete_insert_eq.
    + transitivity (f_names s2); [apply (C3 Names); outside|]. transitivity (f_names s1); [apply (C2 Names); outside|done].
    + transitivity (f_all_values s2); [apply (C3 AllValues); outside|]. unfold f_all_values, s2, forget_value, upd_graph. cbn.
      rewrite (alter_hit all_values _ (λ A, A ∖ {[v]})) by done. f_equal. transitivity (f_all_values s0); [apply (C1 AllValues); outside|done].
Qed.

(** ** The invariant without the output *)
Section erased_wf.
Context (L : gmap ptr (list ptr)) (n : ptr) (i : nat) (l : list ptr) (v g : ptr) (ns : gmap string ptr) (s s' : Store).
Context (W : wf L s) (Hl : f_outputs s !! n = Some l) (Hi : l !! i = Some v) (Hg : f_graph s !! n = Some g).
Context (Hu : f_uses s !! v = Some []) (Hns : f_names s !! g = Some ns) (HE : output_erased n i l v g ns s s').

Lemma erased_field f : f ∉ [Outputs; Def; Unique; Uses; Name; Types; Names; AllValues] → get_field f s' = get_field f s.
Proof. apply (erased_changes _ _ _ _ _ _ _ _ HE). Qed.
Lemma erased_self : value_graph s v g.
Proof. exists n, i. split; [by eapply (output_def _ (w_defs _ _ W))|done]. Qed.

Lemma erased_value_graph w h : value_graph s' w h ↔ w ≠ v ∧ value_graph s w h.
Proof.
  assert (HG : f_graph s' = f_graph s) by (apply (erased_field OfGraph); outside). unfold value_graph. rewrite HG. split.
  - intros (m & j & Hd & Hm). rewrite (erased_def _ _ _ _ _ _ _ _ HE) in Hd. destruct (decide (w = v)) as [->|Hw]; [done|]. split; [done|].
    destruct (f_def s !! w) as [[m' j']|]; [|done]. cbn in Hd. unfold move_def in Hd. cbn in Hd. exists m', j'. split; [done|]. case_decide; congruence.
  - intros [Hw (m & j & Hd & Hm)]. rewrite (erased_def _ _ _ _ _ _ _ _ HE). rewrite decide_False, Hd by done. cbn. unfold move_def. cbn.
    case_decide as Hc; [|eauto]. destruct Hc as [-> _]. eauto.
Qed.

Lemma erased_defs : wf_defs s'.
Proof.
  pose proof (w_defs _ _ W) as WD. pose proof (output_def _ WD _ _ _ _ Hl Hi) as Hvd.
  constructor.
  - intros m k j w. rewrite (erased_outputs _ _ _ _ _ _ _ _ HE), (erased_def _ _ _ _ _ _ _ _ HE). intros [[<- <-]|[Hm Hk]]%lookup_insert_Some Hj.
    + destruct (decide (j < i)) as [Hji|Hji].
      * rewrite list_lookup_delete_lt in Hj by done. pose proof (output_def _ WD _ _ _ _ Hl Hj) as Hd.
        rewrite decide_False by (intros ->; rewrite Hvd in Hd; injection Hd as ->; lia). rewrite Hd. cbn. unfold move_def. cbn. by rewrite decide_False by lia.
      * rewrite list_lookup_delete_ge in Hj by lia. pose proof (output_def _ WD _ _ _ _ Hl Hj) as Hd.
        rewrite decide_False by (intros ->; rewrite Hvd in Hd; injection Hd as ->; lia). rewrite Hd. cbn. unfold move_def. cbn. by rewrite decide_True by (split; [done|lia]).
    + pose proof (output_def _ WD _ _ _ _ Hk Hj) as Hd. rewrite decide_False by (intros ->; congruence). rewrite Hd. cbn. unfold move_def. cbn.
      by rewrite decide_False by naive_solver.
  - intros w m j. rewrite (erased_outputs _ _ _ _ _ _ _ _ HE), (erased_def _ _ _ _ _ _ _ _ HE). destruct (decide (w = v)) as [->|Hw]; [done|].
    intros ([m' j'] & Hd & E)%fmap_Some. destruct (def_output _ WD _ _ _ Hd) as (k & Hk & Hj). unfold move_def in E. cbn in E.
    destruct (decide (m' = n)) as [->|Hm].
    + assert (k = l) as -> by congruence. assert (j' ≠ i) by (intros ->; congruence). case_decide as Hc; injection E as -> ->; exists (delete i l); (split; [apply lookup_insert_eq|]).
      * rewrite list_lookup_delete_ge by lia. by replace (S (pred j')) with j' by lia.
      * rewrite list_lookup_delete_lt by lia. done.
    + rewrite decide_False in E by naive_solver. injection E as -> ->. exists k. by rewrite lookup_insert_ne.
Qed.

Lemma erased_edge m j w : edge (f_inputs s) m j w → w ≠ v.
Proof.
  intros HE' ->. pose proof (uses_mirror _ (w_uses _ _ W)) as HM. apply (mirror_iff _ _ HM v [] m j Hu) in HE'. by apply not_elem_of_nil in HE'.
Qed.
Lemma erased_wf_uses : wf_uses s'.
Proof.
  pose proof (w_uses _ _ W) as [HM Hnn].
  assert (HI : f_inputs s' = f_inputs s) by (apply (erased_field Inputs); outside). constructor; rewrite HI; [|done].
  rewrite (erased_uses _ _ _ _ _ _ _ _ HE). constructor.
  - intros w us m j [Hw Hus]%lookup_delete_Some. by apply (mirror_iff _ _ HM).
  - intros w us [Hw Hus]%lookup_delete_Some. by eapply (mirror_NoDup _ _ HM).
  - intros m j w HE'. rewrite lookup_delete_ne by (intros <-; by eapply erased_edge). by eapply (mirror_live _ _ HM).
Qed.

Lemma erased_wf_graphs : wf_graphs s'.
Proof.
  pose proof (w_graphs _ _ W) as WG.
  assert (HG : f_graph s' = f_graph s) by (apply (erased_field OfGraph); outside).
  assert (HR : f_root s' = f_root s) by (apply (erased_field Root); outside).
  assert (HI : f_inputs s' = f_inputs s) by (apply (erased_field Inputs); outside).
  assert (HN : f_all_nodes s' = f_all_nodes s) by (apply (erased_field AllNodes); outside).
  assert (HB : f_all_blocks s' = f_all_blocks s) by (apply (erased_field AllBlocks); outside).
  assert (HH : block_heap s' = block_heap s) by (apply (erased_field BlockHeap); outside).
  assert (HO : f_owner s' = f_owner s) by (apply (erased_field Owner); outside).
  constructor; rewrite ?HG, ?HR, ?HI, ?HN, ?HB, ?HH, ?HO; try by apply WG.
  - intros h A w. rewrite (erased_values _ _ _ _ _ _ _ _ HE), erased_value_graph. destruct (decide (g = h)) as [<-|Hh].
    + rewrite lookup_alter_eq. intros (A0 & HA0 & ->)%fmap_Some. rewrite elem_of_difference, elem_of_singleton, (in_all_values _ WG g A0 w HA0). tauto.
    + rewrite lookup_alter_ne by done. intros HA0. rewrite (in_all_values _ WG h A w HA0). split; [|tauto]. intros Hw. split; [|done].
      intros ->. apply Hh. eapply value_graph_fun; [apply erased_self|done].
  - intros m k w h Hk Hw Hm. apply erased_value_graph. split; [|by apply (input_graph _ WG m k w h)].
    apply list_elem_of_lookup in Hw as [j Hj]. eapply erased_edge. by exists k.
Qed.

Lemma erased_wf_names : wf_names s'.
Proof.
  pose proof (w_names _ _ W) as WN.
  assert (is_Some (f_name s !! v)) as [old Hold].
  { pose proof Hu as (V & HV & _)%f_uses_Some. exists (unique_name_ V). apply f_name_Some. eauto. }
  constructor; rewrite ?(erased_names _ _ _ _ _ _ _ _ HE), ?(erased_name _ _ _ _ _ _ _ _ HE), ?Hold; cbn [default id].
  - intros h ms x w Hms Hx. assert (HW : x ≠ "" ∧ f_name s !! w = Some x ∧ value_graph s w h ∧ w ≠ v).
    { apply lookup_insert_Some in Hms as [[<- <-]|[Hh Hms]].
      - apply lookup_delete_Some in Hx as [Hne Hx]. destruct (name_owner _ WN _ _ _ _ Hns Hx) as (? & ? & ?). split_and!; [done..|]. intros ->. congruence.
      - destruct (name_owner _ WN _ _ _ _ Hms Hx) as (? & ? & ?). split_and!; [done..|]. intros ->. apply Hh. eapply value_graph_fun; [apply erased_self|done]. }
    destruct HW as (? & ? & ? & ?). split_and!; [done| |by apply erased_value_graph]. by rewrite lookup_delete_ne.
  - intros h ms x w Hms [Hw Hx]%lookup_delete_Some Hne [_ Hgw]%erased_value_graph. apply lookup_insert_Some in Hms as [[<- <-]|[Hh Hms]].
    + pose proof (owner_name _ WN _ _ _ _ Hns Hx Hne Hgw) as Hxw. rewrite lookup_delete_ne; [done|]. intros ->.
      pose proof (owner_name _ WN _ _ _ _ Hns Hold Hne erased_self). congruence.
    + by apply (owner_name _ WN h ms x w).
  - intros w x [_ Hx]%lookup_delete_Some. by eapply (name_valid _ WN).
Qed.

Lemma erased_wf_uniques : wf_uniques s'.
Proof.
  pose proof (w_uniques _ _ W) as WU.
  assert (HN : f_next_unique s' = f_next_unique s) by (apply (erased_field NextUnique); outside).
  constructor; rewrite ?(erased_unique _ _ _ _ _ _ _ _ HE), ?HN.
  - intros w h k m [_ Hk]%lookup_delete_Some [_ Hw]%erased_value_graph. by eapply (unique_below _ WU).
  - intros w w' h k [_ Hk]%lookup_delete_Some [_ Hk']%lookup_delete_Some [_ Hw]%erased_value_graph [_ Hw']%erased_value_graph.
    by eapply (unique_inj _ WU).
Qed.

Lemma erased_wf_fresh : wf_fresh s'.
Proof.
  pose proof (w_fresh _ _ W) as WF.
  assert (HK : f_kind s' = f_kind s) by (apply (erased_field Kind); outside).
  assert (HR : f_root s' = f_root s) by (apply (erased_field Root); outside).
  assert (HH : block_heap s' = block_heap s) by (apply (erased_field BlockHeap); outside).
  assert (HF : next_ptr s' = next_ptr s) by (apply (erased_field Fresh); outside).
  constructor; rewrite ?HK, ?HR, ?HH, ?HF; try by apply WF.
  intros w [d Hd]. rewrite (erased_def _ _ _ _ _ _ _ _ HE) in Hd. case_decide as Hw; [done|].
  apply fmap_Some in Hd as (d' & Hd & _). by apply (value_below _ WF w).
Qed.

Lemma erased_wf : wf L s'.
Proof.
  pose proof (erased_changes _ _ _ _ _ _ _ _ HE) as HC. frame_wf HC W.
  - apply erased_wf_uses.
  - apply erased_defs.
  - apply erased_wf_graphs.
  - apply erased_wf_names.
  - apply erased_wf_uniques.
  - apply erased_wf_fresh.
Qed.
End erased_wf.
