(* ===== verification/IRBlocks.v ===== *)
(** * New blocks and graphs

    A block is made of two nodes, the return node that closes its ring and the
    parameter node; it belongs to a node or is the block of a graph. *)
From stdpp Require Import sorting.
From S2P Require Import Prelude JitTypes JitGraph IRSpec IRUses IRLists IRNames IRBuild.
Local Open Scope string_scope.
Local Open Scope nat_scope.
Local Open Scope list_scope.
#[local] Set Warnings "-clear-no-such-hyp".
Import IR.

Lemma inner_mono2 (R R' : ptr → ptr → Prop) l : (∀ a b, a ∈ l → b ∈ l → R a b → R' a b) → inner R l → inner R' l.
Proof.
  induction l as [|a l IH]; [done|]. intros H. destruct l as [|b l]; [done|]. intros [H1 H2]. split.
  - apply H; [by left|right; by left|done].
  - apply IH; [|done]. intros x y Hx Hy. apply H; by right.
Qed.

(** ** A block around two loose nodes *)

(** The block [b] of [node], which is listed by the node [reg]. *)
Record block_added (o p b g : ptr) (node reg : option ptr) (s s' : Store) : Prop := {
  ba_changes : changes [Owner; Next; Prev; Pos; AllBlocks; BlockHeap; Fresh; Blocks] s s';
  ba_owner : f_owner s' = <[p := Some b]> (<[o := Some b]> (f_owner s));
  ba_next : f_next s' = <[o := Some o]> (f_next s);
  ba_prev : f_prev s' = <[o := Some o]> (f_prev s);
  ba_pos : f_pos s' = <[p := kLowerBound]> (<[o := kUpperBound]> (f_pos s));
  ba_heap : block_heap s' = <[b := mkBlock g o p node]> (block_heap s);
  ba_all : f_all_blocks s' = alter (λ A, {[b]} ∪ A) g (f_all_blocks s);
  ba_fresh : next_ptr s' = S b;
  ba_blocks : f_blocks s' = match reg with Some n => alter (λ l, l ++ [b]) n (f_blocks s) | None => f_blocks s end
}.

Section block.
Context (L : gmap ptr (list ptr)) (o p b g : ptr) (node : option ptr) (s s' : Store).
Context (HB : block_added o p b g node node s s') (Hop : o ≠ p).
Context (Hoo : f_owner s !! o = Some None) (Hpo : f_owner s !! p = Some None).
Context (Hob : f_blocks s !! o = Some []) (Hpb : f_blocks s !! p = Some []).
Context (Hog : f_graph s !! o = Some g) (Hpg : f_graph s !! p = Some g).
Context (Hb : block_heap s !! b = None) (Hnext : next_ptr s = b).
Context (Hnode : ∀ n, node = Some n → n ≠ o ∧ n ≠ p ∧ f_graph s !! n = Some g ∧
  ∃ l c, f_blocks s !! n = Some l ∧ f_owner s !! n = Some c).

Lemma ba_field f : f ∉ [Owner; Next; Prev; Pos; AllBlocks; BlockHeap; Fresh; Blocks] → get_field f s' = get_field f s.
Proof. apply (ba_changes _ _ _ _ _ _ _ _ HB). Qed.

(** Nodes of lists and owners of blocks are other nodes. *)
Lemma ba_other x c : f_owner s !! x = Some (Some c) → x ≠ o ∧ x ≠ p ∧ f_owner s' !! x = Some (Some c).
Proof.
  intros Hx. assert (x ≠ o) by congruence. assert (x ≠ p) by congruence. split_and!; [done..|].
  by rewrite (ba_owner _ _ _ _ _ _ _ _ HB), !lookup_insert_ne.
Qed.
Lemma ba_link x y : linked s x y → x ≠ o → y ≠ o → linked s' x y.
Proof.
  intros [H1 H2] Hx Hy. split; [by rewrite (ba_next _ _ _ _ _ _ _ _ HB), lookup_insert_ne|by rewrite (ba_prev _ _ _ _ _ _ _ _ HB), lookup_insert_ne].
Qed.

Lemma ba_wf_lists : wf_lists L s → wf_lists (<[b := []]> L) s'.
Proof.
  intros W. destruct (loose _ _ W _ Hoo) as [Hon Hov]. destruct (loose _ _ W _ Hpo) as [Hpn Hpv].
  constructor; rewrite ?(ba_heap _ _ _ _ _ _ _ _ HB).
  - intros c. destruct (decide (b = c)) as [<-|Hc]; [rewrite !lookup_insert_eq; split; eauto|]. rewrite !lookup_insert_ne by done. apply (lists_dom _ _ W).
  - intros c C l [[<- <-]|[Hc HC]]%lookup_insert_Some.
    + rewrite lookup_insert_eq. intros [= <-]. cbn. split; [by rewrite (ba_next _ _ _ _ _ _ _ _ HB), lookup_insert_eq|by rewrite (ba_prev _ _ _ _ _ _ _ _ HB), lookup_insert_eq].
    + rewrite lookup_insert_ne by done. intros Hl. pose proof (ring _ _ W c C l HC Hl) as Hr.
      assert (∀ x, x ∈ output_ C :: l → x ≠ o) as Hne.
      { intros x Hx. apply (ba_other x c). apply (members _ _ W c C l x HC Hl). unfold block_nodes. rewrite !elem_of_cons in *. tauto. }
      apply chain_inner in Hr. apply chain_inner. eapply inner_mono2; [|exact Hr]. intros x y Hx Hy Hxy. apply ba_link; [done| |].
      * rewrite app_comm_cons in Hx. apply elem_of_app in Hx as [Hx| ->%list_elem_of_singleton]; apply Hne; [done|by left].
      * rewrite app_comm_cons in Hy. apply elem_of_app in Hy as [Hy| ->%list_elem_of_singleton]; apply Hne; [done|by left].
  - intros c C l x [[<- <-]|[Hc HC]]%lookup_insert_Some.
    + rewrite lookup_insert_eq. intros [= <-]. unfold block_nodes. cbn. rewrite (ba_owner _ _ _ _ _ _ _ _ HB), !elem_of_cons. split.
      * intros [->|[->|[]%not_elem_of_nil]]; [by rewrite lookup_insert_ne, lookup_insert_eq|by rewrite lookup_insert_eq].
      * intros [[-> _]|[_ [[-> _]|[_ H]]%lookup_insert_Some]]%lookup_insert_Some; [tauto|tauto|].
        destruct (owner_live _ _ W _ _ H) as [? ?]. congruence.
    + rewrite lookup_insert_ne by done. intros Hl. rewrite (members _ _ W c C l x HC Hl). split; [by intros (_ & _ & ?)%ba_other|].
      rewrite (ba_owner _ _ _ _ _ _ _ _ HB). intros [[_ [=]]|[_ [[_ [=]]|[_ H]]%lookup_insert_Some]]%lookup_insert_Some; done.
  - intros c C l [[<- <-]|[Hc HC]]%lookup_insert_Some.
    + rewrite lookup_insert_eq. intros [= <-]. unfold block_nodes. cbn. apply list.NoDup_cons. split; [by intros ?%list_elem_of_singleton|apply NoDup_singleton].
    + rewrite lookup_insert_ne by done. by apply (members_NoDup _ _ W).
  - intros x c. rewrite (ba_owner _ _ _ _ _ _ _ _ HB).
    intros [[_ [= <-]]|[_ [[_ [= <-]]|[_ H]]%lookup_insert_Some]]%lookup_insert_Some; rewrite ?lookup_insert_eq; [eauto..|].
    destruct (decide (b = c)) as [<-|]; [rewrite lookup_insert_eq; eauto|]. rewrite lookup_insert_ne by done. by eapply (owner_live _ _ W).
  - intros x. rewrite (ba_owner _ _ _ _ _ _ _ _ HB), (ba_next _ _ _ _ _ _ _ _ HB), (ba_prev _ _ _ _ _ _ _ _ HB).
    intros [[_ [=]]|[_ [[_ [=]]|[Hx H]]%lookup_insert_Some]]%lookup_insert_Some. rewrite !lookup_insert_ne by done. by apply (loose _ _ W).
  - intros c C [[<- <-]|[Hc HC]]%lookup_insert_Some; cbn; rewrite (ba_next _ _ _ _ _ _ _ _ HB), (ba_prev _ _ _ _ _ _ _ _ HB).
    + by rewrite !lookup_insert_ne.
    + destruct (lists_dom _ _ W c) as [_ Hd]. destruct (Hd ltac:(rewrite HC; eauto)) as [l Hl].
      assert (Ho : f_owner s !! input_ C = Some (Some c)) by (apply (members _ _ W c C l _ HC Hl); right; by left).
      destruct (ba_other _ _ Ho) as (? & _). rewrite !lookup_insert_ne by done. by apply (loose_param _ _ W c).
Qed.

Lemma ba_wf_positions : wf_lists L s → wf_positions L s → wf_positions (<[b := []]> L) s'.
Proof.
  intros W [H1 H2].
  assert (Hkeep : ∀ x c, f_owner s !! x = Some (Some c) → f_pos s' !! x = f_pos s !! x).
  { intros x c Hx. destruct (ba_other x c Hx) as (? & ? & _). by rewrite (ba_pos _ _ _ _ _ _ _ _ HB), !lookup_insert_ne. }
  assert (Hmem : ∀ c C, block_heap s !! c = Some C → ∃ l, L !! c = Some l ∧ ∀ x, x ∈ block_nodes C l → f_pos s' !! x = f_pos s !! x).
  { intros c C HC. destruct (lists_dom _ _ W c) as [_ Hd]. destruct (Hd ltac:(rewrite HC; eauto)) as [l Hl]. exists l. split; [done|].
    intros x Hx. apply (Hkeep x c), (members _ _ W c C l x HC Hl), Hx. }
  assert (Hp : f_pos s' !! p = Some kLowerBound) by (by rewrite (ba_pos _ _ _ _ _ _ _ _ HB), lookup_insert_eq).
  assert (Ho : f_pos s' !! o = Some kUpperBound) by (by rewrite (ba_pos _ _ _ _ _ _ _ _ HB), lookup_insert_ne, lookup_insert_eq).
  constructor; rewrite (ba_heap _ _ _ _ _ _ _ _ HB).
  - intros c C [[<- <-]|[Hc HC]]%lookup_insert_Some; [done|]. destruct (Hmem c C HC) as (l & _ & Hl).
    rewrite !Hl by (unfold block_nodes; rewrite !elem_of_cons; tauto). by apply (H1 c).
  - intros c C l [[<- <-]|[Hc HC]]%lookup_insert_Some.
    + rewrite lookup_insert_eq. intros [= <-]. unfold positions. cbn. rewrite Hp, Ho. cbn. repeat constructor.
    + rewrite lookup_insert_ne by done. intros Hl. destruct (Hmem c C HC) as (l' & Hl' & Hk). assert (l' = l) as -> by congruence.
      rewrite (positions_ext s s'); [by eapply H2|]. intros x Hx. apply Hk. unfold block_nodes.
      rewrite elem_of_cons, elem_of_app, list_elem_of_singleton in Hx. rewrite !elem_of_cons. tauto.
Qed.

Lemma ba_wf_blocks : wf_blocks s → wf_blocks s'.
Proof.
  intros [H1 H2 H3].
  assert (Hcase : ∀ m l, f_blocks s' !! m = Some l → (node = Some m ∧ ∃ l0, f_blocks s !! m = Some l0 ∧ l = l0 ++ [b]) ∨ (node ≠ Some m ∧ f_blocks s !! m = Some l)).
  { intros m l. rewrite (ba_blocks _ _ _ _ _ _ _ _ HB). destruct node as [n|]; [|by right]. destruct (decide (n = m)) as [->|Hm].
    - rewrite lookup_alter_eq. intros (l0 & ? & ->)%fmap_Some. left. eauto.
    - rewrite lookup_alter_ne by done. right. split; [congruence|done]. }
  assert (Hold : ∀ m l c, f_blocks s !! m = Some l → c ∈ l → c ≠ b).
  { intros m l c Hl Hc ->. destruct (H1 _ _ _ Hl Hc) as (B & ? & _). congruence. }
  constructor; rewrite ?(ba_heap _ _ _ _ _ _ _ _ HB).
  - intros m l c Hl Hc. destruct (Hcase m l Hl) as [(Hn & l0 & Hl0 & ->)|[Hn Hl0]].
    + apply elem_of_app in Hc as [Hc| ->%list_elem_of_singleton]; [|rewrite lookup_insert_eq; eauto].
      rewrite lookup_insert_ne by (symmetry; by eapply Hold). by eapply H1.
    + rewrite lookup_insert_ne by (symmetry; by eapply Hold). by eapply H1.
  - intros c C m [[<- <-]|[Hc HC]]%lookup_insert_Some Hm; cbn in Hm; rewrite (ba_blocks _ _ _ _ _ _ _ _ HB).
    + rewrite Hm. destruct (Hnode m Hm) as (_ & _ & _ & l & _ & Hl & _). exists (l ++ [b]). rewrite lookup_alter_eq, Hl. split; [done|].
      apply elem_of_app. right. by left.
    + destruct (H2 _ _ _ HC Hm) as (l & Hl & Hcl). destruct node as [n|]; [|eauto]. destruct (decide (n = m)) as [->|Hnm].
      * exists (l ++ [b]). rewrite lookup_alter_eq, Hl. split; [done|]. apply elem_of_app. by left.
      * rewrite lookup_alter_ne by done. eauto.
  - intros m l Hl. destruct (Hcase m l Hl) as [(Hn & l0 & Hl0 & ->)|[Hn Hl0]]; [|by eapply H3].
    apply list.NoDup_app. split_and!; [by eapply H3| |apply NoDup_singleton]. intros c Hc ->%list_elem_of_singleton. by eapply (Hold m l0 b).
Qed.

Lemma ba_wf_graphs : wf_lists L s → wf_graphs s → wf_graphs s'.
Proof.
  intros WL W.
  assert (HG : f_graph s' = f_graph s) by (apply (ba_field OfGraph); outside).
  assert (HR : f_root s' = f_root s) by (apply (ba_field Root); outside).
  assert (HI : f_inputs s' = f_inputs s) by (apply (ba_field Inputs); outside).
  assert (HN : f_all_nodes s' = f_all_nodes s) by (apply (ba_field AllNodes); outside).
  assert (HV : f_all_values s' = f_all_values s) by (apply (ba_field AllValues); outside).
  assert (HD : f_def s' = f_def s) by (apply (ba_field Def); outside).
  assert (Hvg : ∀ v h, value_graph s' v h ↔ value_graph s v h) by (intros; unfold value_graph; by rewrite HG, HD).
  constructor; rewrite ?HG, ?HR, ?HI, ?HN, ?HV, ?(ba_heap _ _ _ _ _ _ _ _ HB); try by apply W.
  - intros h A v HA. rewrite Hvg. by apply (in_all_values _ W).
  - intros h A c. rewrite (ba_all _ _ _ _ _ _ _ _ HB). intros HA. destruct (decide (c = b)) as [->|Hc].
    + rewrite lookup_insert_eq. destruct (decide (g = h)) as [<-|Hh].
      * rewrite lookup_alter_eq in HA. apply fmap_Some in HA as (A0 & _ & ->). rewrite elem_of_union, elem_of_singleton. split; [eauto|tauto].
      * rewrite lookup_alter_ne in HA by done. rewrite (in_all_blocks _ W h A b HA), Hb. split; [by intros (? & ? & _)|].
        intros (? & [= <-] & E). done.
    + rewrite lookup_insert_ne by done. destruct (decide (g = h)) as [<-|Hh].
      * rewrite lookup_alter_eq in HA. apply fmap_Some in HA as (A0 & HA0 & ->). rewrite elem_of_union, elem_of_singleton.
        rewrite <- (in_all_blocks _ W g A0 c HA0). tauto.
      * rewrite lookup_alter_ne in HA by done. by apply (in_all_blocks _ W).
  - intros m l v h Hl Hv Hm. apply Hvg. by eapply (input_graph _ W).
  - intros c C [[<- <-]|[Hc HC]]%lookup_insert_Some; [done|by eapply (block_graph _ W)].
  - intros c C m [[<- <-]|[Hc HC]]%lookup_insert_Some Hm; [by apply (Hnode m Hm)|by eapply (owner_graph _ W)].
  - intros m c C. rewrite (ba_owner _ _ _ _ _ _ _ _ HB).
    intros [[<- [= <-]]|[_ [[<- [= <-]]|[_ H]]%lookup_insert_Some]]%lookup_insert_Some HC.
    + rewrite lookup_insert_eq in HC. injection HC as <-. done.
    + rewrite lookup_insert_eq in HC. injection HC as <-. done.
    + apply lookup_insert_Some in HC as [[<- <-]|[Hc HC]]; [|by eapply (member_graph _ W)].
      destruct (owner_live _ _ WL _ _ H) as [? ?]. congruence.
Qed.

Lemma ba_wf_fresh : wf_fresh s → wf_fresh s'.
Proof.
  intros W.
  assert (HK : f_kind s' = f_kind s) by (apply (ba_field Kind); outside).
  assert (HD : f_def s' = f_def s) by (apply (ba_field Def); outside).
  assert (HR : f_root s' = f_root s) by (apply (ba_field Root); outside).
  constructor; rewrite ?HK, ?HD, ?HR, (ba_fresh _ _ _ _ _ _ _ _ HB), ?(ba_heap _ _ _ _ _ _ _ _ HB).
  - intros m Hm. pose proof (node_below _ W m Hm). lia.
  - intros m Hm. pose proof (value_below _ W m Hm). lia.
  - intros c [C [[<- _]|[_ HC]]%lookup_insert_Some]; [lia|]. pose proof (block_below _ W c ltac:(eauto)). lia.
  - intros m Hm. pose proof (graph_below _ W m Hm). lia.
Qed.

Lemma ba_rooted c : wf_blocks s → rooted s c → rooted s' c.
Proof.
  intros WB H.
  assert (Hne : ∀ d D n, block_heap s !! d = Some D → owning_node_ D = Some n → n ≠ o ∧ n ≠ p).
  { intros d D n HD Hn. destruct (owner_block _ WB _ _ _ HD Hn) as (l & Hl & Hd).
    split; intros ->; (assert (l = []) as -> by congruence); by apply not_elem_of_nil in Hd. }
  assert (Hh : ∀ d D, block_heap s !! d = Some D → block_heap s' !! d = Some D).
  { intros d D HD. rewrite (ba_heap _ _ _ _ _ _ _ _ HB), lookup_insert_ne; [done|]. congruence. }
  induction H as [d D HD Hn|d D n HD Hn Ho|d D n e HD Hn Ho _ IH].
  - eapply rooted_top; eauto.
  - destruct (Hne _ _ _ HD Hn). eapply rooted_loose; [eauto|done|]. by rewrite (ba_owner _ _ _ _ _ _ _ _ HB), !lookup_insert_ne.
  - eapply rooted_in; [eauto|done| |done]. by apply ba_other.
Qed.
Lemma ba_wf_nesting : wf_lists L s → wf_blocks s → wf_nesting s → wf_nesting s'.
Proof.
  intros WL WB W c [C HC]. pose proof HC as HC'. rewrite (ba_heap _ _ _ _ _ _ _ _ HB) in HC. apply lookup_insert_Some in HC as [[<- <-]|[Hc HC]].
  - assert (node = None ∨ ∃ n, node = Some n) as [En|[n En]] by (clear; destruct node; eauto); [by eapply rooted_top|].
    destruct (Hnode n En) as (Hno & Hnp & _ & l & c & _ & Hn).
    destruct c as [c|].
    + eapply rooted_in; [done|done|by apply ba_other|]. apply ba_rooted; [done|]. apply W. by eapply (owner_live _ _ WL).
    + eapply rooted_loose; [done|done|]. by rewrite (ba_owner _ _ _ _ _ _ _ _ HB), !lookup_insert_ne.
  - apply ba_rooted; [done|]. apply W. eauto.
Qed.
End block.

(** ** [new Block] *)
Section new_block.
Context (g : ptr) (node : option ptr) (sc : option Attributes.Scope) (s : Store).
Let o := next_ptr s.
Let p := S o.
Let b := S p.
Let ret := node_store g (Attributes.prim "Return") sc s.
Definition two_nodes : Store := node_store g (Attributes.prim "Param") sc ret.
Definition block_store : Store :=
  upd_node p (set_topo_position kLowerBound) (upd_node p (set_owning_block (Some b))
    (upd_node o (set_topo_position kUpperBound) (upd_node o (set_owning_block (Some b))
      (upd_graph g (λ G, set_all_blocks ({[b]} ∪ all_blocks G) G)
        (with_next_ptr (S b) (with_blocks (<[b := mkBlock g o p node]> (block_heap s))
          (node_store g (Attributes.prim "Param") sc (upd_node o (set_prev (Some o)) (upd_node o (set_next (Some o)) ret))))))))).

Lemma new_Block_run G : graph_heap s !! g = Some G → current_scope_ G = sc → new_Block g node s = (Ok b, block_store).
Proof.
  intros HG Hsc. assert (Hcreate : ∀ k t H, graph_heap t !! g = Some H → current_scope_ H = sc → create g k 0 t = (Ok (next_ptr t), node_store g k sc t)).
  { intros k t H HH <-. unfold create. by rewrite (run_bind _ _ _ _ _ (new_Node_run g k H t HH)). }
  unfold new_Block. rewrite (run_bind _ _ _ _ _ (Hcreate _ _ G HG Hsc)). fold ret.
  assert (HO : is_Some (node_heap ret !! o)) by (unfold ret; rewrite node_store_heap; rewrite lookup_insert_eq; eauto).
  assert (Hinit : initOutput o ret = (Ok o, upd_node o (set_prev (Some o)) (upd_node o (set_next (Some o)) ret))).
  { unfold initOutput. step. step. done. }
  fold o. rewrite (run_bind _ _ _ _ _ Hinit). set (ini := upd_node o _ _).
  assert (HGi : graph_heap ini !! g = Some (set_all_nodes ({[o]} ∪ all_nodes G) G)).
  { change (graph_heap ini) with (alter (λ G, set_all_nodes ({[o]} ∪ all_nodes G) G) g (graph_heap s)). by rewrite lookup_alter_eq, HG. }
  rewrite (run_bind _ _ _ _ _ (Hcreate _ _ _ HGi Hsc)). change (next_ptr ini) with p. step. cbv zeta. step.
  assert (HO2 : is_Some (node_heap (node_store g (Attributes.prim "Param") sc ini) !! o)).
  { rewrite node_store_heap. apply lookup_insert_is_Some'. right. unfold ini. live. }
  assert (HP2 : is_Some (node_heap (node_store g (Attributes.prim "Param") sc ini) !! p)).
  { rewrite node_store_heap. change (next_ptr ini) with p. rewrite lookup_insert_eq. eauto. }
  assert (HG2 : is_Some (graph_heap (node_store g (Attributes.prim "Param") sc ini) !! g)).
  { change (graph_heap (node_store g (Attributes.prim "Param") sc ini)) with (alter (λ G, set_all_nodes ({[p]} ∪ all_nodes G) G) g (graph_heap ini)).
    rewrite lookup_alter_eq, HGi. eauto. }
  rewrite run_update_graph by exact HG2. rewrite run_update_node by exact HO2.
  rewrite run_update_node by (apply node_live; exact HO2). rewrite run_update_node by (do 2 apply node_live; exact HP2).
  rewrite run_update_node by (do 3 apply node_live; exact HP2). done.
Qed.

Lemma block_store_node {A} (f : Node → A) (Ho : node_heap s !! o = None) :
  f <$> node_heap block_store =
    <[p := f (set_topo_position kLowerBound (set_owning_block (Some b) (blank_node g (Attributes.prim "Param") sc)))]>
    (<[o := f (set_topo_position kUpperBound (set_owning_block (Some b) (set_prev (Some o) (set_next (Some o) (blank_node g (Attributes.prim "Return") sc)))))]>
      (f <$> node_heap s)).
Proof.
  assert (Hop : o ≠ p) by (unfold p; lia).
  assert (HH : node_heap block_store = alter (set_topo_position kLowerBound) p (alter (set_owning_block (Some b)) p
    (alter (set_topo_position kUpperBound) o (alter (set_owning_block (Some b)) o
      (<[p := blank_node g (Attributes.prim "Param") sc]> (alter (set_prev (Some o)) o (alter (set_next (Some o)) o
        (<[o := blank_node g (Attributes.prim "Return") sc]> (node_heap s))))))))) by done.
  rewrite HH. apply map_eq. intros x. rewrite lookup_fmap. destruct (decide (x = p)) as [->|Hxp].
  - rewrite lookup_insert_eq, !lookup_alter_eq, !lookup_alter_ne, lookup_insert_eq by done. done.
  - rewrite lookup_insert_ne, !(lookup_alter_ne _ _ p) by done. destruct (decide (x = o)) as [->|Hxo].
    + rewrite lookup_insert_eq, !lookup_alter_eq, lookup_insert_ne, !lookup_alter_eq, lookup_insert_eq by done. done.
    + rewrite lookup_insert_ne, !(lookup_alter_ne _ _ o), lookup_insert_ne, !(lookup_alter_ne _ _ o), lookup_insert_ne by done. by rewrite lookup_fmap.
Qed.

Lemma two_nodes_node {A} (f : Node → A) :
  f <$> node_heap two_nodes = <[p := f (blank_node g (Attributes.prim "Param") sc)]>
    (<[o := f (blank_node g (Attributes.prim "Return") sc)]> (f <$> node_heap s)).
Proof. change (node_heap two_nodes) with (<[p := blank_node g (Attributes.prim "Param") sc]> (<[o := blank_node g (Attributes.prim "Return") sc]> (node_heap s))). by rewrite !fmap_insert. Qed.

Lemma block_store_added : node_heap s !! o = None → block_added o p b g node None two_nodes block_store.
Proof.
  intros Ho. assert (Hop : o ≠ p) by (unfold p; lia).
  assert (Hsame : ∀ {A} (f : Node → A), (∀ z N, f (set_topo_position z N) = f N) → (∀ z N, f (set_owning_block z N) = f N) →
    (∀ z N, f (set_prev z N) = f N) → (∀ z N, f (set_next z N) = f N) → f <$> node_heap block_store = f <$> node_heap two_nodes).
  { intros A f H1 H2 H3 H4. rewrite (block_store_node f Ho), two_nodes_node. by rewrite H1, H2, H1, H2, H3, H4. }
  constructor; try done.
  - intros f Hf. destruct f; try (exfalso; apply Hf; repeat constructor; fail); try reflexivity; try (apply Hsame; reflexivity).
    all: unfold get_field, f_all_nodes, f_all_values, f_next_unique, f_names, f_root, f_insert, block_store, two_nodes, ret, node_store, upd_graph, upd_node; cbn;
      rewrite ?(alter_frame _ (λ G, set_all_blocks _ G)) by done; done.
  - unfold f_owner. rewrite (block_store_node owning_block_ Ho), two_nodes_node. cbn.
    apply map_eq. intros x. destruct (decide (x = p)) as [->|?]; [by rewrite !lookup_insert_eq|]. rewrite !(lookup_insert_ne _ p) by done.
    destruct (decide (x = o)) as [->|?]; [by rewrite !lookup_insert_eq|]. by rewrite !lookup_insert_ne.
  - unfold f_next. rewrite (block_store_node next_ Ho), two_nodes_node. cbn.
    rewrite (insert_insert_ne _ o p) by done. by rewrite insert_insert_eq.
  - unfold f_prev. rewrite (block_store_node prev_ Ho), two_nodes_node. cbn.
    rewrite (insert_insert_ne _ o p) by done. by rewrite insert_insert_eq.
  - unfold f_pos. rewrite (block_store_node topo_position_ Ho), two_nodes_node. cbn.
    apply map_eq. intros x. destruct (decide (x = p)) as [->|?]; [by rewrite !lookup_insert_eq|]. rewrite !(lookup_insert_ne _ p) by done.
    destruct (decide (x = o)) as [->|?]; [by rewrite !lookup_insert_eq|]. by rewrite !lookup_insert_ne.
  - unfold f_all_blocks, block_store, two_nodes, ret, node_store, upd_graph, upd_node. cbn.
    rewrite (alter_hit all_blocks _ (λ A, {[b]} ∪ A)) by done. done.
  - apply Hsame; done.
Qed.
End new_block.

Lemma node_store_graph g k sc s h : is_Some (graph_heap (node_store g k sc s) !! h) ↔ is_Some (graph_heap s !! h).
Proof.
  change (graph_heap (node_store g k sc s)) with (alter (λ G, set_all_nodes ({[next_ptr s]} ∪ all_nodes G) G) g (graph_heap s)).
  destruct (decide (g = h)) as [->|]; [rewrite lookup_alter_eq; by rewrite fmap_is_Some|by rewrite lookup_alter_ne].
Qed.
Lemma two_nodes_wf L s g sc : wf L s → is_Some (graph_heap s !! g) → wf L (two_nodes g sc s).
Proof. intros W Hg. apply node_store_wf; [by apply node_store_wf|by apply node_store_graph]. Qed.
Lemma free_block L s (k : ptr) : wf L s → next_ptr s ≤ k → block_heap s !! k = None.
Proof.
  intros W Hk. destruct (block_heap s !! k) as [B|] eqn:E; [|done]. pose proof (block_below _ (w_fresh _ _ W) k ltac:(eauto)). lia.
Qed.
Lemma node_graph_live L s n g : wf L s → f_graph s !! n = Some g → is_Some (graph_heap s !! g).
Proof. intros W Hg. apply graph_root. by eapply (graph_live _ (w_graphs _ _ W)). Qed.

(** A field of the nodes behind two new ones. *)
Lemma two_nodes_field {A} (f : Node → A) g sc s (x : ptr) y :
  (f <$> node_heap s) !! x = Some y → node_heap s !! next_ptr s = None → node_heap s !! (S (next_ptr s) : ptr) = None →
  x ≠ next_ptr s ∧ x ≠ S (next_ptr s) ∧ (f <$> node_heap (two_nodes g sc s)) !! x = Some y.
Proof.
  intros Hx Ho Hp. assert (x ≠ next_ptr s) by (intros ->; by rewrite lookup_fmap, Ho in Hx).
  assert (x ≠ S (next_ptr s)) by (intros ->; by rewrite lookup_fmap, Hp in Hx). split_and!; [done..|]. rewrite two_nodes_node.
  by rewrite !lookup_insert_ne.
Qed.
Lemma free_node_above L s (k : ptr) : wf L s → next_ptr s ≤ k → node_heap s !! k = None.
Proof.
  intros W Hk. destruct (node_heap s !! k) as [N|] eqn:E; [|done].
  assert (k < next_ptr s); [|lia]. apply (node_below _ (w_fresh _ _ W) k). exists (kind_ N). unfold f_kind. apply lookup_fmap_Some. eauto.
Qed.

Lemma register L t t' o p b g n :
  wf L t → block_added o p b g (Some n) None t t' → is_Some (node_heap t' !! n) →
  block_added o p b g (Some n) (Some n) t (upd_node n (λ N, set_blocks (blocks_ N ++ [b]) N) t').
Proof.
  intros W [H1 H2 H3 H4 H5 H6 H7 H8 H9] Hn.
  set (t2 := upd_node n (λ N, set_blocks (blocks_ N ++ [b]) N) t').
  assert (C : changes [Blocks] t' t2) by (unfold t2; chain_changes).
  assert (Eo : f_owner t2 = f_owner t') by (apply (C Owner); outside).
  assert (En : f_next t2 = f_next t') by (apply (C Next); outside).
  assert (Ep : f_prev t2 = f_prev t') by (apply (C Prev); outside).
  assert (Et : f_pos t2 = f_pos t') by (apply (C Pos); outside).
  constructor; rewrite ?Eo, ?En, ?Ep, ?Et; try done.
  - eapply changes_step; [exact H1|]. eapply changes_weaken; [exact C|]. subfields.
  - unfold f_blocks, t2, upd_node. cbn. rewrite (alter_hit blocks_ _ (λ l, l ++ [b])) by done. f_equal. exact H9.
Qed.

Lemma addBlock_Ok L s n l g :
  wf L s → f_blocks s !! n = Some l → f_graph s !! n = Some g →
  ∃ s' b B, addBlock n s = (Ok b, s') ∧ wf (<[b := []]> L) s' ∧ block_heap s !! b = None ∧
    block_heap s' = <[b := B]> (block_heap s) ∧ owning_node_ B = Some n ∧ block_graph_ B = g ∧ f_blocks s' !! n = Some (l ++ [b]).
Proof.
  intros W Hl Hg. pose proof (node_graph_live _ _ _ _ W Hg) as [G HG]. pose proof Hg as (N & HN & HNg)%f_graph_Some.
  set (s0 := upd_node n (set_schema None) s). assert (C0 : changes [] s s0) by (unfold s0; chain_changes).
  assert (W0 : wf L s0) by frame_wf C0 W.
  set (sc := current_scope_ G). set (o := next_ptr s). set (b := S (S o)). set (t := two_nodes g sc s0). set (t' := block_store g (Some n) sc s0).
  assert (Ho : node_heap s0 !! o = None) by (eapply free_node_above; [exact W0|done]).
  assert (Hp : node_heap s0 !! S o = None) by (eapply free_node_above; [exact W0|cbn; lia]).
  assert (HG0 : graph_heap s0 !! g = Some G) by done.
  assert (Wt : wf L t) by (apply two_nodes_wf; [done|eauto]).
  assert (Hl0 : f_blocks s0 !! n = Some l) by (assert (f_blocks s0 = f_blocks s) as -> by (apply (C0 Blocks); outside); done).
  assert (Hg0 : f_graph s0 !! n = Some g) by (assert (f_graph s0 = f_graph s) as -> by (apply (C0 OfGraph); outside); done).
  assert (is_Some (f_owner s0 !! n)) as [c Hc].
  { unfold f_owner. apply lookup_fmap_Some in Hg0 as (N0 & _ & HN0). rewrite lookup_fmap, HN0. eauto. }
  destruct (two_nodes_field blocks_ g sc s0 n l Hl0 Ho Hp) as (Hno & Hnp & Hlt).
  destruct (two_nodes_field graph_ g sc s0 n g Hg0 Ho Hp) as (_ & _ & Hgt).
  destruct (two_nodes_field owning_block_ g sc s0 n c Hc Ho Hp) as (_ & _ & Hct).
  pose proof (block_store_added g (Some n) sc s0 Ho) as HB0. fold t t' o b in HB0.
  assert (Hlive : is_Some (node_heap t' !! n)).
  { assert (is_Some (f_owner t' !! n)) as [x Hx]; [rewrite (ba_owner _ _ _ _ _ _ _ _ HB0); do 2 (apply lookup_insert_is_Some'; right); eauto|].
    apply lookup_fmap_Some in Hx as (? & _ & ->). eauto. }
  pose proof (register _ _ _ _ _ _ _ _ Wt HB0 Hlive) as HB. set (s' := upd_node n _ t') in HB.
  assert (Hfld : ∀ {A} (f : Node → A), (f <$> node_heap t) !! o = Some (f (blank_node g (Attributes.prim "Return") sc)) ∧
    (f <$> node_heap t) !! S o = Some (f (blank_node g (Attributes.prim "Param") sc))).
  { intros A f. unfold t. rewrite two_nodes_node. change (next_ptr s0) with o. rewrite lookup_insert_eq, lookup_insert_ne, lookup_insert_eq by lia. done. }
  destruct (Hfld _ owning_block_) as [Hoo Hpo]. destruct (Hfld _ blocks_) as [Hob Hpb]. destruct (Hfld _ graph_) as [Hog Hpg].
  assert (Hfree : block_heap s !! b = None) by (eapply free_block; [exact W|unfold b; lia]).
  assert (Hnode : ∀ m, Some n = Some m → m ≠ o ∧ m ≠ S o ∧ f_graph t !! m = Some g ∧ ∃ l c, f_blocks t !! m = Some l ∧ f_owner t !! m = Some c).
  { intros m [= <-]. split_and!; [done..|]. eauto. }
  exists s', b, (mkBlock g o (S o) (Some n)). split_and!; [| |done|by rewrite (ba_heap _ _ _ _ _ _ _ _ HB)|done|done|].
  - unfold addBlock. step. fold s0. assert (HNs : node_heap s0 !! n = Some (set_schema None N)) by (unfold s0; cell). step.
    cbn [set_schema graph_]. rewrite HNg. rewrite (run_bind _ _ _ _ _ (new_Block_run g (Some n) sc s0 G HG0 eq_refl)). fold t'.
    rewrite run_update_node by exact Hlive. done.
  - pose proof (ba_changes _ _ _ _ _ _ _ _ HB) as HC. assert (Hop : o ≠ S o) by lia. frame_wf HC Wt.
    + eapply (ba_wf_blocks o (S o) b g (Some n)); [exact HB|done|exact Hnode|apply Wt].
    + eapply (ba_wf_lists L o (S o) b g (Some n)); try done. apply Wt.
    + eapply (ba_wf_positions L o (S o) b g (Some n)); try done; apply Wt.
    + eapply (ba_wf_graphs L o (S o) b g (Some n)); try done; apply Wt.
    + assert (HR : f_root s' = f_root t) by (apply (HC Root); outside). destruct (w_roots _ _ Wt) as [R1 R2].
      constructor; rewrite HR, (ba_heap _ _ _ _ _ _ _ _ HB).
      * intros h c' Hc'. destruct (R1 _ _ Hc') as (C & HC' & ?). exists C. split; [|done]. rewrite lookup_insert_ne; [done|].
        intros <-. assert (Some C = None) by (etransitivity; [symmetry; exact HC'|exact Hfree]). done.
      * intros c' C [[<- <-]|[_ HC']]%lookup_insert_Some Hn; [done|by eapply R2].
    + eapply (ba_wf_fresh o (S o) b g (Some n)); try done. apply Wt.
    + eapply (ba_wf_nesting L o (S o) b g (Some n)); try done; apply Wt.
  - rewrite (ba_blocks _ _ _ _ _ _ _ _ HB), lookup_alter_eq. unfold f_blocks. change (two_nodes g sc s0) with t in Hlt. by rewrite Hlt.
Qed.

(** ** [new Graph] *)

(** The block of a graph is exchanged. *)
Lemma reroot s s' :
  changes [Root; Insert] s s' → (∀ h, is_Some (f_root s' !! h) ↔ is_Some (f_root s !! h)) →
  (wf_graphs s → wf_graphs s') ∧ (wf_fresh s → wf_fresh s').
Proof.
  intros C HR.
  assert (HG : f_graph s' = f_graph s) by (apply (C OfGraph); outside).
  assert (HI : f_inputs s' = f_inputs s) by (apply (C Inputs); outside).
  assert (HN : f_all_nodes s' = f_all_nodes s) by (apply (C AllNodes); outside).
  assert (HV : f_all_values s' = f_all_values s) by (apply (C AllValues); outside).
  assert (HA : f_all_blocks s' = f_all_blocks s) by (apply (C AllBlocks); outside).
  assert (HB : block_heap s' = block_heap s) by (apply (C BlockHeap); outside).
  assert (HO : f_owner s' = f_owner s) by (apply (C Owner); outside).
  assert (HD : f_def s' = f_def s) by (apply (C Def); outside).
  assert (HK : f_kind s' = f_kind s) by (apply (C Kind); outside).
  assert (HF : next_ptr s' = next_ptr s) by (apply (C Fresh); outside).
  split; intros W; constructor; unfold value_graph; rewrite ?HG, ?HI, ?HN, ?HV, ?HA, ?HB, ?HO, ?HD, ?HK, ?HF; try by apply W.
  - intros n g Hn. apply HR. by eapply (graph_live _ W).
  - intros g Hg. by apply (graph_below _ W), HR.
Qed.
Section new_graph.
Context (scope_root : option Attributes.Scope) (L : gmap ptr (list ptr)) (s : Store) (W : wf L s).
Let g : ptr := next_ptr s.
Definition graph_store : Store :=
  with_next_ptr (S (next_ptr s)) (with_graphs (<[next_ptr s := mkGraph ∅ ∅ ∅ 0 ∅ scope_root (next_ptr s) (next_ptr s)]> (graph_heap s)) s).

Lemma free_graph (k : ptr) : next_ptr s ≤ k → graph_heap s !! k = None.
Proof.
  intros Hk. destruct (graph_heap s !! k) as [G|] eqn:E; [|done]. assert (k < next_ptr s); [|lia].
  apply (graph_below _ (w_fresh _ _ W)), graph_root. eauto.
Qed.
Lemma graph_store_field {A} (f : Graph → A) :
  f <$> graph_heap graph_store = <[g := f (mkGraph ∅ ∅ ∅ 0 ∅ scope_root (next_ptr s) (next_ptr s))]> (f <$> graph_heap s).
Proof. apply fmap_insert. Qed.
Lemma graph_store_changes : changes [AllNodes; AllValues; AllBlocks; NextUnique; Names; Root; Insert; Fresh] s graph_store.
Proof. intros f Hf. destruct f; try (exfalso; apply Hf; repeat constructor; fail); reflexivity. Qed.
Lemma no_value_graph v : value_graph s v g → False.
Proof.
  intros (n & i & _ & Hn). pose proof (node_graph_live _ _ _ _ W Hn) as [G HG]. pose proof (free_graph g ltac:(done)). congruence.
Qed.

Lemma graph_store_open : wf_open L graph_store.
Proof.
  pose proof graph_store_changes as HC. pose proof (wf_opened _ _ W) as WO.
  assert (Hvg : ∀ v h, value_graph graph_store v h ↔ value_graph s v h) by done.
  constructor.
  - eapply (frame_uses _ _ _ HC); [by vm_compute|apply WO].
  - eapply (frame_defs _ _ _ HC); [by vm_compute|apply WO].
  - eapply (frame_blocks _ _ _ HC); [by vm_compute|apply WO].
  - eapply (frame_lists _ _ _ HC); [by vm_compute|apply WO].
  - eapply (frame_positions _ _ _ HC); [by vm_compute|apply WO].
  - pose proof (w_graphs _ _ W) as WG.
    assert (Hroot : f_root graph_store = <[g := g]> (f_root s)) by apply (graph_store_field block_).
    constructor; rewrite ?Hroot; try by apply WG.
    + intros n h Hn. apply lookup_insert_is_Some'. right. by eapply (graph_live _ WG).
    + intros h A n. unfold f_all_nodes. rewrite (graph_store_field all_nodes). cbn. intros [[<- <-]|[_ HA]]%lookup_insert_Some.
      * split; [by intros ?%not_elem_of_empty|]. intros Hn. pose proof (node_graph_live _ _ _ _ W Hn) as [G HG].
        pose proof (free_graph g ltac:(done)). congruence.
      * by apply (in_all_nodes _ WG).
    + intros h A v. unfold f_all_values. rewrite (graph_store_field all_values). cbn. intros [[<- <-]|[_ HA]]%lookup_insert_Some.
      * split; [by intros ?%not_elem_of_empty|]. intros Hv. by destruct (no_value_graph v).
      * by apply (in_all_values _ WG).
    + intros h A c. unfold f_all_blocks. rewrite (graph_store_field all_blocks). cbn. intros [[<- <-]|[_ HA]]%lookup_insert_Some.
      * split; [by intros ?%not_elem_of_empty|]. intros (B & HB & E). pose proof (block_graph _ WG _ _ HB) as [Hn _].
        rewrite E in Hn. pose proof (node_graph_live _ _ _ _ W Hn) as [G HG]. pose proof (free_graph g ltac:(done)). congruence.
      * by apply (in_all_blocks _ WG).
  - pose proof (w_names _ _ W) as WN. constructor; unfold f_names; rewrite ?(graph_store_field unique_names_); cbn.
    + intros h ns x v [[<- <-]|[_ Hns]]%lookup_insert_Some; [by rewrite lookup_empty|]. by apply (name_owner _ WN).
    + intros h ns x v [[<- <-]|[_ Hns]]%lookup_insert_Some; [|by apply (owner_name _ WN h ns x v)].
      intros _ _ Hv. by destruct (no_value_graph v).
    + apply (name_valid _ WN).
  - pose proof (w_uniques _ _ W) as WU. constructor; unfold f_next_unique; rewrite ?(graph_store_field next_unique_); cbn.
    + intros v h k m Hk Hv [[<- <-]|[_ Hm]]%lookup_insert_Some; [by destruct (no_value_graph v)|by eapply (unique_below _ WU)].
    + apply (unique_inj _ WU).
  - pose proof (w_fresh _ _ W) as WF. assert (Hroot : f_root graph_store = <[g := g]> (f_root s)) by apply (graph_store_field block_).
    constructor; rewrite ?Hroot; change (next_ptr graph_store) with (S (next_ptr s)).
    + intros n Hn. pose proof (node_below _ WF n Hn). lia.
    + intros n Hn. pose proof (value_below _ WF n Hn). lia.
    + intros n Hn. pose proof (block_below _ WF n Hn). lia.
    + intros h [x [[<- _]|[_ Hx]]%lookup_insert_Some]; [unfold g; lia|]. pose proof (graph_below _ WF h ltac:(eauto)). lia.
  - eapply (frame_nesting _ _ _ HC); [by vm_compute|apply WO].
Qed.

Lemma new_Graph_Ok :
  ∃ s' b B, new_Graph scope_root s = (Ok g, s') ∧ wf (<[b := []]> L) s' ∧ graph_heap s !! g = None ∧ block_heap s !! b = None ∧
    block_heap s' = <[b := B]> (block_heap s) ∧ owning_node_ B = None ∧ f_root s' !! g = Some b.
Proof.
  set (s0 := graph_store). set (o := next_ptr s0 : ptr). set (b := S (S o) : ptr). set (t := two_nodes g scope_root s0).
  set (t' := block_store g None scope_root s0).
  assert (Ho : node_heap s0 !! o = None) by (eapply (free_node_above L s); [exact W|unfold o; cbn; lia]).
  assert (Hp : node_heap s0 !! (S o : ptr) = None) by (eapply (free_node_above L s); [exact W|unfold o; cbn; lia]).
  assert (HG0 : graph_heap s0 !! g = Some (mkGraph ∅ ∅ ∅ 0 ∅ scope_root g g)) by (apply lookup_insert_eq).
  assert (Wt : wf_open L t).
  { apply node_store_open; [|apply node_store_open; [done|apply graph_store_open|eauto]|apply node_store_graph; eauto].
    rewrite node_store_heap. change (next_ptr (node_store g _ scope_root s0)) with (S o). rewrite lookup_insert_ne by (unfold o; lia). done. }
  pose proof (block_store_added g None scope_root s0 Ho) as HB. fold t t' o b in HB.
  assert (Hfld : ∀ {A} (f : Node → A), (f <$> node_heap t) !! o = Some (f (blank_node g (Attributes.prim "Return") scope_root)) ∧
    (f <$> node_heap t) !! (S o : ptr) = Some (f (blank_node g (Attributes.prim "Param") scope_root))).
  { intros A f. unfold t. rewrite two_nodes_node. change (next_ptr s0) with o. rewrite lookup_insert_eq, lookup_insert_ne, lookup_insert_eq by lia. done. }
  destruct (Hfld _ owning_block_) as [Hoo Hpo]. destruct (Hfld _ blocks_) as [Hob Hpb]. destruct (Hfld _ graph_) as [Hog Hpg].
  assert (Hfree : block_heap s !! b = None) by (eapply free_block; [exact W|unfold b, o; cbn; lia]).
  assert (Hop : o ≠ S o) by lia.
  assert (Hnode : ∀ m, None = Some m → m ≠ o ∧ m ≠ S o ∧ f_graph t !! m = Some g ∧ ∃ l c, f_blocks t !! m = Some l ∧ f_owner t !! m = Some c) by done.
  pose proof (ba_changes _ _ _ _ _ _ _ _ HB) as HC.
  set (s1 := upd_graph g (set_block b) t'). set (s2 := upd_graph g (set_insert_before o) s1).
  assert (C2 : changes [Root; Insert] t' s2).
  { unfold s2, s1. clear. generalize t'. intros u. chain_changes. }
  assert (W1 : wf_open (<[b := []]> L) t').
  { constructor.
    - eapply (frame_uses _ _ _ HC); [by vm_compute|apply Wt].
    - eapply (frame_defs _ _ _ HC); [by vm_compute|apply Wt].
    - eapply (ba_wf_blocks o (S o) b g None); [exact HB|done|exact Hnode|apply Wt].
    - eapply (ba_wf_lists L o (S o) b g None); try done. apply Wt.
    - eapply (ba_wf_positions L o (S o) b g None); try done; apply Wt.
    - eapply (ba_wf_graphs L o (S o) b g None); try done; apply Wt.
    - eapply (frame_names _ _ _ HC); [by vm_compute|apply Wt].
    - eapply (frame_uniques _ _ _ HC); [by vm_compute|apply Wt].
    - eapply (ba_wf_fresh o (S o) b g None); try done. apply Wt.
    - eapply (ba_wf_nesting L o (S o) b g None); try done; apply Wt. }
  assert (Hheap : block_heap s2 = <[b := mkBlock g o (S o) None]> (block_heap s)).
  { transitivity (block_heap t'); [reflexivity|]. rewrite (ba_heap _ _ _ _ _ _ _ _ HB). reflexivity. }
  assert (E : ∀ u, f_root (upd_graph g (set_insert_before o) (upd_graph g (set_block b) u)) = alter (λ _, b) g (f_root u)).
  { intros u. unfold f_root, upd_graph. cbn. by rewrite (alter_frame block_), (alter_hit block_ _ (λ _, b)) by done. }
  assert (Hdom : ∀ h, is_Some (f_root s2 !! h) ↔ is_Some (f_root t' !! h)).
  { intros h. unfold s2, s1. rewrite E. destruct (decide (g = h)) as [<-|]; [by rewrite lookup_alter_eq, fmap_is_Some|by rewrite lookup_alter_ne]. }
  assert (Hroot : f_root s2 = <[g := b]> (f_root s)).
  { unfold s2, s1. rewrite E. assert (f_root t' = f_root t) as -> by (apply (HC Root); outside).
    assert (f_root t = <[g := g]> (f_root s)) as ->.
    { unfold f_root, t, two_nodes, node_store, upd_graph. cbn. rewrite !(alter_frame block_) by done. apply (graph_store_field block_). }
    apply map_eq. intros h. destruct (decide (g = h)) as [<-|]; [by rewrite lookup_alter_eq, !lookup_insert_eq|by rewrite lookup_alter_ne, !lookup_insert_ne]. }
  exists s2, b, (mkBlock g o (S o) None). split_and!; [| |by apply free_graph|done|done|done|by rewrite Hroot, lookup_insert_eq].
  - unfold new_Graph. step. cbv zeta. step. change (with_next_ptr _ _) with s0.
    rewrite (run_bind _ _ _ _ _ (new_Block_run g None scope_root s0 _ HG0 eq_refl)). fold t'.
    assert (is_Some (graph_heap t' !! g)).
    { assert (is_Some (f_all_blocks t' !! g)) as [x Hx]; [|apply lookup_fmap_Some in Hx as (? & _ & ->); eauto].
      rewrite (ba_all _ _ _ _ _ _ _ _ HB), lookup_alter_eq. apply fmap_is_Some. unfold f_all_blocks. rewrite lookup_fmap, fmap_is_Some.
      unfold t, two_nodes. by do 2 rewrite node_store_graph. }
    rewrite run_update_graph by done.
    assert (HBk : block_heap s1 !! b = Some (mkBlock g o (S o) None)) by apply lookup_insert_eq.
    rewrite (run_block _ _ _ _ HBk). rewrite run_update_graph by (by apply graph_live'). done.
  - apply wf_closed.
    + constructor.
      * eapply (frame_uses _ _ _ C2); [by vm_compute|apply W1].
      * eapply (frame_defs _ _ _ C2); [by vm_compute|apply W1].
      * eapply (frame_blocks _ _ _ C2); [by vm_compute|apply W1].
      * eapply (frame_lists _ _ _ C2); [by vm_compute|apply W1].
      * eapply (frame_positions _ _ _ C2); [by vm_compute|apply W1].
      * apply (reroot _ _ C2 Hdom), W1.
      * eapply (frame_names _ _ _ C2); [by vm_compute|apply W1].
      * eapply (frame_uniques _ _ _ C2); [by vm_compute|apply W1].
      * apply (reroot _ _ C2 Hdom), W1.
      * eapply (frame_nesting _ _ _ C2); [by vm_compute|apply W1].
    + constructor; rewrite Hroot, Hheap.
      * intros h c [[<- <-]|[Hh Hc]]%lookup_insert_Some; [rewrite lookup_insert_eq; eauto|].
        destruct (root_block _ (w_roots _ _ W) _ _ Hc) as (C & HC' & ?). exists C. split; [|done]. rewrite lookup_insert_ne; [done|].
        intros <-. congruence.
      * intros c C [[<- <-]|[Hc HC']]%lookup_insert_Some Hn; [apply lookup_insert_eq|].
        rewrite lookup_insert_ne; [by apply (block_root _ (w_roots _ _ W))|]. intros Ech.
        pose proof (block_graph _ (w_graphs _ _ W) _ _ HC') as [Hgr _]. rewrite <- Ech in Hgr.
        pose proof (node_graph_live _ _ _ _ W Hgr) as [G HG]. pose proof (free_graph g ltac:(done)). congruence.
Qed.
End new_graph.
