(* ===== verification/IRDestroy.v ===== *)
(** * Operations that keep the invariant, and destroying a node

    The operations on inputs and on lists keep every part of the invariant, and a
    node that holds no blocks and whose outputs have no uses can be destroyed.

    [Node::destroy] for a node without blocks whose outputs have no uses: it goes from
    its list, from the uses of its inputs and from the graph with its outputs. *)
From stdpp Require Import sorting.
From S2P Require Import Prelude JitTypes JitGraph IRSpec IRUses IRLists IRNames IRBuild IRBlocks.
Local Open Scope string_scope.
Local Open Scope nat_scope.
Local Open Scope list_scope.
#[local] Set Warnings "-clear-no-such-hyp".
Import IR.

(** ** Inputs *)

(** Every input of the new lists is an input of the old ones or of the same graph. *)
Definition good_inputs (s : Store) (I : gmap ptr (list (option ptr))) : Prop :=
  ∀ n l x g, I !! n = Some l → x ∈ l → f_graph s !! n = Some g → ∃ v, x = Some v ∧ value_graph s v g.

Lemma good_old s : wf_uses s → wf_graphs s → good_inputs s (f_inputs s).
Proof.
  intros WU WG n l x g Hl Hx Hg. destruct x as [v|]; [|by destruct (no_null _ WU _ _ Hl)]. exists v. split; [done|]. by eapply (input_graph _ WG).
Qed.
Lemma good_insert s I n l :
  good_inputs s I → (∀ x g, x ∈ l → f_graph s !! n = Some g → ∃ v, x = Some v ∧ value_graph s v g) → good_inputs s (<[n := l]> I).
Proof. intros HI Hn m k x g [[<- <-]|[_ Hk]]%lookup_insert_Some; [by apply Hn|by eapply HI]. Qed.

Lemma inputs_wf L s s' :
  wf L s → changes [Inputs; Uses] s s' → mirror (edge (f_inputs s')) (f_uses s') → dom (f_inputs s') ⊆ dom (f_inputs s) →
  good_inputs s (f_inputs s') → wf L s'.
Proof.
  intros W C HM Hdom HI. frame_wf C W.
  - constructor; [done|]. intros n l Hl Hx. assert (is_Some (f_graph s !! n)) as [g Hg].
    { assert (n ∈ dom (f_inputs s)) as Hd by (apply Hdom, elem_of_dom; eauto). apply elem_of_dom in Hd as [k (N & HN & _)%f_inputs_Some].
      exists (graph_ N). apply f_graph_Some. eauto. }
    by destruct (HI n l None g Hl Hx Hg) as (v & ? & _).
  - pose proof (w_graphs _ _ W) as WG.
    assert (HG : f_graph s' = f_graph s) by (apply (C OfGraph); outside).
    assert (HR : f_root s' = f_root s) by (apply (C Root); outside).
    assert (HN : f_all_nodes s' = f_all_nodes s) by (apply (C AllNodes); outside).
    assert (HV : f_all_values s' = f_all_values s) by (apply (C AllValues); outside).
    assert (HA : f_all_blocks s' = f_all_blocks s) by (apply (C AllBlocks); outside).
    assert (HB : block_heap s' = block_heap s) by (apply (C BlockHeap); outside).
    assert (HO : f_owner s' = f_owner s) by (apply (C Owner); outside).
    assert (HD : f_def s' = f_def s) by (apply (C Def); outside).
    constructor; unfold value_graph; rewrite ?HG, ?HR, ?HN, ?HV, ?HA, ?HB, ?HO, ?HD; try by apply WG.
    intros n l v g Hl Hv Hg. destruct (HI n l (Some v) g Hl Hv Hg) as (w & [= ->] & Hw). done.
Qed.

(** One list of inputs changes. *)
Lemma one_input_wf L s s' n l l' :
  wf L s → changes [Inputs; Uses] s s' → mirror (edge (f_inputs s')) (f_uses s') → f_inputs s !! n = Some l →
  f_inputs s' = <[n := l']> (f_inputs s) →
  (∀ x g, x ∈ l' → f_graph s !! n = Some g → x ∈ l ∨ ∃ v, x = Some v ∧ value_graph s v g) → wf L s'.
Proof.
  intros W C HM Hl HI Hx. eapply inputs_wf; [done|done|done| |]; rewrite HI.
  - rewrite dom_insert. apply union_subseteq. split; [|done]. apply singleton_subseteq_l, elem_of_dom. eauto.
  - pose proof (good_old s (w_uses _ _ W) (w_graphs _ _ W)) as H0. apply good_insert; [done|].
    intros x g Hin Hg. destruct (Hx x g Hin Hg) as [Hin'|H]; [|done]. by eapply H0.
Qed.

Lemma same_graph_fun (s : Store) (n : ptr) g h : f_graph s !! n = Some g → f_graph s !! n = Some h → g = h.
Proof. congruence. Qed.

Section inputs.
Context (L : gmap ptr (list ptr)) (s : Store) (W : wf L s) (n : ptr) (l : list (option ptr)) (g : ptr).
Context (Hl : f_inputs s !! n = Some l) (Hg : f_graph s !! n = Some g).
Let HM : mirror (edge (f_inputs s)) (f_uses s) := uses_mirror _ (w_uses _ _ W).
Let Hnn : None ∉ l := no_null _ (w_uses _ _ W) _ _ Hl.

Lemma addInput_wf v : value_graph s v g → ∃ s', addInput n v s = (Ok v, s') ∧ changes [Inputs; Uses] s s' ∧
  f_inputs s' = <[n := l ++ [Some v]]> (f_inputs s) ∧ wf L s'.
Proof.
  intros Hv. destruct (addInput_Ok n l v g s HM Hl Hg Hv) as (s' & E & C & HI & HM'). exists s'. split_and!; [done..|].
  eapply one_input_wf; [done|done|done|exact Hl|exact HI|]. intros x h [Hx| ->%list_elem_of_singleton]%elem_of_app Hh; [by left|right].
  exists v. split; [done|]. by rewrite (same_graph_fun _ _ _ _ Hh Hg).
Qed.
Lemma insertInput_wf i v : i ≤ length l → value_graph s v g → ∃ s', insertInput n i v s = (Ok v, s') ∧ changes [Inputs; Uses] s s' ∧
  f_inputs s' = <[n := take i l ++ Some v :: drop i l]> (f_inputs s) ∧ wf L s'.
Proof.
  intros Hi Hv. destruct (insertInput_Ok n i l v g s HM Hl Hnn Hi Hg Hv) as (s' & E & C & HI & HM'). exists s'. split_and!; [done..|].
  eapply one_input_wf; [done|done|done|exact Hl|exact HI|]. intros x h Hx Hh. rewrite <- (take_drop i l), elem_of_app.
  apply elem_of_app in Hx as [Hx|[->|Hx]%elem_of_cons]; [tauto| |tauto]. right.
  exists v. split; [done|]. by rewrite (same_graph_fun _ _ _ _ Hh Hg).
Qed.
Lemma replaceInput_wf i old v : l !! i = Some (Some old) → value_graph s v g → ∃ s', replaceInput n i v s = (Ok old, s') ∧
  changes [Inputs; Uses] s s' ∧ f_inputs s' = <[n := <[i := Some v]> l]> (f_inputs s) ∧ wf L s'.
Proof.
  intros Hi Hv. destruct (replaceInput_Ok n i l old v g s HM Hl Hi Hg Hv) as (s' & E & C & HI & HM'). exists s'. split_and!; [done..|].
  eapply one_input_wf; [done|done|done|exact Hl|exact HI|]. intros x h [j Hj]%list_elem_of_lookup Hh.
  apply list_lookup_insert_Some in Hj as [(_ & <- & _)|[_ Hj]]; [right|left; by eapply list_elem_of_lookup_2].
  exists v. split; [done|]. by rewrite (same_graph_fun _ _ _ _ Hh Hg).
Qed.
Lemma replaceInputWith_wf from to : value_graph s from g → value_graph s to g → ∃ s', replaceInputWith n from to s = (Ok tt, s') ∧
  changes [Inputs; Uses] s s' ∧ f_inputs s' = <[n := subst_value from to <$> l]> (f_inputs s) ∧ wf L s'.
Proof.
  intros Hf Ht. destruct (replaceInputWith_Ok n l from to g s HM Hl Hg Hf Ht) as (s' & E & C & HI & HM'). exists s'. split_and!; [done..|].
  eapply one_input_wf; [done|done|done|exact Hl|exact HI|]. intros x h (y & -> & Hy)%list_elem_of_fmap Hh. unfold subst_value.
  case_decide; [right|by left]. exists to. split; [done|]. by rewrite (same_graph_fun _ _ _ _ Hh Hg).
Qed.
Lemma removeInput_wf i : i < length l → ∃ s', removeInput n i s = (Ok tt, s') ∧ changes [Inputs; Uses] s s' ∧
  f_inputs s' = <[n := delete i l]> (f_inputs s) ∧ wf L s'.
Proof.
  intros Hi. destruct (removeInput_Ok n i l s HM Hl Hnn Hi) as (s' & E & C & HI & HM'). exists s'. split_and!; [done..|].
  eapply one_input_wf; [done|done|done|exact Hl|exact HI|]. intros x h Hx _. left. eapply sublist_subseteq; [apply sublist_delete|done].
Qed.
Lemma removeAllInputs_wf : ∃ s', removeAllInputs n s = (Ok tt, s') ∧ changes [Inputs; Uses] s s' ∧
  f_inputs s' = <[n := []]> (f_inputs s) ∧ wf L s'.
Proof.
  destruct (removeAllInputs_Ok n l s HM Hl Hnn) as (s' & E & C & HI & HM'). exists s'. split_and!; [done..|].
  eapply one_input_wf; [done|done|done|exact Hl|exact HI|]. by intros x h Hx%not_elem_of_nil.
Qed.
End inputs.

Lemma replaceAllUsesWith_wf L s v w g vs ws :
  wf L s → v ≠ w → f_uses s !! v = Some vs → f_uses s !! w = Some ws → value_graph s v g → value_graph s w g →
  ∃ s', Value_replaceAllUsesWith v w s = (Ok tt, s') ∧ changes [Inputs; Uses] s s' ∧
    f_inputs s' = fmap (M:=list) (subst_value v w) <$> f_inputs s ∧ f_uses s' = <[v := []]> (<[w := ws ++ vs]> (f_uses s)) ∧ wf L s'.
Proof.
  intros W Hvw Hv Hw Hgv Hgw. destruct (replaceAllUsesWith_Ok v w g vs ws s (uses_mirror _ (w_uses _ _ W)) Hvw Hv Hw Hgv Hgw) as (s' & E & C & HI & HU & HM).
  exists s'. split_and!; [done..|]. eapply inputs_wf; [done|done|done| |]; rewrite HI.
  - by rewrite dom_fmap.
  - intros n l x h (k & <- & Hk)%lookup_fmap_Some (y & -> & Hy)%list_elem_of_fmap Hh.
    destruct (good_old s (w_uses _ _ W) (w_graphs _ _ W) n k y h Hk Hy Hh) as (u & -> & Hu). unfold subst_value. case_decide as Hd; [|eauto].
    injection Hd as ->. exists w. split; [done|]. by rewrite <- (value_graph_fun _ _ _ _ Hgv Hu).
Qed.

(** ** Lists *)

(** Inserting a node that does not hold the block, directly or deeper. *)
Lemma rooted_insert s s' this b :
  f_owner s !! this = Some None → f_owner s' = <[this := Some b]> (f_owner s) → block_heap s' = block_heap s →
  rooted s b → (inside s this b → False) → ∀ c, rooted s c → rooted s' c.
Proof.
  intros Ho HO HB Hb Hin.
  assert (H0 : ∀ c, rooted s c → (inside s this c → False) → rooted s' c).
  { induction 1 as [c C HC Hn|c C n HC Hn Hno|c C n e HC Hn Hno _ IH]; intros Hni.
    - eapply rooted_top; [by rewrite HB|done].
    - eapply rooted_loose; [by rewrite HB|done|]. rewrite HO, lookup_insert_ne; [done|]. intros <-. apply Hni. by eapply inside_direct.
    - eapply rooted_in; [by rewrite HB|done| |].
      + rewrite HO, lookup_insert_ne; [done|]. intros <-. congruence.
      + apply IH. intros H. apply Hni. by eapply inside_deep. }
  induction 1 as [c C HC Hn|c C n HC Hn Hno|c C n e HC Hn Hno _ IH].
  - eapply rooted_top; [by rewrite HB|done].
  - destruct (decide (n = this)) as [->|Hne].
    + eapply rooted_in; [by rewrite HB|done|by rewrite HO, lookup_insert_eq|by apply H0].
    + eapply rooted_loose; [by rewrite HB|done|by rewrite HO, lookup_insert_ne].
  - eapply rooted_in; [by rewrite HB|done| |done]. rewrite HO, lookup_insert_ne; [done|]. intros <-. congruence.
Qed.
Lemma rooted_remove s s' n :
  is_Some (f_owner s !! n) → f_owner s' = <[n := None]> (f_owner s) → block_heap s' = block_heap s → ∀ c, rooted s c → rooted s' c.
Proof.
  intros Ho HO HB. induction 1 as [c C HC Hn|c C m HC Hn Hno|c C m e HC Hn Hno _ IH].
  - eapply rooted_top; [by rewrite HB|done].
  - eapply rooted_loose; [by rewrite HB|done|]. rewrite HO. destruct (decide (n = m)) as [->|]; [apply lookup_insert_eq|by rewrite lookup_insert_ne].
  - destruct (decide (n = m)) as [->|].
    + eapply rooted_loose; [by rewrite HB|done|]. by rewrite HO, lookup_insert_eq.
    + eapply rooted_in; [by rewrite HB|done| |done]. by rewrite HO, lookup_insert_ne.
Qed.

(** Only the block of one node changes. *)
Lemma owner_graphs s s' n c :
  changes [Owner; Next; Prev; Pos] s s' → f_owner s' = <[n := c]> (f_owner s) → wf_graphs s →
  (∀ b B, c = Some b → block_heap s !! b = Some B → f_graph s !! n = Some (block_graph_ B)) → wf_graphs s'.
Proof.
  intros C HO WG Hc.
  assert (HG : f_graph s' = f_graph s) by (apply (C OfGraph); outside).
  assert (HR : f_root s' = f_root s) by (apply (C Root); outside).
  assert (HI : f_inputs s' = f_inputs s) by (apply (C Inputs); outside).
  assert (HN : f_all_nodes s' = f_all_nodes s) by (apply (C AllNodes); outside).
  assert (HV : f_all_values s' = f_all_values s) by (apply (C AllValues); outside).
  assert (HA : f_all_blocks s' = f_all_blocks s) by (apply (C AllBlocks); outside).
  assert (HB : block_heap s' = block_heap s) by (apply (C BlockHeap); outside).
  assert (HD : f_def s' = f_def s) by (apply (C Def); outside).
  constructor; unfold value_graph; rewrite ?HG, ?HR, ?HI, ?HN, ?HV, ?HA, ?HB, ?HD; try by apply WG.
  intros m b B. rewrite HO. intros [[<- Hb]|[_ Hm]]%lookup_insert_Some HBk; [by eapply Hc|by eapply (member_graph _ WG)].
Qed.

Section lists.
Context (L : gmap ptr (list ptr)) (s : Store) (W : wf L s).

Lemma insert_wf this b B p q s' :
  block_heap s !! b = Some B → f_owner s !! this = Some None → f_graph s !! this = Some (block_graph_ B) →
  (inside s this b → False) → changes [Owner; Next; Prev; Pos] s s' → f_owner s' = <[this := Some b]> (f_owner s) →
  wf_lists (<[b := p ++ this :: q]> L) s' → wf_positions (<[b := p ++ this :: q]> L) s' → wf (<[b := p ++ this :: q]> L) s'.
Proof.
  intros HB Ho Hg Hin C HO WL WP. frame_wf C W; [done|done| |].
  - eapply owner_graphs; [done|exact HO|apply W|]. intros c D [= <-] HD. by simplify_eq.
  - intros c Hc. assert (HH : block_heap s' = block_heap s) by (apply (C BlockHeap); outside). rewrite HH in Hc.
    eapply rooted_insert; [exact Ho|exact HO|done| |exact Hin|by apply (w_nesting _ _ W)]. apply (w_nesting _ _ W). eauto.
Qed.

Lemma insertAfter_wf this b B p q :
  block_heap s !! b = Some B → L !! b = Some (p ++ q) → f_owner s !! this = Some None → f_graph s !! this = Some (block_graph_ B) →
  (inside s this b → False) → S (length (p ++ q)) ≤ max_nodes → gap_fits s p q →
  ∃ s', insertAfter this (prev_in (output_ B) p) s = (Ok this, s') ∧ changes [Owner; Next; Prev; Pos] s s' ∧
    f_owner s' = <[this := Some b]> (f_owner s) ∧ wf (<[b := p ++ this :: q]> L) s'.
Proof.
  intros HB Hl Ho Hg Hin Hlen Hgap.
  destruct (insertAfter_Ok L s this b B p q) as (s' & E & C & HO & WL & WP); try done; try apply W.
  exists s'. split_and!; [done..|]. by eapply insert_wf.
Qed.
Lemma insertBefore_wf this b B p q :
  block_heap s !! b = Some B → L !! b = Some (p ++ q) → f_owner s !! this = Some None → f_graph s !! this = Some (block_graph_ B) →
  (inside s this b → False) → S (length (p ++ q)) ≤ max_nodes → gap_fits s p q →
  ∃ s', insertBefore this (next_in q (output_ B)) s = (Ok this, s') ∧ changes [Owner; Next; Prev; Pos] s s' ∧
    f_owner s' = <[this := Some b]> (f_owner s) ∧ wf (<[b := p ++ this :: q]> L) s'.
Proof.
  intros HB Hl Ho Hg Hin Hlen Hgap.
  destruct (insertBefore_Ok L s this b B p q) as (s' & E & C & HO & WL & WP); try done; try apply W.
  exists s'. split_and!; [done..|]. by eapply insert_wf.
Qed.

Lemma removeFromList_wf n b B p q :
  block_heap s !! b = Some B → L !! b = Some (p ++ n :: q) →
  ∃ s', removeFromList n s = (Ok tt, s') ∧ changes [Owner; Next; Prev] s s' ∧ f_owner s' = <[n := None]> (f_owner s) ∧
    wf (<[b := p ++ q]> L) s'.
Proof.
  intros HB Hl. destruct (removeFromList_Ok L s n b B p q) as (s' & E & C & HO & WL & WP); try done; try apply W.
  exists s'. split_and!; [done..|].
  assert (C' : changes [Owner; Next; Prev; Pos] s s').
  { eapply changes_weaken; [exact C|]. subfields. }
  frame_wf C' W; [done|done| |].
  - by eapply owner_graphs; [done|exact HO|apply W|].
  - intros c Hc. assert (HH : block_heap s' = block_heap s) by (apply (C BlockHeap); outside). rewrite HH in Hc.
    eapply rooted_remove; [|exact HO|done|by apply (w_nesting _ _ W)]. exists (Some b).
    apply (members _ _ (w_lists _ _ W) b B _ n HB Hl). do 2 right. apply elem_of_app. right. by left.
Qed.
End lists.

Lemma inside_mono s s' n c : block_heap s' = block_heap s → (∀ x d, f_owner s' !! x = Some (Some d) → f_owner s !! x = Some (Some d)) →
  inside s' n c → inside s n c.
Proof.
  intros HB HO. induction 1 as [c C HC Hn|c C m e HC Hn Hm _ IH]; [eapply inside_direct|eapply inside_deep]; rewrite <- ?HB; eauto.
Qed.
Lemma gap_fits_ext s s' p q : f_pos s' = f_pos s → gap_fits s p q → gap_fits s' p q.
Proof. intros E. unfold gap_fits. by rewrite E. Qed.

(** A node goes from its block [b] to block [c], which may be the same. *)
Section move.
Context (L : gmap ptr (list ptr)) (s : Store) (W : wf L s) (n b c : ptr) (B D : Block) (p q r t : list ptr).
Context (HB : block_heap s !! b = Some B) (Hl : L !! b = Some (p ++ n :: q)) (HD : block_heap s !! c = Some D).
Context (Hr : <[b := p ++ q]> L !! c = Some (r ++ t)) (Hgraph : block_graph_ D = block_graph_ B) (Hin : inside s n c → False).
Context (Hlen : S (length (r ++ t)) ≤ max_nodes) (Hgap : gap_fits s r t).

Lemma move_start :
  ∃ s1, removeFromList n s = (Ok tt, s1) ∧ wf (<[b := p ++ q]> L) s1 ∧ block_heap s1 !! c = Some D ∧ f_owner s1 !! n = Some None ∧
    f_graph s1 !! n = Some (block_graph_ D) ∧ (inside s1 n c → False) ∧ gap_fits s1 r t ∧ changes [Owner; Next; Prev] s s1 ∧
    f_owner s1 = <[n := None]> (f_owner s).
Proof.
  destruct (removeFromList_wf L s W n b B p q HB Hl) as (s1 & E1 & C1 & HO1 & W1). exists s1.
  assert (HH : block_heap s1 = block_heap s) by (apply (C1 BlockHeap); outside).
  assert (HP : f_pos s1 = f_pos s) by (apply (C1 Pos); outside).
  assert (HG : f_graph s1 = f_graph s) by (apply (C1 OfGraph); outside).
  assert (Ho : f_owner s !! n = Some (Some b)).
  { apply (members _ _ (w_lists _ _ W) b B _ n HB Hl). do 2 right. apply elem_of_app. right. by left. }
  split_and!; [done|done|by rewrite HH|by rewrite HO1, lookup_insert_eq| | |by eapply gap_fits_ext|done|done].
  - rewrite HG, Hgraph. by eapply (member_graph _ (w_graphs _ _ W)).
  - intros H. apply Hin. eapply inside_mono; [exact HH| |exact H]. intros x d. rewrite HO1. by intros [[_ [=]]|[_ ?]]%lookup_insert_Some.
Qed.

Lemma moveAfter_wf :
  ∃ s', moveAfter n (prev_in (output_ D) r) s = (Ok tt, s') ∧ changes [Owner; Next; Prev; Pos] s s' ∧
    f_owner s' = <[n := Some c]> (f_owner s) ∧ wf (<[c := r ++ n :: t]> (<[b := p ++ q]> L)) s'.
Proof.
  destruct move_start as (s1 & E1 & W1 & HD1 & Ho1 & Hg1 & Hi1 & Hgap1 & C1 & HO1).
  destruct (insertAfter_wf _ s1 W1 n c D r t) as (s2 & E2 & C2 & HO2 & W2); [done..|].
  exists s2. split_and!; [unfold moveAfter; by rewrite (run_bind _ _ _ _ _ E1), (run_bind _ _ _ _ _ E2)| | |done].
  - eapply changes_step; [|exact C2]. eapply changes_weaken; [exact C1|]. subfields.
  - by rewrite HO2, HO1, insert_insert_eq.
Qed.
Lemma moveBefore_wf :
  ∃ s', moveBefore n (next_in t (output_ D)) s = (Ok tt, s') ∧ changes [Owner; Next; Prev; Pos] s s' ∧
    f_owner s' = <[n := Some c]> (f_owner s) ∧ wf (<[c := r ++ n :: t]> (<[b := p ++ q]> L)) s'.
Proof.
  destruct move_start as (s1 & E1 & W1 & HD1 & Ho1 & Hg1 & Hi1 & Hgap1 & C1 & HO1).
  destruct (insertBefore_wf _ s1 W1 n c D r t) as (s2 & E2 & C2 & HO2 & W2); [done..|].
  exists s2. split_and!; [unfold moveBefore; by rewrite (run_bind _ _ _ _ _ E1), (run_bind _ _ _ _ _ E2)| | |done].
  - eapply changes_step; [|exact C2]. eapply changes_weaken; [exact C1|]. subfields.
  - by rewrite HO2, HO1, insert_insert_eq.
Qed.
End move.

(** ** Destroying a node *)

(** ** [freeNode] *)
Definition drop_node (n g : ptr) (s : Store) : Store :=
  upd_graph g (λ G, set_all_nodes (all_nodes G ∖ {[n]}) G) (with_nodes (delete n (node_heap s)) s).

Section free.
Context (n g : ptr) (s : Store).
Context (Hi : f_inputs s !! n = Some []) (Ho : f_outputs s !! n = Some []) (Hb : f_blocks s !! n = Some []).
Context (Hw : f_owner s !! n = Some None) (Hg : f_graph s !! n = Some g).
Let s' := drop_node n g s.

Lemma drop_node_field {A} (f : Node → A) : f <$> node_heap s' = delete n (f <$> node_heap s).
Proof. apply fmap_delete. Qed.
Lemma drop_old_Some {A} (f : Node → A) m x : (f <$> node_heap s') !! m = Some x ↔ m ≠ n ∧ (f <$> node_heap s) !! m = Some x.
Proof. rewrite drop_node_field, lookup_delete_Some. naive_solver. Qed.
Lemma drop_kept {A} (f : Node → A) m x : m ≠ n → (f <$> node_heap s) !! m = Some x → (f <$> node_heap s') !! m = Some x.
Proof. intros. by apply drop_old_Some. Qed.
Lemma drop_node_changes : changes [Kind; Inputs; Outputs; Blocks; OfGraph; Owner; Next; Prev; Pos; NodeAttrs; AllNodes] s s'.
Proof.
  intros f Hf. destruct f; try (exfalso; apply Hf; repeat constructor; fail); try reflexivity; apply alter_frame; reflexivity.
Qed.
Lemma drop_value_graph v h : wf_defs s → value_graph s' v h ↔ value_graph s v h.
Proof.
  intros W. unfold value_graph. change (f_def s') with (f_def s). split; intros (m & i & Hd & Hm); exists m, i; (split; [done|]).
  - by apply (drop_old_Some graph_) in Hm as [_ Hm].
  - apply (drop_kept graph_); [|done]. intros ->. destruct (def_output _ W _ _ _ Hd) as (l & Hl & Hli).
    assert (l = []) as -> by congruence. done.
Qed.

Lemma drop_wf L : wf L s → wf L s'.
Proof.
  intros W. pose proof drop_node_changes as HC.
  assert (HAN : f_all_nodes s' = alter (λ A, A ∖ {[n]}) g (f_all_nodes s)).
  { unfold f_all_nodes, s', drop_node, upd_graph. cbn. by rewrite (alter_hit all_nodes _ (λ A, A ∖ {[n]})) by done. }
  assert (HR : f_root s' = f_root s) by (apply (HC Root); outside).
  assert (HV : f_all_values s' = f_all_values s) by (apply (HC AllValues); outside).
  assert (HA : f_all_blocks s' = f_all_blocks s) by (apply (HC AllBlocks); outside).
  assert (HN : f_names s' = f_names s) by (apply (HC Names); outside).
  assert (HU : f_next_unique s' = f_next_unique s) by (apply (HC NextUnique); outside).
  assert (Hmem : ∀ x b, f_owner s !! x = Some (Some b) → x ≠ n) by (intros x b Hx ->; congruence).
  assert (Hown : ∀ x b, f_owner s !! x = Some (Some b) → f_owner s' !! x = Some (Some b)).
  { intros x b Hx. by apply (drop_kept owning_block_); [eapply Hmem|]. }
  assert (Hends : ∀ b B, block_heap s !! b = Some B → f_owner s !! output_ B = Some (Some b) ∧ f_owner s !! input_ B = Some (Some b)).
  { intros b B HB. destruct (lists_dom _ _ (w_lists _ _ W) b) as [_ Hd]. destruct (Hd ltac:(eauto)) as [l Hl].
    split; apply (members _ _ (w_lists _ _ W) b B l); try done; [by left|right; by left]. }
  assert (Hholder : ∀ b B m, block_heap s !! b = Some B → owning_node_ B = Some m → m ≠ n).
  { intros b B m HB Hm ->. destruct (owner_block _ (w_blocks _ _ W) _ _ _ HB Hm) as (l & Hl & Hbl). assert (l = []) as -> by congruence.
    by apply not_elem_of_nil in Hbl. }
  destruct (loose _ _ (w_lists _ _ W) _ Hw) as [Hnext Hprev].
  constructor.
  - pose proof (w_uses _ _ W) as [HM Hnn]. constructor.
    + change (f_uses s') with (f_uses s). eapply mirror_ext; [|exact HM]. intros m i v. split; intros (l & Hl & Hli); exists l; (split; [|done]).
      * apply (drop_kept inputs_); [|done]. intros ->. assert (l = []) as -> by congruence. done.
      * by apply (drop_old_Some inputs_) in Hl as [_ Hl].
    + intros m l [_ Hl]%(drop_old_Some inputs_). by eapply Hnn.
  - pose proof (w_defs _ _ W) as [H1 H2]. constructor; change (f_def s') with (f_def s).
    + intros m l i v [_ Hl]%(drop_old_Some outputs_). by eapply H1.
    + intros v m i Hd. destruct (H2 _ _ _ Hd) as (l & Hl & Hli). exists l. split; [|done]. apply (drop_kept outputs_); [|done].
      intros ->. assert (l = []) as -> by congruence. done.
  - pose proof (w_blocks _ _ W) as [H1 H2 H3]. constructor; change (block_heap s') with (block_heap s).
    + intros m l b [_ Hl]%(drop_old_Some blocks_). by eapply H1.
    + intros b B m HB Hm. destruct (H2 _ _ _ HB Hm) as (l & Hl & Hbl). exists l. split; [|done].
      apply (drop_kept blocks_); [by eapply Hholder|done].
    + intros m l [_ Hl]%(drop_old_Some blocks_). by eapply H3.
  - pose proof (w_lists _ _ W) as WL. constructor; change (block_heap s') with (block_heap s).
    + apply (lists_dom _ _ WL).
    + intros b B l HB Hl. apply chain_inner. pose proof (ring _ _ WL b B l HB Hl) as Hr. apply chain_inner in Hr. eapply inner_mono2; [|exact Hr].
      assert (∀ x, x ∈ output_ B :: l ++ [output_ B] → x ≠ n) as Hne.
      { intros x Hx. apply (Hmem x b), (members _ _ WL b B l x HB Hl). unfold block_nodes.
        rewrite elem_of_cons, elem_of_app, list_elem_of_singleton in Hx. rewrite !elem_of_cons. tauto. }
      intros x y Hx Hy [Hx1 Hy1]. split; [apply (drop_kept next_); [by apply Hne|done]|apply (drop_kept prev_); [by apply Hne|done]].
    + intros b B l m HB Hl. rewrite (members _ _ WL b B l m HB Hl). split; [apply Hown|]. by intros [_ ?]%(drop_old_Some owning_block_).
    + apply (members_NoDup _ _ WL).
    + intros m b [_ Hm]%(drop_old_Some owning_block_). by eapply (owner_live _ _ WL).
    + intros m [Hmn Hm]%(drop_old_Some owning_block_). destruct (loose _ _ WL _ Hm).
      split; [by apply (drop_kept next_)|by apply (drop_kept prev_)].
    + intros b B HB. destruct (Hends b B HB) as [_ Hib]. destruct (loose_param _ _ WL _ _ HB).
      split; [apply (drop_kept next_); [by eapply Hmem|done]|apply (drop_kept prev_); [by eapply Hmem|done]].
  - pose proof (w_positions _ _ W) as [H1 H2]. pose proof (w_lists _ _ W) as WL. constructor; change (block_heap s') with (block_heap s).
    + intros b B HB. destruct (Hends b B HB) as [Hob Hib]. destruct (H1 b B HB).
      split; (apply (drop_kept topo_position_); [by eapply Hmem|done]).
    + intros b B l HB Hl. rewrite (positions_ext s); [by eapply H2|]. intros x Hx. unfold f_pos. rewrite (drop_node_field topo_position_).
      apply lookup_delete_ne. intros <-. apply (Hmem n b); [|done]. apply (members _ _ WL b B l n HB Hl). unfold block_nodes.
      rewrite elem_of_cons, elem_of_app, list_elem_of_singleton in Hx. rewrite !elem_of_cons. tauto.
  - pose proof (w_graphs _ _ W) as WG. constructor; change (block_heap s') with (block_heap s); rewrite ?HR, ?HV, ?HA.
    + intros m h [_ Hm]%(drop_old_Some graph_). by eapply (graph_live _ WG).
    + intros h A m. rewrite HAN. intros HA'. unfold f_graph. rewrite drop_old_Some. fold (f_graph s). destruct (decide (g = h)) as [<-|Hh].
      * rewrite lookup_alter_eq in HA'. apply fmap_Some in HA' as (A0 & HA0 & ->).
        rewrite elem_of_difference, elem_of_singleton, (in_all_nodes _ WG g A0 m HA0). tauto.
      * rewrite lookup_alter_ne in HA' by done. rewrite (in_all_nodes _ WG h A m HA'). split; [|tauto]. intros Hm. split; [|done].
        intros ->. congruence.
    + intros h A v HA'. rewrite drop_value_graph by apply W. by apply (in_all_values _ WG).
    + apply (in_all_blocks _ WG).
    + intros m l v h [_ Hl]%(drop_old_Some inputs_) Hv [_ Hm]%(drop_old_Some graph_). apply drop_value_graph; [apply W|]. by eapply (input_graph _ WG).
    + intros b B HB. destruct (Hends b B HB) as [Hob Hib]. destruct (block_graph _ WG _ _ HB).
      split; (apply (drop_kept graph_); [by eapply Hmem|done]).
    + intros b B m HB Hm. apply (drop_kept graph_); [by eapply Hholder|]. by eapply (owner_graph _ WG).
    + intros m b B [Hmn Hm]%(drop_old_Some owning_block_) HB. apply (drop_kept graph_); [done|]. by eapply (member_graph _ WG).
  - eapply (frame_roots _ _ _ HC); [by vm_compute|apply W].
  - pose proof (w_names _ _ W) as WN. constructor; change (f_name s') with (f_name s); rewrite ?HN.
    + intros h ns x v Hns Hx. destruct (name_owner _ WN _ _ _ _ Hns Hx) as (? & ? & ?). split_and!; [done..|]. by apply drop_value_graph; [apply W|].
    + intros h ns x v Hns Hx Hne Hv%drop_value_graph; [|apply W]. by eapply (owner_name _ WN).
    + apply (name_valid _ WN).
  - pose proof (w_uniques _ _ W) as WU. constructor; change (f_unique s') with (f_unique s); rewrite ?HU.
    + intros v h k m Hk Hv%drop_value_graph; [|apply W]. by eapply (unique_below _ WU).
    + intros v w h k Hk Hk' Hv%drop_value_graph Hw'%drop_value_graph; [|apply W..]. by eapply (unique_inj _ WU).
  - pose proof (w_fresh _ _ W) as [F1 F2 F3 F4]. constructor; rewrite ?HR; try done.
    intros m [x [_ Hm]%(drop_old_Some kind_)]. apply F1. by exists x.
  - intros b HB. pose proof (w_nesting _ _ W b HB) as Hb'. clear HB.
    induction Hb' as [b B HB Hn|b B m HB Hn Hm|b B m c HB Hn Hm _ IH].
    + by eapply rooted_top.
    + eapply rooted_loose; [done|done|]. apply (drop_kept owning_block_); [by eapply Hholder|done].
    + eapply rooted_in; [done|done|by apply Hown|done].
Qed.

Lemma freeNode_run L : wf L s → freeNode g n s = (Ok tt, s').
Proof.
  intros W. pose proof (node_graph_live _ _ _ _ W Hg) as [G HG].
  unfold freeNode. step. rewrite run_assert.
  - erewrite run_bind by reflexivity. step. done.
  - apply bool_decide_eq_true. eapply (in_all_nodes _ (w_graphs _ _ W) g); [|done]. unfold f_all_nodes. by rewrite lookup_fmap, HG.
Qed.
End free.

(** ** The outputs, from the last to the first *)
Lemma eraseOutput_wf L s n i l v g :
  wf L s → f_outputs s !! n = Some l → l !! i = Some v → f_graph s !! n = Some g → f_uses s !! v = Some [] →
  ∃ s' ns, eraseOutput n i s = (Ok tt, s') ∧ output_erased n i l v g ns s s' ∧ wf L s'.
Proof.
  intros W Hl Hi Hg Hu. pose proof (node_graph_live _ _ _ _ W Hg) as HG.
  destruct (eraseOutput_run s n i l v g) as (s' & ns & E & Hns & HE); try done; try apply W.
  exists s', ns. split_and!; [done..|]. by eapply erased_wf.
Qed.

Lemma erase_all L n g k l s :
  wf L s → f_outputs s !! n = Some l → length l = k → f_graph s !! n = Some g → (∀ v, v ∈ l → f_uses s !! v = Some []) →
  ∃ s', while_ (S k) (N ← deref_node n; mret (0 <? length (outputs_ N))) (N ← deref_node n; eraseOutput n (length (outputs_ N) - 1)) s = (Ok tt, s') ∧
    wf L s' ∧ changes [Outputs; Def; Unique; Uses; Name; Types; Names; AllValues] s s' ∧ f_outputs s' = <[n := []]> (f_outputs s) ∧
    ∀ w, f_uses s' !! w = if decide (w ∈ l) then None else f_uses s !! w.
Proof.
  revert l s. induction k as [|k IH]; intros l s W Hl Hk Hg Hu; pose proof Hl as (N & HN & HNl)%f_outputs_Some.
  - destruct l; [|done]. exists s. split_and!; [|done|apply changes_refl|by rewrite insert_id|].
    + cbn [while_]. erewrite run_bind by (step; reflexivity). by rewrite HNl.
    + intros w. by rewrite decide_False by apply not_elem_of_nil.
  - destruct (exists_last (l := l)) as (l0 & v & ->); [by destruct l|]. rewrite length_app in Hk. cbn in Hk.
    assert (Hlast : (l0 ++ [v]) !! length l0 = Some v) by (by rewrite list_lookup_middle).
    assert (Hdel : delete (length l0) (l0 ++ [v]) = l0).
    { rewrite delete_take_drop, take_app_length, drop_ge by (rewrite length_app; cbn; lia). by rewrite app_nil_r. }
    pose proof (outputs_NoDup _ _ _ (w_defs _ _ W) Hl) as Hnd. apply list.NoDup_app in Hnd as (_ & Hdis & _).
    destruct (eraseOutput_wf L s n (length l0) (l0 ++ [v]) v g) as (s1 & ns & E1 & HE & W1); [done..|apply Hu, elem_of_app; right; by left|].
    pose proof (erased_changes _ _ _ _ _ _ _ _ HE) as C1. pose proof (erased_outputs _ _ _ _ _ _ _ _ HE) as HO1. rewrite Hdel in HO1.
    pose proof (erased_uses _ _ _ _ _ _ _ _ HE) as HU1.
    assert (HG1 : f_graph s1 = f_graph s) by (apply (C1 OfGraph); outside).
    destruct (IH l0 s1) as (s2 & E2 & W2 & C2 & HO2 & HU2); [done|by rewrite HO1, lookup_insert_eq|lia|by rewrite HG1| |].
    { intros w Hw. rewrite HU1, lookup_delete_ne; [apply Hu, elem_of_app; by left|]. intros <-. apply (Hdis v Hw). by left. }
    exists s2. split_and!; [|done|by eapply changes_step| |].
    + cbn [while_]. erewrite run_bind by (step; reflexivity). rewrite HNl, length_app. cbn [length].
      rewrite (proj2 (Nat.ltb_lt 0 _)) by lia.
      assert (Hbody : (N ← deref_node n; eraseOutput n (length (outputs_ N) - 1)) s = (Ok tt, s1)).
      { step. rewrite HNl, length_app. cbn [length]. by replace (length l0 + 1 - 1) with (length l0) by lia. }
      rewrite (run_bind _ _ _ _ _ Hbody). exact E2.
    + rewrite HO2, HO1. by rewrite insert_insert_eq.
    + intros w. rewrite HU2, HU1. destruct (decide (w ∈ l0)) as [Hw|Hw]; [by rewrite decide_True by (apply elem_of_app; by left)|].
      destruct (decide (w = v)) as [->|Hwv]; [by rewrite lookup_delete_eq, decide_True by (apply elem_of_app; right; by left)|].
      rewrite lookup_delete_ne by done. rewrite decide_False; [done|]. by intros [?| ->%list_elem_of_singleton]%elem_of_app.
Qed.

(** ** [Node::destroy] *)

(** Node [n] is in no list, or in the list of a block: [L'] is without it. *)
Definition unlisted (L : gmap ptr (list ptr)) (s : Store) (n : ptr) (L' : gmap ptr (list ptr)) : Prop :=
  (f_owner s !! n = Some None ∧ L' = L) ∨
  ∃ b B p q, block_heap s !! b = Some B ∧ L !! b = Some (p ++ n :: q) ∧ L' = <[b := p ++ q]> L.

Lemma unlist_run L s n L' N :
  wf L s → unlisted L s n L' → node_heap s !! n = Some N →
  ∃ s', (i ← lift (inBlockList N); if i : bool then removeFromList n else mret tt) s = (Ok tt, s') ∧ wf L' s' ∧
    changes [Owner; Next; Prev] s s' ∧ f_owner s' = <[n := None]> (f_owner s).
Proof.
  intros W [[Ho ->]|(b & B & p & q & HB & Hl & ->)] HN.
  - exists s. destruct (loose _ _ (w_lists _ _ W) _ Ho) as [(N1 & HN1 & Hx)%f_next_Some (N2 & HN2 & Hy)%f_prev_Some].
    assert (N1 = N) as -> by congruence. assert (N2 = N) as -> by congruence. rewrite inBlockList_loose by done.
    split_and!; [done|done|apply changes_refl|by rewrite insert_id].
  - destruct (removeFromList_wf L s W n b B p q HB Hl) as (s' & E & C & HO & W'). exists s'. split_and!; [|done..].
    pose proof (ring _ _ (w_lists _ _ W) b B _ HB Hl) as Hr. apply chain_app in Hr as [_ Hr]. apply chain_next in Hr as (N' & HN' & Hx)%linked_next.
    assert (N' = N) as -> by congruence. rewrite (inBlockList_in N _ Hx). done.
Qed.

Lemma Node_destroy_leaf L s n os L' :
  wf L s → f_blocks s !! n = Some [] → f_outputs s !! n = Some os → (∀ v, v ∈ os → f_uses s !! v = Some []) → unlisted L s n L' →
  ∃ s', Node_destroy n s = (Ok tt, s') ∧ wf L' s' ∧ f_inputs s' = delete n (f_inputs s) ∧ f_outputs s' = delete n (f_outputs s) ∧
    f_owner s' = delete n (f_owner s) ∧ (∀ w, is_Some (f_uses s' !! w) ↔ is_Some (f_uses s !! w) ∧ w ∉ os) ∧ block_heap s' = block_heap s.
Proof.
  intros W Hb Ho Hu HL. pose proof Ho as (N & HN & HNo)%f_outputs_Some.
  assert (Hg : f_graph s !! n = Some (graph_ N)) by (apply f_graph_Some; eauto).
  destruct (erase_all L n (graph_ N) (length os) os s) as (s1 & E1 & W1 & C1 & HO1 & HU1); try done.
  assert (is_Some (f_inputs s1 !! n)) as [l Hl].
  { assert (f_inputs s1 = f_inputs s) as -> by (apply (C1 Inputs); outside). exists (inputs_ N). apply f_inputs_Some. eauto. }
  assert (Hg1 : f_graph s1 !! n = Some (graph_ N)) by (assert (f_graph s1 = f_graph s) as -> by (apply (C1 OfGraph); outside); done).
  destruct (removeAllInputs_wf L s1 W1 n l Hl) as (s2 & E2 & C2 & HI2 & W2).
  assert (Hg2 : f_graph s2 !! n = Some (graph_ N)) by (assert (f_graph s2 = f_graph s1) as -> by (apply (C2 OfGraph); outside); done).
  pose proof Hg2 as (N2 & HN2 & HNg2)%f_graph_Some.
  assert (HB2 : block_heap s2 = block_heap s).
  { transitivity (block_heap s1); [apply (C2 BlockHeap); outside|apply (C1 BlockHeap); outside]. }
  assert (HW2 : f_owner s2 = f_owner s).
  { transitivity (f_owner s1); [apply (C2 Owner); outside|apply (C1 Owner); outside]. }
  destruct (unlist_run L s2 n L' N2 W2) as (s3 & E3 & W3 & C3 & HW3); [unfold unlisted in *; by rewrite HB2, HW2|done|].
  assert (HI3 : f_inputs s3 = <[n := []]> (f_inputs s)).
  { transitivity (f_inputs s2); [apply (C3 Inputs); outside|]. rewrite HI2. f_equal. apply (C1 Inputs). outside. }
  assert (HO3 : f_outputs s3 = <[n := []]> (f_outputs s)).
  { transitivity (f_outputs s2); [apply (C3 Outputs); outside|]. transitivity (f_outputs s1); [apply (C2 Outputs); outside|done]. }
  assert (HBl3 : f_blocks s3 = f_blocks s).
  { transitivity (f_blocks s2); [apply (C3 Blocks); outside|]. transitivity (f_blocks s1); [apply (C2 Blocks); outside|apply (C1 Blocks); outside]. }
  assert (Hg3 : f_graph s3 !! n = Some (graph_ N)) by (assert (f_graph s3 = f_graph s2) as -> by (apply (C3 OfGraph); outside); done).
  assert (Hi3 : f_inputs s3 !! n = Some []) by (by rewrite HI3, lookup_insert_eq).
  assert (Ho3 : f_outputs s3 !! n = Some []) by (by rewrite HO3, lookup_insert_eq).
  assert (Hb3 : f_blocks s3 !! n = Some []) by (by rewrite HBl3).
  assert (Hw3 : f_owner s3 !! n = Some None) by (by rewrite HW3, lookup_insert_eq).
  exists (drop_node n (graph_ N) s3). split_and!.
  - unfold Node_destroy. step. unfold Node_destroy_with. step. rewrite HNo. rewrite (run_bind _ _ _ _ _ E1).
    assert (Hb1 : f_blocks s1 !! n = Some []) by (assert (f_blocks s1 = f_blocks s) as -> by (apply (C1 Blocks); outside); done).
    apply lookup_fmap_Some in Hb1 as (N1 & HNb1 & HN1).
    assert (HNb : blocks_ N = []) by (apply lookup_fmap_Some in Hb as (N' & ? & ?); congruence). rewrite HNb.
    erewrite run_bind; [|cbn [length while_]; erewrite run_bind by (step; reflexivity); rewrite HNb1; reflexivity].
    rewrite (run_bind _ _ _ _ _ E2). step.
    revert E3. unfold lift, mbind, SE_bind. destruct (inBlockList N2) as [i|]; [|done].
    intros E3. cbn. rewrite HNg2. destruct i.
    + rewrite E3. by eapply freeNode_run.
    + injection E3 as ->. by eapply freeNode_run.
  - by eapply drop_wf.
  - transitivity (delete n (f_inputs s3)); [apply (drop_node_field n (graph_ N) s3 inputs_)|]. by rewrite HI3, delete_insert_eq.
  - transitivity (delete n (f_outputs s3)); [apply (drop_node_field n (graph_ N) s3 outputs_)|]. by rewrite HO3, delete_insert_eq.
  - transitivity (delete n (f_owner s3)); [apply (drop_node_field n (graph_ N) s3 owning_block_)|]. by rewrite HW3, HW2, delete_insert_eq.
  - intros w. change (f_uses (drop_node n (graph_ N) s3)) with (f_uses s3).
    assert (f_uses s3 = f_uses s2) as -> by (apply (C3 Uses); outside).
    assert (HD2 : is_Some (f_uses s2 !! w) ↔ is_Some (f_uses s1 !! w)).
    { assert (HD : f_def s2 = f_def s1) by (apply (C2 Def); outside). unfold f_uses, f_def in *.
      rewrite !lookup_fmap, !fmap_is_Some. rewrite <- (fmap_is_Some (λ V, (node_ V, offset_ V)) (value_heap s2 !! w)),
        <- (fmap_is_Some (λ V, (node_ V, offset_ V)) (value_heap s1 !! w)), <- !lookup_fmap. by rewrite HD. }
    rewrite HD2, HU1. case_decide; [|tauto]. split; [by intros [? ?]|tauto].
  - change (block_heap s3 = block_heap s). transitivity (block_heap s2); [apply (C3 BlockHeap); outside|done].
Qed.
