(* ===== verification/IROps.v ===== *)
(** * Sequences of operations

    From the empty store, every sequence of operations on graphs whose arguments meet
    the preconditions below runs without a failed assertion or a dangling pointer and
    ends in a store that satisfies the invariant.

    A graph with two inputs, three nodes of which the last holds a block, and a name:
    every operation that builds it meets its precondition, so it is well-formed. *)
From stdpp Require Import sorting.
From S2P Require Import Prelude Text JitTypes JitGraph IRSpec IRUses IRLists IROrder IRNames IRBuild IRBlocks IRDestroy.
Local Open Scope string_scope.
Local Open Scope nat_scope.
Local Open Scope list_scope.
#[local] Set Warnings "-clear-no-such-hyp".
Import IR.

Definition well_formed (s : Store) : Prop := ∃ L, wf L s.

(** The empty store. *)
Lemma wf_empty : wf ∅ empty_store.
Proof.
  assert (HV : ∀ v g, value_graph empty_store v g → False) by (intros v g (n & i & H & _); done).
  constructor; try (intros b [? H]; done); constructor; try done; try (intros; exfalso; done).
  - constructor; [done|done|]. intros n i v (l & H & _). done.
  - intros b. split; intros [? H]; done.
  - intros n [? H]. done.
  - intros n [? H]. done.
  - intros n [? H]. done.
  - intros n [? H]. done.
Qed.

(** ** The operations *)
Inductive op : Type :=
  | NewGraph (scope_root : option Attributes.Scope)
  | Create (g : ptr) (kind : Attributes.Symbol) (num_outputs : nat)
  | AddOutput (n : ptr) | InsertOutput (n : ptr) (i : nat) | EraseOutput (n : ptr) (i : nat)
  | AddBlock (n : ptr)
  | AddInput (n v : ptr) | InsertInput (n : ptr) (i : nat) (v : ptr) | ReplaceInput (n : ptr) (i : nat) (v : ptr)
  | ReplaceInputWith (n from to : ptr) | RemoveInput (n : ptr) (i : nat) | RemoveAllInputs (n : ptr)
  | ReplaceAllUsesWith (v w : ptr)
  | SetUniqueName (v : ptr) (name : string)
  | InsertAfter (n m : ptr) | InsertBefore (n m : ptr) | RemoveFromList (n : ptr) | MoveAfter (n m : ptr) | MoveBefore (n m : ptr)
  | Destroy (n : ptr).

Definition run (o : op) : M unit :=
  match o with
  | NewGraph sc => new_Graph sc;; mret tt
  | Create g k num_outputs => create g k num_outputs;; mret tt
  | AddOutput n => addOutput n;; mret tt
  | InsertOutput n i => insertOutput n i;; mret tt
  | EraseOutput n i => eraseOutput n i
  | AddBlock n => addBlock n;; mret tt
  | AddInput n v => addInput n v;; mret tt
  | InsertInput n i v => insertInput n i v;; mret tt
  | ReplaceInput n i v => replaceInput n i v;; mret tt
  | ReplaceInputWith n from to => replaceInputWith n from to
  | RemoveInput n i => removeInput n i
  | RemoveAllInputs n => removeAllInputs n
  | ReplaceAllUsesWith v w => Value_replaceAllUsesWith v w
  | SetUniqueName v x => setUniqueName v x;; mret tt
  | InsertAfter n m => insertAfter n m;; mret tt
  | InsertBefore n m => insertBefore n m;; mret tt
  | RemoveFromList n => removeFromList n
  | MoveAfter n m => moveAfter n m
  | MoveBefore n m => moveBefore n m
  | Destroy n => Node_destroy n
  end.

(** A place in the list of block [b], between [p] and [q]: numbers fit, and the node
    to insert belongs to the graph and does not hold the block. *)
Definition place_for (s : Store) (n b : ptr) (B : Block) (p q : list ptr) : Prop :=
  block_heap s !! b = Some B ∧ f_graph s !! n = Some (block_graph_ B) ∧ (inside s n b → False) ∧
  (Z.of_nat (S (length (p ++ q))) < 2 ^ 24)%Z ∧ gap_fits s p q.
(** The list of block [c] once [n] has left the list of block [b]. *)
Definition list_without (s : Store) (b c : ptr) (p q : list ptr) (k : list ptr) : Prop :=
  (c = b ∧ k = p ++ q) ∨ (c ≠ b ∧ nodes c s = (Ok k, s)).

(** The preconditions. *)
Inductive legal (s : Store) : op → Prop :=
  | legal_graph sc : legal s (NewGraph sc)
  | legal_create g k num_outputs : is_Some (graph_heap s !! g) → legal s (Create g k num_outputs)
  | legal_addOutput n : is_Some (node_heap s !! n) → legal s (AddOutput n)
  | legal_insertOutput n i l : f_outputs s !! n = Some l → i ≤ length l → legal s (InsertOutput n i)
  | legal_eraseOutput n i l v : f_outputs s !! n = Some l → l !! i = Some v → f_uses s !! v = Some [] → legal s (EraseOutput n i)
  | legal_addBlock n : is_Some (node_heap s !! n) → legal s (AddBlock n)
  | legal_addInput n v g : f_graph s !! n = Some g → value_graph s v g → legal s (AddInput n v)
  | legal_insertInput n i v l g : f_inputs s !! n = Some l → i ≤ length l → f_graph s !! n = Some g → value_graph s v g →
      legal s (InsertInput n i v)
  | legal_replaceInput n i v l g : f_inputs s !! n = Some l → i < length l → f_graph s !! n = Some g → value_graph s v g →
      legal s (ReplaceInput n i v)
  | legal_replaceInputWith n from to g : f_graph s !! n = Some g → value_graph s from g → value_graph s to g →
      legal s (ReplaceInputWith n from to)
  | legal_removeInput n i l : f_inputs s !! n = Some l → i < length l → legal s (RemoveInput n i)
  | legal_removeAllInputs n : is_Some (node_heap s !! n) → legal s (RemoveAllInputs n)
  | legal_replaceAllUsesWith v w g : v ≠ w → value_graph s v g → value_graph s w g → legal s (ReplaceAllUsesWith v w)
  | legal_setUniqueName v x g ns : isValidName x = true → value_graph s v g → f_names s !! g = Some ns →
      (is_Some (ns !! x) → ∃ p, split_name x = Ok p) → (Z.of_nat (size ns) < 2 ^ 64)%Z → legal s (SetUniqueName v x)
  | legal_insertAfter n b B p q : nodes b s = (Ok (p ++ q), s) → f_owner s !! n = Some None → place_for s n b B p q →
      legal s (InsertAfter n (prev_in (output_ B) p))
  | legal_insertBefore n b B p q : nodes b s = (Ok (p ++ q), s) → f_owner s !! n = Some None → place_for s n b B p q →
      legal s (InsertBefore n (next_in q (output_ B)))
  | legal_removeFromList n b p q : is_Some (block_heap s !! b) → nodes b s = (Ok (p ++ n :: q), s) → legal s (RemoveFromList n)
  | legal_moveAfter n b p q c D r t : is_Some (block_heap s !! b) → nodes b s = (Ok (p ++ n :: q), s) →
      list_without s b c p q (r ++ t) → place_for s n c D r t → legal s (MoveAfter n (prev_in (output_ D) r))
  | legal_moveBefore n b p q c D r t : is_Some (block_heap s !! b) → nodes b s = (Ok (p ++ n :: q), s) →
      list_without s b c p q (r ++ t) → place_for s n c D r t → legal s (MoveBefore n (next_in t (output_ D)))
  | legal_destroy n os : f_blocks s !! n = Some [] → f_outputs s !! n = Some os → (∀ v, v ∈ os → f_uses s !! v = Some []) →
      f_owner s !! n = Some None ∨ (∃ b p q, is_Some (block_heap s !! b) ∧ nodes b s = (Ok (p ++ n :: q), s)) → legal s (Destroy n).

(** ** Each operation runs *)
Lemma nodes_lists L s b l : wf L s → is_Some (block_heap s !! b) → nodes b s = (Ok l, s) → L !! b = Some l.
Proof.
  intros W [B HB] E. destruct (lists_dom _ _ (w_lists _ _ W) b) as [_ Hd]. destruct (Hd ltac:(eauto)) as [k Hk].
  rewrite (nodes_Ok L s b B k (w_lists _ _ W) HB Hk) in E. injection E as ->. done.
Qed.

(** A new node of a graph: [n] is in no list, has no inputs and attributes; the other
    nodes keep their inputs and outputs and the values their graph. *)
Record made (L : gmap ptr (list ptr)) (s : Store) (g : ptr) (k : Attributes.Symbol) (n : ptr) (os : list ptr) (s' : Store) : Prop := {
  made_wf : wf L s';
  made_kind : f_kind s' !! n = Some k;
  made_graph : f_graph s' !! n = Some g;
  made_owner : f_owner s' !! n = Some None;
  made_inputs : f_inputs s' = <[n := []]> (f_inputs s);
  made_outputs : f_outputs s' = <[n := os]> (f_outputs s);
  made_blocks : f_blocks s' !! n = Some [];
  made_attrs : f_attrs s' = <[n := []]> (f_attrs s);
  made_kept v h : value_graph s v h → value_graph s' v h;
  made_names v : is_Some (f_name s !! v) → f_name s' !! v = f_name s !! v;
  made_types v : is_Some (f_type s !! v) → f_type s' !! v = f_type s !! v
}.

Lemma node_made L s g k sc : wf L s → is_Some (graph_heap s !! g) → made L s g k (next_ptr s) [] (node_store g k sc s).
Proof.
  intros W Hg. pose proof (free_node _ _ W) as Hf.
  assert (Hfld : ∀ {A} (f : Node → A), f <$> node_heap (node_store g k sc s) = <[next_ptr s := f (blank_node g k sc)]> (f <$> node_heap s)).
  { intros A f. rewrite node_store_heap. apply fmap_insert. }
  constructor; try done; try apply Hfld; try (unfold f_kind, f_graph, f_owner, f_blocks; rewrite Hfld; by rewrite lookup_insert_eq).
  - by apply node_store_wf.
  - intros v h Hv. by apply new_node_value_graph; [|apply W|].
Qed.

Lemma added_kept n i l g u s s' : output_added n i l g u s s' → value_heap s !! next_ptr s = None →
  ∀ v h, f_graph s' = f_graph s → value_graph s v h → value_graph s' v h.
Proof.
  intros HA Hf v h HG (m & j & Hd & Hm). assert (v ≠ next_ptr s).
  { intros ->. apply f_def_Some in Hd as (V & HV & _). congruence. }
  unfold value_graph. rewrite HG, (added_def _ _ _ _ _ _ _ HA), decide_False, Hd by done. cbn. unfold move_def. cbn. case_decide; eauto.
Qed.

(** One more output. *)
Lemma made_output L s g k n os t :
  made L s g k n os t → n < next_ptr t →
  ∃ t', addOutput n t = (Ok (next_ptr t), t') ∧ made L s g k n (os ++ [next_ptr t]) t' ∧ next_ptr t' = S (next_ptr t) ∧
    output_added n (length os) os g (default 0 (f_next_unique t !! g)) t t'.
Proof.
  intros [M1 M2 M3 M4 M5 M6 M7 M8 M9 M10 M11] Hlt. pose proof (free_value _ _ M1) as Hf.
  assert (Ho : f_outputs t !! n = Some os) by (by rewrite M6, lookup_insert_eq).
  destruct (addOutput_run n os g t) as (t' & u & E & Hu & HA); [apply M1|done|done|done|by eapply node_graph_live|].
  pose proof (added_changes _ _ _ _ _ _ _ HA) as C.
  assert (HG : f_graph t' = f_graph t) by (apply (C OfGraph); outside).
  exists t'. split_and!; [done| |apply (added_fresh _ _ _ _ _ _ _ HA)|by rewrite Hu]. constructor; rewrite ?HG; try done.
  - by eapply (added_wf L n (length os) os g u t).
  - assert (f_kind t' = f_kind t) as -> by (apply (C Kind); outside). done.
  - assert (f_owner t' = f_owner t) as -> by (apply (C Owner); outside). done.
  - assert (f_inputs t' = f_inputs t) as -> by (apply (C Inputs); outside). done.
  - rewrite (added_outputs _ _ _ _ _ _ _ HA), M6, take_ge, drop_ge by done. by rewrite insert_insert_eq.
  - assert (f_blocks t' = f_blocks t) as -> by (apply (C Blocks); outside). done.
  - assert (f_attrs t' = f_attrs t) as -> by (apply (C NodeAttrs); outside). done.
  - intros v h Hv. eapply added_kept; [done|done|done|by apply M9].
  - intros v Hv. rewrite <- M10 by done. rewrite (added_name _ _ _ _ _ _ _ HA), lookup_insert_ne; [done|]. intros <-.
    rewrite <- M10 in Hv by done. unfold f_name in Hv. rewrite lookup_fmap, Hf in Hv. by destruct Hv.
  - intros v Hv. rewrite <- M11 by done. eapply added_types; [done|]. by rewrite M11.
Qed.

Lemma create_made L s g k num_outputs :
  wf L s → is_Some (graph_heap s !! g) →
  ∃ s' os, create g k num_outputs s = (Ok (next_ptr s), s') ∧ made L s g k (next_ptr s) os s' ∧ length os = num_outputs.
Proof.
  intros W Hg. destruct (new_Node_Ok L s g k W Hg) as (sc & E & _). set (n := next_ptr s) in *.
  destruct (foreach_seq (λ i t, n < next_ptr t ∧ ∃ os, made L s g k n os t ∧ length os = i)
    (λ _, addOutput n;; mret tt) 0 num_outputs (node_store g k sc s)) as (s' & E' & _ & os & Hos & Hlen).
  - split; [cbn; lia|]. exists []. split; [by apply node_made|done].
  - intros i t _ (Hlt & os & Hos & Hlen). destruct (made_output L s g k n os t Hos Hlt) as (t' & Et & HM & Hn & _).
    exists t'. split; [by rewrite (run_bind _ _ _ _ _ Et)|]. split; [rewrite Hn; lia|]. exists (os ++ [next_ptr t]).
    split; [done|]. rewrite length_app. cbn. lia.
  - exists s', os. unfold create. rewrite (run_bind _ _ _ _ _ E), (run_bind _ _ _ _ _ E'). split_and!; [done|done|lia].
Qed.

Lemma names_live L s v g ns : wf L s → value_graph s v g → f_names s !! g = Some ns → ∃ old, f_name s !! v = Some old.
Proof.
  intros W (n & i & Hd & _) _. apply f_def_Some in Hd as (V & HV & _). exists (unique_name_ V). apply f_name_Some. eauto.
Qed.
Lemma setUniqueName_wf L s v x g ns :
  wf L s → isValidName x = true → value_graph s v g → f_names s !! g = Some ns →
  (is_Some (ns !! x) → ∃ p, split_name x = Ok p) → (Z.of_nat (size ns) < 2 ^ 64)%Z →
  ∃ s', setUniqueName v x s = (Ok v, s') ∧ wf L s' ∧ changes [Name; Names] s s' ∧ f_name s' !! v = Some x.
Proof.
  intros W Hx Hg Hns Hsplit Hsz. destruct (names_live L s v g ns W Hg Hns) as [old Hold].
  destruct (delete old ns !! x) as [w|] eqn:Hw.
  - destruct Hsplit as [[base suffix] Hsplit]; [apply lookup_delete_Some in Hw as [_ Hw]; eauto|].
    destruct (setUniqueName_taken s v g ns old x w base suffix (w_names _ _ W)) as (k & s' & E & C & WN & _ & _ & HN); [done..|].
    exists s'. split_and!; [done| |done|by rewrite HN, lookup_insert_eq]. frame_wf C W. done.
  - destruct (setUniqueName_free 1 s v g ns old x (w_names _ _ W)) as (s' & E & C & WN & HN & _); [done..|].
    exists s'. split_and!; [exact E| |done|by rewrite HN, lookup_insert_eq]. frame_wf C W. done.
Qed.

Lemma live_fields s n :
  is_Some (node_heap s !! n) → ∃ l o b g c, f_inputs s !! n = Some l ∧ f_outputs s !! n = Some o ∧ f_blocks s !! n = Some b ∧
    f_graph s !! n = Some g ∧ f_owner s !! n = Some c.
Proof.
  intros [N HN]. exists (inputs_ N), (outputs_ N), (blocks_ N), (graph_ N), (owning_block_ N).
  unfold f_inputs, f_outputs, f_blocks, f_graph, f_owner. by rewrite !lookup_fmap, HN.
Qed.
Lemma graph_inputs s n g : f_graph s !! n = Some g → ∃ l, f_inputs s !! n = Some l.
Proof. intros (N & HN & _)%f_graph_Some. exists (inputs_ N). apply f_inputs_Some. eauto. Qed.
Lemma outputs_graph s n l : f_outputs s !! n = Some l → ∃ g, f_graph s !! n = Some g.
Proof. intros (N & HN & _)%f_outputs_Some. exists (graph_ N). apply f_graph_Some. eauto. Qed.
Lemma place_bound (p q : list ptr) : (Z.of_nat (S (length (p ++ q))) < 2 ^ 24)%Z → S (length (p ++ q)) ≤ max_nodes.
Proof. pose proof max_nodes_Z. lia. Qed.
Lemma run_unit {A} (m : M A) s a s' : m s = (Ok a, s') → (m;; mret tt) s = (Ok tt, s').
Proof. intros E. by rewrite (run_bind _ _ _ _ _ E). Qed.

(** The lists around a node that moves. *)
Lemma move_lists L s n b p q c D r t :
  wf L s → is_Some (block_heap s !! b) → nodes b s = (Ok (p ++ n :: q), s) → list_without s b c p q (r ++ t) → place_for s n c D r t →
  ∃ B, block_heap s !! b = Some B ∧ L !! b = Some (p ++ n :: q) ∧ <[b := p ++ q]> L !! c = Some (r ++ t) ∧ block_graph_ D = block_graph_ B.
Proof.
  intros W Hb Hn Hlw (HD & Hg & _). pose proof (nodes_lists _ _ _ _ W Hb Hn) as Hl. destruct Hb as [B HB]. exists B. split_and!; [done|done| |].
  - destruct Hlw as [[-> ->]|[Hc Hk]]; [apply lookup_insert_eq|]. rewrite lookup_insert_ne by done. eapply nodes_lists; [done| |done]. eauto.
  - assert (f_owner s !! n = Some (Some b)) as Ho.
    { apply (members _ _ (w_lists _ _ W) b B _ n HB Hl). do 2 right. apply elem_of_app. right. by left. }
    pose proof (member_graph _ (w_graphs _ _ W) _ _ _ Ho HB) as Hg'. congruence.
Qed.

Lemma run_safe s o : well_formed s → legal s o → ∃ s', run o s = (Ok tt, s') ∧ well_formed s'.
Proof.
  intros [L W] Hlegal.
  destruct Hlegal as [sc|g k num Hg|n Hn|n i l Hl Hi|n i l v Hl Hi Hu|n Hn|n v g Hg Hv|n i v l g Hl Hi Hg Hv|n i v l g Hl Hi Hg Hv|
    n from to g Hg Hf Ht|n i l Hl Hi|n Hn|v w g Hvw Hv Hw|v x g ns Hx Hv Hns Hsp Hsz|n b B p q Hnd Ho Hp|n b B p q Hnd Ho Hp|
    n b p q Hb Hnd|n b p q c D r t Hb Hnd Hlw Hp|n b p q c D r t Hb Hnd Hlw Hp|n os Hb Ho Hu Hlist]; cbn [run].
  - destruct (new_Graph_Ok sc L s W) as (s' & b & B & E & W' & _). exists s'. split; [by eapply run_unit|by eexists].
  - destruct (create_made L s g k num W Hg) as (s' & os & E & HM & _). exists s'. split; [by eapply run_unit|]. eexists. by eapply made_wf.
  - destruct (live_fields s n Hn) as (_ & os & _ & g & _ & _ & Ho & _ & Hg & _).
    destruct (addOutput_run n os g s) as (s' & u & E & Hu & HA); [apply W|by eapply free_value|done|done|by eapply node_graph_live|].
    exists s'. split; [by eapply run_unit|]. exists L. by eapply (added_wf L n (length os) os g u s).
  - destruct (outputs_graph _ _ _ Hl) as [g Hg].
    destruct (insertOutput_run n i l g s) as (s' & u & E & Hu & HA); [apply W|by eapply free_value|done|done|by eapply node_graph_live|done|].
    exists s'. split; [by eapply run_unit|]. exists L. by eapply (added_wf L n i l g u s).
  - destruct (outputs_graph _ _ _ Hl) as [g Hg]. destruct (eraseOutput_wf L s n i l v g) as (s' & ns & E & _ & W'); [done..|].
    exists s'. split; [done|by eexists].
  - destruct (live_fields s n Hn) as (_ & _ & bs & g & _ & _ & _ & Hb & Hg & _).
    destruct (addBlock_Ok L s n bs g W Hb Hg) as (s' & b & B & E & W' & _). exists s'. split; [by eapply run_unit|by eexists].
  - destruct (graph_inputs _ _ _ Hg) as [l Hl]. destruct (addInput_wf L s W n l g Hl Hg v Hv) as (s' & E & _ & _ & W').
    exists s'. split; [by eapply run_unit|by eexists].
  - destruct (insertInput_wf L s W n l g Hl Hg i v Hi Hv) as (s' & E & _ & _ & W'). exists s'. split; [by eapply run_unit|by eexists].
  - destruct (full_edge s n l i Hl (no_null _ (w_uses _ _ W) _ _ Hl) Hi) as [old (l' & Hl' & Hold)]. assert (l' = l) as -> by congruence.
    destruct (replaceInput_wf L s W n l g Hl Hg i old v Hold Hv) as (s' & E & _ & _ & W'). exists s'. split; [by eapply run_unit|by eexists].
  - destruct (graph_inputs _ _ _ Hg) as [l Hl]. destruct (replaceInputWith_wf L s W n l g Hl Hg from to Hf Ht) as (s' & E & _ & _ & W').
    exists s'. split; [done|by eexists].
  - destruct (removeInput_wf L s W n l Hl i Hi) as (s' & E & _ & _ & W'). exists s'. split; [done|by eexists].
  - destruct (live_fields s n Hn) as (l & _ & _ & _ & _ & Hl & _). destruct (removeAllInputs_wf L s W n l Hl) as (s' & E & _ & _ & W').
    exists s'. split; [done|by eexists].
  - destruct (value_graph_uses _ _ _ Hv) as [vs Hvs]. destruct (value_graph_uses _ _ _ Hw) as [ws Hws].
    destruct (replaceAllUsesWith_wf L s v w g vs ws W Hvw Hvs Hws Hv Hw) as (s' & E & _ & _ & _ & W'). exists s'. split; [done|by eexists].
  - destruct (setUniqueName_wf L s v x g ns) as (s' & E & W' & _); [done..|]. exists s'. split; [by eapply run_unit|by eexists].
  - destruct Hp as (HB & Hg & Hin & Hlen & Hgap). pose proof (nodes_lists _ _ _ _ W ltac:(eauto) Hnd) as Hl.
    destruct (insertAfter_wf L s W n b B p q) as (s' & E & _ & _ & W'); try done; [by apply place_bound|].
    exists s'. split; [by eapply run_unit|by eexists].
  - destruct Hp as (HB & Hg & Hin & Hlen & Hgap). pose proof (nodes_lists _ _ _ _ W ltac:(eauto) Hnd) as Hl.
    destruct (insertBefore_wf L s W n b B p q) as (s' & E & _ & _ & W'); try done; [by apply place_bound|].
    exists s'. split; [by eapply run_unit|by eexists].
  - pose proof (nodes_lists _ _ _ _ W Hb Hnd) as Hl. destruct Hb as [B HB].
    destruct (removeFromList_wf L s W n b B p q HB Hl) as (s' & E & _ & _ & W'). exists s'. split; [done|by eexists].
  - destruct (move_lists _ _ _ _ _ _ _ _ _ _ W Hb Hnd Hlw Hp) as (B & HB & Hl & Hr & HgD). destruct Hp as (HD & Hg & Hin & Hlen & Hgap).
    destruct (moveAfter_wf L s W n b c B D p q r t) as (s' & E & _ & _ & W'); try done; [by apply place_bound|].
    exists s'. split; [done|by eexists].
  - destruct (move_lists _ _ _ _ _ _ _ _ _ _ W Hb Hnd Hlw Hp) as (B & HB & Hl & Hr & HgD). destruct Hp as (HD & Hg & Hin & Hlen & Hgap).
    destruct (moveBefore_wf L s W n b c B D p q r t) as (s' & E & _ & _ & W'); try done; [by apply place_bound|].
    exists s'. split; [done|by eexists].
  - assert (∃ L', unlisted L s n L') as [L' HL'].
    { destruct Hlist as [Hl|(b & p & q & Hbk & Hnd)]; [exists L; by left|]. pose proof (nodes_lists _ _ _ _ W Hbk Hnd) as Hl.
      destruct Hbk as [B HB]. exists (<[b := p ++ q]> L). right. by exists b, B, p, q. }
    destruct (Node_destroy_leaf L s n os L') as (s' & E & W' & _); [done..|]. exists s'. split; [done|by eexists].
Qed.

(** ** Sequences *)
Inductive legal_run : Store → list op → Prop :=
  | legal_nil s : legal_run s []
  | legal_cons s o os : legal s o → (∀ s', run o s = (Ok tt, s') → legal_run s' os) → legal_run s (o :: os).

Lemma sequence_safe os s : well_formed s → legal_run s os → ∃ s', foreach os run s = (Ok tt, s') ∧ well_formed s'.
Proof.
  intros W H. induction H as [s|s o os Ho Hos IH]; [by exists s|]. destruct (run_safe s o W Ho) as (s1 & E1 & W1).
  destruct (IH s1 E1 W1) as (s2 & E2 & W2). exists s2. split; [|done]. cbn [foreach]. by rewrite (run_bind _ _ _ _ _ E1).
Qed.

(** ** A graph to try the theorems on *)

Lemma inside_step s n b : inside s n b →
  ∃ B m, block_heap s !! b = Some B ∧ owning_node_ B = Some m ∧ (m = n ∨ ∃ c, f_owner s !! m = Some (Some c) ∧ inside s n c).
Proof. intros []; eauto 10. Qed.

(** Settles that a block is not inside a node, on a concrete store. *)
Ltac not_inside :=
  let H := fresh in intros H;
  repeat (apply inside_step in H as (? & ? & ?H1 & ?H2 & [?H3|(? & ?H3 & H)]);
    vm_compute in H1; injection H1 as <-; vm_compute in H2; try discriminate H2; injection H2 as <-;
    first [discriminate H3 | vm_compute in H3; first [discriminate H3 | injection H3 as <-]]).
(** Settles preconditions that compute. *)
Ltac by_computing := first [eexists; vm_compute; reflexivity | vm_compute; reflexivity | vm_compute; lia].
Ltac in_graph := eexists _, _; split; vm_compute; reflexivity.

Module Sample.
Definition B0 : Block := mkBlock 0 1 2 None.
Definition B1 : Block := mkBlock 0 12 13 (Some 10).

Definition ops : list op :=
  [NewGraph (Some Attributes.Scope_blank); AddOutput 2; AddOutput 2;
   Create 0 (Attributes.aten "add") 1; AddInput 6 4; AddInput 6 5; InsertBefore 6 1;
   Create 0 (Attributes.aten "mul") 1; AddInput 8 7; AddInput 8 7; InsertBefore 8 1;
   Create 0 (Attributes.prim "If") 1; AddInput 10 9; InsertBefore 10 1; AddBlock 10;
   Create 0 (Attributes.aten "neg") 1; AddInput 15 4; InsertBefore 15 12; AddInput 12 16;
   AddInput 1 11; SetUniqueName 7 "r"].
Definition store : Store := (foreach ops run empty_store).2.

Ltac next := let E := fresh in intros ? E; vm_compute in E; injection E as <-.
Ltac append n b B l := refine (legal_insertBefore _ n b B l [] _ _ _);
  [vm_compute; reflexivity|vm_compute; reflexivity|split_and!; [vm_compute; reflexivity|vm_compute; reflexivity|not_inside|done|intros ? ? ? ? _ [=]]].

Lemma legal : legal_run empty_store ops.
Proof.
  unfold ops. do 4 (apply legal_cons; [constructor; by_computing|next]).
  do 2 (apply legal_cons; [eapply legal_addInput; [by_computing|in_graph]|next]).
  apply legal_cons; [append 6 3 B0 (@nil ptr)|next].
  apply legal_cons; [constructor; by_computing|next].
  do 2 (apply legal_cons; [eapply legal_addInput; [by_computing|in_graph]|next]).
  apply legal_cons; [append 8 3 B0 [6]|next].
  apply legal_cons; [constructor; by_computing|next].
  apply legal_cons; [eapply legal_addInput; [by_computing|in_graph]|next].
  apply legal_cons; [append 10 3 B0 [6; 8]|next].
  do 2 (apply legal_cons; [constructor; by_computing|next]).
  apply legal_cons; [eapply legal_addInput; [by_computing|in_graph]|next].
  apply legal_cons; [append 15 14 B1 (@nil ptr)|next].
  do 2 (apply legal_cons; [eapply legal_addInput; [by_computing|in_graph]|next]).
  apply legal_cons; [eapply legal_setUniqueName; [reflexivity|in_graph|by_computing|by intros [? [=]]|by_computing]|next].
  constructor.
Qed.

Lemma wf : well_formed store.
Proof.
  destruct (sequence_safe ops empty_store) as (s' & E & W); [exists ∅; apply wf_empty|apply legal|].
  unfold store. by rewrite E.
Qed.
End Sample.
