(* ===== verification/JitGraphOps.v ===== *)
(** * Making, copying and checking graphs (torch/csrc/jit/ir.cpp)

    Module [Make] has the functions of Graph that make a node of a kind with its
    inputs and types, Module [Clone] copies nodes, blocks and graphs and inlines a
    call, and Module [Lint] is the check the code runs on its own graphs. *)
From S2P Require Import Prelude Text JitTypes JitGraph.
Local Open Scope string_scope.
Local Open Scope nat_scope.
Local Open Scope list_scope.
#[local] Set Warnings "-register-all".
Import Attributes.
Import IR.

(** A loop that carries a value along. *)
Fixpoint foldM {A B} (f : B → A → M B) (b : B) (l : list A) : M B :=
  match l with [] => mret b | x :: l => b' ← f b x; foldM f b' l end.

(** ** Nodes of a kind *)
Module Make.
Import JitTypes.

(** [v->type()]. *)
Definition type (v : ptr) : M Ty := V ← deref_value v; mret (type_ V).
(** [n->output()->setType(t)]. *)
Definition setOutputType (n : ptr) (t : Ty) : M unit := o ← output n; setType o t;; mret tt.
(** [n->i_(name, v)] and its siblings. *)
Definition set_attribute (n : ptr) (name : Symbol) (v : AttributeValue) : M unit :=
  N ← deref_node n; a ← lift (setAttr name v (values_ N)); update_node n (set_values a).

(** [create(kind, inputs, num_outputs)]. *)
Definition create_with (g : ptr) (kind : Symbol) (inputs : list ptr) (num_outputs : nat) : M ptr :=
  n ← create g kind num_outputs;
  foreach inputs (λ i, addInput n i;; mret tt);;
  mret n.

Definition createAutogradZero (g : ptr) : M ptr := create g (prim "AutogradZero") 1.
Definition createNone (g : ptr) (typ : Ty) : M ptr :=
  n ← create g (prim "Constant") 1;
  setOutputType n (OptionalType_create typ);;
  mret n.
Definition createFusionGroup (g : ptr) : M ptr :=
  n ← create g (prim "FusionGroup") 0;
  G ← deref_graph g;
  sub ← new_Graph (current_scope_ G);
  set_attribute n (attr "Subgraph") (GraphAttr sub);;
  mret n.

Definition createTuple (g : ptr) (values : list ptr) (field_names : option (list string)) : M ptr :=
  types ← mapM type values;
  n ← create_with g (prim "TupleConstruct") values 1;
  setOutputType n (TupleType types field_names);;
  mret n.

(** [type->expect<TupleType>()] and the like, with what is inside. *)
Definition expect_tuple (t : Ty) : outcome (list Ty) :=
  match t with TupleType elements_ _ => Ok elements_ | _ => AT_ERROR "assertion failed" end.
Definition expect_list (t : Ty) : outcome Ty := match t with ListType e => Ok e | _ => AT_ERROR "assertion failed" end.
Definition expect_dict (t : Ty) : outcome (Ty * Ty) :=
  match t with DictType k v => Ok (k, v) | _ => AT_ERROR "assertion failed" end.
(** [elements().at(i)] for an [int64_t] converted to [size_t]. *)
Definition element (elements : list Ty) (i : Z) : outcome Ty :=
  if (wrapU 64 i <? Z.of_nat (length elements))%Z
  then match elements !! Z.to_nat (wrapU 64 i) with Some t => Ok t | None => Throw (Undefined "no element") end
  else AT_ERROR "ArrayRef: invalid index".

Definition createTupleUnpack (g v : ptr) : M ptr :=
  t ← type v;
  elements ← lift (expect_tuple t);
  n ← create_with g (prim "TupleUnpack") [v] 0;
  foreach elements (λ element, o ← addOutput n; setType o element;; mret tt);;
  mret n.
Definition createTupleIndex (g tup : ptr) (index : Z) : M ptr :=
  n ← create_with g (prim "TupleIndex") [tup] 1;
  set_attribute n (attr "index") (IntAttr index);;
  t ← type tup;
  elements ← lift (expect_tuple t);
  e ← lift (element elements index);
  setOutputType n e;;
  mret n.
(** [for (auto i = beg; i < end; ++i)]. *)
Fixpoint slice_types (fuel : nat) (elements : list Ty) (i end_ : Z) : outcome (list Ty) :=
  match fuel with
  | O => Ok []
  | S fuel =>
      if (i <? end_)%Z then t ← element elements i; ts ← slice_types fuel elements (i + 1)%Z end_; Ok (t :: ts) else Ok []
  end.
Definition createTupleSlice (g tup : ptr) (beg end_ : Z) : M ptr :=
  n ← create_with g (prim "TupleSlice") [tup] 1;
  t ← type tup;
  elements ← lift (expect_tuple t);
  set_attribute n (attr "beg") (IntAttr beg);;
  set_attribute n (attr "end") (IntAttr end_);;
  output_types ← lift (slice_types (S (length elements)) elements beg end_);
  setOutputType n (TupleType output_types None);;
  mret n.

Definition createList (g : ptr) (elem_type : Ty) (values : list ptr) : M ptr :=
  n ← create_with g (prim "ListConstruct") values 1;
  foreach values (λ v, t ← type v; AT_ASSERT (isSubtypeOf t elem_type));;
  setOutputType n (ListType elem_type);;
  mret n.
Definition createListUnpack (g v : ptr) (size : nat) : M ptr :=
  t ← type v;
  elem_type ← lift (expect_list t);
  n ← create_with g (prim "ListUnpack") [v] 0;
  foreach (seq 0 size) (λ _, o ← addOutput n; setType o elem_type;; mret tt);;
  mret n.

Definition createDict (g : ptr) (key_type value_type : Ty) (keys values : list ptr) : M ptr :=
  AT_ASSERT (length keys =? length values);;
  n ← create g (prim "DictConstruct") 1;
  foreach (zip keys values) (λ kv,
    k ← type kv.1;
    AT_ASSERT (isSubtypeOf k key_type);;
    v ← type kv.2;
    AT_ASSERT (isSubtypeOf v value_type);;
    addInput n kv.1;;
    addInput n kv.2;;
    mret tt);;
  t ← lift (DictType_create key_type value_type);
  setOutputType n t;;
  mret n.
Definition createDictIndex (g dict index : ptr) : M ptr :=
  d ← type dict;
  kv ← lift (expect_dict d);
  i ← type index;
  AT_ASSERT (isSubtypeOf i kv.1);;
  n ← create_with g (prim "DictIndex") [dict; index] 1;
  setOutputType n kv.2;;
  mret n.

Definition createNumToTensor (g value : ptr) : M ptr :=
  typ ← type value;
  result ← create_with g (prim "NumToTensor") [value] 1;
  o ← output result;
  t ← lift (fromNumberType typ);
  setType o t;;
  mret result.
Definition createImplicitTensorToNum (g : ptr) (type : Ty) (value : ptr) : M ptr :=
  result ← create_with g (prim "ImplicitTensorToNum") [value] 1; setOutputType result type;; mret result.
Definition createObject (g : ptr) (type : Ty) : M ptr :=
  result ← create g (prim "CreateObject") 1; setOutputType result type;; mret result.
Definition createSetAttr (g obj : ptr) (field : string) (newValue : ptr) : M ptr :=
  n ← create_with g (prim "SetAttr") [obj; newValue] 0; set_attribute n (attr "name") (StringAttr field);; mret n.
(** [setType] asserts that the type is not null. *)
Definition createGetAttr (g obj : ptr) (field : string) : M ptr :=
  t ← type obj;
  match t with
  | ClassType _ names types =>
      n ← create_with g (prim "GetAttr") [obj] 1;
      set_attribute n (attr "name") (StringAttr field);;
      outputType ← lift (getAttribute names types field);
      o ← output n;
      match outputType with
      | Some t => setType o t;; mret n
      | None => AT_ERROR "assertion failed"
      end
  | _ => AT_ERROR "assertion failed"
  end.
Definition insertGetAttr (g obj : ptr) (field : string) : M ptr :=
  n ← createGetAttr g obj field; m ← insertNode g n; output m.

(** The free function of the same name: the values of a tuple just built, or of a new
    unpacking node. *)
Definition tuple_values (v : ptr) : M (list (option ptr)) :=
  V ← deref_value v;
  N ← deref_node (node_ V);
  if decide (kind_ N = prim "TupleConstruct") then mret (inputs_ N)
  else
    n ← createTupleUnpack (graph_ N) v;
    m ← insertNode (graph_ N) n;
    K ← deref_node m;
    mret (Some <$> outputs_ K).

(** *** Questions about nodes *)
Definition mustBeNone (n : ptr) : M bool :=
  N ← deref_node n;
  if decide (kind_ N = prim "AutogradZero") then mret true
  else if decide (kind_ N = prim "Constant") then
    if hasAttributes (values_ N) then mret false
    else
      o ← output n; t ← type o;
      mret (match t with OptionalType _ | NoneType => true | _ => false end)
  else mret false.
Definition Value_mustBeNone (v : ptr) : M bool := V ← deref_value v; mustBeNone (node_ V).
Definition mustNotBeNone (v : ptr) : M bool :=
  V ← deref_value v;
  N ← deref_node (node_ V);
  mret (bool_decide (kind_ N ≠ prim "AutogradAdd") && match type_ V with NoneType | OptionalType _ => false | _ => true end).
Definition hasSideEffects (kind : Symbol) : bool :=
  if decide (kind ∈ [prim "PythonOp"; prim "IgnoredPythonOp"; prim "Print"; prim "RaiseException"; prim "SetAttr"; aten "warn";
                     aten "manual_seed"; prim "AddStatValue"; prim "TimePoint"])
  then true
  else negb (is_aten kind || is_prim kind || is_onnx kind).
End Make.

(** ** Copies *)
Module Clone.

(** The map of the values made so far, in front of another one. *)
Definition env (local_map : gmap ptr ptr) (value_map : ptr → outcome ptr) (v : ptr) : outcome ptr :=
  match local_map !! v with Some w => Ok w | None => value_map v end.

(** [copyAttributes]: a graph that is an attribute is copied, other values are. *)
Definition clone_value (copy : ptr → M ptr) (v : AttributeValue) : M AttributeValue :=
  match v with
  | GraphAttr value_ => g ← copy value_; mret (GraphAttr g)
  | GraphsAttr value_ => gs ← mapM copy value_; mret (GraphsAttr gs)
  | _ => mret v
  end.
Definition copyAttributes (copy : ptr → M ptr) (this rhs : ptr) : M unit :=
  update_node this (set_values []);;
  R ← deref_node rhs;
  foreach (values_ R) (λ i,
    v ← clone_value copy i.2;
    update_node this (λ N, set_values (values_ N ++ [(i.1, v)]) N)).
Definition Node_cloneFrom (copy : ptr → M ptr) (this s : ptr) : M unit :=
  S ← deref_node s;
  update_node this (set_source_location (source_location_ S));;
  (match scope_ S with
   | Some sc => if Scope_isBlank sc then mret tt else update_node this (set_scope (Some sc))
   | None => mret tt
   end);;
  copyAttributes copy this s.

(** [Graph::createClone] for a way to clone a block and to copy a graph; the class of
    the node is [Node]. *)
Definition createClone_with (clone : ptr → ptr → (ptr → outcome ptr) → M unit) (copy : ptr → M ptr)
    (graph n : ptr) (value_map : ptr → outcome ptr) (copy_blocks : bool) : M ptr :=
  N ← deref_node n;
  r ← new_Node graph (kind_ N);
  foreach (outputs_ N) (λ o, v ← addOutput r; copyMetadata v o;; mret tt);;
  Node_cloneFrom copy r n;;
  foreach (inputs_ N) (λ i, v ← non_null i; w ← lift (value_map v); addInput r w;; mret tt);;
  (if copy_blocks
   then foreach (blocks_ N) (λ b, c ← addBlock r; clone c b value_map)
   else mret tt);;
  mret r.

(** The outputs of a node and of its copy, pairwise: they go to the map, and the second
    time the metadata is copied. *)
Definition map_outputs (node new_node : ptr) (local_map : gmap ptr ptr) : M (gmap ptr ptr) :=
  N ← deref_node node;
  foldM (λ local_map i,
    N ← deref_node node;
    K ← deref_node new_node;
    oo ← lift (index (outputs_ N) i);
    no ← lift (index (outputs_ K) i);
    copyMetadata no oo;;
    mret (<[oo := no]> local_map)) local_map (seq 0 (length (outputs_ N))).

Section nodes.
Context (createClone : ptr → ptr → (ptr → outcome ptr) → bool → M ptr).
(** The loop over [src->nodes()]. *)
Fixpoint clone_nodes (fuel : nat) (this graph head cur : ptr) (value_map : ptr → outcome ptr) (local_map : gmap ptr ptr) :
    M (gmap ptr ptr) :=
  match fuel with
  | O => out_of_fuel
  | S fuel =>
      if cur =? head then mret local_map
      else
        new_node ← createClone graph cur (env local_map value_map) true;
        appendNode this new_node;;
        local_map ← map_outputs cur new_node local_map;
        N ← deref_node cur;
        next ← non_null (next_ N);
        clone_nodes fuel this graph head next value_map local_map
  end.
End nodes.

(** [Block::cloneFrom] for a way to clone nodes. *)
Definition cloneFrom_with (createClone : ptr → ptr → (ptr → outcome ptr) → bool → M ptr)
    (this src : ptr) (value_map : ptr → outcome ptr) : M unit :=
  B ← deref_block this;
  let graph := block_graph_ B in
  ins ← inputs src;
  local_map ← foldM (λ local_map input,
    v ← Block_addInput this "";
    copyMetadata v input;;
    mret (<[input := v]> local_map)) ∅ ins;
  C ← deref_block src;
  O ← deref_node (output_ C);
  begin ← non_null (next_ O);
  s ← get;
  local_map ← clone_nodes createClone (list_fuel s) this graph (output_ C) begin value_map local_map;
  outs ← outputs src;
  foreach outs (λ output, v ← non_null output; w ← lift (env local_map value_map v); registerOutput this w;; mret tt).

(** [Graph::copy] for a way to clone a block. *)
Definition copy_with (cloneFrom : ptr → ptr → (ptr → outcome ptr) → M unit) (this : ptr) : M ptr :=
  new_g ← new_Graph (Some Scope_blank);
  N ← deref_graph new_g;
  T ← deref_graph this;
  cloneFrom (block_ N) (block_ T)
    (λ _, AT_ERROR "Graph::copy() encountered a use of a value not in scope. Run lint!");;
  mret new_g.

(** Blocks, nodes and graphs are cloned by each other; [fuel] bounds the nesting. *)
Fixpoint cloneFrom (fuel : nat) (this src : ptr) (value_map : ptr → outcome ptr) : M unit :=
  match fuel with
  | O => out_of_fuel
  | S fuel => cloneFrom_with (createClone_with (cloneFrom fuel) (copy_with (cloneFrom fuel))) this src value_map
  end.
(** A nesting of blocks and of graphs that are attributes, each at most once. *)
Definition clone_fuel (s : Store) : nat := S (size (block_heap s)).
Definition Block_cloneFrom (this src : ptr) (value_map : ptr → outcome ptr) : M unit :=
  s ← get; cloneFrom (clone_fuel s) this src value_map.
Definition Graph_copy (this : ptr) : M ptr := s ← get; copy_with (cloneFrom (clone_fuel s)) this.
Definition createClone (graph n : ptr) (value_map : ptr → outcome ptr) (copy_blocks : bool) : M ptr :=
  s ← get; createClone_with (cloneFrom (clone_fuel s)) (copy_with (cloneFrom (clone_fuel s))) graph n value_map copy_blocks.

(** *** A call becomes the body of the callee *)

(** [value_map.at(v)]. *)
Definition value_at (value_map : gmap ptr ptr) (v : ptr) : outcome ptr :=
  match value_map !! v with Some w => Ok w | None => Throw (StdOutOfRange "unordered_map::at") end.
(** The loop over the nodes of the callee. *)
Fixpoint inline_nodes (fuel : nat) (g head cur : ptr) (value_map : gmap ptr ptr) : M (gmap ptr ptr) :=
  match fuel with
  | O => out_of_fuel
  | S fuel =>
      if cur =? head then mret value_map
      else
        c ← createClone g cur (value_at value_map) true;
        new_node ← insertNode g c;
        N ← deref_node cur;
        value_map ← foldM (λ value_map i,
          N ← deref_node cur;
          K ← deref_node new_node;
          oo ← lift (index (outputs_ N) i);
          no ← lift (index (outputs_ K) i);
          mret (<[oo := no]> value_map)) value_map (seq 0 (length (outputs_ N)));
        N ← deref_node cur;
        next ← non_null (next_ N);
        inline_nodes fuel g head next value_map
  end.
Definition inlineCallTo (g callee : ptr) (args : list ptr) (unpack_outputs : bool) : M (list (option ptr)) :=
  C ← deref_graph callee;
  ins ← inputs (block_ C);
  AT_ASSERT (length ins =? length args);;
  let value_map := foldl (λ m p, <[p.1 := p.2]> m) ∅ (zip ins args) in
  B ← deref_block (block_ C);
  O ← deref_node (output_ B);
  begin ← non_null (next_ O);
  s ← get;
  value_map ← inline_nodes (list_fuel s) g (output_ B) begin value_map;
  outs ← outputs (block_ C);
  outputs ← mapM (λ output, v ← non_null output; lift (value_at value_map v)) outs;
  tuple ← (if unpack_outputs && (length outputs =? 1) then
             o ← lift (match outs !! 0 with Some x => found x | None => AT_ERROR "ArrayRef: invalid index" end);
             t ← Make.type o;
             mret (match t with JitTypes.TupleType _ _ => true | _ => false end)
           else mret false);
  if tuple : bool then
    tup ← lift (index outputs 0);
    vs ← Make.tuple_values tup;
    V ← deref_value tup;
    N ← deref_node (node_ V);
    (if decide (kind_ N = prim "TupleConstruct") then
       u ← hasUses (node_ V);
       if u : bool then mret tt else Node_destroy (node_ V)
     else mret tt);;
    mret vs
  else mret (Some <$> outputs).

(** *** New types throughout *)

(** The loop over [nodes()] in [remapTypes]. *)
Fixpoint remap_nodes (remap_node : ptr → M unit) (fuel : nat) (head cur : ptr) : M unit :=
  match fuel with
  | O => out_of_fuel
  | S fuel =>
      if cur =? head then mret tt
      else remap_node cur;; N ← deref_node cur; next ← non_null (next_ N); remap_nodes remap_node fuel head next
  end.
Definition remap_value (type_map : JitTypes.Ty → outcome JitTypes.Ty) (v : ptr) : M unit :=
  t ← Make.type v; t ← lift (type_map t); setType v t;; mret tt.
(** Of a node: its outputs, its blocks and the graphs among its attributes. *)
Definition remap_node (remap : ptr → M unit) (type_map : JitTypes.Ty → outcome JitTypes.Ty) (node : ptr) : M unit :=
  N ← deref_node node;
  foreach (outputs_ N) (remap_value type_map);;
  N ← deref_node node;
  foreach (blocks_ N) remap;;
  N ← deref_node node;
  let remap_graph g := G ← deref_graph g; remap (block_ G) in
  foreach (attributeNames (values_ N)) (λ name,
    N ← deref_node node;
    k ← lift (kindOf name (values_ N));
    match k with
    | kg => a ← lift (getAttr kg name (values_ N));
            match a with GraphAttr g => remap_graph g | _ => mret tt end
    | kgs => a ← lift (getAttr kgs name (values_ N));
             match a with GraphsAttr gs => foreach gs remap_graph | _ => mret tt end
    | _ => mret tt
    end).
Fixpoint remapTypes_rec (fuel : nat) (type_map : JitTypes.Ty → outcome JitTypes.Ty) (b : ptr) : M unit :=
  match fuel with
  | O => out_of_fuel
  | S fuel =>
      ins ← inputs b;
      foreach ins (remap_value type_map);;
      B ← deref_block b;
      O ← deref_node (output_ B);
      begin ← non_null (next_ O);
      s ← get;
      remap_nodes (remap_node (remapTypes_rec fuel type_map) type_map) (list_fuel s) (output_ B) begin
  end.
Definition remapTypes (b : ptr) (type_map : JitTypes.Ty → outcome JitTypes.Ty) : M unit :=
  s ← get; remapTypes_rec (block_fuel s) type_map b.
Definition Graph_remapTypes (g : ptr) (type_map : JitTypes.Ty → outcome JitTypes.Ty) : M unit :=
  G ← deref_graph g; remapTypes (block_ G) type_map.
End Clone.

(** ** The check of a graph *)
Module Lint.

(** [checkSameDevice]: complete tensor types among inputs and outputs name one device. *)
Definition checkSameDevice (node : ptr) : M unit :=
  N ← deref_node node;
  foldM (λ device p,
    v ← non_null p;
    t ← Make.type v;
    match t with
    | JitTypes.CompleteTensorType d _ _ =>
        match device with
        | None => mret (Some (JitTypes.device_ d))
        | Some dev => AT_ASSERT (bool_decide (dev = JitTypes.device_ d));; mret device
        end
    | _ => mret device
    end) None (inputs_ N ++ (Some <$> outputs_ N));;
  mret tt.

Section lint.
(** [PythonOp::lint_python] of the subclass, and [Graph::lint] for the graphs that are
    attributes. *)
Context (lint_python : ptr → M unit) (Graph_lint : ptr → M unit).

(** [Node::lint]. *)
Definition lint_input (n : ptr) (N : Node) (i : nat) (input : option ptr) : M unit :=
  v ← non_null input;
  V ← deref_value v;
  AT_ASSERT (bool_decide (mkUse n i ∈ uses_ V));;
  G ← deref_graph (graph_ N);
  AT_ASSERT (bool_decide (n ∈ all_nodes G)).
Definition lint_use (o : ptr) (use : Use) : M unit :=
  U ← deref_node (user use);
  input ← lift (index (inputs_ U) (offset use));
  AT_ASSERT (bool_decide (input = Some o)).
Definition lint_kind (n : ptr) (N : Node) : M unit :=
  if decide (kind_ N = prim "Constant") then AT_ASSERT (length (inputs_ N) =? 0)
  else if decide (kind_ N = prim "Return") then AT_ASSERT (length (outputs_ N) =? 0)
  else if decide (kind_ N = prim "Param") then AT_ASSERT (length (inputs_ N) =? 0)
  else if decide (kind_ N = prim "PythonOp") then lint_python n
  else if decide (kind_ N = prim "FusionGroup") then
    checkSameDevice n;;
    a ← lift (getAttr kg (attr "Subgraph") (values_ N));
    match a with GraphAttr g => Graph_lint g | _ => mret tt end
  else mret tt.
Definition Node_lint (n : ptr) : M unit :=
  N ← deref_node n;
  foreach (imap pair (inputs_ N)) (λ p, lint_input n N p.1 p.2);;
  foreach (outputs_ N) (λ o, V ← deref_value o; foreach (uses_ V) (lint_use o));;
  lint_kind n N.

(** [LintScope], from the innermost scope out, and the members of [LintImpl]. *)
Record LintImpl : Type := mkLint {
  scope : list (gset ptr * gset ptr);
  seen_uniques : gset nat;
  anticipated_uses : gmap ptr Z;
  sum_set : gset ptr
}.
Definition contains_value (sc : list (gset ptr * gset ptr)) (v : ptr) : bool := existsb (λ p, bool_decide (v ∈ p.1)) sc.
Definition contains_node (sc : list (gset ptr * gset ptr)) (n : ptr) : bool := existsb (λ p, bool_decide (n ∈ p.2)) sc.
Definition insert_value (v : ptr) (I : LintImpl) : M LintImpl :=
  AT_ASSERT (negb (contains_value (scope I) v));;
  match scope I with
  | p :: sc => mret (mkLint (({[v]} ∪ p.1, p.2) :: sc) (seen_uniques I) (anticipated_uses I) (sum_set I))
  | [] => mthrow (Undefined "null scope")
  end.
Definition insert_node (n : ptr) (I : LintImpl) : M LintImpl :=
  AT_ASSERT (negb (contains_node (scope I) n));;
  match scope I with
  | p :: sc => mret (mkLint ((p.1, {[n]} ∪ p.2) :: sc) (seen_uniques I) (anticipated_uses I) (sum_set I))
  | [] => mthrow (Undefined "null scope")
  end.
Definition push_scope (I : LintImpl) : LintImpl :=
  mkLint ((∅, ∅) :: scope I) (seen_uniques I) (anticipated_uses I) (sum_set I).
Definition pop_scope (I : LintImpl) : LintImpl :=
  mkLint (tail (scope I)) (seen_uniques I) (anticipated_uses I) (sum_set I).
Definition anticipate (n : ptr) (x : Z) (I : LintImpl) : LintImpl :=
  mkLint (scope I) (seen_uniques I) (<[n := x]> (anticipated_uses I)) (sum_set I).
(** [anticipated_uses[n]], which makes a zero where there is nothing. *)
Definition uses_of (n : ptr) (I : LintImpl) : Z := default 0%Z (anticipated_uses I !! n).

(** [check_value] in the graph [g]. *)
Definition check_value (g : ptr) (I : LintImpl) (v : ptr) : M LintImpl :=
  I ← insert_value v I;
  V ← deref_value v;
  AT_ASSERT (bool_decide (unique_ V ∉ seen_uniques I));;
  let I := mkLint (scope I) ({[unique_ V]} ∪ seen_uniques I) (anticipated_uses I) (sum_set I) in
  G ← deref_graph g;
  AT_ASSERT (unique_ V <? next_unique_ G);;
  foldM (λ I use,
    AT_ASSERT (negb (contains_node (scope I) (user use)));;
    G ← deref_graph g;
    AT_ASSERT (bool_decide (user use ∈ all_nodes G));;
    mret (anticipate (user use) (uses_of (user use) I + 1)%Z I)) I (uses_ V).

(** [check_node] for a way to check a block. *)
Definition check_node (check_block : LintImpl → ptr → M LintImpl) (g : ptr) (I : LintImpl) (n : ptr) : M LintImpl :=
  N ← deref_node n;
  foreach (inputs_ N) (λ input, v ← non_null input; AT_ASSERT (contains_value (scope I) v));;
  AT_ASSERT (uses_of n I =? Z.of_nat (length (inputs_ N)))%Z;;
  I ← insert_node n (anticipate n (-1)%Z I);
  I ← foldM (λ I b, J ← check_block (push_scope I) b; mret (pop_scope J)) I (blocks_ N);
  I ← foldM (λ I p,
    O ← deref_value p.2;
    AT_ASSERT (node_ O =? n);;
    AT_ASSERT (p.1 =? offset_ O);;
    check_value g I p.2) I (imap pair (outputs_ N));
  Node_lint n;;
  mret I.

(** The loop over neighbours of the list. *)
Fixpoint check_order (fuel : nat) (return_node curNode : ptr) : M unit :=
  match fuel with
  | O => out_of_fuel
  | S fuel =>
      if curNode =? return_node then mret tt
      else
        N ← deref_node curNode;
        next ← non_null (next_ N);
        b ← isBefore curNode next;
        AT_ASSERT b;;
        check_order fuel return_node next
  end.
(** [check_block]: [all] is the snapshot of the nodes of the graph. *)
Fixpoint check_block (fuel : nat) (g : ptr) (all : gset ptr) (I : LintImpl) (b : ptr) : M LintImpl :=
  match fuel with
  | O => out_of_fuel
  | S fuel =>
      B ← deref_block b;
      O ← deref_node (output_ B);
      begin ← non_null (next_ O);
      first ← isBefore (input_ B) begin;
      AT_ASSERT first;;
      s ← get;
      check_order (list_fuel s) (output_ B) begin;;
      ins ← inputs b;
      I ← foldM (λ I input,
        I ← check_value g I input;
        V ← deref_value input;
        N ← deref_node (node_ V);
        AT_ASSERT (bool_decide (kind_ N = prim "Param"));;
        mret I) I ins;
      ns ← nodes b;
      I ← foldM (λ I n,
        N ← deref_node n;
        AT_ASSERT (bool_decide (kind_ N ≠ prim "Param"));;
        AT_ASSERT (bool_decide (kind_ N ≠ prim "Return"));;
        check_node (check_block fuel g all) g I n) I ns;
      O ← deref_node (output_ B);
      AT_ASSERT (bool_decide (kind_ O = prim "Return"));;
      I ← check_node (check_block fuel g all) g I (output_ B);
      ns ← nodes b;
      AT_ASSERT (bool_decide (list_to_set ns ⊆ all));;
      AT_ASSERT (bool_decide (input_ B ∈ all));;
      AT_ASSERT (bool_decide (output_ B ∈ all));;
      mret (mkLint (scope I) (seen_uniques I) (anticipated_uses I) (sum_set I ∪ list_to_set ns ∪ {[input_ B]} ∪ {[output_ B]}))
  end.
(** [check_graph]. *)
Definition check_graph (g : ptr) : M unit :=
  G ← deref_graph g;
  s ← get;
  I ← check_block (block_fuel s) g (all_nodes G) (mkLint [(∅, ∅)] ∅ ∅ ∅) (block_ G);
  foreach (map_to_list (anticipated_uses I)) (λ kv, AT_ASSERT (kv.2 =? -1)%Z);;
  AT_ASSERT (bool_decide (all_nodes G ⊆ sum_set I)).
End lint.

(** [Graph::lint]; [fuel] bounds the nesting of graphs that are attributes. *)
Fixpoint Graph_lint (lint_python : ptr → M unit) (fuel : nat) (g : ptr) : M unit :=
  match fuel with
  | O => out_of_fuel
  | S fuel => check_graph lint_python (Graph_lint lint_python fuel) g
  end.
Definition lint (lint_python : ptr → M unit) (g : ptr) : M unit :=
  s ← get; Graph_lint lint_python (S (size (graph_heap s))) g.
End Lint.
