(* ===== verification/IRClone.v ===== *)
(** * Checks, and copies of nodes

    [Node::lint] passes on every node of a well-formed store whose kind has the inputs
    and outputs it should have, and a node made with inputs has them as its inputs.

    [create] with inputs and [createClone] give a node in no list with the inputs they
    are told, and leave the inputs and outputs of all other nodes alone. *)
From stdpp Require Import sorting.
From S2P Require Import Prelude Text JitTypes JitGraph IRSpec IRUses IRLists IROrder IRNames IRBuild IRBlocks IRDestroy IROps JitGraphOps.
Local Open Scope string_scope.
Local Open Scope nat_scope.
Local Open Scope list_scope.
#[local] Set Warnings "-clear-no-such-hyp".
Import Attributes.
Import IR.

(** A loop whose body changes nothing. *)
Lemma foreach_same {A} (body : A → M unit) l s : (∀ x, x ∈ l → body x s = (Ok tt, s)) → foreach l body s = (Ok tt, s).
Proof.
  induction l as [|x l IH]; intros H; [done|]. cbn [foreach]. rewrite (run_bind _ _ _ _ _ (H x ltac:(by left))).
  apply IH. intros y Hy. apply H. by right.
Qed.

(** ** [Node::lint] *)

(** What a node of one of the kinds with a rule has to have. *)
Definition kind_ok (N : Node) : Prop :=
  (kind_ N = prim "Constant" ∨ kind_ N = prim "Param" → inputs_ N = []) ∧ (kind_ N = prim "Return" → outputs_ N = []) ∧
  kind_ N ≠ prim "PythonOp" ∧ kind_ N ≠ prim "FusionGroup".

Lemma lint_kind_Ok lint_python Graph_lint n N s :
  kind_ok N → Lint.lint_kind lint_python Graph_lint n N s = (Ok tt, s).
Proof.
  intros (H1 & H2 & H3 & H4). unfold Lint.lint_kind. repeat case_decide; try done; rewrite ?H1, ?H2 by tauto; done.
Qed.

Lemma Node_lint_Ok L lint_python Graph_lint s n N :
  wf L s → node_heap s !! n = Some N → kind_ok N → Lint.Node_lint lint_python Graph_lint n s = (Ok tt, s).
Proof.
  intros W HN HK. pose proof (w_uses _ _ W) as [HM Hnn]. assert (Hl : f_inputs s !! n = Some (inputs_ N)) by (apply f_inputs_Some; eauto).
  assert (Hg : f_graph s !! n = Some (graph_ N)) by (apply f_graph_Some; eauto). pose proof (node_graph_live _ _ _ _ W Hg) as [G HG].
  assert (Hall : n ∈ all_nodes G).
  { apply (in_all_nodes _ (w_graphs _ _ W) (graph_ N)); [|done]. unfold f_all_nodes. by rewrite lookup_fmap, HG. }
  unfold Lint.Node_lint. step. rewrite (run_bind _ _ s tt s).
  2:{ apply foreach_same. intros [i x] Hx. apply elem_of_lookup_imap in Hx as (j & y & [= -> ->] & Hj). cbn [fst snd].
    destruct y as [v|]; [|by destruct (Hnn _ _ Hl); eapply list_elem_of_lookup_2].
    assert (HE : edge (f_inputs s) n j v) by (by exists (inputs_ N)). destruct (edge_listed _ _ _ _ _ HM HE) as (us & Hus & Hin).
    apply f_uses_Some in Hus as (V & HV & <-). unfold Lint.lint_input. step. step. rewrite run_assert by (by apply bool_decide_eq_true).
    step. unfold AT_ASSERT, AT_CHECK. by rewrite bool_decide_true. }
  rewrite (run_bind _ _ s tt s).
  2:{ apply foreach_same. intros o Ho. apply list_elem_of_lookup in Ho as [j Hj].
    assert (Hd : f_def s !! o = Some (n, j)) by (eapply (output_def _ (w_defs _ _ W)); [apply f_outputs_Some; eauto|done]).
    apply f_def_Some in Hd as (V & HV & _). step. apply foreach_same. intros u Hu.
    assert (Hus : f_uses s !! o = Some (uses_ V)) by (apply f_uses_Some; eauto). destruct u as [m i].
    apply (mirror_iff _ _ HM o _ m i Hus) in Hu as (l & Hl' & Hi). apply f_inputs_Some in Hl' as (M & HM' & HMl).
    unfold Lint.lint_use. cbn [user offset]. step. rewrite HMl. rewrite (run_index _ _ _ _ _ Hi). unfold AT_ASSERT, AT_CHECK.
    by rewrite bool_decide_true. }
  by apply lint_kind_Ok.
Qed.

(** The order of the list, as [check_block] checks it: the parameter node is before the
    first node and every node before the next. *)
Lemma isBefore_list L s b B l i j x y :
  wf L s → block_heap s !! b = Some B → L !! b = Some l → ordered B l !! i = Some x → ordered B l !! j = Some y →
  isBefore x y s = (Ok (i <? j), s).
Proof.
  intros W HB Hl Hi Hj.
  assert (Hin : ∀ k z, ordered B l !! k = Some z → f_owner s !! z = Some (Some b)).
  { intros k z Hk. apply (members _ _ (w_lists _ _ W) b B l z HB Hl). apply list_elem_of_lookup_2 in Hk. unfold ordered, block_nodes in *.
    rewrite elem_of_cons, elem_of_app, list_elem_of_singleton in Hk. rewrite !elem_of_cons. tauto. }
  unfold isBefore. eapply (isBeforeOrAfter_Ok L s b B l x y x y i j BEFORE); try done.
  - by apply within_here, (Hin i).
  - by apply within_here, (Hin j).
  - by right; left.
Qed.

Lemma check_order_Ok L s b B l :
  wf L s → block_heap s !! b = Some B → L !! b = Some l →
  ∀ k q p cur, l = p ++ cur :: q → length q < k → Lint.check_order (S k) (output_ B) cur s = (Ok tt, s).
Proof.
  intros W HB Hl. pose proof (members_NoDup _ _ (w_lists _ _ W) b B l HB Hl) as Hnd. unfold block_nodes in Hnd.
  apply list.NoDup_cons in Hnd as [Hno _]. pose proof (ring _ _ (w_lists _ _ W) b B l HB Hl) as Hr.
  assert (Hne : ∀ p x q, l = p ++ x :: q → x ≠ output_ B).
  { intros p x q -> ->. apply Hno. right. apply elem_of_app. right. by left. }
  induction k as [|k IH]; intros q p cur El Hk; [lia|]. cbn [Lint.check_order].
  rewrite (proj2 (Nat.eqb_neq _ _)) by (by eapply Hne). rewrite El in Hr. apply chain_app in Hr as [_ Hr].
  pose proof (chain_next _ _ _ _ Hr) as (N & HN & Hnx)%linked_next. step. rewrite Hnx. step.
  assert (Hi : ordered B l !! S (length p) = Some cur).
  { unfold ordered. cbn. rewrite El, <- app_assoc. cbn. by apply list_lookup_middle. }
  assert (Hj : ordered B l !! S (S (length p)) = Some (next_in q (output_ B))).
  { assert (ordered B l = (input_ B :: p ++ [cur]) ++ (q ++ [output_ B])) as -> by (unfold ordered; rewrite El; cbn; by rewrite <- !app_assoc).
    rewrite lookup_app_r by (cbn; rewrite length_app; cbn; lia). replace (S (S (length p)) - _) with 0 by (cbn; rewrite length_app; cbn; lia). by destruct q. }
  rewrite (run_bind _ _ _ _ _ (isBefore_list L s b B l _ _ _ _ W HB Hl Hi Hj)). rewrite run_assert by (apply Nat.ltb_lt; lia).
  destruct q as [|z q]; cbn [next_in].
  - destruct k; [cbn; by rewrite Nat.eqb_refl|]. cbn. by rewrite Nat.eqb_refl.
  - rewrite El in Hl, Hno, Hne. apply (IH q (p ++ [cur]) z); [by rewrite El, <- app_assoc|cbn in Hk; lia].
Qed.

(** ** Nodes with inputs, and copies of nodes *)

Lemma f_type_Some s v x : f_type s !! v = Some x ↔ ∃ V, value_heap s !! v = Some V ∧ type_ V = x.
Proof. unfold f_type. rewrite lookup_fmap_Some. naive_solver. Qed.
Lemma f_attrs_Some s n x : f_attrs s !! n = Some x ↔ ∃ N, node_heap s !! n = Some N ∧ values_ N = x.
Proof. unfold f_attrs. rewrite lookup_fmap_Some. naive_solver. Qed.

(** ** Types of values *)
Lemma reset_schemas us s :
  (∀ u, u ∈ us → is_Some (node_heap s !! user u)) →
  ∃ s', foreach us (λ use, update_node (user use) (set_schema None)) s = (Ok tt, s') ∧ changes [] s s'.
Proof.
  revert s. induction us as [|u us IH]; intros s Hl; [exists s; split; [done|apply changes_refl]|].
  set (s1 := upd_node (user u) (set_schema None) s). destruct (IH s1) as (s2 & E2 & C2).
  { intros w Hw. apply node_live, Hl. by right. }
  exists s2. split; [|eapply changes_step; [|exact C2]; unfold s1; chain_changes]. cbn [foreach].
  pose proof (Hl u ltac:(by left)). step. exact E2.
Qed.

Lemma setType_wf L s v t :
  wf L s → is_Some (f_type s !! v) →
  ∃ s', setType v t s = (Ok v, s') ∧ changes [Types] s s' ∧ f_type s' = <[v := t]> (f_type s) ∧ wf L s'.
Proof.
  intros W [t0 (V & HV & _)%f_type_Some]. set (s1 := upd_value v (set_type t) s).
  assert (C1 : changes [Types] s s1) by (unfold s1; chain_changes).
  assert (HV1 : value_heap s1 !! v = Some (set_type t V)) by (unfold s1; cell).
  destruct (reset_schemas (uses_ V) s1) as (s2 & E2 & C2).
  { intros [m i] Hu. assert (Hus : f_uses s !! v = Some (uses_ V)) by (apply f_uses_Some; eauto).
    apply (mirror_iff _ _ (uses_mirror _ (w_uses _ _ W)) v _ m i Hus) in Hu as (l & Hl & _). apply f_inputs_Some in Hl as (M & HM & _).
    exists M. exact HM. }
  assert (C : changes [Types] s s2) by (eapply changes_step; [exact C1|]; eapply changes_weaken; [exact C2|subfields]).
  exists s2. split_and!; [|done| |frame_wf C W].
  - unfold setType. assert (is_Some (value_heap s !! v)) by eauto. step. fold s1. step. by rewrite (run_bind _ _ _ _ _ E2).
  - transitivity (f_type s1); [apply (C2 Types); outside|]. unfold f_type, s1, upd_value. cbn. rewrite (alter_hit type_ _ (λ _, t)) by done.
    symmetry. eapply (insert_alter _ _ (λ _, t)). by rewrite lookup_fmap, HV.
Qed.

(** Metadata of a value without a name: its type. *)
Lemma copyMetadata_wf L s v o t :
  wf L s → is_Some (f_type s !! v) → f_type s !! o = Some t → f_name s !! o = Some "" →
  ∃ s', copyMetadata v o s = (Ok v, s') ∧ changes [Types] s s' ∧ f_type s' = <[v := t]> (f_type s) ∧ wf L s'.
Proof.
  intros W Hv Ho Hn. destruct (setType_wf L s v t W Hv) as (s1 & E1 & C1 & HT1 & W1). exists s1. split_and!; [|done..].
  apply f_type_Some in Ho as (O & HO & HOt). unfold copyMetadata. step. rewrite HOt. rewrite (run_bind _ _ _ _ _ E1).
  assert (f_name s1 !! o = Some "") as Hn1 by (assert (f_name s1 = f_name s) as -> by (apply (C1 Name); outside); done).
  apply f_name_Some in Hn1 as (O1 & HO1 & HOn). step. unfold hasUniqueName. by rewrite HOn.
Qed.

(** ** Inputs for a new node *)
Lemma add_inputs L n g vs l s :
  wf L s → f_inputs s !! n = Some l → f_graph s !! n = Some g → (∀ v, v ∈ vs → value_graph s v g) →
  ∃ s', foreach vs (λ i, addInput n i;; mret tt) s = (Ok tt, s') ∧ changes [Inputs; Uses] s s' ∧
    f_inputs s' = <[n := l ++ (Some <$> vs)]> (f_inputs s) ∧ wf L s'.
Proof.
  revert l s. induction vs as [|v vs IH]; intros l s W Hl Hg Hv.
  - exists s. split_and!; [done|apply changes_refl| |done]. by rewrite app_nil_r, insert_id.
  - destruct (addInput_wf L s W n l g Hl Hg v ltac:(apply Hv; by left)) as (s1 & E1 & C1 & HI1 & W1).
    destruct (IH (l ++ [Some v]) s1) as (s2 & E2 & C2 & HI2 & W2); [done|by rewrite HI1, lookup_insert_eq| | |].
    + assert (f_graph s1 = f_graph s) as -> by (apply (C1 OfGraph); outside). done.
    + intros w Hw. eapply kept_graph; [exact C1|done|]. apply Hv. by right.
    + exists s2. split_and!; [|by eapply changes_step| |done].
      * cbn [foreach]. rewrite (run_bind _ _ _ _ _ (run_unit _ _ _ _ E1)). exact E2.
      * rewrite HI2, HI1, insert_insert_eq. by rewrite <- app_assoc.
Qed.

Lemma create_with_Ok L s g k vs num_outputs :
  wf L s → is_Some (graph_heap s !! g) → (∀ v, v ∈ vs → value_graph s v g) →
  ∃ s' os, Make.create_with g k vs num_outputs s = (Ok (next_ptr s), s') ∧ wf L s' ∧ length os = num_outputs ∧
    f_kind s' !! next_ptr s = Some k ∧ f_owner s' !! next_ptr s = Some None ∧
    f_inputs s' = <[next_ptr s := Some <$> vs]> (f_inputs s) ∧ f_outputs s' = <[next_ptr s := os]> (f_outputs s).
Proof.
  intros W Hg Hv. destruct (create_made L s g k num_outputs W Hg) as (s1 & os & E1 & HM & Hlen). set (n := next_ptr s) in *.
  destruct (add_inputs L n g vs [] s1) as (s2 & E2 & C2 & HI2 & W2).
  - by eapply made_wf.
  - by rewrite (made_inputs _ _ _ _ _ _ _ HM), lookup_insert_eq.
  - by eapply made_graph.
  - intros v Hin. eapply made_kept; [done|]. by apply Hv.
  - exists s2, os. split_and!; [|done|done| | | |].
    + unfold Make.create_with. by rewrite (run_bind _ _ _ _ _ E1), (run_bind _ _ _ _ _ E2).
    + assert (f_kind s2 = f_kind s1) as -> by (apply (C2 Kind); outside). by eapply made_kind.
    + assert (f_owner s2 = f_owner s1) as -> by (apply (C2 Owner); outside). by eapply made_owner.
    + rewrite HI2, (made_inputs _ _ _ _ _ _ _ HM). by rewrite insert_insert_eq.
    + assert (f_outputs s2 = f_outputs s1) as -> by (apply (C2 Outputs); outside). by eapply made_outputs.
Qed.

(** ** [createClone] for a node without blocks *)
Definition plain (v : AttributeValue) : bool := match v with GraphAttr _ | GraphsAttr _ => false | _ => true end.

Lemma copy_values copy r vals vs s :
  f_attrs s !! r = Some vs → Forall (λ p : Symbol * AttributeValue, plain p.2 = true) vals →
  ∃ s', foreach vals (λ i, v ← Clone.clone_value copy i.2; update_node r (λ N, set_values (values_ N ++ [(i.1, v)]) N)) s = (Ok tt, s') ∧
    changes [NodeAttrs] s s' ∧ f_attrs s' = <[r := vs ++ vals]> (f_attrs s).
Proof.
  revert vs s. induction vals as [|[a v] vals IH]; intros vs s Hr Hp.
  - exists s. split_and!; [done|apply changes_refl|]. by rewrite app_nil_r, insert_id.
  - apply List.Forall_cons_iff in Hp as [Hv Hp]. pose proof Hr as (N & HN & HNv)%f_attrs_Some.
    set (s1 := upd_node r (λ N, set_values (values_ N ++ [(a, v)]) N) s).
    assert (HA1 : f_attrs s1 = <[r := vs ++ [(a, v)]]> (f_attrs s)).
    { unfold f_attrs, s1, upd_node. cbn. rewrite (alter_hit values_ _ (λ l, l ++ [(a, v)])) by done. symmetry.
      rewrite <- (insert_alter _ _ (λ l, l ++ [(a, v)]) vs); [done|]. exact Hr. }
    destruct (IH (vs ++ [(a, v)]) s1) as (s2 & E2 & C2 & HA2); [by rewrite HA1, lookup_insert_eq|done|].
    exists s2. split_and!.
    + cbn [foreach fst snd]. assert (Hrun : (v' ← Clone.clone_value copy v; update_node r (λ N, set_values (values_ N ++ [(a, v')]) N)) s = (Ok tt, s1)).
      { assert (Ec : Clone.clone_value copy v s = (Ok v, s)) by (destruct v; done). rewrite (run_bind _ _ _ _ _ Ec).
        rewrite update_node_Ok by eauto. done. }
      rewrite (run_bind _ _ _ _ _ Hrun). exact E2.
    + eapply changes_step; [|exact C2]. unfold s1. chain_changes.
    + rewrite HA2, HA1, insert_insert_eq. by rewrite <- app_assoc.
Qed.

Lemma Node_cloneFrom_wf L copy r m M s :
  wf L s → r ≠ m → f_attrs s !! r = Some [] → node_heap s !! m = Some M → Forall (λ p : Symbol * AttributeValue, plain p.2 = true) (values_ M) →
  ∃ s', Clone.Node_cloneFrom copy r m s = (Ok tt, s') ∧ changes [NodeAttrs] s s' ∧ f_attrs s' = <[r := values_ M]> (f_attrs s) ∧ wf L s'.
Proof.
  intros W Hrm Hr HM Hp. pose proof Hr as (R & HR & HRv)%f_attrs_Some.
  set (s1 := upd_node r (set_source_location (source_location_ M)) s).
  set (s2 := match scope_ M with Some sc => if Scope_isBlank sc then s1 else upd_node r (set_scope (Some sc)) s1 | None => s1 end).
  assert (C2 : changes [] s s2).
  { unfold s2, s1. destruct (scope_ M) as [sc|]; [destruct (Scope_isBlank sc)|]; chain_changes. }
  assert (L2 : is_Some (node_heap s2 !! r)) by (unfold s2, s1; destruct (scope_ M) as [sc|]; [destruct (Scope_isBlank sc)|]; live).
  set (s3 := upd_node r (set_values []) s2). assert (C3 : changes [NodeAttrs] s s3).
  { eapply changes_step; [eapply changes_weaken; [exact C2|subfields]|]. unfold s3. chain_changes. }
  assert (HA3 : f_attrs s3 = <[r := []]> (f_attrs s)).
  { unfold f_attrs, s3, upd_node. cbn. rewrite (alter_hit values_ _ (λ _, [])) by done.
    assert (f_attrs s2 = f_attrs s) as HA2 by (apply (C2 NodeAttrs); outside). unfold f_attrs in HA2. rewrite HA2. symmetry. by eapply (insert_alter _ _ (λ _, [])). }
  destruct (copy_values copy r (values_ M) [] s3) as (s4 & E4 & C4 & HA4); [by rewrite HA3, lookup_insert_eq|done|].
  assert (HM3 : node_heap s3 !! m = Some M).
  { unfold s3, s2, s1. rewrite node_upd, decide_False by done. destruct (scope_ M) as [sc|]; [destruct (Scope_isBlank sc)|]; rewrite !node_upd, !decide_False by done; done. }
  assert (C : changes [NodeAttrs] s s4) by (eapply changes_step; [exact C3|exact C4]).
  exists s4. split_and!; [|done|by rewrite HA4, HA3, insert_insert_eq|frame_wf C W].
  unfold Clone.Node_cloneFrom. step. assert (is_Some (node_heap s !! r)) by eauto. step. fold s1.
  assert (Es : (match scope_ M with Some sc => if Scope_isBlank sc then mret tt else update_node r (set_scope (Some sc)) | None => mret tt end) s1 = (Ok tt, s2)).
  { unfold s2. destruct (scope_ M) as [sc|]; [destruct (Scope_isBlank sc)|]; try done. rewrite update_node_Ok; [done|]. unfold s1. live. }
  rewrite (run_bind _ _ _ _ _ Es). unfold Clone.copyAttributes. step. fold s3. step. exact E4.
Qed.

(** The outputs of the copy, with their types. *)
Lemma clone_outputs L s g k r rest os t :
  made L s g k r os t → r < next_ptr t → (∀ o, o ∈ rest → is_Some (f_type s !! o) ∧ f_name s !! o = Some "") →
  ∃ t' ws, foreach rest (λ o, v ← addOutput r; copyMetadata v o;; mret tt) t = (Ok tt, t') ∧ made L s g k r (os ++ ws) t' ∧
    Forall2 (λ o w, f_type t' !! w = f_type s !! o) rest ws ∧ (∀ w, is_Some (f_type t !! w) → f_type t' !! w = f_type t !! w).
Proof.
  revert os t. induction rest as [|o rest IH]; intros os t HM Hlt Hrest.
  - exists t, []. split_and!; [done|by rewrite app_nil_r|constructor|done].
  - destruct (Hrest o ltac:(by left)) as [Ho Hn]. destruct Ho as [ty Ho].
    destruct (made_output L s g k r os t HM Hlt) as (t1 & E1 & HM1 & Hn1 & HA). set (v := next_ptr t) in *.
    assert (Hfree : value_heap t !! v = None) by (eapply free_value, made_wf; exact HM).
    assert (Hv1 : is_Some (f_type t1 !! v)).
    { assert (is_Some (f_name t1 !! v)) as [x Hx] by (rewrite (added_name _ _ _ _ _ _ _ HA), lookup_insert_eq; eauto).
      apply f_name_Some in Hx as (V & HV & _). exists (type_ V). apply f_type_Some. eauto. }
    assert (Ho1 : f_type t1 !! o = Some ty) by (rewrite (made_types _ _ _ _ _ _ _ HM1); eauto).
    assert (Hn1o : f_name t1 !! o = Some "") by (rewrite (made_names _ _ _ _ _ _ _ HM1); eauto).
    destruct (copyMetadata_wf L t1 v o ty) as (t2 & E2 & C2 & HT2 & W2); [by eapply made_wf|done|done|done|].
    assert (Hold : ∀ w, is_Some (f_type t !! w) → w ≠ v ∧ f_type t1 !! w = f_type t !! w).
    { intros w Hw. split; [|by eapply (added_types _ _ _ _ _ _ _ HA)]. intros ->. destruct Hw as [x Hx].
      apply f_type_Some in Hx as (V & HV & _). congruence. }
    assert (HM2 : made L s g k r (os ++ [v]) t2).
    { destruct HM1 as [M1 M2 M3 M4 M5 M6 M7 M8 M9 M10 M11].
      assert (HG : f_graph t2 = f_graph t1) by (apply (C2 OfGraph); outside).
      constructor; rewrite ?HG; try done.
      - assert (f_kind t2 = f_kind t1) as -> by (apply (C2 Kind); outside). done.
      - assert (f_owner t2 = f_owner t1) as -> by (apply (C2 Owner); outside). done.
      - assert (f_inputs t2 = f_inputs t1) as -> by (apply (C2 Inputs); outside). done.
      - assert (f_outputs t2 = f_outputs t1) as -> by (apply (C2 Outputs); outside). done.
      - assert (f_blocks t2 = f_blocks t1) as -> by (apply (C2 Blocks); outside). done.
      - assert (f_attrs t2 = f_attrs t1) as -> by (apply (C2 NodeAttrs); outside). done.
      - intros u h Hu. eapply kept_graph; [exact C2|done|by apply M9].
      - intros u Hu. assert (f_name t2 = f_name t1) as -> by (apply (C2 Name); outside). by apply M10.
      - intros u Hu. rewrite HT2. rewrite <- (M11 u Hu). apply lookup_insert_ne. intros <-.
        assert (is_Some (f_type t !! v)) as Hc by (by rewrite (made_types _ _ _ _ _ _ _ HM v Hu)). by destruct (Hold v Hc). }
    assert (Hlt2 : r < next_ptr t2).
    { assert (next_ptr t2 = next_ptr t1) as -> by (apply (C2 Fresh); outside). rewrite Hn1. unfold v. lia. }
    destruct (IH (os ++ [v]) t2 HM2 Hlt2) as (t3 & ws & E3 & HM3 & HF & HK3); [intros w Hw; apply Hrest; by right|].
    exists t3, (v :: ws). split_and!.
    + cbn [foreach]. rewrite (run_bind _ _ t tt t2); [exact E3|]. rewrite (run_bind _ _ _ _ _ E1). by apply run_unit in E2.
    + by rewrite cons_middle, app_assoc.
    + constructor; [|done]. rewrite HK3 by (rewrite HT2, lookup_insert_eq; eauto). rewrite HT2, lookup_insert_eq. by rewrite Ho.
    + intros w Hw. destruct (Hold w Hw) as [Hwv Hw1]. assert (Hw2 : f_type t2 !! w = f_type t !! w) by (rewrite HT2, lookup_insert_ne; done).
      rewrite HK3; [done|]. by rewrite Hw2.
Qed.

(** The inputs of the copy, through the map. *)
Lemma clone_inputs_run (value_map : ptr → outcome ptr) r ins vs s s' :
  Forall2 (λ x w, ∃ v, x = Some v ∧ value_map v = Ok w) ins vs →
  foreach vs (λ i, addInput r i;; mret tt) s = (Ok tt, s') →
  foreach ins (λ i, v ← non_null i; w ← lift (value_map v); addInput r w;; mret tt) s = (Ok tt, s').
Proof.
  intros H. revert s. induction H as [|x w ins vs (v & -> & Hw) _ IH]; intros s; [done|]. cbn [foreach]. intros E.
  destruct ((addInput r w;; mret tt) s) as [[[]|e] s1] eqn:E1; [|by rewrite (run_bind_throw _ _ _ _ _ E1) in E].
  rewrite (run_bind _ _ _ _ _ E1) in E. rewrite (run_bind _ _ s tt s1); [by apply IH|].
  erewrite run_bind by reflexivity. rewrite Hw. erewrite run_bind by reflexivity. exact E1.
Qed.

Lemma createClone_leaf L s g m M value_map copy_blocks vs :
  wf L s → is_Some (graph_heap s !! g) → node_heap s !! m = Some M → blocks_ M = [] →
  Forall (λ p : Symbol * AttributeValue, plain p.2 = true) (values_ M) →
  (∀ o, o ∈ outputs_ M → is_Some (f_type s !! o) ∧ f_name s !! o = Some "") →
  Forall2 (λ x w, ∃ v, x = Some v ∧ value_map v = Ok w) (inputs_ M) vs → (∀ w, w ∈ vs → value_graph s w g) →
  ∃ s' os, Clone.createClone g m value_map copy_blocks s = (Ok (next_ptr s), s') ∧ wf L s' ∧
    f_kind s' !! next_ptr s = Some (kind_ M) ∧ f_graph s' !! next_ptr s = Some g ∧ f_owner s' !! next_ptr s = Some None ∧
    f_attrs s' = <[next_ptr s := values_ M]> (f_attrs s) ∧ f_inputs s' = <[next_ptr s := Some <$> vs]> (f_inputs s) ∧
    f_outputs s' = <[next_ptr s := os]> (f_outputs s) ∧ Forall2 (λ o w, f_type s' !! w = f_type s !! o) (outputs_ M) os.
Proof.
  intros W Hg HM Hb Hp Ho Hvs Hgv. destruct (new_Node_Ok L s g (kind_ M) W Hg) as (sc & E0 & _). set (r := next_ptr s) in *.
  pose proof (node_made L s g (kind_ M) sc W Hg) as HM0. fold r in HM0.
  assert (Hmr : r ≠ m) by (intros <-; pose proof (free_node _ _ W); unfold r in HM; congruence).
  destruct (clone_outputs L s g (kind_ M) r (outputs_ M) [] (node_store g (kind_ M) sc s)) as (s1 & os & E1 & HM1 & HF & _); [done|cbn; unfold r; lia|done|].
  cbn [app] in HM1. pose proof (made_wf _ _ _ _ _ _ _ HM1) as W1.
  assert (is_Some (node_heap s1 !! m)) as [M1 HM1'].
  { assert (is_Some (f_inputs s1 !! m)) as [x Hx].
    { rewrite (made_inputs _ _ _ _ _ _ _ HM1), lookup_insert_ne by done. exists (inputs_ M). apply f_inputs_Some. eauto. }
    apply f_inputs_Some in Hx as (? & ? & _). eauto. }
  assert (HvM : values_ M1 = values_ M).
  { assert (f_attrs s1 !! m = Some (values_ M)) as H.
    { rewrite (made_attrs _ _ _ _ _ _ _ HM1), lookup_insert_ne by done. apply f_attrs_Some. eauto. }
    apply f_attrs_Some in H as (? & ? & ?). congruence. }
  destruct (Node_cloneFrom_wf L (Clone.copy_with (Clone.cloneFrom (Clone.clone_fuel s))) r m M1 s1) as (s2 & E2 & C2 & HA2 & W2);
    [done|done|by rewrite (made_attrs _ _ _ _ _ _ _ HM1), lookup_insert_eq|done|by rewrite HvM|].
  assert (HI2 : f_inputs s2 = <[r := []]> (f_inputs s)).
  { transitivity (f_inputs s1); [apply (C2 Inputs); outside|by eapply made_inputs]. }
  assert (HG2 : f_graph s2 !! r = Some g) by (assert (f_graph s2 = f_graph s1) as -> by (apply (C2 OfGraph); outside); by eapply made_graph).
  destruct (add_inputs L r g vs [] s2) as (s3 & E3 & C3 & HI3 & W3); [done|by rewrite HI2, lookup_insert_eq|done| |].
  { intros w Hw. eapply kept_graph; [exact C2|done|]. eapply made_kept; [exact HM1|]. by apply Hgv. }
  exists s3, os. split_and!; [|done| | | | | | |].
  - unfold Clone.createClone. step. unfold Clone.createClone_with. step. rewrite (run_bind _ _ _ _ _ E0), (run_bind _ _ _ _ _ E1), (run_bind _ _ _ _ _ E2).
    rewrite (run_bind _ _ _ _ _ (clone_inputs_run _ _ _ _ _ _ Hvs E3)). rewrite Hb. by destruct copy_blocks.
  - assert (f_kind s3 = f_kind s1) as ->; [|by eapply made_kind]. transitivity (f_kind s2); [apply (C3 Kind); outside|apply (C2 Kind); outside].
  - assert (f_graph s3 = f_graph s2) as -> by (apply (C3 OfGraph); outside). done.
  - assert (f_owner s3 = f_owner s1) as ->; [|by eapply made_owner]. transitivity (f_owner s2); [apply (C3 Owner); outside|apply (C2 Owner); outside].
  - transitivity (f_attrs s2); [apply (C3 NodeAttrs); outside|]. rewrite HA2, (made_attrs _ _ _ _ _ _ _ HM1), HvM. by rewrite insert_insert_eq.
  - by rewrite HI3, HI2, insert_insert_eq.
  - transitivity (f_outputs s2); [apply (C3 Outputs); outside|]. transitivity (f_outputs s1); [apply (C2 Outputs); outside|by eapply made_outputs].
  - assert (f_type s3 = f_type s1) as ->; [|done]. transitivity (f_type s2); [apply (C3 Types); outside|apply (C2 Types); outside].
Qed.
