(* ===== verification/IRProperties.v ===== *)
(** * Properties of the graphs of the JIT *)
From stdpp Require Import sorting.
From S2P Require Import Prelude Text JitTypes JitGraph JitGraphOps IRSpec IRUses IRLists IRNames IRBuild IRBlocks.
From S2P Require Import IRDestroy IROps IROrder IRClone.
Local Open Scope string_scope.
Local Open Scope nat_scope.
Local Open Scope list_scope.
#[local] Set Warnings "-clear-no-such-hyp".
Import IR.

(** ** All operations *)

(** C24: From the empty store, any sequence of operations on graphs that meet their
    preconditions returns without a failed assertion, a dangling pointer or an endless
    loop, and the store it leaves is well-formed: uses mirror inputs, outputs and
    definitions, blocks and owners agree, the nodes of every block form a ring in the
    order of their positions, the graphs list their objects, and names and values are
    each other's inverse. *)
Theorem operations_safe os :
  legal_run empty_store os → ∃ s', foreach os run empty_store = (Ok tt, s') ∧ well_formed s'.
Proof. intros H. apply sequence_safe; [exists ∅; apply wf_empty|done]. Qed.

Lemma operations_safe_witness :
  ∃ s', foreach Sample.ops run empty_store = (Ok tt, s') ∧ well_formed s'.
Proof. apply operations_safe. exact Sample.legal. Defined.

(** ** Inputs *)

(** C25: [insertInput], [replaceInput] and [removeInput] change the inputs of one node
    as insertion, update and deletion change a list, leave all other inputs alone, and
    afterwards every value lists exactly its uses, each once, at the new offsets. *)
Theorem input_operations s n l v g i old :
  well_formed s → f_inputs s !! n = Some l → f_graph s !! n = Some g → value_graph s v g → l !! i = Some (Some old) →
  (∃ s', insertInput n i v s = (Ok v, s') ∧ f_inputs s' = <[n := take i l ++ Some v :: drop i l]> (f_inputs s) ∧
    mirror (edge (f_inputs s')) (f_uses s') ∧ well_formed s') ∧
  (∃ s', replaceInput n i v s = (Ok old, s') ∧ f_inputs s' = <[n := <[i := Some v]> l]> (f_inputs s) ∧
    mirror (edge (f_inputs s')) (f_uses s') ∧ well_formed s') ∧
  (∃ s', removeInput n i s = (Ok tt, s') ∧ f_inputs s' = <[n := delete i l]> (f_inputs s) ∧
    mirror (edge (f_inputs s')) (f_uses s') ∧ well_formed s').
Proof.
  intros [L W] Hl Hg Hv Hi. pose proof (lookup_lt_Some _ _ _ Hi) as Hlt. split_and!.
  - destruct (insertInput_wf L s W n l g Hl Hg i v ltac:(lia) Hv) as (s' & E & _ & HI & W').
    exists s'. split_and!; [done|done|apply (w_uses _ _ W')|by exists L].
  - destruct (replaceInput_wf L s W n l g Hl Hg i old v Hi Hv) as (s' & E & _ & HI & W').
    exists s'. split_and!; [done|done|apply (w_uses _ _ W')|by exists L].
  - destruct (removeInput_wf L s W n l Hl i Hlt) as (s' & E & _ & HI & W').
    exists s'. split_and!; [done|done|apply (w_uses _ _ W')|by exists L].
Qed.

(** The node [mul] of the sample uses one value twice. *)
Lemma input_operations_witness :
  ∃ s', insertInput 8 1 4 Sample.store = (Ok 4, s') ∧ f_inputs s' !! 8 = Some [Some 7; Some 4; Some 7].
Proof.
  destruct (input_operations Sample.store 8 [Some 7; Some 7] 4 0 1 7) as ((s' & E & HI & _) & _).
  - exact Sample.wf.
  - vm_compute. reflexivity.
  - vm_compute. reflexivity.
  - in_graph.
  - reflexivity.
  - exists s'. split; [exact E|]. rewrite HI. apply lookup_insert_eq.
Defined.

(** [replaceAllUsesWith] substitutes the new value in all inputs of all nodes and
    hands its uses over in order; with the value itself as the new value and at least
    one use its loop never ends. *)
Theorem replaceAllUsesWith_substitutes s v w g vs ws :
  well_formed s → value_graph s v g → value_graph s w g → f_uses s !! v = Some vs → f_uses s !! w = Some ws →
  (v ≠ w → ∃ s', Value_replaceAllUsesWith v w s = (Ok tt, s') ∧
    f_inputs s' = fmap (M:=list) (subst_value v w) <$> f_inputs s ∧
    f_uses s' = <[v := []]> (<[w := ws ++ vs]> (f_uses s)) ∧ well_formed s') ∧
  (v = w → vs ≠ [] → ∀ fuel, ∃ s', Value_replaceAllUsesWith_fuel fuel v w s = (Throw (Undefined "out of fuel"), s')).
Proof.
  intros [L W] Hv Hw Hvs Hws. split.
  - intros Hne. destruct (replaceAllUsesWith_wf L s v w g vs ws W Hne Hvs Hws Hv Hw) as (s' & E & _ & HI & HU & W').
    exists s'. split_and!; [done..|by exists L].
  - intros <- Hne fuel. by apply (replaceAll_self fuel v g vs s (uses_mirror _ (w_uses _ _ W))).
Qed.

Lemma replaceAllUsesWith_substitutes_witness :
  (∃ s', Value_replaceAllUsesWith 7 5 Sample.store = (Ok tt, s') ∧
    f_uses s' = <[7 := []]> (<[5 := [mkUse 6 1; mkUse 8 0; mkUse 8 1]]> (f_uses Sample.store))) ∧
  ∀ fuel, ∃ s', Value_replaceAllUsesWith_fuel fuel 7 7 Sample.store = (Throw (Undefined "out of fuel"), s').
Proof.
  split.
  - destruct (replaceAllUsesWith_substitutes Sample.store 7 5 0 [mkUse 8 0; mkUse 8 1] [mkUse 6 1] Sample.wf) as [H _];
      [in_graph|in_graph|vm_compute; reflexivity|vm_compute; reflexivity|].
    destruct (H ltac:(discriminate)) as (s' & E & _ & HU & _). exists s'. split; [exact E|exact HU].
  - destruct (replaceAllUsesWith_substitutes Sample.store 7 7 0 [mkUse 8 0; mkUse 8 1] [mkUse 8 0; mkUse 8 1] Sample.wf) as [_ H];
      [in_graph|in_graph|vm_compute; reflexivity|vm_compute; reflexivity|].
    exact (H eq_refl ltac:(discriminate)).
Defined.

(** ** Lists of nodes *)

(** C26: Inserting a node at a place of a block and moving a node to a place of another
    or of the same block change the walks over the blocks as they change lists, and no
    other block; the store stays well-formed, so that the positions keep the order. *)
Theorem list_operations s n c D r t :
  well_formed s → place_for s n c D r t →
  (nodes c s = (Ok (r ++ t), s) → f_owner s !! n = Some None →
    ∃ s', insertAfter n (prev_in (output_ D) r) s = (Ok n, s') ∧ nodes c s' = (Ok (r ++ n :: t), s') ∧ well_formed s' ∧
      ∀ d k, d ≠ c → is_Some (block_heap s !! d) → nodes d s = (Ok k, s) → nodes d s' = (Ok k, s')) ∧
  (∀ b p q, is_Some (block_heap s !! b) → nodes b s = (Ok (p ++ n :: q), s) → list_without s b c p q (r ++ t) →
    ∃ s', moveBefore n (next_in t (output_ D)) s = (Ok tt, s') ∧ nodes c s' = (Ok (r ++ n :: t), s') ∧ well_formed s' ∧
      (b ≠ c → nodes b s' = (Ok (p ++ q), s')) ∧
      ∀ d k, d ≠ b → d ≠ c → is_Some (block_heap s !! d) → nodes d s = (Ok k, s) → nodes d s' = (Ok k, s')).
Proof.
  intros [L W] Hp. pose proof Hp as (HD & Hg & Hin & Hlen & Hgap). split.
  - intros Hn Ho. pose proof (nodes_lists _ _ _ _ W ltac:(eauto) Hn) as Hl.
    destruct (insertAfter_wf L s W n c D r t) as (s' & E & C & _ & W'); try done; [by apply place_bound|].
    assert (HH : block_heap s' = block_heap s) by (apply (C BlockHeap); outside).
    exists s'. split_and!; [done| |by eexists|].
    + eapply nodes_Ok; [apply W'|by rewrite HH|apply lookup_insert_eq].
    + intros d k Hd Hlive Hk. pose proof (nodes_lists _ _ _ _ W Hlive Hk). destruct Hlive as [F HF].
      eapply nodes_Ok; [apply W'|by rewrite HH|by rewrite lookup_insert_ne].
  - intros b p q Hb Hn Hlw. destruct (move_lists _ _ _ _ _ _ _ _ _ _ W Hb Hn Hlw Hp) as (B & HB & Hl & Hr & HgD).
    destruct (moveBefore_wf L s W n b c B D p q r t) as (s' & E & C & _ & W'); try done; [by apply place_bound|].
    assert (HH : block_heap s' = block_heap s) by (apply (C BlockHeap); outside).
    exists s'. split_and!; [done| |by eexists| |].
    + eapply nodes_Ok; [apply W'|by rewrite HH|apply lookup_insert_eq].
    + intros Hbc. eapply nodes_Ok; [apply W'|by rewrite HH|]. by rewrite lookup_insert_ne, lookup_insert_eq.
    + intros d k Hdb Hdc Hlive Hk. pose proof (nodes_lists _ _ _ _ W Hlive Hk). destruct Hlive as [F HF].
      eapply nodes_Ok; [apply W'|by rewrite HH|by rewrite !lookup_insert_ne].
Qed.

(** The first node of the sample goes in front of the last one. *)
Lemma list_operations_witness :
  ∃ s', moveBefore 6 10 Sample.store = (Ok tt, s') ∧ nodes 3 s' = (Ok [8; 6; 10], s').
Proof.
  destruct (list_operations Sample.store 6 3 Sample.B0 [8] [10]) as [_ H].
  - exact Sample.wf.
  - split_and!; [vm_compute; reflexivity|vm_compute; reflexivity|not_inside|done|].
    intros x y px py [= <-] [= <-] H1 H2. vm_compute in H1, H2. injection H1 as <-. injection H2 as <-. reflexivity.
  - destruct (H 3 (@nil ptr) [8; 10]) as (s' & E & Hn & _).
    + eexists. vm_compute. reflexivity.
    + vm_compute. reflexivity.
    + left. done.
    + exists s'. split; [exact E|exact Hn].
Defined.

(** C39: A node put into a block and taken out again leaves the walks over all blocks as
    they were, and is in no list. *)
Theorem insert_remove_roundtrip s n b B p q :
  well_formed s → nodes b s = (Ok (p ++ q), s) → f_owner s !! n = Some None → place_for s n b B p q →
  ∃ s', (insertBefore n (next_in q (output_ B));; removeFromList n) s = (Ok tt, s') ∧ f_owner s' = f_owner s ∧ well_formed s' ∧
    ∀ d k, is_Some (block_heap s !! d) → nodes d s = (Ok k, s) → nodes d s' = (Ok k, s').
Proof.
  intros [L W] Hn Ho (HB & Hg & Hin & Hlen & Hgap). pose proof (nodes_lists _ _ _ _ W ltac:(eauto) Hn) as Hl.
  destruct (insertBefore_wf L s W n b B p q) as (s1 & E1 & C1 & HO1 & W1); try done; [by apply place_bound|].
  assert (HH1 : block_heap s1 = block_heap s) by (apply (C1 BlockHeap); outside).
  destruct (removeFromList_wf _ s1 W1 n b B p q) as (s2 & E2 & C2 & HO2 & W2); [by rewrite HH1|apply lookup_insert_eq|].
  assert (HH2 : block_heap s2 = block_heap s) by (transitivity (block_heap s1); [apply (C2 BlockHeap); outside|done]).
  exists s2. split_and!.
  - by rewrite (run_bind _ _ _ _ _ E1).
  - rewrite HO2, HO1, insert_insert_eq. by apply insert_id.
  - by eexists.
  - intros d k Hlive Hk. pose proof (nodes_lists _ _ _ _ W Hlive Hk) as Hd. destruct Hlive as [F HF].
    eapply nodes_Ok; [apply W2|by rewrite HH2|]. rewrite insert_insert_eq.
    destruct (decide (d = b)) as [->|]; [rewrite lookup_insert_eq; congruence|by rewrite lookup_insert_ne].
Qed.

(** The store of the sample with one more node. *)
Definition with_loose : Store := (create 0 (Attributes.aten "relu") 1 Sample.store).2.
Lemma unit_run {A} (m : M A) s s' : (m;; mret tt) s = (Ok tt, s') → (m s).2 = s'.
Proof. unfold mbind, SE_bind. destruct (m s) as [[a|e] s1]; [by intros [= <-]|done]. Qed.
Lemma loose_wf : well_formed with_loose.
Proof.
  destruct (run_safe Sample.store (Create 0 (Attributes.aten "relu") 1) Sample.wf) as (s' & E & W); [constructor; by_computing|].
  apply unit_run in E. unfold with_loose. by rewrite E.
Qed.

Lemma insert_remove_roundtrip_witness :
  ∃ s', (insertBefore 17 8;; removeFromList 17) with_loose = (Ok tt, s') ∧ nodes 3 s' = (Ok [6; 8; 10], s').
Proof.
  destruct (insert_remove_roundtrip with_loose 17 3 Sample.B0 [6] [8; 10] loose_wf) as (s' & E & _ & _ & H).
  - vm_compute. reflexivity.
  - vm_compute. reflexivity.
  - split_and!; [vm_compute; reflexivity|vm_compute; reflexivity|not_inside|done|].
    intros x y px py [= <-] [= <-] H1 H2. vm_compute in H1, H2. injection H1 as <-. injection H2 as <-. reflexivity.
  - exists s'. split; [exact E|]. apply H; [eexists; vm_compute; reflexivity|vm_compute; reflexivity].
Defined.

(** ** Order *)

(** C27: [isBefore] and [isAfter] agree with the order of the list of the innermost block
    both nodes lie in, the parameter node first and the return node last, for the nodes
    of that block that hold them. *)
Theorem isBefore_agrees s b B l this n x y i j :
  well_formed s → block_heap s !! b = Some B → nodes b s = (Ok l, s) →
  within s b this x → within s b n y → x ≠ y ∨ x = this ∨ y = n →
  ordered B l !! i = Some x → ordered B l !! j = Some y →
  isBefore this n s = (Ok (i <? j), s) ∧ isAfter this n s = (Ok (j <? i), s).
Proof.
  intros [L W] HB Hn Hx Hy Hxy Hi Hj. pose proof (nodes_lists _ _ _ _ W ltac:(eauto) Hn) as Hl.
  split; [by eapply (isBeforeOrAfter_Ok L s b B l this n x y i j BEFORE)|by eapply (isBeforeOrAfter_Ok L s b B l this n x y i j AFTER)].
Qed.

(** Node 15 lies in a block of node 10, which comes behind node 8. *)
Lemma isBefore_agrees_witness : isBefore 8 15 Sample.store = (Ok true, Sample.store).
Proof.
  destruct (isBefore_agrees Sample.store 3 Sample.B0 [6; 8; 10] 8 15 8 10 2 3) as [H _].
  - exact Sample.wf.
  - vm_compute. reflexivity.
  - vm_compute. reflexivity.
  - apply within_here. vm_compute. reflexivity.
  - eapply within_up; [vm_compute; reflexivity|discriminate|vm_compute; reflexivity|reflexivity|]. apply within_here. vm_compute. reflexivity.
  - left. discriminate.
  - reflexivity.
  - reflexivity.
  - exact H.
Defined.

(** C40: Between two neighbours whose positions are 2^63 or more apart the difference
    does not fit, and the new node is numbered outside of the gap: the order no longer
    agrees with the list. *)
Theorem wide_gap_breaks_order s this b B N P X prev next :
  node_heap s !! this = Some N → owning_block_ N = Some b → block_heap s !! b = Some B →
  prev_ N = Some prev → next_ N = Some next → node_heap s !! prev = Some P → node_heap s !! next = Some X →
  owning_block_ P = Some b → owning_block_ X = Some b → this ≠ prev → this ≠ next → prev ≠ output_ B → next ≠ output_ B →
  (kLowerBound < topo_position_ P)%Z → (topo_position_ X < kUpperBound)%Z → (2 ^ 63 ≤ topo_position_ X - topo_position_ P)%Z →
  ∃ s', assignTopoPosition this s = (Ok tt, s') ∧ (isBefore prev this s' = (Ok false, s') ∨ isBefore this next s' = (Ok false, s')).
Proof.
  intros HN HNo HB Hpv Hnx HP HX HPo HXo Hp1 Hn1 Hp2 Hn2 HPl HXu Hgap.
  set (a := topo_position_ P) in *. set (c := topo_position_ X) in *. set (z := add64 a (Z.quot (sub64 c a) 2)).
  assert (Hz : z ≠ a ∧ ((z < a)%Z ∨ (c < z)%Z)).
  { unfold z, kLowerBound, kUpperBound in *. assert (Hd : sub64 c a = (c - a - 2 ^ 64)%Z) by (unfold sub64, int64, wrapS; rewrite <- (Z.mod_add _ (-1)) by done; rewrite Z.mod_small; lia).
    rewrite Hd. assert (Hq : (c - a - 2 ^ 64 < Z.quot (c - a - 2 ^ 64) 2 < 0)%Z) by (Z.to_euclidean_division_equations; lia).
    clear Hd. generalize dependent (Z.quot (c - a - 2 ^ 64) 2). intros q Hq.
    clearbody a c. clear - HPl HXu Hgap Hq. destruct (decide (- 2 ^ 63 ≤ a + q)%Z).
    - change (add64 a q) with (wrapS 64 (a + q)). rewrite wrapS_id by (try done; unfold in_S; lia). lia.
    - assert (E : add64 a q = (a + q + 2 ^ 64)%Z); [|rewrite E; lia].
      unfold add64, int64, wrapS. rewrite <- (Z.mod_add _ 1) by done. rewrite Z.mod_small; lia. }
  destruct Hz as [Hza Hz]. exists (upd_node this (set_topo_position z) s). split.
  - unfold assignTopoPosition. step. rewrite HNo. step. step. rewrite Hpv. step. rewrite Hnx. step. step. step. cbn zeta.
    rewrite (proj2 (Nat.eqb_neq _ _)) by done. rewrite (proj2 (Nat.eqb_neq _ _)) by done. fold a c. fold z.
    rewrite (proj2 (Z.eqb_neq _ _)) by done. apply update_node_Ok. eauto.
  - assert (HN' : node_heap (upd_node this (set_topo_position z) s) !! this = Some (set_topo_position z N)) by cell.
    assert (HP' : node_heap (upd_node this (set_topo_position z) s) !! prev = Some P) by (rewrite node_upd, decide_False; done).
    assert (HX' : node_heap (upd_node this (set_topo_position z) s) !! next = Some X) by (rewrite node_upd, decide_False; done).
    assert (Hcmp : ∀ t u T U, node_heap (upd_node this (set_topo_position z) s) !! t = Some T →
      node_heap (upd_node this (set_topo_position z) s) !! u = Some U → owning_block_ T = owning_block_ U →
      (topo_position_ U ≤ topo_position_ T)%Z →
      isBefore t u (upd_node this (set_topo_position z) s) = (Ok false, upd_node this (set_topo_position z) s)).
    { intros t u T U HT HU Ho Hle. unfold isBefore, isBeforeOrAfter. step. step. rewrite decide_True by done. cbn.
      by rewrite (proj2 (Z.ltb_ge _ _)) by done. }
    destruct Hz as [Hz|Hz]; [left; eapply Hcmp; [exact HP'|exact HN'|cbn; congruence|cbn; lia]|].
    right. eapply Hcmp; [exact HN'|exact HX'|cbn; congruence|cbn; lia].
Qed.

(** Node 17 between nodes 6 and 8 of the sample, numbered far apart. *)
Definition far_apart : Store :=
  upd_node 8 (set_topo_position (2 ^ 62)) (upd_node 6 (set_topo_position (- 2 ^ 62)) (insertBefore 17 8 with_loose).2).
Lemma wide_gap_breaks_order_witness :
  ∃ s', assignTopoPosition 17 far_apart = (Ok tt, s') ∧ (isBefore 6 17 s' = (Ok false, s') ∨ isBefore 17 8 s' = (Ok false, s')).
Proof.
  eapply (wide_gap_breaks_order far_apart 17 3 Sample.B0); first [vm_compute; reflexivity | discriminate | vm_compute; discriminate | vm_compute; reflexivity].
Defined.
