(* ===== verification/IRNodeProperties.v ===== *)
(** * Properties of the names, the nodes and the checks of the graphs of the JIT *)
From stdpp Require Import sorting.
From S2P Require Import Prelude Text JitTypes JitGraph JitGraphOps IRSpec IRUses IRLists IRNames IRBuild IRBlocks.
From S2P Require Import IRDestroy IROps IROrder IRClone IRProperties.
Local Open Scope string_scope.
Local Open Scope nat_scope.
Local Open Scope list_scope.
#[local] Set Warnings "-clear-no-such-hyp".
Import IR.

(** ** Names *)

(** A change of names only keeps a store well-formed when it keeps the names so. *)
Lemma names_well_formed L s s' : wf L s → changes [Name; Names] s s' → wf_names s' → well_formed s'.
Proof. intros W C WN. exists L. frame_wf C W. done. Qed.

(** C28: [setUniqueName] gives a value the name it is told. When another value of the
    graph has it, that value gets the first free name among [base.suffix],
    [base.(suffix+1)], ..., where the name splits into [base] and a number (1 if there is
    none); all other values keep their names, and names stay unique and valid. *)
Theorem setUniqueName_names s v g ns old x :
  well_formed s → value_graph s v g → f_names s !! g = Some ns → f_name s !! v = Some old → isValidName x = true →
  (Z.of_nat (size ns) < 2 ^ 64)%Z →
  match delete old ns !! x with
  | None => ∃ s', setUniqueName v x s = (Ok v, s') ∧ f_name s' = <[v := x]> (f_name s) ∧ well_formed s'
  | Some w => ∀ base suffix, split_name x = Ok (base, suffix) →
      ∃ k s', setUniqueName v x s = (Ok v, s') ∧ delete old ns !! candidate base suffix k = None ∧
        (∀ j, j < k → is_Some (delete old ns !! candidate base suffix j)) ∧
        f_name s' = <[v := x]> (<[w := candidate base suffix k]> (f_name s)) ∧ well_formed s'
  end.
Proof.
  intros [L W] Hg Hns Hold Hx Hsz. destruct (delete old ns !! x) as [w|] eqn:Hw.
  - intros base suffix Hsplit.
    destruct (setUniqueName_taken s v g ns old x w base suffix (w_names _ _ W)) as (k & s' & E & C & WN & Hf & Ht & HN); [done..|].
    exists k, s'. split_and!; [done..|]. by eapply names_well_formed.
  - destruct (setUniqueName_free 1 s v g ns old x (w_names _ _ W)) as (s' & E & C & WN & HN & _); [done..|].
    exists s'. split_and!; [exact E|done|]. by eapply names_well_formed.
Qed.

(** Value 9 takes the name "r" of value 7. *)
Lemma setUniqueName_names_witness :
  ∃ s', setUniqueName 9 "r" Sample.store = (Ok 9, s') ∧ well_formed s' ∧
    ∃ k, f_name s' = <[9 := "r"]> (<[7 := candidate "r" 1 k]> (f_name Sample.store)).
Proof.
  assert (Hns : f_names Sample.store !! 0 = Some {["r" := 7]}) by (vm_compute; reflexivity).
  assert (Hold : f_name Sample.store !! 9 = Some "") by (vm_compute; reflexivity).
  assert (H : _) by (refine (setUniqueName_names Sample.store 9 0 {["r" := 7]} "" "r" Sample.wf _ Hns Hold eq_refl _); [in_graph|by vm_compute]).
  destruct (H "r" 1%Z eq_refl) as (k & s' & E & _ & _ & HN & W'). exists s'. split; [exact E|]. split; [exact W'|]. exists k. exact HN.
Defined.

(** When the name is taken and ends in a number of 2^63 or more, [setUniqueName] throws
    [std::out_of_range] from the conversion, after the value has lost its old name; names
    stay consistent. *)
Theorem setUniqueName_throws s v g ns old x w d :
  well_formed s → value_graph s v g → f_names s !! g = Some ns → f_name s !! v = Some old → isValidName x = true →
  delete old ns !! x = Some w → numeric_suffix x = Some d → (2 ^ 63 ≤ read_digits 0 (str_drop (S d) x))%Z →
  ∃ s', setUniqueName v x s = (Throw (StdOutOfRange "stoll"), s') ∧ f_name s' = <[v := ""]> (f_name s) ∧ well_formed s'.
Proof.
  intros [L W] Hg Hns Hold Hx Hw Hd Hbig.
  destruct (setUniqueName_overflow s v g ns old x w d (w_names _ _ W)) as (s' & E & C & WN & HN); [done..|].
  exists s'. split_and!; [done|done|]. by eapply names_well_formed.
Qed.

(** A name that no value of the sample has. *)
Ltac name_free v x :=
  match goal with |- legal ?s _ =>
    let ns := eval vm_compute in (default ∅ (f_names s !! 0)) in
    apply (legal_setUniqueName s v x 0 ns);
    [vm_compute; reflexivity|in_graph|vm_compute; reflexivity|intros [? H]; vm_compute in H; discriminate H|vm_compute; reflexivity]
  end.
Definition big_name : string := "r.9223372036854775808".
Definition with_big_name : Store := (foreach [SetUniqueName 7 big_name; SetUniqueName 9 "q"] run Sample.store).2.
Lemma big_name_wf : well_formed with_big_name.
Proof.
  destruct (sequence_safe [SetUniqueName 7 big_name; SetUniqueName 9 "q"] Sample.store Sample.wf) as (s' & E & W).
  - apply legal_cons; [name_free 7 big_name|Sample.next]. apply legal_cons; [name_free 9 "q"|Sample.next]. constructor.
  - unfold with_big_name. by rewrite E.
Qed.
Lemma setUniqueName_throws_witness :
  ∃ s', setUniqueName 9 big_name with_big_name = (Throw (StdOutOfRange "stoll"), s') ∧ f_name s' !! 9 = Some "".
Proof.
  assert (Hns : f_names with_big_name !! 0 = Some {[big_name := 7; "q" := 9]}) by (vm_compute; reflexivity).
  destruct (setUniqueName_throws with_big_name 9 0 {[big_name := 7; "q" := 9]} "q" big_name 7 1 big_name_wf) as (s' & E & HN & _).
  - in_graph.
  - exact Hns.
  - vm_compute. reflexivity.
  - reflexivity.
  - vm_compute. reflexivity.
  - reflexivity.
  - vm_compute. discriminate.
  - exists s'. split; [exact E|]. rewrite HN. apply lookup_insert_eq.
Defined.

(** ** Destruction *)

(** [destroy] of a node without blocks in the list of a block, whose outputs have no
    uses, takes it out of the list, frees it and its outputs, forgets its uses of other
    values, and leaves everything else. *)
Theorem destroy_leaf s n b p q os :
  well_formed s → is_Some (block_heap s !! b) → nodes b s = (Ok (p ++ n :: q), s) → f_blocks s !! n = Some [] →
  f_outputs s !! n = Some os → (∀ v, v ∈ os → f_uses s !! v = Some []) →
  ∃ s', Node_destroy n s = (Ok tt, s') ∧ nodes b s' = (Ok (p ++ q), s') ∧ node_heap s' !! n = None ∧
    f_inputs s' = delete n (f_inputs s) ∧ f_outputs s' = delete n (f_outputs s) ∧
    (∀ w, is_Some (value_heap s' !! w) ↔ is_Some (value_heap s !! w) ∧ w ∉ os) ∧ mirror (edge (f_inputs s')) (f_uses s') ∧ well_formed s'.
Proof.
  intros [L W] Hb Hn Hbs Ho Hu. pose proof (nodes_lists _ _ _ _ W Hb Hn) as Hl. destruct Hb as [B HB].
  destruct (Node_destroy_leaf L s n os (<[b := p ++ q]> L) W Hbs Ho Hu) as (s' & E & W' & HI & HO & _ & HV & HH); [right; by exists b, B, p, q|].
  exists s'. split_and!; [done| | |done|done| |apply (w_uses _ _ W')|by eexists].
  - eapply nodes_Ok; [apply W'|by rewrite HH|apply lookup_insert_eq].
  - destruct (node_heap s' !! n) as [N|] eqn:HN; [exfalso|done].
    assert (f_inputs s' !! n = Some (inputs_ N)) as H by (apply f_inputs_Some; eauto). by rewrite HI, lookup_delete_eq in H.
  - intros w. specialize (HV w). unfold f_uses in HV. by rewrite !lookup_fmap, !fmap_is_Some in HV.
Qed.

(** The node [relu] goes into the sample and away. *)
Definition with_relu : Store := (insertBefore 17 8 with_loose).2.
Lemma relu_wf : well_formed with_relu.
Proof.
  destruct (run_safe with_loose (InsertBefore 17 8) loose_wf) as (s' & E & W).
  - refine (legal_insertBefore _ 17 3 Sample.B0 [6] [8; 10] _ _ _); [vm_compute; reflexivity|vm_compute; reflexivity|].
    split_and!; [vm_compute; reflexivity|vm_compute; reflexivity|not_inside|done|].
    intros x y px py [= <-] [= <-] H1 H2. vm_compute in H1, H2. injection H1 as <-. injection H2 as <-. reflexivity.
  - apply unit_run in E. unfold with_relu. by rewrite E.
Qed.
Lemma destroy_leaf_witness :
  ∃ s', Node_destroy 17 with_relu = (Ok tt, s') ∧ nodes 3 s' = (Ok [6; 8; 10], s') ∧ node_heap s' !! (17 : ptr) = None.
Proof.
  destruct (destroy_leaf with_relu 17 3 [6] [8; 10] [18] relu_wf) as (s' & E & Hn & HN & _).
  - eexists. vm_compute. reflexivity.
  - vm_compute. reflexivity.
  - vm_compute. reflexivity.
  - vm_compute. reflexivity.
  - intros v ->%list_elem_of_singleton. vm_compute. reflexivity.
  - exists s'. split; [exact E|split; [exact Hn|exact HN]].
Defined.

(** ** Checks *)

(** In a well-formed store the local checks of [Graph::lint] pass on every block: the
    parameter node is before the first node, each node is before its successor in the
    list, and every node whose kind has its inputs and outputs passes [Node::lint]. *)
Theorem lint_passes s b B l lint_python Graph_lint :
  well_formed s → block_heap s !! b = Some B → nodes b s = (Ok l, s) →
  isBefore (input_ B) (next_in l (output_ B)) s = (Ok true, s) ∧
  Lint.check_order (list_fuel s) (output_ B) (next_in l (output_ B)) s = (Ok tt, s) ∧
  ∀ n N, node_heap s !! n = Some N → kind_ok N → Lint.Node_lint lint_python Graph_lint n s = (Ok tt, s).
Proof.
  intros [L W] HB Hn. pose proof (nodes_lists _ _ _ _ W ltac:(eauto) Hn) as Hl. split_and!.
  - apply (isBefore_list L s b B l 0 1); [done..|]. by destruct l.
  - destruct l as [|x l]; cbn [next_in]; [unfold list_fuel; cbn; by rewrite Nat.eqb_refl|].
    apply (check_order_Ok L s b B (x :: l) W HB Hl _ l [] x); [done|].
    pose proof (list_length_bound L s b B (x :: l) (w_lists _ _ W) HB Hl). cbn in *. lia.
  - intros n N HN HK. by eapply Node_lint_Ok.
Qed.

Lemma lint_passes_witness :
  Lint.check_order (list_fuel Sample.store) (output_ Sample.B0) (next_in [6; 8; 10] (output_ Sample.B0)) Sample.store = (Ok tt, Sample.store) ∧
  Lint.Node_lint (λ _, mret tt) (λ _, mret tt) 10 Sample.store = (Ok tt, Sample.store).
Proof.
  destruct (lint_passes Sample.store 3 Sample.B0 [6; 8; 10] (λ _, mret tt) (λ _, mret tt) Sample.wf) as (_ & H1 & H2).
  - vm_compute. reflexivity.
  - vm_compute. reflexivity.
  - split; [exact H1|]. eapply H2; [vm_compute; reflexivity|]. split_and!; [by intros [[=]|[=]]|done..].
Defined.

(** ** Copies *)

(** [createClone] of a node without blocks, graph attributes and names makes a new
    node of the graph it is told, in no list, of the same kind, with the same attributes,
    the mapped inputs and fresh outputs of the same types; the inputs and outputs of all
    other nodes stay, and the values the copy reads list its uses. *)
Theorem createClone_copies s g m M value_map copy_blocks vs :
  well_formed s → is_Some (graph_heap s !! g) → node_heap s !! m = Some M → blocks_ M = [] →
  Forall (λ p : Attributes.Symbol * Attributes.AttributeValue, plain p.2 = true) (values_ M) →
  (∀ o, o ∈ outputs_ M → is_Some (f_type s !! o) ∧ f_name s !! o = Some "") →
  Forall2 (λ x w, ∃ v, x = Some v ∧ value_map v = Ok w) (inputs_ M) vs → (∀ w, w ∈ vs → value_graph s w g) →
  ∃ s' os, Clone.createClone g m value_map copy_blocks s = (Ok (next_ptr s), s') ∧ well_formed s' ∧
    f_kind s' !! next_ptr s = Some (kind_ M) ∧ f_graph s' !! next_ptr s = Some g ∧ f_owner s' !! next_ptr s = Some None ∧
    f_attrs s' = <[next_ptr s := values_ M]> (f_attrs s) ∧ f_inputs s' = <[next_ptr s := Some <$> vs]> (f_inputs s) ∧
    f_outputs s' = <[next_ptr s := os]> (f_outputs s) ∧ Forall2 (λ o w, f_type s' !! w = f_type s !! o) (outputs_ M) os ∧
    mirror (edge (f_inputs s')) (f_uses s').
Proof.
  intros [L W] Hg HM Hb Hp Ho Hvs Hgv.
  destruct (createClone_leaf L s g m M value_map copy_blocks vs) as (s' & os & E & W' & H1 & H2 & H3 & H4 & H5 & H6 & H7); [done..|].
  exists s', os. split_and!; [done|by eexists|done..|apply (w_uses _ _ W')].
Qed.

(** A copy of the node [mul], with both inputs read from 4 instead of 7. *)
Lemma createClone_copies_witness :
  ∃ s' os, Clone.createClone 0 8 (λ _, Ok 4) true Sample.store = (Ok (next_ptr Sample.store), s') ∧
    f_inputs s' = <[next_ptr Sample.store := [Some 4; Some 4]]> (f_inputs Sample.store) ∧
    f_outputs s' = <[next_ptr Sample.store := os]> (f_outputs Sample.store).
Proof.
  pose (M := default (blank_node 0 (Attributes.aten "mul") None) (node_heap Sample.store !! (8 : ptr))).
  destruct (createClone_copies Sample.store 0 8 M (λ _, Ok 4) true [4; 4] Sample.wf) as (s' & os & E & _ & _ & _ & _ & _ & HI & HO & _).
  - eexists. vm_compute. reflexivity.
  - vm_compute. reflexivity.
  - vm_compute. reflexivity.
  - vm_compute. constructor.
  - assert (outputs_ M = [9]) as -> by (vm_compute; reflexivity). intros o ->%list_elem_of_singleton.
    split; [eexists; vm_compute; reflexivity|vm_compute; reflexivity].
  - assert (inputs_ M = [Some 7; Some 7]) as -> by (vm_compute; reflexivity). repeat constructor; by exists 7.
  - intros w Hw. assert (w = 4) as -> by (set_unfold; tauto). in_graph.
  - exists s', os. split; [exact E|split; [exact HI|exact HO]].
Defined.
