(* ===== verification/AutogradEngine.v ===== *)
(** * The autograd engine (torch/csrc/autograd/engine.cpp, input_buffer.cpp)

    Backpropagation by worker threads, one per queue of ready functions.  A state holds
    the functions, the running graph tasks, the queues, and for each worker the stack of
    the calls of [thread_main] it is in: a function may call [execute] again, and the
    worker then goes back to work inside of it.  A step of a thread goes from one access
    of shared data to the next; [locked] is the mutex of a graph task, and a thread that
    waits for a mutex or for a task has no step.

    Tensors and what the engine does with them are a class, and [apply] of a function is
    what it returns, raises or executes next, for the inputs it is given. *)
From S2P Require Import Prelude CoreTypes Options ScalarTypes Geometry.
Local Open Scope string_scope.
Local Open Scope nat_scope.
Local Open Scope list_scope.
#[local] Set Warnings "-register-all".

(** [at::DeprecatedTypeProperties]; [operator==] compares these two. *)
Record TypeProperties : Type := mkType { backend_ : Backend.Backend; scalar_type_ : ScalarType.ScalarType }.
#[export] Instance TypeProperties_eq_dec : EqDecision TypeProperties.
Proof. solve_decision. Defined.

(** The operations on defined tensors that the engine calls. *)
Class Tensors (T : Type) : Type := {
  sizes : T → list Z;
  type : T → TypeProperties;
  device : T → Device.Device;
  is_sparse : T → bool;
  is_contiguous : T → bool;
  sole_owner : T → bool; (* storage().use_count() == 1 *)
  add : T → T → outcome T; (* a + b *)
  add_ : T → T → outcome T; (* a.add_(b) *)
  sum_to : T → list Z → outcome T;
  has_nan : T → bool; (* a.ne(a).any() *)
  anomaly_mode : bool
}.

Module Engine.
Section engine.
Context {T : Type} `{!Tensors T}.

Definition ptr : Type := nat.
(** A [Variable], which may be undefined. *)
Definition variable : Type := option T.

(** ** input_buffer.cpp *)
Definition InputBuffer : Type := list variable.

(** The sum of the variable that is there and of a new one. *)
Definition accumulate (old_var var : T) : outcome T :=
  if is_sparse old_var then
    if negb (is_sparse var) && is_contiguous var && sole_owner var then add_ var old_var else add var old_var
  else
    if is_sparse var && negb (is_sparse old_var) && is_contiguous old_var && sole_owner old_var then add_ old_var var
    else add old_var var.
Definition buffer_add (pos : nat) (var : variable) (buffer : InputBuffer) : outcome InputBuffer :=
  AT_ASSERT (pos <? length buffer);;
  match var, buffer !! pos with
  | None, _ => Ok buffer
  | Some v, Some (Some old_var) => sum ← accumulate old_var v; Ok (<[pos := Some sum]> buffer)
  | Some v, _ => Ok (<[pos := Some v]> buffer)
  end.
Definition kCPU : Device.Device := Device.mkDevice DeviceType.CPU (-1)%Z.
Fixpoint buffer_device (buffer : InputBuffer) : Device.Device :=
  match buffer with
  | [] => kCPU
  | Some var :: buffer => if decide (Device.type_ (device var) = DeviceType.CPU) then buffer_device buffer else device var
  | None :: buffer => buffer_device buffer
  end.

(** ** edge.h, input_metadata.h, function.h *)

(** The function an edge points to, if it is valid, and the number of its input. *)
Record Edge : Type := mkEdge { function : option ptr; input_nr : nat }.
Record InputMetadata : Type := mkMetadata { type_ : option TypeProperties; shape_ : list Z; device_ : Device.Device }.

(** What [apply] does with its inputs: it returns, throws, or calls [execute]. *)
Inductive Computation : Type :=
  | Return (outputs : list variable)
  | Raise (e : exn)
  | Execute (roots : list Edge) (inputs : list variable) (keep_graph create_graph : bool) (outputs : list Edge)
      (k : outcome (list variable) → Computation).

Record Function : Type := mkFunction {
  sequence_nr : Z;
  next_edges : list Edge;
  input_metadata : list InputMetadata;
  pre_hooks : list (list variable → outcome (list variable));
  post_hooks : list (list variable → list variable → outcome (list variable));
  apply : list variable → Computation
}.
Definition num_inputs (fn : Function) : nat := length (input_metadata fn).

(** [GraphRoot] of functions/basic_ops.h. *)
Definition GraphRoot (sequence_nr : Z) (functions : list Edge) (outputs : list variable) : Function :=
  mkFunction sequence_nr functions [] [] [] (λ _, Return outputs).

(** ** Tasks, threads and their state *)
Definition NO_DEVICE : Z := -2.

(** [base] is the name of a graph task. *)
Record FunctionTask : Type := mkTask { base : nat; fn : option ptr; inputs : InputBuffer }.

(** [Capture]: an input of a function, and its place among the captured variables. *)
Record ExecInfo : Type := mkInfo { needed : bool; captures : option (list (nat * nat)) }.
Definition should_execute (i : ExecInfo) : bool := needed i || bool_decide (is_Some (captures i)).

Record GraphTask : Type := mkGraphTask {
  exception : option exn;
  has_error : bool;
  outstanding_tasks : Z;
  keep_graph : bool;
  grad_mode : bool;
  not_ready : gmap ptr InputBuffer;
  dependencies : gmap ptr Z;
  exec_info : gmap (option ptr) ExecInfo;
  captured_vars : list variable;
  owner : Z;
  locked : bool
}.

(** Where a thread is: in [execute] before [thread_main], at the test of the loop, in [pop], before the test
    of a popped task, in [evaluate_function] before, in and after the call of the
    function, in the loop over the outputs, in [thread_on_exception], before the owner of
    the task is read, before the counter of the tasks goes down, and before others are told
    that it reached zero. *)
Inductive Phase : Type :=
  | Starting
  | AtLoop
  | InPop
  | Popped (task : FunctionTask)
  | Evaluating (task : FunctionTask)
  | Calling (task : FunctionTask) (prev_checkpoint_valid_state : bool) (inputs : list variable) (c : Computation)
  | Locking (task : FunctionTask) (outputs : list variable)
  | Delivering (task : FunctionTask) (outputs : list (nat * variable))
  | Failing (task : FunctionTask) (e : exn)
  | Finishing (task : FunctionTask)
  | Counting (task : FunctionTask) (base_owner : Z)
  | Notifying (task : FunctionTask) (base_owner : Z).
(** A call of [thread_main] with its argument. *)
Record Frame : Type := mkFrame { graph_task : option nat; phase : Phase }.
Record Thread : Type := mkThread { frames : list Frame; checkpoint_valid : bool }.

(** What others can see of the engine's work. *)
Inductive event : Type :=
  | Will_release (f : ptr)
  | Called (g : nat) (f : ptr) (grad_mode : bool) (inputs : list variable)
  | Returned (g : nat) (f : ptr) (outputs : list variable)
  | Released (f : ptr)
  | Executed (g : nat) (result : outcome (list variable)).

(** A thread outside of the pool that is in [execute]: it has the mutex of its graph task and has not looked at
    the counter yet, is blocked on [not_done], or has been woken up and wants the mutex back. *)
Inductive Waiter : Type := Holding | Asleep | Awake.
#[export] Instance Waiter_eq_dec : EqDecision Waiter.
Proof. solve_decision. Defined.

Record State : Type := mkState {
  functions : gmap ptr Function;
  graph_tasks : gmap nat GraphTask;
  next_task : nat;
  ready_queues : list (list FunctionTask);
  threads : list Thread;
  callers : gmap nat (nat * Waiter); (* a thread outside of the pool: its graph task, and where it is *)
  log : list event
}.
Definition M : Type → Type := SE State.

(** *** Members *)
Definition set_error e (G : GraphTask) :=
  mkGraphTask (Some e) true (outstanding_tasks G) (keep_graph G) (grad_mode G) (not_ready G) (dependencies G) (exec_info G)
    (captured_vars G) (owner G) (locked G).
Definition set_outstanding_tasks z (G : GraphTask) :=
  mkGraphTask (exception G) (has_error G) z (keep_graph G) (grad_mode G) (not_ready G) (dependencies G) (exec_info G)
    (captured_vars G) (owner G) (locked G).
Definition set_not_ready x (G : GraphTask) :=
  mkGraphTask (exception G) (has_error G) (outstanding_tasks G) (keep_graph G) (grad_mode G) x (dependencies G) (exec_info G)
    (captured_vars G) (owner G) (locked G).
Definition set_dependencies x (G : GraphTask) :=
  mkGraphTask (exception G) (has_error G) (outstanding_tasks G) (keep_graph G) (grad_mode G) (not_ready G) x (exec_info G)
    (captured_vars G) (owner G) (locked G).
Definition set_captured_vars x (G : GraphTask) :=
  mkGraphTask (exception G) (has_error G) (outstanding_tasks G) (keep_graph G) (grad_mode G) (not_ready G) (dependencies G)
    (exec_info G) x (owner G) (locked G).
Definition set_owner x (G : GraphTask) :=
  mkGraphTask (exception G) (has_error G) (outstanding_tasks G) (keep_graph G) (grad_mode G) (not_ready G) (dependencies G)
    (exec_info G) (captured_vars G) x (locked G).
Definition set_locked x (G : GraphTask) :=
  mkGraphTask (exception G) (has_error G) (outstanding_tasks G) (keep_graph G) (grad_mode G) (not_ready G) (dependencies G)
    (exec_info G) (captured_vars G) (owner G) x.

Definition with_functions x s := mkState x (graph_tasks s) (next_task s) (ready_queues s) (threads s) (callers s) (log s).
Definition with_graph_tasks x s := mkState (functions s) x (next_task s) (ready_queues s) (threads s) (callers s) (log s).
Definition with_next_task x s := mkState (functions s) (graph_tasks s) x (ready_queues s) (threads s) (callers s) (log s).
Definition with_ready_queues x s := mkState (functions s) (graph_tasks s) (next_task s) x (threads s) (callers s) (log s).
Definition with_threads x s := mkState (functions s) (graph_tasks s) (next_task s) (ready_queues s) x (callers s) (log s).
Definition with_callers x s := mkState (functions s) (graph_tasks s) (next_task s) (ready_queues s) (threads s) x (log s).
Definition with_log x s := mkState (functions s) (graph_tasks s) (next_task s) (ready_queues s) (threads s) (callers s) x.
Definition emit (e : event) : M unit := modify (λ s, with_log (log s ++ [e]) s).

(** A graph task is gone when [execute] has returned. *)
Definition deref_task (g : nat) : M GraphTask := λ s,
  (match graph_tasks s !! g with Some G => Ok G | None => Throw (Undefined "use of a graph task that is gone") end, s).
Definition deref_function (f : ptr) : M Function := λ s,
  (match functions s !! f with Some F => Ok F | None => Throw (Undefined "dangling function") end, s).
Definition update_task (g : nat) (h : GraphTask → GraphTask) : M unit :=
  G ← deref_task g; modify (λ s, with_graph_tasks (<[g := h G]> (graph_tasks s)) s).
(** [v[i]]. *)
Definition index {A} (l : list A) (i : nat) : outcome A :=
  match l !! i with Some x => Ok x | None => Throw (Undefined "index out of range") end.
Definition non_null {A} (p : option A) : outcome A :=
  match p with Some x => Ok x | None => Throw (Undefined "null dereference") end.

(** ** Queues *)

(** [uint64_t] and [int] counters. *)
Definition uint64 (z : Z) : Z := wrapU 64 z.
Definition int32 (z : Z) : Z := wrapS 32 z.

Definition task_sequence_nr (fs : gmap ptr Function) (t : FunctionTask) : option Z :=
  f ← fn t; F ← fs !! f; Some (sequence_nr F).
(** [CompareFunctionTaskTime]: whether [t2] comes before [t1]. *)
Definition CompareFunctionTaskTime (fs : gmap ptr Function) (t1 t2 : FunctionTask) : bool :=
  match fn t1, fn t2 with
  | None, _ => false
  | Some _, None => true
  | Some _, Some _ => (default 0 (task_sequence_nr fs t1) <? default 0 (task_sequence_nr fs t2))%Z
  end.

(** [ReadyQueue::push] on the queue with this index. *)
Definition push (q : nat) (item : FunctionTask) : M unit :=
  update_task (base item) (λ G, set_outstanding_tasks (uint64 (outstanding_tasks G + 1)) G);;
  modify (λ s, with_ready_queues (alter (λ heap, heap ++ [item]) q (ready_queues s)) s).
(** The top of the heap is a task that no other one comes before: [pick] tells which. *)
Definition top (fs : gmap ptr Function) (heap : list FunctionTask) (pick : nat) : option FunctionTask :=
  t ← heap !! pick;
  if forallb (λ t', negb (CompareFunctionTaskTime fs t t')) heap then Some t else None.

(** [ready_queue] and [ready_queue_by_index]: the index of the queue. *)
Definition ready_queue_by_index (device_index : Z) : M nat :=
  s ← get;
  let q := Z.to_nat (device_index + 1) in
  if (0 <=? device_index + 1)%Z && (q <? length (ready_queues s)) then mret q else mthrow (StdOutOfRange "vector::at").
Definition ready_queue (device : Device.Device) : M nat :=
  if decide (Device.type_ device = DeviceType.CPU) then ready_queue_by_index (-1)
  else ready_queue_by_index (Device.index_ device).

(** ** Checks *)

(** [is_compatible_type]. *)
Definition is_compatible_type (expected actual : TypeProperties) : outcome bool :=
  or_else (Ok (bool_decide (expected = actual)))
    (and_then (Ok (bool_decide (Layout.layout_from_backend (backend_ actual) = Layout.Sparse)))
      (dense ← Backend.toDense (backend_ actual); Ok (bool_decide (expected = mkType dense (scalar_type_ actual))))).

(** One iteration of the loop of [validate_outputs]. *)
Definition validate_grad (fs : gmap ptr Function) (edge : Edge) (grad : variable) : outcome variable :=
  match function edge, grad with
  | None, _ => Ok grad
  | Some f, _ =>
      F ← match fs !! f with Some F => Ok F | None => Throw (Undefined "dangling function") end;
      metadata ← index (input_metadata F) (input_nr edge);
      match grad with
      | None => Ok None
      | Some output =>
          g ← (if decide (sizes output = shape_ metadata) then Ok output
               else
                 e ← is_expandable_to (shape_ metadata) (sizes output);
                 if e : bool then sum_to output (shape_ metadata) else AT_ERROR "invalid gradient: shape");
          expected ← match type_ metadata with Some t => Ok t | None => AT_ERROR "assertion failed" end;
          c ← is_compatible_type expected (type g);
          AT_CHECK c "invalid gradient: type";;
          AT_CHECK (Device.Device_eqb (device g) (device_ metadata)) "invalid gradient: device";;
          Ok (Some g)
      end
  end.
Fixpoint validate_grads (fs : gmap ptr Function) (edges : list Edge) (grads : list variable) : outcome (list variable) :=
  match edges, grads with
  | edge :: edges, grad :: grads => g ← validate_grad fs edge grad; gs ← validate_grads fs edges grads; Ok (g :: gs)
  | _, _ => Ok []
  end.
Definition validate_outputs (fs : gmap ptr Function) (edges : list Edge) (grads : list variable) : outcome (list variable) :=
  AT_CHECK (length grads =? length edges) "invalid number of gradients";;
  validate_grads fs edges grads.

(** ** Setting up a graph task *)

(** The loop over the edges of a function in [compute_dependencies]. *)
Fixpoint count_edges (edges : list Edge) (deps : gmap ptr Z) (seen : gset ptr) (queue : list ptr) : gmap ptr Z * gset ptr * list ptr :=
  match edges with
  | [] => (deps, seen, queue)
  | edge :: edges =>
      match function edge with
      | None => count_edges edges deps seen queue
      | Some next_ptr =>
          let deps := <[next_ptr := int32 (default 0%Z (deps !! next_ptr) + 1)]> deps in
          if decide (next_ptr ∈ seen) then count_edges edges deps seen queue
          else count_edges edges deps ({[next_ptr]} ∪ seen) (next_ptr :: queue)
      end
  end.
(** The loop of [compute_dependencies], with the back of the queue first. *)
Fixpoint compute_dependencies_loop (fuel : nat) (fs : gmap ptr Function) (deps : gmap ptr Z) (seen : gset ptr) (queue : list ptr) : outcome (gmap ptr Z) :=
  match queue with
  | [] => Ok deps
  | f :: queue =>
      match fuel with
      | O => Throw (Undefined "out of fuel")
      | S fuel =>
          match fs !! f with
          | None => Throw (Undefined "dangling function")
          | Some F =>
              let '(deps, seen, queue) := count_edges (next_edges F) deps seen queue in
              compute_dependencies_loop fuel fs deps seen queue
          end
      end
  end.
Definition compute_dependencies (root : ptr) (fs : gmap ptr Function) : outcome (gmap ptr Z) :=
  compute_dependencies_loop (S (size fs)) fs ∅ ∅ [root].

Definition info_of (info : gmap (option ptr) ExecInfo) (f : option ptr) : ExecInfo := default (mkInfo false None) (info !! f).
(** The captures: the loop over the outputs from number [output_idx] on. *)
Fixpoint add_captures (outputs : list Edge) (output_idx : nat) (info : gmap (option ptr) ExecInfo) : gmap (option ptr) ExecInfo :=
  match outputs with
  | [] => info
  | output_edge :: outputs =>
      let i := info_of info (function output_edge) in
      add_captures outputs (S output_idx)
        (<[function output_edge := mkInfo (needed i) (Some (default [] (captures i) ++ [(input_nr output_edge, output_idx)]))]> info)
  end.
(** [Frame::get_next_fn], on the edges that are left. *)
Fixpoint get_next_fn (next : list Edge) : option (ptr * list Edge) :=
  match next with
  | [] => None
  | edge :: next => match function edge with Some f => Some (f, next) | None => get_next_fn next end
  end.
Definition any_executed (edges : list Edge) (info : gmap (option ptr) ExecInfo) : bool :=
  existsb (λ edge, match info !! function edge with Some i => should_execute i | None => false end) edges.
(** The inner loop; a frame is a function and the edges it has not looked at. *)
Fixpoint needed_loop (fuel : nat) (fs : gmap ptr Function) (stack : list (ptr * list Edge)) (seen : gset ptr)
    (info : gmap (option ptr) ExecInfo) : outcome (gset ptr * gmap (option ptr) ExecInfo) :=
  match stack with
  | [] => Ok (seen, info)
  | (f, next) :: stack =>
      match fuel with
      | O => Throw (Undefined "out of fuel")
      | S fuel =>
          match get_next_fn next with
          | Some (next_fn, next) =>
              if decide (next_fn ∈ seen) then needed_loop fuel fs ((f, next) :: stack) seen info
              else
                match fs !! next_fn with
                | None => Throw (Undefined "dangling function")
                | Some N => needed_loop fuel fs ((next_fn, next_edges N) :: (f, next) :: stack) ({[next_fn]} ∪ seen) info
                end
          | None =>
              match fs !! f with
              | None => Throw (Undefined "dangling function")
              | Some F =>
                  needed_loop fuel fs stack seen
                    (<[Some f := mkInfo (any_executed (next_edges F) info) (captures (info_of info (Some f)))]> info)
              end
          end
      end
  end.
(** One step looks at an edge or finishes a function. *)
Definition needed_fuel (fs : gmap ptr Function) : nat :=
  S (2 * sum_list ((λ f, S (match fs !! f with Some F => length (next_edges F) | None => 0 end)) <$> elements (dom fs))).
(** The outer loop, over the edges of the root. *)
Fixpoint needed_roots (fs : gmap ptr Function) (inputs : list Edge) (seen : gset ptr) (info : gmap (option ptr) ExecInfo) :
    outcome (gmap (option ptr) ExecInfo) :=
  match inputs with
  | [] => Ok info
  | input :: inputs =>
      match function input with
      | None => Throw (Undefined "null dereference")
      | Some f =>
          if decide (f ∈ seen) then needed_roots fs inputs seen info
          else
            match fs !! f with
            | None => Throw (Undefined "dangling function")
            | Some F => r ← needed_loop (needed_fuel fs) fs [(f, next_edges F)] seen info; needed_roots fs inputs r.1 r.2
            end
      end
  end.
Definition init_to_execute (fs : gmap ptr Function) (graph_root : ptr) (roots outputs : list Edge) : outcome (gmap (option ptr) ExecInfo) :=
  needed_roots fs roots ∅ (add_captures outputs 0 {[Some graph_root := mkInfo true None]}).

(** [execute] up to the wait for the result: the task it makes is locked. *)
Definition execute_setup (number : Z) (roots : list Edge) (inputs : list variable) (keep_graph create_graph : bool) (outputs : list Edge) : M nat :=
  s ← get;
  inputs ← lift (validate_outputs (functions s) roots inputs);
  let graph_root := fresh (dom (functions s)) in
  modify (λ s, with_functions (<[graph_root := GraphRoot number roots inputs]> (functions s)) s);;
  s ← get;
  deps ← lift (compute_dependencies graph_root (functions s));
  info ← lift (match outputs with [] => Ok ∅ | _ => init_to_execute (functions s) graph_root roots outputs end);
  let g := next_task s in
  modify (λ s, with_next_task (S g) (with_graph_tasks (<[g := mkGraphTask None false 0 keep_graph create_graph ∅ deps info
    (replicate (length outputs) None) NO_DEVICE true]> (graph_tasks s)) s));;
  q ← ready_queue kCPU;
  push q (mkTask g (Some graph_root) []);;
  mret g.

(** The end of [execute]: the task is gone. *)
Definition execute_result (G : GraphTask) : outcome (list variable) :=
  if has_error G then match exception G with Some e => Throw e | None => Throw (Undefined "rethrow of no exception") end
  else if decide (not_ready G = ∅) then Ok (captured_vars G)
  else Throw (RuntimeError "could not compute gradients for some functions").
Definition execute_return (g : nat) : M (outcome (list variable)) :=
  G ← deref_task g;
  modify (λ s, with_graph_tasks (delete g (graph_tasks s)) s);;
  emit (Executed g (execute_result G));;
  mret (execute_result G).

(** ** Evaluating a function *)
Definition call_pre_hooks (F : Function) (inputs : list variable) : outcome (list variable) :=
  foldl (λ r hook, inputs ← r; hook inputs) (Ok inputs) (pre_hooks F).
Definition call_post_hooks (F : Function) (outputs inputs : list variable) : outcome (list variable) :=
  foldl (λ r hook, outputs ← r; hook outputs inputs) (Ok outputs) (post_hooks F).

(** The loop over the captures. *)
Definition capture_one (g : nat) (inputs : InputBuffer) (c : nat * nat) : M unit :=
  v ← lift (index inputs c.1);
  G ← deref_task g;
  lift (index (captured_vars G) c.2);;
  update_task g (λ G, set_captured_vars (<[c.2 := v]> (captured_vars G)) G).

(** One iteration of the last loop of [evaluate_function], for output [i]. *)
Definition deliver (g : nat) (f : ptr) (i : nat) (output : variable) : M unit :=
  F ← deref_function f;
  next ← lift (index (next_edges F) i);
  match function next with
  | None => mret tt
  | Some n =>
      N ← deref_function n;
      G ← deref_task g;
      d ← (match dependencies G !! n with Some d => mret d | None => mthrow (RuntimeError "dependency not found") end);
      let d := int32 (d - 1) in
      let is_ready := (d =? 0)%Z in
      update_task g (set_dependencies (if is_ready then delete n (dependencies G) else <[n := d]> (dependencies G)));;
      match not_ready G !! n with
      | None =>
          if bool_decide (exec_info G = ∅) || match exec_info G !! Some n with Some i => should_execute i | None => false end then
            input_buffer ← lift (buffer_add (input_nr next) output (replicate (num_inputs N) None));
            if is_ready then q ← ready_queue (buffer_device input_buffer); push q (mkTask g (Some n) input_buffer)
            else update_task g (λ G, set_not_ready (<[n := input_buffer]> (not_ready G)) G)
          else mret tt
      | Some input_buffer =>
          input_buffer ← lift (buffer_add (input_nr next) output input_buffer);
          update_task g (λ G, set_not_ready (<[n := input_buffer]> (not_ready G)) G);;
          if is_ready then
            q ← ready_queue (buffer_device input_buffer);
            push q (mkTask g (Some n) input_buffer);;
            update_task g (λ G, set_not_ready (delete n (not_ready G)) G)
          else mret tt
      end
  end.

(** ** The threads *)

(** [catch (std::exception& e)]: what is no exception goes on. *)
Definition fatal (e : exn) : bool := match e with Undefined _ | Terminate _ => true | _ => false end.
Definition try_ {A} (m : M A) : M (outcome A) := λ s,
  match m s with
  | (Ok a, s') => (Ok (Ok a), s')
  | (Throw e, s') => (if fatal e then Throw e else Ok (Throw e), s')
  end.

Definition set_frames (w : nat) (checkpoint : bool) (fr : list Frame) : M unit :=
  modify (λ s, with_threads (<[w := mkThread fr checkpoint]> (threads s)) s).
Definition worker_device (w : nat) : Z := Z.of_nat w - 1.

(** The part of [evaluate_function] before the call: whether the function is needed. *)
Definition instrument (t : FunctionTask) (f : ptr) : M bool :=
  G ← deref_task (base t);
  if decide (exec_info G = ∅) then mret true
  else
    fn_info ← (match exec_info G !! Some f with Some i => mret i | None => mthrow (StdOutOfRange "unordered_map::at") end);
    foreach (default [] (captures fn_info)) (capture_one (base t) (inputs t));;
    mret (needed fn_info).

Section thread.
Context (w : nat) (checkpoint : bool) (gt : option nat) (rest : list Frame).
Definition goto (p : Phase) : M unit := set_frames w checkpoint (mkFrame gt p :: rest).
Definition goto_with (checkpoint : bool) (p : Phase) : M unit := set_frames w checkpoint (mkFrame gt p :: rest).

(** The loop condition; when the task of this call is done, [execute] returns to the
    function that called it. *)
Definition at_loop : M unit :=
  match gt with
  | None => goto InPop
  | Some g =>
      G ← deref_task g;
      if (0 <? outstanding_tasks G)%Z then goto InPop
      else
        r ← execute_return g;
        match rest with
        | mkFrame gt' (Calling t prev ins (Execute _ _ _ _ _ k)) :: rest => set_frames w checkpoint (mkFrame gt' (Calling t prev ins (k r)) :: rest)
        | _ => mthrow (Undefined "no caller")
        end
  end.

Definition popped (t : FunctionTask) : M unit :=
  match fn t with
  | None => goto (Finishing t)
  | Some _ => G ← deref_task (base t); goto (if has_error G then Finishing t else Evaluating t)
  end.

(** [evaluate_function] up to the call: [call_function] sets [checkpoint_valid], and an
    exception leaves it so. *)
Definition evaluate (t : FunctionTask) : M unit :=
  f ← lift (non_null (fn t));
  r ← try_ (instrument t f);
  match r with
  | Throw e => goto (Failing t e)
  | Ok false => goto (Finishing t)
  | Ok true =>
      G ← deref_task (base t);
      F ← deref_function f;
      let valid := bool_decide (exec_info G = ∅) && checkpoint in
      i ← try_ (lift (call_pre_hooks F (inputs t)));
      match i with
      | Throw e => goto_with valid (Failing t e)
      | Ok ins =>
          (if keep_graph G then mret tt else emit (Will_release f));;
          emit (Called (base t) f (grad_mode G) ins);;
          goto_with valid (Calling t checkpoint ins (apply F ins))
      end
  end.

(** The call goes on; after it [call_function] and [evaluate_function] up to the lock. *)
Definition calling (number : Z) (t : FunctionTask) (prev : bool) (ins : list variable) (c : Computation) : M unit :=
  f ← lift (non_null (fn t));
  match c with
  | Raise e => if fatal e then mthrow e else goto (Failing t e)
  | Execute roots inputs keep_graph create_graph outputs k =>
      r ← try_ (execute_setup number roots inputs keep_graph create_graph outputs);
      match r with
      | Throw e => goto (Calling t prev ins (k (Throw e)))
      | Ok g => set_frames w checkpoint (mkFrame (Some g) Starting :: mkFrame gt (Calling t prev ins c) :: rest)
      end
  | Return outputs =>
      F ← deref_function f;
      G ← deref_task (base t);
      s ← get;
      v ← try_ (lift (validate_outputs (functions s) (next_edges F) outputs));
      match v with
      | Throw e => goto (Failing t e)
      | Ok outputs =>
          h ← try_ (lift (call_post_hooks F outputs ins));
          match h with
          | Throw e => goto_with prev (Failing t e)
          | Ok outputs =>
              emit (Returned (base t) f outputs);;
              (if keep_graph G then mret tt else emit (Released f));;
              if decide (length outputs = 0) then goto_with prev (Finishing t)
              else if anomaly_mode && existsb (λ o, match o with Some x => has_nan x | None => false end) outputs
                   then goto_with prev (Failing t (RuntimeError "returned nan values"))
              else goto_with prev (Locking t outputs)
          end
      end
  end.

Definition delivering (t : FunctionTask) (outputs : list (nat * variable)) : M unit :=
  match outputs with
  | [] => update_task (base t) (set_locked false);; goto (Finishing t)
  | (i, output) :: outputs =>
      f ← lift (non_null (fn t));
      r ← try_ (deliver (base t) f i output);
      match r with
      | Ok _ => goto (Delivering t outputs)
      | Throw e => update_task (base t) (set_locked false);; goto (Failing t e)
      end
  end.

(** [thread_on_exception]. *)
Definition failing (t : FunctionTask) (e : exn) : M unit :=
  G ← deref_task (base t);
  (if has_error G then mret tt else update_task (base t) (set_error e));;
  goto (Finishing t).

Definition finishing (t : FunctionTask) : M unit := G ← deref_task (base t); goto (Counting t (owner G)).
Definition counting (t : FunctionTask) (base_owner : Z) : M unit :=
  G ← deref_task (base t);
  let z := uint64 (outstanding_tasks G - 1) in
  update_task (base t) (set_outstanding_tasks z);;
  goto (if decide (base_owner ≠ NO_DEVICE ∧ base_owner = worker_device w) then AtLoop
        else if (z =? 0)%Z then Notifying t base_owner else AtLoop).

(** [not_done.notify_all()] wakes up who is blocked on the condition variable of this task, and nobody else. *)
Definition notify_all (g : nat) (waiters : gmap nat (nat * Waiter)) : gmap nat (nat * Waiter) :=
  (λ c, if decide (c = (g, Asleep)) then (g, Awake) else c) <$> waiters.
(** Either the waiting thread is notified, under the mutex of the task, or the worker that
    owns the task gets a task without a function. *)
Definition notifying (t : FunctionTask) (base_owner : Z) : M unit :=
  (if decide (base_owner = NO_DEVICE) then deref_task (base t);; modify (λ s, with_callers (notify_all (base t) (callers s)) s)
   else q ← ready_queue_by_index base_owner; push q (mkTask (base t) None []));;
  goto AtLoop.
End thread.

Definition is_locked (s : State) (g : nat) : bool := match graph_tasks s !! g with Some G => locked G | None => false end.
(** Whether [evaluate_function] of this task takes the mutex for captures. *)
Definition captures_of (s : State) (t : FunctionTask) : bool :=
  match graph_tasks s !! base t with Some G => bool_decide (is_Some (i ← exec_info G !! fn t; captures i)) | None => false end.

(** The next step of a worker, if it is not blocked. *)
Definition thread_step (w pick : nat) (number : Z) (s : State) : option (M unit) :=
  th ← threads s !! w;
  match frames th with
  | [] => None
  | mkFrame gt p :: rest =>
      let c := checkpoint_valid th in
      match p with
      | Starting =>
          match gt with
          | Some g => Some (update_task g (λ G, set_locked false (set_owner (worker_device w) G));; goto w c gt rest AtLoop)
          | None => None
          end
      | AtLoop => Some (at_loop w c gt rest)
      | InPop =>
          heap ← ready_queues s !! w;
          t ← top (functions s) heap pick;
          Some (modify (λ s, with_ready_queues (<[w := delete pick heap]> (ready_queues s)) s);; goto w c gt rest (Popped t))
      | Popped t => Some (popped w c gt rest t)
      | Evaluating t => if captures_of s t && is_locked s (base t) then None else Some (evaluate w c gt rest t)
      | Calling t prev ins cp => Some (calling w c gt rest number t prev ins cp)
      | Locking t outputs =>
          if is_locked s (base t) then None
          else Some (update_task (base t) (set_locked true);; goto w c gt rest (Delivering t (imap pair outputs)))
      | Delivering t outputs => Some (delivering w c gt rest t outputs)
      | Failing t e => if is_locked s (base t) then None else Some (failing w c gt rest t e)
      | Finishing t => Some (finishing w c gt rest t)
      | Counting t o => Some (counting w c gt rest t o)
      | Notifying t o => if bool_decide (o = NO_DEVICE) && is_locked s (base t) then None else Some (notifying w c gt rest t o)
      end
  end.

(** A thread outside of the pool calls [execute], waits, and gets the result.  [Spurious] is a wake-up
    that nobody asked for, which a condition variable may have at any time. *)
Inductive label : Type :=
  | Work (w pick : nat) (number : Z)
  | Call (u : nat) (number : Z) (roots : list Edge) (inputs : list variable) (keep_graph create_graph : bool) (outputs : list Edge)
  | Wait (u : nat)
  | Wake (u : nat)
  | Spurious (u : nat).

Definition call (u : nat) (number : Z) (roots : list Edge) (inputs : list variable) (keep_graph create_graph : bool) (outputs : list Edge) : M unit :=
  r ← try_ (execute_setup number roots inputs keep_graph create_graph outputs);
  match r with
  | Ok g => modify (λ s, with_callers (<[u := (g, Holding)]> (callers s)) s)
  | Throw e => mret tt
  end.

(** [not_done.wait(lock, ...)]: the caller has the mutex and looks at the counter.  It goes on to the end of
    [execute] when no task is left; otherwise it gives the mutex up and blocks, in one step. *)
Definition wait (u g : nat) : M unit :=
  G ← deref_task g;
  if (outstanding_tasks G =? 0)%Z then execute_return g;; modify (λ s, with_callers (delete u (callers s)) s)
  else update_task g (set_locked false);; modify (λ s, with_callers (<[u := (g, Asleep)]> (callers s)) s).

Definition step (l : label) (s : State) : option (M unit) :=
  match l with
  | Work w pick number => thread_step w pick number s
  | Call u number roots inputs keep create outputs =>
      match callers s !! u with None => Some (call u number roots inputs keep create outputs) | Some _ => None end
  | Wait u => match callers s !! u with Some (g, Holding) => Some (wait u g) | _ => None end
  | Wake u => match callers s !! u with Some (g, Awake) => if is_locked s g then None else Some (wait u g) | _ => None end
  | Spurious u =>
      match callers s !! u with
      | Some (g, Asleep) => Some (modify (λ s, with_callers (<[u := (g, Awake)]> (callers s)) s))
      | _ => None
      end
  end.

(** [start_threads]: a queue and a thread for the CPU and for each device. *)
Definition start_threads (fs : gmap ptr Function) (num_devices : nat) : State :=
  mkState fs ∅ 0 (replicate (S num_devices) []) (replicate (S num_devices) (mkThread [mkFrame None AtLoop] true)) ∅ [].

(** Steps, and the states they reach. *)
Definition steps_to (l : label) (s s' : State) : Prop := ∃ m, step l s = Some m ∧ m s = (Ok tt, s').
Inductive reachable (fs : gmap ptr Function) (num_devices : nat) : State → Prop :=
  | reachable_start : reachable fs num_devices (start_threads fs num_devices)
  | reachable_step l s s' : reachable fs num_devices s → steps_to l s s' → reachable fs num_devices s'.
End engine.
End Engine.
