(* ===== verification/EngineGraph.v ===== *)
(** * The functions of a backward pass

    Edges by their source and number, the functions a root reaches, the edges into a
    function; and what [compute_dependencies] counts.

    [init_to_execute] marks, by a depth-first search written as a loop, the functions from
    which a path leads to one of the outputs. *)
From S2P Require Import Prelude CoreTypes AutogradEngine.
Local Open Scope nat_scope.
Local Open Scope list_scope.
#[local] Set Warnings "-clear-no-such-hyp".
Import Engine.

Section graph.
Context {T : Type}.
Implicit Types (fs : gmap ptr (Function (T:=T))) (f n h : ptr) (k : ptr * nat).

(** Output [k.2] of function [k.1] goes to an input of a function. *)
Definition target fs k : option (ptr * nat) :=
  F ← fs !! k.1; e ← next_edges F !! k.2; f ← function e; Some (f, input_nr e).
Definition linked fs h n : Prop := ∃ i p, target fs (h, i) = Some (n, p).

(** The edges of one function, of a list of functions, and those into [n]. *)
Definition edges_of fs h : list (ptr * nat) := (λ i, (h, i)) <$> seq 0 (match fs !! h with Some F => length (next_edges F) | None => 0 end).
Definition edges_from fs (hs : list ptr) : list (ptr * nat) := hs ≫= edges_of fs.
Definition goes_to fs n k : bool := match target fs k with Some t => bool_decide (t.1 = n) | None => false end.
Definition edges_into fs (hs : list ptr) n : list (ptr * nat) := List.filter (goes_to fs n) (edges_from fs hs).
Definition indegree fs (hs : list ptr) n : nat := length (edges_into fs hs n).

Lemma target_Some fs h i n p : target fs (h, i) = Some (n, p) ↔
  ∃ F e, fs !! h = Some F ∧ next_edges F !! i = Some e ∧ function e = Some n ∧ input_nr e = p.
Proof.
  unfold target. cbn. split.
  - intros (F & HF & (e & He & (f & Hf & [= -> <-])%bind_Some)%bind_Some)%bind_Some. eauto 10.
  - intros (F & e & -> & He & Hf & <-). cbn. rewrite He. cbn. by rewrite Hf.
Qed.

Lemma elem_of_edges_of fs h k : k ∈ edges_of fs h ↔ k.1 = h ∧ ∃ F, fs !! h = Some F ∧ k.2 < length (next_edges F).
Proof.
  unfold edges_of. rewrite list_elem_of_fmap. split.
  - intros (i & -> & Hi%elem_of_seq). split; [done|]. destruct (fs !! h) as [F|]; [exists F; split; [done|cbn in *; lia]|cbn in *; lia].
  - destruct k as [h' i]. cbn. intros (-> & F & -> & Hi). exists i. split; [done|]. apply elem_of_seq. lia.
Qed.
Lemma elem_of_edges_from fs hs k : k ∈ edges_from fs hs ↔ k.1 ∈ hs ∧ ∃ F, fs !! k.1 = Some F ∧ k.2 < length (next_edges F).
Proof.
  unfold edges_from. rewrite list_elem_of_bind. split.
  - intros (h & [-> Hk]%elem_of_edges_of & Hh). done.
  - intros [Hk HF]. exists k.1. split; [|done]. by apply elem_of_edges_of.
Qed.
Lemma elem_of_edges_into fs hs n k : k ∈ edges_into fs hs n ↔ k.1 ∈ hs ∧ ∃ p, target fs k = Some (n, p).
Proof.
  unfold edges_into. rewrite list_elem_of_In, filter_In, <- list_elem_of_In, elem_of_edges_from. unfold goes_to. split.
  - intros [[Hk _] Ht]. split; [done|]. destruct (target fs k) as [[m p]|]; [|done]. apply bool_decide_eq_true in Ht as <-. eauto.
  - intros [Hk [p Ht]]. rewrite Ht. cbn. rewrite bool_decide_eq_true. split; [|done]. split; [done|].
    destruct k as [h i]. apply target_Some in Ht as (F & e & HF & He & _). exists F. split; [done|]. by eapply lookup_lt_Some.
Qed.
Lemma NoDup_edges_from fs hs : NoDup hs → NoDup (edges_from fs hs).
Proof.
  induction 1 as [|h hs Hh Hnd IH]; [constructor|]. unfold edges_from in *. cbn. apply list.NoDup_app. split_and!; [|  |done].
  - unfold edges_of. apply NoDup_fmap_2; [by intros ?? [=]|apply NoDup_seq].
  - intros k [Hk _]%elem_of_edges_of (h' & [Hk' _]%elem_of_edges_of & Hh')%list_elem_of_bind. congruence.
Qed.
Lemma NoDup_edges_into fs hs n : NoDup hs → NoDup (edges_into fs hs n).
Proof. intros H. apply NoDup_ListNoDup, List.NoDup_filter, NoDup_ListNoDup, NoDup_edges_from, H. Qed.

Lemma linked_in fs hs h n : h ∈ hs → linked fs h n → indegree fs hs n ≠ 0.
Proof.
  intros Hh (i & p & Ht) H0. unfold indegree in H0. apply nil_length_inv in H0.
  assert ((h, i) ∈ edges_into fs hs n) as Hk by (apply elem_of_edges_into; split; [done|by exists p]). rewrite H0 in Hk. by apply elem_of_nil in Hk.
Qed.

(** Fewer functions have fewer edges. *)
Lemma bfilter_perm {A} (q : A → bool) l l' : l ≡ₚ l' → List.filter q l ≡ₚ List.filter q l'.
Proof.
  induction 1 as [|x l l' _ IH|x y l|l l' l'' _ IH1 _ IH2]; cbn; [done| | |by transitivity (List.filter q l')].
  - destruct (q x); by rewrite IH.
  - destruct (q x), (q y); try done. constructor.
Qed.
Lemma edges_from_perm fs hs hs' : hs ≡ₚ hs' → edges_from fs hs ≡ₚ edges_from fs hs'.
Proof. intros H. unfold edges_from. by rewrite H. Qed.
Lemma indegree_perm fs hs hs' n : hs ≡ₚ hs' → indegree fs hs n = indegree fs hs' n.
Proof. intros H. unfold indegree, edges_into. apply Permutation_length, bfilter_perm, edges_from_perm, H. Qed.

Definition total_edges fs : nat := length (edges_from fs (elements (dom fs))).
Lemma edges_from_bound fs hs : NoDup hs → (∀ h, h ∈ hs → is_Some (fs !! h)) → length (edges_from fs hs) ≤ total_edges fs.
Proof.
  intros Hnd Hd. apply submseteq_length. apply NoDup_submseteq; [by apply NoDup_edges_from|].
  intros k [Hk HF]%elem_of_edges_from. apply elem_of_edges_from. split; [|done]. apply elem_of_elements, elem_of_dom. auto.
Qed.
Lemma indegree_bound fs hs n : NoDup hs → (∀ h, h ∈ hs → is_Some (fs !! h)) → indegree fs hs n ≤ total_edges fs.
Proof.
  intros Hnd Hd. transitivity (length (edges_from fs hs)); [|by apply edges_from_bound]. unfold indegree, edges_into. apply List.filter_length_le.
Qed.

(** ** [compute_dependencies] *)
Definition targets (edges : list Edge) : list ptr := omap function edges.
Definition occ n (ts : list ptr) : nat := length (List.filter (λ m, bool_decide (m = n)) ts).

Lemma filter_seq {A} (q : option A → bool) (l : list A) j :
  length (List.filter (λ i, q (l !! (i - j))) (seq j (length l))) = length (List.filter (λ x, q (Some x)) l).
Proof.
  revert j. induction l as [|x l IH]; intros j; [done|]. cbn [length seq List.filter]. rewrite Nat.sub_diag. cbn [lookup list_lookup].
  rewrite (filter_ext_in (λ i, q ((x :: l) !! (i - j))) (λ i, q (l !! (i - S j)))).
  - destruct (q (Some x)); cbn [length]; by rewrite IH.
  - intros i [Hi _]%in_seq. replace (i - j) with (S (i - S j)) by lia. done.
Qed.
Lemma occ_targets n edges : occ n (targets edges) = length (List.filter (λ e : Edge, bool_decide (function e = Some n)) edges).
Proof.
  unfold occ, targets. induction edges as [|e edges IH]; [done|]. cbn. destruct (function e) as [m|] eqn:Hm; cbn.
  - destruct (decide (m = n)) as [->|Hne]; [rewrite !bool_decide_eq_true_2 by done; cbn; by rewrite IH|].
    rewrite !bool_decide_eq_false_2 by congruence. done.
  - rewrite bool_decide_eq_false_2 by done. done.
Qed.
Lemma occ_edges fs h F n : fs !! h = Some F → length (List.filter (goes_to fs n) (edges_of fs h)) = occ n (targets (next_edges F)).
Proof.
  intros HF. rewrite occ_targets. unfold edges_of. rewrite HF.
  rewrite <- (filter_seq (λ o, match o with Some e => bool_decide (function e = Some n) | None => false end) _ 0).
  induction (seq 0 (length (next_edges F))) as [|i l IH]; [done|]. cbn [fmap list_fmap List.filter]. rewrite Nat.sub_0_r.
  assert (goes_to fs n (h, i) = match next_edges F !! i with Some e => bool_decide (function e = Some n) | None => false end) as ->.
  { unfold goes_to, target. cbn. rewrite HF. cbn. destruct (next_edges F !! i) as [e|]; [|done]. cbn. destruct (function e) as [m|]; [|done]. cbn.
    apply bool_decide_ext. naive_solver. }
  destruct (match next_edges F !! i with Some e => _ | None => _ end); cbn [length]; by rewrite IH.
Qed.
Lemma indegree_snoc fs hs h F n : fs !! h = Some F → indegree fs (hs ++ [h]) n = indegree fs hs n + occ n (targets (next_edges F)).
Proof.
  intros HF. unfold indegree, edges_into, edges_from. rewrite bind_app, List.filter_app, length_app. f_equal. cbn [mbind list_bind]. rewrite app_nil_r.
  by apply occ_edges.
Qed.
Lemma linked_targets fs h F n : fs !! h = Some F → linked fs h n ↔ n ∈ targets (next_edges F).
Proof.
  intros HF. unfold targets. rewrite list_elem_of_omap. split.
  - intros (i & p & (F' & e & HF' & He & Hf & _)%target_Some). assert (F' = F) as -> by congruence. exists e. split; [|done]. by eapply list_elem_of_lookup_2.
  - intros (e & [i He]%list_elem_of_lookup & Hf). exists i, (input_nr e). apply target_Some. eauto 10.
Qed.

Lemma occ_positive n ts : 0 < occ n ts ↔ n ∈ ts.
Proof.
  unfold occ. induction ts as [|m ts IH]; [cbn; split; [lia|by intros ?%elem_of_nil]|]. cbn. rewrite elem_of_cons.
  destruct (decide (m = n)) as [->|Hne]; [rewrite bool_decide_eq_true_2 by done; cbn; split; [by left|lia]|].
  rewrite bool_decide_eq_false_2 by done. rewrite IH. split; [by right|intros [->|?]; done].
Qed.

(** A count as an entry of the map: nothing for zero. *)
Definition entry (c : nat) : option Z := if decide (c = 0) then None else Some (Z.of_nat c).

Lemma count_edges_spec edges deps seen queue (c : ptr → nat) :
  (∀ n, deps !! n = entry (c n)) → (∀ n, Z.of_nat (c n + occ n (targets edges)) < 2 ^ 31)%Z →
  ∃ deps' new, count_edges edges deps seen queue = (deps', list_to_set (targets edges) ∪ seen, new ++ queue) ∧
    (∀ n, deps' !! n = entry (c n + occ n (targets edges))) ∧ NoDup new ∧ ∀ n, n ∈ new ↔ n ∈ targets edges ∧ n ∉ seen.
Proof.
  revert deps seen queue c. induction edges as [|e edges IH]; intros deps seen queue c Hd Hb.
  { exists deps, []. split_and!; [|intros n; by rewrite Nat.add_0_r|constructor|set_solver]. cbn. by rewrite (left_id_L ∅ (∪)). }
  unfold targets in *. cbn [count_edges omap list_omap] in *. destruct (function e) as [m|]; [|by apply IH].
  set (c' := λ n, c n + (if decide (n = m) then 1 else 0)).
  assert (Hcc : ∀ n, c n + occ n (m :: omap function edges) = c' n + occ n (omap function edges)).
  { intros n. unfold c', occ. cbn. case_decide as Hn; [subst n; rewrite bool_decide_eq_true_2 by done; cbn; lia|]. rewrite bool_decide_eq_false_2 by done. lia. }
  set (deps1 := <[m := int32 (default 0%Z (deps !! m) + 1)]> deps).
  assert (Hd1 : ∀ n, deps1 !! n = entry (c' n)).
  { intros n. unfold deps1, c'. destruct (decide (n = m)) as [->|Hne]; [|rewrite lookup_insert_ne by done; rewrite Nat.add_0_r; apply Hd].
    rewrite lookup_insert_eq. specialize (Hb m). rewrite Hcc in Hb. unfold c' in Hb. rewrite decide_True in Hb by done.
    assert (default 0%Z (deps !! m) = Z.of_nat (c m)) as -> by (rewrite Hd; unfold entry; case_decide as E; [rewrite E|]; done).
    unfold entry. rewrite decide_False by lia. f_equal. unfold int32. rewrite wrapS_id; [lia|done|unfold in_S; lia]. }
  destruct (IH deps1 (if decide (m ∈ seen) then seen else {[m]} ∪ seen) (if decide (m ∈ seen) then queue else m :: queue) c' Hd1) as (deps' & new & E & Hd' & Hnd & Hnew).
  { intros n. by rewrite <- Hcc. }
  exists deps', (if decide (m ∈ seen) then new else new ++ [m]). fold deps1. split_and!.
  - assert (list_to_set (m :: omap function edges) ∪ seen =@{gset ptr} list_to_set (omap function edges) ∪ (if decide (m ∈ seen) then seen else {[m]} ∪ seen)) as ->
      by (cbn; case_decide; set_solver).
    case_decide; rewrite E; [done|by rewrite <- app_assoc].
  - intros n. by rewrite Hcc.
  - case_decide; [done|]. apply list.NoDup_app. split_and!; [done| |apply NoDup_singleton]. intros n Hn. rewrite Hnew in Hn. set_solver.
  - intros n. destruct (decide (m ∈ seen)) as [Hm|Hm]; [rewrite Hnew, elem_of_cons; naive_solver|].
    rewrite elem_of_app, Hnew, !elem_of_cons, not_elem_of_union, elem_of_singleton, elem_of_nil.
    destruct (decide (n = m)) as [->|]; naive_solver.
Qed.

(** What the loop knows: [P] are the functions it has looked at. *)
Section dependencies.
Context (fs : gmap ptr (Function (T:=T))) (root : ptr).
Context (Hroot : ∀ h, ¬ linked fs h root) (Hbound : (Z.of_nat (total_edges fs) < 2 ^ 31)%Z).

Record counted (P queue : list ptr) (seen : gset ptr) (deps : gmap ptr Z) : Prop := {
  counted_once : NoDup (P ++ queue);
  counted_seen x : x ∈ P ++ queue ↔ x = root ∨ x ∈ seen;
  seen_linked n : n ∈ seen ↔ ∃ h, h ∈ P ∧ linked fs h n;
  counted_live h : h ∈ P → is_Some (fs !! h);
  counted_deps n : deps !! n = entry (indegree fs P n);
  counted_reached x : x ∈ P ++ queue → rtc (linked fs) root x
}.

Lemma counted_step P f queue seen deps F :
  counted P (f :: queue) seen deps → fs !! f = Some F →
  ∃ deps' new, count_edges (next_edges F) deps seen queue = (deps', list_to_set (targets (next_edges F)) ∪ seen, new ++ queue) ∧
    counted (P ++ [f]) (new ++ queue) (list_to_set (targets (next_edges F)) ∪ seen) deps'.
Proof.
  intros I HF. pose proof (counted_once _ _ _ _ I) as Hall. apply list.NoDup_app in Hall as (HP & HPq & Hall). apply list.NoDup_cons in Hall as [Hf Hq].
  assert (HPf : NoDup (P ++ [f])).
  { apply list.NoDup_app. split_and!; [done| |apply NoDup_singleton]. intros x Hx ->%list_elem_of_singleton. apply (HPq f Hx). by left. }
  assert (Hlive : ∀ h, h ∈ P ++ [f] → is_Some (fs !! h)).
  { intros h [Hh| ->%list_elem_of_singleton]%elem_of_app; [by eapply counted_live|eauto]. }
  destruct (count_edges_spec (next_edges F) deps seen queue (indegree fs P)) as (deps' & new & E & Hd & Hnd & Hnew).
  { apply I. }
  { intros n. rewrite <- (indegree_snoc fs P f F n HF). pose proof (indegree_bound fs (P ++ [f]) n HPf Hlive). lia. }
  exists deps', new. split; [done|]. assert (Hns : ∀ x, x ∈ new → x ≠ root ∧ x ∉ seen).
  { intros x [Hx Hs]%Hnew. split; [|done]. intros ->. apply (Hroot f). by apply (linked_targets _ _ F). }
  split.
  - rewrite <- app_assoc. cbn. apply list.NoDup_app. split_and!; [done| |].
    + intros x Hx [->|[Hn|Hx']%elem_of_app]%elem_of_cons; [apply (HPq f Hx); by left| |apply (HPq x Hx); by right].
      destruct (Hns x Hn) as [H1 H2]. assert (x = root ∨ x ∈ seen) by (apply (counted_seen _ _ _ _ I), elem_of_app; by left). tauto.
    + constructor; [|apply list.NoDup_app; split_and!; [done| |done]].
      * intros [Hn|Hx]%elem_of_app; [|done]. destruct (Hns f Hn) as [H1 H2].
        assert (f = root ∨ f ∈ seen) by (apply (counted_seen _ _ _ _ I), elem_of_app; right; by left). tauto.
      * intros x Hn Hx. destruct (Hns x Hn) as [H1 H2].
        assert (x = root ∨ x ∈ seen) by (apply (counted_seen _ _ _ _ I), elem_of_app; right; by right). tauto.
  - intros x. pose proof (counted_seen _ _ _ _ I x) as Hs. rewrite elem_of_union, elem_of_list_to_set.
    assert (x ∈ new ↔ x ∈ targets (next_edges F) ∧ x ∉ seen) as Hn by apply Hnew.
    rewrite !elem_of_app, list_elem_of_singleton, Hn in *. rewrite elem_of_cons in Hs. destruct (decide (x ∈ seen)); tauto.
  - intros n. rewrite elem_of_union, elem_of_list_to_set, <- (linked_targets fs f F n HF), (seen_linked _ _ _ _ I). set_solver.
  - exact Hlive.
  - intros n. by rewrite (indegree_snoc fs P f F n HF).
  - assert (Hrf : rtc (linked fs) root f) by (eapply counted_reached; [exact I|apply elem_of_app; right; by left]).
    intros x. rewrite !elem_of_app, list_elem_of_singleton. intros [[Hx| ->]|[Hx|Hx]]; [| done| |].
    + eapply counted_reached; [exact I|apply elem_of_app; by left].
    + eapply rtc_r; [exact Hrf|]. apply (linked_targets _ _ F); [done|]. by apply Hnew.
    + eapply counted_reached; [exact I|apply elem_of_app; right; by right].
Qed.

Lemma compute_dependencies_loop_spec fuel P queue seen deps :
  counted P queue seen deps → size fs < length P + fuel →
  match compute_dependencies_loop fuel fs deps seen queue with
  | Ok deps' => ∃ R seen', counted R [] seen' deps'
  | Throw e => e = Undefined "dangling function" ∧ ∃ x, rtc (linked fs) root x ∧ fs !! x = None
  end.
Proof.
  revert P queue seen deps. induction fuel as [|fuel IH]; intros P queue seen deps I Hf.
  - destruct queue as [|f queue]; [cbn; eauto|exfalso]. pose proof (counted_once _ _ _ _ I) as [HP _]%list.NoDup_app.
    assert (length P ≤ size (dom fs)).
    { rewrite <- (size_list_to_set (C:=gset ptr) P HP). apply subseteq_size. intros x Hx%elem_of_list_to_set. apply elem_of_dom. by eapply counted_live. }
    rewrite size_dom in *. lia.
  - destruct queue as [|f queue]; [cbn; eauto|]. cbn. destruct (fs !! f) as [F|] eqn:HF.
    + destruct (counted_step P f queue seen deps F I HF) as (deps' & new & -> & I'). apply (IH _ _ _ _ I'). rewrite length_app. cbn. lia.
    + split; [done|]. exists f. split; [|done]. eapply counted_reached; [exact I|]. apply elem_of_app. right. by left.
Qed.

(** The functions the root reaches. *)
Definition reached (R : list ptr) : Prop := NoDup R ∧ (∀ h, h ∈ R ↔ rtc (linked fs) root h) ∧ ∀ h, h ∈ R → is_Some (fs !! h).

Lemma counted_all P seen deps : counted P [] seen deps → reached P.
Proof.
  intros I. split_and!; [|split|by eapply counted_live].
  - rewrite <- (app_nil_r P). apply I.
  - intros Hh. eapply counted_reached; [exact I|]. by rewrite app_nil_r.
  - intros H. refine (rtc_ind_r (λ h, h ∈ P) root _ _ h H); [|intros n m _ Hl IH].
    + rewrite <- (app_nil_r P). apply (counted_seen _ _ _ _ I). by left.
    + rewrite <- (app_nil_r P). apply (counted_seen _ _ _ _ I). right. apply (seen_linked _ _ _ _ I). eauto.
Qed.

Lemma compute_dependencies_spec :
  match compute_dependencies root fs with
  | Ok deps => ∃ R, reached R ∧ ∀ n, deps !! n = entry (indegree fs R n)
  | Throw e => e = Undefined "dangling function" ∧ ∃ x, rtc (linked fs) root x ∧ fs !! x = None
  end.
Proof.
  unfold compute_dependencies. pose proof (compute_dependencies_loop_spec (S (size fs)) [] [root] ∅ ∅) as H.
  destruct (compute_dependencies_loop _ fs ∅ ∅ [root]) as [deps|e].
  - destruct H as (R & seen & I); [|cbn; lia|exists R; split; [by eapply counted_all|apply I]].
    split; cbn; [apply NoDup_singleton|set_solver|set_solver|set_solver| |intros x ->%list_elem_of_singleton; constructor]. intros n. by rewrite lookup_empty.
  - apply H; [|cbn; lia].
    split; cbn; [apply NoDup_singleton|set_solver|set_solver|set_solver| |intros x ->%list_elem_of_singleton; constructor]. intros n. by rewrite lookup_empty.
Qed.
End dependencies.
End graph.

(** ** What a backward pass has to execute *)

Section needed.
Context {T : Type}.
Implicit Types (fs : gmap ptr (Function (T:=T))) (f n h : ptr) (info : gmap (option ptr) ExecInfo).

(** ** Captures *)

(** The captures of a function: its inputs among [outs], numbered from [j] on. *)
Fixpoint captures_for (outs : list Edge) (j : nat) (x : option ptr) : list (nat * nat) :=
  match outs with
  | [] => []
  | e :: outs => (if decide (function e = x) then [(input_nr e, j)] else []) ++ captures_for outs (S j) x
  end.
Definition more_captures (c : option (list (nat * nat))) (more : list (nat * nat)) : option (list (nat * nat)) :=
  match more with [] => c | _ => Some (default [] c ++ more) end.

Lemma info_of_insert info x y i : info_of (<[x := i]> info) y = if decide (x = y) then i else info_of info y.
Proof. unfold info_of. destruct (decide (x = y)) as [->|Hne]; [by rewrite lookup_insert_eq|by rewrite lookup_insert_ne]. Qed.

Lemma add_captures_spec outs j info x :
  info_of (add_captures outs j info) x = mkInfo (needed (info_of info x)) (more_captures (captures (info_of info x)) (captures_for outs j x)).
Proof.
  revert j info. induction outs as [|e outs IH]; intros j info; cbn [add_captures captures_for]; [by destruct (info_of info x)|].
  rewrite IH, info_of_insert. destruct (decide (function e = x)) as [<-|Hne]; [|done].
  cbn. f_equal. destruct (captures_for outs (S j) (function e)); cbn; [done|]. by rewrite <- app_assoc.
Qed.

Lemma elem_of_captures_for outs j x c : c ∈ captures_for outs j x ↔ ∃ i e, outs !! i = Some e ∧ function e = x ∧ c = (input_nr e, j + i).
Proof.
  revert j. induction outs as [|e outs IH]; intros j; cbn; [split; [by intros ?%elem_of_nil|by intros (i & ? & ? & _)]|].
  rewrite elem_of_app, IH. split.
  - intros [Hc|(i & e' & ? & ? & ->)]; [|exists (S i), e'; split_and!; [done..|f_equal; lia]].
    case_decide; [|by apply elem_of_nil in Hc]. apply list_elem_of_singleton in Hc as ->. exists 0, e. split_and!; [done..|f_equal; lia].
  - intros ([|i] & e' & He & Hf & ->); cbn in He; [injection He as ->; left; rewrite decide_True by done; apply list_elem_of_singleton; f_equal; lia|].
    right. exists i, e'. split_and!; [done..|f_equal; lia].
Qed.

Lemma any_executed_info edges info : any_executed edges info = existsb (λ e, should_execute (info_of info (function e))) edges.
Proof. unfold any_executed, info_of. induction edges as [|e edges IH]; [done|]. cbn. rewrite IH. by destruct (info !! function e). Qed.

Lemma get_next_fn_spec next :
  match get_next_fn next with
  | Some (m, next') => ∃ pre e, next = pre ++ e :: next' ∧ targets pre = [] ∧ function e = Some m
  | None => targets next = []
  end.
Proof.
  induction next as [|e next IH]; [done|]. unfold targets in *. cbn. destruct (function e) as [m|] eqn:Hm; [by exists [], e|].
  destruct (get_next_fn next) as [[m next']|]; [|done]. destruct IH as (pre & e' & -> & Hp & He'). exists (e :: pre), e'. cbn. by rewrite Hm.
Qed.

(** ** The search *)
Section search.
Context (fs : gmap ptr (Function (T:=T))) (root : ptr) (outs : list Edge) (rank : ptr → nat).
Context (Hrank : ∀ h n, linked fs h n → rank n < rank h) (Hlive : ∀ h n, linked fs h n → is_Some (fs !! n)).
Context (Houts : ∀ e, e ∈ outs → is_Some (function e)) (Hroot : ∀ h, ¬ linked fs h root).

Definition wanted n : Prop := ∃ e, e ∈ outs ∧ function e = Some n.
(** A path of at least one edge leads from [f] to an output. *)
Definition needs f : Prop := ∃ n, tc (linked fs) f n ∧ wanted n.

Lemma needs_step f : needs f ↔ ∃ n, linked fs f n ∧ (wanted n ∨ needs n).
Proof.
  split.
  - intros (m & Hp & Hm). inversion Hp as [? ? Hl|? n ? Hl Hp']; subst; [by exists m; auto|]. exists n. split; [done|]. right. by exists m.
  - intros (n & Hl & [Hn|(m & Hp & Hm)]); [exists n; split; [by apply tc_once|done]|]. exists m. split; [by eapply tc_l|done].
Qed.

(** [D] are the functions that are finished. *)
Record searched (D : gset ptr) info : Prop := {
  searched_right f : f ∈ D → needed (info_of info (Some f)) = true ↔ needs f;
  searched_closed f n : f ∈ D → linked fs f n → n ∈ D;
  searched_captures x : captures (info_of info x) = more_captures None (captures_for outs 0 x);
  searched_new x : (∀ f, x = Some f → f ∉ D) → needed (info_of info x) = bool_decide (x = Some root);
  searched_root : root ∉ D
}.
Lemma more_captures_wanted n : bool_decide (is_Some (more_captures None (captures_for outs 0 (Some n)))) = true ↔ wanted n.
Proof.
  rewrite bool_decide_eq_true. unfold wanted. destruct (captures_for outs 0 (Some n)) as [|c l] eqn:E; cbn.
  - split; [by intros []|]. intros (e & [i He]%list_elem_of_lookup & Hn).
    assert ((input_nr e, 0 + i) ∈ captures_for outs 0 (Some n)) as Hc by (apply elem_of_captures_for; eauto). rewrite E in Hc. by apply elem_of_nil in Hc.
  - split; [intros _|eauto]. assert (c ∈ captures_for outs 0 (Some n)) as (i & e & He & Hn & _)%elem_of_captures_for by (rewrite E; by left).
    exists e. split; [by eapply list_elem_of_lookup_2|done].
Qed.
Lemma no_null_output : captures_for outs 0 None = [].
Proof.
  destruct (captures_for outs 0 None) as [|c l] eqn:E; [done|exfalso].
  assert (c ∈ captures_for outs 0 None) as (i & e & He & Hn & _)%elem_of_captures_for by (rewrite E; by left).
  destruct (Houts e) as [f Hf]; [by eapply list_elem_of_lookup_2|congruence].
Qed.
Lemma searched_null D info : searched D info → info_of info None = mkInfo false None.
Proof.
  intros S. destruct (info_of info None) as [b c] eqn:E. pose proof (searched_captures _ _ S None) as Hc. rewrite E, no_null_output in Hc. cbn in Hc. subst c.
  pose proof (searched_new _ _ S None ltac:(done)) as Hb. rewrite E in Hb. cbn in Hb. by subst b.
Qed.
Lemma searched_wanted D info n : searched D info → bool_decide (is_Some (captures (info_of info (Some n)))) = true ↔ wanted n.
Proof. intros S. rewrite (searched_captures _ _ S). apply more_captures_wanted. Qed.
(** The frames form a path; what a frame has looked at is finished, or is the frame above. *)
Fixpoint stack_ok (D : gset ptr) (above : option ptr) (stack : list (ptr * list Edge)) : Prop :=
  match stack with
  | [] => True
  | (f, next) :: stack =>
      (∃ F pre, fs !! f = Some F ∧ next_edges F = pre ++ next ∧ ∀ n, n ∈ targets pre → n ∈ D ∨ above = Some n) ∧
      (∀ a, above = Some a → linked fs f a) ∧ stack_ok D (Some f) stack
  end.

Lemma stack_rank D a stack : stack_ok D (Some a) stack → ∀ f, f ∈ stack.*1 → rank a < rank f.
Proof.
  revert a. induction stack as [|[g next] stack IH]; intros a H f Hf; [by apply elem_of_nil in Hf|].
  destruct H as (_ & Hl & H). specialize (Hrank _ _ (Hl a eq_refl)). apply elem_of_cons in Hf as [->|Hf]; [done|].
  specialize (IH g H f Hf). lia.
Qed.
Lemma stack_finish D f stack : stack_ok D (Some f) stack → stack_ok ({[f]} ∪ D) None stack.
Proof.
  assert (Hmono : ∀ a st, stack_ok D a st → stack_ok ({[f]} ∪ D) a st).
  { intros a st. revert a. induction st as [|[g next] st IH]; intros a; [done|]. cbn. intros ((F & pre & HF & Hn & Hp) & Hl & H).
    split_and!; [|done|by apply IH]. exists F, pre. split_and!; [done..|]. intros n Hn'. destruct (Hp n Hn'); [set_solver|by right]. }
  destruct stack as [|[g next] stack]; [done|]. cbn. intros ((F & pre & HF & Hn & Hp) & Hl & H). split_and!; [|done|by apply Hmono].
  exists F, pre. split_and!; [done..|]. intros n Hn'. left. destruct (Hp n Hn') as [?|[= ->]]; set_solver.
Qed.

Lemma targets_app l k : targets (l ++ k) = targets l ++ targets k.
Proof. apply omap_app. Qed.

Lemma finish_info D info f F :
  searched D info → f ≠ root → fs !! f = Some F → (∀ n, n ∈ targets (next_edges F) → n ∈ D) →
  searched ({[f]} ∪ D) (<[Some f := mkInfo (any_executed (next_edges F) info) (captures (info_of info (Some f)))]> info).
Proof.
  intros S Hfr HF Hall. set (i := mkInfo _ _).
  assert (Hi : ∀ x, info_of (<[Some f := i]> info) x = if decide (Some f = x) then i else info_of info x) by (intros; apply info_of_insert).
  assert (Hf : needed i = true ↔ needs f).
  { cbn. rewrite any_executed_info, existsb_exists, needs_step. setoid_rewrite <- list_elem_of_In. split.
    - intros (e & He & Hx). destruct (function e) as [n|] eqn:Hn; [|by rewrite (searched_null D info S) in Hx].
      assert (n ∈ targets (next_edges F)) as Ht by (apply list_elem_of_omap; eauto). exists n. split; [by apply (linked_targets fs f F)|].
      apply orb_true_iff in Hx as [Hx|Hx]; [right; by apply (searched_right _ _ S n (Hall n Ht))|left; by apply (searched_wanted D info)].
    - intros (n & Hl & Hx). apply (linked_targets fs f F n HF) in Hl as Ht. apply list_elem_of_omap in Ht as (e & He & Hn).
      exists e. split; [done|]. rewrite Hn. apply orb_true_iff. destruct Hx as [Hx|Hx]; [right; by apply (searched_wanted D info)|left].
      apply (searched_right _ _ S); [apply Hall, list_elem_of_omap; eauto|done]. }
  split.
  - intros g Hg. rewrite Hi. case_decide as E; [injection E as <-; done|]. apply S. set_solver.
  - intros g n [->%elem_of_singleton|Hg]%elem_of_union Hl; [|apply elem_of_union; right; by eapply searched_closed].
    apply elem_of_union. right. apply Hall. by apply (linked_targets fs f F).
  - intros x. rewrite Hi. case_decide as E; [subst x; apply S|apply S].
  - intros x Hx. rewrite Hi. case_decide as E; [subst x; exfalso; apply (Hx f eq_refl); set_solver|]. apply S. intros g ->. specialize (Hx g eq_refl). set_solver.
  - intros [->%elem_of_singleton|?]%elem_of_union; [done|]. by apply (searched_root _ _ S).
Qed.

(** What is left to do. *)
Definition degree f : nat := match fs !! f with Some F => length (next_edges F) | None => 0 end.
Definition weight (X : gset ptr) : nat := sum_list ((λ f, S (degree f)) <$> elements X).
Definition work (stack : list (ptr * list Edge)) (seen : gset ptr) : nat :=
  sum_list ((λ p, S (length p.2)) <$> stack) + weight (dom fs ∖ seen).
Lemma weight_remove n (X : gset ptr) : n ∈ X → weight X = S (degree n) + weight (X ∖ {[n]}).
Proof.
  intros Hn. unfold weight. assert (elements X ≡ₚ n :: elements (X ∖ {[n]})) as ->; [|done].
  rewrite <- (elements_union_singleton (X ∖ {[n]}) n) by set_solver. f_equiv. rewrite <- union_difference_singleton_L; done.
Qed.

Lemma frame_next D f next stack m next' :
  stack_ok D None ((f, next) :: stack) → get_next_fn next = Some (m, next') →
  linked fs f m ∧ length next' < length next ∧ (m ∈ D → stack_ok D None ((f, next') :: stack)) ∧
  ∀ N, fs !! m = Some N → stack_ok D None ((m, next_edges N) :: (f, next') :: stack).
Proof.
  intros ((F & pre & HF & Hn & Hp) & _ & H) E. pose proof (get_next_fn_spec next) as G. rewrite E in G. destruct G as (skip & e & -> & Hskip & He).
  assert (Hpre : targets (pre ++ skip ++ [e]) = targets pre ++ [m]) by (rewrite !targets_app, Hskip; cbn; by rewrite He).
  assert (Hl : linked fs f m).
  { apply (linked_targets fs f F m HF). rewrite Hn, !targets_app, Hskip. cbn. rewrite He. set_solver. }
  assert (Hsplit : next_edges F = (pre ++ skip ++ [e]) ++ next') by (rewrite Hn, <- !app_assoc; done).
  split_and!; [done|rewrite length_app; cbn; lia| |].
  - intros Hm. cbn. split_and!; [|done|done]. exists F, (pre ++ skip ++ [e]). split_and!; [done..|]. rewrite Hpre.
    intros n [Hn'| ->%list_elem_of_singleton]%elem_of_app; [by apply Hp|by left].
  - intros N HN. cbn. split_and!; [|done| |intros a [= <-]; done|done].
    + exists N, []. split_and!; [done..|]. by intros n ?%elem_of_nil.
    + exists F, (pre ++ skip ++ [e]). split_and!; [done..|]. rewrite Hpre.
      intros n [Hn'| ->%list_elem_of_singleton]%elem_of_app; [destruct (Hp n Hn') as [?|[=]]; by left|by right].
Qed.

Lemma frame_last D f next stack :
  stack_ok D None ((f, next) :: stack) → get_next_fn next = None →
  ∃ F, fs !! f = Some F ∧ (∀ n, n ∈ targets (next_edges F) → n ∈ D) ∧ stack_ok ({[f]} ∪ D) None stack.
Proof.
  intros ((F & pre & HF & Hn & Hp) & _ & H) E. pose proof (get_next_fn_spec next) as G. rewrite E in G. exists F. split_and!; [done| |by apply stack_finish].
  intros n. rewrite Hn, targets_app, G, app_nil_r. intros Hn'. by destruct (Hp n Hn') as [?|[=]].
Qed.

Lemma needed_loop_spec fuel stack seen info D :
  searched D info → stack_ok D None stack → (∀ n, n ∈ seen → n ∈ D ∨ n ∈ stack.*1) → root ∉ stack.*1 → work stack seen < fuel →
  ∃ seen' info' D', needed_loop fuel fs stack seen info = Ok (seen', info') ∧ searched D' info' ∧ D ⊆ D' ∧ (∀ f, f ∈ stack.*1 → f ∈ D') ∧
    (∀ n, n ∈ seen' → n ∈ D').
Proof.
  revert stack seen info D. induction fuel as [|fuel IH]; intros stack seen info D S Hst Hs Hrt Hw; [lia|].
  destruct stack as [|[f next] stack].
  { exists seen, info, D. split_and!; [done..|by intros f ?%elem_of_nil|]. intros n Hn. destruct (Hs n Hn) as [?|?%elem_of_nil]; done. }
  cbn [needed_loop]. destruct (get_next_fn next) as [[m next']|] eqn:E.
  - destruct (frame_next D f next stack m next' Hst E) as (Hl & Hlen & HD & Hpush). destruct (decide (m ∈ seen)) as [Hm|Hm].
    + assert (m ∈ D) as HmD.
      { destruct (Hs m Hm) as [?|Hin]; [done|exfalso]. pose proof (Hrank _ _ Hl). cbn in Hin. apply elem_of_cons in Hin as [->|Hin]; [lia|].
        destruct Hst as (_ & _ & Hst). pose proof (stack_rank D f stack Hst m Hin). lia. }
      destruct (IH ((f, next') :: stack) seen info D S (HD HmD) Hs Hrt) as (seen' & info' & D' & H); [unfold work in *; cbn in *; lia|].
      by exists seen', info', D'.
    + destruct (Hlive _ _ Hl) as [N HN]. rewrite HN.
      destruct (IH ((m, next_edges N) :: (f, next') :: stack) ({[m]} ∪ seen) info D S (Hpush N HN)) as (seen' & info' & D' & H1 & H2 & H3 & H4 & H5).
      * intros n [->%elem_of_singleton|Hn]%elem_of_union; [right; by left|]. destruct (Hs n Hn); [by left|right; by right].
      * cbn. intros [->|Hin]%elem_of_cons; [by apply (Hroot f)|by apply Hrt].
      * unfold work in *. cbn in *. assert (m ∈ dom fs ∖ seen) as Hmd by (apply elem_of_difference; split; [by apply elem_of_dom|done]).
        rewrite (weight_remove m _ Hmd) in Hw. unfold degree in Hw at 1. rewrite HN in Hw.
        rewrite difference_difference_l_L, (union_comm_L seen) in Hw. lia.
      * exists seen', info', D'. split_and!; [done..| |done]. intros g Hg. apply H4. right. exact Hg.
  - destruct (frame_last D f next stack Hst E) as (F & HF & Hall & Hst'). rewrite HF.
    cbn in Hrt. apply not_elem_of_cons in Hrt as [Hfr Hrt].
    destruct (IH stack seen _ ({[f]} ∪ D) (finish_info D info f F S (not_eq_sym Hfr) HF Hall) Hst') as (seen' & info' & D' & H1 & H2 & H3 & H4 & H5).
    + intros n Hn. destruct (Hs n Hn) as [?|[->|?]%elem_of_cons]; [left; set_solver|left; set_solver|by right].
    + done.
    + unfold work in *. cbn in *. lia.
    + exists seen', info', D'. split_and!; [done..|set_solver| |done]. intros g [->|Hg]%elem_of_cons; [set_solver|by apply H4].
Qed.

Lemma needed_roots_spec roots seen info D :
  searched D info → seen ⊆ D → (∀ e, e ∈ roots → ∃ f, function e = Some f ∧ f ≠ root ∧ is_Some (fs !! f)) →
  ∃ info' D', needed_roots fs roots seen info = Ok info' ∧ searched D' info' ∧ D ⊆ D' ∧ ∀ f, f ∈ targets roots → f ∈ D'.
Proof.
  revert seen info D. induction roots as [|e roots IH]; intros seen info D S Hs Hr; [exists info, D; split_and!; [done..|by intros f ?%elem_of_nil]|].
  destruct (Hr e ltac:(by left)) as (f & Hf & Hfr & [F HF]). cbn [needed_roots]. rewrite Hf. unfold targets. cbn [omap list_omap]. rewrite Hf. fold (targets roots).
  destruct (decide (f ∈ seen)) as [Hin|Hin].
  - destruct (IH seen info D S Hs) as (info' & D' & H1 & H2 & H3 & H4); [intros e' ?; apply Hr; by right|].
    exists info', D'. split_and!; [done..|]. intros g [->|Hg]%elem_of_cons; [set_solver|by apply H4].
  - rewrite HF. destruct (needed_loop_spec (needed_fuel fs) [(f, next_edges F)] seen info D S) as (seen1 & info1 & D1 & -> & S1 & HD1 & Hst1 & Hs1).
    + cbn. split_and!; [|done|done]. exists F, []. split_and!; [done..|]. by intros n ?%elem_of_nil.
    + intros n Hn. left. by apply Hs.
    + cbn. by intros ->%list_elem_of_singleton.
    + unfold work, needed_fuel. assert (weight (dom fs ∖ seen) ≤ weight (dom fs)).
      { unfold weight. rewrite (union_difference_L (dom fs ∖ seen) (dom fs)) at 2 by set_solver. rewrite elements_disj_union by set_solver.
        rewrite fmap_app, sum_list_with_app || (rewrite fmap_app; setoid_rewrite sum_list_with_app). lia. }
      fold (weight (dom fs)). change (sum_list ((λ f0, Datatypes.S match fs !! f0 with Some F0 => length (next_edges F0) | None => 0 end) <$> elements (dom fs))) with (weight (dom fs)).
      assert (Datatypes.S (length (next_edges F)) ≤ weight (dom fs)).
      { rewrite (weight_remove f); [unfold degree; rewrite HF; lia|by apply elem_of_dom]. }
      cbn. lia.
    + cbn. destruct (IH seen1 info1 D1 S1 Hs1) as (info' & D' & H1 & H2 & H3 & H4); [intros e' ?; apply Hr; by right|].
      exists info', D'. split_and!; [done|done|set_solver|]. intros g [->|Hg]%elem_of_cons; [apply H3, Hst1; by left|by apply H4].
Qed.

(** The result marks exactly what leads to an output, and has the captures. *)
Lemma init_to_execute_Ok roots :
  (∀ e, e ∈ roots → ∃ f, function e = Some f ∧ f ≠ root ∧ is_Some (fs !! f)) →
  ∃ info, init_to_execute fs root roots outs = Ok info ∧
    (∀ f r, r ∈ targets roots → rtc (linked fs) r f → needed (info_of info (Some f)) = true ↔ needs f) ∧
    (∀ x, captures (info_of info x) = more_captures None (captures_for outs 0 x)) ∧ needed (info_of info (Some root)) = true.
Proof.
  intros Hr. set (info0 := add_captures outs 0 {[Some root := mkInfo true None]}).
  assert (S0 : searched ∅ info0).
  { assert (H0 : ∀ x, info_of info0 x = mkInfo (bool_decide (x = Some root)) (more_captures None (captures_for outs 0 x))).
    { intros x. unfold info0. rewrite add_captures_spec. unfold info_of. destruct (decide (x = Some root)) as [->|Hne].
      - by rewrite lookup_singleton_eq, bool_decide_eq_true_2.
      - by rewrite lookup_singleton_ne, bool_decide_eq_false_2. }
    split; [set_solver..| | |set_solver]; intros x; by rewrite H0. }
  destruct (needed_roots_spec roots ∅ info0 ∅ S0) as (info & D & E & S & _ & HD); [set_solver|done|]. exists info. split_and!; [done| |apply S|].
  - intros f r Hr' Hp. apply S. apply HD in Hr'. induction Hp as [|r n f Hl _ IH]; [done|]. apply IH. by eapply searched_closed.
  - rewrite (searched_new _ _ S); [by apply bool_decide_eq_true_2|]. intros f [= <-]. apply S.
Qed.
End search.
End needed.
