(* ===== verification/EngineSpec.v ===== *)
(** * A graph task on its own

    What the engine does for one graph task: its tasks, in the queues and in the hands of
    the threads, are the [items] of a state, and a [turn] is what may happen to one of them.
    The invariant of a graph task is in terms of the functions it may run and of the edges
    that gradients have come over. *)
From S2P Require Import Prelude CoreTypes AutogradEngine EngineGraph.
Local Open Scope nat_scope.
Local Open Scope list_scope.
#[local] Set Warnings "-clear-no-such-hyp".
Import Engine.

Section spec.
Context {T : Type} `{!Tensors T}.
Implicit Types (fs : gmap ptr (Function (T:=T))) (f n h : ptr) (s : State (T:=T)) (G : GraphTask (T:=T)) (p : Phase (T:=T)).
Implicit Types (its : list (Phase (T:=T))) (t : FunctionTask (T:=T)) (lg evs : list (event (T:=T))) (ins outs : list (variable (T:=T))).

(** ** Items *)
Definition phase_task p : option FunctionTask :=
  match p with
  | Starting | AtLoop | InPop => None
  | Popped t | Evaluating t | Calling t _ _ _ | Locking t _ | Delivering t _ | Failing t _ | Finishing t | Counting t _ | Notifying t _ => Some t
  end.
Definition item_base p : option nat := base <$> phase_task p.
(** Whether the item is counted in [outstanding_tasks], and its function then. *)
Definition counted p : bool := match p with Starting | AtLoop | InPop | Notifying _ _ => false | _ => true end.
Definition counted_fn p : option ptr := if counted p then t ← phase_task p; fn t else None.
(** The function of an item that is not done, of one that is not called yet, of one that has not returned. *)
Definition active_fn p : option ptr :=
  match p with Popped t | Evaluating t | Calling t _ _ _ | Locking t _ | Delivering t _ => fn t | _ => None end.
Definition uncalled_fn p : option ptr := match p with Popped t | Evaluating t => fn t | _ => None end.
Definition unreturned_fn p : option ptr := match p with Popped t | Evaluating t | Calling t _ _ _ => fn t | _ => None end.
(** A message to the owner of the graph task, or the step before it is sent. *)
Definition notice p : bool :=
  match p with Notifying _ _ => true | _ => match phase_task p with Some t => bool_decide (fn t = None) | None => false end end.
Definition is_failing p : bool := match p with Failing _ _ => true | _ => false end.
Definition count_if (q : Phase (T:=T) → bool) its : nat := length (List.filter q its).

Definition busy p : bool := match phase_task p with Some _ => true | None => false end.
Definition busy_in (fr : list (Frame (T:=T))) : list Phase := List.filter busy (phase <$> fr).
Definition items_in (queues : list (list FunctionTask)) (ths : list (Thread (T:=T))) : list Phase :=
  (Popped <$> concat queues) ++ concat (busy_in <$> (frames <$> ths)).
Definition items s : list Phase := items_in (ready_queues s) (threads s).
Definition items_of (g : nat) s : list Phase := List.filter (λ p, bool_decide (item_base p = Some g)) (items s).

(** ** Events of a graph task *)
Definition called_in (g : nat) lg : list (ptr * list variable) :=
  omap (λ e, match e with Called g' f _ ins => if decide (g' = g) then Some (f, ins) else None | _ => None end) lg.
Definition returned_in (g : nat) lg : list (ptr * list variable) :=
  omap (λ e, match e with Returned g' f outs => if decide (g' = g) then Some (f, outs) else None | _ => None end) lg.

(** ** What the functions of a pass have to do *)
Record Pass : Type := mkPass {
  pfs : gmap ptr (Function (T:=T)); (* the functions when the task was made, with its root *)
  proot : ptr;
  preach : list ptr; (* what the root reaches *)
  pinfo : gmap (option ptr) ExecInfo;
  pcount : nat (* how many outputs are asked for *)
}.
Implicit Types (K : Pass).

Definition runs (info : gmap (option ptr) ExecInfo) n : bool := bool_decide (info = ∅) || needed (info_of info (Some n)).
Definition executes (info : gmap (option ptr) ExecInfo) n : bool := bool_decide (info = ∅) || should_execute (info_of info (Some n)).
Definition captures_at (info : gmap (option ptr) ExecInfo) n : list (nat * nat) := default [] (captures (info_of info (Some n))).

(** A computation returns these outputs, for some results of the passes it executes. *)
Inductive yields : Computation (T:=T) → list (variable (T:=T)) → Prop :=
  | yields_return outs : yields (Return outs) outs
  | yields_execute roots ins keep create os k r outs : yields (k r) outs → yields (Execute roots ins keep create os k) outs.
(** What is left of a computation. *)
Inductive residual : Computation (T:=T) → Computation (T:=T) → Prop :=
  | residual_here c : residual c c
  | residual_next c roots ins keep create os k r : residual c (Execute roots ins keep create os k) → residual c (k r).
(** Calling the function with this buffer gives these outputs; [ins] is what the pre-hooks make of the buffer. *)
Definition evaluates fs n (b : InputBuffer) ins outs : Prop :=
  ∃ F raw valid, fs !! n = Some F ∧ call_pre_hooks F b = Ok ins ∧ yields (apply F ins) raw ∧
    validate_outputs fs (next_edges F) raw = Ok valid ∧ call_post_hooks F valid ins = Ok outs.

(** ** The turns of a graph task *)
Definition new_buffer fs n : InputBuffer (T:=T) := replicate (match fs !! n with Some N => num_inputs N | None => 0 end) None.
Fixpoint capture_vars (cs : list (nat * nat)) (b : InputBuffer (T:=T)) (vars : list variable) : option (list variable) :=
  match cs with
  | [] => Some vars
  | c :: cs => v ← b !! c.1; old ← vars !! c.2; capture_vars cs b (<[c.2 := v]> vars)
  end.
Definition captured G t f (vars : list (variable (T:=T))) : Prop :=
  if decide (exec_info G = ∅) then vars = captured_vars G
  else is_Some (exec_info G !! Some f) ∧ capture_vars (captures_at (exec_info G) f) (inputs t) (captured_vars G) = Some vars.

(** Output [i] of [f] goes to its edge. *)
Inductive delivered fs (g : nat) f (i : nat) (v : variable) G : GraphTask (T:=T) → list Phase → Prop :=
  | delivered_nowhere : target fs (f, i) = None → delivered fs g f i v G G []
  | delivered_skipped n j d deps :
      target fs (f, i) = Some (n, j) → dependencies G !! n = Some d →
      deps = (if decide (int32 (d - 1) = 0%Z) then delete n (dependencies G) else <[n := int32 (d - 1)]> (dependencies G)) →
      not_ready G !! n = None → executes (exec_info G) n = false →
      delivered fs g f i v G (set_dependencies deps G) []
  | delivered_waits n j d b :
      target fs (f, i) = Some (n, j) → dependencies G !! n = Some d → int32 (d - 1) ≠ 0%Z →
      (not_ready G !! n = None → executes (exec_info G) n = true) →
      buffer_add j v (default (new_buffer fs n) (not_ready G !! n)) = Ok b →
      delivered fs g f i v G (set_not_ready (<[n := b]> (not_ready G)) (set_dependencies (<[n := int32 (d - 1)]> (dependencies G)) G)) []
  | delivered_ready n j d b :
      target fs (f, i) = Some (n, j) → dependencies G !! n = Some d → int32 (d - 1) = 0%Z →
      (not_ready G !! n = None → executes (exec_info G) n = true) →
      buffer_add j v (default (new_buffer fs n) (not_ready G !! n)) = Ok b →
      delivered fs g f i v G
        (set_outstanding_tasks (uint64 (outstanding_tasks G + 1)) (set_not_ready (delete n (not_ready G)) (set_dependencies (delete n (dependencies G)) G)))
        [Popped (mkTask g (Some n) b)].

(** An item of a graph task becomes others; the events that are logged. *)
Inductive turn fs G : Phase (T:=T) → GraphTask (T:=T) → list (Phase (T:=T)) → list (event (T:=T)) → Prop :=
  | turn_skip t : has_error G = true ∨ fn t = None → turn fs G (Popped t) G [Finishing t] []
  | turn_enter t f : fn t = Some f → has_error G = false → turn fs G (Popped t) G [Evaluating t] []
  | turn_cannot t e vars : is_Some (fn t) → length vars = length (captured_vars G) → turn fs G (Evaluating t) (set_captured_vars vars G) [Failing t e] []
  | turn_unneeded t f vars :
      fn t = Some f → captured G t f vars → runs (exec_info G) f = false → turn fs G (Evaluating t) (set_captured_vars vars G) [Finishing t] []
  | turn_call t f F vars prev ins evs :
      fn t = Some f → captured G t f vars → runs (exec_info G) f = true → fs !! f = Some F → call_pre_hooks F (inputs t) = Ok ins →
      evs = (if keep_graph G then [] else [Will_release f]) ++ [Called (base t) f (grad_mode G) ins] →
      turn fs G (Evaluating t) (set_captured_vars vars G) [Calling t prev ins (apply F ins)] evs
  | turn_raise t prev ins c e : is_Some (fn t) → turn fs G (Calling t prev ins c) G [Failing t e] []
  | turn_result t prev ins roots vs keep create os k r :
      turn fs G (Calling t prev ins (Execute roots vs keep create os k)) G [Calling t prev ins (k r)] []
  | turn_return t f F prev ins raw valid outs p' evs :
      fn t = Some f → fs !! f = Some F → validate_outputs fs (next_edges F) raw = Ok valid → call_post_hooks F valid ins = Ok outs →
      (p' = Finishing t ∧ outs = [] ∨ p' = Locking t outs ∨ ∃ e, p' = Failing t e) →
      evs = Returned (base t) f outs :: (if keep_graph G then [] else [Released f]) →
      turn fs G (Calling t prev ins (Return raw)) G [p'] evs
  | turn_lock t outs : turn fs G (Locking t outs) (set_locked true G) [Delivering t (imap pair outs)] []
  | turn_unlock t : turn fs G (Delivering t []) (set_locked false G) [Finishing t] []
  | turn_deliver t f i v rest G' new :
      fn t = Some f → delivered fs (base t) f i v G G' new → turn fs G (Delivering t ((i, v) :: rest)) G' (Delivering t rest :: new) []
  | turn_undelivered t o rest deps nr e :
      is_Some (fn t) → (∀ n, is_Some (deps !! n) → is_Some (dependencies G !! n)) →
      (∀ n b, nr !! n = Some b → not_ready G !! n = Some b ∨ is_Some (fs !! n) ∧ length b = length (default (new_buffer fs n) (not_ready G !! n))) →
      turn fs G (Delivering t (o :: rest)) (set_locked false (set_not_ready nr (set_dependencies deps G))) [Failing t e] []
  | turn_error t e : turn fs G (Failing t e) (if has_error G then G else set_error e G) [Finishing t] []
  | turn_read t o : turn fs G (Finishing t) G [Counting t o] []
  | turn_count t o new :
      (new = [] ∨ new = [Notifying t o] ∧ uint64 (outstanding_tasks G - 1) = 0%Z) →
      turn fs G (Counting t o) (set_outstanding_tasks (uint64 (outstanding_tasks G - 1)) G) new []
  | turn_told t o : turn fs G (Notifying t o) G [] []
  | turn_notify t o :
      turn fs G (Notifying t o) (set_outstanding_tasks (uint64 (outstanding_tasks G + 1)) G) [Popped (mkTask (base t) None [])] [].

(** Nothing changes but the owner and the mutex. *)
Definition quiet G G' : Prop := ∃ o l, G' = set_owner o (set_locked l G).

(** ** The invariant of a graph task *)

(** [arr] has the edges that gradients have come over, in order.  The gradients that have come to [n]: *)
Definition arrival fs n (a : (ptr * nat) * variable (T:=T)) : option (nat * variable (T:=T)) :=
  match target fs a.1 with Some (m, j) => if decide (m = n) then Some (j, a.2) else None | None => None end.
Definition arrivals fs (arr : list ((ptr * nat) * variable (T:=T))) n : list (nat * variable (T:=T)) := omap (arrival fs n) arr.
Definition add_all (l : list (nat * variable (T:=T))) (b : outcome (InputBuffer (T:=T))) : outcome (InputBuffer (T:=T)) :=
  foldl (λ b a, b ← b; buffer_add a.1 a.2 b) b l.
Definition buffer_of fs (arr : list ((ptr * nat) * variable (T:=T))) n : outcome (InputBuffer (T:=T)) := add_all (arrivals fs arr n) (Ok (new_buffer fs n)).

(** *** What does not change *)
Record pass_ok K : Prop := {
  p_reached : reached (pfs K) (proot K) (preach K);
  p_root h : ¬ linked (pfs K) h (proot K);
  p_bound : (Z.of_nat (total_edges (pfs K)) < 2 ^ 31)%Z;
  p_root_inputs : new_buffer (pfs K) (proot K) = [];
  p_root_runs : runs (pinfo K) (proot K) = true;
  p_captures n n' c c' : c ∈ captures_at (pinfo K) n → c' ∈ captures_at (pinfo K) n' → c.2 = c'.2 → n = n' ∧ c = c'
}.

(** *** What is true even when a function has failed *)
Record task_base (g : nat) K G its lg : Prop := {
  b_info : exec_info G = pinfo K;
  b_outstanding : outstanding_tasks G = Z.of_nat (count_if counted its);
  b_counted : NoDup (omap counted_fn its);
  b_used n : n ∈ omap counted_fn its ∨ n ∈ (called_in g lg).*1 → n ∈ preach K ∧ dependencies G !! n = None;
  b_waiting n : is_Some (dependencies G !! n) → n ∈ preach K;
  b_once : NoDup (called_in g lg).*1;
  b_fresh n : n ∈ omap uncalled_fn its → n ∉ (called_in g lg).*1;
  b_runs n : n ∈ (called_in g lg).*1 → runs (pinfo K) n = true;
  b_returned n : n ∈ (returned_in g lg).*1 → n ∈ (called_in g lg).*1;
  b_returned_once : NoDup (returned_in g lg).*1;
  b_unreturned n : n ∈ omap unreturned_fn its → n ∉ (returned_in g lg).*1;
  b_calling n : n ∈ omap unreturned_fn its → n ∈ omap uncalled_fn its ∨ n ∈ (called_in g lg).*1;
  b_notice : count_if notice its ≤ 1;
  b_last : count_if notice its ≠ 0 → omap counted_fn its = []
}.

(** *** What is true as long as no function has failed *)
Section progress.
Context (g : nat) K (arr : list ((ptr * nat) * variable (T:=T))).
Let fs := pfs K.
Let R := preach K.
Let indeg n := indegree fs R n.
Let come n := length (arrivals fs arr n).

(** All gradients for [n] have come. *)
Definition started n : Prop := n ∈ R ∧ executes (pinfo K) n = true ∧ come n = indeg n.
Definition kept_captures n (b : InputBuffer (T:=T)) (vars : list (variable (T:=T))) : Prop :=
  pinfo K ≠ ∅ → ∀ c, c ∈ captures_at (pinfo K) n → ∃ v, b !! c.1 = Some v ∧ vars !! c.2 = Some v.

Definition phase_ok lg p : Prop :=
  match p with
  | Popped t | Evaluating t => ∀ n, fn t = Some n → buffer_of fs arr n = Ok (inputs t)
  | Calling t _ ins c => ∀ n, fn t = Some n →
      ∃ F, fs !! n = Some F ∧ buffer_of fs arr n = Ok (inputs t) ∧ call_pre_hooks F (inputs t) = Ok ins ∧ (n, ins) ∈ called_in g lg ∧ residual (apply F ins) c
  | Locking t outs => ∀ n, fn t = Some n → (n, outs) ∈ returned_in g lg ∧ ∀ i, (n, i) ∉ arr.*1
  | Delivering t rest => ∀ n, fn t = Some n →
      ∃ outs j, (n, outs) ∈ returned_in g lg ∧ rest = drop j (imap pair outs) ∧
        ∀ i, (n, i) ∈ arr.*1 ↔ i < j ∧ i < length outs ∧ is_Some (target fs (n, i))
  | _ => True
  end.
(** The function has given its outputs to its edges. *)
Definition is_done lg n : Prop :=
  runs (pinfo K) n = true →
  ∃ outs, (n, outs) ∈ returned_in g lg ∧ ∀ i, i < length outs → is_Some (target fs (n, i)) → (n, i) ∈ arr.*1.
(** The functions with an edge into a function that is called have returned before. *)
Definition ordered lg : Prop :=
  ∀ l1 n gm ins l2, lg = l1 ++ Called g n gm ins :: l2 → ∀ k, k ∈ edges_into fs R n → k.1 ∈ (returned_in g l1).*1.

Record task_ok G its lg : Prop := {
  o_keys : NoDup arr.*1;
  o_from k v : (k, v) ∈ arr → k.1 ∈ R ∧ is_Some (target fs k) ∧ ∃ outs, (k.1, outs) ∈ returned_in g lg ∧ outs !! k.2 = Some v;
  o_deps n : dependencies G !! n = entry (indeg n - come n);
  o_not_ready n :
    if executes (pinfo K) n && (0 <? come n) && (come n <? indeg n) then ∃ b, not_ready G !! n = Some b ∧ buffer_of fs arr n = Ok b
    else not_ready G !! n = None;
  o_active n : n ∈ omap active_fn its → started n;
  o_phases p : p ∈ its → phase_ok lg p;
  o_captured n : started n → n ∉ omap uncalled_fn its → ∃ b, buffer_of fs arr n = Ok b ∧ kept_captures n b (captured_vars G);
  o_uncaptured i : (∀ n c, n ∈ R → c ∈ captures_at (pinfo K) n → c.2 ≠ i) → captured_vars G !! i = replicate (pcount K) None !! i;
  o_done n : started n → n ∉ omap active_fn its → is_done lg n;
  o_called n : n ∈ (called_in g lg).*1 → started n;
  o_returned n outs : (n, outs) ∈ returned_in g lg → ∃ b ins, buffer_of fs arr n = Ok b ∧ (n, ins) ∈ called_in g lg ∧ evaluates fs n b ins outs;
  o_order : ordered lg
}.
End progress.

Definition no_error G its : Prop := has_error G = false ∧ count_if is_failing its = 0.
(** A failed task has its exception. *)
Definition error_known G : Prop := has_error G = true → is_Some (exception G).
Definition task_inv (g : nat) K G its lg : Prop :=
  task_base g K G its lg ∧ (no_error G its → ∃ arr, task_ok g K arr G its lg) ∧ error_known G.

(** *** All graph tasks of a state, and what they are for *)

(** Every edge leads to a function that is there. *)
Definition closed fs : Prop := ∀ h n, linked fs h n → is_Some (fs !! n).
Record engine_inv (Ks : nat → Pass) s : Prop := {
  e_closed : closed (functions s);
  e_queues : ready_queues s ≠ [];
  e_items p g : p ∈ items s → item_base p = Some g → g < next_task s;
  e_tasks g : is_Some (graph_tasks s !! g) → g < next_task s;
  e_log g : next_task s ≤ g → called_in g (log s) = [] ∧ returned_in g (log s) = [];
  e_inv g G : graph_tasks s !! g = Some G → pass_ok (Ks g) ∧ pfs (Ks g) ⊆ functions s ∧ task_inv g (Ks g) G (items_of g s) (log s)
}.
End spec.
