(* ===== verification/EngineTurns.v ===== *)
(** * The turns of a graph task keep what is always true of it

    Counters, and that no function is called twice, whether or not functions fail. *)
From S2P Require Import Prelude CoreTypes AutogradEngine EngineGraph EngineSpec.
Local Open Scope nat_scope.
Local Open Scope list_scope.
#[local] Set Warnings "-clear-no-such-hyp".
Import Engine.

Section turns.
Context {T : Type} `{!Tensors T}.
Implicit Types (fs : gmap ptr (Function (T:=T))) (f n h : ptr) (s : State (T:=T)) (G : GraphTask (T:=T)) (p : Phase (T:=T)).
Implicit Types (its : list (Phase (T:=T))) (t : FunctionTask (T:=T)) (lg evs : list (event (T:=T))) (ins outs : list (variable (T:=T))) (K : Pass (T:=T)).

(** ** Lists of items and events *)
Lemma count_if_cons (q : Phase → bool) p its : count_if q (p :: its) = (if q p then 1 else 0) + count_if q its.
Proof. unfold count_if. cbn. by destruct (q p). Qed.
Lemma count_if_app (q : Phase → bool) its its' : count_if q (its ++ its') = count_if q its + count_if q its'.
Proof. unfold count_if. by rewrite List.filter_app, length_app. Qed.
Lemma count_if_perm (q : Phase (T:=T) → bool) its its' : its ≡ₚ its' → count_if q its = count_if q its'.
Proof. intros H. unfold count_if. apply Permutation_length, bfilter_perm, H. Qed.
Lemma omap_cons_some {A B} (q : A → option B) x l y : q x = Some y → omap q (x :: l) = y :: omap q l.
Proof. intros E. cbn. by rewrite E. Qed.
Lemma omap_cons_none {A B} (q : A → option B) x l : q x = None → omap q (x :: l) = omap q l.
Proof. intros E. cbn. by rewrite E. Qed.
Lemma elem_of_omap_cons {A B} (q : A → option B) x l y : y ∈ omap q (x :: l) ↔ q x = Some y ∨ y ∈ omap q l.
Proof. cbn. destruct (q x) as [z|]; [rewrite elem_of_cons; naive_solver|naive_solver]. Qed.

Lemma called_in_app g lg evs : called_in g (lg ++ evs) = called_in g lg ++ called_in g evs.
Proof. apply omap_app. Qed.
Lemma returned_in_app g lg evs : returned_in g (lg ++ evs) = returned_in g lg ++ returned_in g evs.
Proof. apply omap_app. Qed.

(** Events that are about no call. *)
Lemma called_in_call g f gm ins (keep : bool) : called_in g ((if keep then [] else [Will_release f]) ++ [Called g f gm ins]) = [(f, ins)].
Proof. destruct keep; cbn; by rewrite decide_True. Qed.
Lemma returned_in_call g f gm ins (keep : bool) : returned_in g ((if keep then [] else [Will_release f]) ++ [Called g f gm ins]) = [].
Proof. by destruct keep. Qed.
Lemma called_in_return g f outs (keep : bool) : called_in g (Returned g f outs :: (if keep then [] else [Released f])) = [].
Proof. by destruct keep. Qed.
Lemma returned_in_return g f outs (keep : bool) : returned_in g (Returned g f outs :: (if keep then [] else [Released f])) = [(f, outs)].
Proof. destruct keep; cbn; by rewrite decide_True. Qed.
(** A turn logs nothing about other graph tasks. *)
Lemma turn_events fs G p G' ps evs g : turn fs G p G' ps evs → item_base p ≠ Some g → called_in g evs = [] ∧ returned_in g evs = [].
Proof.
  intros H Hg. assert (∀ t, phase_task p = Some t → base t ≠ g) as Hb by (intros t Ht E; apply Hg; unfold item_base; rewrite Ht; cbn; by rewrite E).
  destruct H; try done; specialize (Hb t eq_refl); subst evs; destruct (keep_graph G); cbn; by rewrite ?decide_False.
Qed.

(** Functions of items. *)
Lemma uncalled_counted p n : uncalled_fn p = Some n → counted_fn p = Some n.
Proof. by destruct p. Qed.
Lemma unreturned_counted p n : unreturned_fn p = Some n → counted_fn p = Some n.
Proof. by destruct p. Qed.
Lemma active_counted p n : active_fn p = Some n → counted_fn p = Some n.
Proof. by destruct p. Qed.
Lemma uncalled_unreturned p n : uncalled_fn p = Some n → unreturned_fn p = Some n.
Proof. by destruct p. Qed.
Lemma unreturned_active p n : unreturned_fn p = Some n → active_fn p = Some n.
Proof. by destruct p. Qed.
Lemma omap_incl (q q' : Phase (T:=T) → option ptr) its n : (∀ p n, q p = Some n → q' p = Some n) → n ∈ omap q its → n ∈ omap q' its.
Proof. intros H. rewrite !list_elem_of_omap. intros (p & Hp & Hn). eauto. Qed.
Lemma omap_le (q : Phase (T:=T) → option ptr) its its' : its ⊆+ its' → ∀ n, n ∈ omap q its → n ∈ omap q its'.
Proof. intros Hs n. rewrite !list_elem_of_omap. intros (p & Hp & Hn). exists p. split; [|done]. by eapply elem_of_submseteq. Qed.
Lemma counted_fn_counted p n : counted_fn p = Some n → counted p = true.
Proof. unfold counted_fn. by destruct (counted p). Qed.
Lemma counted_none its : count_if counted its = 0 → omap counted_fn its = [].
Proof.
  induction its as [|p its IH]; [done|]. rewrite count_if_cons. destruct (counted p) eqn:E; [lia|]. intros H.
  rewrite omap_cons_none; [by apply IH|]. unfold counted_fn. by rewrite E.
Qed.
(** Items that are counted have a function, or are messages. *)
Lemma count_counted its : count_if counted its ≤ length (omap counted_fn its) + count_if notice its.
Proof.
  induction its as [|p its IH]; [done|]. rewrite !count_if_cons.
  destruct (counted p) eqn:E; [|destruct (counted_fn p) eqn:Ef; [apply counted_fn_counted in Ef; congruence|rewrite omap_cons_none by done; lia]].
  destruct (counted_fn p) as [n|] eqn:Ef; [rewrite (omap_cons_some _ _ _ _ Ef); cbn [length]; lia|]. rewrite omap_cons_none by done.
  assert (notice p = true) as ->; [|lia].
  unfold counted_fn in Ef. rewrite E in Ef. destruct p; cbn in *; try discriminate E; by apply bool_decide_eq_true.
Qed.

(** ** Permutations, owners and mutexes *)
Lemma task_base_perm g K G its its' lg : its ≡ₚ its' → task_base g K G its lg → task_base g K G its' lg.
Proof.
  intros E I. split; try apply I.
  - rewrite <- (count_if_perm _ _ _ E). apply I.
  - rewrite <- E. apply I.
  - intros n. rewrite <- E. apply I.
  - intros n. rewrite <- E. apply I.
  - intros n. rewrite <- E. apply I.
  - intros n. rewrite <- E. apply I.
  - rewrite <- (count_if_perm _ _ _ E). apply I.
  - rewrite <- (count_if_perm _ _ _ E). intros Hn. apply Permutation_nil. rewrite <- (b_last _ _ _ _ _ I Hn). by rewrite E.
Qed.
Lemma task_ok_perm g K arr G its its' lg : its ≡ₚ its' → task_ok g K arr G its lg → task_ok g K arr G its' lg.
Proof.
  intros E I. split; try apply I.
  - intros n. rewrite <- E. apply I.
  - intros p. rewrite <- E. apply I.
  - intros n. rewrite <- E. apply I.
  - intros n. rewrite <- E. apply I.
Qed.
Lemma task_inv_perm g K G its its' lg : its ≡ₚ its' → task_inv g K G its lg → task_inv g K G its' lg.
Proof.
  intros E (Hb & Hok & Hk). split_and!; [by eapply task_base_perm| |done]. intros [He Hf]. destruct Hok as [arr Hok]; [split; [done|by rewrite (count_if_perm _ _ _ E)]|].
  exists arr. by eapply task_ok_perm.
Qed.
Lemma task_inv_quiet g K G G' its lg : quiet G G' → task_inv g K G its lg → task_inv g K G' its lg.
Proof.
  intros (o & l & ->) (Hb & Hok & Hk). split_and!; [destruct Hb; by split| |done]. intros He. destruct (Hok He) as [arr []]. exists arr. by split.
Qed.

(** ** How many items there can be *)
Lemma reached_bound fs root R : reached fs root R → length R ≤ S (total_edges fs).
Proof.
  intros (Hnd & Hr & Hlive). transitivity (length (root :: omap (λ k, fst <$> target fs k) (edges_from fs R))).
  - apply submseteq_length, NoDup_submseteq; [done|]. intros n Hn. rewrite elem_of_cons. apply Hr in Hn as Hp.
    apply rtc_inv_r in Hp as [->|(h & Hh & i & j & Ht)]; [by left|right]. apply list_elem_of_omap.
    exists (h, i). split; [|by rewrite Ht]. apply elem_of_edges_from. split; [by apply Hr|].
    apply target_Some in Ht as (F & e & HF & He & _). exists F. split; [done|]. by eapply lookup_lt_Some.
  - cbn. apply le_n_S. transitivity (length (edges_from fs R)); [|by apply edges_from_bound].
    generalize (edges_from fs R) as l. induction l as [|k l IH]; [done|]. cbn. destruct (target fs k); cbn; lia.
Qed.
Lemma items_bound g K G its lg : pass_ok K → task_base g K G its lg → (Z.of_nat (count_if counted its) ≤ 2 ^ 31 + 1)%Z.
Proof.
  intros P I. pose proof (p_bound _ P) as Hb. pose proof (reached_bound _ _ _ (p_reached _ P)) as Hr. pose proof (count_counted its).
  pose proof (b_notice _ _ _ _ _ I). assert (length (omap counted_fn its) ≤ length (preach K)); [|lia].
  apply submseteq_length, NoDup_submseteq; [apply I|]. intros n Hn. apply (b_used _ _ _ _ _ I). by left.
Qed.

(** ** What is always true *)

(** An item that changes its phase only. *)
Lemma base_phase g K G G' p p' rest lg :
  task_base g K G (p :: rest) lg → exec_info G' = exec_info G → outstanding_tasks G' = outstanding_tasks G →
  (∀ n, is_Some (dependencies G' !! n) → is_Some (dependencies G !! n)) →
  counted p' = counted p → counted_fn p' = counted_fn p → notice p' = notice p →
  (∀ n, uncalled_fn p' = Some n → uncalled_fn p = Some n) → (∀ n, unreturned_fn p' = Some n → unreturned_fn p = Some n) →
  (∀ n, unreturned_fn p' = Some n → uncalled_fn p = Some n → uncalled_fn p' = Some n) →
  task_base g K G' (p' :: rest) lg.
Proof.
  intros I Hi Ho Hd E1 E2 E3 Hu Hr Huu. pose proof (b_used _ _ _ _ _ I) as Hus.
  assert (Ecf : omap counted_fn (p' :: rest) = omap counted_fn (p :: rest)) by (cbn; by rewrite E2).
  split; try apply I.
  - rewrite Hi. apply I.
  - rewrite Ho, (b_outstanding _ _ _ _ _ I), !count_if_cons, E1. done.
  - rewrite Ecf. apply I.
  - intros n Hn. rewrite Ecf in Hn. destruct (Hus n Hn) as [H1 H2]. split; [done|]. apply eq_None_not_Some. intros H3%Hd. by rewrite H2 in H3; destruct H3.
  - intros n Hn. by apply (b_waiting _ _ _ _ _ I), Hd.
  - intros n. rewrite elem_of_omap_cons. intros Hn. apply (b_fresh _ _ _ _ _ I). apply elem_of_omap_cons. naive_solver.
  - intros n. rewrite elem_of_omap_cons. intros Hn. apply (b_unreturned _ _ _ _ _ I). apply elem_of_omap_cons. naive_solver.
  - intros n. rewrite !elem_of_omap_cons. intros [Hn|Hn].
    + destruct (b_calling _ _ _ _ _ I n) as [H1|H1]; [apply elem_of_omap_cons; auto| |by right]. apply elem_of_omap_cons in H1 as [H1|H1]; auto.
    + destruct (b_calling _ _ _ _ _ I n) as [H1|H1]; [apply elem_of_omap_cons; by right| |by right]. left.
      apply elem_of_omap_cons in H1 as [H1|H1]; [|by right].
      exfalso. pose proof (b_counted _ _ _ _ _ I) as Hnd. apply uncalled_counted in H1. rewrite (omap_cons_some _ _ _ _ H1) in Hnd.
      apply list.NoDup_cons in Hnd as [Hnd _]. apply Hnd. apply (omap_incl _ _ _ _ unreturned_counted Hn).
  - rewrite count_if_cons, E3, <- count_if_cons. apply I.
  - rewrite count_if_cons, E3, <- count_if_cons, Ecf. apply I.
Qed.

(** The function of the item in front is in no other item. *)
Lemma base_front g K G p rest lg n m :
  task_base g K G (p :: rest) lg → counted_fn p = Some n → m ∈ omap counted_fn rest → m ≠ n.
Proof.
  intros I Hp Hm ->. pose proof (b_counted _ _ _ _ _ I) as Hnd. rewrite (omap_cons_some _ _ _ _ Hp) in Hnd.
  by apply list.NoDup_cons in Hnd as [Hnd _].
Qed.

Lemma base_call g K G t p' f ins rest lg evs :
  task_base g K G (Evaluating t :: rest) lg → fn t = Some f → runs (pinfo K) f = true →
  counted p' = true → counted_fn p' = Some f → notice p' = false → uncalled_fn p' = None → unreturned_fn p' = Some f →
  called_in g evs = [(f, ins)] → returned_in g evs = [] →
  task_base g K G (p' :: rest) (lg ++ evs).
Proof.
  intros I Hf Hr E1 E2 E3 E4 E5 Ec Ere.
  assert (Ef : counted_fn (Evaluating t) = Some f) by done. assert (Eu : uncalled_fn (Evaluating t) = Some f) by done.
  assert (Er : unreturned_fn (Evaluating t) = Some f) by done. pose proof (base_front g K G (Evaluating t) rest lg f) as Hfr.
  assert (Hfresh : f ∉ (called_in g lg).*1) by (apply (b_fresh _ _ _ _ _ I), elem_of_omap_cons; by left).
  assert (Hcall : (called_in g (lg ++ evs)).*1 = (called_in g lg).*1 ++ [f]) by (rewrite called_in_app, Ec, fmap_app; done).
  assert (Hret : returned_in g (lg ++ evs) = returned_in g lg) by (rewrite returned_in_app, Ere; apply app_nil_r).
  assert (Hold : f ∈ omap counted_fn (Evaluating t :: rest)) by (apply elem_of_omap_cons; by left).
  assert (Hin : ∀ n, n ∈ omap counted_fn (p' :: rest) → n ∈ omap counted_fn (Evaluating t :: rest)) by (intros n; by rewrite !elem_of_omap_cons, E2, Ef).
  split; rewrite ?Hcall, ?Hret.
  - apply I.
  - rewrite (b_outstanding _ _ _ _ _ I), !count_if_cons, E1. done.
  - rewrite (omap_cons_some _ _ _ _ E2), <- (omap_cons_some _ _ _ _ Ef). apply I.
  - intros n. rewrite elem_of_app, list_elem_of_singleton. intros [Hn|[Hn| ->]]; apply (b_used _ _ _ _ _ I); [left; by apply Hin|by right|by left].
  - apply I.
  - apply list.NoDup_app. split_and!; [apply I| |apply NoDup_singleton]. by intros n Hn ->%list_elem_of_singleton.
  - intros n Hn. rewrite (omap_cons_none _ _ _ E4) in Hn. rewrite elem_of_app, list_elem_of_singleton. intros [Hn'| ->].
    + by apply (b_fresh _ _ _ _ _ I) in Hn'; [|apply elem_of_omap_cons; by right].
    + by apply (Hfr _ I Ef (omap_incl _ _ _ _ uncalled_counted Hn)).
  - intros n. rewrite elem_of_app, list_elem_of_singleton. intros [Hn| ->]; [by apply (b_runs _ _ _ _ _ I)|done].
  - intros n Hn. apply elem_of_app. left. by apply (b_returned _ _ _ _ _ I).
  - apply I.
  - intros n. rewrite elem_of_omap_cons, E5. intros Hn. apply (b_unreturned _ _ _ _ _ I). by rewrite elem_of_omap_cons, Er.
  - intros n. rewrite elem_of_omap_cons, E5, (omap_cons_none _ _ _ E4), elem_of_app, list_elem_of_singleton. intros [[= <-]|Hn]; [by right; right|].
    destruct (b_calling _ _ _ _ _ I n) as [H1|H1]; [apply elem_of_omap_cons; by right| |by right; left].
    apply elem_of_omap_cons in H1 as [H1|H1]; [|by left]. rewrite Eu in H1. injection H1 as <-. by right; right.
  - rewrite count_if_cons, E3. pose proof (b_notice _ _ _ _ _ I) as Hn. rewrite count_if_cons in Hn. lia.
  - rewrite count_if_cons, E3. intros Hn. exfalso. pose proof (b_last _ _ _ _ _ I) as Hl. rewrite count_if_cons, (omap_cons_some _ _ _ _ Ef) in Hl.
    by specialize (Hl ltac:(lia)).
Qed.

Lemma base_return g K G p p' f outs rest lg evs :
  task_base g K G (p :: rest) lg → counted_fn p = Some f → unreturned_fn p = Some f → uncalled_fn p = None →
  counted p' = true → counted_fn p' = Some f → notice p' = notice p → unreturned_fn p' = None →
  called_in g evs = [] → returned_in g evs = [(f, outs)] →
  task_base g K G (p' :: rest) (lg ++ evs).
Proof.
  intros I Ef Er Eu E1 E2 E3 E4 Ec Ere.
  assert (E5 : uncalled_fn p' = None) by (destruct (uncalled_fn p') eqn:E; [by apply uncalled_unreturned in E; congruence|done]).
  assert (I' : task_base g K G (p' :: rest) lg).
  { apply (base_phase g K G G p); try done; [by rewrite E1, (counted_fn_counted _ _ Ef)|congruence|intros n; congruence..]. }
  assert (Hcall : called_in g (lg ++ evs) = called_in g lg) by (rewrite called_in_app, Ec; apply app_nil_r).
  assert (Hret : (returned_in g (lg ++ evs)).*1 = (returned_in g lg).*1 ++ [f]) by (rewrite returned_in_app, Ere, fmap_app; done).
  assert (Hnew : f ∉ (returned_in g lg).*1) by (apply (b_unreturned _ _ _ _ _ I), elem_of_omap_cons; by left).
  assert (Hcf : f ∈ (called_in g lg).*1).
  { destruct (b_calling _ _ _ _ _ I f) as [H1|H1]; [apply elem_of_omap_cons; by left| |done]. rewrite (omap_cons_none _ _ _ Eu) in H1.
    by destruct (base_front _ _ _ _ _ _ f f I Ef (omap_incl _ _ _ _ uncalled_counted H1)). }
  split; rewrite ?Hcall, ?Hret; try apply I'.
  - intros n. rewrite elem_of_app, list_elem_of_singleton. intros [Hn| ->]; [by apply (b_returned _ _ _ _ _ I)|done].
  - apply list.NoDup_app. split_and!; [apply I| |apply NoDup_singleton]. by intros n Hn ->%list_elem_of_singleton.
  - intros n Hn. rewrite elem_of_app, list_elem_of_singleton. intros [Hn'| ->]; [by apply (b_unreturned _ _ _ _ _ I') in Hn'|].
    rewrite (omap_cons_none _ _ _ E4) in Hn. by destruct (base_front _ _ _ _ _ _ f f I Ef (omap_incl _ _ _ _ unreturned_counted Hn)).
Qed.

(** A ready function becomes a task. *)
Lemma base_push g K G G' p n b rest lg :
  task_base g K G (p :: rest) lg → pass_ok K → count_if notice (p :: rest) = 0 → is_Some (dependencies G !! n) →
  exec_info G' = exec_info G → outstanding_tasks G' = uint64 (outstanding_tasks G + 1) → dependencies G' = delete n (dependencies G) →
  task_base g K G' (p :: Popped (mkTask g (Some n) b) :: rest) lg.
Proof.
  intros I P Hno Hd Hi Ho Hd'. set (new := Popped (mkTask g (Some n) b)).
  assert (Hn : (n ∉ omap counted_fn (p :: rest)) ∧ n ∉ (called_in g lg).*1).
  { split; intros H; destruct (b_used _ _ _ _ _ I n) as [_ H1]; [by left|by rewrite H1 in Hd; destruct Hd|by right|by rewrite H1 in Hd; destruct Hd]. }
  assert (HR : n ∈ preach K) by (by apply (b_waiting _ _ _ _ _ I)).
  apply (task_base_perm _ _ _ (new :: p :: rest)); [constructor|]. set (its := p :: rest) in *. split; try apply I.
  - rewrite Hi. apply I.
  - rewrite Ho, (b_outstanding _ _ _ _ _ I), count_if_cons. cbn [counted new]. unfold uint64. pose proof (items_bound _ _ _ _ _ P I).
    rewrite wrapU_id; [lia|]. unfold in_U. lia.
  - cbn. constructor; [apply Hn|apply I].
  - intros m. rewrite elem_of_omap_cons. cbn [new counted_fn counted phase_task mbind option_bind fn]. intros Hm.
    assert (m = n ∨ (m ∈ preach K ∧ dependencies G !! m = None)) as [->|[H1 H2]].
    { destruct Hm as [[[= <-]|Hm]|Hm]; [by left|right; apply (b_used _ _ _ _ _ I); by left|right; apply (b_used _ _ _ _ _ I); by right]. }
    + split; [done|]. rewrite Hd'. apply lookup_delete_eq.
    + split; [done|]. rewrite Hd'. rewrite lookup_delete. by case_decide.
  - intros m. rewrite Hd', lookup_delete. case_decide; [by intros [? [=]]|]. apply I.
  - intros m. rewrite elem_of_omap_cons. cbn [new uncalled_fn fn]. intros [[= <-]|Hm]; [apply Hn|by apply (b_fresh _ _ _ _ _ I)].
  - intros m. rewrite elem_of_omap_cons. cbn [new unreturned_fn fn]. intros [[= <-]|Hm]; [|by apply (b_unreturned _ _ _ _ _ I)].
    intros H%(b_returned _ _ _ _ _ I). by apply Hn.
  - intros m. rewrite !elem_of_omap_cons. cbn [new unreturned_fn uncalled_fn fn]. intros [[= <-]|Hm]; [by left; left|].
    destruct (b_calling _ _ _ _ _ I m Hm) as [?|?]; [by left; right|by right].
  - intros Hx. by destruct (Hx Hno).
Qed.
Lemma no_notice g K G p rest lg f : task_base g K G (p :: rest) lg → counted_fn p = Some f → count_if notice (p :: rest) = 0.
Proof.
  intros I Hf. pose proof (b_last _ _ _ _ _ I) as Hl. rewrite (omap_cons_some _ _ _ _ Hf) in Hl.
  destruct (count_if notice (p :: rest)); [done|]. by specialize (Hl ltac:(lia)).
Qed.

(** The counter goes down; nothing is left when it reaches zero. *)
Lemma base_count g K G t o new rest lg :
  task_base g K G (Counting t o :: rest) lg → pass_ok K →
  (new = [] ∨ new = [Notifying t o] ∧ uint64 (outstanding_tasks G - 1) = 0%Z) →
  task_base g K (set_outstanding_tasks (uint64 (outstanding_tasks G - 1)) G) (new ++ rest) lg.
Proof.
  intros I P Hnew. pose proof (items_bound _ _ _ _ _ P I) as Hb. pose proof (b_outstanding _ _ _ _ _ I) as Ho.
  assert (Hz : uint64 (outstanding_tasks G - 1) = Z.of_nat (count_if counted rest)).
  { rewrite Ho, count_if_cons. rewrite count_if_cons in Hb. cbn [counted] in *. unfold uint64. rewrite wrapU_id; [lia|]. unfold in_U. lia. }
  set (G' := set_outstanding_tasks _ G).
  assert (E : ∀ (q : Phase → option ptr), (q (Notifying t o) = None) → omap q (new ++ rest) = omap q rest).
  { intros q Hq. destruct Hnew as [->|[-> _]]; [done|]. cbn. by rewrite Hq. }
  assert (Hsub : ∀ (q : Phase → option ptr) n, n ∈ omap q rest → n ∈ omap q (Counting t o :: rest)) by (intros q n Hn; apply elem_of_omap_cons; by right).
  split; rewrite ?(E counted_fn), ?(E uncalled_fn), ?(E unreturned_fn) by done.
  - apply I.
  - cbn [G' outstanding_tasks set_outstanding_tasks]. rewrite Hz. f_equal. destruct Hnew as [->|[-> _]]; [done|]. by cbn [app]; rewrite count_if_cons.
  - pose proof (b_counted _ _ _ _ _ I) as Hnd. cbn in Hnd. destruct (fn t); [by apply list.NoDup_cons in Hnd as [_ ?]|done].
  - intros n Hn. apply (b_used _ _ _ _ _ I). destruct Hn; [left; by apply Hsub|by right].
  - apply I.
  - apply I.
  - intros n Hn. apply (b_fresh _ _ _ _ _ I). by apply Hsub.
  - apply I.
  - apply I.
  - apply I.
  - intros n Hn. apply (b_unreturned _ _ _ _ _ I). by apply Hsub.
  - intros n Hn. destruct (b_calling _ _ _ _ _ I n) as [H1|H1]; [by apply Hsub| |by right]. left. apply elem_of_omap_cons in H1 as [H1|H1]; done.
  - pose proof (b_notice _ _ _ _ _ I) as Hn. rewrite count_if_cons in Hn. destruct Hnew as [->|[-> Hz0]]; [cbn [app]; lia|].
    cbn [app]. rewrite count_if_cons. cbn [notice]. cbn [notice phase_task] in Hn. case_bool_decide as Hf; [lia|].
    pose proof (b_last _ _ _ _ _ I) as Hl. rewrite count_if_cons in Hl. cbn [notice phase_task] in Hl. rewrite bool_decide_eq_false_2 in Hl by done.
    destruct (fn t) as [f|] eqn:Ef; [|done]. assert (counted_fn (Counting t o) = Some f) as Ec by (cbn; by rewrite Ef). rewrite (omap_cons_some _ _ _ _ Ec) in Hl.
    destruct (count_if notice rest); [lia|]. by specialize (Hl ltac:(lia)).
  - destruct Hnew as [->|[-> Hz0]].
    + cbn [app]. intros Hn. pose proof (b_last _ _ _ _ _ I) as Hl. rewrite count_if_cons in Hl. specialize (Hl ltac:(lia)). cbn in Hl.
      by destruct (fn t).
    + intros _. apply counted_none. lia.
Qed.

Lemma base_told g K G t o rest lg : task_base g K G (Notifying t o :: rest) lg → task_base g K G rest lg.
Proof.
  intros I. split; try apply I.
  - pose proof (b_notice _ _ _ _ _ I) as Hn. rewrite count_if_cons in Hn. lia.
  - intros Hn. apply (b_last _ _ _ _ _ I). rewrite count_if_cons. lia.
Qed.

Lemma base_message g K G G' t o rest lg :
  task_base g K G (Notifying t o :: rest) lg → pass_ok K → exec_info G' = exec_info G → dependencies G' = dependencies G →
  outstanding_tasks G' = uint64 (outstanding_tasks G + 1) → task_base g K G' (Popped (mkTask g None []) :: rest) lg.
Proof.
  intros I P Hi Hd Ho. pose proof (items_bound _ _ _ _ _ P I) as Hb. split; rewrite ?Hd, ?Hi; try apply I.
  rewrite Ho, (b_outstanding _ _ _ _ _ I), !count_if_cons. cbn [counted]. rewrite count_if_cons in Hb. cbn [counted] in Hb.
  unfold uint64. rewrite wrapU_id; [lia|]. unfold in_U. lia.
Qed.

Lemma int32_small d : (0 < d < 2 ^ 31)%Z → int32 (d - 1) = (d - 1)%Z.
Proof. intros H. unfold int32. apply wrapS_id; [done|]. unfold in_S. lia. Qed.

Lemma turn_base fs g K G p G' ps evs rest lg :
  pass_ok K → turn fs G p G' ps evs → item_base p = Some g → task_base g K G (p :: rest) lg → task_base g K G' (ps ++ rest) (lg ++ evs).
Proof.
  intros P H Hg I.
  destruct H; try rewrite (app_nil_r lg); cbn [app] in *;
    try (unfold item_base in Hg; cbn in Hg; injection Hg as Hg; subst g);
    try (apply (base_phase _ K G _ _ _ rest lg I); try done; cbn; by (destruct (has_error G) || naive_solver)).
  - apply (base_call (base t) K _ t _ f ins); try done; [by apply (base_phase _ K G _ _ _ rest lg I)|by rewrite <- (b_info _ _ _ _ _ I)|by cbn; rewrite H| |];
      subst evs; [apply called_in_call|apply returned_in_call].
  - assert (counted_fn p' = Some f ∧ counted p' = true ∧ notice p' = false ∧ unreturned_fn p' = None) as (E1 & E2 & E3 & E4).
    { destruct H3 as [[-> _]|[->|[e ->]]]; cbn; by rewrite H, ?bool_decide_eq_false_2 by (by rewrite H). }
    eapply (base_return _ _ _ _ _ f outs); try done; [cbn; by rewrite bool_decide_eq_false_2 by (by rewrite H)| |]; subst evs;
      [apply called_in_return|apply returned_in_return].
  - assert (I' : task_base (base t) K G (Delivering t rest0 :: rest) lg) by (apply (base_phase _ K G _ _ _ rest lg I); done).
    assert (Hn : counted_fn (Delivering t rest0) = Some f) by done. destruct H0; cbn [app].
    + done.
    + apply (base_phase _ K G _ _ _ rest lg I'); try done. cbn. intros m. subst deps. case_decide; [rewrite lookup_delete|rewrite lookup_insert]; case_decide; subst; eauto.
    + apply (base_phase _ K G _ _ _ rest lg I'); try done. cbn. intros m. rewrite lookup_insert. case_decide; subst; eauto.
    + apply (base_push _ K G); try done. by eapply no_notice.
  - by apply (base_count _ _ _ t o).
  - by eapply base_told.
  - by eapply (base_message _ K G).
Qed.
End turns.
