(* ===== verification/EngineProgress.v ===== *)
(** * The turns of a graph task, as long as no function fails

    Every turn keeps [task_ok]: the buffers hold the gradients that have come, and a
    function starts when all of them have. *)
From S2P Require Import Prelude CoreTypes AutogradEngine EngineGraph EngineSpec EngineTurns.
Local Open Scope nat_scope.
Local Open Scope list_scope.
#[local] Set Warnings "-clear-no-such-hyp".
Import Engine.

Section progress.
Context {T : Type} `{!Tensors T}.
Implicit Types (fs : gmap ptr (Function (T:=T))) (f n m h : ptr) (G : GraphTask (T:=T)) (p : Phase (T:=T)).
Implicit Types (its : list (Phase (T:=T))) (t : FunctionTask (T:=T)) (lg evs : list (event (T:=T))) (ins outs : list (variable (T:=T))) (K : Pass (T:=T)).
Implicit Types (arr : list ((ptr * nat) * variable (T:=T))).

(** ** What has come *)
Lemma arrivals_snoc fs arr k v m :
  arrivals fs (arr ++ [(k, v)]) m = arrivals fs arr m ++ match target fs k with Some (n, j) => if decide (n = m) then [(j, v)] else [] | None => [] end.
Proof.
  unfold arrivals. rewrite omap_app. f_equal. unfold arrival. cbn. destruct (target fs k) as [[n j]|]; [|done]. by destruct (decide (n = m)).
Qed.
Lemma buffer_of_snoc fs arr k v n j : target fs k = Some (n, j) → buffer_of fs (arr ++ [(k, v)]) n = b ← buffer_of fs arr n; buffer_add j v b.
Proof. intros Ht. unfold buffer_of. rewrite arrivals_snoc, Ht, decide_True by done. unfold add_all. by rewrite foldl_app. Qed.
Lemma buffer_of_other fs arr k v n m j : target fs k = Some (n, j) → m ≠ n → buffer_of fs (arr ++ [(k, v)]) m = buffer_of fs arr m.
Proof. intros Ht Hm. unfold buffer_of. by rewrite arrivals_snoc, Ht, decide_False, app_nil_r. Qed.
Lemma arrivals_length fs arr n : length (arrivals fs arr n) = length (List.filter (goes_to fs n) arr.*1).
Proof.
  induction arr as [|[k v] arr IH]; [done|]. unfold arrivals in *. cbn. unfold arrival at 1, goes_to at 1. cbn [fst snd].
  destruct (target fs k) as [[m j]|]; [|done]. cbn [fst]. destruct (decide (m = n)) as [->|Hne].
  - rewrite bool_decide_eq_true_2 by done. cbn. by rewrite IH.
  - by rewrite bool_decide_eq_false_2.
Qed.

Section keys.
Context fs (R : list ptr) arr (Hkeys : NoDup arr.*1) (Hfrom : ∀ k v, (k, v) ∈ arr → k.1 ∈ R ∧ is_Some (target fs k)).
Lemma keys_into n k : k ∈ List.filter (goes_to fs n) arr.*1 → k ∈ edges_into fs R n ∧ k ∈ arr.*1.
Proof.
  rewrite list_elem_of_In, filter_In, <- list_elem_of_In. intros [Hk Hg]. split; [|done].
  apply list_elem_of_fmap in Hk as ([k' v] & -> & Hk). cbn in *. destruct (Hfrom _ _ Hk) as [Hr [[m j] Ht]].
  apply elem_of_edges_into. split; [done|]. exists j. unfold goes_to in Hg. rewrite Ht in *. by apply bool_decide_eq_true in Hg as <-.
Qed.
Lemma arrivals_le n : length (arrivals fs arr n) ≤ indegree fs R n.
Proof.
  rewrite arrivals_length. apply submseteq_length, NoDup_submseteq; [by apply NoDup_ListNoDup, List.NoDup_filter, NoDup_ListNoDup|].
  intros k Hk. by apply keys_into.
Qed.
(** An edge that nothing has come over. *)
Lemma arrivals_lt n k j : k ∉ arr.*1 → k.1 ∈ R → target fs k = Some (n, j) → length (arrivals fs arr n) < indegree fs R n.
Proof.
  intros Hk HR Ht. rewrite arrivals_length. assert (length (k :: List.filter (goes_to fs n) arr.*1) ≤ indegree fs R n); [|done].
  apply submseteq_length, NoDup_submseteq.
  - constructor; [by intros [_ ?]%keys_into|by apply NoDup_ListNoDup, List.NoDup_filter, NoDup_ListNoDup].
  - intros k' [->|Hk']%elem_of_cons; [apply elem_of_edges_into; by eauto|by apply keys_into].
Qed.
(** When all have come, every edge is among the keys. *)
Lemma arrivals_all n : NoDup R → length (arrivals fs arr n) = indegree fs R n → ∀ k, k ∈ edges_into fs R n → k ∈ arr.*1.
Proof.
  intros HR Hlen k Hk. destruct (decide (k ∈ arr.*1)) as [?|Hn]; [done|exfalso]. apply elem_of_edges_into in Hk as [Hk [j Ht]].
  pose proof (arrivals_lt n k j Hn Hk Ht). lia.
Qed.
End keys.

(** ** Functions of the pass are there *)
Lemma target_mono fs fs' k F : fs ⊆ fs' → fs !! k.1 = Some F → target fs' k = target fs k.
Proof. intros Hs HF. unfold target. by rewrite HF, (lookup_weaken _ _ _ _ HF Hs). Qed.
Lemma validate_grads_mono fs fs' edges grads :
  fs ⊆ fs' → (∀ n, n ∈ targets edges → is_Some (fs !! n)) → validate_grads fs' edges grads = validate_grads fs edges grads.
Proof.
  intros Hs. revert grads. induction edges as [|e edges IH]; intros grads Hl; [done|]. destruct grads as [|v grads]; [done|]. cbn.
  assert (validate_grad fs' e v = validate_grad fs e v) as ->.
  { unfold validate_grad. destruct (function e) as [n|] eqn:Hn; [|done]. destruct (Hl n) as [N HN]; [unfold targets; cbn; rewrite Hn; by left|].
    by rewrite HN, (lookup_weaken _ _ _ _ HN Hs). }
  rewrite IH; [done|]. intros n Hn. apply Hl. unfold targets. cbn. destruct (function e); [by right|done].
Qed.
Lemma validate_outputs_mono fs fs' edges grads :
  fs ⊆ fs' → (∀ n, n ∈ targets edges → is_Some (fs !! n)) → validate_outputs fs' edges grads = validate_outputs fs edges grads.
Proof. intros Hs Hl. unfold validate_outputs. by rewrite (validate_grads_mono fs fs'). Qed.

Lemma reached_linked fs root R h n : reached fs root R → h ∈ R → linked fs h n → n ∈ R.
Proof. intros (_ & Hr & _) Hh Hl. apply Hr. apply Hr in Hh. by eapply rtc_r. Qed.
Lemma reached_live fs root R h : reached fs root R → h ∈ R → is_Some (fs !! h).
Proof. intros (_ & _ & Hl). apply Hl. Qed.
Lemma reached_sub fs fs' root R h F : reached fs root R → fs ⊆ fs' → h ∈ R → fs' !! h = Some F → fs !! h = Some F.
Proof. intros Hr Hs Hh HF. destruct (reached_live _ _ _ _ Hr Hh) as [F' HF']. rewrite (lookup_weaken _ _ _ _ HF' Hs) in HF. congruence. Qed.

Lemma yields_residual (c c' : Computation (T:=T)) outs : residual c c' → yields c' outs → yields c outs.
Proof. induction 1 as [|c roots ins keep create os k r _ IH]; [done|]. intros H. apply IH. by econstructor. Qed.

(** ** Captures *)
Lemma capture_vars_length cs (b : InputBuffer (T:=T)) vars vars' : capture_vars cs b vars = Some vars' → length vars' = length vars.
Proof.
  revert vars. induction cs as [|c cs IH]; intros vars; cbn [capture_vars]; [by intros [= ->]|].
  intros (v & _ & E)%bind_Some. apply bind_Some in E as (old & _ & E). apply IH in E. by rewrite E, length_insert.
Qed.
Lemma captured_length G t f vars : captured G t f vars → length vars = length (captured_vars G).
Proof. unfold captured. case_decide; [by intros ->|]. intros [_ Hc]. by eapply capture_vars_length. Qed.
Lemma capture_vars_spec cs (b : InputBuffer (T:=T)) vars vars' :
  capture_vars cs b vars = Some vars' → (∀ c c', c ∈ cs → c' ∈ cs → c.2 = c'.2 → c = c') →
  (∀ c, c ∈ cs → ∃ v, b !! c.1 = Some v ∧ vars' !! c.2 = Some v) ∧ (∀ i, (∀ c, c ∈ cs → c.2 ≠ i) → vars' !! i = vars !! i).
Proof.
  revert vars. induction cs as [|c cs IH]; intros vars E Hinj; cbn in E; [injection E as <-; split; [by intros c ?%elem_of_nil|done]|].
  apply bind_Some in E as (v & Hv & (old & Ho & E)%bind_Some). destruct (IH _ E) as [H1 H2]; [intros; apply Hinj; [by right|by right|done]|]. split.
  - intros c' [->|Hc]%elem_of_cons; [|by apply H1]. destruct (decide (c ∈ cs)) as [Hc|Hc]; [by apply H1|].
    exists v. split; [done|]. rewrite H2; [apply list_lookup_insert_eq; by eapply lookup_lt_Some|].
    intros c' Hc' E'. apply Hc. rewrite <- (Hinj c' c); [done|by right|by left|done].
  - intros i Hi. rewrite H2 by (intros c' Hc'; apply Hi; by right). apply list_lookup_insert_ne. apply Hi. by left.
Qed.

Section pass.
Context (g : nat) K (P : pass_ok K).
#[local] Abbreviation fs := (pfs K).
#[local] Abbreviation R := (preach K).

Lemma captured_kept G t f vars n b :
  exec_info G = pinfo K → captured G t f vars → n ≠ f → kept_captures K n b (captured_vars G) → kept_captures K n b vars.
Proof.
  intros Hi Hc Hne Hk. unfold captured in Hc. rewrite Hi in Hc. case_decide as Hd; [by subst vars|]. destruct Hc as [_ Hc].
  intros _ c Hn. destruct (Hk Hd c Hn) as (v & Hv & Hcv). exists v. split; [done|].
  destruct (capture_vars_spec _ _ _ _ Hc) as [_ ->]; [|done|].
  - intros c1 c2 H1 H2 E. by destruct (p_captures _ P _ _ _ _ H1 H2 E).
  - intros c' Hc' E. by destruct (p_captures _ P _ _ _ _ Hn Hc' (eq_sym E)).
Qed.
Lemma captured_others G t f vars i :
  exec_info G = pinfo K → captured G t f vars → (∀ c, c ∈ captures_at (pinfo K) f → c.2 ≠ i) → vars !! i = captured_vars G !! i.
Proof.
  intros Hi Hc Hn. unfold captured in Hc. rewrite Hi in Hc. case_decide; [by subst vars|]. destruct Hc as [_ Hc].
  destruct (capture_vars_spec _ _ _ _ Hc) as [_ H']; [|by apply H']. intros c1 c2 H1 H2 E. by destruct (p_captures _ P _ _ _ _ H1 H2 E).
Qed.
Lemma captured_new G t f vars : exec_info G = pinfo K → captured G t f vars → kept_captures K f (inputs t) vars.
Proof.
  intros Hi Hc Hd c Hn. unfold captured in Hc. rewrite Hi, decide_False in Hc by done. destruct Hc as [_ Hc].
  destruct (capture_vars_spec _ _ _ _ Hc) as [H _]; [|by apply H].
  intros c1 c2 H1 H2 E. by destruct (p_captures _ P _ _ _ _ H1 H2 E).
Qed.

(** ** Events only add to what is known *)
Lemma called_more lg evs x : x ∈ called_in g lg → x ∈ called_in g (lg ++ evs).
Proof. rewrite called_in_app, elem_of_app. auto. Qed.
Lemma returned_more lg evs x : x ∈ returned_in g lg → x ∈ returned_in g (lg ++ evs).
Proof. rewrite returned_in_app, elem_of_app. auto. Qed.
Lemma phase_ok_more arr lg evs p : phase_ok g K arr lg p → phase_ok g K arr (lg ++ evs) p.
Proof.
  destruct p; cbn; try done.
  - intros H n Hn. destruct (H n Hn) as (F & H1 & H2 & H3 & H4 & H5). exists F. split_and!; try done. by apply called_more.
  - intros H n Hn. destruct (H n Hn) as [H1 H2]. split; [by apply returned_more|done].
  - intros H n Hn. destruct (H n Hn) as (outs & j & H1 & H2 & H3). exists outs, j. split_and!; [by apply returned_more|done..].
Qed.
Lemma is_done_more arr lg evs n : is_done g K arr lg n → is_done g K arr (lg ++ evs) n.
Proof. intros H Hr. destruct (H Hr) as (outs & H1 & H2). exists outs. split; [by apply returned_more|done]. Qed.
Lemma runs_executes info n : runs info n = true → executes info n = true.
Proof. unfold runs, executes, should_execute. intros [-> | ->]%orb_true_iff; [done|by rewrite orb_true_r]. Qed.

(** The functions with an edge into a function whose gradients have all come have returned. *)
Lemma started_returned arr G its lg n : task_ok g K arr G its lg → started K arr n → ∀ k, k ∈ edges_into fs R n → k.1 ∈ (returned_in g lg).*1.
Proof.
  intros I (Hn & _ & Hc) k Hk.
  assert (k ∈ arr.*1) as Ha.
  { eapply (arrivals_all fs R arr); [apply I| |apply (p_reached _ P)|exact Hc|exact Hk]. intros k' v Hv. by apply (o_from _ _ _ _ _ _ I) in Hv as (? & ? & _). }
  apply list_elem_of_fmap in Ha as ([k' v] & -> & Ha). destruct (o_from _ _ _ _ _ _ I _ _ Ha) as (_ & _ & outs & Ho & _).
  apply list_elem_of_fmap. by exists (k'.1, outs).
Qed.
Lemma ordered_quiet lg evs : ordered g K lg → called_in g evs = [] → ordered g K (lg ++ evs).
Proof.
  intros Ho Hc l1 n gm ins l2 E k Hk. apply app_eq_app in E as (l & [[-> E]|[-> E]]).
  - destruct l as [|x l]; cbn in E.
    + subst evs. cbn in Hc. rewrite decide_True in Hc by done. done.
    + injection E as <- E. by apply (Ho l1 n gm ins l).
  - subst evs. rewrite called_in_app in Hc. cbn in Hc. rewrite decide_True in Hc by done. by apply app_eq_nil in Hc as [_ ?].
Qed.
Lemma ordered_call lg pre f gm ins :
  ordered g K lg → called_in g pre = [] → (∀ k, k ∈ edges_into fs R f → k.1 ∈ (returned_in g lg).*1) → ordered g K (lg ++ pre ++ [Called g f gm ins]).
Proof.
  intros Ho Hp Hf. rewrite app_assoc. intros l1 n gm' ins' l2 E k Hk. destruct l2 as [|x l2 _] using rev_ind.
  - apply app_inj_tail in E as [<- [= <- _ _]]. rewrite returned_in_app, fmap_app, elem_of_app. left. by apply Hf.
  - rewrite app_comm_cons, app_assoc in E. apply app_inj_tail in E as [E _]. by eapply (ordered_quiet lg pre).
Qed.

(** ** The turns *)

(** Items change, but not what their functions are at. *)
Lemma ok_items arr G G' its its' lg :
  task_ok g K arr G its lg → dependencies G' = dependencies G → not_ready G' = not_ready G → captured_vars G' = captured_vars G →
  (∀ n, n ∈ omap active_fn its' ↔ n ∈ omap active_fn its) → (∀ n, n ∈ omap uncalled_fn its' ↔ n ∈ omap uncalled_fn its) →
  (∀ p, p ∈ its' → phase_ok g K arr lg p) → task_ok g K arr G' its' lg.
Proof.
  intros I Hd Hn Hc Ha Hu Hp. split; rewrite ?Hd, ?Hn, ?Hc; try apply I; try done.
  - intros n. rewrite Ha. apply I.
  - intros n. rewrite Hu. apply I.
  - intros n. rewrite Ha. apply I.
Qed.
Lemma ok_phase arr G G' p p' rest lg :
  task_ok g K arr G (p :: rest) lg → dependencies G' = dependencies G → not_ready G' = not_ready G → captured_vars G' = captured_vars G →
  active_fn p' = active_fn p → uncalled_fn p' = uncalled_fn p → phase_ok g K arr lg p' → task_ok g K arr G' (p' :: rest) lg.
Proof.
  intros I Hd Hn Hc Ha Hu Hp. apply (ok_items arr G G' (p :: rest)); try done.
  - intros n. by rewrite !elem_of_omap_cons, Ha.
  - intros n. by rewrite !elem_of_omap_cons, Hu.
  - intros q [->|Hq]%elem_of_cons; [done|]. apply (o_phases _ _ _ _ _ _ I). by right.
Qed.
Lemma front_started arr G p rest lg n : task_ok g K arr G (p :: rest) lg → active_fn p = Some n → started K arr n.
Proof. intros I Hn. apply (o_active _ _ _ _ _ _ I), elem_of_omap_cons. by left. Qed.
Lemma front_phase arr G p rest lg : task_ok g K arr G (p :: rest) lg → phase_ok g K arr lg p.
Proof. intros I. apply (o_phases _ _ _ _ _ _ I). by left. Qed.
Lemma rest_phase arr G p rest lg q : task_ok g K arr G (p :: rest) lg → q ∈ rest → phase_ok g K arr lg q.
Proof. intros I Hq. apply (o_phases _ _ _ _ _ _ I). by right. Qed.
(** The function of the item in front is in no other item. *)
Lemma front_not_active G p rest lg n : task_base g K G (p :: rest) lg → counted_fn p = Some n → (n ∉ omap active_fn rest) ∧ n ∉ omap uncalled_fn rest.
Proof.
  intros B Hn. split; intros H; [apply (omap_incl _ _ _ _ active_counted) in H|apply (omap_incl _ _ _ _ uncalled_counted) in H];
    by eapply (base_front _ _ _ _ _ _ n n B Hn).
Qed.

(** A function that is not needed, but for its captures. *)
Lemma ok_unneeded arr G t f vars rest lg :
  task_base g K G (Evaluating t :: rest) lg → task_ok g K arr G (Evaluating t :: rest) lg → fn t = Some f → captured G t f vars →
  runs (exec_info G) f = false → task_ok g K arr (set_captured_vars vars G) (Finishing t :: rest) lg.
Proof.
  intros B I Hf Hc Hr. destruct (front_not_active _ _ _ _ f B Hf) as [Hna Hnu]. rewrite (b_info _ _ _ _ _ B) in Hr.
  split; try apply I.
  - intros n Hn. apply (o_active _ _ _ _ _ _ I), elem_of_omap_cons. by right.
  - intros q [->|Hq]%elem_of_cons; [done|]. by eapply rest_phase.
  - intros n Hs Hn. destruct (decide (n = f)) as [->|Hne].
    + exists (inputs t). split; [apply (front_phase _ _ _ _ _ I _ Hf)|]. eapply captured_new; [apply B|done].
    + destruct (o_captured _ _ _ _ _ _ I n Hs) as (b & Hb & Hk); [rewrite elem_of_omap_cons; cbn; rewrite Hf; intros [[= ?]|?]; [by subst|done]|].
      exists b. split; [done|]. by eapply captured_kept; [apply B|..].
  - intros i Hi. rewrite <- (o_uncaptured _ _ _ _ _ _ I i Hi). eapply captured_others; [apply B|exact Hc|]. intros c. apply Hi. by apply (front_started _ _ _ _ _ _ I).
  - intros n Hs Hn. destruct (decide (n = f)) as [->|Hne]; [intros ?; congruence|].
    apply (o_done _ _ _ _ _ _ I n Hs). rewrite elem_of_omap_cons. cbn. rewrite Hf. intros [[= ?]|?]; [by subst|done].
Qed.

Lemma ok_call arr G t f F vars prev ins rest lg evs gm pre :
  task_base g K G (Evaluating t :: rest) lg → task_ok g K arr G (Evaluating t :: rest) lg → fn t = Some f → captured G t f vars →
  fs !! f = Some F → call_pre_hooks F (inputs t) = Ok ins →
  evs = pre ++ [Called g f gm ins] → called_in g pre = [] → returned_in g evs = [] →
  task_ok g K arr (set_captured_vars vars G) (Calling t prev ins (apply F ins) :: rest) (lg ++ evs).
Proof.
  intros B I Hf Hc HF Hi Ee Ep Er. destruct (front_not_active _ _ _ _ f B Hf) as [Hna Hnu].
  assert (Hcall : called_in g (lg ++ evs) = called_in g lg ++ [(f, ins)]).
  { rewrite called_in_app, Ee, called_in_app, Ep. cbn. by rewrite decide_True. }
  assert (Hret : returned_in g (lg ++ evs) = returned_in g lg) by (rewrite returned_in_app, Er; apply app_nil_r).
  assert (Hsf : started K arr f) by (by apply (front_started _ _ _ _ _ _ I)).
  pose proof (front_phase _ _ _ _ _ I _ Hf) as Hb.
  split; try apply I; rewrite ?Hcall, ?Hret; try apply I.
  - intros q [->|Hq]%elem_of_cons; [|by eapply phase_ok_more, rest_phase]. intros n Hn. assert (n = f) as -> by congruence.
    exists F. split_and!; try done; [|constructor]. rewrite Hcall. apply elem_of_app. right. by left.
  - intros n Hs Hn. destruct (decide (n = f)) as [->|Hne].
    + exists (inputs t). split; [done|]. eapply captured_new; [apply B|done].
    + destruct (o_captured _ _ _ _ _ _ I n Hs) as (b & Hb' & Hk); [rewrite elem_of_omap_cons; cbn; rewrite Hf; intros [[= ?]|?]; [by subst|done]|].
      exists b. split; [done|]. by eapply captured_kept; [apply B|..].
  - intros i Hi'. rewrite <- (o_uncaptured _ _ _ _ _ _ I i Hi'). eapply captured_others; [apply B|exact Hc|]. intros c. apply Hi'. apply Hsf.
  - intros n Hs Hn. apply is_done_more, (o_done _ _ _ _ _ _ I n Hs). exact Hn.
  - intros n. rewrite fmap_app, elem_of_app. intros [Hn|Hn]; [by apply (o_called _ _ _ _ _ _ I)|]. by apply list_elem_of_singleton in Hn as ->.
  - intros n outs Ho. destruct (o_returned _ _ _ _ _ _ I n outs Ho) as (b & ins' & H1 & H2 & H3). exists b, ins'. split_and!; try done.
    apply elem_of_app. by left.
  - rewrite Ee. apply ordered_call; [apply I|done|]. by apply (started_returned arr G (Evaluating t :: rest)).
Qed.

(** The function returns: it is done if it has no outputs. *)
Lemma ok_return arr G t f F fs' prev ins raw valid outs p' rest lg evs :
  fs ⊆ fs' → task_base g K G (Calling t prev ins (Return raw) :: rest) lg → task_ok g K arr G (Calling t prev ins (Return raw) :: rest) lg →
  fn t = Some f → fs' !! f = Some F → validate_outputs fs' (next_edges F) raw = Ok valid → call_post_hooks F valid ins = Ok outs →
  (p' = Finishing t ∧ outs = [] ∨ p' = Locking t outs) → called_in g evs = [] → returned_in g evs = [(f, outs)] →
  task_ok g K arr G (p' :: rest) (lg ++ evs).
Proof.
  intros Hs B I Hf HF' Hv Ho Hp Ec Er. destruct (front_not_active _ _ _ _ f B Hf) as [Hna Hnu].
  assert (Hcall : called_in g (lg ++ evs) = called_in g lg) by (rewrite called_in_app, Ec; apply app_nil_r).
  assert (Hret : returned_in g (lg ++ evs) = returned_in g lg ++ [(f, outs)]) by (rewrite returned_in_app, Er; done).
  assert (Hsf : started K arr f) by (by apply (front_started _ _ _ _ _ _ I)).
  destruct (front_phase _ _ _ _ _ I _ Hf) as (F0 & HF & Hb & Hi & Hc & Hres).
  assert (F0 = F) as -> by (pose proof (lookup_weaken _ _ _ _ HF Hs); congruence).
  assert (Hnew : f ∉ (returned_in g lg).*1) by (apply (b_unreturned _ _ _ _ _ B), elem_of_omap_cons; by left).
  assert (Hev : evaluates fs f (inputs t) ins outs).
  { exists F, raw, valid. split_and!; try done; [eapply yields_residual; [exact Hres|constructor]|].
    rewrite <- (validate_outputs_mono fs fs'); try done. intros n Hn. eapply reached_live; [apply P|]. eapply (reached_linked _ _ _ f); [apply P|apply Hsf|].
    by apply (linked_targets _ _ F). }
  assert (Hu : uncalled_fn p' = None) by (by destruct Hp as [[-> _]| ->]).
  assert (Ha : ∀ n, n ∈ omap active_fn (p' :: rest) → n = f ∨ n ∈ omap active_fn rest).
  { intros n. rewrite elem_of_omap_cons. destruct Hp as [[-> _]| ->]; cbn; rewrite ?Hf; naive_solver. }
  split; try apply I; rewrite ?Hcall; try apply I.
  - intros k v Hk. destruct (o_from _ _ _ _ _ _ I _ _ Hk) as (H1 & H2 & outs' & H3 & H4). split_and!; [done..|]. exists outs'. split; [|done]. by apply returned_more.
  - intros n [->|Hn]%Ha; [done|]. apply (o_active _ _ _ _ _ _ I), elem_of_omap_cons. by right.
  - intros q [->|Hq]%elem_of_cons; [|by eapply phase_ok_more, rest_phase]. destruct Hp as [[-> _]| ->]; [done|]. intros n Hn. assert (n = f) as -> by congruence.
    split; [rewrite Hret; apply elem_of_app; right; by left|]. intros i Hi'. apply list_elem_of_fmap in Hi' as ([k v] & Ek & Hk).
    destruct (o_from _ _ _ _ _ _ I _ _ Hk) as (_ & _ & outs' & H3 & _). apply Hnew, list_elem_of_fmap. cbn in Ek. subst k. by exists (f, outs').
  - intros n Hst Hn. apply (o_captured _ _ _ _ _ _ I n Hst). rewrite elem_of_omap_cons. cbn. rewrite (omap_cons_none _ _ _ Hu) in Hn. naive_solver.
  - intros n Hst Hn. destruct (decide (n = f)) as [->|Hne].
    + destruct Hp as [[-> ->]| ->]; [|by rewrite elem_of_omap_cons in Hn; destruct Hn; left]. intros _. exists []. split; [|cbn; lia]. rewrite Hret. apply elem_of_app. right. by left.
    + apply is_done_more, (o_done _ _ _ _ _ _ I n Hst). rewrite elem_of_omap_cons in Hn |- *. cbn. rewrite Hf. intros [[= ?]|?]; [by subst|]. apply Hn. by right.
  - intros n outs'. rewrite Hret, elem_of_app, list_elem_of_singleton. intros [H|[= -> ->]]; [by apply (o_returned _ _ _ _ _ _ I)|]. by exists (inputs t), ins.
  - apply ordered_quiet; [apply I|done].
Qed.

(** All outputs are at their edges. *)
Lemma ok_unlock arr G G' t f rest lg :
  task_base g K G (Delivering t [] :: rest) lg → task_ok g K arr G (Delivering t [] :: rest) lg → fn t = Some f →
  dependencies G' = dependencies G → not_ready G' = not_ready G → captured_vars G' = captured_vars G →
  task_ok g K arr G' (Finishing t :: rest) lg.
Proof.
  intros B I Hf Hd Hn Hc. destruct (front_not_active _ _ _ _ f B Hf) as [Hna Hnu].
  destruct (front_phase _ _ _ _ _ I _ Hf) as (outs & j & Ho & Hj & Hk).
  split; rewrite ?Hd, ?Hn, ?Hc; try apply I.
  - intros n Hn'. apply (o_active _ _ _ _ _ _ I), elem_of_omap_cons. by right.
  - intros q [->|Hq]%elem_of_cons; [done|]. by eapply rest_phase.
  - intros n Hst Hn'. destruct (decide (n = f)) as [->|Hne].
    + intros _. exists outs. split; [done|]. intros i Hi Ht. apply Hk. split_and!; [|done..].
      symmetry in Hj. apply (f_equal length) in Hj. rewrite length_drop, length_imap in Hj. cbn in Hj. lia.
    + apply (o_done _ _ _ _ _ _ I n Hst). rewrite elem_of_omap_cons. cbn. rewrite Hf. intros [[= ?]|?]; [by subst|done].
Qed.

(** *** A gradient comes to [n] *)
Section arrival.
Context arr G p rest lg f (i : nat) (v : variable (T:=T)) (n : ptr) (j : nat) (B : task_base g K G (p :: rest) lg) (I : task_ok g K arr G (p :: rest) lg).
Context (Ht : target fs (f, i) = Some (n, j)) (Hk : (f, i) ∉ arr.*1) (Hf : f ∈ R).
#[local] Abbreviation arr' := (arr ++ [((f, i), v)]).

Lemma come_lt : length (arrivals fs arr n) < indegree fs R n.
Proof. eapply (arrivals_lt fs R arr); [apply I| |exact Hk|done|exact Ht]. intros k w Hw. by destruct (o_from _ _ _ _ _ _ I _ _ Hw) as (? & ? & _). Qed.
Lemma come_here : length (arrivals fs arr' n) = S (length (arrivals fs arr n)).
Proof. rewrite arrivals_snoc, Ht, decide_True, length_app by done. cbn. lia. Qed.
Lemma come_other m : m ≠ n → length (arrivals fs arr' m) = length (arrivals fs arr m).
Proof. intros Hm. by rewrite arrivals_snoc, Ht, decide_False, app_nil_r. Qed.
Lemma not_yet_started m : started K arr m → m ≠ n.
Proof. intros (_ & _ & Hc) ->. pose proof come_lt. lia. Qed.
Lemma started_still m : started K arr m → started K arr' m.
Proof. intros Hs. pose proof (not_yet_started m Hs) as Hm. destruct Hs as (H1 & H2 & H3). split_and!; [done..|]. by rewrite (come_other m Hm). Qed.
Lemma started_before m : started K arr' m → m ≠ n → started K arr m.
Proof. intros (H1 & H2 & H3) Hm. split_and!; [done..|]. by rewrite <- (come_other m Hm). Qed.
Lemma buffer_same m : m ≠ n → buffer_of fs arr' m = buffer_of fs arr m.
Proof. intros Hm. by apply (buffer_of_other _ _ _ _ n _ j). Qed.
Lemma phase_still q : q ∈ rest → counted_fn p = Some f → phase_ok g K arr' lg q.
Proof.
  intros Hq Hp. pose proof (rest_phase _ _ _ _ _ _ I Hq) as H. pose proof (o_active _ _ _ _ _ _ I) as Ha.
  assert (Hb : ∀ m, active_fn q = Some m → buffer_of fs arr' m = buffer_of fs arr m).
  { intros m Hm. apply buffer_same, not_yet_started, Ha, elem_of_omap_cons. right. apply list_elem_of_omap. eauto. }
  assert (Hne : ∀ m, counted_fn q = Some m → m ≠ f).
  { intros m Hm. apply (base_front _ _ _ _ _ _ _ m B Hp). apply list_elem_of_omap. eauto. }
  assert (Hkeys : ∀ m i', m ≠ f → (m, i') ∈ arr'.*1 ↔ (m, i') ∈ arr.*1).
  { intros m i' Hm. rewrite fmap_app, elem_of_app. cbn. rewrite list_elem_of_singleton. naive_solver. }
  destruct q; cbn in *; try done.
  - intros m Hm. rewrite Hb; auto.
  - intros m Hm. rewrite Hb; auto.
  - intros m Hm. rewrite Hb; auto.
  - intros m Hm. destruct (H m Hm) as [H1 H2]. split; [done|]. intros i'. rewrite Hkeys by auto. done.
  - intros m Hm. destruct (H m Hm) as (outs & j' & H1 & H2 & H3). exists outs, j'. split_and!; [done..|]. intros i'. rewrite Hkeys by auto. done.
Qed.

Lemma ok_arrival outs G' p' new :
  (f, outs) ∈ returned_in g lg → outs !! i = Some v → counted_fn p = Some f → active_fn p = Some f → active_fn p' = Some f →
  uncalled_fn p = None → uncalled_fn p' = None → phase_ok g K arr' lg p' →
  captured_vars G' = captured_vars G →
  (∀ m, m ≠ n → dependencies G' !! m = dependencies G !! m) → dependencies G' !! n = entry (indegree fs R n - S (length (arrivals fs arr n))) →
  (∀ m, m ≠ n → not_ready G' !! m = not_ready G !! m) →
  (if executes (pinfo K) n && (S (length (arrivals fs arr n)) <? indegree fs R n) then ∃ b, not_ready G' !! n = Some b ∧ buffer_of fs arr' n = Ok b
   else not_ready G' !! n = None) →
  (new = [] ∧ (executes (pinfo K) n = true → S (length (arrivals fs arr n)) < indegree fs R n) ∨
   ∃ b, new = [Popped (mkTask g (Some n) b)] ∧ executes (pinfo K) n = true ∧ S (length (arrivals fs arr n)) = indegree fs R n ∧ buffer_of fs arr' n = Ok b) →
  task_ok g K arr' G' (p' :: new ++ rest) lg.
Proof.
  intros Ho Hv Hpc Hpa Hpa' Hpu Hpu' Hp' Hcap Hd Hdn Hr Hrn Hnew.
  assert (HnR : n ∈ R) by (eapply reached_linked; [apply P|exact Hf|]; by exists i, j).
  assert (Hact : ∀ m, m ∈ omap active_fn (p' :: new ++ rest) → m = n ∧ new ≠ [] ∨ m ∈ omap active_fn (p :: rest)).
  { intros m. rewrite !elem_of_omap_cons, Hpa, Hpa', omap_app, elem_of_app. intros [?|[Hm|?]]; [by right; left| |by right; right].
    destruct Hnew as [[-> _]|(b & -> & _)]; [by apply elem_of_nil in Hm|]. apply list_elem_of_singleton in Hm. by left. }
  assert (Hact' : ∀ m, m ∈ omap active_fn (p :: rest) → m ∈ omap active_fn (p' :: new ++ rest)).
  { intros m. rewrite !elem_of_omap_cons, Hpa, Hpa', omap_app, elem_of_app. naive_solver. }
  assert (Hunc : ∀ m, m ∈ omap uncalled_fn (p :: rest) → m ∈ omap uncalled_fn (p' :: new ++ rest)).
  { intros m. rewrite !elem_of_omap_cons, Hpu, Hpu', omap_app, elem_of_app. naive_solver. }
  assert (Hst : ∀ m, started K arr' m → m ≠ n ∨ ∃ b, new = [Popped (mkTask g (Some n) b)] ∧ m = n).
  { intros m (_ & He & Hc). destruct (decide (m = n)) as [->|]; [right|by left]. rewrite come_here in Hc.
    destruct Hnew as [[_ Hlt]|(b & -> & _)]; [specialize (Hlt He); lia|eauto]. }
  split; rewrite ?Hcap; try apply I.
  - rewrite fmap_app. cbn. apply list.NoDup_app. split_and!; [apply I| |apply NoDup_singleton]. by intros k Hk' ->%list_elem_of_singleton.
  - intros k w [Hw|[= -> ->]%list_elem_of_singleton]%elem_of_app; [by apply (o_from _ _ _ _ _ _ I)|]. cbn. split_and!; [done|rewrite Ht; eauto|]. eauto.
  - intros m. destruct (decide (m = n)) as [->|Hm]; [rewrite Hdn; f_equal; pose proof come_here; lia|].
    rewrite (Hd m Hm). rewrite (come_other m Hm). apply I.
  - intros m. destruct (decide (m = n)) as [->|Hm].
    + rewrite come_here. replace (0 <? S _) with true by done. by rewrite andb_true_r.
    + rewrite (Hr m Hm). rewrite (come_other m Hm), (buffer_same m Hm). apply I.
  - intros m [[-> Hn0]|Hm]%Hact; [|by apply started_still, (o_active _ _ _ _ _ _ I)]. destruct Hnew as [[-> _]|(b & -> & He & Hc & _)]; [done|].
    split_and!; [done..|]. rewrite come_here. lia.
  - intros q [->|[Hq|Hq]%elem_of_app]%elem_of_cons; [done| |by apply phase_still]. destruct Hnew as [[-> _]|(b & -> & He & Hc & Hb)]; [by apply elem_of_nil in Hq|].
    apply list_elem_of_singleton in Hq as ->. cbn. intros m [= <-]. done.
  - intros m Hs Hm. destruct (Hst m Hs) as [Hne|(b & -> & ->)]; [|by destruct Hm; apply elem_of_omap_cons; right; left].
    destruct (o_captured _ _ _ _ _ _ I m (started_before m Hs Hne)) as (b & Hb & Hc); [intros Hm'; by apply Hm, Hunc|].
    exists b. by rewrite (buffer_same m Hne).
  - intros m Hs Hm. destruct (Hst m Hs) as [Hne|(b & -> & ->)]; [|by destruct Hm; apply elem_of_omap_cons; right; left].
    intros Hru. destruct (o_done _ _ _ _ _ _ I m (started_before m Hs Hne)) as (outs' & H1 & H2); [intros Hm'; by apply Hm, Hact'|done|].
    exists outs'. split; [done|]. intros i' Hi' Ht'. rewrite fmap_app, elem_of_app. left. auto.
  - intros m Hm. apply started_still. by apply (o_called _ _ _ _ _ _ I).
  - intros m outs' Hm. destruct (o_returned _ _ _ _ _ _ I m outs' Hm) as (b & ins & H1 & H2 & H3). exists b, ins. split_and!; try done.
    rewrite buffer_same; [done|]. apply not_yet_started, (o_called _ _ _ _ _ _ I), list_elem_of_fmap. by exists (m, ins).
Qed.
End arrival.

Lemma drop_imap_cons (outs : list (variable (T:=T))) j i v rest0 :
  (i, v) :: rest0 = drop j (imap pair outs) → i = j ∧ outs !! i = Some v ∧ rest0 = drop (S j) (imap pair outs).
Proof.
  intros E. assert (imap pair outs !! j = Some (i, v)) as Hl.
  { rewrite <- (Nat.add_0_r j), <- lookup_drop, <- E. done. }
  rewrite list_lookup_imap in Hl. destruct (outs !! j) as [w|] eqn:Ew; [|done]. cbn in Hl. injection Hl as <- <-. split_and!; [done..|].
  replace (S j) with (j + 1) by lia. rewrite <- drop_drop, <- E. done.
Qed.

Lemma ok_deliver arr G G' t f fs' i v rest0 rest lg new :
  fs ⊆ fs' → task_base g K G (Delivering t ((i, v) :: rest0) :: rest) lg → task_ok g K arr G (Delivering t ((i, v) :: rest0) :: rest) lg →
  fn t = Some f → delivered fs' g f i v G G' new → ∃ arr', task_ok g K arr' G' (Delivering t rest0 :: new ++ rest) lg.
Proof.
  intros Hs B I Hf Hd. destruct (front_phase _ _ _ _ _ I _ Hf) as (outs & j & Ho & Hj & Hk). apply drop_imap_cons in Hj as (<- & Hv & Hrest).
  assert (HfR : f ∈ R) by (by apply (front_started _ _ _ _ _ _ I)).
  assert (Htg : target fs' (f, i) = target fs (f, i)).
  { destruct (reached_live _ _ _ f (p_reached _ P) HfR) as [F HF]. by apply (target_mono _ _ _ F). }
  assert (Hnk : (f, i) ∉ arr.*1) by (rewrite Hk; lia).
  assert (Hlen : i < length outs) by (by eapply lookup_lt_Some).
  destruct (decide (is_Some (target fs (f, i)))) as [[[n k] Ht]|Hnone].
  2:{ exists arr. destruct Hd as [_|n k d deps Ht|n k d b Ht|n k d b Ht]; [|by rewrite <- Htg, Ht in Hnone; destruct Hnone..].
    apply (ok_phase arr G G (Delivering t ((i, v) :: rest0))); try done. intros n Hn. assert (n = f) as -> by congruence. exists outs, (S i). split_and!; [done..|].
    intros i'. rewrite Hk. destruct (decide (i' = i)) as [->|]; [naive_solver|]. intuition lia. }
  exists (arr ++ [((f, i), v)]).
  assert (Hphase : phase_ok g K (arr ++ [((f, i), v)]) lg (Delivering t rest0)).
  { intros n' Hn'. assert (n' = f) as -> by congruence. exists outs, (S i). split_and!; [done..|]. intros i'. rewrite fmap_app, elem_of_app, Hk. cbn.
    rewrite list_elem_of_singleton. destruct (decide (i' = i)) as [->|Hi']; [intuition eauto; lia|]. split; [|intuition lia].
    intros [?|[= ?]]; [intuition lia|done]. }
  pose proof (come_lt arr G _ rest lg f i n k I Ht Hnk HfR) as Hlt.
  assert (Hnb : ∀ N, fs !! n = Some N → new_buffer fs' n = new_buffer fs n) by (intros N HN; unfold new_buffer; by rewrite HN, (lookup_weaken _ _ _ _ HN Hs)).
  assert (HnR : n ∈ R) by (eapply reached_linked; [apply P|exact HfR|]; by exists i, k).
  destruct (reached_live _ _ _ n (p_reached _ P) HnR) as [N HN]. specialize (Hnb N HN).
  pose proof (o_deps _ _ _ _ _ _ I n) as Hdn. pose proof (o_not_ready _ _ _ _ _ _ I n) as Hnr.
  assert (Hbound : (Z.of_nat (indegree fs R n) < 2 ^ 31)%Z).
  { pose proof (p_bound _ P). pose proof (indegree_bound fs R n (proj1 (p_reached _ P)) (λ h, reached_live _ _ _ h (p_reached _ P))). lia. }
  assert (Hd1 : ∀ d, dependencies G !! n = Some d → d = Z.of_nat (indegree fs R n - length (arrivals fs arr n)) ∧ int32 (d - 1) = (d - 1)%Z).
  { intros d E. rewrite E in Hdn. unfold entry in Hdn. case_decide; [lia|]. injection Hdn as ->. split; [done|]. apply int32_small. lia. }
  assert (Hbuf : ∀ b, (not_ready G !! n = None → executes (pinfo K) n = true) → buffer_add k v (default (new_buffer fs' n) (not_ready G !! n)) = Ok b →
    executes (pinfo K) n = true ∧ buffer_of fs (arr ++ [((f, i), v)]) n = Ok b).
  { intros b He Hb. rewrite (buffer_of_snoc _ _ _ _ n k Ht). rewrite Hnb in Hb.
    destruct (not_ready G !! n) as [b0|] eqn:En; cbn in Hb.
    - destruct (executes (pinfo K) n) eqn:Ee; [|done]. split; [done|]. cbn [andb] in Hnr.
      destruct ((0 <? length (arrivals fs arr n)) && (length (arrivals fs arr n) <? indegree fs R n)); [|done].
      destruct Hnr as (b1 & [= <-] & ->). done.
    - rewrite (He eq_refl) in *. split; [done|]. cbn [andb] in Hnr.
      destruct (arrivals fs arr n) as [|a l] eqn:Ea; [unfold buffer_of; rewrite Ea; done|]. cbn [length] in *.
      rewrite (proj2 (Nat.ltb_lt (S (length l)) (indegree fs R n)) Hlt) in Hnr. cbn in Hnr. by destruct Hnr as (? & ? & _). }
  destruct Hd as [Ht'|n' k' d deps Ht' Hde -> Hno He|n' k' d b Ht' Hde Hz He Hb|n' k' d b Ht' Hde Hz He Hb]; rewrite Htg, Ht in Ht'; [done|..]; injection Ht' as <- <-;
    destruct (Hd1 d Hde) as [Hdd Hi32]; rewrite Hi32 in *; rewrite (b_info _ _ _ _ _ B) in He.
  - apply (ok_arrival arr G (Delivering t ((i, v) :: rest0)) rest lg f i v n k B I Ht Hnk HfR outs); try done; cbn [set_dependencies set_not_ready set_outstanding_tasks dependencies not_ready].
    + intros m Hm. case_decide; [by rewrite lookup_delete_ne|by rewrite lookup_insert_ne].
    + unfold entry. case_decide as Hz; [rewrite lookup_delete_eq, decide_True by lia; done|].
      rewrite lookup_insert_eq, decide_False by lia. f_equal. lia.
    + by rewrite He.
    + left. split; [done|]. by rewrite He.
  - destruct (Hbuf b He Hb) as [Hex Hbo].
    apply (ok_arrival arr G (Delivering t ((i, v) :: rest0)) rest lg f i v n k B I Ht Hnk HfR outs); try done; cbn [set_dependencies set_not_ready set_outstanding_tasks dependencies not_ready].
    + intros m Hm. by rewrite lookup_insert_ne.
    + unfold entry. rewrite lookup_insert_eq, decide_False by lia. f_equal. lia.
    + intros m Hm. by rewrite lookup_insert_ne.
    + rewrite Hex. rewrite (proj2 (Nat.ltb_lt _ _)) by lia. exists b. by rewrite lookup_insert_eq.
    + left. split; [done|]. intros _. lia.
  - destruct (Hbuf b He Hb) as [Hex Hbo].
    apply (ok_arrival arr G (Delivering t ((i, v) :: rest0)) rest lg f i v n k B I Ht Hnk HfR outs); try done; cbn [set_dependencies set_not_ready set_outstanding_tasks dependencies not_ready].
    + intros m Hm. by rewrite lookup_delete_ne.
    + unfold entry. rewrite lookup_delete_eq, decide_True by lia. done.
    + intros m Hm. by rewrite lookup_delete_ne.
    + rewrite Hex, (proj2 (Nat.ltb_ge _ _)) by lia. by rewrite lookup_delete_eq.
    + right. exists b. split_and!; [done..|lia|done].
Qed.

Lemma turn_ok arr fs' G p G' ps evs rest lg :
  fs ⊆ fs' → turn fs' G p G' ps evs → item_base p = Some g → task_base g K G (p :: rest) lg → task_ok g K arr G (p :: rest) lg →
  no_error G' (ps ++ rest) → ∃ arr', task_ok g K arr' G' (ps ++ rest) (lg ++ evs).
Proof.
  intros Hs H Hg B I [He Hfail]. rewrite count_if_app in Hfail.
  pose proof (front_phase _ _ _ _ _ I) as Hph.
  destruct H; try rewrite (app_nil_r lg); cbn [app] in *; try (cbn in Hfail; discriminate Hfail).
  - exists arr. destruct H as [H|H]; [congruence|]. by apply (ok_phase arr G _ _ _ _ _ I).
  - exists arr. by apply (ok_phase arr G _ _ _ _ _ I).
  - exists arr. by eapply (ok_unneeded arr G t f).
  - exists arr. destruct (reached_live _ _ _ f (p_reached _ P)) as [F0 HF0]; [by apply (front_started _ _ _ _ _ _ I)|].
    assert (F0 = F) as -> by (pose proof (lookup_weaken _ _ _ _ HF0 Hs); congruence).
    injection Hg as Hg. eapply (ok_call arr G t f F); try done; subst evs; rewrite <- ?Hg; [done|by destruct (keep_graph G)|apply returned_in_call].
  - exists arr. apply (ok_phase arr G _ _ _ _ _ I); try done. intros n Hn. destruct (Hph n Hn) as (F & H1 & H2 & H3 & H4 & H5).
    exists F. split_and!; try done. by apply (residual_next _ roots vs keep create os).
  - exists arr. assert (p' = Finishing t ∧ outs = [] ∨ p' = Locking t outs) as Hp' by (destruct H3 as [?|[?|[e ->]]]; [by left|by right|done]).
    eapply (ok_return arr G t f F fs'); try done; subst evs; injection Hg as <-; [apply called_in_return|apply returned_in_return].
  - exists arr. apply (ok_phase arr G _ _ _ _ _ I); try done. intros n Hn. destruct (Hph n Hn) as [H1 H2]. exists outs, 0. split_and!; [done..|].
    intros i. split; [intros Hi; by destruct (H2 i)|lia].
  - exists arr. destruct (fn t) as [f|] eqn:Hf; [by eapply (ok_unlock arr G)|]. apply (ok_phase arr G _ _ _ _ _ I); cbn; rewrite ?Hf; done.
  - injection Hg as Hg. rewrite Hg in *. by eapply ok_deliver.
  - destruct (has_error G) eqn:E; cbn in He; congruence.
  - exists arr. by apply (ok_phase arr G _ _ _ _ _ I).
  - exists arr. apply (ok_items arr G _ (Counting t o :: rest)); try done.
    + intros n. destruct H as [->|[-> _]]; cbn; done.
    + intros n. destruct H as [->|[-> _]]; cbn; done.
    + intros q [Hq|Hq]%elem_of_app; [|by eapply rest_phase]. destruct H as [->|[-> _]]; [by apply elem_of_nil in Hq|]. by apply list_elem_of_singleton in Hq as ->.
  - exists arr. apply (ok_items arr G _ (Notifying t o :: rest)); try done. intros q Hq. by eapply rest_phase.
  - exists arr. by apply (ok_phase arr G _ _ _ _ _ I).
Qed.

Lemma turn_error_known fs' G p G' ps evs : turn fs' G p G' ps evs → error_known G → error_known G'.
Proof.
  intros H Hk. destruct H; try done. destruct H0; done. destruct (has_error G) eqn:E; [by intros _; apply Hk|by eexists].
Qed.

(** A turn keeps the invariant. *)
Lemma turn_inv fs' G p G' ps evs rest lg :
  fs ⊆ fs' → turn fs' G p G' ps evs → item_base p = Some g → task_inv g K G (p :: rest) lg → task_inv g K G' (ps ++ rest) (lg ++ evs).
Proof.
  intros Hs H Hg (B & I & Hk). split_and!; [by eapply turn_base| |by eapply turn_error_known]. intros Hno. destruct I as [arr I]; [|by eapply turn_ok].
  destruct Hno as [He Hf]. rewrite count_if_app in Hf. split.
  - destruct H; try done. destruct H0; done. destruct (has_error G) eqn:E; cbn in He; congruence.
  - rewrite count_if_cons. destruct (is_failing p) eqn:E; [|lia]. destruct p; try done. inversion H; subst. destruct (has_error G) eqn:E'; cbn in He; congruence.
Qed.
End pass.
End progress.
