(* ===== verification/EngineSteps.v ===== *)
(** * Every step of the engine is a turn of at most one graph task

    What each part of the engine does to the items and to the graph tasks of a state, and
    that the invariant of all graph tasks survives it.

    A step of the engine sets up a graph task, is a turn of one graph task, or changes
    owners and mutexes only; so all graph tasks keep their invariants. *)
From S2P Require Import Prelude CoreTypes AutogradEngine EngineGraph EngineSpec EngineTurns EngineProgress.
Local Open Scope nat_scope.
Local Open Scope list_scope.
#[local] Set Warnings "-clear-no-such-hyp".
Import Engine.

Section steps.
Context {T : Type} `{!Tensors T}.
Implicit Types (fs : gmap ptr (Function (T:=T))) (f n m h : ptr) (G : GraphTask (T:=T)) (p : Phase (T:=T)) (s : State (T:=T)).
Implicit Types (its : list (Phase (T:=T))) (t : FunctionTask (T:=T)) (lg evs : list (event (T:=T))) (ins outs : list (variable (T:=T))) (K : Pass (T:=T)).

(** ** Queues and frames *)
Lemma concat_insert {A} (l : list (list A)) i x y : l !! i = Some x → concat l ≡ₚ x ++ concat (delete i l) ∧ concat (<[i := y]> l) ≡ₚ y ++ concat (delete i l).
Proof.
  revert i. induction l as [|z l IH]; intros i Hi; [done|]. destruct i as [|i]; cbn in *; [injection Hi as ->; done|].
  destruct (IH i Hi) as [E1 E2]. change (list_delete i l) with (delete i l). change (list_insert i y l) with (<[i := y]> l). split.
  - rewrite E1 at 1. apply Permutation_app_swap_app.
  - rewrite E2. apply Permutation_app_swap_app.
Qed.

Lemma items_thread queues ths w (th th' : Thread (T:=T)) : ths !! w = Some th →
  items_in queues ths ≡ₚ busy_in (frames th) ++ items_in queues (delete w ths) ∧
  items_in queues (<[w := th']> ths) ≡ₚ busy_in (frames th') ++ items_in queues (delete w ths).
Proof.
  intros Hw. unfold items_in. destruct (concat_insert (busy_in <$> (frames <$> ths)) w (busy_in (frames th)) (busy_in (frames th'))) as [E1 E2].
  { by rewrite !list_lookup_fmap, Hw. }
  rewrite list_fmap_insert, list_fmap_insert, E1, E2, <- !list_fmap_delete. split; apply Permutation_app_swap_app.
Qed.
Lemma items_push queues (ths : list (Thread (T:=T))) q t : q < length queues →
  items_in (alter (λ heap, heap ++ [t]) q queues) ths ≡ₚ Popped t :: items_in queues ths.
Proof.
  intros Hq. apply lookup_lt_is_Some in Hq as [heap Hh]. unfold items_in.
  assert (alter (λ heap, heap ++ [t]) q queues = <[q := heap ++ [t]]> queues) as ->.
  { apply list_eq. intros i. rewrite list_lookup_alter, list_lookup_insert. pose proof (lookup_lt_Some _ _ _ Hh). case_decide as Hi; [subst i|].
    - rewrite Hh, decide_True by done. done.
    - rewrite decide_False by (by intros [? _]). done. }
  destruct (concat_insert queues q heap (heap ++ [t]) Hh) as [E1 E2]. rewrite E1, E2, !fmap_app. cbn.
  rewrite <- !app_assoc. cbn. rewrite <- Permutation_middle. done.
Qed.
Lemma items_pop queues (ths : list (Thread (T:=T))) q heap pick t : queues !! q = Some heap → heap !! pick = Some t →
  items_in queues ths ≡ₚ Popped t :: items_in (<[q := delete pick heap]> queues) ths.
Proof.
  intros Hq Hp. unfold items_in. destruct (concat_insert queues q heap (delete pick heap) Hq) as [E1 E2].
  rewrite E1, E2, !fmap_app, (delete_Permutation heap pick t Hp) at 1. cbn. by rewrite <- !app_assoc.
Qed.
Lemma items_busy queues (ths : list (Thread (T:=T))) p : p ∈ items_in queues ths → is_Some (phase_task p).
Proof.
  unfold items_in. rewrite elem_of_app, list_elem_of_fmap. intros [(t & -> & _)|Hp]; [by exists t|].
  apply list_elem_of_In, in_concat in Hp as (l & Hl & Hp). apply list_elem_of_In in Hl. apply list_elem_of_fmap in Hl as (fr & -> & _).
  unfold busy_in in Hp. apply filter_In in Hp as [_ Hp]. unfold busy in Hp. by destruct (phase_task p).
Qed.

(** ** Calls that return *)
Lemma deref_task_Ok g s G s' : deref_task g s = (Ok G, s') → graph_tasks s !! g = Some G ∧ s' = s.
Proof. unfold deref_task. by destruct (graph_tasks s !! g); intros [= -> ->]. Qed.
Lemma deref_function_Ok f s (F : Function) s' : deref_function f s = (Ok F, s') → functions s !! f = Some F ∧ s' = s.
Proof. unfold deref_function. by destruct (functions s !! f); intros [= -> ->]. Qed.
Lemma update_task_Ok g (k : GraphTask → GraphTask) s u s' : update_task g k s = (Ok u, s') →
  ∃ G, graph_tasks s !! g = Some G ∧ s' = with_graph_tasks (<[g := k G]> (graph_tasks s)) s.
Proof. unfold update_task. rewrite SE_bind_Ok. intros (G & s1 & (H & ->)%deref_task_Ok & [= _ <-]). eauto. Qed.
Lemma lift_Ok {A} (o : outcome A) s a s' : lift (S:=State (T:=T)) o s = (Ok a, s') → o = Ok a ∧ s' = s.
Proof. by intros [= -> ->]. Qed.
Lemma ready_queue_by_index_Ok z s q s' : ready_queue_by_index z s = (Ok q, s') → q < length (ready_queues s) ∧ s' = s.
Proof.
  unfold ready_queue_by_index. rewrite SE_bind_Ok. intros (s0 & s1 & [= <- <-] & H).
  destruct ((0 <=? z + 1)%Z && (Z.to_nat (z + 1) <? length (ready_queues s))) eqn:E; [|done].
  injection H as <- <-. apply andb_true_iff in E as [_ E]. split; [by apply Nat.ltb_lt|done].
Qed.
Lemma ready_queue_Ok d s q s' : ready_queue d s = (Ok q, s') → q < length (ready_queues s) ∧ s' = s.
Proof. unfold ready_queue. case_decide; apply ready_queue_by_index_Ok. Qed.
Lemma push_Ok q t s u s' : push q t s = (Ok u, s') → ∃ G, graph_tasks s !! base t = Some G ∧
  s' = with_ready_queues (alter (λ heap, heap ++ [t]) q (ready_queues s))
         (with_graph_tasks (<[base t := set_outstanding_tasks (uint64 (outstanding_tasks G + 1)) G]> (graph_tasks s)) s).
Proof. unfold push. rewrite SE_bind_Ok. intros (? & s1 & (G & HG & ->)%update_task_Ok & [= _ <-]). eauto. Qed.
Lemma try_Ok {A} (m : M A) s r s' : try_ m s = (Ok r, s') →
  match r with Ok a => m s = (Ok a, s') | Throw e => m s = (Throw e, s') ∧ fatal e = false end.
Proof. unfold try_. destruct (m s) as [[a|e] s1]; [by intros [= <- <-]|]. destruct (fatal e) eqn:E; [done|]. by intros [= <- <-]. Qed.

Lemma SE_bind_Throw {A B} (m : M A) (k : A → M B) s e s' :
  (m ≫= k) s = (Throw e, s') ↔ m s = (Throw e, s') ∨ ∃ a s1, m s = (Ok a, s1) ∧ k a s1 = (Throw e, s').
Proof.
  unfold mbind, SE_bind. destruct (m s) as [[a|e'] s1]; split; [by right; eauto|by intros [[=]|(? & ? & [= <- <-] & ?)]|by intros [= -> ->]; left|].
  by intros [[= -> ->]|(? & ? & [=] & ?)].
Qed.
Lemma ret_Ok {A} (a : A) s b s' : mret (M:=M) a s = (Ok b, s') → b = a ∧ s' = s.
Proof. by intros [= -> ->]. Qed.
Lemma get_Ok s a s' : get s = (Ok a, s') → a = s ∧ s' = s.
Proof. by intros [= -> ->]. Qed.
Lemma modify_Ok (k : State → State) s u s' : modify k s = (Ok u, s') → s' = k s.
Proof. by intros [= _ <-]. Qed.
Lemma emit_Ok e s u s' : emit e s = (Ok u, s') → s' = with_log (log s ++ [e]) s.
Proof. by intros [= _ <-]. Qed.
Lemma set_frames_Ok w c fr s u s' : set_frames w c fr s = (Ok u, s') → s' = with_threads (<[w := mkThread fr c]> (threads s)) s.
Proof. by intros [= _ <-]. Qed.
End steps.

(** Takes a call that returns apart. *)
Ltac run_step :=
  match goal with
  | H : (_ ≫= _) _ = (Ok _, _) |- _ => apply SE_bind_Ok in H as (? & ? & ? & ?)
  | H : deref_task _ _ = (Ok _, _) |- _ => apply deref_task_Ok in H as [? ->]
  | H : deref_function _ _ = (Ok _, _) |- _ => apply deref_function_Ok in H as [? ->]
  | H : update_task _ _ _ = (Ok _, _) |- _ => apply update_task_Ok in H as (? & ? & ->)
  | H : lift _ _ = (Ok _, _) |- _ => apply lift_Ok in H as [? ->]
  | H : ready_queue _ _ = (Ok _, _) |- _ => apply ready_queue_Ok in H as [? ->]
  | H : ready_queue_by_index _ _ = (Ok _, _) |- _ => apply ready_queue_by_index_Ok in H as [? ->]
  | H : push _ _ _ = (Ok _, _) |- _ => apply push_Ok in H as (? & ? & ->)
  | H : try_ _ _ = (Ok _, _) |- _ => apply try_Ok in H
  | H : get _ = (Ok _, _) |- _ => apply get_Ok in H as [-> ->]
  | H : @mret _ _ _ _ _ = (Ok _, _) |- _ =>
      let E := fresh in apply ret_Ok in H as [E ->]; match type of E with ?x = _ => tryif is_var x then subst x else idtac end
  | H : modify _ _ = (Ok _, _) |- _ => apply modify_Ok in H as ->
  | H : emit _ _ = (Ok _, _) |- _ => apply emit_Ok in H as ->
  | H : goto _ _ _ _ _ _ = (Ok _, _) |- _ => apply set_frames_Ok in H as ->
  | H : goto_with _ _ _ _ _ _ = (Ok _, _) |- _ => apply set_frames_Ok in H as ->
  | H : set_frames _ _ _ _ = (Ok _, _) |- _ => apply set_frames_Ok in H as ->
  | H : @mthrow _ _ _ _ _ _ = (Ok _, _) |- _ => discriminate H
  | H : (Throw _, _) = (Ok _, _) |- _ => discriminate H
  end.
Ltac run := cbn beta in *; repeat run_step; cbn [functions graph_tasks next_task ready_queues threads callers log with_functions with_graph_tasks
  with_next_task with_ready_queues with_threads with_callers with_log] in *.

Section advance.
Context {T : Type} `{!Tensors T}.
Implicit Types (fs : gmap ptr (Function (T:=T))) (f n m h : ptr) (G : GraphTask (T:=T)) (p : Phase (T:=T)) (s : State (T:=T)).
Implicit Types (its : list (Phase (T:=T))) (t : FunctionTask (T:=T)) (lg evs : list (event (T:=T))) (ins outs : list (variable (T:=T))) (K : Pass (T:=T)).

(** ** The parts of [evaluate_function] *)
Lemma insert_same g G s : graph_tasks s !! g = Some G → with_graph_tasks (<[g := G]> (graph_tasks s)) s = s.
Proof. intros E. unfold with_graph_tasks. rewrite insert_id by done. by destruct s. Qed.

Lemma index_Ok {A} (l : list A) i x : index l i = Ok x → l !! i = Some x.
Proof. unfold index. destruct (l !! i); [by intros [= ->]|done]. Qed.
Lemma index_fatal {A} (l : list A) i e : index l i = Throw e → fatal e = true.
Proof. unfold index. destruct (l !! i); [done|by intros [= <-]]. Qed.
Lemma capture_run g cs (b : InputBuffer) s G s' :
  graph_tasks s !! g = Some G → foreach cs (capture_one g b) s = (Ok tt, s') →
  ∃ vars, capture_vars cs b (captured_vars G) = Some vars ∧ s' = with_graph_tasks (<[g := set_captured_vars vars G]> (graph_tasks s)) s.
Proof.
  revert s G. induction cs as [|c cs IH]; intros s G HG H; cbn [foreach] in H.
  - run. exists (captured_vars G). split; [done|]. destruct G. symmetry. by apply insert_same.
  - apply SE_bind_Ok in H as (? & s1 & Hc & H). unfold capture_one in Hc. run. simplify_eq.
    match goal with Hv : index _ c.1 = Ok ?v, Ho : index _ c.2 = Ok _ |- _ => rename v into v0; apply index_Ok in Hv, Ho end.
    apply (IH _ (set_captured_vars (<[c.2 := v0]> (captured_vars G)) G)) in H as (vars & Hv' & ->); [|cbn; by rewrite lookup_insert_eq].
    exists vars. split; [cbn; by simplify_option_eq|]. cbn. by rewrite insert_insert_eq.
Qed.
Lemma capture_throws g cs (b : InputBuffer) s e s' : foreach cs (capture_one g b) s = (Throw e, s') → fatal e = true.
Proof.
  revert s. induction cs as [|c cs IH]; intros s H; [done|]. cbn [foreach] in H. apply SE_bind_Throw in H as [H|(? & s1 & _ & H)]; [|by eapply IH].
  unfold capture_one, update_task in H. apply SE_bind_Throw in H as [H|(v & s1 & Hv & H)].
  { injection H as H _. by apply index_fatal in H. }
  run. apply SE_bind_Throw in H as [H|(G & s1 & HG & H)].
  { unfold deref_task in H. destruct (graph_tasks s !! g); [done|]. by injection H as <- _. }
  run. apply SE_bind_Throw in H as [H|(old & s1 & Ho & H)].
  { injection H as H _. by apply index_fatal in H. }
  run. apply SE_bind_Throw in H as [H|(G' & s1 & HG' & H)]; [|by run].
  unfold deref_task in H. by simplify_option_eq.
Qed.

Lemma info_of_Some (info : gmap (option ptr) ExecInfo) x i : info !! x = Some i → info_of info x = i.
Proof. intros E. unfold info_of. by rewrite E. Qed.
Lemma instrument_Ok t f s b s' : instrument t f s = (Ok b, s') →
  ∃ G vars, graph_tasks s !! base t = Some G ∧ captured G t f vars ∧ b = runs (exec_info G) f ∧
    s' = with_graph_tasks (<[base t := set_captured_vars vars G]> (graph_tasks s)) s.
Proof.
  unfold instrument. intros H. apply SE_bind_Ok in H as (G & s1 & HG & H). run. exists G. case_decide as Hd.
  - run. exists (captured_vars G). unfold captured, runs. rewrite decide_True, bool_decide_eq_true_2 by done. split_and!; [done..|].
    destruct G. symmetry. by apply insert_same.
  - destruct (exec_info G !! Some f) as [i|] eqn:Hi; [|by run]. run.
    match goal with Hf : foreach _ _ _ = (Ok ?u, _) |- _ => destruct u; destruct (capture_run _ _ _ _ _ _ ltac:(eassumption) Hf) as (vars & Hv & ->) end.
    exists vars. unfold captured, runs, captures_at. rewrite decide_False, bool_decide_eq_false_2, (info_of_Some _ _ _ Hi) by done. rewrite Hi. eauto 10.
Qed.
Lemma instrument_Throw t f s e s' : instrument t f s = (Throw e, s') → fatal e = true ∨ s' = s ∧ is_Some (graph_tasks s !! base t).
Proof.
  unfold instrument. intros H. apply SE_bind_Throw in H as [H|(G & s1 & HG & H)].
  { left. unfold deref_task in H. destruct (graph_tasks s !! base t); [done|]. by injection H as <- _. }
  run. case_decide; [done|]. destruct (exec_info G !! Some f) as [i|].
  - left. apply SE_bind_Throw in H as [H|(i' & s1 & Hi' & H)]; [done|]. run. apply SE_bind_Throw in H as [H|(u & s1 & Hf & H)]; [|done].
    by eapply capture_throws.
  - right. injection H as _ <-. eauto.
Qed.

(** *** One output goes to its edge *)
Definition same_but_tasks s s' : Prop :=
  functions s' = functions s ∧ next_task s' = next_task s ∧ threads s' = threads s ∧ callers s' = callers s ∧ log s' = log s ∧
  length (ready_queues s') = length (ready_queues s).

Lemma target_next fs f i (F : Function) next : fs !! f = Some F → index (next_edges F) i = Ok next →
  target fs (f, i) = n ← function next; Some (n, input_nr next).
Proof. intros HF Hn%index_Ok. unfold target. cbn. rewrite HF. cbn. by rewrite Hn. Qed.
Lemma new_buffer_Some fs n (N : Function) : fs !! n = Some N → new_buffer fs n = replicate (num_inputs N) None.
Proof. intros E. unfold new_buffer. by rewrite E. Qed.
Lemma executes_lookup (info : gmap (option ptr) ExecInfo) n :
  bool_decide (info = ∅) || match info !! Some n with Some i => should_execute i | None => false end = executes info n.
Proof. unfold executes, info_of. by destruct (info !! Some n). Qed.

Lemma deliver_Ok g f i v s s' : deliver g f i v s = (Ok tt, s') →
  (target (functions s) (f, i) = None ∧ s' = s) ∨
  ∃ G G' new, graph_tasks s !! g = Some G ∧ delivered (functions s) g f i v G G' new ∧
    graph_tasks s' = <[g := G']> (graph_tasks s) ∧ same_but_tasks s s' ∧
    ∀ ths, items_in (ready_queues s') ths ≡ₚ new ++ items_in (ready_queues s) ths.
Proof.
  unfold deliver. intros H. apply SE_bind_Ok in H as (F & s1 & [HF ->]%deref_function_Ok & H).
  apply SE_bind_Ok in H as (next & s1 & [Hi ->]%lift_Ok & H). pose proof (target_next _ _ _ _ _ HF Hi) as Ht.
  destruct (function next) as [n|]; [right|left; by run]. cbn in Ht.
  apply SE_bind_Ok in H as (N & s1 & [HN ->]%deref_function_Ok & H). apply SE_bind_Ok in H as (G & s1 & [HG ->]%deref_task_Ok & H).
  apply SE_bind_Ok in H as (d & s1 & Hd & H). destruct (dependencies G !! n) as [d'|] eqn:Ed; [|by run]. apply ret_Ok in Hd as [-> ->].
  apply SE_bind_Ok in H as (u & s1 & (G0 & HG0 & ->)%update_task_Ok & H). assert (G0 = G) as -> by congruence.
  set (deps := if (int32 (d' - 1) =? 0)%Z then delete n (dependencies G) else <[n := int32 (d' - 1)]> (dependencies G)) in H.
  assert (Hdeps : deps = if decide (int32 (d' - 1) = 0%Z) then delete n (dependencies G) else <[n := int32 (d' - 1)]> (dependencies G)).
  { unfold deps. destruct (Z.eqb_spec (int32 (d' - 1)) 0); by case_decide. }
  exists G. destruct (not_ready G !! n) as [b0|] eqn:En.
  - apply SE_bind_Ok in H as (b & s1 & [Hb ->]%lift_Ok & H). apply SE_bind_Ok in H as (u' & s1 & (G1 & HG1 & ->)%update_task_Ok & H).
    cbn in HG1. rewrite lookup_insert_eq in HG1. injection HG1 as <-. cbn in H.
    assert (Hb' : buffer_add (input_nr next) v (default (new_buffer (functions s) n) (not_ready G !! n)) = Ok b) by (by rewrite En).
    destruct (Z.eqb_spec (int32 (d' - 1)) 0) as [Hz|Hz]; run; simplify_map_eq.
    + do 2 eexists. split; [done|]. split; [apply (delivered_ready _ _ _ _ _ _ n (input_nr next) d' b); try done; rewrite En; done|]. split_and!.
      * rewrite !insert_insert_eq. cbn. by rewrite delete_insert_eq.
      * repeat split. cbn. by rewrite length_alter.
      * intros ths. by apply items_push.
    + do 2 eexists. split; [done|]. split; [apply (delivered_waits _ _ _ _ _ _ n (input_nr next) d' b); try done; rewrite En; done|]. split_and!.
      * by rewrite !insert_insert_eq.
      * by repeat split.
      * done.
  - rewrite executes_lookup in H. destruct (executes (exec_info G) n) eqn:Ee.
    + apply SE_bind_Ok in H as (b & s1 & [Hb ->]%lift_Ok & H). rewrite <- (new_buffer_Some _ _ _ HN) in Hb.
      assert (Hb' : buffer_add (input_nr next) v (default (new_buffer (functions s) n) (not_ready G !! n)) = Ok b) by (by rewrite En).
      destruct (Z.eqb_spec (int32 (d' - 1)) 0) as [Hz|Hz]; run; simplify_map_eq.
      * do 2 eexists. split; [done|]. split; [apply (delivered_ready _ _ _ _ _ _ n (input_nr next) d' b); try done; rewrite En; done|]. split_and!.
        -- rewrite !insert_insert_eq. cbn. rewrite (delete_id (not_ready G)) by done. by destruct G.
        -- repeat split. cbn. by rewrite length_alter.
        -- intros ths. by apply items_push.
      * do 2 eexists. split; [done|]. split; [apply (delivered_waits _ _ _ _ _ _ n (input_nr next) d' b); try done; rewrite En; done|]. split_and!.
        -- by rewrite !insert_insert_eq.
        -- by repeat split.
        -- done.
    + run. do 2 eexists. split; [done|]. split; [by apply (delivered_skipped _ _ _ _ _ _ n (input_nr next) d' _ Ht Ed Hdeps)|]. by repeat split.
Qed.

Lemma buffer_add_length i v (b b' : InputBuffer (T:=T)) : buffer_add i v b = Ok b' → length b' = length b.
Proof.
  unfold buffer_add. unfold InputBuffer, variable in *. destruct (AT_ASSERT (i <? length b)) as [[]|e]; cbn; [|done]. destruct v as [v|]; [|by intros [= ->]].
  destruct (b !! i) as [[old|]|]; [|by intros [= <-]; rewrite length_insert..]. destruct (accumulate old v) as [x|e]; cbn; [|done].
  intros [= <-]. by rewrite length_insert.
Qed.
Lemma ready_queue_Throw d s e s' : ready_queue d s = (Throw e, s') → s' = s.
Proof.
  assert (H : ∀ z, ready_queue_by_index z s = (Throw e, s') → s' = s).
  { intros z. unfold ready_queue_by_index. rewrite SE_bind_Throw. intros [[=]|(s0 & s1 & [-> ->]%get_Ok & H)]. destruct (_ && _); [done|]. by injection H as _ <-. }
  unfold ready_queue. case_decide; apply H.
Qed.
Lemma push_Throw q t s e s' : is_Some (graph_tasks s !! base t) → push q t s ≠ (Throw e, s').
Proof. intros [G HG]. unfold push, update_task, deref_task, mbind, SE_bind. by rewrite HG. Qed.

(** A failing delivery may have counted the dependency down, and no more. *)
Lemma deliver_Throw g f i v s e s' : deliver g f i v s = (Throw e, s') → fatal e = true ∨
  ∃ G deps nr, graph_tasks s !! g = Some G ∧ (∀ n, is_Some (deps !! n) → is_Some (dependencies G !! n)) ∧
    (∀ n b, nr !! n = Some b → not_ready G !! n = Some b ∨ is_Some (functions s !! n) ∧ length b = length (default (new_buffer (functions s) n) (not_ready G !! n))) ∧
    s' = with_graph_tasks (<[g := set_not_ready nr (set_dependencies deps G)]> (graph_tasks s)) s.
Proof.
  intros H. assert (Hfun : ∀ f' e' s1, deref_function f' s = (Throw e', s1) → fatal e' = true).
  { intros f' e' s1. unfold deref_function. destruct (functions s !! f'); [done|]. by intros [= <- _]. }
  assert (Hup : ∀ (k : GraphTask → GraphTask) s0 e' s1, is_Some (graph_tasks s0 !! g) → update_task g k s0 ≠ (Throw e', s1)).
  { intros k s0 e' s1 [G HG]. unfold update_task, deref_task, mbind, SE_bind. by rewrite HG. }
  unfold deliver in H. apply SE_bind_Throw in H as [H|(F & s1 & [HF ->]%deref_function_Ok & H)]; [left; by eapply Hfun|].
  apply SE_bind_Throw in H as [[=]|(next & s1 & [Hi ->]%lift_Ok & H)]; [left; by eapply index_fatal|].
  destruct (function next) as [n|]; [|done]. apply SE_bind_Throw in H as [H|(N & s1 & [HN ->]%deref_function_Ok & H)]; [left; by eapply Hfun|].
  apply SE_bind_Throw in H as [H|(G & s1 & [HG ->]%deref_task_Ok & H)].
  { left. unfold deref_task in H. destruct (graph_tasks s !! g); [done|]. by injection H as <- _. }
  apply SE_bind_Throw in H as [H|(d & s1 & Hd & H)].
  { destruct (dependencies G !! n); [done|]. injection H as _ <-. right. exists G, (dependencies G), (not_ready G). split_and!; [done..| |].
    { intros m b Hm. by left. }
    destruct G. symmetry. by apply insert_same. }
  destruct (dependencies G !! n) as [d'|] eqn:Ed; [|by run]. apply ret_Ok in Hd as [-> ->]. right.
  set (deps := if (int32 (d' - 1) =? 0)%Z then delete n (dependencies G) else <[n := int32 (d' - 1)]> (dependencies G)) in H.
  assert (Hdeps : ∀ m, is_Some (deps !! m) → is_Some (dependencies G !! m)).
  { intros m. unfold deps. destruct (int32 (d' - 1) =? 0)%Z; [rewrite lookup_delete|rewrite lookup_insert]; case_decide; subst; eauto. }
  exists G, deps. apply SE_bind_Throw in H as [H|(u & s1 & (G0 & HG0 & ->)%update_task_Ok & H)]; [by destruct (Hup _ _ _ _ (mk_is_Some _ _ HG) H)|].
  assert (G0 = G) as -> by congruence.
  assert (Hs1 : graph_tasks (with_graph_tasks (<[g := set_dependencies deps G]> (graph_tasks s)) s) !! g = Some (set_dependencies deps G)) by apply lookup_insert_eq.
  assert (Hend : ∀ s2, (s2 = with_graph_tasks (<[g := set_dependencies deps G]> (graph_tasks s)) s ∨
      ∃ b, length b = length (default (new_buffer (functions s) n) (not_ready G !! n)) ∧
        s2 = with_graph_tasks (<[g := set_not_ready (<[n := b]> (not_ready G)) (set_dependencies deps G)]> (graph_tasks s)) s) → s' = s2 →
    ∃ nr, graph_tasks s !! g = Some G ∧ (∀ m, is_Some (deps !! m) → is_Some (dependencies G !! m)) ∧
      (∀ m b, nr !! m = Some b → not_ready G !! m = Some b ∨ is_Some (functions s !! m) ∧ length b = length (default (new_buffer (functions s) m) (not_ready G !! m))) ∧
      s' = with_graph_tasks (<[g := set_not_ready nr (set_dependencies deps G)]> (graph_tasks s)) s).
  { intros s2 Hs2 ->. destruct Hs2 as [->|(b & Hlen & ->)].
    - exists (not_ready G). split_and!; [done..| |by destruct G]. intros m b Hm. by left.
    - eexists. split_and!; [done..| |reflexivity]. intros m b'. rewrite lookup_insert. case_decide; [subst m; intros [= <-]; right; split; [by eexists|done]|by left]. }
  destruct (not_ready G !! n) as [b0|].
  - apply SE_bind_Throw in H as [H|(b & s1 & [Hb ->]%lift_Ok & H)]; [injection H as _ <-; eapply Hend; [by left|done]|].
    apply SE_bind_Throw in H as [H|(u' & s1 & (G1 & HG1 & ->)%update_task_Ok & H)]; [by destruct (Hup _ _ _ _ (mk_is_Some _ _ Hs1) H)|].
    rewrite Hs1 in HG1. injection HG1 as <-. destruct (int32 (d' - 1) =? 0)%Z; [|done]. cbn in H. rewrite insert_insert_eq in H.
    apply SE_bind_Throw in H as [H|(q & s1 & [_ ->]%ready_queue_Ok & H)]; [apply ready_queue_Throw in H; eapply Hend; [right; exists b; split; [by apply buffer_add_length in Hb|reflexivity]|done]|].
    apply SE_bind_Throw in H as [H|(u2 & s1 & (G1 & HG1 & ->)%push_Ok & H)].
    + apply push_Throw in H as []. cbn. by rewrite lookup_insert_eq.
    + apply Hup in H as []. cbn. by rewrite lookup_insert_eq.
  - destruct (_ || _); [|done]. apply SE_bind_Throw in H as [H|(b & s1 & [Hb ->]%lift_Ok & H)]; [injection H as _ <-; eapply Hend; [by left|done]|].
    destruct (int32 (d' - 1) =? 0)%Z; [|by apply Hup in H; [|by eexists]].
    apply SE_bind_Throw in H as [H|(q & s1 & [_ ->]%ready_queue_Ok & H)]; [apply ready_queue_Throw in H; eapply Hend; [by left|done]|].
    apply push_Throw in H as []. by eexists.
Qed.
End advance.

(** ** The invariant of the engine *)

Section advance.
Context {T : Type} `{!Tensors T}.
Implicit Types (fs : gmap ptr (Function (T:=T))) (f n m h : ptr) (G : GraphTask (T:=T)) (p : Phase (T:=T)) (s : State (T:=T)).
Implicit Types (its : list (Phase (T:=T))) (t : FunctionTask (T:=T)) (lg evs : list (event (T:=T))) (ins outs : list (variable (T:=T))) (K : Pass (T:=T)).

(** Events that are about no function. *)
Definition no_calls evs : Prop := ∀ g, called_in g evs = [] ∧ returned_in g evs = [].
Lemma no_calls_nil : no_calls [].
Proof. done. Qed.

(** What [execute] does before it waits. *)
Definition started_task (keep create : bool) (deps : gmap ptr Z) (info : gmap (option ptr) ExecInfo) (outputs : list Edge) : GraphTask (T:=T) :=
  mkGraphTask None false 1 keep create ∅ deps info (replicate (length outputs) None) NO_DEVICE true.
Definition sets_up (number : Z) (roots : list Edge) ins (keep create : bool) (outputs : list Edge) s s' : Prop :=
  let root := fresh (dom (functions s)) in
  ∃ grads deps info q,
    validate_outputs (functions s) roots ins = Ok grads ∧ functions s' = <[root := GraphRoot number roots grads]> (functions s) ∧
    compute_dependencies root (functions s') = Ok deps ∧
    (match outputs with [] => Ok ∅ | _ => init_to_execute (functions s') root roots outputs end) = Ok info ∧
    next_task s' = S (next_task s) ∧ graph_tasks s' = <[next_task s := started_task keep create deps info outputs]> (graph_tasks s) ∧
    q < length (ready_queues s) ∧ ready_queues s' = alter (λ heap, heap ++ [mkTask (next_task s) (Some root) []]) q (ready_queues s) ∧
    threads s' = threads s ∧ callers s' = callers s ∧ log s' = log s.

Inductive advance s s' : Prop :=
  | advance_quiet pre :
      functions s' = functions s → next_task s' = next_task s → length (ready_queues s') = length (ready_queues s) → items s' ≡ₚ items s →
      (∀ g G', graph_tasks s' !! g = Some G' → ∃ G, graph_tasks s !! g = Some G ∧ quiet G G') →
      log s' = log s ++ pre → no_calls pre → advance s s'
  | advance_turn g p ps rest pre evs :
      functions s' = functions s → next_task s' = next_task s → length (ready_queues s') = length (ready_queues s) →
      items s ≡ₚ p :: rest → items s' ≡ₚ ps ++ rest → item_base p = Some g → (counted p = true ∨ is_Some (graph_tasks s !! g)) → (∀ q, q ∈ ps → item_base q = Some g) →
      (∀ g' G', graph_tasks s' !! g' = Some G' → ∃ G, graph_tasks s !! g' = Some G ∧
        if decide (g' = g) then turn (functions s) G p G' ps evs else quiet G G') →
      log s' = log s ++ pre ++ evs → no_calls pre → (∀ g', g' ≠ g → called_in g' evs = [] ∧ returned_in g' evs = []) → advance s s'
  | advance_setup number roots ins keep create outputs s0 :
      sets_up number roots ins keep create outputs s s0 →
      functions s' = functions s0 → next_task s' = next_task s0 → ready_queues s' = ready_queues s0 → items s' ≡ₚ items s0 →
      graph_tasks s' = graph_tasks s0 → log s' = log s0 → advance s s'.

Lemma quiet_refl G : quiet G G.
Proof. exists (owner G), (locked G). by destruct G. Qed.

Lemma quiet_unlock G : quiet G (set_locked false G).
Proof. exists (owner G), false. by destruct G. Qed.

(** ** One thread *)

(** A thread whose phase changes. *)
Lemma advance_phase s s' w c c' gt p p' new g evs rest :
  threads s !! w = Some (mkThread (mkFrame gt p :: rest) c) → item_base p = Some g → counted p = true ∨ is_Some (graph_tasks s !! g) → (∀ q, q ∈ new → item_base q = Some g) →
  (is_Some (phase_task p') → item_base p' = Some g) →
  functions s' = functions s → next_task s' = next_task s → length (ready_queues s') = length (ready_queues s) →
  threads s' = <[w := mkThread (mkFrame gt p' :: rest) c']> (threads s) →
  (∀ ths, items_in (ready_queues s') ths ≡ₚ new ++ items_in (ready_queues s) ths) →
  (∀ g' G', graph_tasks s' !! g' = Some G' → ∃ G, graph_tasks s !! g' = Some G ∧
    if decide (g' = g) then turn (functions s) G p G' ((if busy p' then [p'] else []) ++ new) evs else quiet G G') →
  log s' = log s ++ evs → (∀ g', g' ≠ g → called_in g' evs = [] ∧ returned_in g' evs = []) → advance s s'.
Proof.
  intros Hw Hp Hx Hnew Hp' Hf Hn Hq Hth Hit HG Hl He.
  destruct (items_thread (ready_queues s) (threads s) w _ (mkThread (mkFrame gt p' :: rest) c') Hw) as [E1 E2].
  assert (Hb : busy p = true) by (unfold busy; unfold item_base in Hp; by destruct (phase_task p)).
  apply (advance_turn s s' g p ((if busy p' then [p'] else []) ++ new) (busy_in rest ++ items_in (ready_queues s) (delete w (threads s))) [] evs); try done.
  - unfold items. rewrite E1. unfold busy_in. cbn. by rewrite Hb.
  - unfold items. rewrite Hit, Hth, E2. unfold busy_in. cbn [frames fmap list_fmap phase List.filter]. destruct (busy p'); cbn; [|done].
    by rewrite <- Permutation_middle.
  - intros q [Hq'|Hq']%elem_of_app; [|by apply Hnew]. unfold busy in Hq'. destruct (phase_task p') eqn:E; [|by apply elem_of_nil in Hq'].
    apply list_elem_of_singleton in Hq' as ->. apply Hp'. eauto.
Qed.

(** The usual case: one graph task, one new phase. *)
Lemma advance_goto s s' w c c' gt t p p' G G' evs rest :
  threads s !! w = Some (mkThread (mkFrame gt p :: rest) c) → phase_task p = Some t → (∀ t', phase_task p' = Some t' → base t' = base t) →
  graph_tasks s !! base t = Some G → graph_tasks s' = <[base t := G']> (graph_tasks s) → turn (functions s) G p G' (if busy p' then [p'] else []) evs →
  threads s' = <[w := mkThread (mkFrame gt p' :: rest) c']> (threads s) →
  functions s' = functions s → next_task s' = next_task s → ready_queues s' = ready_queues s → log s' = log s ++ evs → advance s s'.
Proof.
  intros Hw Hp Hp' HG HG' Ht Hth Hf Hn Hq Hl. assert (Hb : item_base p = Some (base t)) by (unfold item_base; by rewrite Hp).
  apply (advance_phase s s' w c c' gt p p' [] (base t) evs rest); try done.
  - right. by eexists.
  - by intros q ?%elem_of_nil.
  - intros [t' Ht']. unfold item_base. rewrite Ht'. cbn. f_equal. by apply Hp'.
  - by rewrite Hq.
  - intros ths. by rewrite Hq.
  - intros g G1. rewrite HG', lookup_insert. case_decide as Hg; [subst g|].
    + intros [= <-]. exists G. split; [done|]. rewrite decide_True by done. by rewrite app_nil_r.
    + intros E. exists G1. split; [done|]. rewrite decide_False by done. apply quiet_refl.
  - intros g' Hg'. eapply turn_events; [exact Ht|]. rewrite Hb. congruence.
Qed.
(** The graph task is not looked at. *)
Lemma advance_only_phase s s' w c c' gt t p p' rest :
  threads s !! w = Some (mkThread (mkFrame gt p :: rest) c) → phase_task p = Some t → counted p = true ∨ is_Some (graph_tasks s !! base t) →
  (∀ t', phase_task p' = Some t' → base t' = base t) → graph_tasks s' = graph_tasks s → (∀ G, graph_tasks s !! base t = Some G → turn (functions s) G p G (if busy p' then [p'] else []) []) →
  threads s' = <[w := mkThread (mkFrame gt p' :: rest) c']> (threads s) →
  functions s' = functions s → next_task s' = next_task s → ready_queues s' = ready_queues s → log s' = log s → advance s s'.
Proof.
  intros Hw Hp Hx Hp' HG Ht Hth Hf Hn Hq Hl. assert (Hb : item_base p = Some (base t)) by (unfold item_base; by rewrite Hp).
  apply (advance_phase s s' w c c' gt p p' [] (base t) [] rest); try done.
  - by intros q ?%elem_of_nil.
  - intros [t' Ht']. unfold item_base. rewrite Ht'. cbn. f_equal. by apply Hp'.
  - by rewrite Hq.
  - intros ths. by rewrite Hq.
  - intros g G1. rewrite HG. intros E. exists G1. split; [done|]. case_decide as Hg; [subst g; rewrite app_nil_r; by apply Ht|apply quiet_refl].
  - by rewrite app_nil_r.
Qed.

(** ** [execute] up to the wait *)
Lemma execute_setup_Ok number roots ins keep create outputs s g s' :
  execute_setup number roots ins keep create outputs s = (Ok g, s') → g = next_task s ∧ sets_up number roots ins keep create outputs s s'.
Proof.
  unfold execute_setup. intros H. apply SE_bind_Ok in H as (s0 & s1 & [-> ->]%get_Ok & H).
  apply SE_bind_Ok in H as (grads & s1 & [Hv ->]%lift_Ok & H). apply SE_bind_Ok in H as (u & s1 & ->%modify_Ok & H).
  apply SE_bind_Ok in H as (s0 & s1 & [-> ->]%get_Ok & H). cbn [functions with_functions] in H.
  apply SE_bind_Ok in H as (deps & s1 & [Hd ->]%lift_Ok & H). apply SE_bind_Ok in H as (info & s1 & [Hi ->]%lift_Ok & H).
  apply SE_bind_Ok in H as (u1 & s1 & ->%modify_Ok & H). apply SE_bind_Ok in H as (q & s1 & [Hq ->]%ready_queue_Ok & H).
  run. simplify_map_eq. split; [done|]. exists grads, deps, info, q. split_and!; try done. cbn. by rewrite insert_insert_eq.
Qed.

Lemma compute_dependencies_fatal fs root e : compute_dependencies root fs = Throw e → fatal e = true.
Proof.
  unfold compute_dependencies. generalize (S (size fs)) as fuel. generalize [root] as queue. generalize (∅ : gset ptr) as seen. generalize (∅ : gmap ptr Z) as deps.
  intros deps seen queue fuel. revert deps seen queue. induction fuel as [|fuel IH]; intros deps seen queue; destruct queue as [|f queue]; cbn; try done; [by intros [= <-]|].
  destruct (fs !! f) as [F|]; [|by intros [= <-]]. destruct (count_edges _ _ _ _) as [[? ?] ?]. apply IH.
Qed.
Lemma needed_loop_fatal fuel fs stack seen info e : needed_loop fuel fs stack seen info = Throw e → fatal e = true.
Proof.
  revert stack seen info. induction fuel as [|fuel IH]; intros stack seen info; destruct stack as [|[f next] stack]; cbn; try done; [by intros [= <-]|].
  destruct (get_next_fn next) as [[m next']|].
  - case_decide; [apply IH|]. destruct (fs !! m); [apply IH|by intros [= <-]].
  - destruct (fs !! f); [apply IH|by intros [= <-]].
Qed.
Lemma init_to_execute_fatal fs root roots outputs e : init_to_execute fs root roots outputs = Throw e → fatal e = true.
Proof.
  unfold init_to_execute. generalize (∅ : gset ptr) as seen. generalize (add_captures outputs 0 {[Some root := mkInfo true None]}) as info.
  induction roots as [|r roots IH]; intros info seen; cbn [needed_roots]; [done|]. destruct (function r) as [f|]; [|by intros [= <-]]. case_decide; [apply IH|].
  destruct (fs !! f); [|by intros [= <-]]. intros [Hx|([seen' info'] & _ & Hx)]%outcome_bind_Throw; [by eapply needed_loop_fatal|by eapply IH].
Qed.
Lemma execute_setup_Throw number roots ins keep create outputs s e s' :
  execute_setup number roots ins keep create outputs s = (Throw e, s') → ready_queues s ≠ [] → fatal e = true ∨ s' = s.
Proof.
  unfold execute_setup. intros H Hq. apply SE_bind_Throw in H as [[=]|(s0 & s1 & [-> ->]%get_Ok & H)].
  apply SE_bind_Throw in H as [H|(grads & s1 & [Hv ->]%lift_Ok & H)]; [injection H as _ <-; by right|].
  apply SE_bind_Throw in H as [[=]|(u & s1 & ->%modify_Ok & H)]. apply SE_bind_Throw in H as [[=]|(s0 & s1 & [-> ->]%get_Ok & H)]. left.
  apply SE_bind_Throw in H as [H|(deps & s1 & [Hd ->]%lift_Ok & H)]; [injection H as H _; by eapply compute_dependencies_fatal|].
  apply SE_bind_Throw in H as [H|(info & s1 & [Hi ->]%lift_Ok & H)].
  { injection H as H _. destruct outputs; [done|]. by eapply init_to_execute_fatal. }
  apply SE_bind_Throw in H as [[=]|(u1 & s1 & ->%modify_Ok & H)]. apply SE_bind_Throw in H as [H|(q & s1 & [Hq' ->]%ready_queue_Ok & H)].
  - exfalso. unfold ready_queue in H. rewrite decide_True in H by done. unfold ready_queue_by_index in H.
    apply SE_bind_Throw in H as [[=]|(s0 & s1 & [-> ->]%get_Ok & H)]. cbn in H. by destruct (ready_queues s).
  - apply SE_bind_Throw in H as [H|(u2 & s1 & Hp & H)]; [|done]. apply push_Throw in H as []. cbn. by rewrite lookup_insert_eq.
Qed.

(** ** The parts of [thread_main] *)
Section thread.
Context (w : nat) (c : bool) (gt : option nat) (rest : list (Frame (T:=T))).
#[local] Abbreviation at_phase s p := (threads s !! w = Some (mkThread (mkFrame gt p :: rest) c)).

Lemma popped_advance t s s' : at_phase s (Popped t) → popped w c gt rest t s = (Ok tt, s') → advance s s'.
Proof.
  intros Hw H. unfold popped in H. destruct (fn t) as [f|] eqn:Hf.
  - run. destruct (has_error x) eqn:He.
    + eapply (advance_goto s _ w c c gt t _ (Finishing t) x); try done; [by intros t' [= <-]|by rewrite insert_id| |by rewrite app_nil_r]. constructor. by left.
    + eapply (advance_goto s _ w c c gt t _ (Evaluating t) x); try done; [by intros t' [= <-]|by rewrite insert_id| |by rewrite app_nil_r]. by econstructor.
  - run. eapply (advance_only_phase s _ w c c gt t _ (Finishing t)); try done; [by left|by intros t' [= <-]|]. intros G _. constructor. by right.
Qed.

Lemma finishing_advance t s s' : at_phase s (Finishing t) → finishing w c gt rest t s = (Ok tt, s') → advance s s'.
Proof.
  intros Hw H. unfold finishing in H. run. eapply (advance_goto s _ w c c gt t _ (Counting t (owner x)) x); try done; [by intros t' [= <-]|by rewrite insert_id| |by rewrite app_nil_r].
  constructor.
Qed.

Lemma counting_advance t o s s' : at_phase s (Counting t o) → counting w c gt rest t o s = (Ok tt, s') → advance s s'.
Proof.
  intros Hw H. unfold counting in H. run. simplify_eq.
  eapply (advance_goto s _ w c c gt t _ _ x); try done; [|eapply turn_count|by rewrite app_nil_r].
  - intros t'. case_decide; [done|]. destruct (_ =? _)%Z; [by intros [= <-]|done].
  - case_decide; [by left|]. destruct (Z.eqb_spec (uint64 (outstanding_tasks x - 1)) 0); [by right|by left].
Qed.

Lemma failing_advance t e s s' : at_phase s (Failing t e) → failing w c gt rest t e s = (Ok tt, s') → advance s s'.
Proof.
  intros Hw H. unfold failing in H. apply SE_bind_Ok in H as (G & s1 & [HG ->]%deref_task_Ok & H).
  apply SE_bind_Ok in H as (u & s1 & H1 & H). pose proof (turn_error (functions s) G t e) as Ht.
  destruct (has_error G) eqn:He; run; simplify_eq.
  - eapply (advance_goto s _ w c c gt t _ (Finishing t) G); try done; [by intros t' [= <-]|by rewrite insert_id|by rewrite app_nil_r].
  - eapply (advance_goto s _ w c c gt t _ (Finishing t) G); try done; [by intros t' [= <-]|by rewrite app_nil_r].
Qed.

Lemma notifying_advance t o s s' : at_phase s (Notifying t o) → notifying w c gt rest t o s = (Ok tt, s') → advance s s'.
Proof.
  intros Hw H. unfold notifying in H. case_decide.
  - run. eapply (advance_only_phase s _ w c c gt t _ AtLoop); try done; [right; by eexists|]. intros G _. constructor.
  - run. simplify_eq. rename x2 into G, x1 into q.
    apply (advance_phase s _ w c c gt (Notifying t o) AtLoop [Popped (mkTask (base t) None [])] (base t) [] rest); try done; cbn.
    + right. by eexists.
    + intros p ->%list_elem_of_singleton. done.
    + by intros [].
    + by rewrite length_alter.
    + intros ths. by apply items_push.
    + intros g G1. rewrite lookup_insert. case_decide as Hg; [subst g|].
      * intros [= <-]. exists G. split; [done|]. rewrite decide_True by done. constructor.
      * intros E. exists G1. split; [done|]. rewrite decide_False by done. apply quiet_refl.
    + by rewrite app_nil_r.
Qed.

Lemma non_null_Ok (o : option ptr) f : non_null o = Ok f → o = Some f.
Proof. destruct o; [by intros [= ->]|done]. Qed.

Lemma evaluate_advance t s s' : at_phase s (Evaluating t) → evaluate w c gt rest t s = (Ok tt, s') → advance s s'.
Proof.
  intros Hw H. unfold evaluate in H. apply SE_bind_Ok in H as (f & s1 & [Hf%non_null_Ok ->]%lift_Ok & H).
  apply SE_bind_Ok in H as (r & s1 & Hi%try_Ok & H). destruct r as [[]|e].
  - destruct (instrument_Ok _ _ _ _ _ Hi) as (G & vars & HG & Hc & Hr & ->). set (G' := set_captured_vars vars G) in *.
    apply SE_bind_Ok in H as (G0 & s1 & [HG0 ->]%deref_task_Ok & H). cbn in HG0. rewrite lookup_insert_eq in HG0. injection HG0 as <-.
    apply SE_bind_Ok in H as (F & s1 & [HF ->]%deref_function_Ok & H). cbn in HF.
    apply SE_bind_Ok in H as (i & s1 & Hh%try_Ok & H). destruct i as [ins|e].
    + apply lift_Ok in Hh as [Hh ->]. apply SE_bind_Ok in H as (u & s1 & H1 & H).
      set (evs := (if keep_graph G then [] else [Will_release f]) ++ [Called (base t) f (grad_mode G) ins]).
      assert (Ht : turn (functions s) G (Evaluating t) G' [Calling t c ins (apply F ins)] evs) by (by eapply turn_call).
      assert (log s' = log s ++ evs ∧ threads s' = <[w := mkThread (mkFrame gt (Calling t c ins (apply F ins)) :: rest) (bool_decide (exec_info G' = ∅) && c)]> (threads s) ∧
        graph_tasks s' = <[base t := G']> (graph_tasks s) ∧ functions s' = functions s ∧ next_task s' = next_task s ∧ ready_queues s' = ready_queues s) as (E1 & E2 & E3 & E4 & E5 & E6).
      { unfold evs. change (keep_graph G') with (keep_graph G) in H1. destruct (keep_graph G); run; cbn; rewrite <- ?app_assoc; done. }
      eapply (advance_goto s s' w c _ gt t _ (Calling t c ins (apply F ins)) G G' evs); try done. by intros t' [= <-].
    + destruct Hh as [[= _ <-] _]. run. eapply (advance_goto s _ w c _ gt t _ (Failing t e) G G'); try done; [by intros t' [= <-]|apply turn_cannot; [by eexists|by eapply captured_length]|by rewrite app_nil_r].
  - destruct (instrument_Ok _ _ _ _ _ Hi) as (G & vars & HG & Hc & Hr & ->). run.
    eapply (advance_goto s _ w c _ gt t _ (Finishing t) G); try done; [by intros t' [= <-]|by eapply turn_unneeded|by rewrite app_nil_r].
  - destruct Hi as [Hi He]. apply instrument_Throw in Hi as [Hi|[-> [G HG]]]; [congruence|]. run.
    eapply (advance_goto s _ w c _ gt t _ (Failing t e) G (set_captured_vars (captured_vars G) G)); try done; [by intros t' [= <-]| |by constructor|by rewrite app_nil_r].
    cbn. symmetry. apply insert_id. rewrite HG. by destruct G.
Qed.

Lemma delivering_advance t (outs : list (nat * variable (T:=T))) s s' : at_phase s (Delivering t outs) → delivering w c gt rest t outs s = (Ok tt, s') → advance s s'.
Proof.
  intros Hw H. unfold delivering in H. destruct outs as [|[i v] outs].
  - apply SE_bind_Ok in H as (u & s1 & (G & HG & ->)%update_task_Ok & H). run.
    eapply (advance_goto s _ w c _ gt t _ (Finishing t) G); try done; [by intros t' [= <-]|constructor|by rewrite app_nil_r].
  - apply SE_bind_Ok in H as (f & s1 & [Hf%non_null_Ok ->]%lift_Ok & H).
    apply SE_bind_Ok in H as (r & s1 & Hd%try_Ok & H). destruct r as [[]|e].
    + run. destruct (deliver_Ok _ _ _ _ _ _ Hd) as [[Ht ->]|(G & G' & new & HG & Hdel & HG' & (E1 & E2 & E3 & E4 & E5 & E6) & Hit)].
      * eapply (advance_only_phase s _ w c _ gt t _ (Delivering t outs)); try done; [by left|by intros t' [= <-]|].
        intros G HG. apply (turn_deliver _ _ t f i v outs G []); [done|]. by constructor.
      * assert (Hnew : ∀ q, q ∈ new → item_base q = Some (base t)).
        { destruct Hdel; intros q Hq; try by apply elem_of_nil in Hq. by apply list_elem_of_singleton in Hq as ->. }
        apply (advance_phase s _ w c c gt (Delivering t ((i, v) :: outs)) (Delivering t outs) new (base t) [] rest); try done; cbn.
        -- by left.
        -- by rewrite E3.
        -- intros g G1. rewrite HG', lookup_insert. case_decide as Hg; [subst g|].
           ++ intros [= <-]. exists G. split; [done|]. rewrite decide_True by done. by eapply turn_deliver.
           ++ intros E. exists G1. split; [done|]. rewrite decide_False by done. apply quiet_refl.
        -- by rewrite app_nil_r.
    + destruct Hd as [Hd He]. apply deliver_Throw in Hd as [Hd|(G & deps & nr & HG & Hdeps & Hnr & ->)]; [congruence|]. run. simplify_map_eq.
      eapply (advance_goto s _ w c _ gt t _ (Failing t e) G); try done; [by intros t' [= <-]|cbn; by rewrite insert_insert_eq|by apply turn_undelivered|by rewrite app_nil_r].
Qed.

Lemma calling_advance number t prev ins comp s s' : ready_queues s ≠ [] →
  at_phase s (Calling t prev ins comp) → calling w c gt rest number t prev ins comp s = (Ok tt, s') → advance s s'.
Proof.
  intros Hq Hw H. unfold calling in H. apply SE_bind_Ok in H as (f & s1 & [Hf%non_null_Ok ->]%lift_Ok & H). destruct comp as [raw|e|roots vs keep create os k].
  - apply SE_bind_Ok in H as (F & s1 & [HF ->]%deref_function_Ok & H). apply SE_bind_Ok in H as (G & s1 & [HG ->]%deref_task_Ok & H).
    apply SE_bind_Ok in H as (s0 & s1 & [-> ->]%get_Ok & H). apply SE_bind_Ok in H as (v & s1 & Hv%try_Ok & H).
    assert (Hraise : ∀ e c', set_frames w c' (mkFrame gt (Failing t e) :: rest) s = (Ok tt, s') → advance s s').
    { intros e c' H1. run. eapply (advance_goto s _ w c _ gt t _ (Failing t e) G); try done; [by intros t' [= <-]|by rewrite insert_id|by constructor|by rewrite app_nil_r]. }
    destruct v as [valid|e]; [|destruct Hv as [[= _ <-] _]; by eapply Hraise]. apply lift_Ok in Hv as [Hv ->].
    apply SE_bind_Ok in H as (h & s1 & Hh%try_Ok & H). destruct h as [outs|e]; [|destruct Hh as [[= _ <-] _]; by eapply Hraise].
    apply lift_Ok in Hh as [Hh ->]. apply SE_bind_Ok in H as (u & s1 & ->%emit_Ok & H). apply SE_bind_Ok in H as (u1 & s1 & H1 & H).
    set (evs := Returned (base t) f outs :: (if keep_graph G then [] else [Released f])).
    set (p' := if decide (length outs = 0) then Finishing t
      else if anomaly_mode && existsb (λ o, match o with Some x => has_nan x | None => false end) outs then Failing t (RuntimeError "returned nan values")
      else Locking t outs).
    assert (Ht : turn (functions s) G (Calling t prev ins (Return raw)) G [p'] evs).
    { eapply turn_return; try done. unfold p'. case_decide as Hl; [left; split; [done|by apply nil_length_inv]|]. destruct (_ && _); [right; right; eauto|by right; left]. }
    assert (log s' = log s ++ evs ∧ threads s' = <[w := mkThread (mkFrame gt p' :: rest) prev]> (threads s) ∧
        graph_tasks s' = graph_tasks s ∧ functions s' = functions s ∧ next_task s' = next_task s ∧ ready_queues s' = ready_queues s) as (E1 & E2 & E3 & E4 & E5 & E6).
    { unfold evs, p'. destruct (keep_graph G); case_decide; try destruct (_ && _); run; cbn; rewrite <- ?app_assoc; done. }
    assert (Hp' : phase_task p' = Some t ∧ busy p' = true) by (unfold p'; case_decide; try destruct (_ && _); done). destruct Hp' as [Hp' Hb].
    eapply (advance_goto s s' w c _ gt t _ p' G G evs); try done; [by rewrite Hp'; intros t' [= <-]|by rewrite E3, insert_id|by rewrite Hb].
  - destruct (fatal e); [by run|]. run. eapply (advance_only_phase s _ w c c gt t _ (Failing t e)); try done; [by left|by intros t' [= <-]|]. intros G _. by constructor.
  - apply SE_bind_Ok in H as (r & s1 & Hr%try_Ok & H). destruct r as [g|e].
    + apply execute_setup_Ok in Hr as [-> Hr]. run. pose proof Hr as (grads & deps & info & q & _ & _ & _ & _ & _ & _ & _ & _ & Eth & _).
      eapply (advance_setup _ _ number roots vs keep create os s1); try done. unfold items. cbn [ready_queues threads with_threads]. rewrite Eth.
      destruct (items_thread (ready_queues s1) (threads s) w _ (mkThread (mkFrame (Some (next_task s)) Starting :: mkFrame gt (Calling t prev ins (Execute roots vs keep create os k)) :: rest) c) Hw) as [E1 E2].
      by rewrite E1, E2.
    + destruct Hr as [Hr He]. apply execute_setup_Throw in Hr as [Hr| ->]; [congruence| |done]. run.
      eapply (advance_only_phase s _ w c c gt t _ (Calling t prev ins (k (Throw e)))); try done; [by left|by intros t' [= <-]|]. intros G _. constructor.
Qed.

Lemma locking_advance t outs s s' : at_phase s (Locking t outs) →
  (update_task (base t) (set_locked true);; goto w c gt rest (Delivering t (imap pair outs))) s = (Ok tt, s') → advance s s'.
Proof.
  intros Hw H. apply SE_bind_Ok in H as (u & s1 & (G & HG & ->)%update_task_Ok & H). run.
  eapply (advance_goto s _ w c _ gt t _ (Delivering t (imap pair outs)) G); try done; [by intros t' [= <-]|constructor|by rewrite app_nil_r].
Qed.

(** Steps of a thread that has no task. *)
Lemma advance_idle s s' c' fr' p pre :
  at_phase s p → phase_task p = None → busy_in fr' = busy_in rest → threads s' = <[w := mkThread fr' c']> (threads s) →
  functions s' = functions s → next_task s' = next_task s → ready_queues s' = ready_queues s →
  (∀ g G', graph_tasks s' !! g = Some G' → ∃ G, graph_tasks s !! g = Some G ∧ quiet G G') →
  log s' = log s ++ pre → no_calls pre → advance s s'.
Proof.
  intros Hw Hp Hb Hth Hf Hn Hq HG Hl Hpre. apply (advance_quiet _ _ pre); try done; [by rewrite Hq|]. unfold items. rewrite Hq, Hth.
  destruct (items_thread (ready_queues s) (threads s) w _ (mkThread fr' c') Hw) as [E1 E2]. rewrite E1, E2. cbn [frames]. rewrite Hb.
  unfold busy_in at 2. cbn. unfold busy. by rewrite Hp.
Qed.
Lemma starting_advance g s s' : at_phase s Starting →
  (update_task g (λ G, set_locked false (set_owner (worker_device w) G));; goto w c gt rest AtLoop) s = (Ok tt, s') → advance s s'.
Proof.
  intros Hw H. run. eapply (advance_idle s _ _ (mkFrame gt AtLoop :: rest) _ []); try done; cbn; [|by rewrite app_nil_r].
  intros g' G'. rewrite lookup_insert. case_decide as Hg; [subst g'|intros; exists G'; split; [done|apply quiet_refl]].
  intros [= <-]. eexists. split; [done|]. exists (worker_device w), false. done.
Qed.
Lemma popping_advance heap pick t s s' : at_phase s InPop → ready_queues s !! w = Some heap → heap !! pick = Some t →
  (modify (λ s, with_ready_queues (<[w := delete pick heap]> (ready_queues s)) s);; goto w c gt rest (Popped t)) s = (Ok tt, s') → advance s s'.
Proof.
  intros Hw Hh Hp H. run. apply (advance_quiet _ _ []); cbn; try done.
  - by rewrite length_insert.
  - unfold items. cbn. destruct (items_thread (<[w := delete pick heap]> (ready_queues s)) (threads s) w _ (mkThread (mkFrame gt (Popped t) :: rest) c) Hw) as [E1 E2].
    rewrite E2, (items_pop _ _ _ _ _ _ Hh Hp), E1. done.
  - intros g G HG. exists G. split; [done|apply quiet_refl].
  - by rewrite app_nil_r.
Qed.

Lemma execute_return_Ok g s r s' : execute_return g s = (Ok r, s') →
  ∃ G, graph_tasks s !! g = Some G ∧ r = execute_result G ∧ s' = with_log (log s ++ [Executed g r]) (with_graph_tasks (delete g (graph_tasks s)) s).
Proof. unfold execute_return. intros H. run. eauto. Qed.

End thread.

Lemma at_loop_advance w c gt (rest : list (Frame (T:=T))) s s' :
  threads s !! w = Some (mkThread (mkFrame gt AtLoop :: rest) c) → at_loop w c gt rest s = (Ok tt, s') → advance s s'.
Proof.
  intros Hw H. unfold at_loop in H. assert (Hsame : ∀ g G', graph_tasks s !! g = Some G' → ∃ G, graph_tasks s !! g = Some G ∧ quiet G G').
  { intros g G HG. exists G. split; [done|apply quiet_refl]. }
  destruct gt as [g|].
  2:{ run. eapply (advance_idle w c _ rest s _ c (mkFrame None InPop :: rest) AtLoop []); try done. cbn. by rewrite app_nil_r. }
  apply SE_bind_Ok in H as (G & s1 & [HG ->]%deref_task_Ok & H). destruct (0 <? outstanding_tasks G)%Z.
  { run. eapply (advance_idle w c _ rest s _ c (mkFrame (Some g) InPop :: rest) AtLoop []); try done. cbn. by rewrite app_nil_r. }
  apply SE_bind_Ok in H as (r & s1 & (G0 & HG0 & Hr & ->)%execute_return_Ok & H).
  assert (Hdel : ∀ g' G', delete g (graph_tasks s) !! g' = Some G' → ∃ G, graph_tasks s !! g' = Some G ∧ G' = G).
  { intros g' G'. rewrite lookup_delete. case_decide; [done|]. eauto. }
  destruct rest as [|[gt' p] rest']; [by run|]. destruct p as [| | | | |t prev ins comp| | | | | |]; try by run. destruct comp as [| |roots vs keep create os k]; try by run. run.
  destruct (items_thread (ready_queues s) (threads s) w _ (mkThread (mkFrame gt' (Calling t prev ins (k r)) :: rest') c) Hw) as [E1 E2].
  apply (advance_turn _ _ (base t) (Calling t prev ins (Execute roots vs keep create os k)) [Calling t prev ins (k r)]
    (busy_in rest' ++ items_in (ready_queues s) (delete w (threads s))) [Executed g r] []); cbn; try done.
  - by left.
  - by intros q ->%list_elem_of_singleton.
  - intros g' G' HG'. destruct (Hdel _ _ HG') as (G1 & HG1 & ->). exists G1. split; [done|]. case_decide; [constructor|apply quiet_refl].
Qed.

(** ** Every step *)
Lemma thread_step_advance w pick number s (step : M unit) s' :
  ready_queues s ≠ [] → thread_step w pick number s = Some step → step s = (Ok tt, s') → advance s s'.
Proof.
  intros Hq H E. unfold thread_step in H. apply bind_Some in H as ([fr c] & Hw & H). cbn [frames checkpoint_valid] in H.
  destruct fr as [|[gt p] rest]; [done|]. destruct p; try (destruct (_ && _); [done|]); try (destruct (is_locked _ _); [done|]).
  - destruct gt as [g|]; [|done]. injection H as <-. by eapply starting_advance.
  - injection H as <-. by eapply at_loop_advance.
  - apply bind_Some in H as (heap & Hh & H). apply bind_Some in H as (t & Ht & [= <-]). unfold top in Ht. apply bind_Some in Ht as (t' & Ht & H).
    destruct (forallb _ _); [|done]. injection H as ->. by eapply popping_advance.
  - injection H as <-. by eapply popped_advance.
  - injection H as <-. by eapply evaluate_advance.
  - injection H as <-. by eapply calling_advance.
  - injection H as <-. by eapply locking_advance.
  - injection H as <-. by eapply delivering_advance.
  - injection H as <-. by eapply failing_advance.
  - injection H as <-. by eapply finishing_advance.
  - injection H as <-. by eapply counting_advance.
  - injection H as <-. by eapply notifying_advance.
Qed.

Lemma wait_advance u g s s' : wait u g s = (Ok tt, s') → advance s s'.
Proof.
  intros E. unfold wait in E. apply SE_bind_Ok in E as (G & s1 & [HG ->]%deref_task_Ok & E). destruct (outstanding_tasks G =? 0)%Z.
  - apply SE_bind_Ok in E as (r & s1 & (G0 & HG0 & Hr & ->)%execute_return_Ok & E). run.
    eapply (advance_quiet _ _ [Executed g r]); try done. intros g' G'. cbn. rewrite lookup_delete. case_decide; [done|]. intros E. exists G'. split; [done|apply quiet_refl].
  - run. eapply (advance_quiet _ _ []); try done; cbn; [|by rewrite app_nil_r].
    intros g' G'. rewrite lookup_insert. case_decide as Hg; [subst g'|intros; exists G'; split; [done|apply quiet_refl]].
    intros [= <-]. eexists. split; [done|]. apply quiet_unlock.
Qed.
Lemma step_advance l s s' : ready_queues s ≠ [] → steps_to l s s' → advance s s'.
Proof.
  intros Hq (m & H & E). destruct l as [w pick number|u number roots ins keep create outputs|u|u|u]; cbn in H.
  - by eapply thread_step_advance.
  - destruct (callers s !! u); [done|]. injection H as <-. unfold call in E. apply SE_bind_Ok in E as (r & s1 & Hr%try_Ok & E). destruct r as [g|e].
    + apply execute_setup_Ok in Hr as [-> Hr]. run. by eapply (advance_setup _ _ number roots ins keep create outputs s1).
    + destruct Hr as [Hr He]. apply execute_setup_Throw in Hr as [Hr| ->]; [congruence| |done]. run.
      apply (advance_quiet _ _ []); try done; [|by rewrite app_nil_r]. intros g G HG. exists G. split; [done|apply quiet_refl].
  - destruct (callers s !! u) as [[g []]|]; try done. injection H as <-. by eapply wait_advance.
  - destruct (callers s !! u) as [[g []]|]; try done. destruct (is_locked s g); [done|]. injection H as <-. by eapply wait_advance.
  - destruct (callers s !! u) as [[g []]|]; try done. injection H as <-. run. eapply (advance_quiet _ _ []); try done; [|by rewrite app_nil_r].
    intros g' G HG. exists G. split; [done|apply quiet_refl].
Qed.
End advance.
