(* ===== verification/EngineInvariant.v ===== *)
(** * All graph tasks of all reachable states

    A graph task that is set up has the invariant, and every step of the engine keeps the
    invariants of all graph tasks.  A failure is not forgotten, and the exception that is
    kept for it is one that was handled. *)
From S2P Require Import Prelude CoreTypes AutogradEngine EngineGraph EngineSpec EngineTurns EngineProgress EngineSteps.
Local Open Scope nat_scope.
Local Open Scope list_scope.
#[local] Set Warnings "-clear-no-such-hyp".
Import Engine.

Section setup.
Context {T : Type} `{!Tensors T}.
Implicit Types (fs : gmap ptr (Function (T:=T))) (f n m h : ptr) (G : GraphTask (T:=T)) (p : Phase (T:=T)) (s : State (T:=T)).
Implicit Types (its : list (Phase (T:=T))) (t : FunctionTask (T:=T)) (lg evs : list (event (T:=T))) (ins : list (variable (T:=T))) (K : Pass (T:=T)).
Implicit Types (info : gmap (option ptr) ExecInfo) (outputs roots : list Edge).

(** ** Edges *)
Lemma validate_outputs_live fs edges ins grads : validate_outputs fs edges ins = Ok grads → ∀ n, n ∈ targets edges → is_Some (fs !! n).
Proof.
  unfold validate_outputs. intros [Hl%Nat.eqb_eq H]%AT_CHECK_bind_Ok. revert ins grads Hl H.
  induction edges as [|e edges IH]; intros [|v ins] grads Hl H n Hn; try (by apply elem_of_nil in Hn); [done|]. cbn in H.
  apply outcome_bind_Ok in H as (g & Hg & H). apply outcome_bind_Ok in H as (gs & Hgs & _). injection Hl as Hl.
  unfold targets in Hn. cbn in Hn. destruct (function e) as [m|] eqn:Hm; [|by eapply IH]. apply elem_of_cons in Hn as [->|Hn]; [|by eapply IH].
  unfold validate_grad in Hg. rewrite Hm in Hg. destruct (fs !! m); [done|by destruct v].
Qed.
Lemma linked_weaken fs fs' h n : fs ⊆ fs' → linked fs h n → linked fs' h n.
Proof.
  intros Hs (i & j & (F & e & HF & H)%target_Some). exists i, j. apply target_Some. exists F, e. split; [by eapply lookup_weaken|done].
Qed.
Lemma total_edges_mono fs fs' : fs ⊆ fs' → total_edges fs ≤ total_edges fs'.
Proof.
  intros Hs. unfold total_edges. apply submseteq_length, NoDup_submseteq; [apply NoDup_edges_from, NoDup_elements|].
  intros k (Hk & F & HF & Hi)%elem_of_edges_from. apply elem_of_edges_from. pose proof (lookup_weaken _ _ _ _ HF Hs) as HF'.
  split; [apply elem_of_elements, elem_of_dom; eauto|]. eauto.
Qed.
Lemma reached_indegree fs root R n : reached fs root R → n ∈ R → n ≠ root → indegree fs R n ≠ 0.
Proof.
  intros (Hnd & Hr & Hl) Hn Hne. apply Hr in Hn. apply rtc_inv_r in Hn as [?|(h & Hh & Hl')]; [congruence|]. apply (linked_in fs R h); [by apply Hr|done].
Qed.
Lemma indegree_linked fs R n : indegree fs R n ≠ 0 → ∃ h, h ∈ R ∧ linked fs h n.
Proof.
  unfold indegree. destruct (edges_into fs R n) as [|[h i] l] eqn:E; [done|]. intros _.
  assert ((h, i) ∈ edges_into fs R n) as [Hh [j Ht]]%elem_of_edges_into by (rewrite E; by left). exists h. split; [done|]. by exists i, j.
Qed.
Lemma unlinked_indegree fs R n : (∀ h, ¬ linked fs h n) → indegree fs R n = 0.
Proof. intros H. destruct (decide (indegree fs R n = 0)) as [|Hn]; [done|]. apply indegree_linked in Hn as (h & _ & Hh). by destruct (H h). Qed.

(** The functions with the root of a new graph task. *)
Section root.
Context fs (number : Z) roots ins grads (Hclosed : closed fs) (Hv : validate_outputs fs roots ins = Ok grads).
#[local] Abbreviation root := (fresh (dom fs)).
#[local] Abbreviation fs' := (<[root := GraphRoot number roots grads]> fs).
Lemma root_new : fs !! root = None.
Proof. apply not_elem_of_dom. apply is_fresh. Qed.
Lemma root_sub : fs ⊆ fs'.
Proof. apply insert_subseteq, root_new. Qed.
Lemma linked_root h n : linked fs' h n → linked fs h n ∨ h = root ∧ n ∈ targets roots.
Proof.
  destruct (decide (h = root)) as [->|Hne].
  - intros Hl. right. split; [done|]. apply (linked_targets _ _ (GraphRoot number roots grads)) in Hl; [done|apply lookup_insert_eq].
  - intros (i & j & (F & e & HF & H)%target_Some). left. exists i, j. apply target_Some. exists F, e. by rewrite lookup_insert_ne in HF.
Qed.
Lemma root_live h n : linked fs' h n → is_Some (fs !! n).
Proof. intros [Hl|[_ Hn]]%linked_root; [by eapply Hclosed|by eapply validate_outputs_live]. Qed.
Lemma root_closed : closed fs'.
Proof. intros h n Hl. apply root_live in Hl as [F HF]. exists F. by eapply lookup_weaken, root_sub. Qed.
Lemma root_unlinked h : ¬ linked fs' h root.
Proof. intros [F HF]%root_live. by rewrite root_new in HF. Qed.
End root.

(** ** Captures, on any graph *)
Lemma needed_loop_keeps fuel fs stack seen info r root :
  (∀ h, ¬ linked fs h root) → (∀ f next, (f, next) ∈ stack → f ≠ root ∧ root ∉ targets next) → needed_loop fuel fs stack seen info = Ok r →
  info_of r.2 (Some root) = info_of info (Some root) ∧ ∀ x, captures (info_of r.2 x) = captures (info_of info x).
Proof.
  intros Hroot. revert stack seen info. induction fuel as [|fuel IH]; intros stack seen info Hst H; destruct stack as [|[f next] stack]; cbn in H; try done; [by injection H as <-..|].
  destruct (Hst f next) as [Hf Hn]; [by left|].
  pose proof (get_next_fn_spec next) as Hg. destruct (get_next_fn next) as [[m next']|].
  - destruct Hg as (pre & e & -> & Hpre & He). rewrite targets_app, Hpre in Hn. unfold targets in Hn. cbn in Hn. rewrite He in Hn. fold (targets next') in Hn.
    apply not_elem_of_cons in Hn as [Hm Hn].
    assert (Hst' : ∀ f' nx, (f', nx) ∈ (f, next') :: stack → f' ≠ root ∧ root ∉ targets nx).
    { intros f' nx [[= -> ->]|Hin]%elem_of_cons; [done|]. apply Hst. by right. }
    case_decide; [by apply IH in H|]. destruct (fs !! m) as [N|] eqn:HN; [|done]. apply IH in H; [done|].
    intros f' nx [[= -> ->]|Hin]%elem_of_cons; [|by apply Hst']. split; [congruence|]. intros Hr. apply (Hroot m). by apply (linked_targets _ _ N).
  - destruct (fs !! f) as [F|]; [|done]. apply IH in H as [H1 H2]; [|intros f' nx Hin; apply Hst; by right].
    split; [rewrite H1, info_of_insert, decide_False by congruence; done|]. intros x. rewrite H2, info_of_insert. case_decide as Hx; [by subst x|done].
Qed.
Lemma needed_roots_keeps fs roots seen info r root :
  (∀ h, ¬ linked fs h root) → root ∉ targets roots → needed_roots fs roots seen info = Ok r →
  info_of r (Some root) = info_of info (Some root) ∧ ∀ x, captures (info_of r x) = captures (info_of info x).
Proof.
  intros Hroot. revert seen info. induction roots as [|e roots IH]; intros seen info Hr H; cbn [needed_roots] in H; [by injection H as <-|].
  unfold targets in Hr. cbn in Hr. destruct (function e) as [f|]; [|done]. fold (targets roots) in Hr. apply not_elem_of_cons in Hr as [Hf Hr].
  case_decide; [by apply IH in H|]. destruct (fs !! f) as [F|] eqn:HF; [|done]. apply outcome_bind_Ok in H as (x & Hx & H).
  apply IH in H as [H1 H2]; [|done]. apply (needed_loop_keeps _ _ _ _ _ _ root Hroot) in Hx as [H3 H4].
  2:{ intros f' nx Hin. apply list_elem_of_singleton in Hin. injection Hin as -> ->. split; [congruence|]. intros Ht. apply (Hroot f). by apply (linked_targets _ _ F). }
  rewrite H1, H3. split; [done|]. intros y. by rewrite H2, H4.
Qed.
Definition captures_are outputs info : Prop := ∀ x, captures (info_of info x) = more_captures None (captures_for outputs 0 x).
Lemma init_to_execute_keeps fs root roots outputs info :
  (∀ h, ¬ linked fs h root) → root ∉ targets roots → init_to_execute fs root roots outputs = Ok info →
  needed (info_of info (Some root)) = true ∧ captures_are outputs info.
Proof.
  intros Hroot Hr H. destruct (needed_roots_keeps _ _ _ _ _ root Hroot Hr H) as [H1 H2].
  assert (H0 : ∀ x, info_of {[Some root := mkInfo true None]} x = mkInfo (bool_decide (x = Some root)) None).
  { intros x. unfold info_of. destruct (decide (x = Some root)) as [->|Hne]; [by rewrite lookup_singleton_eq, bool_decide_eq_true_2|].
    by rewrite lookup_singleton_ne, bool_decide_eq_false_2. }
  split; [rewrite H1, add_captures_spec, H0; cbn; by rewrite bool_decide_eq_true_2|]. intros x. by rewrite H2, add_captures_spec, H0.
Qed.
Lemma captures_are_distinct outputs info n n' c c' :
  captures_are outputs info → c ∈ captures_at info n → c' ∈ captures_at info n' → c.2 = c'.2 → n = n' ∧ c = c'.
Proof.
  intros Hi. unfold captures_at. rewrite !Hi.
  assert (∀ x, default [] (more_captures None (captures_for outputs 0 x)) = captures_for outputs 0 x) as Hm by (intros x; by destruct (captures_for outputs 0 x)).
  rewrite !Hm. intros (i & e & He & Hn & ->)%elem_of_captures_for (i' & e' & He' & Hn' & ->)%elem_of_captures_for. cbn. intros E.
  assert (i = i') as <- by lia. assert (e = e') as <- by congruence. split; [congruence|done].
Qed.
End setup.

Section invariant.
Context {T : Type} `{!Tensors T}.
Implicit Types (fs : gmap ptr (Function (T:=T))) (f n m h : ptr) (G : GraphTask (T:=T)) (p : Phase (T:=T)) (s : State (T:=T)).
Implicit Types (its : list (Phase (T:=T))) (t : FunctionTask (T:=T)) (lg evs : list (event (T:=T))) (ins : list (variable (T:=T))) (K : Pass (T:=T)).
Implicit Types (info : gmap (option ptr) ExecInfo) (outputs roots : list Edge).

(** ** A new graph task *)

(** What the pass of a new graph task is. *)
Record pass_of (number : Z) roots ins outputs fs K : Prop := {
  of_grads : ∃ grads, validate_outputs fs roots ins = Ok grads ∧ pfs K = <[proot K := GraphRoot number roots grads]> fs;
  of_root : proot K = fresh (dom fs);
  of_info : (match outputs with [] => Ok ∅ | _ => init_to_execute (pfs K) (proot K) roots outputs end) = Ok (pinfo K);
  of_count : pcount K = length outputs;
  of_pass : pass_ok K
}.

Lemma new_pass number roots ins outputs fs grads deps info :
  closed fs → validate_outputs fs roots ins = Ok grads →
  let root := fresh (dom fs) in let fs' := <[root := GraphRoot number roots grads]> fs in
  (Z.of_nat (total_edges fs') < 2 ^ 31)%Z → compute_dependencies root fs' = Ok deps →
  (match outputs with [] => Ok ∅ | _ => init_to_execute fs' root roots outputs end) = Ok info →
  ∃ R, pass_of number roots ins outputs fs (mkPass fs' root R info (length outputs)) ∧ ∀ n, deps !! n = entry (indegree fs' R n).
Proof.
  intros Hc Hv root fs' Hb Hd Hi.
  assert (Hroot : ∀ h, ¬ linked fs' h root) by (intros h; by eapply root_unlinked).
  assert (Hrt : root ∉ targets roots).
  { intros Hn. apply (Hroot root), (linked_targets _ _ (GraphRoot number roots grads)); [apply lookup_insert_eq|done]. }
  pose proof (compute_dependencies_spec fs' root Hroot Hb) as H. rewrite Hd in H. destruct H as (R & HR & Hdeps). exists R. split; [|done].
  split; cbn; [by exists grads|done|done|done|].
  assert (Hinfo : runs info root = true ∧ (info ≠ ∅ → captures_are outputs info)).
  { destruct outputs as [|o outputs]; [injection Hi as <-; split; [done|by intros []]|]. apply init_to_execute_keeps in Hi as [H1 H2]; [|done..].
    split; [unfold runs; by rewrite H1, orb_true_r|by intros _]. }
  destruct Hinfo as [Hruns Hcap]. split; cbn; try done.
  - unfold new_buffer, fs'. by rewrite lookup_insert_eq.
  - intros n n' c c' Hn Hn' E. destruct (decide (info = ∅)) as [->|Hne]; [by apply elem_of_nil in Hn|]. eapply captures_are_distinct; eauto.
Qed.

Lemma new_task number roots ins outputs fs K (keep create : bool) deps g lg :
  pass_of number roots ins outputs fs K → (∀ n, deps !! n = entry (indegree (pfs K) (preach K) n)) → called_in g lg = [] → returned_in g lg = [] →
  task_inv g K (started_task keep create deps (pinfo K) outputs) [Popped (mkTask g (Some (proot K)) [])] lg.
Proof.
  intros Hof Hd Hcl Hrt. pose proof (of_pass _ _ _ _ _ _ Hof) as P. set (root := proot K). set (p := Popped (mkTask g (Some root) [])).
  assert (Hroot : root ∈ preach K) by (apply (p_reached _ P); constructor).
  assert (Hdeg : indegree (pfs K) (preach K) root = 0) by (apply unlinked_indegree, P).
  assert (Hpos : ∀ n, n ∈ preach K → n ≠ root → indegree (pfs K) (preach K) n ≠ 0) by (intros n; by eapply reached_indegree, P).
  assert (Hone : ∀ n, started K [] n → n = root).
  { intros n (Hn & _ & Hc). destruct (decide (n = root)) as [|Hne]; [done|]. by destruct (Hpos n Hn Hne). }
  split_and!; [| |done].
  - split; rewrite ?Hcl, ?Hrt; cbn; try done.
    + apply NoDup_singleton.
    + intros n [->%list_elem_of_singleton|?%elem_of_nil]; [|done]. split; [done|]. by rewrite Hd, Hdeg.
    + intros n Hn. rewrite Hd in Hn. unfold entry in Hn. case_decide as E; [by destruct Hn|]. apply indegree_linked in E as (h & Hh & Hl).
      by eapply reached_linked; [apply P|..].
    + constructor.
    + by intros n _ ?%elem_of_nil.
    + by intros n ?%elem_of_nil.
    + constructor.
    + by intros n _ ?%elem_of_nil.
    + intros n Hn. by left.
    + lia.
  - intros _. exists []. split; rewrite ?Hcl, ?Hrt; cbn; try done.
    + constructor.
    + by intros k v ?%elem_of_nil.
    + intros n. by rewrite Hd, Nat.sub_0_r.
    + intros n. rewrite andb_false_r. cbn. apply lookup_empty.
    + intros n ->%list_elem_of_singleton. split_and!; [done| |by rewrite Hdeg]. apply runs_executes, P.
    + intros q ->%list_elem_of_singleton n [= <-]. unfold buffer_of. cbn. f_equal. apply P.
    + intros n ->%Hone Hn. destruct Hn. by left.
    + intros i _. by rewrite (of_count _ _ _ _ _ _ Hof).
    + intros n ->%Hone Hn. destruct Hn. by left.
    + by intros n ?%elem_of_nil.
    + by intros n outs ?%elem_of_nil.
    + intros l1 n gm ins' l2 E. exfalso. rewrite E, called_in_app in Hcl. cbn in Hcl. rewrite decide_True in Hcl by done. by apply app_eq_nil in Hcl as [_ ?].
Qed.

(** ** Every step keeps the invariants *)

Lemma task_inv_log g K G its lg evs : pass_ok K →
  called_in g evs = [] → returned_in g evs = [] → task_inv g K G its lg → task_inv g K G its (lg ++ evs).
Proof.
  intros P Hc Hr (B & I & Hk). assert (E1 : called_in g (lg ++ evs) = called_in g lg) by (rewrite called_in_app, Hc; apply app_nil_r).
  assert (E2 : returned_in g (lg ++ evs) = returned_in g lg) by (rewrite returned_in_app, Hr; apply app_nil_r). split_and!; [| |done].
  - destruct B. split; rewrite ?E1, ?E2; done.
  - intros Hno. destruct (I Hno) as [arr J]. exists arr. split; rewrite ?E1, ?E2; try apply J.
    + intros p Hp. by apply phase_ok_more, J.
    + intros n Hs Hn. apply is_done_more. by apply (o_done _ _ _ _ _ _ J).
    + apply ordered_quiet; [apply J|done].
Qed.

Lemma items_of_perm g s its : items s ≡ₚ its → items_of g s ≡ₚ List.filter (λ p, bool_decide (item_base p = Some g)) its.
Proof. intros E. by apply bfilter_perm. Qed.
Lemma filter_keeps g its : (∀ p, p ∈ its → item_base p = Some g) → List.filter (λ p, bool_decide (item_base p = Some g)) its = its.
Proof.
  induction its as [|p its IH]; intros H; [done|]. cbn. rewrite bool_decide_eq_true_2 by (apply H; by left). f_equal. apply IH. intros q Hq. apply H. by right.
Qed.
Lemma filter_none g its : (∀ p, p ∈ its → item_base p ≠ Some g) → List.filter (λ p, bool_decide (item_base p = Some g)) its = [].
Proof.
  induction its as [|p its IH]; intros H; [done|]. cbn. rewrite bool_decide_eq_false_2 by (apply H; by left). apply IH. intros q Hq. apply H. by right.
Qed.

Lemma setup_inv Ks s s' number roots ins keep create outputs s0 :
  engine_inv Ks s → sets_up number roots ins keep create outputs s s0 →
  functions s' = functions s0 → next_task s' = next_task s0 → ready_queues s' = ready_queues s0 → items s' ≡ₚ items s0 →
  graph_tasks s' = graph_tasks s0 → log s' = log s0 → (Z.of_nat (total_edges (functions s')) < 2 ^ 31)%Z →
  ∃ Ks', engine_inv Ks' s' ∧ functions s ⊆ functions s' ∧ next_task s ≤ next_task s' ∧ (∀ g, g < next_task s → Ks' g = Ks g) ∧
    pass_of number roots ins outputs (functions s) (Ks' (next_task s)).
Proof.
  intros I Hs Ef En Eq Ei Eg El Hb. destruct Hs as (grads & deps & info & q & Hv & Hf & Hd & Hi & Hn & Hgt & Hq & Hrq & Hth & _ & Hlog).
  set (root := fresh (dom (functions s))) in *. set (g := next_task s) in *. rewrite Ef, Hf in Hb. rewrite Hf in Hd, Hi.
  destruct (new_pass number roots ins outputs _ grads deps info (e_closed _ _ I) Hv Hb Hd Hi) as (R & Hof & Hdeps).
  set (K := mkPass _ _ _ _ _) in Hof. set (Ks' := λ g', if decide (g' = g) then K else Ks g').
  assert (Hsub : functions s ⊆ functions s') by (rewrite Ef, Hf; apply root_sub).
  assert (Hits : items s' ≡ₚ Popped (mkTask g (Some root) []) :: items s) by (rewrite Ei; unfold items; rewrite Hrq, Hth; by apply items_push).
  exists Ks'. split; [|split_and!; [done|rewrite En, Hn; lia|intros g' Hg'; unfold Ks'; case_decide; [unfold g in *; lia|done]|unfold Ks'; by rewrite decide_True]].
  split; rewrite ?En, ?Hn.
  - rewrite Ef, Hf. by apply (root_closed _ number roots ins grads (e_closed _ _ I)).
  - rewrite Eq, Hrq. intros E. apply (f_equal length) in E. rewrite length_alter in E. cbn in E. lia.
  - intros p g' Hp Hp'. rewrite Hits in Hp. apply elem_of_cons in Hp as [->|Hp]; [injection Hp' as <-; unfold g; lia|].
    pose proof (e_items _ _ I p g' Hp Hp'). unfold g in *. lia.
  - intros g' [G' HG']. rewrite Eg, Hgt, lookup_insert in HG'. case_decide; [subst g'; unfold g; lia|]. pose proof (e_tasks _ _ I g' (mk_is_Some _ _ HG')). unfold g in *. lia.
  - intros g' Hg'. rewrite El, Hlog. apply (e_log _ _ I). unfold g in *. lia.
  - intros g' G' HG'. rewrite Eg, Hgt, lookup_insert in HG'. rewrite El, Hlog. pose proof (items_of_perm g' s' _ Hits) as Hp. cbn [List.filter] in Hp.
    unfold Ks'. case_decide as Hg'; [|rewrite decide_False by congruence].
    + injection HG' as <-. subst g'. rewrite decide_True by done. split_and!; [apply Hof|by rewrite Ef, Hf|].
      eapply task_inv_perm; [symmetry; exact Hp|]. rewrite bool_decide_eq_true_2 by done. rewrite filter_none.
      * apply (new_task number roots ins outputs (functions s) K); [done..| |]; by apply (e_log _ _ I).
      * intros p Hp1 Hp2. pose proof (e_items _ _ I p g Hp1 Hp2). unfold g in *. lia.
    + destruct (e_inv _ _ I g' G' HG') as (P & Hs & J). split_and!; [done|by transitivity (functions s)|].
      eapply task_inv_perm; [symmetry; exact Hp|]. rewrite bool_decide_eq_false_2; [done|]. cbn. congruence.
Qed.

Lemma advance_inv Ks s s' :
  engine_inv Ks s → advance s s' → (Z.of_nat (total_edges (functions s')) < 2 ^ 31)%Z →
  ∃ Ks', engine_inv Ks' s' ∧ functions s ⊆ functions s' ∧ next_task s ≤ next_task s' ∧ ∀ g, g < next_task s → Ks' g = Ks g.
Proof.
  intros I H Hb. destruct H as [pre Ef En Eq Ei Eg El Hpre|g p ps rest pre evs Ef En Eq Ei Ei' Hp _ Hps Eg El Hpre Hev|number roots ins keep create outputs s0 Hs Ef En Eq Ei Eg El].
  - exists Ks. split; [|by rewrite Ef, En]. split; rewrite ?Ef, ?En; try apply I.
    + intros E. apply (e_queues _ _ I). apply nil_length_inv. by rewrite <- Eq, E.
    + intros p g Hp. rewrite Ei in Hp. by apply (e_items _ _ I).
    + intros g [G' HG']. destruct (Eg _ _ HG') as (G & HG & _). apply (e_tasks _ _ I). eauto.
    + intros g Hg. destruct (e_log _ _ I g Hg) as [H1 H2], (Hpre g) as [H3 H4]. by rewrite El, called_in_app, returned_in_app, H1, H2, H3, H4.
    + intros g G' HG'. destruct (Eg _ _ HG') as (G & HG & Hq). destruct (e_inv _ _ I g G HG) as (P & Hsub & J). split_and!; [done..|].
      rewrite El. apply task_inv_log; [done|apply Hpre..|]. eapply task_inv_quiet; [exact Hq|]. eapply task_inv_perm; [|exact J]. symmetry. by apply items_of_perm.
  - assert (Hg : g < next_task s) by (apply (e_items _ _ I p); [rewrite Ei; by left|done]).
    exists Ks. split; [|by rewrite Ef, En]. split; rewrite ?Ef, ?En; try apply I.
    + intros E. apply (e_queues _ _ I). apply nil_length_inv. by rewrite <- Eq, E.
    + intros q g' Hq Hq'. rewrite Ei' in Hq. apply elem_of_app in Hq as [Hq|Hq]; [rewrite (Hps q Hq) in Hq'; congruence|].
      apply (e_items _ _ I q); [rewrite Ei; by right|done].
    + intros g' [G' HG']. destruct (Eg _ _ HG') as (G & HG & _). apply (e_tasks _ _ I). eauto.
    + intros g' Hg'. destruct (e_log _ _ I g' Hg') as [H1 H2], (Hpre g') as [H3 H4], (Hev g') as [H5 H6]; [lia|].
      by rewrite El, !called_in_app, !returned_in_app, H1, H2, H3, H4, H5, H6.
    + intros g' G' HG'. destruct (Eg _ _ HG') as (G & HG & Ht). destruct (e_inv _ _ I g' G HG) as (P & Hsub & J). split_and!; [done..|].
      rewrite El, app_assoc. apply (task_inv_log g' (Ks g') G (items_of g' s) (log s) pre P) in J; [|apply Hpre..].
      pose proof (items_of_perm g' s _ Ei) as Hp1. pose proof (items_of_perm g' s' _ Ei') as Hp2. rewrite List.filter_app in Hp2. cbn [List.filter] in Hp1.
      eapply task_inv_perm; [symmetry; exact Hp2|]. eapply task_inv_perm in J; [|exact Hp1]. case_decide as Hg'.
      * subst g'. rewrite (filter_keeps g ps Hps). rewrite bool_decide_eq_true_2 in J by done. by eapply (turn_inv g (Ks g) P).
      * rewrite filter_none by (intros q Hq; rewrite (Hps q Hq); congruence). rewrite bool_decide_eq_false_2 in J by congruence.
        apply task_inv_log; [done|by apply Hev..|]. by eapply task_inv_quiet.
  - destruct (setup_inv Ks s s' number roots ins keep create outputs s0) as (Ks' & I' & H1 & H2 & H3 & _); [done..|]. by exists Ks'.
Qed.

Lemma start_inv fs d Ks : closed fs → engine_inv Ks (start_threads fs d).
Proof.
  intros Hc. assert (Hi : items (start_threads fs d) = []).
  { unfold items, items_in, start_threads. cbn. assert (∀ k, concat (replicate k []) = @nil (FunctionTask (T:=T))) as -> by (induction k; done).
    cbn. induction d; done. }
  split; try done.
  - intros p g Hp. rewrite Hi in Hp. by apply elem_of_nil in Hp.
  - intros g [G HG]. done.
Qed.

Lemma advance_functions s s' : advance s s' → functions s ⊆ functions s'.
Proof.
  intros [pre Ef|g p ps rest pre evs Ef|number roots ins keep create outputs s0 (grads & deps & info & q & _ & Hf & _) Ef]; rewrite Ef; try done.
  rewrite Hf. apply root_sub.
Qed.

Lemma advance_queues s s' : advance s s' → ready_queues s ≠ [] → ready_queues s' ≠ [].
Proof.
  intros Ha Hq E. apply Hq, nil_length_inv.
  destruct Ha as [pre _ _ Eq|g p ps rest pre evs _ _ Eq|number roots ins keep create outputs s0 (grads & deps & info & q & _ & _ & _ & _ & _ & _ & _ & Hrq & _) _ _ Eq].
  1,2: by rewrite <- Eq, E. rewrite E, Hrq in Eq. apply (f_equal length) in Eq. by rewrite length_alter in Eq.
Qed.

(** The states after [s]. *)
Inductive later s : State → Prop :=
  | later_here : later s s
  | later_step l s1 s2 : later s s1 → steps_to l s1 s2 → later s s2.

Lemma reachable_queues fs d s : reachable fs d s → ready_queues s ≠ [].
Proof. induction 1 as [|l s1 s2 _ IH Hs]; [done|]. eapply advance_queues; [by eapply step_advance|done]. Qed.
Lemma later_reachable fs d s s' : reachable fs d s → later s s' → reachable fs d s'.
Proof. intros Hr. induction 1; [done|]. by eapply reachable_step. Qed.
Lemma later_functions fs d s s' : reachable fs d s → later s s' → functions s ⊆ functions s' .
Proof.
  intros Hr. induction 1 as [|l s1 s2 H IH Hs]; [done|]. transitivity (functions s1); [done|].
  eapply advance_functions, step_advance; [|done]. by eapply reachable_queues, later_reachable.
Qed.
Lemma bound_before fs fs' : fs ⊆ fs' → (Z.of_nat (total_edges fs') < 2 ^ 31)%Z → (Z.of_nat (total_edges fs) < 2 ^ 31)%Z.
Proof. intros H%total_edges_mono. lia. Qed.

(** The passes of the graph tasks stay what they were. *)
Lemma later_inv fs d Ks s s' : reachable fs d s → engine_inv Ks s → later s s' → (Z.of_nat (total_edges (functions s')) < 2 ^ 31)%Z →
  ∃ Ks', engine_inv Ks' s' ∧ next_task s ≤ next_task s' ∧ ∀ g, g < next_task s → Ks' g = Ks g.
Proof.
  intros Hr I. induction 1 as [|l s1 s2 H IH Hs]; intros Hb; [by exists Ks|].
  pose proof (step_advance l s1 s2 (reachable_queues _ _ _ (later_reachable _ _ _ _ Hr H)) Hs) as Ha.
  destruct IH as (Ks1 & I1 & Hn1 & HK1); [eapply bound_before; [by apply advance_functions|done]|].
  destruct (advance_inv Ks1 s1 s2 I1 Ha Hb) as (Ks2 & I2 & _ & Hn2 & HK2). exists Ks2. split_and!; [done|lia|].
  intros g Hg. rewrite HK2 by lia. by apply HK1.
Qed.
Lemma reachable_engine_inv fs d s : closed fs → reachable fs d s → (Z.of_nat (total_edges (functions s)) < 2 ^ 31)%Z → ∃ Ks, engine_inv Ks s.
Proof.
  intros Hc Hr Hb. set (K0 := mkPass fs 0 [] ∅ 0 : Pass (T:=T)).
  assert (later (start_threads fs d) s) as Hl by (clear Hb; induction Hr as [|l s1 s2 Hr IH Hs]; [constructor|by eapply later_step]).
  destruct (later_inv fs d (λ _, K0) (start_threads fs d) s) as (Ks & I & _); [constructor|by apply start_inv|done..|]. by exists Ks.
Qed.

(** ** Failures are recorded *)

(** The function of this item has thrown an exception. *)
Definition raises p : bool := match p with Failing _ _ | Calling _ _ _ (Raise _) => true | _ => false end.
(** A failure for the graph task is on its way to [thread_on_exception], or has been recorded. *)
Definition failure_kept (g : nat) s : Prop :=
  (∃ p, p ∈ items s ∧ raises p = true ∧ item_base p = Some g) ∨ ∀ G, graph_tasks s !! g = Some G → has_error G = true.

Lemma turn_has_error fs G p G' ps evs : turn fs G p G' ps evs → has_error G = true → has_error G' = true.
Proof.
  intros H He. destruct H; try done; [|by rewrite He].
  match goal with H : delivered _ _ _ _ _ _ _ _ |- _ => by destruct H end.
Qed.
(** An item that raises goes on raising until its failure is recorded. *)
Lemma turn_raises fs G p G' ps evs : turn fs G p G' ps evs → raises p = true → has_error G' = true ∨ ∃ q, q ∈ ps ∧ raises q = true.
Proof.
  intros H Hr. destruct H; try done.
  - right. eexists. split; [by left|done].
  - left. by destruct (has_error G) eqn:E.
Qed.
Lemma advance_failure s s' g : g < next_task s → advance s s' → failure_kept g s → failure_kept g s'.
Proof.
  intros Hlt H Hf.
  destruct H as [pre Ef En Eq Ei Eg|g1 p ps rest pre evs Ef En Eq Ei Ei' Hp _ Hps Eg|number roots ins keep create outputs s0 (grads & deps & info & q & _ & _ & _ & _ & _ & Hgt & Hql & Hrq & Hth & _) _ _ Eq Ei Eg].
  - destruct Hf as [(p & Hp & Hr & Hb)|He]; [left; exists p; split; [by rewrite Ei|done]|right].
    intros G' HG'. destruct (Eg g G' HG') as (G & HG & (o & b & ->)). by apply (He G).
  - destruct Hf as [(q & Hq & Hr & Hb)|He].
    + rewrite Ei in Hq. apply elem_of_cons in Hq as [->|Hq]; [|left; exists q; split; [rewrite Ei'; apply elem_of_app; by right|done]].
      assert (g1 = g) as -> by congruence. destruct (graph_tasks s' !! g) as [G'|] eqn:HG'; [|right; congruence].
      destruct (Eg g G' HG') as (G & HG & Ht). rewrite decide_True in Ht by done. destruct (turn_raises _ _ _ _ _ _ Ht Hr) as [He|(q & Hq & Hr')].
      * right. congruence.
      * left. exists q. split; [rewrite Ei'; apply elem_of_app; by left|]. split; [done|by apply Hps].
    + right. intros G' HG'. destruct (Eg g G' HG') as (G & HG & Ht). specialize (He G HG). case_decide; [by eapply turn_has_error|]. by destruct Ht as (o & b & ->).
  - destruct Hf as [(p & Hp & Hr & Hb)|He].
    + left. exists p. split; [|done]. rewrite Ei. unfold items. rewrite Hrq, Hth. rewrite items_push by done. apply elem_of_cons. by right.
    + right. intros G'. rewrite Eg, Hgt, lookup_insert. case_decide; [lia|]. apply He.
Qed.
Lemma later_failure fs d s s' g : closed fs → reachable fs d s → later s s' → (Z.of_nat (total_edges (functions s')) < 2 ^ 31)%Z → g < next_task s →
  failure_kept g s → failure_kept g s'.
Proof.
  intros Hc Hr Hl Hb Hlt Hf. induction Hl as [|l s1 s2 H IH Hs]; [done|]. pose proof (later_reachable _ _ _ _ Hr H) as Hr1.
  pose proof (step_advance l s1 s2 (reachable_queues _ _ _ Hr1) Hs) as Ha.
  assert (Hb1 : (Z.of_nat (total_edges (functions s1)) < 2 ^ 31)%Z) by (eapply bound_before; [by apply advance_functions|done]).
  assert (Hb0 : (Z.of_nat (total_edges (functions s)) < 2 ^ 31)%Z) by (eapply bound_before; [by eapply later_functions|done]).
  destruct (reachable_engine_inv fs d s Hc Hr Hb0) as [Ks I]. destruct (later_inv fs d Ks s s1 Hr I H Hb1) as (Ks' & _ & Hn & _).
  apply (advance_failure s1 s2); [lia|exact Ha|by apply IH].
Qed.

(** Where the exception of a graph task comes from. *)
Definition thrown_in fs d (g : nat) (e : exn) s : Prop := ∃ s1 t, reachable fs d s1 ∧ later s1 s ∧ Failing t e ∈ items s1 ∧ base t = g.
Lemma turn_exception fs G p G' ps evs e : turn fs G p G' ps evs → exception G' = Some e → exception G = Some e ∨ ∃ t, p = Failing t e.
Proof.
  intros H He. destruct H; try (by left).
  - match goal with H : delivered _ _ _ _ _ _ _ _ |- _ => left; by destruct H end.
  - destruct (has_error G); [by left|]. cbn in He. injection He as ->. right. by eexists.
Qed.
Lemma reachable_exception fs d s g G e : reachable fs d s → graph_tasks s !! g = Some G → exception G = Some e → thrown_in fs d g e s.
Proof.
  intros Hr. revert g G. induction Hr as [|l s s' Hr IH Hs]; intros g G' HG' He; [done|].
  assert (Hold : ∀ G, graph_tasks s !! g = Some G → exception G = Some e → thrown_in fs d g e s').
  { intros G HG HeG. destruct (IH g G HG HeG) as (s1 & t & Hr1 & Hl & Hin & Hb). exists s1, t. split_and!; [done|by eapply later_step|done..]. }
  destruct (step_advance l s s' (reachable_queues _ _ _ Hr) Hs)
    as [pre Ef En Eq Ei Eg|g1 p ps rest pre evs Ef En Eq Ei Ei' Hp _ Hps Eg|number roots ins keep create outputs s0 (grads & deps & info & q & _ & _ & _ & _ & _ & Hgt & _) _ _ Eq Ei Eg].
  - destruct (Eg g G' HG') as (G & HG & (o & b & ->)). by apply (Hold G).
  - destruct (Eg g G' HG') as (G & HG & Ht). case_decide as Hg; [subst g1|destruct Ht as (o & b & ->); by apply (Hold G)].
    destruct (turn_exception _ _ _ _ _ _ _ Ht He) as [HeG|[t ->]]; [by apply (Hold G)|]. exists s, t.
    split_and!; [done|eapply later_step; [constructor|done]|rewrite Ei; by left|by injection Hp].
  - rewrite Eg, Hgt, lookup_insert in HG'. case_decide; [by injection HG' as <-|by apply (Hold G')].
Qed.
End invariant.
