(* ===== verification/EngineResults.v ===== *)
(** * What a finished pass has computed, in any schedule

    When a graph task is over and no function failed, every function that had to run has
    run once, on the sums of what came over its edges.

    When addition commutes and associates, and functions do not run passes themselves,
    what the functions of a pass get and give does not depend on the order in which
    gradients come. *)
From S2P Require Import Prelude CoreTypes AutogradEngine EngineGraph EngineSpec EngineTurns EngineProgress EngineSteps EngineInvariant.
Local Open Scope nat_scope.
Local Open Scope list_scope.
#[local] Set Warnings "-clear-no-such-hyp".
Import Engine.

Section results.
Context {T : Type} `{!Tensors T}.
Implicit Types (fs : gmap ptr (Function (T:=T))) (f n m h : ptr) (G : GraphTask (T:=T)) (p : Phase (T:=T)) (s : State (T:=T)).
Implicit Types (its : list (Phase (T:=T))) (t : FunctionTask (T:=T)) (lg evs : list (event (T:=T))) (ins outs : list (variable (T:=T))) (K : Pass (T:=T)).
Implicit Types (info : gmap (option ptr) ExecInfo) (outputs roots : list Edge).

(** ** The specification *)

(** Autograd graphs have no cycles, and hooks do not change the number of gradients. *)
Definition acyclic fs : Prop := ∃ rank : ptr → nat, ∀ h n, linked fs h n → rank n < rank h.
Definition hooks_keep_length fs : Prop :=
  ∀ f F hook outs ins outs', fs !! f = Some F → hook ∈ post_hooks F → hook outs ins = Ok outs' → length outs' = length outs.

(** What an edge carries, and where to. *)
Definition edge_value fs (result : ptr → list (variable (T:=T))) (k : ptr * nat) : option (nat * variable (T:=T)) :=
  t ← target fs k; v ← result k.1 !! k.2; Some (t.2, v).
(** The input buffer [b] of [n] is the sum of what its edges carry, in some order. *)
Definition sums_up fs R (result : ptr → list (variable (T:=T))) n (b : InputBuffer (T:=T)) : Prop :=
  (∀ k, k ∈ edges_into fs R n → is_Some (edge_value fs result k)) ∧
  ∃ ks, ks ≡ₚ edges_into fs R n ∧ add_all (omap (edge_value fs result) ks) (Ok (new_buffer fs n)) = Ok b.

(** What the functions of a pass get and give. *)
Record gradients K (vars : list (variable (T:=T))) (arg : ptr → InputBuffer (T:=T)) (result : ptr → list (variable (T:=T))) : Prop := {
  gr_inputs n : n ∈ preach K → executes (pinfo K) n = true → sums_up (pfs K) (preach K) result n (arg n);
  gr_outputs n : n ∈ preach K → runs (pinfo K) n = true → ∃ ins, evaluates (pfs K) n (arg n) ins (result n);
  gr_captured n c : n ∈ preach K → c ∈ captures_at (pinfo K) n → is_Some (arg n !! c.1) ∧ vars !! c.2 = arg n !! c.1;
  gr_uncaptured i : (∀ n c, n ∈ preach K → c ∈ captures_at (pinfo K) n → c.2 ≠ i) → vars !! i = replicate (pcount K) None !! i
}.

(** ** A pass that is over *)
Lemma rank_induction fs (rank : ptr → nat) (R : list ptr) (Q : ptr → Prop) :
  (∀ h n, linked fs h n → rank n < rank h) → (∀ n, n ∈ R → (∀ h, h ∈ R → linked fs h n → Q h) → Q n) → ∀ n, n ∈ R → Q n.
Proof.
  intros Hrank Hstep. set (top := max_list (rank <$> R)).
  assert (Htop : ∀ h, h ∈ R → rank h ≤ top) by (intros h Hh; apply max_list_elem_of_le, list_elem_of_fmap; eauto).
  assert (∀ k n, n ∈ R → top < rank n + k → Q n) as H; [|intros n Hn; apply (H (S top)); [done|lia]].
  induction k as [|k IH]; intros n Hn Hk; [specialize (Htop n Hn); lia|]. apply Hstep; [done|]. intros h Hh Hl. specialize (Hrank _ _ Hl). apply IH; [done|lia].
Qed.

Lemma validate_grads_length fs edges ins grads : length ins = length edges → validate_grads fs edges ins = Ok grads → length grads = length edges.
Proof.
  revert ins grads. induction edges as [|e edges IH]; intros [|v ins] grads Hl H; try done; cbn in H; [by injection H as <-|].
  apply outcome_bind_Ok in H as (g & _ & H). apply outcome_bind_Ok in H as (gs & Hgs & [= <-]). cbn. f_equal. apply (IH ins); [|done]. by injection Hl.
Qed.
Lemma validate_outputs_length fs edges ins grads : validate_outputs fs edges ins = Ok grads → length grads = length edges.
Proof. unfold validate_outputs. intros [Hl%Nat.eqb_eq H]%AT_CHECK_bind_Ok. by eapply validate_grads_length. Qed.
Lemma post_hooks_length (F : Function (T:=T)) outs ins outs' :
  (∀ hook o i o', hook ∈ post_hooks F → hook o i = Ok o' → length o' = length o) → call_post_hooks F outs ins = Ok outs' → length outs' = length outs.
Proof.
  unfold call_post_hooks. generalize (post_hooks F) as hooks. intros hooks. revert outs. induction hooks as [|hook hooks IH]; intros outs Hh H; [by injection H as <-|].
  cbn in H. destruct (hook outs ins) as [o|e] eqn:E; cbn in H.
  - apply IH in H; [|intros hk ? ? ? Hk; apply Hh; by right]. rewrite H. eapply Hh; [by left|done].
  - exfalso. clear IH Hh. induction hooks as [|hk hooks IH]; [done|]. by apply IH.
Qed.
Lemma evaluates_length fs n (F : Function) b ins outs : hooks_keep_length fs → fs !! n = Some F → evaluates fs n b ins outs → length outs = length (next_edges F).
Proof.
  intros Hh HF (F' & raw & valid & HF' & _ & _ & Hv & Ho). assert (F' = F) as -> by congruence.
  erewrite (post_hooks_length F valid ins outs); [by eapply validate_outputs_length| |done]. intros hook o i o'. by eapply Hh.
Qed.

(** The functions with an edge to one that has to be executed run themselves. *)
Definition demand_closed K : Prop := ∀ h n, h ∈ preach K → linked (pfs K) h n → executes (pinfo K) n = true → runs (pinfo K) h = true.

Lemma pass_demand number roots ins outputs fs K :
  pass_of number roots ins outputs fs K → closed fs → acyclic (pfs K) → (∀ e, e ∈ outputs → is_Some (function e)) → demand_closed K.
Proof.
  intros Hof Hc [rank Hrank] Ho h n Hh Hl He. pose proof (of_pass _ _ _ _ _ _ Hof) as P. destruct (of_grads _ _ _ _ _ _ Hof) as (grads & Hv & Hfs).
  pose proof (of_root _ _ _ _ _ _ Hof) as Hroot. pose proof (of_info _ _ _ _ _ _ Hof) as Hi.
  destruct outputs as [|o outputs]; [injection Hi as <-; done|].
  assert (Hlive : ∀ h n, linked (pfs K) h n → is_Some (pfs K !! n)).
  { intros h' n' Hl'. rewrite Hfs, Hroot in *. by apply (root_closed fs number roots ins grads Hc Hv) in Hl'. }
  assert (Hedges : ∀ e, e ∈ roots → function e = None ∨ ∃ f, function e = Some f ∧ f ≠ proot K ∧ is_Some (pfs K !! f)).
  { intros e Hin. destruct (function e) as [f|] eqn:Hf; [right|by left]. exists f. split; [done|].
    assert (linked (pfs K) (proot K) f) as Hlf.
    { apply (linked_targets _ _ (GraphRoot number roots grads)); [rewrite Hfs; apply lookup_insert_eq|]. apply list_elem_of_omap. eauto. }
    split; [intros ->; by eapply p_root|by eapply Hlive]. }
  assert (Hnull : ∀ e, e ∈ roots → is_Some (function e)).
  { clear -Hi. unfold init_to_execute in Hi. revert Hi. generalize (∅ : gset ptr), (add_captures (o :: outputs) 0 {[Some (proot K) := mkInfo true None]}).
    induction roots as [|r roots IH]; intros seen info Hi e He; [by apply elem_of_nil in He|]. cbn [needed_roots] in Hi.
    destruct (function r) as [f|] eqn:Hf; [|done]. apply elem_of_cons in He as [->|He]; [by rewrite Hf|].
    case_decide; [by eapply IH|]. destruct (pfs K !! f); [|done]. apply outcome_bind_Ok in Hi as (x & _ & Hi). by eapply IH. }
  destruct (init_to_execute_Ok (pfs K) (proot K) (o :: outputs) rank Hrank Hlive Ho (p_root _ P) roots) as (info & Hi' & Hneed & Hcap & Hr).
  { intros e Hin. destruct (Hedges e Hin) as [Hn|?]; [|done]. destruct (Hnull e Hin). congruence. }
  assert (info = pinfo K) as -> by congruence. unfold runs. apply orb_true_iff. right.
  destruct (decide (h = proot K)) as [->|Hne]; [done|].
  assert (Hreach : ∃ r, r ∈ targets roots ∧ rtc (linked (pfs K)) r h).
  { apply (p_reached _ P), rtc_inv in Hh as [Hh|(r & Hlr & Hp)]; [congruence|]. exists r. split; [|done].
    apply (linked_targets _ _ (GraphRoot number roots grads)) in Hlr; [done|]. rewrite Hfs. apply lookup_insert_eq. }
  destruct Hreach as (r & Hr' & Hp). apply (Hneed h r Hr' Hp), needs_step. exists n. split; [done|].
  unfold executes, should_execute in He. apply orb_true_iff in He as [He|He].
  { apply bool_decide_eq_true in He. exfalso. rewrite He in Hr. done. }
  apply orb_true_iff in He as [He|He].
  - right. apply (Hneed n r Hr'); [by eapply rtc_r|done].
  - left. rewrite Hcap in He. by apply more_captures_wanted.
Qed.

Section finished.
Context (g : nat) K (arr : list ((ptr * nat) * variable (T:=T))) G its lg (P : pass_ok K) (Hdem : demand_closed K) (Hac : acyclic (pfs K)) (Hhooks : hooks_keep_length (pfs K)).
Context (B : task_base g K G its lg) (I : task_ok g K arr G its lg) (Hz : outstanding_tasks G = 0%Z).
#[local] Abbreviation fs := (pfs K).
#[local] Abbreviation R := (preach K).

Lemma nothing_counted : omap counted_fn its = [].
Proof. apply counted_none. pose proof (b_outstanding _ _ _ _ _ B). lia. Qed.
Lemma none_active (q : Phase → option ptr) n : (∀ p m, q p = Some m → counted_fn p = Some m) → n ∉ omap q its.
Proof. intros Hq Hn. apply (omap_incl _ counted_fn _ _ Hq) in Hn. rewrite nothing_counted in Hn. by apply elem_of_nil in Hn. Qed.

Definition result n : list (variable (T:=T)) := default [] ((list_to_map (returned_in g lg) : gmap ptr _) !! n).
Definition arg n : InputBuffer (T:=T) := match buffer_of fs arr n with Ok b => b | Throw _ => [] end.
Lemma result_returned n outs : (n, outs) ∈ returned_in g lg → result n = outs.
Proof.
  intros Ho. unfold result. by rewrite (proj1 (elem_of_list_to_map (M:=gmap ptr) _ n outs (b_returned_once _ _ _ _ _ B)) Ho).
Qed.

Lemma from_edges : ∀ k v, (k, v) ∈ arr → k.1 ∈ R ∧ is_Some (target fs k).
Proof. intros k v Hk. by destruct (o_from _ _ _ _ _ _ I _ _ Hk) as (? & ? & _). Qed.
Lemma run_arrived h i n j : h ∈ R → target fs (h, i) = Some (n, j) → runs (pinfo K) h = true → started K arr h → (h, i) ∈ arr.*1.
Proof.
  intros Hh Ht Hr Hs. destruct (o_done _ _ _ _ _ _ I h Hs) as (outs & Ho & Hall); [by apply none_active, active_counted|done|].
  apply Hall; [|by rewrite Ht; eauto]. destruct (o_returned _ _ _ _ _ _ I _ _ Ho) as (b & ins & _ & _ & Hev).
  apply target_Some in Ht as (F & e & HF & He & _). erewrite (evaluates_length fs h F); [by eapply lookup_lt_Some|done..].
Qed.
Lemma finished_started n : n ∈ R → executes (pinfo K) n = true → started K arr n.
Proof.
  destruct Hac as [rank Hrank]. revert n. apply (rank_induction fs rank R (λ n, executes (pinfo K) n = true → started K arr n) Hrank).
  intros n Hn IH He. split_and!; [done..|]. apply Nat.le_antisymm; [eapply arrivals_le; [apply I|apply from_edges]|].
  rewrite arrivals_length. apply submseteq_length, NoDup_submseteq; [apply NoDup_edges_into, (p_reached _ P)|].
  intros [h i] [Hh [j Ht]]%elem_of_edges_into. cbn in Hh. apply list_elem_of_In, filter_In. rewrite <- list_elem_of_In.
  assert (Hl : linked fs h n) by (by exists i, j). assert (Hr : runs (pinfo K) h = true) by (by eapply Hdem).
  split; [eapply run_arrived; try done; apply (IH h Hh Hl), runs_executes, Hr|]. unfold goes_to. rewrite Ht. by apply bool_decide_eq_true.
Qed.
Lemma finished_not_ready : not_ready G = ∅.
Proof.
  apply map_eq. intros n. rewrite lookup_empty. pose proof (o_not_ready _ _ _ _ _ _ I n) as H.
  destruct (_ && _ && _) eqn:E; [exfalso|done]. apply andb_true_iff in E as [[He Hc%Nat.ltb_lt]%andb_true_iff Hd%Nat.ltb_lt].
  assert (Hn : n ∈ R).
  { destruct (indegree_linked fs R n) as (h & Hh & Hl); [lia|]. by eapply reached_linked; [apply P|..]. }
  destruct (finished_started n Hn He) as (_ & _ & Hc'). lia.
Qed.
Lemma arg_buffer n : started K arr n → buffer_of fs arr n = Ok (arg n) ∧ kept_captures K n (arg n) (captured_vars G).
Proof.
  intros Hs. destruct (o_captured _ _ _ _ _ _ I n Hs) as (b & Hb & Hk); [by apply none_active, uncalled_counted|]. unfold arg. by rewrite Hb.
Qed.
Lemma arrival_value k v : (k, v) ∈ arr → edge_value fs result k = t ← target fs k; Some (t.2, v).
Proof.
  intros Hk. destruct (o_from _ _ _ _ _ _ I _ _ Hk) as (_ & _ & outs & Ho & Hv). unfold edge_value. rewrite (result_returned _ _ Ho), Hv. by destruct (target fs k).
Qed.
Lemma arrivals_values n : arrivals fs arr n = omap (edge_value fs result) (List.filter (goes_to fs n) arr.*1).
Proof.
  assert (Hv := arrival_value). clear -Hv. induction arr as [|[k v] l IH]; [done|]. unfold arrivals in *. cbn [omap list_omap fmap list_fmap List.filter fst].
  specialize (IH (λ k v H, Hv k v (list_elem_of_further _ _ _ H))). specialize (Hv k v (list_elem_of_here _ _)).
  unfold arrival at 1, goes_to at 1. cbn [fst snd]. destruct (target fs k) as [[m j]|]; [|done]. cbn [fst]. destruct (decide (m = n)) as [->|Hne].
  - rewrite bool_decide_eq_true_2 by done. cbn [omap list_omap]. rewrite Hv. cbn. by f_equal.
  - by rewrite bool_decide_eq_false_2.
Qed.

Lemma finished_called n : n ∈ (called_in g lg).*1 ↔ n ∈ R ∧ runs (pinfo K) n = true.
Proof.
  split; [intros Hn; split; [by apply (b_used _ _ _ _ _ B); right|by apply (b_runs _ _ _ _ _ B)]|]. intros [Hn Hr].
  destruct (o_done _ _ _ _ _ _ I n) as (outs & Ho & _); [by apply finished_started, runs_executes|by apply none_active, active_counted|done|].
  apply (b_returned _ _ _ _ _ B), list_elem_of_fmap. by exists (n, outs).
Qed.
Lemma finished_gradients : gradients K (captured_vars G) arg result.
Proof.
  split.
  - intros n Hn He. pose proof (finished_started n Hn He) as Hs. destruct (arg_buffer n Hs) as [Hb _].
    assert (Hall : ∀ k, k ∈ edges_into fs R n → k ∈ arr.*1).
    { eapply arrivals_all; [apply I|apply from_edges|apply (p_reached _ P)|apply Hs]. }
    split.
    + intros k Hk. apply elem_of_edges_into in Hk as Ht. destruct Ht as [_ [j Ht]]. apply Hall, list_elem_of_fmap in Hk as ([k' v] & -> & Hk).
      cbn in *. rewrite (arrival_value _ _ Hk), Ht. cbn. eauto.
    + exists (List.filter (goes_to fs n) arr.*1). split; [|by rewrite <- arrivals_values].
      apply NoDup_Permutation; [apply NoDup_ListNoDup, List.NoDup_filter, NoDup_ListNoDup, I|apply NoDup_edges_into, (p_reached _ P)|].
      intros k. split; [intros Hk; by apply (keys_into fs R arr from_edges) in Hk as [? _]|]. intros Hk. pose proof (Hall k Hk) as Ha.
      apply elem_of_edges_into in Hk as [_ [j Ht]]. apply list_elem_of_In, filter_In. rewrite <- list_elem_of_In. split; [done|].
      unfold goes_to. rewrite Ht. by apply bool_decide_eq_true.
  - intros n Hn Hr. pose proof (finished_started n Hn (runs_executes _ _ Hr)) as Hs. destruct (arg_buffer n Hs) as [Hb _].
    destruct (o_done _ _ _ _ _ _ I n Hs) as (outs & Ho & _); [by apply none_active, active_counted|done|].
    destruct (o_returned _ _ _ _ _ _ I _ _ Ho) as (b & ins & Hb' & _ & Hev). exists ins. rewrite (result_returned _ _ Ho). congruence.
  - intros n c Hn Hc. destruct (decide (pinfo K = ∅)) as [E|Hne]; [unfold captures_at in Hc; rewrite E in Hc; by apply elem_of_nil in Hc|].
    assert (He : executes (pinfo K) n = true).
    { unfold executes, should_execute. unfold captures_at in Hc. destruct (captures (info_of (pinfo K) (Some n))); [|by apply elem_of_nil in Hc].
      rewrite (bool_decide_eq_true_2 (is_Some _)) by eauto. by rewrite !orb_true_r. }
    destruct (arg_buffer n (finished_started n Hn He)) as [_ Hk]. destruct (Hk Hne c Hc) as (v & Hv & Hcv). rewrite Hv, Hcv. eauto.
  - apply I.
Qed.
End finished.
End results.

(** ** The order of the steps does not matter *)

Section unique.
Context {T : Type} `{!Tensors T} (plus : T → T → T).
Implicit Types (fs : gmap ptr (Function (T:=T))) (f n m h : ptr) (ins outs : list (variable (T:=T))) (K : Pass (T:=T)) (b : InputBuffer (T:=T)).

(** Accumulation is an operation that commutes and associates. *)
Record additive : Prop := {
  plus_accumulates x y : accumulate x y = Ok (plus x y);
  plus_comm : Comm (=) plus;
  plus_assoc : Assoc (=) plus
}.
Context (Hplus : additive).
#[local] Existing Instances plus_comm plus_assoc.

Definition add_variable (old : variable (T:=T)) (v : variable (T:=T)) : variable :=
  match old, v with Some x, Some y => Some (plus x y) | None, v => v | old, None => old end.
Lemma buffer_add_spec i v b :
  buffer_add i v b = if decide (i < length b) then Ok (alter (λ old, add_variable old v) i b) else Throw (C10Error "assertion failed").
Proof.
  unfold buffer_add. unfold InputBuffer, variable in *. case_decide as Hi.
  - unfold AT_ASSERT. rewrite AT_CHECK_bind_true by (by apply Nat.ltb_lt). apply lookup_lt_is_Some in Hi as [old Ho]. rewrite Ho.
    assert (∀ w, <[i := w]> b = alter (λ _, w) i b) as Hins by (intros w; apply list_insert_alter).
    assert (∀ k : option T → option T, alter k i b = <[i := k old]> b) as Halt.
    { intros k. apply list_eq. intros j. rewrite list_lookup_alter, list_lookup_insert. pose proof (lookup_lt_Some _ _ _ Ho). case_decide as Hj; [subst j|].
      - rewrite Ho, decide_True by done. done.
      - rewrite decide_False by (by intros [? _]). done. }
    rewrite Halt. destruct v as [v|].
    + destruct old as [old|]; cbn; [|done]. by rewrite (plus_accumulates Hplus).
    + f_equal. symmetry. destruct old as [old|]; cbn; by apply list_insert_id.
  - rewrite (proj2 (Nat.ltb_ge _ _)) by lia. done.
Qed.
Lemma add_variable_swap old v w : add_variable (add_variable old v) w = add_variable (add_variable old w) v.
Proof.
  pose proof (plus_comm Hplus). pose proof (plus_assoc Hplus). destruct old as [x|], v as [y|], w as [z|]; cbn; try done.
  - by rewrite <- !(assoc_L plus), (comm_L plus y).
  - by rewrite (comm_L plus).
Qed.
Lemma list_alter_swap {A} (k1 k2 : A → A) i j (l : list A) : (∀ x, k1 (k2 x) = k2 (k1 x)) → alter k1 i (alter k2 j l) = alter k2 j (alter k1 i l).
Proof.
  intros Hk. apply list_eq. intros x. destruct (decide (i = x)) as [->|Hi], (decide (j = x)) as [->|Hj];
    repeat first [rewrite list_lookup_alter_eq|rewrite list_lookup_alter_ne by done]; try done; destruct (l !! x); cbn; by rewrite ?Hk.
Qed.
Lemma buffer_add_swap i v j w b :
  (b1 ← buffer_add i v b; buffer_add j w b1) = (b1 ← buffer_add j w b; buffer_add i v b1).
Proof.
  assert (Hlen : ∀ (k : variable → variable) i', length (alter k i' b) = length b) by (intros; apply length_alter).
  rewrite !buffer_add_spec. destruct (decide (i < length b)) as [Hi|Hi], (decide (j < length b)) as [Hj|Hj]; rewrite ?Ok_bind, ?Throw_bind, ?buffer_add_spec, ?Hlen;
    repeat first [rewrite decide_True by assumption|rewrite decide_False by assumption]; try done.
  f_equal. apply list_alter_swap. intros x. apply add_variable_swap.
Qed.

Lemma add_all_throw l e : add_all (T:=T) l (Throw e) = Throw e.
Proof. induction l as [|a l IH]; [done|]. exact IH. Qed.
Lemma add_all_perm l l' ob : l ≡ₚ l' → add_all (T:=T) l ob = add_all l' ob.
Proof.
  intros H. revert ob. induction H as [|a l l' _ IH|[i v] [j w] l|l1 l2 l3 _ IH1 _ IH2]; intros ob; [done|apply IH| |by rewrite IH1].
  unfold add_all. cbn [foldl]. destruct ob as [b|e]; [|done]. f_equal. cbn [fst snd]. rewrite !Ok_bind. apply buffer_add_swap.
Qed.

(** ** One result *)
Definition plain fs : Prop := ∀ f F ins, fs !! f = Some F → match apply F ins with Execute _ _ _ _ _ _ => False | _ => True end.
Lemma evaluates_plain fs n b ins outs ins' outs' :
  plain fs → evaluates fs n b ins outs → evaluates fs n b ins' outs' → ins = ins' ∧ outs = outs'.
Proof.
  intros Hp (F & raw & valid & HF & Hi & Hy & Hv & Ho) (F' & raw' & valid' & HF' & Hi' & Hy' & Hv' & Ho').
  assert (F' = F) as -> by congruence. assert (ins = ins') as <- by congruence. split; [done|]. specialize (Hp n F ins HF).
  destruct (apply F ins) as [o| |]; [|by inversion Hy|done].
  assert (raw = o) as -> by (by inversion Hy). assert (raw' = o) as -> by (by inversion Hy'). congruence.
Qed.

Lemma sums_same fs R (res res' : ptr → list (variable (T:=T))) n b b' :
  (∀ h, h ∈ R → linked fs h n → res h = res' h) → sums_up fs R res n b → sums_up fs R res' n b' → b = b'.
Proof.
  intros Hr (Hall & ks & Hks & Hb) (_ & ks' & Hks' & Hb').
  assert (Hv : ∀ k, k ∈ edges_into fs R n → edge_value fs res k = edge_value fs res' k).
  { intros [h i] [Hh [j Ht]]%elem_of_edges_into. unfold edge_value. cbn. rewrite (Hr h); [done|done|by exists i, j]. }
  assert (Hks2 : ks ≡ₚ ks') by (by rewrite Hks, Hks').
  assert (omap (edge_value fs res) ks ≡ₚ omap (edge_value fs res') ks') as E.
  { rewrite <- Hks2. assert (omap (edge_value fs res) ks = omap (edge_value fs res') ks) as ->; [|done].
    assert (Hin : ∀ k, k ∈ ks → edge_value fs res k = edge_value fs res' k) by (intros k; rewrite Hks; apply Hv).
    clear -Hin. induction ks as [|k ks IH]; [done|]. cbn. rewrite (Hin k) by (by left). rewrite IH; [done|]. intros k' Hk'. apply Hin. by right. }
  rewrite (add_all_perm _ _ _ E), Hb' in Hb. by apply Ok_inj in Hb.
Qed.

Lemma gradients_unique K vars arg result vars' arg' result' :
  plain (pfs K) → acyclic (pfs K) → demand_closed K → gradients K vars arg result → gradients K vars' arg' result' →
  (∀ n, n ∈ preach K → (executes (pinfo K) n = true → arg n = arg' n) ∧ (runs (pinfo K) n = true → result n = result' n)) ∧ vars = vars'.
Proof.
  intros Hp [rank Hrank] Hd H H'.
  assert (Hall : ∀ n, n ∈ preach K → (executes (pinfo K) n = true → arg n = arg' n) ∧ (runs (pinfo K) n = true → result n = result' n)).
  { apply (rank_induction (pfs K) rank (preach K) _ Hrank). intros n Hn IH.
    assert (Ha : executes (pinfo K) n = true → arg n = arg' n).
    { intros He. eapply sums_same; [|by apply (gr_inputs _ _ _ _ H)|by apply (gr_inputs _ _ _ _ H')]. intros h Hh Hl. apply (IH h Hh Hl). by eapply Hd. }
    split; [done|]. intros Hr. destruct (gr_outputs _ _ _ _ H n Hn Hr) as [ins He], (gr_outputs _ _ _ _ H' n Hn Hr) as [ins' He'].
    rewrite <- (Ha (runs_executes _ _ Hr)) in He'. by destruct (evaluates_plain _ _ _ _ _ _ _ Hp He He'). }
  split; [done|]. apply list_eq. intros i.
  destruct (existsb (λ n, existsb (λ c, bool_decide (c.2 = i)) (captures_at (pinfo K) n)) (preach K)) eqn:E.
  - apply existsb_exists in E as (n & Hn & (c & Hc & Ei%bool_decide_eq_true)%existsb_exists). apply list_elem_of_In in Hn, Hc. subst i.
    destruct (gr_captured _ _ _ _ H n c Hn Hc) as [_ ->], (gr_captured _ _ _ _ H' n c Hn Hc) as [_ ->]. destruct (Hall n Hn) as [-> _]; [done|].
    unfold executes, should_execute. unfold captures_at in Hc. destruct (captures (info_of (pinfo K) (Some n))); [|by apply elem_of_nil in Hc].
    rewrite (bool_decide_eq_true_2 (is_Some _)) by eauto. by rewrite !orb_true_r.
  - assert (Hno : ∀ n c, n ∈ preach K → c ∈ captures_at (pinfo K) n → c.2 ≠ i).
    { intros n c Hn Hc Ei. apply not_true_iff_false in E. apply E, existsb_exists. exists n. rewrite <- list_elem_of_In. split; [done|].
      apply existsb_exists. exists c. rewrite <- list_elem_of_In. split; [done|]. by apply bool_decide_eq_true. }
    by rewrite (gr_uncaptured _ _ _ _ H i Hno), (gr_uncaptured _ _ _ _ H' i Hno).
Qed.
End unique.
