(* ===== verification/EngineLive.v ===== *)
(** * The engine ends its passes

    As long as functions run no passes themselves, every step but a new call and a spurious
    wake-up uses up a part of a finite amount of work; and a caller that sleeps although its
    graph task is done is about to be notified. *)
From S2P Require Import Prelude CoreTypes AutogradEngine EngineGraph EngineSpec EngineTurns EngineProgress EngineSteps EngineInvariant EngineResults.
Local Open Scope Z_scope.
Local Open Scope list_scope.
#[local] Set Warnings "-clear-no-such-hyp".
Import Engine.

Section live.
Context {T : Type} `{!Tensors T}.
Implicit Types (fs : gmap ptr (Function (T:=T))) (f n m h : ptr) (G : GraphTask (T:=T)) (p : Phase (T:=T)) (s : State (T:=T)).
Implicit Types (t : FunctionTask (T:=T)) (ins outs : list (variable (T:=T))).

(** ** Threads without nested passes *)
Definition plain_phase p : Prop :=
  match p with
  | Starting | Calling _ _ _ (Execute _ _ _ _ _ _) => False
  | Counting _ o | Notifying _ o => o = NO_DEVICE
  | _ => True
  end.
(** The thread in this phase has the mutex of the graph task. *)
Definition holds (g : nat) p : Prop := match p with Delivering t _ => base t = g | _ => False end.
(** The thread in this phase is about to notify who waits for the graph task. *)
Definition tells (g : nat) p : Prop := match p with Notifying t _ => base t = g | _ => False end.
Definition at_phase s (w : nat) p (c : bool) : Prop := threads s !! w = Some (mkThread [mkFrame None p] c).

Record live_inv s : Prop := {
  l_threads w th : threads s !! w = Some th → ∃ p c, th = mkThread [mkFrame None p] c ∧ plain_phase p;
  l_queues : length (threads s) = length (ready_queues s);
  l_plain : plain (functions s);
  l_hooks : hooks_keep_length (functions s);
  l_owner g G : graph_tasks s !! g = Some G → owner G = NO_DEVICE;
  l_locked g G : graph_tasks s !! g = Some G → locked G = true →
    (∃ w p c, at_phase s w p c ∧ holds g p) ∨ ∃ u, callers s !! u = Some (g, Holding);
  l_asleep u g G : callers s !! u = Some (g, Asleep) → graph_tasks s !! g = Some G → outstanding_tasks G = 0 →
    ∃ w p c, at_phase s w p c ∧ tells g p;
  l_callers u g b : callers s !! u = Some (g, b) → is_Some (graph_tasks s !! g);
  l_distinct u u' g b b' : callers s !! u = Some (g, b) → callers s !! u' = Some (g, b') → u = u'
}.

(** ** The work that is left *)
Definition edge_count fs (f : option ptr) : Z :=
  match f with Some f => match fs !! f with Some F => Z.of_nat (length (next_edges F)) | None => 0 end | None => 0 end.
Definition phase_work fs p : Z :=
  match p with
  | Starting | InPop => 0
  | AtLoop => 1
  | Notifying _ _ => 3
  | Counting _ _ => 4
  | Finishing _ => 5
  | Failing _ _ => 6
  | Delivering _ rest => 7 + Z.of_nat (length rest)
  | Locking _ outs => 8 + Z.of_nat (length outs)
  | Calling t _ _ _ => 9 + edge_count fs (fn t)
  | Evaluating t => 10 + edge_count fs (fn t)
  | Popped t => 11 + edge_count fs (fn t)
  end.
Definition item_work fs p : Z := 1 + phase_work fs p.
Definition waiting_work fs (deps : gmap ptr Z) : Z := msum (λ n _, 13 + edge_count fs (Some n)) deps.
Definition queue_work s : Z := lsum (item_work (functions s)) (items_in (ready_queues s) []).
Definition thread_work s : Z := lsum (λ th, lsum (λ fr, phase_work (functions s) (phase fr)) (frames th)) (threads s).
Definition task_work s : Z := msum (λ _ G, waiting_work (functions s) (dependencies G)) (graph_tasks s).
(** Who sleeps has nothing to do. *)
Definition waiter_work (x : Waiter) : Z := match x with Asleep => 0 | _ => 1 end.
Definition waiters_work (waiters : gmap nat (nat * Waiter)) : Z := msum (λ _ c, waiter_work c.2) waiters.
Definition caller_work s : Z := waiters_work (callers s).
Definition work_left s : Z := queue_work s + thread_work s + task_work s + caller_work s.

Lemma edge_count_nonneg fs (o : option ptr) : 0 ≤ edge_count fs o.
Proof. destruct o as [f|]; cbn; [|done]. destruct (fs !! f); lia. Qed.
Lemma phase_work_nonneg fs p : 0 ≤ phase_work fs p.
Proof. destruct p; cbn; try lia; pose proof (edge_count_nonneg fs (fn task)); lia. Qed.
Lemma waiting_work_nonneg fs deps : 0 ≤ waiting_work fs deps.
Proof. apply msum_nonneg. intros n _. pose proof (edge_count_nonneg fs (Some n)). lia. Qed.
Lemma waiters_work_nonneg cs : 0 ≤ waiters_work cs.
Proof. apply msum_nonneg. intros u [g []]; cbn; lia. Qed.
Lemma work_left_nonneg s : 0 ≤ work_left s.
Proof.
  unfold work_left, queue_work, thread_work, task_work, caller_work.
  assert (0 ≤ lsum (item_work (functions s)) (items_in (ready_queues s) [])) by (apply lsum_nonneg; intros p; unfold item_work; pose proof (phase_work_nonneg (functions s) p); lia).
  assert (0 ≤ lsum (λ th : Thread, lsum (λ fr, phase_work (functions s) (phase fr)) (frames th)) (threads s)) by (apply lsum_nonneg; intros th; apply lsum_nonneg; intros fr; apply phase_work_nonneg).
  assert (0 ≤ msum (λ _ G, waiting_work (functions s) (dependencies G)) (graph_tasks s)) by (apply msum_nonneg; intros; apply waiting_work_nonneg).
  pose proof (waiters_work_nonneg (callers s)). lia.
Qed.
(** ** What a step of a worker does *)
Record effect (w : nat) s s' p p' (c c' : bool) : Prop := {
  f_from : at_phase s w p c;
  f_to : threads s' = <[w := mkThread [mkFrame None p'] c']> (threads s);
  f_functions : functions s' = functions s;
  f_callers : callers s' = match p with Notifying t _ => notify_all (base t) (callers s) | _ => callers s end;
  f_queues : length (ready_queues s') = length (ready_queues s);
  f_plain : plain_phase p';
  f_tasks g G' : graph_tasks s' !! g = Some G' → ∃ G, graph_tasks s !! g = Some G ∧ owner G' = owner G ∧
    (locked G' = true → holds g p' ∨ locked G = true ∧ ¬ holds g p) ∧ (outstanding_tasks G' = 0 → outstanding_tasks G = 0 ∨ tells g p');
  f_kept g : is_Some (graph_tasks s !! g) → is_Some (graph_tasks s' !! g);
  f_work : phase_work (functions s) p' + queue_work s' + task_work s' + caller_work s' < phase_work (functions s) p + queue_work s + task_work s + caller_work s
}.

Lemma notify_all_lookup g cs u : notify_all g cs !! u = (λ c, if decide (c = (g, Asleep)) then (g, Awake) else c) <$> cs !! u.
Proof. apply lookup_fmap. Qed.
Lemma notify_all_back g cs u g' x : notify_all g cs !! u = Some (g', x) →
  ∃ y, cs !! u = Some (g', y) ∧ (x = Asleep → y = Asleep ∧ g' ≠ g).
Proof.
  rewrite notify_all_lookup. destruct (cs !! u) as [[g1 y]|]; [|done]. cbn. intros [= E]. exists y. case_decide as Hd.
  - injection Hd as -> ->. injection E as <- <-. done.
  - injection E as -> ->. split; [done|]. intros ->. split; [done|]. intros ->. done.
Qed.
Lemma notify_all_holding g cs u g' : cs !! u = Some (g', Holding) → notify_all g cs !! u = Some (g', Holding).
Proof. intros E. rewrite notify_all_lookup, E. cbn. by rewrite decide_False. Qed.
(** At most one thread waits for a graph task. *)
Lemma notify_all_work g cs : (∀ u u' x x', cs !! u = Some (g, x) → cs !! u' = Some (g, x') → u = u') →
  waiters_work (notify_all g cs) ≤ waiters_work cs + 1.
Proof.
  unfold waiters_work. induction cs as [|u [g' x] cs Hu IH] using map_ind; intros Hd; [cbn; unfold notify_all; rewrite fmap_empty; lia|].
  assert (Hn : notify_all g cs !! u = None) by (by rewrite notify_all_lookup, Hu).
  unfold notify_all. rewrite fmap_insert. change ((λ c, if decide (c = (g, Asleep)) then (g, Awake) else c) <$> cs) with (notify_all g cs).
  rewrite !msum_insert by done. case_decide as E.
  - injection E as -> ->. cbn [snd waiter_work].
    assert (notify_all g cs = cs) as ->; [|lia]. apply map_eq. intros v. rewrite notify_all_lookup. destruct (cs !! v) as [[g1 y]|] eqn:Hv; [|done].
    cbn. rewrite decide_False; [done|]. intros [= -> ->]. assert (u = v) as ->; [|congruence].
    eapply (Hd u v); [apply lookup_insert_eq|rewrite lookup_insert_ne; [exact Hv|congruence]].
  - cbn [snd]. assert (waiters_work (notify_all g cs) ≤ waiters_work cs + 1) as H; [|unfold waiters_work in H; lia]. apply IH. intros u1 u2 x1 x2 H1 H2.
    eapply (Hd u1 u2); rewrite lookup_insert_ne; [exact H1|congruence|exact H2|congruence].
Qed.

Lemma effect_live w s s' p p' c c' : live_inv s → effect w s s' p p' c c' → live_inv s' ∧ work_left s' < work_left s.
Proof.
  intros I E. pose proof (f_from _ _ _ _ _ _ _ E) as Hw. unfold at_phase in Hw. pose proof (lookup_lt_Some _ _ _ Hw) as Hlt.
  assert (Hback : ∀ u g x, callers s' !! u = Some (g, x) → ∃ y, callers s !! u = Some (g, y) ∧ (x = Asleep → y = Asleep ∧ ¬ tells g p)).
  { intros u g x. rewrite (f_callers _ _ _ _ _ _ _ E). destruct p; try (by intros Hu; exists x; split; [|intros Hx; split; [|intros []]]).
    intros (y & Hy & Hs)%notify_all_back. exists y. split; [done|]. intros Hx. destruct (Hs Hx) as [Hy' Hg]. split; [done|]. cbn. congruence. }
  assert (Hhold : ∀ u g, callers s !! u = Some (g, Holding) → callers s' !! u = Some (g, Holding)).
  { intros u g Hu. rewrite (f_callers _ _ _ _ _ _ _ E). destruct p; try done. by apply notify_all_holding. }
  assert (Hstay : ∀ w1 p1 c1, at_phase s w1 p1 c1 → p1 ≠ p → at_phase s' w1 p1 c1).
  { unfold at_phase. intros w1 p1 c1 Hw1 Hne. rewrite (f_to _ _ _ _ _ _ _ E), list_lookup_insert_ne; [done|]. intros <-. congruence. }
  split.
  - split.
    + intros w' th. rewrite (f_to _ _ _ _ _ _ _ E), list_lookup_insert_Some. intros [(<- & <- & _)|[_ Hth]]; [|by apply (l_threads _ I w')].
      exists p', c'. split; [done|apply E].
    + rewrite (f_to _ _ _ _ _ _ _ E), length_insert, (f_queues _ _ _ _ _ _ _ E). apply I.
    + rewrite (f_functions _ _ _ _ _ _ _ E). apply I.
    + rewrite (f_functions _ _ _ _ _ _ _ E). apply I.
    + intros g G' HG'. destruct (f_tasks _ _ _ _ _ _ _ E g G' HG') as (G & HG & -> & _). by apply (l_owner _ I g).
    + intros g G' HG' Hl. destruct (f_tasks _ _ _ _ _ _ _ E g G' HG') as (G & HG & _ & Hlk & _).
      destruct (Hlk Hl) as [Hh|[Hl' Hn]].
      * left. exists w, p', c'. split; [|done]. unfold at_phase. rewrite (f_to _ _ _ _ _ _ _ E). by apply list_lookup_insert_eq.
      * destruct (l_locked _ I g G HG Hl') as [(w1 & p1 & c1 & Hw1 & Hh)|(u & Hu)]; [left|right; exists u; by apply Hhold].
        exists w1, p1, c1. split; [|done]. apply Hstay; [done|]. by intros ->.
    + intros u g G' Hu HG' Hz. destruct (f_tasks _ _ _ _ _ _ _ E g G' HG') as (G & HG & _ & _ & Hcount).
      destruct (Hcount Hz) as [Hz'|Htell].
      2:{ exists w, p', c'. split; [|done]. unfold at_phase. rewrite (f_to _ _ _ _ _ _ _ E). by apply list_lookup_insert_eq. }
      destruct (Hback u g Asleep Hu) as (y & Hy & Hs). destruct (Hs eq_refl) as [-> Hnt].
      destruct (l_asleep _ I u g G Hy HG Hz') as (w1 & p1 & c1 & Hw1 & Ht1). exists w1, p1, c1. split; [|done]. apply Hstay; [done|]. by intros ->.
    + intros u g b (y & Hy & _)%Hback. by apply (f_kept _ _ _ _ _ _ _ E), (l_callers _ I u g y).
    + intros u u' g b b' (y & Hy & _)%Hback (y' & Hy' & _)%Hback. by apply (l_distinct _ I u u' g y y').
  - pose proof (f_work _ _ _ _ _ _ _ E) as Hwork. unfold work_left.
    assert (Ht : thread_work s' = thread_work s - phase_work (functions s) p + phase_work (functions s) p'); [|lia].
    unfold thread_work. rewrite (f_to _ _ _ _ _ _ _ E), (f_functions _ _ _ _ _ _ _ E), (lsum_update _ _ _ _ _ Hw). cbn [frames phase].
    rewrite !lsum_cons. cbn. lia.
Qed.

Definition not_telling p : Prop := match p with Notifying _ _ => False | _ => True end.
(** One graph task changes at most, and nothing is pushed. *)
Lemma effect_goto w s s' p p' c c' g G G' :
  at_phase s w p c → threads s' = <[w := mkThread [mkFrame None p'] c']> (threads s) → functions s' = functions s → callers s' = callers s →
  ready_queues s' = ready_queues s → plain_phase p' → graph_tasks s !! g = Some G → graph_tasks s' = <[g := G']> (graph_tasks s) → owner G' = owner G →
  dependencies G' = dependencies G → (locked G' = true → holds g p' ∨ locked G = true ∧ ¬ holds g p) → (∀ g', g' ≠ g → ¬ holds g' p) →
  (outstanding_tasks G' = 0 → outstanding_tasks G = 0 ∨ tells g p') → not_telling p →
  phase_work (functions s) p' < phase_work (functions s) p → effect w s s' p p' c c'.
Proof.
  intros Hw Hth Hf Hc Hq Hp HG HG' Ho Hd Hl Hh Hz Ht Hwork. split; try done.
  - rewrite Hc. by destruct p.
  - by rewrite Hq.
  - intros g' G1. rewrite HG', lookup_insert. case_decide as Hg; [subst g'; intros [= <-]; by exists G|]. intros E. exists G1. split_and!; [done..| |].
    { intros Hl'. right. split; [done|]. by apply Hh. }
    by left.
  - intros g' [G1 HG1]. rewrite HG', lookup_insert. case_decide; eauto.
  - unfold queue_work, task_work, caller_work. rewrite Hf, Hq, HG', Hc, msum_update. unfold weight_at. rewrite HG, Hd. lia.
Qed.
Lemma effect_same w s s' p p' c c' :
  at_phase s w p c → threads s' = <[w := mkThread [mkFrame None p'] c']> (threads s) → functions s' = functions s → callers s' = callers s →
  ready_queues s' = ready_queues s → plain_phase p' → graph_tasks s' = graph_tasks s → (∀ g, ¬ holds g p) → not_telling p →
  phase_work (functions s) p' < phase_work (functions s) p → effect w s s' p p' c c'.
Proof.
  intros Hw Hth Hf Hc Hq Hp HG Hh Ht Hwork. split; try done.
  - rewrite Hc. by destruct p.
  - by rewrite Hq.
  - intros g G1. rewrite HG. intros E. exists G1. split_and!; [done..| |by left]. intros Hl'. right. split; [done|]. by apply Hh.
  - intros g. by rewrite HG.
  - unfold queue_work, task_work, caller_work. rewrite Hf, Hq, HG, Hc. lia.
Qed.

(** ** Every step of a worker *)
Section worker.
Context (w : nat) (c : bool).
#[local] Abbreviation does s s' := (∃ p p' c', effect w s s' p p' c c').

Lemma popped_effect t s s' : at_phase s w (Popped t) c → popped w c None [] t s = (Ok tt, s') → does s s'.
Proof.
  intros Hw H. pose proof (edge_count_nonneg (functions s) (fn t)) as He. unfold popped in H. destruct (fn t) as [f|] eqn:Hf in H.
  - apply SE_bind_Ok in H as (G & s1 & [HG ->]%deref_task_Ok & H). run. exists (Popped t), (if has_error G then Finishing t else Evaluating t), c.
    apply effect_same; try done; try (by destruct (has_error G)); try (by intros g []). all: destruct (has_error G); cbn; lia.
  - run. exists (Popped t), (Finishing t), c. apply effect_same; try done; try (by intros g []); cbn; lia.
Qed.
Lemma finishing_effect t s s' : live_inv s → at_phase s w (Finishing t) c → finishing w c None [] t s = (Ok tt, s') → does s s'.
Proof.
  intros I Hw H. unfold finishing in H. apply SE_bind_Ok in H as (G & s1 & [HG ->]%deref_task_Ok & H). run.
  exists (Finishing t), (Counting t (owner G)), c. apply effect_same; try done; try (by apply (l_owner _ I (base t))); try (by intros g []); cbn; lia.
Qed.
Lemma counting_effect t o s s' : o = NO_DEVICE → at_phase s w (Counting t o) c → counting w c None [] t o s = (Ok tt, s') → does s s'.
Proof.
  intros Ho Hw H. unfold counting in H. apply SE_bind_Ok in H as (G & s1 & [HG ->]%deref_task_Ok & H).
  apply SE_bind_Ok in H as (u & s1 & (G1 & HG1 & ->)%update_task_Ok & H). assert (G1 = G) as -> by congruence. rewrite decide_False in H by (by intros [? _]). run.
  exists (Counting t o), (if (uint64 (outstanding_tasks G - 1) =? 0)%Z then Notifying t o else AtLoop), c.
  eapply (effect_goto _ _ _ _ _ _ _ (base t) G); try done; try (by destruct (_ =? _)); try (by intros Hl; right; split; [exact Hl|intros []]); try (by intros Hl; left); try (by intros g _ []).
  all: cbn; destruct (Z.eqb_spec (uint64 (outstanding_tasks G - 1)) 0) as [Hz|Hz]; cbn; try done. by right.
Qed.
Lemma notifying_effect t o s s' : live_inv s → o = NO_DEVICE → at_phase s w (Notifying t o) c → notifying w c None [] t o s = (Ok tt, s') → does s s'.
Proof.
  intros I Ho Hw H. unfold notifying in H. rewrite decide_True in H by done. run. exists (Notifying t o), AtLoop, c.
  split; try done; cbn [functions graph_tasks ready_queues with_threads with_callers callers threads].
  - intros g G HG. exists G. split_and!; [done..| |by left]. intros Hl. right. split; [done|intros []].
  - pose proof (notify_all_work (base t) (callers s) (λ u u' x x', l_distinct _ I u u' (base t) x x')) as Hle.
    unfold queue_work, task_work, caller_work. cbn [functions graph_tasks ready_queues with_threads with_callers callers phase_work]. lia.
Qed.
Lemma failing_effect t e s s' : at_phase s w (Failing t e) c → failing w c None [] t e s = (Ok tt, s') → does s s'.
Proof.
  intros Hw H. unfold failing in H. apply SE_bind_Ok in H as (G & s1 & [HG ->]%deref_task_Ok & H).
  apply SE_bind_Ok in H as (u & s1 & H1 & H). exists (Failing t e), (Finishing t), c. destruct (has_error G); run; simplify_eq.
  - apply effect_same; try done; try (by intros g []); cbn; lia.
  - eapply (effect_goto _ _ _ _ _ _ _ (base t) G); try done; try (by intros Hl; right; split; [exact Hl|intros []]); try (by intros Hl; left); try (by intros g _ []); cbn; lia.
Qed.
Lemma locking_effect t outs s s' : at_phase s w (Locking t outs) c →
  (update_task (base t) (set_locked true);; goto w c None [] (Delivering t (imap pair outs))) s = (Ok tt, s') → does s s'.
Proof.
  intros Hw H. apply SE_bind_Ok in H as (u & s1 & (G & HG & ->)%update_task_Ok & H). run. exists (Locking t outs), (Delivering t (imap pair outs)), c.
  eapply (effect_goto _ _ _ _ _ _ _ (base t) G); try done; try (by intros Hl; left); try (by intros g _ []); cbn; rewrite length_imap; lia.
Qed.
Lemma evaluate_effect t s s' : live_inv s → at_phase s w (Evaluating t) c → evaluate w c None [] t s = (Ok tt, s') → does s s'.
Proof.
  intros I Hw H. unfold evaluate in H. pose proof (edge_count_nonneg (functions s) (fn t)) as He.
  apply SE_bind_Ok in H as (f & s1 & [Hf%non_null_Ok ->]%lift_Ok & H). apply SE_bind_Ok in H as (r & s1 & Hi%try_Ok & H). destruct r as [[]|e].
  - destruct (instrument_Ok _ _ _ _ _ Hi) as (G & vars & HG & Hc & Hr & ->). set (G' := set_captured_vars vars G) in *.
    apply SE_bind_Ok in H as (G0 & s1 & [HG0 ->]%deref_task_Ok & H). apply SE_bind_Ok in H as (F & s1 & [HF ->]%deref_function_Ok & H). cbn in HF.
    apply SE_bind_Ok in H as (i & s1 & Hh%try_Ok & H). destruct i as [ins|e].
    + apply lift_Ok in Hh as [Hh ->]. apply SE_bind_Ok in H as (u & s1 & H1 & H).
      exists (Evaluating t), (Calling t c ins (apply F ins)), (bool_decide (exec_info G0 = ∅) && c).
      assert (Hp : plain_phase (Calling t c ins (apply F ins))) by (pose proof (l_plain _ I f F ins HF); cbn; by destruct (apply F ins)).
      destruct (keep_graph G0); run; (eapply (effect_goto _ _ _ _ _ _ _ (base t) G G'); try done; try (by intros Hl; right; split; [exact Hl|intros []]); try (by intros g _ []); cbn; lia).
    + destruct Hh as [[= _ <-] _]. run. exists (Evaluating t), (Failing t e), (bool_decide (exec_info G0 = ∅) && c).
      eapply (effect_goto _ _ _ _ _ _ _ (base t) G G'); try done; try (by intros Hl; right; split; [exact Hl|intros []]); try (by intros g _ []); cbn; lia.
  - destruct (instrument_Ok _ _ _ _ _ Hi) as (G & vars & HG & Hc & Hr & ->). run. exists (Evaluating t), (Finishing t), c.
    eapply (effect_goto _ _ _ _ _ _ _ (base t) G); try done; try (by intros Hl; right; split; [exact Hl|intros []]); try (by intros g _ []); cbn; lia.
  - destruct Hi as [Hi Hfe]. apply instrument_Throw in Hi as [Hi|[-> [G HG]]]; [congruence|]. run. exists (Evaluating t), (Failing t e), c.
    apply effect_same; try done; try (by intros g []); cbn; lia.
Qed.
Lemma calling_effect number t prev ins comp s s' : live_inv s → plain_phase (Calling t prev ins comp) →
  at_phase s w (Calling t prev ins comp) c → calling w c None [] number t prev ins comp s = (Ok tt, s') → does s s'.
Proof.
  intros I Hp Hw H. unfold calling in H. pose proof (edge_count_nonneg (functions s) (fn t)) as He.
  apply SE_bind_Ok in H as (f & s1 & [Hf%non_null_Ok ->]%lift_Ok & H). destruct comp as [raw|e|]; [| |done].
  - apply SE_bind_Ok in H as (F & s1 & [HF ->]%deref_function_Ok & H). apply SE_bind_Ok in H as (G & s1 & [HG ->]%deref_task_Ok & H).
    apply SE_bind_Ok in H as (s0 & s1 & [-> ->]%get_Ok & H). apply SE_bind_Ok in H as (v & s1 & Hv%try_Ok & H).
    assert (Hraise : ∀ e c', set_frames w c' [mkFrame None (Failing t e)] s = (Ok tt, s') → does s s').
    { intros e c' H1. run. exists (Calling t prev ins (Return raw)), (Failing t e), c'. apply effect_same; try done; try (by intros g []); cbn; lia. }
    destruct v as [valid|e]; [|destruct Hv as [[= _ <-] _]; by eapply Hraise]. apply lift_Ok in Hv as [Hv ->].
    apply SE_bind_Ok in H as (h & s1 & Hh%try_Ok & H). destruct h as [outs|e]; [|destruct Hh as [[= _ <-] _]; by eapply Hraise].
    apply lift_Ok in Hh as [Hh ->]. apply SE_bind_Ok in H as (u & s1 & ->%emit_Ok & H). apply SE_bind_Ok in H as (u1 & s1 & H1 & H).
    assert (Hlen : length outs = length (next_edges F)).
    { transitivity (length valid); [|by eapply validate_outputs_length]. eapply (post_hooks_length F valid ins outs); [|done]. intros hook o i o'. by eapply (l_hooks _ I f F). }
    assert (Hcount : edge_count (functions s) (fn t) = Z.of_nat (length outs)) by (rewrite Hf; cbn; by rewrite HF, Hlen).
    assert (∃ p', (threads s' = <[w := mkThread [mkFrame None p'] prev]> (threads s) ∧ graph_tasks s' = graph_tasks s ∧
        functions s' = functions s ∧ callers s' = callers s ∧ ready_queues s' = ready_queues s) ∧ plain_phase p' ∧ phase_work (functions s) p' < 9 + Z.of_nat (length outs))
      as (p' & (E2 & E3 & E4 & E5 & E6) & Hp' & Hlt).
    { destruct (keep_graph G); case_decide; try destruct (_ && _); run; eexists; (split; [done|]); (split; [done|cbn; unfold variable in *; lia]). }
    exists (Calling t prev ins (Return raw)), p', prev. apply effect_same; try done; try (by intros g []). cbn. lia.
  - destruct (fatal e); [by run|]. run. exists (Calling t prev ins (Raise e)), (Failing t e), c. apply effect_same; try done; try (by intros g []); cbn; lia.
Qed.

Lemma waiting_work_mono fs (deps deps' : gmap ptr Z) :
  (∀ n, is_Some (deps !! n) → is_Some (deps' !! n)) → waiting_work fs deps ≤ waiting_work fs deps'.
Proof.
  unfold waiting_work. revert deps'. induction deps as [|n x deps Hn IH] using map_ind; intros deps' Hd; [apply waiting_work_nonneg|].
  destruct (Hd n) as [y Hy]; [by rewrite lookup_insert_eq|]. rewrite msum_insert by done. rewrite <- (insert_delete_id _ _ _ Hy), msum_insert by apply lookup_delete_eq.
  specialize (IH (delete n deps')). apply Z.add_le_mono_l, IH. intros m Hm. rewrite lookup_delete_ne; [apply Hd|]; [|intros <-; by rewrite Hn in Hm; destruct Hm].
  rewrite lookup_insert. case_decide; eauto.
Qed.
Lemma delivered_work fs g f i v G G' new : delivered fs g f i v G G' new →
  owner G' = owner G ∧ locked G' = locked G ∧
  waiting_work fs (dependencies G') + lsum (item_work fs) new ≤ waiting_work fs (dependencies G).
Proof.
  pose proof (λ n, edge_count_nonneg fs (Some n)) as He. unfold waiting_work.
  intros [Ht|n j d deps Ht Hd -> Hn Hex|n j d b Ht Hd Hz Hex Hb|n j d b Ht Hd Hz Hex Hb]; (split; [done|]); (split; [done|]); cbn; rewrite ?Z.add_0_r; try lia.
  - case_decide; [rewrite msum_erase|rewrite msum_update]; unfold weight_at; rewrite Hd; specialize (He n); cbn in He; lia.
  - rewrite msum_update. unfold weight_at. rewrite Hd. lia.
  - rewrite msum_erase. unfold weight_at. rewrite Hd. unfold item_work. cbn. specialize (He n). cbn in He. lia.
Qed.
Definition small s : Prop := ∀ g G, graph_tasks s !! g = Some G → 0 ≤ outstanding_tasks G ∧ outstanding_tasks G + 1 < 2 ^ 64.
Lemma delivered_outstanding fs g f i v G G' new : delivered fs g f i v G G' new →
  0 ≤ outstanding_tasks G ∧ outstanding_tasks G + 1 < 2 ^ 64 → outstanding_tasks G' = 0 → outstanding_tasks G = 0.
Proof. intros [] [Hlo Hhi]; cbn; try done. unfold uint64, wrapU. rewrite Z.mod_small; lia. Qed.
Lemma delivering_effect t (rest : list (nat * variable (T:=T))) s s' :
  small s → at_phase s w (Delivering t rest) c → delivering w c None [] t rest s = (Ok tt, s') → does s s'.
Proof.
  intros Hsm Hw H. unfold delivering in H. exists (Delivering t rest). destruct rest as [|[i v] rest].
  - apply SE_bind_Ok in H as (u & s1 & (G & HG & ->)%update_task_Ok & H). run. exists (Finishing t), c.
    eapply (effect_goto _ _ _ _ _ _ _ (base t) G); try done; try (by intros Hz; left); try (intros g Hg Hh; cbn in Hh; congruence); cbn; lia.
  - apply SE_bind_Ok in H as (f & s1 & [Hf%non_null_Ok ->]%lift_Ok & H). apply SE_bind_Ok in H as (r & s1 & Hd%try_Ok & H). destruct r as [[]|e].
    + run. exists (Delivering t rest), c. destruct (deliver_Ok _ _ _ _ _ _ Hd) as [[Ht ->]|(G & G' & new & HG & Hdel & HG' & (E1 & E2 & E3 & E4 & E5 & E6) & Hit)].
      * split; try done; cbn [functions graph_tasks ready_queues with_threads with_graph_tasks callers threads phase_work length].
        -- intros g G HG. exists G. split_and!; [done..| |by left]. intros Hl. destruct (decide (base t = g)); [by left|by right].
        -- unfold queue_work, task_work, caller_work. cbn [functions graph_tasks ready_queues with_threads with_graph_tasks callers dependencies set_locked set_not_ready set_dependencies]. lia.
      * destruct (delivered_work _ _ _ _ _ _ _ _ Hdel) as (Ho & Hl & Hwork). split; try done; cbn [functions graph_tasks ready_queues with_threads with_graph_tasks callers threads phase_work length].
        -- by rewrite E3.
        -- intros g G1. rewrite HG', lookup_insert. case_decide as Hg; [subst g; intros [= <-]; exists G; split_and!; [done..|by intros; left|]|].
           { intros Hz. left. eapply delivered_outstanding; [exact Hdel|exact (Hsm _ _ HG)|exact Hz]. }
           intros E. exists G1. split_and!; [done..| |by left]. intros Hl'. by right.
        -- intros g [G1 HG1]. rewrite HG', lookup_insert. case_decide; eauto.
        -- unfold queue_work, task_work, caller_work. cbn [functions graph_tasks ready_queues with_threads with_graph_tasks callers dependencies set_locked set_not_ready set_dependencies]. rewrite E1, E4, HG', msum_update, (lsum_perm _ _ _ (Hit [])), lsum_app. unfold weight_at. rewrite HG. lia.
    + destruct Hd as [Hd He]. apply deliver_Throw in Hd as [Hd|(G & deps & nr & HG & Hdeps & _ & ->)]; [congruence|]. run. simplify_map_eq.
      exists (Failing t e), c. split; try done; cbn [functions graph_tasks ready_queues with_threads with_graph_tasks callers threads phase_work length].
      * intros g G1. rewrite insert_insert_eq, lookup_insert. case_decide as Hg; [subst g; intros [= <-]; exists G; split_and!; try done; by left|].
        intros E. exists G1. split_and!; [done..| |by left]. intros Hl'. by right.
      * intros g [G1 HG1]. rewrite insert_insert_eq, lookup_insert. case_decide; eauto.
      * unfold queue_work, task_work, caller_work. cbn [functions graph_tasks ready_queues with_threads with_graph_tasks callers dependencies set_locked set_not_ready set_dependencies]. rewrite insert_insert_eq, msum_update. unfold weight_at. rewrite HG. cbn [dependencies set_locked set_not_ready set_dependencies].
        pose proof (waiting_work_mono (functions s) _ _ Hdeps). lia.
Qed.
Lemma popping_effect heap pick t s s' : at_phase s w InPop c → ready_queues s !! w = Some heap → heap !! pick = Some t →
  (modify (λ s, with_ready_queues (<[w := delete pick heap]> (ready_queues s)) s);; goto w c None [] (Popped t)) s = (Ok tt, s') → does s s'.
Proof.
  intros Hw Hh Hp H. run. exists InPop, (Popped t), c. split; try done; cbn [functions graph_tasks ready_queues with_threads with_ready_queues callers threads].
  - by rewrite length_insert.
  - intros g G HG. exists G. split_and!; [done..| |by left]. intros Hl. right. split; [done|intros []].
  - unfold queue_work, task_work, caller_work. cbn [functions graph_tasks ready_queues with_threads with_ready_queues callers].
    rewrite (lsum_perm _ _ _ (items_pop (ready_queues s) [] w heap pick t Hh Hp)), lsum_cons. unfold item_work. cbn [phase_work]. lia.
Qed.
End worker.

Lemma thread_step_effect w pick number s (m : M unit) s' :
  live_inv s → small s → thread_step w pick number s = Some m → m s = (Ok tt, s') → ∃ p p' c c', effect w s s' p p' c c'.
Proof.
  intros I Hsm H E. unfold thread_step in H. apply bind_Some in H as (th & Hw & H). destruct (l_threads _ I w th Hw) as (p & c & -> & Hp).
  cbn [frames checkpoint_valid] in H. assert (∀ (Q : Phase → Phase → bool → Prop), (∃ p p' c', Q p p' c') → ∃ p p' (c0 : bool) c', Q p p' c') as Hex by (intros Q (? & ? & ? & ?); eauto).
  assert ((∃ p p' c', effect w s s' p p' c c') → ∃ p p' c c', effect w s s' p p' c c') as Hdone by (intros (? & ? & ? & ?); eauto).
  apply Hdone. destruct p; try (destruct (_ && _); [done|]); try (destruct (is_locked _ _); [done|]).
  - done.
  - injection H as <-. unfold at_loop in E. run. exists AtLoop, InPop, c. apply effect_same; try done. by intros g [].
  - apply bind_Some in H as (heap & Hh & H). apply bind_Some in H as (t & Ht & [= <-]). unfold top in Ht. apply bind_Some in Ht as (t' & Ht & H).
    destruct (forallb _ _); [|done]. injection H as ->. by eapply popping_effect.
  - injection H as <-. by eapply popped_effect.
  - injection H as <-. by eapply evaluate_effect.
  - injection H as <-. by eapply calling_effect.
  - injection H as <-. by eapply locking_effect.
  - injection H as <-. by eapply delivering_effect.
  - injection H as <-. by eapply failing_effect.
  - injection H as <-. by eapply finishing_effect.
  - injection H as <-. by eapply counting_effect.
  - injection H as <-. by eapply notifying_effect.
Qed.

(** ** Steps of callers *)
Lemma return_live u g x G s s' : live_inv s → callers s !! u = Some (g, x) → x ≠ Asleep → graph_tasks s !! g = Some G →
  (execute_return g;; modify (λ s, with_callers (delete u (callers s)) s)) s = (Ok tt, s') → live_inv s' ∧ work_left s' < work_left s.
Proof.
  intros I Hu Hx HG H. apply SE_bind_Ok in H as (r & s1 & (G0 & HG0 & Hr & ->)%execute_return_Ok & H). run. split.
  - split; cbn; try apply I.
    + intros g' G'. rewrite lookup_delete. case_decide; [done|]. by apply (l_owner _ I).
    + intros g' G'. rewrite lookup_delete. case_decide as Hg; [done|]. intros HG' Hl'.
      destruct (l_locked _ I g' G' HG' Hl') as [?|[u' Hu']]; [by left|right]. exists u'. rewrite lookup_delete_ne; [done|]. intros <-. congruence.
    + intros u' g' G'. rewrite !lookup_delete. case_decide; [done|]. case_decide; [done|]. apply (l_asleep _ I).
    + intros u' g' b. rewrite lookup_delete. case_decide as Hn; [done|]. intros Hu'. rewrite lookup_delete_ne; [by eapply (l_callers _ I)|].
      intros <-. apply Hn. by eapply (l_distinct _ I).
    + intros u1 u2 g' b b'. rewrite !lookup_delete. case_decide; [done|]. case_decide; [done|]. apply (l_distinct _ I).
  - unfold work_left, queue_work, thread_work, task_work, caller_work, waiters_work. cbn [functions graph_tasks ready_queues threads callers with_callers with_graph_tasks with_log].
    rewrite !msum_erase. unfold weight_at. rewrite HG, Hu. cbn [snd]. pose proof (waiting_work_nonneg (functions s) (dependencies G)).
    assert (waiter_work x = 1) as -> by (by destruct x). lia.
Qed.
(** Another state of the caller [u], for the same graph task. *)
Lemma callers_distinct u g x y s : live_inv s → callers s !! u = Some (g, x) → ∀ u1 u2 g' b b',
  <[u := (g, y)]> (callers s) !! u1 = Some (g', b) → <[u := (g, y)]> (callers s) !! u2 = Some (g', b') → u1 = u2.
Proof.
  intros I Hu. assert (Hback : ∀ u1 g' b, <[u := (g, y)]> (callers s) !! u1 = Some (g', b) → ∃ b1, callers s !! u1 = Some (g', b1)).
  { intros u1 g' b. rewrite lookup_insert. case_decide as Hn; [subst u1; intros [= <- _]; eauto|eauto]. }
  intros u1 u2 g' b b' [b1 H1]%Hback [b2 H2]%Hback. by eapply (l_distinct _ I).
Qed.
Lemma sleep_live u g x G s s' : live_inv s → callers s !! u = Some (g, x) → x ≠ Asleep → graph_tasks s !! g = Some G → outstanding_tasks G ≠ 0 →
  (update_task g (set_locked false);; modify (λ s, with_callers (<[u := (g, Asleep)]> (callers s)) s)) s = (Ok tt, s') →
  live_inv s' ∧ work_left s' < work_left s.
Proof.
  intros I Hu Hx HG Hz H. apply SE_bind_Ok in H as (y & s1 & (G0 & HG0 & ->)%update_task_Ok & H). assert (G0 = G) as -> by congruence. run. split.
  - split; cbn; try apply I.
    + intros g' G'. rewrite lookup_insert. case_decide as Hg; [subst g'; intros [= <-]; exact (l_owner _ I g G HG)|by apply (l_owner _ I)].
    + intros g' G'. rewrite lookup_insert. case_decide as Hg; [subst g'; by intros [= <-]|]. intros HG' Hl.
      destruct (l_locked _ I g' G' HG' Hl) as [?|[u' Hu']]; [by left|right]. exists u'. rewrite lookup_insert_ne; [done|]. intros <-. congruence.
    + intros u' g' G' Hu'. rewrite lookup_insert. case_decide as Hg; [subst g'; intros [= <-] Hz'; by destruct Hz|]. revert Hu'.
      rewrite lookup_insert. case_decide; [by intros [= <-]|]. apply (l_asleep _ I).
    + intros u' g' b. rewrite lookup_insert. case_decide as Hn; [intros [= <- _]; by rewrite lookup_insert_eq; eauto|]. intros Hu'.
      destruct (l_callers _ I u' g' b Hu') as [G' HG']. rewrite lookup_insert. case_decide; eauto.
    + by eapply callers_distinct.
  - unfold work_left, queue_work, thread_work, task_work, caller_work, waiters_work. cbn [functions graph_tasks ready_queues threads callers with_callers with_graph_tasks].
    rewrite !msum_update. unfold weight_at. rewrite HG, Hu. cbn [dependencies set_locked snd]. assert (waiter_work x = 1) as -> by (by destruct x). cbn [waiter_work]. lia.
Qed.
Lemma wait_live u g x s s' : live_inv s → callers s !! u = Some (g, x) → x ≠ Asleep → wait u g s = (Ok tt, s') → live_inv s' ∧ work_left s' < work_left s.
Proof.
  intros I Hu Hx H. unfold wait in H. apply SE_bind_Ok in H as (G & s1 & [HG ->]%deref_task_Ok & H).
  destruct (Z.eqb_spec (outstanding_tasks G) 0); [by eapply return_live|by eapply sleep_live].
Qed.
Lemma spurious_live u g s : live_inv s → callers s !! u = Some (g, Asleep) →
  live_inv (with_callers (<[u := (g, Awake)]> (callers s)) s) ∧ work_left (with_callers (<[u := (g, Awake)]> (callers s)) s) ≤ work_left s + 1.
Proof.
  intros I Hu. split.
  - split; cbn; try apply I.
    + intros g' G' HG' Hl. destruct (l_locked _ I g' G' HG' Hl) as [?|[u' Hu']]; [by left|right]. exists u'. rewrite lookup_insert_ne; [done|]. intros <-. congruence.
    + intros u' g' G'. rewrite lookup_insert. case_decide; [done|]. apply (l_asleep _ I).
    + intros u' g' b. rewrite lookup_insert. case_decide as Hn; [intros [= <- _]; by eapply (l_callers _ I)|]. apply (l_callers _ I).
    + by eapply callers_distinct.
  - unfold work_left, queue_work, thread_work, task_work, caller_work, waiters_work. cbn [functions graph_tasks ready_queues threads callers with_callers].
    rewrite !msum_update. unfold weight_at. rewrite Hu. cbn [snd waiter_work]. lia.
Qed.
Lemma call_live u number roots ins keep create outputs s s' : live_inv s → ready_queues s ≠ [] → (∀ g, is_Some (graph_tasks s !! g) → (g < next_task s)%nat) →
  callers s !! u = None → call u number roots ins keep create outputs s = (Ok tt, s') → live_inv s'.
Proof.
  intros I Hq Hlt Hu H. unfold call in H. apply SE_bind_Ok in H as (r & s1 & Hr%try_Ok & H). destruct r as [g|e].
  2:{ destruct Hr as [Hr He]. apply execute_setup_Throw in Hr as [Hr| ->]; [congruence| |done]. by run. }
  apply execute_setup_Ok in Hr as [-> (grads & deps & info & q & _ & Hf & _ & _ & _ & Hg & _ & Hrq & Hth & Hc & _)]. run.
  assert (Hroot : ∀ f F, functions s1 !! f = Some F → functions s !! f = Some F ∨ F = GraphRoot number roots grads).
  { intros f F. rewrite Hf, lookup_insert_Some. intros [[_ <-]|[_ ?]]; [by right|by left]. }
  assert (Hold : ∀ g b u', callers s !! u' = Some (g, b) → g ≠ next_task s).
  { intros g b u' Hu' ->. pose proof (Hlt _ (l_callers _ I u' _ b Hu')). lia. }
  split; cbn; try (rewrite ?Hth; apply I).
  - rewrite Hth, Hrq, length_alter. apply I.
  - intros f F ins' HF. destruct (Hroot f F HF) as [HF'| ->]; [by eapply (l_plain _ I)|done].
  - intros f F hook outs i o HF Hh. destruct (Hroot f F HF) as [HF'| ->]; [by eapply (l_hooks _ I)|by apply elem_of_nil in Hh].
  - intros g G. rewrite Hg, lookup_insert. case_decide; [by intros [= <-]|by apply (l_owner _ I)].
  - intros g G. rewrite Hg, lookup_insert. case_decide as E; [subst g; intros [= <-] _; right; exists u; by rewrite lookup_insert_eq|]. intros HG Hl.
    destruct (l_locked _ I g G HG Hl) as [(w & p & c & Hw & Hh)|[u' Hu']]; [left; exists w, p, c; unfold at_phase; cbn; by rewrite Hth|right].
    exists u'. rewrite Hc, lookup_insert_ne; [done|]. intros <-. congruence.
  - intros u' g G. rewrite Hc, Hg, lookup_insert. case_decide as E; [done|]. intros Hu'. rewrite lookup_insert_ne by (symmetry; by apply (Hold g _ u' Hu')). intros HG Hz.
    destruct (l_asleep _ I u' g G Hu' HG Hz) as (w & p & c & Hw & Ht). exists w, p, c. unfold at_phase. cbn. by rewrite Hth.
  - intros u' g b. rewrite Hc, Hg, !lookup_insert. case_decide; [intros [= <- _]; by rewrite decide_True|]. intros Hu'. case_decide; [eauto|]. by eapply (l_callers _ I).
  - intros u1 u2 g b b'. rewrite Hc, !lookup_insert. case_decide as E1; case_decide as E2; subst; try done.
    + intros [= <- _] H2. by destruct (Hold _ _ _ H2).
    + intros H1 [= <- _]. by destruct (Hold _ _ _ H1).
    + apply (l_distinct _ I).
Qed.

(** A step that is neither a call nor a spurious wake-up uses up work. *)
Definition is_call (l : label (T:=T)) : bool := match l with Call _ _ _ _ _ _ _ => true | _ => false end.
Definition is_spurious (l : label (T:=T)) : bool := match l with Spurious _ => true | _ => false end.
Lemma step_engine_live l s s' : live_inv s → small s → ready_queues s ≠ [] → (∀ g, is_Some (graph_tasks s !! g) → (g < next_task s)%nat) → steps_to l s s' →
  live_inv s' ∧ (is_call l = false → work_left s' ≤ work_left s + if is_spurious l then 1 else -1).
Proof.
  intros I Hsm Hq Hlt (m & H & E). destruct l as [w pick number|u number roots ins keep create outputs|u|u|u]; cbn in H.
  - destruct (thread_step_effect _ _ _ _ _ _ I Hsm H E) as (p & p' & c & c' & He). destruct (effect_live _ _ _ _ _ _ _ I He). split; [done|]. cbn. lia.
  - destruct (callers s !! u) eqn:Hu; [done|]. injection H as <-. split; [by eapply call_live|done].
  - destruct (callers s !! u) as [[g []]|] eqn:Hu; try done. injection H as <-. destruct (wait_live _ _ _ _ _ I Hu ltac:(done) E). split; [done|]. cbn. lia.
  - destruct (callers s !! u) as [[g []]|] eqn:Hu; try done. destruct (is_locked s g); [done|]. injection H as <-.
    destruct (wait_live _ _ _ _ _ I Hu ltac:(done) E). split; [done|]. cbn. lia.
  - destruct (callers s !! u) as [[g []]|] eqn:Hu; try done. injection H as <-. run. by destruct (spurious_live _ _ _ I Hu).
Qed.

Lemma start_live fs d : plain fs → hooks_keep_length fs → live_inv (start_threads fs d).
Proof.
  intros Hp Hh. split; try done.
  - intros w th Hw. cbn [threads start_threads] in Hw. apply lookup_replicate in Hw as [-> _]. by exists AtLoop, true.
  - cbn. by rewrite !length_replicate.
Qed.
Lemma engine_small Ks s : engine_inv Ks s → small s.
Proof.
  intros I g G HG. destruct (e_inv _ _ I g G HG) as (P & _ & B & _). pose proof (items_bound _ _ _ _ _ P B). rewrite (b_outstanding _ _ _ _ _ B). lia.
Qed.
Lemma reachable_live fs d s : closed fs → plain fs → hooks_keep_length fs → reachable fs d s → (Z.of_nat (total_edges (functions s)) < 2 ^ 31) → live_inv s.
Proof.
  intros Hc Hp Hh. induction 1 as [|l s1 s2 Hr IH Hs]; intros Hb; [by apply start_live|].
  assert (Hb1 : Z.of_nat (total_edges (functions s1)) < 2 ^ 31).
  { eapply bound_before; [|exact Hb]. eapply advance_functions, step_advance; [by eapply reachable_queues|done]. }
  destruct (reachable_engine_inv fs d s1 Hc Hr Hb1) as [Ks I].
  eapply (step_engine_live l s1 s2); [by apply IH|by eapply engine_small|by eapply reachable_queues|apply I|done].
Qed.

(** ** Runs without calls: how many wake-ups are spurious, and how many steps are not *)
Inductive runs_on s : nat → nat → State → Prop :=
  | runs_here : runs_on s 0 0 s
  | runs_step n k l s1 s2 : runs_on s n k s1 → is_call l = false → steps_to l s1 s2 →
      runs_on s (if is_spurious l then S n else n) (if is_spurious l then k else S k) s2.
Lemma runs_later s n k s' : runs_on s n k s' → later s s'.
Proof. induction 1; [constructor|by eapply later_step]. Qed.
Lemma wait_functions u g s s' : wait u g s = (Ok tt, s') → functions s' = functions s.
Proof.
  unfold wait. intros H. apply SE_bind_Ok in H as (G & s1 & [HG ->]%deref_task_Ok & H). destruct (outstanding_tasks G =? 0)%Z; [|by run].
  apply SE_bind_Ok in H as (r & s1 & (G0 & HG0 & Hr & ->)%execute_return_Ok & H). by run.
Qed.
Lemma step_functions l s s' : is_call l = false → live_inv s → small s → steps_to l s s' → functions s' = functions s.
Proof.
  intros Hl I Hsm (m & H & E). destruct l as [w pick number| |u|u|u]; cbn in H; try done.
  - destruct (thread_step_effect _ _ _ _ _ _ I Hsm H E) as (p & p' & c & c' & He). apply He.
  - destruct (callers s !! u) as [[g []]|]; try done. injection H as <-. by eapply wait_functions.
  - destruct (callers s !! u) as [[g []]|]; try done. destruct (is_locked s g); [done|]. injection H as <-. by eapply wait_functions.
  - destruct (callers s !! u) as [[g []]|]; try done. injection H as <-. by run.
Qed.
Lemma runs_live fs d s n k s' : closed fs → plain fs → hooks_keep_length fs → reachable fs d s → (Z.of_nat (total_edges (functions s)) < 2 ^ 31) →
  runs_on s n k s' → (Z.of_nat (total_edges (functions s')) < 2 ^ 31) ∧ live_inv s' ∧ Z.of_nat k + work_left s' ≤ work_left s + Z.of_nat n.
Proof.
  intros Hc Hp Hh Hr Hb. induction 1 as [|n k l s1 s2 H IH Hl Hs]; [split_and!; [done|by eapply reachable_live|lia]|].
  destruct IH as (Hb1 & I1 & Hw). pose proof (later_reachable _ _ _ _ Hr (runs_later _ _ _ _ H)) as Hr1.
  destruct (reachable_engine_inv fs d s1 Hc Hr1 Hb1) as [Ks J]. pose proof (engine_small _ _ J) as Hsm.
  destruct (step_engine_live l s1 s2 I1 Hsm (reachable_queues _ _ _ Hr1) (e_tasks _ _ J) Hs) as [I2 Hlt].
  rewrite (step_functions l s1 s2 Hl I1 Hsm Hs). split_and!; [done..|]. specialize (Hlt Hl). destruct (is_spurious l); lia.
Qed.
End live.
