(* ===== verification/EngineSafety.v ===== *)
(** * No step of a pass goes wrong

    A step of a thread may be undefined: it indexes a vector out of range, follows a
    dangling pointer, or uses a graph task that is gone.  When the functions are sound and
    run no passes themselves, what the graph tasks and the threads hold fits together, so
    that steps return; and a caller that has no result yet can go on, or waits for a worker
    that can. *)
From S2P Require Import Prelude CoreTypes Options Geometry AutogradEngine EngineGraph EngineSpec EngineTurns EngineProgress EngineSteps EngineInvariant EngineResults EngineLive.
Local Open Scope nat_scope.
Local Open Scope list_scope.
#[local] Set Warnings "-clear-no-such-hyp".
Import Engine.

(** Exceptions that [catch (std::exception& e)] handles. *)
Definition tame {A} (o : outcome A) : Prop := ∀ e, o = Throw e → fatal e = false.

(** The operations on tensors throw no others. *)
Record tame_tensors (T : Type) `{!Tensors T} : Prop := {
  tame_add (a b : T) : tame (add a b);
  tame_add_ (a b : T) : tame (add_ a b);
  tame_sum_to (a : T) l : tame (sum_to a l)
}.

Section safety.
Context {T : Type} `{!Tensors T}.
Implicit Types (fs : gmap ptr (Function (T:=T))) (f n m h : ptr) (G : GraphTask (T:=T)) (p : Phase (T:=T)) (s : State (T:=T)).
Implicit Types (t : FunctionTask (T:=T)) (ins outs : list (variable (T:=T))).

(** Functions whose edges lead to inputs that exist, and that throw exceptions only. *)
Record sound fs : Prop := {
  sound_edges f (F : Function) e n : fs !! f = Some F → e ∈ next_edges F → function e = Some n → ∃ N, fs !! n = Some N ∧ input_nr e < num_inputs N;
  sound_pre f (F : Function) hook ins : fs !! f = Some F → hook ∈ pre_hooks F → tame (hook ins);
  sound_post f (F : Function) hook outs ins : fs !! f = Some F → hook ∈ post_hooks F → tame (hook outs ins);
  sound_apply f (F : Function) ins e : fs !! f = Some F → apply F ins = Raise e → fatal e = false
}.

(** ** What threads and graph tasks hold fits together *)
Definition harmless (c : Computation (T:=T)) : Prop :=
  match c with Return _ => True | Raise e => fatal e = false | Execute _ _ _ _ _ _ => False end.
Definition item_ok fs p : Prop :=
  match p with
  | Popped t => ∀ f, fn t = Some f → ∃ F, fs !! f = Some F ∧ length (inputs t) = num_inputs F
  | Evaluating t => ∃ f F, fn t = Some f ∧ fs !! f = Some F ∧ length (inputs t) = num_inputs F
  | Calling t _ _ c => (∃ f F, fn t = Some f ∧ fs !! f = Some F) ∧ harmless c
  | Locking t outs => ∃ f F, fn t = Some f ∧ fs !! f = Some F ∧ length outs = length (next_edges F)
  | Delivering t outs => ∃ f F, fn t = Some f ∧ fs !! f = Some F ∧ ∀ o, o ∈ outs → o.1 < length (next_edges F)
  | _ => True
  end.
Record task_safe fs G : Prop := {
  ts_buffers n (b : list (variable (T:=T))) : not_ready G !! n = Some b → ∃ N, fs !! n = Some N ∧ length b = num_inputs N;
  ts_places f c : c ∈ captures_at (exec_info G) f → c.2 < length (captured_vars G)
}.
Record safe_inv s : Prop := {
  s_sound : sound (functions s);
  s_items p : p ∈ items s → item_ok (functions s) p;
  s_alive p g : p ∈ items s → counted p = true → item_base p = Some g → is_Some (graph_tasks s !! g);
  s_tasks g G : graph_tasks s !! g = Some G → task_safe (functions s) G
}.

Lemma item_ok_mono fs fs' p : fs ⊆ fs' → item_ok fs p → item_ok fs' p.
Proof.
  intros Hs. assert (Hl : ∀ f (F : Function), fs !! f = Some F → fs' !! f = Some F) by (intros f F HF; by eapply lookup_weaken).
  destruct p; cbn; try done; try naive_solver.
Qed.
Lemma task_safe_mono fs fs' G : fs ⊆ fs' → task_safe fs G → task_safe fs' G.
Proof.
  intros Hs [Hb Hc]. split; [|done]. intros n b Hn. destruct (Hb n b Hn) as (N & HN & Hl). exists N. split; [by eapply lookup_weaken|done].
Qed.
Lemma task_safe_same fs G G' : not_ready G' = not_ready G → exec_info G' = exec_info G → length (captured_vars G') = length (captured_vars G) →
  task_safe fs G → task_safe fs G'.
Proof. intros E1 E2 E3 [Hb Hc]. split; [by rewrite E1|]. rewrite E2, E3. done. Qed.

Lemma task_safe_quiet fs G G' : quiet G G' → task_safe fs G → task_safe fs G'.
Proof. intros (o & b & ->). by apply task_safe_same. Qed.

Lemma new_buffer_length fs n (N : Function) : fs !! n = Some N → length (new_buffer fs n) = num_inputs N.
Proof. intros E. unfold new_buffer. rewrite E. apply length_replicate. Qed.
Lemma default_buffer_length fs G n (N : Function) : task_safe fs G → fs !! n = Some N → length (default (new_buffer fs n) (not_ready G !! n)) = num_inputs N.
Proof.
  intros J HN. destruct (not_ready G !! n) as [b|] eqn:Hb; cbn; [|by apply new_buffer_length]. destruct (ts_buffers _ _ J n b Hb) as (N' & HN' & Hl). congruence.
Qed.
Lemma target_sound fs f i n j : sound fs → target fs (f, i) = Some (n, j) → ∃ N, fs !! n = Some N ∧ j < num_inputs N.
Proof. intros S (F & e & HF & He & Hn & <-)%target_Some. eapply (sound_edges _ S f F e n HF); [by eapply list_elem_of_lookup_2|done]. Qed.

Lemma delivered_safe fs g f i v G G' new : sound fs → task_safe fs G → delivered fs g f i v G G' new →
  task_safe fs G' ∧ ∀ q, q ∈ new → item_ok fs q.
Proof.
  intros S J H. assert (Hbuf : ∀ n j b, target fs (f, i) = Some (n, j) → buffer_add j v (default (new_buffer fs n) (not_ready G !! n)) = Ok b →
    ∃ N, fs !! n = Some N ∧ length b = num_inputs N).
  { intros n j b Ht Hb. destruct (target_sound _ _ _ _ _ S Ht) as (N & HN & _). exists N. split; [done|].
    rewrite (buffer_add_length _ _ _ _ Hb). by apply default_buffer_length. }
  destruct H as [Ht|n j d deps Ht Hd -> Hn Hex|n j d b Ht Hd Hz Hex Hb|n j d b Ht Hd Hz Hex Hb].
  - split; [done|]. by intros q ?%elem_of_nil.
  - split; [by apply (task_safe_same fs G)|]. by intros q ?%elem_of_nil.
  - split; [|by intros q ?%elem_of_nil]. split; [|apply J]. intros m b'. cbn. rewrite lookup_insert. case_decide; [subst m|by apply (ts_buffers _ _ J)].
    intros [= <-]. by eapply Hbuf.
  - split.
    + split; [|apply J]. intros m b'. cbn. rewrite lookup_delete. case_decide; [done|]. by apply (ts_buffers _ _ J).
    + intros q ->%list_elem_of_singleton f' [= <-]. cbn. by eapply Hbuf.
Qed.

Lemma turn_safe fs G p G' ps evs : sound fs → hooks_keep_length fs → plain fs → task_safe fs G → item_ok fs p → turn fs G p G' ps evs →
  task_safe fs G' ∧ ∀ q, q ∈ ps → item_ok fs q.
Proof.
  intros S Hh Hpl J Hp H. destruct H as [t Hs|t f Hf He|t e vars Hf Hl|t f vars Hf Hc Hr|t f F vars prev ins evs Hf Hc Hr HF Hi Hev|t prev ins c e Hf| |
    t f F prev ins raw valid outs p' evs Hf HF Hv Ho Hp' Hev|t outs|t|t f i v rest G' new Hf Hdel|t o rest deps nr e Hf Hd Hnr|t e|t o|t o new Hnew|t o|t o].
  - split; [done|]. by intros q ->%list_elem_of_singleton.
  - split; [done|]. intros q ->%list_elem_of_singleton. destruct (Hp f Hf) as (F & HF & Hl). by exists f, F.
  - split; [by apply (task_safe_same fs G)|]. by intros q ->%list_elem_of_singleton.
  - split; [apply (task_safe_same fs G); [done..|by eapply captured_length|done]|]. by intros q ->%list_elem_of_singleton.
  - split; [apply (task_safe_same fs G); [done..|by eapply captured_length|done]|]. intros q ->%list_elem_of_singleton. split; [by exists f, F|].
    pose proof (Hpl f F ins HF) as Hx. pose proof (sound_apply _ S f F ins) as Ha. unfold harmless. destruct (apply F ins); [done| |done]. by apply Ha.
  - split; [done|]. by intros q ->%list_elem_of_singleton.
  - by destruct Hp.
  - split; [done|]. intros q ->%list_elem_of_singleton. destruct Hp' as [[-> _]|[->|[e ->]]]; [done| |done]. exists f, F. split_and!; [done..|].
    transitivity (length valid); [|by eapply validate_outputs_length]. eapply (post_hooks_length F valid ins outs); [|done]. intros hook o i o'. by eapply (Hh f F).
  - split; [by apply (task_safe_same fs G)|]. intros q ->%list_elem_of_singleton. destruct Hp as (f & F & Hf & HF & Hl). exists f, F. split_and!; [done..|].
    intros [i v] Hiv. apply list_elem_of_lookup in Hiv as [j Hj]. rewrite list_lookup_imap in Hj. destruct (outs !! j) as [o|] eqn:Ho; [|done].
    injection Hj as <- _. cbn. rewrite <- Hl. by eapply lookup_lt_Some.
  - split; [by apply (task_safe_same fs G)|]. by intros q ->%list_elem_of_singleton.
  - destruct (delivered_safe _ _ _ _ _ _ _ _ S J Hdel) as [J' Hnew]. split; [done|]. intros q [->|Hq]%elem_of_cons; [|by apply Hnew].
    destruct Hp as (f' & F & Hf' & HF & Ho). exists f', F. split_and!; [done..|]. intros o Hin. apply Ho. by right.
  - split; [|by intros q ->%list_elem_of_singleton]. split; [|apply J]. intros n b Hn. cbn in Hn. destruct (Hnr n b Hn) as [Hn'|[[N HN] Hl]]; [by apply (ts_buffers _ _ J)|].
    exists N. split; [done|]. unfold variable, InputBuffer in *. rewrite Hl. by apply default_buffer_length.
  - split; [destruct (has_error G); [done|by apply (task_safe_same fs G)]|]. by intros q ->%list_elem_of_singleton.
  - split; [done|]. by intros q ->%list_elem_of_singleton.
  - split; [by apply (task_safe_same fs G)|]. destruct Hnew as [->|[-> _]]; [by intros q ?%elem_of_nil|]. by intros q ->%list_elem_of_singleton.
  - split; [done|]. by intros q ?%elem_of_nil.
  - split; [by apply (task_safe_same fs G)|]. by intros q ->%list_elem_of_singleton.
Qed.

(** ** Every step keeps that *)
Lemma validate_grads_sound fs edges ins grads e n : length ins = length edges → validate_grads fs edges ins = Ok grads → e ∈ edges → function e = Some n →
  ∃ N, fs !! n = Some N ∧ input_nr e < num_inputs N.
Proof.
  revert ins grads. induction edges as [|e' edges IH]; intros [|v ins] grads Hl H He Hn; try done; [by apply elem_of_nil in He|].
  cbn in H. apply outcome_bind_Ok in H as (g & Hg & H). apply outcome_bind_Ok in H as (gs & Hgs & _).
  apply elem_of_cons in He as [->|He]; [|eapply IH; [by injection Hl|done..]]. unfold validate_grad in Hg. rewrite Hn in Hg.
  apply outcome_bind_Ok in Hg as (N & HN & Hg). destruct (fs !! n) as [N'|]; [|done]. injection HN as ->.
  apply outcome_bind_Ok in Hg as (m & Hm%index_Ok & _). exists N. split; [done|]. by eapply lookup_lt_Some.
Qed.
Lemma root_sound fs number roots ins grads : sound fs → validate_outputs fs roots ins = Ok grads →
  sound (<[fresh (dom fs) := GraphRoot number roots grads]> fs).
Proof.
  intros S Hv. assert (Hold : ∀ f F, <[fresh (dom fs) := GraphRoot number roots grads]> fs !! f = Some F → F = GraphRoot number roots grads ∨ fs !! f = Some F).
  { intros f F. rewrite lookup_insert_Some. intros [[_ <-]|[_ HF]]; [by left|by right]. }
  assert (Hsub : ∀ n (N : Function), fs !! n = Some N → <[fresh (dom fs) := GraphRoot number roots grads]> fs !! n = Some N).
  { intros n N HN. eapply lookup_weaken; [exact HN|apply root_sub]. }
  split.
  - intros f F e n HF He Hn. assert (∃ N, fs !! n = Some N ∧ input_nr e < num_inputs N) as (N & HN & Hl).
    { destruct (Hold f F HF) as [->|HF']; [|by eapply (sound_edges _ S)]. unfold validate_outputs in Hv. apply AT_CHECK_bind_Ok in Hv as [Hl%Nat.eqb_eq Hv].
      by eapply validate_grads_sound. }
    exists N. split; [by apply Hsub|done].
  - intros f F hook ins' HF Hk. destruct (Hold f F HF) as [->|HF']; [by apply elem_of_nil in Hk|by eapply (sound_pre _ S)].
  - intros f F hook outs ins' HF Hk. destruct (Hold f F HF) as [->|HF']; [by apply elem_of_nil in Hk|by eapply (sound_post _ S)].
  - intros f F ins' e HF Ha. destruct (Hold f F HF) as [->|HF']; [done|by eapply (sound_apply _ S)].
Qed.
Lemma sound_closed fs : sound fs → closed fs.
Proof.
  intros S h n (i & p & (F & e & HF & He & Hn & _)%target_Some). destruct (sound_edges _ S h F e n HF) as (N & HN & _); [by eapply list_elem_of_lookup_2|done|by eexists].
Qed.

(** The root and its task. *)
Lemma setup_safe number roots ins keep create outputs s s0 s' : safe_inv s → sets_up number roots ins keep create outputs s s0 →
  functions s' = functions s0 → items s' ≡ₚ items s0 → graph_tasks s' = graph_tasks s0 → safe_inv s'.
Proof.
  intros J (grads & deps & info & q & Hv & Hf & Hd & Hi & Hn & Hgt & Hq & Hrq & Hth & _) Ef Ei Eg.
  set (root := fresh (dom (functions s))) in *. set (g := next_task s) in *.
  assert (Hsub : functions s ⊆ functions s') by (rewrite Ef, Hf; apply root_sub).
  assert (Hits : items s' ≡ₚ Popped (mkTask g (Some root) []) :: items s) by (rewrite Ei; unfold items; rewrite Hrq, Hth; by apply items_push).
  assert (Hroot : functions s' !! root = Some (GraphRoot number roots grads)) by (rewrite Ef, Hf; apply lookup_insert_eq).
  split.
  - rewrite Ef, Hf. by eapply root_sound; [apply J|].
  - intros p. rewrite Hits, elem_of_cons. intros [->|Hp]; [|eapply item_ok_mono; [exact Hsub|by apply (s_items _ J)]].
    intros f [= <-]. eexists. split; [exact Hroot|done].
  - intros p g'. rewrite Hits, elem_of_cons. rewrite Eg, Hgt. intros [->|Hp] Hc Hb.
    + injection Hb as <-. rewrite lookup_insert_eq. by eexists.
    + rewrite lookup_insert. case_decide; [by eexists|]. by apply (s_alive _ J p).
  - intros g' G'. rewrite Eg, Hgt, lookup_insert. case_decide as Hg'; [|intros HG'; eapply task_safe_mono; [exact Hsub|by apply (s_tasks _ J g')]].
    intros [= <-]. split; cbn; [by intros|]. intros f c Hc. rewrite length_replicate. destruct outputs as [|o outputs]; [injection Hi as <-; by apply elem_of_nil in Hc|].
    assert (Hrt : ∀ h, ¬ linked (functions s0) h root) by (intros h; rewrite Hf; eapply root_unlinked; [by apply sound_closed, J|done]).
    apply init_to_execute_keeps in Hi as [_ Hcap]; [|done|].
    + unfold captures_at in Hc. rewrite Hcap in Hc. assert (c ∈ captures_for (o :: outputs) 0 (Some f)) as Hc' by (by destruct (captures_for (o :: outputs) 0 (Some f))).
      apply elem_of_captures_for in Hc' as (i & e & He & _ & ->). cbn [snd]. apply lookup_lt_Some in He. by rewrite Nat.add_0_l.
    + intros Hin. apply (Hrt root). eapply (linked_targets _ _ (GraphRoot number roots grads)); [rewrite Hf; apply lookup_insert_eq|done].
Qed.

(** Graph tasks go only when no item of theirs is counted. *)
Lemma wait_kept u g s s' g' : wait u g s = (Ok tt, s') → is_Some (graph_tasks s !! g') →
  is_Some (graph_tasks s' !! g') ∨ ((∃ G, graph_tasks s !! g' = Some G ∧ outstanding_tasks G = 0%Z) ∧ items s' = items s).
Proof.
  unfold wait. intros H [G' HG']. apply SE_bind_Ok in H as (G & s1 & [HG ->]%deref_task_Ok & H). destruct (Z.eqb_spec (outstanding_tasks G) 0).
  - apply SE_bind_Ok in H as (r & s1 & (G0 & HG0 & Hr & ->)%execute_return_Ok & H). run. destruct (decide (g' = g)) as [->|Hne]; [right; eauto|left].
    rewrite lookup_delete_ne by done. by eexists.
  - run. left. rewrite lookup_insert. case_decide; by eexists.
Qed.
Lemma step_kept l s s' g : live_inv s → small s → ready_queues s ≠ [] → steps_to l s s' → is_Some (graph_tasks s !! g) →
  is_Some (graph_tasks s' !! g) ∨ ((∃ G, graph_tasks s !! g = Some G ∧ outstanding_tasks G = 0%Z) ∧ items s' = items s).
Proof.
  intros I Hsm Hq (m & H & E) Hg. destruct l as [w pick number|u number roots ins keep create outputs|u|u|u]; cbn in H.
  - destruct (thread_step_effect _ _ _ _ _ _ I Hsm H E) as (p & p' & c & c' & He). left. by apply (f_kept _ _ _ _ _ _ _ He).
  - destruct (callers s !! u); [done|]. injection H as <-. unfold call in E. apply SE_bind_Ok in E as (r & s1 & Hr%try_Ok & E). left. destruct r as [g1|e].
    + apply execute_setup_Ok in Hr as [-> (grads & deps & info & q & _ & _ & _ & _ & _ & Hgt & _)]. run. rewrite Hgt, lookup_insert. case_decide; [by eexists|done].
    + destruct Hr as [Hr He]. apply execute_setup_Throw in Hr as [Hr| ->]; [congruence| |done]. by run.
  - destruct (callers s !! u) as [[g1 []]|]; try done. injection H as <-. by eapply wait_kept.
  - destruct (callers s !! u) as [[g1 []]|]; try done. destruct (is_locked s g1); [done|]. injection H as <-. by eapply wait_kept.
  - destruct (callers s !! u) as [[g1 []]|]; try done. injection H as <-. run. by left.
Qed.

Lemma no_counted Ks s g G p : engine_inv Ks s → graph_tasks s !! g = Some G → outstanding_tasks G = 0%Z → p ∈ items s → item_base p = Some g → counted p = false.
Proof.
  intros J HG Hz Hp Hb. destruct (e_inv _ _ J g G HG) as (_ & _ & B & _). pose proof (b_outstanding _ _ _ _ _ B) as Hc. rewrite Hz in Hc.
  assert (p ∈ items_of g s) as Hin.
  { unfold items_of. apply list_elem_of_In, filter_In. split; [by apply list_elem_of_In|]. by apply bool_decide_eq_true_2. }
  apply elem_of_Permutation in Hin as [rest Hr]. rewrite (count_if_perm _ _ _ Hr), count_if_cons in Hc. destruct (counted p); [lia|done].
Qed.

Lemma step_safe Ks l s s' : engine_inv Ks s → live_inv s → safe_inv s → steps_to l s s' → safe_inv s'.
Proof.
  intros J I V Hs. pose proof (engine_small _ _ J) as Hsm. pose proof (e_queues _ _ J) as Hq.
  assert (Hkept : ∀ g, is_Some (graph_tasks s !! g) → is_Some (graph_tasks s' !! g) ∨ ((∃ G, graph_tasks s !! g = Some G ∧ outstanding_tasks G = 0%Z) ∧ items s' = items s)).
  { intros g. by apply (step_kept l). }
  assert (Hold : ∀ p g, p ∈ items s → counted p = true → item_base p = Some g → is_Some (graph_tasks s' !! g)).
  { intros p g Hp Hc Hb. destruct (Hkept g (s_alive _ V p g Hp Hc Hb)) as [|((G & HG & Hz) & _)]; [done|]. by rewrite (no_counted Ks s g G p J HG Hz Hp Hb) in Hc. }
  destruct (step_advance l s s' Hq Hs) as [pre Ef En Eq Ei Eg|g p ps rest pre evs Ef En Eq Ei Ei' Hp Hx Hps Eg|number roots ins keep create outputs s0 Hu Ef En Eq Ei Eg].
  - split; rewrite ?Ef; [apply V| | |].
    + intros p. rewrite Ei. apply V.
    + intros p g. rewrite Ei. apply Hold.
    + intros g G' HG'. destruct (Eg g G' HG') as (G & HG & Hqt). by eapply task_safe_quiet, (s_tasks _ V g).
  - assert (Hin : p ∈ items s) by (rewrite Ei; by left). assert (Hrest : ∀ q, q ∈ rest → q ∈ items s) by (intros q Hq'; rewrite Ei; by right).
    assert (Hg : is_Some (graph_tasks s' !! g) ∨ items s' = items s).
    { assert (is_Some (graph_tasks s !! g)) as Hg by (destruct Hx as [Hc|]; [by apply (s_alive _ V p)|done]). destruct (Hkept g Hg) as [|[_ E]]; [by left|by right]. }
    destruct Hg as [[G' HG']|Esame].
    + destruct (Eg g G' HG') as (G & HG & Ht). rewrite decide_True in Ht by done.
      destruct (turn_safe (functions s) G p G' ps evs) as [J1 J2]; [apply V|apply I|apply I|by apply (s_tasks _ V g)|by apply (s_items _ V)|done|]. split; rewrite ?Ef; [apply V| | |].
      * intros q. rewrite Ei', elem_of_app. intros [Hq'|Hq']; [by apply J2|apply (s_items _ V); by apply Hrest].
      * intros q g'. rewrite Ei', elem_of_app. intros [Hq'|Hq'] Hc Hb; [rewrite (Hps q Hq') in Hb; injection Hb as <-; by eexists|]. apply (Hold q); [by apply Hrest|done..].
      * intros g' G1 HG1. destruct (decide (g' = g)) as [->|Hne]; [rewrite HG' in HG1; by injection HG1 as <-|]. destruct (Eg g' G1 HG1) as (G0 & HG0 & Ht').
        rewrite decide_False in Ht' by done. by eapply task_safe_quiet, (s_tasks _ V g').
    + split; rewrite ?Ef; [apply V| | |].
      * intros q. rewrite Esame. apply V.
      * intros q g'. rewrite Esame. apply Hold.
      * intros g' G1 HG1. destruct (Eg g' G1 HG1) as (G0 & HG0 & Ht'). case_decide as Hg'; [subst g'|by eapply task_safe_quiet, (s_tasks _ V g')].
        eapply (turn_safe (functions s) G0 p G1 ps evs); [apply V|apply I|apply I|by apply (s_tasks _ V g)|by apply (s_items _ V)|done].
  - by eapply setup_safe.
Qed.

Lemma start_safe fs d : sound fs → safe_inv (start_threads fs d).
Proof.
  intros S. assert (Hi : items (start_threads fs d) = []).
  { unfold items, items_in, start_threads. cbn. assert (∀ k, concat (replicate k []) = @nil (FunctionTask (T:=T))) as -> by (induction k; done).
    cbn. induction d; done. }
  split; try done; [intros p|intros p g]; rewrite Hi; by intros ?%elem_of_nil.
Qed.
Lemma reachable_safe fs d s : sound fs → plain fs → hooks_keep_length fs → reachable fs d s → (Z.of_nat (total_edges (functions s)) < 2 ^ 31)%Z → safe_inv s.
Proof.
  intros S Hp Hh. induction 1 as [|l s1 s2 Hr IH Hs]; intros Hb; [by apply start_safe|].
  assert (Hb1 : (Z.of_nat (total_edges (functions s1)) < 2 ^ 31)%Z).
  { eapply bound_before; [|exact Hb]. eapply advance_functions, step_advance; [by eapply reachable_queues|done]. }
  destruct (reachable_engine_inv fs d s1 (sound_closed _ S) Hr Hb1) as [Ks J]. eapply (step_safe Ks l s1); [done| |by apply IH|done].
  eapply reachable_live; [by apply sound_closed|done..].
Qed.

(** ** Computations that throw nothing, or only exceptions *)
Definition throws {A} (Q : exn → Prop) (m : M (T:=T) A) s : Prop := ∀ e s', m s = (Throw e, s') → Q e.
#[local] Abbreviation never := (throws (λ _, False)).
#[local] Abbreviation tamely := (throws (λ e, fatal e = false)).

Lemma throws_bind {A B} Q (m : M A) (k : A → M B) s : throws Q m s → (∀ a s1, m s = (Ok a, s1) → throws Q (k a) s1) → throws Q (m ≫= k) s.
Proof. intros Hm Hk e s' [H|(a & s1 & H1 & H2)]%SE_bind_Throw; [by eapply Hm|by eapply Hk]. Qed.
Lemma throws_ret {A} Q (a : A) s : throws Q (mret a) s.
Proof. by intros e s' [=]. Qed.
Lemma throws_modify Q k s : throws Q (modify k) s.
Proof. by intros e s' [=]. Qed.
Lemma throws_lift {A} (Q : exn → Prop) (o : outcome A) s : (∀ e, o = Throw e → Q e) → throws Q (lift o) s.
Proof. intros H e s' [= E _]. by apply H. Qed.
Lemma throws_deref_task Q g s : is_Some (graph_tasks s !! g) → throws Q (deref_task g) s.
Proof. intros [G HG] e s'. unfold deref_task. by rewrite HG. Qed.
Lemma throws_deref_function Q f s : is_Some (functions s !! f) → throws Q (deref_function f) s.
Proof. intros [F HF] e s'. unfold deref_function. by rewrite HF. Qed.
Lemma throws_update_task Q g k s : is_Some (graph_tasks s !! g) → throws Q (update_task g k) s.
Proof. intros HG. apply throws_bind; [by apply throws_deref_task|]. intros; apply throws_modify. Qed.
Lemma throws_try {A} Q (m : M A) s : tamely m s → throws Q (try_ m) s.
Proof. intros H e s'. unfold try_. destruct (m s) as [[a|e'] s1] eqn:E; [done|]. by rewrite (H e' s1 E). Qed.
Lemma tame_bind {A B} (o : outcome A) (k : A → outcome B) : tame o → (∀ a, o = Ok a → tame (k a)) → tame (o ≫= k).
Proof. destruct o as [a|e]; cbn; [intros _ H; by apply H|intros H _ e' [= <-]; by apply H]. Qed.
Lemma never_returns (m : M unit) s : never m s → ∃ s', m s = (Ok tt, s').
Proof. intros H. destruct (m s) as [[[]|e] s'] eqn:E; [eauto|]. by destruct (H e s' E). Qed.
#[local] Hint Resolve throws_ret throws_modify throws_deref_task throws_deref_function throws_update_task : core.

Lemma tame_index {A} (l : list A) i : i < length l → tame (index l i).
Proof. intros [x Hx]%lookup_lt_is_Some e. unfold index. by rewrite Hx. Qed.
Lemma tame_hooks (F : Function (T:=T)) ins : (∀ hook i, hook ∈ pre_hooks F → tame (hook i)) → tame (call_pre_hooks F ins).
Proof.
  unfold call_pre_hooks. generalize (pre_hooks F) as hooks. intros hooks H. assert (tame (Ok ins)) as H0 by done. revert H0. generalize (Ok ins) as r.
  induction hooks as [|hook hooks IH]; intros r Hr; cbn; [done|]. apply IH; [intros h' i Hin; apply H; by right|]. apply tame_bind; [done|]. intros i _. apply H. by left.
Qed.
Lemma tame_post_hooks (F : Function (T:=T)) outs ins : (∀ hook o, hook ∈ post_hooks F → tame (hook o ins)) → tame (call_post_hooks F outs ins).
Proof.
  unfold call_post_hooks. generalize (post_hooks F) as hooks. intros hooks H. assert (tame (Ok outs)) as H0 by done. revert H0. generalize (Ok outs) as r.
  induction hooks as [|hook hooks IH]; intros r Hr; cbn; [done|]. apply IH; [intros h' i Hin; apply H; by right|]. apply tame_bind; [done|]. intros i _. apply H. by left.
Qed.

Section tensors.
Context (HT : tame_tensors T).

Lemma tame_accumulate (x y : T) : tame (accumulate x y).
Proof. unfold accumulate. destruct HT. repeat case_match; auto. Qed.
Lemma tame_buffer_add i v (b : InputBuffer (T:=T)) : tame (buffer_add i v b).
Proof.
  unfold buffer_add. apply tame_bind; [unfold AT_ASSERT, AT_CHECK; destruct (i <? length b); [done|by intros e [= <-]]|]. intros _ _.
  destruct v as [v|]; [|done]. destruct (b !! i) as [[old|]|]; try done. apply tame_bind; [apply tame_accumulate|done].
Qed.
Lemma tame_compatible x y : tame (is_compatible_type x y).
Proof.
  unfold is_compatible_type, or_else, and_then. destruct (bool_decide (x = y)); [done|]. cbn. destruct (bool_decide (Layout.layout_from_backend _ = _)); [|done]. cbn.
  apply tame_bind; [|done]. intros e. by destruct (backend_ y); intros [= <-].
Qed.
Lemma tame_check b what : tame (AT_CHECK (M:=outcome) b what).
Proof. intros e. unfold AT_CHECK. destruct b; [done|]. by intros [= <-]. Qed.
Lemma tame_validate_grad fs e v : (∀ n, function e = Some n → ∃ N, fs !! n = Some N ∧ input_nr e < num_inputs N) → tame (validate_grad fs e v).
Proof.
  intros He. unfold validate_grad. destruct (function e) as [n|]; [|done]. destruct (He n eq_refl) as (N & HN & Hi). rewrite HN. cbn [mbind outcome_bind].
  apply tame_bind; [by apply tame_index|]. intros m _. destruct v as [x|]; [|done]. apply tame_bind.
  - case_decide; [done|]. destruct (is_expandable_to_spec (shape_ m) (sizes x)) as (b & -> & _). cbn. destruct b; [by apply tame_sum_to|by intros e' [= <-]].
  - intros x' _. apply tame_bind; [destruct (type_ m); [done|by intros e' [= <-]]|]. intros t _. apply tame_bind; [apply tame_compatible|]. intros c _.
    apply tame_bind; [apply tame_check|]. intros _ _. apply tame_bind; [apply tame_check|done].
Qed.
Lemma tame_validate fs edges ins : (∀ e n, e ∈ edges → function e = Some n → ∃ N, fs !! n = Some N ∧ input_nr e < num_inputs N) → tame (validate_outputs fs edges ins).
Proof.
  intros He. unfold validate_outputs. apply tame_bind; [apply tame_check|]. intros _ _. revert ins.
  induction edges as [|e edges IH]; intros [|v ins]; cbn; try done. apply tame_bind; [apply tame_validate_grad; intros n; apply He; by left|]. intros x _.
  apply tame_bind; [|done]. apply IH. intros e' n Hin. apply He. by right.
Qed.

(** *** The parts of [evaluate_function] *)
Lemma tame_captures g cs (b : InputBuffer) s G : graph_tasks s !! g = Some G →
  (∀ c, c ∈ cs → c.1 < length b ∧ c.2 < length (captured_vars G)) → tamely (foreach cs (capture_one g b)) s.
Proof.
  revert s G. induction cs as [|c cs IH]; intros s G HG Hc; cbn [foreach]; [apply throws_ret|]. destruct (Hc c) as [H1 H2]; [by left|]. apply throws_bind.
  - unfold capture_one. apply throws_bind; [by apply throws_lift, tame_index|]. intros v s1 [_ ->]%lift_Ok. apply throws_bind; [eauto|].
    intros G1 s1 [HG1 ->]%deref_task_Ok. assert (G1 = G) as -> by congruence. apply throws_bind; [by apply throws_lift, tame_index|]. intros old s1 [_ ->]%lift_Ok. eauto.
  - intros [] s1 H. unfold capture_one in H. run. simplify_eq. eapply IH; [cbn; apply lookup_insert_eq|]. intros c' Hc'. cbn. rewrite length_insert. apply Hc. by right.
Qed.
Lemma tame_instrument t f s G : graph_tasks s !! base t = Some G →
  (∀ c, c ∈ captures_at (exec_info G) f → c.1 < length (inputs t) ∧ c.2 < length (captured_vars G)) → tamely (instrument t f) s.
Proof.
  intros HG Hc. unfold instrument. apply throws_bind; [eauto|]. intros G1 s1 [HG1 ->]%deref_task_Ok. assert (G1 = G) as -> by congruence.
  case_decide; [apply throws_ret|]. apply throws_bind; [destruct (exec_info G !! Some f); [apply throws_ret|by intros e s' [= <- _]]|].
  intros i s1 Hi. destruct (exec_info G !! Some f) as [i0|] eqn:Ei; [|done]. injection Hi as -> ->. apply throws_bind; [|intros; apply throws_ret].
  eapply tame_captures; [exact HG|]. intros c Hin. apply Hc. unfold captures_at. by rewrite (info_of_Some _ _ _ Ei).
Qed.
Lemma tame_ready_queue Q d s : (∀ q, q = StdOutOfRange "vector::at" → Q q) → throws Q (ready_queue d) s.
Proof.
  intros HQ. assert (∀ z, throws Q (ready_queue_by_index z) s) as H; [|unfold ready_queue; case_decide; apply H].
  intros z. unfold ready_queue_by_index. apply throws_bind; [by intros e s' [=]|]. intros s0 s1 [-> ->]%get_Ok. destruct (_ && _); [apply throws_ret|]. intros e s' [= <- _]. by apply HQ.
Qed.
Lemma throws_push Q q t s : is_Some (graph_tasks s !! base t) → throws Q (push q t) s.
Proof. intros HG e s' H. by apply push_Throw in H. Qed.
Lemma tame_deliver g f i v s (F : Function) : sound (functions s) → functions s !! f = Some F → i < length (next_edges F) → is_Some (graph_tasks s !! g) → tamely (deliver g f i v) s.
Proof.
  intros S HF Hi [G HG]. unfold deliver. apply throws_bind; [eauto|]. intros F1 s1 [HF1 ->]%deref_function_Ok. assert (F1 = F) as -> by congruence.
  apply throws_bind; [by apply throws_lift, tame_index|]. intros e s1 [He%index_Ok ->]%lift_Ok. destruct (function e) as [n|] eqn:Hn; [|apply throws_ret].
  destruct (sound_edges _ S f F e n HF) as (N & HN & _); [by eapply list_elem_of_lookup_2|done|].
  apply throws_bind; [eauto|]. intros N1 s1 [HN1 ->]%deref_function_Ok. apply throws_bind; [eauto|]. intros G1 s1 [HG1 ->]%deref_task_Ok. assert (G1 = G) as -> by congruence.
  apply throws_bind; [destruct (dependencies G !! n); [apply throws_ret|by intros e' s' [= <- _]]|]. intros d s1 Hd.
  assert (s1 = s) as -> by (destruct (dependencies G !! n); [by apply ret_Ok in Hd as [_ ->]|done]). clear Hd.
  apply throws_bind; [eauto|]. intros u s1 (G2 & HG2 & ->)%update_task_Ok. set (s2 := with_graph_tasks _ s).
  assert (H2 : is_Some (graph_tasks s2 !! g)) by (unfold s2; cbn; rewrite lookup_insert_eq; by eexists). clearbody s2.
  assert (Hup : ∀ (k : GraphTask → GraphTask) s3 u s4, update_task g k s3 = (Ok u, s4) → is_Some (graph_tasks s4 !! g)).
  { intros k s3 u' s4 (G3 & HG3 & ->)%update_task_Ok. cbn. rewrite lookup_insert_eq. by eexists. }
  assert (Hpush : ∀ b s3, is_Some (graph_tasks s3 !! g) → ∀ q u s4, push q (mkTask g (Some n) b) s3 = (Ok u, s4) → is_Some (graph_tasks s4 !! g)).
  { intros b s3 _ q u' s4 (G3 & HG3 & ->)%push_Ok. cbn. rewrite lookup_insert_eq. by eexists. }
  destruct (not_ready G !! n) as [b0|].
  - apply throws_bind; [apply throws_lift, tame_buffer_add|]. intros b s3 [_ ->]%lift_Ok. apply throws_bind; [eauto|]. intros u' s3 H3%Hup.
    destruct (_ =? _)%Z; [|apply throws_ret]. apply throws_bind; [apply tame_ready_queue; by intros q ->|]. intros q s4 [_ ->]%ready_queue_Ok.
    apply throws_bind; [by apply throws_push|]. intros u2 s4 H4%Hpush; [eauto|done].
  - destruct (_ || _); [|apply throws_ret]. apply throws_bind; [apply throws_lift, tame_buffer_add|]. intros b s3 [_ ->]%lift_Ok.
    destruct (_ =? _)%Z; [|eauto]. apply throws_bind; [apply tame_ready_queue; by intros q ->|]. intros q s4 [_ ->]%ready_queue_Ok. by apply throws_push.
Qed.

(** ** The steps of the workers return *)

(** The captures name inputs that the functions have. *)
Definition captures_fit s : Prop := ∀ g G f F c,
  graph_tasks s !! g = Some G → functions s !! f = Some F → c ∈ captures_at (exec_info G) f → c.1 < num_inputs F.
(** No worker is about to notify the condition variable of a graph task that is gone. *)
Definition no_late_notice s : Prop := ∀ w t o c, at_phase s w (Notifying t o) c → is_Some (graph_tasks s !! base t).

Lemma phase_item s w p c : at_phase s w p c → busy p = true → p ∈ items s.
Proof.
  intros Hw Hb. unfold items. destruct (items_thread (ready_queues s) (threads s) w _ (mkThread [] c) Hw) as [E _]. rewrite E.
  unfold busy_in. cbn. rewrite Hb. by left.
Qed.

Section worker.
Context (s : State (T:=T)) (w : nat) (c : bool).
Context (I : live_inv s) (V : safe_inv s).

Lemma task_alive t p : at_phase s w p c → counted p = true → phase_task p = Some t → is_Some (graph_tasks s !! base t).
Proof.
  intros Hw Hc Ht. apply (s_alive _ V p); [eapply phase_item; [exact Hw|unfold busy; by rewrite Ht]|done|unfold item_base; by rewrite Ht].
Qed.
Lemma evaluate_never t : captures_fit s → at_phase s w (Evaluating t) c → never (evaluate w c None [] t) s.
Proof.
  intros Hfit Hw. destruct (task_alive t _ Hw eq_refl eq_refl) as [G HG].
  destruct (s_items _ V (Evaluating t)) as (f & F & Hf & HF & Hl); [by eapply phase_item|].
  unfold evaluate. apply throws_bind; [apply throws_lift; by rewrite Hf|]. intros f1 s1 [Hf1%non_null_Ok ->]%lift_Ok. assert (f1 = f) as -> by congruence.
  apply throws_bind.
  { apply throws_try. eapply tame_instrument; [exact HG|]. intros cp Hcp. rewrite Hl. split; [by apply (Hfit (base t) G f)|]. by eapply (ts_places _ _ (s_tasks _ V _ _ HG)). }
  intros r s1 Hr%try_Ok. destruct r as [[]|e]; try apply throws_modify.
  destruct (instrument_Ok _ _ _ _ _ Hr) as (G0 & vars & HG0 & _ & _ & ->).
  apply throws_bind; [apply throws_deref_task; cbn; rewrite lookup_insert_eq; by eexists|]. intros G1 s1 [_ ->]%deref_task_Ok.
  apply throws_bind; [apply throws_deref_function; by eexists|]. intros F1 s1 [HF1 ->]%deref_function_Ok. cbn in HF1. assert (F1 = F) as -> by congruence.
  apply throws_bind; [apply throws_try, throws_lift, tame_hooks; intros hook i; by apply (sound_pre _ (s_sound _ V) f)|]. intros i s1 _.
  destruct i as [ins|e]; [|apply throws_modify]. apply throws_bind; [destruct (keep_graph G1); [apply throws_ret|apply throws_modify]|]. intros _ s2 _.
  apply throws_bind; [apply throws_modify|]. intros; apply throws_modify.
Qed.
Lemma calling_never number t prev ins comp : at_phase s w (Calling t prev ins comp) c → never (calling w c None [] number t prev ins comp) s.
Proof.
  intros Hw. destruct (task_alive t _ Hw eq_refl eq_refl) as [G HG].
  destruct (s_items _ V (Calling t prev ins comp)) as ((f & F & Hf & HF) & Hh); [by eapply phase_item|].
  unfold calling. apply throws_bind; [apply throws_lift; by rewrite Hf|]. intros f1 s1 [Hf1%non_null_Ok ->]%lift_Ok. assert (f1 = f) as -> by congruence.
  destruct comp as [raw|e|]; [|cbn in Hh; rewrite Hh; apply throws_modify|done].
  apply throws_bind; [eauto|]. intros F1 s1 [HF1 ->]%deref_function_Ok. assert (F1 = F) as -> by congruence.
  apply throws_bind; [eauto|]. intros G1 s1 [_ ->]%deref_task_Ok. apply throws_bind; [by intros e s1 [=]|]. intros s0 s1 [-> ->]%get_Ok.
  apply throws_bind; [apply throws_try, throws_lift, tame_validate; intros e n Hin; by apply (sound_edges _ (s_sound _ V) f F)|]. intros v s1 _.
  destruct v as [valid|e]; [|apply throws_modify].
  apply throws_bind; [apply throws_try, throws_lift, tame_post_hooks; intros hook o; by apply (sound_post _ (s_sound _ V) f)|]. intros h s2 _.
  destruct h as [outs|e]; [|apply throws_modify]. apply throws_bind; [apply throws_modify|]. intros _ s3 _.
  apply throws_bind; [destruct (keep_graph G1); [apply throws_ret|apply throws_modify]|]. intros _ s4 _.
  case_decide; [apply throws_modify|]. destruct (_ && _); apply throws_modify.
Qed.
Lemma delivering_never t (outs : list (nat * variable (T:=T))) : at_phase s w (Delivering t outs) c → never (delivering w c None [] t outs) s.
Proof.
  intros Hw. pose proof (task_alive t _ Hw eq_refl eq_refl) as HG.
  destruct (s_items _ V (Delivering t outs)) as (f & F & Hf & HF & Ho); [by eapply phase_item|].
  unfold delivering. destruct outs as [|[i v] outs]; [apply throws_bind; [eauto|]; intros; apply throws_modify|].
  apply throws_bind; [apply throws_lift; by rewrite Hf|]. intros f1 s1 [Hf1%non_null_Ok ->]%lift_Ok. assert (f1 = f) as -> by congruence.
  pose proof (tame_deliver (base t) f i v s F (s_sound _ V) HF (Ho (i, v) ltac:(by left)) HG) as Htame.
  apply throws_bind; [by apply throws_try|]. intros r s1 Hr%try_Ok. destruct r as [[]|e]; [apply throws_modify|]. destruct Hr as [Hr He].
  apply deliver_Throw in Hr as [Hr|(G & deps & nr & _ & _ & _ & ->)]; [congruence|].
  apply throws_bind; [apply throws_update_task; cbn; rewrite lookup_insert_eq; by eexists|]. intros; apply throws_modify.
Qed.
Lemma failing_never t e : at_phase s w (Failing t e) c → never (failing w c None [] t e) s.
Proof.
  intros Hw. pose proof (task_alive t _ Hw eq_refl eq_refl) as HG. unfold failing. apply throws_bind; [eauto|]. intros G s1 [_ ->]%deref_task_Ok.
  apply throws_bind; [destruct (has_error G); eauto|]. intros; apply throws_modify.
Qed.

Lemma worker_returns p pick number (m : M unit) : captures_fit s → no_late_notice s → at_phase s w p c → thread_step w pick number s = Some m → ∃ s', m s = (Ok tt, s').
Proof.
  intros Hfit Hlate Hw H. apply never_returns. destruct (l_threads _ I w _ Hw) as (p0 & c0 & [= <- <-] & Hp). unfold thread_step in H. rewrite Hw in H.
  cbn [mbind option_bind frames checkpoint_valid] in H. pose proof (λ t, task_alive t p Hw) as Ha.
  destruct p as [| | |t|t|t prev ins comp|t outs|t rest|t e|t|t o|t o]; try done; try (destruct (_ && _); [done|]); try (destruct (is_locked _ _); [done|]).
  - injection H as <-. apply throws_modify.
  - apply bind_Some in H as (heap & Hh & H). apply bind_Some in H as (t & Ht & [= <-]). apply throws_bind; [apply throws_modify|]. intros; apply throws_modify.
  - injection H as <-. unfold popped. destruct (fn t); [|apply throws_modify]. apply throws_bind; [eauto|]. intros; apply throws_modify.
  - injection H as <-. by apply evaluate_never.
  - injection H as <-. by apply calling_never.
  - injection H as <-. apply throws_bind; [eauto|]. intros; apply throws_modify.
  - injection H as <-. by apply delivering_never.
  - injection H as <-. by apply failing_never.
  - injection H as <-. unfold finishing. apply throws_bind; [eauto|]. intros; apply throws_modify.
  - injection H as <-. unfold counting. apply throws_bind; [eauto|]. intros G s1 [_ ->]%deref_task_Ok. apply throws_bind; [eauto|]. intros; apply throws_modify.
  - injection H as <-. unfold notifying. rewrite decide_True by done. apply throws_bind; [|intros; apply throws_modify].
    apply throws_bind; [by eapply throws_deref_task, Hlate|]. intros; apply throws_modify.
Qed.
End worker.

(** ** A waiting caller is not forgotten *)

(** Some worker or some caller has a step, neither a call nor a spurious wake-up, and it returns. *)
Definition progresses s : Prop := ∃ l s', is_call l = false ∧ is_spurious l = false ∧ steps_to l s s'.

Lemma top_exists fs (heap : list FunctionTask) : heap ≠ [] → ∃ pick t, top (T:=T) fs heap pick = Some t.
Proof.
  intros Hne. assert (∃ t, t ∈ heap ∧ ∀ t', t' ∈ heap → CompareFunctionTaskTime fs t t' = false) as (t & Ht & Hmax).
  { induction heap as [|t heap IH]; [done|]. destruct heap as [|t0 heap].
    - exists t. split; [by left|]. intros t' ->%list_elem_of_singleton. unfold CompareFunctionTaskTime. destruct (fn t); [|done]. apply Z.ltb_irrefl.
    - destruct IH as (m & Hm & Hmax); [done|]. destruct (CompareFunctionTaskTime fs m t) eqn:E.
      + exists t. split; [by left|]. intros t' [->|Ht']%elem_of_cons.
        * unfold CompareFunctionTaskTime. destruct (fn t); [|done]. apply Z.ltb_irrefl.
        * specialize (Hmax t' Ht'). unfold CompareFunctionTaskTime in *. destruct (fn m), (fn t), (fn t'); try done.
          apply Z.ltb_lt in E. apply Z.ltb_ge in Hmax. apply Z.ltb_ge. lia.
      + exists m. split; [by right|]. intros t' [->|Ht']%elem_of_cons; [done|by apply Hmax]. }
  apply list_elem_of_lookup in Ht as [pick Ht]. exists pick, t. unfold top. rewrite Ht. cbn.
  assert (forallb (λ t', negb (CompareFunctionTaskTime fs t t')) heap = true) as ->; [|done].
  apply forallb_forall. intros t' Ht'. apply list_elem_of_In in Ht'. by rewrite Hmax.
Qed.

Section progress.
Context (s : State (T:=T)) (I : live_inv s) (V : safe_inv s) (Hfit : captures_fit s) (Hlate : no_late_notice s).

Lemma worker_progress w p c pick : at_phase s w p c → is_Some (thread_step w pick 0 s) → progresses s.
Proof.
  intros Hw [m Hm]. destruct (worker_returns s w c I V p pick 0 m Hfit Hlate Hw Hm) as [s' Hs']. exists (Work w pick 0), s'. do 2 (split; [done|]). by exists m.
Qed.
Lemma wait_returns l u g : is_call l = false → is_spurious l = false → step l s = Some (wait u g) → is_Some (graph_tasks s !! g) → progresses s.
Proof.
  intros Hl Hsp Hst [G HG]. destruct (never_returns (wait u g) s) as [s' Hs']; [|by exists l, s'; do 2 (split; [done|]); exists (wait u g)].
  unfold wait. apply throws_bind; [by apply throws_deref_task|]. intros G1 s1 [_ ->]%deref_task_Ok. destruct (_ =? _)%Z.
  - apply throws_bind; [|intros; apply throws_modify]. unfold execute_return. apply throws_bind; [by apply throws_deref_task|]. intros G2 s1 [_ ->]%deref_task_Ok.
    apply throws_bind; [apply throws_modify|]. intros _ s1 _. apply throws_bind; [apply throws_modify|]. intros; apply throws_ret.
  - apply throws_bind; [by apply throws_update_task|]. intros; apply throws_modify.
Qed.
(** Who has the mutex can go on. *)
Lemma holder_progress g : is_locked s g = true → progresses s.
Proof.
  unfold is_locked. destruct (graph_tasks s !! g) as [G|] eqn:HG; [|done]. intros Hl.
  destruct (l_locked _ I g G HG Hl) as [(w & p & c & Hw & Hh)|[u Hu]].
  - apply (worker_progress w p c 0 Hw). unfold thread_step. rewrite Hw. destruct p; by try eauto.
  - apply (wait_returns (Wait u) u g); [done|done|cbn; by rewrite Hu|by eexists].
Qed.
(** A thread goes on, unless it waits for a task. *)
Lemma thread_progress w p c : at_phase s w p c → (p = InPop → ∃ heap, ready_queues s !! w = Some heap ∧ heap ≠ []) → progresses s.
Proof.
  intros Hw Hq. pose proof (λ pick, worker_progress w p c pick Hw) as Hgo.
  assert (Hlk : ∀ b g (m : M unit), (if is_locked s g then None else Some m) = thread_step w 0 0 s ∧ b = true ∨ (if b && is_locked s g then None else Some m) = thread_step w 0 0 s → progresses s).
  { intros b g m [[E _]|E]; destruct (is_locked s g) eqn:El; try (by eapply holder_progress); apply (Hgo 0); rewrite <- E; [|rewrite andb_false_r]; eauto. }
  destruct (l_threads _ I w _ Hw) as (p0 & c0 & [= <- <-] & Hp).
  destruct p as [| | |t|t|t prev ins comp|t outs|t rest|t e|t|t o|t o]; try done;
    try (apply (Hgo 0); unfold thread_step; rewrite Hw; cbn; by eauto).
  - destruct (Hq eq_refl) as (heap & Hh & Hne). destruct (top_exists (functions s) heap Hne) as (pick & t & Ht).
    apply (Hgo pick). unfold thread_step. rewrite Hw. cbn. rewrite Hh. cbn. rewrite Ht. cbn. eauto.
  - eapply (Hlk (captures_of s t) (base t)). right. unfold thread_step. rewrite Hw. cbn. reflexivity.
  - eapply (Hlk true (base t)). left. unfold thread_step. rewrite Hw. cbn. split; reflexivity.
  - eapply (Hlk true (base t)). left. unfold thread_step. rewrite Hw. cbn. split; reflexivity.
  - eapply (Hlk (bool_decide (o = NO_DEVICE)) (base t)). right. unfold thread_step. rewrite Hw. cbn. reflexivity.
Qed.
Lemma item_progress p : p ∈ items s → progresses s.
Proof.
  intros Hp. unfold items, items_in in Hp. apply elem_of_app in Hp as [Hp|Hp].
  - apply list_elem_of_fmap in Hp as (t & -> & Ht). apply list_elem_of_In, in_concat in Ht as (heap & Hh & Ht). rewrite <- list_elem_of_In in Hh.
    apply list_elem_of_lookup in Hh as [w Hh]. pose proof (lookup_lt_Some _ _ _ Hh) as Hlt. rewrite <- (l_queues _ I) in Hlt.
    apply lookup_lt_is_Some in Hlt as [th Hw]. destruct (l_threads _ I w th Hw) as (p & c & -> & _).
    apply (thread_progress w p c Hw). intros _. exists heap. split; [done|]. by destruct heap.
  - apply list_elem_of_In, in_concat in Hp as (l & Hl & Hp). rewrite <- list_elem_of_In in Hl. rewrite <- list_elem_of_In in Hp.
    apply list_elem_of_fmap in Hl as (fr & -> & Hfr). apply list_elem_of_fmap in Hfr as (th & -> & Hth). apply list_elem_of_lookup in Hth as [w Hw].
    destruct (l_threads _ I w th Hw) as (q & c & -> & _). unfold busy_in in Hp. cbn in Hp.
    destruct (busy q) eqn:Hb; [|by apply elem_of_nil in Hp]. apply list_elem_of_singleton in Hp as ->. apply (thread_progress w q c Hw). by intros ->.
Qed.
Lemma caller_progress Ks u g x : engine_inv Ks s → callers s !! u = Some (g, x) → progresses s.
Proof.
  intros J Hu. destruct (l_callers _ I u g x Hu) as [G HG].
  destruct x; [apply (wait_returns (Wait u) u g); [done|done|cbn; by rewrite Hu|by eexists]| |].
  - destruct (decide (outstanding_tasks G = 0%Z)) as [Hz|Hz].
    + destruct (l_asleep _ I u g G Hu HG Hz) as (w & p & c & Hw & Ht). apply (thread_progress w p c Hw). by intros ->.
    + destruct (e_inv _ _ J g G HG) as (_ & _ & B & _). pose proof (b_outstanding _ _ _ _ _ B) as Ho.
      destruct (items_of g s) as [|p its] eqn:E; [cbn in Ho; lia|]. apply (item_progress p).
      assert (p ∈ items_of g s) as Hp by (rewrite E; by left). unfold items_of in Hp. apply list_elem_of_In, filter_In in Hp as [Hp _]. by apply list_elem_of_In.
  - destruct (is_locked s g) eqn:Hl; [by eapply holder_progress|].
    apply (wait_returns (Wake u) u g); [done|done|cbn; by rewrite Hu, Hl|by eexists].
Qed.
End progress.
End tensors.
End safety.
