(* ===== verification/EngineSample.v ===== *)
(** * Passes that evaluate

    Integers as tensors, even ones on the CPU and odd ones on a device; three functions;
    and a player of labels, so that runs of the engine are computed. *)
From S2P Require Import Prelude CoreTypes Options ScalarTypes Geometry AutogradEngine EngineGraph EngineSpec EngineInvariant EngineSteps EngineResults EngineLive EngineSafety.
Local Open Scope nat_scope.
Local Open Scope list_scope.
#[local] Set Warnings "-clear-no-such-hyp".
Import Engine.

(** ** Checks on the functions *)
Section checks.
Context {T : Type} `{!Tensors T}.
Implicit Types (fs : gmap ptr (Function (T:=T))) (h n : ptr) (s : State (T:=T)).

Definition all_edges fs (q : ptr → ptr → bool) : bool :=
  forallb (λ k, match target fs k with Some t => q k.1 t.1 | None => true end) (edges_from fs (elements (dom fs))).
Lemma all_edges_linked fs q : all_edges fs q = true → ∀ h n, linked fs h n → q h n = true.
Proof.
  unfold all_edges. rewrite forallb_forall. intros H h n (i & j & Ht). specialize (H (h, i)). rewrite Ht in H. apply H, list_elem_of_In, elem_of_edges_from.
  apply target_Some in Ht as (F & e & HF & He & _). split; [apply elem_of_elements, elem_of_dom; eauto|]. exists F. split; [done|]. by eapply lookup_lt_Some.
Qed.
Lemma closed_check fs : all_edges fs (λ _ n, bool_decide (is_Some (fs !! n))) = true → closed fs.
Proof. intros H h n Hl. by apply (all_edges_linked _ _ H), bool_decide_eq_true in Hl. Qed.
Lemma acyclic_check fs rank : all_edges fs (λ h n, rank n <? rank h) = true → acyclic fs.
Proof. intros H. exists rank. intros h n Hl. by apply (all_edges_linked _ _ H), Nat.ltb_lt in Hl. Qed.
Lemma no_hooks fs : (∀ f F, fs !! f = Some F → post_hooks F = []) → hooks_keep_length fs.
Proof. intros H f F hook outs ins outs' HF Hh. rewrite (H f F HF) in Hh. by apply elem_of_nil in Hh. Qed.

(** ** Runs *)
Fixpoint play (ls : list label) s : option State :=
  match ls with
  | [] => Some s
  | l :: ls => m ← step l s; match m s with (Ok _, s') => play ls s' | _ => None end
  end.
Definition plays (ls : list label) s : bool := match play ls s with Some _ => true | None => false end.
Definition after (ls : list label) s : State := default s (play ls s).
Lemma plays_later ls s : plays ls s = true → later s (after ls s).
Proof.
  unfold plays, after. destruct (play ls s) as [s'|] eqn:E; [intros _|done]. cbn.
  assert (∀ s0, later s0 s → later s0 s') as H; [|apply H; constructor]. revert s E. induction ls as [|l ls IH]; intros s E s0 Hl; cbn in E; [by injection E as <-|].
  apply bind_Some in E as (m & Hm & E). destruct (m s) as [[[]|e] s1] eqn:Em; [|done]. apply (IH s1 E). eapply later_step; [exact Hl|]. by exists m.
Qed.
Lemma plays_reachable fs d ls : plays ls (start_threads fs d) = true → reachable fs d (after ls (start_threads fs d)).
Proof. intros H. eapply later_reachable; [constructor|by apply plays_later]. Qed.

Definition captures_fit_check s : bool :=
  forallb (λ gG, forallb (λ fF, forallb (λ c, c.1 <? num_inputs fF.2) (captures_at (exec_info gG.2) fF.1)) (map_to_list (functions s))) (map_to_list (graph_tasks s)).
Lemma captures_fit_true s : captures_fit_check s = true → captures_fit s.
Proof.
  unfold captures_fit_check. rewrite forallb_forall. intros H g G f F c HG HF Hc.
  specialize (H (g, G) (proj1 (list_elem_of_In _ _) (proj2 (elem_of_map_to_list _ _ _) HG))). rewrite forallb_forall in H.
  specialize (H (f, F) (proj1 (list_elem_of_In _ _) (proj2 (elem_of_map_to_list _ _ _) HF))). rewrite forallb_forall in H.
  by apply Nat.ltb_lt, (H c), list_elem_of_In.
Qed.
Definition no_late_check s : bool :=
  forallb (λ th, match frames th with [mkFrame None (Notifying t _)] => bool_decide (is_Some (graph_tasks s !! base t)) | _ => true end) (threads s).
Lemma no_late_true s : no_late_check s = true → no_late_notice s.
Proof.
  unfold no_late_check. rewrite forallb_forall. intros H w t o c Hw. specialize (H _ (proj1 (list_elem_of_In _ _) (list_elem_of_lookup_2 _ _ _ Hw))).
  by apply bool_decide_eq_true in H.
Qed.

(** ** Everybody sleeps *)

(** Some worker or some caller has a step, be it one that goes wrong. *)
Definition enabled s : Prop := ∃ l, is_call l = false ∧ is_spurious l = false ∧ is_Some (step l s).

(** The workers sleep in [pop], the callers on their condition variables, with tasks left. *)
Definition asleep s : bool :=
  forallb (λ th, match frames th with [] | mkFrame _ InPop :: _ => true | _ => false end) (threads s) &&
  forallb (λ heap, match heap with [] => true | _ => false end) (ready_queues s) &&
  forallb (λ c, bool_decide (c.2.2 = Asleep) && match graph_tasks s !! c.2.1 with Some G => negb (outstanding_tasks G =? 0)%Z | None => false end) (map_to_list (callers s)).
(** Wake-ups that nobody asked for change nothing. *)
Record sleeping s : Prop := {
  sl_workers w th : threads s !! w = Some th → match frames th with [] | mkFrame _ InPop :: _ => True | _ => False end;
  sl_queues heap : heap ∈ ready_queues s → heap = [];
  sl_callers u g x : callers s !! u = Some (g, x) → x ≠ Holding ∧ ∃ G, graph_tasks s !! g = Some G ∧ outstanding_tasks G ≠ 0%Z
}.
Lemma asleep_sleeping s : asleep s = true → sleeping s ∧ ∀ u g x, callers s !! u = Some (g, x) → x = Asleep.
Proof.
  unfold asleep. rewrite !andb_true_iff, !forallb_forall. intros ((Hth & Hq) & Hc).
  assert (Hcaller : ∀ u g x, callers s !! u = Some (g, x) → x = Asleep ∧ ∃ G, graph_tasks s !! g = Some G ∧ outstanding_tasks G ≠ 0%Z).
  { intros u g x Hu. specialize (Hc (u, (g, x)) (proj1 (list_elem_of_In _ _) (proj2 (elem_of_map_to_list _ _ _) Hu))). cbn in Hc.
    apply andb_true_iff in Hc as [->%bool_decide_eq_true Hc]. split; [done|]. destruct (graph_tasks s !! g) as [G|]; [|done].
    exists G. split; [done|]. by apply negb_true_iff, Z.eqb_neq in Hc. }
  split; [split|]; [| | |by intros u g x [? _]%Hcaller].
  - intros w th Hw. specialize (Hth th (proj1 (list_elem_of_In _ _) (list_elem_of_lookup_2 _ _ _ Hw))). destruct (frames th) as [|[gt []] rest]; done.
  - intros heap Hh. apply list_elem_of_In in Hh. specialize (Hq heap Hh). by destruct heap.
  - intros u g x [-> HG]%Hcaller. done.
Qed.
Lemma sleeping_workers s w pick number : sleeping s → thread_step w pick number s = None.
Proof.
  intros S. unfold thread_step. destruct (threads s !! w) as [th|] eqn:Hw; [|done]. cbn. pose proof (sl_workers _ S w th Hw) as Hth.
  destruct (frames th) as [|[gt []] rest]; try done. destruct (ready_queues s !! w) as [heap|] eqn:Hh; [|done]. cbn.
  by rewrite (sl_queues _ S heap (list_elem_of_lookup_2 _ _ _ Hh)).
Qed.
Lemma asleep_stuck s : asleep s = true → ¬ enabled s.
Proof.
  intros [S Hc]%asleep_sleeping (l & Hl & Hsp & m & Hm). destruct l as [w pick number| |u|u|u]; try done; cbn in Hm.
  - by rewrite sleeping_workers in Hm.
  - destruct (callers s !! u) as [[g []]|] eqn:Hu; try done. by specialize (Hc u g _ Hu).
  - destruct (callers s !! u) as [[g []]|] eqn:Hu; try done. by specialize (Hc u g _ Hu).
Qed.
Lemma sleeping_step l s s' : sleeping s → is_call l = false → steps_to l s s' →
  sleeping s' ∧ ∀ u g x, callers s !! u = Some (g, x) → ∃ y, callers s' !! u = Some (g, y).
Proof.
  intros S Hl (m & H & E). destruct l as [w pick number| |u|u|u]; cbn in H; try done.
  - by rewrite sleeping_workers in H.
  - destruct (callers s !! u) as [[g []]|] eqn:Hu; try done. by destruct (sl_callers _ S u g _ Hu).
  - destruct (callers s !! u) as [[g []]|] eqn:Hu; try done. destruct (is_locked s g); [done|]. injection H as <-. unfold wait in E.
    destruct (sl_callers _ S u g _ Hu) as (_ & G & HG & Hz). apply SE_bind_Ok in E as (G1 & s1 & [HG1 ->]%deref_task_Ok & E). assert (G1 = G) as -> by congruence.
    destruct (Z.eqb_spec (outstanding_tasks G) 0); [done|]. run. assert (x1 = G) as -> by congruence. split.
    + split; cbn; try apply S. intros v g' y. rewrite lookup_insert. intros Hv.
      assert (y ≠ Holding ∧ ∃ G', graph_tasks s !! g' = Some G' ∧ outstanding_tasks G' ≠ 0%Z) as (Hx & G' & HG' & Hz').
      { case_decide; [injection Hv as <- <-; split; [done|by exists G]|by apply (sl_callers _ S v)]. }
      split; [done|]. clear Hv. rewrite lookup_insert. case_decide; [subst g'; eexists; split; [done|done]|by exists G'].
    + intros v g' y Hv. cbn. rewrite lookup_insert. case_decide; [subst v; rewrite Hu in Hv; injection Hv as <- <-|]; by eexists.
  - destruct (callers s !! u) as [[g []]|] eqn:Hu; try done. injection H as <-. run. split.
    + split; cbn; try apply S. intros v g' x. rewrite lookup_insert. case_decide; [|apply (sl_callers _ S v)]. intros [= <- <-]. split; [done|].
      by destruct (sl_callers _ S u g _ Hu).
    + intros v g' y Hv. cbn. rewrite lookup_insert. case_decide; [subst v; rewrite Hu in Hv; injection Hv as <- <-|]; by eexists.
Qed.
Lemma sleeping_runs s n k s' : sleeping s → runs_on s n k s' → ∀ u g x, callers s !! u = Some (g, x) → ∃ y, callers s' !! u = Some (g, y).
Proof.
  intros S H. assert (sleeping s' ∧ ∀ u g x, callers s !! u = Some (g, x) → ∃ y, callers s' !! u = Some (g, y)) as [_ ?]; [|done].
  induction H as [|n k l s1 s2 H [S1 IH] Hl Hs]; [eauto|]. destruct (sleeping_step l s1 s2 S1 Hl Hs) as [S2 Hc]. split; [done|].
  intros u g x Hu. destruct (IH u g x Hu) as [y Hy]. by apply (Hc u g y).
Qed.
End checks.

(** ** Integers *)
Definition float_cpu : TypeProperties := mkType Backend.CPU ScalarType.Float.
Definition cuda0 : Device.Device := Device.mkDevice DeviceType.CUDA 0.
#[export] Instance ZTensors : Tensors Z := {|
  sizes := λ _, []; type := λ _, float_cpu; device := λ x, if Z.even x then kCPU else cuda0;
  is_sparse := λ _, false; is_contiguous := λ _, true; sole_owner := λ _, false;
  add := λ a b, Ok (a + b)%Z; add_ := λ a b, Ok (a + b)%Z; sum_to := λ a _, Ok a; has_nan := λ _, false; anomaly_mode := false |}.
Lemma Z_additive : additive Z.add.
Proof. split; [done|by intros x y; apply Z.add_comm|by intros x y z; apply Z.add_assoc]. Qed.

Definition on (d : Device.Device) : list InputMetadata := [mkMetadata (Some float_cpu) [] d].
Definition to (f : ptr) : Edge := mkEdge (Some f) 0.
Definition one_input (k : Z → list (variable (T:=Z))) (ins : list (variable (T:=Z))) : Computation :=
  match ins with [Some x] => Return (k x) | _ => Raise (RuntimeError "one gradient expected") end.
(** The gradients of [0] and [1] both go to [2]. *)
Definition double : Function (T:=Z) := mkFunction 8 [to 2] (on kCPU) [] [] (one_input (λ x, [Some (2 * x)%Z])).
Definition add_seven : Function (T:=Z) := mkFunction 9 [to 2] (on cuda0) [] [] (one_input (λ x, [Some (x + 7)%Z])).
Definition collect : Function (T:=Z) := mkFunction 7 [] (on kCPU) [] [] (one_input (λ _, [])).
Definition sample : gmap ptr (Function (T:=Z)) := {[ 0 := double; 1 := add_seven; 2 := collect ]}.

Lemma sample_functions (Q : Function → Prop) : Q double → Q add_seven → Q collect → ∀ f F, sample !! f = Some F → Q F.
Proof.
  intros H0 H1 H2 f F HF. unfold sample in HF. rewrite !lookup_insert_Some, lookup_singleton_Some in HF.
  destruct HF as [[_ <-]|[_ [[_ <-]|[_ [_ <-]]]]]; done.
Qed.
Lemma sample_closed : closed sample.
Proof. apply closed_check. vm_compute. reflexivity. Qed.
Lemma sample_acyclic : acyclic sample.
Proof. apply (acyclic_check _ (λ n, match n with 2 => 0 | _ => 1 end)). vm_compute. reflexivity. Qed.
Lemma sample_hooks : hooks_keep_length sample.
Proof. apply no_hooks. intros f F. by apply (sample_functions (λ F, post_hooks F = [])). Qed.
Lemma sample_sound_of (fs : gmap ptr (Function (T:=Z))) : (∀ f (F : Function (T:=Z)), fs !! f = Some F → pre_hooks F = [] ∧ post_hooks F = [] ∧ ∀ ins e, apply F ins = Raise e → fatal e = false) →
  all_edges fs (λ _ n, match fs !! n with Some N => 0 <? num_inputs N | None => false end) = true →
  (∀ f (F : Function (T:=Z)) e, fs !! f = Some F → e ∈ next_edges F → input_nr e = 0) → sound fs.
Proof.
  intros HF He Hz. split.
  - intros f F e n Hf Hin Hn. apply list_elem_of_lookup in Hin as Hi. destruct Hi as [i Hi].
    assert (linked fs f n) as Hl by (exists i, (input_nr e); apply target_Some; by exists F, e).
    apply (all_edges_linked _ _ He) in Hl. destruct (fs !! n) as [N|]; [|done]. exists N. split; [done|]. rewrite (Hz f F e Hf Hin). by apply Nat.ltb_lt.
  - intros f F hook ins Hf Hh. destruct (HF f F Hf) as [E _]. rewrite E in Hh. by apply elem_of_nil in Hh.
  - intros f F hook outs ins Hf Hh. destruct (HF f F Hf) as (_ & E & _). rewrite E in Hh. by apply elem_of_nil in Hh.
  - intros f F ins e Hf. by apply (HF f F Hf).
Qed.
Lemma sample_sound : sound sample.
Proof.
  apply sample_sound_of; [|vm_compute; reflexivity|].
  - apply (sample_functions (λ F, pre_hooks F = [] ∧ post_hooks F = [] ∧ ∀ ins e, apply F ins = Raise e → fatal e = false));
      (split; [done|]; split; [done|]; intros ins e; cbn; unfold one_input; destruct ins as [|[x|] []]; by intros [= <-]).
  - intros f F e Hf. revert e. revert Hf. apply (sample_functions (λ F, ∀ e, e ∈ next_edges F → input_nr e = 0));
      intros e; cbn; rewrite ?list_elem_of_singleton; [by intros ->|by intros ->|by intros ?%elem_of_nil].
Qed.
Lemma Z_tame : tame_tensors Z.
Proof. split; done. Qed.
Lemma sample_plain : plain sample.
Proof.
  intros f F ins HF. revert ins. revert HF. apply (sample_functions (λ F, ∀ ins, match apply F ins with Execute _ _ _ _ _ _ => False | _ => True end));
    intros ins; cbn; unfold one_input; by destruct ins as [|[x|] []].
Qed.

Definition work (w : nat) (k : nat) : list (label (T:=Z)) := replicate k (Work w 0 0).
Definition sample_call : label := Call 0 20 [to 0; to 1] [Some 2%Z; Some 3%Z] false false [to 2; to 1].
Definition sample0 : State := start_threads sample 1.
Definition sample1 : State := after [sample_call] sample0.

(** Two schedules to the end; and the first one up to where worker 0 has seen that the
    last task is done. *)
Definition schedule_a : list label := Wait 0 :: work 0 22 ++ work 1 11 ++ work 0 7.
Definition schedule_b : list label := Wait 0 :: work 0 11 ++ work 1 11 ++ work 0 18.
Definition almost_done : list label := sample_call :: Wait 0 :: work 0 22 ++ work 1 11 ++ work 0 5.
(** The graph task after this schedule, as far as [q] says. *)
Definition task_after (ls : list label) (q : GraphTask → bool) : bool :=
  plays ls sample1 && (Z.of_nat (total_edges (functions (after ls sample1))) <? 2 ^ 31)%Z && match graph_tasks (after ls sample1) !! 0 with Some G => q G | None => false end.
(** Its first call of [add_seven] raises. *)
Definition fails : Function (T:=Z) := mkFunction 9 [to 2] (on cuda0) [] [] (λ _, Raise (RuntimeError "no gradient")).
Definition failing_sample : gmap ptr (Function (T:=Z)) := {[ 0 := double; 1 := fails; 2 := collect ]}.
Definition failing_run : list label := sample_call :: Wait 0 :: work 0 22 ++ work 1 4.
Definition failing_end : list label := work 1 4.

(** A pass without functions: worker 0 is done with it before the caller waits, and has not
    told so yet. *)
Definition early_return : list label := Call 0 20 [] [] false false [] :: work 0 7 ++ [Wait 0].

(** A function on a device that runs an empty pass. *)
Definition nested : Function (T:=Z) := mkFunction 9 [] (on cuda0) [] [] (λ _, Execute [] [] false false [] (λ _, Return [])).
Definition nested_functions : gmap ptr (Function (T:=Z)) := {[ 0 := nested ]}.
(** Worker 0 evaluates the root of the empty pass and reads its owner before worker 1 has
    set it. *)
Definition nested_run : list label := Call 0 20 [to 0] [Some 3%Z] false false [] :: Wait 0 :: work 0 11 ++ work 1 5 ++ work 0 5 ++ work 1 2 ++ work 0 3.
