(* ===== verification/EngineProperties.v ===== *)
(** * The autograd engine: properties

    What callers of [execute] and functions rely on, in any interleaving of any number of
    threads, passes and nested passes; and two interleavings that go wrong. *)
From S2P Require Import Prelude CoreTypes AutogradEngine EngineGraph EngineSpec EngineTurns EngineProgress EngineSteps EngineInvariant EngineResults EngineLive EngineSafety EngineSample.
Local Open Scope nat_scope.
Local Open Scope list_scope.
#[local] Set Warnings "-clear-no-such-hyp".
Import Engine.

Section properties.
Context {T : Type} `{!Tensors T}.
Implicit Types (fs : gmap ptr (Function (T:=T))) (f n m h : ptr) (G : GraphTask (T:=T)) (s : State (T:=T)).
Implicit Types (lg : list (event (T:=T))) (ins outs : list (variable (T:=T))) (K : Pass (T:=T)) (outputs roots : list Edge).

(** A call of [execute] that sets up a graph task in [s1], and the task [G] in a later state [s2]. *)
Record pass_run fs (d u : nat) (number : Z) roots ins (keep create : bool) outputs s0 s1 s2 G : Prop := {
  run_closed : closed fs;
  run_reachable : reachable fs d s0;
  run_call : steps_to (Call u number roots ins keep create outputs) s0 s1;
  run_accepted : next_task s1 = S (next_task s0);
  run_later : later s1 s2;
  run_bound : (Z.of_nat (total_edges (functions s2)) < 2 ^ 31)%Z;
  run_task : graph_tasks s2 !! next_task s0 = Some G
}.

Lemma pass_run_inv fs d u number roots ins keep create outputs s0 s1 s2 G :
  pass_run fs d u number roots ins keep create outputs s0 s1 s2 G →
  ∃ K, pass_of number roots ins outputs (functions s0) K ∧ closed (functions s0) ∧ pfs K = functions s1 ∧
    task_inv (next_task s0) K G (items_of (next_task s0) s2) (log s2).
Proof.
  intros [Hc Hr Hcall Hacc Hl Hb HG]. pose proof (reachable_step _ _ _ _ _ Hr Hcall) as Hr1.
  assert (Hb1 : (Z.of_nat (total_edges (functions s1)) < 2 ^ 31)%Z) by (eapply bound_before; [by eapply later_functions|done]).
  assert (Hb0 : (Z.of_nat (total_edges (functions s0)) < 2 ^ 31)%Z).
  { eapply bound_before; [|exact Hb1]. eapply advance_functions, step_advance; [by eapply reachable_queues|done]. }
  destruct (reachable_engine_inv fs d s0 Hc Hr Hb0) as [Ks I]. destruct Hcall as (m & Hm & E). cbn in Hm. destruct (callers s0 !! u); [done|]. injection Hm as <-.
  unfold call in E. apply SE_bind_Ok in E as (r & s & Hs%try_Ok & E). destruct r as [g|e].
  2:{ destruct Hs as [Hs He]. apply execute_setup_Throw in Hs as [Hs| ->]; [congruence| |by eapply reachable_queues]. run. lia. }
  apply execute_setup_Ok in Hs as [-> Hs]. run.
  destruct (setup_inv Ks s0 (with_callers (<[u := (next_task s0, Holding)]> (callers s)) s) number roots ins keep create outputs s) as (Ks1 & I1 & _ & Hn & HK & Hof);
    try done.
  destruct (later_inv fs d Ks1 _ s2 Hr1 I1 Hl Hb) as (Ks2 & I2 & _ & HK2).
  exists (Ks2 (next_task s0)). rewrite HK2 by (cbn; lia). split_and!; [done|apply I| |].
  - destruct (of_grads _ _ _ _ _ _ Hof) as (grads & Hv & ->). rewrite (of_root _ _ _ _ _ _ Hof). cbn.
    destruct Hs as (grads' & deps & info & q & Hv' & Hf & _). rewrite Hf. congruence.
  - destruct (e_inv _ _ I2 _ _ HG) as (_ & _ & J). by rewrite HK2 in J by (cbn; lia).
Qed.

(** *** The root adds nothing to the assumptions on the functions *)
Lemma root_functions number roots ins outputs fs K f (F : Function) :
  pass_of number roots ins outputs fs K → pfs K !! f = Some F → fs !! f = Some F ∨ ∃ grads, F = GraphRoot number roots grads.
Proof.
  intros Hof. destruct (of_grads _ _ _ _ _ _ Hof) as (grads & _ & ->). rewrite lookup_insert_Some. intros [[_ <-]|[_ ?]]; [right; eauto|by left].
Qed.
Lemma root_acyclic number roots ins outputs fs K : pass_of number roots ins outputs fs K → closed fs → acyclic fs → acyclic (pfs K).
Proof.
  intros Hof Hc [rank Hrank]. destruct (of_grads _ _ _ _ _ _ Hof) as (grads & Hv & HK). rewrite HK, (of_root _ _ _ _ _ _ Hof).
  exists (λ n, if decide (n = fresh (dom fs)) then S (max_list (rank <$> targets roots)) else rank n). intros h n Hl.
  assert (Hn : n ≠ fresh (dom fs)) by (intros ->; by eapply root_unlinked). rewrite (decide_False _ _ Hn).
  apply linked_root in Hl as [Hl|[-> Hn']].
  - case_decide; [subst h|by apply Hrank]. destruct Hl as (i & j & (F & e & HF & _)%target_Some). by rewrite root_new in HF.
  - rewrite decide_True by done. apply Nat.lt_succ_r, max_list_elem_of_le, list_elem_of_fmap. eauto.
Qed.
Lemma root_hooks number roots ins outputs fs K : pass_of number roots ins outputs fs K → hooks_keep_length fs → hooks_keep_length (pfs K).
Proof.
  intros Hof Hh f F hook outs ins' outs' HF Hk. destruct (root_functions _ _ _ _ _ _ _ _ Hof HF) as [HF'|[grads ->]]; [by eapply Hh|by apply elem_of_nil in Hk].
Qed.
Lemma root_plain number roots ins outputs fs K : pass_of number roots ins outputs fs K → plain fs → plain (pfs K).
Proof. intros Hof Hp f F ins' HF. destruct (root_functions _ _ _ _ _ _ _ _ Hof HF) as [HF'|[grads ->]]; [by eapply Hp|done]. Qed.


(** A call determines its pass, up to the order of the functions. *)
Lemma pass_unique number roots ins outputs fs K K' vars arg result :
  pass_of number roots ins outputs fs K → pass_of number roots ins outputs fs K' → gradients K' vars arg result → gradients K vars arg result.
Proof.
  intros H H' Hg. destruct (of_grads _ _ _ _ _ _ H) as (grads & Hv & Hf), (of_grads _ _ _ _ _ _ H') as (grads' & Hv' & Hf').
  pose proof (of_root _ _ _ _ _ _ H) as Hr. pose proof (of_root _ _ _ _ _ _ H') as Hr'. pose proof (of_info _ _ _ _ _ _ H) as Hi.
  pose proof (of_info _ _ _ _ _ _ H') as Hi'. pose proof (of_count _ _ _ _ _ _ H) as Hn. pose proof (of_count _ _ _ _ _ _ H') as Hn'.
  pose proof (p_reached _ (of_pass _ _ _ _ _ _ H)) as Hp. pose proof (p_reached _ (of_pass _ _ _ _ _ _ H')) as Hp'. clear H H'.
  destruct K as [f r R i c], K' as [f' r' R' i' c']. cbn in *. assert (grads' = grads) as -> by congruence. subst r r' c c' f'. rewrite <- Hf in *.
  assert (i' = i) as -> by congruence.
  assert (HR : R ≡ₚ R').
  { destruct Hp as (Hnd & Hp & _), Hp' as (Hnd' & Hp' & _). apply NoDup_Permutation; [done..|]. intros x. by rewrite Hp, Hp'. }
  assert (Hin : ∀ n, n ∈ R → n ∈ R') by (intros n; by rewrite HR).
  assert (Hedges : ∀ n, edges_into f R n ≡ₚ edges_into f R' n) by (intros n; by apply bfilter_perm, edges_from_perm).
  destruct Hg as [H1 H2 H3 H4]. cbn in *. split; cbn.
  - intros n Hm He. destruct (H1 n (Hin n Hm) He) as (Ha & ks & Hks & Hb). split; [intros k; rewrite Hedges; apply Ha|]. exists ks. by rewrite Hedges.
  - intros n Hm. by apply H2, Hin.
  - intros n x Hm. by apply H3, Hin.
  - intros x Hx. apply H4. intros n y Hm. apply Hx. by rewrite HR.
Qed.

(** A pass that is over. *)
Lemma pass_finished fs d u number roots ins keep create outputs s0 s1 s2 G :
  pass_run fs d u number roots ins keep create outputs s0 s1 s2 G →
  acyclic (functions s0) → hooks_keep_length (functions s0) → (∀ e, e ∈ outputs → is_Some (function e)) →
  outstanding_tasks G = 0%Z → has_error G = false →
  execute_result G = Ok (captured_vars G) ∧
  ∃ K arg result, pass_of number roots ins outputs (functions s0) K ∧ demand_closed K ∧ acyclic (pfs K) ∧ gradients K (captured_vars G) arg result ∧
    ∀ n, n ∈ (called_in (next_task s0) (log s2)).*1 ↔ n ∈ preach K ∧ runs (pinfo K) n = true.
Proof.
  intros H Hac Hh Ho Hz He. destruct (pass_run_inv _ _ _ _ _ _ _ _ _ _ _ _ _ H) as (K & Hof & Hc & _ & B & Hok & _).
  assert (Hno : no_error G (items_of (next_task s0) s2)).
  { split; [done|]. pose proof (b_outstanding _ _ _ _ _ B) as Hcount. rewrite Hz in Hcount. clear -Hcount.
    induction (items_of (next_task s0) s2) as [|p its IH]; [done|]. rewrite count_if_cons in *. destruct p; cbn in *; lia || (apply IH; lia). }
  destruct (Hok Hno) as [arr J]. pose proof (of_pass _ _ _ _ _ _ Hof) as P.
  pose proof (pass_demand _ _ _ _ _ _ Hof Hc (root_acyclic _ _ _ _ _ _ Hof Hc Hac) Ho) as Hd.
  pose proof (root_acyclic _ _ _ _ _ _ Hof Hc Hac) as HacK. pose proof (root_hooks _ _ _ _ _ _ Hof Hh) as HhK. split.
  - unfold execute_result. rewrite He, decide_True; [done|]. by eapply finished_not_ready.
  - do 3 eexists. split; [exact Hof|]. do 2 (split; [done|]). split; [by eapply finished_gradients|]. intros n. by eapply finished_called.
Qed.

(** ** Properties *)

(** C6: no function is called twice for one graph task, whatever the threads do and
    whether or not functions fail; what returns was called, and returns once. *)
Theorem function_called_once fs d s g G :
  closed fs → reachable fs d s → (Z.of_nat (total_edges (functions s)) < 2 ^ 31)%Z → graph_tasks s !! g = Some G →
  NoDup (called_in g (log s)).*1 ∧ NoDup (returned_in g (log s)).*1 ∧ ∀ f, f ∈ (returned_in g (log s)).*1 → f ∈ (called_in g (log s)).*1.
Proof.
  intros Hc Hr Hb HG. destruct (reachable_engine_inv fs d s Hc Hr Hb) as [Ks I]. destruct (e_inv _ _ I g G HG) as (_ & _ & B & _).
  split_and!; [apply B|apply B|]. intros f. apply (b_returned _ _ _ _ _ B).
Qed.

(** C7: as long as no function has failed, a function is called only after all functions
    of the pass with an edge to it have returned. *)
Theorem calls_follow_edges fs d u number roots ins keep create outputs s0 s1 s2 G l1 n gm args l2 h :
  pass_run fs d u number roots ins keep create outputs s0 s1 s2 G → no_error G (items_of (next_task s0) s2) →
  log s2 = l1 ++ Called (next_task s0) n gm args :: l2 →
  rtc (linked (functions s1)) (fresh (dom (functions s0))) h → linked (functions s1) h n → h ∈ (returned_in (next_task s0) l1).*1.
Proof.
  intros H Hno Hlog Hp Hl. destruct (pass_run_inv _ _ _ _ _ _ _ _ _ _ _ _ _ H) as (K & Hof & _ & Hfs & _ & Hok & _). destruct (Hok Hno) as [arr J].
  pose proof (of_pass _ _ _ _ _ _ Hof) as P. destruct Hl as (i & j & Ht).
  apply (o_order _ _ _ _ _ _ J l1 n gm args l2 Hlog (h, i)). apply elem_of_edges_into. rewrite Hfs. split; [|by exists j].
  apply (p_reached _ P). by rewrite Hfs, (of_root _ _ _ _ _ _ Hof).
Qed.

(** C4: a pass over an acyclic graph that is over without a failure returns the captured
    variables: each function that leads to an output has been called, with the sums of
    what its edges carry, and the captured variables are the inputs asked for. *)
Theorem pass_computes_gradients fs d u number roots ins keep create outputs s0 s1 s2 G :
  pass_run fs d u number roots ins keep create outputs s0 s1 s2 G →
  acyclic (functions s0) → hooks_keep_length (functions s0) → (∀ e, e ∈ outputs → is_Some (function e)) →
  outstanding_tasks G = 0%Z → has_error G = false →
  execute_result G = Ok (captured_vars G) ∧
  ∃ K arg result, pass_of number roots ins outputs (functions s0) K ∧ gradients K (captured_vars G) arg result ∧
    ∀ n, n ∈ (called_in (next_task s0) (log s2)).*1 ↔ n ∈ preach K ∧ runs (pinfo K) n = true.
Proof.
  intros H Hac Hh Ho Hz He. destruct (pass_finished _ _ _ _ _ _ _ _ _ _ _ _ _ H Hac Hh Ho Hz He) as (Hr & K & arg & result & Hof & _ & _ & Hg & Hcalled).
  split; [done|]. by exists K, arg, result.
Qed.

(** C5: when addition commutes and associates and functions run no passes themselves, the
    gradients do not depend on the schedule. *)
Theorem schedule_irrelevant (plus : T → T → T) fs d u number roots ins keep create outputs s0 s1 s2 G s2' G' :
  additive plus → plain (functions s0) →
  pass_run fs d u number roots ins keep create outputs s0 s1 s2 G → pass_run fs d u number roots ins keep create outputs s0 s1 s2' G' →
  acyclic (functions s0) → hooks_keep_length (functions s0) → (∀ e, e ∈ outputs → is_Some (function e)) →
  outstanding_tasks G = 0%Z → has_error G = false → outstanding_tasks G' = 0%Z → has_error G' = false → captured_vars G = captured_vars G'.
Proof.
  intros Hplus Hp H H' Hac Hh Ho Hz He Hz' He'.
  destruct (pass_finished _ _ _ _ _ _ _ _ _ _ _ _ _ H Hac Hh Ho Hz He) as (_ & K & arg & result & Hof & Hd & HacK & Hg & _).
  destruct (pass_finished _ _ _ _ _ _ _ _ _ _ _ _ _ H' Hac Hh Ho Hz' He') as (_ & K' & arg' & result' & Hof' & _ & _ & Hg' & _).
  pose proof (pass_unique _ _ _ _ _ _ _ _ _ _ Hof Hof' Hg') as Hg2.
  by destruct (gradients_unique plus Hplus K _ _ _ _ _ _ (root_plain _ _ _ _ _ _ Hof Hp) HacK Hd Hg Hg2).
Qed.

(** C9: once a function of a pass has failed, be it that it raised an exception or that the
    engine is about to handle one, the pass rethrows when it is over, whatever else
    happens in between: its error flag is set, and what [execute] throws is an exception
    that some thread brought to [thread_on_exception] for a task of this very pass. *)
Theorem failed_pass_rethrows fs d s g p s2 G :
  closed fs → reachable fs d s → p ∈ items s → raises p = true → item_base p = Some g →
  later s s2 → (Z.of_nat (total_edges (functions s2)) < 2 ^ 31)%Z → graph_tasks s2 !! g = Some G → outstanding_tasks G = 0%Z →
  has_error G = true ∧ ∃ e, execute_result G = Throw e ∧
    ∃ s1 t, reachable fs d s1 ∧ later s1 s2 ∧ Failing t e ∈ items s1 ∧ base t = g.
Proof.
  intros Hc Hr Hp Hraise Hb Hl Hbound HG Hz. pose proof (later_reachable _ _ _ _ Hr Hl) as Hr2.
  assert (Hbound0 : (Z.of_nat (total_edges (functions s)) < 2 ^ 31)%Z) by (eapply bound_before; [by eapply later_functions|done]).
  destruct (reachable_engine_inv fs d s Hc Hr Hbound0) as [Ks I]. destruct (reachable_engine_inv fs d s2 Hc Hr2 Hbound) as [Ks2 I2].
  assert (Hg : g < next_task s) by (by apply (e_items _ _ I p)).
  assert (He : has_error G = true).
  { destruct (later_failure fs d s s2 g Hc Hr Hl Hbound Hg) as [(q & Hq & Hrq & Hbq)|He]; [left; by exists p| |by apply He].
    pose proof (no_counted Ks2 s2 g G q I2 HG Hz Hq Hbq) as Hn. by destruct q. }
  split; [done|]. destruct (e_inv _ _ I2 g G HG) as (_ & _ & _ & _ & Hk). destruct (Hk He) as [e Ee]. exists e. split.
  - unfold execute_result. by rewrite He, Ee.
  - by apply (reachable_exception fs d s2 g G e).
Qed.

(** C8: when functions run no passes themselves, passes end.  As long as a caller has no
    result, some worker or some caller has a step that returns and is neither a new call
    nor a spurious wake-up: who sleeps is notified in time, and no step that is left is
    undefined.  And without new calls, no schedule takes more steps than the work that is
    left, but for one more per spurious wake-up.  The functions are sound: their edges
    lead to inputs that exist, and what they and the operations on tensors throw are
    exceptions; the captures name inputs that exist; and no worker is about to notify a
    graph task that is gone, which is the race of [graph_task_used_after_return]. *)
Theorem passes_end fs d s :
  tame_tensors T → sound fs → plain fs → hooks_keep_length fs → reachable fs d s → (Z.of_nat (total_edges (functions s)) < 2 ^ 31)%Z →
  (captures_fit s → no_late_notice s → ∀ u c, callers s !! u = Some c → progresses s) ∧
  ∀ n k s', runs_on s n k s' → (Z.of_nat k ≤ work_left s + Z.of_nat n)%Z.
Proof.
  intros HT Hs Hp Hh Hr Hb. pose proof (sound_closed _ Hs) as Hc. pose proof (reachable_live fs d s Hc Hp Hh Hr Hb) as I. split.
  - intros Hfit Hlate u [g x] Hu. destruct (reachable_engine_inv fs d s Hc Hr Hb) as [Ks J].
    by apply (caller_progress HT s I (reachable_safe fs d s Hs Hp Hh Hr Hb) Hfit Hlate Ks u g x J).
  - intros n k s' H. destruct (runs_live fs d s n k s' Hc Hp Hh Hr Hb H) as (_ & _ & Hk). pose proof (work_left_nonneg s'). lia.
Qed.

(** C10: in an acyclic graph [init_to_execute] ends; a function the roots lead to is needed
    exactly when a path of at least one edge leads from it to a function of the outputs,
    and each function has the captures of the outputs that name it. *)
Theorem init_to_execute_exact fs (root : ptr) roots outputs :
  closed fs → acyclic fs → (∀ h, ¬ linked fs h root) → (∀ e, e ∈ outputs → is_Some (function e)) →
  (∀ e, e ∈ roots → ∃ f, function e = Some f ∧ f ≠ root ∧ is_Some (fs !! f)) →
  ∃ info, init_to_execute fs root roots outputs = Ok info ∧
    (∀ f r, r ∈ targets roots → rtc (linked fs) r f →
       needed (info_of info (Some f)) = true ↔ ∃ n e, tc (linked fs) f n ∧ e ∈ outputs ∧ function e = Some n) ∧
    (∀ x, default [] (captures (info_of info x)) = captures_for outputs 0 x) ∧ needed (info_of info (Some root)) = true.
Proof.
  intros Hc [rank Hrank] Hroot Ho Hr. destruct (init_to_execute_Ok fs root outputs rank Hrank Hc Ho Hroot roots Hr) as (info & E & Hn & Hcap & Hre).
  exists info. split_and!; [done| |by intros x; rewrite Hcap; destruct (captures_for outputs 0 x)|done]. intros f r Hin Hp. rewrite (Hn f r Hin Hp). split.
  - intros (n & Ht & e & He & Hf). by exists n, e.
  - intros (n & e & Ht & He & Hf). by exists n; split; [|exists e].
Qed.
End properties.

(** ** On a sample *)
#[local] Abbreviation sample_pass_run := (pass_run sample 1 0 20 [to 0; to 1] [Some 2%Z; Some 3%Z] false false [to 2; to 1] sample0 sample1).
Lemma sample_runs ls q : task_after ls q = true → ∃ G, sample_pass_run (after ls sample1) G ∧ q G = true.
Proof.
  unfold task_after. rewrite !andb_true_iff, Z.ltb_lt. intros ((Hp & Hb) & Hq). destruct (graph_tasks (after ls sample1) !! 0) as [G|] eqn:HG; [|done].
  exists G. split; [|done]. split; [apply sample_closed|constructor| |vm_compute; reflexivity|by apply plays_later|done|exact HG].
  eexists. split; [reflexivity|]. vm_compute. reflexivity.
Qed.
Definition over (G : GraphTask (T:=Z)) : bool := (outstanding_tasks G =? 0)%Z && negb (has_error G).
Lemma over_true G : over G = true → outstanding_tasks G = 0%Z ∧ has_error G = false.
Proof. unfold over. by rewrite andb_true_iff, Z.eqb_eq, negb_true_iff. Qed.
Lemma sample_outputs : ∀ e, e ∈ [to 2; to 1] → is_Some (function e).
Proof. intros e. rewrite elem_of_cons, list_elem_of_singleton. intros [->| ->]; by eexists. Qed.
Lemma sample_bound s : (Z.of_nat (total_edges (functions s)) <? 2 ^ 31)%Z = true → (Z.of_nat (total_edges (functions (T:=Z) s)) < 2 ^ 31)%Z.
Proof. by rewrite Z.ltb_lt. Qed.
Lemma function_called_once_witness :
  ∃ G, graph_tasks (after almost_done sample0) !! 0 = Some G ∧ NoDup (called_in 0 (log (after almost_done sample0))).*1 ∧
    (called_in 0 (log (after almost_done sample0))).*1 = [3; 0; 1].
Proof.
  eexists. split; [vm_compute; reflexivity|]. split; [|vm_compute; reflexivity].
  eapply (function_called_once sample 1 (after almost_done sample0) 0);
    [apply sample_closed|apply plays_reachable; vm_compute; reflexivity|apply sample_bound; vm_compute; reflexivity|vm_compute; reflexivity].
Defined.

Lemma calls_follow_edges_witness : 3 ∈ (returned_in 0 [Will_release 3; Called 0 3 false []; Returned 0 3 [Some 2%Z; Some 3%Z]; Released 3; Will_release 0]).*1.
Proof.
  assert (linked (functions sample1) 3 0) as Hl by (exists 0, 0; vm_compute; reflexivity).
  destruct (sample_runs schedule_a over) as (G & H & _); [vm_compute; reflexivity|].
  apply (calls_follow_edges sample 1 0 20 _ _ _ _ _ _ _ _ G _ 0 false [Some 2%Z] (drop 6 (log (after schedule_a sample1))) 3 H); [|vm_compute; reflexivity|apply rtc_refl|exact Hl].
  pose proof (run_task _ _ _ _ _ _ _ _ _ _ _ _ _ H) as HG. vm_compute in HG. injection HG as <-. split; [done|]. vm_compute. reflexivity.
Defined.

Lemma pass_computes_gradients_witness :
  ∃ G, graph_tasks (after schedule_a sample1) !! 0 = Some G ∧ execute_result G = Ok (captured_vars G) ∧ captured_vars G = [Some 14%Z; Some 3%Z].
Proof.
  destruct (sample_runs schedule_a over) as (G & H & [Hz He]%over_true); [vm_compute; reflexivity|]. exists G. pose proof (run_task _ _ _ _ _ _ _ _ _ _ _ _ _ H) as HG.
  split; [exact HG|]. split; [apply (pass_computes_gradients _ _ _ _ _ _ _ _ _ _ _ _ G H sample_acyclic sample_hooks sample_outputs Hz He)|].
  vm_compute in HG. by injection HG as <-.
Defined.

Lemma schedule_irrelevant_witness :
  ∃ G G', graph_tasks (after schedule_a sample1) !! 0 = Some G ∧ graph_tasks (after schedule_b sample1) !! 0 = Some G' ∧ captured_vars G = captured_vars G'.
Proof.
  destruct (sample_runs schedule_a over) as (G & H & [Hz He]%over_true); [vm_compute; reflexivity|].
  destruct (sample_runs schedule_b over) as (G' & H' & [Hz' He']%over_true); [vm_compute; reflexivity|]. exists G, G'.
  split; [apply (run_task _ _ _ _ _ _ _ _ _ _ _ _ _ H)|]. split; [apply (run_task _ _ _ _ _ _ _ _ _ _ _ _ _ H')|].
  apply (schedule_irrelevant Z.add _ _ _ _ _ _ _ _ _ sample0 _ _ G _ G' Z_additive sample_plain H H' sample_acyclic sample_hooks sample_outputs Hz He Hz' He').
Defined.

(** The call of [add_seven] has raised; four steps later the pass is over. *)
Lemma failed_pass_rethrows_witness :
  plays failing_run (start_threads failing_sample 1) = true ∧
  ∃ G, graph_tasks (after failing_end (after failing_run (start_threads failing_sample 1))) !! 0 = Some G ∧ has_error G = true ∧ ∃ e, execute_result G = Throw e.
Proof.
  split; [vm_compute; reflexivity|]. eexists. split; [vm_compute; reflexivity|].
  edestruct (failed_pass_rethrows failing_sample 1 (after failing_run (start_threads failing_sample 1)) 0
      (Calling (mkTask 0 (Some 1) [Some 3%Z]) true [Some 3%Z] (Raise (RuntimeError "no gradient")))
      (after failing_end (after failing_run (start_threads failing_sample 1)))) as (He & e & Hr & _);
    [apply closed_check; vm_compute; reflexivity|apply plays_reachable; vm_compute; reflexivity
    |vm_compute; left|reflexivity|reflexivity
    |apply plays_later; vm_compute; reflexivity|apply sample_bound; vm_compute; reflexivity|vm_compute; reflexivity|reflexivity|].
  split; [exact He|]. exists e. exact Hr.
Defined.

(** The last task is done, the caller sleeps, and worker 0 is about to wake it up. *)
Lemma passes_end_witness :
  callers (after almost_done sample0) !! 0 = Some (0, Asleep) ∧ progresses (after almost_done sample0) ∧
  ∀ n k s', runs_on (after almost_done sample0) n k s' → (Z.of_nat k ≤ 3 + Z.of_nat n)%Z.
Proof.
  assert (work_left (after almost_done sample0) = 3%Z) as E by (vm_compute; reflexivity). split; [vm_compute; reflexivity|].
  destruct (passes_end sample 1 (after almost_done sample0)) as [H1 H2];
    [apply Z_tame|apply sample_sound|apply sample_plain|apply sample_hooks|apply plays_reachable; vm_compute; reflexivity|apply sample_bound; vm_compute; reflexivity|].
  split; [|rewrite <- E; exact H2].
  apply (H1 ltac:(apply captures_fit_true; vm_compute; reflexivity) ltac:(apply no_late_true; vm_compute; reflexivity) 0 (0, Asleep)). vm_compute. reflexivity.
Defined.

Lemma init_to_execute_exact_witness :
  ∃ info, init_to_execute sample 3 [to 0; to 1] [to 2; to 1] = Ok info ∧ needed (info_of info (Some 1)) = true ∧ captures_for [to 2; to 1] 0 (Some 1) = [(0, 1)].
Proof.
  destruct (init_to_execute_exact sample 3 [to 0; to 1] [to 2; to 1] sample_closed sample_acyclic) as (info & E & H & _ & _).
  - intros h Hl. by apply (all_edges_linked sample (λ _ n, negb (n =? 3))) in Hl; [|vm_compute; reflexivity].
  - apply sample_outputs.
  - intros e. rewrite elem_of_cons, list_elem_of_singleton. intros [->| ->]; eexists; (split; [reflexivity|]); (split; [done|]); vm_compute; by eexists.
  - exists info. split; [exact E|]. split; [|reflexivity]. apply (H 1 1); [vm_compute; right; left|apply rtc_refl|].
    exists 2, (to 2). split; [|split; [left|done]]. apply tc_once. exists 0, 0. vm_compute. reflexivity.
Defined.

(** The counter of a graph task may be seen to be zero before the worker that
    decremented it is done with the task: the caller returns, and the worker uses a graph
    task that is gone. *)
Theorem graph_task_used_after_return :
  ∃ s m, reachable sample 1 s ∧ callers s !! 0 = None ∧ step (Work 0 0 0) s = Some m ∧ (m s).1 = Throw (Undefined "use of a graph task that is gone").
Proof.
  exists (after early_return sample0). eexists. split; [apply plays_reachable; vm_compute; reflexivity|]. split; [vm_compute; reflexivity|].
  split; [cbn [step]; vm_compute; reflexivity|]. vm_compute. reflexivity.
Qed.

(** C11: the owner of a nested graph task is set after its root is pushed: a worker may
    finish the task before, wake up nobody, and leave all threads asleep.  A spurious
    wake-up of the caller does not help: in no run without a new call it ever returns. *)
Theorem nested_pass_lost_wakeup :
  ∃ s, reachable nested_functions 1 s ∧ callers s !! 0 = Some (0, Asleep) ∧ ¬ enabled s ∧
    ∀ n k s', runs_on s n k s' → ∃ x, callers s' !! 0 = Some (0, x).
Proof.
  assert (asleep (after nested_run (start_threads nested_functions 1)) = true) as Ha by (vm_compute; reflexivity).
  exists (after nested_run (start_threads nested_functions 1)). split; [apply plays_reachable; vm_compute; reflexivity|]. split; [vm_compute; reflexivity|].
  split; [by apply asleep_stuck|]. intros n k s' H. apply (sleeping_runs _ n k s' (proj1 (asleep_sleeping _ Ha)) H 0 0 Asleep). vm_compute. reflexivity.
Qed.
