(* ===== verification/LeftRight.v ===== *)
(** * Reading without waiting (c10/util/LeftRight.h)

    [LeftRight] holds two copies of an object: readers read one of them while a writer
    changes the other, then the two change places and the writer changes the second copy.
    A step of a thread is one access of a shared variable, or one call of the function
    that reads or writes; a loop that waits is a step that is not there until its
    condition holds.  [Module LeftRight] models the class, and what it promises: each call
    happens at one moment. *)
From S2P Require Import Prelude.
Local Open Scope Z_scope.

Module LeftRight.
Section leftright.
Context {T A : Type}.

(** An array of two, by an index that [^ 1] flips. *)
Definition index : Type := bool.
Definition flip : index → index := negb.
Definition upd {X} (i : index) (x : X) (a : index → X) : index → X := λ j, if decide (j = i) then x else a j.

(** Where a thread is in [read] (with the counter [c] it counts itself in, and the
    instance [d] it reads), in [write] and [_write] (with the local copies [d] and [c] of
    the indices), or in the destructor.  [w1] and [w2] are what the first and the second
    call of [writeFunc] do. *)
Inductive Phase : Type :=
  | Idle
  | Counting (f : T → outcome A) (c : index)
  | Checking (f : T → outcome A) (c : index)
  | Choosing (f : T → outcome A) (c : index)
  | Reading (f : T → outcome A) (c d : index)
  | Leaving (c : index) (r : outcome A)
  | Locking (w1 w2 : SE T A)
  | WriteChecking (w1 w2 : SE T A)
  | Loading (w1 w2 : SE T A)
  | Writing (w1 w2 : SE T A) (d : index)
  | Switching (w1 w2 : SE T A) (d : index)
  | LoadingCounter (w2 : SE T A) (d : index)
  | Waiting (w2 : SE T A) (d c : index)
  | SwitchingCounter (w2 : SE T A) (d c : index)
  | WaitingAgain (w2 : SE T A) (d c : index)
  | WritingAgain (w2 : SE T A) (d : index)
  | Recovering (e : exn) (d : index)
  | Unlocking (r : outcome A)
  | Destroying
  | DestroyLocking
  | DestroyUnlocking
  | DestroyWaiting (c : index).

(** [destroyed]: the destructor has returned. *)
Record State : Type := mkState {
  _writeMutex : option nat;
  _foregroundCounterIndex : index;
  _foregroundDataIndex : index;
  _counters : index → Z;
  _data : index → T;
  _inDestruction : bool;
  destroyed : bool;
  threads : list Phase;
  log : list (nat * outcome A)
}.

Definition with_mutex x s :=
  mkState x (_foregroundCounterIndex s) (_foregroundDataIndex s) (_counters s) (_data s) (_inDestruction s) (destroyed s) (threads s) (log s).
Definition with_counter_index x s :=
  mkState (_writeMutex s) x (_foregroundDataIndex s) (_counters s) (_data s) (_inDestruction s) (destroyed s) (threads s) (log s).
Definition with_data_index x s :=
  mkState (_writeMutex s) (_foregroundCounterIndex s) x (_counters s) (_data s) (_inDestruction s) (destroyed s) (threads s) (log s).
Definition with_counters x s :=
  mkState (_writeMutex s) (_foregroundCounterIndex s) (_foregroundDataIndex s) x (_data s) (_inDestruction s) (destroyed s) (threads s) (log s).
Definition with_data x s :=
  mkState (_writeMutex s) (_foregroundCounterIndex s) (_foregroundDataIndex s) (_counters s) x (_inDestruction s) (destroyed s) (threads s) (log s).
Definition with_inDestruction x s :=
  mkState (_writeMutex s) (_foregroundCounterIndex s) (_foregroundDataIndex s) (_counters s) (_data s) x (destroyed s) (threads s) (log s).
Definition with_destroyed x s :=
  mkState (_writeMutex s) (_foregroundCounterIndex s) (_foregroundDataIndex s) (_counters s) (_data s) (_inDestruction s) x (threads s) (log s).
Definition goto (t : nat) (p : Phase) (s : State) : State :=
  mkState (_writeMutex s) (_foregroundCounterIndex s) (_foregroundDataIndex s) (_counters s) (_data s) (_inDestruction s) (destroyed s)
    (<[t := p]> (threads s)) (log s).
(** A call returns to its caller. *)
Definition return_ (t : nat) (r : outcome A) (s : State) : State :=
  mkState (_writeMutex s) (_foregroundCounterIndex s) (_foregroundDataIndex s) (_counters s) (_data s) (_inDestruction s) (destroyed s)
    (<[t := Idle]> (threads s)) (log s ++ [(t, r)]).

(** [++] and [--] of [std::atomic<int32_t>]. *)
Definition increment (c : index) (s : State) : State := with_counters (upd c (wrapS 32 (_counters s c + 1)) (_counters s)) s.
Definition decrement (c : index) (s : State) : State := with_counters (upd c (wrapS 32 (_counters s c - 1)) (_counters s)) s.

Definition refusal : exn := StdLogicError "Issued LeftRight::read() after the destructor started running".

(** The next step of a thread that is in phase [p]. *)
Definition phase_step (t : nat) (p : Phase) (s : State) : option State :=
  match p with
  | Idle => None
  | Counting f c => Some (goto t (Checking f c) (increment c s))
  | Checking f c => Some (goto t (if _inDestruction s then Leaving c (Throw refusal) else Choosing f c) s)
  | Choosing f c => Some (goto t (Reading f c (_foregroundDataIndex s)) s)
  | Reading f c d => Some (goto t (Leaving c (f (_data s d))) s)
  | Leaving c r => Some (return_ t r (decrement c s))
  | Locking w1 w2 => match _writeMutex s with None => Some (goto t (WriteChecking w1 w2) (with_mutex (Some t) s)) | Some _ => None end
  | WriteChecking w1 w2 => Some (goto t (if _inDestruction s then Unlocking (Throw refusal) else Loading w1 w2) s)
  | Loading w1 w2 => Some (goto t (Writing w1 w2 (_foregroundDataIndex s)) s)
  | Writing w1 w2 d =>
      let r := w1 (_data s (flip d)) in
      Some (goto t (match r.1 with Ok _ => Switching w1 w2 d | Throw e => Recovering e d end) (with_data (upd (flip d) r.2 (_data s)) s))
  | Switching w1 w2 d => Some (goto t (LoadingCounter w2 (flip d)) (with_data_index (flip d) s))
  | LoadingCounter w2 d => Some (goto t (Waiting w2 d (_foregroundCounterIndex s)) s)
  | Waiting w2 d c => if _counters s (flip c) =? 0 then Some (goto t (SwitchingCounter w2 d c) s) else None
  | SwitchingCounter w2 d c => Some (goto t (WaitingAgain w2 d (flip c)) (with_counter_index (flip c) s))
  | WaitingAgain w2 d c => if _counters s (flip c) =? 0 then Some (goto t (WritingAgain w2 d) s) else None
  | WritingAgain w2 d =>
      let r := w2 (_data s (flip d)) in
      Some (goto t (match r.1 with Ok a => Unlocking (Ok a) | Throw e => Recovering e d end) (with_data (upd (flip d) r.2 (_data s)) s))
  | Recovering e d => Some (goto t (Unlocking (Throw e)) (with_data (upd (flip d) (_data s d) (_data s)) s))
  | Unlocking r => Some (return_ t r (with_mutex None s))
  | Destroying => Some (goto t DestroyLocking (with_inDestruction true s))
  | DestroyLocking => match _writeMutex s with None => Some (goto t DestroyUnlocking (with_mutex (Some t) s)) | Some _ => None end
  | DestroyUnlocking => Some (goto t (DestroyWaiting false) (with_mutex None s))
  | DestroyWaiting c =>
      if _counters s c =? 0 then Some (if c : bool then goto t Idle (with_destroyed true s) else goto t (DestroyWaiting true) s)
      else if c : bool then Some (goto t (DestroyWaiting false) s) else None
  end.

Inductive label : Type :=
  | Step (t : nat)
  | Read (t : nat) (f : T → outcome A)
  | Write (t : nat) (w1 w2 : SE T A)
  | Destroy (t : nat).

(** Whoever touches the object after its destruction has undefined behaviour. *)
Definition alive (s : State) (r : option State) : option (outcome State) :=
  s' ← r; Some (if destroyed s then Throw (Undefined "use of a destroyed LeftRight") else Ok s').
Definition enter (t : nat) (p : Phase) (s : State) : option State :=
  match threads s !! t with Some Idle => Some (goto t p s) | _ => None end.
Definition step (l : label) (s : State) : option (outcome State) :=
  alive s
    match l with
    | Step t => p ← threads s !! t; phase_step t p s
    | Read t f => enter t (Counting f (_foregroundCounterIndex s)) s
    | Write t w1 w2 => enter t (Locking w1 w2) s
    | Destroy t => enter t Destroying s
    end.
Definition steps_to (l : label) (s s' : State) : Prop := step l s = Some (Ok s').

Definition make (v : T) (n : nat) : State := mkState None false false (λ _, 0) (λ _, v) false false (replicate n Idle) [].

(** ** What it promises *)

Inductive Op : Type :=
  | OpRead (f : T → outcome A)
  | OpWrite (w1 w2 : SE T A).
(** The effect of a call on the object: an exception of the second call of [writeFunc]
    comes after the change. *)
Definition atomic (op : Op) (v : T) : outcome A * T :=
  match op with
  | OpRead f => (f v, v)
  | OpWrite w1 w2 => match w1 v with (Ok _, v') => ((w2 v).1, v') | (Throw e, _) => (Throw e, v) end
  end.

Inductive Status : Type := Free | Pending (op : Op) | Done (r : outcome A) | Closing.
Record Spec : Type := mkSpec { value : T; statuses : list Status; results : list (nat * outcome A) }.

(** A call starts, happens, and returns; once the destructor runs it may be refused. *)
Inductive spec_step : Spec → Spec → Prop :=
  | spec_call t op v st rs : st !! t = Some Free → spec_step (mkSpec v st rs) (mkSpec v (<[t := Pending op]> st) rs)
  | spec_happen t op v st rs : st !! t = Some (Pending op) →
      spec_step (mkSpec v st rs) (mkSpec (atomic op v).2 (<[t := Done (atomic op v).1]> st) rs)
  | spec_refuse t op u v st rs : st !! t = Some (Pending op) → st !! u = Some Closing →
      spec_step (mkSpec v st rs) (mkSpec v (<[t := Done (Throw refusal)]> st) rs)
  | spec_return t r v st rs : st !! t = Some (Done r) → spec_step (mkSpec v st rs) (mkSpec v (<[t := Free]> st) (rs ++ [(t, r)]))
  | spec_close t v st rs : st !! t = Some Free → spec_step (mkSpec v st rs) (mkSpec v (<[t := Closing]> st) rs)
  | spec_closed t v st rs : st !! t = Some Closing → spec_step (mkSpec v st rs) (mkSpec v (<[t := Free]> st) rs).

(** *** One thread *)

(** What a call of [write] does when [writeFunc] is a function of the object. *)
Definition write (f : SE T A) : SE T A := λ v, match f v with (Ok r, v') => (Ok r, v') | (Throw e, _) => (Throw e, v) end.
Definition read (f : T → outcome A) : SE T A := λ v, (f v, v).
End leftright.
End LeftRight.
