(* ===== verification/LeftRightProofs.v ===== *)
(** * The invariant of [LeftRight]

    Counters count the readers inside, the local copies of a writer are what it copied,
    and who reads the background instance is counted by a counter the writer still waits
    for.  So a writer has its instance for itself. *)
From S2P Require Import Prelude LeftRight.
Local Open Scope Z_scope.
#[local] Set Warnings "-clear-no-such-hyp".
Import LeftRight.

Section proofs.
Context {T A : Type}.
Implicit Types (s : State (T:=T) (A:=A)) (p q : Phase (T:=T) (A:=A)) (t u : nat) (c d i : index) (w : SE T A).

Definition holds_mutex p : bool :=
  match p with
  | WriteChecking _ _ | Loading _ _ | Writing _ _ _ | Switching _ _ _ | LoadingCounter _ _ | Waiting _ _ _ | SwitchingCounter _ _ _
  | WaitingAgain _ _ _ | WritingAgain _ _ | Recovering _ _ | Unlocking _ | DestroyUnlocking => true
  | _ => false
  end.
Definition counted p : option index :=
  match p with Checking _ c | Choosing _ c | Reading _ c _ | Leaving c _ => Some c | _ => None end.
Definition counts c p : Z := if decide (counted p = Some c) then 1 else 0.
Definition closing p : bool := match p with Destroying | DestroyLocking | DestroyUnlocking | DestroyWaiting _ => true | _ => false end.

(** The two calls of [writeFunc] do the same to the object when both return. *)
Definition agree w1 w2 : Prop := ∀ v r1 v1 r2 v2, w1 v = (Ok r1, v1) → w2 v = (Ok r2, v2) → v2 = v1.
Definition foreground s : T := _data s (_foregroundDataIndex s).
Definition background s : T := _data s (flip (_foregroundDataIndex s)).
(** The second call brings the background up to date. *)
Definition catches_up s w2 : Prop := ∀ r v, w2 (background s) = (Ok r, v) → v = foreground s.
Definition local_ok s p : Prop :=
  match p with
  | Locking w1 w2 => agree w1 w2
  | WriteChecking w1 w2 | Loading w1 w2 => agree w1 w2 ∧ background s = foreground s
  | Writing w1 w2 d => agree w1 w2 ∧ background s = foreground s ∧ d = _foregroundDataIndex s
  | Switching w1 w2 d => agree w1 w2 ∧ (∃ r, w1 (foreground s) = (Ok r, background s)) ∧ d = _foregroundDataIndex s
  | LoadingCounter w2 d | WritingAgain w2 d => catches_up s w2 ∧ d = _foregroundDataIndex s
  | Waiting w2 d c | SwitchingCounter w2 d c | WaitingAgain w2 d c =>
      catches_up s w2 ∧ d = _foregroundDataIndex s ∧ c = _foregroundCounterIndex s
  | Recovering e d => d = _foregroundDataIndex s
  | Unlocking _ | DestroyUnlocking => background s = foreground s
  | _ => True
  end.
(** A writer in this phase has not waited for the readers that this counter counts. *)
Definition waits_for q c : Prop :=
  match q with
  | LoadingCounter _ _ | Waiting _ _ _ => True
  | SwitchingCounter _ _ c' => c = c'
  | WaitingAgain _ _ c' => c = flip c'
  | _ => False
  end.

Record inv s : Prop := {
  i_small : Z.of_nat (length (threads s)) < 2 ^ 31;
  i_mutex t p : threads s !! t = Some p → holds_mutex p = bool_decide (_writeMutex s = Some t);
  i_holder t : _writeMutex s = Some t → is_Some (threads s !! t);
  i_counters c : _counters s c = lsum (counts c) (threads s);
  i_local t p : threads s !! t = Some p → local_ok s p;
  i_free : _writeMutex s = None → background s = foreground s;
  i_readers t f c d : threads s !! t = Some (Reading f c d) →
    d = _foregroundDataIndex s ∨ ∃ u q, threads s !! u = Some q ∧ waits_for q c;
  i_closing : _inDestruction s = true → destroyed s = true ∨ ∃ t p, threads s !! t = Some p ∧ closing p = true
}.

(** ** Small facts *)
Lemma counts_bound c p : 0 ≤ counts c p ≤ 1.
Proof. unfold counts. case_decide; lia. Qed.
Lemma upd_eq {X} c (x : X) a : upd c x a c = x.
Proof. unfold upd. by rewrite decide_True. Qed.
Lemma upd_ne {X} c c' (x : X) a : c' ≠ c → upd c x a c' = a c'.
Proof. intros. unfold upd. by rewrite decide_False. Qed.
Lemma flip_flip c : flip (flip c) = c.
Proof. by destruct c. Qed.
Lemma flip_ne c : flip c ≠ c.
Proof. by destruct c. Qed.
Lemma ne_flip c d : d ≠ c → d = flip c.
Proof. by destruct c, d. Qed.

Lemma local_frame s s' p : holds_mutex p = false → local_ok s p → local_ok s' p.
Proof. by destruct p. Qed.
Lemma waits_holds q c : waits_for q c → holds_mutex q = true.
Proof. by destruct q. Qed.
Lemma closing_holds s s' p : _data s' = _data s → _foregroundDataIndex s' = _foregroundDataIndex s →
  _foregroundCounterIndex s' = _foregroundCounterIndex s → local_ok s p → local_ok s' p.
Proof. intros E1 E2 E3. unfold local_ok, catches_up, background, foreground. by rewrite E1, E2, E3. Qed.

Lemma number_bound s c : inv s → 0 ≤ _counters s c ≤ Z.of_nat (length (threads s)).
Proof.
  intros I. rewrite (i_counters s I). split; [apply lsum_nonneg|apply lsum_bound]; intros x; apply counts_bound.
Qed.
Lemma zero_counted s c t p : inv s → _counters s c = 0 → threads s !! t = Some p → counted p ≠ Some c.
Proof.
  intros I Hz Hp E. rewrite (i_counters s I) in Hz. pose proof (lsum_elem (counts c) (threads s) p (λ x, proj1 (counts_bound c x)) (list_elem_of_lookup_2 _ _ _ Hp)) as H.
  unfold counts in H at 1. rewrite decide_True in H by done. lia.
Qed.
Lemma nonzero_counted s c : inv s → _counters s c ≠ 0 → ∃ t p, threads s !! t = Some p ∧ counted p = Some c.
Proof.
  intros I. rewrite (i_counters s I). generalize (threads s) as l. induction l as [|p l IH]; [done|]. rewrite lsum_cons. unfold counts at 1. case_decide as E.
  - intros _. by exists 0%nat, p.
  - intros H. destruct IH as (t & q & Hq & Hc); [lia|]. by exists (S t), q.
Qed.
Lemma holder_unique s t u p q : inv s → threads s !! t = Some p → threads s !! u = Some q → holds_mutex p = true → holds_mutex q = true → t = u.
Proof.
  intros I Hp Hq Ep Eq. rewrite (i_mutex s I t p Hp) in Ep. rewrite (i_mutex s I u q Hq) in Eq. apply bool_decide_eq_true in Ep, Eq. congruence.
Qed.

(** ** A step of one thread *)
Lemma step_inv t p p' s s' : inv s → threads s !! t = Some p →
  threads s' = <[t := p']> (threads s) →
  (∀ c, _counters s' c = _counters s c - counts c p + counts c p') →
  holds_mutex p' = bool_decide (_writeMutex s' = Some t) →
  (∀ u, u ≠ t → _writeMutex s' = Some u ↔ _writeMutex s = Some u) →
  local_ok s' p' →
  (holds_mutex p = true ∨ _data s' = _data s ∧ _foregroundDataIndex s' = _foregroundDataIndex s ∧ _foregroundCounterIndex s' = _foregroundCounterIndex s) →
  (_writeMutex s' = None → background s' = foreground s') →
  (∀ f c d, p' = Reading f c d → d = _foregroundDataIndex s') →
  (∀ u f c d, u ≠ t → threads s !! u = Some (Reading f c d) → d = _foregroundDataIndex s' ∨ waits_for p' c ∨ holds_mutex p = false) →
  (_inDestruction s' = true → destroyed s' = true ∨ closing p' = true ∨ (_inDestruction s = true ∧ destroyed s' = destroyed s ∧ closing p = false)) →
  inv s'.
Proof.
  intros I Hp Hth Hc Hm Hmo Hl Hf Hfree Hnew Hstale Hcl.
  pose proof (lookup_lt_Some _ _ _ Hp) as Hlt.
  assert (Hnew_t : threads s' !! t = Some p') by (rewrite Hth; by apply list_lookup_insert_eq).
  assert (Hother : ∀ u q, u ≠ t → threads s' !! u = threads s !! u) by (intros u q Hne; rewrite Hth; by apply list_lookup_insert_ne).
  split.
  - rewrite Hth, length_insert. apply I.
  - intros u q Hq. destruct (decide (u = t)) as [->|Hne]; [congruence|]. rewrite (Hother u q Hne) in Hq. rewrite (i_mutex s I u q Hq). apply bool_decide_ext. symmetry. by apply Hmo.
  - intros u Hu. destruct (decide (u = t)) as [->|Hne]; [by rewrite Hnew_t|]. rewrite (Hother u p Hne). by apply (i_holder s I), Hmo.
  - intros c. rewrite Hc, Hth, (lsum_update _ _ _ _ _ Hp), (i_counters s I). lia.
  - intros u q Hq. destruct (decide (u = t)) as [->|Hne]; [by simplify_eq|]. rewrite (Hother u q Hne) in Hq. pose proof (i_local s I u q Hq) as Hok.
    destruct Hf as [Hh|(E1 & E2 & E3)]; [|by eapply closing_holds]. apply (local_frame s); [|done].
    destruct (holds_mutex q) eqn:Eq; [|done]. by destruct (Hne (holder_unique s u t q p I Hq Hp Eq Hh)).
  - done.
  - intros u f c d Hu. destruct (decide (u = t)) as [->|Hne]; [left; rewrite Hnew_t in Hu; injection Hu as Hu; by eapply Hnew|].
    rewrite (Hother u p Hne) in Hu. destruct (Hstale u f c d Hne Hu) as [?|[?|Hh]]; [by left|right; by exists t, p'|].
    destruct Hf as [?|(_ & E2 & _)]; [congruence|]. destruct (i_readers s I u f c d Hu) as [?|(v & q & Hq & Hw)]; [left; congruence|right].
    exists v, q. split; [|done]. rewrite Hother; [done..|]. intros ->. apply waits_holds in Hw. congruence.
  - intros Hd. destruct (Hcl Hd) as [?|[?|(H1 & H2 & H3)]]; [by left|right; by exists t, p'|]. rewrite H2.
    destruct (i_closing s I H1) as [?|(u & q & Hq & Hcq)]; [by left|right]. exists u, q. split; [|done]. rewrite Hother; [done..|]. intros ->. congruence.
Qed.

(** A step of a thread without the mutex, and one of a thread with it. *)
Lemma reader_inv t p p' s s' : inv s → threads s !! t = Some p → holds_mutex p = false → holds_mutex p' = false →
  threads s' = <[t := p']> (threads s) → _writeMutex s' = _writeMutex s → _data s' = _data s →
  _foregroundDataIndex s' = _foregroundDataIndex s → _foregroundCounterIndex s' = _foregroundCounterIndex s →
  (∀ c, _counters s' c = _counters s c - counts c p + counts c p') → local_ok s' p' →
  (∀ f c d, p' = Reading f c d → d = _foregroundDataIndex s') →
  (_inDestruction s' = true → destroyed s' = true ∨ closing p' = true ∨ (_inDestruction s = true ∧ destroyed s' = destroyed s ∧ closing p = false)) →
  inv s'.
Proof.
  intros I Hp Hh Hh' Hth Em Ed E1 E2 Hc Hl Hr Hcl. apply (step_inv t p p' s); try done; try (by right); try (by intros; right; right).
  - rewrite Em. pose proof (i_mutex s I t p Hp). congruence.
  - intros u _. by rewrite Em.
  - rewrite Em. unfold background, foreground. rewrite Ed, E1. apply I.
Qed.
Lemma writer_inv t p p' s s' : inv s → threads s !! t = Some p → holds_mutex p = true → holds_mutex p' = true →
  threads s' = <[t := p']> (threads s) → _writeMutex s' = _writeMutex s → _counters s' = _counters s →
  _inDestruction s' = _inDestruction s → destroyed s' = destroyed s → closing p = closing p' → local_ok s' p' →
  (∀ u f c d, u ≠ t → threads s !! u = Some (Reading f c d) → d = _foregroundDataIndex s' ∨ waits_for p' c) → inv s'.
Proof.
  intros I Hp Hh Hh' Hth Em Ec E1 E2 Hcc Hl Hr. pose proof (i_mutex s I t p Hp) as Hm. rewrite Hh in Hm. symmetry in Hm. apply bool_decide_eq_true in Hm.
  apply (step_inv t p p' s); try done; try (by left).
  - intros c. rewrite Ec. unfold counts. assert (counted p = None ∧ counted p' = None) as [-> ->] by (by destruct p, p'). by case_decide; lia.
  - by rewrite Em, Hm, bool_decide_eq_true_2.
  - intros u _. by rewrite Em.
  - by rewrite Em, Hm.
  - by intros f c d ->.
  - intros u f c d Hne Hu. destruct (Hr u f c d Hne Hu); auto.
  - rewrite E1, E2, <- Hcc. destruct (closing p); auto.
Qed.
(** Who reads the background is counted by a counter that the holder of the mutex waits for. *)
Lemma stale_readers s t p u f c d : inv s → threads s !! t = Some p → holds_mutex p = true → threads s !! u = Some (Reading f c d) →
  d = _foregroundDataIndex s ∨ waits_for p c.
Proof.
  intros I Hp Hh Hu. destruct (i_readers s I u f c d Hu) as [?|(v & q & Hq & Hw)]; [by left|right]. pose proof (waits_holds _ _ Hw) as Hhq.
  assert (v = t) as -> by (by eapply holder_unique). by simplify_eq.
Qed.

Lemma same_counts s c p p' : counted p = None → counted p' = None → _counters s c = _counters s c - counts c p + counts c p'.
Proof. intros Ep Ep'. unfold counts. rewrite Ep, Ep'. by case_decide; lia. Qed.
(** Locking and unlocking the mutex. *)
Lemma acquire_inv t p p' s : inv s → threads s !! t = Some p → counted p = None → counted p' = None → _writeMutex s = None →
  holds_mutex p = false → holds_mutex p' = true → closing p = closing p' → (background s = foreground s → local_ok s p') → inv (goto t p' (with_mutex (Some t) s)).
Proof.
  intros I Hp Hc Hc' Em Hh Hh' Hcl Hl. pose proof (i_mutex s I t p Hp) as Hm. apply (step_inv t p p' s); try done; try (by auto); cbn.
  - intros c. by apply same_counts.
  - by rewrite bool_decide_eq_true_2.
  - intros u Hne. rewrite Em. split; congruence.
  - eapply closing_holds; [..|by apply Hl, I]; done.
  - by intros f c d ->.
  - rewrite <- Hcl. destruct (closing p); auto.
Qed.
Lemma release_inv t p p' s s' : inv s → threads s !! t = Some p → holds_mutex p = true → holds_mutex p' = false → counted p' = None → closing p = closing p' →
  (∀ c, ¬ waits_for p c) → background s = foreground s → (∀ s, local_ok s p') → threads s' = <[t := p']> (threads s) → _writeMutex s' = None →
  _data s' = _data s → _foregroundDataIndex s' = _foregroundDataIndex s → _counters s' = _counters s → _inDestruction s' = _inDestruction s →
  destroyed s' = destroyed s → inv s'.
Proof.
  intros I Hp Hh Hh' Hc' Hcl Hw Hs Hl Hth Em Ed E1 Ec E2 E3. pose proof (i_mutex s I t p Hp) as Hm. rewrite Hh in Hm. symmetry in Hm. apply bool_decide_eq_true in Hm.
  apply (step_inv t p p' s); try done; try (by auto).
  - intros c. rewrite Ec. apply same_counts; [by destruct p|done].
  - by rewrite Em.
  - intros u Hne. rewrite Em, Hm. split; congruence.
  - intros _. unfold background, foreground. by rewrite Ed, E1.
  - by intros f c d ->.
  - intros u f c d Hne Hu. rewrite E1. destruct (stale_readers s t p u f c d I Hp Hh Hu) as [?|?]; [by left|]. by destruct (Hw c).
  - rewrite E2, E3, <- Hcl. destruct (closing p); auto.
Qed.
Lemma reader_counter s c t p : inv s → threads s !! t = Some p → (counted p ≠ Some c → wrapS 32 (_counters s c + 1) = _counters s c + 1) ∧
  (counted p = Some c → wrapS 32 (_counters s c - 1) = _counters s c - 1).
Proof.
  intros I Hp. pose proof (number_bound s c I) as Hb. pose proof (i_small s I) as Hs. split; intros Hc; apply wrapS_id; unfold in_S; try lia; split; try lia.
  - enough (_counters s c + 1 ≤ Z.of_nat (length (threads s))) by lia. rewrite (i_counters s I).
    pose proof (lsum_update (counts c) (threads s) t p (Leaving c (Throw refusal)) Hp) as E. pose proof (lsum_bound (counts c) (<[t:=Leaving c (Throw refusal)]> (threads s)) (λ x, proj2 (counts_bound c x))) as H.
    rewrite length_insert in H. unfold counts at 3 4 in E. rewrite decide_False in E by done. cbn [counted] in E. rewrite decide_True in E by done. lia.
Qed.

(** [lem] for the phase that the step ends in. *)
Ltac stepped lem I Hp :=
  lazymatch goal with |- inv ?x => let th := eval cbn in (threads x) in lazymatch th with <[_ := ?p']> _ => apply (lem _ _ p' _ x I Hp) end end.
Lemma reader_phase_inv t p s s' : inv s → threads s !! t = Some p → holds_mutex p = false → phase_step t p s = Some s' → inv s'.
Proof.
  intros I Hp Hh H. pose proof (i_local s I t p Hp) as Hl.
  destruct p; cbn [phase_step] in H; cbn [local_ok] in Hl; try done; clear Hh.
  - injection H as <-. destruct (reader_counter s c t _ I Hp) as [Hinc _]. stepped reader_inv I Hp; try done; [|by auto].
    intros c'. cbn. unfold counts. cbn [counted]. destruct (decide (c' = c)) as [->|Hne]; [rewrite upd_eq, Hinc by done|rewrite upd_ne by done]; repeat case_decide; simplify_eq; lia.
  - injection H as <-. destruct (_inDestruction s) eqn:Ed; stepped reader_inv I Hp; try done; try (by auto); intros c'; cbn; unfold counts; cbn [counted]; lia.
  - injection H as <-. stepped reader_inv I Hp; try done; try (by auto); [intros c'; cbn; unfold counts; cbn [counted]; lia|]. by intros f' c' d' [= -> -> <-].
  - injection H as <-. stepped reader_inv I Hp; try done; try (by auto). intros c'; cbn; unfold counts; cbn [counted]; lia.
  - injection H as <-. destruct (reader_counter s c t _ I Hp) as [_ Hdec]. stepped reader_inv I Hp; try done; [|by auto].
    intros c'. cbn. unfold counts. cbn [counted]. destruct (decide (c' = c)) as [->|Hne]; [rewrite upd_eq, Hdec by done|rewrite upd_ne by done]; repeat case_decide; simplify_eq; lia.
  - destruct (_writeMutex s) eqn:Em; [done|]. injection H as <-. by apply (acquire_inv t (Locking w1 w2)).
  - injection H as <-. stepped reader_inv I Hp; try done; try (by auto). intros c. by apply (same_counts s).
  - destruct (_writeMutex s) eqn:Em; [done|]. injection H as <-. by apply (acquire_inv t DestroyLocking).
  - assert (∃ p', holds_mutex p' = false ∧ counted p' = None ∧ (∀ f c d, p' ≠ Reading f c d) ∧ (∀ s, local_ok s p') ∧
      (s' = goto t p' s ∧ closing p' = true ∨ s' = goto t p' (with_destroyed true s))) as (p' & H1 & H2 & H3 & H4 & H5).
    { destruct (_counters s c =? 0), c; simplify_eq; eexists; (split_and!; [| | | |by auto]); done. }
    apply (reader_inv t _ p' s _ I Hp); try done; try (by destruct H5 as [[-> _]| ->]).
    + intros c'. destruct H5 as [[-> _]| ->]; cbn; by apply same_counts.
    + intros f' c' d' ->. by destruct (H3 f' c' d').
    + destruct H5 as [[-> ?]| ->]; cbn; auto.
Qed.
Lemma writer_phase_inv t p s s' : inv s → threads s !! t = Some p → holds_mutex p = true → phase_step t p s = Some s' → inv s'.
Proof.
  intros I Hp Hh H. pose proof (i_local s I t p Hp) as Hl.
  assert (Hstale : ∀ u f c d, threads s !! u = Some (Reading f c d) → d = _foregroundDataIndex s ∨ waits_for p c) by (intros; by eapply stale_readers).
  destruct p; cbn [phase_step] in H; cbn [local_ok] in Hl; try done.
  - injection H as <-. destruct (_inDestruction s) eqn:Ed; stepped writer_inv I Hp; try done; try (by destruct Hl); intros u f c d Hne Hu; exact (Hstale u f c d Hu).
  - injection H as <-. stepped writer_inv I Hp; try done; [by destruct Hl|]. intros u f c d Hne Hu. exact (Hstale u f c d Hu).
  - injection H as <-. destruct Hl as (Ha & Hs & ->).
    assert (Hst : ∀ u f c d, u ≠ t → threads s !! u = Some (Reading f c d) → d = _foregroundDataIndex s ∨ False) by (intros u f c d Hne Hu; exact (Hstale u f c d Hu)).
    unfold background in Hs. rewrite Hs. destruct (w1 (foreground s)) as [[a|e] v'] eqn:Ew; cbn [fst snd]; stepped writer_inv I Hp; try done.
    + cbn. split; [done|]. split; [|done]. exists a. unfold foreground, background. cbn. by rewrite upd_eq, upd_ne by (symmetry; apply flip_ne).
  - injection H as <-. destruct Hl as (Ha & [a Hw] & ->). stepped writer_inv I Hp; try done; [|by intros; right]. cbn. split; [|done].
    unfold catches_up, background, foreground. cbn. rewrite flip_flip. intros r v Hv. by apply (Ha _ _ _ _ _ Hw Hv).
  - injection H as <-. stepped writer_inv I Hp; try done; [by destruct Hl|]. by intros; right.
  - destruct (_counters s (flip c) =? 0) eqn:Ez; [|done]. injection H as <-. apply Z.eqb_eq in Ez. stepped writer_inv I Hp; try done.
    intros u f c' d' Hne Hu. right. cbn. pose proof (zero_counted s (flip c) u _ I Ez Hu) as Hc. cbn in Hc. destruct c, c'; naive_solver.
  - injection H as <-. destruct Hl as (Ha & -> & ->). stepped writer_inv I Hp; try done.
    intros u f c' d' Hne Hu. destruct (Hstale u f c' d' Hu) as [?|Hw]; [by left|right]. cbn in *. by rewrite flip_flip.
  - destruct (_counters s (flip c) =? 0) eqn:Ez; [|done]. injection H as <-. apply Z.eqb_eq in Ez. destruct Hl as (Ha & -> & ->). stepped writer_inv I Hp; try done.
    intros u f c' d' Hne Hu. left. destruct (Hstale u f c' d' Hu) as [?|Hw]; [done|]. cbn in Hw. subst c'. by destruct (zero_counted s _ u _ I Ez Hu).
  - injection H as <-. destruct Hl as (Ha & ->).
    assert (Hst : ∀ u f c d, u ≠ t → threads s !! u = Some (Reading f c d) → d = _foregroundDataIndex s ∨ False) by (intros u f c d Hne Hu; exact (Hstale u f c d Hu)).
    fold (background s). destruct (w2 (background s)) as [[a|e] v'] eqn:Ew; cbn [fst snd]; stepped writer_inv I Hp; try done.
    + cbn. unfold foreground, background. cbn. rewrite upd_eq, upd_ne by (symmetry; apply flip_ne). by eapply Ha.
  - injection H as <-. subst d. stepped writer_inv I Hp; try done.
    + cbn. unfold foreground, background. cbn. by rewrite upd_eq, upd_ne by (symmetry; apply flip_ne).
    + intros u f c d Hne Hu. exact (Hstale u f c d Hu).
  - injection H as <-. apply (release_inv t (Unlocking r) Idle s); try done. by intros c [].
  - injection H as <-. apply (release_inv t DestroyUnlocking (DestroyWaiting false) s); try done. by intros c [].
Qed.
Lemma phase_step_inv t p s s' : inv s → threads s !! t = Some p → phase_step t p s = Some s' → inv s'.
Proof. intros I Hp. destruct (holds_mutex p) eqn:Hh; [by apply writer_phase_inv|by apply reader_phase_inv]. Qed.

(** ** The object as one copy *)
Definition status s p : Status (T:=T) (A:=A) :=
  match p with
  | Idle => Free
  | Counting f _ | Checking f _ | Choosing f _ => Pending (OpRead f)
  | Reading f _ d => Done (f (_data s d))
  | Leaving _ r | Unlocking r => Done r
  | Locking w1 w2 | WriteChecking w1 w2 | Loading w1 w2 | Writing w1 w2 _ | Switching w1 w2 _ => Pending (OpWrite w1 w2)
  | LoadingCounter w2 d | Waiting w2 d _ | SwitchingCounter w2 d _ | WaitingAgain w2 d _ | WritingAgain w2 d => Done (w2 (_data s (flip d))).1
  | Recovering e _ => Done (Throw e)
  | Destroying | DestroyLocking | DestroyUnlocking | DestroyWaiting _ => Closing
  end.
Definition abs s : Spec (T:=T) (A:=A) := mkSpec (foreground s) (status s <$> threads s) (log s).

Lemma fmap_update {X Y} (k k' : X → Y) (l : list X) (i : nat) x : (∀ j y, j ≠ i → l !! j = Some y → k' y = k y) → k' <$> <[i := x]> l = <[i := k' x]> (k <$> l).
Proof.
  intros H. apply list_eq. intros j. rewrite list_lookup_fmap. destruct (decide (j = i)) as [->|Hne].
  - destruct (decide (i < length l)%nat) as [Hlt|Hge]; [by rewrite !list_lookup_insert_eq by (by rewrite ?length_fmap)|].
    rewrite !list_insert_ge by (rewrite ?length_fmap; lia). rewrite list_lookup_fmap, lookup_ge_None_2 by lia. done.
  - rewrite !list_lookup_insert_ne by done. rewrite list_lookup_fmap. destruct (l !! j) as [y|] eqn:E; [|done]. cbn. by rewrite (H j y).
Qed.

(** The other threads do not see the step. *)
Definition unseen t s s' : Prop := ∀ u q, u ≠ t → threads s !! u = Some q → status s' q = status s q.
Lemma data_unseen t s s' : _data s' = _data s → unseen t s s'.
Proof. intros E u q _ _. destruct q; cbn; by rewrite ?E. Qed.
Lemma background_unseen t p x s s' : inv s → threads s !! t = Some p → holds_mutex p = true → (∀ c, ¬ waits_for p c) →
  _data s' = upd (flip (_foregroundDataIndex s)) x (_data s) → unseen t s s'.
Proof.
  intros I Hp Hh Hw E u q Hne Hq. assert (holds_mutex q = false) as Hhq.
  { destruct (holds_mutex q) eqn:Eq; [|done]. by destruct (Hne (holder_unique s u t q p I Hq Hp Eq Hh)). }
  destruct q; try done. destruct (stale_readers s t p u f c d I Hp Hh Hq) as [->|?]; [|by destruct (Hw c)]. cbn. rewrite E, upd_ne by (symmetry; apply flip_ne). done.
Qed.
Lemma abs_step t p p' s s' : threads s !! t = Some p → threads s' = <[t := p']> (threads s) → unseen t s s' →
  abs s' = mkSpec (foreground s') (<[t := status s' p']> (status s <$> threads s)) (log s').
Proof. intros Hp Hth Hu. unfold abs. rewrite Hth. f_equal. by apply fmap_update. Qed.
Lemma abs_stutter t p p' s s' : threads s !! t = Some p → threads s' = <[t := p']> (threads s) → unseen t s s' →
  foreground s' = foreground s → status s' p' = status s p → log s' = log s → abs s' = abs s.
Proof.
  intros Hp Hth Hu Hf Hs Hl. rewrite (abs_step t p p' s s') by done. unfold abs. rewrite Hf, Hl, Hs. f_equal. apply list_insert_id. by rewrite list_lookup_fmap, Hp.
Qed.

(** Every step is one of the promise, or not seen at all. *)
Ltac stutter t Hp I :=
  left; lazymatch goal with |- abs ?x = _ => let th := eval cbn in (threads x) in lazymatch th with <[_ := ?p']> _ => apply (abs_stutter t _ p' _ x Hp) end end; try done; try (by apply data_unseen).
Ltac visible t Hp :=
  right; lazymatch goal with |- spec_step _ (abs ?x) => let th := eval cbn in (threads x) in lazymatch th with <[_ := ?p']> _ =>
    rewrite (abs_step t _ p' _ x Hp); [|done|try (by apply data_unseen)] end end.
Lemma reader_step_refines t p s s' : inv s → destroyed s = false → threads s !! t = Some p → holds_mutex p = false → phase_step t p s = Some s' →
  abs s' = abs s ∨ spec_step (abs s) (abs s').
Proof.
  intros I Hd Hp Hh H.
  assert (Hst : (status s <$> threads s) !! t = Some (status s p)) by (by rewrite list_lookup_fmap, Hp).
  assert (Hu : ∀ x, _data x = _data s → unseen t s x) by (intros x; apply data_unseen).
  destruct p; cbn [phase_step] in H; try done; clear Hh.
  - injection H as <-. stutter t Hp I.
  - injection H as <-. destruct (_inDestruction s) eqn:Ed; [|by stutter t Hp I].
    visible t Hp. cbn.
    destruct (i_closing s I Ed) as [?|(u & q & Hq & Hc)]; [congruence|]. eapply (spec_refuse t _ u); [exact Hst|]. rewrite list_lookup_fmap, Hq. by destruct q.
  - injection H as <-. visible t Hp. by apply (spec_happen t (OpRead f)).
  - injection H as <-. stutter t Hp I.
  - injection H as <-. visible t Hp. by apply (spec_return t r).
  - destruct (_writeMutex s); [done|]. injection H as <-. stutter t Hp I.
  - injection H as <-. stutter t Hp I.
  - destruct (_writeMutex s); [done|]. injection H as <-. stutter t Hp I.
  - destruct (_counters s c =? 0), c; simplify_eq; try (by stutter t Hp I).
    visible t Hp. by apply (spec_closed t).
Qed.
Lemma writer_step_refines t p s s' : inv s → destroyed s = false → threads s !! t = Some p → holds_mutex p = true → phase_step t p s = Some s' →
  abs s' = abs s ∨ spec_step (abs s) (abs s').
Proof.
  intros I Hd Hp Hh H. pose proof (i_local s I t p Hp) as Hl.
  assert (Hst : (status s <$> threads s) !! t = Some (status s p)) by (by rewrite list_lookup_fmap, Hp).
  assert (Hu : ∀ x, _data x = _data s → unseen t s x) by (intros x; apply data_unseen).
  assert (Hb : ∀ v x, (∀ c, ¬ waits_for p c) → _data x = upd (flip (_foregroundDataIndex s)) v (_data s) → unseen t s x) by (intros v x; by apply (background_unseen t p)).
  assert (Hf : ∀ v, upd (flip (_foregroundDataIndex s)) v (_data s) (_foregroundDataIndex s) = foreground s) by (intros v; unfold foreground; apply upd_ne, not_eq_sym, flip_ne).
  destruct p; cbn [phase_step] in H; cbn [local_ok] in Hl; try done.
  - injection H as <-. destruct (_inDestruction s) eqn:Ed; [|by stutter t Hp I].
    visible t Hp. cbn.
    destruct (i_closing s I Ed) as [?|(u & q & Hq & Hc)]; [congruence|]. eapply (spec_refuse t _ u); [exact Hst|]. rewrite list_lookup_fmap, Hq. by destruct q.
  - injection H as <-. stutter t Hp I.
  - injection H as <-. destruct Hl as (Ha & Hs & ->). fold (background s). rewrite Hs. destruct (w1 (foreground s)) as [[a|e] v] eqn:Ew; cbn [fst snd].
    + stutter t Hp I; [|by apply Hf]. eapply Hb; [by intros ? []|done].
    + visible t Hp; [|eapply Hb; [by intros ? []|done]]. change (foreground (goto _ _ _)) with (upd (flip (_foregroundDataIndex s)) v (_data s) (_foregroundDataIndex s)). rewrite Hf. cbn.
      pose proof (spec_happen t (OpWrite w1 w2) (foreground s) _ (log s) Hst) as Hx. cbn in Hx. by rewrite Ew in Hx.
  - injection H as <-. destruct Hl as (Ha & [a Hw] & ->). visible t Hp.
    cbn. rewrite flip_flip. pose proof (spec_happen t (OpWrite w1 w2) (foreground s) _ (log s) Hst) as Hx. cbn in Hx. by rewrite Hw in Hx.
  - injection H as <-. stutter t Hp I.
  - destruct (_counters s (flip c) =? 0); [|done]. injection H as <-. stutter t Hp I.
  - injection H as <-. stutter t Hp I.
  - destruct (_counters s (flip c) =? 0); [|done]. injection H as <-. stutter t Hp I.
  - injection H as <-. destruct Hl as (Ha & ->). fold (background s).
    destruct (w2 (background s)) as [[a|e] v] eqn:Ew; cbn [fst snd]; stutter t Hp I; try (by apply Hf); try (by eapply Hb; [intros ? []|]); cbn; fold (background s); by rewrite Ew.
  - injection H as <-. subst d. stutter t Hp I; [|by apply Hf]. eapply Hb; [by intros ? []|done].
  - injection H as <-. visible t Hp. by apply (spec_return t r).
  - injection H as <-. stutter t Hp I.
Qed.

(** ** All reachable states *)
Definition agreeing (l : label (T:=T) (A:=A)) : Prop := match l with Write _ w1 w2 => agree w1 w2 | _ => True end.
Inductive reachable (v : T) (n : nat) : State → Prop :=
  | reachable_make : reachable v n (make v n)
  | reachable_step l s s' : reachable v n s → agreeing l → steps_to l s s' → reachable v n s'.

Lemma steps_to_alive l s s' : steps_to l s s' → destroyed s = false.
Proof. unfold steps_to, step, alive. intros H. apply bind_Some in H as (x & _ & H). by destruct (destroyed s). Qed.
Lemma enter_Some t p s s' : enter t p s = Some s' → threads s !! t = Some Idle ∧ s' = goto t p s.
Proof. unfold enter. destruct (threads s !! t) as [[]|]; try done. by intros [= <-]. Qed.
(** A step of a thread, or a call. *)
Lemma steps_to_inv l s s' : steps_to l s s' →
  (∃ t p, l = Step t ∧ threads s !! t = Some p ∧ phase_step t p s = Some s') ∨
  (∃ t p, threads s !! t = Some Idle ∧ s' = goto t p s ∧
     (l = Read t (match p with Counting f _ => f | _ => λ _, Throw refusal end) ∧ (∃ f c, p = Counting f c) ∨ (∃ w1 w2, l = Write t w1 w2 ∧ p = Locking w1 w2) ∨ (l = Destroy t ∧ p = Destroying))).
Proof.
  intros H. pose proof (steps_to_alive _ _ _ H) as Hd. unfold steps_to, step, alive in H. apply bind_Some in H as (x & H & E). rewrite Hd in E. injection E as ->.
  destruct l; [left; apply bind_Some in H as (p & Hp & H); by exists t, p|right; apply enter_Some in H as [Hp ->]; eexists t, _; (split_and!; [done..|])..]; naive_solver.
Qed.

Lemma make_inv v n : Z.of_nat n < 2 ^ 31 → inv (make v n).
Proof.
  intros Hn. assert (Hidle : ∀ t p, threads (make v n) !! t = Some p → p = Idle) by (intros t p H; by apply lookup_replicate in H as [-> _]).
  split; cbn; try done; try (by intros t p ->%Hidle); try (by intros t f c d H%Hidle).
  - by rewrite length_replicate.
  - intros c. change (0 = lsum (counts c) (replicate n Idle)). clear. induction n as [|n IH]; [done|]. cbn [replicate]. by rewrite lsum_cons, <- IH.
Qed.
Lemma enter_inv t p s : inv s → threads s !! t = Some Idle → (∃ f c, p = Counting f c) ∨ (∃ w1 w2, p = Locking w1 w2 ∧ agree w1 w2) ∨ p = Destroying → inv (goto t p s).
Proof.
  intros I Hp Hc. assert (holds_mutex p = false ∧ counted p = None ∧ local_ok (goto t p s) p ∧ (∀ f c d, p ≠ Reading f c d)) as (H1 & H2 & H3 & H4) by naive_solver.
  apply (reader_inv t Idle p s); try done; [intros c; by apply (same_counts s)|intros f c d E; by destruct (H4 f c d)|by auto].
Qed.
Lemma step_keeps_inv l s s' : inv s → agreeing l → steps_to l s s' → inv s'.
Proof.
  intros I Ha [(t & p & _ & Hp & H)|(t & p & Hp & -> & H)]%steps_to_inv; [by eapply phase_step_inv|]. apply enter_inv; [done..|].
  destruct H as [[_ H]|[(w1 & w2 & -> & ->)|[_ ->]]]; [by left|right; left; by exists w1, w2|by right; right].
Qed.
Lemma reachable_keeps_inv v n s : Z.of_nat n < 2 ^ 31 → reachable v n s → inv s.
Proof. intros Hn. induction 1; [by apply make_inv|by eapply step_keeps_inv]. Qed.
Lemma step_refines l s s' : inv s → steps_to l s s' → abs s' = abs s ∨ spec_step (abs s) (abs s').
Proof.
  intros I H. pose proof (steps_to_alive _ _ _ H) as Hd. apply steps_to_inv in H as [(t & p & _ & Hp & H)|(t & p & Hp & -> & H)].
  - destruct (holds_mutex p) eqn:Hh; [by eapply writer_step_refines|by eapply reader_step_refines].
  - assert (Hst : (status s <$> threads s) !! t = Some Free) by (by rewrite list_lookup_fmap, Hp).
    visible t Hp. destruct H as [[_ (f & c & ->)]|[(w1 & w2 & -> & ->)|[_ ->]]]; cbn; [by apply spec_call|by apply spec_call|by apply spec_close].
Qed.

(** ** Calls end *)
Definition rank p : Z :=
  match p with
  | Idle => 0
  | Leaving _ _ | Unlocking _ => 1
  | Reading _ _ _ | Recovering _ _ => 2
  | Choosing _ _ | WritingAgain _ _ => 3
  | Checking _ _ | WaitingAgain _ _ _ => 4
  | Counting _ _ | SwitchingCounter _ _ _ => 5
  | Waiting _ _ _ => 6
  | LoadingCounter _ _ => 7
  | Switching _ _ _ => 8
  | Writing _ _ _ => 9
  | Loading _ _ => 10
  | WriteChecking _ _ => 11
  | Locking _ _ => 12
  | Destroying | DestroyLocking | DestroyUnlocking | DestroyWaiting _ => 0
  end.
Definition work_left s : Z := lsum rank (threads s).
Definition no_destructor s : Prop := destroyed s = false ∧ ∀ t p, threads s !! t = Some p → closing p = false.
(** Runs without new calls. *)
Inductive runs_on s : nat → State (T:=T) (A:=A) → Prop :=
  | runs_here : runs_on s 0 s
  | runs_step k t s1 s2 : runs_on s k s1 → steps_to (Step t) s1 s2 → runs_on s (S k) s2.

Lemma phase_step_rank t p s s' : closing p = false → phase_step t p s = Some s' →
  ∃ p', threads s' = <[t := p']> (threads s) ∧ rank p' < rank p ∧ closing p' = false ∧ destroyed s' = destroyed s.
Proof.
  intros Hc H. destruct p; cbn [phase_step] in H; try done; repeat case_match; simplify_eq; eexists; (split; [reflexivity|]); done.
Qed.
Lemma run_step t s s' : no_destructor s → steps_to (Step t) s s' → no_destructor s' ∧ work_left s' < work_left s.
Proof.
  intros [Hd Hc] [(u & p & [= <-] & Hp & H)|(u & p & _ & _ & H)]%steps_to_inv; [|naive_solver].
  destruct (phase_step_rank t p s s' (Hc t p Hp) H) as (p' & Hth & Hr & Hc' & Hd'). split.
  - split; [congruence|]. intros u q. rewrite Hth. destruct (decide (u = t)) as [->|Hne]; [|rewrite list_lookup_insert_ne by done; apply Hc].
    rewrite list_lookup_insert_eq by (by eapply lookup_lt_Some). by intros [= <-].
  - unfold work_left. rewrite Hth, (lsum_update rank _ _ _ _ Hp). lia.
Qed.
Lemma runs_bounded s k s' : no_destructor s → runs_on s k s' → no_destructor s' ∧ Z.of_nat k + work_left s' ≤ work_left s.
Proof.
  intros Hd. induction 1 as [|k t s1 s2 H IH Hs]; [split; [done|lia]|]. destruct IH as [Hd1 Hk]. destruct (run_step t s1 s2 Hd1 Hs). split; [done|lia].
Qed.
Lemma calls_left_nonneg s : 0 ≤ work_left s.
Proof. apply lsum_nonneg. by intros []. Qed.

(** A thread in a call has a step, or waits for one that has. *)
Definition has_step s : Prop := ∃ t s', steps_to (Step t) s s'.
Lemma phase_has_step s t p s' : destroyed s = false → threads s !! t = Some p → phase_step t p s = Some s' → has_step s.
Proof. intros Hd Hp H. exists t, s'. unfold steps_to, step, alive. rewrite Hp. cbn. rewrite H. cbn. by rewrite Hd. Qed.
Lemma counted_has_step s c : inv s → destroyed s = false → _counters s c ≠ 0 → has_step s.
Proof.
  intros I Hd Hc. destruct (nonzero_counted s c I Hc) as (t & p & Hp & E). destruct p; try done; (eapply phase_has_step; [done|exact Hp|reflexivity]).
Qed.
Lemma holder_has_step s t p : inv s → destroyed s = false → threads s !! t = Some p → holds_mutex p = true → has_step s.
Proof.
  intros I Hd Hp Hh. destruct p; try done; try (eapply phase_has_step; [done|exact Hp|reflexivity]).
  - destruct (Z.eqb_spec (_counters s (flip c)) 0) as [E|E]; [|by eapply counted_has_step]. eapply phase_has_step; [done|exact Hp|]. cbn. by rewrite E.
  - destruct (Z.eqb_spec (_counters s (flip c)) 0) as [E|E]; [|by eapply counted_has_step]. eapply phase_has_step; [done|exact Hp|]. cbn. by rewrite E.
Qed.
Lemma busy_has_step s t p : inv s → no_destructor s → threads s !! t = Some p → p ≠ Idle → has_step s.
Proof.
  intros I [Hd Hc] Hp Hb. destruct (holds_mutex p) eqn:Hh; [by eapply holder_has_step|]. specialize (Hc t p Hp).
  destruct p; try done; try (eapply phase_has_step; [done|exact Hp|reflexivity]).
  destruct (_writeMutex s) as [u|] eqn:Em; [|eapply phase_has_step; [done|exact Hp|cbn; by rewrite Em]].
  destruct (i_holder s I u Em) as [q Hq]. apply (holder_has_step s u q I Hd Hq). by rewrite (i_mutex s I u q Hq), Em, bool_decide_eq_true_2.
Qed.
(** A [writeFunc] that is a function of the object agrees with itself, and [write] of one
    thread is what happens then. *)
Lemma same_function w v : agree w w ∧ atomic (OpWrite w w) v = write w v.
Proof. split; [unfold agree; congruence|]. unfold atomic, write. by destruct (w v) as [[]]. Qed.

(** ** Properties *)

(** The instance that the next step of a writer changes. *)
Definition changes p : option index := match p with Writing _ _ d | WritingAgain _ d | Recovering _ d => Some (flip d) | _ => None end.

(** C12: in every interleaving of any number of readers, writers and destructors, calls of
    [read] and [write] take effect one after the other, each at one moment between its start
    and its return, and return what it gave there: an exception of the first call of
    [writeFunc] leaves the object as it was, one of the second call comes after the change. *)
Theorem calls_are_atomic (v : T) (n : nat) s (Hn : Z.of_nat n < 2 ^ 31) (Hr : reachable v n s) :
  rtc spec_step (mkSpec v (replicate n Free) []) (abs s).
Proof.
  induction Hr as [|l s s' Hr IH Ha Hs]; [unfold abs; cbn; by rewrite fmap_replicate|].
  destruct (step_refines l s s' (reachable_keeps_inv v n s Hn Hr) Hs) as [->|H]; [done|by eapply rtc_r].
Qed.
(** C13: while a writer changes one of the two instances, or copies into it after an exception,
    no reader is in the call that reads this instance and no other writer changes anything. *)
Theorem writers_alone (v : T) (n : nat) s (Hn : Z.of_nat n < 2 ^ 31) (Hr : reachable v n s) t p i (Ht : threads s !! t = Some p) (Hi : changes p = Some i) :
  (∀ u f c d, threads s !! u = Some (Reading f c d) → d ≠ i) ∧ ∀ u q, threads s !! u = Some q → is_Some (changes q) → u = t.
Proof.
  pose proof (reachable_keeps_inv v n s Hn Hr) as I. assert (Hm : ∀ q, is_Some (changes q) → holds_mutex q = true) by (by intros [] [j Hj]).
  assert (Hp : holds_mutex p = true) by (apply Hm; by eexists). split.
  - intros u f c d Hu. pose proof (i_local s I t p Ht) as Hl. destruct (stale_readers s t p u f c d I Ht Hp Hu) as [->|Hw]; [|by destruct p].
    assert (i = flip (_foregroundDataIndex s)) as -> by (destruct p; cbn in *; try done; injection Hi as <-; by destruct_and? Hl; subst).
    apply not_eq_sym, flip_ne.
  - intros u q Hu Hq. apply (holder_unique s u t q p I Hu Ht); [by apply Hm|done].
Qed.
(** Threads inside [read]. *)
Definition reading p : bool := match p with Counting _ _ | Checking _ _ | Choosing _ _ | Reading _ _ _ | Leaving _ _ => true | _ => false end.
(** C14: reading never waits: a thread inside [read] always has a next step.  As long as no
    destructor runs, somebody has a step when a call has not returned, and without new calls
    all schedules end within a bound on what is left to do: there is no deadlock, and no
    writer waits for ever. *)
Theorem calls_end (v : T) (n : nat) s (Hn : Z.of_nat n < 2 ^ 31) (Hr : reachable v n s) (Hd : no_destructor s) :
  (∀ t p, threads s !! t = Some p → reading p = true → ∃ s', steps_to (Step t) s s') ∧
  (∀ t p, threads s !! t = Some p → p ≠ Idle → has_step s) ∧
  (∀ k s', runs_on s k s' → Z.of_nat k ≤ work_left s).
Proof.
  pose proof (reachable_keeps_inv v n s Hn Hr) as I. split_and!.
  - intros t p Hp Hread. unfold steps_to, step, alive. rewrite Hp. cbn [mbind option_bind].
    destruct p; try done; cbn; rewrite (proj1 Hd); by eexists.
  - intros t p Hp Hb. by eapply busy_has_step.
  - intros k s' H. destruct (runs_bounded s k s' Hd H). pose proof (calls_left_nonneg s'). lia.
Qed.

(** ** Runs *)
Definition run (ls : list label) s : option State :=
  foldl (λ o l, s ← o; match step l s with Some (Ok s') => Some s' | _ => None end) (Some s) ls.
Lemma run_snoc ls l s : run (ls ++ [l]) s = s ← run ls s; match step l s with Some (Ok s') => Some s' | _ => None end.
Proof. unfold run. by rewrite foldl_app. Qed.
Lemma runs_reach v n ls s : Forall agreeing ls → run ls (make v n) = Some s → reachable v n s.
Proof.
  revert s. induction ls as [|l ls IH] using rev_ind; intros s Hls; [intros [= <-]; constructor|]. apply Forall_app in Hls as [Hls Hl].
  rewrite list.Forall_singleton in Hl. rewrite run_snoc. intros (s1 & H1 & H)%bind_Some. destruct (step l s1) as [[s2|]|] eqn:E; try done. injection H as <-. exact (reachable_step v n l s1 s2 (IH s1 Hls H1) Hl E).
Qed.
End proofs.

(** A writer adds one in the copy that is not read, while a reader is about to look at the other. *)
Definition add_one : SE Z Z := λ v, (Ok v, v + 1).
Definition sample_calls : list (label (T:=Z) (A:=Z)) :=
  [Write 0 add_one add_one; Read 1 (λ v, Ok v); Step 1; Step 0; Step 1; Step 0; Step 1; Step 0].
Definition sample_state : State (T:=Z) (A:=Z) := default (make 5 2) (run sample_calls (make 5 2)).
Lemma sample_reachable : reachable 5 2 sample_state.
Proof. apply (runs_reach 5 2 sample_calls); [|by vm_compute]. repeat constructor; cbn; unfold agree, add_one; naive_solver. Qed.

Lemma calls_are_atomic_witness : rtc spec_step (mkSpec 5 [Free; Free] []) (abs sample_state) ∧ statuses (abs sample_state) = [Pending (OpWrite add_one add_one); Done (Ok 5)].
Proof. split; [|by vm_compute]. apply (calls_are_atomic 5 2 sample_state); [lia|apply sample_reachable]. Defined.
Lemma writers_alone_witness : threads sample_state !! 0%nat = Some (Writing add_one add_one false) ∧ threads sample_state !! 1%nat = Some (Reading (λ v, Ok v) false false) ∧
  (∀ u f c d, threads sample_state !! u = Some (Reading f c d) → d ≠ true).
Proof. split_and!; [by vm_compute..|]. apply (writers_alone 5 2 sample_state ltac:(lia) sample_reachable 0 (Writing add_one add_one false) true); by vm_compute. Defined.
Lemma calls_end_witness : threads sample_state !! 1%nat = Some (Reading (λ v, Ok v) false false) ∧ (∃ s', steps_to (Step 1) sample_state s') ∧ has_step sample_state.
Proof.
  split; [by vm_compute|].
  destruct (calls_end 5 2 sample_state ltac:(lia) sample_reachable) as (H1 & H2 & _).
  - split; [by vm_compute|]. intros [|[|t]] p; [intros [= <-]; by vm_compute..|by intros [=]].
  - split; [by apply (H1 1%nat (Reading (λ v, Ok v) false false)); vm_compute|by apply (H2 1%nat (Reading (λ v, Ok v) false false)); [vm_compute|]].
Defined.
