(* ===== verification/Dispatcher.v ===== *)
(** * The operator dispatcher (aten/src/ATen/core/dispatch, op_registration)

    Operators are registered with a schema and kernels, one per type of tensor and one as
    a fallback; a call looks up the kernel for its first tensor argument.  Handles are
    positions in a list that stay valid, so a handle is the number of a list node, and the
    use of an erased node is undefined.  The table of kernels is behind [LeftRight]; the
    mutex makes the other calls atomic.

    Kernels and the functions that make their caches are opaque. *)
From S2P Require Import Prelude Text CoreTypes ScalarTypes JitTypes LeftRight.
From Stdlib Require Import SpecFloat.
Local Open Scope string_scope.
Local Open Scope nat_scope.
Local Open Scope list_scope.
#[local] Set Warnings "-register-all".

Module Dispatch.
Import JitTypes.

(** ** stack.h, ivalue.h *)

(** What dispatch and schemas look at in an [IValue]. *)
Inductive IValue : Type :=
  | NoneValue
  | TensorValue (type_id : Z)
  | IntValue (i : Z)
  | StringValue (s : string)
  | DoubleValue (d : spec_float)
  | BoolValue (b : bool)
  | TensorListValue (type_ids : list Z)
  | OtherValue.
Definition Stack : Type := list IValue.
(** [*(stack.end() - N + i)]. *)
Definition peek (stack : Stack) (i N : nat) : outcome IValue :=
  if N <=? length stack then
    match stack !! (length stack - N + i) with Some v => Ok v | None => Throw (Undefined "peek past the end") end
  else Throw (Undefined "peek below the stack").

Definition double_eqb (x y : spec_float) : bool := match SFcompare x y with Some Eq => true | _ => false end.
Definition shallowEquals (lhs rhs : IValue) : outcome bool :=
  match lhs with
  | NoneValue => Ok (match rhs with NoneValue => true | _ => false end)
  | IntValue i => Ok (match rhs with IntValue j => (i =? j)%Z | _ => false end)
  | StringValue s => Ok (match rhs with StringValue t => bool_decide (s = t) | _ => false end)
  | DoubleValue d => Ok (match rhs with DoubleValue e => double_eqb d e | _ => false end)
  | BoolValue b => Ok (match rhs with BoolValue c => Bool.eqb b c | _ => false end)
  | TensorValue _ | TensorListValue _ | OtherValue => AT_ERROR "shallowEquals(IValue, IValue) not implemented for type"
  end.

(** ** function_schema.h, alias_info.h *)

(** A [TypePtr]: two pointers to equal types are different when their addresses are. *)
Record TypePtr : Type := mkTypePtr { address : nat; pointee : Ty }.
Inductive AliasInfo : Type := mkAliasInfo (isWrite : bool) (beforeSets afterSets : gset string) (containedTypes : list AliasInfo).
Fixpoint AliasInfo_eqb (lhs rhs : AliasInfo) : bool :=
  match lhs, rhs with
  | mkAliasInfo w b a ts, mkAliasInfo w' b' a' ts' =>
      Bool.eqb w w' && bool_decide (b = b') && bool_decide (a = a') &&
      (fix go (ts ts' : list AliasInfo) : bool :=
         match ts, ts' with [], [] => true | t :: ts, t' :: ts' => AliasInfo_eqb t t' && go ts ts' | _, _ => false end) ts ts'
  end.

Record Argument : Type := mkArgument {
  name_ : string; type_ : TypePtr; N_ : option Z; default_value_ : option IValue; kwarg_only_ : bool; alias_info_ : option AliasInfo }.
Definition defaultValueEquals_ (lhs rhs : option IValue) : outcome bool :=
  match lhs, rhs with
  | Some l, Some r => shallowEquals l r
  | Some _, None => Ok false
  | None, _ => Ok (match rhs with None => true | Some _ => false end)
  end.
Definition option_eqb {A} (eqb : A → A → bool) (x y : option A) : bool :=
  match x, y with Some a, Some b => eqb a b | None, None => true | _, _ => false end.
Definition Argument_eqb (lhs rhs : Argument) : outcome bool :=
  and_then (Ok (bool_decide (name_ lhs = name_ rhs)))
 (and_then (Ok (address (type_ lhs) =? address (type_ rhs)))
 (and_then (Ok (bool_decide (N_ lhs = N_ rhs)))
 (and_then (defaultValueEquals_ (default_value_ lhs) (default_value_ rhs))
 (and_then (Ok (Bool.eqb (kwarg_only_ lhs) (kwarg_only_ rhs)))
           (Ok (option_eqb AliasInfo_eqb (alias_info_ lhs) (alias_info_ rhs))))))).

Record FunctionSchema : Type := mkSchema {
  name : string; overload_name : string; arguments : list Argument; returns_ : list Argument; is_vararg : bool; is_varret : bool }.
(** [==] on vectors. *)
Fixpoint elements_eqb (xs ys : list Argument) : outcome bool :=
  match xs, ys with x :: xs, y :: ys => and_then (Argument_eqb x y) (elements_eqb xs ys) | _, _ => Ok true end.
Definition vector_eqb (xs ys : list Argument) : outcome bool := if length xs =? length ys then elements_eqb xs ys else Ok false.
Definition FunctionSchema_eqb (lhs rhs : FunctionSchema) : outcome bool :=
  and_then (Ok (bool_decide (name lhs = name rhs)))
 (and_then (Ok (bool_decide (overload_name lhs = overload_name rhs)))
 (and_then (vector_eqb (arguments lhs) (arguments rhs))
 (and_then (vector_eqb (returns_ lhs) (returns_ rhs))
 (and_then (Ok (Bool.eqb (is_vararg lhs) (is_vararg rhs)))
           (Ok (Bool.eqb (is_varret lhs) (is_varret rhs))))))).

(** ** DispatchTable.h *)
Section dispatch.
Context {Kernel Creator Cache : Type} (create : Creator → outcome Cache).

Record DispatchTableEntry : Type := mkEntry { kernel_func : Kernel; cache_creator_func : Creator }.

(** [ThreadsafeOperatorTable_]. *)
Definition Table : Type := gmap Z DispatchTableEntry.
Definition emplace (key : Z) (value : DispatchTableEntry) : SE Table unit :=
  res ← LeftRight.write (λ map, match map !! key with Some _ => (Ok false, map) | None => (Ok true, <[key := value]> map) end);
  if res : bool then mret tt else AT_ERROR "Tried to register multiple kernels with same dispatch key".
Definition erase (key : Z) : SE Table unit :=
  LeftRight.write (λ map,
    match map !! key with
    | Some _ => (Ok tt, delete key map)
    | None => (AT_ERROR "Tried to deregister a kernel that isn't registered", map)
    end).
Definition table_lookup (key : Z) : SE Table (option DispatchTableEntry) := LeftRight.read (λ map, Ok (map !! key)).
Definition table_isEmpty : SE Table bool := LeftRight.read (λ map, Ok (bool_decide (size map = 0))).

Record DispatchStrategy : Type := mkStrategy {
  reverse_index_of_first_tensor_arg_ : nat; first_tensor_arg_is_tensor_list_ : bool; is_valid_ : bool }.
Definition get_dispatch_key (st : DispatchStrategy) (stack : Stack) : outcome Z :=
  first_tensor_arg ← peek stack 0 (reverse_index_of_first_tensor_arg_ st);
  if first_tensor_arg_is_tensor_list_ st then
    match first_tensor_arg with
    | TensorListValue [] => Throw (RuntimeError "Tried to dispatch based on an empty tensor list.")
    | TensorListValue (id :: _) => Ok id
    | _ => AT_ERROR "assertion failed"
    end
  else match first_tensor_arg with TensorValue id => Ok id | _ => AT_ERROR "assertion failed" end.

(** The loop of [get_dispatch_strategy_]: what is left of the arguments has the reverse
    index as its length. *)
Fixpoint get_dispatch_strategy (args : list Argument) : DispatchStrategy :=
  match args with
  | [] => mkStrategy 0 false false
  | arg :: rest =>
      if isSubtypeOf (pointee (type_ arg)) TensorType then mkStrategy (length args) false true
      else if isSubtypeOf (pointee (type_ arg)) (ListType TensorType) then mkStrategy (length args) true true
      else get_dispatch_strategy rest
  end.

Record DispatchTable : Type := mkTable {
  kernels_ : Table; dispatch_strategy_ : DispatchStrategy; operator_name_ : string; fallback_kernel_ : option DispatchTableEntry }.
Definition DispatchTable_make (schema : FunctionSchema) : DispatchTable := mkTable ∅ (get_dispatch_strategy (arguments schema)) (name schema) None.

Definition on_kernels {A} (m : SE Table A) : SE DispatchTable A := λ t,
  let '(r, k) := m (kernels_ t) in (r, mkTable k (dispatch_strategy_ t) (operator_name_ t) (fallback_kernel_ t)).
Definition set_fallback (f : option DispatchTableEntry) : SE DispatchTable unit :=
  modify (λ t, mkTable (kernels_ t) (dispatch_strategy_ t) (operator_name_ t) f).
Definition table_registerKernel (dispatch_key : Z) (kernel : DispatchTableEntry) : SE DispatchTable unit :=
  t ← get; AT_ASSERT (is_valid_ (dispatch_strategy_ t));; on_kernels (emplace dispatch_key kernel).
Definition table_deregisterKernel (dispatch_key : Z) : SE DispatchTable unit := on_kernels (erase dispatch_key).
Definition table_registerFallbackKernel (kernel : DispatchTableEntry) : SE DispatchTable unit := set_fallback (Some kernel).
Definition table_deregisterFallbackKernel : SE DispatchTable unit := set_fallback None.
Definition table_find (stack : Stack) : SE DispatchTable DispatchTableEntry :=
  t ← get;
  if is_valid_ (dispatch_strategy_ t) then
    dispatch_key ← lift (get_dispatch_key (dispatch_strategy_ t) stack);
    found ← on_kernels (table_lookup dispatch_key);
    match found, fallback_kernel_ t with
    | Some e, _ => mret e
    | None, Some e => mret e
    | None, None => AT_ERROR "Didn't find kernel to dispatch to"
    end
  else
    b ← on_kernels table_isEmpty;
    AT_ASSERT b;;
    match fallback_kernel_ t with Some e => mret e | None => AT_ERROR "Didn't find kernel to dispatch to" end.
Definition DispatchTable_isEmpty : SE DispatchTable bool := on_kernels table_isEmpty.

(** ** Dispatcher.h, Dispatcher.cpp *)

(** [OpKernel]: a kernel with a cache of its own. *)
Record OpKernel : Type := mkOpKernel { kernel_ : Kernel; cache_ : Cache }.
Definition OpKernel_make (kernel : DispatchTableEntry) : outcome OpKernel := c ← create (cache_creator_func kernel); Ok (mkOpKernel (kernel_func kernel) c).

Record OperatorDef : Type := mkDef { dispatchTable : DispatchTable; schema : FunctionSchema; refcount : Z }.
(** [OperatorHandle]: an iterator of [operators_]. *)
Definition OperatorHandle : Type := nat.
Record OpRegistrationListener : Type := mkListener {
  onOperatorRegistered : FunctionSchema → outcome unit; onOperatorDeregistered : FunctionSchema → outcome unit }.
Inductive event : Type := Registered (listener : nat) (op : OperatorHandle) | Deregistered (listener : nat) (op : OperatorHandle).
Record Dispatcher : Type := mkDispatcher {
  operators_ : list (OperatorHandle * OperatorDef); next_node : nat; listeners_ : list OpRegistrationListener; events : list event }.
Definition Dispatcher_make : Dispatcher := mkDispatcher [] 0 [] [].

Definition with_operators x (d : Dispatcher) : Dispatcher := mkDispatcher x (next_node d) (listeners_ d) (events d).
Definition emit (e : event) : SE Dispatcher unit := modify (λ d, mkDispatcher (operators_ d) (next_node d) (listeners_ d) (events d ++ [e])).

(** The element an iterator points to. *)
Definition find_node (op : OperatorHandle) (ops : list (OperatorHandle * OperatorDef)) : option OperatorDef :=
  snd <$> List.find (λ x, x.1 =? op) ops.
Definition deref (op : OperatorHandle) : SE Dispatcher OperatorDef := λ d,
  (match find_node op (operators_ d) with Some o => Ok o | None => Throw (Undefined "use of an erased operator") end, d).
Definition update (op : OperatorHandle) (f : OperatorDef → OperatorDef) : SE Dispatcher unit :=
  modify (λ d, with_operators ((λ x, if x.1 =? op then (x.1, f x.2) else x) <$> operators_ d) d).
Definition erase_node (op : OperatorHandle) : SE Dispatcher unit :=
  modify (λ d, with_operators (List.filter (λ x, negb (x.1 =? op)) (operators_ d)) d).
Definition on_table {A} (op : OperatorHandle) (m : SE DispatchTable A) : SE Dispatcher A :=
  o ← deref op;
  let r := m (dispatchTable o) in
  update op (λ o, mkDef r.2 (schema o) (refcount o));;
  lift r.1.

Definition callOnOperatorRegistered (op : OperatorHandle) : SE Dispatcher unit :=
  d ← get;
  foreach (imap pair (listeners_ d)) (λ l, o ← deref op; emit (Registered l.1 op);; lift (onOperatorRegistered l.2 (schema o))).
Definition callOnOperatorDeregistered (op : OperatorHandle) : SE Dispatcher unit :=
  d ← get;
  foreach (imap pair (listeners_ d)) (λ l, o ← deref op; emit (Deregistered l.1 op);; lift (onOperatorDeregistered l.2 (schema o))).

Definition has_name (operator_name overload : string) (x : OperatorHandle * OperatorDef) : bool :=
  bool_decide (name (schema x.2) = operator_name) && bool_decide (overload_name (schema x.2) = overload).
Definition findSchema (operator_name overload : string) : SE Dispatcher (option OperatorHandle) :=
  gets (λ d, fst <$> List.find (has_name operator_name overload) (operators_ d)).
Definition findOrRegisterSchema_ (s : FunctionSchema) : SE Dispatcher OperatorHandle :=
  found ← findSchema (name s) (overload_name s);
  match found with
  | Some op =>
      o ← deref op;
      same ← lift (FunctionSchema_eqb (schema o) s);
      if same : bool then mret op
      else AT_ERROR "Tried to register multiple operators with the same name and the same overload name but different schemas"
  | None =>
      d ← get;
      let op := next_node d in
      put (mkDispatcher (operators_ d ++ [(op, mkDef (DispatchTable_make s) s 0)]) (S op) (listeners_ d) (events d));;
      mret op
  end.
Definition size_t (z : Z) : Z := wrapU 64 z.
Definition set_refcount (z : Z) (o : OperatorDef) : OperatorDef := mkDef (dispatchTable o) (schema o) z.
Definition registerSchema (s : FunctionSchema) : SE Dispatcher OperatorHandle :=
  op ← findOrRegisterSchema_ s;
  o ← deref op;
  let n := size_t (refcount o + 1) in
  update op (set_refcount n);;
  (if (1 =? n)%Z then callOnOperatorRegistered op else mret tt);;
  mret op.
Definition deregisterSchema (op : OperatorHandle) : SE Dispatcher unit :=
  o ← deref op;
  AT_ASSERT (0 <? refcount o)%Z;;
  let n := size_t (refcount o - 1) in
  update op (set_refcount n);;
  if (0 =? n)%Z then
    e ← on_table op DispatchTable_isEmpty;
    (if e : bool then mret tt else AT_ERROR "Tried to deregister op schema for an operator that still has kernels registered.");;
    callOnOperatorDeregistered op;;
    erase_node op
  else mret tt.
Definition registerKernel (op : OperatorHandle) (dispatch_key : Z) (kernel : DispatchTableEntry) : SE Dispatcher unit :=
  on_table op (table_registerKernel dispatch_key kernel).
Definition deregisterKernel (op : OperatorHandle) (dispatch_key : Z) : SE Dispatcher unit := on_table op (table_deregisterKernel dispatch_key).
Definition registerFallbackKernel (op : OperatorHandle) (kernel : DispatchTableEntry) : SE Dispatcher unit :=
  on_table op (table_registerFallbackKernel kernel).
Definition deregisterFallbackKernel (op : OperatorHandle) : SE Dispatcher unit := on_table op table_deregisterFallbackKernel.
Definition lookup (op : OperatorHandle) (stack : Stack) : SE Dispatcher OpKernel :=
  kernel ← on_table op (table_find stack); lift (OpKernel_make kernel).
Definition addRegistrationListener (listener : OpRegistrationListener) : SE Dispatcher unit :=
  d ← get;
  foreach (operators_ d) (λ x, emit (Registered (length (listeners_ d)) x.1);; lift (onOperatorRegistered listener (schema x.2)));;
  modify (λ d, mkDispatcher (operators_ d) (next_node d) (listeners_ d ++ [listener]) (events d)).

(** ** op_registration.cpp, infer_schema.cpp *)

Record OperatorRegistrar : Type := mkRegistrar {
  op_ : OperatorHandle; dispatch_key_ : option Z; has_kernel_ : bool; owns_registration_ : bool }.
Definition is_some {A} (x : option A) : bool := match x with Some _ => true | None => false end.
(** The constructor: the destructor does not run when it throws. *)
Definition OperatorRegistrar_make (s : FunctionSchema) (dispatch_key : option Z) (kernel : option Kernel) (cache_creator : option Creator) : SE Dispatcher OperatorRegistrar :=
  op ← registerSchema s;
  AT_ASSERT (Bool.eqb (is_some kernel) (is_some cache_creator));;
  match kernel, cache_creator with
  | Some k, Some c =>
      match dispatch_key with
      | Some key => registerKernel op key (mkEntry k c)
      | None => registerFallbackKernel op (mkEntry k c)
      end
  | _, _ => mret tt
  end;;
  mret (mkRegistrar op dispatch_key (is_some kernel) true).
Definition OperatorRegistrar_move (rhs : OperatorRegistrar) : OperatorRegistrar * OperatorRegistrar :=
  (rhs, mkRegistrar (op_ rhs) (dispatch_key_ rhs) (has_kernel_ rhs) false).
(** The destructor; an exception that leaves it ends the program. *)
Definition terminates {A} (m : SE Dispatcher A) : SE Dispatcher A := λ d, let r := m d in (noexcept r.1, r.2).
Definition OperatorRegistrar_destroy (r : OperatorRegistrar) : SE Dispatcher unit :=
  terminates (
    if owns_registration_ r then
      (if has_kernel_ r then
         match dispatch_key_ r with Some key => deregisterKernel (op_ r) key | None => deregisterFallbackKernel (op_ r) end
       else mret tt);;
      deregisterSchema (op_ r)
    else mret tt).

(** [KernelRegistrationConfig] of base.h. *)
Record KernelRegistrationConfig : Type := mkConfig {
  dispatch_key : option Z; config_kernel_func : option Kernel; config_cache_creator_func : option Creator; inferred_function_schema : option FunctionSchema }.
(** [dispatchKey(...)] applied to a configuration. *)
Definition apply_dispatchKey (key : Z) (c : KernelRegistrationConfig) : KernelRegistrationConfig :=
  mkConfig (Some key) (config_kernel_func c) (config_cache_creator_func c) (inferred_function_schema c).

Fixpoint same_types (inferred specified : list Argument) : outcome unit :=
  match inferred, specified with
  | i :: inferred, s :: specified =>
      AT_CHECK (eqb (pointee (type_ i)) (pointee (type_ s))) "Type mismatch";; same_types inferred specified
  | _, _ => Ok tt
  end.
Definition assertSchemasHaveSameSignature (inferred specified : FunctionSchema) : outcome unit :=
  AT_CHECK (length (arguments inferred) =? length (arguments specified)) "The number of arguments is different";;
  AT_CHECK (length (returns_ inferred) =? length (returns_ specified)) "The number of returns is different";;
  same_types (arguments inferred) (arguments specified);;
  same_types (returns_ inferred) (returns_ specified).

Definition registerOp_ (s : FunctionSchema) (config : KernelRegistrationConfig) : SE Dispatcher OperatorRegistrar :=
  AT_CHECK (negb (is_some (dispatch_key config)) || is_some (config_kernel_func config)) "Tried to register an operator with a dispatch key but without a kernel.";;
  AT_ASSERT (Bool.eqb (is_some (config_kernel_func config)) (is_some (config_cache_creator_func config)));;
  OperatorRegistrar_make s (dispatch_key config) (config_kernel_func config) (config_cache_creator_func config).
Definition checkSchemaAndRegisterOp_ (s : FunctionSchema) (config : KernelRegistrationConfig) : SE Dispatcher OperatorRegistrar :=
  match inferred_function_schema config with Some inferred => lift (assertSchemasHaveSameSignature inferred s) | None => mret tt end;;
  registerOp_ s config.
(** With what [parseSchemaOrName] makes of a string. *)
Definition checkNameAndRegisterOp_ (schemaOrName : (string * string) + FunctionSchema) (config : KernelRegistrationConfig) : SE Dispatcher OperatorRegistrar :=
  match schemaOrName with
  | inr s => checkSchemaAndRegisterOp_ s config
  | inl (n, overload) =>
      match inferred_function_schema config with
      | Some i => registerOp_ (mkSchema n overload (arguments i) (returns_ i) (is_vararg i) (is_varret i)) config
      | None => AT_ERROR "Cannot infer schema from this kernel function."
      end
  end.
End dispatch.
End Dispatch.
