(* ===== verification/DispatchProofs.v ===== *)
(** * Registering and deregistering operators

    The list of operators as a map from handles; what each call changes in it, when the
    listeners do not throw; and the balance between registrars that are alive, counters
    and kernels. *)
From S2P Require Import Prelude JitTypes JitTypesSpec LeftRight Dispatcher.
Local Open Scope nat_scope.
Local Open Scope list_scope.
#[local] Set Warnings "-clear-no-such-hyp".
Import Dispatch.

Section proofs.
Context {Kernel Creator Cache : Type} (create : Creator → outcome Cache).
#[local] Abbreviation Dispatcher := (Dispatcher (Kernel:=Kernel) (Creator:=Creator)).
#[local] Abbreviation OperatorDef := (OperatorDef (Kernel:=Kernel) (Creator:=Creator)).
#[local] Abbreviation DispatchTable := (DispatchTable (Kernel:=Kernel) (Creator:=Creator)).
#[local] Abbreviation Entry := (DispatchTableEntry (Kernel:=Kernel) (Creator:=Creator)).
Implicit Types (d : Dispatcher) (o : OperatorDef) (op : OperatorHandle) (r : OperatorRegistrar) (s : FunctionSchema) (rs : list OperatorRegistrar).
Implicit Types (ops : list (OperatorHandle * OperatorDef)) (lk : list OperatorHandle) (f : OperatorDef → OperatorDef).

(** ** The operators as a map *)
Definition node d op : option OperatorDef := find_node op (operators_ d).

Lemma find_node_cons op x ops : find_node op (x :: ops) = if decide (x.1 = op) then Some x.2 else find_node op ops.
Proof.
  unfold find_node. cbn [List.find]. case_decide as E; [apply Nat.eqb_eq in E|apply Nat.eqb_neq in E]; unfold OperatorHandle in *; by rewrite E.
Qed.
Lemma find_node_app op ops x : find_node op (ops ++ [x]) = match find_node op ops with Some o => Some o | None => if decide (x.1 = op) then Some x.2 else None end.
Proof.
  induction ops as [|y ops IH]; [cbn [app]; by rewrite find_node_cons|]. cbn [app]. rewrite !find_node_cons, IH. repeat case_decide; by simplify_eq.
Qed.
Lemma find_node_update op f ops op' :
  find_node op' ((λ x, if x.1 =? op then (x.1, f x.2) else x) <$> ops) = if decide (op' = op) then f <$> find_node op' ops else find_node op' ops.
Proof.
  induction ops as [|y ops IH]; [by case_decide|]. rewrite fmap_cons, !find_node_cons, IH. unfold OperatorHandle in *. destruct (Nat.eq_dec y.1 op) as [E|E]; [rewrite (proj2 (Nat.eqb_eq y.1 op) E)|rewrite (proj2 (Nat.eqb_neq y.1 op) E)]; cbn [fst snd]; repeat case_decide; simplify_eq; done.
Qed.
Lemma find_node_erase op ops op' : find_node op' (List.filter (λ x, negb (x.1 =? op)) ops) = if decide (op' = op) then None else find_node op' ops.
Proof.
  induction ops as [|y ops IH]; [by case_decide|]. cbn [List.filter]. unfold OperatorHandle in *. destruct (Nat.eq_dec y.1 op) as [E|E]; [rewrite (proj2 (Nat.eqb_eq y.1 op) E)|rewrite (proj2 (Nat.eqb_neq y.1 op) E)]; cbn [negb]; rewrite ?find_node_cons, IH; repeat case_decide; simplify_eq; done.
Qed.
Lemma find_node_elem op o ops : find_node op ops = Some o → (op, o) ∈ ops.
Proof.
  induction ops as [|[op' o'] ops IH]; [done|]. rewrite find_node_cons. case_decide as E; cbn in *; [intros [= <-]; subst; by left|intros H; right; by apply IH].
Qed.
Lemma find_node_first ops : ops ≠ [] → ∃ op o, find_node op ops = Some o.
Proof. destruct ops as [|[op o] ops]; [done|]. intros _. exists op, o. by rewrite find_node_cons, decide_True. Qed.

(** ** Single calls *)
Lemma deref_Ok op d o : node d op = Some o → deref op d = (Ok o, d).
Proof. unfold deref, node. by intros ->. Qed.
(** What stays when one operator changes. *)
Definition same_keys d d' : Prop := listeners_ d' = listeners_ d ∧ next_node d' = next_node d ∧ (operators_ d').*1 = (operators_ d).*1.
Lemma update_node op f d : ∃ d', update op f d = (Ok tt, d') ∧ same_keys d d' ∧
  ∀ op', node d' op' = if decide (op' = op) then f <$> node d op' else node d op'.
Proof.
  eexists. split; [reflexivity|]. split; [|intros op'; apply find_node_update]. split_and!; [done..|]. cbn. rewrite <- list_fmap_compose. apply list_fmap_ext. intros i x _. cbn. by case_match.
Qed.
(** The effect of a call on the table of one operator. *)
Lemma on_table_node {A} op (m : SE DispatchTable A) d o : node d op = Some o →
  ∃ d', on_table op m d = ((m (dispatchTable o)).1, d') ∧ same_keys d d' ∧
    ∀ op', node d' op' = if decide (op' = op) then Some (mkDef (m (dispatchTable o)).2 (schema o) (refcount o)) else node d op'.
Proof.
  intros Ho. unfold on_table. rewrite (run_bind _ _ _ _ _ (deref_Ok op d o Ho)). cbv zeta.
  destruct (update_node op (λ o', mkDef (m (dispatchTable o)).2 (schema o') (refcount o')) d) as (d' & E & H1 & H2). rewrite (run_bind _ _ _ _ _ E).
  exists d'. split_and!; [done..|]. intros op'. rewrite H2. case_decide; [subst; by rewrite Ho|done].
Qed.

(** Listeners that return. *)
Definition quiet d : Prop :=
  ∀ l s, l ∈ listeners_ d → onOperatorRegistered l s = Ok tt ∧ onOperatorDeregistered l s = Ok tt.
(** Two dispatchers with the same operators. *)
Definition same_operators d d' : Prop := operators_ d' = operators_ d ∧ listeners_ d' = listeners_ d ∧ next_node d' = next_node d.
Lemma same_node d d' op : same_operators d d' → node d' op = node d op.
Proof. intros [H _]. unfold node. by rewrite H. Qed.
Lemma notify_quiet op d o (e : nat → event) (call : OpRegistrationListener → FunctionSchema → outcome unit) ls :
  node d op = Some o → (∀ l, l ∈ ls.*2 → call l (schema o) = Ok tt) →
  ∃ d', foreach ls (λ l, o ← deref op; emit (e l.1);; lift (call l.2 (schema o))) d = (Ok tt, d') ∧ same_operators d d'.
Proof.
  revert d. induction ls as [|[i l] ls IH]; intros d Ho Hq; [by exists d|]. cbn [foreach].
  assert (E : (o ← deref op; emit (e (i, l).1);; lift (call (i, l).2 (schema o))) d = (Ok tt, mkDispatcher (operators_ d) (next_node d) (listeners_ d) (events d ++ [e i]))).
  { rewrite (run_bind _ _ _ _ _ (deref_Ok op d o Ho)). cbn. unfold lift. by rewrite (Hq l ltac:(by left)). }
  rewrite (run_bind _ _ _ _ _ E). destruct (IH (mkDispatcher (operators_ d) (next_node d) (listeners_ d) (events d ++ [e i]))) as (d' & E' & H1 & H2 & H3); [done|intros l' Hl; apply Hq; by right|].
  by exists d'.
Qed.
Lemma elem_imap_pair {A} (ls : list A) l : l ∈ (imap pair ls).*2 → l ∈ ls.
Proof.
  intros ([i x] & -> & Hx)%list_elem_of_fmap. apply elem_of_lookup_imap in Hx as (j & y & [= -> ->] & Hy). by eapply list_elem_of_lookup_2.
Qed.
Lemma registered_quiet op d o : quiet d → node d op = Some o → ∃ d', callOnOperatorRegistered op d = (Ok tt, d') ∧ same_operators d d'.
Proof. intros Hq Ho. unfold callOnOperatorRegistered. rewrite run_get. apply (notify_quiet op d o (λ i, Registered i op)); [done|]. intros l Hl%elem_imap_pair. by apply Hq. Qed.
Lemma deregistered_quiet op d o : quiet d → node d op = Some o → ∃ d', callOnOperatorDeregistered op d = (Ok tt, d') ∧ same_operators d d'.
Proof. intros Hq Ho. unfold callOnOperatorDeregistered. rewrite run_get. apply (notify_quiet op d o (λ i, Deregistered i op)); [done|]. intros l Hl%elem_imap_pair. by apply Hq. Qed.

(** ** Well-formed dispatchers *)
Definition same_name s s' : Prop := name s = name s' ∧ overload_name s = overload_name s'.
Record wf d : Prop := {
  wf_nodup : NoDup (operators_ d).*1;
  wf_next op : op ∈ (operators_ d).*1 → op < next_node d;
  wf_names op op' o o' : node d op = Some o → node d op' = Some o' → same_name (schema o) (schema o') → op = op'
}.
Lemma elem_find_node op o ops : NoDup ops.*1 → (op, o) ∈ ops → find_node op ops = Some o.
Proof.
  induction ops as [|[op' o'] ops IH]; [by intros _ ?%elem_of_nil|]. intros [Hn Hnd]%list.NoDup_cons [E|H]%elem_of_cons; rewrite find_node_cons; cbn.
  - injection E as -> ->. by rewrite decide_True.
  - rewrite decide_False; [by apply IH|]. intros ->. apply Hn, list_elem_of_fmap. by exists (op, o).
Qed.
Lemma node_key d op o : node d op = Some o → op ∈ (operators_ d).*1.
Proof. intros H%find_node_elem. apply list_elem_of_fmap. by exists (op, o). Qed.
Lemma node_below d op o : wf d → node d op = Some o → op < next_node d.
Proof. intros W H. by eapply wf_next, node_key. Qed.
Lemma wf_same_keys d d' : wf d → same_keys d d' →
  (∀ op o', node d' op = Some o' → ∃ o, node d op = Some o ∧ same_name (schema o) (schema o')) → wf d'.
Proof.
  intros W (_ & Hn & Hk) Hs. split; rewrite ?Hn, ?Hk; try apply W. intros op op' o o' H H' [E1 E2].
  destruct (Hs op o H) as (x & Hx & E3 & E4), (Hs op' o' H') as (y & Hy & E5 & E6). eapply (wf_names d W op op' x y); [done..|]. split; congruence.
Qed.
Lemma wf_same_operators d d' : wf d → same_operators d d' → wf d'.
Proof. intros W (E1 & E2 & E3). split; unfold node; rewrite ?E1, ?E3; apply W. Qed.

Lemma findSchema_spec s d : wf d → ∃ found, findSchema (name s) (overload_name s) d = (Ok found, d) ∧
  match found with
  | Some op => ∃ o, node d op = Some o ∧ same_name (schema o) s
  | None => ∀ op o, node d op = Some o → ¬ same_name (schema o) s
  end.
Proof.
  intros W. unfold findSchema, gets. eexists. split; [reflexivity|]. destruct (List.find _ _) as [[op o]|] eqn:E; cbn.
  - apply find_some in E as [He E]. apply andb_true_iff in E as [E1%bool_decide_eq_true E2%bool_decide_eq_true]. exists o. split; [|done].
    apply elem_find_node; [apply W|]. by apply list_elem_of_In.
  - intros op o H%find_node_elem [E1 E2]. apply list_elem_of_In in H. apply (find_none _ _ E) in H. unfold has_name in H. cbn in H.
    by rewrite !bool_decide_eq_true_2 in H.
Qed.

(** ** registerSchema *)

(** The operator that [registerSchema] counts: the one with its name, or a new one. *)
Definition origin s d op o : Prop :=
  node d op = Some o ∧ same_name (schema o) s ∨ op = next_node d ∧ o = mkDef (DispatchTable_make s) s 0.
Lemma findOrRegister_effect s d : wf d →
  (∃ e, findOrRegisterSchema_ s d = (Throw e, d)) ∨
  ∃ op o d', findOrRegisterSchema_ s d = (Ok op, d') ∧ wf d' ∧ listeners_ d' = listeners_ d ∧ origin s d op o ∧
    ∀ op', node d' op' = if decide (op' = op) then Some o else node d op'.
Proof.
  intros W. unfold findOrRegisterSchema_. destruct (findSchema_spec s d W) as (found & E & Hf). rewrite (run_bind _ _ _ _ _ E). destruct found as [op|].
  - destruct Hf as (o & Ho & Hn). rewrite (run_bind _ _ _ _ _ (deref_Ok op d o Ho)). unfold mbind, SE_bind, lift.
    destruct (FunctionSchema_eqb (schema o) s) as [[]|e]; [|left; by eexists..]. right. exists op, o, d. split_and!; [done..|by left|]. intros op'. by case_decide; subst.
  - right. rewrite run_get. set (x := mkDef (DispatchTable_make s) s 0).
    exists (next_node d), x, (mkDispatcher (operators_ d ++ [(next_node d, x)]) (S (next_node d)) (listeners_ d) (events d)). split; [done|].
    assert (Hnode : ∀ op', find_node op' (operators_ d ++ [(next_node d, x)]) = if decide (op' = next_node d) then Some x else node d op').
    { intros op'. rewrite find_node_app. cbn. destruct (find_node op' (operators_ d)) as [o|] eqn:Eo; repeat case_decide; simplify_eq; try done.
      pose proof (node_below d (next_node d) o W Eo). lia. }
    split_and!; [|done|by right|done]. split.
    + cbn. rewrite fmap_app. apply list.NoDup_app. split_and!; [apply W| |apply NoDup_singleton]. intros op' H%(wf_next d W) ->%list_elem_of_singleton. cbn in H. unfold OperatorHandle in *. lia.
    + intros op'. cbn. rewrite fmap_app, elem_of_app. intros [H%(wf_next d W)| ->%list_elem_of_singleton]; cbn; unfold OperatorHandle in *; lia.
    + intros op1 op2 o1 o2. unfold node at 1 2. cbn [operators_]. rewrite !Hnode. repeat case_decide; subst; try done.
      * intros [= <-] H2 [N1 N2]. by destruct (Hf op2 o2 H2).
      * intros H1 [= <-] N. by destruct (Hf op1 o1 H1).
      * apply W.
Qed.
Lemma registerSchema_effect s d : wf d → quiet d →
  (∃ e, registerSchema s d = (Throw e, d)) ∨
  ∃ op o d', registerSchema s d = (Ok op, d') ∧ wf d' ∧ listeners_ d' = listeners_ d ∧ origin s d op o ∧
    ∀ op', node d' op' = if decide (op' = op) then Some (set_refcount (size_t (refcount o + 1)) o) else node d op'.
Proof.
  intros W Hq. unfold registerSchema. destruct (findOrRegister_effect s d W) as [[e E]|(op & o & d1 & E & W1 & Hl1 & Hor & Hn1)].
  { left. exists e. by apply run_bind_throw. }
  right. rewrite (run_bind _ _ _ _ _ E). assert (Ho : node d1 op = Some o) by (by rewrite Hn1, decide_True).
  rewrite (run_bind _ _ _ _ _ (deref_Ok op d1 o Ho)). cbv zeta. set (n := size_t (refcount o + 1)).
  destruct (update_node op (set_refcount n) d1) as (d2 & E2 & Hk2 & Hn2). rewrite (run_bind _ _ _ _ _ E2).
  assert (Hnode : ∀ op', node d2 op' = if decide (op' = op) then Some (set_refcount n o) else node d op').
  { intros op'. rewrite Hn2. case_decide; [subst; by rewrite Ho|]. rewrite Hn1. by rewrite decide_False. }
  assert (W2 : wf d2).
  { eapply wf_same_keys; [exact W1|done|]. intros op' o'. rewrite Hn2. case_decide; [subst; rewrite Ho; intros [= <-]; by exists o|intros H'; by exists o']. }
  assert (Hq2 : quiet d2) by (unfold quiet; destruct Hk2 as [-> _]; by rewrite Hl1).
  assert (∃ d3, (if (1 =? n)%Z then callOnOperatorRegistered op else mret tt) d2 = (Ok tt, d3) ∧ same_operators d2 d3) as (d3 & E3 & Hs).
  { destruct (1 =? n)%Z; [|by exists d2]. apply (registered_quiet op d2 (set_refcount n o) Hq2). by rewrite Hnode, decide_True. }
  rewrite (run_bind _ _ _ _ _ E3). exists op, o, d3. split_and!; [done|by eapply wf_same_operators| |done|].
  - destruct Hs as (_ & -> & _), Hk2 as [-> _]. done.
  - intros op'. by rewrite (same_node d2 d3 op' Hs).
Qed.

(** ** deregisterSchema *)
Lemma filter_keys {X Y} (k : X * Y → bool) (l : list (X * Y)) : (List.filter k l).*1 `sublist_of` l.*1.
Proof. induction l as [|x l IH]; [done|]. cbn [List.filter]. destruct (k x); cbn; by constructor. Qed.
Lemma erase_node_effect op d : wf d → ∃ d', erase_node op d = (Ok tt, d') ∧ wf d' ∧ listeners_ d' = listeners_ d ∧
  ∀ op', node d' op' = if decide (op' = op) then None else node d op'.
Proof.
  intros W. eexists. split; [reflexivity|]. assert (Hnode : ∀ op', node (with_operators (List.filter (λ x, negb (x.1 =? op)) (operators_ d)) d) op' = if decide (op' = op) then None else node d op').
  { intros op'. apply find_node_erase. }
  split_and!; [|done..]. pose proof (filter_keys (λ x, negb (x.1 =? op)) (operators_ d)) as Hk. split.
  - eapply sublist_NoDup; [apply (wf_nodup d W)|exact Hk].
  - intros op' Hin. apply (wf_next d W). by eapply elem_of_submseteq, sublist_submseteq.
  - intros op1 op2 o1 o2. rewrite !Hnode. repeat case_decide; try done. apply W.
Qed.
Lemma deregisterSchema_effect op d o : wf d → quiet d → node d op = Some o → (0 < refcount o)%Z → (refcount o < 2 ^ 64)%Z →
  (refcount o = 1%Z → kernels_ (dispatchTable o) = ∅) →
  ∃ d', deregisterSchema op d = (Ok tt, d') ∧ wf d' ∧ listeners_ d' = listeners_ d ∧
    ∀ op', node d' op' = if decide (op' = op) then (if decide (refcount o = 1%Z) then None else Some (set_refcount (refcount o - 1) o)) else node d op'.
Proof.
  intros W Hq Ho Hpos Hmax Hk. unfold deregisterSchema. rewrite (run_bind _ _ _ _ _ (deref_Ok op d o Ho)).
  rewrite run_assert by (by apply Z.ltb_lt). cbv zeta. assert (size_t (refcount o - 1) = refcount o - 1)%Z as -> by (apply wrapU_id; unfold in_U; lia).
  destruct (update_node op (set_refcount (refcount o - 1)) d) as (d1 & E1 & Hk1 & Hn1). rewrite (run_bind _ _ _ _ _ E1).
  assert (Ho1 : node d1 op = Some (set_refcount (refcount o - 1) o)) by (by rewrite Hn1, decide_True, Ho).
  assert (W1 : wf d1).
  { eapply wf_same_keys; [exact W|done|]. intros op' o'. rewrite Hn1. case_decide; [subst; rewrite Ho; intros [= <-]; by exists o|intros H'; by exists o']. }
  destruct (Z.eqb_spec 0 (refcount o - 1)) as [Hz|Hz].
  2:{ exists d1. split_and!; [done..|apply Hk1|]. intros op'. rewrite Hn1. case_decide; [subst; rewrite Ho, decide_False by lia; done|done]. }
  destruct (on_table_node op DispatchTable_isEmpty d1 _ Ho1) as (d2 & E2 & Hk2 & Hn2).
  assert (Hem : (DispatchTable_isEmpty (dispatchTable o)).1 = Ok true).
  { unfold DispatchTable_isEmpty, on_kernels, table_isEmpty, LeftRight.read. cbn. rewrite Hk by lia. done. }
  cbn [dispatchTable set_refcount] in E2. rewrite Hem in E2. rewrite (run_bind _ _ _ _ _ E2). rewrite run_ret.
  assert (Hq2 : quiet d2) by (unfold quiet; destruct Hk2 as [-> _], Hk1 as [-> _]; done).
  destruct (deregistered_quiet op d2 _ Hq2 ltac:(by rewrite Hn2, decide_True)) as (d3 & E3 & Hs3). rewrite (run_bind _ _ _ _ _ E3).
  assert (W3 : wf d3).
  { eapply wf_same_operators; [|exact Hs3]. eapply wf_same_keys; [exact W1|done|]. intros op' o'. rewrite Hn2. case_decide; [subst; intros [= <-]; by eexists|intros H'; by exists o']. }
  destruct (erase_node_effect op d3 W3) as (d4 & E4 & W4 & Hl4 & Hn4). exists d4. destruct Hk1 as (L1 & _), Hk2 as (L2 & _). pose proof Hs3 as (_ & L3 & _).
  split_and!; [done|done|congruence|]. intros op'. rewrite Hn4. case_decide as Hne; [by rewrite decide_True by lia|].
  rewrite (same_node d2 d3 op' Hs3), Hn2, decide_False by done. by rewrite Hn1, decide_False.
Qed.

(** ** Registrars *)

(** The change of one operator to [o]. *)
Definition becomes d op o d' : Prop := wf d' ∧ listeners_ d' = listeners_ d ∧ ∀ op', node d' op' = if decide (op' = op) then Some o else node d op'.
Lemma becomes_trans d op o d1 o' d' : becomes d op o d1 → becomes d1 op o' d' → becomes d op o' d'.
Proof.
  intros (_ & L1 & N1) (W & L2 & N2). split_and!; [done|congruence|]. intros op'. rewrite N2. case_decide; [done|]. by rewrite N1, decide_False.
Qed.
Lemma on_table_becomes {A} op (m : SE DispatchTable A) d o : wf d → node d op = Some o →
  ∃ d', on_table op m d = ((m (dispatchTable o)).1, d') ∧ becomes d op (mkDef (m (dispatchTable o)).2 (schema o) (refcount o)) d'.
Proof.
  intros W Ho. destruct (on_table_node op m d o Ho) as (d' & E & Hk & Hn). exists d'. split; [done|]. split_and!; [|apply Hk|done].
  eapply wf_same_keys; [exact W|done|]. intros op' o'. rewrite Hn. case_decide; [subst; intros [= <-]; by exists o|intros H'; by exists o'].
Qed.

(** Registering a kernel: in the place of a key that is free, or not at all. *)
Lemma registerKernel_effect op key e d o : wf d → node d op = Some o →
  ∃ d' t, becomes d op (mkDef t (schema o) (refcount o)) d' ∧
    (registerKernel op key e d = (Ok tt, d') ∧ kernels_ (dispatchTable o) !! key = None ∧
       kernels_ t = <[key := e]> (kernels_ (dispatchTable o)) ∧ fallback_kernel_ t = fallback_kernel_ (dispatchTable o) ∨
     (∃ x, registerKernel op key e d = (Throw x, d')) ∧ t = dispatchTable o).
Proof.
  intros W Ho. destruct (on_table_becomes op (table_registerKernel key e) d o W Ho) as (d' & E & Hb). exists d', (table_registerKernel key e (dispatchTable o)).2. split; [done|].
  unfold registerKernel. rewrite E. destruct (dispatchTable o) as [ks st n fb]. unfold table_registerKernel. rewrite run_get. cbn [dispatch_strategy_].
  destruct (is_valid_ st); [|right; split; [by eexists|done]]. rewrite run_assert by done. unfold on_kernels, emplace, LeftRight.write, mbind, SE_bind. cbn [kernels_].
  destruct (ks !! key) eqn:Ek; [right; split; [by eexists|done]|left; done].
Qed.
Lemma registerFallback_effect op e d o : wf d → node d op = Some o →
  ∃ d' t, registerFallbackKernel op e d = (Ok tt, d') ∧ becomes d op (mkDef t (schema o) (refcount o)) d' ∧
    kernels_ t = kernels_ (dispatchTable o) ∧ fallback_kernel_ t = Some e.
Proof. intros W Ho. destruct (on_table_becomes op (table_registerFallbackKernel e) d o W Ho) as (d' & E & Hb). by eexists _, _. Qed.
Lemma deregisterFallback_effect op d o : wf d → node d op = Some o →
  ∃ d' t, deregisterFallbackKernel op d = (Ok tt, d') ∧ becomes d op (mkDef t (schema o) (refcount o)) d' ∧
    kernels_ t = kernels_ (dispatchTable o) ∧ fallback_kernel_ t = None.
Proof. intros W Ho. destruct (on_table_becomes op table_deregisterFallbackKernel d o W Ho) as (d' & E & Hb). by eexists _, _. Qed.
Lemma deregisterKernel_effect op key d o : wf d → node d op = Some o → is_Some (kernels_ (dispatchTable o) !! key) →
  ∃ d' t, deregisterKernel op key d = (Ok tt, d') ∧ becomes d op (mkDef t (schema o) (refcount o)) d' ∧ 
    kernels_ t = delete key (kernels_ (dispatchTable o)) ∧ fallback_kernel_ t = fallback_kernel_ (dispatchTable o).
Proof.
  intros W Ho [e Ek]. destruct (on_table_becomes op (table_deregisterKernel key) d o W Ho) as (d' & E & Hb).
  unfold deregisterKernel. unfold table_deregisterKernel, on_kernels, erase, LeftRight.write in *. rewrite Ek in E, Hb. by eexists _, _.
Qed.

(** The key a registrar holds a kernel under. *)
Definition key_of r : option Z := if has_kernel_ r then dispatch_key_ r else None.
(** The kernel that a constructor is given; what it does to the table with it, and the destructor. *)
Definition given (k : option Kernel) (c : option Creator) : option Entry := match k, c with Some k, Some c => Some (mkEntry k c) | _, _ => None end.
Definition installs (e : option Entry) (key : option Z) (t t' : DispatchTable) : Prop :=
  match e, key with
  | None, _ => t' = t
  | Some e, Some x => kernels_ t !! x = None ∧ kernels_ t' = <[x := e]> (kernels_ t) ∧ fallback_kernel_ t' = fallback_kernel_ t
  | Some e, None => kernels_ t' = kernels_ t ∧ fallback_kernel_ t' = Some e
  end.
Lemma installs_key r e key t t' : has_kernel_ r = is_some e → dispatch_key_ r = key → installs e key t t' →
  match key_of r with
  | Some x => kernels_ t !! x = None ∧ ∃ e, kernels_ t' = <[x := e]> (kernels_ t)
  | None => kernels_ t' = kernels_ t
  end.
Proof.
  unfold key_of. intros -> ->. destruct e as [e|], key as [x|]; cbn; [|naive_solver|by intros ->..]. intros (H1 & H2 & _). eauto.
Qed.
Definition removes r (t t' : DispatchTable) : Prop :=
  kernels_ t' = (match key_of r with Some key => delete key (kernels_ t) | None => kernels_ t end) ∧
  fallback_kernel_ t' = (if has_kernel_ r && negb (is_some (dispatch_key_ r)) then None else fallback_kernel_ t).
Lemma registrar_make_effect s key k c d : wf d → quiet d →
  (∃ e, OperatorRegistrar_make s key k c d = (Throw e, d) ∧ ∃ e', registerSchema s d = (Throw e', d)) ∨
  ∃ op o t d', origin s d op o ∧ becomes d op (mkDef t (schema o) (size_t (refcount o + 1))) d' ∧ (∃ d1, registerSchema s d = (Ok op, d1)) ∧
    ((∃ r, OperatorRegistrar_make s key k c d = (Ok r, d') ∧ op_ r = op ∧ owns_registration_ r = true ∧
        has_kernel_ r = is_some (given k c) ∧ dispatch_key_ r = key ∧ installs (given k c) key (dispatchTable o) t) ∨
     (∃ e, OperatorRegistrar_make s key k c d = (Throw e, d')) ∧ t = dispatchTable o).
Proof.
  intros W Hq. unfold OperatorRegistrar_make. destruct (registerSchema_effect s d W Hq) as [[e E]|(op & o & d1 & E & W1 & L1 & Hor & N1)].
  { left. exists e. split; [by apply run_bind_throw|by exists e]. }
  right. assert (Hb1 : becomes d op (mkDef (dispatchTable o) (schema o) (size_t (refcount o + 1))) d1) by done.
  assert (Ho1 : node d1 op = Some (set_refcount (size_t (refcount o + 1)) o)) by (by rewrite N1, decide_True).
  exists op, o. rewrite (run_bind _ _ _ _ _ E). destruct k as [k|], c as [c|]; cbn [is_some Bool.eqb].
  - rewrite run_assert by done. destruct key as [x|].
    + destruct (registerKernel_effect op x (mkEntry k c) d1 _ W1 Ho1) as (d2 & t & Hb2 & [(E2 & Hx & Ht & Hf)|([e E2] & ->)]); cbn [dispatchTable schema refcount set_refcount] in *.
      * exists t, d2. split_and!; [done|by eapply becomes_trans|by eexists|]. left. rewrite (run_bind _ _ _ _ _ E2). eexists. split; [reflexivity|]. done.
      * exists (dispatchTable o), d2. split_and!; [done|by eapply becomes_trans|by eexists|]. right. split; [|done]. exists e. by rewrite (run_bind_throw _ _ _ _ _ E2).
    + destruct (registerFallback_effect op (mkEntry k c) d1 _ W1 Ho1) as (d2 & t & E2 & Hb2 & Ht & Hf). cbn [dispatchTable schema refcount set_refcount] in *.
      exists t, d2. split_and!; [done|by eapply becomes_trans|by eexists|]. left. rewrite (run_bind _ _ _ _ _ E2). eexists. split; [reflexivity|]. done.
  - exists (dispatchTable o), d1. split_and!; [done..|by eexists|]. right. split; [by eexists|done].
  - exists (dispatchTable o), d1. split_and!; [done..|by eexists|]. right. split; [by eexists|done].
  - exists (dispatchTable o), d1. split_and!; [done..|by eexists|]. left. eexists. split; [reflexivity|]. done.
Qed.

(** ** Registrars come and go *)

(** The registrars that are alive, each with the kernel its constructor was given, and the
    operators that a constructor counted before it threw. *)
Record World : Type := mkWorld { dispatcher : Dispatcher; owned : list (OperatorRegistrar * option Entry); lost : list OperatorHandle }.
Definition registrars (w : World) : list OperatorRegistrar := (owned w).*1.
Definition losses s d (lk : list OperatorHandle) : list OperatorHandle := match (registerSchema s d).1 with Ok op => op :: lk | Throw _ => lk end.
(** Counters of 64 bits count the registrars that fit in memory. *)
Definition room (rs : list OperatorRegistrar) (lk : list OperatorHandle) : Prop := (Z.of_nat (length rs + length lk) < 2 ^ 64 - 1)%Z.
Inductive world_step : World → World → Prop :=
  | constructs s key k c d d' ws lk r : room ws.*1 lk → OperatorRegistrar_make s key k c d = (Ok r, d') →
      world_step (mkWorld d ws lk) (mkWorld d' ((r, given k c) :: ws) lk)
  | constructor_throws s key k c d d' ws lk e : room ws.*1 lk → OperatorRegistrar_make s key k c d = (Throw e, d') →
      world_step (mkWorld d ws lk) (mkWorld d' ws (losses s d lk))
  | destroys d d' r e ws ws' lk : ws ≡ₚ (r, e) :: ws' → OperatorRegistrar_destroy r d = (Ok tt, d') → world_step (mkWorld d ws lk) (mkWorld d' ws' lk)
  | listens l d ws lk : (∀ s, onOperatorRegistered l s = Ok tt ∧ onOperatorDeregistered l s = Ok tt) →
      world_step (mkWorld d ws lk) (mkWorld (addRegistrationListener l d).2 ws lk).
(** The worlds of a program. *)
Definition reachable (w : World) : Prop := rtc world_step (mkWorld Dispatcher_make [] []) w.

Definition users op rs : Z := lsum (λ r, if decide (op_ r = op) then 1 else 0)%Z rs.
Definition losers op (lk : list OperatorHandle) : Z := lsum (λ op', if decide (op' = op) then 1 else 0)%Z lk.
Definition holders op key rs : Z := lsum (λ r, if decide (op_ r = op ∧ key_of r = Some key) then 1 else 0)%Z rs.
Definition held (t : DispatchTable) key : Z := match kernels_ t !! key with Some _ => 1 | None => 0 end.
Record balanced d rs (lk : list OperatorHandle) : Prop := {
  b_wf : wf d;
  b_quiet : quiet d;
  b_room : (Z.of_nat (length rs + length lk) < 2 ^ 64)%Z;
  b_count op o : node d op = Some o → refcount o = (users op rs + losers op lk)%Z ∧ (0 < refcount o)%Z;
  b_alive r : r ∈ rs → is_Some (node d (op_ r)) ∧ owns_registration_ r = true;
  b_lost op : op ∈ lk → is_Some (node d op);
  b_kernels op o key : node d op = Some o → holders op key rs = held (dispatchTable o) key
}.

Lemma users_cons op r rs : users op (r :: rs) = ((if decide (op_ r = op) then 1 else 0) + users op rs)%Z.
Proof. done. Qed.
Lemma losers_cons op op' lk : losers op (op' :: lk) = ((if decide (op' = op) then 1 else 0) + losers op lk)%Z.
Proof. done. Qed.
Lemma holders_cons op key r rs : holders op key (r :: rs) = ((if decide (op_ r = op ∧ key_of r = Some key) then 1 else 0) + holders op key rs)%Z.
Proof. done. Qed.
Lemma users_nonneg op rs : (0 ≤ users op rs ≤ Z.of_nat (length rs))%Z.
Proof. split; [apply lsum_nonneg|apply lsum_bound]; intros r; case_decide; lia. Qed.
Lemma losers_nonneg op lk : (0 ≤ losers op lk ≤ Z.of_nat (length lk))%Z.
Proof. split; [apply lsum_nonneg|apply lsum_bound]; intros r; case_decide; lia. Qed.
Lemma holders_nonneg op key rs : (0 ≤ holders op key rs ≤ users op rs)%Z.
Proof. split; [apply lsum_nonneg|apply lsum_mono]; intros r; repeat case_decide; lia || naive_solver. Qed.
(** Operators that are not there have no registrars. *)
Lemma no_users d rs lk op : balanced d rs lk → node d op = None → users op rs = 0%Z ∧ losers op lk = 0%Z.
Proof.
  intros B Hn. split.
  - pose proof (b_alive _ _ _ B) as H. clear B. induction rs as [|r rs IH]; [done|]. rewrite users_cons, IH by (intros r' Hr; apply H; by right).
    destruct (H r ltac:(by left)) as [[o Ho] _]. rewrite decide_False; [done|]. intros E. congruence.
  - pose proof (b_lost _ _ _ B) as H. clear B. induction lk as [|op' lk IH]; [done|]. rewrite losers_cons, IH by (intros r' Hr; apply H; by right).
    destruct (H op' ltac:(by left)) as [o Ho]. rewrite decide_False; [done|]. intros E. congruence.
Qed.
Lemma quiet_listeners d d' : quiet d → listeners_ d' = listeners_ d → quiet d'.
Proof. unfold quiet. by intros H ->. Qed.

(** Where an operator comes from, its counter and kernels are what the registrars say. *)
Lemma origin_balanced d rs lk s op o : balanced d rs lk → origin s d op o →
  refcount o = (users op rs + losers op lk)%Z ∧ ∀ key, holders op key rs = held (dispatchTable o) key.
Proof.
  intros B [[Ho _]|[-> ->]]; [split; [by apply (b_count _ _ _ B)|intros key; by apply (b_kernels _ _ _ B)]|].
  destruct (node d (next_node d)) as [o'|] eqn:E; [pose proof (node_below _ _ _ (b_wf _ _ _ B) E); lia|].
  destruct (no_users _ _ _ _ B E) as [Hu Hl]. split; [cbn; lia|]. intros key. pose proof (holders_nonneg (next_node d) key rs). change (held _ _) with 0%Z. lia.
Qed.
Lemma becomes_alive d op o d' op' : becomes d op o d' → is_Some (node d op') ∨ op' = op → is_Some (node d' op').
Proof. intros (_ & _ & N) H. rewrite N. case_decide; [by eexists|]. by destruct H. Qed.

Lemma constructs_balanced s key k c d d' rs lk r : balanced d rs lk → room rs lk → OperatorRegistrar_make s key k c d = (Ok r, d') →
  balanced d' (r :: rs) lk.
Proof.
  intros B Hroom E. destruct (registrar_make_effect s key k c d (b_wf _ _ _ B) (b_quiet _ _ _ B)) as [(e & E' & _)|(op & o & t & d2 & Hor & Hb & _ & [(r' & E' & Er & Eo & Hgiven & Hkey & Hinst)|[[e E'] _]])]; [congruence| |congruence].
  pose proof (installs_key _ _ _ _ _ Hgiven Hkey Hinst) as Hk.
  rewrite E' in E. injection E as -> ->. destruct (origin_balanced _ _ _ s op o B Hor) as [Hc Hh].
  pose proof (users_nonneg op rs). pose proof (losers_nonneg op lk). unfold room in Hroom.
  assert (Hsz : size_t (refcount o + 1) = (refcount o + 1)%Z) by (apply wrapU_id; unfold in_U; lia). rewrite Hsz in Hb. pose proof Hb as (W & L & N).
  split.
  - done.
  - eapply quiet_listeners; [apply (b_quiet _ _ _ B)|done].
  - cbn [length]. lia.
  - intros op' o'. rewrite N, users_cons, Er. case_decide as Hne; [intros [= <-]; subst; cbn; rewrite decide_True by done; lia|].
    intros H'. destruct (b_count _ _ _ B op' o' H'). rewrite decide_False by congruence. done.
  - intros r' [->|Hr']%elem_of_cons.
    + split; [eapply becomes_alive; [done|by right]|done].
    + destruct (b_alive _ _ _ B r' Hr') as [Ha ?]. split; [eapply becomes_alive; [done|by left]|done].
  - intros op' Hop'. eapply becomes_alive; [done|left]. by apply (b_lost _ _ _ B).
  - intros op' o' key'. rewrite N, holders_cons, Er. case_decide as Hne.
    + intros [= <-]. subst op'. rewrite Hh. unfold held. cbn [dispatchTable]. destruct (key_of r) as [x|] eqn:Ek.
      * destruct Hk as [Hx [e Hk]]. unfold Table in *. rewrite Hk. destruct (decide (x = key')) as [->|Hxk]; [rewrite decide_True by done; by rewrite Hx, lookup_insert_eq|].
        rewrite decide_False by naive_solver. by rewrite lookup_insert_ne.
      * rewrite decide_False by naive_solver. by rewrite Hk.
    + intros H'. rewrite decide_False by naive_solver. apply (b_kernels _ _ _ B op' o' key' H').
Qed.
Lemma constructor_throws_balanced s key k c d d' rs lk e : balanced d rs lk → room rs lk → OperatorRegistrar_make s key k c d = (Throw e, d') →
  balanced d' rs (losses s d lk).
Proof.
  intros B Hroom E. destruct (registrar_make_effect s key k c d (b_wf _ _ _ B) (b_quiet _ _ _ B)) as [(x & E' & e' & Es)|(op & o & t & d2 & Hor & Hb & [d1 Es] & [(r' & E' & _)|[[x E'] Ht]])]; [|congruence|].
  { rewrite E' in E. injection E as -> ->. unfold losses. by rewrite Es. }
  rewrite E' in E. injection E as -> ->. destruct (origin_balanced _ _ _ s op o B Hor) as [Hc Hh].
  unfold losses. rewrite Es. cbn [fst]. pose proof (users_nonneg op rs). pose proof (losers_nonneg op lk). unfold room in Hroom.
  assert (Hsz : size_t (refcount o + 1) = (refcount o + 1)%Z) by (apply wrapU_id; unfold in_U; lia). rewrite Hsz in Hb. pose proof Hb as (W & L & N).
  split.
  - done.
  - eapply quiet_listeners; [apply (b_quiet _ _ _ B)|done].
  - cbn [length]. lia.
  - intros op' o'. rewrite N, losers_cons. case_decide as Hne; [intros [= <-]; subst; cbn; rewrite decide_True by done; lia|].
    intros H'. destruct (b_count _ _ _ B op' o' H'). rewrite decide_False by congruence. done.
  - intros r' Hr'. destruct (b_alive _ _ _ B r' Hr') as [Ha ?]. split; [eapply becomes_alive; [done|by left]|done].
  - intros op' [->|Hop']%elem_of_cons; (eapply becomes_alive; [done|]); [by right|left]. by apply (b_lost _ _ _ B).
  - intros op' o' key'. rewrite N. case_decide as Hne; [|intros H'; apply (b_kernels _ _ _ B op' o' key' H')].
    intros [= <-]. subst op'. rewrite Hh. unfold held. cbn [dispatchTable]. by rewrite Ht.
Qed.

(** The destructor of a registrar that is alive returns. *)
Lemma release_kernel_effect r d o : wf d → node d (op_ r) = Some o → (∀ key, key_of r = Some key → is_Some (kernels_ (dispatchTable o) !! key)) →
  ∃ d' t, (if has_kernel_ r then match dispatch_key_ r with Some key => deregisterKernel (op_ r) key | None => deregisterFallbackKernel (op_ r) end else mret tt) d = (Ok tt, d') ∧
    becomes d (op_ r) (mkDef t (schema o) (refcount o)) d' ∧
    removes r (dispatchTable o) t.
Proof.
  intros W Ho Hk. unfold removes, key_of in *. destruct (has_kernel_ r); cbn [andb].
  - destruct (dispatch_key_ r) as [key|]; [by apply deregisterKernel_effect, Hk|by apply deregisterFallback_effect].
  - exists d, (dispatchTable o). split; [done|]. split; [|done]. split_and!; [done..|]. intros op'. case_decide; [subst; by destruct o|done].
Qed.
Lemma destroy_effect r d o : wf d → quiet d → node d (op_ r) = Some o → owns_registration_ r = true → (0 < refcount o < 2 ^ 64)%Z →
  (∀ key, key_of r = Some key → is_Some (kernels_ (dispatchTable o) !! key)) →
  (refcount o = 1%Z → ∀ key, is_Some (kernels_ (dispatchTable o) !! key) → key_of r = Some key) →
  ∃ d' t, OperatorRegistrar_destroy r d = (Ok tt, d') ∧ wf d' ∧ listeners_ d' = listeners_ d ∧
    removes r (dispatchTable o) t ∧
    ∀ op', node d' op' = if decide (op' = op_ r) then (if decide (refcount o = 1%Z) then None else Some (mkDef t (schema o) (refcount o - 1))) else node d op'.
Proof.
  intros W Hq Ho Hown Hr Hk Hlast. destruct (release_kernel_effect r d o W Ho Hk) as (d1 & t & E1 & (W1 & L1 & N1) & Ht).
  assert (Ho1 : node d1 (op_ r) = Some (mkDef t (schema o) (refcount o))) by (by rewrite N1, decide_True).
  destruct (deregisterSchema_effect (op_ r) d1 (mkDef t (schema o) (refcount o)) W1 (quiet_listeners _ _ Hq L1) Ho1) as (d2 & E2 & W2 & L2 & N2); cbn [refcount dispatchTable] in *; [lia|lia| |].
  { intros H1. apply (map_empty (kernels_ t : gmap Z Entry)). intros key. rewrite (proj1 Ht). specialize (Hlast H1 key). destruct (kernels_ (dispatchTable o) !! key) eqn:Ek.
    - rewrite Hlast by done. unfold Table in *. apply lookup_delete_eq.
    - destruct (key_of r) as [x|]; [|done]. unfold Table in *. rewrite lookup_delete. by case_decide. }
  exists d2, t. split_and!; [|done|congruence|done|].
  { unfold OperatorRegistrar_destroy, terminates. rewrite Hown. cbv zeta. by rewrite (run_bind _ _ _ _ _ E1), E2. }
  intros op'. rewrite N2. destruct (decide (op' = op_ r)); [done|]. by rewrite N1, decide_False.
Qed.
Lemma destroy_alive r d rs lk : balanced d rs lk → r ∈ rs → ∃ o d' t, node d (op_ r) = Some o ∧ OperatorRegistrar_destroy r d = (Ok tt, d') ∧ wf d' ∧ listeners_ d' = listeners_ d ∧
    removes r (dispatchTable o) t ∧
    ∀ op', node d' op' = if decide (op' = op_ r) then (if decide (refcount o = 1%Z) then None else Some (mkDef t (schema o) (refcount o - 1))) else node d op'.
Proof.
  intros B Hr. pose proof (b_room _ _ _ B) as Hroom. destruct (b_alive _ _ _ B r Hr) as [[o Ho] Hown]. destruct (b_count _ _ _ B _ o Ho) as [Hc Hp].
  pose proof (users_nonneg (op_ r) rs). pose proof (losers_nonneg (op_ r) lk).
  pose proof (b_kernels _ _ _ B (op_ r) o) as Hk.  apply elem_of_Permutation in Hr as [rs' Hrs].
  assert (Hperm : ∀ key, holders (op_ r) key rs = holders (op_ r) key (r :: rs')) by (intros key; by apply lsum_perm).
  destruct (destroy_effect r d o (b_wf _ _ _ B) (b_quiet _ _ _ B) Ho Hown) as (d' & t & H1).
  - lia.
  - intros key Hkey. specialize (Hk key Ho). rewrite Hperm, holders_cons, decide_True in Hk by done. pose proof (holders_nonneg (op_ r) key rs').
    unfold held in Hk. destruct (kernels_ (dispatchTable o) !! key); [by eexists|lia].
  - intros H1 key [e He]. specialize (Hk key Ho). rewrite Hperm, holders_cons in Hk. unfold held in Hk. rewrite He in Hk. pose proof (holders_nonneg (op_ r) key rs') as Hn.
    assert (users (op_ r) rs = users (op_ r) (r :: rs')) as Hu by (by apply lsum_perm). rewrite users_cons, decide_True in Hu by done. case_decide as Hd; [by apply Hd|lia].
  - by exists o, d', t.
Qed.

Lemma destroys_balanced d d' r rs rs' lk : balanced d rs lk → rs ≡ₚ r :: rs' → OperatorRegistrar_destroy r d = (Ok tt, d') → balanced d' rs' lk.
Proof.
  intros B Hrs E. assert (Hr : r ∈ rs) by (rewrite Hrs; by left). destruct (destroy_alive r d rs lk B Hr) as (o & d2 & t & Ho & E' & W & L & Ht & N).
  rewrite E' in E. injection E as ->. pose proof (b_room _ _ _ B) as Hroom.
  assert (Hu : ∀ op, users op rs = users op (r :: rs')) by (intros op; by apply lsum_perm).
  assert (Hh : ∀ op key, holders op key rs = holders op key (r :: rs')) by (intros op key; by apply lsum_perm).
  destruct (b_count _ _ _ B _ o Ho) as [Hc _]. rewrite Hu, users_cons, decide_True in Hc by done.
  pose proof (users_nonneg (op_ r) rs'). pose proof (losers_nonneg (op_ r) lk).
  assert (Hkeep : ∀ op', is_Some (node d op') → (op' = op_ r → refcount o ≠ 1%Z) → is_Some (node d' op')).
  { intros op' Hop' Hne. rewrite N. destruct (decide (op' = op_ r)); [rewrite decide_False by auto; by eexists|done]. }
  split.
  - done.
  - eapply quiet_listeners; [apply (b_quiet _ _ _ B)|done].
  - rewrite Hrs in Hroom. cbn [length] in Hroom. lia.
  - intros op' o'. rewrite N. destruct (decide (op' = op_ r)) as [->|Hne].
    + case_decide; [done|]. intros [= <-]. cbn. lia.
    + intros H'. destruct (b_count _ _ _ B op' o' H') as [H1 H2].  rewrite Hu, users_cons, decide_False in H1 by done. done.
  - intros r' Hr'. destruct (b_alive _ _ _ B r') as [Ha Hown]; [cbn; rewrite Hrs; by right|]. split; [|done]. apply Hkeep; [done|]. intros E1.
    apply elem_of_Permutation in Hr' as [rs2 Hrs2]. assert (users (op_ r) rs' = users (op_ r) (r' :: rs2)) as Hu2 by (by apply lsum_perm). rewrite users_cons, decide_True in Hu2 by done.
    pose proof (users_nonneg (op_ r) rs2). lia.
  - intros op' Hop'. apply Hkeep; [by apply (b_lost _ _ _ B)|]. intros ->. apply elem_of_Permutation in Hop' as [lk2 Hlk2].
    assert (losers (op_ r) lk = losers (op_ r) (op_ r :: lk2)) as Hl by (by apply lsum_perm). rewrite losers_cons, decide_True in Hl by done. pose proof (losers_nonneg (op_ r) lk2). lia.
  - intros op' o' key. rewrite N. destruct (decide (op' = op_ r)) as [->|Hne].
    + case_decide; [done|]. intros [= <-]. pose proof (b_kernels _ _ _ B _ o key Ho) as Hk. rewrite Hh, holders_cons in Hk. unfold held in *. cbn [dispatchTable]. rewrite (proj1 Ht).
      pose proof (holders_nonneg (op_ r) key rs'). unfold Table in *. destruct (key_of r) as [x|] eqn:Ek.
      * rewrite lookup_delete. destruct (decide (x = key)) as [->|Hx]; [rewrite decide_True in Hk by done|rewrite decide_False in Hk by naive_solver].
        { case_match; lia. }
        case_match; lia.
      * rewrite decide_False in Hk by naive_solver. lia.
    + intros H'. pose proof (b_kernels _ _ _ B op' o' key H') as Hk. rewrite Hh, holders_cons, decide_False in Hk by naive_solver. done.
Qed.

Lemma addListener_effect l d : operators_ (addRegistrationListener l d).2 = operators_ d ∧ next_node (addRegistrationListener l d).2 = next_node d ∧
  ∀ l', l' ∈ listeners_ (addRegistrationListener l d).2 → l' ∈ listeners_ d ∨ l' = l.
Proof.
  assert (H : wp (addRegistrationListener l) (λ _ d', operators_ d' = operators_ d ∧ next_node d' = next_node d ∧ listeners_ d' = listeners_ d ++ [l]) (λ _, same_operators d) d).
  { unfold addRegistrationListener. apply wp_bind, wp_get, wp_bind. apply (wp_mono _ (λ _, same_operators d)); [|intros _ d' (E1 & E2 & E3); apply wp_modify; cbn; by rewrite E2].
    apply (wp_foreach (same_operators d)); [|done]. intros x d' _ (E1 & E2 & E3). apply wp_bind, wp_modify, wp_lift. by case_match. }
  unfold wp in H. destruct (addRegistrationListener l d) as [[[]|e] d']; unfold same_operators in H; cbn in *; destruct H as (E1 & E2 & E3); (split_and!; [congruence..|]); intros l'; [rewrite E3, elem_of_app, list_elem_of_singleton; tauto|rewrite E2; by left].
Qed.
Lemma listens_balanced l d rs lk : (∀ s, onOperatorRegistered l s = Ok tt ∧ onOperatorDeregistered l s = Ok tt) →
  balanced d rs lk → balanced (addRegistrationListener l d).2 rs lk.
Proof.
  intros Hl B. destruct (addListener_effect l d) as (E1 & E2 & E3). assert (Hn : node (addRegistrationListener l d).2 = node d) by (unfold node; by rewrite E1).
  destruct B as [[W1 W2 W3] Q R C A L K]. split; rewrite ?Hn; try done.
  - split; rewrite ?Hn, ?E1, ?E2; done.
  - intros l' s [H| ->]%E3; [by apply Q|by apply Hl].
Qed.
Lemma start_balanced : balanced Dispatcher_make [] [].
Proof.
  split; cbn; try done; try (by intros ? ?%elem_of_nil).
  - split; cbn; [constructor|by intros ? ?%elem_of_nil|done].
  - by intros l s ?%elem_of_nil.
Qed.

(** ** Which kernels are in force *)

(** Each kernel of a table belongs to a registrar that is alive and was given that kernel. *)
Record in_force d (ws : list (OperatorRegistrar * option Entry)) : Prop := {
  k_given r e : (r, e) ∈ ws → has_kernel_ r = is_some e;
  k_kernels op o key e : node d op = Some o → kernels_ (dispatchTable o) !! key = Some e → ∃ r, (r, Some e) ∈ ws ∧ op_ r = op ∧ key_of r = Some key;
  k_fallback op o e : node d op = Some o → fallback_kernel_ (dispatchTable o) = Some e →
    ∃ r, (r, Some e) ∈ ws ∧ op_ r = op ∧ has_kernel_ r = true ∧ dispatch_key_ r = None
}.
Lemma origin_in_force d ws s op o : in_force d ws → origin s d op o →
  (∀ key e, kernels_ (dispatchTable o) !! key = Some e → ∃ r, (r, Some e) ∈ ws ∧ op_ r = op ∧ key_of r = Some key) ∧
  (∀ e, fallback_kernel_ (dispatchTable o) = Some e → ∃ r, (r, Some e) ∈ ws ∧ op_ r = op ∧ has_kernel_ r = true ∧ dispatch_key_ r = None).
Proof.
  intros K [[Ho _]|[-> ->]]; [|done]. split; [intros key e; by apply (k_kernels _ _ K)|intros e; by apply (k_fallback _ _ K)].
Qed.
Lemma constructs_in_force s key k c d d' ws lk r : balanced d ws.*1 lk → in_force d ws → OperatorRegistrar_make s key k c d = (Ok r, d') →
  in_force d' ((r, given k c) :: ws).
Proof.
  intros B K E. destruct (registrar_make_effect s key k c d (b_wf _ _ _ B) (b_quiet _ _ _ B))
    as [(e & E' & _)|(op & o & t & d2 & Hor & (_ & _ & N) & _ & [(r' & E' & Er & _ & Hgiven & Hkey & Hinst)|[[e E'] _]])]; [congruence| |congruence].
  rewrite E' in E. injection E as -> ->. destruct (origin_in_force _ _ s op o K Hor) as [Hks Hfb]. split.
  - intros r' e [[= -> ->]|Hin]%elem_of_cons; [done|by apply (k_given _ _ K)].
  - intros op' o' x e'. rewrite N. case_decide as Hop.
    + intros [= <-] Hx. cbn [dispatchTable] in Hx. subst op'.
      assert (kernels_ (dispatchTable o) !! x = Some e' ∨ given k c = Some e' ∧ key = Some x) as [Hold|[Hg ->]].
      { destruct (given k c) as [e|], key as [y|]; cbn [installs] in Hinst; [|destruct Hinst as [Ek _]|by subst t; left..]; [|left; congruence].
        destruct Hinst as (_ & Ek & _). rewrite Ek in Hx. unfold Table in *. rewrite lookup_insert in Hx. case_decide; [right|by left]. split; congruence. }
      * destruct (Hks x e' Hold) as (r' & Hr' & Ho' & Hk'). exists r'. split; [by right|done].
      * exists r. rewrite Hg. split; [by left|]. split; [done|]. unfold key_of. by rewrite Hgiven, Hkey, Hg.
    + intros Ho' Hx. destruct (k_kernels _ _ K op' o' x e' Ho' Hx) as (r' & Hr' & Hrest). exists r'. split; [by right|done].
  - intros op' o' e'. rewrite N. case_decide as Hop.
    + intros [= <-] Hx. cbn [dispatchTable] in Hx. subst op'.
      assert (fallback_kernel_ (dispatchTable o) = Some e' ∨ given k c = Some e' ∧ key = None) as [Hold|[Hg ->]].
      { destruct (given k c) as [e|], key as [y|]; cbn [installs] in Hinst; [destruct Hinst as (_ & _ & Ef)|destruct Hinst as [_ Ef]|by subst t; left..]; [left; congruence|right].
        split; congruence. }
      * destruct (Hfb e' Hold) as (r' & Hr' & Hrest). exists r'. split; [by right|done].
      * exists r. rewrite Hg. split; [by left|]. by rewrite Hgiven, Hg.
    + intros Ho' Hx. destruct (k_fallback _ _ K op' o' e' Ho' Hx) as (r' & Hr' & Hrest). exists r'. split; [by right|done].
Qed.
Lemma constructor_throws_in_force s key k c d d' ws lk e : balanced d ws.*1 lk → in_force d ws → OperatorRegistrar_make s key k c d = (Throw e, d') → in_force d' ws.
Proof.
  intros B K E. destruct (registrar_make_effect s key k c d (b_wf _ _ _ B) (b_quiet _ _ _ B))
    as [(x & E' & _)|(op & o & t & d2 & Hor & (_ & _ & N) & _ & [(r' & E' & _)|[[x E'] ->]])]; [by rewrite E' in E; injection E as _ <-|congruence|].
  rewrite E' in E. injection E as _ ->. destruct (origin_in_force _ _ s op o K Hor) as [Hks Hfb]. split; [apply K| |].
  - intros op' o' x' e'. rewrite N. case_decide; [subst op'; intros [= <-]; apply Hks|apply K].
  - intros op' o' e'. rewrite N. case_decide; [subst op'; intros [= <-]; apply Hfb|apply K].
Qed.
Lemma destroys_in_force d d' r e ws ws' lk : balanced d ws.*1 lk → in_force d ws → ws ≡ₚ (r, e) :: ws' → OperatorRegistrar_destroy r d = (Ok tt, d') → in_force d' ws'.
Proof.
  intros B K Hws E. assert (Hr : r ∈ ws.*1) by (rewrite Hws; by left). destruct (destroy_alive r d ws.*1 lk B Hr) as (o & d2 & t & Ho & E' & _ & _ & [Hks Hfb] & N).
  rewrite E' in E. injection E as ->. assert (Hother : ∀ r' e' (Q : Prop), (r', Some e') ∈ ws → (r' = r → Q) → Q ∨ (r', Some e') ∈ ws').
  { intros r' e' Q Hin HQ. rewrite Hws in Hin. apply elem_of_cons in Hin as [[= -> _]|Hin]; [left; by apply HQ|by right]. }
  split.
  - intros r' e' Hin. apply (k_given _ _ K). rewrite Hws. by right.
  - intros op' o' x e'. rewrite N. destruct (decide (op' = op_ r)) as [Hop|Hop].
    + case_decide; [done|]. intros [= <-] Hx. cbn [dispatchTable] in Hx. subst op'.
      assert (kernels_ (dispatchTable o) !! x = Some e' ∧ key_of r ≠ Some x) as [Hold Hne].
      { rewrite Hks in Hx. unfold Table in *. destruct (key_of r) as [y|]; [|done]. rewrite lookup_delete in Hx. case_decide; [done|]. split; congruence. }
      destruct (k_kernels _ _ K _ _ _ _ Ho Hold) as (r' & Hr' & Ho' & Hk'). exists r'.
      destruct (Hother r' e' False Hr' ltac:(intros ->; congruence)) as [[]|Hin]. done.
    + intros Ho' Hx. destruct (k_kernels _ _ K op' o' x e' Ho' Hx) as (r' & Hr' & Hop' & Hk'). exists r'.
      destruct (Hother r' e' False Hr' ltac:(intros ->; congruence)) as [[]|Hin]. done.
  - intros op' o' e'. rewrite N. destruct (decide (op' = op_ r)) as [Hop|Hop].
    + case_decide; [done|]. intros [= <-] Hx. cbn [dispatchTable] in Hx. subst op'. rewrite Hfb in Hx.
      destruct (has_kernel_ r && negb (is_some (dispatch_key_ r))) eqn:Hfr; [done|].
      destruct (k_fallback _ _ K _ _ _ Ho Hx) as (r' & Hr' & Ho' & Hh' & Hk'). exists r'.
      destruct (Hother r' e' False Hr') as [[]|Hin]; [|done]. intros ->. by rewrite Hh', Hk' in Hfr.
    + intros Ho' Hx. destruct (k_fallback _ _ K op' o' e' Ho' Hx) as (r' & Hr' & Hop' & Hk'). exists r'.
      destruct (Hother r' e' False Hr' ltac:(intros ->; congruence)) as [[]|Hin]. done.
Qed.

Definition sound_world (w : World) : Prop := balanced (dispatcher w) (registrars w) (lost w) ∧ in_force (dispatcher w) (owned w).
Lemma step_keeps_balance w w' : world_step w w' → sound_world w → sound_world w'.
Proof.
  intros H [B K]. destruct H as [s key k c d d' ws lk r Hroom E|s key k c d d' ws lk e Hroom E|d d' r e ws ws' lk Hws E|l d ws lk Hl]; cbn in *; unfold registrars in *; cbn in *.
  - split; [by eapply constructs_balanced|by eapply constructs_in_force].
  - split; [by eapply constructor_throws_balanced|by eapply constructor_throws_in_force].
  - split; [|by eapply destroys_in_force]. eapply (destroys_balanced d d' r ws.*1 ws'.*1); [done| |done]. cbn. by rewrite Hws.
  - split; [by apply listens_balanced|]. destruct (addListener_effect l d) as (E1 & _).
    split; unfold node; cbn [dispatcher owned]; rewrite ?E1; apply K.
Qed.
Lemma reachable_world_sound w : reachable w → sound_world w.
Proof. apply rtc_ind_r; [split; [apply start_balanced|]|]; [split; cbn; [by intros r e ?%elem_of_nil|done|done]|]. intros w1 w2 _ H B. by eapply step_keeps_balance. Qed.
Lemma reachable_balanced w : reachable w → balanced (dispatcher w) (registrars w) (lost w).
Proof. apply reachable_world_sound. Qed.
(** Nothing is left when nobody holds an operator. *)
Lemma balanced_empty d : balanced d [] [] → operators_ d = [].
Proof.
  intros B. destruct (operators_ d) as [|x ops] eqn:E; [done|]. destruct (find_node_first (operators_ d)) as (op & o & Ho); [by rewrite E|].
  destruct (b_count _ _ _ B op o Ho) as [H1 H2]. cbn in H1. lia.
Qed.
(** What a constructor and a destructor leave behind. *)
Lemma make_in_force s key k c d r d' : wf d → quiet d → OperatorRegistrar_make s key (Some k) (Some c) d = (Ok r, d') →
  ∃ o, node d' (op_ r) = Some o ∧
    match key with Some x => kernels_ (dispatchTable o) !! x | None => fallback_kernel_ (dispatchTable o) end = Some (mkEntry k c).
Proof.
  intros W Q E. destruct (registrar_make_effect s key (Some k) (Some c) d W Q) as [(e & E' & _)|(op & o & t & d2 & _ & (_ & _ & N) & _ & [(r' & E' & Er & _ & _ & _ & Hi)|[[e E'] _]])]; [congruence| |congruence].
  rewrite E' in E. injection E as -> ->. eexists. split; [by rewrite N, decide_True|]. cbn in *. destruct key as [x|]; [|apply Hi]. destruct Hi as (_ & Ek & _).
  rewrite Ek. unfold Table in *. apply lookup_insert_eq.
Qed.
Lemma removes_none r t t' : removes r t t' → has_kernel_ r = true →
  match dispatch_key_ r with Some x => kernels_ t' !! x | None => fallback_kernel_ t' end = None.
Proof.
  intros [Hk Hf] Hh. unfold key_of in Hk. rewrite Hh in Hk, Hf. destruct (dispatch_key_ r) as [x|]; [|done]. rewrite Hk. unfold Table in *. apply lookup_delete_eq.
Qed.
(** A registrar that is alive has its kernel in the table, when it has a key. *)
Lemma holder_in_force w r e key : sound_world w → (r, Some e) ∈ owned w → key_of r = Some key → ∀ o, node (dispatcher w) (op_ r) = Some o → kernels_ (dispatchTable o) !! key = Some e.
Proof.
  intros [B K] Hin Hkey o Ho. pose proof (b_kernels _ _ _ B _ o key Ho) as Hh. unfold registrars in Hh. apply elem_of_Permutation in Hin as [ws Hws].
  assert (holders (op_ r) key (owned w).*1 = holders (op_ r) key (r :: ws.*1)) as Hp by (apply lsum_perm; by rewrite Hws). rewrite Hp, holders_cons, decide_True in Hh by done.
  pose proof (holders_nonneg (op_ r) key ws.*1). unfold held in Hh. destruct (kernels_ (dispatchTable o) !! key) as [e'|] eqn:Ek; [|lia].
  destruct (k_kernels _ _ K _ o key e' Ho Ek) as (r' & Hr' & Ho' & Hk'). rewrite Hws in Hr'. apply elem_of_cons in Hr' as [[= _ ->]|Hr']; [done|].
  apply elem_of_Permutation in Hr' as [ws2 Hws2].
  assert (holders (op_ r) key ws.*1 = holders (op_ r) key (r' :: ws2.*1)) as Hp2 by (apply lsum_perm; by rewrite Hws2). rewrite holders_cons, decide_True in Hp2 by done.
  pose proof (holders_nonneg (op_ r) key ws2.*1). lia.
Qed.
End proofs.
