(* ===== verification/DispatchProperties.v ===== *)
(** * The dispatcher: properties

    Which kernel a call gets, and the balance of registrations; a registration that is
    refused too late. *)
From S2P Require Import Prelude CoreTypes JitTypes JitTypesSpec LeftRight Dispatcher DispatchProofs.
Local Open Scope nat_scope.
Local Open Scope list_scope.
#[local] Set Warnings "-clear-no-such-hyp".
Import JitTypes.
Import Dispatch.

Section properties.
Context {Kernel Creator Cache : Type} (create : Creator → outcome Cache).
#[local] Abbreviation Dispatcher := (Dispatcher (Kernel:=Kernel) (Creator:=Creator)).
#[local] Abbreviation DispatchTable := (DispatchTable (Kernel:=Kernel) (Creator:=Creator)).
#[local] Abbreviation OperatorDef := (OperatorDef (Kernel:=Kernel) (Creator:=Creator)).
#[local] Abbreviation Entry := (DispatchTableEntry (Kernel:=Kernel) (Creator:=Creator)).
#[local] Abbreviation World := (World (Kernel:=Kernel) (Creator:=Creator)).
Implicit Types (d : Dispatcher) (o : OperatorDef) (t : DispatchTable) (op : OperatorHandle) (r : OperatorRegistrar) (s : FunctionSchema) (w : World).
Implicit Types (args : list Argument) (vals below : Stack).

(** ** The strategy of a table belongs to its schema *)
Definition fits s t : Prop :=
  dispatch_strategy_ t = get_dispatch_strategy (arguments s) ∧ (is_valid_ (dispatch_strategy_ t) = false → kernels_ t = ∅).
Lemma make_fits s : fits s (DispatchTable_make s).
Proof. done. Qed.
(** An operation of a table keeps this. *)
Definition keeps_fit {A} (m : SE DispatchTable A) : Prop := ∀ s t, fits s t → fits s (m t).2.
Lemma registerKernel_fits key e : keeps_fit (table_registerKernel key e).
Proof.
  intros s [ks st n fb] [E H]. unfold table_registerKernel. rewrite run_get. cbn [dispatch_strategy_] in *. destruct (is_valid_ st) eqn:Ev; [|split; [done|]; intros _; by apply H].
  rewrite run_assert by done. unfold on_kernels. cbn [kernels_]. destruct (emplace key e ks) as [x ks']. split; [done|]. cbn. by rewrite Ev.
Qed.
Lemma deregisterKernel_fits key : keeps_fit (table_deregisterKernel key).
Proof.
  intros s [ks st n fb] [E H]. unfold table_deregisterKernel, on_kernels, erase, LeftRight.write. cbn in *.
  destruct (ks !! key) eqn:Ek; cbn; (split; [done|]); intros Ev; cbn in *; rewrite (H Ev) in *; [done|done].
Qed.
Lemma fallback_fits f : keeps_fit (set_fallback f).
Proof. by intros s [ks st n fb]. Qed.
Lemma isEmpty_fits : keeps_fit DispatchTable_isEmpty.
Proof. by intros s [ks st n fb]. Qed.

Definition tables_fit d : Prop := ∀ op o, node d op = Some o → fits (schema o) (dispatchTable o).
Definition keeps {A} (m : SE Dispatcher A) : Prop := ∀ d, tables_fit d → tables_fit (m d).2.
Lemma keeps_bind {A B} (m : SE Dispatcher A) (f : A → SE Dispatcher B) : keeps m → (∀ a, keeps (f a)) → keeps (m ≫= f).
Proof. intros Hm Hf d Hd. specialize (Hm d Hd). unfold mbind, SE_bind. destruct (m d) as [[a|e] d']; [by apply Hf|done]. Qed.
Lemma keeps_same {A} (m : SE Dispatcher A) : (∀ d, operators_ (m d).2 = operators_ d) → keeps m.
Proof. intros H d Hd op o. unfold node. rewrite H. apply Hd. Qed.
Lemma keeps_foreach {A} (xs : list A) (body : A → SE Dispatcher unit) : (∀ x, keeps (body x)) → keeps (foreach xs body).
Proof. intros H. induction xs as [|x xs IH]; [by apply keeps_same|]. by apply keeps_bind. Qed.
Lemma keeps_on_table {A} op (m : SE DispatchTable A) : keeps_fit m → keeps (on_table op m).
Proof.
  intros Hm d Hd. destruct (node d op) as [o|] eqn:Ho.
  - destruct (on_table_node op m d o Ho) as (d' & -> & _ & N). intros op' o'. cbn. rewrite N. case_decide; [intros [= <-]; exact (Hm _ _ (Hd op o Ho))|apply Hd].
  - unfold on_table. rewrite (run_bind_throw _ _ d (Undefined "use of an erased operator") d); [done|]. unfold deref, node in *. by rewrite Ho.
Qed.
Lemma keeps_refcount op n : keeps (update op (set_refcount n)).
Proof.
  intros d Hd. destruct (update_node op (set_refcount n) d) as (d' & -> & _ & N). intros op' o'. cbn. rewrite N.
  case_decide; [|apply Hd]. intros (o & Ho & ->)%fmap_Some. exact (Hd op' o Ho).
Qed.
Lemma keeps_erase op : keeps (erase_node op).
Proof.
  intros d Hd op' o'. replace (node (erase_node op d).2 op') with (if decide (op' = op) then None else node d op') by (symmetry; apply find_node_erase).
  case_decide; [done|]. apply Hd.
Qed.
Lemma keeps_findOrRegister s : keeps (findOrRegisterSchema_ s).
Proof.
  unfold findOrRegisterSchema_. apply keeps_bind; [by apply keeps_same|]. intros [op|].
  - apply keeps_bind; [by apply keeps_same|]. intros o. apply keeps_bind; [by apply keeps_same|]. intros []; by apply keeps_same.
  - intros d Hd op o. change (find_node op (operators_ d ++ [(next_node d, mkDef (DispatchTable_make s) s 0)]) = Some o → fits (schema o) (dispatchTable o)).
    rewrite find_node_app. destruct (find_node op (operators_ d)) eqn:E; [intros [= <-]; by apply (Hd op)|]. case_decide; [|done]. intros [= <-]. apply make_fits.
Qed.
Lemma keeps_registered op : keeps (callOnOperatorRegistered op).
Proof.
  apply keeps_bind; [by apply keeps_same|]. intros d. apply keeps_foreach. intros [i l]. apply keeps_bind; [by apply keeps_same|]. intros o.
  apply keeps_bind; intros; by apply keeps_same.
Qed.
Lemma keeps_deregistered op : keeps (callOnOperatorDeregistered op).
Proof.
  apply keeps_bind; [by apply keeps_same|]. intros d. apply keeps_foreach. intros [i l]. apply keeps_bind; [by apply keeps_same|]. intros o.
  apply keeps_bind; intros; by apply keeps_same.
Qed.
Lemma keeps_registerSchema s : keeps (registerSchema s).
Proof.
  apply keeps_bind; [apply keeps_findOrRegister|]. intros op. apply keeps_bind; [by apply keeps_same|]. intros o. cbv zeta. apply keeps_bind; [apply keeps_refcount|]. intros _.
  apply keeps_bind; [destruct (_ =? _)%Z; [apply keeps_registered|by apply keeps_same]|]. intros _. by apply keeps_same.
Qed.
Lemma keeps_deregisterSchema op : keeps (deregisterSchema op).
Proof.
  apply keeps_bind; [by apply keeps_same|]. intros o. apply keeps_bind; [apply keeps_same; by destruct (_ <? _)%Z|]. intros _. cbv zeta.
  apply keeps_bind; [apply keeps_refcount|]. intros _. destruct (_ =? _)%Z; [|by apply keeps_same].
  apply keeps_bind; [apply keeps_on_table, isEmpty_fits|]. intros e. apply keeps_bind; [apply keeps_same; by destruct e|]. intros _.
  apply keeps_bind; [apply keeps_deregistered|]. intros _. apply keeps_erase.
Qed.
Lemma keeps_make s key k c : keeps (OperatorRegistrar_make s key k c).
Proof.
  apply keeps_bind; [apply keeps_registerSchema|]. intros op. apply keeps_bind; [apply keeps_same; by destruct (Bool.eqb _ _)|]. intros _.
  apply keeps_bind; [|intros _; by apply keeps_same]. destruct k as [k|], c as [c|]; try by apply keeps_same.
  destruct key as [key|]; [apply keeps_on_table, registerKernel_fits|apply keeps_on_table, fallback_fits].
Qed.
Lemma keeps_destroy r : keeps (OperatorRegistrar_destroy r).
Proof.
  unfold OperatorRegistrar_destroy. assert (∀ A (m : SE Dispatcher A), keeps m → keeps (terminates m)) as H by done. apply H.
  destruct (owns_registration_ r); [|by apply keeps_same]. apply keeps_bind; [|intros _; apply keeps_deregisterSchema]. destruct (has_kernel_ r); [|by apply keeps_same].
  destruct (dispatch_key_ r); [apply keeps_on_table, deregisterKernel_fits|apply keeps_on_table, fallback_fits].
Qed.
Lemma reachable_fit w : reachable w → tables_fit (dispatcher w).
Proof.
  apply (rtc_ind_r (λ w, tables_fit (dispatcher w))); [done|]. intros w1 w2 _ H Hd. destruct H as [s key k c d d' ws lk r _ E|s key k c d d' ws lk e _ E|d d' r e ws ws' lk _ E|l d ws lk _]; cbn in *.
  - pose proof (keeps_make s key k c d Hd) as H. by rewrite E in H.
  - pose proof (keeps_make s key k c d Hd) as H. by rewrite E in H.
  - pose proof (keeps_destroy r d Hd) as H. by rewrite E in H.
  - intros op o. unfold node. destruct (addListener_effect l d) as (-> & _). apply Hd.
Qed.

(** ** Which kernel a call gets *)

(** The first argument of a tensor type, whether it is a list, and its value. *)
Fixpoint first_tensor args vals : option (bool * IValue) :=
  match args, vals with
  | arg :: args, v :: vals =>
      if isSubtypeOf (pointee (type_ arg)) TensorType then Some (false, v)
      else if isSubtypeOf (pointee (type_ arg)) (ListType TensorType) then Some (true, v)
      else first_tensor args vals
  | _, _ => None
  end.
Definition type_id_of (v : bool * IValue) : outcome Z :=
  match v with
  | (false, TensorValue id) => Ok id
  | (true, TensorListValue (id :: _)) => Ok id
  | (true, TensorListValue []) => Throw (RuntimeError "Tried to dispatch based on an empty tensor list.")
  | _ => AT_ERROR "assertion failed"
  end.
(** The kernel for the type of that value, or else the fallback. *)
Definition kernel_for o vals : outcome Entry :=
  let fallback := match fallback_kernel_ (dispatchTable o) with Some e => Ok e | None => AT_ERROR "Didn't find kernel to dispatch to" end in
  match first_tensor (arguments (schema o)) vals with
  | Some v => id ← type_id_of v; match kernels_ (dispatchTable o) !! id with Some e => Ok e | None => fallback end
  | None => fallback
  end.

Lemma peek_top below v vals : peek (below ++ v :: vals) 0 (S (length vals)) = Ok v.
Proof.
  unfold peek. rewrite length_app. cbn [length]. rewrite (proj2 (Nat.leb_le _ _)) by lia. replace (_ - _ + 0) with (length below) by lia.
  unfold Stack in *. by rewrite list_lookup_middle.
Qed.
Lemma strategy_first_tensor args vals below : length vals = length args →
  match first_tensor args vals with
  | Some v => is_valid_ (get_dispatch_strategy args) = true ∧ get_dispatch_key (get_dispatch_strategy args) (below ++ vals) = type_id_of v
  | None => is_valid_ (get_dispatch_strategy args) = false
  end.
Proof.
  revert vals below. induction args as [|arg args IH]; intros [|v vals] below Hl; try done. injection Hl as Hl. cbn [first_tensor get_dispatch_strategy length].
  assert (Hpeek : peek (below ++ v :: vals) 0 (S (length args)) = Ok v) by (rewrite <- Hl; apply peek_top).
  destruct (isSubtypeOf _ TensorType).
  { split; [done|]. unfold get_dispatch_key. cbn [reverse_index_of_first_tensor_arg_ first_tensor_arg_is_tensor_list_]. rewrite Hpeek. by destruct v. }
  destruct (isSubtypeOf _ (ListType TensorType)); [|replace (below ++ v :: vals) with ((below ++ [v]) ++ vals) by (by rewrite <- app_assoc); by apply IH].
  split; [done|]. unfold get_dispatch_key. cbn [reverse_index_of_first_tensor_arg_ first_tensor_arg_is_tensor_list_]. rewrite Hpeek. destruct v as [| | | | | |[]|]; done.
Qed.
Lemma find_kernel o vals below : fits (schema o) (dispatchTable o) → length vals = length (arguments (schema o)) →
  table_find (below ++ vals) (dispatchTable o) = (kernel_for o vals, dispatchTable o).
Proof.
  intros [E H] Hl. unfold kernel_for, table_find. pose proof (strategy_first_tensor _ vals below Hl) as Hs. rewrite <- E in Hs. destruct (dispatchTable o) as [ks st n fb].
  cbn [dispatch_strategy_ kernels_ fallback_kernel_] in *. rewrite run_get. cbn [dispatch_strategy_]. destruct (first_tensor _ vals) as [v|].
  - destruct Hs as [-> ->]. unfold mbind, SE_bind, lift. destruct (type_id_of v) as [id|e]; [|done]. cbn. unfold on_kernels, table_lookup, LeftRight.read. cbn. destruct (ks !! id); [done|]. by destruct fb.
  - rewrite Hs. rewrite (H Hs). by destruct fb.
Qed.
(** Looking up changes nothing. *)
Lemma on_table_same {A} op (m : SE DispatchTable A) d o a : wf d → node d op = Some o → m (dispatchTable o) = (a, dispatchTable o) → on_table op m d = (a, d).
Proof.
  intros W Ho Hm. unfold on_table. rewrite (run_bind _ _ _ _ _ (deref_Ok op d o Ho)). cbv zeta. rewrite Hm. destruct d as [ops n ls ev]. apply (f_equal (λ x, (a, mkDispatcher x n ls ev))). cbn [operators_].
  transitivity (id <$> ops); [|by rewrite list_fmap_id]. apply list_fmap_ext. intros i [op' o'] Hx%list_elem_of_lookup_2. cbn.
  destruct (Nat.eqb_spec op' op) as [->|]; [|done]. pose proof (elem_find_node op o' ops (wf_nodup _ W) Hx) as E. assert (o' = o) as -> by (change (find_node op ops = Some o) in Ho; congruence). by destruct o.
Qed.

(** C15: in every reachable world a call with values for all arguments on top of its stack gets
    the kernel registered for the type of its first tensor argument, the fallback if there is
    none, and an error if there is none either; what lies below on the stack does not
    matter, the kernel gets a cache of its own, and nothing changes. *)
Theorem lookup_dispatches (w : World) op o below vals (Hw : reachable w) (Ho : node (dispatcher w) op = Some o)
  (Hl : length vals = length (arguments (schema o))) :
  lookup create op (below ++ vals) (dispatcher w) =
    (e ← kernel_for o vals; c ← create (cache_creator_func e); Ok (mkOpKernel (kernel_func e) c), dispatcher w).
Proof.
  unfold lookup. pose proof (find_kernel o vals below (reachable_fit w Hw op o Ho) Hl) as E.
  pose proof (on_table_same op _ (dispatcher w) o _ (b_wf _ _ _ (reachable_balanced w Hw)) Ho E) as E'.
  unfold mbind at 1, SE_bind. rewrite E'. by destruct (kernel_for o vals).
Qed.

(** ** Registrations balance *)
(** C16: registrars that come and go in any order, constructors that throw included, never
    get out of step with the operators.  The counter of an operator is the number of its
    registrars that are alive, plus the registrations lost in constructors that threw.  The
    kernel for a dispatch key is exactly the one of the registrar that holds this key, and
    there is none when no registrar holds it.  A fallback kernel, if there is one, is that
    of a registrar for the fallback that is alive; there may be none although such a
    registrar is alive, because the destructor of another one takes it away too
    (DispatchTable.h, deregisterFallbackKernel).  A constructor that returns has put its
    kernel in force; the destructor of every registrar that is alive returns and has taken
    the kernel of its key, or the fallback kernel, out of force, and that of one that was
    moved from does nothing; and when nobody holds or has lost an operator, no operator is
    left. *)
Theorem registrars_balanced (w : World) (Hw : reachable w) :
  (∀ op o, node (dispatcher w) op = Some o →
     refcount o = (users op (registrars w) + losers op (lost w))%Z ∧
     (∀ key e, kernels_ (dispatchTable o) !! key = Some e ↔ ∃ r, (r, Some e) ∈ owned w ∧ op_ r = op ∧ key_of r = Some key) ∧
     (∀ e, fallback_kernel_ (dispatchTable o) = Some e → ∃ r, (r, Some e) ∈ owned w ∧ op_ r = op ∧ has_kernel_ r = true ∧ dispatch_key_ r = None)) ∧
  (∀ s key k c r d', OperatorRegistrar_make s key (Some k) (Some c) (dispatcher w) = (Ok r, d') →
     ∃ o, node d' (op_ r) = Some o ∧
       match key with Some x => kernels_ (dispatchTable o) !! x | None => fallback_kernel_ (dispatchTable o) end = Some (mkEntry k c)) ∧
  (∀ r e, (r, e) ∈ owned w →
     (∃ d', OperatorRegistrar_destroy r (dispatcher w) = (Ok tt, d') ∧
        ∀ o, node d' (op_ r) = Some o → has_kernel_ r = true →
          match dispatch_key_ r with Some x => kernels_ (dispatchTable o) !! x | None => fallback_kernel_ (dispatchTable o) end = None) ∧
     (OperatorRegistrar_move r).1 = r ∧ OperatorRegistrar_destroy (OperatorRegistrar_move r).2 (dispatcher w) = (Ok tt, dispatcher w)) ∧
  (registrars w = [] → lost w = [] → operators_ (dispatcher w) = []).
Proof.
  pose proof (reachable_world_sound w Hw) as S. pose proof S as [B K]. split_and!.
  - intros op o Ho. split_and!; [by apply (b_count _ _ _ B)| |intros e; by apply (k_fallback _ _ K)]. intros key e. split; [by apply (k_kernels _ _ K)|].
    intros (r & Hr & <- & Hk). by apply (holder_in_force w r e key S Hr Hk).
  - intros s key k c r d' E. by apply (make_in_force s key k c (dispatcher w) r d' (b_wf _ _ _ B) (b_quiet _ _ _ B)).
  - intros r e Hr. split; [|done]. assert (Hr' : r ∈ registrars w) by (apply list_elem_of_fmap; by exists (r, e)).
    destruct (destroy_alive r (dispatcher w) (registrars w) (lost w) B Hr') as (o & d' & t & _ & E & _ & _ & Ht & N). exists d'. split; [done|].
    intros o'. rewrite N, decide_True by done. case_decide; [done|]. intros [= <-] Hh. by apply removes_none in Ht.
  - intros Hr Hl. apply balanced_empty. by rewrite Hr, Hl in B.
Qed.
(** Why registrations are lost: a kernel for a type of tensor is refused when the schema has
    no tensor arguments, after the schema is registered and counted. *)
Lemma refused_registration_leaks s key k c : is_valid_ (get_dispatch_strategy (arguments s)) = false →
  ∃ e d' o, OperatorRegistrar_make s (Some key) (Some k) (Some c) Dispatcher_make = (Throw e, d') ∧ node d' 0 = Some o ∧ schema o = s ∧ refcount o = 1%Z.
Proof.
  intros Hv. eexists _, (mkDispatcher [(0, mkDef (DispatchTable_make s) s 1)] 1 [] []), _. split; [|done].
  unfold OperatorRegistrar_make. rewrite (run_bind _ _ _ 0 (mkDispatcher [(0, mkDef (DispatchTable_make s) s 1)] 1 [] [])) by done. rewrite run_assert by done.
  apply run_bind_throw. unfold registerKernel, on_table. rewrite (run_bind _ _ _ (mkDef (DispatchTable_make s) s 1) _) by done. cbv zeta.
  unfold table_registerKernel. rewrite run_get. cbn [dispatchTable dispatch_strategy_ DispatchTable_make]. by rewrite Hv.
Qed.
End properties.

(** ** A world with two registrars *)
Local Open Scope string_scope.
Local Open Scope nat_scope.
Local Open Scope list_scope.
Definition sample_argument (n : string) (address : nat) (ty : Ty) : Argument := mkArgument n (mkTypePtr address ty) None None false None.
Definition sample_schema : FunctionSchema :=
  mkSchema "aten::scale" "" [sample_argument "factor" 1 IntType; sample_argument "self" 2 TensorType] [sample_argument "" 2 TensorType] false false.
Definition sample_registrations : list (option Z) := [Some 7%Z; None].
Definition register_all (keys : list (option Z)) : World (Kernel:=nat) (Creator:=nat) :=
  foldr (λ key w, match OperatorRegistrar_make sample_schema key (Some (length (registrars w))) (Some 0) (dispatcher w) with
                  | (Ok r, d) => mkWorld d ((r, given (Some (length (registrars w))) (Some 0)) :: owned w) (lost w) | (Throw _, _) => w end) (mkWorld Dispatcher_make [] []) keys.
Definition sample_world : World (Kernel:=nat) (Creator:=nat) := register_all sample_registrations.
Lemma register_all_reachable keys : (Z.of_nat (length keys) < 2 ^ 64 - 1)%Z →
  reachable (register_all keys) ∧ length (registrars (register_all keys)) ≤ length keys ∧ lost (register_all keys) = [].
Proof.
  induction keys as [|key keys IH]; intros Hlt; [split; [apply rtc_refl|done]|]. cbn [length] in Hlt. destruct IH as (IH & Hl & Hk); [lia|].
  cbn [register_all foldr]. fold (register_all keys). destruct (register_all keys) as [d ws lk]. unfold registrars in *. cbn [dispatcher owned lost] in *. subst lk.
  destruct (OperatorRegistrar_make _ _ _ _ d) as [[r|e] d'] eqn:E; cbn [owned lost fst]; rewrite length_fmap in Hl; [|split_and!; [done|rewrite length_fmap; cbn [length]; lia|done]].
  split_and!; [|rewrite length_fmap; cbn [length]; lia|done]. eapply rtc_r; [exact IH|]. eapply constructs; [|exact E]. unfold room. rewrite length_fmap. cbn [length]. lia.
Qed.
Lemma sample_world_reachable : reachable sample_world.
Proof. by apply register_all_reachable. Qed.

Definition sample_operator : OperatorDef (Kernel:=nat) (Creator:=nat) := default (mkDef (DispatchTable_make sample_schema) sample_schema 0) (node (dispatcher sample_world) 0).
Lemma lookup_dispatches_witness :
  lookup Ok 0 [StringValue "below"; IntValue 3; TensorValue 7] (dispatcher sample_world) = (Ok (mkOpKernel 1 0), dispatcher sample_world) ∧
  lookup Ok 0 [IntValue 3; TensorValue 8] (dispatcher sample_world) = (Ok (mkOpKernel 0 0), dispatcher sample_world).
Proof.
  split.
  - etransitivity; [apply (lookup_dispatches Ok sample_world 0 sample_operator [StringValue "below"] [IntValue 3; TensorValue 7] sample_world_reachable); by vm_compute|by vm_compute].
  - etransitivity; [apply (lookup_dispatches Ok sample_world 0 sample_operator [] [IntValue 3; TensorValue 8] sample_world_reachable); by vm_compute|by vm_compute].
Defined.
Lemma registrars_balanced_witness : length (registrars sample_world) = 2 ∧
  (∃ r, (r, Some (mkEntry 0 0)) ∈ owned sample_world ∧ has_kernel_ r = true ∧ dispatch_key_ r = None) ∧
  (∀ r e, (r, e) ∈ owned sample_world → ∃ d', OperatorRegistrar_destroy r (dispatcher sample_world) = (Ok tt, d')).
Proof.
  split; [by vm_compute|]. split.
  - destruct (proj2 (proj2 (proj1 (registrars_balanced sample_world sample_world_reachable) 0 sample_operator ltac:(by vm_compute))) (mkEntry 0 0)) as (r & Hr & _ & H);
      [by vm_compute|by exists r].
  - intros r e Hr. destruct (registrars_balanced sample_world sample_world_reachable) as (_ & _ & H & _). destruct (H r e Hr) as [(d' & E & _) _]. by exists d'.
Defined.
